(* ===== verification/_CoqProject ===== *)
-Q . S2P
Prelude.v
Ids.v
Bag.v
SafeMath.v
Forest.v
Snowball.v
SnowTree.v
SnowTreeSafety.v
Snowman.v
SnowmanVotes.v
SnowmanState.v
SnowmanDecide.v
SnowmanSafety.v
SnowmanConfidence.v
Sampler.v
Validators.v
Bootstrapper.v
LinkedList.v
LinkedHashmap.v
VoteGraph.v
PrefixGroups.v
EarlyTermPoll.v
PollSet.v
LRUCache.v
Deque.v
AncestorTree.v
Bytes.v
Packer.v
Gas.v
GasPrice.v
ValidatorFee.v
Reward.v
Database.v
MemDB.v
VersionDB.v
PrefixDB.v
IntervalTree.v
BlockStorage.v
Scheduler.v
BiMap.v
Codec.v
CodecEncode.v
CodecDecode.v
CodecManager.v
MerkleKey.v
MerkleCodec.v
MerkleTree.v
MerkleView.v
MerkleSpec.v
MerkleInv.v
MerkleInsert.v
MerkleRemove.v
MerkleHash.v
MerkleRoot.v
MerkleBinding.v
MerkleProof.v
MerkleVerify.v
MerkleSound.v
MerkleHonest.v
MerkleProto.v
LinkedDB.v
LinkedDBSpec.v
LinkedStore.v
