(* ===== verification/Prelude.v ===== *)
(** * Consensus, validators, fees and their data structures: a verification development

    The program is a node of a proof-of-stake network, in Go.  This library models
    the parts that decide which blocks are accepted, the data structures these
    parts run on, and the rules for fees and rewards, and proves them correct.
    Definitions carry the names of the functions they translate where the language
    allows it (a method [Add] of a type becomes [ts_Add], [set_Add], ... when the
    name is taken); comments name the method.

    ** How the program is modelled

    - Integers keep their width: [Z] with the wrap-around or the overflow check of
      the source written out ([wrap64], [safe_Add], [wrap_int]).
    - Methods that change a struct take and return a record; methods that can fail
      return [result], and code that can dereference nil or index out of range
      returns [option] or a [stop] value, so that its absence is a theorem.
    - Pointers that are shared are locations in a heap: list elements
      ([LinkedList]), polls ([PollSet]), intervals ([IntervalTree]), jobs
      ([Scheduler]), nodes of the Merkle trie ([MerkleView]).
    - Iteration over a Go map takes its order from the class [MapRange]; theorems
      hold for every order.
    - Loops without a structural measure take fuel; see "Fuel" below.
    - Code outside the repository is a class with its documented laws: the random
      source ([Sampler.Source]), the 256-bit integers of the fee formula
      ([GasPrice]) and the B-tree of the interval tree ([IntervalTree.BTree]).  The
      hash function ([sha256]), the pool of key buffers and the parser of blocks are
      parameters.  Calls to the virtual
      machine are recorded in a log, and an oracle decides which of them fail.
    - Interfaces of the program are classes with laws that the implementations
      discharge: [SnowFactory]/[SnowLaws], [Poll]/[PollLaws],
      [Database]/[DatabaseLaws], [KeyValueWriterDeleter]/[WriterLaws],
      [TypeCodec]/[TypeCodecLaws].
    - Code that calls back into a component is a machine with a stack
      ([Scheduler]).

    ** Parts

    - [Ids] (src/ids): identifiers as 32 bytes, bits and bit ranges.
    - [Bag] (src/utils/bag): counted votes with a threshold.
    - [SafeMath] (src/utils/math): checked arithmetic.
    - [Forest]: sums over lists and ancestors in a forest (no source).
    - [Snowball] (src/snow/consensus/snowball): parameters, and the unary, binary
      and n-nary slush, snowflake and snowball instances, behind the interface
      [SnowFactory]/[SnowLaws] that the tree is proved against.
    - [SnowTree], [SnowTreeSafety] (tree.go of that package): the modified Patricia
      tree of instances over the bits of the choices.
    - [Snowman] (src/snow/consensus/snowman): [Topological], the tree of processing
      blocks.  [SnowmanVotes] proves the topological sort of the votes,
      [SnowmanState] states the invariant and proves [Add], [SnowmanDecide] the
      acceptance and transitive rejection, [SnowmanSafety] the loop of [vote], the
      preferred branch and sequences of calls, and [SnowmanConfidence] the runs of
      polls behind an acceptance.
    - [VoteGraph], [PrefixGroups], [EarlyTermPoll], [PollSet]
      (src/snow/consensus/snowman/poll): polls that end early and the ordered set
      of polls; [PollSet] is proved against the class [Poll]/[PollLaws], which
      [EarlyTermPoll] implements.
    - [Bootstrapper] (src/snow/consensus/snowman/bootstrapper): the polls that find
      a starting block.
    - [AncestorTree] (src/snow/engine/snowman/ancestor): partial views of the tree
      of unverified blocks.
    - [Sampler] (src/utils/sampler), [Validators] (src/snow/validators): weighted
      sampling and the manager of validator sets.
    - [LinkedList], [LinkedHashmap] (src/utils/linked), [LRUCache] (src/cache),
      [Deque] (src/utils/buffer): containers.
    - [Bytes]: big-endian integers and the order of byte strings (no source).
    - [Packer] (src/utils/wrappers): the byte encoding of values.
    - [Codec] (src/codec/reflectcodec): marshalling by reflection, over Go types and
      values as data; [CodecEncode] gives the encoding as a function of the value and
      proves that marshalling writes it, [CodecDecode] proves unmarshalling sound and
      complete for it, and [CodecManager] (src/codec, linearcodec, hierarchycodec)
      has the registries of types and the manager of versions.  [BiMap]
      (src/utils/bimap) is the two-way map of the registries.
    - [Database] (src/database: interfaces, batches, helpers), [MemDB],
      [VersionDB], [PrefixDB] (src/database/memdb, versiondb, prefixdb): key-value
      stores and the layers over them; [LinkedDB] (src/database/linkeddb/linkeddb.go), a
      store that keeps its entries as a linked list inside another one, with
      [LinkedDBSpec] its abstraction to a list and [LinkedStore] (codec.go) its nodes
      stored with the codec.
    - [IntervalTree] (src/snow/engine/snowman/bootstrap/interval), [BlockStorage]
      (storage.go of bootstrap): the heights and blocks fetched while a node
      catches up, and their execution.
    - [Scheduler] (src/snow/engine/snowman/job): jobs that wait for dependencies.
    - [MerkleKey] (src/x/merkledb/key.go): keys of the Merkle trie as packed bits;
      [MerkleCodec] (codec.go): the bytes of its nodes; [MerkleView] (node.go,
      hashing.go, trie.go, view.go): views, which apply changes to a trie and hash it;
      [MerkleProof] (proof.go, trie.go): making and verifying proofs of keys;
      [MerkleProto] (proof.go): proofs as messages.
    - [MerkleTree]: the compressed trie of a map as a function of the map (no source);
      [MerkleSpec]: its nodes, identifiers and root, and what it means that a trie
      holds a map ([represents]).  [MerkleInv] states the invariant of a view while
      changes are applied, [MerkleInsert] and [MerkleRemove] prove the two changes,
      [MerkleHash] the hashing in shared buffers, [MerkleRoot] the whole view and
      [MerkleBinding] that the root binds the map.  [MerkleVerify] proves what
      [addPathInfo] builds and hashes, [MerkleSound] what an accepted proof shows, and
      [MerkleHonest] what [GetProof] makes.
    - [Gas], [GasPrice] (src/vms/components/gas), [ValidatorFee]
      (src/vms/platformvm/validators/fee), [Reward] (src/vms/platformvm/reward).

    ** What the theorems show

    - One decision: a snow tree finalizes a choice only after [Beta] consecutive
      polls of [AlphaConfidence] votes, does so as soon as such a run is complete,
      and never changes its mind ([tree_finalization_safe], [tree_finalizes],
      [tree_irrevocable]; [nnary_snowflake_history] for one instance).
    - Chains of decisions: from [Initialize], for any issued blocks and any polls
      of at most [K] votes, every call of [Topological] returns what the history of
      calls says ([snowman_total]),
      the accepted blocks are a chain and rejections conflict with it
      ([snowman_accepts_chain]), each block is decided at most once
      ([snowman_decides_once]), the preferred branch is tracked exactly
      ([snowman_preferred_branch]), votes are propagated to ancestors exactly
      ([vote_propagation]), and a block is accepted only after [Beta] consecutive
      polls in which it and its descendants had [AlphaConfidence] votes, although
      resets are applied lazily ([snowman_accept_beta]).
    - Polls: a poll reports that it is finished exactly when no further response
      can matter ([early_term_exact]), with the groups of shared bit prefixes it
      watches being the right ones ([prefix_groups_exact]), and a set of polls delivers
      exactly what a queue of its polls does ([poll_set_fifo]).
    - Validators and sampling: refinement of the manager to a map of weights, what
      listeners learn, and what samples contain; exactness and uniformity of the
      samplers; the bootstrap majority.
    - Storage: the databases answer any sequence of operations, batches and open
      iterators as plain maps ([memdb_refines], [versiondb_refines]), and databases
      with prefixes none of which extends another do not interfere
      ([prefixdb_isolated]); the linked
      database is a list of entries, newest first ([linkeddb_refines]).
    - Catching up: the interval tree is a set of heights that survives restarts
      ([interval_tree_refines]), the identifiers to fetch are exactly the gaps
      ([missing_blocks_exact]) and stay so while blocks of a chain are added
      ([process_tracks_gaps]), and blocks are executed in order, once, and resumably
      after a halt ([execute_resumable]).
    - Jobs run once, when and only when their dependencies are resolved
      ([scheduler_exact]).
    - Containers: the linked list, hash map, caches, deque, bounded queue and
      ancestor tree each refine a plain sequence, association list, map or set of
      edges; packing and unpacking are inverse and unpacking is typed.
    - Encoding: what the codec writes it reads back, in exactly the size it computed
      ([codec_roundtrip]), and bytes it accepts are the only bytes of the value they
      stand for ([codec_canonical]).
    - The Merkle trie: operations on packed keys are operations on strings of bits
      ([merkle_keys_exact]); nodes have one encoding ([dbnode_codec_exact]); a view
      computes the root of the changed map, for every order of iteration and every
      content of its buffers, and holds that map ([view_root_canonical]); equal roots
      mean equal maps, when no two of the strings that were hashed collide
      ([view_root_binds]).
    - Proofs of the Merkle trie: the proof that a view makes is accepted
      ([proofs_verify]); an accepted proof shows the value of its key, and shows that
      the key is absent when its path leaves the way to the key ([verify_sound]), which
      is not checked ([exclusion_not_sound]); messages are read back
      ([proof_messages_roundtrip]).
    - Economics: the price loop computes its specification and terminates, costs
      and durations are exact, gas is rate limited, rewards are exact and bounded.

    Divergences that theorems show: [MoveBefore_detached], [sized_put_growth],
    [lru_put_present_evicts], [SecondsRemaining_zero_constant], [exclusion_not_sound]
    and [negative_key_accepted].

    ** Hypotheses

    Chain consensus is proved for blocks taken from a universe in which an
    identifier determines its block and heights follow parents ([universe_ok]),
    for parameters that [Verify] accepts, and for virtual-machine calls that
    succeed; the confidence theorem also assumes that no block has the empty
    identifier, which [vote] uses for "no next block".  [execute] is proved resumable for
    calls of the virtual machine that succeed.  The packer is proved for byte slices
    shorter than 2^32 bytes, whose length fits its prefix.  Rewards are proved for a
    supply above zero and at most the cap.  The sized cache keeps its
    bound when the size of an entry depends on its key only.  The layers over a
    database are proved for any database that keeps the laws, with a database below
    that is not closed meanwhile; [SetDatabase] is modelled but not used while
    iterators are open.  Stored blocks are blocks the parser returns for their own
    bytes.  The codec is proved for values that have the type they are marshalled at,
    with maps whose keys can be hashed and have different encodings, and for a maximal
    size below 2^62; the struct types of the program, which types can be compared and
    which type implements which interface are parameters.  Unmarshalling panics on
    arrays of a named byte type and on keys that cannot be hashed, and does not end on a
    type that contains itself through pointers and fields only, so that its theorems are
    about types without these ([byte_arrays], [unmarshalable]).  A view is proved over any trie that holds a map ([represents]), which
    the view itself is shown to be again, with keys that are bytes; the theorems about
    hashes assume that keys are shorter than 2^64 bits, and that the hash has no
    collision among the finitely many byte strings that are hashed for the roots and
    proofs at hand ([coll_free], with [hashed_strings] and [proof_strings]).  Proofs are verified with keys of whole tokens.

    ** Fuel

    Walks over blocks get one more step than there are blocks, sorting and
    rejecting likewise ([block_fuel]); the ancestor walks one more than there are
    edges; cache loops as many as there are entries; [collect] one more than there
    are entries; loops over a database iterator one more than it has entries;
    [process] two more than there are ancestors; [execute] one more than there are
    stored blocks; the heap walk of the sampler the number of its elements; vote
    graphs their number of vertices; prefix groups the number of bits left;
    unmarshalling the depth of the value that is encoded, or of its type once for every
    byte and once more; the walk to a key of the
    Merkle trie one more than its bits, hashing one more than the bits of the longest
    changed key.  The
    theorems prove that these bounds suffice: the result is never the value that
    stands for the end of the fuel.  The price loop and the rejection sampling loop
    have no bound in the source; their theorems say that some fuel suffices
    (for the sampler: that the first acceptable draw is returned).

    ** Not modelled

    Networking, message encoding by protobuf, the storage engines below the
    databases (third-party), the persistence, caching, history and synchronisation of
    the Merkle database, its proofs of ranges and of changes beyond their messages,
    child views, invalidation and commit of views, the virtual machines beyond fees
    and rewards, the API, configuration, wallet, and logging,
    tracing and metrics everywhere.  Of the modelled packages, printing, JSON,
    floating-point ratios and locks are left out; a method that holds a lock is one
    step.  The engines that drive consensus and bootstrapping exchange messages and
    set timers around the parts modelled here; the throttlers of messages and the
    flow checks of transactions are the next candidates. *)
From stdpp Require Export base tactics numbers list gmap sets fin_maps.
From Stdlib Require Export Lia ZArith.

#[global] Open Scope Z_scope.

(** ** Fallible code *)

(** A Go function that returns [(T, error)]: exactly one of the two is used. *)
Inductive result (A E : Type) : Type :=
| Ok (a : A)
| Err (e : E).
Arguments Ok {A E} a.
Arguments Err {A E} e.

Definition rbind {A B E} (r : result A E) (k : A → result B E) : result B E :=
  match r with Ok a => k a | Err e => Err e end.

Declare Scope go_scope.
Delimit Scope go_scope with go.
Notation "'let!' x := c 'in' k" := (rbind c (λ x, k))
  (at level 10, x pattern, c at level 100, k at level 200) : go_scope.

Lemma rbind_Ok {A B E} (r : result A E) (k : A → result B E) b :
  rbind r k = Ok b ↔ ∃ a, r = Ok a ∧ k a = Ok b.
Proof. destruct r; simpl; naive_solver. Qed.

Lemma rbind_Err {A B E} (r : result A E) (k : A → result B E) e :
  rbind r k = Err e ↔ r = Err e ∨ ∃ a, r = Ok a ∧ k a = Err e.
Proof. destruct r; simpl; naive_solver. Qed.

(** ** Machine integers *)

Definition MaxUint64 : Z := 2 ^ 64 - 1.
Definition wrap64 (z : Z) : Z := z mod 2 ^ 64.
Definition is_u64 (z : Z) : Prop := 0 ≤ z ≤ MaxUint64.

#[global] Instance is_u64_dec z : Decision (is_u64 z).
Proof. unfold is_u64. apply _. Defined.

Lemma wrap64_id z : is_u64 z → wrap64 z = z.
Proof. unfold is_u64, MaxUint64, wrap64. intros. apply Z.mod_small. lia. Qed.

Lemma wrap64_range z : is_u64 (wrap64 z).
Proof.
  unfold is_u64, MaxUint64, wrap64.
  pose proof (Z.mod_pos_bound z (2 ^ 64) ltac:(lia)). lia.
Qed.

(** ** Boolean comparisons of [Z] *)

Ltac zbool :=
  repeat match goal with
  | H : (_ <? _) = true |- _ => apply Z.ltb_lt in H
  | H : (_ <? _) = false |- _ => apply Z.ltb_ge in H
  | H : (_ <=? _) = true |- _ => apply Z.leb_le in H
  | H : (_ <=? _) = false |- _ => apply Z.leb_gt in H
  | H : (_ =? _) = true |- _ => apply Z.eqb_eq in H
  | H : (_ =? _) = false |- _ => apply Z.eqb_neq in H
  | H : (_ && _) = true |- _ => apply andb_true_iff in H; destruct H
  | H : (_ || _) = false |- _ => apply orb_false_iff in H; destruct H
  | H : negb _ = true |- _ => apply negb_true_iff in H
  | H : negb _ = false |- _ => apply negb_false_iff in H
  end.

(** Linear arithmetic with division and remainder by constants. *)
Ltac dmlia := Z.div_mod_to_equations; lia.

(** Case analysis on every comparison in the goal, closing arithmetic. *)
Ltac zcases :=
  repeat match goal with
  | |- context [?a <? ?b] => destruct (Z.ltb_spec a b)
  | |- context [?a <=? ?b] => destruct (Z.leb_spec a b)
  | |- context [?a =? ?b] => destruct (Z.eqb_spec a b)
  end; simpl in *; try lia.

(** ** Arrays of two elements

    [[2]T] in the consensus tree, indexed by a bit. *)
Record arr2 (A : Type) : Type := mkArr2 { at0 : A; at1 : A }.
Arguments mkArr2 {A} _ _.
Arguments at0 {A} _.
Arguments at1 {A} _.

Definition get2 {A} (arr : arr2 A) (i : bool) : A := if i then at1 arr else at0 arr.
Definition set2 {A} (arr : arr2 A) (i : bool) (v : A) : arr2 A :=
  if i then mkArr2 (at0 arr) v else mkArr2 v (at1 arr).

Lemma get2_set2_eq {A} (arr : arr2 A) i v : get2 (set2 arr i v) i = v.
Proof. by destruct i. Qed.
Lemma get2_set2_neq {A} (arr : arr2 A) i v : get2 (set2 arr i v) (negb i) = get2 arr (negb i).
Proof. by destruct i. Qed.
Lemma get2_set2_neq' {A} (arr : arr2 A) i v : get2 (set2 arr (negb i) v) i = get2 arr i.
Proof. by destruct i. Qed.

(** ** Iterating over a Go map

    [for k, v := range m] visits every entry once, in an unspecified order.
    Definitions that range over a map take the order from an instance of
    [MapRange]; theorems hold for every instance, that is for every order. *)
Class MapRange (K : Type) `{Countable K} : Type := {
  map_range : ∀ {V : Type}, gmap K V → list (K * V);
  map_range_perm : ∀ {V : Type} (m : gmap K V), map_range m ≡ₚ map_to_list m;
}.

(** The order in which stdpp enumerates a map; witnesses run with it. *)
Definition canonical_range (K : Type) `{Countable K} : MapRange K :=
  {| map_range V m := map_to_list m; map_range_perm V m := reflexivity _ |}.

Section map_range.
Context `{Countable K, !MapRange K} {V : Type}.
Implicit Types m : gmap K V.

Lemma elem_of_map_range m k v : (k, v) ∈ map_range m ↔ m !! k = Some v.
Proof. rewrite map_range_perm. apply elem_of_map_to_list. Qed.

Lemma NoDup_map_range_keys m : NoDup (map_range m).*1.
Proof. rewrite map_range_perm. apply NoDup_fst_map_to_list. Qed.

Lemma map_range_to_map m : list_to_map (map_range m) = m.
Proof.
  rewrite <- (list_to_map_to_list m) at 2.
  apply list_to_map_proper; [apply NoDup_map_range_keys | apply map_range_perm].
Qed.

Lemma map_range_empty : map_range (∅ : gmap K V) = [].
Proof.
  apply Permutation_nil. symmetry. rewrite map_range_perm. by rewrite map_to_list_empty.
Qed.
End map_range.

(** The elements of a set, in the order in which the runtime iterates it. *)
Definition set_range {K} `{Countable K, !MapRange K} (s : gset K) : list K :=
  (map_range (gset_to_gmap tt s)).*1.

Lemma elem_of_set_range {K} `{Countable K, !MapRange K} (s : gset K) x : x ∈ set_range s ↔ x ∈ s.
Proof.
  unfold set_range. rewrite list_elem_of_fmap. split.
  - intros ([y []] & -> & Hy%elem_of_map_range). apply lookup_gset_to_gmap_Some in Hy. tauto.
  - intros Hx. exists (x, ()). split; [done|]. apply elem_of_map_range. by apply lookup_gset_to_gmap_Some.
Qed.

Lemma NoDup_set_range {K} `{Countable K, !MapRange K} (s : gset K) : NoDup (set_range s).
Proof. apply NoDup_map_range_keys. Qed.

Lemma NoDup_fst_filter {A B} (P : A * B → Prop) `{!∀ x, Decision (P x)} (l : list (A * B)) :
  NoDup l.*1 → NoDup (filter P l).*1.
Proof.
  induction l as [|[k c] l IH]; [done|]. rewrite filter_cons; simpl.
  intros [Hnot Hnd]%NoDup_cons. case_decide; [|by apply IH]. simpl. apply NoDup_cons.
  split; [|by apply IH]. intros Hin. apply Hnot.
  apply list_elem_of_fmap in Hin as (x & -> & Hx). apply list_elem_of_fmap. exists x.
  split; [done|]. by apply list_elem_of_filter in Hx as [_ Hx].
Qed.

(** The results of a traversal whose every step succeeds. *)
Lemma mapM_elements {A B} (f : A → option (list B)) (P : A → B → Prop) l :
  (∀ x, x ∈ l → ∃ r, f x = Some r ∧ ∀ y, y ∈ r ↔ P x y) →
  ∃ rs, mapM f l = Some rs ∧ ∀ y, y ∈ concat rs ↔ ∃ x, x ∈ l ∧ P x y.
Proof.
  induction l as [|x l IH]; intros Hf; [exists []; split; [done|set_solver]|].
  destruct (Hf x ltac:(set_solver)) as (r & Hr & HP). destruct IH as (rs & Hrs & HPs); [intros; apply Hf; set_solver|].
  exists (r :: rs). simpl. rewrite Hr. simpl. rewrite Hrs. simpl. split; [done|]. intros y. rewrite elem_of_app, HP, HPs. set_solver.
Qed.

(** ** Sums of lists and of maps of integers *)

Definition lsum (l : list Z) : Z := foldr Z.add 0 l.
Definition msum `{Countable K} (m : gmap K Z) : Z := lsum (map_to_list m).*2.

Lemma lsum_app l1 l2 : lsum (l1 ++ l2) = lsum l1 + lsum l2.
Proof. induction l1; simpl; unfold lsum in *; simpl; lia. Qed.

Lemma lsum_perm l1 l2 : l1 ≡ₚ l2 → lsum l1 = lsum l2.
Proof. induction 1; simpl in *; unfold lsum in *; simpl in *; lia. Qed.

#[global] Instance lsum_proper : Proper ((≡ₚ) ==> (=)) lsum.
Proof. intros ???. by apply lsum_perm. Qed.

Lemma lsum_nonneg l : Forall (λ z, 0 ≤ z) l → 0 ≤ lsum l.
Proof. induction 1; unfold lsum in *; simpl in *; lia. Qed.

Section msum.
Context `{Countable K}.
Implicit Types m : gmap K Z.

Lemma msum_empty : msum (∅ : gmap K Z) = 0.
Proof. unfold msum. by rewrite map_to_list_empty. Qed.

Lemma msum_insert_None m k v : m !! k = None → msum (<[k:=v]> m) = v + msum m.
Proof. intros Hk. unfold msum. by rewrite map_to_list_insert. Qed.

Lemma msum_delete m k v : m !! k = Some v → msum m = v + msum (delete k m).
Proof.
  intros Hk. rewrite <- (insert_delete_id m k v) at 1 by done.
  apply msum_insert_None, lookup_delete_eq.
Qed.

Lemma msum_delete_total m k : msum (delete k m) = msum m - default 0 (m !! k).
Proof.
  destruct (m !! k) as [v|] eqn:Hk; simpl.
  - rewrite (msum_delete m k v) by done. lia.
  - rewrite delete_id by done. lia.
Qed.

Lemma msum_insert m k v : msum (<[k:=v]> m) = v + msum m - default 0 (m !! k).
Proof.
  rewrite <- insert_delete_eq, msum_insert_None by apply lookup_delete_eq.
  rewrite msum_delete_total. lia.
Qed.

Lemma msum_nonneg m : map_Forall (λ _ z, 0 ≤ z) m → 0 ≤ msum m.
Proof.
  intros Hm. apply lsum_nonneg, Forall_fmap, Forall_forall. intros [k v] Hin.
  apply (Hm k). by apply elem_of_map_to_list.
Qed.

(** The entries on one side of a predicate and on the other add up to the whole. *)
Lemma msum_filter_split m (P : K * Z → Prop) `{!∀ x, Decision (P x)} :
  msum m = msum (filter P m) + msum (filter (λ x, ¬ P x) m).
Proof.
  induction m as [|k v m Hk Hind] using map_ind.
  { rewrite !map_filter_empty, msum_empty. lia. }
  assert (filter P m !! k = None) by (apply map_lookup_filter_None; auto).
  assert (filter (λ x, ¬ P x) m !! k = None) by (apply map_lookup_filter_None; auto).
  rewrite msum_insert_None by done. destruct (decide (P (k, v))).
  - rewrite map_filter_insert_True, map_filter_insert_not' by naive_solver.
    rewrite msum_insert_None by done. lia.
  - rewrite map_filter_insert_not', map_filter_insert_True by naive_solver.
    rewrite msum_insert_None by done. lia.
Qed.

Lemma msum_filter_le m (P : K * Z → Prop) `{!∀ x, Decision (P x)} :
  map_Forall (λ _ z, 0 ≤ z) m → msum (filter P m) ≤ msum m.
Proof.
  intros Hm. rewrite (msum_filter_split m P).
  cut (0 ≤ msum (filter (λ x, ¬ P x) m)); [lia|]. apply msum_nonneg.
  intros k v Hk. apply map_lookup_filter_Some in Hk as [Hk _]. by apply (Hm k).
Qed.

Lemma msum_lookup_le m k v :
  map_Forall (λ _ z, 0 ≤ z) m → m !! k = Some v → v ≤ msum m.
Proof.
  intros Hm Hk. rewrite (msum_delete m k v) by done.
  cut (0 ≤ msum (delete k m)); [lia|]. apply msum_nonneg.
  by apply map_Forall_delete.
Qed.
End msum.

(** ** Hints *)
Create HintDb avalanche discriminated.
#[export] Hint Resolve wrap64_range : avalanche.
Create Rewrite HintDb avalanche.
#[export] Hint Rewrite @get2_set2_eq @get2_set2_neq @get2_set2_neq' @msum_empty @map_range_empty : avalanche.
