(* ===== verification/Ids.v ===== *)
(** * Identifiers (package [ids])

    [ids/id.go] and [ids/bits.go]: a 256-bit identifier and the comparisons of
    bit ranges the consensus tree branches on.  The byte-level routines are
    proved equal to their bit-level meaning. *)
From S2P Require Import Prelude.

Definition IDLen : nat := 32.
Definition NumBits : Z := 256.
Definition BitsPerByte : Z := 8.

Definition is_byte (b : Z) : bool := (0 <=? b) && (b <? 256).

Definition bytes_ok (l : list Z) : bool :=
  Nat.eqb (length l) IDLen && forallb is_byte l.

(** [type ID [IDLen]byte]: the type carries the length and the byte range. *)
Record ID : Type := mkID { id_bytes : list Z; id_ok : bytes_ok id_bytes = true }.

Lemma ID_eq (x y : ID) : id_bytes x = id_bytes y → x = y.
Proof.
  destruct x as [x Hx], y as [y Hy]; simpl. intros <-. f_equal. apply proof_irrel.
Qed.

#[global] Instance ID_eq_dec : EqDecision ID.
Proof.
  refine (λ x y, cast_if (decide (id_bytes x = id_bytes y)));
    [by apply ID_eq | by intros ->].
Defined.

Definition ID_of_bytes (l : list Z) : option ID :=
  match decide (bytes_ok l = true) with left H => Some (mkID l H) | right _ => None end.

#[global] Program Instance ID_countable : Countable ID :=
  inj_countable id_bytes ID_of_bytes _.
Next Obligation.
  intros x. unfold ID_of_bytes. destruct (decide _) as [H|H].
  - f_equal. by apply ID_eq.
  - destruct H. apply id_ok.
Qed.

(** [Empty = ID{}] *)
Definition Empty : ID := mkID (replicate IDLen 0) eq_refl.

(** Indexing the byte array; Go panics from byte 32 on, which no caller reaches. *)
Definition byte_at (id : ID) (i : Z) : Z := default 0 (id_bytes id !! Z.to_nat i).

(** [ID.Bit] *)
Definition Bit (id : ID) (i : Z) : Z :=
  let byteIndex := i `quot` BitsPerByte in
  let bitIndex := i `rem` BitsPerByte in
  Z.land (Z.shiftr (byte_at id byteIndex) bitIndex) 1.

(** [l[a:b]] *)
Definition slice (a b : Z) (l : list Z) : list Z :=
  take (Z.to_nat (b - a)) (drop (Z.to_nat a) l).

(** The index-th byte with the mask applied. *)
Definition masked (mask : Z) (id : ID) (i : Z) : Z := Z.land mask (byte_at id i).

Definition startMask (start : Z) : Z := Z.shiftl (-1) (start `rem` BitsPerByte).
Definition stopMask (stop : Z) : Z := Z.shiftl 1 (stop `rem` BitsPerByte + 1) - 1.

(** [EqualSubset] *)
Definition EqualSubset (start stop : Z) (id1 id2 : ID) : bool :=
  let stop := stop - 1 in
  if (stop <? start) || (stop <? 0) then true else
  if NumBits <=? stop then false else
  let startIndex := start `quot` BitsPerByte in
  let stopIndex := stop `quot` BitsPerByte in
  if (startIndex + 1 <? stopIndex) &&
     negb (bool_decide (slice (startIndex + 1) stopIndex (id_bytes id1) =
                        slice (startIndex + 1) stopIndex (id_bytes id2)))
  then false else
  if startIndex =? stopIndex then
    let mask := Z.land (startMask start) (stopMask stop) in
    masked mask id1 startIndex =? masked mask id2 startIndex
  else
    (masked (startMask start) id1 startIndex =? masked (startMask start) id2 startIndex) &&
    (masked (stopMask stop) id1 stopIndex =? masked (stopMask stop) id2 stopIndex).

(** [bits.TrailingZeros8]: the number of trailing zero bits, 8 for zero. *)
Fixpoint trailing_zeros_from (x i : Z) (n : nat) : Z :=
  match n with
  | O => i
  | S n' => if Z.testbit x i then i else trailing_zeros_from x (i + 1) n'
  end.
Definition TrailingZeros8 (x : Z) : Z := trailing_zeros_from x 0 8.

(** The difference of two (masked) bytes, as a bit index into the identifier. *)
Definition byte_difference (b1 b2 index : Z) : Z :=
  TrailingZeros8 (Z.lxor b1 b2 mod 256) + index * BitsPerByte.

(** The loop over the bytes strictly between the first and the last one. *)
Fixpoint interior_difference (id1 id2 : ID) (i : Z) (n : nat) : option Z :=
  match n with
  | O => None
  | S n' =>
      if byte_at id1 i =? byte_at id2 i then interior_difference id1 id2 (i + 1) n'
      else Some (byte_difference (byte_at id1 i) (byte_at id2 i) i)
  end.

(** [FirstDifferenceSubset] *)
Definition FirstDifferenceSubset (start stop : Z) (id1 id2 : ID) : Z * bool :=
  let stop := stop - 1 in
  if (stop <? start) || (stop <? 0) || (NumBits <=? stop) then (0, false) else
  let startIndex := start `quot` BitsPerByte in
  let stopIndex := stop `quot` BitsPerByte in
  if startIndex =? stopIndex then
    let mask := Z.land (startMask start) (stopMask stop) in
    let b1 := masked mask id1 startIndex in
    let b2 := masked mask id2 startIndex in
    if b1 =? b2 then (0, false) else (byte_difference b1 b2 startIndex, true)
  else
    let start1 := masked (startMask start) id1 startIndex in
    let start2 := masked (startMask start) id2 startIndex in
    if negb (start1 =? start2) then (byte_difference start1 start2 startIndex, true) else
    match interior_difference id1 id2 (startIndex + 1)
            (Z.to_nat (stopIndex - (startIndex + 1))) with
    | Some d => (d, true)
    | None =>
        let stop1 := masked (stopMask stop) id1 stopIndex in
        let stop2 := masked (stopMask stop) id2 stopIndex in
        if negb (stop1 =? stop2) then (byte_difference stop1 stop2 stopIndex, true)
        else (0, false)
    end.

(** ** Bit-level meaning *)

(** The bit at index [i], read from the byte array. *)
Definition bit_of (id : ID) (i : Z) : bool := Z.testbit (byte_at id (i / 8)) (i mod 8).

(** The two identifiers have the same bits in [[start, stop)]. *)
Definition agree (start stop : Z) (id1 id2 : ID) : Prop :=
  ∀ i, start ≤ i < stop → bit_of id1 i = bit_of id2 i.

Lemma byte_at_range id i : 0 ≤ byte_at id i < 256.
Proof.
  unfold byte_at. destruct (id_bytes id !! Z.to_nat i) as [b|] eqn:Hb; simpl; [|lia].
  destruct id as [l Hl]; simpl in *. unfold bytes_ok in Hl.
  apply andb_true_iff in Hl as [_ Hl]. rewrite forallb_forall in Hl.
  assert (is_byte b = true) as Hbb.
  { apply Hl. apply list_elem_of_In. by eapply list_elem_of_lookup_2. }
  unfold is_byte in Hbb. zbool. lia.
Qed.

Lemma id_length id : length (id_bytes id) = IDLen.
Proof.
  destruct id as [l Hl]; simpl. unfold bytes_ok in Hl.
  apply andb_true_iff in Hl as [Hl _]. by apply Nat.eqb_eq.
Qed.

Lemma Bit_bit_of id i : 0 ≤ i → Bit id i = Z.b2z (bit_of id i).
Proof.
  intros Hi. unfold Bit, bit_of, BitsPerByte.
  rewrite Z.quot_div_nonneg, Z.rem_mod_nonneg by lia.
  change 1 with (Z.ones 1). rewrite Z.land_ones by lia.
  change (2 ^ 1) with 2. rewrite Z.testbit_spec' by (apply Z.mod_pos_bound; lia).
  by rewrite Z.shiftr_div_pow2 by (apply Z.mod_pos_bound; lia).
Qed.

(** [agree] in terms of a byte index and a bit inside the byte. *)
Lemma agree_bytes start stop id1 id2 :
  agree start stop id1 id2 ↔
  ∀ q j, 0 ≤ j < 8 → start ≤ 8 * q + j < stop →
         Z.testbit (byte_at id1 q) j = Z.testbit (byte_at id2 q) j.
Proof.
  unfold agree, bit_of. split.
  - intros H q j Hj Hr. specialize (H (8 * q + j) Hr).
    replace ((8 * q + j) / 8) with q in H by (dmlia).
    by replace ((8 * q + j) mod 8) with j in H by (dmlia).
  - intros H i Hi. apply H; dmlia.
Qed.

Lemma testbit_byte_high b j : 0 ≤ b < 256 → 8 ≤ j → Z.testbit b j = false.
Proof.
  intros Hb Hj. rewrite <- (Z.mod_small b (2 ^ 8)) by lia.
  by apply Z.mod_pow2_bits_high; lia.
Qed.

Lemma byte_ext b1 b2 :
  0 ≤ b1 < 256 → 0 ≤ b2 < 256 →
  b1 = b2 ↔ ∀ j, 0 ≤ j < 8 → Z.testbit b1 j = Z.testbit b2 j.
Proof.
  intros H1 H2. split; [by intros ->|]. intros H. apply Z.bits_inj'. intros j Hj.
  destruct (decide (j < 8)); [by apply H|]. by rewrite !testbit_byte_high by lia.
Qed.

Lemma land_byte mask b : 0 ≤ b < 256 → 0 ≤ Z.land mask b < 256.
Proof.
  intros Hb. rewrite <- (Z.mod_small b (2 ^ 8)) by lia.
  rewrite <- Z.land_ones, Z.land_assoc, Z.land_ones by lia.
  change 256 with (2 ^ 8). by apply Z.mod_pos_bound.
Qed.

Lemma masked_range mask id i : 0 ≤ masked mask id i < 256.
Proof. apply land_byte, byte_at_range. Qed.

Lemma masked_eq mask id1 id2 q :
  masked mask id1 q = masked mask id2 q ↔
  ∀ j, 0 ≤ j < 8 → Z.testbit mask j = true →
       Z.testbit (byte_at id1 q) j = Z.testbit (byte_at id2 q) j.
Proof.
  unfold masked. rewrite byte_ext by apply masked_range. apply forall_proper. intros j.
  rewrite !Z.land_spec. destruct (Z.testbit mask j); naive_solver.
Qed.

Lemma startMask_bit start j :
  0 ≤ start → 0 ≤ j → Z.testbit (startMask start) j = (start mod 8 <=? j).
Proof.
  intros Hs Hj. unfold startMask, BitsPerByte. rewrite Z.rem_mod_nonneg by lia.
  rewrite Z.shiftl_spec by lia. destruct (Z.leb_spec (start mod 8) j).
  - by rewrite Z.bits_m1 by lia.
  - by rewrite Z.testbit_neg_r by lia.
Qed.

Lemma stopMask_bit stop j :
  0 ≤ stop → 0 ≤ j → Z.testbit (stopMask stop) j = (j <=? stop mod 8).
Proof.
  intros Hs Hj. unfold stopMask, BitsPerByte. rewrite Z.rem_mod_nonneg by lia.
  pose proof (Z.mod_pos_bound stop 8 ltac:(lia)).
  rewrite Z.shiftl_1_l, Z.sub_1_r, <- Z.ones_equiv.
  destruct (Z.leb_spec j (stop mod 8)).
  - by rewrite Z.ones_spec_low by lia.
  - by rewrite Z.ones_spec_high by lia.
Qed.

(** The three byte comparisons of the routines, as bit ranges. *)
Lemma masked_start_eq start id1 id2 :
  0 ≤ start →
  masked (startMask start) id1 (start / 8) = masked (startMask start) id2 (start / 8) ↔
  agree start (8 * (start / 8) + 8) id1 id2.
Proof.
  intros Hs. rewrite masked_eq, agree_bytes. split.
  - intros H q j Hj Hr. assert (q = start / 8) as -> by (dmlia).
    apply H; [done|]. rewrite startMask_bit by lia.
    apply Z.leb_le. dmlia.
  - intros H j Hj. rewrite startMask_bit by lia. intros ?%Z.leb_le.
    apply H; dmlia.
Qed.

Lemma masked_stop_eq stop id1 id2 :
  0 ≤ stop →
  masked (stopMask stop) id1 (stop / 8) = masked (stopMask stop) id2 (stop / 8) ↔
  agree (8 * (stop / 8)) (stop + 1) id1 id2.
Proof.
  intros Hs. rewrite masked_eq, agree_bytes. split.
  - intros H q j Hj Hr. assert (q = stop / 8) as -> by (dmlia).
    apply H; [done|]. rewrite stopMask_bit by lia.
    apply Z.leb_le. dmlia.
  - intros H j Hj. rewrite stopMask_bit by lia. intros ?%Z.leb_le.
    apply H; dmlia.
Qed.

Lemma masked_both_eq start stop id1 id2 :
  0 ≤ start ≤ stop → start / 8 = stop / 8 →
  masked (Z.land (startMask start) (stopMask stop)) id1 (start / 8) =
  masked (Z.land (startMask start) (stopMask stop)) id2 (start / 8) ↔
  agree start (stop + 1) id1 id2.
Proof.
  intros Hs Hq. rewrite masked_eq, agree_bytes. split.
  - intros H q j Hj Hr. assert (q = start / 8) as -> by (dmlia).
    apply H; [done|]. rewrite Z.land_spec, startMask_bit, stopMask_bit by lia.
    apply andb_true_iff; split; apply Z.leb_le; dmlia.
  - intros H j Hj. rewrite Z.land_spec, startMask_bit, stopMask_bit by lia.
    intros [?%Z.leb_le ?%Z.leb_le]%andb_true_iff.
    apply H; dmlia.
Qed.

Lemma slice_eq a b id1 id2 :
  0 ≤ a → b ≤ 32 →
  slice a b (id_bytes id1) = slice a b (id_bytes id2) ↔ agree (8 * a) (8 * b) id1 id2.
Proof.
  intros Ha Hb. unfold slice. rewrite agree_bytes. split.
  - intros H q j Hj Hr. unfold byte_at.
    apply (f_equal (lookup (Z.to_nat (q - a)))) in H.
    rewrite !lookup_take_lt in H by lia. rewrite !lookup_drop in H.
    replace (Z.to_nat a + Z.to_nat (q - a))%nat with (Z.to_nat q) in H by lia.
    by rewrite H.
  - intros H. apply list_eq. intros i.
    destruct (decide (i < Z.to_nat (b - a))%nat); [|rewrite !lookup_take_ge by lia; done].
    rewrite !lookup_take_lt, !lookup_drop by lia.
    assert (byte_at id1 (a + Z.of_nat i) = byte_at id2 (a + Z.of_nat i)) as Hbyte.
    { apply byte_ext; [apply byte_at_range..|]. intros j Hj. apply H; lia. }
    unfold byte_at in Hbyte. replace (Z.to_nat (a + Z.of_nat i)) with (Z.to_nat a + i)%nat in Hbyte by lia.
    destruct (lookup_lt_is_Some_2 (id_bytes id1) (Z.to_nat a + i)) as [x Hx];
      [rewrite id_length; unfold IDLen; lia|].
    destruct (lookup_lt_is_Some_2 (id_bytes id2) (Z.to_nat a + i)) as [y Hy];
      [rewrite id_length; unfold IDLen; lia|].
    rewrite Hx, Hy in *. simpl in Hbyte. by subst.
Qed.

Lemma agree_split start mid stop id1 id2 :
  start ≤ mid ≤ stop →
  agree start stop id1 id2 ↔ agree start mid id1 id2 ∧ agree mid stop id1 id2.
Proof.
  unfold agree. intros Hm. split; [intros H; split; intros i Hi; apply H; lia|].
  intros [H1 H2] i Hi. destruct (decide (i < mid)); [apply H1 | apply H2]; lia.
Qed.

Lemma agree_sym start stop id1 id2 : agree start stop id1 id2 → agree start stop id2 id1.
Proof. intros H i Hi. symmetry. by apply H. Qed.

Lemma agree_trans start stop id1 id2 id3 :
  agree start stop id1 id2 → agree start stop id2 id3 → agree start stop id1 id3.
Proof. intros H1 H2 i Hi. etrans; [by apply H1 | by apply H2]. Qed.

Lemma agree_sub a b a' b' id1 id2 :
  a ≤ a' → b' ≤ b → agree a b id1 id2 → agree a' b' id1 id2.
Proof. intros ?? H i Hi. apply H. lia. Qed.

Lemma agree_refl a b id : agree a b id id.
Proof. by intros i Hi. Qed.

(** Identifiers that agree on all 256 bits are equal. *)
Lemma agree_full id1 id2 : agree 0 NumBits id1 id2 → id1 = id2.
Proof.
  intros H. apply ID_eq. change NumBits with (8 * 32) in H. change 0 with (8 * 0) in H.
  apply slice_eq in H; [|lia..]. unfold slice in H. rewrite !drop_0 in H.
  rewrite !take_ge in H by (rewrite id_length; reflexivity). done.
Qed.

(** ** Correctness of the byte-level routines *)

Local Ltac qlia :=
  repeat match goal with x := _ / 8 |- _ => subst x end; dmlia.

Lemma EqualSubset_true start stop id1 id2 :
  0 ≤ start → stop ≤ NumBits →
  EqualSubset start stop id1 id2 = true ↔ agree start stop id1 id2.
Proof.
  unfold EqualSubset, NumBits, BitsPerByte. intros Hs Ht.
  destruct (Z.ltb_spec (stop - 1) start); simpl.
  { split; [intros _ i Hi; lia | done]. }
  destruct (Z.ltb_spec (stop - 1) 0); [lia|]. destruct (Z.leb_spec 256 (stop - 1)); [lia|].
  rewrite !Z.quot_div_nonneg by lia.
  set (sq := start / 8). set (tq := (stop - 1) / 8).
  assert (sq ≤ tq) by (qlia).
  destruct (Z.eqb_spec sq tq) as [Heq|Hne].
  - destruct (Z.ltb_spec (sq + 1) tq); [lia|]. simpl. rewrite Z.eqb_eq.
    unfold sq in *. rewrite masked_both_eq by (done || lia). by replace (stop - 1 + 1) with stop by lia.
  - rewrite (agree_split start (8 * sq + 8) stop), (agree_split (8 * sq + 8) (8 * tq) stop)
      by (qlia).
    replace (8 * sq + 8) with (8 * (sq + 1)) by lia.
    rewrite <- (slice_eq (sq + 1) tq) by (qlia).
    assert ((sq + 1 <? tq) = false →
      slice (sq + 1) tq (id_bytes id1) = slice (sq + 1) tq (id_bytes id2)) as Hempty.
    { intros ?%Z.ltb_ge. unfold slice. by replace (Z.to_nat (tq - (sq + 1))) with 0%nat by lia. }
    assert (agree (8 * tq) stop id1 id2 ↔
      masked (stopMask (stop - 1)) id1 tq = masked (stopMask (stop - 1)) id2 tq) as ->.
    { unfold tq. rewrite masked_stop_eq by lia. by replace (stop - 1 + 1) with stop by lia. }
    assert (agree start (8 * (sq + 1)) id1 id2 ↔
      masked (startMask start) id1 sq = masked (startMask start) id2 sq) as ->.
    { unfold sq. rewrite masked_start_eq by lia. by replace (8 * (start / 8 + 1)) with (8 * (start / 8) + 8) by lia. }
    destruct (decide (slice (sq + 1) tq (id_bytes id1) = slice (sq + 1) tq (id_bytes id2)))
      as [E|E].
    + rewrite (bool_decide_eq_true_2 _ E), andb_false_r, andb_true_iff, !Z.eqb_eq. naive_solver.
    + destruct (sq + 1 <? tq); [|naive_solver].
      rewrite (bool_decide_eq_false_2 _ E). simpl. naive_solver.
Qed.

Lemma trailing_zeros_from_spec x i n :
  0 ≤ i → let d := trailing_zeros_from x i n in
  i ≤ d ≤ i + Z.of_nat n ∧ (∀ j, i ≤ j < d → Z.testbit x j = false) ∧
  (d < i + Z.of_nat n → Z.testbit x d = true).
Proof.
  revert i. induction n as [|n IH]; intros i Hi; simpl; [split_and!; lia|].
  destruct (Z.testbit x i) eqn:Hx; [split_and!; [lia..|done]|].
  destruct (IH (i + 1) ltac:(lia)) as (H1 & H2 & H3). split_and!; [lia..| |].
  - intros j Hj. destruct (decide (j = i)) as [->|]; [done|]. apply H2. lia.
  - intros. apply H3. lia.
Qed.

(** The byte difference points at the first differing bit. *)
Lemma byte_difference_spec b1 b2 q :
  0 ≤ b1 < 256 → 0 ≤ b2 < 256 → b1 ≠ b2 →
  ∃ d, byte_difference b1 b2 q = 8 * q + d ∧ 0 ≤ d < 8 ∧
       Z.testbit b1 d ≠ Z.testbit b2 d ∧
       ∀ j, 0 ≤ j < d → Z.testbit b1 j = Z.testbit b2 j.
Proof.
  intros H1 H2 Hne. unfold byte_difference, TrailingZeros8, BitsPerByte.
  set (x := Z.lxor b1 b2 mod 256).
  assert (∀ j, 0 ≤ j < 8 → Z.testbit x j = xorb (Z.testbit b1 j) (Z.testbit b2 j)) as Hx.
  { intros j Hj. unfold x. change 256 with (2 ^ 8).
    by rewrite Z.mod_pow2_bits_low, Z.lxor_spec by lia. }
  destruct (trailing_zeros_from_spec x 0 8 ltac:(lia)) as (Hr & Hlow & Hhit).
  set (d := trailing_zeros_from x 0 8) in *. exists d.
  assert (d < 8) as Hd.
  { apply Z.nle_gt. intros Hge. apply Hne. apply byte_ext; [done..|].
    intros j Hj. apply xorb_eq. rewrite <- Hx by done. apply Hlow. lia. }
  split_and!; [lia..| |].
  - intros Heq. rewrite Hx, Heq, xorb_nilpotent in Hhit by lia.
    discriminate Hhit. simpl. lia.
  - intros j Hj. apply xorb_eq. rewrite <- Hx by lia. apply Hlow. lia.
Qed.

Definition first_difference (start stop : Z) (id1 id2 : ID) (i : Z) : Prop :=
  start ≤ i < stop ∧ bit_of id1 i ≠ bit_of id2 i ∧ agree start i id1 id2.

(** A difference between masked bytes is the first difference of a bit range,
    when the mask covers exactly the bits of the range in that byte. *)
Lemma masked_difference mask id1 id2 q lo hi :
  8 * q ≤ lo → hi ≤ 8 * q + 8 →
  (∀ j, 0 ≤ j < 8 → Z.testbit mask j = true ↔ lo ≤ 8 * q + j < hi) →
  masked mask id1 q ≠ masked mask id2 q →
  first_difference lo hi id1 id2 (byte_difference (masked mask id1 q) (masked mask id2 q) q).
Proof.
  intros Hlo Hhi Hmask Hne.
  destruct (byte_difference_spec _ _ q (masked_range mask id1 q) (masked_range mask id2 q) Hne)
    as (d & -> & Hd & Hdiff & Hlow).
  unfold masked in Hdiff, Hlow. rewrite !Z.land_spec in Hdiff.
  assert (Z.testbit mask d = true) as Hm by (destruct (Z.testbit mask d); done).
  rewrite Hm in Hdiff. simpl in Hdiff. apply Hmask in Hm; [|done].
  split_and!; [lia..| |].
  - unfold bit_of. replace ((8 * q + d) / 8) with q by (dmlia).
    by replace ((8 * q + d) mod 8) with d by (dmlia).
  - apply agree_bytes. intros q' j Hj Hr.
    assert (q' = q) as -> by lia.
    specialize (Hlow j ltac:(lia)). rewrite !Z.land_spec in Hlow.
    rewrite (proj2 (Hmask j Hj)) in Hlow by lia. by simpl in Hlow.
Qed.

Lemma first_difference_extend lo mid hi hi' id1 id2 i :
  lo ≤ mid → hi ≤ hi' → agree lo mid id1 id2 →
  first_difference mid hi id1 id2 i → first_difference lo hi' id1 id2 i.
Proof.
  intros ?? Hag ((?&?)&?&?). split_and!; [lia..|done|].
  by apply (agree_split lo mid i); [lia|].
Qed.

Lemma interior_difference_spec id1 id2 i n :
  0 ≤ i →
  match interior_difference id1 id2 i n with
  | Some d => first_difference (8 * i) (8 * (i + Z.of_nat n)) id1 id2 d
  | None => agree (8 * i) (8 * (i + Z.of_nat n)) id1 id2
  end.
Proof.
  revert i. induction n as [|n IH]; intros i Hi; simpl; [intros ??; lia|].
  assert (byte_at id1 i = byte_at id2 i ↔ agree (8 * i) (8 * (i + 1)) id1 id2) as Hbyte.
  { rewrite byte_ext by apply byte_at_range. rewrite agree_bytes. split.
    - intros H q j Hj Hr. assert (q = i) as -> by lia. by apply H.
    - intros H j Hj. apply H; lia. }
  destruct (Z.eqb_spec (byte_at id1 i) (byte_at id2 i)) as [Heq|Hne].
  - specialize (IH (i + 1) ltac:(lia)). rewrite Hbyte in Heq.
    replace (i + 1 + Z.of_nat n) with (i + Z.of_nat (S n)) in IH by lia.
    destruct (interior_difference id1 id2 (i + 1) n) as [d|].
    + eapply first_difference_extend; [| |done|done]; lia.
    + by apply (agree_split _ (8 * (i + 1))); [lia|].
  - rewrite <- (Z.land_m1_l (byte_at id1 i)) in Hne |- *.
    rewrite <- (Z.land_m1_l (byte_at id2 i)) in Hne |- *.
    apply (first_difference_extend _ (8 * i) (8 * i + 8)); [lia..|intros ??; lia|].
    apply (masked_difference (-1) id1 id2 i (8 * i) (8 * i + 8)); [lia..| |done].
    intros j Hj. rewrite Z.bits_m1 by lia. split; [lia|done].
Qed.

(** Both masks apply when the range lies inside one byte. *)
Lemma single_byte_difference start stop id1 id2 :
  0 ≤ start ≤ stop → start / 8 = stop / 8 →
  let mask := Z.land (startMask start) (stopMask stop) in
  let b1 := masked mask id1 (start / 8) in
  let b2 := masked mask id2 (start / 8) in
  if b1 =? b2 then agree start (stop + 1) id1 id2
  else first_difference start (stop + 1) id1 id2 (byte_difference b1 b2 (start / 8)).
Proof.
  intros Hs Hq mask b1 b2. destruct (Z.eqb_spec b1 b2) as [E|E].
  - by apply masked_both_eq in E.
  - apply masked_difference; [dmlia..| |done].
    intros j Hj. unfold mask.
    rewrite Z.land_spec, startMask_bit, stopMask_bit, andb_true_iff by lia.
    rewrite !Z.leb_le. dmlia.
Qed.

(** The first byte of a range that runs past it. *)
Lemma start_byte_difference start hi id1 id2 :
  0 ≤ start → 8 * (start / 8) + 8 ≤ hi →
  let b1 := masked (startMask start) id1 (start / 8) in
  let b2 := masked (startMask start) id2 (start / 8) in
  if b1 =? b2 then agree start (8 * (start / 8 + 1)) id1 id2
  else first_difference start hi id1 id2 (byte_difference b1 b2 (start / 8)).
Proof.
  intros Hs Hhi b1 b2. destruct (Z.eqb_spec b1 b2) as [E|E].
  - replace (8 * (start / 8 + 1)) with (8 * (start / 8) + 8) by lia.
    by apply masked_start_eq in E.
  - apply (first_difference_extend start start (8 * (start / 8) + 8)); [lia..|intros ??; lia|].
    apply masked_difference; [dmlia..| |done].
    intros j Hj. rewrite startMask_bit, Z.leb_le by lia. dmlia.
Qed.

(** The last byte of a range that starts before it. *)
Lemma stop_byte_difference lo stop id1 id2 :
  0 ≤ stop → lo ≤ 8 * (stop / 8) → agree lo (8 * (stop / 8)) id1 id2 →
  let b1 := masked (stopMask stop) id1 (stop / 8) in
  let b2 := masked (stopMask stop) id2 (stop / 8) in
  if b1 =? b2 then agree lo (stop + 1) id1 id2
  else first_difference lo (stop + 1) id1 id2 (byte_difference b1 b2 (stop / 8)).
Proof.
  intros Hs Hlo Hpre b1 b2. destruct (Z.eqb_spec b1 b2) as [E|E].
  - apply masked_stop_eq in E; [|lia]. by apply (agree_split _ (8 * (stop / 8))); [dmlia|].
  - eapply (first_difference_extend lo (8 * (stop / 8)) (stop + 1)); [lia..|done|].
    apply masked_difference; [dmlia..| |done].
    intros j Hj. rewrite stopMask_bit, Z.leb_le by lia. dmlia.
Qed.

Lemma FirstDifferenceSubset_correct start stop id1 id2 :
  0 ≤ start → stop ≤ NumBits →
  match FirstDifferenceSubset start stop id1 id2 with
  | (i, true) => first_difference start stop id1 id2 i
  | (_, false) => agree start stop id1 id2
  end.
Proof.
  unfold FirstDifferenceSubset, NumBits, BitsPerByte. intros Hs Ht.
  destruct (Z.ltb_spec (stop - 1) start); simpl; [intros ??; lia|].
  destruct (Z.ltb_spec (stop - 1) 0); simpl; [lia|].
  destruct (Z.leb_spec 256 (stop - 1)); simpl; [lia|].
  rewrite !Z.quot_div_nonneg by lia.
  pose proof (Z.div_le_mono start (stop - 1) 8 ltac:(lia) ltac:(lia)).
  destruct (Z.eqb_spec (start / 8) ((stop - 1) / 8)) as [Heq|Hne].
  { pose proof (single_byte_difference start (stop - 1) id1 id2 ltac:(lia) Heq) as Hb.
    rewrite Z.sub_add in Hb. simpl in Hb. by case_match. }
  pose proof (start_byte_difference start stop id1 id2 Hs ltac:(dmlia)) as Hb. simpl in Hb.
  destruct (_ =? _); simpl; [|done].
  pose proof (interior_difference_spec id1 id2 (start / 8 + 1)
    (Z.to_nat ((stop - 1) / 8 - (start / 8 + 1))) ltac:(dmlia)) as Hint.
  rewrite Z2Nat.id, Zplus_minus in Hint by lia.
  destruct (interior_difference id1 id2 _ _) as [d|].
  { eapply first_difference_extend; [| |done|done]; dmlia. }
  pose proof (stop_byte_difference start (stop - 1) id1 id2 ltac:(lia) ltac:(dmlia)) as Hl.
  rewrite Z.sub_add in Hl. simpl in Hl.
  assert (agree start (8 * ((stop - 1) / 8)) id1 id2) as Hpre.
  { apply (agree_split _ (8 * (start / 8 + 1))); [dmlia|done]. }
  specialize (Hl Hpre). destruct (_ =? _); simpl; done.
Qed.

(** ** The branching tests of the consensus tree *)

Lemma agree_Bit start stop id1 id2 :
  0 ≤ start →
  agree start stop id1 id2 ↔ ∀ i, start ≤ i < stop → Bit id1 i = Bit id2 i.
Proof.
  intros Hs. unfold agree. apply forall_proper. intros i. split; intros H Hi; specialize (H Hi).
  - by rewrite !Bit_bit_of, H by lia.
  - rewrite !Bit_bit_of in H by lia. by destruct (bit_of id1 i), (bit_of id2 i).
Qed.

Lemma first_difference_unique start stop id1 id2 i j :
  first_difference start stop id1 id2 i → first_difference start stop id1 id2 j → i = j.
Proof.
  intros (Hi & Di & Ai) (Hj & Dj & Aj).
  destruct (Z.lt_trichotomy i j) as [Hlt|[->|Hlt]]; [|done|].
  - destruct Di. apply Aj. lia.
  - destruct Dj. apply Ai. lia.
Qed.

(** [EqualSubset] compares bytes under masks, and decides exactly whether the
    two identifiers have the same bits in [[start, stop)]; an empty range is
    equal, and a range that runs past the last bit is not. *)
Theorem EqualSubset_bits start stop id1 id2 :
  0 ≤ start →
  EqualSubset start stop id1 id2 = true ↔
  stop ≤ start ∨ (stop ≤ NumBits ∧ ∀ i, start ≤ i < stop → Bit id1 i = Bit id2 i).
Proof.
  intros Hs. rewrite <- (agree_Bit start stop) by done.
  destruct (decide (stop ≤ NumBits)) as [Ht|Ht].
  - rewrite EqualSubset_true by done. split; [naive_solver|].
    intros [?|[_ ?]]; [intros ??; lia|done].
  - unfold EqualSubset, NumBits in *. zcases; naive_solver lia.
Qed.

Definition id_of_first_byte (b : Z) : option ID := ID_of_bytes (b :: replicate 31 0).

Lemma EqualSubset_bits_witness :
  ∃ x y, id_of_first_byte 5 = Some x ∧ id_of_first_byte 13 = Some y ∧
         (∀ i, 0 ≤ i < 3 → Bit x i = Bit y i).
Proof.
  eexists _, _. split; [reflexivity|]. split; [reflexivity|].
  match goal with |- ∀ i, _ → Bit ?x i = Bit ?y i =>
    destruct (proj1 (EqualSubset_bits 0 3 x y ltac:(lia)) ltac:(vm_compute; reflexivity))
      as [H|[_ H]] end; [lia|exact H].
Defined.

(** [FirstDifferenceSubset] returns [(i, true)] exactly when [i] is the first
    bit of [[start, stop)] on which the identifiers differ (and [stop] is at
    most 256); in every other case it returns [false]. *)
Theorem FirstDifferenceSubset_first start stop id1 id2 i :
  0 ≤ start →
  FirstDifferenceSubset start stop id1 id2 = (i, true) ↔
  stop ≤ NumBits ∧ start ≤ i < stop ∧ Bit id1 i ≠ Bit id2 i ∧
  (∀ j, start ≤ j < i → Bit id1 j = Bit id2 j).
Proof.
  intros Hs.
  assert (∀ k, start ≤ k → Bit id1 k ≠ Bit id2 k ↔ bit_of id1 k ≠ bit_of id2 k) as Hbit.
  { intros k Hk. rewrite !Bit_bit_of by lia. by destruct (bit_of id1 k), (bit_of id2 k). }
  destruct (decide (stop ≤ NumBits)) as [Ht|Ht].
  - pose proof (FirstDifferenceSubset_correct start stop id1 id2 Hs Ht) as Hc.
    destruct (FirstDifferenceSubset start stop id1 id2) as [d [|]]; split.
    + intros [= ->]. destruct Hc as (Hr & Hd & Ha). rewrite agree_Bit in Ha by done.
      split_and!; [done|lia..| |done]. apply Hbit; [lia|done].
    + intros (_ & Hr & Hd & Ha). f_equal. eapply first_difference_unique; [done|].
      split_and!; [lia..|apply Hbit; [lia|done]|by apply agree_Bit].
    + done.
    + intros (_ & Hr & Hd & _). apply Hbit in Hd; [|lia]. destruct Hd. by apply Hc.
  - unfold FirstDifferenceSubset, NumBits in *. zcases; naive_solver lia.
Qed.

Lemma FirstDifferenceSubset_first_witness :
  ∃ x y, id_of_first_byte 5 = Some x ∧ id_of_first_byte 13 = Some y ∧
         Bit x 3 ≠ Bit y 3 ∧ (∀ j, 0 ≤ j < 3 → Bit x j = Bit y j).
Proof.
  eexists _, _. split; [reflexivity|]. split; [reflexivity|].
  match goal with |- Bit ?x _ ≠ Bit ?y _ ∧ _ =>
    destruct (proj1 (FirstDifferenceSubset_first 0 256 x y 3 ltac:(lia))
                ltac:(vm_compute; reflexivity)) as (_ & _ & H1 & H2) end.
  split; assumption.
Defined.
