(* ===== verification/Bag.v ===== *)
(** * Multisets of votes (package [utils/bag])

    [utils/bag/bag.go]: a map from elements to positive counts with a cached
    size and the set of elements that met a threshold.  Counts are [int]s that
    number the votes of a poll (at most [K]); they are integers here. *)
From S2P Require Import Prelude.

Record Bag (T : Type) `{Countable T} : Type := mkBag {
  counts : gmap T Z;
  size : Z;
  threshold : Z;
  metThreshold : gset T;
}.
Arguments mkBag {T _ _} _ _ _ _.
Arguments counts {T _ _} _.
Arguments size {T _ _} _.
Arguments threshold {T _ _} _.
Arguments metThreshold {T _ _} _.

Section Bag.
Context `{Countable T, !MapRange T}.
Implicit Types b : Bag T.

(** The zero value [Bag[T]{}]. *)
Definition empty_bag : Bag T := mkBag ∅ 0 0 ∅.

(** [Count] *)
Definition Count b (elt : T) : Z := default 0 (counts b !! elt).

(** [Len] *)
Definition Len b : Z := size b.

(** [AddCount]; [init] only allocates the map. *)
Definition AddCount b (elt : T) (count : Z) : Bag T :=
  if count <=? 0 then b else
  let totalCount := Count b elt + count in
  mkBag (<[elt := totalCount]> (counts b)) (size b + count) (threshold b)
    (if threshold b <=? totalCount then {[elt]} ∪ metThreshold b else metThreshold b).

(** [Add] *)
Definition Add b (elts : list T) : Bag T := foldl (λ b elt, AddCount b elt 1) b elts.

(** [Of] *)
Definition Of (elts : list T) : Bag T := Add empty_bag elts.

(** [SetThreshold] *)
Definition SetThreshold b (th : Z) : Bag T :=
  if threshold b =? th then b else
  mkBag (counts b) (size b) th
    (foldl (λ met '(vote, count), if th <=? count then {[vote]} ∪ met else met) ∅
       (map_range (counts b))).

(** [List] *)
Definition List b : list T := (map_range (counts b)).*1.

(** [Equals] *)
Definition Equals b other : bool :=
  (size b =? size other) && bool_decide (counts b = counts other).

(** [Mode]; [zero] is the zero value of [T]. *)
Definition Mode (zero : T) b : T * Z :=
  foldl (λ '(mode, modeFreq) '(elt, count),
           if modeFreq <? count then (elt, count) else (mode, modeFreq))
    (zero, 0) (map_range (counts b)).

(** [Threshold] *)
Definition Threshold b : gset T := metThreshold b.

(** [Filter] *)
Definition Filter (filterFunc : T → bool) b : Bag T :=
  foldl (λ newBag '(vote, count), if filterFunc vote then AddCount newBag vote count else newBag)
    empty_bag (map_range (counts b)).

(** [Split]: the elements for which [splitFunc] is false, then those for which
    it is true. *)
Definition Split (splitFunc : T → bool) b : Bag T * Bag T :=
  foldl (λ '(votes0, votes1) '(vote, count),
           if splitFunc vote then (votes0, AddCount votes1 vote count)
           else (AddCount votes0 vote count, votes1))
    (empty_bag, empty_bag) (map_range (counts b)).

(** [Remove] *)
Definition Remove b (elt : T) : Bag T :=
  mkBag (delete elt (counts b)) (size b - Count b elt) (threshold b) (metThreshold b).

(** [Clone] *)
Definition Clone b : Bag T :=
  foldl (λ clone '(id, count), AddCount clone id count) empty_bag (map_range (counts b)).

(** ** Well-formedness *)

Record bag_ok b : Prop := {
  bag_pos : ∀ k c, counts b !! k = Some c → 0 < c;
  bag_size : size b = msum (counts b);
}.

(** The threshold set holds exactly the elements whose count reaches the threshold. *)
Definition threshold_ok b : Prop :=
  ∀ k, k ∈ metThreshold b ↔ ∃ c, counts b !! k = Some c ∧ threshold b ≤ c.

Lemma empty_bag_ok : bag_ok empty_bag.
Proof. split; simpl; [intros k c; by rewrite lookup_empty | symmetry; apply msum_empty]. Qed.

Lemma empty_threshold_ok : threshold_ok empty_bag.
Proof.
  intros k; simpl. rewrite lookup_empty. split; [set_solver | intros (?&?&?); done].
Qed.

Lemma AddCount_ok b elt count : bag_ok b → bag_ok (AddCount b elt count).
Proof.
  intros [Hpos Hsize]. unfold AddCount. destruct (Z.leb_spec count 0); [by split|].
  split; simpl.
  - intros k c. rewrite lookup_insert_Some. intros [[-> <-]|[_ Hk]]; [|eauto].
    unfold Count. destruct (counts b !! k) as [d|] eqn:Hd; simpl; [|lia].
    specialize (Hpos k d Hd). lia.
  - rewrite msum_insert, Hsize. unfold Count. lia.
Qed.

Lemma AddCount_threshold_ok b elt count :
  bag_ok b → threshold_ok b → threshold_ok (AddCount b elt count).
Proof.
  intros Hb Ht. unfold AddCount. destruct (Z.leb_spec count 0); [done|]. intros k; simpl.
  specialize (Ht k).
  assert (k ∈ (if threshold b <=? Count b elt + count then {[elt]} ∪ metThreshold b
               else metThreshold b)
          ↔ (k = elt ∧ threshold b ≤ Count b elt + count) ∨ k ∈ metThreshold b) as ->.
  { destruct (Z.leb_spec (threshold b) (Count b elt + count)); set_solver by lia. }
  rewrite Ht. destruct (decide (k = elt)) as [->|Hne].
  - rewrite lookup_insert_eq. unfold Count. split.
    + intros [[_ ?]|(c & -> & ?)]; eexists; (split; [done|]); simpl; lia.
    + intros (? & [= <-] & ?). by left.
  - rewrite lookup_insert_ne by done. naive_solver.
Qed.

Lemma Remove_ok b elt : bag_ok b → bag_ok (Remove b elt).
Proof.
  intros [Hpos Hsize]. split; simpl.
  - intros k c [_ Hk]%lookup_delete_Some. eauto.
  - rewrite msum_delete_total, Hsize. done.
Qed.

Lemma Count_nonneg b elt : bag_ok b → 0 ≤ Count b elt.
Proof.
  intros [Hpos _]. unfold Count. destruct (counts b !! elt) as [c|] eqn:E; simpl; [|lia].
  specialize (Hpos _ _ E). lia.
Qed.

Lemma Count_AddCount b elt count k :
  Count (AddCount b elt count) k = Count b k + (if decide (k = elt) then Z.max 0 count else 0).
Proof.
  unfold AddCount. destruct (Z.leb_spec count 0).
  { destruct (decide (k = elt)); lia. }
  unfold Count at 1; simpl. rewrite lookup_insert. repeat case_decide; simplify_eq/=; try done.
  - lia.
  - unfold Count. lia.
Qed.

(** The elements of a bag are those with a positive count. *)
Lemma elem_of_List b k : bag_ok b → k ∈ List b ↔ 0 < Count b k.
Proof.
  intros Hb. unfold List, Count. rewrite list_elem_of_fmap. split.
  - intros ([k' c] & -> & Hin%elem_of_map_range). simpl. rewrite Hin. simpl. by apply (bag_pos _ Hb k').
  - destruct (counts b !! k) as [c|] eqn:Hc; simpl; [|lia]. intros _. exists (k, c). split; [done|]. by apply elem_of_map_range.
Qed.

Lemma List_NoDup b : NoDup (List b).
Proof. apply NoDup_map_range_keys. Qed.

Lemma Len_AddCount b x n : 0 ≤ n → Len (AddCount b x n) = Len b + n.
Proof. intros Hn. unfold AddCount, Len. destruct (Z.leb_spec n 0); simpl; lia. Qed.

Lemma bag_counts_nonneg b : bag_ok b → map_Forall (λ _ z, 0 ≤ z) (counts b).
Proof. intros [Hpos _] k c Hk. specialize (Hpos k c Hk). lia. Qed.

Lemma Len_nonneg b : bag_ok b → 0 ≤ Len b.
Proof.
  intros Hb. unfold Len. rewrite (bag_size _ Hb). by apply msum_nonneg, bag_counts_nonneg.
Qed.

Lemma Count_le_Len b k : bag_ok b → Count b k ≤ Len b.
Proof.
  intros Hb. unfold Count, Len. rewrite (bag_size _ Hb).
  destruct (counts b !! k) as [c|] eqn:E; simpl.
  - eapply msum_lookup_le; [by apply bag_counts_nonneg | done].
  - by apply msum_nonneg, bag_counts_nonneg.
Qed.

(** A bag that holds one element only. *)
Lemma Len_only b k : bag_ok b → (∀ x, 0 < Count b x → x = k) → Len b = Count b k.
Proof.
  intros Hb Honly. unfold Len. rewrite (bag_size _ Hb).
  enough (delete k (counts b) = ∅) as Hd.
  { pose proof (msum_delete_total (counts b) k) as Hm. rewrite Hd in Hm.
    change (msum ∅) with 0 in Hm. unfold Count. lia. }
  apply map_empty. intros x. destruct (delete k (counts b) !! x) as [c|] eqn:E; [|done].
  apply lookup_delete_Some in E as [Hne E]. destruct Hne. symmetry. apply Honly.
  unfold Count. rewrite E. simpl. by apply (bag_pos _ Hb) in E.
Qed.

(** ** Folding [AddCount] over the entries of a bag *)

(** Entries with positive counts and distinct keys, added to an empty bag, give
    the bag with exactly those entries; every element meets the threshold 0. *)
Definition bag_of_entries (l : list (T * Z)) : Bag T :=
  foldl (λ b '(k, c), AddCount b k c) empty_bag l.

Definition bag_of_map (m : gmap T Z) : Bag T := mkBag m (msum m) 0 (dom m).

Lemma bag_of_entries_map l :
  NoDup l.*1 → Forall (λ kc, 0 < kc.2) l →
  bag_of_entries l = bag_of_map (list_to_map l).
Proof.
  unfold bag_of_entries. induction l as [|[k c] l IH] using rev_ind; intros Hnd Hpos.
  { unfold bag_of_map, empty_bag; simpl. done. }
  rewrite fmap_app in Hnd. apply NoDup_app in Hnd as (Hnd & Hnot & _).
  apply Forall_app in Hpos as [Hpos Hc]. apply Forall_cons in Hc as [Hc _]. simpl in Hc.
  rewrite foldl_app. simpl. rewrite IH by done. unfold AddCount, bag_of_map; simpl.
  assert ((list_to_map l : gmap T Z) !! k = None) as Hk.
  { apply not_elem_of_list_to_map_1. intros Hin. apply (Hnot k Hin). simpl. set_solver. }
  rewrite list_to_map_snoc by (intros Hin; apply (Hnot k Hin); simpl; set_solver).
  destruct (Z.leb_spec c 0); [lia|]. unfold Count; simpl. rewrite Hk. cbn [default]. rewrite Z.add_0_l.
  destruct (Z.leb_spec 0 c); [|lia].
  f_equal.
  - rewrite (msum_insert_None (list_to_map l)) by done. lia.
  - symmetry. apply dom_insert_L.
Qed.

Lemma bag_of_map_ok m : (∀ k c, m !! k = Some c → 0 < c) → bag_ok (bag_of_map m).
Proof. by split. Qed.

Lemma foldl_filter {A B} (f : A → B → A) (p : B → bool) a l :
  foldl (λ a x, if p x then f a x else a) a l = foldl f a (base.filter (λ x, p x = true) l).
Proof.
  revert a. induction l as [|x l IH]; intros a; [done|].
  rewrite filter_cons. simpl. rewrite IH. destruct (p x) eqn:E; case_decide; congruence || done.
Qed.

Lemma range_entries b :
  bag_ok b → Forall (λ kc, 0 < kc.2) (map_range (counts b)).
Proof.
  intros [Hpos _]. apply Forall_forall. intros [k c] Hin%elem_of_map_range; simpl. eauto.
Qed.

Lemma Filter_map (f : T → bool) b :
  bag_ok b →
  Filter f b = bag_of_map (base.filter (λ kc : T * Z, f kc.1 = true) (counts b)).
Proof.
  intros Hb. unfold Filter.
  transitivity (bag_of_entries (base.filter (λ kc : T * Z, f kc.1 = true) (map_range (counts b)))).
  - unfold bag_of_entries. rewrite <- (foldl_filter (λ b '(k, c), AddCount b k c) (λ kc, f kc.1)).
    generalize empty_bag. induction (map_range (counts b)) as [|[k c] l IH]; intros b0; simpl; [done|].
    apply IH.
  - rewrite bag_of_entries_map.
    + f_equal. rewrite map_filter_alt. apply list_to_map_proper.
      * apply NoDup_fst_filter, NoDup_map_range_keys.
      * by rewrite map_range_perm.
    + apply NoDup_fst_filter, NoDup_map_range_keys.
    + apply Forall_forall. intros kc [_ Hin]%list_elem_of_filter.
      by eapply Forall_forall in Hin; [|apply range_entries].
Qed.

Lemma Filter_ok (f : T → bool) b : bag_ok b → bag_ok (Filter f b).
Proof.
  intros Hb. rewrite Filter_map by done. apply bag_of_map_ok.
  intros k c [Hk _]%map_lookup_filter_Some. by apply (bag_pos _ Hb) in Hk.
Qed.

Lemma Count_Filter (f : T → bool) b k :
  bag_ok b → Count (Filter f b) k = if f k then Count b k else 0.
Proof.
  intros Hb. rewrite Filter_map by done. unfold Count; simpl.
  rewrite map_lookup_filter. destruct (counts b !! k) as [c|]; simpl; [|by destruct (f k)].
  by destruct (f k).
Qed.

Lemma Len_Filter_le (f : T → bool) b : bag_ok b → Len (Filter f b) ≤ Len b.
Proof.
  intros Hb. rewrite Filter_map by done. unfold Len; simpl. rewrite (bag_size _ Hb).
  by apply msum_filter_le, bag_counts_nonneg.
Qed.

(** [Split] is two filters over one traversal. *)
Lemma Split_Filter (f : T → bool) b : Split f b = (Filter (λ x, negb (f x)) b, Filter f b).
Proof.
  unfold Split, Filter. generalize empty_bag at 1 3. generalize empty_bag.
  induction (map_range (counts b)) as [|[k c] l IH]; intros b1 b0; simpl; [done|].
  destruct (f k); apply IH.
Qed.

Lemma Split_Len (f : T → bool) b :
  bag_ok b → Len (Filter (λ x, negb (f x)) b) + Len (Filter f b) = Len b.
Proof.
  intros Hb. rewrite !Filter_map by done. unfold Len; simpl. rewrite (bag_size _ Hb).
  rewrite (msum_filter_split (counts b) (λ kc, f kc.1 = true)), Z.add_comm. f_equal.
  f_equal. apply map_filter_ext. intros k c _; simpl. by destruct (f k).
Qed.

Lemma Clone_map b : bag_ok b → Clone b = bag_of_map (counts b).
Proof.
  intros Hb. unfold Clone. etrans; [apply bag_of_entries_map|].
  - apply NoDup_map_range_keys.
  - by apply range_entries.
  - by rewrite map_range_to_map.
Qed.

(** ** The most common element *)

Lemma Mode_fold (l : list (T * Z)) e n :
  let '(e', n') := foldl (λ '(mode, modeFreq) '(elt, count),
           if modeFreq <? count then (elt, count) else (mode, modeFreq)) (e, n) l in
  n ≤ n' ∧ (∀ k c, (k, c) ∈ l → c ≤ n') ∧ ((e', n') = (e, n) ∨ (e', n') ∈ l).
Proof.
  revert e n. induction l as [|[k c] l IH]; intros e n; simpl.
  { split_and!; [lia| |by left]. intros k c Hin. by apply not_elem_of_nil in Hin. }
  destruct (Z.ltb_spec n c) as [Hlt|Hge].
  - specialize (IH k c). destruct (foldl _ _ l) as [e' n'].
    destruct IH as (H1 & H2 & H3). split_and!; [lia| |].
    + intros k' c' [[= -> ->]|Hin]%elem_of_cons; [lia|eauto].
    + right. apply elem_of_cons. naive_solver.
  - specialize (IH e n). destruct (foldl _ _ l) as [e' n'].
    destruct IH as (H1 & H2 & H3). split_and!; [lia| |].
    + intros k' c' [[= -> ->]|Hin]%elem_of_cons; [lia|eauto].
    + destruct H3; [by left|right; by apply elem_of_cons; right].
Qed.

Lemma Mode_max zero b :
  bag_ok b → let '(e, n) := Mode zero b in
  (∀ k, Count b k ≤ n) ∧ ((e, n) = (zero, 0) ∨ counts b !! e = Some n).
Proof.
  intros Hb. unfold Mode. pose proof (Mode_fold (map_range (counts b)) zero 0) as H'.
  destruct (foldl _ _ _) as [e n]. destruct H' as (H1 & H2 & H3). split.
  - intros k. unfold Count. destruct (counts b !! k) as [c|] eqn:E; simpl; [|lia].
    apply (H2 k). by apply elem_of_map_range.
  - destruct H3 as [H3|H3]; [by left|right]. by apply elem_of_map_range.
Qed.

Lemma SetThreshold_fold th (l : list (T * Z)) (met : gset T) :
  foldl (λ met '(vote, count), if th <=? count then {[vote]} ∪ met else met) met l =
  met ∪ list_to_set (base.filter (λ kc : T * Z, th ≤ kc.2) l).*1.
Proof.
  revert met. induction l as [|[k c] l IH]; intros met; simpl; [set_solver|].
  rewrite IH, filter_cons; simpl. destruct (Z.leb_spec th c); case_decide; try (simpl in *; lia).
  - rewrite fmap_cons. simpl. set_solver.
  - done.
Qed.

Lemma SetThreshold_ok b th : bag_ok b → bag_ok (SetThreshold b th).
Proof. intros [? ?]. unfold SetThreshold. by destruct (_ =? _). Qed.

Lemma SetThreshold_threshold_ok b th : threshold_ok b → threshold_ok (SetThreshold b th).
Proof.
  intros Ht. unfold SetThreshold. destruct (Z.eqb_spec (threshold b) th); [done|].
  intros k; simpl. rewrite SetThreshold_fold, elem_of_union, elem_of_list_to_set, list_elem_of_fmap.
  split.
  - intros [?|([k' c] & -> & [? Hin]%list_elem_of_filter)]; [set_solver|].
    exists c. by apply elem_of_map_range in Hin.
  - intros (c & Hc & ?). right. exists (k, c). split; [done|].
    apply list_elem_of_filter. by rewrite elem_of_map_range.
Qed.

(** ** Sequences of operations *)

Inductive bag_op : Type :=
| OpAddCount (elt : T) (count : Z)
| OpSetThreshold (th : Z)
| OpFilter (f : T → bool)
| OpSplit (f : T → bool) (side : bool)
| OpRemove (elt : T)
| OpClone.

Definition run_op b (op : bag_op) : Bag T :=
  match op with
  | OpAddCount elt count => AddCount b elt count
  | OpSetThreshold th => SetThreshold b th
  | OpFilter f => Filter f b
  | OpSplit f side => if side then (Split f b).2 else (Split f b).1
  | OpRemove elt => Remove b elt
  | OpClone => Clone b
  end.

Lemma run_op_ok b op : bag_ok b → bag_ok (run_op b op).
Proof.
  intros Hb. destruct op as [| | |f [|]| |]; simpl; rewrite ?Split_Filter; simpl;
    auto using AddCount_ok, SetThreshold_ok, Filter_ok, Remove_ok.
  rewrite Clone_map by done. apply bag_of_map_ok. by apply bag_pos.
Qed.

(** Whatever sequence of operations builds a bag, every stored count is
    positive and the cached size is the sum of the counts. *)
Theorem bag_invariant (ops : list bag_op) :
  bag_ok (foldl run_op empty_bag ops).
Proof.
  induction ops as [|op ops IH] using rev_ind; [apply empty_bag_ok|].
  rewrite foldl_app. by apply run_op_ok.
Qed.

(** [Split] partitions a bag: each element keeps its count on the side its
    predicate selects and is absent from the other, and the sizes add up. *)
Theorem Split_partition (f : T → bool) b :
  bag_ok b →
  let '(votes0, votes1) := Split f b in
  Len votes0 + Len votes1 = Len b ∧
  ∀ k, Count votes0 k = (if f k then 0 else Count b k) ∧
       Count votes1 k = (if f k then Count b k else 0).
Proof.
  intros Hb. rewrite Split_Filter. split.
  - by apply Split_Len.
  - intros k. rewrite !Count_Filter by done. by destruct (f k).
Qed.
End Bag.

Lemma Split_partition_witness :
  let b := @AddCount Z _ _ (@AddCount Z _ _ empty_bag 1 3) 2 5 in
  let '(votes0, votes1) := @Split Z _ _ (canonical_range Z) (λ x, x =? 1) b in
  Len votes0 + Len votes1 = 8 ∧ ∀ k, Count votes0 k = (if k =? 1 then 0 else Count b k) ∧
                                     Count votes1 k = (if k =? 1 then Count b k else 0).
Proof.
  apply (@Split_partition Z _ _ (canonical_range Z) (λ x, x =? 1)
           (AddCount (AddCount empty_bag 1 3) 2 5)).
  split.
  - intros k c. simpl. rewrite !lookup_insert_Some. naive_solver lia.
  - reflexivity.
Defined.
