(* ===== verification/SafeMath.v ===== *)
(** * Checked arithmetic on unsigned integers (package [utils/math])

    [utils/math/safe_math.go], generic in the width of the integer type.  Every
    arithmetic operator of the source wraps; the theorems below and in the
    packages that use these functions show where that never happens. *)
From S2P Require Import Prelude.

Inductive math_error : Type := ErrOverflow | ErrUnderflow.

(** [^T(0)] for a type of [w] bits. *)
Definition MaxUint (w : Z) : Z := 2 ^ w - 1.

(** The values of an unsigned type of [w] bits. *)
Definition is_uint (w z : Z) : Prop := 0 ≤ z ≤ MaxUint w.

(** [Add] *)
Definition safe_Add (w a b : Z) : result Z math_error :=
  if MaxUint w - b <? a then Err ErrOverflow else Ok ((a + b) mod 2 ^ w).

(** [Sub] *)
Definition safe_Sub (w a b : Z) : result Z math_error :=
  if a <? b then Err ErrUnderflow else Ok ((a - b) mod 2 ^ w).

(** [Mul] *)
Definition safe_Mul (w a b : Z) : result Z math_error :=
  if negb (b =? 0) && (MaxUint w `div` b <? a) then Err ErrOverflow else Ok ((a * b) mod 2 ^ w).

(** [AbsDiff] *)
Definition AbsDiff (w a b : Z) : Z := (a `max` b - a `min` b) mod 2 ^ w.

Section SafeMath.
Context (w : Z).
Implicit Types a b : Z.

Lemma uint_mod_id a : is_uint w a → a mod 2 ^ w = a.
Proof. unfold is_uint, MaxUint. intros. apply Z.mod_small. lia. Qed.

(** The exact result when it fits, an error otherwise. *)
Lemma safe_Add_spec a b :
  is_uint w a → is_uint w b →
  safe_Add w a b = if a + b <=? MaxUint w then Ok (a + b) else Err ErrOverflow.
Proof.
  unfold safe_Add. intros [??] [??]. zcases; [done|]. by rewrite uint_mod_id by (split; lia).
Qed.

Lemma safe_Sub_spec a b :
  is_uint w a → is_uint w b →
  safe_Sub w a b = if b <=? a then Ok (a - b) else Err ErrUnderflow.
Proof.
  unfold safe_Sub. intros [??] [??]. zcases; [done|]. by rewrite uint_mod_id by (split; lia).
Qed.

Lemma safe_Mul_spec a b :
  is_uint w a → is_uint w b →
  safe_Mul w a b = if a * b <=? MaxUint w then Ok (a * b) else Err ErrOverflow.
Proof.
  unfold safe_Mul. intros [??] [??]. destruct (Z.eqb_spec b 0) as [->|]; simpl.
  - rewrite Z.mul_0_r, Zmod_0_l. zcases; done.
  - destruct (Z.leb_spec (a * b) (MaxUint w)).
    + assert (a ≤ MaxUint w `div` b) by (apply Z.div_le_lower_bound; lia).
      zcases. by rewrite uint_mod_id by (split; nia).
    + assert (MaxUint w `div` b < a) by (apply Z.div_lt_upper_bound; lia). by zcases.
Qed.

Lemma AbsDiff_spec a b : is_uint w a → is_uint w b → AbsDiff w a b = Z.abs (a - b).
Proof. intros [??] [??]. unfold AbsDiff. rewrite uint_mod_id by (split; lia). lia. Qed.

(** The checked operations are exact: each returns the mathematical result
    when it is representable, and the error its comment documents otherwise;
    [AbsDiff] never wraps. *)
Theorem safe_math_exact a b :
  is_uint w a → is_uint w b →
  safe_Add w a b = (if a + b <=? MaxUint w then Ok (a + b) else Err ErrOverflow) ∧
  safe_Sub w a b = (if b <=? a then Ok (a - b) else Err ErrUnderflow) ∧
  safe_Mul w a b = (if a * b <=? MaxUint w then Ok (a * b) else Err ErrOverflow) ∧
  AbsDiff w a b = Z.abs (a - b).
Proof.
  intros. split_and!; auto using safe_Add_spec, safe_Sub_spec, safe_Mul_spec, AbsDiff_spec.
Qed.
End SafeMath.

Lemma safe_math_exact_witness :
  safe_Add 64 (2 ^ 64 - 1) 1 = Err ErrOverflow ∧ safe_Mul 64 (2 ^ 32) (2 ^ 31) = Ok (2 ^ 63).
Proof.
  pose proof (safe_math_exact 64 (2 ^ 64 - 1) 1) as (HA & _); [split; vm_compute; congruence..|].
  pose proof (safe_math_exact 64 (2 ^ 32) (2 ^ 31)) as (_ & _ & HM & _);
    [split; vm_compute; congruence..|].
  rewrite HA, HM. by vm_compute.
Defined.

(** Saturation at the ends of [uint64]. *)
Lemma is_uint64 z : is_uint 64 z ↔ is_u64 z.
Proof. done. Qed.

Lemma MaxUint64_eq : MaxUint 64 = MaxUint64.
Proof. done. Qed.

(** Proves that a value fits in [uint64] from bounds in the context. *)
Ltac u64 := first [done | apply is_uint64; split; first [lia | nia]].

(** The operations at 64 bits. *)
Lemma safe_Add64 a b :
  is_u64 a → is_u64 b →
  safe_Add 64 a b = if a + b <=? MaxUint64 then Ok (a + b) else Err ErrOverflow.
Proof. apply safe_Add_spec. Qed.

Lemma safe_Sub64 a b :
  is_u64 a → is_u64 b → safe_Sub 64 a b = if b <=? a then Ok (a - b) else Err ErrUnderflow.
Proof. apply safe_Sub_spec. Qed.

Lemma safe_Mul64 a b :
  is_u64 a → is_u64 b →
  safe_Mul 64 a b = if a * b <=? MaxUint64 then Ok (a * b) else Err ErrOverflow.
Proof. apply safe_Mul_spec. Qed.
