(* ===== verification/Forest.v ===== *)
(** * Votes in a forest

    Blocks form a forest by their parent links, and a vote for a block is a vote
    for each of its ancestors.  This file defines the transitive votes of a block
    and proves the equation the vote-propagation loops of the chain consensus and
    of the polls compute with: the transitive votes of a block are its own votes
    and those of its children. *)
From S2P Require Import Prelude Bag.

(** ** Sums over lists *)

Section Sums.
Context {A : Type}.
Implicit Types (l : list A) (f g : A → Z).

Definition sum_over f l : Z := lsum (map f l).

Lemma sum_over_cons f x l : sum_over f (x :: l) = f x + sum_over f l.
Proof. done. Qed.

Lemma sum_over_ext f g l : (∀ x, x ∈ l → f x = g x) → sum_over f l = sum_over g l.
Proof.
  induction l as [|x l IH]; intros Hfg; [done|]. rewrite !sum_over_cons.
  rewrite Hfg by set_solver. rewrite IH; [done|]. intros. apply Hfg. set_solver.
Qed.

Lemma sum_over_add f g l : sum_over (λ x, f x + g x) l = sum_over f l + sum_over g l.
Proof. induction l as [|x l IH]; [done|]. rewrite !sum_over_cons, IH. lia. Qed.

Lemma sum_over_scale k f l : sum_over (λ x, k * f x) l = k * sum_over f l.
Proof. induction l as [|x l IH]; [unfold sum_over; simpl; lia|]. rewrite !sum_over_cons, IH. lia. Qed.

Lemma sum_over_zero f l : (∀ x, x ∈ l → f x = 0) → sum_over f l = 0.
Proof.
  induction l as [|x l IH]; intros Hf; [done|]. rewrite sum_over_cons, Hf, IH; [done| |set_solver].
  intros. apply Hf. set_solver.
Qed.

Lemma sum_over_nonneg f l : (∀ x, x ∈ l → 0 ≤ f x) → 0 ≤ sum_over f l.
Proof.
  induction l as [|x l IH]; intros Hf; [done|]. rewrite sum_over_cons.
  specialize (IH ltac:(set_solver)). specialize (Hf x ltac:(set_solver)). lia.
Qed.

Lemma sum_over_le f g l : (∀ x, x ∈ l → f x ≤ g x) → sum_over f l ≤ sum_over g l.
Proof.
  induction l as [|x l IH]; intros Hf; [done|]. rewrite !sum_over_cons.
  specialize (IH ltac:(set_solver)). specialize (Hf x ltac:(set_solver)). lia.
Qed.

Lemma sum_over_app f l1 l2 : sum_over f (l1 ++ l2) = sum_over f l1 + sum_over f l2.
Proof. unfold sum_over. by rewrite List.map_app, lsum_app. Qed.

Lemma sum_over_perm f l1 l2 : l1 ≡ₚ l2 → sum_over f l1 = sum_over f l2.
Proof. induction 1; rewrite ?sum_over_cons; lia. Qed.

(** A sum with a single term that counts. *)
Lemma sum_over_single `{EqDecision A} f x l :
  NoDup l → sum_over (λ y, if decide (y = x) then f y else 0) l = if decide (x ∈ l) then f x else 0.
Proof.
  induction l as [|y l IH]; intros Hnd; [done|]. apply NoDup_cons in Hnd as [Hy Hnd].
  rewrite sum_over_cons, IH by done. destruct (decide (y = x)) as [->|Hne].
  - rewrite (decide_False (P := x ∈ l)), decide_True by set_solver. lia.
  - destruct (decide (x ∈ l)); [rewrite decide_True by set_solver|rewrite decide_False by set_solver]; lia.
Qed.
End Sums.

Lemma sum_over_swap {A B} (f : A → B → Z) (l : list A) (k : list B) :
  sum_over (λ x, sum_over (f x) k) l = sum_over (λ y, sum_over (λ x, f x y) l) k.
Proof.
  induction l as [|x l IH]; [symmetry; by apply sum_over_zero|].
  rewrite sum_over_cons, IH, <- sum_over_add. by apply sum_over_ext.
Qed.

(** Elements without a value may be left out of a sum. *)
Lemma sum_over_cover {A} (f : A → Z) (l1 l2 : list A) :
  NoDup l1 → NoDup l2 → l1 ⊆ l2 → (∀ x, x ∈ l2 → x ∉ l1 → f x = 0) → sum_over f l1 = sum_over f l2.
Proof.
  intros H1 H2 Hsub Hz. apply (NoDup_submseteq l1 l2 H1), submseteq_Permutation in Hsub as [rest Hrest].
  rewrite (sum_over_perm _ _ _ Hrest), sum_over_app, (sum_over_zero _ rest); [lia|].
  intros x Hx. apply Hz; [rewrite Hrest; set_solver|]. rewrite Hrest in H2. apply NoDup_app in H2 as (_ & Hd & _).
  intros Hx1. by apply (Hd x).
Qed.

Lemma sum_over_filter_le {A} (P : A → Prop) `{!∀ x, Decision (P x)} (f : A → Z) (l : list A) :
  (∀ x, x ∈ l → 0 ≤ f x) → sum_over f (filter P l) ≤ sum_over f l.
Proof.
  induction l as [|x l IH]; intros Hf; [done|]. specialize (IH ltac:(set_solver)).
  assert (0 ≤ f x) by (apply Hf; set_solver). rewrite filter_cons. case_decide; rewrite !sum_over_cons; lia.
Qed.

(** The size of a bag as a sum over any list that covers its elements. *)
Lemma Len_sum_over `{Countable T} (b : Bag T) (l : list T) :
  bag_ok b → NoDup l → (∀ k, 0 < Count b k → k ∈ l) → Len b = sum_over (Count b) l.
Proof.
  intros Hb Hnd Hl. rewrite <- (sum_over_cover (Count b) (map_to_list (counts b)).*1 l);
    [|apply NoDup_fst_map_to_list|done| |].
  - unfold Len. rewrite (bag_size _ Hb). unfold msum, sum_over.
    assert (∀ l : list (T * Z), (∀ k c, (k, c) ∈ l → counts b !! k = Some c) →
      lsum l.*2 = lsum (map (Count b) l.*1)) as Hl2.
    { clear. intros l. induction l as [|[k c] l IH]; intros Hin; [done|].
      change (c + lsum l.*2 = Count b k + lsum (map (Count b) l.*1)).
      assert (lsum l.*2 = lsum (map (Count b) l.*1)) as IH' by (apply IH; intros; apply Hin; set_solver).
      rewrite IH'. unfold Count at 2. by rewrite (Hin k c) by set_solver. }
    apply Hl2. intros k c. apply elem_of_map_to_list.
  - intros k ([k' c] & -> & Hk%elem_of_map_to_list)%list_elem_of_fmap. apply Hl. unfold Count. simpl. rewrite Hk.
    by apply (bag_pos _ Hb k' c).
  - intros k _ Hk. unfold Count. destruct (counts b !! k) as [c|] eqn:Hc; [|done]. destruct Hk.
    apply list_elem_of_fmap. exists (k, c). split; [done|]. by apply elem_of_map_to_list.
Qed.

(** ** Ancestors *)

Section Forest.
Context `{Countable A} (parents : gmap A A) (rank : A → nat).
Context (Hrank : ∀ c p, parents !! c = Some p → (rank p < rank c)%nat).

Fixpoint ancestors_upto (n : nat) (x : A) : list A :=
  x :: match n with
       | O => []
       | S n => match parents !! x with Some p => ancestors_upto n p | None => [] end
       end.

(** A block and its ancestors, up to the first whose parent is unknown. *)
Definition ancestors (x : A) : list A := ancestors_upto (rank x) x.

Lemma ancestors_upto_enough n m x :
  (rank x ≤ n)%nat → (rank x ≤ m)%nat → ancestors_upto n x = ancestors_upto m x.
Proof.
  revert m x. induction n as [|n IH]; intros m x Hn Hm; destruct m as [|m]; simpl; try done.
  - destruct (parents !! x) as [p|] eqn:Hp; [|done]. apply Hrank in Hp. lia.
  - destruct (parents !! x) as [p|] eqn:Hp; [|done]. apply Hrank in Hp. lia.
  - destruct (parents !! x) as [p|] eqn:Hp; [|done]. apply Hrank in Hp. f_equal. apply IH; lia.
Qed.

Lemma ancestors_eq x :
  ancestors x = x :: match parents !! x with Some p => ancestors p | None => [] end.
Proof.
  unfold ancestors. rewrite (ancestors_upto_enough _ (S (rank x))) by lia. simpl.
  destruct (parents !! x) as [p|] eqn:Hp; [|done]. apply Hrank in Hp. f_equal.
  apply ancestors_upto_enough; lia.
Qed.

(** Induction along parent links. *)
Lemma forest_ind (P : A → Prop) :
  (∀ x, (∀ p, parents !! x = Some p → P p) → P x) → ∀ x, P x.
Proof.
  intros Hstep x. remember (rank x) as n eqn:Hn. assert (rank x ≤ n)%nat as Hle by lia. clear Hn.
  revert x Hle. induction n as [|n IH]; intros x Hle; apply Hstep; intros p Hp%Hrank; [lia|].
  apply IH. lia.
Qed.

Lemma ancestors_self x : x ∈ ancestors x.
Proof. rewrite ancestors_eq. set_solver. Qed.

Lemma ancestors_rank x y : x ∈ ancestors y → (rank x ≤ rank y)%nat.
Proof.
  revert y. apply (forest_ind (λ y, x ∈ ancestors y → rank x ≤ rank y)%nat). intros y IH. rewrite ancestors_eq.
  intros [->|Hx]%elem_of_cons; [done|]. destruct (parents !! y) as [p|] eqn:Hp; [|by apply not_elem_of_nil in Hx].
  specialize (IH p eq_refl Hx). apply Hrank in Hp. lia.
Qed.

Lemma ancestors_trans x y z : x ∈ ancestors y → y ∈ ancestors z → x ∈ ancestors z.
Proof.
  intros Hxy. revert z. apply (forest_ind (λ z, y ∈ ancestors z → x ∈ ancestors z)). intros z IH.
  rewrite (ancestors_eq z). intros [->|Hy]%elem_of_cons.
  - by rewrite <- ancestors_eq.
  - destruct (parents !! z) as [p|]; [|by apply not_elem_of_nil in Hy]. apply elem_of_cons. right. by apply IH.
Qed.

Lemma ancestors_parent c p y : parents !! c = Some p → c ∈ ancestors y → p ∈ ancestors y.
Proof.
  intros Hp Hc. eapply ancestors_trans; [|exact Hc]. rewrite ancestors_eq, Hp.
  apply elem_of_cons. right. apply ancestors_self.
Qed.

Lemma ancestors_NoDup x : NoDup (ancestors x).
Proof.
  revert x. apply forest_ind. intros x IH. rewrite ancestors_eq. apply NoDup_cons.
  destruct (parents !! x) as [p|] eqn:Hp; [|split; [apply not_elem_of_nil|apply NoDup_nil_2]].
  split; [|by apply IH]. intros Hx%ancestors_rank. apply Hrank in Hp. lia.
Qed.

(** Two ancestors of a block are on one branch. *)
Lemma ancestors_linear x y z : x ∈ ancestors z → y ∈ ancestors z → x ∈ ancestors y ∨ y ∈ ancestors x.
Proof.
  revert z. apply (forest_ind (λ z, x ∈ ancestors z → y ∈ ancestors z → _)). intros z IH Hx Hy.
  pose proof Hx as Hx'. pose proof Hy as Hy'. rewrite ancestors_eq in Hx', Hy'.
  apply elem_of_cons in Hx' as [->|Hx']; [by right|]. apply elem_of_cons in Hy' as [->|Hy']; [by left|].
  destruct (parents !! z) as [p|]; [|by apply not_elem_of_nil in Hx']. by apply (IH p).
Qed.

(** ** Transitive votes *)

(** The indicator of [x] among the ancestors of [y]. *)
Definition above (x y : A) : Z := if decide (x ∈ ancestors y) then 1 else 0.

(** The children of [x] above [y] number one when [y] is strictly below [x]. *)
Lemma above_children x y (children : list A) :
  NoDup children → (∀ c, c ∈ children ↔ parents !! c = Some x ∧ c ∈ children) →
  (∀ c, parents !! c = Some x → c ∈ ancestors y → c ∈ children) →
  above x y = (if decide (y = x) then 1 else 0) + sum_over (λ c, above c y) children.
Proof.
  intros Hnd Hch. revert y.
  apply (forest_ind (λ y, (∀ c, parents !! c = Some x → c ∈ ancestors y → c ∈ children) → _)).
  intros y IH Hall. destruct (decide (y = x)) as [->|Hne].
  - unfold above at 1. rewrite decide_True by apply ancestors_self.
    rewrite sum_over_zero; [lia|]. intros c Hc. unfold above. rewrite decide_False; [done|].
    intros Hcx%ancestors_rank. apply Hch in Hc as [Hc%Hrank _]. lia.
  - destruct (parents !! y) as [p|] eqn:Hp; last first.
    { unfold above at 1. rewrite (decide_False (P := x ∈ _)) by (rewrite ancestors_eq, Hp; set_solver).
      rewrite sum_over_zero; [lia|]. intros c Hc. unfold above. rewrite decide_False; [done|].
      rewrite ancestors_eq, Hp. intros ->%list_elem_of_singleton. apply Hch in Hc as [Hc _]. congruence. }
    assert (∀ z, z ≠ y → above z y = above z p) as Habove.
    { intros z Hz. unfold above. rewrite (ancestors_eq y), Hp. destruct (decide (z ∈ ancestors p)).
      - rewrite decide_True by set_solver. done.
      - rewrite decide_False by set_solver. done. }
    assert (∀ c, parents !! c = Some x → c ∈ ancestors p → c ∈ children) as Hall'.
    { intros c Hc Hcp. apply Hall; [done|]. rewrite ancestors_eq, Hp. set_solver. }
    rewrite Habove by done. rewrite (IH p eq_refl Hall').
    assert (above y p = 0) as Hyp.
    { unfold above. rewrite decide_False; [done|]. intros ?%ancestors_rank. apply Hrank in Hp. lia. }
    assert (above y y = 1) as Hyy by (unfold above; by rewrite decide_True by apply ancestors_self).
    rewrite (sum_over_ext (λ c, above c y) (λ c, above c p + if decide (c = y) then 1 else 0)); last first.
    { intros c _. destruct (decide (c = y)) as [->|]; [lia|]. rewrite Habove by done. lia. }
    rewrite sum_over_add, (sum_over_single (λ _, 1)) by done.
    destruct (decide (p = x)) as [->|Hpx].
    + rewrite decide_True; [lia|]. apply Hall; [done|apply ancestors_self].
    + rewrite decide_False; [lia|]. intros [Hy _]%Hch. congruence.
Qed.

(** The votes for [x] and its descendants, for the voted blocks [voted]. *)
Definition transitive (voted : list A) (own : A → Z) (x : A) : Z :=
  sum_over (λ y, above x y * own y) voted.

(** The equation that propagates votes from children to parents. *)
Lemma transitive_children voted own x children :
  NoDup voted → NoDup children → (∀ c, c ∈ children → parents !! c = Some x) →
  (∀ c y, parents !! c = Some x → y ∈ voted → c ∈ ancestors y → c ∈ children) →
  transitive voted own x =
    (if decide (x ∈ voted) then own x else 0) + sum_over (transitive voted own) children.
Proof.
  intros Hv Hnd Hch Hall. unfold transitive at 1.
  rewrite (sum_over_ext _ (λ y, (if decide (y = x) then own y else 0) +
    sum_over (λ c, above c y * own y) children)).
  - rewrite sum_over_add, (sum_over_single own), (sum_over_swap (λ y c, above c y * own y)) by done. done.
  - intros y Hy. rewrite (above_children x y children); [|done|naive_solver|naive_solver].
    rewrite (sum_over_ext (λ c, above c y * own y) (λ c, own y * above c y)) by (intros; lia).
    rewrite sum_over_scale. destruct (decide (y = x)); lia.
Qed.

Lemma transitive_nonneg voted own x : (∀ y, y ∈ voted → 0 ≤ own y) → 0 ≤ transitive voted own x.
Proof.
  intros Ho. apply sum_over_nonneg. intros y Hy. specialize (Ho y Hy). unfold above. case_decide; lia.
Qed.

(** A block has at most all the votes, and at most its parent's. *)
Lemma transitive_total voted own x :
  (∀ y, y ∈ voted → 0 ≤ own y) → transitive voted own x ≤ sum_over own voted.
Proof.
  intros Ho. apply sum_over_le. intros y Hy. specialize (Ho y Hy). unfold above. case_decide; lia.
Qed.

Lemma transitive_parent voted own c p :
  (∀ y, y ∈ voted → 0 ≤ own y) → parents !! c = Some p →
  transitive voted own c ≤ transitive voted own p.
Proof.
  intros Ho Hp. apply sum_over_le. intros y Hy. specialize (Ho y Hy). unfold above.
  destruct (decide (c ∈ ancestors y)) as [Hc|]; [|case_decide; lia].
  rewrite decide_True by (by eapply ancestors_parent). lia.
Qed.

(** Blocks on different branches share no votes. *)
Lemma transitive_disjoint voted own x y :
  (∀ z, z ∈ voted → 0 ≤ own z) → (x ∉ ancestors y) → (y ∉ ancestors x) →
  transitive voted own x + transitive voted own y ≤ sum_over own voted.
Proof.
  intros Ho Hxy Hyx. unfold transitive. rewrite <- sum_over_add. apply sum_over_le. intros z Hz.
  specialize (Ho z Hz). unfold above.
  destruct (decide (x ∈ ancestors z)) as [Hx|], (decide (y ∈ ancestors z)) as [Hy|]; try lia.
  destruct (ancestors_linear _ _ _ Hx Hy); done.
Qed.
End Forest.
