(* ===== verification/Snowball.v ===== *)
(** * Snow instances (package [snow/consensus/snowball])

    [parameters.go], the slush, snowflake and snowball instances over one, two
    and arbitrarily many choices, [factory.go] and [flat.go].  The instances are
    the interface the consensus tree is built on: the class [SnowFactory] has
    the operations of the Go interfaces [Factory], [Nnary], [Binary] and [Unary],
    the class [SnowLaws] what the tree relies on, with one instance for each of
    the two factories of the source.

    Counters number polls and are integers; the choice of a binary instance is
    the [int] 0 or 1 that [ID.Bit] returns and is a [bool] ([true] is 1). *)
From S2P Require Import Prelude Ids Bag.

(** ** Parameters *)

Record Parameters : Type := mkParameters {
  K : Z;
  Alpha : option Z;
  AlphaPreference : Z;
  AlphaConfidence : Z;
  Beta : Z;
  ConcurrentRepolls : Z;
  OptimalProcessing : Z;
  MaxOutstandingItems : Z;
  MaxItemProcessingTime : Z;
}.

Definition DefaultParameters : Parameters := {|
  K := 20; Alpha := None; AlphaPreference := 15; AlphaConfidence := 15; Beta := 20;
  ConcurrentRepolls := 4; OptimalProcessing := 10; MaxOutstandingItems := 256;
  MaxItemProcessingTime := 30 * 1000000000;
|}.

(** The conditions [Verify] reports, each wrapping [ErrParametersInvalid]. *)
Inductive params_error : Type :=
| ErrAlphaPreferenceTooSmall
| ErrAlphaConfidenceTooSmall
| ErrKTooSmall
| ErrEasterEgg
| ErrConcurrentRepollsNotPositive
| ErrConcurrentRepollsTooLarge
| ErrOptimalProcessing
| ErrMaxOutstandingItems
| ErrMaxItemProcessingTime.

(** [Parameters.Verify]; [/] on [int] truncates. *)
Definition Verify (p : Parameters) : result unit params_error :=
  if AlphaPreference p <=? K p `quot` 2 then Err ErrAlphaPreferenceTooSmall else
  if AlphaConfidence p <? AlphaPreference p then Err ErrAlphaConfidenceTooSmall else
  if K p <? AlphaConfidence p then Err ErrKTooSmall else
  if (AlphaConfidence p =? 3) && (AlphaPreference p =? 28) then Err ErrEasterEgg else
  if ConcurrentRepolls p <=? 0 then Err ErrConcurrentRepollsNotPositive else
  if Beta p <? ConcurrentRepolls p then Err ErrConcurrentRepollsTooLarge else
  if OptimalProcessing p <=? 0 then Err ErrOptimalProcessing else
  if MaxOutstandingItems p <=? 0 then Err ErrMaxOutstandingItems else
  if MaxItemProcessingTime p <=? 0 then Err ErrMaxItemProcessingTime else
  Ok tt.

Record terminationCondition : Type := mkTermination { tc_alphaConfidence : Z; tc_beta : Z }.

Definition newSingleTerminationCondition (alphaConfidence beta : Z) : list terminationCondition :=
  [mkTermination alphaConfidence beta].

(** ** Confidence counters

    The loop over the termination conditions, shared word for word by the
    unary, binary and n-nary [RecordPoll]: the counters from index [i] on, and
    whether the loop set [finalized].  [clear(sf.confidence[i:])] zeroes the rest. *)
Definition clear (confidence : list Z) : list Z := replicate (length confidence) 0.

Fixpoint record_confidence (tcs : list terminationCondition) (confidence : list Z) (count : Z)
    : list Z * bool :=
  match tcs, confidence with
  | tc :: tcs', c :: rest =>
      if count <? tc_alphaConfidence tc then (clear confidence, false) else
      if tc_beta tc <=? c + 1 then (c + 1 :: rest, true) else
      let '(rest', fin) := record_confidence tcs' rest count in (c + 1 :: rest', fin)
  | _, _ => (confidence, false)
  end.

(** ** Unary instances *)

Record unarySnowflake : Type := mkUnarySnowflake {
  uf_alphaPreference : Z;
  uf_terminationConditions : list terminationCondition;
  uf_confidence : list Z;
  uf_finalized : bool;
}.

Definition newUnarySnowflake (alphaPreference : Z) (tcs : list terminationCondition) : unarySnowflake :=
  mkUnarySnowflake alphaPreference tcs (replicate (length tcs) 0) false.

Definition uf_RecordPoll (sf : unarySnowflake) (count : Z) : unarySnowflake :=
  let '(confidence, fin) :=
    record_confidence (uf_terminationConditions sf) (uf_confidence sf) count in
  mkUnarySnowflake (uf_alphaPreference sf) (uf_terminationConditions sf) confidence
    (uf_finalized sf || fin).

Definition uf_RecordUnsuccessfulPoll (sf : unarySnowflake) : unarySnowflake :=
  mkUnarySnowflake (uf_alphaPreference sf) (uf_terminationConditions sf)
    (clear (uf_confidence sf)) (uf_finalized sf).

Record unarySnowball : Type := mkUnarySnowball {
  ub_snowflake : unarySnowflake;
  ub_preferenceStrength : Z;
}.

Definition newUnarySnowball (alphaPreference : Z) (tcs : list terminationCondition) : unarySnowball :=
  mkUnarySnowball (newUnarySnowflake alphaPreference tcs) 0.

Definition ub_RecordPoll (sb : unarySnowball) (count : Z) : unarySnowball :=
  mkUnarySnowball (uf_RecordPoll (ub_snowflake sb) count)
    (if uf_alphaPreference (ub_snowflake sb) <=? count
     then ub_preferenceStrength sb + 1 else ub_preferenceStrength sb).

(** ** Binary instances *)

Record binarySlush : Type := mkBinarySlush { bl_preference : bool }.

Definition newBinarySlush (choice : bool) : binarySlush := mkBinarySlush choice.

Definition bl_RecordSuccessfulPoll (sl : binarySlush) (choice : bool) : binarySlush :=
  mkBinarySlush choice.

Record binarySnowflake : Type := mkBinarySnowflake {
  bf_slush : binarySlush;
  bf_alphaPreference : Z;
  bf_terminationConditions : list terminationCondition;
  bf_confidence : list Z;
  bf_finalized : bool;
}.

Definition newBinarySnowflake (alphaPreference : Z) (tcs : list terminationCondition)
    (choice : bool) : binarySnowflake :=
  mkBinarySnowflake (newBinarySlush choice) alphaPreference tcs (replicate (length tcs) 0) false.

Definition bf_Preference (sf : binarySnowflake) : bool := bl_preference (bf_slush sf).

Definition bf_RecordUnsuccessfulPoll (sf : binarySnowflake) : binarySnowflake :=
  mkBinarySnowflake (bf_slush sf) (bf_alphaPreference sf) (bf_terminationConditions sf)
    (clear (bf_confidence sf)) (bf_finalized sf).

Definition bf_RecordPoll (sf : binarySnowflake) (count : Z) (choice : bool) : binarySnowflake :=
  if bf_finalized sf then sf else
  if count <? bf_alphaPreference sf then bf_RecordUnsuccessfulPoll sf else
  let confidence :=
    if bool_decide (choice ≠ bf_Preference sf) then clear (bf_confidence sf) else bf_confidence sf in
  let '(confidence, fin) :=
    record_confidence (bf_terminationConditions sf) confidence count in
  mkBinarySnowflake (bl_RecordSuccessfulPoll (bf_slush sf) choice) (bf_alphaPreference sf)
    (bf_terminationConditions sf) confidence (bf_finalized sf || fin).

Record binarySnowball : Type := mkBinarySnowball {
  bb_snowflake : binarySnowflake;
  bb_preference : bool;
  bb_preferenceStrength : arr2 Z;
}.

Definition newBinarySnowball (alphaPreference : Z) (tcs : list terminationCondition)
    (choice : bool) : binarySnowball :=
  mkBinarySnowball (newBinarySnowflake alphaPreference tcs choice) choice (mkArr2 0 0).

Definition bb_Preference (sb : binarySnowball) : bool :=
  if bf_finalized (bb_snowflake sb) then bf_Preference (bb_snowflake sb) else bb_preference sb.

Definition bb_RecordPoll (sb : binarySnowball) (count : Z) (choice : bool) : binarySnowball :=
  let '(preference, strength) :=
    if bf_alphaPreference (bb_snowflake sb) <=? count then
      let strength := set2 (bb_preferenceStrength sb) choice (get2 (bb_preferenceStrength sb) choice + 1) in
      (if get2 strength (negb choice) <? get2 strength choice then choice else bb_preference sb, strength)
    else (bb_preference sb, bb_preferenceStrength sb) in
  mkBinarySnowball (bf_RecordPoll (bb_snowflake sb) count choice) preference strength.

Definition bb_RecordUnsuccessfulPoll (sb : binarySnowball) : binarySnowball :=
  mkBinarySnowball (bf_RecordUnsuccessfulPoll (bb_snowflake sb))
    (bb_preference sb) (bb_preferenceStrength sb).

(** [unarySnowflake.Extend] and [unarySnowball.Extend]: a binary instance with
    the state of the unary one. *)
Definition uf_Extend (sf : unarySnowflake) (choice : bool) : binarySnowflake :=
  mkBinarySnowflake (mkBinarySlush choice) (uf_alphaPreference sf)
    (uf_terminationConditions sf) (uf_confidence sf) (uf_finalized sf).

Definition ub_Extend (sb : unarySnowball) (choice : bool) : binarySnowball :=
  mkBinarySnowball (uf_Extend (ub_snowflake sb) choice) choice
    (set2 (mkArr2 0 0) choice (ub_preferenceStrength sb)).

(** [Clone]: a copy that shares no counters with the original. *)
Definition uf_Clone (sf : unarySnowflake) : unarySnowflake :=
  mkUnarySnowflake (uf_alphaPreference sf) (uf_terminationConditions sf)
    (uf_confidence sf) (uf_finalized sf).

Definition ub_Clone (sb : unarySnowball) : unarySnowball :=
  mkUnarySnowball (uf_Clone (ub_snowflake sb)) (ub_preferenceStrength sb).

(** ** N-nary instances *)

Record nnarySlush : Type := mkNnarySlush { nl_preference : ID }.

Definition newNnarySlush (choice : ID) : nnarySlush := mkNnarySlush choice.

Definition nl_RecordSuccessfulPoll (sl : nnarySlush) (choice : ID) : nnarySlush :=
  mkNnarySlush choice.

Record nnarySnowflake : Type := mkNnarySnowflake {
  nf_slush : nnarySlush;
  nf_alphaPreference : Z;
  nf_terminationConditions : list terminationCondition;
  nf_confidence : list Z;
  nf_finalized : bool;
}.

Definition newNnarySnowflake (alphaPreference : Z) (tcs : list terminationCondition)
    (choice : ID) : nnarySnowflake :=
  mkNnarySnowflake (newNnarySlush choice) alphaPreference tcs (replicate (length tcs) 0) false.

Definition nf_Add (sf : nnarySnowflake) (newChoice : ID) : nnarySnowflake := sf.

Definition nf_Preference (sf : nnarySnowflake) : ID := nl_preference (nf_slush sf).

Definition nf_RecordUnsuccessfulPoll (sf : nnarySnowflake) : nnarySnowflake :=
  mkNnarySnowflake (nf_slush sf) (nf_alphaPreference sf) (nf_terminationConditions sf)
    (clear (nf_confidence sf)) (nf_finalized sf).

Definition nf_RecordPoll (sf : nnarySnowflake) (count : Z) (choice : ID) : nnarySnowflake :=
  if nf_finalized sf then sf else
  if count <? nf_alphaPreference sf then nf_RecordUnsuccessfulPoll sf else
  let confidence :=
    if bool_decide (choice ≠ nf_Preference sf) then clear (nf_confidence sf) else nf_confidence sf in
  let '(confidence, fin) :=
    record_confidence (nf_terminationConditions sf) confidence count in
  mkNnarySnowflake (nl_RecordSuccessfulPoll (nf_slush sf) choice) (nf_alphaPreference sf)
    (nf_terminationConditions sf) confidence (nf_finalized sf || fin).

Record nnarySnowball : Type := mkNnarySnowball {
  nb_snowflake : nnarySnowflake;
  nb_preference : ID;
  nb_maxPreferenceStrength : Z;
  nb_preferenceStrength : gmap ID Z;
}.

Definition newNnarySnowball (alphaPreference : Z) (tcs : list terminationCondition)
    (choice : ID) : nnarySnowball :=
  mkNnarySnowball (newNnarySnowflake alphaPreference tcs choice) choice 0 ∅.

Definition nb_Preference (sb : nnarySnowball) : ID :=
  if nf_finalized (nb_snowflake sb) then nf_Preference (nb_snowflake sb) else nb_preference sb.

Definition nb_RecordPoll (sb : nnarySnowball) (count : Z) (choice : ID) : nnarySnowball :=
  let '(preference, maxStrength, strengths) :=
    if nf_alphaPreference (nb_snowflake sb) <=? count then
      let strength := default 0 (nb_preferenceStrength sb !! choice) + 1 in
      let strengths := <[choice := strength]> (nb_preferenceStrength sb) in
      if nb_maxPreferenceStrength sb <? strength then (choice, strength, strengths)
      else (nb_preference sb, nb_maxPreferenceStrength sb, strengths)
    else (nb_preference sb, nb_maxPreferenceStrength sb, nb_preferenceStrength sb) in
  mkNnarySnowball (nf_RecordPoll (nb_snowflake sb) count choice) preference maxStrength strengths.

Definition nb_RecordUnsuccessfulPoll (sb : nnarySnowball) : nnarySnowball :=
  mkNnarySnowball (nf_RecordUnsuccessfulPoll (nb_snowflake sb))
    (nb_preference sb) (nb_maxPreferenceStrength sb) (nb_preferenceStrength sb).

Definition nb_Add (sb : nnarySnowball) (newChoice : ID) : nnarySnowball :=
  mkNnarySnowball (nf_Add (nb_snowflake sb) newChoice)
    (nb_preference sb) (nb_maxPreferenceStrength sb) (nb_preferenceStrength sb).

(** ** The interfaces [Factory], [Unary], [Binary] and [Nnary] ([consensus.go]) *)

Class SnowFactory : Type := {
  Unary : Type;
  Binary : Type;
  Nnary : Type;
  NewNnary : Parameters → ID → Nnary;
  NewUnary : Parameters → Unary;
  u_RecordPoll : Unary → Z → Unary;
  u_RecordUnsuccessfulPoll : Unary → Unary;
  u_Finalized : Unary → bool;
  u_Extend : Unary → bool → Binary;
  u_Clone : Unary → Unary;
  b_Preference : Binary → bool;
  b_RecordPoll : Binary → Z → bool → Binary;
  b_RecordUnsuccessfulPoll : Binary → Binary;
  b_Finalized : Binary → bool;
  n_Add : Nnary → ID → Nnary;
  n_Preference : Nnary → ID;
  n_RecordPoll : Nnary → Z → ID → Nnary;
  n_RecordUnsuccessfulPoll : Nnary → Nnary;
  n_Finalized : Nnary → bool;
}.

(** [snowflakeFactory] *)
Definition snowflakeFactory : SnowFactory := {|
  Unary := unarySnowflake;
  Binary := binarySnowflake;
  Nnary := nnarySnowflake;
  NewNnary params choice :=
    newNnarySnowflake (AlphaPreference params)
      (newSingleTerminationCondition (AlphaConfidence params) (Beta params)) choice;
  NewUnary params :=
    newUnarySnowflake (AlphaPreference params)
      (newSingleTerminationCondition (AlphaConfidence params) (Beta params));
  u_RecordPoll := uf_RecordPoll;
  u_RecordUnsuccessfulPoll := uf_RecordUnsuccessfulPoll;
  u_Finalized := uf_finalized;
  u_Extend := uf_Extend;
  u_Clone := uf_Clone;
  b_Preference := bf_Preference;
  b_RecordPoll := bf_RecordPoll;
  b_RecordUnsuccessfulPoll := bf_RecordUnsuccessfulPoll;
  b_Finalized := bf_finalized;
  n_Add := nf_Add;
  n_Preference := nf_Preference;
  n_RecordPoll := nf_RecordPoll;
  n_RecordUnsuccessfulPoll := nf_RecordUnsuccessfulPoll;
  n_Finalized := nf_finalized;
|}.

(** [snowballFactory]; methods a snowball does not define are those of the
    snowflake it embeds. *)
Definition snowballFactory : SnowFactory := {|
  Unary := unarySnowball;
  Binary := binarySnowball;
  Nnary := nnarySnowball;
  NewNnary params choice :=
    newNnarySnowball (AlphaPreference params)
      (newSingleTerminationCondition (AlphaConfidence params) (Beta params)) choice;
  NewUnary params :=
    newUnarySnowball (AlphaPreference params)
      (newSingleTerminationCondition (AlphaConfidence params) (Beta params));
  u_RecordPoll := ub_RecordPoll;
  u_RecordUnsuccessfulPoll sb :=
    mkUnarySnowball (uf_RecordUnsuccessfulPoll (ub_snowflake sb)) (ub_preferenceStrength sb);
  u_Finalized sb := uf_finalized (ub_snowflake sb);
  u_Extend := ub_Extend;
  u_Clone := ub_Clone;
  b_Preference := bb_Preference;
  b_RecordPoll := bb_RecordPoll;
  b_RecordUnsuccessfulPoll := bb_RecordUnsuccessfulPoll;
  b_Finalized sb := bf_finalized (bb_snowflake sb);
  n_Add := nb_Add;
  n_Preference := nb_Preference;
  n_RecordPoll := nb_RecordPoll;
  n_RecordUnsuccessfulPoll := nb_RecordUnsuccessfulPoll;
  n_Finalized sb := nf_finalized (nb_snowflake sb);
|}.

(** [Flat] ([flat.go]): an n-nary instance fed with the mode of the votes. *)
Section Flat.
Context `{F : SnowFactory} `{!MapRange ID}.

Record Flat : Type := mkFlat { flat_Nnary : Nnary; flat_params : Parameters }.

Definition NewFlat (params : Parameters) (choice : ID) : Flat :=
  mkFlat (NewNnary params choice) params.

Definition Flat_RecordPoll (f : Flat) (votes : Bag ID) : Flat * bool :=
  let '(pollMode, numVotes) := Mode Empty votes in
  (mkFlat (n_RecordPoll (flat_Nnary f) numVotes pollMode) (flat_params f),
   AlphaPreference (flat_params f) <=? numVotes).
End Flat.

(** ** What the tree relies on *)

(** The counter and the finalization after a poll with [n] votes. *)
Definition next_confidence (p : Parameters) (c n : Z) : Z :=
  if AlphaConfidence p <=? n then c + 1 else 0.
Definition next_finalized (p : Parameters) (c n : Z) : bool :=
  (AlphaConfidence p <=? n) && (Beta p <=? c + 1).

(** A unary instance counts consecutive confident polls and finalizes when it
    reaches [Beta]; a binary instance does the same for the side polled last. *)
Class SnowLaws (F : SnowFactory) (p : Parameters) : Type := {
  u_ok : Unary → Prop;
  u_confidence : Unary → Z;
  b_ok : Binary → Prop;
  b_confidence : Binary → Z;
  b_side : Binary → bool;

  u_ok_range u : u_ok u → 0 ≤ u_confidence u ∧ (u_Finalized u = false → u_confidence u < Beta p);
  b_ok_range b : b_ok b → 0 ≤ b_confidence b ∧ (b_Finalized b = false → b_confidence b < Beta p);
  NewUnary_law : u_ok (NewUnary p) ∧ u_confidence (NewUnary p) = 0 ∧ u_Finalized (NewUnary p) = false;
  u_unsuccessful_law u :
    u_ok u → let u' := u_RecordUnsuccessfulPoll u in
    u_ok u' ∧ u_confidence u' = 0 ∧ u_Finalized u' = u_Finalized u;
  u_poll_law u n :
    u_ok u → u_Finalized u = false → let u' := u_RecordPoll u n in
    u_ok u' ∧ u_confidence u' = next_confidence p (u_confidence u) n ∧
    u_Finalized u' = next_finalized p (u_confidence u) n;
  u_poll_final_law u n :
    u_ok u → u_Finalized u = true → u_ok (u_RecordPoll u n) ∧ u_Finalized (u_RecordPoll u n) = true;
  u_Clone_law u : u_Clone u = u;
  u_Extend_law u choice :
    u_ok u → let b := u_Extend u choice in
    b_ok b ∧ b_confidence b = u_confidence u ∧ b_side b = choice ∧
    b_Finalized b = u_Finalized u ∧ b_Preference b = choice;
  b_unsuccessful_law b :
    b_ok b → let b' := b_RecordUnsuccessfulPoll b in
    b_ok b' ∧ b_confidence b' = 0 ∧ b_side b' = b_side b ∧
    b_Finalized b' = b_Finalized b ∧ b_Preference b' = b_Preference b;
  b_poll_law b n choice :
    b_ok b → b_Finalized b = false → AlphaPreference p ≤ n →
    let b' := b_RecordPoll b n choice in
    let c := if Bool.eqb choice (b_side b) then b_confidence b else 0 in
    b_ok b' ∧ b_confidence b' = next_confidence p c n ∧ b_side b' = choice ∧
    b_Finalized b' = next_finalized p c n;
  b_final_law b n choice :
    b_ok b → b_Finalized b = true →
    b_Preference b = b_side b ∧
    b_ok (b_RecordPoll b n choice) ∧ b_Finalized (b_RecordPoll b n choice) = true ∧
    b_Preference (b_RecordPoll b n choice) = b_Preference b ∧
    b_side (b_RecordPoll b n choice) = b_side b;
}.

Section laws.
Context (p : Parameters) (Hbeta : 0 < Beta p).

Definition single_ok (confidence : list Z) (fin : bool) : Prop :=
  ∃ c, confidence = [c] ∧ 0 ≤ c ∧ (fin = false → c < Beta p).

Definition head_confidence (confidence : list Z) : Z := default 0 (head confidence).

Definition uf_ok (sf : unarySnowflake) : Prop :=
  uf_alphaPreference sf = AlphaPreference p ∧
  uf_terminationConditions sf = newSingleTerminationCondition (AlphaConfidence p) (Beta p) ∧
  single_ok (uf_confidence sf) (uf_finalized sf).

Definition bf_ok (sf : binarySnowflake) : Prop :=
  bf_alphaPreference sf = AlphaPreference p ∧
  bf_terminationConditions sf = newSingleTerminationCondition (AlphaConfidence p) (Beta p) ∧
  single_ok (bf_confidence sf) (bf_finalized sf).

Lemma record_confidence_single c n :
  record_confidence (newSingleTerminationCondition (AlphaConfidence p) (Beta p)) [c] n =
  ([next_confidence p c n], next_finalized p c n).
Proof.
  unfold next_confidence, next_finalized; simpl. unfold clear; simpl.
  destruct (Z.ltb_spec n (AlphaConfidence p)), (Z.leb_spec (AlphaConfidence p) n); try lia; simpl;
    [done|]. by destruct (Beta p <=? c + 1).
Qed.

#[local] Arguments record_confidence : simpl never.
#[local] Arguments newSingleTerminationCondition : simpl never.

Lemma single_ok_next c n fin :
  0 ≤ c → single_ok [next_confidence p c n] (fin || next_finalized p c n).
Proof.
  intros Hc. unfold single_ok, next_confidence, next_finalized. eexists. split; [done|].
  destruct (Z.leb_spec (AlphaConfidence p) n); simpl; [|lia]. split; [lia|].
  intros [_ ?]%orb_false_iff. zbool. lia.
Qed.

Lemma single_ok_clear confidence fin :
  single_ok confidence fin → single_ok (clear confidence) fin ∧ head_confidence (clear confidence) = 0.
Proof. intros (c & -> & ? & ?). split; [|done]. exists 0. split_and!; [done|lia|lia]. Qed.

#[global] Program Instance snowflake_laws : SnowLaws snowflakeFactory p := {|
  u_ok := uf_ok;
  u_confidence sf := head_confidence (uf_confidence sf);
  b_ok := bf_ok;
  b_confidence sf := head_confidence (bf_confidence sf);
  b_side := bf_Preference;
|}.
Next Obligation. intros sf (_ & _ & c & -> & ? & ?). done. Qed.
Next Obligation. intros sf (_ & _ & c & -> & ? & ?). done. Qed.
Next Obligation. split_and!; try done. split_and!; [done..|]. exists 0. split_and!; [done|lia..]. Qed.
Next Obligation.
  intros sf (Ha & Ht & Hc). destruct (single_ok_clear _ _ Hc). by split_and!.
Qed.
Next Obligation.
  intros [a tcs cs fin] n (Ha & Ht & c & Hcs & Hc & Hlt) Hf; simpl in *; subst.
  unfold uf_RecordPoll, uf_ok; simpl.
  rewrite record_confidence_single; simpl. split_and!; try done. by apply (single_ok_next c n false).
Qed.
Next Obligation.
  intros [a tcs cs fin] n (Ha & Ht & c & Hcs & Hc & Hlt) Hf; simpl in *; subst.
  unfold uf_RecordPoll, uf_ok; simpl.
  rewrite record_confidence_single; simpl. split_and!; try done. by apply (single_ok_next c n true).
Qed.
Next Obligation. by intros []. Qed.
Next Obligation. intros sf choice (Ha & Ht & Hc). by split_and!. Qed.
Next Obligation. intros sf (Ha & Ht & Hc). destruct (single_ok_clear _ _ Hc). by split_and!. Qed.
Next Obligation.
  intros [sl a tcs cs fin] n choice (Ha & Ht & c & Hcs & Hc & Hlt) Hf Hn; simpl in *; subst.
  unfold bf_RecordPoll, bf_ok; simpl. destruct (Z.ltb_spec n (AlphaPreference p)); [lia|].
  set (c' := if Bool.eqb choice (bf_Preference _) then _ else 0).
  replace (if bool_decide _ then clear [c] else [c]) with [c'].
  2: { unfold c', bf_Preference; simpl. destruct choice, (bl_preference sl); done. }
  rewrite record_confidence_single; simpl. split_and!; try done. apply (single_ok_next c' n false).
  unfold c'. destruct (Bool.eqb _ _); simpl; unfold head_confidence; simpl; lia.
Qed.
Next Obligation.
  simpl. intros sf n choice Hok Hf. unfold bf_RecordPoll. rewrite Hf. by split_and!.
Qed.

(** The laws of the embedded snowflakes, by name. *)
Let uf_poll := @u_poll_law _ _ snowflake_laws.
Let uf_poll_final := @u_poll_final_law _ _ snowflake_laws.
Let bf_poll := @b_poll_law _ _ snowflake_laws.
Let bf_final := @b_final_law _ _ snowflake_laws.

Lemma bb_RecordPoll_snowflake sb n choice :
  bb_snowflake (bb_RecordPoll sb n choice) = bf_RecordPoll (bb_snowflake sb) n choice.
Proof. unfold bb_RecordPoll. by destruct (_ <=? n). Qed.

#[global] Program Instance snowball_laws : SnowLaws snowballFactory p := {|
  u_ok sb := uf_ok (ub_snowflake sb);
  u_confidence sb := head_confidence (uf_confidence (ub_snowflake sb));
  b_ok sb := bf_ok (bb_snowflake sb);
  b_confidence sb := head_confidence (bf_confidence (bb_snowflake sb));
  b_side sb := bf_Preference (bb_snowflake sb);
|}.
Next Obligation. intros sb H. apply (@u_ok_range _ _ snowflake_laws _ H). Qed.
Next Obligation. intros sb H. apply (@b_ok_range _ _ snowflake_laws _ H). Qed.
Next Obligation. apply (@NewUnary_law _ _ snowflake_laws). Qed.
Next Obligation. intros sb H. apply (@u_unsuccessful_law _ _ snowflake_laws _ H). Qed.
Next Obligation. intros sb n H Hf. apply (uf_poll _ n H Hf). Qed.
Next Obligation. intros sb n H Hf. apply (uf_poll_final _ n H Hf). Qed.
Next Obligation. by intros [[]]. Qed.
Next Obligation.
  intros sb choice H. destruct (@u_Extend_law _ _ snowflake_laws _ choice H) as (?&?&?&?&?).
  split_and!; try done. simpl. unfold bb_Preference; simpl. by destruct (uf_finalized _).
Qed.
Next Obligation. intros sb H. destruct (@b_unsuccessful_law _ _ snowflake_laws _ H) as (?&?&?&?&?). by split_and!. Qed.
Next Obligation.
  simpl. intros sb n choice H Hf Hn. rewrite bb_RecordPoll_snowflake. apply (bf_poll _ n choice H Hf Hn).
Qed.
Next Obligation.
  simpl. intros sb n choice H Hf. destruct (bf_final _ n choice H Hf) as (?&?&Hf'&Hp&?); simpl in *.
  unfold bb_Preference. rewrite !bb_RecordPoll_snowflake, Hf, Hf'. by split_and!.
Qed.
End laws.

(** ** Parameters: the quorum condition *)

Definition valid_parameters (p : Parameters) : Prop :=
  K p `quot` 2 < AlphaPreference p ∧ AlphaPreference p ≤ AlphaConfidence p ∧
  AlphaConfidence p ≤ K p ∧ 0 < ConcurrentRepolls p ∧ ConcurrentRepolls p ≤ Beta p ∧
  0 < OptimalProcessing p ∧ 0 < MaxOutstandingItems p ∧ 0 < MaxItemProcessingTime p.

Lemma Verify_valid p : Verify p = Ok tt ↔ valid_parameters p.
Proof. unfold Verify, valid_parameters. zcases; split; intros; simplify_eq; try done; lia. Qed.

Lemma Verify_majority p : Verify p = Ok tt → 0 < AlphaPreference p ∧ K p < 2 * AlphaPreference p.
Proof.
  intros (H1 & H2 & H3 & _)%Verify_valid.
  pose proof (Z.quot_rem' (K p) 2). pose proof (Z.rem_bound_abs (K p) 2). lia.
Qed.

(** [Verify] accepts exactly the parameters its comment lists, and the branch
    that prints the banner is never taken. *)
Theorem Verify_correct p :
  (Verify p = Ok tt ↔
   K p `quot` 2 < AlphaPreference p ∧ AlphaPreference p ≤ AlphaConfidence p ∧
   AlphaConfidence p ≤ K p ∧ 0 < ConcurrentRepolls p ∧ ConcurrentRepolls p ≤ Beta p ∧
   0 < OptimalProcessing p ∧ 0 < MaxOutstandingItems p ∧ 0 < MaxItemProcessingTime p) ∧
  Verify p ≠ Err ErrEasterEgg.
Proof.
  split; [apply Verify_valid|]. unfold Verify. zcases; congruence.
Qed.

Lemma msum_two_le `{Countable T} (m : gmap T Z) x y c d :
  map_Forall (λ _ z, 0 ≤ z) m → x ≠ y → m !! x = Some c → m !! y = Some d → c + d ≤ msum m.
Proof.
  intros Hm Hne Hx Hy. rewrite (msum_delete m x c) by done.
  enough (d ≤ msum (delete x m)) by lia.
  eapply msum_lookup_le; [by apply map_Forall_delete|]. by rewrite lookup_delete_ne.
Qed.

Lemma quorum_intersection p (votes : Bag ID) (x y : ID) :
  Verify p = Ok tt → bag_ok votes → Len votes ≤ K p →
  AlphaPreference p ≤ Count votes x → AlphaPreference p ≤ Count votes y → x = y.
Proof.
  intros [H0 HK]%Verify_majority Hb HL Hx Hy. destruct (decide (x = y)) as [|Hne]; [done|].
  exfalso. unfold Count, Len in *. rewrite (bag_size _ Hb) in HL.
  destruct (counts votes !! x) as [c|] eqn:Ex; simpl in *; [|lia].
  destruct (counts votes !! y) as [d|] eqn:Ey; simpl in *; [|lia].
  pose proof (msum_two_le _ _ _ _ _ (bag_counts_nonneg _ Hb) Hne Ex Ey). lia.
Qed.

(** ** The n-nary snowflake against its history *)

Inductive snow_event : Type :=
| Poll (count : Z) (choice : ID)
| Unsuccessful.

Definition nf_step (sf : nnarySnowflake) (e : snow_event) : nnarySnowflake :=
  match e with
  | Poll count choice => nf_RecordPoll sf count choice
  | Unsuccessful => nf_RecordUnsuccessfulPoll sf
  end.

(** The state after a history, whose head is the latest event. *)
Definition nf_exec (sf : nnarySnowflake) (h : list snow_event) : nnarySnowflake :=
  foldr (λ e s, nf_step s e) sf h.

(** The number of most recent consecutive polls in which [choice] got at least
    [AlphaConfidence] votes. *)
Fixpoint run_length (p : Parameters) (choice : ID) (h : list snow_event) : Z :=
  match h with
  | Poll count c :: h' =>
      if (AlphaConfidence p <=? count) && bool_decide (c = choice)
      then 1 + run_length p choice h' else 0
  | _ => 0
  end.

Definition never_confident (p : Parameters) (h : list snow_event) : Prop :=
  ∀ newer older choice, h = newer ++ older → run_length p choice older < Beta p.

Definition nf_single (p : Parameters) (sf : nnarySnowflake) : Prop :=
  nf_alphaPreference sf = AlphaPreference p ∧
  nf_terminationConditions sf = newSingleTerminationCondition (AlphaConfidence p) (Beta p).

Lemma nf_step_single p sf e : nf_single p sf → nf_single p (nf_step sf e).
Proof.
  intros [H1 H2]. destruct e; simpl; [|done]. unfold nf_RecordPoll.
  destruct (nf_finalized sf); [done|]. destruct (_ <? _); [done|]. by destruct (record_confidence _ _ _).
Qed.

Definition nf_refines (p : Parameters) (sf : nnarySnowflake) (h : list snow_event) : Prop :=
  nf_single p sf ∧
  if nf_finalized sf then
    ∃ newer older, h = newer ++ older ∧ run_length p (nf_Preference sf) older = Beta p
  else
    nf_confidence sf = [run_length p (nf_Preference sf) h] ∧ never_confident p h ∧
    ∀ choice, choice ≠ nf_Preference sf → run_length p choice h = 0.

Lemma never_confident_cons p e h :
  never_confident p h → (∀ choice, run_length p choice (e :: h) < Beta p) →
  never_confident p (e :: h).
Proof.
  intros Hh He newer older choice Heq. destruct newer as [|e' newer]; simpl in Heq.
  - by subst.
  - simplify_eq. by eapply Hh.
Qed.

Lemma run_length_hit p n c h :
  AlphaConfidence p ≤ n → run_length p c (Poll n c :: h) = run_length p c h + 1.
Proof.
  intros Hn. simpl. destruct (Z.leb_spec (AlphaConfidence p) n); [|lia].
  rewrite bool_decide_eq_true_2 by done. simpl. lia.
Qed.

Lemma run_length_miss p n c choice h :
  n < AlphaConfidence p ∨ choice ≠ c → run_length p choice (Poll n c :: h) = 0.
Proof.
  intros Hm. simpl. destruct (Z.leb_spec (AlphaConfidence p) n); [|done].
  rewrite bool_decide_eq_false_2; [done|]. naive_solver lia.
Qed.

#[local] Arguments run_length : simpl never.

Lemma never_confident_poll p n c h :
  0 < Beta p → never_confident p h →
  (AlphaConfidence p ≤ n → run_length p c h + 1 < Beta p) → never_confident p (Poll n c :: h).
Proof.
  intros Hb Hh Hlt. apply never_confident_cons; [done|]. intros choice.
  destruct (decide (choice = c ∧ AlphaConfidence p ≤ n)) as [[-> Hn]|Hm].
  - rewrite run_length_hit by done. auto.
  - rewrite run_length_miss; [done|]. destruct (decide (choice = c)) as [->|]; [left; apply Znot_ge_lt; intros ?; apply Hm; split; [done|lia] | by right].
Qed.

(** A poll that reaches [AlphaPreference] on an instance that is not finalized. *)
Lemma nf_poll_refines p sf h n c :
  Verify p = Ok tt → nf_refines p sf h → nf_finalized sf = false → AlphaPreference p ≤ n →
  nf_refines p (nf_RecordPoll sf n c) (Poll n c :: h).
Proof.
  intros Hp [Hs Hr] Hf Hn. split; [by apply (nf_step_single p sf (Poll n c))|].
  pose proof (proj1 (Verify_valid p) Hp) as (_ & Hac & _ & Hc1 & Hc2 & _).
  destruct Hs as [Ha Ht]. rewrite Hf in Hr. destruct Hr as (Hconf & Hnc & Hother).
  unfold nf_RecordPoll. rewrite Hf, Ha, Ht, Hconf.
  destruct (Z.ltb_spec n (AlphaPreference p)); [lia|].
  replace (if bool_decide _ then _ else _) with [run_length p c h].
  2: { case_bool_decide; [by rewrite (Hother c) | by replace c with (nf_Preference sf)]. }
  rewrite record_confidence_single; simpl.
  change (nf_Preference _) with c. unfold next_confidence, next_finalized.
  pose proof (Hnc [] h c eq_refl) as Hlt.
  destruct (Z.leb_spec (AlphaConfidence p) n) as [Hcn|Hcn]; simpl.
  - destruct (Z.leb_spec (Beta p) (run_length p c h + 1)).
    + exists [], (Poll n c :: h). split; [done|]. change (nf_Preference _) with c.
      rewrite run_length_hit by done. lia.
    + split_and!; [by rewrite run_length_hit| |intros; apply run_length_miss; by right].
      apply never_confident_poll; [lia|done..].
  - split_and!; [by rewrite run_length_miss by lia| |intros; apply run_length_miss; by right].
    apply never_confident_poll; [lia|done|lia].
Qed.

Lemma nf_step_refines p sf h e :
  Verify p = Ok tt → nf_refines p sf h → nf_refines p (nf_step sf e) (e :: h).
Proof.
  intros Hp Href. pose proof Href as [Hs Hr].
  pose proof (proj1 (Verify_valid p) Hp) as (_ & Hac & _ & Hc1 & Hc2 & _).
  destruct (nf_finalized sf) eqn:Hf.
  { split; [by apply nf_step_single|].
    assert (nf_finalized (nf_step sf e) = true ∧ nf_Preference (nf_step sf e) = nf_Preference sf)
      as [-> ->] by (destruct e; simpl; unfold nf_RecordPoll; by rewrite ?Hf).
    destruct Hr as (newer & older & -> & ?). by exists (e :: newer), older. }
  destruct Hr as (Hconf & Hnc & Hother).
  assert (∀ e', (∀ choice, run_length p choice (e' :: h) = 0) →
    nf_refines p (nf_RecordUnsuccessfulPoll sf) (e' :: h)) as Hreset.
  { intros e' Hz. split; [by apply (nf_step_single p sf Unsuccessful)|]. simpl. rewrite Hf.
    change (nf_Preference _) with (nf_Preference sf). rewrite Hz, Hconf. split_and!; [done| |done].
    apply never_confident_cons; [done|]. intros. rewrite Hz. lia. }
  destruct e as [n c|]; simpl; [|by apply Hreset].
  destruct (decide (n < AlphaPreference p)) as [Hn|Hn]; [|apply nf_poll_refines; [done..|lia]].
  unfold nf_RecordPoll. rewrite Hf, (proj1 Hs). destruct (Z.ltb_spec n (AlphaPreference p)); [|lia].
  apply Hreset. intros. apply run_length_miss. lia.
Qed.

Lemma nf_exec_refines p c0 h :
  Verify p = Ok tt →
  nf_refines p (nf_exec (@NewNnary snowflakeFactory p c0) h) h.
Proof.
  intros Hp. induction h as [|e h IH]; [|by apply nf_step_refines].
  pose proof (proj1 (Verify_valid p) Hp) as (_ & _ & _ & ? & ? & _).
  split; [done|]. simpl. split_and!; [done| |done].
  intros [|] older choice Heq; simplify_eq/=. unfold run_length. lia.
Qed.

(** An n-nary snowflake implements "[Beta] consecutive polls with at least
    [AlphaConfidence] votes for the same choice": it is finalized exactly when its
    history contains such a run, the finalized preference is the choice of a run
    of length [Beta], and until then its single counter is the length of the
    current run of its preference. *)
Theorem nnary_snowflake_history p c0 h :
  Verify p = Ok tt →
  let sf := nf_exec (@NewNnary snowflakeFactory p c0) h in
  (nf_finalized sf = true ↔
     ∃ newer older choice, h = newer ++ older ∧ Beta p ≤ run_length p choice older) ∧
  (nf_finalized sf = true →
     ∃ newer older, h = newer ++ older ∧ run_length p (nf_Preference sf) older = Beta p) ∧
  (nf_finalized sf = false → nf_confidence sf = [run_length p (nf_Preference sf) h]).
Proof.
  intros Hp sf. destruct (nf_exec_refines p c0 h Hp) as [_ Hr]. fold sf in Hr.
  destruct (nf_finalized sf); split_and!; try done.
  - split; [|done]. intros _. destruct Hr as (newer & older & ? & Hrun).
    exists newer, older, (nf_Preference sf). split; [done|lia].
  - split; [done|]. intros (newer & older & choice & Heq & Hge). destruct Hr as (_ & Hnc & _).
    specialize (Hnc _ _ choice Heq). lia.
  - by destruct Hr.
Qed.

Lemma nnary_snowflake_history_witness :
  let p := mkParameters 1 None 1 1 2 1 1 1 1 in
  nf_finalized (nf_exec (@NewNnary snowflakeFactory p Empty) [Poll 1 Empty; Poll 1 Empty]) = true.
Proof.
  intros p. apply (proj1 (nnary_snowflake_history p Empty [Poll 1 Empty; Poll 1 Empty] eq_refl)).
  exists [], [Poll 1 Empty; Poll 1 Empty], Empty. split; [reflexivity|]. vm_compute. discriminate.
Defined.

(** With verified parameters, a poll of at most [K] votes supports at most one
    choice: the mode [Flat.RecordPoll] feeds to its instance is the only choice
    that can have [AlphaPreference] votes, whatever order the bag is traversed
    in, and the poll is successful exactly when some choice has that many. *)
Theorem Flat_RecordPoll_majority `{F : SnowFactory} `{!MapRange ID} (f : Flat) (votes : Bag ID) x :
  Verify (flat_params f) = Ok tt → bag_ok votes → Len votes ≤ K (flat_params f) →
  AlphaPreference (flat_params f) ≤ Count votes x →
  Flat_RecordPoll f votes =
    (mkFlat (n_RecordPoll (flat_Nnary f) (Count votes x) x) (flat_params f), true).
Proof.
  intros Hp Hb HL Hx. destruct (Verify_majority _ Hp) as [H0 _]. unfold Flat_RecordPoll.
  pose proof (Mode_max Empty votes Hb) as Hm. destruct (Mode Empty votes) as [e n].
  destruct Hm as [Hle He]. pose proof (Hle x) as Hlx.
  destruct He as [[= _ ->]|He]; [lia|].
  assert (Count votes e = n) as Hn by (unfold Count; by rewrite He).
  assert (x = e) as -> by (apply (quorum_intersection (flat_params f) votes); [done..|lia]).
  rewrite Hn. destruct (Z.leb_spec (AlphaPreference (flat_params f)) n); [done|lia].
Qed.

Lemma Flat_RecordPoll_majority_witness :
  let f := @NewFlat snowflakeFactory DefaultParameters Empty in
  let votes := AddCount empty_bag Empty 16 in
  (@Flat_RecordPoll snowflakeFactory (canonical_range ID) f votes).2 = true.
Proof.
  intros f votes.
  rewrite (@Flat_RecordPoll_majority snowflakeFactory (canonical_range ID) f votes Empty eq_refl
             (AddCount_ok _ _ _ empty_bag_ok) ltac:(vm_compute; discriminate)
             ltac:(vm_compute; discriminate)).
  reflexivity.
Defined.

(** ** Several termination conditions *)

(** The order the comments require of the termination conditions. *)
Fixpoint conditions_ordered (tcs : list terminationCondition) : Prop :=
  match tcs with
  | tc1 :: ((tc2 :: _) as rest) =>
      tc_alphaConfidence tc1 < tc_alphaConfidence tc2 ∧ tc_beta tc2 ≤ tc_beta tc1 ∧
      conditions_ordered rest
  | _ => True
  end.

(** [confidence[i] >= confidence[i+1]], all counters below their [beta]. *)
Fixpoint counters_ordered (bound : Z) (tcs : list terminationCondition) (cs : list Z) : Prop :=
  match tcs, cs with
  | tc :: tcs', c :: cs' => 0 ≤ c ≤ bound ∧ c < tc_beta tc ∧ counters_ordered c tcs' cs'
  | [], [] => True
  | _, _ => False
  end.

Lemma counters_ordered_mono b b' tcs cs :
  b ≤ b' → counters_ordered b tcs cs → counters_ordered b' tcs cs.
Proof. destruct tcs, cs; simpl; naive_solver lia. Qed.

Lemma counters_ordered_length b tcs cs : counters_ordered b tcs cs → length cs = length tcs.
Proof. revert b cs. induction tcs; intros b [|c cs]; simpl; naive_solver. Qed.

Lemma counters_ordered_clear b tcs cs :
  0 ≤ b → Forall (λ tc, 0 < tc_beta tc) tcs → length cs = length tcs →
  counters_ordered b tcs (clear cs).
Proof.
  intros Hb HF. revert b Hb cs. induction HF; intros b Hb [|c cs]; simpl; try done.
  intros [= Hl]. split_and!; [lia..|]. by apply IHHF.
Qed.

Lemma record_confidence_ordered b tcs cs n :
  Forall (λ tc, 0 < tc_beta tc) tcs → counters_ordered b tcs cs → 0 ≤ b →
  let '(cs', fin) := record_confidence tcs cs n in
  length cs' = length tcs ∧ (fin = false → counters_ordered (b + 1) tcs cs').
Proof.
  intros HF. revert b cs. induction HF as [|tc tcs Htc HF IH]; intros b [|c cs]; simpl; try done.
  intros (Hc & Hlt & Hrest) Hb. pose proof (counters_ordered_length _ _ _ Hrest) as Hlen.
  destruct (Z.ltb_spec n (tc_alphaConfidence tc)).
  { unfold clear; simpl. rewrite length_replicate. split; [lia|]. intros _.
    split_and!; [lia..|]. apply counters_ordered_clear; done || lia. }
  destruct (Z.leb_spec (tc_beta tc) (c + 1)); [simpl; split; [lia|done]|].
  specialize (IH c cs Hrest ltac:(lia)). destruct (record_confidence tcs cs n) as [cs' fin].
  simpl. destruct IH as [-> IH]. split; [done|]. intros Hfin. split_and!; [lia..|]. by apply IH.
Qed.

Definition nf_ordered (sf : nnarySnowflake) : Prop :=
  length (nf_confidence sf) = length (nf_terminationConditions sf) ∧
  (nf_finalized sf = false →
     ∃ b, 0 ≤ b ∧ counters_ordered b (nf_terminationConditions sf) (nf_confidence sf)).

Lemma nf_step_ordered sf e :
  Forall (λ tc, 0 < tc_beta tc) (nf_terminationConditions sf) →
  nf_ordered sf →
  nf_terminationConditions (nf_step sf e) = nf_terminationConditions sf ∧ nf_ordered (nf_step sf e).
Proof.
  intros HF [Hl Ho].
  assert (nf_ordered (nf_RecordUnsuccessfulPoll sf)) as Hreset.
  { split; simpl; [unfold clear; by rewrite length_replicate|]. intros _. exists 0.
    split; [lia|]. by apply counters_ordered_clear. }
  destruct e as [n c|]; simpl; [|done]. unfold nf_RecordPoll.
  destruct (nf_finalized sf) eqn:Hf; [by split_and!; [done|]; split; rewrite ?Hf|].
  destruct (_ <? _); [done|]. destruct (Ho eq_refl) as (b & Hb & Hc).
  set (cs := if bool_decide _ then _ else _).
  assert (counters_ordered b (nf_terminationConditions sf) cs) as Hcs.
  { unfold cs. case_bool_decide; [|done]. by apply counters_ordered_clear. }
  pose proof (record_confidence_ordered b _ cs n HF Hcs Hb) as Hr.
  destruct (record_confidence _ cs n) as [cs' fin]; simpl. split; [done|].
  destruct Hr as [Hr1 Hr2]. split; simpl; [done|]. intros Hfin. exists (b + 1). split; [lia|auto].
Qed.

(** The documented invariant of a snowflake with any list of termination
    conditions of positive [beta]: there is one counter for each condition, and
    until the instance is finalized the counters descend and stay below their
    [beta], whatever polls were recorded. *)
Theorem nnary_confidence_ordered alphaPreference tcs c0 (h : list snow_event) :
  Forall (λ tc, 0 < tc_beta tc) tcs →
  let sf := nf_exec (newNnarySnowflake alphaPreference tcs c0) h in
  length (nf_confidence sf) = length tcs ∧
  (nf_finalized sf = false →
   ∀ i tc c, tcs !! i = Some tc → nf_confidence sf !! i = Some c →
     0 ≤ c < tc_beta tc ∧ ∀ d, nf_confidence sf !! S i = Some d → d ≤ c).
Proof.
  intros HF sf.
  assert (nf_terminationConditions sf = tcs ∧ nf_ordered sf) as [Htc [Hl Ho]].
  { unfold sf. clear sf. induction h as [|e h IH]; simpl.
    - split_and!; [done|]. split; simpl; [by rewrite length_replicate|]. intros _. exists 0.
      split; [lia|]. replace (replicate (length tcs) 0) with (clear (replicate (length tcs) 0)).
      + apply counters_ordered_clear; [lia|done|by rewrite length_replicate].
      + unfold clear. by rewrite length_replicate.
    - destruct IH as [IH1 IH2].
      destruct (nf_step_ordered (nf_exec (newNnarySnowflake alphaPreference tcs c0) h) e)
        as [H1 H2]; [by rewrite IH1|done|]. by rewrite H1. }
  rewrite Htc in *. split; [done|]. intros Hf. destruct (Ho Hf) as (b & _ & Hc). clear -Hc.
  generalize dependent b. generalize (nf_confidence sf). clear sf.
  induction tcs as [|tc tcs IH]; intros [|c cs] b Hc; simpl in Hc; try done.
  destruct Hc as (Hr & Hlt & Hc). intros [|i] tc' c' Htc' Hc'; simplify_eq/=; [|by eapply IH].
  split; [lia|]. intros d Hd. destruct tcs, cs; simpl in *; try done. simplify_eq. lia.
Qed.

Lemma nnary_confidence_ordered_witness :
  let sf := nf_exec (newNnarySnowflake 1 [mkTermination 1 4; mkTermination 2 3] Empty)
              [Poll 1 Empty; Poll 2 Empty] in
  nf_confidence sf = [2; 0] ∧ (0 ≤ 2 < 4 ∧ ∀ d, nf_confidence sf !! 1%nat = Some d → d ≤ 2).
Proof.
  intros sf. split; [reflexivity|].
  apply (proj2 (nnary_confidence_ordered 1 [mkTermination 1 4; mkTermination 2 3] Empty
           [Poll 1 Empty; Poll 2 Empty] ltac:(repeat constructor; simpl; lia))
           eq_refl 0%nat (mkTermination 1 4) 2 eq_refl eq_refl).
Defined.

(** ** Snowball: the preference is the strongest choice *)

Definition nb_step (sb : nnarySnowball) (e : snow_event) : nnarySnowball :=
  match e with
  | Poll count choice => nb_RecordPoll sb count choice
  | Unsuccessful => nb_RecordUnsuccessfulPoll sb
  end.

Definition nb_exec (sb : nnarySnowball) (h : list snow_event) : nnarySnowball :=
  foldr (λ e s, nb_step s e) sb h.

(** The number of polls of a history in which [choice] got [alphaPreference] votes. *)
Fixpoint support (alphaPreference : Z) (choice : ID) (h : list snow_event) : Z :=
  match h with
  | [] => 0
  | Poll count c :: h' =>
      (if (alphaPreference <=? count) && bool_decide (c = choice) then 1 else 0)
      + support alphaPreference choice h'
  | Unsuccessful :: h' => support alphaPreference choice h'
  end.

Lemma support_nonneg a c h : 0 ≤ support a c h.
Proof. induction h as [|[n c'|] h IH]; simpl; [lia| |lia]. destruct (_ && _); lia. Qed.

Record nb_strongest (a : Z) (sb : nnarySnowball) (h : list snow_event) : Prop := {
  nbs_alpha : nf_alphaPreference (nb_snowflake sb) = a;
  nbs_strength : ∀ c, default 0 (nb_preferenceStrength sb !! c) = support a c h;
  nbs_max : ∀ c, support a c h ≤ nb_maxPreferenceStrength sb;
  nbs_pref : support a (nb_preference sb) h = nb_maxPreferenceStrength sb;
}.

Lemma nf_step_alpha sf e : nf_alphaPreference (nf_step sf e) = nf_alphaPreference sf.
Proof.
  destruct e; simpl; [|done]. unfold nf_RecordPoll. destruct (nf_finalized sf); [done|].
  destruct (_ <? _); [done|]. by destruct (record_confidence _ _ _).
Qed.

Lemma nb_step_strongest a sb h e :
  nb_strongest a sb h → nb_strongest a (nb_step sb e) (e :: h).
Proof.
  intros [Ha Hs Hm Hp]. destruct e as [n c|]; simpl; [|by split].
  pose proof (nf_step_alpha (nb_snowflake sb) (Poll n c)) as Hal. simpl in Hal.
  assert (∀ d, support a d (Poll n c :: h) =
    support a d h + (if (a <=? n) && bool_decide (c = d) then 1 else 0)) as Hsup
    by (intros; simpl; lia).
  unfold nb_RecordPoll. rewrite Ha. destruct (Z.leb_spec a n) as [Hn|Hn].
  2: { assert (∀ d, support a d (Poll n c :: h) = support a d h) as Heq
         by (intros d; rewrite Hsup; destruct (Z.leb_spec a n); simpl; lia).
       split; cbn [nb_snowflake nb_preference nb_maxPreferenceStrength nb_preferenceStrength];
         [congruence|intros; rewrite Heq; auto..]. }
  set (v := default 0 (nb_preferenceStrength sb !! c) + 1).
  assert (support a c (Poll n c :: h) = v) as Hv.
  { rewrite Hsup, bool_decide_eq_true_2, <- Hs by done. simpl. unfold v. lia. }
  assert (∀ d, d ≠ c → support a d (Poll n c :: h) = support a d h) as Ho.
  { intros d Hd. rewrite Hsup, bool_decide_eq_false_2 by done. simpl. lia. }
  assert (∀ d, default 0 (<[c:=v]> (nb_preferenceStrength sb) !! d) = support a d (Poll n c :: h))
    as Hstr.
  { intros d. destruct (decide (d = c)) as [->|Hd]; [by rewrite lookup_insert_eq, Hv|].
    rewrite lookup_insert_ne by done. rewrite Ho by done. apply Hs. }
  destruct (Z.ltb_spec (nb_maxPreferenceStrength sb) v) as [Hlt|Hge].
  - split; cbn [nb_snowflake nb_preference nb_maxPreferenceStrength nb_preferenceStrength];
      [congruence|done| |done]. intros d. destruct (decide (d = c)) as [->|Hd]; [lia|].
    rewrite Ho by done. specialize (Hm d). lia.
  - split; cbn [nb_snowflake nb_preference nb_maxPreferenceStrength nb_preferenceStrength];
      [congruence|done| |].
    + intros d. destruct (decide (d = c)) as [->|Hd]; [lia|]. rewrite Ho by done. apply Hm.
    + destruct (decide (nb_preference sb = c)) as [Hd|Hd]; [|by rewrite Ho].
      rewrite Hd in Hp. rewrite Hd, Hv. specialize (Hs c). unfold v in *. lia.
Qed.

(** Before it is finalized, the preference of an n-nary snowball is a choice
    with the largest number of polls that reached [alphaPreference] votes, and
    the stored strengths are those numbers. *)
Theorem nnary_snowball_preference alphaPreference tcs c0 (h : list snow_event) :
  let sb := nb_exec (newNnarySnowball alphaPreference tcs c0) h in
  (∀ c, default 0 (nb_preferenceStrength sb !! c) = support alphaPreference c h) ∧
  (nf_finalized (nb_snowflake sb) = false →
   ∀ c, support alphaPreference c h ≤ support alphaPreference (nb_Preference sb) h).
Proof.
  intros sb. assert (nb_strongest alphaPreference sb h) as [_ Hs Hm Hp].
  { unfold sb. clear sb. induction h as [|e h IH]; [|by apply nb_step_strongest].
    split; simpl; try done. }
  split; [done|]. intros Hf c. unfold nb_Preference. rewrite Hf, Hp. apply Hm.
Qed.

(** ** Extending a unary instance *)

(** Splitting a unary snowball into a binary one commutes with polling: the
    binary instance extended on [choice] and then polled for [choice] is the
    extension of the polled unary instance. *)
Theorem Extend_RecordPoll (sb : unarySnowball) n choice :
  uf_finalized (ub_snowflake sb) = false → uf_alphaPreference (ub_snowflake sb) ≤ n →
  0 ≤ ub_preferenceStrength sb →
  bb_RecordPoll (ub_Extend sb choice) n choice = ub_Extend (ub_RecordPoll sb n) choice.
Proof.
  destruct sb as [[a tcs cs fin] st]; simpl. intros -> Hn Hst.
  unfold bb_RecordPoll, ub_Extend, uf_Extend, ub_RecordPoll, uf_RecordPoll, bf_RecordPoll; simpl.
  destruct (Z.leb_spec a n); [|lia]. destruct (Z.ltb_spec n a); [lia|].
  rewrite bool_decide_eq_false_2 by naive_solver.
  destruct (record_confidence tcs cs n) as [cs' fin']; simpl.
  destruct choice; simpl; zcases; done.
Qed.

Lemma Extend_RecordPoll_witness :
  let sb := newUnarySnowball 1 [mkTermination 1 2] in
  bb_RecordPoll (ub_Extend sb true) 1 true = ub_Extend (ub_RecordPoll sb 1) true.
Proof. intros sb. apply (Extend_RecordPoll sb 1 true); vm_compute; congruence. Defined.
