(* ===== verification/SnowTree.v ===== *)
(** * The consensus tree (package [snow/consensus/snowball], [tree.go])

    A modified patricia tree over the bits of the choices.  A unary node votes
    over a range of bits on which all choices below it agree, a binary node over
    one bit on which they differ; the nodes hold the snow instances.

    A method of a node mutates it and returns the node that takes its place.
    Nodes are owned by their parent alone, so [Add] is a function to the
    returned node.  [RecordPoll] returns both the receiver after the call and
    the returned node, because the parent keeps its pointer to the receiver and
    uses the returned node only when it is itself decided. *)
From S2P Require Import Prelude Ids Bag Snowball.

Section Tree.
Context `{F : SnowFactory} `{!MapRange ID}.

Inductive node : Type :=
| unaryNode (preference : ID) (decidedPrefix commonPrefix : Z) (snow : Unary)
    (shouldReset : bool) (child : option node)
| binaryNode (preferences : arr2 ID) (bit : Z) (snow : Binary)
    (shouldReset : arr2 bool) (children : arr2 (option node)).

(** [Preference] *)
Definition Preference (n : node) : ID :=
  match n with
  | unaryNode preference _ _ _ _ _ => preference
  | binaryNode preferences _ snow _ _ => get2 preferences (b_Preference snow)
  end.

(** [DecidedPrefix] *)
Definition DecidedPrefix (n : node) : Z :=
  match n with
  | unaryNode _ decidedPrefix _ _ _ _ => decidedPrefix
  | binaryNode _ bit _ _ _ => bit
  end.

(** [Finalized] *)
Definition Finalized (n : node) : bool :=
  match n with
  | unaryNode _ _ _ snow _ _ => u_Finalized snow
  | binaryNode _ _ snow _ _ => b_Finalized snow
  end.

Definition is_one (id : ID) (i : Z) : bool := Bit id i =? 1.

(** [Add] of both kinds of node. *)
Fixpoint node_Add (params : Parameters) (n : node) (newChoice : ID) : node :=
  match n with
  | unaryNode preference decidedPrefix commonPrefix snow shouldReset child =>
      if u_Finalized snow then n else
      match FirstDifferenceSubset decidedPrefix commonPrefix preference newChoice with
      | (_, false) =>
          unaryNode preference decidedPrefix commonPrefix snow shouldReset
            (match child with
             | Some c => Some (node_Add params c newChoice)
             | None => None
             end)
      | (index, true) =>
          let bit := is_one preference index in
          let b children :=
            binaryNode (set2 (set2 (mkArr2 Empty Empty) bit preference) (negb bit) newChoice)
              index (u_Extend snow bit) (mkArr2 shouldReset shouldReset) children in
          let newChild := unaryNode newChoice (index + 1) NumBits (NewUnary params) false None in
          let children c0 c1 := set2 (set2 (mkArr2 None None) bit c0) (negb bit) c1 in
          let newChildIfChild := match child with Some _ => Some newChild | None => None end in
          if decidedPrefix =? commonPrefix - 1 then
            b (children child newChildIfChild)
          else if index =? decidedPrefix then
            b (children
                 (Some (unaryNode preference (decidedPrefix + 1) commonPrefix snow shouldReset child))
                 (Some newChild))
          else if index =? commonPrefix - 1 then
            unaryNode preference decidedPrefix (commonPrefix - 1) snow shouldReset
              (Some (b (children child newChildIfChild)))
          else
            unaryNode preference decidedPrefix index (u_Clone snow) false
              (Some (b (children
                          (Some (unaryNode preference (index + 1) commonPrefix snow shouldReset child))
                          (Some newChild))))
      end
  | binaryNode preferences bit snow shouldReset children =>
      binaryNode preferences bit snow shouldReset
        (if is_one newChoice bit
         then mkArr2 (at0 children)
                (match at1 children with Some c => Some (node_Add params c newChoice) | None => None end)
         else mkArr2
                (match at0 children with Some c => Some (node_Add params c newChoice) | None => None end)
                (at1 children))
  end.

(** [RecordPoll] of both kinds of node: the receiver after the call, the
    returned node, and whether the poll was successful. *)
Fixpoint node_RecordPoll (params : Parameters) (n : node) (votes : Bag ID) (reset : bool)
    {struct n} : node * node * bool :=
  match n with
  | unaryNode preference decidedPrefix commonPrefix snow shouldReset child =>
      let snow := if reset then u_RecordUnsuccessfulPoll snow else snow in
      let shouldReset := if reset then true else shouldReset in
      let numVotes := Len votes in
      if numVotes <? AlphaPreference params then
        let u := unaryNode preference decidedPrefix commonPrefix
                   (u_RecordUnsuccessfulPoll snow) true child in
        (u, u, false)
      else
        let snow := u_RecordPoll snow numVotes in
        match child with
        | Some c =>
            let '(c', newChild, _) := node_RecordPoll params c votes shouldReset in
            if u_Finalized snow then
              (unaryNode preference decidedPrefix commonPrefix snow shouldReset (Some c'),
               newChild, true)
            else
              let u := unaryNode (Preference c') decidedPrefix commonPrefix snow false (Some c') in
              (u, u, true)
        | None =>
            let u := unaryNode preference decidedPrefix commonPrefix snow false None in
            (u, u, true)
        end
  | binaryNode preferences bit_index snow shouldReset children =>
      let '(votes0, votes1) := Split (λ id, is_one id bit_index) votes in
      let bit := AlphaPreference params <=? Len votes1 in
      let snow := if reset then b_RecordUnsuccessfulPoll snow else snow in
      let shouldReset := if reset then set2 shouldReset bit true else shouldReset in
      let shouldReset := set2 shouldReset (negb bit) true in
      let prunedVotes := if bit then votes1 else votes0 in
      let numVotes := Len prunedVotes in
      if numVotes <? AlphaPreference params then
        let b := binaryNode preferences bit_index (b_RecordUnsuccessfulPoll snow)
                   (set2 shouldReset bit true) children in
        (b, b, false)
      else
        let snow := b_RecordPoll snow numVotes bit in
        match (if bit then at1 children else at0 children) with
        | Some child =>
            let '(child', newChild, _) :=
              node_RecordPoll params child prunedVotes (get2 shouldReset bit) in
            let children := set2 children bit (Some child') in
            if b_Finalized snow then
              (binaryNode preferences bit_index snow shouldReset children, newChild, true)
            else
              let b := binaryNode (set2 preferences bit (Preference newChild)) bit_index snow
                         (set2 shouldReset bit false) children in
              (b, b, true)
        | None =>
            let b := binaryNode preferences bit_index snow (set2 shouldReset bit false) children in
            (b, b, true)
        end
  end.

(** ** The tree *)

Record Tree : Type := mkTree {
  t_node : node;
  t_params : Parameters;
  t_shouldReset : bool;
}.

(** [NewTree] *)
Definition NewTree (params : Parameters) (choice : ID) : Tree :=
  mkTree (unaryNode choice 0 NumBits (NewUnary params) false None) params false.

(** The methods of the root the tree embeds. *)
Definition Tree_Preference (t : Tree) : ID := Preference (t_node t).
Definition Tree_Finalized (t : Tree) : bool := Finalized (t_node t).

(** [Tree.Add] *)
Definition Tree_Add (t : Tree) (choice : ID) : Tree :=
  let prefix := DecidedPrefix (t_node t) in
  if EqualSubset 0 prefix (Tree_Preference t) choice
  then mkTree (node_Add (t_params t) (t_node t) choice) (t_params t) (t_shouldReset t)
  else t.

(** [Tree.RecordPoll] *)
Definition Tree_RecordPoll (t : Tree) (votes : Bag ID) : Tree * bool :=
  let decidedPrefix := DecidedPrefix (t_node t) in
  let preference := Tree_Preference t in
  let filteredVotes := Filter (λ id, EqualSubset 0 decidedPrefix preference id) votes in
  let '(_, newNode, successful) :=
    node_RecordPoll (t_params t) (t_node t) filteredVotes (t_shouldReset t) in
  (mkTree newNode (t_params t) false, successful).

(** [Tree.RecordUnsuccessfulPoll] *)
Definition Tree_RecordUnsuccessfulPoll (t : Tree) : Tree :=
  mkTree (t_node t) (t_params t) true.

(** The choices still in the tree, from the left. *)
Fixpoint choices (n : node) : list ID :=
  match n with
  | unaryNode preference _ _ _ _ None => [preference]
  | unaryNode _ _ _ _ _ (Some c) => choices c
  | binaryNode preferences _ _ _ (mkArr2 (Some c0) (Some c1)) => choices c0 ++ choices c1
  | binaryNode preferences _ _ _ _ => [at0 preferences; at1 preferences]
  end.
End Tree.

(** ** The invariant of a tree

    [hist x] is the number of most recent consecutive polls that gave [x] at least
    [AlphaConfidence] votes.  For a node that covers the bits from [lo] on,
    [pend] says that a reset of the node is pending (set on an ancestor), and
    [bound] is the confidence of its parent.  The invariant has the shape of the
    trie, that preferences are those of the preferred branch, that no node below
    the root is finalized and none is more confident than its parent, and that
    the confidence of a leaf is the history of its choice. *)
Section Invariant.
Context `{F : SnowFactory} `{!MapRange ID} (p : Parameters) `{!SnowLaws F p}.
Implicit Types n c : node.

Definition effective (pend : bool) (confidence : Z) : Z := if pend then 0 else confidence.

Record unary_live (pend : bool) (bound : Z) (snow : Unary) (sr : bool) : Prop := {
  ul_ok : u_ok snow;
  ul_live : u_Finalized snow = false;
  ul_bound : effective pend (u_confidence snow) ≤ bound;
  ul_reset : sr = true → u_confidence snow = 0;
}.

Record binary_live (pend : bool) (bound : Z) (snow : Binary) : Prop := {
  bl_ok : b_ok snow;
  bl_live : b_Finalized snow = false;
  bl_bound : effective pend (b_confidence snow) ≤ bound;
}.

(** The confidence a binary instance has in one of its sides. *)
Definition side_confidence (snow : Binary) (i : bool) : Z :=
  if Bool.eqb i (b_side snow) then b_confidence snow else 0.

Inductive node_inv (hist : ID → Z) : bool → Z → Z → node → Prop :=
| inv_unary_leaf pend bound lo pref snow sr :
    0 ≤ lo < NumBits → unary_live pend bound snow sr →
    effective pend (u_confidence snow) = hist pref →
    node_inv hist pend bound lo (unaryNode pref lo NumBits snow sr None)
| inv_unary pend bound lo cp pref snow sr c :
    0 ≤ lo < cp → cp < NumBits → unary_live pend bound snow sr →
    node_inv hist (pend || sr) (u_confidence snow) cp c →
    pref = Preference c → (∀ x, x ∈ choices c → agree lo cp x pref) →
    node_inv hist pend bound lo (unaryNode pref lo cp snow sr (Some c))
| inv_binary_leaf pend bound prefs snow sr :
    binary_live pend bound snow →
    (∀ i, bit_of (get2 prefs i) 255 = i) →
    (∀ i, effective pend (side_confidence snow i) = hist (get2 prefs i)) →
    node_inv hist pend bound 255 (binaryNode prefs 255 snow sr (mkArr2 None None))
| inv_binary pend bound lo prefs snow sr c0 c1 :
    0 ≤ lo → binary_live pend bound snow →
    node_inv hist (pend || at0 sr) (side_confidence snow false) (lo + 1) c0 →
    node_inv hist (pend || at1 sr) (side_confidence snow true) (lo + 1) c1 →
    (∀ x, x ∈ choices c0 → bit_of x lo = false) →
    (∀ x, x ∈ choices c1 → bit_of x lo = true) →
    at0 prefs = Preference c0 → at1 prefs = Preference c1 →
    node_inv hist pend bound lo (binaryNode prefs lo snow sr (mkArr2 (Some c0) (Some c1))).

Lemma node_inv_range hist pend bound lo n : node_inv hist pend bound lo n → 0 ≤ lo < NumBits.
Proof. induction 1; unfold NumBits in *; lia. Qed.

Lemma node_inv_prefix hist pend bound lo n : node_inv hist pend bound lo n → DecidedPrefix n = lo.
Proof. by destruct 1. Qed.

Lemma Preference_choices hist pend bound lo n :
  node_inv hist pend bound lo n → Preference n ∈ choices n.
Proof.
  induction 1 as [| | |pend bound lo prefs snow sr c0 c1 ??? IH0 ? IH1 ?? Hp0 Hp1]; simpl; subst.
  - set_solver.
  - done.
  - destruct (b_Preference snow); simpl; set_solver.
  - apply elem_of_app. destruct (b_Preference snow); simpl; rewrite ?Hp0, ?Hp1; auto.
Qed.

Lemma node_inv_live hist pend bound lo n : node_inv hist pend bound lo n → Finalized n = false.
Proof. destruct 1; simpl; eauto using ul_live, bl_live. Qed.

Lemma effective_true z : effective true z = 0.
Proof. done. Qed.

Lemma unary_live_nonneg pend bound snow sr :
  unary_live pend bound snow sr → 0 ≤ effective pend (u_confidence snow) ∧ 0 ≤ u_confidence snow < Beta p.
Proof.
  intros [Hok Hl _ _]. destruct (u_ok_range (p:=p) snow Hok) as [? Hr]. specialize (Hr Hl).
  destruct pend; simpl; lia.
Qed.

Lemma binary_live_nonneg pend bound snow :
  binary_live pend bound snow → 0 ≤ effective pend (b_confidence snow) ∧ 0 ≤ b_confidence snow < Beta p.
Proof.
  intros [Hok Hl _]. destruct (b_ok_range (p:=p) snow Hok) as [? Hr]. specialize (Hr Hl).
  destruct pend; simpl; lia.
Qed.

(** A larger bound is a weaker invariant. *)
Lemma node_inv_bound hist pend bound bound' lo n :
  bound ≤ bound' → node_inv hist pend bound lo n → node_inv hist pend bound' lo n.
Proof.
  intros Hb Hn. destruct Hn.
  1, 2: match goal with H : unary_live _ _ _ _ |- _ => destruct H end.
  3, 4: match goal with H : binary_live _ _ _ |- _ => destruct H end.
  all: econstructor; eauto; split; auto; lia.
Qed.

(** Marking a whole subtree for reset, when none of its choices has a history. *)
Lemma node_inv_pend hist hist' pend bound bound' lo n :
  0 ≤ bound' → (∀ x, x ∈ choices n → hist' x = 0) →
  node_inv hist pend bound lo n → node_inv hist' true bound' lo n.
Proof.
  intros Hb Hz Hn. revert bound' Hb Hz.
  induction Hn as [pend bound lo pref snow sr ? Hl ?|pend bound lo cp pref snow sr c ?? Hl ? IH|
    pend bound prefs snow sr Hl ? ?|pend bound lo prefs snow sr c0 c1 ? Hl ? IH0 ? IH1];
    intros bound' Hb Hz.
  - destruct Hl. constructor; [done|by split|]. rewrite Hz; [done|]. simpl. set_solver.
  - pose proof (unary_live_nonneg _ _ _ _ Hl). destruct Hl. constructor; try done.
    apply IH; [lia|done].
  - destruct Hl. constructor; [by split|done|]. intros i. rewrite Hz; [done|].
    destruct i; simpl; set_solver.
  - pose proof (binary_live_nonneg _ _ _ Hl). destruct Hl. simpl in Hz.
    assert (∀ i, 0 ≤ side_confidence snow i).
    { intros i. unfold side_confidence. destruct (Bool.eqb _ _); lia. }
    constructor; try done; [apply IH0|apply IH1]; auto; set_solver.
Qed.

(** ** Adding a choice *)

Lemma is_one_bit_of id i : 0 ≤ i → is_one id i = bit_of id i.
Proof. intros Hi. unfold is_one. rewrite Bit_bit_of by done. by destruct (bit_of id i). Qed.

Lemma unary_live_weaken pend bound snow sr :
  unary_live pend bound snow sr → unary_live (pend || sr) (u_confidence snow) snow sr.
Proof.
  intros Hl. pose proof (unary_live_nonneg _ _ _ _ Hl). destruct Hl. split; try done.
  destruct pend, sr; simpl; lia.
Qed.

Lemma effective_reset pend bound snow sr :
  unary_live pend bound snow sr →
  effective (pend || sr) (u_confidence snow) = effective pend (u_confidence snow).
Proof. intros [_ _ _ Hr]. destruct pend, sr; simpl; try done. by rewrite Hr. Qed.

Lemma fresh_leaf_inv hist pend bound lo x :
  0 ≤ lo < NumBits → 0 ≤ bound → hist x = 0 →
  node_inv hist pend bound lo (unaryNode x lo NumBits (NewUnary p) false None).
Proof.
  intros Hlo Hb Hx. destruct (NewUnary_law (p:=p)) as (Hok & Hc & Hf).
  constructor; [done| |]; [split; try done|]; rewrite Hc; destruct pend; simpl; lia.
Qed.

(** The binary node that replaces one unary instance, with its two subtrees. *)
Definition split_node (pref x : ID) (index : Z) (snow : Unary) (sr : bool)
    (same other : option node) : node :=
  let bit := is_one pref index in
  binaryNode (set2 (set2 (mkArr2 Empty Empty) bit pref) (negb bit) x) index
    (u_Extend snow bit) (mkArr2 sr sr) (set2 (set2 (mkArr2 None None) bit same) (negb bit) other).

Lemma split_live pend bound snow sr bit :
  unary_live pend bound snow sr →
  binary_live pend bound (u_Extend snow bit) ∧
  (∀ i, side_confidence (u_Extend snow bit) i = if Bool.eqb i bit then u_confidence snow else 0) ∧
  b_Preference (u_Extend snow bit) = bit.
Proof.
  intros [Hok Hl Hb _]. destruct (u_Extend_law (p:=p) snow bit Hok) as (Hok' & Hc & Hs & Hf & Hp).
  split_and!; [|unfold side_confidence; by rewrite Hs, Hc|done].
  split; [done|congruence|by rewrite Hc].
Qed.

Lemma split_inv hist pend bound index pref x snow sr ch :
  unary_live pend bound snow sr → 0 ≤ index → bit_of pref index ≠ bit_of x index → hist x = 0 →
  node_inv hist (pend || sr) (u_confidence snow) (index + 1) ch →
  (∀ y, y ∈ choices ch → bit_of y index = bit_of pref index) → Preference ch = pref →
  let n := split_node pref x index snow sr (Some ch)
             (Some (unaryNode x (index + 1) NumBits (NewUnary p) false None)) in
  node_inv hist pend bound index n ∧ (∀ y, y ∈ choices n ↔ y = x ∨ y ∈ choices ch) ∧
  Preference n = pref.
Proof.
  intros Hl Hi Hne Hx Hch Hbits Hp n.
  pose proof (unary_live_nonneg _ _ _ _ Hl). pose proof (node_inv_range _ _ _ _ _ Hch).
  destruct (split_live _ _ _ _ (is_one pref index) Hl) as (Hbl & Hside & Hbp).
  assert (∀ b, node_inv hist (pend || sr) b (index + 1)
    (unaryNode x (index + 1) NumBits (NewUnary p) false None) ∨ b < 0) as Hfresh.
  { intros b. destruct (decide (0 ≤ b)); [left; by apply fresh_leaf_inv | right; lia]. }
  unfold n, split_node. rewrite is_one_bit_of in * by done.
  assert (bit_of x index = negb (bit_of pref index)) as Hxb
    by (destruct (bit_of pref index), (bit_of x index); done).
  destruct (bit_of pref index) eqn:Hb; simpl; rewrite Hbp; simpl;
    (split_and!; [|intros y; rewrite ?elem_of_app; set_solver|done]);
    (constructor; simpl; try done; rewrite ?Hside; simpl;
     [try done; by destruct (Hfresh 0); [|lia]..|set_solver|set_solver]).
Qed.

Lemma split_leaf_inv hist pend bound pref x snow sr :
  unary_live pend bound snow sr → bit_of pref 255 ≠ bit_of x 255 → hist x = 0 →
  effective pend (u_confidence snow) = hist pref →
  let n := split_node pref x 255 snow sr None None in
  node_inv hist pend bound 255 n ∧ (∀ y, y ∈ choices n ↔ y = x ∨ y = pref) ∧ Preference n = pref.
Proof.
  intros Hl Hne Hx Hpref n.
  destruct (split_live _ _ _ _ (is_one pref 255) Hl) as (Hbl & Hside & Hbp).
  unfold n, split_node. rewrite is_one_bit_of in * by done.
  assert (bit_of x 255 = negb (bit_of pref 255)) as Hxb
    by (destruct (bit_of pref 255), (bit_of x 255); done).
  assert (effective pend 0 = 0) as H0 by by destruct pend.
  destruct (bit_of pref 255) eqn:Hb; simpl; rewrite Hbp; simpl;
    (split_and!; [|set_solver|done]); (constructor; [done|by intros []|]);
    intros i; rewrite Hside; destruct i; simpl; congruence.
Qed.

Definition fresh_leaf (x : ID) (lo : Z) : node :=
  unaryNode x lo NumBits (NewUnary p) false None.

(** The unary [Add] in terms of [split_node]. *)
Lemma node_Add_unary pref lo cp snow sr child x :
  u_Finalized snow = false →
  node_Add p (unaryNode pref lo cp snow sr child) x =
  match FirstDifferenceSubset lo cp pref x with
  | (_, false) => unaryNode pref lo cp snow sr ((λ c, node_Add p c x) <$> child)
  | (index, true) =>
      let fresh := fresh_leaf x (index + 1) in
      if lo =? cp - 1 then split_node pref x index snow sr child ((λ _, fresh) <$> child) else
      if index =? lo then
        split_node pref x index snow sr (Some (unaryNode pref (lo + 1) cp snow sr child)) (Some fresh) else
      if index =? cp - 1 then
        unaryNode pref lo (cp - 1) snow sr
          (Some (split_node pref x index snow sr child ((λ _, fresh) <$> child))) else
      unaryNode pref lo index (u_Clone snow) false
        (Some (split_node pref x index snow sr (Some (unaryNode pref (index + 1) cp snow sr child))
                 (Some fresh)))
  end.
Proof.
  intros Hf. simpl. rewrite Hf. destruct (FirstDifferenceSubset lo cp pref x) as [index [|]].
  - by destruct child.
  - by destruct child.
Qed.

Definition add_spec (hist : ID → Z) (pend : bool) (bound lo : Z) (n : node) (x : ID) (n' : node) : Prop :=
  node_inv hist pend bound lo n' ∧ (∀ y, y ∈ choices n' ↔ y = x ∨ y ∈ choices n) ∧
  Preference n' = Preference n.

(** The tail of a unary node, from [lo'] on, as a subtree of its own. *)
Lemma unary_tail_inv hist pend bound lo lo' cp pref snow sr child :
  lo ≤ lo' < cp →
  node_inv hist pend bound lo (unaryNode pref lo cp snow sr child) →
  node_inv hist (pend || sr) (u_confidence snow) lo' (unaryNode pref lo' cp snow sr child).
Proof.
  intros Hlo Hn. inversion Hn as [???? ?? ? Hl Hh|???????? ?? Hl Hc ? Hag| |]; subst.
  - pose proof (effective_reset _ _ _ _ Hl) as He.
    apply unary_live_weaken in Hl. constructor; [lia|done|congruence].
  - apply unary_live_weaken in Hl. constructor; try done; [lia|by destruct pend, sr|].
    intros y Hy. eapply agree_sub; [| |by apply Hag]; lia.
Qed.

Lemma unary_choices_agree hist pend bound lo cp pref snow sr child :
  node_inv hist pend bound lo (unaryNode pref lo cp snow sr child) →
  ∀ y, y ∈ choices (unaryNode pref lo cp snow sr child) → agree lo cp y pref.
Proof.
  intros Hn. inversion Hn; subst; [|done]. intros y Hy. simpl in Hy.
  assert (y = pref) as -> by set_solver. apply agree_refl.
Qed.

(** Splitting at [index], with the children a unary node hands over: its child
    when the split is on its last bit. *)
Lemma split_last_inv hist pend bound lo cp pref x snow sr child :
  node_inv hist pend bound lo (unaryNode pref lo cp snow sr child) →
  bit_of pref (cp - 1) ≠ bit_of x (cp - 1) → hist x = 0 →
  let pend' := if lo =? cp - 1 then pend else pend || sr in
  let bound' := if lo =? cp - 1 then bound else u_confidence snow in
  add_spec hist pend' bound' (cp - 1) (unaryNode pref lo cp snow sr child) x
    (split_node pref x (cp - 1) snow sr child ((λ _, fresh_leaf x (cp - 1 + 1)) <$> child)).
Proof.
  intros Hn Hne Hx pend' bound'. unfold add_spec.
  pose proof (unary_choices_agree _ _ _ _ _ _ _ _ _ Hn) as Hag.
  inversion Hn as [???? ?? Hr Hl Hh|???????? Hr ? Hl Hc Hp ?| |]; subst; simpl in *.
  - change (NumBits - 1) with 255 in *. pose proof (effective_reset _ _ _ _ Hl) as He.
    destruct (split_leaf_inv hist pend' bound' pref x snow sr) as (H1 & H2 & H3); try done.
    + unfold pend', bound'. destruct (lo =? 255); [done|by apply unary_live_weaken in Hl].
    + unfold pend'. destruct (lo =? 255); congruence.
    + split_and!; [done| |done]. intros y. rewrite H2. set_solver.
  - destruct (split_inv hist pend' bound' (cp - 1) (Preference c) x snow sr c) as (H1 & H2 & H3);
      try done.
    + unfold pend', bound'. destruct (lo =? cp - 1); [done|by apply unary_live_weaken in Hl].
    + lia.
    + rewrite Z.sub_add. unfold pend'. destruct (lo =? cp - 1); [done|by destruct pend, sr].
    + intros y Hy. apply Hag; [done|lia].
Qed.

Lemma split_early_inv hist pend bound lo cp pref x snow sr child index :
  node_inv hist pend bound lo (unaryNode pref lo cp snow sr child) →
  lo ≤ index < cp - 1 → bit_of pref index ≠ bit_of x index → hist x = 0 →
  let bound' := if lo =? index then bound else u_confidence snow in
  add_spec hist pend bound' index (unaryNode pref lo cp snow sr child) x
    (split_node pref x index snow sr (Some (unaryNode pref (index + 1) cp snow sr child))
       (Some (fresh_leaf x (index + 1)))).
Proof.
  intros Hn Hi Hne Hx bound'. unfold add_spec.
  pose proof (unary_choices_agree _ _ _ _ _ _ _ _ _ Hn) as Hag.
  pose proof (node_inv_range _ _ _ _ _ Hn).
  assert (unary_live pend bound snow sr) as Hl by (inversion Hn; done).
  destruct (split_inv hist pend bound' index pref x snow sr
    (unaryNode pref (index + 1) cp snow sr child)) as (H1 & H2 & H3); try done.
  - unfold bound'. destruct (lo =? index); [done|].
    pose proof (unary_live_nonneg _ _ _ _ Hl). destruct Hl. split; try done.
    destruct pend; simpl; lia.
  - lia.
  - eapply unary_tail_inv; [|done]. lia.
  - intros y Hy. apply Hag; [by destruct child|lia].
Qed.

(** A unary node that must be split: every case of [Add]. *)
Lemma unary_split_inv hist pend bound lo cp pref x snow sr child index :
  node_inv hist pend bound lo (unaryNode pref lo cp snow sr child) →
  first_difference lo cp pref x index → hist x = 0 →
  FirstDifferenceSubset lo cp pref x = (index, true) →
  add_spec hist pend bound lo (unaryNode pref lo cp snow sr child) x
    (node_Add p (unaryNode pref lo cp snow sr child) x).
Proof.
  intros Hn (Hi & Hne & Hag) Hx Hfd.
  pose proof (unary_choices_agree _ _ _ _ _ _ _ _ _ Hn) as Hch.
  pose proof (node_inv_range _ _ _ _ _ Hn) as Hlo.
  assert (unary_live pend bound snow sr) as Hl by (inversion Hn; done).
  assert (cp ≤ NumBits) as Hcp by (inversion Hn; lia).
  rewrite node_Add_unary by apply Hl. rewrite Hfd.
  destruct (Z.eqb_spec lo (cp - 1)) as [E1|E1].
  { assert (index = cp - 1) as -> by lia.
    pose proof (split_last_inv _ _ _ _ _ _ x _ _ _ Hn Hne Hx) as Hs. simpl in Hs.
    rewrite (proj2 (Z.eqb_eq lo (cp - 1)) E1) in Hs. by rewrite <- E1 in Hs |- *. }
  destruct (Z.eqb_spec index lo) as [->|E2].
  { pose proof (split_early_inv _ _ _ _ _ _ x _ _ _ lo Hn ltac:(lia) Hne Hx) as Hs.
    by rewrite Z.eqb_refl in Hs. }
  destruct (Z.eqb_spec index (cp - 1)) as [->|E3].
  - pose proof (split_last_inv _ _ _ _ _ _ x _ _ _ Hn Hne Hx) as (H1 & H2 & H3). simpl in H1.
    rewrite (proj2 (Z.eqb_neq lo (cp - 1)) E1) in H1. split_and!; [|done..].
    constructor; [lia..|done|done|done|]. intros y Hy. apply H2 in Hy as [->|Hy].
    + by apply agree_sym.
    + eapply agree_sub; [| |by apply Hch]; lia.
  - pose proof (split_early_inv _ _ _ _ _ _ x _ _ _ index Hn ltac:(lia) Hne Hx) as (H1 & H2 & H3).
    simpl in H1. rewrite (proj2 (Z.eqb_neq lo index)) in H1 by lia.
    rewrite u_Clone_law. split_and!; [|done..].
    constructor; [lia..| |by rewrite orb_false_r|done|].
    + destruct Hl. by split.
    + intros y Hy. apply H2 in Hy as [->|Hy]; [by apply agree_sym|].
      eapply agree_sub; [| |by apply Hch]; lia.
Qed.

Lemma node_Add_inv hist pend bound lo n x :
  node_inv hist pend bound lo n →
  (∀ y, y ∈ choices n → agree 0 lo y x) → (x ∉ choices n → hist x = 0) →
  add_spec hist pend bound lo n x (node_Add p n x).
Proof.
  intros Hn. induction Hn as [pend bound lo pref snow sr Hr Hl Hh|
    pend bound lo cp pref snow sr c Hr Hcp Hl Hc IH Hp Hag|pend bound prefs snow sr Hl Hbits Hh|
    pend bound lo prefs snow sr c0 c1 Hr Hl Hc0 IH0 Hc1 IH1 Hb0 Hb1 Hp0 Hp1]; intros Hx Hnew.
  - pose proof (FirstDifferenceSubset_correct lo NumBits pref x ltac:(lia) ltac:(done)) as Hfd.
    assert (node_inv hist pend bound lo (unaryNode pref lo NumBits snow sr None)) by by constructor.
    assert (agree 0 lo pref x) by (apply Hx; simpl; set_solver).
    destruct (FirstDifferenceSubset lo NumBits pref x) as [index [|]] eqn:E.
    + eapply unary_split_inv; try done. apply Hnew. simpl. intros ->%list_elem_of_singleton.
      by destruct Hfd as (_ & [] & _).
    + rewrite node_Add_unary by apply Hl. rewrite E. split_and!; [done| |done].
      assert (pref = x) as -> by (apply agree_full, (agree_split 0 lo); [lia|done]).
      simpl. set_solver.
  - pose proof (FirstDifferenceSubset_correct lo cp pref x ltac:(lia) ltac:(lia)) as Hfd.
    assert (node_inv hist pend bound lo (unaryNode pref lo cp snow sr (Some c))) by by constructor.
    destruct (FirstDifferenceSubset lo cp pref x) as [index [|]] eqn:E.
    + eapply unary_split_inv; try done. apply Hnew. intros Hin%Hag.
      destruct Hfd as (? & Hd & _). apply Hd. symmetry. apply Hin. lia.
    + rewrite node_Add_unary by apply Hl. rewrite E. simpl in Hx, Hnew.
      assert (∀ y, y ∈ choices c → agree 0 cp y x) as Hy.
      { intros y Hy. apply (agree_split 0 lo cp); [lia|]. split; [by apply Hx|].
        eapply agree_trans; [by apply Hag|done]. }
      destruct (IH Hy Hnew) as (H1 & H2 & H3).
      split_and!; [|done..]. constructor; [done..|congruence|].
      intros y [->|Hin]%H2; [by apply agree_sym|by apply Hag].
  - assert (x = get2 prefs (bit_of x 255)) as Hin.
    { symmetry. apply agree_full. apply (agree_split 0 255); [done|].
      split; [apply Hx; destruct (bit_of x 255); simpl; set_solver|].
      intros i Hi. assert (i = 255) as -> by (unfold NumBits in Hi; lia). apply Hbits. }
    assert (x ∈ [at0 prefs; at1 prefs]) by (rewrite Hin; destruct (bit_of x 255); simpl; set_solver).
    split_and!; simpl.
    + destruct (is_one x 255); by constructor.
    + destruct (is_one x 255); set_solver.
    + done.
  - simpl in *. rewrite is_one_bit_of by done.
    assert (∀ i c, get2 (mkArr2 c0 c1) i = c → bit_of x lo = i → ∀ y, y ∈ choices c → agree 0 (lo + 1) y x)
      as Hy.
    { intros i c Hc Hi y Hy. apply (agree_split 0 lo); [lia|]. split.
      - apply Hx. apply elem_of_app. destruct i; simpl in Hc; subst; auto.
      - intros j Hj. assert (j = lo) as -> by lia. destruct i; simpl in Hc; subst; rewrite Hi; auto. }
    destruct (bit_of x lo) eqn:Hb; simpl.
    + destruct IH1 as (H1 & H2 & H3); [by apply (Hy true)| |].
      { intros Hnot. apply Hnew. intros [Hin|]%elem_of_app; [|done]. apply Hb0 in Hin. congruence. }
      split_and!; [|intros y; simpl; rewrite !elem_of_app, H2; naive_solver|done].
      constructor; try done; [|congruence]. intros y [->|Hin]%H2; auto.
    + destruct IH0 as (H1 & H2 & H3); [by apply (Hy false)| |].
      { intros Hnot. apply Hnew. intros [|Hin]%elem_of_app; [done|]. apply Hb1 in Hin. congruence. }
      split_and!; [|intros y; simpl; rewrite !elem_of_app, H2; naive_solver|done].
      constructor; try done; [|congruence]. intros y [->|Hin]%H2; auto.
Qed.

(** ** Recording a poll *)

(** The history after a poll with the votes [V]. *)
Definition next_hist (V : Bag ID) (hist : ID → Z) (x : ID) : Z :=
  if AlphaConfidence p <=? Count V x then hist x + 1 else 0.

(** The tree is decided: its root is a finalized leaf. *)
Inductive final_leaf : node → Prop :=
| final_unary pref lo snow sr :
    u_ok snow → u_Finalized snow = true → final_leaf (unaryNode pref lo NumBits snow sr None)
| final_binary prefs snow sr :
    b_ok snow → b_Finalized snow = true →
    final_leaf (binaryNode prefs 255 snow sr (mkArr2 None None)).

Definition root_result (hist : ID → Z) (n : node) : Prop :=
  (∃ lo, node_inv hist false (Beta p) lo n) ∨ (final_leaf n ∧ Beta p ≤ hist (Preference n)).

Lemma root_Preference_choices hist n : root_result hist n → Preference n ∈ choices n.
Proof.
  intros [[lo Hn]|[Hf _]]; [by eapply Preference_choices|]. destruct Hf; simpl; [set_solver|].
  destruct (b_Preference snow); simpl; set_solver.
Qed.

Lemma next_mono e bound m m' :
  0 ≤ e ≤ bound → m ≤ m' → next_finalized p bound m' = false →
  next_finalized p e m = false ∧ next_confidence p e m ≤ next_confidence p bound m'.
Proof. unfold next_finalized, next_confidence. intros ??. zcases; intros; zbool; naive_solver lia. Qed.

Lemma next_confidence_range e m :
  0 ≤ e < Beta p → 0 ≤ next_confidence p e m ≤ Beta p.
Proof. unfold next_confidence. zcases. Qed.

(** What the votes of a node have to do with the votes [V] of the whole poll. *)
Record votes_for (V v : Bag ID) (n : node) : Prop := {
  vf_ok : bag_ok v;
  vf_known : ∀ x, 0 < Count v x → x ∈ choices n;
  vf_count : ∀ x, x ∈ choices n → Count v x = Count V x;
  vf_len : Len v ≤ K p;
}.

(** The receiver [self] and the returned node [ret] of a poll on [n], whose
    parent has confidence [bound] and was polled with [m] votes. *)
Record poll_spec (hist' : ID → Z) (bound m lo : Z) (n self ret : node) : Prop := {
  ps_kept : next_finalized p bound m = false →
    ret = self ∧ node_inv hist' false (next_confidence p bound m) lo self ∧ choices self = choices n;
  ps_root : root_result hist' ret;
  ps_prefix : lo ≤ DecidedPrefix ret;
  ps_choices : ∀ x, x ∈ choices ret ↔ x ∈ choices n ∧ agree lo (DecidedPrefix ret) x (Preference ret);
  ps_majority : ∀ x, x ∈ choices n → 0 < hist' x → x ∈ choices ret;
}.

(** A node that stays in place. *)
Lemma poll_spec_stay hist' bound bound' m lo n self :
  node_inv hist' false bound' lo self → bound' ≤ Beta p →
  (next_finalized p bound m = false → bound' ≤ next_confidence p bound m) →
  choices self = choices n → poll_spec hist' bound m lo n self self.
Proof.
  intros Hn HB Hb Hc. split.
  - intros Hf. split_and!; [done| |done]. eapply node_inv_bound; [|done]. auto.
  - left. exists lo. by eapply node_inv_bound.
  - by rewrite (node_inv_prefix _ _ _ _ _ Hn).
  - intros x. rewrite (node_inv_prefix _ _ _ _ _ Hn), Hc. split; [|naive_solver].
    intros ?. split; [done|]. intros i Hi. lia.
  - intros x. by rewrite Hc.
Qed.

(** A node that is decided and returns what its child returned. *)
Lemma poll_spec_child hist' bound m e m' lo lo' n c self cself ret :
  lo ≤ lo' → next_finalized p bound m = true →
  (∀ x, x ∈ choices n ↔ x ∈ choices c ∨ (x ∈ choices n ∧ ¬ agree lo lo' x (Preference ret))) →
  (∀ x y, x ∈ choices c → y ∈ choices c → agree lo lo' x y) →
  (∀ x, x ∈ choices n → 0 < hist' x → x ∈ choices c) →
  poll_spec hist' e m' lo' c cself ret → poll_spec hist' bound m lo n self ret.
Proof.
  intros Hlo Hf Hn Hc Hmaj [_ Hr Hp Hch Hm]. split; [congruence|done|lia| |by auto]. intros x.
  assert (Preference ret ∈ choices c) as Hpc.
  { apply root_Preference_choices, Hch in Hr. by destruct Hr. }
  rewrite Hch, (agree_split lo lo' (DecidedPrefix ret)) by lia. specialize (Hn x).
  destruct (decide (x ∈ choices c)) as [Hx|Hx].
  - pose proof (Hc x _ Hx Hpc). naive_solver.
  - naive_solver.
Qed.

Lemma low_hist V v n hist x :
  votes_for V v n → Len v < AlphaConfidence p → x ∈ choices n → next_hist V hist x = 0.
Proof.
  intros [Hok _ Hc _] Hlt Hx. unfold next_hist. rewrite <- Hc by done.
  pose proof (Count_le_Len v x Hok). zcases.
Qed.

Lemma reset_unary pend bound snow sr :
  unary_live pend bound snow sr →
  let s := if pend then u_RecordUnsuccessfulPoll snow else snow in
  u_ok s ∧ u_confidence s = effective pend (u_confidence snow) ∧ u_Finalized s = false.
Proof.
  intros [Hok Hl _ _]. destruct pend; simpl; [|done].
  destruct (u_unsuccessful_law (p:=p) snow Hok) as (?&?&Hf). by rewrite Hf.
Qed.

Lemma reset_binary pend bound snow :
  binary_live pend bound snow →
  let s := if pend then b_RecordUnsuccessfulPoll snow else snow in
  b_ok s ∧ b_confidence s = effective pend (b_confidence snow) ∧ b_side s = b_side snow ∧
  b_Finalized s = false ∧ b_Preference s = b_Preference snow.
Proof.
  intros [Hok Hl _]. destruct pend; simpl; [|done].
  destruct (b_unsuccessful_law (p:=p) snow Hok) as (?&?&?&Hf&?). by rewrite Hf.
Qed.

Lemma effective_side pend snow i :
  effective pend (side_confidence snow i) =
  if Bool.eqb i (b_side snow) then effective pend (b_confidence snow) else 0.
Proof. unfold side_confidence. by destruct pend, (Bool.eqb _ _). Qed.

Context (Hparams : Verify p = Ok tt).

Lemma params_facts :
  0 < AlphaPreference p ≤ AlphaConfidence p ∧ K p < 2 * AlphaPreference p ∧ 0 < Beta p.
Proof.
  pose proof (Verify_majority p Hparams).
  destruct (proj1 (Verify_valid p) Hparams) as (?&?&?&?&?&?). lia.
Qed.

Definition poll_ok (hist : ID → Z) (V : Bag ID) (pend : bool) (bound lo : Z) (n : node) : Prop :=
  ∀ v bound' m, votes_for V v n → 0 ≤ bound' → (pend = false → bound ≤ bound') → Len v ≤ m →
  let '(self, ret, _) := node_RecordPoll p n v pend in
  poll_spec (next_hist V hist) bound' m lo n self ret.

(** The confidence of a node is within the bound its parent sets. *)
Lemma effective_bound pend bound bound' z :
  0 ≤ bound' → (pend = false → bound ≤ bound') → effective pend z ≤ bound →
  effective pend z ≤ bound'.
Proof. intros ? Hb He. destruct pend; simpl in *; [done|]. specialize (Hb eq_refl). lia. Qed.

Lemma unsuccessful_unary pend bound snow sr bound' :
  unary_live pend bound snow sr → 0 ≤ bound' →
  let s := if pend then u_RecordUnsuccessfulPoll snow else snow in
  unary_live false bound' (u_RecordUnsuccessfulPoll s) true ∧
  u_confidence (u_RecordUnsuccessfulPoll s) = 0.
Proof.
  intros Hl Hb s. destruct (reset_unary _ _ _ _ Hl) as (Hok & Hc & Hf). fold s in Hok, Hc, Hf.
  destruct (u_unsuccessful_law (p:=p) s Hok) as (Hok' & Hc' & Hf'). split; [|done].
  split; [done|congruence|simpl; lia|done].
Qed.

Lemma successful_unary pend bound snow sr v :
  unary_live pend bound snow sr →
  let s := if pend then u_RecordUnsuccessfulPoll snow else snow in
  let e := effective pend (u_confidence snow) in
  u_ok (u_RecordPoll s v) ∧ u_confidence (u_RecordPoll s v) = next_confidence p e v ∧
  u_Finalized (u_RecordPoll s v) = next_finalized p e v.
Proof.
  intros Hl s e. destruct (reset_unary _ _ _ _ Hl) as (Hok & Hc & Hf). fold s in Hok, Hc, Hf.
  destruct (u_poll_law (p:=p) s v Hok Hf) as (?&Hc'&Hf'). by rewrite Hc', Hf', Hc.
Qed.

Lemma effective_range_unary pend bound snow sr :
  unary_live pend bound snow sr → 0 ≤ effective pend (u_confidence snow) < Beta p.
Proof.
  intros Hl. destruct (unary_live_nonneg _ _ _ _ Hl). pose proof params_facts.
  destruct pend; simpl in *; lia.
Qed.

Lemma poll_unary_leaf hist V pend bound lo pref snow sr :
  0 ≤ lo < NumBits → unary_live pend bound snow sr →
  effective pend (u_confidence snow) = hist pref →
  poll_ok hist V pend bound lo (unaryNode pref lo NumBits snow sr None).
Proof.
  intros Hlo Hl Hh v bound' m Hv Hb' Hbb Hm. simpl. pose proof params_facts as (?&?&?).
  assert (pref ∈ choices (unaryNode pref lo NumBits snow sr None)) as Hin by (simpl; set_solver).
  destruct (Z.ltb_spec (Len v) (AlphaPreference p)) as [Hlt|Hge].
  { destruct (unsuccessful_unary _ _ _ _ 0 Hl ltac:(lia)) as [Hl' Hc'].
    eapply (poll_spec_stay _ _ 0); [|lia| |done].
    - constructor; [done..|]. simpl. rewrite Hc'. symmetry. eapply low_hist; [done|lia|done].
    - intros _. unfold next_confidence. zcases. }
  destruct (successful_unary _ _ _ _ (Len v) Hl) as (Hok & Hc & Hf).
  pose proof (effective_range_unary _ _ _ _ Hl) as He.
  pose proof (effective_bound _ _ _ _ Hb' Hbb (ul_bound _ _ _ _ Hl)) as Heb.
  assert (next_hist V hist pref = next_confidence p (effective pend (u_confidence snow)) (Len v)) as Hnh.
  { unfold next_hist, next_confidence. rewrite <- (vf_count _ _ _ Hv pref Hin).
    rewrite (Len_only v pref (vf_ok _ _ _ Hv)), Hh; [done|].
    intros x Hx%(vf_known _ _ _ Hv). simpl in Hx. set_solver. }
  destruct (next_finalized p (effective pend (u_confidence snow)) (Len v)) eqn:Hfin.
  - split; [|right; split; [by constructor|]|done| |done].
    + intros Hff. pose proof (next_mono _ _ _ _ (conj (proj1 He) Heb) Hm Hff). naive_solver congruence.
    + simpl. rewrite Hnh. unfold next_finalized, next_confidence in *. zcases; zbool; lia.
    + intros x. simpl. split; [intros Hx|naive_solver]. split; [done|]. intros i Hi. lia.
  - eapply (poll_spec_stay _ _ (next_confidence p (effective pend (u_confidence snow)) (Len v)));
      [| | |done].
    + constructor; [done|split; [done|congruence|simpl; lia|done]|simpl; congruence].
    + by apply next_confidence_range.
    + intros Hff. apply next_mono; [lia|done|done].
Qed.

Lemma poll_unary_inner hist V pend bound lo cp pref snow sr c :
  0 ≤ lo < cp → cp < NumBits → unary_live pend bound snow sr →
  node_inv hist (pend || sr) (u_confidence snow) cp c →
  pref = Preference c → (∀ x, x ∈ choices c → agree lo cp x pref) →
  poll_ok hist V (pend || sr) (u_confidence snow) cp c →
  poll_ok hist V pend bound lo (unaryNode pref lo cp snow sr (Some c)).
Proof.
  intros Hlo Hcp Hl Hc Hp Hag IH v bound' m Hv Hb' Hbb Hm. simpl.
  pose proof params_facts as (?&?&?).
  destruct (Z.ltb_spec (Len v) (AlphaPreference p)) as [Hlt|Hge].
  { destruct (unsuccessful_unary _ _ _ _ 0 Hl ltac:(lia)) as [Hl' Hc'].
    eapply (poll_spec_stay _ _ 0); [|lia| |done].
    - constructor; [done..| |done|done]. simpl. rewrite Hc'.
      eapply node_inv_pend; [done| |exact Hc]. intros x Hx. eapply low_hist; [done|lia|done].
    - intros _. unfold next_confidence. zcases. }
  destruct (successful_unary _ _ _ _ (Len v) Hl) as (Hok & Hcf & Hf).
  pose proof (effective_range_unary _ _ _ _ Hl) as He.
  pose proof (effective_bound _ _ _ _ Hb' Hbb (ul_bound _ _ _ _ Hl)) as Heb.
  set (e := effective pend (u_confidence snow)) in *.
  replace (if pend then true else sr) with (pend || sr) by by destruct pend.
  assert (let '(self, ret, _) := node_RecordPoll p c v (pend || sr) in
          poll_spec (next_hist V hist) e (Len v) cp c self ret) as HIH.
  { apply IH; [by destruct Hv; split|lia|by unfold e; destruct pend|lia]. }
  destruct (node_RecordPoll p c v (pend || sr)) as [[self ret] ok].
  rewrite Hf. destruct (next_finalized p e (Len v)) eqn:Hfin.
  - eapply poll_spec_child; [| | | | |exact HIH]; [lia| |naive_solver| |done].
    + apply not_false_iff_true. intros Hff.
      pose proof (next_mono _ _ _ _ (conj (proj1 He) Heb) Hm Hff). naive_solver congruence.
    + intros x y Hx Hy. eapply agree_trans; [by apply Hag|]. by apply agree_sym, Hag.
  - destruct HIH as [Hkept _ _ _ _]. destruct (Hkept Hfin) as (-> & Hself & Hch).
    eapply (poll_spec_stay _ _ (next_confidence p e (Len v))); [| | |done].
    + constructor; [done|done|split; [done|congruence|simpl; lia|done]| |done|].
      * simpl. by rewrite Hcf.
      * rewrite Hch. intros x Hx. eapply agree_trans; [by apply Hag|]. apply agree_sym, Hag.
        rewrite <- Hch. by eapply Preference_choices.
    + by apply next_confidence_range.
    + intros Hff. apply next_mono; [lia|done|done].
Qed.

(** The votes for the side of a bit that can have a majority. *)
Lemma split_votes V v n lo v0 v1 :
  votes_for V v n → Split (λ id, is_one id lo) v = (v0, v1) →
  let bit := AlphaPreference p <=? Len v1 in
  let pruned := if bit then v1 else v0 in
  bag_ok pruned ∧ Len pruned ≤ Len v ∧
  (∀ x, Count pruned x = if Bool.eqb (is_one x lo) bit then Count v x else 0) ∧
  (∀ x, is_one x lo = negb bit → Count v x < AlphaPreference p) ∧
  (Len pruned < AlphaPreference p → ∀ x, Count v x < AlphaPreference p).
Proof.
  intros [Hok _ _ HK]. rewrite Split_Filter. intros [= <- <-] bit pruned.
  pose proof params_facts as (?&?&?). pose proof (Split_Len (λ id, is_one id lo) v Hok) as Hsum.
  assert (∀ x f, f x = true → Count v x ≤ Len (Filter f v)) as Hle.
  { intros x f Hx. replace (Count v x) with (Count (Filter f v) x) by (by rewrite Count_Filter, Hx).
    by apply Count_le_Len, Filter_ok. }
  pose proof (Len_nonneg _ (Filter_ok (λ id, is_one id lo) v Hok)).
  pose proof (Len_nonneg _ (Filter_ok (λ id, negb (is_one id lo)) v Hok)).
  unfold pruned, bit in *. clear pruned bit. destruct (Z.leb_spec (AlphaPreference p) (Len (Filter (λ id, is_one id lo) v))).
  - split_and!; [by apply Filter_ok|lia| | |lia].
    + intros x. rewrite Count_Filter by done. by destruct (is_one x lo).
    + intros x Hx. specialize (Hle x (λ id, negb (is_one id lo))). simpl in Hle.
      rewrite Hx in Hle. specialize (Hle eq_refl). lia.
  - split_and!; [by apply Filter_ok|lia| | |].
    + intros x. rewrite Count_Filter by done. by destruct (is_one x lo).
    + intros x Hx. specialize (Hle x (λ id, is_one id lo) Hx). lia.
    + intros Hlt x. destruct (is_one x lo) eqn:E.
      * specialize (Hle x (λ id, is_one id lo) E). lia.
      * specialize (Hle x (λ id, negb (is_one id lo))). simpl in Hle.
        rewrite E in Hle. specialize (Hle eq_refl). lia.
Qed.

Lemma unsuccessful_binary pend bound snow bound' :
  binary_live pend bound snow → 0 ≤ bound' →
  let s := if pend then b_RecordUnsuccessfulPoll snow else snow in
  binary_live false bound' (b_RecordUnsuccessfulPoll s) ∧
  (∀ i, side_confidence (b_RecordUnsuccessfulPoll s) i = 0).
Proof.
  intros Hl Hb s. destruct (reset_binary _ _ _ Hl) as (Hok & Hc & Hs & Hf & Hp).
  fold s in Hok, Hc, Hs, Hf, Hp.
  destruct (b_unsuccessful_law (p:=p) s Hok) as (Hok' & Hc' & Hs' & Hf' & Hp').
  split; [split; [done|congruence|simpl; lia]|].
  intros i. unfold side_confidence. rewrite Hc'. by destruct (Bool.eqb _ _).
Qed.

Lemma successful_binary pend bound snow v bit :
  binary_live pend bound snow → AlphaPreference p ≤ v →
  let s := b_RecordPoll (if pend then b_RecordUnsuccessfulPoll snow else snow) v bit in
  let e := effective pend (side_confidence snow bit) in
  b_ok s ∧ b_Finalized s = next_finalized p e v ∧
  (∀ i, side_confidence s i = if Bool.eqb i bit then next_confidence p e v else 0) ∧
  b_confidence s = next_confidence p e v.
Proof.
  intros Hl Hn. destruct (reset_binary _ _ _ Hl) as (Hok & Hc & Hs & Hf & Hp).
  set (s0 := if pend then b_RecordUnsuccessfulPoll snow else snow) in *.
  destruct (b_poll_law (p:=p) s0 v bit Hok Hf Hn) as (Hok' & Hc' & Hs' & Hf'). simpl.
  rewrite Hs, Hc, <- effective_side in Hc', Hf'. split_and!; [done..| |done].
  intros i. unfold side_confidence. by rewrite Hs', Hc'.
Qed.

Lemma effective_range_side pend bound snow i :
  binary_live pend bound snow →
  0 ≤ effective pend (side_confidence snow i) < Beta p ∧
  effective pend (side_confidence snow i) ≤ Z.max 0 bound.
Proof.
  intros Hl. destruct (binary_live_nonneg _ _ _ Hl). destruct Hl as [_ _ Hb].
  pose proof params_facts. rewrite effective_side.
  destruct (Bool.eqb _ _), pend; simpl in *; lia.
Qed.

Lemma next_hist_low V v n hist x :
  votes_for V v n → x ∈ choices n → Count v x < AlphaPreference p → next_hist V hist x = 0.
Proof.
  intros Hv Hx Hlt. unfold next_hist. rewrite <- (vf_count _ _ _ Hv x Hx).
  pose proof params_facts. zcases.
Qed.

Lemma poll_binary_leaf hist V pend bound prefs snow sr :
  binary_live pend bound snow → (∀ i, bit_of (get2 prefs i) 255 = i) →
  (∀ i, effective pend (side_confidence snow i) = hist (get2 prefs i)) →
  poll_ok hist V pend bound 255 (binaryNode prefs 255 snow sr (mkArr2 None None)).
Proof.
  intros Hl Hbits Hh v bound' m Hv Hb' Hbb Hm. cbn [node_RecordPoll].
  pose proof params_facts as (?&?&?).
  destruct (Split (λ id, is_one id 255) v) as [v0 v1] eqn:Hsplit.
  destruct (split_votes _ _ _ _ _ _ Hv Hsplit) as (Hok & Hle & Hcount & Hother & Hnone).
  cbn [at0 at1]. set (bit := AlphaPreference p <=? Len v1) in *.
  set (pruned := if bit then v1 else v0) in *.
  assert (∀ i, get2 prefs i ∈ choices (binaryNode prefs 255 snow sr (mkArr2 None None))) as Hin
    by (intros []; simpl; set_solver).
  assert (∀ i, is_one (get2 prefs i) 255 = i) as Hone by (intros i; by rewrite is_one_bit_of).
  destruct (Z.ltb_spec (Len pruned) (AlphaPreference p)) as [Hlt|Hge].
  { destruct (unsuccessful_binary _ _ _ 0 Hl ltac:(lia)) as [Hl' Hc'].
    eapply (poll_spec_stay _ _ 0); [|lia| |done].
    - constructor; [done..|]. intros i. simpl. rewrite Hc'. symmetry.
      eapply next_hist_low; [done|apply Hin|auto].
    - intros _. unfold next_confidence. zcases. }
  destruct (successful_binary _ _ _ (Len pruned) bit Hl Hge) as (Hok' & Hf & Hside & Hconf).
  destruct (effective_range_side _ _ _ bit Hl) as [He Heb].
  set (e := effective pend (side_confidence snow bit)) in *.
  set (s := b_RecordPoll _ (Len pruned) bit) in *.
  assert (∀ i, next_hist V hist (get2 prefs i) =
               if Bool.eqb i bit then next_confidence p e (Len pruned) else 0) as Hnh.
  { intros i. destruct (Bool.eqb i bit) eqn:Ei.
    - apply eqb_prop in Ei as ->. unfold next_hist, next_confidence.
      rewrite <- (vf_count _ _ _ Hv _ (Hin bit)).
      replace (Count v (get2 prefs bit)) with (Len pruned); [by unfold e; rewrite Hh|].
      rewrite (Len_only pruned (get2 prefs bit) Hok); [by rewrite Hcount, Hone, eqb_reflx|].
      intros x. rewrite Hcount. destruct (Bool.eqb (is_one x 255) bit) eqn:E; [|lia].
      apply eqb_prop in E. intros Hx%(vf_known _ _ _ Hv). simpl in Hx.
      pose proof (Hone true). pose proof (Hone false). simpl in *.
      destruct bit; simpl; set_solver by congruence.
    - eapply next_hist_low; [done|apply Hin|]. apply Hother. rewrite Hone.
      by destruct i, bit. }
  assert ((if bit then None else None) = @None node) as -> by by destruct bit.
  destruct (next_finalized p e (Len pruned)) eqn:Hfin.
  - split; [|right; split; [by constructor|]|done| |done].
    + intros Hff. destruct (next_mono e bound' (Len pruned) m) as [? _]; try done; try lia.
      * split; [lia|]. destruct pend; simpl in *; [lia|]. specialize (Hbb eq_refl). lia.
      * congruence.
    + simpl. destruct (b_final_law (p:=p) s 0 true Hok' Hf) as [Hps _].
      rewrite Hnh, Hps. pose proof (Hside (b_side s)) as Hs. unfold side_confidence in Hs.
      rewrite eqb_reflx, Hconf in Hs. rewrite <- Hs.
      unfold next_finalized, next_confidence in *. zcases; zbool; lia.
    + intros x. simpl. split; [intros Hx|naive_solver]. split; [done|]. intros i Hi. lia.
  - eapply (poll_spec_stay _ _ (next_confidence p e (Len pruned))); [| | |done].
    + constructor; [split; [done|congruence|simpl; lia]|done|]. intros i. simpl. by rewrite Hside, Hnh.
    + by apply next_confidence_range.
    + intros Hff. apply next_mono; [|lia|done]. split; [lia|].
      destruct pend; simpl in *; [lia|]. specialize (Hbb eq_refl). lia.
Qed.

Lemma pruned_votes_for V v pruned n cb lo bit :
  votes_for V v n → 0 ≤ lo → bag_ok pruned → Len pruned ≤ Len v →
  (∀ x, Count pruned x = if Bool.eqb (is_one x lo) bit then Count v x else 0) →
  (∀ x, x ∈ choices cb ↔ x ∈ choices n ∧ bit_of x lo = bit) →
  votes_for V pruned cb.
Proof.
  intros [_ Hknown Hc HK] Hlo Hok Hle Hcount Hcb. split; [done| | |lia]; intros x.
  - rewrite Hcount. destruct (Bool.eqb (is_one x lo) bit) eqn:E; [|lia]. intros Hx.
    apply Hcb. split; [by apply Hknown|]. apply eqb_prop in E. by rewrite <- is_one_bit_of.
  - intros [Hx Hb]%Hcb. rewrite Hcount, is_one_bit_of, Hb, eqb_reflx by done. by apply Hc.
Qed.

Lemma poll_binary_inner hist V pend bound lo prefs snow sr c0 c1 :
  0 ≤ lo → binary_live pend bound snow →
  node_inv hist (pend || at0 sr) (side_confidence snow false) (lo + 1) c0 →
  poll_ok hist V (pend || at0 sr) (side_confidence snow false) (lo + 1) c0 →
  node_inv hist (pend || at1 sr) (side_confidence snow true) (lo + 1) c1 →
  poll_ok hist V (pend || at1 sr) (side_confidence snow true) (lo + 1) c1 →
  (∀ x, x ∈ choices c0 → bit_of x lo = false) → (∀ x, x ∈ choices c1 → bit_of x lo = true) →
  at0 prefs = Preference c0 → at1 prefs = Preference c1 →
  poll_ok hist V pend bound lo (binaryNode prefs lo snow sr (mkArr2 (Some c0) (Some c1))).
Proof.
  intros Hlo Hl Hc0 IH0 Hc1 IH1 Hb0 Hb1 Hp0 Hp1 v bound' m Hv Hb' Hbb Hm. cbn [node_RecordPoll].
  pose proof params_facts as (?&?&?).
  destruct (Split (λ id, is_one id lo) v) as [v0 v1] eqn:Hsplit.
  destruct (split_votes _ _ _ _ _ _ Hv Hsplit) as (Hok & Hle & Hcount & Hother & Hnone).
  cbn [at0 at1]. set (bit := AlphaPreference p <=? Len v1) in *.
  set (pruned := if bit then v1 else v0) in *.
  set (n := binaryNode prefs lo snow sr (mkArr2 (Some c0) (Some c1))) in *.
  assert (∀ x, x ∈ choices n ↔ x ∈ choices c0 ∨ x ∈ choices c1) as Hch
    by (intros x; simpl; apply elem_of_app).
  destruct (Z.ltb_spec (Len pruned) (AlphaPreference p)) as [Hlt|Hge].
  { destruct (unsuccessful_binary _ _ _ 0 Hl ltac:(lia)) as [Hl' Hc'].
    eapply (poll_spec_stay _ _ 0); [|lia| |done].
    - assert (∀ i (b : arr2 bool), get2 (set2 (set2 b (negb bit) true) bit true) i = true) as Hsr
        by (intros [] []; by destruct bit).
      constructor; try done; rewrite Hc';
        [pose proof (Hsr false) as Hs|pose proof (Hsr true) as Hs]; simpl in Hs; rewrite Hs; simpl;
        (eapply node_inv_pend; [done| |eassumption]);
        intros x Hx; (eapply next_hist_low; [done|apply Hch; auto|auto]).
    - intros _. unfold next_confidence. zcases. }
  destruct (successful_binary _ _ _ (Len pruned) bit Hl Hge) as (Hok' & Hf & Hside & Hconf).
  destruct (effective_range_side _ _ _ bit Hl) as [He Heb].
  assert (effective pend (side_confidence snow bit) ≤ bound') as Heb'.
  { destruct pend; simpl in *; [lia|]. specialize (Hbb eq_refl). lia. }
  set (e := effective pend (side_confidence snow bit)) in *.
  set (s := b_RecordPoll _ (Len pruned) bit) in *.
  assert (∀ (i : bool) x, x ∈ choices (if i then c1 else c0) ↔ x ∈ choices n ∧ bit_of x lo = i) as Hcb.
  { intros i x. rewrite Hch. destruct i; (split; [intros Hx; split; auto|]);
      intros [[Hx|Hx] Hbx]; try done; [apply Hb0 in Hx|apply Hb1 in Hx]; congruence. }
  assert (node_inv (next_hist V hist) true 0 (lo + 1) (if bit then c0 else c1)) as Hoth.
  { assert (∀ x, x ∈ choices (if bit then c0 else c1) → next_hist V hist x = 0) as Hz.
    { intros x Hx. replace (if bit then c0 else c1) with (if negb bit then c1 else c0) in Hx
        by by destruct bit. apply Hcb in Hx as [Hx Hb].
      eapply next_hist_low; [done..|]. apply Hother. by rewrite is_one_bit_of. }
    destruct bit; (eapply node_inv_pend; [done|exact Hz|eassumption]). }
  assert (let '(self, ret, _) := node_RecordPoll p (if bit then c1 else c0) pruned
            (get2 (set2 (if pend then set2 sr bit true else sr) (negb bit) true) bit) in
          poll_spec (next_hist V hist) e (Len pruned) (lo + 1) (if bit then c1 else c0) self ret) as HIH.
  { replace (get2 _ bit) with (pend || get2 sr bit) by by destruct pend, bit.
    pose proof (pruned_votes_for _ _ _ _ (if bit then c1 else c0) _ _ Hv Hlo Hok Hle Hcount (Hcb bit)).
    destruct bit; [apply IH1|apply IH0]; try done; try lia; unfold e; by destruct pend. }
  replace (if bit then Some c1 else Some c0) with (Some (if bit then c1 else c0)) by by destruct bit.
  destruct (node_RecordPoll p _ pruned _) as [[self ret] ok].
  rewrite Hf. destruct (next_finalized p e (Len pruned)) eqn:Hfin.
  - eapply poll_spec_child; [| | | | |exact HIH]; [lia| | | |].
    + apply not_false_iff_true. intros Hff.
      destruct (next_mono e bound' (Len pruned) m) as [? _]; try done; [lia|lia|congruence].
    + intros x. rewrite Hcb. split; [|by intros [[? _]|[? _]]]. intros Hx.
      destruct (Bool.bool_dec (bit_of x lo) bit) as [|Hne]; [by left|right]. split; [done|].
      intros Hag. apply Hne. rewrite (Hag lo) by lia.
      destruct HIH as [_ Hr _ Hrc _]. apply root_Preference_choices, Hrc in Hr as [Hr _].
      by apply Hcb in Hr as [_ Hr].
    + intros x y [_ Hx]%Hcb [_ Hy]%Hcb i Hi. assert (i = lo) as -> by lia. congruence.
    + intros x Hx Hpos. apply Hcb. split; [done|]. destruct (Bool.bool_dec (bit_of x lo) bit) as [|Hne];
        [done|]. enough (next_hist V hist x = 0) by lia.
      eapply next_hist_low; [done..|]. apply Hother. rewrite is_one_bit_of by done.
      by destruct (bit_of x lo), bit.
  - destruct HIH as [Hkept _ _ _ _]. destruct (Hkept Hfin) as (-> & Hself & Hcs).
    eapply (poll_spec_stay _ _ (next_confidence p e (Len pruned))).
    + assert (∀ x, x ∈ choices self → bit_of x lo = bit) as Hsb
        by (intros x; rewrite Hcs; by intros [_ Hx]%Hcb).
      assert (binary_live false (next_confidence p e (Len pruned)) s)
        by (split; [done|congruence|simpl; lia]).
      pose proof (Hside true) as Hst. pose proof (Hside false) as Hsf.
      destruct bit; simpl in *; (constructor; simpl; try done; rewrite ?Hst, ?Hsf; done).
    + by apply next_confidence_range.
    + intros Hff. apply next_mono; [lia|lia|done].
    + simpl. destruct bit; simpl; by rewrite Hcs.
Qed.

Lemma node_RecordPoll_ok hist V pend bound lo n :
  node_inv hist pend bound lo n → poll_ok hist V pend bound lo n.
Proof.
  induction 1.
  - by apply poll_unary_leaf.
  - by apply poll_unary_inner.
  - by apply poll_binary_leaf.
  - by apply poll_binary_inner.
Qed.

(** Every choice of a live tree has a history shorter than [Beta]. *)
Lemma node_inv_hist hist pend bound lo n x :
  node_inv hist pend bound lo n → x ∈ choices n → 0 ≤ hist x < Beta p.
Proof.
  pose proof params_facts.
  induction 1 as [pend bound lo pref snow sr ? Hl Hh|pend bound lo cp pref snow sr c ???? IH|
    pend bound prefs snow sr Hl ? Hh|pend bound lo prefs snow sr c0 c1 ??? IH0 ? IH1]; simpl.
  - intros ->%list_elem_of_singleton. rewrite <- Hh. by eapply effective_range_unary.
  - intros Hx. by apply IH.
  - assert (∀ i, 0 ≤ hist (get2 prefs i) < Beta p) as Hr.
    { intros i. rewrite <- Hh. by eapply effective_range_side. }
    pose proof (Hr false). pose proof (Hr true). simpl in *. set_solver.
  - intros [|]%elem_of_app; auto.
Qed.

Lemma final_leaf_poll n v reset :
  final_leaf n →
  let '(_, ret, _) := node_RecordPoll p n v reset in
  final_leaf ret ∧ Preference ret = Preference n.
Proof.
  intros [pref lo snow sr Hok Hf|prefs snow sr Hok Hf].
  - cbn [node_RecordPoll]. set (s := if reset then u_RecordUnsuccessfulPoll snow else snow).
    assert (u_ok s ∧ u_Finalized s = true) as [Hok' Hf'].
    { unfold s. destruct (u_unsuccessful_law (p:=p) snow Hok) as (?&_&Hu). destruct reset; [|done].
      by rewrite Hu. }
    destruct (_ <? _); [|destruct (u_poll_final_law (p:=p) s (Len v) Hok' Hf'); by split; [constructor|]].
    destruct (u_unsuccessful_law (p:=p) s Hok') as (?&_&Hu). split; [|done].
    constructor; [done|congruence].
  - cbn [node_RecordPoll]. destruct (Split _ v) as [v0 v1]. cbn [at0 at1].
    set (bit := AlphaPreference p <=? Len v1).
    set (s := if reset then b_RecordUnsuccessfulPoll snow else snow).
    assert (b_ok s ∧ b_Finalized s = true ∧ b_Preference s = b_Preference snow) as (Hok' & Hf' & Hp').
    { unfold s. destruct (b_unsuccessful_law (p:=p) snow Hok) as (?&_&_&Hu&?). destruct reset; [|done].
      by rewrite Hu. }
    assert ((if bit then None else None) = @None node) as -> by by destruct bit.
    destruct (_ <? _).
    + destruct (b_unsuccessful_law (p:=p) s Hok') as (?&_&_&Hu&Hp). simpl.
      split; [|by rewrite Hp, Hp']. constructor; [done|congruence].
    + destruct (b_final_law (p:=p) s (Len (if bit then v1 else v0)) bit Hok' Hf') as (_&?&?&Hp&_). simpl.
      split; [by constructor|]. by rewrite Hp, Hp'.
Qed.

Lemma final_leaf_Finalized n : final_leaf n → Finalized n = true.
Proof. by destruct 1. Qed.

Lemma final_leaf_Add n x : final_leaf n → node_Add p n x = n.
Proof. intros [pref lo snow sr Hok Hf|prefs snow sr Hok Hf]; simpl; [by rewrite Hf|by destruct (is_one x 255)]. Qed.
End Invariant.
