(* ===== verification/SnowTreeSafety.v ===== *)
(** * Safety and progress of the consensus tree

    The tree of [snow/consensus/snowball/tree.go] against the history of the
    calls made on it: what it takes to finalize a choice, that finalization is
    irrevocable, and which choices the tree holds. *)
From S2P Require Import Prelude Ids Bag Snowball SnowTree.

Section TreeSafety.
Context `{F : SnowFactory} `{!MapRange ID} (p : Parameters) `{!SnowLaws F p}.
Implicit Types t : Tree.

(** The calls of the [Consensus] interface that change a tree. *)
Inductive tree_event : Type :=
| TAdd (choice : ID)
| TPoll (votes : Bag ID)
| TUnsuccessful.

Definition tree_step t (e : tree_event) : Tree :=
  match e with
  | TAdd choice => Tree_Add t choice
  | TPoll votes => (Tree_RecordPoll t votes).1
  | TUnsuccessful => Tree_RecordUnsuccessfulPoll t
  end.

(** The tree after a history, whose head is the latest call. *)
Definition tree_exec (c0 : ID) (h : list tree_event) : Tree :=
  foldr (λ e t, tree_step t e) (NewTree p c0) h.

(** [x] has been added to the tree. *)
Definition added (c0 : ID) (h : list tree_event) (x : ID) : Prop := x = c0 ∨ TAdd x ∈ h.

(** The contract of [RecordPoll]: at most [K] votes, all for choices that have
    been added. *)
Fixpoint contract (c0 : ID) (h : list tree_event) : Prop :=
  match h with
  | [] => True
  | e :: h' =>
      contract c0 h' ∧
      match e with
      | TPoll votes => bag_ok votes ∧ Len votes ≤ K p ∧ ∀ x, 0 < Count votes x → added c0 h' x
      | _ => True
      end
  end.

(** The number of most recent consecutive polls in which [x] got at least
    [AlphaConfidence] votes. *)
Fixpoint tree_run (h : list tree_event) (x : ID) : Z :=
  match h with
  | [] => 0
  | TAdd _ :: h' => tree_run h' x
  | TPoll votes :: h' => if AlphaConfidence p <=? Count votes x then tree_run h' x + 1 else 0
  | TUnsuccessful :: _ => 0
  end.

(** A tree that is not decided. *)
Record live_tree (c0 : ID) (h : list tree_event) t (lo : Z) : Prop := {
  lt_inv : node_inv p (tree_run h) (t_shouldReset t) (Beta p) lo (t_node t);
  lt_prefix : ∀ x, x ∈ choices (t_node t) → agree 0 lo x (Tree_Preference t);
  lt_added : ∀ x, added c0 h x → x ∈ choices (t_node t) ∨ ¬ agree 0 lo x (Tree_Preference t);
  lt_known : ∀ x, x ∈ choices (t_node t) → added c0 h x;
}.

(** A decided tree, and the run that decided it. *)
Record decided_tree (c0 : ID) (h : list tree_event) t : Prop := {
  dt_leaf : final_leaf p (t_node t);
  dt_run : ∃ newer older, h = newer ++ older ∧ Beta p ≤ tree_run older (Tree_Preference t);
  dt_known : added c0 h (Tree_Preference t);
}.

Definition tree_inv (c0 : ID) (h : list tree_event) t : Prop :=
  t_params t = p ∧ ((∃ lo, live_tree c0 h t lo) ∨ decided_tree c0 h t).

Lemma added_cons c0 e h x : added c0 h x → added c0 (e :: h) x.
Proof. unfold added. rewrite elem_of_cons. naive_solver. Qed.

Lemma tree_run_not_added c0 h x :
  contract c0 h → 0 < AlphaConfidence p → ¬ added c0 h x → tree_run h x = 0.
Proof.
  intros Hc Hac Hx. induction h as [|[y|V|] h IH]; simpl in *; try done.
  - apply IH; [naive_solver|]. intros Ha. apply Hx. by apply added_cons.
  - destruct Hc as (Hc & Hok & _ & Hv). pose proof (Count_nonneg V x Hok).
    destruct (Z.leb_spec (AlphaConfidence p) (Count V x)); [|done]. destruct Hx.
    apply added_cons, Hv. lia.
Qed.

Context (Hparams : Verify p = Ok tt).

Lemma decided_cons c0 e h t t' :
  decided_tree c0 h t → final_leaf p (t_node t') → Tree_Preference t' = Tree_Preference t →
  decided_tree c0 (e :: h) t'.
Proof.
  intros [_ (newer & older & -> & Hr) Hk] Hf Hp. split; rewrite ?Hp; [done| |by apply added_cons].
  by exists (e :: newer), older.
Qed.

Lemma tree_step_params t e : t_params (tree_step t e) = t_params t.
Proof.
  destruct e; simpl; [unfold Tree_Add; by destruct (EqualSubset _ _ _ _)| |done].
  unfold Tree_RecordPoll. by destruct (node_RecordPoll _ _ _ _) as [[]].
Qed.

(** No call changes a decided tree. *)
Lemma decided_step t e :
  t_params t = p → final_leaf p (t_node t) →
  final_leaf p (t_node (tree_step t e)) ∧ Tree_Preference (tree_step t e) = Tree_Preference t.
Proof.
  intros Hp Hf. destruct e as [x|V|]; simpl; [| |done].
  - assert (Tree_Add t x = t) as ->; [|done].
    unfold Tree_Add. rewrite Hp, (final_leaf_Add p) by done. destruct t; simpl in *; subst.
    by destruct (EqualSubset _ _ _ _).
  - pose proof (final_leaf_poll p (t_node t)
      (Filter (λ id, EqualSubset 0 (DecidedPrefix (t_node t)) (Tree_Preference t) id) V)
      (t_shouldReset t) Hf) as Hpoll.
    unfold Tree_RecordPoll. rewrite Hp. by destruct (node_RecordPoll _ _ _ _) as [[self ret] ok].
Qed.

Lemma live_add c0 h t lo x :
  contract c0 h → t_params t = p → live_tree c0 h t lo → live_tree c0 (TAdd x :: h) (Tree_Add t x) lo.
Proof.
  intros Hc Hp [Hi Hpre Hadd Hk]. pose proof (params_facts p Hparams) as (?&?&?).
  pose proof (node_inv_range _ _ _ _ _ _ Hi) as Hlo.
  unfold Tree_Add. rewrite (node_inv_prefix _ _ _ _ _ _ Hi).
  destruct (EqualSubset 0 lo (Tree_Preference t) x) eqn:E.
  - apply EqualSubset_true in E; [|lia..]. rewrite Hp.
    destruct (node_Add_inv p (tree_run h) (t_shouldReset t) (Beta p) lo (t_node t) x) as (Ha1 & Ha2 & Ha3).
    + done.
    + intros y Hy. eapply agree_trans; [by apply Hpre|done].
    + intros Hnot. apply (tree_run_not_added c0); [done|lia|]. intros [Hx|Hx]%Hadd; [done|].
      by apply Hx, agree_sym.
    + split; unfold Tree_Preference in *; simpl; rewrite ?Ha3; [done| | |].
      * intros y [->|Hy]%Ha2; [by apply agree_sym|by apply Hpre].
      * intros y Hy. rewrite Ha2. unfold added in *. rewrite elem_of_cons in Hy. naive_solver.
      * intros y [->|Hy]%Ha2; [right; by left|by apply added_cons, Hk].
  - assert (¬ agree 0 lo x (Tree_Preference t)) as Hna.
    { intros Hag%agree_sym%EqualSubset_true; [congruence|lia..]. }
    split; [done..| |].
    + intros y [->|Hy]; [naive_solver (by left)|]. apply elem_of_cons in Hy as [[= ->]|Hy]; [by right|].
      apply Hadd. by right.
    + intros y Hy. by apply added_cons, Hk.
Qed.

Lemma filtered_votes c0 h t lo V :
  live_tree c0 h t lo → bag_ok V → Len V ≤ K p → (∀ x, 0 < Count V x → added c0 h x) →
  votes_for p V (Filter (λ id, EqualSubset 0 lo (Tree_Preference t) id) V) (t_node t).
Proof.
  intros [Hi Hpre Hadd _] Hok HK Hv. pose proof (node_inv_range _ _ _ _ _ _ Hi).
  split; [by apply Filter_ok| | |etrans; [by apply Len_Filter_le|done]]; intros x.
  - rewrite Count_Filter by done. destruct (EqualSubset 0 lo (Tree_Preference t) x) eqn:E; [|lia].
    apply EqualSubset_true, agree_sym in E; [|lia..]. intros [?|?]%Hv%Hadd; done.
  - intros Hx%Hpre%agree_sym. rewrite Count_Filter by done.
    by rewrite (proj2 (EqualSubset_true 0 lo (Tree_Preference t) x ltac:(lia) ltac:(lia)) Hx).
Qed.

(** What a poll does to a live tree. *)
Lemma live_poll c0 h t lo V :
  contract c0 (TPoll V :: h) → t_params t = p → live_tree c0 h t lo →
  let t' := (Tree_RecordPoll t V).1 in
  ((∃ lo', live_tree c0 (TPoll V :: h) t' lo') ∨
   (decided_tree c0 (TPoll V :: h) t' ∧ Beta p ≤ tree_run (TPoll V :: h) (Tree_Preference t'))) ∧
  (∀ x, x ∈ choices (t_node t) → 0 < tree_run (TPoll V :: h) x → x ∈ choices (t_node t')).
Proof.
  intros (Hc & Hok & HK & Hv) Hp Hlive. pose proof (filtered_votes _ _ _ _ _ Hlive Hok HK Hv) as Hvf.
  destruct Hlive as [Hi Hpre Hadd Hk]. pose proof (params_facts p Hparams) as (?&?&?).
  pose proof (node_inv_range _ _ _ _ _ _ Hi). pose proof (Preference_choices _ _ _ _ _ _ Hi) as Hpc.
  unfold Tree_RecordPoll. rewrite (node_inv_prefix _ _ _ _ _ _ Hi), Hp.
  pose proof (node_RecordPoll_ok p Hparams _ V _ _ _ _ Hi _ (Beta p) _ Hvf ltac:(lia)
    ltac:(done) ltac:(done)) as Hspec.
  destruct (node_RecordPoll p (t_node t) _ _) as [[self ret] ok].
  destruct Hspec as [_ Hroot Hle Hch Hmaj]. simpl. split; [|exact Hmaj].
  assert (next_hist p V (tree_run h) = tree_run (TPoll V :: h)) as Heq by done.
  assert (Preference ret ∈ choices (t_node t)) as Hpr.
  { apply root_Preference_choices, Hch in Hroot. by destruct Hroot. }
  destruct Hroot as [[lo' Hn]|[Hfin Hrun]].
  - left. exists lo'. rewrite (node_inv_prefix _ _ _ _ _ _ Hn) in Hle, Hch.
    split; unfold Tree_Preference in *; simpl; [done| | |].
    + intros x [Hx Hag]%Hch. apply (agree_split 0 lo lo'); [lia|]. split; [|done].
      eapply agree_trans; [by apply Hpre|]. by apply agree_sym, Hpre.
    + intros x Hx. assert (added c0 h x) as [Hin|Hna]%Hadd
        by (destruct Hx as [->|[?|?]%elem_of_cons]; [by left|done|by right]).
      * rewrite Hch. destruct (decide (x ∈ choices ret)) as [?|Hnin]; [left; by apply Hch|].
        right. intros Hag. apply Hnin, Hch. split; [done|]. eapply agree_sub; [| |done]; lia.
      * right. intros Hag. apply Hna. eapply agree_trans; [eapply agree_sub; [| |done]; lia|].
        by apply Hpre.
    + intros x [Hx _]%Hch. by apply added_cons, Hk.
  - right. rewrite Heq in Hrun. split; [|done]. split; [done| |by apply added_cons, Hk].
    by exists [], (TPoll V :: h).
Qed.

Lemma tree_step_inv c0 h t e :
  contract c0 (e :: h) → tree_inv c0 h t → tree_inv c0 (e :: h) (tree_step t e).
Proof.
  intros Hc [Hp Ht]. pose proof (params_facts p Hparams) as (?&?&?).
  split; [by rewrite tree_step_params|].
  destruct Ht as [[lo Hl]|Hd].
  - destruct e as [x|V|]; simpl.
    + left. exists lo. apply live_add; [|done..]. by destruct Hc.
    + destruct (live_poll _ _ _ _ _ Hc Hp Hl) as [[Hlv|[Hdec _]] _]; auto.
    + left. exists lo. destruct Hl as [Hi Hpre Hadd Hk]. split; [|done| |].
      * simpl. eapply node_inv_pend; [lia| |exact Hi]. done.
      * intros x Hx. apply Hadd. destruct Hx as [->|[?|?]%elem_of_cons]; [by left|done|by right].
      * intros x Hx. by apply added_cons, Hk.
  - right. destruct (decided_step t e Hp (dt_leaf _ _ _ Hd)). by eapply decided_cons.
Qed.

Lemma tree_exec_inv c0 h : contract c0 h → tree_inv c0 h (tree_exec c0 h).
Proof.
  induction h as [|e h IH]; intros Hc.
  - split; [done|]. left. exists 0. pose proof (params_facts p Hparams). split; simpl.
    + apply fresh_leaf_inv; [done|lia|done].
    + intros x Hx i Hi. lia.
    + intros x [->|Hx]; [left; set_solver|by apply not_elem_of_nil in Hx].
    + intros x ->%list_elem_of_singleton. by left.
  - apply tree_step_inv; [done|]. apply IH. by destruct Hc.
Qed.

(** Adding a choice does not change the preference. *)
Lemma tree_Add_preference c0 h x :
  contract c0 h → Tree_Preference (Tree_Add (tree_exec c0 h) x) = Tree_Preference (tree_exec c0 h).
Proof.
  intros Hc. destruct (tree_exec_inv c0 h Hc) as [Hp [[lo [Hi Hpre Hadd Hk]]|Hd]]; set (t := tree_exec c0 h) in *.
  - pose proof (params_facts p Hparams) as (?&?&?). pose proof (node_inv_range _ _ _ _ _ _ Hi) as Hlo.
    unfold Tree_Add. rewrite (node_inv_prefix _ _ _ _ _ _ Hi), Hp.
    destruct (EqualSubset 0 lo (Tree_Preference t) x) eqn:E; [|done]. apply EqualSubset_true in E; [|lia..].
    apply (node_Add_inv p (tree_run h) (t_shouldReset t) (Beta p) lo (t_node t) x Hi).
    + intros y Hy. eapply agree_trans; [by apply Hpre|done].
    + intros Hnot. apply (tree_run_not_added c0); [done|lia|]. intros [Hx|Hx]%Hadd; [done|]. by apply Hx, agree_sym.
  - by apply (decided_step t (TAdd x) Hp (dt_leaf _ _ _ Hd)).
Qed.

Lemma live_not_finalized c0 h t lo : live_tree c0 h t lo → Tree_Finalized t = false.
Proof. intros [Hi _ _ _]. by eapply node_inv_live. Qed.

(** A call that finalizes a tree is the poll that completes a run. *)
Lemma finalized_cause c0 e h :
  contract c0 (e :: h) → Tree_Finalized (tree_exec c0 (e :: h)) = true →
  (Tree_Finalized (tree_exec c0 h) = true ∧ Tree_Preference (tree_exec c0 (e :: h)) = Tree_Preference (tree_exec c0 h)) ∨
  ∃ V, e = TPoll V ∧ Beta p ≤ tree_run (e :: h) (Tree_Preference (tree_exec c0 (e :: h))).
Proof.
  intros Hc Hf. assert (contract c0 h) as Hc' by apply Hc. destruct (tree_exec_inv c0 h Hc') as [Hp [[lo Hl]|Hd]].
  - destruct e as [x|V|]; simpl tree_exec in *.
    + pose proof (live_add _ _ _ _ x Hc' Hp Hl) as Hl'. by rewrite (live_not_finalized _ _ _ _ Hl') in Hf.
    + destruct (live_poll _ _ _ _ _ Hc Hp Hl) as [[[lo' Hl']|[_ Hr]] _]; [|by eauto].
      by rewrite (live_not_finalized _ _ _ _ Hl') in Hf.
    + pose proof (live_not_finalized _ _ _ _ Hl). unfold Tree_Finalized in *. simpl in Hf. congruence.
  - left. split; [by apply (final_leaf_Finalized p), Hd|]. by apply (decided_step _ e Hp (dt_leaf _ _ _ Hd)).
Qed.

Lemma tree_cases c0 h :
  contract c0 h → let t := tree_exec c0 h in
  if Tree_Finalized t then decided_tree c0 h t else ∃ lo, live_tree c0 h t lo.
Proof.
  intros Hc t. destruct (tree_exec_inv c0 h Hc) as [_ [[lo Hl]|Hd]]; fold t in Hl || fold t in Hd.
  - rewrite (live_not_finalized _ _ _ _ Hl). eauto.
  - pose proof (final_leaf_Finalized p _ (dt_leaf _ _ _ Hd)) as Hf. unfold Tree_Finalized. by rewrite Hf.
Qed.

Lemma tree_run_poll V h x b : Z.lt 0 b → b ≤ tree_run (TPoll V :: h) x → AlphaConfidence p ≤ Count V x.
Proof. intros Hb. simpl. zcases. Qed.

(** Every node of a subtree below its root. *)
Fixpoint descendants (n : node) : list node :=
  match n with
  | unaryNode _ _ _ _ _ None => []
  | unaryNode _ _ _ _ _ (Some c) => c :: descendants c
  | binaryNode _ _ _ _ (mkArr2 c0 c1) =>
      (match c0 with Some c => c :: descendants c | None => [] end) ++
      (match c1 with Some c => c :: descendants c | None => [] end)
  end.

Lemma node_inv_descendants hist pend bound lo n m :
  node_inv p hist pend bound lo n → m ∈ descendants n → Finalized m = false.
Proof.
  induction 1 as [|pend bound lo cp pref snow sr c ??? Hc IH|
    |pend bound lo prefs snow sr c0 c1 ?? Hc0 IH0 Hc1 IH1]; simpl.
  - by intros ?%not_elem_of_nil.
  - intros [->|Hm]%elem_of_cons; [by eapply node_inv_live|auto].
  - by intros ?%not_elem_of_nil.
  - intros [->|[Hm|[->|Hm]%elem_of_cons]%elem_of_app]%elem_of_cons; auto; by eapply node_inv_live.
Qed.

(** ** Theorems *)

(** C1: the tree is safe: when it is finalized, its preference was added, and at
    some point of the history it had received at least [AlphaConfidence] votes in
    [Beta] consecutive polls. *)
Theorem tree_finalization_safe c0 h :
  contract c0 h → Tree_Finalized (tree_exec c0 h) = true →
  added c0 h (Tree_Preference (tree_exec c0 h)) ∧
  ∃ newer older, h = newer ++ older ∧ Beta p ≤ tree_run older (Tree_Preference (tree_exec c0 h)).
Proof.
  intros Hc Hf. pose proof (tree_cases c0 h Hc) as Ht. simpl in Ht. rewrite Hf in Ht.
  by destruct Ht.
Qed.

(** C2: the tree makes progress: while it is not finalized, a choice it holds
    that completes [Beta] consecutive polls of [AlphaConfidence] votes is
    finalized by that poll, lazy resets and shared prefixes notwithstanding. *)
Theorem tree_finalizes c0 h V x :
  contract c0 (TPoll V :: h) → Tree_Finalized (tree_exec c0 h) = false →
  x ∈ choices (t_node (tree_exec c0 h)) → Beta p ≤ tree_run (TPoll V :: h) x →
  let t := tree_exec c0 (TPoll V :: h) in Tree_Finalized t = true ∧ Tree_Preference t = x.
Proof.
  intros Hc Hf Hx Hrun t. pose proof (params_facts p Hparams) as (?&?&?).
  pose proof Hc as (Hc' & Hok & HK & _).
  pose proof (tree_cases c0 h Hc') as Ht. simpl in Ht. rewrite Hf in Ht. destruct Ht as [lo Hl].
  destruct (tree_exec_inv c0 h Hc') as [Hp _].
  destruct (live_poll _ _ _ _ _ Hc Hp Hl) as [[[lo' Hl']|[Hd Hr]] Hmaj].
  - assert (x ∈ choices (t_node t)) as Hx' by (apply Hmaj; [done|lia]).
    pose proof (node_inv_hist p Hparams _ _ _ _ _ _ (lt_inv _ _ _ _ Hl') Hx'). lia.
  - pose proof (final_leaf_Finalized p _ (dt_leaf _ _ _ Hd)). split; [done|].
    apply (quorum_intersection p V); [done..| |].
    + apply tree_run_poll in Hr; [|lia]. unfold t; simpl. lia.
    + apply tree_run_poll in Hrun; lia.
Qed.

(** Finalization is irrevocable: no later call changes the preference of a
    finalized tree or makes it undecided. *)
Theorem tree_irrevocable c0 h later :
  contract c0 (later ++ h) → Tree_Finalized (tree_exec c0 h) = true →
  Tree_Finalized (tree_exec c0 (later ++ h)) = true ∧
  Tree_Preference (tree_exec c0 (later ++ h)) = Tree_Preference (tree_exec c0 h).
Proof.
  intros Hc Hf.
  assert (contract c0 h) as Hch by (clear Hf; induction later; simpl in *; naive_solver).
  pose proof (tree_cases c0 h Hch) as Ht. simpl in Ht. rewrite Hf in Ht.
  destruct (tree_exec_inv c0 h Hch) as [Hp _]. apply dt_leaf in Ht. clear Hf Hc Hch.
  enough (t_params (tree_exec c0 (later ++ h)) = p ∧
          final_leaf p (t_node (tree_exec c0 (later ++ h))) ∧
          Tree_Preference (tree_exec c0 (later ++ h)) = Tree_Preference (tree_exec c0 h))
    as (_ & Hl & ?) by (split; [by apply (final_leaf_Finalized p)|done]).
  induction later as [|e later (IH1 & IH2 & IH3)]; simpl; [done|].
  destruct (decided_step _ e IH1 IH2) as [H1 H2].
  split_and!; [by rewrite tree_step_params|done|by rewrite H2].
Qed.

(** Only the root of a tree is ever finalized: no instance below it decides
    before its parent, which is why a parent may drop the node its child's
    [RecordPoll] returns. *)
Theorem tree_only_root_finalized c0 h n :
  contract c0 h → n ∈ descendants (t_node (tree_exec c0 h)) → Finalized n = false.
Proof.
  intros Hc Hn. pose proof (tree_cases c0 h Hc) as Ht. simpl in Ht.
  destruct (Tree_Finalized (tree_exec c0 h)).
  - destruct Ht as [Hl _ _]. destruct Hl; simpl in Hn; by apply not_elem_of_nil in Hn.
  - destruct Ht as [lo Hl]. by eapply node_inv_descendants; [apply (lt_inv _ _ _ _ Hl)|].
Qed.

(** The tree is a trie of the live choices: adding a choice to a tree that is
    not finalized puts exactly that choice in it, unless it conflicts with a bit
    already decided, in which case nothing changes; the preference stays. *)
Theorem tree_Add_choices c0 h x :
  contract c0 h → Tree_Finalized (tree_exec c0 h) = false →
  let t := tree_exec c0 h in
  (∀ y, y ∈ choices (t_node (Tree_Add t x)) ↔
        y ∈ choices (t_node t) ∨
        (y = x ∧ ∀ i, 0 ≤ i < DecidedPrefix (t_node t) → Bit x i = Bit (Tree_Preference t) i)) ∧
  Tree_Preference (Tree_Add t x) = Tree_Preference t.
Proof.
  intros Hc Hf t. pose proof (tree_cases c0 h Hc) as Ht. simpl in Ht. fold t in Ht, Hf.
  rewrite Hf in Ht. destruct Ht as [lo [Hi Hpre Hadd Hk]].
  destruct (tree_exec_inv c0 h Hc) as [Hp _]. fold t in Hp.
  pose proof (params_facts p Hparams) as (?&?&?). pose proof (node_inv_range _ _ _ _ _ _ Hi).
  unfold Tree_Add. rewrite (node_inv_prefix _ _ _ _ _ _ Hi), Hp.
  setoid_rewrite <- (agree_Bit 0 lo x (Tree_Preference t) ltac:(lia)).
  destruct (EqualSubset 0 lo (Tree_Preference t) x) eqn:E.
  - apply EqualSubset_true in E; [|lia..].
    destruct (node_Add_inv p (tree_run h) (t_shouldReset t) (Beta p) lo (t_node t) x Hi)
      as (_ & Ha2 & Ha3).
    + intros y Hy. eapply agree_trans; [by apply Hpre|done].
    + intros Hnot. apply (tree_run_not_added c0); [done|lia|]. intros [Hx|Hx]%Hadd; [done|].
      by apply Hx, agree_sym.
    + split; [|done]. intros y. simpl. rewrite Ha2. apply agree_sym in E. naive_solver.
  - split; [|done]. intros y. split; [naive_solver|]. intros [?|[-> Hag]]; [done|].
    apply agree_sym, EqualSubset_true in Hag; [congruence|lia..].
Qed.
End TreeSafety.

(** ** Witnesses: a tree of snowflakes with [K = AlphaPreference = 1], [Beta = 2] *)
Definition small_params : Parameters := mkParameters 1 None 1 1 2 1 1 1 1.

Definition small_laws : SnowLaws snowflakeFactory small_params :=
  snowflake_laws small_params ltac:(reflexivity).

Definition one_vote (x : ID) : Bag ID := AddCount empty_bag x 1.

Lemma one_vote_contract x y :
  bag_ok (one_vote x) ∧ Len (one_vote x) ≤ K small_params ∧ (0 < Count (one_vote x) y → y = x).
Proof.
  split_and!; [apply AddCount_ok, empty_bag_ok|done|].
  unfold one_vote. rewrite Count_AddCount. case_decide; [done|]. simpl. intros Hlt. discriminate Hlt.
Qed.

Lemma two_polls_contract : contract small_params Empty [TPoll (one_vote Empty); TPoll (one_vote Empty)].
Proof.
  simpl. split_and!; try done; try apply (one_vote_contract Empty Empty);
    intros x Hx; left; by apply (one_vote_contract Empty x).
Qed.

Lemma tree_finalization_safe_witness :
  let h := [TPoll (one_vote Empty); TPoll (one_vote Empty)] in
  ∃ newer older, h = newer ++ older ∧ 2 ≤ tree_run small_params older Empty.
Proof.
  intros h.
  apply (@tree_finalization_safe snowflakeFactory (canonical_range ID) small_params small_laws
           eq_refl Empty h two_polls_contract). vm_compute. reflexivity.
Defined.

Lemma tree_finalizes_witness :
  let h := [TPoll (one_vote Empty)] in
  Tree_Finalized (@tree_exec snowflakeFactory (canonical_range ID) small_params Empty
                    (TPoll (one_vote Empty) :: h)) = true.
Proof.
  intros h.
  apply (@tree_finalizes snowflakeFactory (canonical_range ID) small_params small_laws
           eq_refl Empty h (one_vote Empty) Empty two_polls_contract);
    [vm_compute; reflexivity| |vm_compute; discriminate].
  replace (choices _) with [Empty] by (vm_compute; reflexivity). by left.
Defined.

Lemma tree_irrevocable_witness :
  let h := [TPoll (one_vote Empty); TPoll (one_vote Empty)] in
  Tree_Finalized (@tree_exec snowflakeFactory (canonical_range ID) small_params Empty
                    ([TUnsuccessful] ++ h)) = true.
Proof.
  intros h.
  apply (@tree_irrevocable snowflakeFactory (canonical_range ID) small_params small_laws
           eq_refl Empty h [TUnsuccessful]).
  - simpl. split; [apply two_polls_contract|done].
  - vm_compute. reflexivity.
Defined.

(** A choice that differs from [Empty] on its first bit. *)
Definition id_one : ID := mkID (1 :: replicate 31 0) eq_refl.

Lemma add_one_contract : contract small_params Empty [TAdd id_one].
Proof. done. Qed.

Lemma tree_only_root_finalized_witness :
  ∃ n, n ∈ descendants (t_node (@tree_exec snowflakeFactory (canonical_range ID) small_params Empty
                                  [TAdd id_one])) ∧ Finalized n = false.
Proof.
  eexists. split.
  2: { eapply (@tree_only_root_finalized snowflakeFactory (canonical_range ID) small_params
                 small_laws eq_refl Empty [TAdd id_one] _ add_one_contract).
       vm_compute. left. }
  vm_compute. left.
Defined.

Lemma tree_Add_choices_witness :
  id_one ∈ choices (t_node (Tree_Add (@tree_exec snowflakeFactory (canonical_range ID)
                                        small_params Empty []) id_one)).
Proof.
  apply (@tree_Add_choices snowflakeFactory (canonical_range ID) small_params small_laws
           eq_refl Empty [] id_one I eq_refl). right. split; [reflexivity|].
  intros i Hi. vm_compute in Hi. destruct i; destruct Hi as [H1 H2]; try discriminate.
  all: exfalso; (apply H1; reflexivity) || discriminate.
Defined.
