(* ===== verification/Snowman.v ===== *)
(** * Chain consensus (package [snow/consensus/snowman])

    [topological.go] and [snowman_block.go]: the tree of processing blocks, each
    with a consensus tree over its children.  A poll pushes its votes towards the
    last accepted block by a topological sort, records them on the branch that
    got enough of them, accepts and rejects what that decides, and recomputes the
    preferred branch.

    [*snowmanBlock] pointers are owned by the [blocks] map; a local variable that
    outlives its entry (the parent of an accepted block) is only read.  Calls to
    the virtual machine and to the block acceptor are recorded in a log, and may
    fail as [calls] decides.  Logging and metrics are left out. *)
From S2P Require Import Prelude Ids Bag Snowball SnowTree.

(** ** Data *)

(** What consensus reads of the [Block] interface. *)
Record Block : Type := mkBlock {
  blk_ID : ID;
  blk_Parent : ID;
  blk_Height : Z;
}.

(** The calls that announce a decision. *)
Inductive decision : Type :=
| BlockAcceptor_Accept (id : ID)
| Block_Accept (id : ID)
| Block_Reject (id : ID).

(** Ways in which a method does not return normally: its errors, an error of a
    call to the environment, a nil dereference, and the end of the fuel. *)
Inductive stop (Error : Type) : Type :=
| errDuplicateAdd
| errUnknownParentBlock
| errParameters (e : params_error)
| errCall (e : Error)
| nil_dereference
| out_of_fuel.
Arguments errDuplicateAdd {Error}.
Arguments errUnknownParentBlock {Error}.
Arguments errParameters {Error} e.
Arguments errCall {Error} e.
Arguments nil_dereference {Error}.
Arguments out_of_fuel {Error}.

Record kahnNode : Type := mkKahn {
  kn_inDegree : Z;
  kn_votes : Bag ID;
}.

(** The zero value of the struct. *)
Definition kahn_zero : kahnNode := mkKahn 0 empty_bag.

Record votes : Type := mkVotes {
  vt_parentID : ID;
  vt_votes : Bag ID;
}.

Section Snowman.
Context `{F : SnowFactory} `{!MapRange ID}.
Context {Error : Type} (calls : list decision → decision → option Error).

Record snowmanBlock : Type := mkSnowmanBlock {
  sm_blk : option Block;
  sm_shouldFalter : bool;
  sm_sb : option Tree;
  sm_children : gmap ID Block;
}.

Record Topological : Type := mkTopological {
  ts_params : Parameters;
  ts_pollNumber : Z;
  ts_lastAcceptedID : ID;
  ts_lastAcceptedHeight : Z;
  ts_blocks : gmap ID snowmanBlock;
  ts_preferredIDs : gset ID;
  ts_preferredHeights : gmap Z ID;
  ts_preference : ID;
  ts_leaves : gset ID;
  ts_kahnNodes : gmap ID kahnNode;
  ts_calls : list decision;
}.

Definition set_blocks ts blocks :=
  mkTopological (ts_params ts) (ts_pollNumber ts) (ts_lastAcceptedID ts) (ts_lastAcceptedHeight ts)
    blocks (ts_preferredIDs ts) (ts_preferredHeights ts) (ts_preference ts) (ts_leaves ts)
    (ts_kahnNodes ts) (ts_calls ts).
Definition set_lastAccepted ts id height :=
  mkTopological (ts_params ts) (ts_pollNumber ts) id height (ts_blocks ts) (ts_preferredIDs ts)
    (ts_preferredHeights ts) (ts_preference ts) (ts_leaves ts) (ts_kahnNodes ts) (ts_calls ts).
Definition set_preferred ts ids heights preference :=
  mkTopological (ts_params ts) (ts_pollNumber ts) (ts_lastAcceptedID ts) (ts_lastAcceptedHeight ts)
    (ts_blocks ts) ids heights preference (ts_leaves ts) (ts_kahnNodes ts) (ts_calls ts).
Definition set_kahn ts kahnNodes leaves :=
  mkTopological (ts_params ts) (ts_pollNumber ts) (ts_lastAcceptedID ts) (ts_lastAcceptedHeight ts)
    (ts_blocks ts) (ts_preferredIDs ts) (ts_preferredHeights ts) (ts_preference ts) leaves
    kahnNodes (ts_calls ts).
Definition set_calls ts log :=
  mkTopological (ts_params ts) (ts_pollNumber ts) (ts_lastAcceptedID ts) (ts_lastAcceptedHeight ts)
    (ts_blocks ts) (ts_preferredIDs ts) (ts_preferredHeights ts) (ts_preference ts) (ts_leaves ts)
    (ts_kahnNodes ts) log.
Definition set_pollNumber ts n :=
  mkTopological (ts_params ts) n (ts_lastAcceptedID ts) (ts_lastAcceptedHeight ts)
    (ts_blocks ts) (ts_preferredIDs ts) (ts_preferredHeights ts) (ts_preference ts) (ts_leaves ts)
    (ts_kahnNodes ts) (ts_calls ts).

(** ** The state and error monad

    A method changes the state and either returns or stops; what it changed
    before it stopped stays changed. *)
Definition M (A : Type) : Type := Topological → Topological * result A (stop Error).

#[local] Instance M_ret : MRet M := λ A a ts, (ts, Ok a).
#[local] Instance M_bind : MBind M := λ A B k m ts,
  match m ts with (ts', Ok a) => k a ts' | (ts', Err e) => (ts', Err e) end.
Definition get : M Topological := λ ts, (ts, Ok ts).
Definition modify (f : Topological → Topological) : M unit := λ ts, (f ts, Ok tt).
Definition stop_with {A} (e : stop Error) : M A := λ ts, (ts, Err e).
Definition lift {A} (r : result A (stop Error)) : M A := λ ts, (ts, r).

(** A call to the environment. *)
Definition call (d : decision) : M unit := λ ts,
  (set_calls ts (ts_calls ts ++ [d]),
   match calls (ts_calls ts) d with Some e => Err (errCall e) | None => Ok tt end).

(** [for _, x := range xs { body }] with an early return on error. *)
Fixpoint for_each {A} (xs : list A) (body : A → M unit) : M unit :=
  match xs with
  | [] => mret tt
  | x :: xs => _ ← body x; for_each xs body
  end.

(** ** Blocks *)

(** [Decided] *)
Definition Decided (ts : Topological) (n : snowmanBlock) : bool :=
  match sm_blk n with
  | None => true
  | Some blk => blk_Height blk <=? ts_lastAcceptedHeight ts
  end.

(** [AddChild] *)
Definition AddChild (params : Parameters) (n : snowmanBlock) (child : Block) : snowmanBlock :=
  let childID := blk_ID child in
  match sm_sb n with
  | None =>
      mkSnowmanBlock (sm_blk n) (sm_shouldFalter n) (Some (NewTree params childID))
        (<[childID := child]> ∅)
  | Some sb =>
      mkSnowmanBlock (sm_blk n) (sm_shouldFalter n) (Some (Tree_Add sb childID))
        (<[childID := child]> (sm_children n))
  end.

(** ** Operations *)

(** [Initialize], on a fresh [Topological]. *)
Definition Initialize (params : Parameters) (lastAcceptedID : ID) (lastAcceptedHeight : Z)
    : result Topological (stop Error) :=
  match Verify params with
  | Err e => Err (errParameters e)
  | Ok _ =>
      Ok (mkTopological params 0 lastAcceptedID lastAcceptedHeight
            {[lastAcceptedID := mkSnowmanBlock None false None ∅]} ∅ ∅ lastAcceptedID ∅ ∅ [])
  end.

Definition NumProcessing (ts : Topological) : Z := Z.of_nat (base.size (ts_blocks ts)) - 1.

Definition Processing (ts : Topological) (blkID : ID) : bool :=
  if decide (blkID = ts_lastAcceptedID ts) then false
  else bool_decide (is_Some (ts_blocks ts !! blkID)).

Definition IsPreferred (ts : Topological) (blkID : ID) : bool :=
  bool_decide (blkID = ts_lastAcceptedID ts) || bool_decide (blkID ∈ ts_preferredIDs ts).

Definition LastAccepted (ts : Topological) : ID * Z :=
  (ts_lastAcceptedID ts, ts_lastAcceptedHeight ts).

Definition PreferenceAtHeight (ts : Topological) (height : Z) : option ID :=
  if height =? ts_lastAcceptedHeight ts then Some (ts_lastAcceptedID ts)
  else ts_preferredHeights ts !! height.

Definition GetParent (ts : Topological) (id : ID) : ID * bool :=
  match ts_blocks ts !! id with
  | Some (mkSnowmanBlock (Some blk) _ _ _) => (blk_Parent blk, true)
  | _ => (Empty, false)
  end.

(** [Add] *)
Definition ts_Add (blk : Block) : M unit :=
  let blkID := blk_ID blk in
  let height := blk_Height blk in
  ts ← get;
  if Processing ts blkID then stop_with errDuplicateAdd else
  let parentID := blk_Parent blk in
  match ts_blocks ts !! parentID with
  | None => stop_with errUnknownParentBlock
  | Some parentNode =>
      _ ← modify (λ ts, set_blocks ts
             (<[blkID := mkSnowmanBlock (Some blk) false None ∅]>
                (<[parentID := AddChild (ts_params ts) parentNode blk]> (ts_blocks ts))));
      if decide (ts_preference ts = parentID)
      then modify (λ ts, set_preferred ts ({[blkID]} ∪ ts_preferredIDs ts)
                           (<[height := blkID]> (ts_preferredHeights ts)) blkID)
      else mret tt
  end.

(** The checks of [HealthCheck]; the second value is the oldest processing
    duration, which the metrics measure. *)
Inductive health_error : Type := errTooManyProcessingBlocks | errBlockProcessingTooLong.

Definition HealthCheck (ts : Topological) (maxTimeProcessing : Z) : list health_error :=
  (if MaxOutstandingItems (ts_params ts) <? NumProcessing ts
   then [errTooManyProcessingBlocks] else []) ++
  (if MaxItemProcessingTime (ts_params ts) <? maxTimeProcessing
   then [errBlockProcessingTooLong] else []).

(** ** Sorting the votes *)

(** The loop of [calculateInDegree] over the ancestors of a voted block. *)
Fixpoint mark_ancestors (ts : Topological) (fuel : nat) (parentID : ID)
    (kahnNodes : gmap ID kahnNode) (leaves : gset ID)
    : result (gmap ID kahnNode * gset ID) (stop Error) :=
  match fuel with
  | O => Err out_of_fuel
  | S fuel =>
      match ts_blocks ts !! parentID with
      | None => Err nil_dereference
      | Some n =>
          if Decided ts n then Ok (kahnNodes, leaves) else
          match sm_blk n with
          | None => Err nil_dereference
          | Some blk =>
              let parentID := blk_Parent blk in
              let previouslySeen := bool_decide (is_Some (kahnNodes !! parentID)) in
              let kahn := default kahn_zero (kahnNodes !! parentID) in
              let kahnNodes :=
                <[parentID := mkKahn (kn_inDegree kahn + 1) (kn_votes kahn)]> kahnNodes in
              if previouslySeen then Ok (kahnNodes, leaves ∖ {[parentID]})
              else mark_ancestors ts fuel parentID kahnNodes leaves
          end
      end
  end.

(** One vote of [calculateInDegree]. *)
Definition add_vote (ts : Topological) (fuel : nat) (voteBag : Bag ID)
    (acc : result (gmap ID kahnNode * gset ID) (stop Error)) (vote : ID)
    : result (gmap ID kahnNode * gset ID) (stop Error) :=
  rbind acc (λ '(kahnNodes, leaves),
    match ts_blocks ts !! vote with
    | None => Ok (kahnNodes, leaves)
    | Some votedBlock =>
        if Decided ts votedBlock then Ok (kahnNodes, leaves) else
        match sm_blk votedBlock with
        | None => Err nil_dereference
        | Some blk =>
            let parentID := blk_Parent blk in
            let numVotes := Count voteBag vote in
            let previouslySeen := bool_decide (is_Some (kahnNodes !! parentID)) in
            let kahn := default kahn_zero (kahnNodes !! parentID) in
            let kahnNodes :=
              <[parentID := mkKahn (kn_inDegree kahn) (AddCount (kn_votes kahn) vote numVotes)]>
                kahnNodes in
            if previouslySeen then Ok (kahnNodes, leaves)
            else mark_ancestors ts fuel parentID kahnNodes ({[parentID]} ∪ leaves)
        end
    end).

(** Enough for a walk along a branch, or over every block. *)
Definition block_fuel (ts : Topological) : nat := S (base.size (ts_blocks ts)).

(** [calculateInDegree] *)
Definition calculateInDegree (voteBag : Bag ID) : M unit :=
  ts ← get;
  r ← lift (foldl (add_vote ts (block_fuel ts) voteBag) (Ok (∅, ∅)) (List voteBag));
  modify (λ ts, set_kahn ts r.1 r.2).

(** [Set.Pop]: some element of the set. *)
Definition Pop (s : gset ID) : option (ID * gset ID) :=
  match map_range (gset_to_gmap tt s) with
  | [] => None
  | (e, _) :: _ => Some (e, s ∖ {[e]})
  end.

(** The loop of [pushVotes]; the stack grows at its end. *)
Fixpoint push_loop (ts : Topological) (fuel : nat) (kahnNodes : gmap ID kahnNode) (leaves : gset ID)
    (voteStack : list votes) : result (gmap ID kahnNode * list votes) (stop Error) :=
  match fuel with
  | O => Err out_of_fuel
  | S fuel =>
      match Pop leaves with
      | None => Ok (kahnNodes, voteStack)
      | Some (leafID, leaves) =>
          let kahnNode := default kahn_zero (kahnNodes !! leafID) in
          match ts_blocks ts !! leafID with
          | None => Err nil_dereference
          | Some block =>
              let voteStack :=
                if AlphaPreference (ts_params ts) <=? Len (kn_votes kahnNode)
                then voteStack ++ [mkVotes leafID (kn_votes kahnNode)] else voteStack in
              if Decided ts block then push_loop ts fuel kahnNodes leaves voteStack else
              match sm_blk block with
              | None => Err nil_dereference
              | Some blk =>
                  let parentID := blk_Parent blk in
                  let parentKahnNode := default kahn_zero (kahnNodes !! parentID) in
                  let parentKahnNode :=
                    mkKahn (kn_inDegree parentKahnNode - 1)
                      (AddCount (kn_votes parentKahnNode) leafID (Len (kn_votes kahnNode))) in
                  let kahnNodes := <[parentID := parentKahnNode]> kahnNodes in
                  let leaves :=
                    if kn_inDegree parentKahnNode =? 0 then {[parentID]} ∪ leaves else leaves in
                  push_loop ts fuel kahnNodes leaves voteStack
              end
          end
      end
  end.

(** [pushVotes] *)
Definition pushVotes : M (list votes) :=
  ts ← get;
  r ← lift (push_loop ts (S (base.size (ts_kahnNodes ts))) (ts_kahnNodes ts) (ts_leaves ts) []);
  _ ← modify (λ ts, set_kahn ts r.1 ∅);
  mret r.2.

(** ** Deciding blocks *)

(** [rejectTransitively]; the head of the list is the top of the stack. *)
Fixpoint rejectTransitively (fuel : nat) (rejected : list ID) : M unit :=
  match fuel with
  | O => stop_with out_of_fuel
  | S fuel =>
      match rejected with
      | [] => mret tt
      | rejectedID :: rejected =>
          ts ← get;
          match ts_blocks ts !! rejectedID with
          | None => stop_with nil_dereference
          | Some rejectedNode =>
              let children := map_range (sm_children rejectedNode) in
              _ ← modify (λ ts, set_blocks ts (delete rejectedID (ts_blocks ts)));
              _ ← for_each children (λ '(childID, _), call (Block_Reject childID));
              rejectTransitively fuel (reverse children.*1 ++ rejected)
          end
      end
  end.

(** [acceptPreferredChild] *)
Definition acceptPreferredChild (n : snowmanBlock) (sb : Tree) : M unit :=
  let pref := Tree_Preference sb in
  match sm_children n !! pref with
  | None => stop_with nil_dereference
  | Some child =>
      _ ← call (BlockAcceptor_Accept pref);
      let height := blk_Height child in
      _ ← call (Block_Accept pref);
      _ ← modify (λ ts, set_lastAccepted ts pref height);
      _ ← modify (λ ts, set_preferred ts (ts_preferredIDs ts ∖ {[pref]})
                          (delete height (ts_preferredHeights ts)) (ts_preference ts));
      let rejects := filter (λ '(childID, _), childID ≠ pref) (map_range (sm_children n)) in
      _ ← for_each rejects (λ '(childID, _), call (Block_Reject childID));
      ts ← get;
      rejectTransitively (block_fuel ts) (reverse rejects.*1)
  end.

Definition set_falter (n : snowmanBlock) (b : bool) : snowmanBlock :=
  mkSnowmanBlock (sm_blk n) b (sm_sb n) (sm_children n).

(** The loop of [vote] that defers the reset of the children. *)
Definition falter_children (shouldTransitivelyFalter : bool) (nextID : ID) (children : gmap ID Block)
    (blocks : gmap ID snowmanBlock) : gmap ID snowmanBlock :=
  foldl (λ blocks '(childID, _),
           if negb shouldTransitivelyFalter && bool_decide (childID = nextID) then blocks
           else alter (λ n, set_falter n true) childID blocks)
    blocks (map_range children).

(** The loop of [vote]; the head of the list is the top of the stack. *)
Fixpoint vote_loop (voteStack : list votes) (newPreferred : ID) (onPreferredBranch : bool) : M ID :=
  match voteStack with
  | [] => mret newPreferred
  | vote :: voteStack =>
      let parentID := vt_parentID vote in
      ts ← get;
      match ts_blocks ts !! parentID with
      | None => mret newPreferred
      | Some parentBlock =>
          let shouldTransitivelyFalter := sm_shouldFalter parentBlock in
          match sm_sb parentBlock with
          | None => stop_with nil_dereference
          | Some sb =>
              let sb := if shouldTransitivelyFalter then Tree_RecordUnsuccessfulPoll sb else sb in
              let '(sb, _) := Tree_RecordPoll sb (vt_votes vote) in
              let parentBlock :=
                mkSnowmanBlock (sm_blk parentBlock) false (Some sb) (sm_children parentBlock) in
              _ ← modify (λ ts, set_blocks ts (<[parentID := parentBlock]> (ts_blocks ts)));
              _ ← (if Tree_Finalized sb && bool_decide (ts_lastAcceptedID ts = parentID)
                   then _ ← acceptPreferredChild parentBlock sb;
                        modify (λ ts, set_blocks ts (delete parentID (ts_blocks ts)))
                   else mret tt);
              let parentPreference := Tree_Preference sb in
              let newPreferred := if onPreferredBranch then parentPreference else newPreferred in
              let nextID := match voteStack with v :: _ => vt_parentID v | [] => Empty end in
              let onPreferredBranch := onPreferredBranch && bool_decide (nextID = parentPreference) in
              _ ← modify (λ ts, set_blocks ts
                    (falter_children shouldTransitivelyFalter nextID (sm_children parentBlock)
                       (ts_blocks ts)));
              vote_loop voteStack newPreferred onPreferredBranch
          end
      end
  end.

(** [vote]; the stack is read from its end. *)
Definition vote (voteStack : list votes) : M ID :=
  ts ← get;
  match voteStack with
  | [] =>
      match ts_blocks ts !! ts_lastAcceptedID ts with
      | None => stop_with nil_dereference
      | Some lastAcceptedBlock =>
          _ ← modify (λ ts, set_blocks ts
                 (<[ts_lastAcceptedID ts := set_falter lastAcceptedBlock true]> (ts_blocks ts)));
          mret (ts_preference ts)
      end
  | _ => vote_loop (reverse voteStack) (ts_lastAcceptedID ts) true
  end.

(** ** The preferred branch *)

(** The loop of [RecordPoll] up to the last accepted block. *)
Fixpoint prefer_up (ts : Topological) (fuel : nat) (blkID : ID) (ids : gset ID) (heights : gmap Z ID)
    : result (gset ID * gmap Z ID) (stop Error) :=
  match fuel with
  | O => Err out_of_fuel
  | S fuel =>
      match ts_blocks ts !! blkID with
      | None => Err nil_dereference
      | Some block =>
          if Decided ts block then Ok (ids, heights) else
          match sm_blk block with
          | None => Err nil_dereference
          | Some blk =>
              prefer_up ts fuel (blk_Parent blk) ({[blk_ID blk]} ∪ ids)
                (<[blk_Height blk := blk_ID blk]> heights)
          end
      end
  end.

(** The loop of [RecordPoll] down the preferred children. *)
Fixpoint prefer_down (ts : Topological) (fuel : nat) (preference : ID) (block : snowmanBlock)
    (ids : gset ID) (heights : gmap Z ID) : result (gset ID * gmap Z ID * ID) (stop Error) :=
  match fuel with
  | O => Err out_of_fuel
  | S fuel =>
      match sm_sb block with
      | None => Ok (ids, heights, preference)
      | Some sb =>
          let preference := Tree_Preference sb in
          match ts_blocks ts !! preference with
          | None => Err nil_dereference
          | Some block =>
              match sm_blk block with
              | None => Err nil_dereference
              | Some blk =>
                  prefer_down ts fuel preference block ({[preference]} ∪ ids)
                    (<[blk_Height blk := preference]> heights)
              end
          end
      end
  end.

(** The end of [RecordPoll]: the branch through the block [vote] returned. *)
Definition update_preference (preferred : ID) : M unit :=
  ts ← get;
  if decide (preferred ∈ ts_preferredIDs ts) then mret tt else
  match ts_blocks ts !! preferred with
  | None => stop_with nil_dereference
  | Some startBlock =>
      up ← lift (prefer_up ts (block_fuel ts) preferred ∅ ∅);
      down ← lift (prefer_down ts (block_fuel ts) preferred startBlock up.1 up.2);
      modify (λ ts, set_preferred ts down.1.1 down.1.2 down.2)
  end.

(** The start of [RecordPoll]: the stack of votes to apply, empty when the poll
    has too few votes for any block to reach the threshold. *)
Definition poll_votes (voteBag : Bag ID) : M (list votes) :=
  ts ← get;
  if AlphaPreference (ts_params ts) <=? Len voteBag
  then _ ← calculateInDegree voteBag; pushVotes
  else mret [].

(** [RecordPoll] *)
Definition RecordPoll (voteBag : Bag ID) : M unit :=
  _ ← modify (λ ts, set_pollNumber ts (wrap64 (ts_pollNumber ts + 1)));
  voteStack ← poll_votes voteBag;
  preferred ← vote voteStack;
  update_preference preferred.
End Snowman.

(** Runs the monad of the methods. *)
Ltac mrun :=
  unfold mbind, M_bind, mret, M_ret, get, modify, lift, stop_with, call in *; cbv beta iota in *.
