(* ===== verification/SnowmanVotes.v ===== *)
(** * Vote propagation in chain consensus

    [calculateInDegree] and [pushVotes] of [snow/consensus/snowman/topological.go]
    against the transitive votes of [Forest]: whatever the iteration order of the
    maps, the stack they build is the branch of blocks that got enough votes on
    their children, each with the exact transitive votes of its children. *)
From S2P Require Import Prelude Ids Bag Snowball SnowTree Forest Snowman.

Section Votes.
Context `{F : SnowFactory} `{!MapRange ID} {Error : Type}.
Context (ts : Topological).

(** ** The tree of blocks *)

(** The height of a block of the tree. *)
Definition height_of (id : ID) : Z :=
  match ts_blocks ts !! id with
  | Some (mkSnowmanBlock (Some blk) _ _ _) =>
      if decide (id = ts_lastAcceptedID ts) then ts_lastAcceptedHeight ts else blk_Height blk
  | _ => ts_lastAcceptedHeight ts
  end.

(** The last accepted block is the only decided one, and every other block
    extends a block of the tree. *)
Record tree_ok : Prop := {
  to_root : ∃ n, ts_blocks ts !! ts_lastAcceptedID ts = Some n ∧ Decided ts n = true;
  to_block id n :
    ts_blocks ts !! id = Some n → id ≠ ts_lastAcceptedID ts →
    ∃ blk, sm_blk n = Some blk ∧ blk_ID blk = id ∧ ts_lastAcceptedHeight ts < blk_Height blk ∧
      is_Some (ts_blocks ts !! blk_Parent blk) ∧ blk_Height blk = height_of (blk_Parent blk) + 1;
}.

Context (Hok : tree_ok).

(** The parent of each block that is not decided. *)
Definition parents : gmap ID ID :=
  omap (λ n, if Decided ts n then None else blk_Parent <$> sm_blk n) (ts_blocks ts).

Definition rank (id : ID) : nat := Z.to_nat (height_of id - ts_lastAcceptedHeight ts).

Lemma decided_root id n : ts_blocks ts !! id = Some n → Decided ts n = bool_decide (id = ts_lastAcceptedID ts).
Proof.
  intros Hn. case_bool_decide as Hid.
  - subst. destruct (to_root Hok) as (n' & Hn' & ?). congruence.
  - destruct (to_block Hok id n Hn Hid) as (blk & Hb & _ & Hh & _). unfold Decided. rewrite Hb. zcases.
Qed.

Lemma parents_Some c p :
  parents !! c = Some p ↔
  ∃ n blk, ts_blocks ts !! c = Some n ∧ c ≠ ts_lastAcceptedID ts ∧ sm_blk n = Some blk ∧ blk_Parent blk = p.
Proof.
  unfold parents. rewrite lookup_omap_Some. split.
  - intros (n & Hp & Hn). rewrite (decided_root _ _ Hn) in Hp. case_bool_decide; [done|].
    destruct (sm_blk n) as [blk|] eqn:Hb; [|done]. simpl in Hp. exists n, blk. naive_solver.
  - intros (n & blk & Hn & Hid & Hb & Hp). exists n. rewrite (decided_root _ _ Hn), bool_decide_false by done.
    rewrite Hb. simpl. by rewrite Hp.
Qed.

Lemma parents_blocks c p : parents !! c = Some p → is_Some (ts_blocks ts !! c) ∧ is_Some (ts_blocks ts !! p).
Proof.
  intros (n & blk & Hn & Hid & Hb & <-)%parents_Some. split; [by eexists|].
  destruct (to_block Hok c n Hn Hid) as (blk' & Hb' & _ & _ & Hp & _). congruence.
Qed.

Lemma parents_root c : is_Some (ts_blocks ts !! c) → parents !! c = None → c = ts_lastAcceptedID ts.
Proof.
  intros [n Hn] Hp. destruct (decide (c = ts_lastAcceptedID ts)) as [|Hid]; [done|].
  destruct (to_block Hok c n Hn Hid) as (blk & Hb & _).
  assert (parents !! c = Some (blk_Parent blk)); [|congruence]. apply parents_Some. naive_solver.
Qed.

Lemma parents_LA : parents !! ts_lastAcceptedID ts = None.
Proof. apply eq_None_not_Some. intros [p (n & blk & _ & ? & _)%parents_Some]. done. Qed.

Lemma height_of_ge id : ts_lastAcceptedHeight ts ≤ height_of id.
Proof.
  unfold height_of. destruct (ts_blocks ts !! id) as [[[blk|] f sb ch]|] eqn:Hn; try lia.
  case_decide; [lia|]. destruct (to_block Hok id _ Hn) as (blk' & Hb & _ & Hh & _); [done|].
  simpl in Hb. simplify_eq. lia.
Qed.

Lemma parents_rank c p : parents !! c = Some p → (rank p < rank c)%nat.
Proof.
  intros (n & blk & Hn & Hid & Hb & <-)%parents_Some.
  destruct (to_block Hok c n Hn Hid) as (blk' & Hb' & _ & Hh & _ & Heq).
  assert (blk' = blk) as -> by congruence. pose proof (height_of_ge (blk_Parent blk)).
  assert (height_of c = blk_Height blk) as Hc.
  { unfold height_of. rewrite Hn. destruct n as [ob f sb ch]. simpl in Hb. subst. by rewrite decide_False. }
  unfold rank. rewrite Hc. lia.
Qed.

#[local] Abbreviation anc := (ancestors parents rank).

Lemma rank_fuel id : is_Some (ts_blocks ts !! id) → (length (anc id) ≤ base.size (ts_blocks ts))%nat.
Proof.
  intros Hid. assert (∀ x, x ∈ anc id → is_Some (ts_blocks ts !! x)) as Hall.
  { revert id Hid. apply (forest_ind parents rank parents_rank
      (λ id, is_Some (ts_blocks ts !! id) → ∀ x, x ∈ anc id → is_Some (ts_blocks ts !! x))).
    intros y IH Hy x. rewrite (ancestors_eq parents rank parents_rank). intros [->|Hx]%elem_of_cons; [done|].
    destruct (parents !! y) as [p|] eqn:Hp; [|by apply not_elem_of_nil in Hx].
    apply (IH p eq_refl); [by apply (parents_blocks y)|done]. }
  rewrite <- size_dom, <- (size_list_to_set (C := gset ID)) by apply (ancestors_NoDup parents rank parents_rank).
  apply subseteq_size. intros x. rewrite elem_of_list_to_set, elem_of_dom. apply Hall.
Qed.

(** ** Counting the inbound edges *)

Context (voteBag : Bag ID) (Hbag : bag_ok voteBag).
Implicit Types (kahn : gmap ID kahnNode) (leaves : gset ID).

(** The children of [x] among the sorted blocks, leaving out [cur], whose edge is
    still to be counted. *)
Definition degree kahn (cur : option ID) (x : ID) : Z :=
  sum_over (λ c, if decide (parents !! c = Some x ∧ Some c ≠ cur) then 1 else 0) (elements (dom kahn)).

(** What [calculateInDegree] maintains while it has read the votes [seen] and
    walks up from [cur]. *)
Record kahn_inv (seen : list ID) (cur : option ID) kahn leaves : Prop := {
  ki_blocks x : x ∈ dom kahn → is_Some (ts_blocks ts !! x);
  ki_closed x p : x ∈ dom kahn → Some x ≠ cur → parents !! x = Some p → p ∈ dom kahn;
  ki_degree x k : kahn !! x = Some k → kn_inDegree k = degree kahn cur x;
  ki_leaves x : x ∈ leaves ↔ ∃ k, kahn !! x = Some k ∧ kn_inDegree k = 0;
  ki_bag x k : kahn !! x = Some k → bag_ok (kn_votes k);
  ki_votes x k c : kahn !! x = Some k →
    Count (kn_votes k) c = if decide (c ∈ seen ∧ parents !! c = Some x) then Count voteBag c else 0;
  ki_seen c x : c ∈ seen → parents !! c = Some x → x ∈ dom kahn;
}.

Lemma degree_nonneg kahn cur x : 0 ≤ degree kahn cur x.
Proof. apply sum_over_nonneg. intros c _. case_decide; lia. Qed.

Lemma degree_cur kahn q x :
  q ∈ dom kahn → degree kahn None x = degree kahn (Some q) x + if decide (parents !! q = Some x) then 1 else 0.
Proof.
  intros Hq. unfold degree. transitivity
    (sum_over (λ c, (if decide (parents !! c = Some x ∧ Some c ≠ Some q) then 1 else 0) +
       (if decide (c = q) then (if decide (parents !! c = Some x) then 1 else 0) else 0)) (elements (dom kahn))).
  - apply sum_over_ext. intros c _. repeat case_decide; try lia; naive_solver.
  - rewrite sum_over_add, (sum_over_single (λ c, if decide (parents !! c = Some x) then 1 else 0)) by apply NoDup_elements.
    rewrite (decide_True (P := q ∈ _)) by (by apply elem_of_elements). lia.
Qed.

Lemma degree_insert_seen kahn cur p k x : p ∈ dom kahn → degree (<[p := k]> kahn) cur x = degree kahn cur x.
Proof.
  intros Hp. unfold degree. by replace (dom (<[p:=k]> kahn)) with (dom kahn) by (rewrite dom_insert_L; set_solver).
Qed.

Lemma degree_insert_new kahn p k x :
  p ∉ dom kahn → degree (<[p := k]> kahn) (Some p) x = degree kahn None x.
Proof.
  intros Hp. unfold degree. rewrite dom_insert_L.
  rewrite (sum_over_perm _ _ _ (elements_union_singleton _ _ Hp)), sum_over_cons.
  rewrite decide_False by tauto. rewrite Z.add_0_l. apply sum_over_ext. intros c Hc%elem_of_elements.
  assert (Some c ≠ Some p) by (intros [= ->]; done). repeat case_decide; naive_solver.
Qed.

Lemma degree_zero kahn cur x :
  (∀ c, c ∈ dom kahn → Some c ≠ cur → parents !! c ≠ Some x) → degree kahn cur x = 0.
Proof.
  intros Hx. apply sum_over_zero. intros c Hc%elem_of_elements. rewrite decide_False; [done|].
  intros [Hp Hne]. by apply (Hx c).
Qed.

(** A step up the branch: the parent was already sorted. *)
Lemma kahn_step_seen seen q p kahn leaves k :
  kahn_inv seen (Some q) kahn leaves → q ∈ dom kahn → parents !! q = Some p → kahn !! p = Some k →
  kahn_inv seen None (<[p := mkKahn (kn_inDegree k + 1) (kn_votes k)]> kahn) (leaves ∖ {[p]}).
Proof.
  intros Hi Hq Hp Hk. assert (p ∈ dom kahn) as Hpd by (by eapply elem_of_dom_2).
  assert (kn_inDegree k + 1 = degree kahn None p) as Hdeg.
  { rewrite (ki_degree _ _ _ _ Hi p k Hk), (degree_cur _ q) by done. by rewrite decide_True. }
  split.
  - intros x. rewrite dom_insert_L. intros [->%elem_of_singleton|Hx]%elem_of_union; by apply (ki_blocks _ _ _ _ Hi).
  - intros x y. rewrite dom_insert_L. intros Hx _ Hy. apply elem_of_union. right.
    assert (x ∈ dom kahn) by set_solver. destruct (decide (x = q)) as [->|]; [congruence|].
    apply (ki_closed _ _ _ _ Hi x y); [done|congruence|done].
  - intros x k'. rewrite degree_insert_seen by done. rewrite lookup_insert_Some.
    intros [[<- <-]|[Hne Hx]]; [done|]. rewrite (ki_degree _ _ _ _ Hi x k' Hx), (degree_cur _ q) by done.
    rewrite decide_False by congruence. lia.
  - intros x. rewrite elem_of_difference, elem_of_singleton, (ki_leaves _ _ _ _ Hi x). split.
    + intros [(k' & Hx & Hz) Hne]. exists k'. by rewrite lookup_insert_ne.
    + intros (k' & Hx & Hz). apply lookup_insert_Some in Hx as [[<- <-]|[Hne Hx]]; [|split; [by exists k'|done]].
      simpl in Hz. rewrite (ki_degree _ _ _ _ Hi p k Hk) in Hz. pose proof (degree_nonneg kahn (Some q) p). lia.
  - intros x k'. rewrite lookup_insert_Some. intros [[<- <-]|[_ Hx]];
      [apply (ki_bag _ _ _ _ Hi p k Hk)|apply (ki_bag _ _ _ _ Hi x k' Hx)].
  - intros x k' c. rewrite lookup_insert_Some. intros [[<- <-]|[_ Hx]];
      [apply (ki_votes _ _ _ _ Hi p k c Hk)|apply (ki_votes _ _ _ _ Hi x k' c Hx)].
  - intros c x Hc Hx. rewrite dom_insert_L. apply elem_of_union. right. by apply (ki_seen _ _ _ _ Hi c).
Qed.

(** A step up the branch: the parent is new. *)
Lemma kahn_step_new seen q p kahn leaves :
  kahn_inv seen (Some q) kahn leaves → q ∈ dom kahn → parents !! q = Some p → kahn !! p = None →
  kahn_inv seen (Some p) (<[p := mkKahn (kn_inDegree kahn_zero + 1) (kn_votes kahn_zero)]> kahn) leaves.
Proof.
  intros Hi Hq Hp Hk. assert (p ∉ dom kahn) as Hpd by (by apply not_elem_of_dom).
  assert (∀ x, degree kahn None x = degree kahn (Some q) x + if decide (p = x) then 1 else 0) as Hdeg.
  { intros x. rewrite (degree_cur _ q) by done. rewrite Hp. f_equal. repeat case_decide; naive_solver. }
  split.
  - intros x. rewrite dom_insert_L. intros [->%elem_of_singleton|Hx]%elem_of_union.
    + by apply (parents_blocks q).
    + by apply (ki_blocks _ _ _ _ Hi).
  - intros x y. rewrite dom_insert_L. intros Hx Hxp Hy. apply elem_of_union.
    assert (x ≠ p) by congruence. assert (x ∈ dom kahn) by set_solver.
    destruct (decide (x = q)) as [->|]; [left; set_solver|right].
    apply (ki_closed _ _ _ _ Hi x y); [done|congruence|done].
  - intros x k'. rewrite degree_insert_new, Hdeg by done. rewrite lookup_insert_Some.
    intros [[<- <-]|[Hne Hx]].
    + rewrite decide_True by done. rewrite degree_zero; [done|]. intros c Hc Hcq Hcp. apply Hpd.
      by apply (ki_closed _ _ _ _ Hi c p).
    + rewrite decide_False by done. rewrite (ki_degree _ _ _ _ Hi x k' Hx). lia.
  - intros x. rewrite (ki_leaves _ _ _ _ Hi x). split.
    + intros (k' & Hx & Hz). exists k'. rewrite lookup_insert_ne; [done|]. intros ->. congruence.
    + intros (k' & Hx & Hz). apply lookup_insert_Some in Hx as [[<- <-]|[Hne Hx]]; [done|by exists k'].
  - intros x k'. rewrite lookup_insert_Some. intros [[<- <-]|[_ Hx]]; [apply empty_bag_ok|by apply (ki_bag _ _ _ _ Hi x k')].
  - intros x k' c. rewrite lookup_insert_Some. intros [[<- <-]|[_ Hx]]; [|by apply (ki_votes _ _ _ _ Hi)].
    rewrite decide_False; [done|]. intros [Hc Hcp]. apply Hpd. by apply (ki_seen _ _ _ _ Hi c).
  - intros c x Hc Hx. rewrite dom_insert_L. apply elem_of_union. right. by apply (ki_seen _ _ _ _ Hi c).
Qed.

(** At the last accepted block there is no edge left to count. *)
Lemma kahn_step_root seen q kahn leaves :
  kahn_inv seen (Some q) kahn leaves → q ∈ dom kahn → parents !! q = None → kahn_inv seen None kahn leaves.
Proof.
  intros Hi Hq Hp. split; try apply Hi.
  - intros x p Hx _ Hxp. apply (ki_closed _ _ _ _ Hi x p); [done|congruence|done].
  - intros x k Hk. rewrite (degree_cur _ q) by done. rewrite decide_False by congruence.
    rewrite (ki_degree _ _ _ _ Hi x k Hk). lia.
Qed.

Lemma mark_ancestors_spec seen fuel q kahn leaves :
  kahn_inv seen (Some q) kahn leaves → q ∈ dom kahn → (length (anc q) ≤ fuel)%nat →
  ∃ kahn' leaves', mark_ancestors (Error := Error) ts fuel q kahn leaves = Ok (kahn', leaves') ∧
    kahn_inv seen None kahn' leaves'.
Proof.
  revert q kahn leaves. induction fuel as [|fuel IH]; intros q kahn leaves Hi Hq Hfuel.
  { rewrite (ancestors_eq parents rank parents_rank) in Hfuel. simpl in Hfuel. lia. }
  simpl. destruct (ki_blocks _ _ _ _ Hi q Hq) as [n Hn]. rewrite Hn, (decided_root _ _ Hn).
  destruct (parents !! q) as [p|] eqn:Hp.
  - pose proof Hp as (n' & blk & Hn' & Hid & Hb & Hpb)%parents_Some. assert (n' = n) as -> by congruence.
    rewrite bool_decide_false by done. rewrite Hb, Hpb.
    destruct (kahn !! p) as [k|] eqn:Hk.
    + rewrite bool_decide_true by (by eexists). eexists _, _. split; [done|]. by eapply kahn_step_seen.
    + rewrite bool_decide_false by (by intros [? ?]). apply IH; [by eapply kahn_step_new|set_solver|].
      rewrite (ancestors_eq parents rank parents_rank), Hp in Hfuel. simpl in Hfuel. lia.
  - rewrite bool_decide_true by (apply parents_root; [by eexists|done]).
    eexists _, _. split; [done|]. by eapply kahn_step_root.
Qed.

(** A vote that is dropped. *)
Lemma kahn_skip seen v kahn leaves :
  kahn_inv seen None kahn leaves → parents !! v = None → kahn_inv (v :: seen) None kahn leaves.
Proof.
  intros Hi Hv. split; try apply Hi.
  - intros x k c Hk. rewrite (ki_votes _ _ _ _ Hi x k c Hk).
    destruct (decide (c = v)) as [->|]; [rewrite !decide_False; naive_solver|].
    repeat case_decide; first [lia | exfalso; set_solver].
  - intros c x [->|Hc]%elem_of_cons Hx; [congruence|by apply (ki_seen _ _ _ _ Hi c)].
Qed.

(** The votes of the parent of a voted block. *)
Lemma parent_votes seen v p b c x :
  bag_ok b → (v ∉ seen) → parents !! v = Some p →
  (∀ c, Count b c = if decide (c ∈ seen ∧ parents !! c = Some p) then Count voteBag c else 0) →
  x = p →
  Count (AddCount b v (Count voteBag v)) c =
    if decide (c ∈ v :: seen ∧ parents !! c = Some x) then Count voteBag c else 0.
Proof.
  intros Hb Hv Hp Hc ->. rewrite Count_AddCount. pose proof (Count_nonneg voteBag v Hbag).
  rewrite Hc. destruct (decide (c = v)) as [->|Hne].
  - rewrite (decide_False (P := v ∈ seen ∧ _)) by tauto. rewrite decide_True by set_solver. zcases.
  - repeat case_decide; first [lia | exfalso; set_solver].
Qed.

Lemma other_votes seen v p c x (z : Z) :
  parents !! v = Some p → x ≠ p →
  (if decide (c ∈ seen ∧ parents !! c = Some x) then z else 0) =
  (if decide (c ∈ v :: seen ∧ parents !! c = Some x) then z else 0).
Proof.
  intros Hp Hx. destruct (decide (c = v)) as [->|]; [rewrite !decide_False by (intros [??]; congruence); done|].
  repeat case_decide; first [lia | exfalso; set_solver].
Qed.

Lemma kahn_vote_seen seen v p k kahn leaves :
  kahn_inv seen None kahn leaves → (v ∉ seen) → parents !! v = Some p → kahn !! p = Some k →
  kahn_inv (v :: seen) None
    (<[p := mkKahn (kn_inDegree k) (AddCount (kn_votes k) v (Count voteBag v))]> kahn) leaves.
Proof.
  intros Hi Hv Hp Hk. assert (p ∈ dom kahn) as Hpd by (by eapply elem_of_dom_2).
  assert (dom (<[p := mkKahn (kn_inDegree k) (AddCount (kn_votes k) v (Count voteBag v))]> kahn) = dom kahn) as Hdom
    by (rewrite dom_insert_L; set_solver).
  split; rewrite ?Hdom.
  - apply Hi.
  - apply Hi.
  - intros x k'. rewrite degree_insert_seen by done. rewrite lookup_insert_Some.
    intros [[<- <-]|[Hne Hx]]; simpl; by apply (ki_degree _ _ _ _ Hi).
  - intros x. rewrite (ki_leaves _ _ _ _ Hi x). split.
    + intros (k' & Hx & Hz). destruct (decide (x = p)) as [->|]; [|exists k'; by rewrite lookup_insert_ne].
      eexists. rewrite lookup_insert_eq. split; [done|]. simpl. congruence.
    + intros (k' & Hx & Hz). apply lookup_insert_Some in Hx as [[<- <-]|[Hne Hx]]; [by exists k|by exists k'].
  - intros x k'. rewrite lookup_insert_Some. intros [[<- <-]|[_ Hx]]; simpl;
      [apply AddCount_ok|]; by eapply (ki_bag _ _ _ _ Hi).
  - intros x k' c. rewrite lookup_insert_Some. intros [[<- <-]|[Hne Hx]]; simpl.
    + eapply parent_votes; [by eapply (ki_bag _ _ _ _ Hi)|done..| |done]. intros c'. by apply (ki_votes _ _ _ _ Hi).
    + rewrite (ki_votes _ _ _ _ Hi x k' c Hx). apply (other_votes _ _ p); congruence.
  - intros c x [->|Hc]%elem_of_cons Hx; [congruence|by apply (ki_seen _ _ _ _ Hi c)].
Qed.

Lemma kahn_vote_new seen v p kahn leaves :
  kahn_inv seen None kahn leaves → (v ∉ seen) → parents !! v = Some p → kahn !! p = None →
  kahn_inv (v :: seen) (Some p)
    (<[p := mkKahn (kn_inDegree kahn_zero) (AddCount (kn_votes kahn_zero) v (Count voteBag v))]> kahn)
    ({[p]} ∪ leaves).
Proof.
  intros Hi Hv Hp Hk. assert (p ∉ dom kahn) as Hpd by (by apply not_elem_of_dom).
  assert (∀ c, c ∈ seen → parents !! c ≠ Some p) as Hseen.
  { intros c Hc Hcp. apply Hpd. by apply (ki_seen _ _ _ _ Hi c). }
  split.
  - intros x. rewrite dom_insert_L. intros [->%elem_of_singleton|Hx]%elem_of_union.
    + by apply (parents_blocks v).
    + by apply (ki_blocks _ _ _ _ Hi).
  - intros x y. rewrite dom_insert_L. intros Hx Hxp Hy. apply elem_of_union. right.
    assert (x ≠ p) by congruence. apply (ki_closed _ _ _ _ Hi x y); [set_solver|done..].
  - intros x k'. rewrite degree_insert_new by done. rewrite lookup_insert_Some. intros [[<- <-]|[Hne Hx]].
    + simpl. rewrite degree_zero; [done|]. intros c Hc _ Hcp. apply Hpd. by apply (ki_closed _ _ _ _ Hi c p).
    + by apply (ki_degree _ _ _ _ Hi).
  - intros x. rewrite elem_of_union, elem_of_singleton, (ki_leaves _ _ _ _ Hi x). split.
    + intros [->|(k' & Hx & Hz)]; [eexists; by rewrite lookup_insert_eq|].
      exists k'. rewrite lookup_insert_ne; [done|]. intros ->. congruence.
    + intros (k' & Hx & Hz). apply lookup_insert_Some in Hx as [[<- <-]|[Hne Hx]]; [by left|right; by exists k'].
  - intros x k'. rewrite lookup_insert_Some. intros [[<- <-]|[_ Hx]]; simpl.
    + apply AddCount_ok, empty_bag_ok.
    + by eapply (ki_bag _ _ _ _ Hi).
  - intros x k' c. rewrite lookup_insert_Some. intros [[<- <-]|[Hne Hx]]; simpl.
    + eapply parent_votes; [apply empty_bag_ok|done..| |done]. intros c'.
      rewrite decide_False; [done|]. intros [Hc' ?]. by apply (Hseen c').
    + rewrite (ki_votes _ _ _ _ Hi x k' c Hx). apply (other_votes _ _ p); congruence.
  - intros c x. rewrite dom_insert_L. intros [->|Hc]%elem_of_cons Hx; [set_solver|].
    apply elem_of_union. right. by apply (ki_seen _ _ _ _ Hi c).
Qed.

Lemma add_vote_spec seen v kahn leaves :
  kahn_inv seen None kahn leaves → (v ∉ seen) →
  ∃ kahn' leaves', add_vote (Error := Error) ts (block_fuel ts) voteBag (Ok (kahn, leaves)) v = Ok (kahn', leaves') ∧
    kahn_inv (v :: seen) None kahn' leaves'.
Proof.
  intros Hi Hv. unfold add_vote. cbn [rbind]. destruct (ts_blocks ts !! v) as [n|] eqn:Hn; last first.
  { eexists _, _. split; [done|]. apply kahn_skip; [done|]. apply eq_None_not_Some.
    intros [p Hp]. apply parents_blocks in Hp as [[??] _]. congruence. }
  rewrite (decided_root _ _ Hn). destruct (parents !! v) as [p|] eqn:Hp; last first.
  { rewrite bool_decide_true by (apply parents_root; [by eexists|done]).
    eexists _, _. split; [done|]. by apply kahn_skip. }
  pose proof Hp as (n' & blk & Hn' & Hid & Hb & Hpb)%parents_Some. assert (n' = n) as -> by congruence.
  rewrite bool_decide_false by done. rewrite Hb, Hpb. destruct (kahn !! p) as [k|] eqn:Hk.
  - rewrite bool_decide_true by (by eexists). eexists _, _. split; [done|]. by eapply kahn_vote_seen.
  - rewrite bool_decide_false by (by intros [? ?]).
    apply mark_ancestors_spec; [by apply kahn_vote_new|set_solver|].
    pose proof (rank_fuel p (proj2 (parents_blocks v p Hp))). unfold block_fuel. lia.
Qed.

(** [calculateInDegree] sorts the votes without failing. *)
Lemma add_votes_spec vs :
  NoDup vs →
  ∃ kahn leaves, foldl (add_vote (Error := Error) ts (block_fuel ts) voteBag) (Ok (∅, ∅)) vs = Ok (kahn, leaves) ∧
    kahn_inv (reverse vs) None kahn leaves.
Proof.
  induction vs as [|v vs IH] using rev_ind; intros Hnd.
  { exists ∅, ∅. split; [done|]. split; set_solver. }
  apply NoDup_app in Hnd as (Hnd & Hv & _). destruct (IH Hnd) as (kahn & leaves & Heq & Hi).
  rewrite foldl_app, Heq. cbn [foldl]. rewrite reverse_snoc. apply add_vote_spec; [done|].
  rewrite elem_of_reverse. intros Hin. apply (Hv v Hin). set_solver.
Qed.

(** ** Pushing the votes *)

Lemma Pop_spec (l : gset ID) :
  match Pop l with
  | None => l = ∅
  | Some (e, l') => e ∈ l ∧ l' = l ∖ {[e]}
  end.
Proof.
  unfold Pop. destruct (map_range (gset_to_gmap () l)) as [|[e []] r] eqn:Hr.
  - apply (f_equal (λ r, list_to_map r : gmap ID ())) in Hr. rewrite map_range_to_map in Hr.
    apply set_eq. intros x. split; [|set_solver]. intros Hx.
    assert (gset_to_gmap () l !! x = Some ()) as Hl by (by rewrite lookup_gset_to_gmap_Some).
    rewrite Hr in Hl. done.
  - split; [|done]. assert ((e, ()) ∈ map_range (gset_to_gmap () l)) as He by (rewrite Hr; set_solver).
    apply elem_of_map_range, lookup_gset_to_gmap_Some in He. tauto.
Qed.

Context (kahn0 : gmap ID kahnNode) (leaves0 : gset ID) (seen : list ID).
Context (Hkahn : kahn_inv seen None kahn0 leaves0) (Hseen : NoDup seen)
  (Hall : ∀ c, 0 < Count voteBag c → c ∈ seen).

#[local] Abbreviation own := (Count voteBag).

(** The votes for a block and its descendants, and those for its descendants. *)
Definition total (x : ID) : Z := transitive parents rank seen own x.

Definition kids (x : ID) : list ID := elements (dom (filter (λ cp : ID * ID, cp.2 = x) parents)).

Definition below (x : ID) : Z := sum_over total (kids x).

Lemma elem_of_kids c x : c ∈ kids x ↔ parents !! c = Some x.
Proof.
  unfold kids. rewrite elem_of_elements, elem_of_dom. split.
  - intros [p [Hp Heq]%map_lookup_filter_Some]. simpl in Heq. by subst.
  - intros Hp. exists x. by apply map_lookup_filter_Some.
Qed.

Lemma kids_NoDup x : NoDup (kids x).
Proof. unfold kids. apply NoDup_elements. Qed.

Lemma own_nonneg c : 0 ≤ own c.
Proof. by apply Count_nonneg. Qed.

Lemma own_unseen c : (c ∉ seen) → own c = 0.
Proof. intros Hc. pose proof (own_nonneg c). destruct (Z.eq_dec (own c) 0); [done|]. destruct Hc. apply Hall. lia. Qed.

Lemma total_below x : total x = own x + below x.
Proof.
  unfold total. rewrite (transitive_children parents rank parents_rank _ _ x (kids x)); try done.
  - unfold below. destruct (decide (x ∈ seen)); [done|]. by rewrite own_unseen.
  - apply kids_NoDup.
  - intros c. apply elem_of_kids.
  - intros c y Hc _ _. by apply elem_of_kids.
Qed.

Lemma total_nonneg x : 0 ≤ total x.
Proof. apply transitive_nonneg. intros y _. apply own_nonneg. Qed.

Lemma below_nonneg x : 0 ≤ below x.
Proof. apply sum_over_nonneg. intros c _. apply total_nonneg. Qed.

(** The sorted blocks are closed under ancestors, and hold every strict ancestor
    of a voted block. *)
Lemma sorted_ancestors x y : y ∈ dom kahn0 → x ∈ anc y → x ∈ dom kahn0.
Proof.
  revert y. apply (forest_ind parents rank parents_rank (λ y, y ∈ dom kahn0 → x ∈ anc y → x ∈ dom kahn0)).
  intros y IH Hy. rewrite (ancestors_eq parents rank parents_rank). intros [->|Hx]%elem_of_cons; [done|].
  destruct (parents !! y) as [p|] eqn:Hp; [|by apply not_elem_of_nil in Hx].
  apply (IH p eq_refl); [by apply (ki_closed _ _ _ _ Hkahn y p)|done].
Qed.

Lemma voted_ancestors x y : y ∈ seen → x ∈ anc y → x ≠ y → x ∈ dom kahn0.
Proof.
  intros Hy Hx Hne. rewrite (ancestors_eq parents rank parents_rank) in Hx.
  apply elem_of_cons in Hx as [?|Hx]; [done|].
  destruct (parents !! y) as [p|] eqn:Hp; [|by apply not_elem_of_nil in Hx].
  eapply sorted_ancestors; [|exact Hx]. by apply (ki_seen _ _ _ _ Hkahn y).
Qed.

Lemma total_unsorted c : (c ∉ dom kahn0) → total c = own c.
Proof.
  intros Hc. unfold total, transitive.
  rewrite (sum_over_ext _ (λ y, if decide (y = c) then own y else 0)).
  - rewrite (sum_over_single own) by done. case_decide; [done|by rewrite own_unseen].
  - intros y Hy. unfold above. destruct (decide (y = c)) as [->|Hne].
    + rewrite decide_True by apply (ancestors_self parents rank parents_rank). lia.
    + rewrite decide_False; [lia|]. intros Hin. apply Hc. by apply (voted_ancestors c y).
Qed.

(** The children of [x] among the sorted blocks that are not yet processed. *)
Definition pending (done : gset ID) (x : ID) : Z :=
  sum_over (λ c, if decide (parents !! c = Some x ∧ c ∉ done) then 1 else 0) (elements (dom kahn0)).

(** What [pushVotes] maintains once it has processed the blocks of [order], the
    latest at the head: the stack it built, and the votes still to push. *)
Record push_order (order : list ID) (stack : list votes) : Prop := {
  po_nodup : NoDup order;
  po_order x : x ∈ order → x ∈ dom kahn0;
  po_children c x : x ∈ order → parents !! c = Some x → c ∈ dom kahn0 → c ∈ order;
  po_sorted l1 y l2 x : order = l1 ++ y :: l2 → parents !! y = Some x → x ∈ order → x ∈ l1;
  po_stack : map vt_parentID stack =
    reverse (filter (λ x, AlphaPreference (ts_params ts) ≤ below x) order);
  po_bags vt : vt ∈ stack → bag_ok (vt_votes vt) ∧
    ∀ c, Count (vt_votes vt) c = if decide (parents !! c = Some (vt_parentID vt)) then total c else 0;
}.

Record push_state (order : list ID) kahn leaves : Prop := {
  ps_dom : dom kahn = dom kahn0;
  ps_degree x k : kahn !! x = Some k → kn_inDegree k = pending (list_to_set order) x;
  ps_leaves x : x ∈ leaves ↔ x ∈ dom kahn0 ∧ (x ∉ order) ∧ pending (list_to_set order) x = 0;
  ps_bag x k : kahn !! x = Some k → bag_ok (kn_votes k);
  ps_votes x k c : kahn !! x = Some k →
    Count (kn_votes k) c =
      if decide (parents !! c = Some x) then own c + (if decide (c ∈ order) then below c else 0) else 0;
}.

Lemma pending_nonneg order x : 0 ≤ pending (list_to_set order) x.
Proof. apply sum_over_nonneg. intros. case_decide; lia. Qed.

Lemma pending_zero order x c :
  pending (list_to_set order) x = 0 → parents !! c = Some x → c ∈ dom kahn0 → c ∈ order.
Proof.
  intros Hz Hp Hc. destruct (decide (c ∈ order)) as [|Hn]; [done|]. exfalso. unfold pending in Hz.
  apply elem_of_elements in Hc. apply list_elem_of_split in Hc as (l1 & l2 & Hl). rewrite Hl in Hz.
  rewrite sum_over_app, sum_over_cons, decide_True in Hz by (split; [done|]; by rewrite elem_of_list_to_set).
  assert (∀ l, 0 ≤ sum_over (λ c, if decide (parents !! c = Some x ∧ c ∉ (list_to_set order : gset ID)) then 1 else 0) l) as Hnn.
  { intros l. apply sum_over_nonneg. intros. case_decide; lia. }
  pose proof (Hnn l1). pose proof (Hnn l2). lia.
Qed.

Lemma pending_cons order x y :
  x ∈ dom kahn0 → (x ∉ order) →
  pending (list_to_set (x :: order)) y =
    pending (list_to_set order) y - if decide (parents !! x = Some y) then 1 else 0.
Proof.
  intros Hx Hn. unfold pending. cut (sum_over (λ c, if decide (parents !! c = Some y ∧ c ∉ (list_to_set order : gset ID)) then 1 else 0) (elements (dom kahn0)) =
    sum_over (λ c, (if decide (parents !! c = Some y ∧ c ∉ (list_to_set (x :: order) : gset ID)) then 1 else 0) +
      (if decide (c = x) then (if decide (parents !! c = Some y) then 1 else 0) else 0)) (elements (dom kahn0))).
  - intros ->. rewrite sum_over_add, (sum_over_single (λ c, if decide (parents !! c = Some y) then 1 else 0)) by apply NoDup_elements.
    rewrite (decide_True (P := x ∈ _)) by (by apply elem_of_elements). lia.
  - apply sum_over_ext. intros c _. simpl. destruct (decide (c = x)) as [->|Hcx].
    + rewrite (decide_False (P := _ ∧ x ∉ {[x]} ∪ _)) by set_solver. repeat case_decide; set_solver by lia.
    + repeat case_decide; set_solver by lia.
Qed.

(** The votes of a block whose sorted children are all processed are final. *)
Lemma leaf_votes order kahn leaves x k :
  push_state order kahn leaves → x ∈ leaves → kahn !! x = Some k →
  (∀ c, Count (kn_votes k) c = if decide (parents !! c = Some x) then total c else 0) ∧
  Len (kn_votes k) = below x.
Proof.
  intros Hi (Hx & Hn & Hz)%(ps_leaves _ _ _ Hi) Hk.
  assert (∀ c, Count (kn_votes k) c = if decide (parents !! c = Some x) then total c else 0) as Hc.
  { intros c. rewrite (ps_votes _ _ _ Hi x k c Hk). case_decide as Hp; [|done].
    rewrite total_below. destruct (decide (c ∈ dom kahn0)) as [Hin|Hnin].
    - by rewrite decide_True by (by eapply pending_zero).
    - pose proof (total_unsorted c Hnin) as Ht. rewrite total_below in Ht. case_decide; lia. }
  split; [done|]. rewrite (Len_sum_over _ (kids x)).
  - apply sum_over_ext. intros c Hck%elem_of_kids. by rewrite Hc, decide_True.
  - by apply (ps_bag _ _ _ Hi x).
  - apply kids_NoDup.
  - intros c. rewrite Hc. case_decide; [by rewrite elem_of_kids|lia].
Qed.

Lemma push_order_step order stack kahn leaves x k :
  push_order order stack → push_state order kahn leaves → x ∈ leaves → kahn !! x = Some k →
  push_order (x :: order)
    (if AlphaPreference (ts_params ts) <=? Len (kn_votes k) then stack ++ [mkVotes x (kn_votes k)] else stack).
Proof.
  intros Ho Hs Hl Hk. destruct (leaf_votes _ _ _ _ _ Hs Hl Hk) as [Hc Hlen].
  pose proof Hl as (Hx & Hn & Hz)%(ps_leaves _ _ _ Hs). split.
  - apply NoDup_cons. split; [done|apply Ho].
  - intros y [->|Hy]%elem_of_cons; [done|by apply (po_order _ _ Ho)].
  - intros c y [->|Hy]%elem_of_cons Hp Hcd; apply elem_of_cons; right.
    + by eapply pending_zero.
    + by apply (po_children _ _ Ho c y).
  - intros [|z l1] y l2 a Heq Hp Ha; simpl in Heq; injection Heq as <- Heq.
    + exfalso. apply elem_of_cons in Ha as [->|Ha]; [apply parents_rank in Hp; lia|].
      apply Hn. by apply (po_children _ _ Ho x a).
    + apply elem_of_cons in Ha as [->|Ha]; [set_solver|].
      apply elem_of_cons. right. by apply (po_sorted _ _ Ho l1 y l2 a).
  - rewrite Hlen, filter_cons. destruct (Z.leb_spec (AlphaPreference (ts_params ts)) (below x)).
    + rewrite decide_True by done. rewrite List.map_app, (po_stack _ _ Ho), reverse_cons. done.
    + rewrite decide_False by lia. apply Ho.
  - intros vt Hvt. rewrite Hlen in Hvt.
    destruct (AlphaPreference (ts_params ts) <=? below x); [|by apply (po_bags _ _ Ho)].
    apply elem_of_app in Hvt as [Hvt| ->%list_elem_of_singleton]; [by apply (po_bags _ _ Ho)|].
    split; [by apply (ps_bag _ _ _ Hs x)|done].
Qed.

Lemma push_state_root order kahn leaves x :
  push_state order kahn leaves → x ∈ leaves → parents !! x = None →
  push_state (x :: order) kahn (leaves ∖ {[x]}).
Proof.
  intros Hs Hl Hp. pose proof Hl as (Hx & Hn & Hz)%(ps_leaves _ _ _ Hs).
  assert (∀ y, pending (list_to_set (x :: order)) y = pending (list_to_set order) y) as Hpend.
  { intros y. rewrite pending_cons by done. rewrite decide_False by congruence. lia. }
  split.
  - apply Hs.
  - intros y k Hk. rewrite Hpend. by apply (ps_degree _ _ _ Hs).
  - intros y. rewrite Hpend, elem_of_difference, (ps_leaves _ _ _ Hs y). set_solver.
  - apply Hs.
  - intros y k c Hk. rewrite (ps_votes _ _ _ Hs y k c Hk). case_decide; [|done].
    assert (c ≠ x) by congruence. repeat case_decide; first [lia | exfalso; set_solver].
Qed.

Lemma push_state_parent order kahn leaves x p k kp :
  push_state order kahn leaves → x ∈ leaves → kahn !! x = Some k → parents !! x = Some p →
  kahn !! p = Some kp → (p ∉ order) →
  push_state (x :: order)
    (<[p := mkKahn (kn_inDegree kp - 1) (AddCount (kn_votes kp) x (Len (kn_votes k)))]> kahn)
    (if kn_inDegree kp - 1 =? 0 then {[p]} ∪ leaves ∖ {[x]} else leaves ∖ {[x]}).
Proof.
  intros Hs Hl Hk Hp Hkp Hpn. destruct (leaf_votes _ _ _ _ _ Hs Hl Hk) as [Hc Hlen].
  pose proof Hl as (Hx & Hn & Hz)%(ps_leaves _ _ _ Hs).
  assert (p ∈ dom kahn0) as Hpd by (rewrite <- (ps_dom _ _ _ Hs); by eapply elem_of_dom_2).
  assert (p ≠ x) as Hpx by (intros ->; apply parents_rank in Hp; lia).
  assert (∀ y, y ≠ p → pending (list_to_set (x :: order)) y = pending (list_to_set order) y) as Hpend.
  { intros y Hy. rewrite pending_cons by done. rewrite decide_False by congruence. lia. }
  assert (pending (list_to_set (x :: order)) p = kn_inDegree kp - 1) as Hpendp.
  { rewrite pending_cons, (ps_degree _ _ _ Hs p kp Hkp) by done. by rewrite decide_True. }
  split.
  - rewrite dom_insert_L, (ps_dom _ _ _ Hs). set_solver.
  - intros y k'. rewrite lookup_insert_Some. intros [[<- <-]|[Hne Hy]]; [done|].
    rewrite Hpend by done. by apply (ps_degree _ _ _ Hs).
  - intros y. destruct (decide (y = p)) as [->|Hyp].
    + rewrite Hpendp. destruct (Z.eqb_spec (kn_inDegree kp - 1) 0) as [Hd|Hd]; [set_solver|].
      split; [|set_solver]. intros [Hy _]%elem_of_difference. apply (ps_leaves _ _ _ Hs) in Hy as (_ & _ & Hy).
      rewrite <- (ps_degree _ _ _ Hs p kp Hkp) in Hy. 
      pose proof (pending_nonneg (x :: order) p) as Hnn. rewrite Hpendp in Hnn. lia.
    + rewrite Hpend by done. pose proof (ps_leaves _ _ _ Hs y).
      destruct (kn_inDegree kp - 1 =? 0); set_solver.
  - intros y k'. rewrite lookup_insert_Some. intros [[<- <-]|[Hne Hy]]; simpl;
      [apply AddCount_ok|]; by eapply (ps_bag _ _ _ Hs).
  - intros y k' c. rewrite lookup_insert_Some. intros [[<- <-]|[Hne Hy]]; simpl.
    + rewrite Count_AddCount, (ps_votes _ _ _ Hs p kp c Hkp), Hlen. pose proof (below_nonneg x).
      destruct (decide (c = x)) as [->|Hcx]; repeat case_decide; first [lia | exfalso; set_solver].
    + rewrite (ps_votes _ _ _ Hs y k' c Hy). case_decide; [|done].
      assert (c ≠ x) by congruence. repeat case_decide; first [lia | exfalso; set_solver].
Qed.

(** When no leaf is left, every sorted block was processed. *)
Lemma push_complete order kahn x :
  push_state order kahn ∅ → x ∈ dom kahn0 → x ∈ order.
Proof.
  intros Hs. set (bound := max_list (map rank (elements (dom kahn0)))).
  assert (∀ y, y ∈ dom kahn0 → (rank y ≤ bound)%nat) as Hbound.
  { intros y Hy. apply max_list_elem_of_le, list_elem_of_fmap. exists y. split; [done|by apply elem_of_elements]. }
  assert (∀ n y, (bound - rank y ≤ n)%nat → y ∈ dom kahn0 → y ∈ order) as Hn.
  { induction n as [|n IH]; intros y Hy Hyd; destruct (decide (y ∈ order)) as [|Hno]; try done; exfalso;
      apply (not_elem_of_empty (C := gset ID) y), (ps_leaves _ _ _ Hs); (split_and!; [done..|]);
      apply sum_over_zero; intros c Hc%elem_of_elements; rewrite decide_False; try done;
      intros [Hp Hcn]; apply Hcn, elem_of_list_to_set; pose proof (Hbound c Hc);
      apply parents_rank in Hp; [lia|]. apply IH; [lia|done]. }
  intros Hx. by apply (Hn (bound - rank x)%nat).
Qed.

Lemma push_loop_spec fuel order kahn leaves stack :
  push_order order stack → push_state order kahn leaves →
  (length (elements (dom kahn0)) < fuel + length order)%nat →
  ∃ kahn' stack' order', push_loop (Error := Error) ts fuel kahn leaves stack = Ok (kahn', stack') ∧
    push_order order' stack' ∧ (∀ x, x ∈ dom kahn0 → x ∈ order').
Proof.
  revert order kahn leaves stack. induction fuel as [|fuel IH]; intros order kahn leaves stack Ho Hs Hf.
  { exfalso. assert (length order ≤ length (elements (dom kahn0)))%nat; [|lia].
    apply submseteq_length, NoDup_submseteq; [apply Ho|]. intros x Hx. by apply elem_of_elements, (po_order _ _ Ho). }
  cbn [push_loop]. pose proof (Pop_spec leaves) as Hpop. destruct (Pop leaves) as [[x leaves']|]; last first.
  { subst. exists kahn, stack, order. split_and!; [done..|]. intros x. by eapply push_complete. }
  destruct Hpop as [Hl ->]. pose proof Hl as (Hx & Hn & Hz)%(ps_leaves _ _ _ Hs).
  pose proof Hx as Hxk. rewrite <- (ps_dom _ _ _ Hs) in Hxk. apply elem_of_dom in Hxk as [k Hk].
  rewrite Hk. cbn [default from_option]. destruct (ki_blocks _ _ _ _ Hkahn x Hx) as [n Hnb].
  rewrite Hnb, (decided_root _ _ Hnb).
  pose proof (push_order_step _ _ _ _ _ _ Ho Hs Hl Hk) as Ho'.
  assert (∀ kahn'' leaves'' stack'', push_order (x :: order) stack'' → push_state (x :: order) kahn'' leaves'' →
    ∃ kahn' stack' order', push_loop (Error := Error) ts fuel kahn'' leaves'' stack'' = Ok (kahn', stack') ∧
    push_order order' stack' ∧ (∀ x, x ∈ dom kahn0 → x ∈ order')) as Hnext.
  { intros kahn'' leaves'' stack'' Hoo Hss. apply (IH (x :: order)); [done..|]. simpl. lia. }
  destruct (parents !! x) as [p|] eqn:Hp.
  - pose proof Hp as (n' & blk & Hn' & Hid & Hb & Hpb)%parents_Some. assert (n' = n) as -> by congruence.
    rewrite bool_decide_false by done. rewrite Hb, Hpb.
    assert (p ∈ dom kahn0) as Hpd by (by apply (ki_closed _ _ _ _ Hkahn x p)).
    pose proof Hpd as Hpk. rewrite <- (ps_dom _ _ _ Hs) in Hpk. apply elem_of_dom in Hpk as [kp Hkp].
    rewrite Hkp. cbn [default from_option kn_inDegree].
    apply Hnext; [done|]. apply (push_state_parent order kahn leaves x p k kp); try done.
    intros Hpo. apply Hn. by apply (po_children _ _ Ho x p).
  - rewrite bool_decide_true by (apply parents_root; [by eexists|done]).
    apply Hnext; [done|]. by apply push_state_root.
Qed.

Lemma push_start : push_order [] [] ∧ push_state [] kahn0 leaves0.
Proof.
  split; split; try done; try set_solver.
  - apply NoDup_nil_2.
  - intros x k Hk. rewrite (ki_degree _ _ _ _ Hkahn x k Hk). unfold degree, pending. apply sum_over_ext.
    intros c _. repeat case_decide; set_solver by lia.
  - intros x. rewrite (ki_leaves _ _ _ _ Hkahn x).
    assert (∀ k, kahn0 !! x = Some k → kn_inDegree k = pending (list_to_set []) x) as Hd.
    { intros k Hk. rewrite (ki_degree _ _ _ _ Hkahn x k Hk). unfold degree, pending. apply sum_over_ext.
      intros c _. repeat case_decide; set_solver by lia. }
    split.
    + intros (k & Hk & Hz). rewrite <- (Hd k Hk). split_and!; [by eapply elem_of_dom_2|set_solver|done].
    + intros ([k Hk]%elem_of_dom & _ & Hz). exists k. split; [done|]. by rewrite (Hd k Hk).
  - intros x k. apply (ki_bag _ _ _ _ Hkahn).
  - intros x k c Hk. rewrite (ki_votes _ _ _ _ Hkahn x k c Hk). rewrite (decide_False (P := c ∈ [])) by set_solver.
    destruct (decide (c ∈ seen)) as [Hc|Hc]; [repeat case_decide; naive_solver lia|].
    rewrite decide_False by tauto. rewrite own_unseen by done. by case_decide.
Qed.

(** ** The stack is a branch *)

Context (Hmajority : 0 < AlphaPreference (ts_params ts) ∧
  Len voteBag < 2 * AlphaPreference (ts_params ts)).

#[local] Abbreviation heavy x := (AlphaPreference (ts_params ts) ≤ below x).

Lemma filter_split (P : ID → Prop) `{!∀ x, Decision (P x)} (l l1 l2 : list ID) y :
  filter P l = l1 ++ y :: l2 → ∃ k1 k2, l = k1 ++ y :: k2 ∧ l1 = filter P k1.
Proof.
  revert l1. induction l as [|x l IH]; intros l1; [by destruct l1|]. rewrite filter_cons. case_decide as HP.
  - destruct l1 as [|z l1]; intros [= -> Heq]; [by exists [], l|].
    destruct (IH l1 Heq) as (k1 & k2 & -> & ->). exists (z :: k1), k2. split; [done|].
    by rewrite filter_cons_True.
  - intros (k1 & k2 & -> & ->)%IH. exists (x :: k1), k2. split; [done|]. by rewrite filter_cons_False.
Qed.

Lemma heavy_comparable x y : heavy x → heavy y → x ∈ anc y ∨ y ∈ anc x.
Proof.
  intros Hx Hy. destruct (decide (x ∈ anc y)); [by left|]. destruct (decide (y ∈ anc x)); [by right|]. exfalso.
  assert (total x + total y ≤ sum_over own seen) as Hd.
  { apply (transitive_disjoint parents rank parents_rank); [intros; apply own_nonneg|done..]. }
  rewrite <- Len_sum_over in Hd by done. rewrite !total_below in Hd.
  pose proof (own_nonneg x). pose proof (own_nonneg y). lia.
Qed.

Lemma heavy_parent c x : parents !! c = Some x → heavy c → heavy x.
Proof.
  intros Hp Hc. assert (total c ≤ below x) as Hle.
  { unfold below. apply elem_of_kids in Hp. apply list_elem_of_split in Hp as (l1 & l2 & ->).
    rewrite sum_over_app, sum_over_cons.
    pose proof (sum_over_nonneg total l1 (λ y _, total_nonneg y)).
    pose proof (sum_over_nonneg total l2 (λ y _, total_nonneg y)). lia. }
  rewrite total_below in Hle. pose proof (own_nonneg c). lia.
Qed.

Lemma heavy_sorted x : heavy x → x ∈ dom kahn0.
Proof.
  intros Hx. destruct (decide (x ∈ dom kahn0)) as [|Hn]; [done|].
  pose proof (total_unsorted x Hn) as Ht. rewrite total_below in Ht. lia.
Qed.

(** A list of blocks that starts at the last accepted block and goes down. *)
Fixpoint branch (x : ID) (l : list ID) : Prop :=
  match l with
  | [] => True
  | y :: l => parents !! y = Some x ∧ branch y l
  end.

Definition branch_from_root (l : list ID) : Prop :=
  match l with [] => True | x :: l => x = ts_lastAcceptedID ts ∧ branch x l end.

Section Stack.
Context (order : list ID) (stack : list votes).
Context (Horder : push_order order stack) (Hcomplete : ∀ x, x ∈ dom kahn0 → x ∈ order).

Definition heavies : list ID := filter (λ x, heavy x) order.

Lemma elem_of_heavies x : x ∈ heavies ↔ heavy x.
Proof.
  unfold heavies. rewrite list_elem_of_filter. split; [tauto|]. intros Hx. split; [done|].
  apply Hcomplete. by apply heavy_sorted.
Qed.

Lemma heavies_prefix l1 y l2 x : heavies = l1 ++ y :: l2 → parents !! y = Some x → x ∈ l1.
Proof.
  intros Heq Hp. assert (heavy y) as Hy by (apply elem_of_heavies; rewrite Heq; set_solver).
  pose proof (heavy_parent _ _ Hp Hy) as Hx. destruct (filter_split _ _ _ _ _ Heq) as (k1 & k2 & Hk & ->).
  apply list_elem_of_filter. split; [done|]. apply (po_sorted _ _ Horder k1 y k2 x); [done..|].
  by apply Hcomplete, heavy_sorted.
Qed.

(** Strict ancestors come first. *)
Lemma heavies_ancestors y : ∀ l1 l2 x, heavies = l1 ++ y :: l2 → x ∈ anc y → x ≠ y → x ∈ l1.
Proof.
  revert y. apply (forest_ind parents rank parents_rank
    (λ y, ∀ l1 l2 x, heavies = l1 ++ y :: l2 → x ∈ anc y → x ≠ y → x ∈ l1)).
  intros y IH l1 l2 x Heq Hx Hne. rewrite (ancestors_eq parents rank parents_rank) in Hx.
  apply elem_of_cons in Hx as [?|Hx]; [done|].
  destruct (parents !! y) as [p|] eqn:Hp; [|by apply not_elem_of_nil in Hx].
  pose proof (heavies_prefix _ _ _ _ Heq Hp) as Hpl. destruct (decide (x = p)) as [->|Hxp]; [done|].
  apply list_elem_of_split in Hpl as (k1 & k2 & ->). rewrite <- app_assoc in Heq. simpl in Heq.
  apply elem_of_app. left. by apply (IH p eq_refl k1 (k2 ++ y :: l2) x).
Qed.

Lemma heavies_NoDup : NoDup heavies.
Proof. apply NoDup_filter, Horder. Qed.

Lemma heavies_step l1 x y l2 : heavies = l1 ++ x :: y :: l2 → parents !! y = Some x.
Proof.
  intros Heq. pose proof heavies_NoDup as Hnd. rewrite Heq in Hnd.
  apply NoDup_app in Hnd as (_ & Hdisj & Hnd). apply NoDup_cons in Hnd as [Hxy Hnd].
  assert (Heq' : heavies = (l1 ++ [x]) ++ y :: l2) by (by rewrite <- app_assoc).
  assert (x ≠ y) as Hne by set_solver.
  assert (heavy x ∧ heavy y) as [Hx Hy] by (split; apply elem_of_heavies; rewrite Heq; set_solver).
  destruct (heavy_comparable x y Hx Hy) as [Hanc|Hanc]; last first.
  { exfalso. assert (y ∈ l1) as Hyl by (by apply (heavies_ancestors x l1 (y :: l2))).
    apply (Hdisj y Hyl). set_solver. }
  rewrite (ancestors_eq parents rank parents_rank) in Hanc. apply elem_of_cons in Hanc as [?|Hanc]; [done|].
  destruct (parents !! y) as [p|] eqn:Hp; [|by apply not_elem_of_nil in Hanc].
  pose proof (heavies_prefix _ _ _ _ Heq' Hp) as [Hpl| ->%list_elem_of_singleton]%elem_of_app; [|done].
  exfalso. assert (x ≠ p) as Hxp by (intros ->; apply (Hdisj p Hpl); set_solver).
  apply list_elem_of_split in Hpl as (k1 & k2 & ->). rewrite <- app_assoc in Heq. simpl in Heq.
  assert (x ∈ k1) as Hxk by (by apply (heavies_ancestors p k1 (k2 ++ x :: y :: l2))).
  apply (Hdisj x); set_solver.
Qed.

Lemma heavies_branch : branch_from_root heavies.
Proof.
  assert (∀ l l1 x, heavies = l1 ++ x :: l → branch x l) as Hb.
  { induction l as [|y l IH]; intros l1 x Heq; simpl; [done|]. split; [by eapply heavies_step|].
    apply (IH (l1 ++ [x])). by rewrite <- app_assoc. }
  pose proof Hb as Hb'. pose proof heavies_prefix as Hpre. pose proof elem_of_heavies as Hel.
  destruct heavies as [|x l]; [done|]. simpl. split; [|by apply (Hb' l [])].
  apply parents_root.
  - apply (ki_blocks _ _ _ _ Hkahn), heavy_sorted, Hel. set_solver.
  - apply eq_None_not_Some. intros [p Hp]. apply (Hpre [] x l p eq_refl), not_elem_of_nil in Hp. done.
Qed.
End Stack.
End Votes.

(** ** Theorems *)

Section Theorems.
Context `{F : SnowFactory} `{!MapRange ID} {Error : Type}.
Implicit Types (ts : Topological) (voteBag : Bag ID).

(** The votes of a poll for a block and its descendants, and for the descendants
    alone. *)
Definition block_votes ts voteBag (x : ID) : Z := total ts voteBag (List voteBag) x.
Definition votes_below ts voteBag (x : ID) : Z := below ts voteBag (List voteBag) x.

Lemma kahn_inv_perm ts voteBag seen seen' cur kahn leaves :
  (∀ c, c ∈ seen ↔ c ∈ seen') → kahn_inv ts voteBag seen cur kahn leaves →
  kahn_inv ts voteBag seen' cur kahn leaves.
Proof.
  intros Hs Hi. split; try apply Hi.
  - intros x k c Hk. rewrite (ki_votes _ _ _ _ _ _ Hi x k c Hk). repeat case_decide; naive_solver.
  - intros c x Hc. apply (ki_seen _ _ _ _ _ _ Hi). by apply Hs.
Qed.

Lemma push_loop_kahn ts kahn leaves fuel kahn' leaves' stack :
  push_loop (Error := Error) (set_kahn ts kahn leaves) fuel kahn' leaves' stack =
    push_loop ts fuel kahn' leaves' stack.
Proof.
  revert kahn' leaves' stack. induction fuel as [|fuel IH]; intros kahn' leaves' stack; [done|].
  cbn [push_loop]. destruct (Pop leaves') as [[x l]|]; [|done]. simpl.
  destruct (ts_blocks ts !! x) as [n|]; [|done]. change (Decided (set_kahn ts kahn leaves) n) with (Decided ts n).
  destruct (Decided ts n); [apply IH|]. destruct (sm_blk n); [apply IH|done].
Qed.

Lemma List_Count voteBag c : 0 < Count voteBag c → c ∈ List voteBag.
Proof.
  unfold Count, List. intros Hc. destruct (counts voteBag !! c) as [n|] eqn:Hn; [|simpl in Hc; lia].
  apply list_elem_of_fmap. exists (c, n). split; [done|]. by apply elem_of_map_range.
Qed.

(** The stack that [RecordPoll] builds, as its users need it. *)
Record vote_stack ts voteBag (stack : list votes) : Prop := {
  vs_branch : branch_from_root ts (reverse (map vt_parentID stack));
  vs_heavy x : x ∈ map vt_parentID stack ↔ AlphaPreference (ts_params ts) ≤ votes_below ts voteBag x;
  vs_bags vt : vt ∈ stack → bag_ok (vt_votes vt) ∧
    ∀ c, Count (vt_votes vt) c =
      if decide (parents ts !! c = Some (vt_parentID vt)) then block_votes ts voteBag c else 0;
}.

Lemma poll_votes_spec ts voteBag :
  tree_ok ts → bag_ok voteBag → 0 < AlphaPreference (ts_params ts) →
  Len voteBag < 2 * AlphaPreference (ts_params ts) →
  ∃ kahn leaves stack, poll_votes (Error := Error) voteBag ts = (set_kahn ts kahn leaves, Ok stack) ∧
    vote_stack ts voteBag stack.
Proof.
  intros Hok Hb Ha Hm. unfold poll_votes. mrun.
  destruct (Z.leb_spec (AlphaPreference (ts_params ts)) (Len voteBag)) as [Hle|Hlt]; last first.
  { exists (ts_kahnNodes ts), (ts_leaves ts), []. split; [by destruct ts|]. split; [done| |by intros ? ?%not_elem_of_nil].
    intros x. simpl. split; [by intros ?%not_elem_of_nil|]. intros Hx. exfalso.
    assert (total ts voteBag (List voteBag) x ≤ sum_over (Count voteBag) (List voteBag)) as Ht.
    { apply transitive_total. intros. by apply own_nonneg. }
    rewrite <- Len_sum_over in Ht by auto using List_NoDup, List_Count.
    rewrite total_below in Ht by auto using List_NoDup, List_Count.
    pose proof (own_nonneg voteBag Hb x). unfold votes_below in Hx. lia. }
  unfold calculateInDegree, pushVotes. mrun.
  destruct (add_votes_spec (Error := Error) ts Hok voteBag Hb (List voteBag) (List_NoDup _)) as (kahn & leaves & Hadd & Hi).
  rewrite Hadd. cbv beta iota.
  apply (kahn_inv_perm _ _ _ (List voteBag)) in Hi; [|intros; apply elem_of_reverse].
  rewrite push_loop_kahn. cbn [ts_kahnNodes ts_leaves set_kahn fst snd].
  destruct (push_start ts Hok voteBag Hb kahn leaves (List voteBag) Hi (List_NoDup _) (List_Count _)) as [Ho Hs].
  destruct (push_loop_spec (Error := Error) ts Hok voteBag Hb kahn leaves (List voteBag) Hi (List_NoDup _) (List_Count _)
    (S (base.size kahn)) [] kahn leaves [] Ho Hs) as (kahn' & stack & order & Hpush & Horder & Hcomplete).
  { simpl. rewrite <- size_dom. unfold base.size, set_size. simpl. lia. }
  rewrite Hpush. cbv beta iota. exists kahn', ∅, stack. split; [done|].
  assert (map vt_parentID stack = reverse (heavies ts voteBag (List voteBag) order)) as Hst by apply Horder.
  assert (0 < AlphaPreference (ts_params ts) ∧ Len voteBag < 2 * AlphaPreference (ts_params ts)) as Hmaj by done.
  split.
  - rewrite Hst, reverse_involutive. by eapply heavies_branch; auto using List_NoDup, List_Count.
  - intros x. rewrite Hst, elem_of_reverse. by eapply elem_of_heavies; auto using List_NoDup, List_Count.
  - intros vt Hvt. apply (po_bags _ _ _ _ _ _ Horder vt Hvt).
Qed.

(** C11: vote propagation is correct: for a poll that cannot have two majorities,
    the topological sort of [RecordPoll] neither fails nor runs out of fuel, and
    whatever order the maps are iterated in, its stack is the branch, from the
    last accepted block down, of exactly the blocks whose children got at least
    [AlphaPreference] transitive votes, each with the exact number of votes for
    every child and the child's descendants. *)
Theorem vote_propagation ts voteBag :
  tree_ok ts → bag_ok voteBag → 0 < AlphaPreference (ts_params ts) →
  Len voteBag < 2 * AlphaPreference (ts_params ts) →
  ∃ kahn leaves stack, poll_votes (Error := Error) voteBag ts = (set_kahn ts kahn leaves, Ok stack) ∧
    branch_from_root ts (reverse (map vt_parentID stack)) ∧
    (∀ x, x ∈ map vt_parentID stack ↔ AlphaPreference (ts_params ts) ≤ votes_below ts voteBag x) ∧
    (∀ vt, vt ∈ stack → ∀ c, Count (vt_votes vt) c =
      if decide (parents ts !! c = Some (vt_parentID vt)) then block_votes ts voteBag c else 0).
Proof.
  intros Hok Hb Ha Hm. destruct (poll_votes_spec ts voteBag Hok Hb Ha Hm) as (kahn & leaves & stack & Hp & [H1 H2 H3]).
  exists kahn, leaves, stack. split_and!; [done..|]. intros vt Hvt. by apply H3.
Qed.

(** ** Checking a tree of blocks *)

Definition block_okb ts (id : ID) (n : snowmanBlock) : bool :=
  bool_decide (id = ts_lastAcceptedID ts) ||
  match sm_blk n with
  | Some blk =>
      bool_decide (blk_ID blk = id) && (ts_lastAcceptedHeight ts <? blk_Height blk) &&
      bool_decide (is_Some (ts_blocks ts !! blk_Parent blk)) && (blk_Height blk =? height_of ts (blk_Parent blk) + 1)
  | None => false
  end.

Definition tree_okb ts : bool :=
  match ts_blocks ts !! ts_lastAcceptedID ts with Some n => Decided ts n | None => false end &&
  forallb (λ '(id, n), block_okb ts id n) (map_to_list (ts_blocks ts)).

Lemma tree_okb_sound ts : tree_okb ts = true → tree_ok ts.
Proof.
  unfold tree_okb. intros [Hroot Hall]%andb_true_iff. split.
  - destruct (ts_blocks ts !! ts_lastAcceptedID ts) as [n|]; [by exists n|done].
  - intros id n Hn Hid. rewrite forallb_forall in Hall.
    specialize (Hall (id, n) ltac:(by apply list_elem_of_In, elem_of_map_to_list)). unfold block_okb in Hall. simpl in Hall.
    rewrite bool_decide_false in Hall by done. simpl in Hall. destruct (sm_blk n) as [blk|]; [|done]. exists blk.
    rewrite !andb_true_iff, !bool_decide_eq_true in Hall. destruct Hall as [[[? ?] ?] ?]. zbool. done.
Qed.
End Theorems.

(** ** A concrete tree

    The chain Empty, A with the two children B and C; a poll of three votes, two
    of them for B. *)
Section Demo.
#[local] Instance demo_range : MapRange ID := canonical_range ID.
#[local] Existing Instance snowflakeFactory.

Definition demo_params : Parameters :=
  mkParameters 3 None 2 2 2 1 1 4 1.

Definition demo_tree (a b c : ID) : Topological * result unit (stop unit) :=
  match Initialize (Error := unit) demo_params Empty 0 with
  | Ok ts =>
      for_each (Error := unit) [mkBlock a Empty 1; mkBlock b a 2; mkBlock c a 2] ts_Add ts
  | Err e => (mkTopological demo_params 0 Empty 0 ∅ ∅ ∅ Empty ∅ ∅ [], Err e)
  end.

Definition demo_votes (b c : ID) : Bag ID := AddCount (AddCount empty_bag b 2) c 1.

Lemma vote_propagation_witness :
  match id_of_first_byte 1, id_of_first_byte 2, id_of_first_byte 3 with
  | Some a, Some b, Some c =>
      let ts := (demo_tree a b c).1 in
      ∃ kahn leaves stack,
        poll_votes (Error := unit) (demo_votes b c) ts = (set_kahn ts kahn leaves, Ok stack) ∧
        (∀ x, x ∈ map vt_parentID stack ↔ 2 ≤ votes_below ts (demo_votes b c) x) ∧ votes_below ts (demo_votes b c) a = 3
  | _, _, _ => False
  end.
Proof.
  destruct (id_of_first_byte 1) as [a|] eqn:Ha; [|by vm_compute in Ha].
  destruct (id_of_first_byte 2) as [b|] eqn:Hb; [|by vm_compute in Hb].
  destruct (id_of_first_byte 3) as [c|] eqn:Hc; [|by vm_compute in Hc].
  vm_compute in Ha, Hb, Hc. injection Ha as <-. injection Hb as <-. injection Hc as <-.
  set (a := mkID (1 :: _) _). set (b := mkID (2 :: _) _). set (c := mkID (3 :: _) _).
  destruct (vote_propagation (Error := unit) (demo_tree a b c).1 (demo_votes b c))
    as (kahn & leaves & stack & Hrun & _ & Hstack & _).
  - apply tree_okb_sound. by vm_compute.
  - apply AddCount_ok, AddCount_ok, empty_bag_ok.
  - by vm_compute.
  - by vm_compute.
  - exists kahn, leaves, stack. split_and!; [exact Hrun|exact Hstack|by vm_compute].
Defined.
End Demo.
