(* ===== verification/SnowmanState.v ===== *)
(** * The invariant of chain consensus

    What holds of a [Topological] between calls: its blocks form a tree under the
    last accepted block, every block knows its children, the snow tree of a block
    is one that the calls on it can produce, and the recorded decisions are a
    chain of accepted blocks and the blocks that conflict with it.

    Blocks are determined by their identifiers: [U] is the block of each
    identifier, with heights that follow the parents. *)
From S2P Require Import Prelude Ids Bag Snowball SnowTree SnowTreeSafety Forest Snowman SnowmanVotes.

(** ** The universe of blocks *)

Record universe_ok (U : gmap ID Block) (genesis : ID) (genesisHeight : Z) : Prop := {
  uo_genesis : U !! genesis = None;
  uo_id x b : U !! x = Some b → blk_ID b = x;
  uo_height x b : U !! x = Some b → 0 ≤ blk_Height b;
  uo_parent x b pb : U !! x = Some b → U !! blk_Parent b = Some pb → blk_Height b = blk_Height pb + 1;
  uo_first x b : U !! x = Some b → blk_Parent b = genesis → blk_Height b = genesisHeight + 1;
}.

Section State.
Context `{F : SnowFactory} `{!MapRange ID} (p : Parameters) `{!SnowLaws F p}.
Context (Hparams : Verify p = Ok tt).
Context (U : gmap ID Block) (genesis : ID) (genesisHeight : Z) (HU : universe_ok U genesis genesisHeight).
Implicit Types (ts : Topological) (B : gmap ID snowmanBlock).

(** The height and the parent of a block. *)
Definition hU (x : ID) : Z := match U !! x with Some b => blk_Height b | None => genesisHeight end.
Definition Upar : gmap ID ID := blk_Parent <$> U.
Definition Urank (x : ID) : nat := match U !! x with Some b => S (Z.to_nat (blk_Height b)) | None => 0 end.

Lemma Upar_Some c q : Upar !! c = Some q ↔ ∃ b, U !! c = Some b ∧ blk_Parent b = q.
Proof. unfold Upar. rewrite lookup_fmap, fmap_Some. naive_solver. Qed.

Lemma Urank_lt c q : Upar !! c = Some q → (Urank q < Urank c)%nat.
Proof.
  intros (b & Hb & <-)%Upar_Some. unfold Urank. rewrite Hb. destruct (U !! blk_Parent b) as [pb|] eqn:Hp; [|lia].
  pose proof (uo_parent _ _ _ HU _ _ _ Hb Hp). pose proof (uo_height _ _ _ HU _ _ Hp). lia.
Qed.

(** ** Trees of blocks *)

(** The snow tree of a block is a product of calls that respect its contract, on
    the children of the block. *)
Definition sb_ok (n : snowmanBlock) : Prop :=
  match sm_sb n with
  | None => sm_children n = ∅
  | Some t => ∃ c0 h, contract p c0 h ∧ t = tree_exec p c0 h ∧ ∀ x, added c0 h x ↔ x ∈ dom (sm_children n)
  end.

(** The blocks [B] are a tree under [la]. *)
Record blocks_ok B (la : ID) : Prop := {
  bo_root : is_Some (B !! la);
  bo_blk x n : B !! x = Some n → x ≠ genesis → sm_blk n = U !! x ∧ is_Some (U !! x);
  bo_genesis n : B !! genesis = Some n → sm_blk n = None ∧ la = genesis;
  bo_parent x b : is_Some (B !! x) → x ≠ la → U !! x = Some b → is_Some (B !! blk_Parent b);
  bo_children x n : B !! x = Some n → ∀ c b, sm_children n !! c = Some b ↔
    is_Some (B !! c) ∧ c ≠ la ∧ U !! c = Some b ∧ blk_Parent b = x;
  bo_sb x n : B !! x = Some n → sb_ok n;
}.

(** Blocks other than the last accepted one have a parent among the blocks. *)
Lemma blocks_step B la x : blocks_ok B la → is_Some (B !! x) → x ≠ la →
  ∃ b, U !! x = Some b ∧ is_Some (B !! blk_Parent b) ∧ x ≠ genesis ∧ hU x = hU (blk_Parent b) + 1.
Proof.
  intros Hb [n Hn] Hx. assert (x ≠ genesis) as Hg.
  { intros ->. by destruct (bo_genesis _ _ Hb n Hn) as [_ ->]. }
  destruct (bo_blk _ _ Hb x n Hn Hg) as [_ [b HUx]]. pose proof (bo_parent _ _ Hb x b ltac:(by eexists) Hx HUx) as [pn Hpn].
  exists b. split_and!; [done|by eexists|done|]. unfold hU. rewrite HUx.
  destruct (decide (blk_Parent b = genesis)) as [Heq|Hne].
  - rewrite Heq, (uo_genesis _ _ _ HU). by apply (uo_first _ _ _ HU _ _ HUx).
  - destruct (bo_blk _ _ Hb _ _ Hpn Hne) as [_ [pb Hpb]]. rewrite Hpb. by apply (uo_parent _ _ _ HU _ _ _ HUx).
Qed.

#[local] Abbreviation anc := (ancestors Upar Urank).
#[local] Abbreviation anc_eq := (ancestors_eq Upar Urank Urank_lt).

(** Every block descends from the last accepted one. *)
Lemma blocks_descend B la x : blocks_ok B la → is_Some (B !! x) → la ∈ anc x.
Proof.
  intros Hb. revert x. apply (forest_ind Upar Urank Urank_lt (λ x, is_Some (B !! x) → la ∈ anc x)).
  intros x IH Hx. destruct (decide (x = la)) as [->|Hne]; [apply (ancestors_self Upar Urank Urank_lt)|].
  destruct (blocks_step B la x Hb Hx Hne) as (b & HUx & Hp & _). assert (Upar !! x = Some (blk_Parent b)) as Hup by (apply Upar_Some; eauto).
  rewrite anc_eq, Hup. apply elem_of_cons. right. by apply IH.
Qed.

Lemma blocks_height B la x : blocks_ok B la → is_Some (B !! x) → x ≠ la → hU la < hU x.
Proof.
  intros Hb. revert x. apply (forest_ind Upar Urank Urank_lt (λ x, is_Some (B !! x) → x ≠ la → hU la < hU x)).
  intros x IH Hx Hne. destruct (blocks_step B la x Hb Hx Hne) as (b & HUx & Hp & _ & Hh).
  destruct (decide (blk_Parent b = la)) as [Heq|Hpl]; [rewrite Heq in Hh; lia|].
  pose proof (IH (blk_Parent b) ltac:(apply Upar_Some; eauto) Hp Hpl). lia.
Qed.

(** The children of a block come after it. *)
Lemma blocks_child B la x n c b :
  blocks_ok B la → B !! x = Some n → sm_children n !! c = Some b →
  is_Some (B !! c) ∧ c ≠ la ∧ U !! c = Some b ∧ blk_Parent b = x ∧ hU c = hU x + 1.
Proof.
  intros Hb Hx Hc. apply (bo_children _ _ Hb x n Hx) in Hc as (Hin & Hne & HUc & Hp). split_and!; try done.
  destruct (blocks_step B la c Hb Hin Hne) as (b' & HUc' & _ & _ & Hh). assert (b' = b) as -> by congruence. by rewrite <- Hp.
Qed.

(** The preference of a snow tree is a child. *)
Lemma sb_preference n t : sb_ok n → sm_sb n = Some t → is_Some (sm_children n !! Tree_Preference t).
Proof.
  unfold sb_ok. intros Hok Hsb. rewrite Hsb in Hok. destruct Hok as (c0 & h & Hc & -> & Hch).
  apply elem_of_dom, Hch. pose proof (tree_cases p Hparams c0 h Hc) as Ht. simpl in Ht.
  destruct (Tree_Finalized (tree_exec p c0 h)); [apply (dt_known _ _ _ _ Ht)|]. destruct Ht as [lo Hl].
  apply (lt_known _ _ _ _ _ Hl). eapply Preference_choices, (lt_inv _ _ _ _ _ Hl).
Qed.

(** ** The recorded decisions *)

Definition accepted (log : list decision) : list ID :=
  omap (λ d, match d with Block_Accept x => Some x | _ => None end) log.
Definition rejected (log : list decision) : list ID :=
  omap (λ d, match d with Block_Reject x => Some x | _ => None end) log.

(** The acceptor hears of every acceptance just before the block does. *)
Definition acceptances (log : list decision) : list decision :=
  omap (λ d, match d with Block_Reject _ => None | d => Some d end) log.

(** Each block is the child of the one before it. *)
Fixpoint chain_from (x : ID) (l : list ID) : Prop :=
  match l with [] => True | y :: l => Upar !! y = Some x ∧ chain_from y l end.

Record log_ok (log : list decision) B (la : ID) (issued : list ID) : Prop := {
  lo_chain : chain_from genesis (accepted log);
  lo_last : la = default genesis (last (accepted log));
  lo_acceptor : acceptances log = concat (map (λ x, [BlockAcceptor_Accept x; Block_Accept x]) (accepted log));
  lo_rejected y : y ∈ rejected log → ∃ q, Upar !! y = Some q ∧
    (q ∈ rejected log ∨ ∃ z, z ∈ accepted log ∧ z ≠ y ∧ Upar !! z = Some q);
  lo_issued : issued ≡ₚ accepted log ++ rejected log ++ elements (dom B ∖ {[la]});
  lo_once : NoDup issued;
}.

(** ** The preferred branch *)

(** Following the preferences of the snow trees. *)
Inductive path B : ID → list ID → ID → Prop :=
| path_nil x : is_Some (B !! x) → path B x [] x
| path_cons x n t l y :
    B !! x = Some n → sm_sb n = Some t → path B (Tree_Preference t) l y → path B x (Tree_Preference t :: l) y.

(** A path that cannot be extended. *)
Definition branch_to B (x : ID) (l : list ID) (y : ID) : Prop :=
  path B x l y ∧ ∃ n, B !! y = Some n ∧ sm_sb n = None.

Record preferred_ok ts : Prop := {
  pr_branch : ∃ l, branch_to (ts_blocks ts) (ts_lastAcceptedID ts) l (ts_preference ts) ∧
    (∀ x, x ∈ ts_preferredIDs ts ↔ x ∈ l) ∧
    ∀ k x, ts_preferredHeights ts !! k = Some x ↔ x ∈ l ∧ hU x = k;
}.

(** The invariant. *)
Record chain_ok ts (issued : list ID) : Prop := {
  co_params : ts_params ts = p;
  co_height : ts_lastAcceptedHeight ts = hU (ts_lastAcceptedID ts);
  co_blocks : blocks_ok (ts_blocks ts) (ts_lastAcceptedID ts);
  co_log : log_ok (ts_calls ts) (ts_blocks ts) (ts_lastAcceptedID ts) issued;
  co_preferred : preferred_ok ts;
}.

(** ** Consequences *)

Lemma hU_Some x b : U !! x = Some b → hU x = blk_Height b.
Proof. unfold hU. by intros ->. Qed.

(** A block of the tree is the block of its identifier. *)
Lemma blocks_blk B la x n blk : blocks_ok B la → B !! x = Some n → sm_blk n = Some blk → U !! x = Some blk ∧ x ≠ genesis.
Proof.
  intros Hb Hn Hblk. destruct (decide (x = genesis)) as [->|Hg].
  - destruct (bo_genesis _ _ Hb n Hn) as [Hnone _]. congruence.
  - destruct (bo_blk _ _ Hb x n Hn Hg) as [Heq _]. split; congruence.
Qed.

Lemma root_decided ts issued n :
  chain_ok ts issued → ts_blocks ts !! ts_lastAcceptedID ts = Some n → Decided ts n = true.
Proof.
  intros Hc Hn. unfold Decided. destruct (sm_blk n) as [blk|] eqn:Hblk; [|done].
  destruct (blocks_blk _ _ _ _ _ (co_blocks _ _ Hc) Hn Hblk) as [HUx _]. rewrite (co_height _ _ Hc), (hU_Some _ _ HUx). zcases.
Qed.

Lemma height_of_hU ts issued x : chain_ok ts issued → is_Some (ts_blocks ts !! x) → height_of ts x = hU x.
Proof.
  intros Hc [n Hn]. unfold height_of. rewrite Hn. pose proof (co_height _ _ Hc) as Hh.
  destruct n as [[blk|] f sb ch].
  - destruct (blocks_blk _ _ _ _ _ (co_blocks _ _ Hc) Hn eq_refl) as [HUx _]. rewrite (hU_Some _ _ HUx).
    case_decide; [|done]. subst. rewrite Hh. by apply hU_Some.
  - destruct (decide (x = genesis)) as [->|Hg].
    + destruct (bo_genesis _ _ (co_blocks _ _ Hc) _ Hn) as [_ <-]. done.
    + destruct (bo_blk _ _ (co_blocks _ _ Hc) _ _ Hn Hg) as [Heq [b HUx]]. simpl in Heq. congruence.
Qed.

(** The invariant is what vote propagation needs. *)
Lemma chain_tree_ok ts issued : chain_ok ts issued → tree_ok ts.
Proof.
  intros Hc. pose proof (co_blocks _ _ Hc) as Hb. split.
  - destruct (bo_root _ _ Hb) as [n Hn]. exists n. split; [done|by eapply root_decided].
  - intros x n Hn Hx. destruct (blocks_step _ _ x Hb ltac:(by eexists) Hx) as (b & HUx & Hp & Hg & Hh).
    destruct (bo_blk _ _ Hb x n Hn Hg) as [Heq _]. exists b. split_and!; [congruence|by apply (uo_id _ _ _ HU)| |done|].
    + rewrite (co_height _ _ Hc), <- (hU_Some _ _ HUx). by apply (blocks_height _ _ x Hb ltac:(by eexists)).
    + rewrite (height_of_hU ts issued _ Hc Hp), <- (hU_Some _ _ HUx). done.
Qed.

(** The undecided parents, in terms of the universe. *)
Lemma chain_parents ts issued c q :
  chain_ok ts issued → parents ts !! c = Some q ↔
  is_Some (ts_blocks ts !! c) ∧ c ≠ ts_lastAcceptedID ts ∧ Upar !! c = Some q.
Proof.
  intros Hc. rewrite (parents_Some ts (chain_tree_ok ts issued Hc)). split.
  - intros (n & blk & Hn & Hne & Hblk & Hp). destruct (blocks_blk _ _ _ _ _ (co_blocks _ _ Hc) Hn Hblk) as [HUx _].
    split_and!; [by eexists|done|]. apply Upar_Some. eauto.
  - intros ([n Hn] & Hne & (b & HUx & Hp)%Upar_Some). exists n, b.
    destruct (blocks_step _ _ c (co_blocks _ _ Hc) ltac:(by eexists) Hne) as (b' & HUx' & _ & Hg & _).
    destruct (bo_blk _ _ (co_blocks _ _ Hc) c n Hn Hg) as [Heq _]. split_and!; congruence.
Qed.

(** ** Decided blocks *)

Lemma hU_step y q : Upar !! y = Some q → q = genesis ∨ is_Some (U !! q) → hU y = hU q + 1.
Proof.
  intros (b & HUy & <-)%Upar_Some Hq. rewrite (hU_Some _ _ HUy). unfold hU. destruct Hq as [Hq|[pb Hpb]].
  - rewrite Hq, (uo_genesis _ _ _ HU). by apply (uo_first _ _ _ HU _ _ HUy).
  - rewrite Hpb. by apply (uo_parent _ _ _ HU _ _ _ HUy).
Qed.

Lemma last_default {A} (x y : A) l : default x (last (y :: l)) = default y (last l).
Proof. rewrite last_cons. by destruct (last l). Qed.

(** The accepted blocks are at most as high as the last, and their parents lower. *)
Lemma chain_heights x l y :
  x = genesis ∨ is_Some (U !! x) → chain_from x l → y ∈ l →
  is_Some (U !! y) ∧ hU y ≤ hU (default x (last l)) ∧ ∃ q, Upar !! y = Some q ∧ hU y = hU q + 1.
Proof.
  clear Hparams. revert x y. induction l as [|z l IH]; intros x y Hx; simpl; [by intros _ ?%not_elem_of_nil|]. intros [Hz Hch] Hy.
  pose proof Hz as (b & HUz & _)%Upar_Some. rewrite last_default.
  assert (∀ w, w ∈ l → is_Some (U !! w) ∧ hU w ≤ hU (default z (last l)) ∧ ∃ q, Upar !! w = Some q ∧ hU w = hU q + 1) as Hl.
  { intros w Hw. apply (IH z); [right; by eexists|done|done]. }
  apply elem_of_cons in Hy as [->|Hy]; [|by apply Hl]. split_and!; [by eexists| |exists x; split; [done|by apply hU_step]].
  destruct l as [|w l]; [done|]. destruct (Hl w) as (_ & Hw & _); [set_solver|]. destruct Hch as [Hwz _].
  rewrite (hU_step w z Hwz) in Hw by (right; by eexists). lia.
Qed.

Lemma accepted_low log B la issued y q :
  log_ok log B la issued → y ∈ accepted log → Upar !! y = Some q → hU q < hU la.
Proof.
  intros Hl Hy Hq. destruct (chain_heights genesis (accepted log) y) as (_ & Hle & q' & Hq' & Hh); [by left|apply Hl|done|].
  rewrite <- (lo_last _ _ _ _ Hl) in Hle. assert (q' = q) as -> by congruence. lia.
Qed.

Lemma rejected_gone log B la issued y : log_ok log B la issued → y ∈ rejected log → B !! y = None.
Proof.
  intros Hl Hy. pose proof (lo_once _ _ _ _ Hl) as Hnd. rewrite (lo_issued _ _ _ _ Hl) in Hnd.
  apply NoDup_app in Hnd as (_ & Hacc & Hnd). apply NoDup_app in Hnd as (_ & Hrej & _).
  apply eq_None_not_Some. intros Hin. apply (Hrej y Hy), elem_of_elements, elem_of_difference.
  split; [by apply elem_of_dom|]. intros ->%elem_of_singleton.
  destruct (lo_rejected _ _ _ _ Hl la Hy) as (q & (b & HUla & _)%Upar_Some & _).
  rewrite (lo_last _ _ _ _ Hl) in Hy, HUla. destruct (last (accepted log)) as [z|] eqn:Hlast; simpl in *.
  - apply (Hacc z); [|apply elem_of_app; by left]. by apply last_Some_elem_of.
  - by rewrite (uo_genesis _ _ _ HU) in HUla.
Qed.

(** A decided block cannot be issued again: its parent is gone. *)
Lemma decided_parent_gone log B la issued y q :
  blocks_ok B la → log_ok log B la issued → y ∈ accepted log ++ rejected log → Upar !! y = Some q → B !! q = None.
Proof.
  intros Hb Hl Hy Hq. assert (∀ z, z ∈ accepted log → Upar !! z = Some q → B !! q = None) as Hacc.
  { intros z Hz Hzq. pose proof (accepted_low _ _ _ _ _ _ Hl Hz Hzq) as Hlow. apply eq_None_not_Some. intros Hin.
    destruct (decide (q = la)) as [->|Hne]; [lia|]. pose proof (blocks_height _ _ _ Hb Hin Hne). lia. }
  apply elem_of_app in Hy as [Hy|Hy]; [by apply (Hacc y)|].
  destruct (lo_rejected _ _ _ _ Hl y Hy) as (q' & Hq' & Hcase). assert (q' = q) as -> by congruence.
  destruct Hcase as [Hr|(z & Hz & _ & Hzq)]; [by eapply rejected_gone|by apply (Hacc z)].
Qed.

(** ** Paths *)

Lemma path_end B x l y : path B x l y → is_Some (B !! y).
Proof. by induction 1. Qed.

Lemma path_start B x l y : path B x l y → is_Some (B !! x).
Proof. destruct 1; [done|by eexists]. Qed.

Lemma path_app B x l1 y l2 z : path B x l1 y → path B y l2 z → path B x (l1 ++ l2) z.
Proof. induction 1 as [|x n t l y Hn Ht _ IH]; [done|]. intros Hp. simpl. eapply path_cons; eauto. Qed.

(** A change of the blocks that keeps the preferences on a path keeps the path. *)
Lemma path_keep B B' x l y :
  path B x l y → is_Some (B' !! y) →
  (∀ z n t, B !! z = Some n → sm_sb n = Some t → z ∈ x :: l →
    ∃ n' t', B' !! z = Some n' ∧ sm_sb n' = Some t' ∧ Tree_Preference t' = Tree_Preference t) →
  path B' x l y.
Proof.
  clear Hparams HU. induction 1 as [|x n t l y Hn Ht _ IH]; intros Hy Hkeep; [by constructor|].
  destruct (Hkeep x n t Hn Ht) as (n' & t' & Hn' & Ht' & Heq); [set_solver|].
  assert (path B' (Tree_Preference t) l y) as Hp.
  { apply IH; [done|]. intros z m u Hm Hu Hz. apply (Hkeep z m u Hm Hu). set_solver. }
  rewrite <- Heq in Hp |- *. by eapply path_cons.
Qed.

Lemma path_unique B x l1 y1 l2 y2 :
  branch_to B x l1 y1 → branch_to B x l2 y2 → l1 = l2 ∧ y1 = y2.
Proof.
  intros [H1 (n1 & Hn1 & Hs1)] [H2 (n2 & Hn2 & Hs2)]. revert l2 H2. induction H1 as [|x n t l y Hn Ht _ IH]; intros l2 H2.
  - inversion H2; simplify_eq; done.
  - inversion H2 as [|? n' t' l' ? Hn' Ht' Hp']; simplify_eq. destruct (IH Hn1 l' Hp') as [-> ->]. done.
Qed.

(** A strict ancestor among the blocks is lower. *)
Lemma anc_strict z x : z ∈ anc x → z ≠ x → (Urank z < Urank x)%nat.
Proof.
  rewrite anc_eq. intros [->|Hz]%elem_of_cons Hne; [done|]. destruct (Upar !! x) as [q|] eqn:Hq; [|by apply not_elem_of_nil in Hz].
  apply (ancestors_rank Upar Urank Urank_lt) in Hz. apply Urank_lt in Hq. lia.
Qed.

Lemma anc_lower B la z x :
  blocks_ok B la → is_Some (B !! z) → is_Some (B !! x) → z ∈ anc x → z ≠ x → hU z < hU x.
Proof.
  intros Hb Hz. revert x. apply (forest_ind Upar Urank Urank_lt (λ x, is_Some (B !! x) → z ∈ anc x → z ≠ x → hU z < hU x)).
  intros x IH Hx Hzx Hne. destruct (decide (x = la)) as [->|Hxla].
  - exfalso. pose proof (blocks_descend B la z Hb Hz) as Hla. apply anc_strict in Hzx; [|done]. apply anc_strict in Hla; [lia|done].
  - destruct (blocks_step B la x Hb Hx Hxla) as (b & HUx & Hp & _ & Hh). assert (Upar !! x = Some (blk_Parent b)) as Hq by (apply Upar_Some; eauto).
    rewrite anc_eq, Hq in Hzx. apply elem_of_cons in Hzx as [|Hzx]; [done|].
    destruct (decide (z = blk_Parent b)) as [->|Hzp]; [lia|]. specialize (IH _ Hq Hp Hzx Hzp). lia.
Qed.

Lemma path_step B la x n t :
  blocks_ok B la → B !! x = Some n → sm_sb n = Some t →
  let c := Tree_Preference t in is_Some (B !! c) ∧ c ≠ la ∧ Upar !! c = Some x ∧ hU c = hU x + 1.
Proof.
  intros Hb Hn Ht c. destruct (sb_preference n t (bo_sb _ _ Hb x n Hn) Ht) as [b Hc].
  destruct (blocks_child _ _ _ _ _ _ Hb Hn Hc) as (H1 & H2 & H3 & H4 & H5). split_and!; [done|done|apply Upar_Some; eauto|done].
Qed.

(** A path holds the ancestors of its end that are higher than its start. *)
Lemma path_elems B la x l y :
  blocks_ok B la → path B x l y →
  x ∈ anc y ∧ hU x ≤ hU y ∧ ∀ z, z ∈ l ↔ is_Some (B !! z) ∧ z ∈ anc y ∧ hU x < hU z.
Proof.
  intros Hb Hp. induction Hp as [x Hx|x n t l y Hn Ht Hp (IH1 & IH2 & IH3)].
  - split; [apply (ancestors_self Upar Urank Urank_lt)|]. split; [done|]. intros z. split; [by intros ?%not_elem_of_nil|].
    intros (Hz & Ha & Hlt). destruct (decide (z = x)) as [->|Hne]; [lia|]. pose proof (anc_lower _ _ _ _ Hb Hz Hx Ha Hne). lia.
  - destruct (path_step _ _ _ _ _ Hb Hn Ht) as (Hc & Hcla & Hup & Hh). set (c := Tree_Preference t) in *.
    split_and!; [by eapply (ancestors_parent Upar Urank Urank_lt c)|lia|]. intros z. rewrite elem_of_cons, IH3. split.
    + intros [->|(H1 & H2 & H3)]; split_and!; try done; lia.
    + intros (Hz & Ha & Hlt). destruct (decide (z = c)) as [->|Hne]; [by left|right]. split_and!; try done.
      destruct (ancestors_linear Upar Urank Urank_lt z c y Ha IH1) as [Hzc|Hcz].
      * pose proof (anc_lower _ _ _ _ Hb Hz Hc Hzc Hne). lia.
      * pose proof (anc_lower _ _ _ _ Hb Hc Hz Hcz ltac:(congruence)). lia.
Qed.

Lemma path_range B la x l y z :
  blocks_ok B la → path B x l y → z ∈ l → is_Some (B !! z) ∧ z ≠ la ∧ hU x < hU z ≤ hU y.
Proof.
  intros Hb Hp Hz. destruct (path_elems _ _ _ _ _ Hb Hp) as (_ & _ & Hel). pose proof (proj1 (Hel z) Hz) as (HzB & Ha & Hlt).
  pose proof (path_end _ _ _ _ Hp) as Hy. split_and!; [done| |done|].
  - intros ->. destruct (path_start _ _ _ _ Hp) as [n Hx]. destruct (decide (x = la)) as [->|Hne]; [lia|].
    pose proof (blocks_height _ _ _ Hb ltac:(by eexists) Hne). lia.
  - destruct (decide (z = y)) as [->|Hne]; [done|]. pose proof (anc_lower _ _ _ _ Hb HzB Hy Ha Hne). lia.
Qed.

(** ** [Add] *)

Lemma AddChild_sb n blk :
  sb_ok n → sb_ok (AddChild p n blk) ∧ sm_children (AddChild p n blk) = <[blk_ID blk := blk]> (sm_children n) ∧
  sm_blk (AddChild p n blk) = sm_blk n ∧
  ∀ t, sm_sb n = Some t → ∃ t', sm_sb (AddChild p n blk) = Some t' ∧ Tree_Preference t' = Tree_Preference t.
Proof.
  unfold sb_ok, AddChild. intros Hok. destruct (sm_sb n) as [t|] eqn:Hsb; simpl.
  - destruct Hok as (c0 & h & Hc & -> & Hch). split_and!; [|done|done|].
    + exists c0, (TAdd (blk_ID blk) :: h). split_and!; [done|done|]. intros x. rewrite dom_insert_L.
      unfold added in *. rewrite elem_of_cons, elem_of_union, <- Hch, elem_of_singleton. naive_solver.
    + intros t [= <-]. eexists. split; [done|]. by apply tree_Add_preference.
  - split_and!; [|by rewrite Hok|done|done]. exists (blk_ID blk), []. split_and!; [done|done|].
    intros x. unfold added. rewrite dom_insert_L. set_solver.
Qed.

Lemma Add_blocks B la blk n :
  blocks_ok B la → U !! blk_ID blk = Some blk → B !! blk_ID blk = None → B !! blk_Parent blk = Some n →
  blocks_ok (<[blk_ID blk := mkSnowmanBlock (Some blk) false None ∅]> (<[blk_Parent blk := AddChild p n blk]> B)) la.
Proof.
  intros Hb HUb Hnew Hn. set (id := blk_ID blk) in *. set (q := blk_Parent blk) in *.
  assert (q ≠ id) as Hne by congruence. assert (la ≠ id) as Hla by (destruct (bo_root _ _ Hb); congruence).
  assert (id ≠ genesis) as Hg by (intros ->; rewrite (uo_genesis _ _ _ HU) in HUb; done).
  destruct (AddChild_sb n blk (bo_sb _ _ Hb q n Hn)) as (Hsb & Hch & Hblk & _). fold id in Hch.
  set (B' := <[id := _]> _).
  assert (∀ x, is_Some (B' !! x) ↔ x = id ∨ is_Some (B !! x)) as Hdom.
  { intros x. unfold B'. rewrite <- !elem_of_dom, !dom_insert_L. apply elem_of_dom_2 in Hn. set_solver. }
  assert (∀ x m, B' !! x = Some m → (x = id ∧ m = mkSnowmanBlock (Some blk) false None ∅) ∨
    (x = q ∧ m = AddChild p n blk) ∨ (x ≠ id ∧ x ≠ q ∧ B !! x = Some m)) as Hlook.
  { intros x m. unfold B'. rewrite !lookup_insert_Some. naive_solver. }
  split.
  - apply Hdom. right. apply (bo_root _ _ Hb).
  - intros x m [[-> ->]|[[-> ->]|(_ & _ & Hm)]]%Hlook Hx; [simpl; rewrite HUb; by split| |by apply (bo_blk _ _ Hb)].
    rewrite Hblk. by apply (bo_blk _ _ Hb).
  - intros m [[? ->]|[[Hgq ->]|(_ & _ & Hm)]]%Hlook; [done| |by apply (bo_genesis _ _ Hb)].
    rewrite Hblk. apply (bo_genesis _ _ Hb). by rewrite Hgq.
  - intros x b [->|Hx]%Hdom Hxla HUx; apply Hdom; right; [|by apply (bo_parent _ _ Hb x)].
    assert (b = blk) as -> by congruence. by eexists.
  - intros x m Hm c b. rewrite Hdom.
    assert (∀ c b, c = id → U !! c = Some b → b = blk) as Hid by (intros ??; congruence).
    apply Hlook in Hm as [[-> ->]|[[-> ->]|(Hxi & Hxq & Hm)]].
    + simpl. rewrite lookup_empty. split; [done|]. intros ([->|Hc] & Hcla & HUc & Hp).
      * assert (b = blk) as -> by congruence. done.
      * exfalso. destruct (bo_parent _ _ Hb c b Hc Hcla HUc) as [m' Hm']. congruence.
    + rewrite Hch, lookup_insert_Some. rewrite (bo_children _ _ Hb q n Hn). split.
      * intros [[<- <-]|(Hc & Hin & Hcla & HUc & Hp)]; [|by split_and!; [right|..]]. by split_and!; [left|..].
      * intros (Hin & Hcla & HUc & Hp). destruct (decide (c = id)) as [->|Hcid]; [left; split; [done|]; congruence|right].
        split; [done|]. by destruct Hin.
    + rewrite (bo_children _ _ Hb x m Hm). split; [naive_solver|]. intros (Hin & Hcla & HUc & Hp). split_and!; try done.
      destruct Hin as [->|]; [|done]. exfalso. assert (b = blk) as -> by congruence. done.
  - intros x m [[_ ->]|[[_ ->]|(_ & _ & Hm)]]%Hlook; [done|done|by apply (bo_sb _ _ Hb x)].
Qed.

Lemma Add_log log B la issued blk n :
  blocks_ok B la → log_ok log B la issued → U !! blk_ID blk = Some blk → B !! blk_ID blk = None →
  is_Some (B !! blk_Parent blk) →
  log_ok log (<[blk_ID blk := mkSnowmanBlock (Some blk) false None ∅]> (<[blk_Parent blk := n]> B)) la (blk_ID blk :: issued) ∧
  blk_ID blk ∉ issued.
Proof.
  intros Hb Hl HUb Hnew Hpar. set (id := blk_ID blk) in *.
  assert (id ∉ dom B) as Hid by (by apply not_elem_of_dom).
  assert (la ≠ id) as Hla by (destruct (bo_root _ _ Hb); congruence).
  assert (id ∉ issued) as Hni.
  { rewrite (lo_issued _ _ _ _ Hl), app_assoc. intros [Hd|Hd]%elem_of_app; [|set_solver].
    rewrite (decided_parent_gone _ _ _ _ _ (blk_Parent blk) Hb Hl Hd) in Hpar; [by destruct Hpar|]. apply Upar_Some. eauto. }
  split; [|done]. destruct Hl as [H1 H2 H3 H4 H5 H6]. split; try done; [|by apply NoDup_cons].
  rewrite H5, !dom_insert_L. apply elem_of_dom in Hpar.
  assert (({[id]} ∪ ({[blk_Parent blk]} ∪ dom B)) ∖ {[la]} = {[id]} ∪ dom B ∖ {[la]}) as -> by set_solver.
  rewrite elements_union_singleton by set_solver. rewrite !app_assoc. apply Permutation_middle.
Qed.

(** An empty list of preferred blocks means that nothing is processing. *)
Lemma Add_preferred ts blk n :
  blocks_ok (ts_blocks ts) (ts_lastAcceptedID ts) → preferred_ok ts → U !! blk_ID blk = Some blk →
  ts_blocks ts !! blk_ID blk = None → ts_blocks ts !! blk_Parent blk = Some n →
  let B' := <[blk_ID blk := mkSnowmanBlock (Some blk) false None ∅]> (<[blk_Parent blk := AddChild p n blk]> (ts_blocks ts)) in
  blocks_ok B' (ts_lastAcceptedID ts) →
  preferred_ok (if decide (ts_preference ts = blk_Parent blk)
    then set_preferred (set_blocks ts B') ({[blk_ID blk]} ∪ ts_preferredIDs ts)
           (<[blk_Height blk := blk_ID blk]> (ts_preferredHeights ts)) (blk_ID blk)
    else set_blocks ts B').
Proof.
  intros Hb [(l & [Hp (m & Hm & Hs)] & Hids & Hhs)] HUb Hnew Hn B' Hb'. set (B := ts_blocks ts) in *. set (la := ts_lastAcceptedID ts) in *.
  set (id := blk_ID blk) in *. set (q := blk_Parent blk) in *. assert (q ≠ id) as Hne by congruence.
  destruct (AddChild_sb n blk (bo_sb _ _ Hb q n Hn)) as (_ & _ & _ & Hpref).
  assert (B' !! id = Some (mkSnowmanBlock (Some blk) false None ∅)) as Hid by apply lookup_insert_eq.
  assert (B' !! q = Some (AddChild p n blk)) as Hq by (unfold B'; rewrite lookup_insert_ne, lookup_insert_eq by done; done).
  assert (∀ z, z ≠ id → z ≠ q → B' !! z = B !! z) as Hother by (intros; unfold B'; by rewrite !lookup_insert_ne).
  assert (path B' la l (ts_preference ts)) as Hp'.
  { apply (path_keep B); [done| |].
    - destruct (decide (ts_preference ts = q)) as [->|Hpq]; [by eexists|]. rewrite Hother; [by eexists|congruence|done].
    - intros z mz t Hz Ht _. destruct (decide (z = q)) as [->|Hzq].
      + assert (mz = n) as -> by congruence. destruct (Hpref t Ht) as (t' & ? & ?). by exists (AddChild p n blk), t'.
      + exists mz, t. split_and!; [|done|done]. rewrite Hother; [done| |done]. congruence. }
  assert (∀ z, z ∈ l → hU z ≤ hU (ts_preference ts) ∧ z ≠ id) as Hl.
  { intros z Hz. destruct (path_range _ _ _ _ _ _ Hb Hp Hz) as (HzB & _ & _ & ?). split; [done|]. intros ->. destruct HzB; congruence. }
  case_decide as Hpq.
  - assert (hU id = hU q + 1) as Hh.
    { destruct (blocks_step B' la id Hb' ltac:(by eexists)) as (b & HUx & _ & _ & ?).
      - intros Heq. destruct (bo_root _ _ Hb) as [? Hr]. fold la in Hr. congruence.
      - assert (b = blk) as -> by congruence. done. }
    assert (∃ t, sm_sb (AddChild p n blk) = Some t ∧ Tree_Preference t = id) as (t & Ht & Htp).
    { assert (m = n) as -> by congruence. unfold AddChild. rewrite Hs. simpl. eexists. split; [done|]. done. }
    split. exists (l ++ [id]). simpl. split_and!.
    + split; [|by eexists]. eapply path_app; [done|]. rewrite Hpq, <- Htp. eapply path_cons; [done|done|]. rewrite Htp. constructor. by eexists.
    + intros x. rewrite elem_of_union, elem_of_singleton, Hids, elem_of_app, list_elem_of_singleton. tauto.
    + intros k x. rewrite lookup_insert_Some, Hhs, elem_of_app, list_elem_of_singleton.
      pose proof (hU_Some id blk HUb) as HhU. rewrite <- HhU. split.
      * intros [[<- <-]|(Hk & Hx & <-)]; auto.
      * intros [[Hx| ->] <-]; [|by left]. right. split; [|done]. destruct (Hl x Hx) as [Hle _]. rewrite Hpq in Hle. lia.
  - split. exists l. simpl. split_and!; [|done|done]. split; [done|]. exists m. split; [|done].
    rewrite Hother; [done| |done]. intros Heq. rewrite Heq in Hm. congruence.
Qed.

(** A block that is not processing, with its parent among the blocks, is new. *)
Lemma Add_fresh ts issued blk n :
  chain_ok ts issued → U !! blk_ID blk = Some blk → Processing ts (blk_ID blk) = false → ts_blocks ts !! blk_Parent blk = Some n →
  ts_blocks ts !! blk_ID blk = None.
Proof.
  intros Hc HUb Hproc Hn. pose proof (co_blocks _ _ Hc) as Hb. unfold Processing in Hproc. case_decide as Hla; last first.
  - apply bool_decide_eq_false in Hproc. by apply eq_None_not_Some.
  - exfalso. assert (hU (blk_ID blk) = hU (blk_Parent blk) + 1) as Hh.
    { apply hU_step; [apply Upar_Some; eauto|]. destruct (decide (blk_Parent blk = genesis)); [by left|right].
      by apply (bo_blk _ _ Hb _ _ Hn). }
    destruct (decide (blk_Parent blk = ts_lastAcceptedID ts)) as [Heq|Hne]; [rewrite Heq, <- Hla in Hh; lia|].
    pose proof (blocks_height _ _ _ Hb ltac:(by eexists) Hne). rewrite <- Hla in *. lia.
Qed.

Lemma ts_Add_spec {Error : Type} ts issued blk :
  chain_ok ts issued → U !! blk_ID blk = Some blk →
  ∃ ts' r, ts_Add (Error := Error) blk ts = (ts', r) ∧
    match r with
    | Ok _ => (blk_ID blk ∉ issued) ∧ chain_ok ts' (blk_ID blk :: issued)
    | Err e => ts' = ts ∧ ((e = errDuplicateAdd ∧ Processing ts (blk_ID blk) = true) ∨
                           (e = errUnknownParentBlock ∧ ts_blocks ts !! blk_Parent blk = None))
    end.
Proof.
  intros Hc HUb. pose proof (co_blocks _ _ Hc) as Hb. unfold ts_Add. mrun.
  destruct (Processing ts (blk_ID blk)) eqn:Hproc; [eexists _, _; split; [done|]; simpl; auto|].
  destruct (ts_blocks ts !! blk_Parent blk) as [n|] eqn:Hn; [|eexists _, _; split; [done|]; simpl; auto].
  pose proof (Add_fresh _ _ _ _ Hc HUb Hproc Hn) as Hnew.
  rewrite (co_params _ _ Hc).
  pose proof (Add_blocks _ _ _ _ Hb HUb Hnew Hn) as Hb'.
  pose proof (Add_preferred _ _ _ Hb (co_preferred _ _ Hc) HUb Hnew Hn Hb') as Hp'.
  destruct (Add_log _ _ _ _ _ (AddChild p n blk) Hb (co_log _ _ Hc) HUb Hnew ltac:(by eexists)) as [Hl' Hni].
  set (B' := <[blk_ID blk := _]> _) in *. simpl. case_decide as Hpq; rewrite ?decide_True, ?decide_False by done.
  - eexists _, (Ok tt). split; [done|]. split; [done|].
    split; simpl; [apply Hc|apply Hc|done|done|done].
  - eexists _, (Ok tt). split; [done|]. split; [done|].
    split; simpl; [apply Hc|apply Hc|done|done|done].
Qed.
End State.
