(* ===== verification/SnowmanDecide.v ===== *)
(** * Accepting and rejecting blocks

    [acceptPreferredChild] and [rejectTransitively] of
    [snow/consensus/snowman/topological.go]: accepting a child of the last
    accepted block rejects exactly the blocks that do not descend from it, each
    once, and leaves a tree under the accepted block. *)
From S2P Require Import Prelude Ids Bag Snowball SnowTree SnowTreeSafety Forest Snowman SnowmanVotes SnowmanState.

Section Decide.
Context `{F : SnowFactory} `{!MapRange ID} (p : Parameters) `{!SnowLaws F p}.
Context (Hparams : Verify p = Ok tt).
Context (U : gmap ID Block) (genesis : ID) (genesisHeight : Z) (HU : universe_ok U genesis genesisHeight).
Context {Error : Type} (calls : list decision → decision → option Error) (Hcalls : ∀ log d, calls log d = None).
Implicit Types (ts : Topological) (B : gmap ID snowmanBlock).

#[local] Abbreviation blocks_ok := (blocks_ok p U genesis).
#[local] Abbreviation Upar := (Upar U).
#[local] Abbreviation hU := (hU U genesisHeight).

(** Blocks that are not in a list. *)
Definition without (R : list ID) B : gmap ID snowmanBlock := filter (λ kv, kv.1 ∉ R) B.

Lemma without_Some R B x n : without R B !! x = Some n ↔ B !! x = Some n ∧ x ∉ R.
Proof. unfold without. by rewrite map_lookup_filter_Some. Qed.

Lemma without_is_Some R B x : is_Some (without R B !! x) ↔ is_Some (B !! x) ∧ x ∉ R.
Proof. unfold is_Some. setoid_rewrite without_Some. naive_solver. Qed.

Lemma without_cons x R B : without (x :: R) B = delete x (without R B).
Proof.
  apply map_eq. intros y. apply option_eq. intros n. rewrite lookup_delete_Some, !without_Some, elem_of_cons.
  naive_solver.
Qed.

Lemma without_nil B : without [] B = B.
Proof. apply map_eq. intros y. apply option_eq. intros n. rewrite without_Some. set_solver. Qed.

Lemma without_perm R R' B : R ≡ₚ R' → without R B = without R' B.
Proof. intros HR. apply map_eq. intros y. apply option_eq. intros n. rewrite !without_Some. by rewrite HR. Qed.

Lemma for_each_reject {A} (xs : list (ID * A)) ts :
  for_each xs (λ '(c, _), call calls (Block_Reject c)) ts =
    (set_calls ts (ts_calls ts ++ map Block_Reject xs.*1), Ok tt).
Proof.
  revert ts. induction xs as [|[c v] xs IH]; intros ts; simpl; mrun; [rewrite app_nil_r; by destruct ts|].
  rewrite Hcalls. rewrite IH. simpl. by rewrite <- app_assoc.
Qed.

(** ** [rejectTransitively] *)

(** The blocks that are rejected when the child [c] of [a] is accepted: those on
    the stack [S] and those already removed [R]. *)
Record reject_inv B (a c : ID) (S R : list ID) : Prop := {
  ri_nodup : NoDup (S ++ R);
  ri_iff y : y ∈ S ++ R ↔ is_Some (B !! y) ∧ y ≠ a ∧ ∃ q, Upar !! y = Some q ∧ (q ∈ R ∨ (q = a ∧ y ≠ c));
}.

Lemma reject_step B a c x S R n :
  blocks_ok B a → reject_inv B a c (x :: S) R → B !! x = Some n →
  reject_inv B a c (reverse (map_range (sm_children n)).*1 ++ S) (x :: R).
Proof.
  clear Hparams Hcalls calls HU. intros Hb [Hnd Hiff] Hn. apply NoDup_cons in Hnd as [Hx Hnd].
  assert (x ≠ a) as Hxa by (apply (Hiff x); set_solver).
  assert (∀ y, y ∈ (map_range (sm_children n)).*1 ↔ is_Some (B !! y) ∧ y ≠ a ∧ Upar !! y = Some x) as Hch.
  { intros y. rewrite list_elem_of_fmap. split.
    - intros ([y' b] & -> & Hin%elem_of_map_range). apply (bo_children _ _ _ _ _ Hb x n Hn) in Hin as (H1 & H2 & H3 & H4).
      split_and!; [done|done|]. apply Upar_Some. eauto.
    - intros (H1 & H2 & (b & H3 & H4)%Upar_Some). exists (y, b). split; [done|]. apply elem_of_map_range.
      apply (bo_children _ _ _ _ _ Hb x n Hn). done. }
  split.
  - rewrite <- app_assoc. apply NoDup_app. split_and!.
    + rewrite reverse_Permutation. apply NoDup_map_range_keys.
    + intros y Hy. rewrite elem_of_reverse in Hy. apply Hch in Hy as (H1 & H2 & H3). intros Hin.
      assert (y ∈ (x :: S) ++ R) as Hin' by (revert Hin; rewrite !elem_of_app, !elem_of_cons; naive_solver).
      apply Hiff in Hin' as (_ & _ & q & Hq & Hc). assert (q = x) as -> by congruence. destruct Hc as [?|[? _]]; [|done]. set_solver.
    + rewrite <- Permutation_middle. by apply NoDup_cons.
  - intros y. rewrite elem_of_app, elem_of_app, elem_of_reverse, Hch, elem_of_cons.
    specialize (Hiff y). rewrite elem_of_app, elem_of_cons in Hiff. split.
    + intros [[(H1 & H2 & H3)|HS]|[->|HR]].
      * split_and!; [done|done|]. exists x. split; [done|]. left. set_solver.
      * destruct (proj1 Hiff ltac:(tauto)) as (H1 & H2 & q & Hq & Hc). split_and!; [done|done|]. exists q. split; [done|]. set_solver.
      * destruct (proj1 Hiff ltac:(tauto)) as (H1 & H2 & q & Hq & Hc). split_and!; [done|done|]. exists q. split; [done|]. set_solver.
      * destruct (proj1 Hiff ltac:(tauto)) as (H1 & H2 & q & Hq & Hc). split_and!; [done|done|]. exists q. split; [done|]. set_solver.
    + intros (H1 & H2 & q & Hq & Hc). rewrite elem_of_cons in Hc. destruct Hc as [[->|HR]|Hc].
      * left. left. done.
      * destruct (proj2 Hiff) as [[->|]|]; [|by right; left|by left; right|by right; right]. split_and!; [done|done|]. exists q. auto.
      * destruct (proj2 Hiff) as [[->|]|]; [|by right; left|by left; right|by right; right]. split_and!; [done|done|]. exists q. auto.
Qed.

Lemma reject_length B a c S R : reject_inv B a c S R → (length S + length R ≤ base.size B)%nat.
Proof.
  clear Hparams Hcalls calls HU. intros Hi. rewrite <- length_app, <- size_dom, <- (size_list_to_set (C := gset ID)) by apply Hi.
  apply subseteq_size. intros x. rewrite elem_of_list_to_set. intros [? _]%(ri_iff _ _ _ _ _ Hi). by apply elem_of_dom.
Qed.

(** The loop removes what is rejected and announces it once. *)
Lemma rejectTransitively_spec fuel B a c S R ts :
  blocks_ok B a → reject_inv B a c S R → ts_blocks ts = without R B → (base.size B - length R < fuel)%nat →
  ∃ R' rl, rejectTransitively calls fuel S ts =
      (set_calls (set_blocks ts (without R' B)) (ts_calls ts ++ map Block_Reject rl), Ok tt) ∧
    reject_inv B a c [] R' ∧ R' ≡ₚ rl ++ S ++ R.
Proof.
  intros Hb. revert S R ts. induction fuel as [|fuel IH]; intros S R ts Hi HB Hf; [lia|]. cbn [rejectTransitively].
  destruct S as [|x S].
  { exists R, []. split_and!; [|done|done]. mrun. f_equal. rewrite app_nil_r, <- HB. by destruct ts. }
  mrun. assert (x ∈ (x :: S) ++ R) as Hx by set_solver. apply (ri_iff _ _ _ _ _ Hi) in Hx as ([n Hn] & _).
  pose proof (ri_nodup _ _ _ _ _ Hi) as Hnd. simpl in Hnd. apply NoDup_cons in Hnd as [HxSR _].
  assert (ts_blocks ts !! x = Some n) as Hlook by (rewrite HB; apply without_Some; split; [done|set_solver]).
  rewrite Hlook. cbv beta iota. rewrite for_each_reject. cbv beta iota.
  pose proof (reject_step _ _ _ _ _ _ _ Hb Hi Hn) as Hi'. pose proof (reject_length _ _ _ _ _ Hi) as Hlen. simpl in Hlen.
  destruct (IH _ (x :: R) (set_calls (set_blocks ts (delete x (ts_blocks ts)))
      (ts_calls (set_blocks ts (delete x (ts_blocks ts))) ++ map Block_Reject (map_range (sm_children n)).*1)) Hi')
    as (R' & rl & Hrun & Hdone & HR').
  { simpl. by rewrite HB, without_cons. } { simpl. lia. }
  exists R', ((map_range (sm_children n)).*1 ++ rl). split_and!; [|done|].
  - rewrite Hrun. simpl. by rewrite List.map_app, app_assoc.
  - rewrite HR', reverse_Permutation. rewrite <- !app_assoc, (Permutation_app_swap_app rl). f_equiv. f_equiv. simpl.
    by rewrite Permutation_middle.
Qed.

(** ** The tree after an acceptance *)

Lemma accept_blocks B a c R :
  blocks_ok B a → reject_inv B a c [] R → is_Some (B !! c) → c ≠ a → Upar !! c = Some a →
  blocks_ok (without (a :: R) B) c ∧
  ∀ x, is_Some (B !! x) → x ≠ a → x ∉ R → x ≠ c → ∃ q, Upar !! x = Some q ∧ q ≠ a ∧ (q ∉ R) ∧ is_Some (B !! q).
Proof.
  clear Hparams Hcalls calls. intros Hb Hi Hc Hca Hcp. pose proof (ri_iff _ _ _ _ _ Hi) as Hiff. simpl in Hiff.
  assert (c ∉ R) as HcR.
  { intros HcR. apply Hiff in HcR as (_ & _ & q & Hq & Hcase). assert (q = a) as -> by congruence.
    destruct Hcase as [Ha|[_ ?]]; [|done]. apply Hiff in Ha as (_ & ? & _). done. }
  assert (∀ x, is_Some (B !! x) → x ≠ a → x ∉ R → x ≠ c → ∃ q, Upar !! x = Some q ∧ q ≠ a ∧ (q ∉ R) ∧ is_Some (B !! q)) as Hkeep.
  { intros x Hx Hxa HxR Hxc. destruct (blocks_step _ _ _ _ HU _ _ x Hb Hx Hxa) as (b & HUx & Hp & _).
    assert (Upar !! x = Some (blk_Parent b)) as Hq by (apply Upar_Some; eauto). exists (blk_Parent b). split_and!; [done| | |done].
    - intros Heq. apply HxR, Hiff. split_and!; [done|done|]. eauto.
    - intros HqR. apply HxR, Hiff. split_and!; [done|done|]. eauto. }
  split; [|exact Hkeep]. split.
  - apply without_is_Some. split; [done|]. set_solver.
  - intros x n [Hn _]%without_Some Hx. by apply (bo_blk _ _ _ _ _ Hb).
  - intros n [Hn Hnot]%without_Some. destruct (bo_genesis _ _ _ _ _ Hb n Hn) as [_ Hag]. set_solver.
  - intros x b [Hx Hnot]%without_is_Some Hxc HUx. destruct (Hkeep x) as (q & (b' & HUx' & <-)%Upar_Some & Hqa & HqR & Hq); [done|set_solver..|].
    assert (b' = b) as -> by congruence. apply without_is_Some. split; [done|]. set_solver.
  - intros x n [Hn Hnot]%without_Some y b. rewrite (bo_children _ _ _ _ _ Hb x n Hn), without_is_Some. split.
    + intros (Hy & Hya & HUy & Hp). assert (Upar !! y = Some x) as Hyx by (apply Upar_Some; eauto). split_and!; [done| |set_solver|done|done].
      intros [->|HyR]%elem_of_cons; [done|]. apply Hiff in HyR as (_ & _ & q & Hq & Hcase). set_solver.
    + intros ((Hy & Hnoty) & Hyc & HUy & Hp). split_and!; [done|set_solver|done|done].
  - intros x n [Hn _]%without_Some. by apply (bo_sb _ _ _ _ _ Hb x).
Qed.

Lemma accepted_app l1 l2 : accepted (l1 ++ l2) = accepted l1 ++ accepted l2.
Proof. apply omap_app. Qed.
Lemma rejected_app l1 l2 : rejected (l1 ++ l2) = rejected l1 ++ rejected l2.
Proof. apply omap_app. Qed.
Lemma acceptances_app l1 l2 : acceptances (l1 ++ l2) = acceptances l1 ++ acceptances l2.
Proof. apply omap_app. Qed.

Lemma log_rejects rl :
  accepted (map Block_Reject rl) = [] ∧ rejected (map Block_Reject rl) = rl ∧ acceptances (map Block_Reject rl) = [].
Proof. induction rl as [|x rl (H1 & H2 & H3)]; [done|]. split_and!; simpl; [done|by rewrite H2|done]. Qed.

Lemma chain_from_snoc x l c : chain_from U x l → Upar !! c = Some (default x (last l)) → chain_from U x (l ++ [c]).
Proof.
  revert x. induction l as [|y l IH]; intros x; simpl; [done|]. intros [Hy Hl] Hc. split; [done|]. apply IH; [done|].
  by rewrite <- (last_default x).
Qed.

(** The decisions of an acceptance. *)
Definition accept_log (log : list decision) (c : ID) (rl : list ID) : list decision :=
  log ++ [BlockAcceptor_Accept c; Block_Accept c] ++ map Block_Reject rl.

Lemma accept_log_ok log B a c R rl issued :
  blocks_ok B a → log_ok U genesis log B a issued → reject_inv B a c [] R → is_Some (B !! c) → c ≠ a → Upar !! c = Some a →
  R ≡ₚ rl → log_ok U genesis (accept_log log c rl) (without (a :: R) B) c issued.
Proof.
  clear Hparams Hcalls calls. intros Hb Hl Hi Hc Hca Hcp HR. pose proof (ri_iff _ _ _ _ _ Hi) as Hiff. simpl in Hiff.
  assert (c ∉ R) as HcR.
  { intros HcR. apply Hiff in HcR as (_ & _ & q & Hq & Hcase). assert (q = a) as -> by congruence.
    destruct Hcase as [Ha|[_ ?]]; [|done]. apply Hiff in Ha as (_ & ? & _). done. }
  destruct (log_rejects rl) as (Ha & Hr & Hac). unfold accept_log.
  assert (accepted (log ++ [BlockAcceptor_Accept c; Block_Accept c] ++ map Block_Reject rl) = accepted log ++ [c]) as Hacc.
  { rewrite !accepted_app, Ha. done. }
  assert (rejected (log ++ [BlockAcceptor_Accept c; Block_Accept c] ++ map Block_Reject rl) = rejected log ++ rl) as Hrej.
  { rewrite !rejected_app, Hr. done. }
  split; rewrite ?Hacc, ?Hrej.
  - apply chain_from_snoc; [apply Hl|]. by rewrite <- (lo_last _ _ _ _ _ _ Hl).
  - by rewrite last_snoc.
  - rewrite !acceptances_app, Hac, (lo_acceptor _ _ _ _ _ _ Hl), List.map_app, List.concat_app. done.
  - intros y [Hy|Hy]%elem_of_app.
    + destruct (lo_rejected _ _ _ _ _ _ Hl y Hy) as (q & Hq & Hcase). exists q. split; [done|].
      destruct Hcase as [Hqr|(z & Hz & ? & ?)]; [left; set_solver|right; exists z; split_and!; [set_solver|done|done]].
    + rewrite <- HR in Hy. apply Hiff in Hy as (_ & _ & q & Hq & Hcase). exists q. split; [done|].
      destruct Hcase as [HqR|[-> Hyc]]; [left; rewrite <- HR; set_solver|right; exists c; split_and!; [set_solver|done|done]].
  - rewrite (lo_issued _ _ _ _ _ _ Hl). rewrite <- !app_assoc. f_equiv. simpl.
    rewrite Permutation_middle. f_equiv.
    rewrite <- HR. apply NoDup_Permutation.
    + apply NoDup_elements.
    + apply NoDup_cons. split; [rewrite elem_of_app, elem_of_elements; set_solver|].
      apply NoDup_app. split_and!; [apply (ri_nodup _ _ _ _ _ Hi)| |apply NoDup_elements].
      intros y HyR. rewrite elem_of_elements, elem_of_difference, elem_of_dom, without_is_Some. set_solver.
    + intros y. rewrite elem_of_cons, elem_of_app, !elem_of_elements, !elem_of_difference, !elem_of_singleton, !elem_of_dom, without_is_Some, elem_of_cons.
      split.
      * intros [Hy Hya]. destruct (decide (y = c)); [by left|right]. destruct (decide (y ∈ R)); [by left|right]. naive_solver.
      * intros [->|[HyR|((Hy & Hn) & Hyc)]]; [done| |split; [done|naive_solver]]. apply Hiff in HyR as (? & ? & _). done.
  - apply Hl.
Qed.

(** ** [acceptPreferredChild] *)

(** The state after the acceptance of [c]. *)
Definition accept_state ts (c : ID) (B : gmap ID snowmanBlock) (log : list decision) : Topological :=
  mkTopological (ts_params ts) (ts_pollNumber ts) c (hU c) B (ts_preferredIDs ts ∖ {[c]})
    (delete (hU c) (ts_preferredHeights ts)) (ts_preference ts) (ts_leaves ts) (ts_kahnNodes ts) log.

Lemma reject_start B a n c :
  blocks_ok B a → B !! a = Some n →
  let rejects := filter (λ '(childID, _), childID ≠ c) (map_range (sm_children n)) in
  reject_inv B a c (reverse rejects.*1) [].
Proof.
  clear Hparams Hcalls calls HU. intros Hb Hn rejects. split.
  - rewrite app_nil_r, reverse_Permutation. apply NoDup_fst_filter, NoDup_map_range_keys.
  - intros y. rewrite app_nil_r, elem_of_reverse, list_elem_of_fmap. split.
    + intros ([y' b] & -> & [Hyc Hin%elem_of_map_range]%list_elem_of_filter). simpl.
      apply (bo_children _ _ _ _ _ Hb a n Hn) in Hin as (H1 & H2 & H3 & H4). split_and!; [done|done|].
      exists a. split; [apply Upar_Some; eauto|by right].
    + intros (H1 & H2 & q & (b & H3 & H4)%Upar_Some & [Hq|[-> Hyc]]); [by apply not_elem_of_nil in Hq|].
      exists (y, b). split; [done|]. apply list_elem_of_filter. split; [done|]. apply elem_of_map_range.
      by apply (bo_children _ _ _ _ _ Hb a n Hn).
Qed.

Lemma acceptPreferredChild_spec ts n t :
  blocks_ok (ts_blocks ts) (ts_lastAcceptedID ts) → ts_blocks ts !! ts_lastAcceptedID ts = Some n → sm_sb n = Some t →
  let c := Tree_Preference t in let a := ts_lastAcceptedID ts in
  ∃ R rl, acceptPreferredChild calls n t ts =
      (accept_state ts c (without R (ts_blocks ts)) (accept_log (ts_calls ts) c rl), Ok tt) ∧
    reject_inv (ts_blocks ts) a c [] R ∧ R ≡ₚ rl ∧ is_Some (ts_blocks ts !! c) ∧ c ≠ a ∧ Upar !! c = Some a ∧ hU c = hU a + 1.
Proof.
  intros Hb Hn Ht c a. destruct (path_step _ Hparams _ _ _ HU _ _ _ _ _ Hb Hn Ht) as (Hc & Hca & Hcp & Hh).
  fold c a in Hc, Hca, Hcp, Hh. unfold acceptPreferredChild. fold c.
  destruct (sb_preference _ Hparams n t (bo_sb _ _ _ _ _ Hb _ _ Hn) Ht) as [child Hchild]. fold c in Hchild. rewrite Hchild. mrun.
  rewrite !Hcalls. cbv beta iota. rewrite for_each_reject. cbv beta iota.
  pose proof (reject_start _ _ _ c Hb Hn) as Hi. cbv zeta in Hi. set (rejects := filter _ _) in *.
  assert (blk_Height child = hU c) as Hhc.
  { apply (bo_children _ _ _ _ _ Hb _ _ Hn) in Hchild as (_ & _ & HUc & _). symmetry. by apply hU_Some. }
  match goal with |- context [rejectTransitively _ ?fuel ?st ?ts0] => set (ts1 := ts0) end.
  destruct (rejectTransitively_spec (block_fuel ts1) (ts_blocks ts) a c (reverse rejects.*1) [] ts1 Hb Hi) as (R & rl & Hrun & Hdone & HR).
  { unfold ts1. simpl. by rewrite without_nil. } { unfold ts1, block_fuel. simpl. lia. }
  rewrite Hrun. exists R, (rejects.*1 ++ rl). split_and!; try done.
  - unfold ts1, accept_state, accept_log, set_calls, set_blocks, set_preferred, set_lastAccepted. simpl. rewrite Hhc.
    rewrite List.map_app, <- !app_assoc. done.
  - rewrite HR, app_nil_r, reverse_Permutation. apply Permutation_app_comm.
Qed.
End Decide.
