(* ===== verification/SnowmanSafety.v ===== *)
(** * Polls keep the invariant of chain consensus

    [vote] and the end of [RecordPoll] of [snow/consensus/snowman/topological.go]
    preserve the invariant of [SnowmanState]; the theorems hold of every state
    that calls of [Add] and [RecordPoll] can reach. *)
From S2P Require Import Prelude Ids Bag Snowball SnowTree SnowTreeSafety Forest Snowman SnowmanVotes SnowmanState SnowmanDecide.

Section Safety.
Context `{F : SnowFactory} `{!MapRange ID} (p : Parameters) `{!SnowLaws F p}.
Context (Hparams : Verify p = Ok tt).
Context (U : gmap ID Block) (genesis : ID) (genesisHeight : Z) (HU : universe_ok U genesis genesisHeight).
Context {Error : Type} (calls : list decision → decision → option Error) (Hcalls : ∀ log d, calls log d = None).
Implicit Types (ts : Topological) (B : gmap ID snowmanBlock).

#[local] Abbreviation blocks_ok := (blocks_ok p U genesis).
#[local] Abbreviation Upar := (Upar U).
#[local] Abbreviation Urank := (Urank U).
#[local] Abbreviation hU := (hU U genesisHeight).
#[local] Abbreviation anc := (ancestors Upar Urank).
#[local] Abbreviation Urank_lt := (Urank_lt U genesis genesisHeight HU).
#[local] Abbreviation anc_eq := (ancestors_eq Upar Urank Urank_lt).
#[local] Abbreviation chain_ok := (chain_ok p U genesis genesisHeight).
#[local] Abbreviation preferred_ok := (preferred_ok U genesisHeight).
#[local] Abbreviation log_ok := (log_ok U genesis).

(** ** Updates of the blocks *)

(** What the invariant reads of a block: everything but the flag. *)
Definition core (n : snowmanBlock) : option Block * option Tree * gmap ID Block := (sm_blk n, sm_sb n, sm_children n).

Lemma core_lookup B B' x n : core <$> B' = core <$> B → B' !! x = Some n → ∃ n', B !! x = Some n' ∧ core n' = core n.
Proof.
  intros Heq Hn. apply (f_equal (lookup x)) in Heq. rewrite !lookup_fmap, Hn in Heq. simpl in Heq.
  symmetry in Heq. apply fmap_Some in Heq as (n' & Hn' & Hc). eauto.
Qed.

Lemma core_is_Some B B' x : core <$> B' = core <$> B → is_Some (B' !! x) ↔ is_Some (B !! x).
Proof. intros Heq. rewrite <- !(fmap_is_Some core), <- !lookup_fmap, Heq. done. Qed.

Lemma blocks_ok_core B B' la : core <$> B' = core <$> B → blocks_ok B la → blocks_ok B' la.
Proof.
  intros Heq Hb. pose proof (λ x, core_is_Some B B' x Heq) as Hd. split.
  - apply Hd, (bo_root _ _ _ _ _ Hb).
  - intros x n (n' & Hn' & [= <- _ _])%(core_lookup _ _ _ _ Heq). by apply (bo_blk _ _ _ _ _ Hb).
  - intros n (n' & Hn' & [= <- _ _])%(core_lookup _ _ _ _ Heq). by apply (bo_genesis _ _ _ _ _ Hb).
  - intros x b Hx Hxla HUx. apply Hd. apply (bo_parent _ _ _ _ _ Hb x); [by apply Hd|done|done].
  - intros x n (n' & Hn' & [= _ _ <-])%(core_lookup _ _ _ _ Heq) c b. rewrite Hd. by apply (bo_children _ _ _ _ _ Hb).
  - intros x n (n' & Hn' & [= _ Hs Hc])%(core_lookup _ _ _ _ Heq). pose proof (bo_sb _ _ _ _ _ Hb x n' Hn') as Hok.
    unfold sb_ok in *. by rewrite <- Hs, <- Hc.
Qed.

Lemma falter_core f nextID (children : gmap ID Block) B : core <$> falter_children f nextID children B = core <$> B.
Proof.
  unfold falter_children. generalize (map_range children). intros l. revert B.
  induction l as [|[c b] l IH]; intros B; simpl; [done|]. rewrite IH. destruct (negb f && bool_decide (c = nextID)); [done|].
  apply map_eq. intros x. rewrite !lookup_fmap. destruct (decide (x = c)) as [->|Hne].
  - rewrite lookup_alter_eq. by destruct (B !! c).
  - by rewrite lookup_alter_ne.
Qed.

(** A new snow tree for a block. *)
Lemma blocks_ok_update B la x n n' :
  blocks_ok B la → B !! x = Some n → sm_blk n' = sm_blk n → sm_children n' = sm_children n → sb_ok p n' →
  blocks_ok (<[x := n']> B) la.
Proof.
  intros Hb Hn Hblk Hch Hsb. assert (∀ y, is_Some (<[x := n']> B !! y) ↔ is_Some (B !! y)) as Hd.
  { intros y. rewrite <- !elem_of_dom, dom_insert_L. apply elem_of_dom_2 in Hn. set_solver. }
  split.
  - apply Hd, (bo_root _ _ _ _ _ Hb).
  - intros y m [[<- <-]|[_ Hm]]%lookup_insert_Some Hy; [rewrite Hblk|]; by apply (bo_blk _ _ _ _ _ Hb).
  - intros m [[Hx <-]|[_ Hm]]%lookup_insert_Some; [rewrite Hblk; apply (bo_genesis _ _ _ _ _ Hb); by rewrite <- Hx|by apply (bo_genesis _ _ _ _ _ Hb)].
  - intros y b Hy Hyla HUy. apply Hd. apply (bo_parent _ _ _ _ _ Hb y); [by apply Hd|done|done].
  - intros y m Hm c b. rewrite Hd. apply lookup_insert_Some in Hm as [[<- <-]|[_ Hm]]; [rewrite Hch|]; by apply (bo_children _ _ _ _ _ Hb).
  - intros y m [[<- <-]|[_ Hm]]%lookup_insert_Some; [done|by apply (bo_sb _ _ _ _ _ Hb y)].
Qed.

Lemma log_ok_dom log B B' la issued : dom B' = dom B → log_ok log B la issued → log_ok log B' la issued.
Proof. intros Hd [H1 H2 H3 H4 H5 H6]. split; try done. by rewrite Hd. Qed.

Lemma core_dom B B' : core <$> B' = core <$> B → dom B' = dom B.
Proof. intros Heq. apply (f_equal dom) in Heq. by rewrite !dom_fmap_L in Heq. Qed.

(** ** Paths under updates *)

Lemma path_core B B' x l y : core <$> B' = core <$> B → path B x l y → path B' x l y.
Proof.
  intros Heq Hp. apply (path_keep B B'); [done|apply (core_is_Some B B' y Heq); by apply path_end in Hp|].
  intros z n t Hn Ht _. symmetry in Heq. destruct (core_lookup _ _ _ _ Heq Hn) as (n' & Hn' & [= _ Hs _]).
  exists n', t. split_and!; [done|congruence|done].
Qed.

(** The snow tree at the end of a path does not matter. *)
Lemma path_update B la l x n n' :
  blocks_ok B la → B !! x = Some n → path B la l x → path (<[x := n']> B) la l x.
Proof.
  intros Hb Hn Hp.
  assert (∀ z l, path B z l x → path (<[x := n']> B) z l x) as Hgen; [|by apply Hgen].
  clear l Hp. intros z l Hp. induction Hp as [|z m t l y Hm Ht Hp IH].
  - constructor. rewrite lookup_insert_eq. by eexists.
  - destruct (path_step _ Hparams _ _ _ HU _ _ _ _ _ Hb Hm Ht) as (_ & _ & _ & Hh).
    destruct (path_elems _ Hparams _ _ _ HU _ _ _ _ _ Hb Hp) as (_ & Hle & _).
    eapply path_cons; [|exact Ht|by apply IH]. rewrite lookup_insert_ne; [done|]. intros ->. lia.
Qed.

(** Nor does one off the path. *)
Lemma path_update_off B la l np x n' :
  blocks_ok B la → is_Some (B !! x) → path B la l np → x ∉ anc np → path (<[x := n']> B) la l np.
Proof.
  intros Hb Hx Hp Hoff. destruct (path_elems _ Hparams _ _ _ HU _ _ _ _ _ Hb Hp) as (Hla & _ & Hel).
  apply (path_keep B); [done| |].
  - destruct (path_end _ _ _ _ Hp) as [n Hn]. destruct (decide (x = np)) as [->|Hne].
    + by rewrite lookup_insert_eq.
    + by rewrite lookup_insert_ne.
  - intros z n t Hn Ht Hz. exists n, t. split_and!; [|done|done]. rewrite lookup_insert_ne; [done|]. intros ->. apply Hoff.
    apply elem_of_cons in Hz as [->|Hz]; [done|by apply Hel].
Qed.

(** ** The loop of [vote] *)

Section Poll.
Context (ts0 : Topological) (issued : list ID).

(** The state while the votes are applied to the blocks [X]: the accepted blocks
    [A] are new, the other snow trees are as before, and [np] ends a path of
    preferences that no block of [X] is below. *)
Record mid_inv (A X : list ID) (np : ID) ts : Prop := {
  mi_params : ts_params ts = p;
  mi_height : ts_lastAcceptedHeight ts = hU (ts_lastAcceptedID ts);
  mi_blocks : blocks_ok (ts_blocks ts) (ts_lastAcceptedID ts);
  mi_log : log_ok (ts_calls ts) (ts_blocks ts) (ts_lastAcceptedID ts) issued;
  mi_accepted : accepted (ts_calls ts) = accepted (ts_calls ts0) ++ A;
  mi_frame x n : ts_blocks ts !! x = Some n → ∃ n0, ts_blocks ts0 !! x = Some n0 ∧
    sm_children n = sm_children n0 ∧ (x ∉ X → sm_sb n = sm_sb n0);
  mi_preference : ts_preference ts = ts_preference ts0;
  mi_ids x : x ∈ ts_preferredIDs ts ↔ x ∈ ts_preferredIDs ts0 ∧ x ∉ A;
  mi_heights k x : ts_preferredHeights ts !! k = Some x ↔
    ts_preferredHeights ts0 !! k = Some x ∧ ∀ z, z ∈ A → hU z ≠ k;
  mi_path : ∃ l, path (ts_blocks ts) (ts_lastAcceptedID ts) l np;
  mi_below x : x ∈ X → np ∉ anc x;
}.

(** The votes to apply: each for the children of its block, at most [K]. *)
Definition vote_ok (v : votes) : Prop :=
  bag_ok (vt_votes v) ∧ Len (vt_votes v) ≤ K p ∧ (∃ c, 0 < Count (vt_votes v) c) ∧
  ∀ n0, ts_blocks ts0 !! vt_parentID v = Some n0 → ∀ c, 0 < Count (vt_votes v) c → c ∈ dom (sm_children n0).

(** Each block of the stack is the parent of the next. *)
Fixpoint descends (x : ID) (vs : list votes) : Prop :=
  match vs with [] => True | v :: vs => Upar !! vt_parentID v = Some x ∧ descends (vt_parentID v) vs end.

(** The position of the stack: it starts with [np], or is on another branch. *)
Definition position (np : ID) (on : bool) (vs : list votes) : Prop :=
  match vs with
  | [] => True
  | v :: vs' =>
      descends (vt_parentID v) vs' ∧
      if on then vt_parentID v = np else ∀ v, v ∈ vs → (np ∉ anc (vt_parentID v)) ∧ (vt_parentID v ∉ anc np)
  end.

(** Applying votes to a block keeps its snow tree a product of legal calls. *)
Lemma vote_sb n n0 t v falter :
  sb_ok p n → sm_sb n = Some t → sm_children n = sm_children n0 → ts_blocks ts0 !! vt_parentID v = Some n0 → vote_ok v →
  let t' := (Tree_RecordPoll (if falter : bool then Tree_RecordUnsuccessfulPoll t else t) (vt_votes v)).1 in
  sb_ok p (mkSnowmanBlock (sm_blk n) false (Some t') (sm_children n)).
Proof.
  intros Hok Ht Hch Hn0 (Hbag & HK & _ & Hin) t'. unfold sb_ok in Hok |- *. rewrite Ht in Hok. simpl.
  destruct Hok as (c0 & h & Hc & -> & Hadd).
  exists c0, (TPoll (vt_votes v) :: (if falter then TUnsuccessful :: h else h)).
  assert (∀ x, added c0 (if falter then TUnsuccessful :: h else h) x ↔ added c0 h x) as Hf.
  { intros x. destruct falter; [|done]. unfold added. rewrite elem_of_cons. naive_solver. }
  split_and!.
  - simpl. split_and!; [by destruct falter|done|done|]. intros x Hx. rewrite Hf, Hadd, Hch. by apply (Hin n0).
  - unfold t'. by destruct falter.
  - intros x. rewrite <- Hadd, <- Hf. unfold added. rewrite elem_of_cons. naive_solver.
Qed.

Lemma descends_anc x vs v : descends x vs → v ∈ vs → x ∈ anc (vt_parentID v) ∧ x ≠ vt_parentID v.
Proof.
  revert x. induction vs as [|w vs IH]; intros x; simpl; [by intros _ ?%not_elem_of_nil|]. intros [Hw Hd] Hv.
  assert (x ∈ anc (vt_parentID w)) as Hxw.
  { rewrite anc_eq, Hw. apply elem_of_cons. right. apply (ancestors_self Upar Urank Urank_lt). }
  assert (x ∈ anc (vt_parentID v) ∧ (Urank x < Urank (vt_parentID v))%nat) as [Ha Hr].
  { apply Urank_lt in Hw. apply elem_of_cons in Hv as [->|Hv]; [done|]. destruct (IH _ Hd Hv) as [Ha Hne].
    split; [by eapply (ancestors_trans Upar Urank Urank_lt)|]. apply (anc_strict _ _ _ HU) in Ha; [lia|done]. }
  split; [done|]. intros ->. lia.
Qed.

(** Where the rest of the stack is, once the votes of its first block moved the
    path to the child [c] of that block. *)
Lemma position_next x c vs :
  Upar !! c = Some x → descends x vs →
  position c (bool_decide (match vs with v :: _ => vt_parentID v | [] => Empty end = c)) vs.
Proof.
  intros Hc Hd. destruct vs as [|v vs]; [done|]. simpl in Hd. destruct Hd as [Hv Hd]. split; [done|].
  case_bool_decide as Heq; [done|]. intros w Hw.
  assert (vt_parentID v ∈ anc (vt_parentID w)) as Hvw.
  { apply elem_of_cons in Hw as [->|Hw]; [apply (ancestors_self Upar Urank Urank_lt)|by apply (descends_anc _ vs)]. }
  assert (∀ y z, Upar !! y = Some x → Upar !! z = Some x → y ≠ z → y ∉ anc z) as Hsib.
  { intros y z Hy Hz Hne. rewrite anc_eq, Hz. intros [|Hin]%elem_of_cons; [done|].
    apply (ancestors_rank Upar Urank Urank_lt) in Hin. apply Urank_lt in Hy. lia. }
  split.
  - intros Hcw. destruct (ancestors_linear Upar Urank Urank_lt _ _ _ Hvw Hcw) as [H|H]; revert H; by apply Hsib.
  - intros Hwc. assert (vt_parentID v ∈ anc c) as H by (by eapply (ancestors_trans Upar Urank Urank_lt)). revert H. by apply Hsib.
Qed.

Lemma mid_inv_core A X np ts B :
  core <$> B = core <$> ts_blocks ts → mid_inv A X np ts → mid_inv A X np (set_blocks ts B).
Proof.
  intros Heq [H1 H2 H3 H4 H5 H6 H7 H8 H9 [l Hl] H11]. split; simpl; try done.
  - by apply (blocks_ok_core (ts_blocks ts)).
  - apply (log_ok_dom _ (ts_blocks ts)); [by apply core_dom|done].
  - intros x n (n' & Hn' & [= _ Hs Hc])%(core_lookup _ _ _ _ Heq). destruct (H6 x n' Hn') as (n0 & Hn0 & Hch & Hsb).
    exists n0. split_and!; [done|congruence|]. intros Hx. rewrite <- Hs. by apply Hsb.
  - exists l. by apply (path_core (ts_blocks ts)).
Qed.

(** The path after a vote for the block [x], when [x] is its end or off it. *)
Definition next_np (on : bool) (np c : ID) : ID := if on then c else np.

Lemma below_next (on : bool) np x c X :
  Upar !! c = Some x → (∀ y, y ∈ X → np ∉ anc y) → (if on then x = np else np ∉ anc x) →
  ∀ y, y ∈ x :: X → next_np on np c ∉ anc y.
Proof.
  intros Hc HX Hx y Hy. destruct on; simpl; [|apply elem_of_cons in Hy as [->|Hy]; auto]. subst x.
  apply elem_of_cons in Hy as [->|Hy].
  - intros Hin%(ancestors_rank Upar Urank Urank_lt). apply Urank_lt in Hc. lia.
  - intros Hin. apply (HX y Hy). by eapply (ancestors_parent Upar Urank Urank_lt c).
Qed.

(** A vote that decides nothing. *)
Lemma vote_keep A X np ts v (on : bool) n t' :
  mid_inv A X np ts → ts_blocks ts !! vt_parentID v = Some n →
  let n' := mkSnowmanBlock (sm_blk n) false (Some t') (sm_children n) in
  let x := vt_parentID v in
  sb_ok p n' → (if on then x = np else (np ∉ anc x) ∧ (x ∉ anc np)) →
  mid_inv A (x :: X) (next_np on np (Tree_Preference t')) (set_blocks ts (<[x := n']> (ts_blocks ts))) ∧
  Upar !! Tree_Preference t' = Some x.
Proof.
  intros [H1 H2 H3 H4 H5 H6 H7 H8 H9 [l Hl] H11] Hn n' x Hsb Hpos. set (B := ts_blocks ts) in *. set (la := ts_lastAcceptedID ts) in *.
  assert (blocks_ok (<[x := n']> B) la) as Hb' by (by apply (blocks_ok_update B la x n)).
  assert (<[x := n']> B !! x = Some n') as Hx' by apply lookup_insert_eq.
  destruct (path_step _ Hparams _ _ _ HU _ _ _ _ t' Hb' Hx' eq_refl) as (Hc & _ & Hcp & _). split; [|done].
  split; simpl; try done.
  - apply (log_ok_dom _ B); [|done]. rewrite dom_insert_lookup_L; [done|by eexists].
  - intros y m [[<- <-]|[Hne Hm]]%lookup_insert_Some.
    + destruct (H6 x n Hn) as (n0 & Hn0 & Hch & _). exists n0. split_and!; [done|done|]. set_solver.
    + destruct (H6 y m Hm) as (n0 & Hn0 & Hch & Hs). exists n0. split_and!; [done|done|]. set_solver.
  - destruct on; simpl.
    + subst np. exists (l ++ [Tree_Preference t']). eapply path_app; [by eapply path_update|]. fold x.
      eapply path_cons; [exact Hx'|done|]. by constructor.
    + exists l. apply path_update_off; [done|by eexists|done|apply Hpos].
  - apply below_next; [done|done|]. destruct on; [done|apply Hpos].
Qed.

(** A vote that decides the child of the last accepted block. *)
Lemma vote_accept A X np ts v n t' :
  mid_inv A X np ts → ts_blocks ts !! vt_parentID v = Some n → ts_lastAcceptedID ts = vt_parentID v → np = vt_parentID v →
  let n' := mkSnowmanBlock (sm_blk n) false (Some t') (sm_children n) in
  let x := vt_parentID v in let c := Tree_Preference t' in
  sb_ok p n' →
  ∃ ts', acceptPreferredChild calls n' t' (set_blocks ts (<[x := n']> (ts_blocks ts))) = (ts', Ok tt) ∧
    mid_inv (A ++ [c]) (x :: X) c (set_blocks ts' (delete x (ts_blocks ts'))) ∧ Upar !! c = Some x ∧
    (∀ y m, delete x (ts_blocks ts') !! y = Some m → <[x := n']> (ts_blocks ts) !! y = Some m) ∧
    ts_lastAcceptedID ts' = c ∧ ∀ y, y ∈ accepted (ts_calls ts') → y ∈ accepted (ts_calls ts) ∨ y = c.
Proof.
  intros Hmid Hn Hla Hnp n' x c Hsb.
  destruct (vote_keep A X np ts v true n t' Hmid Hn Hsb (eq_sym Hnp)) as [Hmid' Hcp]. fold n' x c in Hmid', Hcp. simpl in Hmid'. fold c in Hmid'.
  set (ts1 := set_blocks ts _) in *. pose proof Hmid' as [H1 H2 H3 H4 H5 H6 H7 H8 H9 H10 H11].
  assert (ts_lastAcceptedID ts1 = x) as Hla1 by done.
  assert (ts_blocks ts1 !! ts_lastAcceptedID ts1 = Some n') as Hx1 by (rewrite Hla1; apply lookup_insert_eq).
  destruct (acceptPreferredChild_spec p Hparams U genesis genesisHeight HU calls Hcalls ts1 n' t' H3 Hx1 eq_refl)
    as (R & rl & Hrun & Hrej & HR & Hc & Hca & _ & Hh). fold c in Hrun, Hrej, Hc, Hca, Hh. rewrite Hla1 in Hrej, Hca, Hh.
  rewrite Hla1 in H3, H4.
  destruct (accept_blocks p U genesis genesisHeight HU _ _ _ _ H3 Hrej Hc Hca Hcp) as [Hb2 _].
  pose proof (accept_log_ok p U genesis genesisHeight HU _ _ _ _ _ _ _ H3 H4 Hrej Hc Hca Hcp HR) as Hlog2.
  destruct (log_rejects rl) as (Hra & _).
  eexists. split; [exact Hrun|]. split; [|split_and!; [done| |done|]].
  2: { intros y m. simpl. rewrite <- without_cons. by intros [? _]%without_Some. }
  2: { intros y. simpl. unfold accept_log. rewrite !accepted_app, Hra. simpl. rewrite elem_of_app, elem_of_cons. set_solver. }
  unfold accept_state, set_blocks. simpl. rewrite <- without_cons. unfold ts1 in H5, H8, H9. simpl in H5, H8, H9.
  split; simpl; try done.
  - unfold accept_log. rewrite !accepted_app, Hra. rewrite H5, <- app_assoc. done.
  - intros y m [Hm _]%without_Some. by apply (H6 y m).
  - intros y. rewrite elem_of_difference, elem_of_singleton, H8, elem_of_app, list_elem_of_singleton. naive_solver.
  - intros k y. rewrite lookup_delete_Some, H9. setoid_rewrite elem_of_app. setoid_rewrite list_elem_of_singleton. naive_solver.
  - exists []. constructor. apply without_is_Some. split; [done|]. intros [->|HcR]%elem_of_cons; [done|].
    apply (ri_iff _ _ _ _ _ _ Hrej) in HcR as (_ & _ & q & Hq & Hcase). assert (q = x) as -> by congruence.
    destruct Hcase as [HxR|[_ ?]]; [|done]. apply (ri_iff _ _ _ _ _ _ Hrej) in HxR as (_ & ? & _). done.
Qed.

(** What one round of the loop does to the state, up to the flags: the snow tree
    of the block [x] of the vote becomes [t'], and perhaps its preference is
    accepted. *)
Record vote_round (X : list ID) ts (v : votes) (vs : list votes) (n : snowmanBlock) (t' : Tree) ts1 : Prop := {
  vr_mid : ∃ A np on, mid_inv A X np ts ∧ position np on (v :: vs);
  vr_mid' : ∃ A np, mid_inv A (vt_parentID v :: X) np ts1;
  vr_vote : vote_ok v;
  vr_block : ts_blocks ts !! vt_parentID v = Some n;
  vr_tree : ∃ t, sm_sb n = Some t ∧
    t' = (Tree_RecordPoll (if sm_shouldFalter n then Tree_RecordUnsuccessfulPoll t else t) (vt_votes v)).1;
  vr_blocks y m : ts_blocks ts1 !! y = Some m →
    <[vt_parentID v := mkSnowmanBlock (sm_blk n) false (Some t') (sm_children n)]> (ts_blocks ts) !! y = Some m;
  vr_last : ts_lastAcceptedID ts1 = ts_lastAcceptedID ts ∨
    (ts_lastAcceptedID ts = vt_parentID v ∧ Upar !! ts_lastAcceptedID ts1 = Some (vt_parentID v));
  vr_accepted y : y ∈ accepted (ts_calls ts1) →
    y ∈ accepted (ts_calls ts) ∨ (y = Tree_Preference t' ∧ Tree_Finalized t' = true);
}.

(** The loop, with any invariant [J] of its rounds. *)
Lemma vote_loop_spec (J : list votes → list ID → Topological → Prop) vs np on A X ts :
  (∀ X ts v vs n t' ts1, vote_round X ts v vs n t' ts1 → J (v :: vs) X ts →
    J vs (vt_parentID v :: X) (set_blocks ts1 (falter_children (sm_shouldFalter n)
      (match vs with w :: _ => vt_parentID w | [] => Empty end) (sm_children n) (ts_blocks ts1)))) →
  mid_inv A X np ts → position np on vs → Forall vote_ok vs → J vs X ts →
  ∃ A' X' np' ts' vs', vote_loop calls vs np on ts = (ts', Ok np') ∧ mid_inv A' X' np' ts' ∧ J vs' X' ts' ∧
    match vs' with [] => True | v :: _ => ts_blocks ts' !! vt_parentID v = None end.
Proof.
  intros HJ. revert np on A X ts. induction vs as [|v vs IH]; intros np on A X ts Hmid Hpos Hvotes Hj; cbn [vote_loop]; mrun.
  { by exists A, X, np, ts, []. }
  apply Forall_cons in Hvotes as [Hv Hvotes].
  destruct (ts_blocks ts !! vt_parentID v) as [n|] eqn:Hn; [|by exists A, X, np, ts, (v :: vs)].
  destruct (mi_frame _ _ _ _ Hmid _ _ Hn) as (n0 & Hn0 & Hch & _). pose proof (bo_sb _ _ _ _ _ (mi_blocks _ _ _ _ Hmid) _ _ Hn) as Hok.
  destruct (sm_sb n) as [t|] eqn:Ht; last first.
  { exfalso. unfold sb_ok in Hok. rewrite Ht in Hok. destruct Hv as (_ & _ & (c & Hc) & Hin).
    specialize (Hin n0 Hn0 c Hc). rewrite <- Hch, Hok in Hin. set_solver. }
  pose proof (vote_sb n n0 t v (sm_shouldFalter n) Hok Ht Hch Hn0 Hv) as Hsb. cbv zeta in Hsb.
  destruct (Tree_RecordPoll (if sm_shouldFalter n then Tree_RecordUnsuccessfulPoll t else t) (vt_votes v)) as [t' succ] eqn:Hpoll. simpl in Hsb.
  set (x := vt_parentID v) in *. set (n' := mkSnowmanBlock (sm_blk n) false (Some t') (sm_children n)) in *.
  pose proof Hpos as [Hdesc Hon].
  assert (if on then x = np else (np ∉ anc x) ∧ (x ∉ anc np)) as Hpos1 by (destruct on; [done|]; apply Hon; set_solver).
  set (next := match vs with v :: _ => vt_parentID v | [] => Empty end).
  set (c := Tree_Preference t').
  assert (∀ ts1 A1, mid_inv A1 (x :: X) (next_np on np c) ts1 → Upar !! c = Some x → vote_round X ts v vs n t' ts1 →
    ∃ A' X' np' ts' vs', vote_loop calls vs (next_np on np c) (on && bool_decide (next = c))
      (set_blocks ts1 (falter_children (sm_shouldFalter n) next (sm_children n) (ts_blocks ts1))) = (ts', Ok np') ∧
      mid_inv A' X' np' ts' ∧ J vs' X' ts' ∧ match vs' with [] => True | v :: _ => ts_blocks ts' !! vt_parentID v = None end) as Hnext.
  { intros ts1 A1 Hmid1 Hcp Hround. eapply IH; [by apply mid_inv_core, Hmid1; apply falter_core| |done|exact (HJ X ts v vs n t' ts1 Hround Hj)].
    destruct on; [by apply (position_next x)|]. simpl. destruct vs as [|w vs]; [done|]. simpl in Hdesc. destruct Hdesc as [_ Hdesc].
    split; [done|]. intros u Hu. apply Hon. set_solver. }
  assert (∃ t, sm_sb n = Some t ∧ t' = (Tree_RecordPoll (if sm_shouldFalter n then Tree_RecordUnsuccessfulPoll t else t) (vt_votes v)).1) as Htree.
  { exists t. rewrite Hpoll. done. }
  destruct (Tree_Finalized t' && bool_decide (ts_lastAcceptedID ts = x)) eqn:Hfin.
  - apply andb_true_iff in Hfin as [Hfin Hla]. apply bool_decide_eq_true in Hla.
    assert (on = true) as ->.
    { destruct on; [done|]. destruct Hpos1 as [_ Hoff]. destruct Hoff. destruct (mi_path _ _ _ _ Hmid) as [l Hl].
      destruct (path_elems _ Hparams _ _ _ HU _ _ _ _ _ (mi_blocks _ _ _ _ Hmid) Hl) as [Ha _]. by rewrite Hla in Ha. }
    destruct (vote_accept A X np ts v n t' Hmid Hn Hla (eq_sym Hpos1) Hsb) as (ts2 & Hrun & Hmid2 & Hcp & Hsub & Hla2 & Hacc).
    fold n' x in Hrun, Hsub. fold c in Hla2, Hacc. rewrite Hrun. cbv beta iota. apply (Hnext _ _ Hmid2 Hcp). split; try done.
    + eauto.
    + eauto.
    + right. simpl. by rewrite Hla2.
    + intros y Hy. apply Hacc in Hy as [|]; auto.
  - destruct (vote_keep A X np ts v on n t' Hmid Hn Hsb Hpos1) as [Hmid2 Hcp].
    apply (Hnext _ _ Hmid2 Hcp). split; try done; eauto.
Qed.

(** ** The preferred branch *)

Lemma path_split B x l1 y l2 z : path B x (l1 ++ y :: l2) z → path B x (l1 ++ [y]) y ∧ path B y l2 z.
Proof.
  revert x. induction l1 as [|w l1 IH]; intros x Hp; inversion Hp as [|? n t l ? Hn Ht Hp']; subst; simpl.
  - split; [|done]. eapply path_cons; [done|done|]. constructor. by eapply path_start.
  - destruct (IH _ Hp') as [H1 H2]. split; [|done]. by eapply path_cons.
Qed.

(** The branch below [np] is as before. *)
Lemma below_kept A X np ts z l y :
  mid_inv A X np ts → path (ts_blocks ts0) z l y → is_Some (ts_blocks ts !! z) → np ∈ anc z → path (ts_blocks ts) z l y.
Proof.
  intros Hmid Hp. induction Hp as [|z n0 t l y Hn0 Ht Hp IH]; intros [n Hn] Hz; [constructor; by eexists|].
  destruct (mi_frame _ _ _ _ Hmid _ _ Hn) as (n0' & Hn0' & Hch & Hs). assert (n0' = n0) as -> by congruence.
  assert (z ∉ X) as HzX by (intros Hin; by apply (mi_below _ _ _ _ Hmid z Hin)).
  assert (sm_sb n = Some t) as Hsn by (rewrite Hs; done).
  destruct (path_step _ Hparams _ _ _ HU _ _ _ _ _ (mi_blocks _ _ _ _ Hmid) Hn Hsn) as (Hc & _ & Hcp & _).
  eapply path_cons; [done|done|]. apply IH; [done|]. rewrite anc_eq, Hcp. apply elem_of_cons. by right.
Qed.

(** The ancestors of the last accepted block are accepted in this poll or were
    ancestors of the previous one. *)
Lemma chain_anc x l y : chain_from U x l → y ∈ anc (default x (last l)) → y ∈ l ∨ y ∈ anc x.
Proof.
  revert x. induction l as [|z l IH]; intros x; simpl; [by right|]. intros [Hz Hch]. rewrite last_default. intros Hy.
  destruct (IH z Hch Hy) as [Hl|Ha]; [left; by apply elem_of_cons; right|]. rewrite anc_eq, Hz in Ha.
  apply elem_of_cons in Ha as [->|Ha]; [left; by apply elem_of_cons; left|by right].
Qed.

Lemma chain_from_app x l1 l2 : chain_from U x (l1 ++ l2) → chain_from U (default x (last l1)) l2.
Proof. revert x. induction l1 as [|y l1 IH]; intros x; simpl; [done|]. intros [_ Hc]. rewrite last_default. by apply IH. Qed.

(** Between a block and the last accepted one, every ancestor is a block. *)
Lemma anc_between B la z x : blocks_ok B la → is_Some (B !! z) → x ∈ anc z → la ∈ anc x → is_Some (B !! x).
Proof.
  intros Hb. revert z. apply (forest_ind Upar Urank Urank_lt (λ z, is_Some (B !! z) → x ∈ anc z → la ∈ anc x → is_Some (B !! x))).
  intros z IH Hz Hx Hla. destruct (decide (x = z)) as [->|Hne]; [done|]. destruct (decide (z = la)) as [->|Hzla].
  - apply (anc_strict _ _ _ HU) in Hx; [|done]. apply (ancestors_rank Upar Urank Urank_lt) in Hla. lia.
  - destruct (blocks_step _ _ _ _ HU _ _ _ Hb Hz Hzla) as (b & HUz & Hp & _). assert (Upar !! z = Some (blk_Parent b)) as Hq by (apply Upar_Some; eauto).
    rewrite anc_eq, Hq in Hx. apply elem_of_cons in Hx as [|Hx]; [done|]. by apply (IH _ Hq).
Qed.

Context (Hchain0 : chain_ok ts0 issued).

Lemma accepted_range A X np ts z :
  mid_inv A X np ts → z ∈ A → hU z ≤ hU (ts_lastAcceptedID ts).
Proof.
  intros Hmid Hz. pose proof (mi_log _ _ _ _ Hmid) as Hl. rewrite (lo_last _ _ _ _ _ _ Hl).
  apply (chain_heights _ _ _ HU genesis); [by left|apply Hl|]. rewrite (mi_accepted _ _ _ _ Hmid). apply elem_of_app. by right.
Qed.

Lemma accepted_chain A X np ts :
  mid_inv A X np ts → chain_from U (ts_lastAcceptedID ts0) A ∧ ts_lastAcceptedID ts = default (ts_lastAcceptedID ts0) (last A).
Proof.
  intros Hmid. pose proof (mi_log _ _ _ _ Hmid) as Hl. pose proof (co_log _ _ _ _ _ _ Hchain0) as Hl0.
  rewrite (lo_last _ _ _ _ _ _ Hl0), (lo_last _ _ _ _ _ _ Hl). pose proof (lo_chain _ _ _ _ _ _ Hl) as Hc.
  rewrite (mi_accepted _ _ _ _ Hmid) in Hc |- *. split; [by apply chain_from_app in Hc|].
  rewrite last_app. by destruct (last A).
Qed.

(** A preferred block of the branch before the poll lies on the branch to [np],
    unless it was accepted. *)
Lemma above_kept A X np ts x :
  mid_inv A X np ts → is_Some (ts_blocks ts0 !! x) → x ∈ anc np → hU (ts_lastAcceptedID ts0) < hU x → x ∉ A →
  is_Some (ts_blocks ts !! x) ∧ hU (ts_lastAcceptedID ts) < hU x.
Proof.
  intros Hmid Hx Hanc Hh HxA. pose proof (mi_blocks _ _ _ _ Hmid) as Hb. destruct (mi_path _ _ _ _ Hmid) as [l Hl].
  pose proof (path_end _ _ _ _ Hl) as Hnp. destruct (path_elems _ Hparams _ _ _ HU _ _ _ _ _ Hb Hl) as (Hla & _).
  destruct (accepted_chain _ _ _ _ Hmid) as [Hch Hlast].
  assert (x ∉ anc (ts_lastAcceptedID ts)) as Hnot.
  { rewrite Hlast. intros [HA|H0]%(chain_anc _ _ _ Hch); [done|]. pose proof (co_blocks _ _ _ _ _ _ Hchain0) as Hb0.
    destruct (decide (x = ts_lastAcceptedID ts0)) as [->|Hne]; [lia|].
    pose proof (anc_lower _ _ _ _ HU _ _ _ _ Hb0 Hx (bo_root _ _ _ _ _ Hb0) H0 Hne). lia. }
  destruct (ancestors_linear Upar Urank Urank_lt _ _ _ Hanc Hla) as [|Hlx]; [done|].
  assert (is_Some (ts_blocks ts !! x)) as HxB by (by eapply anc_between). split; [done|].
  apply (blocks_height _ _ _ _ HU _ _ _ Hb HxB). intros ->. apply Hnot, (ancestors_self Upar Urank Urank_lt).
Qed.

(** If the block [vote] returns was preferred before the poll, the preferred
    branch has not changed, but for accepted blocks. *)
Lemma preferred_still A X np ts :
  mid_inv A X np ts → np ∈ ts_preferredIDs ts → preferred_ok ts.
Proof.
  intros Hmid Hnp. pose proof (mi_blocks _ _ _ _ Hmid) as Hb. pose proof (co_blocks _ _ _ _ _ _ Hchain0) as Hb0.
  destruct (co_preferred _ _ _ _ _ _ Hchain0) as [(l0 & [Hp0 (m0 & Hm0 & Hs0)] & Hids0 & Hhs0)].
  apply (mi_ids _ _ _ _ Hmid) in Hnp as [Hnp0 HnpA]. apply Hids0 in Hnp0.
  apply list_elem_of_split in Hnp0 as (l1 & l2 & ->). destruct (path_split _ _ _ _ _ _ Hp0) as [Hp1 Hp2].
  destruct (mi_path _ _ _ _ Hmid) as [l Hl]. pose proof (path_end _ _ _ _ Hl) as HnpB.
  destruct (path_elems _ Hparams _ _ _ HU _ _ _ _ _ Hb Hl) as (_ & Hle & Hel).
  destruct (path_elems _ Hparams _ _ _ HU _ _ _ _ _ Hb0 Hp1) as (_ & _ & Hel1).
  assert (path (ts_blocks ts) np l2 (ts_preference ts0)) as Hq2.
  { eapply below_kept; [done|done|done|apply (ancestors_self Upar Urank Urank_lt)]. }
  pose proof (path_end _ _ _ _ Hq2) as [m Hm].
  assert (hU (ts_lastAcceptedID ts0) ≤ hU (ts_lastAcceptedID ts)) as Hmono.
  { destruct (bo_root _ _ _ _ _ Hb) as [r Hr]. destruct (mi_frame _ _ _ _ Hmid _ r Hr) as (n0 & Hn0 & _).
    destruct (decide (ts_lastAcceptedID ts = ts_lastAcceptedID ts0)) as [->|Hne]; [done|].
    pose proof (blocks_height _ _ _ _ HU _ _ _ Hb0 ltac:(by eexists) Hne). lia. }
  assert (∀ x, x ∈ l ++ l2 ↔ x ∈ l1 ++ np :: l2 ∧ x ∉ A) as Hset.
  { intros x. rewrite cons_middle, app_assoc, !(elem_of_app _ l2). split.
    - intros [Hx|Hx].
      + apply Hel in Hx as ([n Hn] & Ha & Hh). destruct (mi_frame _ _ _ _ Hmid x n Hn) as (n0 & Hn0 & _). split.
        * left. apply Hel1. split_and!; [by eexists|done|lia].
        * intros HxA. pose proof (accepted_range _ _ _ _ _ Hmid HxA). lia.
      + split; [by right|]. intros HxA. pose proof (accepted_range _ _ _ _ _ Hmid HxA).
        destruct (path_range _ Hparams _ _ _ HU _ _ _ _ _ x Hb Hq2 Hx) as (_ & _ & ? & _). lia.
    - intros [[Hx|Hx] HxA]; [|by right]. left. apply Hel1 in Hx as (Hx0 & Ha & Hh).
      destruct (above_kept _ _ _ _ x Hmid Hx0 Ha Hh HxA) as [HxB Hhx]. by apply Hel. }
  split. exists (l ++ l2). rewrite (mi_preference _ _ _ _ Hmid). split_and!.
  - split; [by eapply path_app|]. exists m. split; [done|]. destruct (mi_frame _ _ _ _ Hmid _ _ Hm) as (n0 & Hn0 & _ & Hs).
    assert (n0 = m0) as -> by congruence. rewrite Hs; [done|]. intros HX. apply (mi_below _ _ _ _ Hmid _ HX).
    exact (proj1 (path_elems _ Hparams _ _ _ HU _ _ _ _ _ Hb Hq2)).
  - intros x. by rewrite (mi_ids _ _ _ _ Hmid), Hids0, Hset.
  - intros k x. rewrite (mi_heights _ _ _ _ Hmid), Hhs0, Hset. split.
    + intros [[Hx <-] HA]. split; [|done]. split; [done|]. intros HxA. by apply (HA x).
    + intros [[Hx HxA] <-]. split; [done|]. intros z Hz Heq. pose proof (accepted_range _ _ _ _ _ Hmid Hz).
      assert (x ∈ l ++ l2) as Hxl by (by apply Hset).
      assert (path (ts_blocks ts) (ts_lastAcceptedID ts) (l ++ l2) (ts_preference ts0)) as Hpp by (by eapply path_app).
      destruct (path_range _ Hparams _ _ _ HU _ _ _ _ _ x Hb Hpp Hxl) as (_ & _ & ? & _). lia.
Qed.
End Poll.

(** ** Recomputing the preferred branch *)

(** The sets after the blocks [l] were added. *)
Definition ids_add (ids : gset ID) (l : list ID) (ids' : gset ID) : Prop := ∀ x, x ∈ ids' ↔ x ∈ ids ∨ x ∈ l.
Definition heights_add (hs : gmap Z ID) (l : list ID) (hs' : gmap Z ID) : Prop :=
  ∀ k x, hs' !! k = Some x ↔ (x ∈ l ∧ hU x = k) ∨ (hs !! k = Some x ∧ ∀ z, z ∈ l → hU z ≠ k).

Lemma path_unsnoc B x l y z :
  path B x (l ++ [y]) z → z = y ∧ ∃ q n t, path B x l q ∧ B !! q = Some n ∧ sm_sb n = Some t ∧ Tree_Preference t = y.
Proof.
  revert x. induction l as [|w l IH]; intros x Hp; inversion Hp as [|? n t l' ? Hn Ht Hp']; subst; simpl.
  - inversion Hp'; subst. split; [done|]. exists x, n, t. split_and!; try done. constructor. by eexists.
  - destruct (IH _ Hp') as (-> & q & m & u & Hq & Hm & Hu & Hy). split; [done|]. exists q, m, u. split_and!; try done. by eapply path_cons.
Qed.

Lemma path_self B la x l : blocks_ok B la → path B x l x → l = [].
Proof.
  intros Hb Hp. destruct l as [|c l]; [done|]. destruct (path_range _ Hparams _ _ _ HU _ _ _ _ _ c Hb Hp) as (_ & _ & ? & Hle); [set_solver|].
  lia.
Qed.

Lemma heights_add_cons hs x l hs' :
  (∀ z, z ∈ l → hU z ≠ hU x) → heights_add (<[hU x := x]> hs) l hs' → heights_add hs (l ++ [x]) hs'.
Proof.
  intros Hne Hadd k y. rewrite (Hadd k y), lookup_insert_Some. setoid_rewrite elem_of_app. setoid_rewrite list_elem_of_singleton. split.
  - intros [[Hy <-]|[[[<- <-]|[Hk Hy]] Hz]]; [by left; auto|by left; auto|]. right. split; [done|]. naive_solver.
  - intros [[[Hy| ->] <-]|[Hy Hz]]; [by left; auto|right|right].
    + split; [by left|done].
    + split; [right; split; [|done]|naive_solver]. naive_solver.
Qed.

Lemma prefer_up_spec ts l x fuel ids hs :
  ts_lastAcceptedHeight ts = hU (ts_lastAcceptedID ts) → blocks_ok (ts_blocks ts) (ts_lastAcceptedID ts) →
  (∀ n, ts_blocks ts !! ts_lastAcceptedID ts = Some n → Decided ts n = true) →
  path (ts_blocks ts) (ts_lastAcceptedID ts) l x → (length l < fuel)%nat →
  ∃ ids' hs', prefer_up (Error := Error) ts fuel x ids hs = Ok (ids', hs') ∧ ids_add ids l ids' ∧ heights_add hs l hs'.
Proof.
  intros Hh Hb Hdec Hp Hf. revert x fuel ids hs Hp Hf. induction l as [|y l IH] using rev_ind; intros x fuel ids hs Hp Hf;
    (destruct fuel as [|fuel]; [lia|]); cbn [prefer_up]; destruct (path_end _ _ _ _ Hp) as [n Hn]; rewrite Hn.
  - inversion Hp; subst. rewrite (Hdec n Hn). exists ids, hs. split_and!; [done| |].
    + intros z. set_solver.
    + intros k z. split; [intros; right; split; [done|]; intros ? ?%not_elem_of_nil; done|]. intros [[Hz _]|[Hz _]]; [by apply not_elem_of_nil in Hz|done].
  - destruct (path_unsnoc _ _ _ _ _ Hp) as (-> & q & m & t & Hq & Hm & Ht & Hpref).
    destruct (path_step _ Hparams _ _ _ HU _ _ _ _ _ Hb Hm Ht) as (_ & Hyla & Hyq & Hhy). rewrite Hpref in Hyla, Hyq, Hhy.
    destruct (blocks_step _ _ _ _ HU _ _ y Hb ltac:(by eexists) Hyla) as (b & HUy & _ & Hg & _).
    destruct (bo_blk _ _ _ _ _ Hb y n Hn Hg) as [Hblk _]. rewrite HUy in Hblk.
    assert (Decided ts n = false) as ->.
    { unfold Decided. rewrite Hblk, Hh, <- (hU_Some _ genesisHeight _ _ HUy).
      pose proof (blocks_height _ _ _ _ HU _ _ y Hb ltac:(by eexists) Hyla). zcases. }
    rewrite Hblk. assert (blk_Parent b = q) as -> by (apply Upar_Some in Hyq as (b' & ? & ?); congruence).
    rewrite (uo_id _ _ _ HU _ _ HUy), <- (hU_Some _ genesisHeight _ _ HUy). rewrite length_app in Hf. simpl in Hf.
    destruct (IH q fuel ({[y]} ∪ ids) (<[hU y := y]> hs) Hq ltac:(lia)) as (ids' & hs' & -> & Hids & Hhs).
    exists ids', hs'. split_and!; [done| |].
    + intros z. rewrite (Hids z). set_solver.
    + apply heights_add_cons; [|done]. intros z Hz. destruct (path_range _ Hparams _ _ _ HU _ _ _ _ _ z Hb Hq Hz) as (_ & _ & _ & ?). lia.
Qed.

(** The blocks above a height. *)
Definition higher B (k : Z) : gset ID := filter (λ z, k < hU z) (dom B).

Lemma higher_child B la x n t :
  blocks_ok B la → B !! x = Some n → sm_sb n = Some t → (base.size (higher B (hU (Tree_Preference t))) < base.size (higher B (hU x)))%nat.
Proof.
  intros Hb Hn Ht. destruct (path_step _ Hparams _ _ _ HU _ _ _ _ _ Hb Hn Ht) as (Hc & _ & _ & Hh). apply subset_size.
  apply strict_spec. unfold higher. split.
  - intros z. rewrite !elem_of_filter. intros [? ?]. split; [lia|done].
  - intros Hsub. specialize (Hsub (Tree_Preference t)). rewrite !elem_of_filter, elem_of_dom in Hsub. destruct Hsub as [? _]; [split; [lia|done]|]. lia.
Qed.

Lemma prefer_down_spec ts x n fuel ids hs :
  blocks_ok (ts_blocks ts) (ts_lastAcceptedID ts) → ts_blocks ts !! x = Some n →
  (base.size (higher (ts_blocks ts) (hU x)) < fuel)%nat →
  ∃ l y ids' hs', prefer_down (Error := Error) ts fuel x n ids hs = Ok (ids', hs', y) ∧ branch_to (ts_blocks ts) x l y ∧
    ids_add ids l ids' ∧ heights_add hs l hs'.
Proof.
  intros Hb. revert x n ids hs. induction fuel as [|fuel IH]; intros x n ids hs Hn Hf; [lia|]. cbn [prefer_down].
  destruct (sm_sb n) as [t|] eqn:Ht; last first.
  { exists [], x, ids, hs. split_and!; [done|split; [constructor; by eexists|eauto]| |].
    - intros z. set_solver.
    - intros k z. split; [intros; right; split; [done|]; intros ? ?%not_elem_of_nil; done|]. intros [[Hz _]|[Hz _]]; [by apply not_elem_of_nil in Hz|done]. }
  pose proof (higher_child _ _ _ _ _ Hb Hn Ht) as Hlt.
  destruct (path_step _ Hparams _ _ _ HU _ _ _ _ _ Hb Hn Ht) as ([m Hm] & Hcla & _ & Hh). set (c := Tree_Preference t) in *. rewrite Hm.
  destruct (blocks_step _ _ _ _ HU _ _ c Hb ltac:(by eexists) Hcla) as (b & HUc & _ & Hg & _).
  destruct (bo_blk _ _ _ _ _ Hb c m Hm Hg) as [Hblk _]. rewrite Hblk, HUc, <- (hU_Some _ genesisHeight _ _ HUc).
  destruct (IH c m ({[c]} ∪ ids) (<[hU c := c]> hs) Hm ltac:(lia)) as (l & y & ids' & hs' & -> & [Hp Hend] & Hids & Hhs).
  exists (c :: l), y, ids', hs'. split_and!; [done|split; [by eapply path_cons|done]| |].
  - intros z. rewrite (Hids z). set_solver.
  - assert (heights_add hs (l ++ [c]) hs') as Hadd.
    { apply heights_add_cons; [|done]. intros z Hz. destruct (path_range _ Hparams _ _ _ HU _ _ _ _ _ z Hb Hp Hz) as (_ & _ & ? & _). lia. }
    intros k z. rewrite (Hadd k z). setoid_rewrite Permutation_app_comm. done.
Qed.

Lemma higher_size B k : (base.size (higher B k) ≤ base.size B)%nat.
Proof. rewrite <- size_dom. apply subseteq_size. unfold higher. set_solver. Qed.

Lemma path_length B la x l y : blocks_ok B la → path B x l y → (length l ≤ base.size (higher B (hU x)))%nat.
Proof.
  intros Hb. induction 1 as [|x n t l y Hn Ht _ IH]; simpl; [lia|]. pose proof (higher_child _ _ _ _ _ Hb Hn Ht). lia.
Qed.

Lemma update_preference_spec ts issued l np :
  ts_params ts = p → ts_lastAcceptedHeight ts = hU (ts_lastAcceptedID ts) →
  blocks_ok (ts_blocks ts) (ts_lastAcceptedID ts) → log_ok (ts_calls ts) (ts_blocks ts) (ts_lastAcceptedID ts) issued →
  path (ts_blocks ts) (ts_lastAcceptedID ts) l np → (np ∈ ts_preferredIDs ts → preferred_ok ts) →
  ∃ ts', update_preference (Error := Error) np ts = (ts', Ok tt) ∧ chain_ok ts' issued ∧
    ts_calls ts' = ts_calls ts ∧ ts_blocks ts' = ts_blocks ts ∧ ts_lastAcceptedID ts' = ts_lastAcceptedID ts.
Proof.
  intros Hpar Hh Hb Hlog Hp Hstill. unfold update_preference. mrun. case_decide as Hin; [exists ts; split; [done|]; split; [by split; auto|done]|].
  destruct (path_end _ _ _ _ Hp) as [n Hn]. rewrite Hn.
  pose proof (path_length _ _ _ _ _ Hb Hp) as Hlen. pose proof (higher_size (ts_blocks ts) (hU (ts_lastAcceptedID ts))) as Hs1.
  destruct (prefer_up_spec ts l np (block_fuel ts) ∅ ∅ Hh Hb) as (ids1 & hs1 & -> & Hi1 & Hh1); [|done|unfold block_fuel; lia|].
  { intros m Hm. unfold Decided. destruct (sm_blk m) as [blk|] eqn:Hblk; [|done].
    destruct (blocks_blk _ _ _ _ _ _ _ _ Hb Hm Hblk) as [HUx _]. rewrite Hh, (hU_Some _ genesisHeight _ _ HUx). zcases. }
  cbv beta iota. pose proof (higher_size (ts_blocks ts) (hU np)) as Hs2.
  destruct (prefer_down_spec ts np n (block_fuel ts) ids1 hs1 Hb Hn) as (l2 & tip & ids2 & hs2 & Hdown & [Hp2 Hend] & Hi2 & Hh2);
    [unfold block_fuel; lia|].
  cbn [fst snd]. rewrite Hdown. cbv beta iota. eexists. split; [done|]. split; [|done]. split; simpl; try done. split. exists (l ++ l2). simpl.
  assert (path (ts_blocks ts) (ts_lastAcceptedID ts) (l ++ l2) tip) as Hpp by (by eapply path_app). split_and!; [by split| |].
  - intros x. rewrite (Hi2 x), (Hi1 x), elem_of_app. set_solver.
  - intros k x. rewrite (Hh2 k x), (Hh1 k x), lookup_empty, elem_of_app. split; [naive_solver|].
    intros [[Hx|Hx] Hk]; [right|by left]. split; [by left|]. intros z Hz Heq.
    destruct (path_range _ Hparams _ _ _ HU _ _ _ _ _ z Hb Hp2 Hz) as (_ & _ & ? & _).
    destruct (path_range _ Hparams _ _ _ HU _ _ _ _ _ x Hb Hp Hx) as (_ & _ & _ & ?). lia.
Qed.

(** ** [vote] *)

Lemma mid_start ts issued : chain_ok ts issued → mid_inv ts issued [] [] (ts_lastAcceptedID ts) ts.
Proof.
  clear Hcalls Hparams HU. intros Hc. split; try apply Hc.
  - by rewrite app_nil_r.
  - intros x n Hn. by exists n.
  - done.
  - intros x. set_solver.
  - intros k x. split; [|naive_solver]. intros Hk. split; [done|]. by intros z ?%not_elem_of_nil.
  - exists []. constructor. apply (co_blocks _ _ _ _ _ _ Hc).
  - by intros x ?%not_elem_of_nil.
Qed.

(** The votes a poll pushes are legal. *)
Lemma pushed_vote_ok ts issued voteBag stack v :
  chain_ok ts issued → bag_ok voteBag → Len voteBag ≤ K p → vote_stack ts voteBag stack → v ∈ stack → vote_ok ts v.
Proof.
  intros Hc Hbag HK Hst Hv. pose proof (chain_tree_ok _ _ _ _ HU _ _ Hc) as Hok. destruct (params_facts p Hparams) as (Ha & _ & _).
  destruct (vs_bags _ _ _ Hst v Hv) as [Hbv Hcount]. set (x := vt_parentID v) in *.
  assert (Len (vt_votes v) = votes_below ts voteBag x) as Hlen.
  { rewrite (Len_sum_over _ (kids ts x)); [|done|apply kids_NoDup|].
    - apply sum_over_ext. intros c Hck%elem_of_kids. by rewrite Hcount, decide_True.
    - intros c. rewrite Hcount. case_decide; [by rewrite elem_of_kids|lia]. }
  assert (votes_below ts voteBag x ≤ Len voteBag) as Hle.
  { rewrite (Len_sum_over voteBag (List voteBag)); [|done|apply List_NoDup|apply List_Count].
    transitivity (total ts voteBag (List voteBag) x).
    - rewrite total_below by auto using List_NoDup, List_Count. pose proof (Count_nonneg voteBag x Hbag).
      unfold votes_below. lia.
    - apply transitive_total. intros y _. by apply Count_nonneg. }
  split_and!; [done|lia| |].
  - assert (AlphaPreference p ≤ votes_below ts voteBag x) as Hheavy.
    { rewrite <- (co_params _ _ _ _ _ _ Hc). apply (vs_heavy _ _ _ Hst). apply list_elem_of_fmap. by exists v. }
    rewrite <- Hlen in Hheavy. destruct (decide (Forall (λ c, Count (vt_votes v) c = 0) (List (vt_votes v)))) as [Hz|Hz].
    + exfalso. rewrite (Len_sum_over _ (List (vt_votes v))), sum_over_zero in Hheavy; [lia| |done|apply List_NoDup|apply List_Count].
      by apply Forall_forall.
    + apply not_Forall_Exists, Exists_exists in Hz as (c & _ & Hc'); [|apply _]. exists c. pose proof (Count_nonneg _ c Hbv). simpl in Hc'. lia.
  - intros n0 Hn0 c Hpos. rewrite Hcount in Hpos. case_decide as Hpar; [|lia].
    apply (chain_parents _ _ _ _ HU _ _ _ _ Hc) in Hpar as (HcB & Hcla & (b & HUc & Hpb)%Upar_Some).
    apply elem_of_dom. exists b. by apply (bo_children _ _ _ _ _ (co_blocks _ _ _ _ _ _ Hc) _ _ Hn0).
Qed.

Lemma pushed_position ts issued voteBag stack :
  chain_ok ts issued → vote_stack ts voteBag stack → position (ts_lastAcceptedID ts) true (reverse stack).
Proof.
  intros Hc Hst. pose proof (vs_branch _ _ _ Hst) as Hbr. change (map vt_parentID stack) with (vt_parentID <$> stack) in Hbr.
  rewrite <- fmap_reverse in Hbr. destruct (reverse stack) as [|v vs]; [done|]. simpl in Hbr |- *. destruct Hbr as [Hroot Hbr]. split; [|done].
  revert Hbr. generalize (vt_parentID v). clear Hst Hroot. induction vs as [|w vs IH]; intros x; simpl; [done|]. intros [Hw Hbr].
  apply (chain_parents _ _ _ _ HU _ _ _ _ Hc) in Hw as (_ & _ & Hw). split; [done|]. by apply IH.
Qed.

Lemma vote_spec ts issued voteBag stack :
  chain_ok ts issued → bag_ok voteBag → Len voteBag ≤ K p → vote_stack ts voteBag stack →
  ∃ np ts' l, vote calls stack ts = (ts', Ok np) ∧ ts_params ts' = p ∧
    ts_lastAcceptedHeight ts' = hU (ts_lastAcceptedID ts') ∧
    blocks_ok (ts_blocks ts') (ts_lastAcceptedID ts') ∧ log_ok (ts_calls ts') (ts_blocks ts') (ts_lastAcceptedID ts') issued ∧
    path (ts_blocks ts') (ts_lastAcceptedID ts') l np ∧ (np ∈ ts_preferredIDs ts' → preferred_ok ts').
Proof.
  intros Hc Hbag HK Hst. unfold vote. mrun. destruct stack as [|v stack].
  - pose proof (co_blocks _ _ _ _ _ _ Hc) as Hb. destruct (bo_root _ _ _ _ _ Hb) as [n Hn]. rewrite Hn. cbv beta iota.
    destruct (co_preferred _ _ _ _ _ _ Hc) as [(l & [Hp (m & Hm & Hs)] & Hids & Hhs)].
    set (B := <[ts_lastAcceptedID ts := set_falter n true]> (ts_blocks ts)).
    assert (core <$> B = core <$> ts_blocks ts) as Hcore.
    { unfold B. rewrite fmap_insert. apply insert_id. by rewrite lookup_fmap, Hn. }
    exists (ts_preference ts), (set_blocks ts B), l. simpl. split_and!; [done|apply Hc|apply Hc|by eapply blocks_ok_core| |by eapply path_core|].
    + apply (log_ok_dom _ (ts_blocks ts)); [by apply core_dom|apply Hc].
    + intros _. split. exists l. simpl. split_and!; [|done|done]. split; [by eapply path_core|].
      symmetry in Hcore. destruct (core_lookup _ _ _ _ Hcore Hm) as (m' & Hm' & [= _ Hs' _]). exists m'. split; [done|congruence].
  - destruct (vote_loop_spec ts issued (λ _ _ _, True) (reverse (v :: stack)) (ts_lastAcceptedID ts) true [] [] ts) as (A & X & np & ts' & _ & Hrun & Hmid & _).
    + done.
    + by apply mid_start.
    + by eapply pushed_position.
    + apply Forall_forall. intros w Hw. rewrite elem_of_reverse in Hw. by eapply pushed_vote_ok.
    + done.
    + rewrite Hrun. destruct (mi_path _ _ _ _ _ _ Hmid) as [l Hl]. exists np, ts', l. split_and!; [done|try apply Hmid..|done|].
      intros Hin. by eapply preferred_still.
Qed.

(** ** [RecordPoll] *)

Lemma chain_ok_frame ts ts' issued :
  ts_params ts' = ts_params ts → ts_lastAcceptedID ts' = ts_lastAcceptedID ts → ts_lastAcceptedHeight ts' = ts_lastAcceptedHeight ts →
  ts_blocks ts' = ts_blocks ts → ts_preferredIDs ts' = ts_preferredIDs ts → ts_preferredHeights ts' = ts_preferredHeights ts →
  ts_preference ts' = ts_preference ts → ts_calls ts' = ts_calls ts → chain_ok ts issued → chain_ok ts' issued.
Proof.
  intros E1 E2 E3 E4 E5 E6 E7 E8 [H1 H2 H3 H4 [H5]]. split; rewrite ?E1, ?E2, ?E3, ?E4, ?E8; try done.
  split. by rewrite E2, E4, E5, E6, E7.
Qed.

(** The steps of a poll: the sorted votes are applied, then the preferred branch
    is brought up to date. *)
Lemma RecordPoll_steps ts issued voteBag :
  chain_ok ts issued → bag_ok voteBag → Len voteBag ≤ K p →
  ∃ ts1 stack np ts2 ts', Snowman.RecordPoll calls voteBag ts = (ts', Ok tt) ∧ chain_ok ts' issued ∧
    chain_ok ts1 issued ∧ ts_blocks ts1 = ts_blocks ts ∧ ts_lastAcceptedID ts1 = ts_lastAcceptedID ts ∧ ts_calls ts1 = ts_calls ts ∧
    ts_lastAcceptedHeight ts1 = ts_lastAcceptedHeight ts ∧
    vote_stack ts1 voteBag stack ∧ vote calls stack ts1 = (ts2, Ok np) ∧
    ts_blocks ts' = ts_blocks ts2 ∧ ts_lastAcceptedID ts' = ts_lastAcceptedID ts2 ∧ ts_calls ts' = ts_calls ts2.
Proof.
  intros Hc Hbag HK. unfold Snowman.RecordPoll. mrun. set (ts1 := set_pollNumber ts _).
  assert (chain_ok ts1 issued) as Hc1 by (by apply (chain_ok_frame ts)).
  destruct (params_facts p Hparams) as (Ha & Hmaj & _).
  destruct (poll_votes_spec (Error := Error) ts1 voteBag (chain_tree_ok _ _ _ _ HU _ _ Hc1) Hbag) as (kahn & leaves & stack & Hpoll & Hst);
    [rewrite (co_params _ _ _ _ _ _ Hc1); lia..|]. rewrite Hpoll. cbv beta iota.
  assert (chain_ok (set_kahn ts1 kahn leaves) issued) as Hc2 by (by apply (chain_ok_frame ts1)).
  assert (vote_stack (set_kahn ts1 kahn leaves) voteBag stack) as Hst2.
  { destruct Hst as [S1 S2 S3]. split; [exact S1|exact S2|exact S3]. }
  destruct (vote_spec _ _ _ _ Hc2 Hbag HK Hst2) as (np & ts3 & l & Hvote & H1 & H2 & H3 & H4 & H5 & H6). rewrite Hvote. cbv beta iota.
  destruct (update_preference_spec ts3 issued l np H1 H2 H3 H4 H5 H6) as (ts4 & Hup & Hc4 & E1 & E2 & E3). rewrite Hup.
  exists (set_kahn ts1 kahn leaves), stack, np, ts3, ts4. by split_and!.
Qed.

(** ** Sequences of calls *)

Inductive ts_op : Type :=
| OpAdd (blk : Block)
| OpPoll (voteBag : Bag ID).

(** What callers promise: blocks are those of the universe, and a poll has at
    most [K] votes. *)
Definition ts_op_ok (op : ts_op) : Prop :=
  match op with
  | OpAdd blk => U !! blk_ID blk = Some blk
  | OpPoll voteBag => bag_ok voteBag ∧ Len voteBag ≤ K p
  end.

Definition ts_step ts (op : ts_op) : Topological * result unit (stop Error) :=
  match op with OpAdd blk => ts_Add blk ts | OpPoll voteBag => Snowman.RecordPoll calls voteBag ts end.

(** The states and results of a sequence of calls, the latest first. *)
Fixpoint ts_run ts (ops : list ts_op) : Topological * list (result unit (stop Error)) :=
  match ops with
  | [] => (ts, [])
  | op :: ops => let '(ts, rs) := ts_run ts ops in let '(ts, r) := ts_step ts op in (ts, r :: rs)
  end.

(** The blocks that were issued, the latest first. *)
Fixpoint issued_by (ops : list ts_op) (rs : list (result unit (stop Error))) : list ID :=
  match ops, rs with
  | OpAdd blk :: ops, Ok _ :: rs => blk_ID blk :: issued_by ops rs
  | _ :: ops, _ :: rs => issued_by ops rs
  | _, _ => []
  end.

(** The blocks that were issued and not decided yet, from the history alone. *)
Definition undecided (issued : list ID) (log : list decision) (x : ID) : Prop := x ∈ issued ∧ (x ∉ accepted log) ∧ (x ∉ rejected log).

#[global] Instance undecided_dec issued log x : Decision (undecided issued log x).
Proof. unfold undecided. apply _. Defined.

(** What a call returns, from the history: [Add] refuses a block that is undecided, and
    one whose parent is neither undecided nor the last accepted block. *)
Definition call_result (issued : list ID) (log : list decision) (op : ts_op) : result unit (stop Error) :=
  match op with
  | OpAdd blk =>
      if decide (undecided issued log (blk_ID blk)) then Err errDuplicateAdd
      else if decide (undecided issued log (blk_Parent blk) ∨ blk_Parent blk = default genesis (last (accepted log))) then Ok tt
      else Err errUnknownParentBlock
  | OpPoll _ => Ok tt
  end.

Lemma Initialize_ok ts : Initialize (Error := Error) p genesis genesisHeight = Ok ts → chain_ok ts [].
Proof.
  unfold Initialize. rewrite Hparams. intros [= <-]. assert (hU genesis = genesisHeight) as Hg.
  { unfold SnowmanState.hU. by rewrite (uo_genesis _ _ _ HU). }
  split; simpl; [done|done| | |].
  - assert (∀ x, is_Some (({[genesis := mkSnowmanBlock None false None ∅]} : gmap ID snowmanBlock) !! x) ↔ x = genesis) as Hd.
    { intros x. rewrite <- elem_of_dom, dom_singleton_L. set_solver. }
    split.
    + by apply Hd.
    + intros x n [<- <-]%lookup_singleton_Some Hx. done.
    + intros n [_ <-]%lookup_singleton_Some. done.
    + intros x b ->%Hd Hx. done.
    + intros x n [<- <-]%lookup_singleton_Some c b. simpl. rewrite lookup_empty, Hd. split; [done|]. intros (-> & ? & _). done.
    + intros x n [<- <-]%lookup_singleton_Some. done.
  - split; simpl; try done.
    + by intros y ?%not_elem_of_nil.
    + rewrite dom_singleton_L. assert (({[genesis]} : gset ID) ∖ {[genesis]} = ∅) as -> by set_solver. by rewrite elements_empty.
    + apply NoDup_nil_2.
  - split. exists []. simpl. split_and!.
    + split; [constructor; by rewrite lookup_singleton_eq|]. rewrite lookup_singleton_eq. eauto.
    + intros x. set_solver.
    + intros k x. rewrite lookup_empty. set_solver.
Qed.

(** The processing blocks are the undecided ones. *)
Lemma processing_undecided ts issued x : chain_ok ts issued → (is_Some (ts_blocks ts !! x) ∧ x ≠ ts_lastAcceptedID ts) ↔ undecided issued (ts_calls ts) x.
Proof.
  intros Hc. destruct (co_log _ _ _ _ _ _ Hc) as [_ _ _ _ H5 H6]. unfold undecided. rewrite H5 in H6. apply NoDup_app in H6 as (_ & Ha & (_ & Hr & _)%NoDup_app).
  assert (x ∈ elements (dom (ts_blocks ts) ∖ {[ts_lastAcceptedID ts]}) ↔ is_Some (ts_blocks ts !! x) ∧ x ≠ ts_lastAcceptedID ts) as Hx by (rewrite elem_of_elements, elem_of_difference, elem_of_singleton, elem_of_dom; done).
  rewrite <- Hx, H5, !elem_of_app. split; [|tauto]. intros Hin. split; [tauto|]. split; [intros Hacc; apply (Ha x Hacc), elem_of_app; tauto|]. intros Hrej. by apply (Hr x Hrej).
Qed.

Lemma ts_step_result ts issued op : chain_ok ts issued → ts_op_ok op → (ts_step ts op).2 = call_result issued (ts_calls ts) op.
Proof.
  intros Hc Hop. destruct op as [blk|voteBag]; simpl in Hop |- *; last first.
  { destruct Hop as [Hbag HK]. by destruct (RecordPoll_steps ts _ voteBag Hc Hbag HK) as (_ & _ & _ & _ & ts2 & -> & _). }
  destruct (co_log _ _ _ _ _ _ Hc) as [_ Hlast _ _ _ _]. rewrite <- Hlast. unfold ts_Add. mrun.
  assert (Processing ts (blk_ID blk) = bool_decide (undecided issued (ts_calls ts) (blk_ID blk))) as ->.
  { unfold Processing. case_decide as Hx; [symmetry; apply bool_decide_eq_false_2; rewrite <- processing_undecided by done; tauto|]. apply bool_decide_ext. rewrite <- processing_undecided by done. tauto. }
  destruct (decide (undecided issued (ts_calls ts) (blk_ID blk))) as [Hu|Hu]; [by rewrite bool_decide_eq_true_2|]. rewrite bool_decide_eq_false_2 by done.
  destruct (ts_blocks ts !! blk_Parent blk) as [n|] eqn:Hn.
  - destruct (decide (undecided _ _ (blk_Parent blk) ∨ _)) as [_|Hno]; [by destruct (decide (ts_preference ts = blk_Parent blk))|]. destruct Hno. destruct (decide (blk_Parent blk = ts_lastAcceptedID ts)); [by right|left]. apply processing_undecided; [done|]. by rewrite Hn.
  - destruct (decide (undecided _ _ (blk_Parent blk) ∨ _)) as [Hyes|_]; [|done]. exfalso. destruct Hyes as [[Hs _]%(processing_undecided _ _ _ Hc)|Hp]; [rewrite Hn in Hs; by destruct Hs|]. pose proof (bo_root _ _ _ _ _ (co_blocks _ _ _ _ _ _ Hc)) as Hroot. rewrite <- Hp, Hn in Hroot. by destruct Hroot.
Qed.

Lemma ts_run_ok ts ops :
  chain_ok ts [] → Forall ts_op_ok ops → chain_ok (ts_run ts ops).1 (issued_by ops (ts_run ts ops).2).
Proof.
  intros Hc Hops. induction Hops as [|op ops Hop _ IH1]; [done|]. cbn [ts_run].
  destruct (ts_run ts ops) as [ts1 rs]. simpl in IH1. destruct op as [blk|voteBag]; simpl in Hop |- *.
  - destruct (ts_Add_spec (Error := Error) p Hparams U genesis genesisHeight HU ts1 _ blk IH1 Hop) as (ts2 & r & -> & Hr). simpl.
    destruct r as [[]|e]; simpl; [apply Hr|by destruct Hr as [-> _]].
  - destruct Hop as [Hbag HK]. by destruct (RecordPoll_steps ts1 _ voteBag IH1 Hbag HK) as (_ & _ & _ & _ & ts2 & -> & Hc2 & _).
Qed.

Context (ts0 : Topological) (Hinit : Initialize (Error := Error) p genesis genesisHeight = Ok ts0).

(** C5: chain consensus never gets stuck, while the calls to the blocks and to the block
    acceptor succeed: after any sequence of issued blocks and polls, the next call returns
    (no loop runs out of steps and no nil block is dereferenced), and its result follows
    from the history: [RecordPoll] succeeds, [Add] returns [errDuplicateAdd] exactly for a
    block that was issued and is not decided, [errUnknownParentBlock] exactly for another
    block whose parent is neither the last accepted block nor issued and undecided, and
    succeeds otherwise. *)
Theorem snowman_total (op : ts_op) (ops : list ts_op) :
  Forall ts_op_ok (op :: ops) → let '(ts, rs) := ts_run ts0 ops in
  (ts_step ts op).2 = call_result (issued_by ops rs) (ts_calls ts) op.
Proof.
  intros [Hop Hops]%Forall_cons. pose proof (ts_run_ok ts0 ops (Initialize_ok _ Hinit) Hops) as Hc. destruct (ts_run ts0 ops) as [ts rs]. by apply ts_step_result.
Qed.

(** C4: chain consensus accepts one chain: in every reachable state the accepted
    blocks are, in order, a chain of children from the genesis block to the last
    accepted one, whose height is recorded; every acceptance is announced to the
    block acceptor right before the block; and a block is rejected only if its
    parent was rejected or another child of its parent was accepted. *)
Theorem snowman_accepts_chain (ops : list ts_op) :
  Forall ts_op_ok ops → let ts := (ts_run ts0 ops).1 in let log := ts_calls ts in
  chain_from U genesis (accepted log) ∧ LastAccepted ts = (default genesis (last (accepted log)), hU (ts_lastAcceptedID ts)) ∧
  acceptances log = concat (map (λ x, [BlockAcceptor_Accept x; Block_Accept x]) (accepted log)) ∧
  ∀ y, y ∈ rejected log → ∃ q, Upar !! y = Some q ∧
    (q ∈ rejected log ∨ ∃ z, z ∈ accepted log ∧ z ≠ y ∧ Upar !! z = Some q).
Proof.
  intros Hops ts log. pose proof (ts_run_ok ts0 ops (Initialize_ok _ Hinit) Hops) as Hc. fold ts in Hc.
  destruct (co_log _ _ _ _ _ _ Hc) as [H1 H2 H3 H4 _ _]. split_and!; [done| |done|done].
  unfold LastAccepted. rewrite (co_height _ _ _ _ _ _ Hc). f_equal. exact H2.
Qed.

(** C6: every issued block has one status: the blocks issued so far are, without
    repetition, the accepted, the rejected and the processing ones, so a block is
    decided at most once, never both ways, and never processing afterwards. *)
Theorem snowman_decides_once (ops : list ts_op) :
  Forall ts_op_ok ops → let '(ts, rs) := ts_run ts0 ops in
  NoDup (issued_by ops rs) ∧
  issued_by ops rs ≡ₚ accepted (ts_calls ts) ++ rejected (ts_calls ts) ++ filter (λ x, Processing ts x = true) (elements (dom (ts_blocks ts))) ∧
  NumProcessing ts = Z.of_nat (length (filter (λ x, Processing ts x = true) (elements (dom (ts_blocks ts))))).
Proof.
  intros Hops. pose proof (ts_run_ok ts0 ops (Initialize_ok _ Hinit) Hops) as Hc. destruct (ts_run ts0 ops) as [ts rs]. simpl in Hc.
  destruct (co_log _ _ _ _ _ _ Hc) as [_ _ _ _ H5 H6].
  assert (filter (λ x, Processing ts x = true) (elements (dom (ts_blocks ts))) ≡ₚ elements (dom (ts_blocks ts) ∖ {[ts_lastAcceptedID ts]})) as Hproc.
  { apply NoDup_Permutation; [apply NoDup_filter, NoDup_elements|apply NoDup_elements|]. intros x.
    rewrite list_elem_of_filter, !elem_of_elements, elem_of_difference, elem_of_singleton. unfold Processing.
    rewrite elem_of_dom. case_decide as Hx; [naive_solver|]. rewrite bool_decide_eq_true. naive_solver. }
  split_and!; [done|by rewrite Hproc|]. rewrite Hproc. unfold NumProcessing. rewrite <- size_dom.
  pose proof (bo_root _ _ _ _ _ (co_blocks _ _ _ _ _ _ Hc)) as Hroot. apply elem_of_dom in Hroot.
  change (length (elements ?X)) with (base.size X). rewrite size_difference by set_solver. rewrite size_singleton.
  assert (base.size (dom (ts_blocks ts)) ≠ 0)%nat; [|lia]. intros Hz%size_empty_inv. set_solver.
Qed.

(** C7: the preferred branch is followed: in every reachable state the preferred
    blocks are the branch from the last accepted block along the preferences of
    the snow trees to a block without children, [Preference] is its end,
    [IsPreferred] decides it and [PreferenceAtHeight] finds its block at each
    height, although [RecordPoll] recomputes it only when the poll left it. *)
Theorem snowman_preferred_branch (ops : list ts_op) :
  Forall ts_op_ok ops → let ts := (ts_run ts0 ops).1 in
  ∃ l, branch_to (ts_blocks ts) (ts_lastAcceptedID ts) l (ts_preference ts) ∧
    (∀ x, IsPreferred ts x = true ↔ x ∈ ts_lastAcceptedID ts :: l) ∧
    ∀ k x, PreferenceAtHeight ts k = Some x ↔ x ∈ ts_lastAcceptedID ts :: l ∧ hU x = k.
Proof.
  intros Hops ts. pose proof (ts_run_ok ts0 ops (Initialize_ok _ Hinit) Hops) as Hc. fold ts in Hc.
  destruct (co_preferred _ _ _ _ _ _ Hc) as [(l & Hbr & Hids & Hhs)]. exists l. split_and!; [done| |].
  - intros x. unfold IsPreferred. rewrite orb_true_iff, !bool_decide_eq_true, Hids, elem_of_cons. done.
  - intros k x. unfold PreferenceAtHeight. rewrite (co_height _ _ _ _ _ _ Hc), elem_of_cons.
    assert (∀ y, y ∈ l → hU (ts_lastAcceptedID ts) < hU y) as Hhigh.
    { intros y Hy. by apply (path_range _ Hparams _ _ _ HU _ _ _ _ _ y (co_blocks _ _ _ _ _ _ Hc) (proj1 Hbr)). }
    destruct (Z.eqb_spec k (hU (ts_lastAcceptedID ts))) as [->|Hk].
    + split; [intros [= <-]; auto|]. intros [[->|Hx] Heq]; [done|]. specialize (Hhigh x Hx). lia.
    + rewrite Hhs. naive_solver.
Qed.
End Safety.

(** ** Witnesses

    Two children of the genesis block, and a child of the second; two polls for
    the first child accept it and reject the others. *)
Section Demo.
#[local] Instance safety_range : MapRange ID := canonical_range ID.
#[local] Existing Instance snowflakeFactory.
#[local] Existing Instance small_laws.

Definition id_two : ID := mkID (2 :: replicate 31 0) eq_refl.
Definition id_three : ID := mkID (3 :: replicate 31 0) eq_refl.
Definition blk_one : Block := mkBlock id_one Empty 1.
Definition blk_two : Block := mkBlock id_two Empty 1.
Definition blk_three : Block := mkBlock id_three id_two 2.
Definition demo_universe : gmap ID Block := {[id_one := blk_one; id_two := blk_two; id_three := blk_three]}.
Definition no_error : list decision → decision → option unit := λ _ _, None.
Definition demo_ts0 : Topological :=
  mkTopological small_params 0 Empty 0 {[Empty := mkSnowmanBlock None false None ∅]} ∅ ∅ Empty ∅ ∅ [].
Definition safety_ops : list ts_op :=
  [OpPoll (one_vote id_one); OpPoll (one_vote id_one); OpAdd blk_one; OpAdd blk_three; OpAdd blk_two; OpAdd blk_one].

Lemma demo_universe_ok : universe_ok demo_universe Empty 0.
Proof.
  assert (∀ x b, demo_universe !! x = Some b → (x = id_one ∧ b = blk_one) ∨ (x = id_two ∧ b = blk_two) ∨ (x = id_three ∧ b = blk_three)) as Hcases.
  { intros x b. unfold demo_universe. intros [[<- <-]|[_ [[<- <-]|[_ [<- <-]%lookup_singleton_Some]]%lookup_insert_Some]]%lookup_insert_Some; auto. }
  split.
  - by vm_compute.
  - by intros x b [[-> ->]|[[-> ->]|[-> ->]]]%Hcases.
  - by intros x b [[-> ->]|[[-> ->]|[-> ->]]]%Hcases.
  - intros x b pb [[-> ->]|[[-> ->]|[-> ->]]]%Hcases [[? ->]|[[? ->]|[? ->]]]%Hcases; simpl in *; done.
  - by intros x b [[-> ->]|[[-> ->]|[-> ->]]]%Hcases.
Qed.

Lemma safety_ops_ok : Forall (ts_op_ok small_params demo_universe) safety_ops.
Proof.
  assert (ts_op_ok small_params demo_universe (OpPoll (one_vote id_one))) as Hpoll.
  { split; [apply AddCount_ok, empty_bag_ok|by vm_compute]. }
  repeat constructor; try exact Hpoll; try (apply AddCount_ok, empty_bag_ok); by vm_compute.
Qed.

Lemma snowman_total_witness :
  let '(ts, rs) := ts_run no_error demo_ts0 (tail safety_ops) in
  (ts_step no_error ts (OpPoll (one_vote id_one))).2 = Ok tt ∧ (ts_run no_error demo_ts0 safety_ops).2 = [Ok tt; Ok tt; Err errDuplicateAdd; Ok tt; Ok tt; Ok tt].
Proof.
  pose proof (snowman_total small_params eq_refl demo_universe Empty 0 demo_universe_ok no_error (λ _ _, eq_refl) demo_ts0 eq_refl (OpPoll (one_vote id_one)) (tail safety_ops)) as Ht.
  destruct (ts_run no_error demo_ts0 (tail safety_ops)) as [ts rs]. split; [|vm_compute; reflexivity]. apply Ht. constructor; [|by apply Forall_inv_tail with (a := hd (OpPoll empty_bag) safety_ops), safety_ops_ok].
  split; [apply AddCount_ok, empty_bag_ok|by vm_compute].
Defined.

Lemma snowman_accepts_chain_witness :
  let ts := (ts_run no_error demo_ts0 safety_ops).1 in
  chain_from demo_universe Empty (accepted (ts_calls ts)) ∧ accepted (ts_calls ts) = [id_one] ∧ length (rejected (ts_calls ts)) = 2%nat.
Proof.
  destruct (snowman_accepts_chain small_params eq_refl demo_universe Empty 0 demo_universe_ok no_error (λ _ _, eq_refl) demo_ts0 eq_refl safety_ops safety_ops_ok)
    as [Hc _].
  split; [exact Hc|]. split; vm_compute; reflexivity.
Defined.

Lemma snowman_decides_once_witness :
  NoDup (issued_by safety_ops (ts_run no_error demo_ts0 safety_ops).2) ∧
  NumProcessing (ts_run no_error demo_ts0 safety_ops).1 = 0.
Proof.
  pose proof (snowman_decides_once small_params eq_refl demo_universe Empty 0 demo_universe_ok no_error (λ _ _, eq_refl) demo_ts0 eq_refl safety_ops safety_ops_ok) as Hd.
  destruct (ts_run no_error demo_ts0 safety_ops) as [ts rs] eqn:Hrun. split; [exact (proj1 Hd)|].
  apply (f_equal (λ r, NumProcessing r.1)) in Hrun. simpl in Hrun.
  change (NumProcessing ts = 0). rewrite <- Hrun. vm_compute. reflexivity.
Defined.

Lemma snowman_preferred_branch_witness :
  let ts := (ts_run no_error demo_ts0 (tail (tail safety_ops))).1 in
  ∃ l, branch_to (ts_blocks ts) (ts_lastAcceptedID ts) l (ts_preference ts) ∧ ts_preference ts = id_one.
Proof.
  assert (Forall (ts_op_ok small_params demo_universe) (tail (tail safety_ops))) as Hok by (repeat constructor; by vm_compute).
  destruct (snowman_preferred_branch small_params eq_refl demo_universe Empty 0 demo_universe_ok no_error (λ _ _, eq_refl) demo_ts0 eq_refl (tail (tail safety_ops)) Hok)
    as (l & Hl & _).
  exists l. split; [exact Hl|vm_compute; reflexivity].
Defined.
End Demo.
