(* ===== verification/SnowmanConfidence.v ===== *)
(** * Confidence in accepted blocks

    The snow trees of different blocks learn of a poll at different times: a poll
    that does not reach a block only marks one of its ancestors with
    [shouldFalter], and the reset is applied when votes next pass through.  The
    runs the trees count are nevertheless bounded by the polls themselves, so a
    block is accepted only after [Beta] consecutive polls in which it and its
    descendants got [AlphaConfidence] votes. *)
From S2P Require Import Prelude Ids Bag Snowball SnowTree SnowTreeSafety Forest Snowman SnowmanVotes SnowmanState SnowmanDecide SnowmanSafety.

Section Confidence.
Context `{F : SnowFactory} `{!MapRange ID} (p : Parameters) `{!SnowLaws F p}.
Context (Hparams : Verify p = Ok tt).
Context (U : gmap ID Block) (genesis : ID) (genesisHeight : Z) (HU : universe_ok U genesis genesisHeight).
Context {Error : Type} (calls : list decision → decision → option Error) (Hcalls : ∀ log d, calls log d = None).
Implicit Types (ts : Topological) (B : gmap ID snowmanBlock) (R : ID → Z) (E : ID → Prop).

#[local] Abbreviation Upar := (Upar U).
#[local] Abbreviation Urank := (Urank U).
#[local] Abbreviation anc := (ancestors Upar Urank).
#[local] Abbreviation Urank_lt := (Urank_lt U genesis genesisHeight HU).
#[local] Abbreviation anc_eq := (ancestors_eq Upar Urank Urank_lt).
#[local] Abbreviation anc_self := (ancestors_self Upar Urank Urank_lt).
#[local] Abbreviation blocks_ok := (blocks_ok p U genesis).
#[local] Abbreviation chain_ok := (chain_ok p U genesis genesisHeight).

(** ** Confidence of a snow tree *)

(** The snow tree of a block was made by calls on its children; its runs are at
    most [R], unless they are out of date, and what it finalized was confirmed. *)
Definition tree_conf (current : Prop) R E (n : snowmanBlock) : Prop :=
  match sm_sb n with
  | None => True
  | Some t => ∃ c0 h, contract p c0 h ∧ t = tree_exec p c0 h ∧ (∀ x, added c0 h x ↔ x ∈ dom (sm_children n)) ∧
      (current → ∀ x, tree_run p h x ≤ R x) ∧ (Tree_Finalized t = true → E (Tree_Preference t))
  end.

Lemma tree_conf_impl (P Q : Prop) R E n : (P → Q) → tree_conf Q R E n → tree_conf P R E n.
Proof. unfold tree_conf. intros HPQ. destruct (sm_sb n) as [t|]; [|done]. intros (c0 & h & ? & ? & ? & Hr & ?). exists c0, h. eauto 10. Qed.

Lemma tree_conf_mono (P : Prop) R R' E E' n :
  (P → ∀ x, R x ≤ R' x) → (∀ x, E x → E' x) → tree_conf P R E n → tree_conf P R' E' n.
Proof.
  unfold tree_conf. intros HR HE. destruct (sm_sb n) as [t|]; [|done]. intros (c0 & h & ? & ? & ? & Hr & ?). exists c0, h.
  split_and!; auto. intros HP x. specialize (Hr HP x). specialize (HR HP x). lia.
Qed.

Lemma tree_conf_core P R E n n' : core n = core n' → tree_conf P R E n → tree_conf P R E n'.
Proof. intros [= _ Hs Hc]. unfold tree_conf. by rewrite <- Hs, <- Hc. Qed.

(** Issuing a child. *)
Lemma AddChild_conf P R E n blk : (∀ x, 0 ≤ R x) → tree_conf P R E n → (sm_sb n = None → sm_children n = ∅) → tree_conf P R E (AddChild p n blk).
Proof.
  unfold tree_conf, AddChild. intros HR Hn Hnone. destruct (sm_sb n) as [t|]; simpl.
  - destruct Hn as (c0 & h & Hc & -> & Hadd & Hr & Hfin). exists c0, (TAdd (blk_ID blk) :: h). split_and!; [done|done| |done|].
    + intros x. rewrite dom_insert_L, elem_of_union, elem_of_singleton, <- Hadd. unfold added. rewrite elem_of_cons. naive_solver.
    + intros Hf. destruct (finalized_cause p Hparams c0 (TAdd (blk_ID blk)) h) as [[Hf' Hp]|(V & ? & _)]; [done|done| |done].
      simpl in Hp. rewrite Hp. by apply Hfin.
  - exists (blk_ID blk), []. split_and!; [done|done| |done|].
    + intros x. unfold added. rewrite dom_insert_L. set_solver.
    + intros Hf. exfalso. pose proof (tree_cases p Hparams (blk_ID blk) [] I) as Ht. simpl in Ht. rewrite Hf in Ht.
      destruct (dt_run _ _ _ _ Ht) as (newer & older & Hh & Hrun). symmetry in Hh. apply app_nil in Hh as [_ ->]. simpl in Hrun.
      pose proof (params_facts p Hparams). lia.
Qed.

(** The new run of a block after a poll that gave it [k] votes. *)
Definition next_run (k : Z) (r : Z) : Z := if AlphaConfidence p <=? k then r + 1 else 0.

(** Votes for the children of a block, after the deferred reset. *)
Lemma vote_conf (falter : bool) R E E' n t V (votes : ID → Z) :
  (∀ x, 0 ≤ R x) → (∀ x, E x → E' x) → (∀ x, Beta p ≤ next_run (votes x) (R x) → E' x) →
  bag_ok V → Len V ≤ K p → (∀ x, 0 < Count V x → x ∈ dom (sm_children n)) → (∀ x, Count V x ≤ votes x) →
  sm_sb n = Some t → tree_conf (falter = false) R E n →
  let t' := (Tree_RecordPoll (if falter then Tree_RecordUnsuccessfulPoll t else t) V).1 in
  tree_conf True (λ x, next_run (votes x) (R x)) E' (mkSnowmanBlock (sm_blk n) false (Some t') (sm_children n)).
Proof.
  intros HR HE HE' Hbag HK Hin Hvotes Ht Hn t'. unfold tree_conf in *. rewrite Ht in Hn. destruct Hn as (c0 & h & Hc & -> & Hadd & Hr & Hfin).
  cbn [sm_sb sm_children].
  set (h0 := if falter then TUnsuccessful :: h else h).
  assert (contract p c0 h0) as Hc0 by (by destruct falter).
  assert (tree_exec p c0 h0 = if falter then Tree_RecordUnsuccessfulPoll (tree_exec p c0 h) else tree_exec p c0 h) as Ht0 by (by destruct falter).
  assert (∀ x, added c0 h0 x ↔ x ∈ dom (sm_children n)) as Hadd0.
  { intros x. rewrite <- Hadd. unfold h0, added. destruct falter; [|done]. rewrite elem_of_cons. naive_solver. }
  assert (contract p c0 (TPoll V :: h0)) as Hc1.
  { split; [done|]. split; [done|]. split; [done|]. intros x Hx. by apply Hadd0, Hin. }
  assert (∀ x, tree_run p (TPoll V :: h0) x ≤ next_run (votes x) (R x)) as Hrun.
  { intros x. simpl. unfold next_run. specialize (Hvotes x). specialize (HR x).
    assert (tree_run p h0 x ≤ R x) by (unfold h0; destruct falter; [done|by apply Hr]). zcases. }
  exists c0, (TPoll V :: h0). split_and!; [done|by unfold t'; rewrite <- Ht0| |done|].
  - intros x. rewrite <- Hadd0. unfold added. rewrite elem_of_cons. naive_solver.
  - intros Hf. unfold t' in *. rewrite <- Ht0 in Hf |- *.
    destruct (finalized_cause p Hparams c0 (TPoll V) h0 Hc1 Hf) as [[Hf' Hp]|(_ & _ & Hb)].
    + simpl in Hp. rewrite Hp, Ht0. apply HE. rewrite Ht0 in Hf'. destruct falter; by apply Hfin.
    + apply HE'. etrans; [exact Hb|apply Hrun].
Qed.

(** ** Deferred resets *)

Definition flagged B (a : ID) : Prop := ∃ n, B !! a = Some n ∧ sm_shouldFalter n = true.

(** A reset is on its way to [a]. *)
Definition faltering B (a : ID) : Prop := ∃ b, b ∈ anc a ∧ flagged B b.

Lemma faltering_child B c a : Upar !! c = Some a → faltering B a → faltering B c.
Proof.
  intros Hc (b & Hb & Hf). exists b. split; [|done]. rewrite anc_eq, Hc. apply elem_of_cons. by right.
Qed.

(** What the loop over the children of a block does to the flags. *)
Lemma falter_lookup f nextID (children : gmap ID Block) B x :
  falter_children f nextID children B !! x =
  (λ n, set_falter n (sm_shouldFalter n || (bool_decide (x ∈ dom children) && (f || negb (bool_decide (x = nextID)))))) <$> B !! x.
Proof.
  unfold falter_children.
  assert (bool_decide (x ∈ dom children) = bool_decide (x ∈ (map_range children).*1)) as ->.
  { apply bool_decide_ext. rewrite elem_of_dom, list_elem_of_fmap. split.
    - intros [b Hb]. exists (x, b). split; [done|]. by apply elem_of_map_range.
    - intros ([y b] & -> & Hb%elem_of_map_range). by eexists. }
  generalize (map_range children). intros l. revert B. induction l as [|[c b] l IH]; intros B.
  { rewrite bool_decide_false by apply not_elem_of_nil. cbn [foldl andb]. destruct (B !! x) as [[]|]; [|done]. simpl. unfold set_falter. simpl. by rewrite orb_false_r. }
  rewrite fmap_cons. cbn [foldl fst]. rewrite IH. clear IH. destruct (decide (x = c)) as [->|Hne].
  - rewrite (bool_decide_true (c ∈ c :: l.*1)) by (apply elem_of_cons; by left).
    destruct f; cbn [negb andb orb].
    + rewrite lookup_alter_eq. destruct (B !! c) as [[]|]; simpl; [|done]. unfold set_falter. simpl. by rewrite !orb_true_r.
    + destruct (bool_decide (c = nextID)); cbn [negb andb orb].
      * by rewrite !andb_false_r.
      * rewrite lookup_alter_eq. destruct (B !! c) as [[]|]; simpl; [|done]. unfold set_falter. simpl. by rewrite !orb_true_r.
  - assert (bool_decide (x ∈ c :: l.*1) = bool_decide (x ∈ l.*1)) as ->.
    { apply bool_decide_ext. rewrite elem_of_cons. naive_solver. }
    destruct (negb f && bool_decide (c = nextID)); [done|]. by rewrite lookup_alter_ne.
Qed.

(** ** The loop of [vote] *)

Section Poll.
Context (ts0 : Topological) (issued : list ID) (Hempty : U !! Empty = None).
Context (votes_of R0 : ID → Z) (HR0 : ∀ x, 0 ≤ R0 x) (E : ID → Prop).
#[local] Abbreviation R1 := (λ x, next_run (votes_of x) (R0 x)).
Context (HE : ∀ x, Beta p ≤ R1 x → E x).

Definition head_is (vs : list votes) (x : ID) : Prop := match vs with [] => False | v :: _ => vt_parentID v = x end.

(** The blocks [X] have been voted on, those of [vs] are next. *)
Record conf_loop (vs : list votes) (X : list ID) ts : Prop := {
  cl_done a n : ts_blocks ts !! a = Some n → a ∈ X → tree_conf True R1 E n ∧ sm_shouldFalter n = false;
  cl_rest a n : ts_blocks ts !! a = Some n → a ∉ X → tree_conf (¬ faltering (ts_blocks ts) a) R0 E n;
  cl_child c x : is_Some (ts_blocks ts !! c) → x ∈ X → Upar !! c = Some x → c ∈ X ∨ flagged (ts_blocks ts) c ∨ head_is vs c;
  cl_root : ts_lastAcceptedID ts ∈ X ∨ (∃ x, x ∈ X ∧ Upar !! ts_lastAcceptedID ts = Some x) ∨ head_is vs (ts_lastAcceptedID ts);
  cl_below v x : v ∈ vs → x ∈ X → vt_parentID v ∉ anc x;
  cl_above v z : head_is vs v → is_Some (ts_blocks ts !! z) → z ∈ anc v → z ≠ v → z ∈ X;
  cl_accepted y : y ∈ accepted (ts_calls ts) → E y;
  cl_votes v c : v ∈ vs → Count (vt_votes v) c ≤ votes_of c;
}.

(** When the loop ends, a reset is on its way to every block it did not reach. *)
Lemma conf_loop_end vs X ts a :
  blocks_ok (ts_blocks ts) (ts_lastAcceptedID ts) → conf_loop vs X ts →
  match vs with [] => True | v :: _ => ts_blocks ts !! vt_parentID v = None end →
  is_Some (ts_blocks ts !! a) → a ∈ X ∨ faltering (ts_blocks ts) a.
Proof.
  intros Hb Hj Hend. assert (∀ c, is_Some (ts_blocks ts !! c) → ¬ head_is vs c) as Hhead.
  { intros c [m Hm]. destruct vs as [|v vs]; [by intros []|]. simpl. intros <-. congruence. }
  assert (∀ c x, is_Some (ts_blocks ts !! c) → x ∈ X → Upar !! c = Some x → c ∈ X ∨ faltering (ts_blocks ts) c) as Hstep.
  { intros c x Hc Hx Hp. destruct (cl_child _ _ _ Hj c x Hc Hx Hp) as [?|[?|Hh]]; [by left| |by apply Hhead in Hh].
    right. exists c. split; [apply anc_self|done]. }
  revert a. apply (forest_ind Upar Urank Urank_lt (λ a, is_Some (ts_blocks ts !! a) → a ∈ X ∨ faltering (ts_blocks ts) a)).
  intros a IH Ha. destruct (decide (a = ts_lastAcceptedID ts)) as [->|Hla].
  - destruct (cl_root _ _ _ Hj) as [?|[(x & Hx & Hp)|Hh]]; [by left|by eapply Hstep|by apply Hhead in Hh].
  - destruct (blocks_step _ _ _ _ HU _ _ _ Hb Ha Hla) as (b & HUa & Hp & _).
    assert (Upar !! a = Some (blk_Parent b)) as Hq by (apply Upar_Some; eauto).
    destruct (IH _ Hq Hp) as [?|?]; [by eapply Hstep|right; by eapply faltering_child].
Qed.

(** One round of the loop. *)
Section Round.
Context (X : list ID) (ts : Topological) (v : votes) (vs : list votes) (n : snowmanBlock) (t' : Tree) (ts1 : Topological).
Context (Hround : vote_round p U genesis genesisHeight ts0 issued X ts v vs n t' ts1) (Hj : conf_loop (v :: vs) X ts).
#[local] Abbreviation x := (vt_parentID v).
#[local] Abbreviation n' := (mkSnowmanBlock (sm_blk n) false (Some t') (sm_children n)).
#[local] Abbreviation next := (match vs with w :: _ => vt_parentID w | [] => Empty end).
#[local] Abbreviation B2 := (falter_children (sm_shouldFalter n) next (sm_children n) (ts_blocks ts1)).

Lemma round_blocks : blocks_ok (ts_blocks ts) (ts_lastAcceptedID ts) ∧ blocks_ok (ts_blocks ts1) (ts_lastAcceptedID ts1).
Proof.
  destruct (vr_mid _ _ _ _ _ _ _ _ _ _ _ _ _ Hround) as (A & np & on & Hmid & _).
  destruct (vr_mid' _ _ _ _ _ _ _ _ _ _ _ _ _ Hround) as (A' & np' & Hmid'). split; [apply Hmid|apply Hmid'].
Qed.

Lemma round_descends : descends U x vs.
Proof. destruct (vr_mid _ _ _ _ _ _ _ _ _ _ _ _ _ Hround) as (A & np & on & _ & [Hd _]). done. Qed.

(** The blocks after the round, with their flags. *)
Lemma round_lookup y m :
  B2 !! y = Some m → ∃ m1, core m1 = core m ∧
    sm_shouldFalter m = sm_shouldFalter m1 || (bool_decide (y ∈ dom (sm_children n)) && (sm_shouldFalter n || negb (bool_decide (y = next)))) ∧
    ts_blocks ts1 !! y = Some m1 ∧ ((y = x ∧ m1 = n') ∨ (y ≠ x ∧ ts_blocks ts !! y = Some m1)).
Proof.
  rewrite falter_lookup. intros (m1 & Hm1 & ->)%fmap_Some. exists m1. split_and!; [done|done|done|].
  apply (vr_blocks _ _ _ _ _ _ _ _ _ _ _ _ _ Hround) in Hm1. apply lookup_insert_Some in Hm1 as [[<- <-]|[Hne Hm1]]; [by left|right; by split].
Qed.

Lemma round_dom y : is_Some (B2 !! y) ↔ is_Some (ts_blocks ts1 !! y).
Proof. rewrite falter_lookup. apply fmap_is_Some. Qed.

Lemma round_old y : is_Some (B2 !! y) → y = x ∨ is_Some (ts_blocks ts !! y).
Proof. intros [m (m1 & _ & _ & _ & [[-> _]|[_ Hm1]])%round_lookup]; [by left|right; by eexists]. Qed.

Lemma round_child y b : sm_children n !! y = Some b ↔ is_Some (ts_blocks ts !! y) ∧ Upar !! y = Some x ∧ U !! y = Some b.
Proof.
  destruct round_blocks as [Hb _]. pose proof (vr_block _ _ _ _ _ _ _ _ _ _ _ _ _ Hround) as Hn.
  rewrite (bo_children _ _ _ _ _ Hb x n Hn), Upar_Some. split; [naive_solver|]. intros (Hy & (b' & Hb' & Hp) & HUy).
  assert (b' = b) as -> by congruence. split_and!; try done. intros ->.
  pose proof (blocks_descend _ _ _ _ HU _ _ _ Hb (ex_intro _ n Hn)) as Ha. apply (ancestors_rank Upar Urank Urank_lt) in Ha.
  assert (Upar !! ts_lastAcceptedID ts = Some x) as Hup by (apply Upar_Some; eauto). apply Urank_lt in Hup. lia.
Qed.

Lemma child_dom y : y ∈ dom (sm_children n) ↔ is_Some (ts_blocks ts !! y) ∧ Upar !! y = Some x.
Proof.
  rewrite elem_of_dom. split.
  - intros [b Hb]. apply round_child in Hb. naive_solver.
  - intros [Hy Hp]. pose proof Hp as (b & Hb & _)%Upar_Some. exists b. by apply round_child.
Qed.

(** A block between a remaining block and the voted one remains. *)
Lemma round_between a b :
  is_Some (ts_blocks ts1 !! a) → b ∈ anc a → is_Some (ts_blocks ts !! b) → b ≠ x → is_Some (ts_blocks ts1 !! b).
Proof.
  intros Ha Hba Hb Hbx. destruct round_blocks as [Hb0 Hb1]. pose proof (blocks_descend _ _ _ _ HU _ _ _ Hb1 Ha) as Hla.
  destruct (ancestors_linear Upar Urank Urank_lt _ _ _ Hba Hla) as [Hup|Hup]; [|by apply (anc_between p U genesis genesisHeight HU _ _ a b Hb1)].
  pose proof (blocks_descend _ _ _ _ HU _ _ _ Hb0 Hb) as Hlb.
  assert (∀ y z, y ∈ anc z → z ∈ anc y → y = z) as Hanti.
  { intros y z H1 H2. destruct (decide (y = z)) as [|Hne]; [done|]. apply (anc_strict _ _ _ HU) in H1; [|done]. apply (ancestors_rank Upar Urank Urank_lt) in H2. lia. }
  destruct (vr_last _ _ _ _ _ _ _ _ _ _ _ _ _ Hround) as [Heq|[Hx Hp]].
  - rewrite Heq in Hup. rewrite (Hanti _ _ Hup Hlb), <- Heq. apply (bo_root _ _ _ _ _ Hb1).
  - rewrite anc_eq, Hp in Hup. apply elem_of_cons in Hup as [->|Hup]; [apply (bo_root _ _ _ _ _ Hb1)|].
    rewrite Hx in Hlb. by destruct Hbx; apply Hanti.
Qed.

Lemma head_unvoted : x ∉ X.
Proof. intros Hx. apply (cl_below _ _ _ Hj v x); [by left|done|apply anc_self]. Qed.

(** Resets on their way stay on their way, below the voted block. *)
Lemma round_faltering a : is_Some (B2 !! a) → a ≠ x → faltering (ts_blocks ts) a → faltering B2 a.
Proof.
  intros Ha%round_dom Hax (b & Hba & m & Hm & Hf). destruct (decide (b = x)) as [->|Hbx].
  - assert (m = n) as -> by (pose proof (vr_block _ _ _ _ _ _ _ _ _ _ _ _ _ Hround); congruence).
    assert (∃ c, c ∈ anc a ∧ Upar !! c = Some x) as (c & Hca & Hcp).
    { clear Ha. revert a Hax Hba. apply (forest_ind Upar Urank Urank_lt (λ a, a ≠ x → x ∈ anc a → ∃ c, c ∈ anc a ∧ Upar !! c = Some x)).
      intros a IH Hax. rewrite anc_eq. intros [?|Hx]%elem_of_cons; [done|]. destruct (Upar !! a) as [q|] eqn:Hq; [|by apply not_elem_of_nil in Hx].
      destruct (decide (q = x)) as [->|Hqx]; [exists a; split; [by left|done]|]. destruct (IH q eq_refl Hqx Hx) as (c & Hc & Hp).
      exists c. split; [|done]. apply elem_of_cons. by right. }
    destruct round_blocks as [Hb0 Hb1]. assert (x ≠ c) as Hxc by (intros Heq; rewrite <- Heq in Hcp; apply Urank_lt in Hcp; lia).
    assert (is_Some (ts_blocks ts !! c)) as Hc0.
    { apply (anc_between p U genesis genesisHeight HU _ _ a c Hb0); [|done|].
      - destruct Ha as [ma Hma]. apply (vr_blocks _ _ _ _ _ _ _ _ _ _ _ _ _ Hround) in Hma. rewrite lookup_insert_ne in Hma by done. by eexists.
      - rewrite anc_eq, Hcp. apply elem_of_cons. right. by apply (blocks_descend _ _ _ _ HU _ _ _ Hb0); eexists. }
    destruct (round_between a c Ha Hca Hc0 ltac:(done)) as [mc Hmc].
    exists c. split; [done|]. eexists. rewrite falter_lookup, Hmc. split; [done|]. simpl. rewrite Hf. simpl.
    rewrite bool_decide_true; [by rewrite orb_true_r|]. by apply child_dom.
  - destruct (round_between a b Ha Hba ltac:(by eexists) Hbx) as [m1 Hm1]. exists b. split; [done|].
    eexists. rewrite falter_lookup, Hm1. split; [done|]. simpl.
    apply (vr_blocks _ _ _ _ _ _ _ _ _ _ _ _ _ Hround) in Hm1. apply lookup_insert_Some in Hm1 as [[Heq _]|[_ Hm1]]; [done|].
    assert (m1 = m) as -> by congruence. by rewrite Hf.
Qed.

(** The snow tree of the voted block is up to date after the round. *)
Lemma round_conf : tree_conf True R1 E n'.
Proof.
  pose proof (vr_block _ _ _ _ _ _ _ _ _ _ _ _ _ Hround) as Hn.
  destruct (vr_vote _ _ _ _ _ _ _ _ _ _ _ _ _ Hround) as (Hbag & HK & _ & Hin).
  destruct (vr_tree _ _ _ _ _ _ _ _ _ _ _ _ _ Hround) as (t & Ht & Heq). rewrite Heq.
  destruct (vr_mid _ _ _ _ _ _ _ _ _ _ _ _ _ Hround) as (A & np & on & Hmid & _).
  destruct (mi_frame _ _ _ _ _ _ _ _ _ _ Hmid _ _ Hn) as (n0 & Hn0 & Hch & _).
  apply (vote_conf (sm_shouldFalter n) R0 E E n t (vt_votes v) votes_of); try done.
  - intros c Hc. rewrite Hch. by apply (Hin n0).
  - intros c. apply (cl_votes _ _ _ Hj). by left.
  - eapply tree_conf_impl; [|apply (cl_rest _ _ _ Hj _ _ Hn head_unvoted)].
    intros Hf (b & Hb & m & Hm & Hfm). destruct (decide (b = x)) as [->|Hbx]; [congruence|].
    assert (b ∈ X) as HbX by (by apply (cl_above _ _ _ Hj x b); [|eexists| |]).
    destruct (cl_done _ _ _ Hj _ _ Hm HbX). congruence.
Qed.

Lemma round_done a m : B2 !! a = Some m → a ∈ x :: X → tree_conf True R1 E m ∧ sm_shouldFalter m = false.
Proof.
  intros (m1 & Hcore & Hfm & _ & Hcase)%round_lookup Ha. rewrite Hfm.
  assert (x ∈ anc a → a ≠ x → False) as Habove.
  { intros Hxa Hax. apply elem_of_cons in Ha as [|Ha]; [done|]. apply (cl_below _ _ _ Hj v a); [by left|done|done]. }
  rewrite (bool_decide_false (a ∈ dom (sm_children n))); last first.
  { intros [_ Hp]%child_dom. apply Habove.
    - rewrite anc_eq, Hp. apply elem_of_cons. right. apply anc_self.
    - intros ->. apply Urank_lt in Hp. lia. }
  rewrite orb_false_r. destruct Hcase as [[-> ->]|[Hax Hm1]].
  - split; [|done]. eapply tree_conf_core; [exact Hcore|]. apply round_conf.
  - apply elem_of_cons in Ha as [|Ha]; [done|]. destruct (cl_done _ _ _ Hj _ _ Hm1 Ha) as [Hc Hf].
    split; [|done]. by eapply tree_conf_core.
Qed.

Lemma round_head_child c : is_Some (B2 !! c) → Upar !! c = Some x → flagged B2 c ∨ head_is vs c.
Proof.
  intros [m Hm] Hp. pose proof (round_lookup _ _ Hm) as (m1 & _ & Hf & _ & Hcase).
  assert (c ≠ x) as Hcx by (intros ->; apply Urank_lt in Hp; lia). destruct Hcase as [[? _]|[_ Hm1]]; [done|].
  rewrite (bool_decide_true (c ∈ _)) in Hf by (apply child_dom; split; [by eexists|done]).
  destruct (decide (c = next)) as [Hnext|Hnext]; last first.
  { left. exists m. split; [done|]. by rewrite Hf, (bool_decide_false (c = _)), !orb_true_r by done. }
  right. destruct vs as [|w vs']; [|done]. simpl in Hnext. rewrite Hnext in Hp. apply Upar_Some in Hp as (b & Hb & _). congruence.
Qed.

Lemma conf_round : conf_loop vs (x :: X) (set_blocks ts1 B2).
Proof.
  pose proof round_descends as Hd. split; cbn [set_blocks ts_blocks ts_calls ts_lastAcceptedID].
  - apply round_done.
  - intros a m Hm Ha. apply not_elem_of_cons in Ha as [Hax Ha]. pose proof (round_lookup _ _ Hm) as (m1 & Hcore & _ & _ & [[? _]|[_ Hm1]]); [done|].
    eapply tree_conf_core; [exact Hcore|]. eapply tree_conf_impl; [|apply (cl_rest _ _ _ Hj _ _ Hm1 Ha)].
    intros Hnf Hf. apply Hnf, round_faltering; [by eexists|done|done].
  - intros c y Hc Hy Hp. apply elem_of_cons in Hy as [->|Hy]; [right; by apply round_head_child|].
    destruct (decide (c = x)) as [->|Hcx]; [left; by left|]. destruct Hc as [m Hm].
    pose proof (round_lookup _ _ Hm) as (m1 & _ & Hfm & _ & [[? _]|[_ Hm1]]); [done|].
    destruct (cl_child _ _ _ Hj c y ltac:(by eexists) Hy Hp) as [?|[(m2 & Hm2 & Hf)|Hh]]; [left; by right| |by simpl in Hh; congruence].
    right. left. exists m. split; [done|]. assert (m2 = m1) as -> by congruence. by rewrite Hfm, Hf.
  - destruct (vr_last _ _ _ _ _ _ _ _ _ _ _ _ _ Hround) as [->|[_ Hp]]; [|right; left; exists x; split; [by left|done]].
    destruct (cl_root _ _ _ Hj) as [?|[(y & Hy & Hp)|Hh]]; [left; by right|right; left; exists y; split; [by right|done]|left; simpl in Hh; rewrite Hh; by left].
  - intros w y Hw Hy. apply elem_of_cons in Hy as [->|Hy]; [|apply (cl_below _ _ _ Hj); [by right|done]].
    destruct (descends_anc _ _ _ HU _ _ _ Hd Hw) as [Ha Hne]. apply (anc_strict _ _ _ HU) in Ha; [|done].
    intros Hr%(ancestors_rank Upar Urank Urank_lt). lia.
  - intros w z Hw Hz%round_old Hzw Hne. destruct vs as [|u vs']; [done|]. simpl in Hw, Hd. subst w. destruct Hd as [Hu _].
    rewrite anc_eq, Hu in Hzw. apply elem_of_cons in Hzw as [|Hzx]; [done|]. destruct (decide (z = x)) as [->|Hzx']; [by left|right].
    apply (cl_above _ _ _ Hj x z); [done|by destruct Hz|done|done].
  - intros y Hy. apply (vr_accepted _ _ _ _ _ _ _ _ _ _ _ _ _ Hround) in Hy as [Hy|[-> Hf]]; [by apply (cl_accepted _ _ _ Hj)|].
    pose proof round_conf as (c0 & h & _ & _ & _ & _ & Hfin). by apply Hfin.
  - intros w c Hw. apply (cl_votes _ _ _ Hj). by right.
Qed.
End Round.
End Poll.

(** ** Calls *)

(** Between calls: the snow trees that no reset is on its way to count at most
    the runs [R], and what is finalized or accepted was confirmed. *)
Definition conf R E ts : Prop :=
  (∀ a n, ts_blocks ts !! a = Some n → tree_conf (¬ faltering (ts_blocks ts) a) R E n) ∧
  ∀ y, y ∈ accepted (ts_calls ts) → E y.

Lemma conf_mono R E E' ts : (∀ x, E x → E' x) → conf R E ts → conf R E' ts.
Proof. intros HE [H1 H2]. split; [|auto]. intros a n Hn. eapply tree_conf_mono; [|exact HE|by apply H1]. done. Qed.

Lemma Add_conf ts issued blk R E :
  chain_ok ts issued → U !! blk_ID blk = Some blk → (∀ x, 0 ≤ R x) → conf R E ts → conf R E (ts_Add (Error := Error) blk ts).1.
Proof.
  intros Hc HUb HR Hconf. destruct (ts_Add_spec (Error := Error) p Hparams U genesis genesisHeight HU ts issued blk Hc HUb) as (ts' & r & Hadd & Hr).
  rewrite Hadd. simpl. destruct r as [[]|e]; [|by destruct Hr as [-> _]]. destruct Hr as [_ Hc'].
  unfold ts_Add in Hadd. mrun. destruct (Processing ts (blk_ID blk)) eqn:Hproc; [done|].
  destruct (ts_blocks ts !! blk_Parent blk) as [n|] eqn:Hn; [|done]. unfold conf. rewrite (co_params _ _ _ _ _ _ Hc) in Hadd. destruct Hconf as [H1 H2].
  set (B' := <[blk_ID blk := mkSnowmanBlock (Some blk) false None ∅]> (<[blk_Parent blk := AddChild p n blk]> (ts_blocks ts))) in *.
  assert (ts_blocks ts' = B' ∧ ts_calls ts' = ts_calls ts) as [-> ->] by (case_decide; injection Hadd as <-; done).
  split; [|done]. assert (∀ a, faltering (ts_blocks ts) a → a ≠ blk_ID blk → faltering B' a) as Hfalter.
  { intros a (b & Hb & m & Hm & Hf) Ha. exists b. split; [done|].
    assert (b ≠ blk_ID blk) as Hne.
    { intros ->. pose proof (Add_fresh _ _ _ _ HU _ _ _ _ Hc HUb Hproc Hn). congruence. }
    unfold flagged, B'. rewrite lookup_insert_ne by done. destruct (decide (b = blk_Parent blk)) as [->|Hbp].
    - rewrite lookup_insert_eq. eexists. split; [done|]. assert (m = n) as -> by congruence. unfold AddChild. by destruct (sm_sb n).
    - rewrite lookup_insert_ne by done. eauto. }
  intros a m [[<- <-]|[Ha [[<- <-]|[Hap Hm]]%lookup_insert_Some]]%lookup_insert_Some; [done| |].
  - apply AddChild_conf; [done| |].
    + eapply tree_conf_impl; [|by apply H1]. naive_solver.
    + intros Hnone. pose proof (bo_sb _ _ _ _ _ (co_blocks _ _ _ _ _ _ Hc) _ _ Hn) as Hok. unfold sb_ok in Hok. by rewrite Hnone in Hok.
  - eapply tree_conf_impl; [|by apply H1]. naive_solver.
Qed.

Context (Hempty : U !! Empty = None).

(** Votes, and the loop over them, bring the runs up to date. *)
Lemma vote_conf_all ts ts' np issued V stack R E E' :
  chain_ok ts issued → bag_ok V → Len V ≤ K p → vote_stack ts V stack → vote calls stack ts = (ts', Ok np) →
  (∀ x, 0 ≤ R x) → conf R E ts → (∀ x, E x → E' x) → (∀ x, Beta p ≤ next_run (block_votes ts V x) (R x) → E' x) →
  conf (λ x, next_run (block_votes ts V x) (R x)) E' ts'.
Proof.
  intros Hc Hbag HK Hst Hrun HR Hconf HE HE'. apply (conf_mono R E E' ts HE) in Hconf as [H1 H2]. pose proof (co_blocks _ _ _ _ _ _ Hc) as Hb.
  unfold vote in Hrun. mrun. destruct stack as [|v stack].
  - destruct (bo_root _ _ _ _ _ Hb) as [n Hn]. rewrite Hn in Hrun. injection Hrun as <- _. split; [|done].
    simpl. intros a m Hm. assert (faltering (<[ts_lastAcceptedID ts := set_falter n true]> (ts_blocks ts)) a) as Hf.
    { exists (ts_lastAcceptedID ts). split; [|eexists; split; [apply lookup_insert_eq|done]].
      apply (blocks_descend _ _ _ _ HU _ _ _ Hb). apply lookup_insert_Some in Hm as [[<- _]|[_ Hm]]; by eexists. }
    assert (∃ m0, ts_blocks ts !! a = Some m0 ∧ core m0 = core m) as (m0 & Hm0 & Hcore).
    { apply lookup_insert_Some in Hm as [[<- <-]|[_ Hm]]; [by exists n|by exists m]. }
    eapply tree_conf_core; [exact Hcore|]. eapply (tree_conf_mono _ R _ E'); [|done|].
    + done.
    + eapply tree_conf_impl; [|by apply H1]. done.
  - destruct (vote_loop_spec p Hparams U genesis genesisHeight HU calls Hcalls ts issued (conf_loop (block_votes ts V) R E')
      (reverse (v :: stack)) (ts_lastAcceptedID ts) true [] [] ts) as (A & X & np' & ts2 & vs' & Hrun' & Hmid & Hj & Hend).
    + intros X1 ts1 w vs n t' ts2 Hround Hj. by eapply conf_round.
    + by apply mid_start.
    + by eapply pushed_position.
    + apply Forall_forall. intros w Hw. rewrite elem_of_reverse in Hw. by eapply pushed_vote_ok.
    + pose proof (pushed_position p U genesis genesisHeight HU ts issued V _ Hc Hst) as Hpos.
      split; try (by intros ??? ?%not_elem_of_nil); try (by intros ?? ? ?%not_elem_of_nil); try done.
      * intros a n Hn _. by apply H1.
      * right. right. destruct (reverse (v :: stack)) as [|w vs] eqn:Hrev; [|by destruct Hpos].
        apply (f_equal length) in Hrev. by rewrite length_reverse in Hrev.
      * intros w z Hw Hz Hzw Hne. destruct (reverse (v :: stack)) as [|u vs]; [done|]. destruct Hpos as [_ Hu]. simpl in Hw. exfalso.
        assert (w = ts_lastAcceptedID ts) as -> by congruence. apply (anc_strict _ _ _ HU) in Hzw; [|done].
        pose proof (blocks_descend _ _ _ _ HU _ _ _ Hb Hz) as Hr%(ancestors_rank Upar Urank Urank_lt). lia.
      * intros w c Hw. rewrite elem_of_reverse in Hw. destruct (vs_bags _ _ _ Hst w Hw) as [_ ->]. case_decide; [done|].
        by apply total_nonneg.
    + rewrite Hrun' in Hrun. injection Hrun as <- _. split; [|apply (cl_accepted _ _ _ _ _ _ Hj)].
      intros a n Hn. destruct (conf_loop_end _ _ _ _ _ _ _ (mi_blocks _ _ _ _ _ _ _ _ _ _ Hmid) Hj Hend (ex_intro _ n Hn)) as [Ha|Hf].
      * eapply tree_conf_impl; [|exact (proj1 (cl_done _ _ _ _ _ _ Hj a n Hn Ha))]. done.
      * destruct (decide (a ∈ X)) as [Ha|Ha]; [eapply tree_conf_impl; [|exact (proj1 (cl_done _ _ _ _ _ _ Hj a n Hn Ha))]; done|].
        eapply (tree_conf_mono _ R _ E'); [|done|by apply (cl_rest _ _ _ _ _ _ Hj)]. done.
Qed.

(** The votes of a poll depend on the blocks and the last accepted one only. *)
Lemma block_votes_frame ts ts' V x :
  ts_blocks ts' = ts_blocks ts → ts_lastAcceptedID ts' = ts_lastAcceptedID ts →
  ts_lastAcceptedHeight ts' = ts_lastAcceptedHeight ts → block_votes ts' V x = block_votes ts V x.
Proof. destruct ts, ts'. simpl. by intros -> -> ->. Qed.

Lemma RecordPoll_conf ts issued V R E E' :
  chain_ok ts issued → bag_ok V → Len V ≤ K p → (∀ x, 0 ≤ R x) → conf R E ts →
  (∀ x, E x → E' x) → (∀ x, Beta p ≤ next_run (block_votes ts V x) (R x) → E' x) →
  conf (λ x, next_run (block_votes ts V x) (R x)) E' (Snowman.RecordPoll calls V ts).1.
Proof.
  intros Hc Hbag HK HR Hconf HE HE'.
  destruct (RecordPoll_steps p Hparams U genesis genesisHeight HU calls Hcalls ts issued V Hc Hbag HK)
    as (ts1 & stack & np & ts2 & ts' & -> & _ & Hc1 & E1 & E2 & E3 & E4 & Hst & Hvote & E5 & E6 & E7). simpl.
  assert (∀ x, block_votes ts1 V x = block_votes ts V x) as Hvotes by (intros x; by apply block_votes_frame).
  unfold conf. rewrite E5, E7. destruct (vote_conf_all ts1 ts2 np issued V stack R E E' Hc1 Hbag HK Hst Hvote HR) as [H1 H2].
  - destruct Hconf as [H1 H2]. unfold conf. by rewrite E1, E3.
  - done.
  - intros x. rewrite Hvotes. apply HE'.
  - split; [|done]. intros a n Hn. eapply (tree_conf_mono _ _ _ E' E'); [|done|exact (H1 a n Hn)]. intros _ x. simpl. by rewrite Hvotes.
Qed.

(** ** Histories *)

Context (ts0 : Topological) (Hinit : Initialize (Error := Error) p genesis genesisHeight = Ok ts0).

(** The number of most recent consecutive polls in which the block [x] and its
    descendants got at least [AlphaConfidence] votes, counted when each poll was
    recorded. *)
Fixpoint run_conf (ops : list ts_op) (x : ID) : Z :=
  match ops with
  | [] => 0
  | OpAdd _ :: ops => run_conf ops x
  | OpPoll V :: ops => next_run (block_votes (ts_run calls ts0 ops).1 V x) (run_conf ops x)
  end.

(** [x] reached [Beta] consecutive polls at some point. *)
Definition confirmed (ops : list ts_op) (x : ID) : Prop :=
  ∃ newer older, ops = newer ++ older ∧ Beta p ≤ run_conf older x.

Lemma run_conf_nonneg ops x : 0 ≤ run_conf ops x.
Proof. induction ops as [|[blk|V] ops IH]; simpl; [done|done|]. unfold next_run. zcases. Qed.

Lemma confirmed_cons op ops x : confirmed ops x → confirmed (op :: ops) x.
Proof. intros (newer & older & -> & Hr). by exists (op :: newer), older. Qed.

Lemma ts_run_conf ops :
  Forall (ts_op_ok p U) ops → conf (run_conf ops) (confirmed ops) (ts_run calls ts0 ops).1.
Proof.
  intros Hops. induction Hops as [|op ops Hop Hops IH].
  - unfold Initialize in Hinit. rewrite Hparams in Hinit. injection Hinit as <-. split; simpl; [|by intros ? ?%not_elem_of_nil].
    by intros a n [<- <-]%lookup_singleton_Some.
  - pose proof (ts_run_ok p Hparams U genesis genesisHeight HU calls Hcalls ts0 ops (Initialize_ok p Hparams U genesis genesisHeight HU calls Hcalls _ Hinit) Hops) as Hc.
    assert ((ts_run calls ts0 (op :: ops)).1 = (ts_step calls (ts_run calls ts0 ops).1 op).1) as ->.
    { simpl. destruct (ts_run calls ts0 ops) as [ts rs]. simpl. by destruct (ts_step calls ts op). }
    destruct op as [blk|V]; simpl.
    + apply (conf_mono _ (confirmed ops)); [apply confirmed_cons|]. eapply Add_conf; [exact Hc|done|apply run_conf_nonneg|done].
    + destruct Hop as [Hbag HK]. eapply RecordPoll_conf; [exact Hc|done|done|apply run_conf_nonneg|exact IH|apply confirmed_cons|].
      intros x Hx. by exists [], (OpPoll V :: ops).
Qed.

(** C3: an accepted block was confirmed by the network: at some point, [Beta]
    consecutive polls had each given the block and its descendants at least
    [AlphaConfidence] votes, although the snow trees learn of the polls that pass
    them by only later. *)
Theorem snowman_accept_beta (ops : list ts_op) x :
  Forall (ts_op_ok p U) ops → x ∈ accepted (ts_calls (ts_run calls ts0 ops).1) →
  ∃ newer older, ops = newer ++ older ∧ Beta p ≤ run_conf older x.
Proof. intros Hops Hx. by apply (proj2 (ts_run_conf ops Hops)). Qed.
End Confidence.

(** ** Witness *)

Section ConfidenceDemo.
#[local] Existing Instance safety_range.
#[local] Existing Instance snowflakeFactory.
#[local] Existing Instance small_laws.

Lemma snowman_accept_beta_witness :
  id_one ∈ accepted (ts_calls (ts_run no_error demo_ts0 safety_ops).1) ∧
  ∃ newer older, safety_ops = newer ++ older ∧ Beta small_params ≤ run_conf small_params no_error demo_ts0 older id_one.
Proof.
  assert (id_one ∈ accepted (ts_calls (ts_run no_error demo_ts0 safety_ops).1)) as Hin.
  { assert (accepted (ts_calls (ts_run no_error demo_ts0 safety_ops).1) = [id_one]) as -> by (vm_compute; reflexivity). by left. }
  split; [exact Hin|].
  apply (snowman_accept_beta small_params eq_refl demo_universe Empty 0 demo_universe_ok no_error (λ _ _, eq_refl) eq_refl demo_ts0 eq_refl safety_ops id_one safety_ops_ok Hin).
Defined.
End ConfidenceDemo.
