(* ===== verification/Sampler.v ===== *)
(** * Weighted sampling without replacement (package [utils/sampler])

    [rand.go], [uniform_replacer.go], [weighted_heap.go] and
    [weighted_without_replacement_generic.go]: how a node picks the validators
    it polls.  The pseudo-random generator is a third-party package; it is an
    instance of [Source]. *)
From stdpp Require Import sorting.
From S2P Require Import Prelude SafeMath Forest.

Definition MaxInt64 : Z := 2 ^ 63 - 1.

(** ** Random numbers ([rand.go]) *)

(** The interface [Source]: a number and the advanced generator. *)
Class Source (Src : Type) : Type := { Uint64 : Src → Z * Src }.

Fixpoint draws `{Source Src} (n : nat) (s : Src) : list Z :=
  match n with O => [] | S n => let '(v, s) := Uint64 s in v :: draws n s end.

(** What the code relies on: draws are [uint64]s, and of any [patience]
    consecutive draws one is in the lowest quarter of the range. *)
Class SourceLaws (Src : Type) `{Source Src} (patience : nat) : Prop := {
  Uint64_range : ∀ s : Src, is_u64 (Uint64 s).1;
  Uint64_live : ∀ s : Src, Exists (λ v, v < 2 ^ 62) (draws patience s);
}.

Section Rng.
Context `{Source Src}.

(** [uint63] *)
Definition uint63 (s : Src) : Z * Src :=
  let '(v, s) := Uint64 s in (Z.land v MaxInt64, s).

(** [v := draw(); for v > bound { v = draw() }] *)
Fixpoint draw_until (fuel : nat) (draw : Src → Z * Src) (bound : Z) (s : Src) : option (Z * Src) :=
  match fuel with
  | O => None
  | S fuel =>
      let '(v, s) := draw s in
      if bound <? v then draw_until fuel draw bound s else Some (v, s)
  end.

(** [Uint64Inclusive] *)
Definition Uint64Inclusive (fuel : nat) (n : Z) (s : Src) : option (Z * Src) :=
  if Z.land n (wrap64 (n + 1)) =? 0 then
    let '(v, s) := Uint64 s in Some (Z.land v n, s)
  else if MaxInt64 <? n then draw_until fuel Uint64 n s
  else
    let maximum := wrap64 (2 ^ 63 - 1 - 2 ^ 63 mod wrap64 (n + 1)) in
    match draw_until fuel uint63 maximum s with
    | Some (v, s) => Some (v mod wrap64 (n + 1), s)
    | None => None
    end.
End Rng.

(** ** Uniform sampling ([uniform_replacer.go]) *)

Record uniformReplacer : Type := mkUniform {
  ur_length : Z;
  drawn : gmap Z Z;
  drawsCount : Z;
}.

(** [defaultMap.get] *)
Definition dm_get (m : gmap Z Z) (key defaultVal : Z) : Z := default defaultVal (m !! key).

(** [Initialize] *)
Definition ur_Initialize (length : Z) : uniformReplacer := mkUniform length ∅ 0.

(** [Reset] *)
Definition ur_Reset (u : uniformReplacer) : uniformReplacer := mkUniform (ur_length u) ∅ 0.

Section Uniform.
Context `{Source Src} (fuel : nat).

(** [Next]: [None] in the result is the answer [(0, false)]; no result at all
    is a generator that rejected [fuel] draws. *)
Definition ur_Next (u : uniformReplacer) (s : Src) : option (uniformReplacer * Src * option Z) :=
  if ur_length u <=? drawsCount u then Some (u, s, None) else
  match Uint64Inclusive fuel (wrap64 (ur_length u - 1 - drawsCount u)) s with
  | None => None
  | Some (r, s) =>
      let draw := wrap64 (r + drawsCount u) in
      let ret := dm_get (drawn u) draw draw in
      Some (mkUniform (ur_length u)
              (<[draw := dm_get (drawn u) (drawsCount u) (drawsCount u)]> (drawn u))
              (wrap64 (drawsCount u + 1)), s, Some ret)
  end.

(** The loop of [Sample]. *)
Fixpoint ur_draws (count : nat) (u : uniformReplacer) (s : Src)
    : option (uniformReplacer * Src * option (list Z)) :=
  match count with
  | O => Some (u, s, Some [])
  | S count =>
      match ur_Next u s with
      | None => None
      | Some (u, s, None) => Some (u, s, None)
      | Some (u, s, Some ret) =>
          match ur_draws count u s with
          | Some (u, s, Some results) => Some (u, s, Some (ret :: results))
          | r => r
          end
      end
  end.

(** [Sample]; [make] panics on a negative length. *)
Definition ur_Sample (count : Z) (u : uniformReplacer) (s : Src)
    : option (uniformReplacer * Src * option (list Z)) :=
  if count <? 0 then None else ur_draws (Z.to_nat count) (ur_Reset u) s.
End Uniform.

(** ** Weighted sampling ([weighted_heap.go]) *)

Record weightedHeapElement : Type := mkElement {
  we_weight : Z;
  cumulativeWeight : Z;
  we_index : nat;
}.

(** [Compare]: heavier elements first, then smaller indices. *)
Definition we_Compare (e other : weightedHeapElement) : comparison :=
  match we_weight other ?= we_weight e with
  | Eq => (we_index e ?= we_index other)%nat
  | c => c
  end.

Definition we_le (e other : weightedHeapElement) : Prop := we_Compare e other ≠ Gt.
#[global] Instance we_le_dec : RelDecision we_le.
Proof. intros e other. unfold we_le. apply _. Defined.

(** The loop of [Initialize] that adds every cumulative weight to the parent's,
    from the last element to the second. *)
Fixpoint heapify (i : nat) (heap : list weightedHeapElement)
    : option (list weightedHeapElement * option math_error) :=
  match i with
  | O => Some (heap, None)
  | S i' =>
      let parentIndex := Nat.shiftr i' 1 in
      match heap !! parentIndex, heap !! i with
      | Some parent, Some child =>
          match safe_Add 64 (cumulativeWeight parent) (cumulativeWeight child) with
          | Err e => Some (heap, Some e)
          | Ok newWeight =>
              heapify i' (<[parentIndex := mkElement (we_weight parent) newWeight (we_index parent)]> heap)
          end
      | _, _ => None
      end
  end.

(** [Initialize] *)
Definition wh_Initialize (weights : list Z) : option (list weightedHeapElement * option math_error) :=
  let heap := imap (λ i weight, mkElement weight weight i) weights in
  let heap := merge_sort we_le heap in
  heapify (length heap - 1) heap.

(** The loop of [Sample]. *)
Fixpoint wh_walk (fuel : nat) (heap : list weightedHeapElement) (index : nat) (value : Z)
    : option (nat * bool) :=
  match fuel with
  | O => None
  | S fuel =>
      match heap !! index with
      | None => None
      | Some currentElement =>
          if value <? we_weight currentElement then Some (we_index currentElement, true) else
          let value := value - we_weight currentElement in
          let index := (index * 2 + 1)%nat in
          match heap !! index with
          | None => None
          | Some leftElement =>
              if cumulativeWeight leftElement <=? value
              then wh_walk fuel heap (S index) (value - cumulativeWeight leftElement)
              else wh_walk fuel heap index value
          end
      end
  end.

(** [Sample] *)
Definition wh_Sample (heap : list weightedHeapElement) (value : Z) : option (nat * bool) :=
  match heap !! 0%nat with
  | None => Some (0%nat, false)
  | Some root =>
      if cumulativeWeight root <=? value then Some (0%nat, false)
      else wh_walk (length heap) heap 0 value
  end.

(** ** Weighted sampling without replacement *)

Record weightedWithoutReplacement : Type := mkWithoutReplacement {
  ww_u : uniformReplacer;
  ww_w : list weightedHeapElement;
}.

(** The loop that adds up the weights. *)
Fixpoint ww_total (weights : list Z) (totalWeight : Z) : result Z math_error :=
  match weights with
  | [] => Ok totalWeight
  | weight :: weights =>
      match safe_Add 64 totalWeight weight with
      | Err e => Err e
      | Ok newWeight => ww_total weights newWeight
      end
  end.

(** [Initialize] *)
Definition ww_Initialize (w : weightedWithoutReplacement) (weights : list Z)
    : option (weightedWithoutReplacement * option math_error) :=
  match ww_total weights 0 with
  | Err e => Some (w, Some e)
  | Ok totalWeight =>
      match wh_Initialize weights with
      | None => None
      | Some (heap, err) => Some (mkWithoutReplacement (ur_Initialize totalWeight) heap, err)
      end
  end.

Section WithoutReplacement.
Context `{Source Src} (fuel : nat).

(** The loop of [Sample]. *)
Fixpoint ww_draws (count : nat) (w : weightedWithoutReplacement) (s : Src)
    : option (weightedWithoutReplacement * Src * option (list nat)) :=
  match count with
  | O => Some (w, s, Some [])
  | S count =>
      match ur_Next fuel (ww_u w) s with
      | None => None
      | Some (u, s, None) => Some (mkWithoutReplacement u (ww_w w), s, None)
      | Some (u, s, Some weight) =>
          let w := mkWithoutReplacement u (ww_w w) in
          match wh_Sample (ww_w w) weight with
          | None => None
          | Some (_, false) => Some (w, s, None)
          | Some (index, true) =>
              match ww_draws count w s with
              | Some (w, s, Some indices) => Some (w, s, Some (index :: indices))
              | r => r
              end
          end
      end
  end.

(** [Sample] *)
Definition ww_Sample (w : weightedWithoutReplacement) (count : Z) (s : Src)
    : option (weightedWithoutReplacement * Src * option (list nat)) :=
  if count <? 0 then None
  else ww_draws (Z.to_nat count) (mkWithoutReplacement (ur_Reset (ww_u w)) (ww_w w)) s.
End WithoutReplacement.

(** ** Random numbers are in range and unbiased *)

(** What becomes of one raw draw: a result, or a rejection. *)
Definition accept (n v : Z) : option Z :=
  if Z.land n (wrap64 (n + 1)) =? 0 then Some (Z.land v n)
  else if MaxInt64 <? n then if n <? v then None else Some v
  else
    let v := Z.land v MaxInt64 in
    if wrap64 (2 ^ 63 - 1 - 2 ^ 63 mod wrap64 (n + 1)) <? v then None
    else Some (v mod wrap64 (n + 1)).

Lemma land_MaxInt64 v : Z.land v MaxInt64 = v mod 2 ^ 63.
Proof. unfold MaxInt64. rewrite <- Z.land_ones by lia. by rewrite Z.ones_equiv. Qed.

(** [n & (n + 1) == 0] holds for the numbers one below a power of two. *)
Lemma land_succ_pow2 n :
  is_u64 n → Z.land n (wrap64 (n + 1)) = 0 → ∃ k, 0 ≤ k ≤ 64 ∧ n = 2 ^ k - 1.
Proof.
  intros [Hn Hmax] Hl. destruct (decide (n = MaxUint64)) as [->|Hne]; [by exists 64|].
  rewrite wrap64_id in Hl by (split; lia). destruct (decide (n = 0)) as [->|Hn0]; [by exists 0|].
  exists (Z.log2 n + 1). pose proof (Z.log2_spec n ltac:(lia)) as [Hlo Hhi].
  pose proof (Z.log2_nonneg n). assert (Z.log2 n < 64) by (apply Z.log2_lt_pow2; unfold MaxUint64 in *; lia).
  split; [lia|]. unfold Z.succ in Hhi. destruct (decide (n + 1 = 2 ^ (Z.log2 n + 1))) as [Heq|Hneq]; [lia|].
  exfalso. assert (Z.log2 (n + 1) = Z.log2 n) as Hlog by (apply Z.log2_unique; unfold Z.succ; lia).
  assert (Z.testbit (Z.land n (n + 1)) (Z.log2 n) = true) as Ht.
  { rewrite Z.land_spec, Z.bit_log2 by lia. rewrite <- Hlog, Z.bit_log2 by lia. done. }
  by rewrite Hl, Z.bits_0 in Ht.
Qed.

(** The bound below which 63-bit draws are kept is a multiple of [n + 1], and at
    least a quarter of the range of [uint64]. *)
Lemma rejection_bound n :
  0 < n ≤ MaxInt64 →
  ∃ k, 0 < k ∧ wrap64 (2 ^ 63 - 1 - 2 ^ 63 mod wrap64 (n + 1)) + 1 = k * (n + 1) ∧
    2 ^ 62 ≤ k * (n + 1) ≤ 2 ^ 63.
Proof.
  intros [Hn Hmax]. unfold MaxInt64 in Hmax.
  rewrite (wrap64_id (n + 1)) by (split; unfold MaxUint64; lia).
  pose proof (Z.mod_pos_bound (2 ^ 63) (n + 1) ltac:(lia)) as Hm.
  pose proof (Z.div_mod (2 ^ 63) (n + 1) ltac:(lia)) as Hd.
  assert (0 < 2 ^ 63 `div` (n + 1)) by (apply Z.div_str_pos; lia).
  rewrite wrap64_id by (split; unfold MaxUint64; lia).
  exists (2 ^ 63 `div` (n + 1)). split_and!; [lia|lia| |lia].
  assert (n + 1 ≤ 2 ^ 63 `div` (n + 1) * (n + 1)) by nia. lia.
Qed.

Lemma accept_cases n : is_u64 n →
  (∃ k, 0 ≤ k ≤ 64 ∧ n = 2 ^ k - 1 ∧ ∀ v, accept n v = Some (v mod 2 ^ k)) ∨
  (MaxInt64 < n ∧ ∀ v, accept n v = if n <? v then None else Some v) ∨
  (∃ k, 0 < k ∧ 2 ^ 62 ≤ k * (n + 1) ≤ 2 ^ 63 ∧ 0 ≤ n ≤ MaxInt64 ∧
    ∀ v, accept n v = if v mod 2 ^ 63 <? k * (n + 1) then Some (v mod 2 ^ 63 mod (n + 1)) else None).
Proof.
  intros Hn. unfold accept. destruct (Z.eqb_spec (Z.land n (wrap64 (n + 1))) 0) as [Hl|Hl].
  { left. destruct (land_succ_pow2 n Hn Hl) as (k & Hk & ->). exists k. split_and!; try lia.
    intros v. rewrite <- Z.land_ones by lia. by rewrite Z.ones_equiv. }
  right. destruct (Z.ltb_spec MaxInt64 n) as [Hm|Hm]; [by left|right].
  assert (n ≠ 0) by (intros ->; by rewrite Z.land_0_l in Hl). destruct Hn as [Hn0 Hn].
  destruct (rejection_bound n) as (k & Hk & Heq & Hb); [lia|]. exists k. split_and!; try lia.
  intros v. rewrite land_MaxInt64, (wrap64_id (n + 1)) in * by (split; unfold MaxUint64, MaxInt64 in *; lia).
  cbv zeta. replace (wrap64 _ <? v mod 2 ^ 63) with (negb (v mod 2 ^ 63 <? k * (n + 1))).
  - by destruct (_ <? _).
  - zcases.
Qed.

(** Every result has the same number of raw draws that lead to it. *)
Lemma accept_uniform n : is_u64 n →
  ∃ (c : Z) (f : Z → Z → Z), 0 < c ∧ ∀ w, 0 ≤ w ≤ n →
    (∀ v, is_u64 v ∧ accept n v = Some w ↔ ∃ i, 0 ≤ i < c ∧ v = f i w) ∧
    (∀ i j, f i w = f j w → i = j).
Proof.
  intros Hn. pose proof (accept_cases n Hn) as [(k & Hk & -> & Ha)|[(Hm & Ha)|(k & Hk & Hb & Hm & Ha)]].
  - exists (2 ^ (64 - k)), (λ i w, i * 2 ^ k + w). split; [lia|]. intros w Hw.
    assert (2 ^ 64 = 2 ^ (64 - k) * 2 ^ k) as Hpow by (rewrite <- Z.pow_add_r by lia; f_equal; lia).
    assert (0 < 2 ^ k) by lia. split; [|nia].
    intros v. rewrite Ha. split.
    + intros [[Hv1 Hv2] [= <-]]. exists (v `div` 2 ^ k). split.
      * split; [apply Z.div_pos; lia|]. apply Z.div_lt_upper_bound; unfold MaxUint64 in *; lia.
      * pose proof (Z.div_mod v (2 ^ k)). lia.
    + intros (i & Hi & ->). split; [split; unfold MaxUint64; nia|].
      rewrite Z.add_comm, Z.mod_add by lia. by rewrite Z.mod_small by lia.
  - exists 1, (λ i w, i + w). split; [lia|]. intros w Hw. split; [|lia]. intros v. rewrite Ha. split.
    + intros [Hv Hs]. exists 0. split; [lia|]. destruct (Z.ltb_spec n v); [done|]. injection Hs as ->. lia.
    + intros (i & Hi & ->). replace i with 0 by lia. destruct Hn. split; [split; lia|]. zcases. done.
  - exists (2 * k), (λ i w, i `div` k * 2 ^ 63 + i mod k * (n + 1) + w). split; [lia|]. intros w Hw.
    assert (∀ i, 0 ≤ i mod k * (n + 1) + w < k * (n + 1)) as Hlow.
    { intros i. pose proof (Z.mod_pos_bound i k ltac:(lia)). nia. }
    assert (∀ i, (i `div` k * 2 ^ 63 + i mod k * (n + 1) + w) mod 2 ^ 63 = i mod k * (n + 1) + w) as Hmod.
    { intros i. rewrite <- Z.add_assoc, Z.add_comm, Z.mod_add by lia. apply Z.mod_small. specialize (Hlow i). lia. }
    split.
    + intros v. rewrite Ha. split.
      * intros [[Hv1 Hv2] Hs]. destruct (Z.ltb_spec (v mod 2 ^ 63) (k * (n + 1))) as [Hlt|]; [|done]. injection Hs as Hs.
        set (q := (v mod 2 ^ 63) `div` (n + 1)).
        assert (v mod 2 ^ 63 = q * (n + 1) + w) as Hq.
        { unfold q. rewrite <- Hs. pose proof (Z.div_mod (v mod 2 ^ 63) (n + 1) ltac:(lia)). lia. }
        pose proof (Z.mod_pos_bound v (2 ^ 63) ltac:(lia)).
        assert (0 ≤ q < k). { split; [apply Z.div_pos; lia|]. unfold q. apply Z.div_lt_upper_bound; lia. }
        exists (v `div` 2 ^ 63 * k + q).
        assert ((v `div` 2 ^ 63 * k + q) `div` k = v `div` 2 ^ 63) as ->.
        { rewrite Z.div_add_l by lia. rewrite (Z.div_small q k) by lia. lia. }
        assert ((v `div` 2 ^ 63 * k + q) mod k = q) as ->.
        { rewrite Z.add_comm, Z.mod_add by lia. by apply Z.mod_small. }
        assert (0 ≤ v `div` 2 ^ 63 < 2).
        { split; [apply Z.div_pos; lia|]. apply Z.div_lt_upper_bound; unfold MaxUint64 in *; lia. }
        pose proof (Z.div_mod v (2 ^ 63)). split; [nia|lia].
      * intros (i & Hi & ->). specialize (Hlow i). rewrite Hmod.
        assert (0 ≤ i `div` k < 2) by (split; [apply Z.div_pos; lia|apply Z.div_lt_upper_bound; lia]).
        split; [split; unfold MaxUint64; lia|]. rewrite (proj2 (Z.ltb_lt _ _)) by lia.
        rewrite Z.add_comm, Z.mod_add by lia. by rewrite Z.mod_small by lia.
    + intros i j Hij. pose proof (f_equal (λ z, z mod 2 ^ 63) Hij) as Hm'. cbv beta in Hm'. rewrite !Hmod in Hm'.
      assert (i mod k = j mod k) as Hk' by nia. assert (i `div` k = j `div` k) as Hd' by lia.
      rewrite (Z.div_mod i k), (Z.div_mod j k) by lia. by rewrite Hk', Hd'.
Qed.

Section RngProofs.
Context `{SourceLaws Src patience}.
Implicit Types s : Src.

(** A loop that keeps every draw below [2 ^ 62] ends within [patience] draws. *)
Lemma draw_until_spec (draw : Src → Z * Src) (g : Z → Z) bound fuel s :
  (∀ s, draw s = let '(v, s) := Uint64 s in (g v, s)) →
  (∀ v, is_u64 v → v < 2 ^ 62 → g v ≤ bound) →
  Exists (λ v, v < 2 ^ 62) (draws fuel s) →
  ∃ v s', draw_until fuel draw bound s = Some (v, s') ∧ v ≤ bound ∧
    head (omap (λ v, if bound <? g v then None else Some (g v)) (draws fuel s)) = Some v.
Proof.
  intros Hdraw Hg. revert s. induction fuel as [|fuel IH]; intros s Hlive; [by apply Exists_nil in Hlive|].
  cbn [draws draw_until] in *. rewrite Hdraw. pose proof (Uint64_range s) as Hr.
  destruct (Uint64 s) as [v s']. simpl in Hr. simpl. destruct (Z.ltb_spec bound (g v)) as [Hlt|Hle].
  - apply Exists_cons in Hlive as [Hv|Hlive]; [specialize (Hg v Hr Hv); lia|]. by apply IH.
  - by exists (g v), s'.
Qed.

Lemma draws_range n s : Forall is_u64 (draws n s).
Proof.
  revert s. induction n as [|n IH]; intros s; [constructor|]. simpl.
  pose proof (Uint64_range s) as Hr. destruct (Uint64 s) as [v s']. constructor; [done|apply IH].
Qed.

(** The result is the first accepted draw. *)
Lemma Uint64Inclusive_spec n s :
  is_u64 n →
  ∃ v s', Uint64Inclusive patience n s = Some (v, s') ∧ 0 ≤ v ≤ n ∧
    head (omap (accept n) (draws patience s)) = Some v.
Proof.
  intros Hn. pose proof (Uint64_live s) as Hlive. unfold Uint64Inclusive, accept.
  destruct (Z.eqb_spec (Z.land n (wrap64 (n + 1))) 0) as [Hl|Hl].
  { destruct (land_succ_pow2 n Hn Hl) as (k & Hk & Hn').
    destruct patience as [|p]; [by apply Exists_nil in Hlive|]. simpl. destruct (Uint64 s) as [v s'].
    exists (Z.land v n), s'. split_and!; try done; subst n; replace (2 ^ k - 1) with (Z.ones k) by (rewrite Z.ones_equiv; lia);
      rewrite Z.land_ones by lia; pose proof (Z.mod_pos_bound v (2 ^ k) ltac:(lia)); rewrite ?Z.ones_equiv; lia. }
  destruct Hn as [Hn0 Hn]. destruct (Z.ltb_spec MaxInt64 n) as [Hm|Hm].
  - destruct (draw_until_spec Uint64 id n patience s) as (v & s' & -> & Hv & Hh); [|unfold MaxInt64, id in *; lia|done|].
    { intros s0. by destruct (Uint64 s0). }
    exists v, s'. split_and!; try done. pose proof (draws_range patience s) as Hf.
    destruct (omap _ (draws patience s)) as [|x l] eqn:Ho; [done|]. injection Hh as ->.
    assert (v ∈ omap (λ v, if n <? id v then None else Some (id v)) (draws patience s)) as Hin by (rewrite Ho; set_solver).
    apply list_elem_of_omap in Hin as (y & Hy & Hyv). rewrite Forall_forall in Hf. destruct (Hf y Hy).
    unfold id in Hyv. destruct (n <? y); naive_solver.
  - assert (n ≠ 0) by (intros ->; by rewrite Z.land_0_l in Hl).
    destruct (rejection_bound n) as (k & Hk & Heq & Hb); [lia|]. cbv zeta.
    set (maximum := wrap64 (2 ^ 63 - 1 - _)) in *. rewrite (wrap64_id (n + 1)) by (split; unfold MaxUint64, MaxInt64 in *; lia).
    destruct (draw_until_spec uint63 (λ v, Z.land v MaxInt64) maximum patience s) as (v & s' & -> & Hv & Hh); [done| |done|].
    { intros v [Hv _] Hlt. rewrite land_MaxInt64, Z.mod_small by lia. lia. }
    exists (v mod (n + 1)), s'. split_and!; try done; try (pose proof (Z.mod_pos_bound v (n + 1) ltac:(lia)); lia).
    clear -Hh. induction (draws patience s) as [|x l IH]; [done|]. simpl in *.
    destruct (maximum <? Z.land x MaxInt64); [by apply IH|]. by injection Hh as <-.
Qed.
End RngProofs.

(** ** Uniform draws are distinct

    The map [drawn] is the part of a shuffled array that differs from the
    identity; the values already returned and those still in the array are
    distinct. *)

Definition slot (u : uniformReplacer) (i : Z) : Z := dm_get (drawn u) i i.

Record ur_inv (len : Z) (returned : list Z) (u : uniformReplacer) : Prop := {
  ui_length : ur_length u = len;
  ui_count : drawsCount u = Z.of_nat (length returned);
  ui_bound : Z.of_nat (length returned) ≤ len;
  ui_nodup : NoDup returned;
  ui_range x : x ∈ returned → 0 ≤ x < len;
  ui_slot i : drawsCount u ≤ i < len → 0 ≤ slot u i < len ∧ (slot u i ∉ returned);
  ui_inj i j : drawsCount u ≤ i < len → drawsCount u ≤ j < len → slot u i = slot u j → i = j;
}.

Lemma ur_fresh len : 0 ≤ len → ur_inv len [] (mkUniform len ∅ 0).
Proof.
  intros Hl. split; simpl; try done; try (by intros ? ?%not_elem_of_nil).
  - apply NoDup_nil_2.
  - intros i Hi. unfold slot, dm_get. simpl. rewrite lookup_empty. simpl. split; [lia|apply not_elem_of_nil].
Qed.

Section UniformProofs.
Context `{SourceLaws Src patience}.
Implicit Types s : Src.

Lemma ur_Next_exhausted len returned u s :
  ur_inv len returned u → Z.of_nat (length returned) = len → ur_Next patience u s = Some (u, s, None).
Proof.
  intros Hi Hl. unfold ur_Next. rewrite (ui_length _ _ _ Hi), (ui_count _ _ _ Hi). zcases. done.
Qed.

Lemma ur_Next_spec len returned u s :
  is_u64 len → ur_inv len returned u → Z.of_nat (length returned) < len →
  ∃ u' s' v, ur_Next patience u s = Some (u', s', Some v) ∧ ur_inv len (returned ++ [v]) u'.
Proof.
  intros [Hl0 Hl1] Hi Hlt. pose proof (ui_count _ _ _ Hi) as Hd. unfold ur_Next.
  rewrite (ui_length _ _ _ Hi). set (d := drawsCount u) in *. assert (0 ≤ d < len) as Hdr by lia.
  rewrite (wrap64_id (len - 1 - d)) by (split; lia).
  destruct (Z.leb_spec len d) as [|_]; [lia|].
  destruct (Uint64Inclusive_spec (len - 1 - d) s) as (r & s' & -> & Hr & _); [split; lia|].
  rewrite (wrap64_id (r + d)), (wrap64_id (d + 1)) by (split; lia).
  set (draw := r + d). fold (slot u draw) (slot u d).
  eexists _, _, _. split; [done|].
  pose proof (ui_slot _ _ _ Hi draw ltac:(lia)) as [Hs1 Hs2]. pose proof (ui_slot _ _ _ Hi d ltac:(lia)) as [Hd1 Hd2].
  assert (∀ i, slot (mkUniform len (<[draw:=slot u d]> (drawn u)) (d + 1)) i = if decide (i = draw) then slot u d else slot u i) as Hslot.
  { intros i. unfold slot at 1, dm_get. simpl. case_decide; subst; [by rewrite lookup_insert_eq|by rewrite lookup_insert_ne]. }
  split; simpl; try done.
  - rewrite length_app. simpl. lia.
  - rewrite length_app. simpl. lia.
  - apply NoDup_app. split_and!; [apply Hi| |apply NoDup_singleton]. intros x Hx ->%list_elem_of_singleton. done.
  - intros x [Hx| ->%list_elem_of_singleton]%elem_of_app; [by apply (ui_range _ _ _ Hi)|done].
  - intros i Hir. rewrite Hslot. destruct (decide (i = draw)) as [->|Hne].
    + split; [done|]. rewrite not_elem_of_app, not_elem_of_cons. split_and!; [done| |apply not_elem_of_nil].
      intros Heq%(ui_inj _ _ _ Hi); lia.
    + pose proof (ui_slot _ _ _ Hi i ltac:(lia)) as [Hi1 Hi2]. split; [done|].
      rewrite not_elem_of_app, not_elem_of_cons. split_and!; [done| |apply not_elem_of_nil].
      intros Heq%(ui_inj _ _ _ Hi); lia.
  - intros i j Hir Hjr. rewrite !Hslot. repeat case_decide; subst; try done.
    + intros Heq%(ui_inj _ _ _ Hi); lia.
    + intros Heq%(ui_inj _ _ _ Hi); lia.
    + intros Heq%(ui_inj _ _ _ Hi); lia.
Qed.

Lemma ur_draws_spec len count returned u s :
  is_u64 len → ur_inv len returned u →
  ∃ u' s' r, ur_draws patience count u s = Some (u', s', r) ∧
    if Z.of_nat (length returned + count) <=? len
    then ∃ l, r = Some l ∧ length l = count ∧ ur_inv len (returned ++ l) u'
    else r = None.
Proof.
  intros Hl. revert returned u s. induction count as [|count IH]; intros returned u s Hi; cbn [ur_draws].
  { eexists _, _, _. split; [done|]. pose proof (ui_bound _ _ _ Hi). zcases. exists []. by rewrite app_nil_r. }
  destruct (Z.ltb_spec (Z.of_nat (length returned)) len) as [Hlt|Hge]; last first.
  { pose proof (ui_bound _ _ _ Hi). rewrite (ur_Next_exhausted len returned) by (done || lia). eexists _, _, _. split; [done|]. by zcases. }
  destruct (ur_Next_spec len returned u s Hl Hi Hlt) as (u' & s' & v & -> & Hi').
  destruct (IH (returned ++ [v]) u' s' Hi') as (u'' & s'' & r & -> & Hr).
  rewrite length_app in Hr. simpl in Hr.
  destruct (Z.leb_spec (Z.of_nat (length returned + 1 + count)) len).
  - destruct Hr as (l & -> & Hlen & Hi''). eexists _, _, _. split; [done|]. zcases.
    exists (v :: l). rewrite <- app_assoc in Hi''. simpl. auto.
  - subst r. eexists _, _, _. split; [done|]. by zcases.
Qed.

(** A random number in [[0, n]] is found and every value of the range is
    equally likely: the result is the first raw draw that is not rejected, and
    every result has the same number [c] of raw draws that lead to it. *)
Theorem Uint64Inclusive_uniform n s :
  is_u64 n →
  (∃ v s', Uint64Inclusive patience n s = Some (v, s') ∧ 0 ≤ v ≤ n ∧
    head (omap (accept n) (draws patience s)) = Some v) ∧
  ∃ (c : Z) (f : Z → Z → Z), 0 < c ∧ ∀ w, 0 ≤ w ≤ n →
    (∀ v, is_u64 v ∧ accept n v = Some w ↔ ∃ i, 0 ≤ i < c ∧ v = f i w) ∧
    (∀ i j, f i w = f j w → i = j).
Proof. intros Hn. split; [by apply Uint64Inclusive_spec|by apply accept_uniform]. Qed.

(** Uniform sampling without replacement returns the requested number of
    distinct values of the range, and fails exactly when the range is smaller
    than the request. *)
Theorem ur_Sample_distinct u s count :
  is_u64 (ur_length u) → 0 ≤ count →
  ∃ u' s' r, ur_Sample patience count u s = Some (u', s', r) ∧
    if count <=? ur_length u
    then ∃ l, r = Some l ∧ Z.of_nat (length l) = count ∧ NoDup l ∧ ∀ v, v ∈ l → 0 ≤ v < ur_length u
    else r = None.
Proof.
  intros Hl Hc. unfold ur_Sample. destruct (Z.ltb_spec count 0); [lia|].
  destruct (ur_draws_spec (ur_length u) (Z.to_nat count) [] (ur_Reset u) s Hl) as (u' & s' & r & -> & Hr).
  { apply ur_fresh, Hl. }
  exists u', s', r. split; [done|]. simpl in Hr. rewrite Z2Nat.id in Hr by done.
  destruct (Z.leb_spec count (ur_length u)); [|done].
  destruct Hr as (l & -> & Hlen & Hi). exists l. split_and!; [done|lia|apply Hi|]. intros v. apply (ui_range _ _ _ Hi).
Qed.
End UniformProofs.

(** ** The weighted heap *)

(** Case analysis on the comparisons of naturals in the goal. *)
Ltac natcases :=
  repeat match goal with |- context [(?a <? ?b)%nat] => destruct (Nat.ltb_spec a b) end.

Section Heap.
Implicit Types heap : list weightedHeapElement.

Definition cum_at heap (i : nat) : Z := default 0 (cumulativeWeight <$> heap !! i).
Definition weight_at heap (i : nat) : Z := default 0 (we_weight <$> heap !! i).

(** The part of a heap the loop of [Initialize] does not change. *)
Definition labels heap : list (Z * nat) := map (λ e, (we_weight e, we_index e)) heap.

(** The state of the loop when the elements after [i] have been added to their
    parents. *)
Record heap_inv (i : nat) heap : Prop := {
  hi_weight j e : heap !! j = Some e → 0 ≤ we_weight e;
  hi_cum j e : heap !! j = Some e → is_u64 (cumulativeWeight e);
  hi_children j : (j < length heap)%nat → cum_at heap j = weight_at heap j +
    (if (i <? 2 * j + 1)%nat then cum_at heap (2 * j + 1) else 0) +
    (if (i <? 2 * j + 2)%nat then cum_at heap (2 * j + 2) else 0);
}.

(** The weight the first elements account for. *)
Definition heap_mass (i : nat) heap : Z := sum_over (cum_at heap) (seq 0 (S i)).

Lemma cum_at_nonneg i heap j : heap_inv i heap → 0 ≤ cum_at heap j.
Proof.
  intros Hi. unfold cum_at. destruct (heap !! j) as [e|] eqn:He; [|done]. apply (hi_cum _ _ Hi) in He as [? _]. done.
Qed.

Lemma cum_at_insert heap p e j :
  (p < length heap)%nat → cum_at (<[p := e]> heap) j = if decide (j = p) then cumulativeWeight e else cum_at heap j.
Proof.
  intros Hp. unfold cum_at. case_decide; subst; [by rewrite list_lookup_insert_eq|by rewrite list_lookup_insert_ne].
Qed.

Lemma sum_over_update (f g : nat → Z) p n d :
  (p < n)%nat → (∀ j, g j = if decide (j = p) then f p + d else f j) →
  sum_over g (seq 0 n) = sum_over f (seq 0 n) + d.
Proof.
  intros Hp Hg. rewrite (sum_over_ext g (λ j, f j + if decide (j = p) then d else 0)).
  - rewrite sum_over_add, (sum_over_single (λ _, d)) by apply NoDup_seq.
    rewrite decide_True; [done|]. apply elem_of_seq. lia.
  - intros j _. rewrite Hg. case_decide; subst; lia.
Qed.

Lemma heap_mass_S i heap : heap_mass (S i) heap = heap_mass i heap + cum_at heap (S i).
Proof. unfold heap_mass. rewrite (seq_S (S i)), sum_over_app. unfold sum_over at 2, lsum. simpl. lia. Qed.

Lemma heap_mass_two p i heap :
  heap_inv i heap → (p < i)%nat → cum_at heap p + cum_at heap i ≤ heap_mass i heap.
Proof.
  intros Hi Hp. destruct i as [|i]; [lia|]. rewrite heap_mass_S. apply Z.add_le_mono_r. unfold heap_mass.
  destruct (list_elem_of_split (seq 0 (S i)) p) as (l1 & l2 & ->); [apply elem_of_seq; lia|].
  rewrite sum_over_app, sum_over_cons.
  assert (∀ l, 0 ≤ sum_over (cum_at heap) l) as Hnn by (intros l; apply sum_over_nonneg; intros; by apply (cum_at_nonneg (S i))).
  pose proof (Hnn l1). pose proof (Hnn l2). lia.
Qed.

Lemma parent_index i' : Nat.shiftr i' 1 = (i' / 2)%nat.
Proof. by rewrite Nat.shiftr_div_pow2. Qed.

Lemma weight_at_insert heap p parent e j :
  heap !! p = Some parent → we_weight e = we_weight parent → weight_at (<[p := e]> heap) j = weight_at heap j.
Proof.
  intros Hp He. unfold weight_at. destruct (decide (j = p)) as [->|].
  - rewrite list_lookup_insert_eq by (by eapply lookup_lt_Some). rewrite Hp. exact He.
  - by rewrite list_lookup_insert_ne.
Qed.

(** One step of the loop. *)
Lemma heapify_step i' heap parent child :
  heap_inv (S i') heap → (S i' < length heap)%nat →
  heap !! (i' / 2)%nat = Some parent → heap !! S i' = Some child →
  cumulativeWeight parent + cumulativeWeight child ≤ MaxUint64 →
  let heap' := <[(i' / 2)%nat := mkElement (we_weight parent) (cumulativeWeight parent + cumulativeWeight child) (we_index parent)]> heap in
  heap_inv i' heap' ∧ labels heap' = labels heap ∧ heap_mass i' heap' = heap_mass (S i') heap.
Proof.
  intros Hi Hlen Hp Hc Hmax heap'. set (p := (i' / 2)%nat) in *. pose proof (lookup_lt_Some _ _ _ Hp) as Hpl.
  assert (p ≤ i')%nat as Hpi by (apply Nat.Div0.div_le_upper_bound; lia).
  pose proof (Nat.div_mod_eq i' 2) as Hdm. pose proof (Nat.mod_upper_bound i' 2 ltac:(lia)). fold p in Hdm.
  pose proof (hi_cum _ _ Hi _ _ Hp) as [??]. pose proof (hi_cum _ _ Hi _ _ Hc) as [??].
  assert (cum_at heap p = cumulativeWeight parent) as Hcp by (unfold cum_at; by rewrite Hp).
  assert (cum_at heap (S i') = cumulativeWeight child) as Hcc by (unfold cum_at; by rewrite Hc).
  assert (∀ j, cum_at heap' j = if decide (j = p) then cum_at heap p + cum_at heap (S i') else cum_at heap j) as Hcum.
  { intros j. unfold heap'. rewrite cum_at_insert by done. simpl. by rewrite Hcp, Hcc. }
  split_and!; [split| |].
  - intros j e [(-> & <- & _)|(_ & He)]%list_lookup_insert_Some; simpl; by eapply (hi_weight _ _ Hi).
  - intros j e [(-> & <- & _)|(_ & He)]%list_lookup_insert_Some; simpl; [split; lia|by eapply (hi_cum _ _ Hi)].
  - intros j Hj. unfold heap' in Hj. rewrite length_insert in Hj. pose proof (hi_children _ _ Hi j Hj) as Heq.
    unfold heap' at 2. rewrite (weight_at_insert heap p parent) by done. rewrite !Hcum.
    destruct (decide (j = p)) as [->|Hjp].
    + rewrite (decide_False (P := (2 * p + 1 = p)%nat)), (decide_False (P := (2 * p + 2 = p)%nat)) by lia.
      destruct (decide (S i' = 2 * p + 1)%nat) as [Hl|Hl].
      * rewrite Hl in Heq |- *. revert Heq. natcases; lia.
      * assert (S i' = 2 * p + 2)%nat as Hr by lia. rewrite Hr in Heq |- *.
        revert Heq. natcases; lia.
    + assert ((2 * j + 1 ≠ S i')%nat ∧ (2 * j + 2 ≠ S i')%nat) as [Hn1 Hn2].
      { split; intros Hn; apply Hjp; unfold p; [apply (Nat.div_unique i' 2 j 0)|apply (Nat.div_unique i' 2 j 1)]; lia. }
      revert Heq. natcases; repeat case_decide; lia.
  - unfold heap', labels. rewrite list_fmap_insert. simpl. apply list_insert_id. by rewrite list_lookup_fmap, Hp.
  - rewrite heap_mass_S. unfold heap_mass. apply (sum_over_update (cum_at heap) _ p); [lia|]. intros j. by rewrite Hcum.
Qed.

Lemma heapify_spec i heap total :
  (i < length heap)%nat → heap_inv i heap → heap_mass i heap = total →
  ∃ heap' err, heapify i heap = Some (heap', err) ∧
    if total <=? MaxUint64
    then err = None ∧ heap_inv 0 heap' ∧ labels heap' = labels heap ∧ cum_at heap' 0 = total
    else err = Some ErrOverflow.
Proof.
  revert heap. induction i as [|i' IH]; intros heap Hlen Hi Hm.
  { exists heap, None. split; [done|]. unfold heap_mass, sum_over, lsum in Hm. simpl in Hm.
    destruct (heap !! 0%nat) as [e|] eqn:He; [|apply lookup_ge_None in He; lia].
    pose proof (hi_cum _ _ Hi _ _ He) as [??]. unfold cum_at in *. rewrite He in Hm |- *. simpl in *.
    zcases. split_and!; try done. lia. }
  cbn [heapify]. rewrite parent_index.
  assert (i' / 2 ≤ i')%nat as Hpi by (apply Nat.Div0.div_le_upper_bound; lia).
  destruct (lookup_lt_is_Some_2 heap (i' / 2)%nat) as [parent Hp]; [lia|].
  destruct (lookup_lt_is_Some_2 heap (S i')) as [child Hc]; [lia|]. rewrite Hp, Hc.
  pose proof (heap_mass_two (i' / 2)%nat (S i') heap Hi ltac:(lia)) as Htwo.
  unfold cum_at in Htwo. rewrite Hp, Hc in Htwo. simpl in Htwo.
  rewrite safe_Add64 by (by eapply (hi_cum _ _ Hi)).
  destruct (Z.leb_spec (cumulativeWeight parent + cumulativeWeight child) MaxUint64) as [Hle|Hgt].
  - destruct (heapify_step i' heap parent child Hi Hlen Hp Hc Hle) as (Hi' & Hl' & Hm').
    rewrite <- Hm' in Hm. edestruct IH as (heap' & err & Hrun & Hres); [|exact Hi'|exact Hm|].
    { rewrite length_insert. lia. }
    exists heap', err. split; [exact Hrun|]. rewrite Hl' in Hres. done.
  - exists heap, (Some ErrOverflow). split; [done|]. zcases. done.
Qed.
End Heap.

(** A quantity that every node adds up over its children is, at the root, the sum
    over all nodes: after [i] nodes, the nodes [i] to [2 * i] carry the rest. *)
Lemma tree_total (G f : nat → Z) n :
  (∀ j, (j < n)%nat → G j = f j + G (2 * j + 1)%nat + G (2 * j + 2)%nat) →
  (∀ j, (n ≤ j)%nat → G j = 0) → G 0%nat = sum_over f (seq 0 n).
Proof.
  intros Hch Hout.
  assert (∀ i, (i ≤ n)%nat → G 0%nat = sum_over f (seq 0 i) + sum_over G (seq i (S i))) as Hfront.
  { induction i as [|i IH]; intros Hi; [unfold sum_over, lsum; simpl; lia|].
    rewrite IH by lia. change (seq i (S i)) with (i :: seq (S i) i). rewrite sum_over_cons, Hch by lia.
    rewrite (seq_S (S i)), (seq_S i (S i)), (seq_S i 0), !sum_over_app.
    replace (S i + i)%nat with (2 * i + 1)%nat by lia. replace (S i + S i)%nat with (2 * i + 2)%nat by lia.
    unfold sum_over, lsum. simpl. lia. }
  rewrite (Hfront n) by done. rewrite (sum_over_zero G); [lia|]. intros j [Hj _]%elem_of_seq. by apply Hout.
Qed.

Section HeapSample.
Context (heap : list weightedHeapElement) (Hheap : heap_inv 0 heap).
Let n := length heap.

Lemma cum_children j :
  (j < n)%nat → cum_at heap j = weight_at heap j + cum_at heap (2 * j + 1) + cum_at heap (2 * j + 2).
Proof. intros Hj. rewrite (hi_children _ _ Hheap j Hj) at 1. natcases; lia. Qed.

Lemma cum_outside j : (n ≤ j)%nat → cum_at heap j = 0.
Proof. intros Hj. unfold cum_at. by rewrite lookup_ge_None_2. Qed.

Lemma walk_enough f1 f2 j v :
  (n - j ≤ f1)%nat → (n - j ≤ f2)%nat → wh_walk f1 heap j v = wh_walk f2 heap j v.
Proof.
  revert f2 j v. induction f1 as [|f1 IH]; intros f2 j v H1 H2; destruct f2 as [|f2]; simpl; try done.
  - by rewrite lookup_ge_None_2 by lia.
  - by rewrite lookup_ge_None_2 by lia.
  - destruct (heap !! j) as [e|] eqn:He; [|done]. apply lookup_lt_Some in He. fold n in He.
    destruct (v <? we_weight e); [done|]. destruct (heap !! _); [|done]. destruct (_ <=? _); apply IH; lia.
Qed.

(** The search from a node. *)
Definition walk j v : option (nat * bool) := wh_walk (n - j) heap j v.

Lemma walk_eq j e v :
  heap !! j = Some e →
  walk j v =
    if v <? we_weight e then Some (we_index e, true)
    else if v <? we_weight e + cum_at heap (2 * j + 1) then walk (2 * j + 1) (v - we_weight e)
    else walk (2 * j + 2) (v - we_weight e - cum_at heap (2 * j + 1)).
Proof.
  intros He. pose proof (lookup_lt_Some _ _ _ He) as Hj. fold n in Hj. unfold walk at 1.
  destruct (n - j)%nat as [|f] eqn:Hf; [lia|]. cbn [wh_walk]. rewrite He.
  destruct (v <? we_weight e); [done|]. replace (j * 2 + 1)%nat with (2 * j + 1)%nat by lia.
  unfold cum_at. destruct (heap !! (2 * j + 1)%nat) as [l|] eqn:Hl.
  - simpl. replace (S (j + (j + 0) + 1)) with (2 * j + 2)%nat by lia.
    zcases; unfold walk; apply walk_enough; lia.
  - apply lookup_ge_None in Hl. fold n in Hl. simpl.
    assert (∀ k x, (n ≤ k)%nat → walk k x = None) as Hout.
    { intros k x Hk. unfold walk. by replace (n - k)%nat with 0%nat by lia. }
    destruct (_ <? _); symmetry; apply Hout; lia.
Qed.

(** The indicator that a value leads to the index [k]. *)
Definition hit (k j : nat) (v : Z) : Z := if decide (walk j v = Some (k, true)) then 1 else 0.
Definition hits k j : Z := sum_over (hit k j) (seqZ 0 (cum_at heap j)).

Lemma sum_over_shift (f g : Z → Z) a len :
  (∀ v, 0 ≤ v < len → f (a + v) = g v) → sum_over f (seqZ a len) = sum_over g (seqZ 0 len).
Proof.
  intros Hfg. rewrite <- (Z.add_0_r a), <- fmap_add_seqZ. unfold sum_over. rewrite List.map_map.
  apply (f_equal lsum), List.map_ext_in. intros v Hv%list_elem_of_In%elem_of_seqZ. apply Hfg. lia.
Qed.

Lemma sum_over_one {A} (l : list A) : sum_over (λ _, 1) l = Z.of_nat (length l).
Proof. induction l as [|x l IH]; [done|]. rewrite sum_over_cons, IH. simpl. lia. Qed.

Lemma sum_over_const (f : Z → Z) c a len :
  0 ≤ len → (∀ v, a ≤ v < a + len → f v = c) → sum_over f (seqZ a len) = c * len.
Proof.
  intros Hl Hf. rewrite (sum_over_ext f (λ _, c * 1)).
  - rewrite sum_over_scale, sum_over_one, length_seqZ, Z2Nat.id by done. done.
  - intros v Hv%elem_of_seqZ. rewrite Hf by done. lia.
Qed.

Lemma hits_eq k j e :
  heap !! j = Some e →
  hits k j = (if decide (we_index e = k) then we_weight e else 0) + hits k (2 * j + 1) + hits k (2 * j + 2).
Proof.
  intros He. pose proof (lookup_lt_Some _ _ _ He) as Hj. fold n in Hj.
  pose proof (hi_weight _ _ Hheap _ _ He) as Hw.
  assert (weight_at heap j = we_weight e) as Hwe by (unfold weight_at; by rewrite He).
  pose proof (cum_at_nonneg 0 heap (2 * j + 1) Hheap). pose proof (cum_at_nonneg 0 heap (2 * j + 2) Hheap).
  unfold hits at 1. rewrite (cum_children j Hj), Hwe.
  rewrite !seqZ_app, !sum_over_app by lia. f_equal; [f_equal|].
  - rewrite (sum_over_const _ (if decide (we_index e = k) then 1 else 0)) by
      (done || (intros v Hv; unfold hit; rewrite (walk_eq j e) by done;
         rewrite (proj2 (Z.ltb_lt _ _)) by lia; repeat case_decide; naive_solver)).
    case_decide; lia.
  - apply sum_over_shift. intros v Hv. unfold hit. rewrite (walk_eq j e) by done.
    rewrite (proj2 (Z.ltb_ge _ _)), (proj2 (Z.ltb_lt _ _)) by lia.
    by replace (0 + we_weight e + v - we_weight e) with v by lia.
  - apply sum_over_shift. intros v Hv. unfold hit. rewrite (walk_eq j e) by done.
    rewrite (proj2 (Z.ltb_ge _ _)), (proj2 (Z.ltb_ge _ _)) by lia.
    by replace (0 + (we_weight e + cum_at heap (2 * j + 1)) + v - we_weight e - cum_at heap (2 * j + 1)) with v by lia.
Qed.

Lemma hits_outside k j : (n ≤ j)%nat → hits k j = 0.
Proof. intros Hj. unfold hits. by rewrite cum_outside. Qed.

(** The number of values that lead to [k] is the weight of the elements of that
    index. *)
Lemma hits_total k :
  hits k 0 = sum_over (λ '(w, i), if decide (i = k) then w else 0) (labels heap).
Proof.
  rewrite (tree_total (hits k) (λ j, default 0 ((λ e, if decide (we_index e = k) then we_weight e else 0) <$> heap !! j)) n).
  - unfold labels, sum_over. rewrite List.map_map. f_equal. apply list_eq. intros j.
    rewrite !list_lookup_fmap. destruct (decide (j < n)%nat) as [Hj|Hj].
    + rewrite lookup_seq_lt by done. simpl. destruct (lookup_lt_is_Some_2 heap j) as [e ->]; [done|]. done.
    + rewrite lookup_seq_ge by lia. by rewrite lookup_ge_None_2 by (fold n; lia).
  - intros j Hj. destruct (lookup_lt_is_Some_2 heap j) as [e He]; [done|]. rewrite He. simpl. by apply hits_eq.
  - apply hits_outside.
Qed.

(** A value below the cumulative weight of a node leads to one of the elements. *)
Lemma walk_found j v : 0 ≤ v < cum_at heap j → ∃ e, e ∈ heap ∧ walk j v = Some (we_index e, true).
Proof.
  remember (n - j)%nat as m eqn:Hm. assert (n - j ≤ m)%nat as Hle by lia. clear Hm.
  revert j v Hle. induction m as [|m IH]; intros j v Hle Hv.
  { rewrite cum_outside in Hv by lia. lia. }
  destruct (decide (n ≤ j)%nat) as [Hout|Hin]; [rewrite cum_outside in Hv by lia; lia|].
  destruct (lookup_lt_is_Some_2 heap j) as [e He]; [fold n; lia|].
  pose proof (cum_children j ltac:(lia)) as Hc. unfold weight_at in Hc. rewrite He in Hc. simpl in Hc.
  rewrite (walk_eq j e) by done. destruct (Z.ltb_spec v (we_weight e)).
  { exists e. split; [by eapply list_elem_of_lookup_2|done]. }
  replace (j + (j + 0))%nat with (2 * j)%nat in Hc by lia.
  destruct (Z.ltb_spec v (we_weight e + cum_at heap (2 * j + 1))); apply IH; lia.
Qed.
End HeapSample.

Lemma sum_over_imap (weights : list Z) k w (f : nat → Z → Z) :
  weights !! k = Some w → (∀ i x, f i x = if decide (i = k) then x else 0) →
  lsum (imap f weights) = w.
Proof.
  revert k f. induction weights as [|x weights IH]; intros k f Hk Hf; [done|].
  rewrite imap_cons. unfold lsum. simpl. fold (lsum (imap (f ∘ S) weights)). rewrite Hf.
  destruct k as [|k]; simpl in Hk.
  - injection Hk as ->. rewrite decide_True by done.
    assert (lsum (imap (f ∘ S) weights) = 0) as ->; [|lia].
    clear IH. assert (∀ i y, (f ∘ S) i y = 0) as H0 by (intros; simpl; by rewrite Hf, decide_False).
    revert H0. generalize (f ∘ S). induction weights as [|y weights IHw]; intros g Hg; [done|].
    rewrite imap_cons. unfold lsum. simpl. fold (lsum (imap (g ∘ S) weights)). rewrite Hg, IHw; [done|]. intros. simpl. apply Hg.
  - rewrite decide_False by done. rewrite (IH k (f ∘ S)); [done|done|]. intros i y. simpl. rewrite Hf.
    repeat case_decide; congruence.
Qed.

Lemma sum_over_filter {A} (P : A → Prop) `{!∀ x, Decision (P x)} (l : list A) :
  sum_over (λ x, if decide (P x) then 1 else 0) l = Z.of_nat (length (filter P l)).
Proof.
  induction l as [|x l IH]; [done|]. rewrite sum_over_cons, IH, filter_cons. case_decide; simpl; lia.
Qed.

(** The values below the total weight that lead to an index. *)
Definition values_of (heap : list weightedHeapElement) (total : Z) (k : nat) : list Z :=
  filter (λ v, wh_Sample heap v = Some (k, true)) (seqZ 0 total).

(** A heap that samples an index for as many values as its weight. *)
Record heap_for (weights : list Z) (heap : list weightedHeapElement) : Prop := {
  hf_found v : 0 ≤ v < lsum weights → ∃ k, (k < length weights)%nat ∧ wh_Sample heap v = Some (k, true);
  hf_beyond v : lsum weights ≤ v → wh_Sample heap v = Some (0%nat, false);
  hf_count k w : weights !! k = Some w → Z.of_nat (length (values_of heap (lsum weights) k)) = w;
}.

Lemma labels_imap weights :
  labels (merge_sort we_le (imap (λ i weight, mkElement weight weight i) weights)) ≡ₚ imap (λ i w, (w, i)) weights.
Proof.
  unfold labels. rewrite merge_sort_Permutation. change (map ?f ?l) with (f <$> l). by rewrite fmap_imap.
Qed.

Lemma initial_heap_inv weights heap :
  Forall is_u64 weights → (∀ e, e ∈ heap → cumulativeWeight e = we_weight e ∧ we_weight e ∈ weights) →
  heap_inv (length heap - 1) heap.
Proof.
  intros Hw He. rewrite Forall_forall in Hw. split.
  - intros j e Hj%list_elem_of_lookup_2. destruct (He e Hj) as [_ Hin]. by destruct (Hw _ Hin).
  - intros j e Hj%list_elem_of_lookup_2. destruct (He e Hj) as [-> Hin]. by apply Hw.
  - intros j Hj. destruct (lookup_lt_is_Some_2 heap j Hj) as [e Hl].
    unfold cum_at, weight_at. rewrite Hl. simpl. rewrite (proj1 (He e (list_elem_of_lookup_2 _ _ _ Hl))).
    natcases; rewrite ?lookup_ge_None_2 by lia; simpl; lia.
Qed.

Lemma cum_at_list heap : sum_over (cum_at heap) (seq 0 (length heap)) = lsum (map cumulativeWeight heap).
Proof.
  unfold sum_over. f_equal. apply list_eq. intros j. rewrite !list_lookup_fmap.
  destruct (decide (j < length heap)%nat) as [Hj|Hj].
  - rewrite lookup_seq_lt by done. destruct (lookup_lt_is_Some_2 heap j Hj) as [e He]. simpl. unfold cum_at. by rewrite He.
  - rewrite lookup_seq_ge by lia. by rewrite lookup_ge_None_2 by lia.
Qed.

Lemma labels_count weights heap k w :
  labels heap ≡ₚ imap (λ i w, (w, i)) weights → weights !! k = Some w →
  sum_over (λ '(w, i), if decide (i = k) then w else 0) (labels heap) = w.
Proof.
  intros Hl Hk. rewrite (sum_over_perm _ _ _ Hl). unfold sum_over. change (map ?f ?l) with (f <$> l). rewrite fmap_imap.
  by apply (sum_over_imap weights k w).
Qed.

Lemma heap_for_intro weights heap :
  heap_inv 0 heap → labels heap ≡ₚ imap (λ i w, (w, i)) weights →
  cum_at heap 0 = lsum weights → weights ≠ [] → heap_for weights heap.
Proof.
  intros Hi Hl Hc Hne.
  assert (length heap = length weights) as Hlen.
  { apply Permutation_length in Hl. unfold labels in Hl. rewrite List.length_map, length_imap in Hl. done. }
  assert (∃ root, heap !! 0%nat = Some root) as [root Hroot].
  { apply lookup_lt_is_Some_2. destruct weights; [done|simpl in *; lia]. }
  assert (cumulativeWeight root = lsum weights) as Hr by (unfold cum_at in Hc; by rewrite Hroot in Hc).
  assert (∀ v, v < lsum weights → wh_Sample heap v = walk heap 0 v) as Hs.
  { intros v Hv. unfold wh_Sample, walk. rewrite Hroot, Hr, Nat.sub_0_r. zcases. done. }
  split.
  - intros v Hv. rewrite Hs by lia. destruct (walk_found heap Hi 0 v) as (e & He & Hw); [by rewrite Hc|].
    exists (we_index e). split; [|done].
    assert ((we_weight e, we_index e) ∈ imap (λ i w, (w, i)) weights) as Hin.
    { rewrite <- Hl. unfold labels. by apply (list_elem_of_fmap_2 (λ e, (we_weight e, we_index e))). }
    apply list_elem_of_lookup in Hin as [i Hin]. rewrite list_lookup_imap in Hin.
    destruct (weights !! i) as [x|] eqn:Hx; [|done]. injection Hin as _ <-. by eapply lookup_lt_Some.
  - intros v Hv. unfold wh_Sample. rewrite Hroot, Hr. zcases. done.
  - intros k w Hk. unfold values_of. rewrite <- sum_over_filter. rewrite <- (labels_count weights heap k w) by done.
    rewrite <- hits_total by done. unfold hits. rewrite Hc. apply sum_over_ext. intros v Hv%elem_of_seqZ.
    unfold hit. by rewrite Hs by lia.
Qed.

Lemma wh_Initialize_spec weights :
  Forall is_u64 weights →
  ∃ heap err, wh_Initialize weights = Some (heap, err) ∧
    if lsum weights <=? MaxUint64 then err = None ∧ heap_for weights heap else err = Some ErrOverflow.
Proof.
  intros Hw. destruct (decide (weights = [])) as [->|Hne].
  { exists [], None. split; [done|]. simpl. split; [done|]. split; simpl; try done. unfold lsum. simpl. lia. }
  unfold wh_Initialize. set (heap := merge_sort we_le _).
  assert (heap ≡ₚ imap (λ i weight, mkElement weight weight i) weights) as Hp by apply merge_sort_Permutation.
  assert (length heap = length weights) as Hlen by (rewrite Hp; apply length_imap).
  assert (0 < length weights)%nat as Hpos by (destruct weights; [done|simpl; lia]).
  assert (∀ e, e ∈ heap → cumulativeWeight e = we_weight e ∧ we_weight e ∈ weights) as He.
  { intros e. rewrite Hp. intros [i Hi]%list_elem_of_lookup. rewrite list_lookup_imap in Hi.
    destruct (weights !! i) as [x|] eqn:Hx; [|done]. injection Hi as <-. split; [done|]. by eapply list_elem_of_lookup_2. }
  assert (heap_mass (length heap - 1) heap = lsum weights) as Hm.
  { unfold heap_mass. replace (S (length heap - 1)) with (length heap) by lia. rewrite cum_at_list.
    etrans; [apply lsum_perm; apply Permutation_map; exact Hp|]. change (map ?f ?l) with (f <$> l). rewrite fmap_imap.
    f_equal. clear. apply list_eq. intros i. rewrite list_lookup_imap. by destruct (weights !! i). }
  destruct (heapify_spec (length heap - 1) heap (lsum weights)) as (heap' & err & Hrun & Hres);
    [lia|by apply (initial_heap_inv weights)|done|].
  exists heap', err. split; [exact Hrun|]. destruct (_ <=? _); [|done]. destruct Hres as (-> & Hi & Hl & Hc). split; [done|].
  apply heap_for_intro; try done. rewrite Hl. apply labels_imap.
Qed.

Lemma ww_total_spec weights acc :
  0 ≤ acc ≤ MaxUint64 → Forall is_u64 weights →
  ww_total weights acc = if acc + lsum weights <=? MaxUint64 then Ok (acc + lsum weights) else Err ErrOverflow.
Proof.
  revert acc. induction weights as [|w weights IH]; intros acc Ha Hw.
  { unfold lsum. simpl. rewrite Z.add_0_r. zcases. done. }
  apply Forall_cons in Hw as [Hw1 Hw]. cbn [ww_total]. rewrite safe_Add64 by done.
  change (lsum (w :: weights)) with (w + lsum weights).
  assert (0 ≤ lsum weights). { apply lsum_nonneg. eapply Forall_impl; [exact Hw|]. by intros ? []. }
  destruct Hw1. destruct (Z.leb_spec (acc + w) MaxUint64).
  - rewrite IH by (done || lia). by rewrite Z.add_assoc.
  - zcases. done.
Qed.

Section WithoutReplacementProofs.
Context `{SourceLaws Src patience}.
Implicit Types s : Src.

Definition leads_to (heap : list weightedHeapElement) (v : Z) (k : nat) : Prop := wh_Sample heap v = Some (k, true).

Lemma ww_draws_spec weights heap count returned u s :
  is_u64 (lsum weights) → heap_for weights heap → ur_inv (lsum weights) returned u →
  ∃ u' s' r, ww_draws patience count (mkWithoutReplacement u heap) s = Some (mkWithoutReplacement u' heap, s', r) ∧
    ur_length u' = lsum weights ∧
    if Z.of_nat (length returned + count) <=? lsum weights
    then ∃ l indices, r = Some indices ∧ length l = count ∧ ur_inv (lsum weights) (returned ++ l) u' ∧
      Forall2 (leads_to heap) l indices
    else r = None.
Proof.
  intros Hl Hh. revert returned u s. induction count as [|count IH]; intros returned u s Hi; cbn [ww_draws].
  { eexists _, _, _. split; [done|]. split; [apply Hi|]. pose proof (ui_bound _ _ _ Hi). zcases. exists [], []. by rewrite app_nil_r. }
  cbn [ww_u ww_w]. destruct (Z.ltb_spec (Z.of_nat (length returned)) (lsum weights)) as [Hlt|Hge]; last first.
  { pose proof (ui_bound _ _ _ Hi). rewrite (ur_Next_exhausted (lsum weights) returned) by (done || lia).
    eexists _, _, _. split; [done|]. split; [apply Hi|]. by zcases. }
  destruct (ur_Next_spec (lsum weights) returned u s Hl Hi Hlt) as (u' & s' & v & -> & Hi').
  destruct (hf_found _ _ Hh v) as (k & Hk & Hv). { apply (ui_range _ _ _ Hi'). set_solver. }
  rewrite Hv. destruct (IH (returned ++ [v]) u' s' Hi') as (u'' & s'' & r & -> & Hlen' & Hr).
  rewrite length_app in Hr. simpl in Hr.
  destruct (Z.leb_spec (Z.of_nat (length returned + 1 + count)) (lsum weights)).
  - destruct Hr as (l & indices & -> & Hlen & Hi'' & Hf). eexists _, _, _. split; [done|]. split; [done|]. zcases.
    exists (v :: l), (k :: indices). rewrite <- app_assoc in Hi''. simpl. split_and!; auto.
  - subst r. eexists _, _, _. split; [done|]. split; [done|]. by zcases.
Qed.

Lemma leads_to_count heap l indices k :
  Forall2 (leads_to heap) l indices →
  length (filter (λ v, wh_Sample heap v = Some (k, true)) l) = length (filter (k =.) indices).
Proof.
  induction 1 as [|v i l indices Hv Hf IH]; [done|]. rewrite !filter_cons. unfold leads_to in Hv.
  destruct (decide (k = i)) as [->|Hne]; [rewrite decide_True by done; simpl; by rewrite IH|].
  rewrite decide_False by (rewrite Hv; congruence). done.
Qed.

Lemma ww_Sample_spec weights heap u s count :
  is_u64 (lsum weights) → heap_for weights heap → ur_length u = lsum weights → 0 ≤ count →
  ∃ u' s' r, ww_Sample patience (mkWithoutReplacement u heap) count s = Some (mkWithoutReplacement u' heap, s', r) ∧
    ur_length u' = lsum weights ∧
    if count <=? lsum weights
    then ∃ indices, r = Some indices ∧ Z.of_nat (length indices) = count ∧
      (∀ k, k ∈ indices → (k < length weights)%nat) ∧
      ∀ k w, weights !! k = Some w → Z.of_nat (length (filter (k =.) indices)) ≤ w
    else r = None.
Proof.
  intros Hl Hh Hu Hc. unfold ww_Sample. destruct (Z.ltb_spec count 0); [lia|]. cbn [ww_u ww_w].
  destruct (ww_draws_spec weights heap (Z.to_nat count) [] (ur_Reset u) s Hl Hh) as (u' & s' & r & -> & Hlen & Hr).
  { unfold ur_Reset. rewrite Hu. apply ur_fresh, Hl. }
  simpl in Hr. rewrite Z2Nat.id in Hr by done.
  exists u', s', r. split; [done|]. split; [done|].
  destruct (Z.leb_spec count (lsum weights)); [|done].
  destruct Hr as (l & indices & -> & Hcount & Hi & Hf). exists indices.
  pose proof (Forall2_length _ _ _ Hf). split_and!; [done|lia| |].
  - intros k [i Hk]%list_elem_of_lookup. destruct (Forall2_lookup_r _ _ _ _ _ Hf Hk) as (v & Hv & Hvk).
      apply list_elem_of_lookup_2 in Hv. apply (ui_range _ _ _ Hi) in Hv.
      destruct (hf_found _ _ Hh v Hv) as (k' & Hk' & Hs). unfold leads_to in Hvk. rewrite Hs in Hvk. by injection Hvk as ->.
  - intros k w Hk. rewrite <- (leads_to_count heap l) by done. rewrite <- (hf_count _ _ Hh k w Hk).
      apply Nat2Z.inj_le, submseteq_length. apply NoDup_submseteq; [apply NoDup_filter, Hi|].
      intros v [Hv Hin]%list_elem_of_filter. apply (ui_range _ _ _ Hi) in Hin. unfold values_of.
      apply list_elem_of_filter. split; [done|]. apply elem_of_seqZ. lia.
Qed.

(** Sampling validators by weight is sampling the units of weight without
    replacement: the sampler is initialised exactly when the total weight fits
    in 64 bits, a sample of [count] indices exists exactly when the total weight
    is at least [count], and no index occurs in it more often than its weight. *)
Theorem ww_Sample_weights weights (w : weightedWithoutReplacement) s count :
  Forall is_u64 weights → 0 ≤ count →
  if MaxUint64 <? lsum weights then ww_Initialize w weights = Some (w, Some ErrOverflow) else
  ∃ w', ww_Initialize w weights = Some (w', None) ∧
  ∃ w'' s' r, ww_Sample patience w' count s = Some (w'', s', r) ∧
    if count <=? lsum weights
    then ∃ indices, r = Some indices ∧ Z.of_nat (length indices) = count ∧
      (∀ k, k ∈ indices → (k < length weights)%nat) ∧
      ∀ k w, weights !! k = Some w → Z.of_nat (length (filter (k =.) indices)) ≤ w
    else r = None.
Proof.
  intros Hw Hc. unfold ww_Initialize. rewrite ww_total_spec by done. rewrite Z.add_0_l.
  assert (0 ≤ lsum weights). { apply lsum_nonneg. eapply Forall_impl; [exact Hw|]. by intros ? []. }
  destruct (wh_Initialize_spec weights Hw) as (heap & err & -> & Hh).
  destruct (Z.ltb_spec MaxUint64 (lsum weights)), (Z.leb_spec (lsum weights) MaxUint64); try lia; [done|].
  destruct Hh as [-> Hh]. eexists. split; [done|].
  destruct (ww_Sample_spec weights heap (ur_Initialize (lsum weights)) s count) as (u' & s' & r & -> & _ & Hr); try done.
  by eexists _, _, _.
Qed.
End WithoutReplacementProofs.

(** The weighted heap implements the weights exactly: below the total weight
    every value selects an index, each index is selected by as many values as
    its weight, values from the total on are refused, and no step of the search
    leaves the heap; a total that does not fit in 64 bits is an error. *)
Theorem wh_exact weights :
  Forall is_u64 weights →
  if MaxUint64 <? lsum weights then ∃ heap, wh_Initialize weights = Some (heap, Some ErrOverflow) else
  ∃ heap, wh_Initialize weights = Some (heap, None) ∧
    (∀ v, 0 ≤ v < lsum weights → ∃ k, (k < length weights)%nat ∧ wh_Sample heap v = Some (k, true)) ∧
    (∀ v, lsum weights ≤ v → wh_Sample heap v = Some (0%nat, false)) ∧
    ∀ k w, weights !! k = Some w →
      Z.of_nat (length (filter (λ v, wh_Sample heap v = Some (k, true)) (seqZ 0 (lsum weights)))) = w.
Proof.
  intros Hw. destruct (wh_Initialize_spec weights Hw) as (heap & err & -> & Hh).
  destruct (Z.ltb_spec MaxUint64 (lsum weights)), (Z.leb_spec (lsum weights) MaxUint64); try lia.
  - subst. by eexists.
  - destruct Hh as [-> Hh]. exists heap. split; [done|]. split_and!; apply Hh.
Qed.

(** ** A concrete generator

    A counter, which always draws from the lowest quarter of the range. *)
#[local] Instance counter_source : Source Z := {| Uint64 s := (s mod 2 ^ 62, s + 7919) |}.

#[local] Instance counter_laws : SourceLaws Z 1.
Proof.
  split.
  - intros s. simpl. pose proof (Z.mod_pos_bound s (2 ^ 62)). unfold is_u64, MaxUint64. lia.
  - intros s. simpl. constructor. apply Z.mod_pos_bound. lia.
Qed.

Lemma Uint64Inclusive_uniform_witness :
  Uint64Inclusive 1 9 12345 = Some (5, 20264) ∧
  ∃ v s', Uint64Inclusive 1 9 12345 = Some (v, s') ∧ 0 ≤ v ≤ 9 ∧ head (omap (accept 9) (draws 1 12345)) = Some v.
Proof.
  split; [by vm_compute|]. apply (Uint64Inclusive_uniform (patience := 1) 9 12345). by vm_compute.
Defined.

Lemma ur_Sample_distinct_witness :
  ∃ u' s' l, ur_Sample 1 3 (ur_Initialize 5) 100 = Some (u', s', Some l) ∧ length l = 3%nat ∧ NoDup l.
Proof.
  destruct (ur_Sample_distinct (patience := 1) (ur_Initialize 5) 100 3) as (u' & s' & r & Hr & Hl); [by vm_compute|done|].
  simpl in Hl. destruct Hl as (l & -> & Hlen & Hnd & _). exists u', s', l. split_and!; [done|lia|done].
Defined.

Lemma wh_exact_witness :
  ∃ heap, wh_Initialize [5; 3; 9; 1] = Some (heap, None) ∧ wh_Sample heap 13 = Some (0%nat, true) ∧
    ∀ k w, [5; 3; 9; 1] !! k = Some w →
      Z.of_nat (length (filter (λ v, wh_Sample heap v = Some (k, true)) (seqZ 0 18))) = w.
Proof.
  destruct (wh_exact [5; 3; 9; 1]) as (heap & Hi & _ & _ & Hc).
  { repeat constructor; by vm_compute. }
  exists heap. split_and!; [done| |exact Hc]. vm_compute in Hi. injection Hi as <-. by vm_compute.
Defined.

Lemma ww_Sample_weights_witness :
  ∃ w', ww_Initialize (mkWithoutReplacement (ur_Initialize 0) []) [2; 1; 1] = Some (w', None) ∧
  ∃ w'' s' indices, ww_Sample 1 w' 3 100 = Some (w'', s', Some indices) ∧
    ∀ k w, [2; 1; 1] !! k = Some w → Z.of_nat (length (filter (k =.) indices)) ≤ w.
Proof.
  destruct (ww_Sample_weights (patience := 1) [2; 1; 1] (mkWithoutReplacement (ur_Initialize 0) []) 100 3)
    as (w' & Hw' & w'' & s' & r & Hs & Hr); [repeat constructor; by vm_compute|done|].
  destruct Hr as (indices & -> & _ & _ & Hk). exists w'. split; [done|]. by exists w'', s', indices.
Defined.
