(* ===== verification/Validators.v ===== *)
(** * Validator sets (package [snow/validators])

    [set.go] and [manager.go]: the validators of every subnet with their
    weights, the listeners notified of changes, and the weighted sampling of
    the validators to poll.

    A validator is an object shared by the map [vdrs] and the slice [vdrSlice];
    the objects live in a heap of [Validator]s indexed by locations.  The locks
    serialise the operations, which are atomic steps here. *)
From S2P Require Import Prelude SafeMath Ids Sampler.

Section Validators.
Context {NodeID PublicKey Listener : Type} `{Countable NodeID} `{!MapRange NodeID, !MapRange ID}.

Abbreviation loc := positive.

(** ** Data *)

Record Validator : Type := mkValidator {
  vdr_NodeID : NodeID;
  vdr_PublicKey : option PublicKey;
  vdr_TxID : ID;
  vdr_Weight : Z;
  vdr_index : nat;
}.

Inductive vdr_error : Type :=
| errDuplicateValidator
| errMissingValidator
| errTotalWeightNotUint64
| errInsufficientWeight
| ErrZeroWeight
| ErrMissingValidators
| errMath (e : math_error).

(** The calls of a listener. *)
Inductive vdr_event : Type :=
| OnValidatorAdded (nodeID : NodeID) (pk : option PublicKey) (txID : ID) (weight : Z)
| OnValidatorRemoved (nodeID : NodeID) (weight : Z)
| OnValidatorWeightChanged (nodeID : NodeID) (oldWeight newWeight : Z).

(** A [ManagerCallbackListener] is also told the subnet. *)
Inductive callback : Type :=
| ManagerCall (l : Listener) (subnetID : ID) (e : vdr_event)
| SetCall (l : Listener) (e : vdr_event).

Record vdrSet : Type := mkSet {
  subnetID : ID;
  objects : gmap loc Validator;
  vdrs : gmap NodeID loc;
  vdrSlice : list loc;
  weights : list Z;
  totalWeight : Z;
  samplerInitialized : bool;
  sampler : weightedWithoutReplacement;
  managerCallbackListeners : list Listener;
  setCallbackListeners : list Listener;
}.
Implicit Types s : vdrSet.

(** The new state, the calls of listeners in order and the error; no result is
    a panic. *)
Definition outcome (S : Type) : Type := option (S * list callback * option vdr_error).

(** [newSet] *)
Definition newSet (subnetID : ID) (callbackListeners : list Listener) : vdrSet :=
  mkSet subnetID ∅ ∅ [] [] 0 false (mkWithoutReplacement (ur_Initialize 0) []) callbackListeners [].

(** [callWeightChangeCallbacks], [callValidatorAddedCallbacks] and
    [callValidatorRemovedCallbacks]: every manager listener, then every set
    listener. *)
Definition call_listeners s (e : vdr_event) : list callback :=
  map (λ l, ManagerCall l (subnetID s) e) (managerCallbackListeners s) ++
  map (λ l, SetCall l e) (setCallbackListeners s).

(** ** Operations of a set *)

(** The fields an operation changes; the sampler must be initialised again. *)
Definition set_contents s objs vs slice ws total : vdrSet :=
  mkSet (subnetID s) objs vs slice ws total false (sampler s)
    (managerCallbackListeners s) (setCallbackListeners s).

(** [add] *)
Definition vs_add s (nodeID : NodeID) (pk : option PublicKey) (txID : ID) (weight : Z) : outcome vdrSet :=
  match vdrs s !! nodeID with
  | Some _ => Some (s, [], Some errDuplicateValidator)
  | None =>
      let l := fresh (dom (objects s)) in
      let vdr := mkValidator nodeID pk txID weight (length (vdrSlice s)) in
      Some (set_contents s (<[l := vdr]> (objects s)) (<[nodeID := l]> (vdrs s))
              (vdrSlice s ++ [l]) (weights s ++ [weight]) (totalWeight s + weight),
            call_listeners s (OnValidatorAdded nodeID pk txID weight), None)
  end.

(** A store to [vdr.Weight]. *)
Definition set_weight (v : Validator) (weight : Z) : Validator :=
  mkValidator (vdr_NodeID v) (vdr_PublicKey v) (vdr_TxID v) weight (vdr_index v).

(** A store to [vdr.index]. *)
Definition set_index (v : Validator) (index : nat) : Validator :=
  mkValidator (vdr_NodeID v) (vdr_PublicKey v) (vdr_TxID v) (vdr_Weight v) index.

(** [l[i] = x], a panic when out of range. *)
Definition store {A} (l : list A) (i : nat) (x : A) : option (list A) :=
  if decide (i < length l)%nat then Some (<[i := x]> l) else None.

(** [addWeight] *)
Definition vs_addWeight s (nodeID : NodeID) (weight : Z) : outcome vdrSet :=
  match vdrs s !! nodeID with
  | None => Some (s, [], Some errMissingValidator)
  | Some l =>
      vdr ← objects s !! l;
      match safe_Add 64 (vdr_Weight vdr) weight with
      | Err e => Some (s, [], Some (errMath e))
      | Ok newWeight =>
          ws ← store (weights s) (vdr_index vdr) newWeight;
          Some (set_contents s (<[l := set_weight vdr newWeight]> (objects s)) (vdrs s) (vdrSlice s) ws
                  (totalWeight s + weight),
                call_listeners s (OnValidatorWeightChanged nodeID (vdr_Weight vdr) newWeight), None)
      end
  end.

(** [removeWeight]; the slot cleared before the slice is cut is not visible. *)
Definition vs_removeWeight s (nodeID : NodeID) (weight : Z) : outcome vdrSet :=
  match vdrs s !! nodeID with
  | None => Some (s, [], Some errMissingValidator)
  | Some l =>
      vdr ← objects s !! l;
      match safe_Sub 64 (vdr_Weight vdr) weight with
      | Err e => Some (s, [], Some (errMath e))
      | Ok newWeight =>
          if newWeight =? 0 then
            let lastIndex := (length (vdrSlice s) - 1)%nat in
            lswap ← vdrSlice s !! lastIndex;
            vdrToSwap ← objects s !! lswap;
            slice ← store (vdrSlice s) (vdr_index vdr) lswap;
            ws ← store (weights s) (vdr_index vdr) (vdr_Weight vdrToSwap);
            Some (set_contents s (<[lswap := set_index vdrToSwap (vdr_index vdr)]> (objects s))
                    (delete nodeID (vdrs s)) (take lastIndex slice) (take lastIndex ws) (totalWeight s - weight),
                  call_listeners s (OnValidatorRemoved nodeID (vdr_Weight vdr)), None)
          else
            ws ← store (weights s) (vdr_index vdr) newWeight;
            Some (set_contents s (<[l := set_weight vdr newWeight]> (objects s)) (vdrs s) (vdrSlice s) ws
                    (totalWeight s - weight),
                  call_listeners s (OnValidatorWeightChanged nodeID (vdr_Weight vdr) newWeight), None)
      end
  end.

(** [get] *)
Definition vs_get s (nodeID : NodeID) : option Validator := vdrs s !! nodeID ≫= λ l, objects s !! l.

(** [getWeight] *)
Definition vs_getWeight s (nodeID : NodeID) : Z := default 0 (vdr_Weight <$> vs_get s nodeID).

(** [subsetWeight], over the nodes of the subset in the order of the runtime. *)
Fixpoint vs_subsetWeight s (subset : list NodeID) (total : Z) : result Z math_error :=
  match subset with
  | [] => Ok total
  | nodeID :: subset =>
      match safe_Add 64 total (vs_getWeight s nodeID) with
      | Err e => Err e
      | Ok total => vs_subsetWeight s subset total
      end
  end.

(** [len] *)
Definition vs_len s : nat := length (vdrSlice s).

(** [TotalWeight] *)
Definition vs_TotalWeight s : result Z vdr_error :=
  if decide (is_u64 (totalWeight s)) then Ok (totalWeight s) else Err errTotalWeightNotUint64.

(** [GetValidatorIDs] *)
Definition vs_GetValidatorIDs s : option (list NodeID) :=
  mapM (λ l, vdr_NodeID <$> objects s !! l) (vdrSlice s).

(** [GetValidatorOutput] *)
Record GetValidatorOutput : Type := mkOutput {
  out_NodeID : NodeID;
  out_PublicKey : option PublicKey;
  out_Weight : Z;
}.

(** [Map] *)
Definition vs_Map s : option (gmap NodeID GetValidatorOutput) :=
  foldl (λ m l, m ← m; v ← objects s !! l;
           Some (<[vdr_NodeID v := mkOutput (vdr_NodeID v) (vdr_PublicKey v) (vdr_Weight v)]> m))
    (Some ∅) (vdrSlice s).

(** [RegisterManagerCallbackListener] and [RegisterCallbackListener]: the new
    listener is told the validators there are. *)
Definition vs_added_events s : option (list vdr_event) :=
  mapM (λ l, (λ v, OnValidatorAdded (vdr_NodeID v) (vdr_PublicKey v) (vdr_TxID v) (vdr_Weight v))
          <$> objects s !! l) (vdrSlice s).

Definition vs_RegisterManagerCallbackListener s (l : Listener) : option (vdrSet * list callback) :=
  es ← vs_added_events s;
  Some (mkSet (subnetID s) (objects s) (vdrs s) (vdrSlice s) (weights s) (totalWeight s)
          (samplerInitialized s) (sampler s) (managerCallbackListeners s ++ [l]) (setCallbackListeners s),
        map (ManagerCall l (subnetID s)) es).

Definition vs_RegisterCallbackListener s (l : Listener) : option (vdrSet * list callback) :=
  es ← vs_added_events s;
  Some (mkSet (subnetID s) (objects s) (vdrs s) (vdrSlice s) (weights s) (totalWeight s)
          (samplerInitialized s) (sampler s) (managerCallbackListeners s) (setCallbackListeners s ++ [l]),
        map (SetCall l) es).

(** ** Sampling *)

Section Sample.
Context `{Source Src} (fuel : nat).

Definition with_sampler s initialized w : vdrSet :=
  mkSet (subnetID s) (objects s) (vdrs s) (vdrSlice s) (weights s) (totalWeight s)
    initialized w (managerCallbackListeners s) (setCallbackListeners s).

(** The part of [sample] after the sampler is ready. *)
Definition vs_draw s (size : Z) (src : Src) : option (vdrSet * Src * result (list NodeID) vdr_error) :=
  '(w, src, r) ← ww_Sample fuel (sampler s) size src;
  let s := with_sampler s true w in
  match r with
  | None => Some (s, src, Err errInsufficientWeight)
  | Some indices =>
      l ← mapM (λ index, l ← vdrSlice s !! index; vdr_NodeID <$> objects s !! l) indices;
      Some (s, src, Ok l)
  end.

(** [sample] *)
Definition vs_sample s (size : Z) (src : Src) : option (vdrSet * Src * result (list NodeID) vdr_error) :=
  if samplerInitialized s then vs_draw s size src else
  '(w, err) ← ww_Initialize (sampler s) (weights s);
  match err with
  | Some e => Some (with_sampler s false w, src, Err (errMath e))
  | None => vs_draw (with_sampler s true w) size src
  end.
End Sample.

(** ** The manager *)

Record manager : Type := mkManager {
  subnetToVdrs : gmap ID vdrSet;
  callbackListeners : list Listener;
}.
Implicit Types m : manager.

(** [NewManager] *)
Definition NewManager : manager := mkManager ∅ [].

Definition with_set m (subnetID : ID) s : manager :=
  mkManager (<[subnetID := s]> (subnetToVdrs m)) (callbackListeners m).

(** [AddStaker] *)
Definition AddStaker m (subnetID : ID) (nodeID : NodeID) (pk : option PublicKey) (txID : ID) (weight : Z)
    : outcome manager :=
  if weight =? 0 then Some (m, [], Some ErrZeroWeight) else
  let s := default (newSet subnetID (callbackListeners m)) (subnetToVdrs m !! subnetID) in
  '(s, calls, err) ← vs_add s nodeID pk txID weight;
  Some (with_set m subnetID s, calls, err).

(** [AddWeight] *)
Definition AddWeight m (subnetID : ID) (nodeID : NodeID) (weight : Z) : outcome manager :=
  if weight =? 0 then Some (m, [], Some ErrZeroWeight) else
  match subnetToVdrs m !! subnetID with
  | None => Some (m, [], Some errMissingValidator)
  | Some s =>
      '(s, calls, err) ← vs_addWeight s nodeID weight;
      Some (with_set m subnetID s, calls, err)
  end.

(** [RemoveWeight]: a subnet without validators is dropped unless listeners are
    registered on it. *)
Definition RemoveWeight m (subnetID : ID) (nodeID : NodeID) (weight : Z) : outcome manager :=
  if weight =? 0 then Some (m, [], Some ErrZeroWeight) else
  match subnetToVdrs m !! subnetID with
  | None => Some (m, [], Some errMissingValidator)
  | Some s =>
      '(s, calls, err) ← vs_removeWeight s nodeID weight;
      match err with
      | Some e => Some (with_set m subnetID s, calls, Some e)
      | None =>
          if (vs_len s =? 0)%nat && (length (setCallbackListeners s) =? 0)%nat
          then Some (mkManager (delete subnetID (subnetToVdrs m)) (callbackListeners m), calls, None)
          else Some (with_set m subnetID s, calls, None)
      end
  end.

(** [GetWeight] *)
Definition GetWeight m (subnetID : ID) (nodeID : NodeID) : Z :=
  match subnetToVdrs m !! subnetID with Some s => vs_getWeight s nodeID | None => 0 end.

(** [GetValidator] *)
Definition GetValidator m (subnetID : ID) (nodeID : NodeID) : option Validator :=
  match subnetToVdrs m !! subnetID with Some s => vs_get s nodeID | None => None end.

(** [SubsetWeight] *)
Definition SubsetWeight m (subnetID : ID) (subset : list NodeID) : result Z math_error :=
  match subnetToVdrs m !! subnetID with Some s => vs_subsetWeight s subset 0 | None => Ok 0 end.

(** [NumSubnets] *)
Definition NumSubnets m : nat := base.size (subnetToVdrs m).

(** [NumValidators] *)
Definition NumValidators m (subnetID : ID) : nat :=
  match subnetToVdrs m !! subnetID with Some s => vs_len s | None => 0%nat end.

(** [TotalWeight] *)
Definition TotalWeight m (subnetID : ID) : result Z vdr_error :=
  match subnetToVdrs m !! subnetID with Some s => vs_TotalWeight s | None => Ok 0 end.

(** [Sample] *)
Definition mgr_Sample `{Source Src} (fuel : nat) m (subnetID : ID) (size : Z) (src : Src)
    : option (manager * Src * result (list NodeID) vdr_error) :=
  if size =? 0 then Some (m, src, Ok []) else
  match subnetToVdrs m !! subnetID with
  | None => Some (m, src, Err ErrMissingValidators)
  | Some s =>
      '(s, src, r) ← vs_sample fuel s size src;
      Some (with_set m subnetID s, src, r)
  end.

(** [GetMap] *)
Definition GetMap m (subnetID : ID) : option (gmap NodeID GetValidatorOutput) :=
  match subnetToVdrs m !! subnetID with Some s => vs_Map s | None => Some ∅ end.

(** [GetValidatorIDs] *)
Definition GetValidatorIDs m (subnetID : ID) : option (list NodeID) :=
  match subnetToVdrs m !! subnetID with Some s => vs_GetValidatorIDs s | None => Some [] end.

(** The loop of [RegisterCallbackListener] over the subnets. *)
Fixpoint register_all (l : Listener) (sets : list (ID * vdrSet)) (acc : gmap ID vdrSet)
    : option (gmap ID vdrSet * list callback) :=
  match sets with
  | [] => Some (acc, [])
  | (subnetID, s) :: sets =>
      '(s, calls) ← vs_RegisterManagerCallbackListener s l;
      '(acc, calls') ← register_all l sets (<[subnetID := s]> acc);
      Some (acc, calls ++ calls')
  end.

(** [RegisterCallbackListener] *)
Definition RegisterCallbackListener m (l : Listener) : outcome manager :=
  '(sets, calls) ← register_all l (map_range (subnetToVdrs m)) (subnetToVdrs m);
  Some (mkManager sets (callbackListeners m ++ [l]), calls, None).

(** [RegisterSetCallbackListener] *)
Definition RegisterSetCallbackListener m (subnetID : ID) (l : Listener) : outcome manager :=
  let s := default (newSet subnetID (callbackListeners m)) (subnetToVdrs m !! subnetID) in
  '(s, calls) ← vs_RegisterCallbackListener s l;
  Some (with_set m subnetID s, calls, None).

(** ** What a set of validators promises

    A finite map from nodes to their key, transaction and weight. *)

Record vinfo : Type := mkInfo { vi_PublicKey : option PublicKey; vi_TxID : ID; vi_Weight : Z }.
Implicit Types μ : gmap NodeID vinfo.

Definition info (v : Validator) : vinfo := mkInfo (vdr_PublicKey v) (vdr_TxID v) (vdr_Weight v).

Definition reweigh (i : vinfo) (weight : Z) : vinfo := mkInfo (vi_PublicKey i) (vi_TxID i) weight.

(** An operation fails, or changes the map and notifies an event. *)
Definition spec_result : Type := result (gmap NodeID vinfo * vdr_event) vdr_error.

Definition spec_add μ (nodeID : NodeID) (pk : option PublicKey) (txID : ID) (weight : Z) : spec_result :=
  match μ !! nodeID with
  | Some _ => Err errDuplicateValidator
  | None => Ok (<[nodeID := mkInfo pk txID weight]> μ, OnValidatorAdded nodeID pk txID weight)
  end.

Definition spec_addWeight μ (nodeID : NodeID) (weight : Z) : spec_result :=
  match μ !! nodeID with
  | None => Err errMissingValidator
  | Some i =>
      let w := vi_Weight i + weight in
      if w <=? MaxUint64
      then Ok (<[nodeID := reweigh i w]> μ, OnValidatorWeightChanged nodeID (vi_Weight i) w)
      else Err (errMath ErrOverflow)
  end.

Definition spec_removeWeight μ (nodeID : NodeID) (weight : Z) : spec_result :=
  match μ !! nodeID with
  | None => Err errMissingValidator
  | Some i =>
      if vi_Weight i <? weight then Err (errMath ErrUnderflow)
      else if vi_Weight i =? weight then Ok (delete nodeID μ, OnValidatorRemoved nodeID (vi_Weight i))
      else Ok (<[nodeID := reweigh i (vi_Weight i - weight)]> μ,
               OnValidatorWeightChanged nodeID (vi_Weight i) (vi_Weight i - weight))
  end.

Definition total μ : Z := msum (vi_Weight <$> μ).

(** ** The representation *)

Record vs_rep s μ : Prop := {
  rep_slice i l : vdrSlice s !! i = Some l →
    ∃ v, objects s !! l = Some v ∧ vdr_index v = i ∧ weights s !! i = Some (vdr_Weight v) ∧
      vdrs s !! vdr_NodeID v = Some l;
  rep_vdrs n l : vdrs s !! n = Some l →
    ∃ v, objects s !! l = Some v ∧ vdr_NodeID v = n ∧ vdrSlice s !! vdr_index v = Some l ∧ μ !! n = Some (info v);
  rep_none n : vdrs s !! n = None → μ !! n = None;
  rep_length : length (weights s) = length (vdrSlice s);
  rep_weight n i : μ !! n = Some i → 0 < vi_Weight i ≤ MaxUint64;
  rep_total : totalWeight s = total μ;
  rep_sampler : samplerInitialized s = true →
    is_u64 (lsum (weights s)) ∧ heap_for (weights s) (ww_w (sampler s)) ∧
    ur_length (ww_u (sampler s)) = lsum (weights s);
}.

Definition same_listeners s s' : Prop :=
  subnetID s' = subnetID s ∧ managerCallbackListeners s' = managerCallbackListeners s ∧
  setCallbackListeners s' = setCallbackListeners s.

(** An operation on a set does what the specification says. *)
Definition set_refines s (r : outcome vdrSet) (spec : spec_result) : Prop :=
  match spec with
  | Err e => r = Some (s, [], Some e)
  | Ok (μ', e) => ∃ s', r = Some (s', call_listeners s e, None) ∧ vs_rep s' μ' ∧ same_listeners s s'
  end.

Lemma rep_newSet sub ls : vs_rep (newSet sub ls) ∅.
Proof.
  split; simpl; try done.
Qed.

Lemma rep_lookup s μ n :
  vs_rep s μ → μ !! n = info <$> vs_get s n.
Proof.
  intros Hr. unfold vs_get. destruct (vdrs s !! n) as [l|] eqn:Hl; simpl; [|by apply (rep_none _ _ Hr)].
  destruct (rep_vdrs _ _ Hr _ _ Hl) as (v & -> & _ & _ & ->). done.
Qed.

Lemma rep_nonneg s μ : vs_rep s μ → map_Forall (λ _ w, 0 ≤ w) (vi_Weight <$> μ).
Proof. intros Hr n w (i & <- & Hi%(rep_weight _ _ Hr))%lookup_fmap_Some. lia. Qed.

Lemma total_insert μ n i : total (<[n := i]> μ) = vi_Weight i + total μ - default 0 (vi_Weight <$> μ !! n).
Proof. unfold total. rewrite fmap_insert, msum_insert, lookup_fmap. done. Qed.

(** Two positions of the slice never hold one validator. *)
Lemma rep_slice_inj s μ i j l : vs_rep s μ → vdrSlice s !! i = Some l → vdrSlice s !! j = Some l → i = j.
Proof.
  intros Hr Hi Hj. destruct (rep_slice _ _ Hr _ _ Hi) as (v & Hv & <- & _).
  destruct (rep_slice _ _ Hr _ _ Hj) as (v' & Hv' & <- & _). congruence.
Qed.

Lemma vs_add_refines s μ n pk tx w :
  vs_rep s μ → 0 < w ≤ MaxUint64 → set_refines s (vs_add s n pk tx w) (spec_add μ n pk tx w).
Proof.
  intros Hr Hw. unfold vs_add, spec_add. rewrite (rep_lookup s μ) by done. unfold vs_get.
  destruct (vdrs s !! n) as [l|] eqn:Hn; simpl.
  { destruct (rep_vdrs _ _ Hr _ _ Hn) as (v & -> & _). done. }
  eexists. split; [done|]. split; [|done]. set (l := fresh (dom (objects s))).
  assert (objects s !! l = None) as Hfresh by (apply not_elem_of_dom, is_fresh).
  pose proof (rep_length _ _ Hr) as Hlen.
  split; simpl; try done.
  - intros i l' [Hi|[Hi Hl']]%lookup_app_Some.
    + destruct (rep_slice _ _ Hr _ _ Hi) as (v & Hv & Hidx & Hwt & Hvd). exists v.
      rewrite lookup_insert_ne by congruence. split_and!; try done.
      * by apply lookup_app_l_Some.
      * rewrite lookup_insert_ne; [done|]. intros ->. congruence.
    + apply list_lookup_singleton_Some in Hl' as [Hz <-]. assert (i = length (vdrSlice s)) as -> by lia.
      eexists. rewrite lookup_insert_eq. split; [done|]. simpl. rewrite <- Hlen, list_lookup_middle by done.
      by rewrite lookup_insert_eq.
  - intros n' l' [[<- <-]|[Hne Hl']]%lookup_insert_Some.
    + eexists. rewrite lookup_insert_eq. split; [done|]. simpl. rewrite list_lookup_middle, lookup_insert_eq by done. done.
    + destruct (rep_vdrs _ _ Hr _ _ Hl') as (v & Hv & Hnv & Hsl & Hm). exists v.
      rewrite !lookup_insert_ne by congruence. split_and!; try done. by apply lookup_app_l_Some.
  - intros n' [Hne Hl']%lookup_insert_None. rewrite lookup_insert_ne by done. by apply (rep_none _ _ Hr).
  - rewrite !length_app. simpl. lia.
  - intros n' i [[<- <-]|[_ Hi]]%lookup_insert_Some; [done|by apply (rep_weight _ _ Hr n')].
  - rewrite (rep_total _ _ Hr), total_insert. rewrite (rep_none _ _ Hr) by done. simpl. lia.
Qed.

(** A change of a validator's weight. *)
Lemma set_weight_rep s μ n l v w :
  vs_rep s μ → vdrs s !! n = Some l → objects s !! l = Some v → 0 < w ≤ MaxUint64 →
  ∃ ws, store (weights s) (vdr_index v) w = Some ws ∧
    vs_rep (set_contents s (<[l := set_weight v w]> (objects s)) (vdrs s) (vdrSlice s) ws (totalWeight s + w - vdr_Weight v))
      (<[n := reweigh (info v) w]> μ).
Proof.
  intros Hr Hn Hv Hw. destruct (rep_vdrs _ _ Hr _ _ Hn) as (v' & Hv' & Hnv & Hsl & Hm).
  rewrite Hv in Hv'. injection Hv' as <-. pose proof (lookup_lt_Some _ _ _ Hsl) as Hlt.
  pose proof (rep_length _ _ Hr) as Hlen.
  exists (<[vdr_index v := w]> (weights s)). split; [unfold store; by rewrite decide_True by lia|].
  split; simpl; try done.
  - intros i l' Hi. destruct (rep_slice _ _ Hr _ _ Hi) as (v' & Hv' & Hidx & Hwt & Hvd).
    destruct (decide (l' = l)) as [->|Hne].
    + rewrite Hv in Hv'. injection Hv' as <-. eexists. rewrite lookup_insert_eq. split; [done|]. simpl.
      rewrite <- Hidx, list_lookup_insert_eq by lia. done.
    + exists v'. rewrite lookup_insert_ne by done. split_and!; try done. rewrite list_lookup_insert_ne; [done|].
      intros Heq. apply Hne. rewrite Heq in Hsl. congruence.
  - intros n' l' Hl'. destruct (rep_vdrs _ _ Hr _ _ Hl') as (v' & Hv' & Hnv' & Hsl' & Hm').
    destruct (decide (l' = l)) as [->|Hne].
    + rewrite Hv in Hv'. injection Hv' as <-. eexists. rewrite lookup_insert_eq. split; [done|]. simpl.
      rewrite <- Hnv, Hnv', lookup_insert_eq. done.
    + exists v'. rewrite lookup_insert_ne by done. split_and!; try done. rewrite lookup_insert_ne; [done|]. congruence.
  - intros n' Hl'. rewrite lookup_insert_ne by congruence. by apply (rep_none _ _ Hr).
  - by rewrite length_insert.
  - intros n' i [[<- <-]|[_ Hi]]%lookup_insert_Some; [done|by apply (rep_weight _ _ Hr n')].
  - rewrite (rep_total _ _ Hr), total_insert, Hm. simpl. lia.
Qed.

Lemma swap_remove_lookup {A} (sl : list A) (k i : nat) x :
  (k < length sl)%nat →
  take (length sl - 1) (<[k := x]> sl) !! i =
    if decide (i < length sl - 1)%nat then if decide (i = k) then Some x else sl !! i else None.
Proof.
  intros Hk. destruct (decide (i < length sl - 1)%nat) as [Hi|Hi].
  - rewrite lookup_take_lt by done. case_decide; subst; [by rewrite list_lookup_insert_eq|by rewrite list_lookup_insert_ne].
  - apply lookup_take_ge. lia.
Qed.

(** The removal of a validator: the last one takes its position. *)
Lemma swap_remove_rep s μ n l v :
  vs_rep s μ → vdrs s !! n = Some l → objects s !! l = Some v →
  ∃ lswap vswap slice ws,
    vdrSlice s !! (length (vdrSlice s) - 1)%nat = Some lswap ∧ objects s !! lswap = Some vswap ∧
    store (vdrSlice s) (vdr_index v) lswap = Some slice ∧
    store (weights s) (vdr_index v) (vdr_Weight vswap) = Some ws ∧
    vs_rep (set_contents s (<[lswap := set_index vswap (vdr_index v)]> (objects s)) (delete n (vdrs s))
      (take (length (vdrSlice s) - 1) slice) (take (length (vdrSlice s) - 1) ws) (totalWeight s - vdr_Weight v))
      (delete n μ).
Proof.
  intros Hr Hn Hv. destruct (rep_vdrs _ _ Hr _ _ Hn) as (v' & Hv' & Hnv & Hsl & Hm).
  rewrite Hv in Hv'. injection Hv' as <-. pose proof (lookup_lt_Some _ _ _ Hsl) as Hlt.
  pose proof (rep_length _ _ Hr) as Hlen. set (k := vdr_index v) in *. set (last := (length (vdrSlice s) - 1)%nat).
  destruct (lookup_lt_is_Some_2 (vdrSlice s) last) as [lswap Hlast]; [lia|].
  destruct (rep_slice _ _ Hr _ _ Hlast) as (vswap & Hvs & Hidx & Hws & Hvd).
  exists lswap, vswap, (<[k := lswap]> (vdrSlice s)), (<[k := vdr_Weight vswap]> (weights s)).
  split_and!; try done; [unfold store; by rewrite decide_True by lia..|].
  assert (lswap = l → k = last) as Hsame by (intros ->; by eapply rep_slice_inj).
  split; simpl; try done.
  - intros i l'. unfold last. rewrite swap_remove_lookup by lia. rewrite <- Hlen, swap_remove_lookup, Hlen by lia. fold last.
    destruct (decide (i < last)%nat) as [Hi|]; [|done]. destruct (decide (i = k)) as [->|Hik].
    + intros [= <-]. eexists. rewrite lookup_insert_eq. split; [done|]. simpl. split_and!; try done.
      rewrite lookup_delete_ne; [done|]. intros Heq. rewrite <- Heq, Hn in Hvd. injection Hvd as ->. specialize (Hsame eq_refl). lia.
    + intros Hl'. destruct (rep_slice _ _ Hr _ _ Hl') as (v' & Hv' & Hi' & Hw' & Hvd'). exists v'.
      rewrite lookup_insert_ne by (intros ->; pose proof (rep_slice_inj _ _ _ _ _ Hr Hlast Hl'); lia).
      split_and!; try done. rewrite lookup_delete_ne; [done|]. intros Heq. rewrite <- Heq, Hn in Hvd'. injection Hvd' as ->.
      apply Hik. by eapply rep_slice_inj.
  - intros n' l' [Hne Hl']%lookup_delete_Some. destruct (rep_vdrs _ _ Hr _ _ Hl') as (v' & Hv' & Hnv' & Hsl' & Hm').
    unfold last. setoid_rewrite swap_remove_lookup; [|done]. fold last. rewrite lookup_delete_ne by done.
    pose proof (lookup_lt_Some _ _ _ Hsl'). destruct (decide (l' = lswap)) as [->|Hls].
    + assert (v' = vswap) as -> by congruence. eexists. rewrite lookup_insert_eq. split; [done|]. simpl.
      assert (k ≠ last) as Hk. { intros Hk. rewrite Hk, Hlast in Hsl. congruence. }
      rewrite !decide_True by (done || lia). done.
    + exists v'. rewrite lookup_insert_ne by done.
      assert (vdr_index v' ≠ last). { intros Heq. rewrite Heq, Hlast in Hsl'. congruence. }
      rewrite decide_True, decide_False; [done| |lia]. intros Heq. rewrite Heq, Hsl in Hsl'. congruence.
  - intros n' [->|Hl']%lookup_delete_None; [by rewrite lookup_delete_eq|].
    apply lookup_delete_None. right. by apply (rep_none _ _ Hr).
  - rewrite !length_take, !length_insert. lia.
  - intros n' i [_ Hi]%lookup_delete_Some. by apply (rep_weight _ _ Hr n').
  - rewrite (rep_total _ _ Hr). unfold total. rewrite fmap_delete, msum_delete_total, lookup_fmap, Hm. done.
Qed.

Lemma vs_addWeight_refines s μ n w :
  vs_rep s μ → 0 < w ≤ MaxUint64 → set_refines s (vs_addWeight s n w) (spec_addWeight μ n w).
Proof.
  intros Hr Hw. unfold vs_addWeight, spec_addWeight. rewrite (rep_lookup s μ) by done. unfold vs_get.
  destruct (vdrs s !! n) as [l|] eqn:Hn; [|done]. destruct (rep_vdrs _ _ Hr _ _ Hn) as (v & Hv & _ & _ & Hm).
  pose proof (rep_weight _ _ Hr _ _ Hm) as Hvw. simpl in Hvw. simpl. rewrite Hv. simpl.
  rewrite safe_Add64 by (split; lia). destruct (Z.leb_spec (vdr_Weight v + w) MaxUint64); [|done].
  destruct (set_weight_rep s μ n l v (vdr_Weight v + w)) as (ws & -> & Hr'); [done..|lia|].
  simpl. eexists. split; [done|]. split; [|done]. by replace (totalWeight s + w) with (totalWeight s + (vdr_Weight v + w) - vdr_Weight v) by lia.
Qed.

Lemma vs_removeWeight_refines s μ n w :
  vs_rep s μ → 0 < w ≤ MaxUint64 → set_refines s (vs_removeWeight s n w) (spec_removeWeight μ n w).
Proof.
  intros Hr Hw. unfold vs_removeWeight, spec_removeWeight. rewrite (rep_lookup s μ) by done. unfold vs_get.
  destruct (vdrs s !! n) as [l|] eqn:Hn; [|done]. destruct (rep_vdrs _ _ Hr _ _ Hn) as (v & Hv & _ & _ & Hm).
  pose proof (rep_weight _ _ Hr _ _ Hm) as Hvw. simpl in Hvw. simpl. rewrite Hv. simpl.
  rewrite safe_Sub64 by (split; lia).
  destruct (Z.leb_spec w (vdr_Weight v)), (Z.ltb_spec (vdr_Weight v) w); try lia; [|done].
  destruct (Z.eqb_spec (vdr_Weight v - w) 0), (Z.eqb_spec (vdr_Weight v) w); try lia.
  - destruct (swap_remove_rep s μ n l v) as (lswap & vswap & slice & ws & -> & Hvs & Hst & Hws & Hr'); [done..|].
    simpl. rewrite Hvs. simpl. rewrite Hst. simpl. rewrite Hws. simpl. eexists. split; [done|].
    split; [|done]. by replace w with (vdr_Weight v).
  - destruct (set_weight_rep s μ n l v (vdr_Weight v - w)) as (ws & -> & Hr'); [done..|lia|].
    simpl. eexists. split; [done|]. split; [|done].
    by replace (totalWeight s - w) with (totalWeight s + (vdr_Weight v - w) - vdr_Weight v) by lia.
Qed.

(** ** Queries *)

Lemma rep_members s μ :
  vs_rep s μ →
  ∃ vs, mapM (λ l, objects s !! l) (vdrSlice s) = Some vs ∧ weights s = map vdr_Weight vs ∧
    map (λ v, (vdr_NodeID v, info v)) vs ≡ₚ map_to_list μ.
Proof.
  intros Hr. destruct (mapM_is_Some_2 (λ l, objects s !! l) (vdrSlice s)) as [vs Hvs].
  { apply Forall_forall. intros l [i Hi]%list_elem_of_lookup. destruct (rep_slice _ _ Hr _ _ Hi) as (v & Hv & _). by exists v. }
  exists vs. split; [done|]. apply mapM_Some in Hvs. pose proof (Forall2_length _ _ _ Hvs) as Hlen.
  assert (∀ i v, vs !! i = Some v → vdr_index v = i ∧ weights s !! i = Some (vdr_Weight v) ∧ vs_get s (vdr_NodeID v) = Some v) as Hat.
  { intros i v Hv. destruct (Forall2_lookup_r _ _ _ _ _ Hvs Hv) as (l & Hl & Hlv). simpl in Hlv.
    destruct (rep_slice _ _ Hr _ _ Hl) as (v' & Hv' & Hidx & Hw & Hvd). assert (v' = v) as -> by congruence.
    split_and!; [done|done|]. unfold vs_get. rewrite Hvd. done. }
  split.
  - apply list_eq. intros i. change (map ?f ?l) with (f <$> l). rewrite list_lookup_fmap.
    destruct (vs !! i) as [v|] eqn:Hv; [by apply (Hat i)|]. apply lookup_ge_None. apply lookup_ge_None in Hv.
    rewrite (rep_length _ _ Hr). lia.
  - apply NoDup_Permutation; [|apply NoDup_map_to_list|].
    + apply NoDup_alt. intros i j p Hi Hj. change (map ?f ?l) with (f <$> l) in *.
      rewrite list_lookup_fmap in Hi, Hj. destruct (vs !! i) as [vi|] eqn:Hvi, (vs !! j) as [vj|] eqn:Hvj; try done.
      simpl in *. destruct (Hat _ _ Hvi) as (<- & _ & Hgi). destruct (Hat _ _ Hvj) as (<- & _ & Hgj). simplify_eq. congruence.
    + intros [n x]. rewrite elem_of_map_to_list, (rep_lookup s μ) by done. split.
      * intros (v & Heq & [i Hv]%list_elem_of_lookup)%list_elem_of_fmap. injection Heq as -> ->. destruct (Hat _ _ Hv) as (_ & _ & ->). done.
      * intros (v & Hg & ->)%fmap_Some. unfold vs_get in Hg. destruct (vdrs s !! n) as [l|] eqn:Hl; [|done]. simpl in Hg.
        destruct (rep_vdrs _ _ Hr _ _ Hl) as (v' & Hv' & <- & Hsl & _). assert (v' = v) as -> by congruence.
        destruct (Forall2_lookup_l _ _ _ _ _ Hvs Hsl) as (v' & Hvi & Hlv). assert (v' = v) as -> by congruence.
        apply list_elem_of_fmap. exists v. split; [done|]. by eapply list_elem_of_lookup_2.
Qed.

Lemma rep_weights s μ : vs_rep s μ → lsum (weights s) = total μ.
Proof.
  intros Hr. destruct (rep_members s μ Hr) as (vs & _ & -> & Hp). unfold total, msum.
  rewrite map_to_list_fmap, <- Hp. apply (f_equal lsum). change (map ?f ?l) with (f <$> l).
  rewrite <- !list_fmap_compose. by apply list_fmap_ext.
Qed.

Lemma rep_len s μ : vs_rep s μ → vs_len s = base.size μ.
Proof.
  intros Hr. destruct (rep_members s μ Hr) as (vs & Hvs & _ & Hp). apply mapM_Some, Forall2_length in Hvs. unfold vs_len.
  apply Permutation_length in Hp. rewrite List.length_map, length_map_to_list in Hp. congruence.
Qed.

Lemma rep_TotalWeight s μ :
  vs_rep s μ → vs_TotalWeight s = if total μ <=? MaxUint64 then Ok (total μ) else Err errTotalWeightNotUint64.
Proof.
  intros Hr. unfold vs_TotalWeight. rewrite (rep_total _ _ Hr).
  assert (0 ≤ total μ) by (by apply msum_nonneg, (rep_nonneg s)). unfold is_u64. case_decide; zcases; done || lia.
Qed.

Lemma mapM_fmap {A B C} (f : A → option B) (g : B → C) l k :
  mapM f l = Some k → mapM (λ x, g <$> f x) l = Some (map g k).
Proof.
  intros Hk%mapM_Some. apply mapM_Some. change (map g k) with (g <$> k). apply Forall2_fmap_r.
  eapply Forall2_impl; [exact Hk|]. intros x y Hx. simpl. by rewrite Hx.
Qed.

Lemma rep_GetValidatorIDs s μ :
  vs_rep s μ → ∃ l, vs_GetValidatorIDs s = Some l ∧ l ≡ₚ (map_to_list μ).*1.
Proof.
  intros Hr. destruct (rep_members s μ Hr) as (vs & Hvs & _ & Hp). exists (map vdr_NodeID vs).
  split; [by apply mapM_fmap|]. rewrite <- Hp. change (map ?f ?l) with (f <$> l). rewrite <- list_fmap_compose.
  apply reflexive_eq. by apply list_fmap_ext.
Qed.

Definition output (n : NodeID) (i : vinfo) : GetValidatorOutput := mkOutput n (vi_PublicKey i) (vi_Weight i).

Lemma rep_Map s μ : vs_rep s μ → vs_Map s = Some (map_imap (λ n i, Some (output n i)) μ).
Proof.
  intros Hr. destruct (rep_members s μ Hr) as (vs & Hvs & _ & Hp).
  assert (∀ acc : gmap NodeID GetValidatorOutput, foldl (λ (out : option (gmap NodeID GetValidatorOutput)) l, out ← out; v ← objects s !! l;
      Some (<[vdr_NodeID v := mkOutput (vdr_NodeID v) (vdr_PublicKey v) (vdr_Weight v)]> out)) (Some acc) (vdrSlice s) =
    Some (foldl (λ out v, <[vdr_NodeID v := output (vdr_NodeID v) (info v)]> out) acc vs)) as Hfold.
  { clear Hp Hr. revert vs Hvs. induction (vdrSlice s) as [|l sl IH]; intros vs Hvs acc; [by injection Hvs as <-|].
    apply mapM_Some in Hvs. apply Forall2_cons_inv_l in Hvs as (v & vs' & Hv & Hvs & ->). simpl. rewrite Hv. simpl.
    apply IH. by apply mapM_Some. }
  unfold vs_Map. rewrite Hfold. f_equal.
  assert (NoDup (map vdr_NodeID vs)) as Hnd.
  { assert (map vdr_NodeID vs ≡ₚ (map_to_list μ).*1) as ->; [|apply NoDup_fst_map_to_list].
    rewrite <- Hp. change (map ?f ?l) with (f <$> l). rewrite <- list_fmap_compose. apply reflexive_eq. by apply list_fmap_ext. }
  assert (∀ vs (acc : gmap NodeID GetValidatorOutput) n, NoDup (map vdr_NodeID vs) →
    foldl (λ out v, <[vdr_NodeID v := output (vdr_NodeID v) (info v)]> out) acc vs !! n =
      match list_find (λ v, vdr_NodeID v = n) vs with Some (_, v) => Some (output n (info v)) | None => acc !! n end) as Hlook.
  { clear. induction vs as [|v vs IH]; intros acc n Hnd; [done|]. simpl in *. apply NoDup_cons in Hnd as [Hv Hnd].
    rewrite IH by done. destruct (decide (vdr_NodeID v = n)) as [<-|Hne].
    - destruct (list_find _ vs) as [[j v']|] eqn:Hf.
      + apply list_find_Some in Hf as (Hj & Heq & _). exfalso. apply Hv. rewrite <- Heq.
        apply list_elem_of_lookup_2 in Hj. by apply (list_elem_of_fmap_2 vdr_NodeID).
      + by rewrite lookup_insert_eq.
    - destruct (list_find _ vs) as [[j v']|]; simpl; [done|]. by rewrite lookup_insert_ne. }
  apply map_eq. intros n. rewrite Hlook, map_lookup_imap by done. destruct (μ !! n) as [i|] eqn:Hn; simpl.
  - assert ((n, i) ∈ map (λ v, (vdr_NodeID v, info v)) vs) as Hin by (rewrite Hp; by apply elem_of_map_to_list).
    apply list_elem_of_fmap in Hin as (v & Heq & Hv). injection Heq as -> ->. destruct (list_find_elem_of (λ v', vdr_NodeID v' = vdr_NodeID v) vs v Hv eq_refl) as [[j v'] Hf].
    rewrite Hf. apply list_find_Some in Hf as (Hj & Heq & _). do 2 f_equal.
    apply list_elem_of_lookup_2 in Hj. assert ((vdr_NodeID v', info v') ∈ map_to_list μ) as Hin.
    { rewrite <- Hp. by apply (list_elem_of_fmap_2 (λ v, (vdr_NodeID v, info v))). }
    apply elem_of_map_to_list in Hin. congruence.
  - destruct (list_find _ vs) as [[j v']|] eqn:Hf; [|by rewrite lookup_empty]. exfalso.
    apply list_find_Some in Hf as (Hj & <- & _). apply list_elem_of_lookup_2 in Hj.
    assert ((vdr_NodeID v', info v') ∈ map_to_list μ) as Hin.
    { rewrite <- Hp. by apply (list_elem_of_fmap_2 (λ v, (vdr_NodeID v, info v))). }
    apply elem_of_map_to_list in Hin. congruence.
Qed.

Lemma rep_getWeight s μ n : vs_rep s μ → vs_getWeight s n = default 0 (vi_Weight <$> μ !! n).
Proof. intros Hr. unfold vs_getWeight. rewrite (rep_lookup s μ) by done. by destruct (vs_get s n). Qed.

Lemma rep_subsetWeight s μ subset acc :
  vs_rep s μ → 0 ≤ acc ≤ MaxUint64 →
  let sum := acc + lsum (map (λ n, default 0 (vi_Weight <$> μ !! n)) subset) in
  vs_subsetWeight s subset acc = if sum <=? MaxUint64 then Ok sum else Err ErrOverflow.
Proof.
  intros Hr. cbv zeta. revert acc. induction subset as [|n subset IH]; intros acc Ha.
  { unfold lsum. simpl. rewrite Z.add_0_r. zcases. done. }
  cbn [vs_subsetWeight]. rewrite (rep_getWeight s μ) by done. simpl map.
  set (w := default 0 _). assert (0 ≤ w ≤ MaxUint64) as Hw.
  { unfold w. destruct (μ !! n) as [i|] eqn:Hi; simpl; [|unfold MaxUint64; lia]. pose proof (rep_weight _ _ Hr _ _ Hi). lia. }
  rewrite safe_Add64 by done. unfold lsum at 1 2. cbn [foldr]. fold (lsum (map (λ n, default 0 (vi_Weight <$> μ !! n)) subset)).
  set (rest := lsum _) in *. assert (0 ≤ rest).
  { apply lsum_nonneg, Forall_fmap, Forall_forall. intros x _. simpl.
    destruct (μ !! x) as [i|] eqn:Hi; simpl; [|lia]. pose proof (rep_weight _ _ Hr _ _ Hi). lia. }
  destruct (Z.leb_spec (acc + w) MaxUint64); [rewrite IH by lia; by rewrite Z.add_assoc|]. zcases. done.
Qed.

Lemma rep_added_events s μ :
  vs_rep s μ → ∃ es, vs_added_events s = Some es ∧
    es ≡ₚ map (λ '(n, i), OnValidatorAdded n (vi_PublicKey i) (vi_TxID i) (vi_Weight i)) (map_to_list μ).
Proof.
  intros Hr. destruct (rep_members s μ Hr) as (vs & Hvs & _ & Hp).
  eexists. split; [unfold vs_added_events; by apply mapM_fmap|]. change (map ?f ?l) with (f <$> l) in *. rewrite <- Hp.
  rewrite <- list_fmap_compose. apply reflexive_eq. by apply list_fmap_ext.
Qed.

(** ** Sampling *)

Section SampleProofs.
Context `{SourceLaws Src patience}.

(** What sampling promises: as many validators as asked, none more often than its
    weight; or the reason why not. *)
Definition sample_result μ (size : Z) (r : result (list NodeID) vdr_error) : Prop :=
  match r with
  | Ok l => total μ ≤ MaxUint64 ∧ size ≤ total μ ∧ Z.of_nat (length l) = size ∧
      ∀ n, Z.of_nat (length (filter (n =.) l)) ≤ default 0 (vi_Weight <$> μ !! n)
  | Err e => (MaxUint64 < total μ ∧ e = errMath ErrOverflow) ∨
      (total μ ≤ MaxUint64 ∧ total μ < size ∧ e = errInsufficientWeight)
  end.

Lemma rep_u64 s μ : vs_rep s μ → Forall is_u64 (weights s).
Proof.
  intros Hr. destruct (rep_members s μ Hr) as (vs & _ & -> & Hp). apply Forall_fmap, Forall_forall. intros v Hv. simpl.
  assert ((vdr_NodeID v, info v) ∈ map_to_list μ) as Hin.
  { rewrite <- Hp. by apply (list_elem_of_fmap_2 (λ v, (vdr_NodeID v, info v))). }
  apply elem_of_map_to_list, (rep_weight _ _ Hr) in Hin. simpl in Hin. split; lia.
Qed.

(** The node at a position of the slice. *)
Definition node_at s (index : nat) : option NodeID := l ← vdrSlice s !! index; vdr_NodeID <$> objects s !! l.

Lemma node_at_get s μ k n :
  vs_rep s μ → node_at s k = Some n → ∃ v, vs_get s n = Some v ∧ vdr_index v = k ∧ weights s !! k = Some (vdr_Weight v).
Proof.
  intros Hr Hk. unfold node_at in Hk. destruct (vdrSlice s !! k) as [l|] eqn:Hl; [|done]. simpl in Hk.
  destruct (rep_slice _ _ Hr _ _ Hl) as (v & Hv & Hi & Hw & Hn). rewrite Hv in Hk. injection Hk as <-.
  exists v. split_and!; try done. unfold vs_get. by rewrite Hn.
Qed.

Lemma node_count s μ indices l n w :
  vs_rep s μ → Forall2 (λ k n, node_at s k = Some n) indices l →
  (∀ k w, weights s !! k = Some w → Z.of_nat (length (filter (k =.) indices)) ≤ w) →
  w = default 0 (vi_Weight <$> μ !! n) → Z.of_nat (length (filter (n =.) l)) ≤ w.
Proof.
  intros Hr Hf Hcount ->. rewrite (rep_lookup s μ) by done. destruct (vs_get s n) as [v|] eqn:Hg; simpl.
  - assert (weights s !! vdr_index v = Some (vdr_Weight v)) as Hw.
    { unfold vs_get in Hg. destruct (vdrs s !! n) as [l'|] eqn:Hl; [|done]. simpl in Hg.
      destruct (rep_vdrs _ _ Hr _ _ Hl) as (v' & Hv' & _ & Hsl & _). assert (v' = v) as -> by congruence.
      destruct (rep_slice _ _ Hr _ _ Hsl) as (v' & Hv'' & _ & Hw & _). assert (v' = v) as -> by congruence. done. }
    etrans; [|apply (Hcount _ _ Hw)]. apply Nat2Z.inj_le. clear Hcount.
    induction Hf as [|k n' indices l Hk Hf IH]; [done|]. rewrite !filter_cons. destruct (decide (n = n')) as [<-|Hne].
    + destruct (node_at_get s μ k n Hr Hk) as (v' & Hv' & <- & _). assert (v' = v) as -> by congruence.
      rewrite decide_True by done. simpl. lia.
    + case_decide; simpl; lia.
  - assert (filter (n =.) l = []) as ->; [|done]. clear Hcount.
    induction Hf as [|k n' indices l Hk Hf IH]; [done|]. rewrite filter_cons, decide_False; [done|].
    intros <-. destruct (node_at_get s μ k n Hr Hk) as (v' & Hv' & _). congruence.
Qed.

Lemma vs_draw_spec s μ size (src : Src) :
  vs_rep s μ → samplerInitialized s = true → 0 ≤ size →
  ∃ s' src' r, vs_draw patience s size src = Some (s', src', r) ∧ vs_rep s' μ ∧ same_listeners s s' ∧ sample_result μ size r.
Proof.
  intros Hr Hinit Hsize. destruct (rep_sampler _ _ Hr Hinit) as (Hu & Hheap & Hlen).
  pose proof (rep_weights _ _ Hr) as Htot. unfold vs_draw. destruct (sampler s) as [u heap] eqn:Hsampler. simpl in *.
  destruct (ww_Sample_spec (weights s) heap u src size Hu Hheap Hlen Hsize) as (u' & src' & r & -> & Hlen' & Hres). simpl.
  assert (vs_rep (with_sampler s true (mkWithoutReplacement u' heap)) μ) as Hr'.
  { split; simpl; try apply Hr. done. }
  rewrite Htot in *. destruct (Z.leb_spec size (total μ)).
  - destruct Hres as (indices & -> & Hcnt & Hin & Hw).
    destruct (mapM_is_Some_2 (node_at s) indices) as [l Hl].
    { apply Forall_forall. intros k Hk%Hin. rewrite (rep_length _ _ Hr) in Hk.
      destruct (lookup_lt_is_Some_2 _ _ Hk) as [l Hl]. change (is_Some (node_at s k)). unfold node_at. rewrite Hl. simpl.
      destruct (rep_slice _ _ Hr _ _ Hl) as (v & -> & _). by eexists. }
    unfold node_at in Hl. rewrite Hl. simpl. apply mapM_Some in Hl. eexists _, _, _. split; [done|].
    split_and!; try done.
    split_and!; [by destruct Hu|done|by rewrite <- (Forall2_length _ _ _ Hl)|]. intros n. by eapply node_count.
  - subst r. eexists _, _, _. split; [done|]. split_and!; try done. right. split_and!; [by destruct Hu|done|done].
Qed.

Lemma vs_sample_spec s μ size (src : Src) :
  vs_rep s μ → 0 ≤ size →
  ∃ s' src' r, vs_sample patience s size src = Some (s', src', r) ∧ vs_rep s' μ ∧ same_listeners s s' ∧ sample_result μ size r.
Proof.
  intros Hr Hsize. unfold vs_sample. destruct (samplerInitialized s) eqn:Hinit; [by apply vs_draw_spec|].
  pose proof (rep_u64 s μ Hr) as Hu. pose proof (rep_weights _ _ Hr) as Htot.
  assert (0 ≤ total μ) by (by apply msum_nonneg, (rep_nonneg s)).
  unfold ww_Initialize. rewrite ww_total_spec by done. rewrite Z.add_0_l, Htot.
  destruct (wh_Initialize_spec (weights s) Hu) as (heap & err & -> & Hheap). rewrite Htot in Hheap.
  destruct (Z.leb_spec (total μ) MaxUint64) as [Hle|Hgt]; simpl.
  - destruct Hheap as [-> Hheap].
    apply (vs_draw_spec (with_sampler s true (mkWithoutReplacement (ur_Initialize (total μ)) heap))); [|done|done].
    split; simpl; try apply Hr. intros _. rewrite Htot. done.
  - eexists _, _, _. split; [done|]. split_and!; try done; [|by left]. split; simpl; try apply Hr. done.
Qed.

(** ** The manager *)

(** Calls of the manager that change its state. *)
Inductive vdr_op : Type :=
| OpAddStaker (subnetID : ID) (nodeID : NodeID) (pk : option PublicKey) (txID : ID) (weight : Z)
| OpAddWeight (subnetID : ID) (nodeID : NodeID) (weight : Z)
| OpRemoveWeight (subnetID : ID) (nodeID : NodeID) (weight : Z)
| OpRegister (l : Listener)
| OpRegisterSet (subnetID : ID) (l : Listener)
| OpSample (subnetID : ID) (size : Z) (src : Src).

Definition run_op m (op : vdr_op) : outcome manager :=
  match op with
  | OpAddStaker sub n pk tx w => AddStaker m sub n pk tx w
  | OpAddWeight sub n w => AddWeight m sub n w
  | OpRemoveWeight sub n w => RemoveWeight m sub n w
  | OpRegister l => RegisterCallbackListener m l
  | OpRegisterSet sub l => RegisterSetCallbackListener m sub l
  | OpSample sub size src => '(m, _, _) ← mgr_Sample patience m sub size src; Some (m, [], None)
  end.

(** Weights are [uint64]s; a negative sample size makes [make] panic. *)
Definition op_ok (op : vdr_op) : Prop :=
  match op with
  | OpAddStaker _ _ _ _ w | OpAddWeight _ _ w | OpRemoveWeight _ _ w => is_u64 w
  | OpSample _ size _ => 0 ≤ size
  | _ => True
  end.

(** The abstract state: the validators of every subnet. *)
Abbreviation vdr_state := (ID → gmap NodeID vinfo).

Definition upd {A} (f : ID → A) (sub : ID) (x : A) : ID → A := λ sub', if decide (sub' = sub) then x else f sub'.

Definition spec_set (σ : vdr_state) (sub : ID) (w : Z) (r : spec_result) : result (vdr_state * option (ID * vdr_event)) vdr_error :=
  if w =? 0 then Err ErrZeroWeight else
  match r with Ok (μ, e) => Ok (upd σ sub μ, Some (sub, e)) | Err e => Err e end.

Definition spec_op (σ : vdr_state) (op : vdr_op) : result (vdr_state * option (ID * vdr_event)) vdr_error :=
  match op with
  | OpAddStaker sub n pk tx w => spec_set σ sub w (spec_add (σ sub) n pk tx w)
  | OpAddWeight sub n w => spec_set σ sub w (spec_addWeight (σ sub) n w)
  | OpRemoveWeight sub n w => spec_set σ sub w (spec_removeWeight (σ sub) n w)
  | OpRegister _ | OpRegisterSet _ _ | OpSample _ _ _ => Ok (σ, None)
  end.

Definition mgr_rep m (σ : vdr_state) : Prop :=
  ∀ sub, match subnetToVdrs m !! sub with
         | Some s => vs_rep s (σ sub) ∧ subnetID s = sub ∧ managerCallbackListeners s = callbackListeners m
         | None => σ sub = ∅
         end.

Lemma upd_same {A} (f : ID → A) sub : ∀ sub', upd f sub (f sub) sub' = f sub'.
Proof. intros sub'. unfold upd. by case_decide; subst. Qed.

Lemma mgr_rep_new : mgr_rep NewManager (λ _, ∅).
Proof. intros sub. simpl. by rewrite lookup_empty. Qed.

(** The set an operation works on, created when the subnet is new. *)
Lemma mgr_rep_default m σ sub :
  mgr_rep m σ →
  let s := default (newSet sub (callbackListeners m)) (subnetToVdrs m !! sub) in
  vs_rep s (σ sub) ∧ subnetID s = sub ∧ managerCallbackListeners s = callbackListeners m.
Proof.
  intros Hm. specialize (Hm sub). destruct (subnetToVdrs m !! sub) as [s|]; simpl; [done|].
  rewrite Hm. split_and!; [apply rep_newSet|done|done].
Qed.

Lemma mgr_rep_upd m σ sub s μ :
  mgr_rep m σ → vs_rep s μ → subnetID s = sub → managerCallbackListeners s = callbackListeners m →
  mgr_rep (with_set m sub s) (upd σ sub μ).
Proof.
  intros Hm Hs Hid Hl sub'. unfold upd. simpl. destruct (decide (sub' = sub)) as [->|Hne].
  - by rewrite lookup_insert_eq.
  - rewrite lookup_insert_ne by done. apply Hm.
Qed.

Lemma mgr_rep_ext m σ σ' : (∀ sub, σ sub = σ' sub) → mgr_rep m σ → mgr_rep m σ'.
Proof. intros Heq Hm sub. rewrite <- Heq. apply Hm. Qed.

Lemma mgr_rep_delete m σ sub :
  mgr_rep m σ → mgr_rep (mkManager (delete sub (subnetToVdrs m)) (callbackListeners m)) (upd σ sub ∅).
Proof.
  intros Hm sub'. unfold upd. simpl. destruct (decide (sub' = sub)) as [->|Hne].
  - by rewrite lookup_delete_eq.
  - rewrite lookup_delete_ne by done. apply Hm.
Qed.

(** What a listener knows of the weights, from the calls it received. *)
Definition apply_event (e : vdr_event) (known : gmap NodeID Z) : gmap NodeID Z :=
  match e with
  | OnValidatorAdded n _ _ w => <[n := w]> known
  | OnValidatorRemoved n _ => delete n known
  | OnValidatorWeightChanged n _ w => <[n := w]> known
  end.

Section Listeners.
Context `{!EqDecision Listener}.

Definition replay_call (l : Listener) (known : ID → gmap NodeID Z) (c : callback) : ID → gmap NodeID Z :=
  match c with
  | ManagerCall l' sub e => if decide (l' = l) then upd known sub (apply_event e (known sub)) else known
  | SetCall _ _ => known
  end.

Definition replay (l : Listener) (calls : list callback) (known : ID → gmap NodeID Z) : ID → gmap NodeID Z :=
  foldl (replay_call l) known calls.

(** A registered listener knows the weights of every subnet; one that is not
    knows nothing. *)
Definition informed (l : Listener) m (σ : vdr_state) (known : ID → gmap NodeID Z) : Prop :=
  ∀ sub, known sub = if decide (l ∈ callbackListeners m) then vi_Weight <$> σ sub else ∅.

Lemma apply_event_idem e known : apply_event e (apply_event e known) = apply_event e known.
Proof. destruct e; simpl; [apply insert_insert_eq|apply delete_delete_eq|apply insert_insert_eq]. Qed.

Lemma replay_app l cs1 cs2 known : replay l (cs1 ++ cs2) known = replay l cs2 (replay l cs1 known).
Proof. apply foldl_app. Qed.

Lemma replay_set_calls l ls e known : replay l (map (λ l, SetCall l e) ls) known = known.
Proof. induction ls; done. Qed.

Lemma replay_same l ls sub e known sub' :
  replay l (map (λ l, ManagerCall l sub e) ls) known sub' =
    if decide (l ∈ ls) then upd known sub (apply_event e (known sub)) sub' else known sub'.
Proof.
  revert known. induction ls as [|x ls IH]; intros known; [by rewrite decide_False by apply not_elem_of_nil|].
  simpl. rewrite IH. destruct (decide (x = l)) as [->|Hne].
  - rewrite (decide_True (P := l ∈ l :: ls)) by set_solver. case_decide; [|done].
    unfold upd. destruct (decide (sub' = sub)); [|done]. rewrite (decide_True (P := sub = sub)) by done. apply apply_event_idem.
  - destruct (decide (l ∈ ls)); [rewrite decide_True by set_solver|rewrite decide_False by set_solver]; done.
Qed.

Lemma replay_call_listeners l s e known sub' :
  replay l (call_listeners s e) known sub' =
    if decide (l ∈ managerCallbackListeners s) then upd known (subnetID s) (apply_event e (known (subnetID s))) sub'
    else known sub'.
Proof.
  unfold call_listeners. rewrite replay_app, replay_set_calls. apply replay_same.
Qed.

Lemma spec_add_event μ n pk tx w μ' e :
  spec_add μ n pk tx w = Ok (μ', e) → apply_event e (vi_Weight <$> μ) = vi_Weight <$> μ'.
Proof. unfold spec_add. destruct (μ !! n); [done|]. intros [= <- <-]. simpl. by rewrite fmap_insert. Qed.

Lemma spec_addWeight_event μ n w μ' e :
  spec_addWeight μ n w = Ok (μ', e) → apply_event e (vi_Weight <$> μ) = vi_Weight <$> μ'.
Proof.
  unfold spec_addWeight. destruct (μ !! n); [|done]. destruct (_ <=? _); [|done].
  intros [= <- <-]. simpl. by rewrite fmap_insert.
Qed.

Lemma spec_removeWeight_event μ n w μ' e :
  spec_removeWeight μ n w = Ok (μ', e) → apply_event e (vi_Weight <$> μ) = vi_Weight <$> μ'.
Proof.
  unfold spec_removeWeight. destruct (μ !! n); [|done]. destruct (_ <? _); [done|]. destruct (_ =? _);
    intros [= <- <-]; simpl; [by rewrite fmap_delete|by rewrite fmap_insert].
Qed.

(** What every operation of the manager guarantees. *)
Definition mgr_refines m (σ : vdr_state) (r : outcome manager) (spec : result (vdr_state * option (ID * vdr_event)) vdr_error) : Prop :=
  ∃ m' calls err, r = Some (m', calls, err) ∧
    match spec with
    | Err e => err = Some e ∧ calls = [] ∧ mgr_rep m' σ ∧ callbackListeners m' = callbackListeners m
    | Ok (σ', _) => err = None ∧ mgr_rep m' σ' ∧
        ∀ l known, informed l m σ known → informed l m' σ' (replay l calls known)
    end.

(** An operation on the set of one subnet. *)
Lemma mgr_refines_set m σ sub s μ' e (m' : manager) :
  subnetID s = sub → managerCallbackListeners s = callbackListeners m →
  apply_event e (vi_Weight <$> σ sub) = vi_Weight <$> μ' →
  callbackListeners m' = callbackListeners m →
  ∀ l known, informed l m σ known → informed l m' (upd σ sub μ') (replay l (call_listeners s e) known).
Proof.
  intros Hid Hls He Hm' l known Hk sub'. rewrite replay_call_listeners, Hls, Hm'.
  pose proof (Hk sub') as Hk'. pose proof (Hk (subnetID s)) as Hks. rewrite Hid in *.
  destruct (decide (l ∈ callbackListeners m)); [|done]. unfold upd. case_decide; [by rewrite Hks|done].
Qed.

Lemma AddStaker_refines m σ sub n pk tx w :
  mgr_rep m σ → is_u64 w →
  mgr_refines m σ (AddStaker m sub n pk tx w) (spec_set σ sub w (spec_add (σ sub) n pk tx w)).
Proof.
  intros Hm Hw. unfold AddStaker, spec_set. destruct (Z.eqb_spec w 0); [by eexists _, _, _|].
  destruct (mgr_rep_default m σ sub Hm) as (Hs & Hid & Hls). set (s := default _ _) in *.
  pose proof (vs_add_refines s (σ sub) n pk tx w Hs ltac:(destruct Hw; lia)) as Hr. unfold set_refines in Hr.
  destruct (spec_add (σ sub) n pk tx w) as [[μ' e]|e] eqn:Hspec.
  - destruct Hr as (s' & -> & Hs' & Hid' & Hls' & _). simpl. eexists _, _, _. split; [done|]. split_and!; [done| |].
    + apply mgr_rep_upd; try done; congruence.
    + apply mgr_refines_set; try done. by eapply spec_add_event.
  - rewrite Hr. simpl. eexists _, _, _. split; [done|]. split_and!; try done.
    eapply mgr_rep_ext; [apply (upd_same σ sub)|]. by apply mgr_rep_upd.
Qed.

Lemma AddWeight_refines m σ sub n w :
  mgr_rep m σ → is_u64 w →
  mgr_refines m σ (AddWeight m sub n w) (spec_set σ sub w (spec_addWeight (σ sub) n w)).
Proof.
  intros Hm Hw. unfold AddWeight, spec_set. destruct (Z.eqb_spec w 0); [by eexists _, _, _|].
  pose proof (Hm sub) as Hsub. destruct (subnetToVdrs m !! sub) as [s|] eqn:Hlook; last first.
  { rewrite Hsub. unfold spec_addWeight. rewrite lookup_empty. by eexists _, _, _. }
  destruct Hsub as (Hs & Hid & Hls).
  pose proof (vs_addWeight_refines s (σ sub) n w Hs ltac:(destruct Hw; lia)) as Hr. unfold set_refines in Hr.
  destruct (spec_addWeight (σ sub) n w) as [[μ' e]|e] eqn:Hspec.
  - destruct Hr as (s' & -> & Hs' & Hid' & Hls' & _). simpl. eexists _, _, _. split; [done|]. split_and!; [done| |].
    + apply mgr_rep_upd; try done; congruence.
    + apply mgr_refines_set; try done. by eapply spec_addWeight_event.
  - rewrite Hr. simpl. eexists _, _, _. split; [done|]. split_and!; try done.
    eapply mgr_rep_ext; [apply (upd_same σ sub)|]. by apply mgr_rep_upd.
Qed.

Lemma RemoveWeight_refines m σ sub n w :
  mgr_rep m σ → is_u64 w →
  mgr_refines m σ (RemoveWeight m sub n w) (spec_set σ sub w (spec_removeWeight (σ sub) n w)).
Proof.
  intros Hm Hw. unfold RemoveWeight, spec_set. destruct (Z.eqb_spec w 0); [by eexists _, _, _|].
  pose proof (Hm sub) as Hsub. destruct (subnetToVdrs m !! sub) as [s|] eqn:Hlook; last first.
  { rewrite Hsub. unfold spec_removeWeight. rewrite lookup_empty. by eexists _, _, _. }
  destruct Hsub as (Hs & Hid & Hls).
  pose proof (vs_removeWeight_refines s (σ sub) n w Hs ltac:(destruct Hw; lia)) as Hr. unfold set_refines in Hr.
  destruct (spec_removeWeight (σ sub) n w) as [[μ' e]|e] eqn:Hspec.
  - destruct Hr as (s' & -> & Hs' & Hid' & Hls' & _). simpl.
    destruct ((vs_len s' =? 0)%nat && (length (setCallbackListeners s') =? 0)%nat) eqn:Hempty;
      (eexists _, _, _; split; [done|]; split_and!; [done| |]).
    + apply andb_true_iff in Hempty as [Hlen%Nat.eqb_eq _]. rewrite (rep_len s' μ') in Hlen by done.
      apply map_size_empty_inv in Hlen as ->. by apply mgr_rep_delete.
    + apply mgr_refines_set; try done. by eapply spec_removeWeight_event.
    + apply mgr_rep_upd; try done; congruence.
    + apply mgr_refines_set; try done. by eapply spec_removeWeight_event.
  - rewrite Hr. simpl. eexists _, _, _. split; [done|]. split_and!; try done.
    eapply mgr_rep_ext; [apply (upd_same σ sub)|]. by apply mgr_rep_upd.
Qed.

(** ** Registration of listeners *)

Definition with_listeners s mls sls : vdrSet :=
  mkSet (subnetID s) (objects s) (vdrs s) (vdrSlice s) (weights s) (totalWeight s)
    (samplerInitialized s) (sampler s) mls sls.

Lemma rep_with_listeners s μ mls sls : vs_rep s μ → vs_rep (with_listeners s mls sls) μ.
Proof. intros Hr. split; simpl; apply Hr. Qed.

(** The events that tell a listener the validators there are. *)
Lemma replay_added l sub (es : list (NodeID * vinfo)) known sub' n :
  NoDup es.*1 →
  replay l (map (ManagerCall l sub) (map (λ '(n, i), OnValidatorAdded n (vi_PublicKey i) (vi_TxID i) (vi_Weight i)) es)) known sub' !! n =
    if decide (sub' = sub)
    then match (list_to_map es : gmap NodeID vinfo) !! n with Some i => Some (vi_Weight i) | None => known sub !! n end
    else known sub' !! n.
Proof.
  revert known. induction es as [|[x i] es IH]; intros known Hnd.
  { simpl. rewrite lookup_empty. case_decide; subst; done. }
  apply NoDup_cons in Hnd as [Hx Hnd]. cbn [map]. simpl. rewrite IH by done.
  rewrite (decide_True (P := l = l)) by done. unfold upd. destruct (decide (sub' = sub)) as [->|Hne]; [|done].
  rewrite (decide_True (P := sub = sub)) by done.
  destruct (decide (x = n)) as [->|Hxn].
  - rewrite lookup_insert_eq. rewrite not_elem_of_list_to_map_1 by done. by rewrite lookup_insert_eq.
  - by rewrite !lookup_insert_ne by done.
Qed.

Lemma replay_added_events l s μ es known sub' :
  vs_rep s μ → vs_added_events s = Some es → known (subnetID s) ⊆ vi_Weight <$> μ →
  replay l (map (ManagerCall l (subnetID s)) es) known sub' =
    if decide (sub' = subnetID s) then vi_Weight <$> μ else known sub'.
Proof.
  intros Hr Hes Hsub. destruct (rep_added_events s μ Hr) as (es' & Hes' & Hp). rewrite Hes in Hes'. injection Hes' as <-.
  apply Permutation_map_inv in Hp as (k & -> & Hk). symmetry in Hk.
  assert (NoDup k.*1) as Hnd by (rewrite Hk; apply NoDup_fst_map_to_list).
  assert ((list_to_map k : gmap NodeID vinfo) = μ) as Hmap.
  { rewrite <- (list_to_map_to_list μ). by apply list_to_map_proper. }
  apply map_eq. intros n. rewrite replay_added, Hmap by done. case_decide as Hd; [|done].
  rewrite lookup_fmap. destruct (μ !! n) as [i|] eqn:Hn; simpl; [done|].
  destruct (known (subnetID s) !! n) as [w|] eqn:Hw; [|done].
  eapply lookup_weaken in Hw; [|exact Hsub]. by rewrite lookup_fmap, Hn in Hw.
Qed.

Lemma replay_other l l' sub es known : l' ≠ l → replay l (map (ManagerCall l' sub) es) known = known.
Proof. intros Hne. induction es as [|e es IH]; [done|]. simpl. rewrite decide_False by done. apply IH. Qed.

Lemma register_all_spec l sets acc (σ : vdr_state) :
  NoDup sets.*1 → (∀ sub s, (sub, s) ∈ sets → vs_rep s (σ sub) ∧ subnetID s = sub) →
  ∃ acc' calls, register_all l sets acc = Some (acc', calls) ∧
    (∀ sub, acc' !! sub =
       match (list_to_map sets : gmap ID vdrSet) !! sub with
       | Some s => Some (with_listeners s (managerCallbackListeners s ++ [l]) (setCallbackListeners s))
       | None => acc !! sub
       end) ∧
    (∀ l' known, l' ≠ l → replay l' calls known = known) ∧
    (∀ known, (∀ sub, known sub ⊆ vi_Weight <$> σ sub) → ∀ sub,
       replay l calls known sub = if decide (sub ∈ sets.*1) then vi_Weight <$> σ sub else known sub).
Proof.
  revert acc. induction sets as [|[sub s] sets IH]; intros acc Hnd Hsets.
  { exists acc, []. split_and!; try done. }
  apply NoDup_cons in Hnd as [Hsub Hnd]. simpl in Hsub. destruct (Hsets sub s ltac:(set_solver)) as [Hs Hid].
  destruct (rep_added_events s _ Hs) as (es & Hes & _). cbn [register_all].
  unfold vs_RegisterManagerCallbackListener. rewrite Hes. simpl.
  destruct (IH (<[sub := with_listeners s (managerCallbackListeners s ++ [l]) (setCallbackListeners s)]> acc) Hnd)
    as (acc' & calls & Hrun & Hacc & Hother & Hself); [intros; apply Hsets; set_solver|].
  unfold with_listeners in Hrun at 1. rewrite Hrun. simpl. eexists _, _. split; [done|]. split_and!.
  - intros sub'. rewrite Hacc. destruct (decide (sub' = sub)) as [->|Hne].
    + rewrite not_elem_of_list_to_map_1 by done. by rewrite !lookup_insert_eq.
    + by rewrite !lookup_insert_ne by done.
  - intros l' known Hne. rewrite replay_app, replay_other by done. by apply Hother.
  - intros known Hk sub'. rewrite replay_app.
    assert (∀ sub', replay l (map (ManagerCall l (subnetID s)) es) known sub' =
      if decide (sub' = sub) then vi_Weight <$> σ sub else known sub') as Hone.
    { intros x. rewrite (replay_added_events l s (σ sub)); [by rewrite Hid|done|done|]. rewrite Hid. apply Hk. }
    rewrite Hself; last first.
    { intros x. rewrite Hone. case_decide; subst; [done|apply Hk]. }
    rewrite Hone. destruct (decide (sub' = sub)) as [->|Hne].
    + rewrite (decide_False (P := sub ∈ sets.*1)), decide_True by set_solver. done.
    + destruct (decide (sub' ∈ sets.*1)); [rewrite decide_True by set_solver|rewrite decide_False by set_solver]; done.
Qed.

Lemma Register_refines m σ l :
  mgr_rep m σ → mgr_refines m σ (RegisterCallbackListener m l) (Ok (σ, None)).
Proof.
  intros Hm. unfold RegisterCallbackListener.
  destruct (register_all_spec l (map_range (subnetToVdrs m)) (subnetToVdrs m) σ) as (sets & calls & -> & Hsets & Hother & Hself).
  { apply NoDup_map_range_keys. }
  { intros sub s Hin%elem_of_map_range. specialize (Hm sub). rewrite Hin in Hm. tauto. }
  simpl. eexists _, _, _. split; [done|]. split_and!; [done| |].
  - intros sub. simpl. rewrite Hsets, map_range_to_map. specialize (Hm sub).
    destruct (subnetToVdrs m !! sub) as [s|]; [|done]. destruct Hm as (Hs & Hid & Hls).
    split_and!; [by apply rep_with_listeners|done|]. simpl. by rewrite Hls.
  - intros l' known Hk sub. unfold informed in Hk. simpl. destruct (decide (l' = l)) as [->|Hne].
    + rewrite Hself; last first.
      { intros x. rewrite Hk. case_decide; [done|]. apply map_empty_subseteq. }
      rewrite (decide_True (P := l ∈ callbackListeners m ++ [l])) by set_solver. destruct (decide (sub ∈ _)) as [|Hin]; [reflexivity|].
      rewrite Hk. destruct (decide (l ∈ _)); [reflexivity|]. specialize (Hm sub).
      destruct (subnetToVdrs m !! sub) as [s|] eqn:Hs; [|by rewrite Hm, fmap_empty]. exfalso. apply Hin.
      apply (list_elem_of_fmap_2 fst _ (sub, s)). by apply elem_of_map_range.
    + rewrite Hother, Hk by done. destruct (decide (l' ∈ callbackListeners m)).
      * by rewrite decide_True by set_solver.
      * by rewrite decide_False by set_solver.
Qed.

Lemma RegisterSet_refines m σ sub l :
  mgr_rep m σ → mgr_refines m σ (RegisterSetCallbackListener m sub l) (Ok (σ, None)).
Proof.
  intros Hm. unfold RegisterSetCallbackListener, vs_RegisterCallbackListener.
  destruct (mgr_rep_default m σ sub Hm) as (Hs & Hid & Hls). set (s := default _ _) in *.
  destruct (rep_added_events s _ Hs) as (es & -> & _). simpl. eexists _, _, _. split; [done|]. split_and!; [done| |].
  - eapply mgr_rep_ext; [apply (upd_same σ sub)|].
    apply (mgr_rep_upd m σ sub (with_listeners s (managerCallbackListeners s) (setCallbackListeners s ++ [l]))); try done.
    by apply rep_with_listeners.
  - intros l' known Hk. assert (replay l' (map (SetCall l) es) known = known) as ->; [|done].
    clear. induction es; done.
Qed.

(** Sampling from the validators of a subnet. *)
Lemma mgr_Sample_spec m σ sub size src :
  mgr_rep m σ → 0 ≤ size →
  ∃ m' src' r, mgr_Sample patience m sub size src = Some (m', src', r) ∧ mgr_rep m' σ ∧
    callbackListeners m' = callbackListeners m ∧
    if size =? 0 then r = Ok [] else
    if bool_decide (subnetToVdrs m !! sub = None) then r = Err ErrMissingValidators ∧ σ sub = ∅
    else sample_result (σ sub) size r.
Proof.
  intros Hm Hsize. unfold mgr_Sample. destruct (Z.eqb_spec size 0); [by eexists _, _, _|].
  pose proof (Hm sub) as Hsub. destruct (subnetToVdrs m !! sub) as [s|] eqn:Hs.
  - rewrite bool_decide_false by done. destruct Hsub as (Hr & Hid & Hls).
    destruct (vs_sample_spec s (σ sub) size src Hr Hsize) as (s' & src' & r & -> & Hr' & (Hid' & Hls' & _) & Hres). simpl.
    eexists _, _, _. split; [done|]. split_and!; try done.
    eapply mgr_rep_ext; [apply (upd_same σ sub)|]. apply mgr_rep_upd; try done; congruence.
  - rewrite bool_decide_true by done. by eexists _, _, _.
Qed.

Lemma Sample_refines m σ sub size src :
  mgr_rep m σ → 0 ≤ size → mgr_refines m σ (run_op m (OpSample sub size src)) (Ok (σ, None)).
Proof.
  intros Hm Hsize. destruct (mgr_Sample_spec m σ sub size src Hm Hsize) as (m' & src' & r & Hrun & Hm' & Hl & _).
  simpl. rewrite Hrun. simpl. eexists _, _, _. split; [done|]. split_and!; [done|done|].
  intros l known Hk sub'. simpl. rewrite Hl. apply Hk.
Qed.

Lemma run_op_refines m σ op : mgr_rep m σ → op_ok op → mgr_refines m σ (run_op m op) (spec_op σ op).
Proof.
  intros Hm Hop. destruct op; [..|by apply Sample_refines]; simpl in *;
    auto using AddStaker_refines, AddWeight_refines, RemoveWeight_refines, Register_refines, RegisterSet_refines.
Qed.

(** ** Sequences of operations *)

Fixpoint run_ops m (ops : list vdr_op) : option (manager * list callback * list (option vdr_error)) :=
  match ops with
  | [] => Some (m, [], [])
  | op :: ops =>
      '(m, calls, err) ← run_op m op;
      '(m, calls', errs) ← run_ops m ops;
      Some (m, calls ++ calls', err :: errs)
  end.

Fixpoint spec_ops (σ : vdr_state) (ops : list vdr_op) : vdr_state * list (option vdr_error) :=
  match ops with
  | [] => (σ, [])
  | op :: ops =>
      match spec_op σ op with
      | Ok (σ, _) => let '(σ, errs) := spec_ops σ ops in (σ, None :: errs)
      | Err e => let '(σ, errs) := spec_ops σ ops in (σ, Some e :: errs)
      end
  end.

Lemma run_ops_spec m σ ops :
  mgr_rep m σ → Forall op_ok ops →
  ∃ m' calls, run_ops m ops = Some (m', calls, (spec_ops σ ops).2) ∧ mgr_rep m' (spec_ops σ ops).1 ∧
    ∀ l known, informed l m σ known → informed l m' (spec_ops σ ops).1 (replay l calls known).
Proof.
  revert m σ. induction ops as [|op ops IH]; intros m σ Hm Hops; [by eexists _, _|].
  apply Forall_cons in Hops as [Hop Hops]. destruct (run_op_refines m σ op Hm Hop) as (m' & calls & err & Hrun & Hres).
  cbn [run_ops spec_ops]. rewrite Hrun. simpl. destruct (spec_op σ op) as [[σ' e]|e].
  - destruct Hres as (-> & Hm' & Hk). destruct (IH m' σ' Hm' Hops) as (m'' & calls' & -> & Hm'' & Hk').
    destruct (spec_ops σ' ops) as [σ'' errs]. simpl in *. eexists _, _. split_and!; [done|done|].
    intros l known Hi. rewrite replay_app. auto.
  - destruct Hres as (-> & -> & Hm' & Hl). destruct (IH m' σ Hm' Hops) as (m'' & calls' & -> & Hm'' & Hk').
    destruct (spec_ops σ ops) as [σ'' errs]. simpl in *. eexists _, _. split_and!; [done|done|].
    intros l known Hi. apply Hk'. intros sub. rewrite Hl. apply Hi.
Qed.

(** ** The subnets that are kept *)

(** A subnet is kept while it has validators or listeners; [R] are the subnets with
    listeners. *)
Definition tracked m (R : ID → Prop) : Prop :=
  ∀ sub, match subnetToVdrs m !! sub with
         | Some s => (setCallbackListeners s ≠ [] ↔ R sub) ∧ (vs_len s = 0%nat → R sub)
         | None => ¬ R sub
         end.

Lemma tracked_set m R sub s (R' : ID → Prop) :
  tracked m R → (∀ sub', sub' ≠ sub → R sub' ↔ R' sub') → (setCallbackListeners s ≠ [] ↔ R' sub) → (vs_len s = 0%nat → R' sub) → tracked (with_set m sub s) R'.
Proof.
  intros Hm HR Hl Hlen sub'. simpl. destruct (decide (sub' = sub)) as [->|Hne]; [by rewrite lookup_insert_eq|]. rewrite lookup_insert_ne by done. specialize (Hm sub'). pose proof (HR sub' Hne). destruct (subnetToVdrs m !! sub'); tauto.
Qed.

Lemma vs_add_tracked s n pk tx w s' calls err : vs_add s n pk tx w = Some (s', calls, err) → setCallbackListeners s' = setCallbackListeners s ∧ (vs_len s' = 0%nat → s' = s ∧ is_Some (vdrs s !! n)).
Proof.
  unfold vs_add. destruct (vdrs s !! n) as [l|]; [intros [= <- <- <-]; split; [done|]; intros _; split; [done|by exists l]|]. intros [= <- <- <-]. split; [done|]. unfold vs_len. simpl. rewrite length_app. simpl. lia.
Qed.

Lemma vs_addWeight_tracked s n w s' calls err : vs_addWeight s n w = Some (s', calls, err) → setCallbackListeners s' = setCallbackListeners s ∧ vs_len s' = vs_len s.
Proof.
  unfold vs_addWeight. destruct (vdrs s !! n); [|by intros [= <- <- <-]]. destruct (objects s !! _); [|done]. simpl. destruct (safe_Add _ _ _); [|by intros [= <- <- <-]]. destruct (store _ _ _); [|done]. simpl. by intros [= <- <- <-].
Qed.

Lemma vs_removeWeight_tracked s n w s' calls err : vs_removeWeight s n w = Some (s', calls, err) → setCallbackListeners s' = setCallbackListeners s ∧ (err ≠ None → s' = s).
Proof.
  unfold vs_removeWeight. destruct (vdrs s !! n); [|by intros [= <- <- <-]]. destruct (objects s !! _) as [v|]; [|done]. simpl. destruct (safe_Sub _ _ _) as [nw|]; [|by intros [= <- <- <-]]. destruct (nw =? 0).
  - destruct (vdrSlice s !! _) as [ls|]; [|done]. simpl. destruct (objects s !! ls); [|done]. simpl. destruct (store (vdrSlice s) _ _); [|done]. simpl. destruct (store (weights s) _ _); [|done]. simpl. by intros [= <- <- <-].
  - destruct (store _ _ _); [|done]. simpl. by intros [= <- <- <-].
Qed.

Lemma vs_sample_tracked fuel s size src s' src' r : vs_sample fuel s size src = Some (s', src', r) → setCallbackListeners s' = setCallbackListeners s ∧ vs_len s' = vs_len s.
Proof.
  assert (∀ s, vs_draw fuel s size src = Some (s', src', r) → setCallbackListeners s' = setCallbackListeners s ∧ vs_len s' = vs_len s) as Hd.
  { intros s0. unfold vs_draw. destruct (ww_Sample _ _ _ _) as [[[w src1] [ix|]]|]; simpl; [|by intros [= <- <- <-]|done]. destruct (mapM _ ix); simpl; [|done]. by intros [= <- <- <-]. }
  unfold vs_sample. destruct (samplerInitialized s); [apply Hd|]. destruct (ww_Initialize _ _) as [[w [e|]]|]; simpl; [by intros [= <- <- <-]| |done]. intros Hdraw%Hd. done.
Qed.

Lemma register_all_tracked l sets acc acc' calls :
  register_all l sets acc = Some (acc', calls) → (∀ sub s, (sub, s) ∈ sets → ∃ s0, acc !! sub = Some s0 ∧ setCallbackListeners s0 = setCallbackListeners s ∧ vs_len s0 = vs_len s) →
  ∀ sub, match acc' !! sub, acc !! sub with
         | Some s', Some s => setCallbackListeners s' = setCallbackListeners s ∧ vs_len s' = vs_len s
         | None, None => True
         | _, _ => False
         end.
Proof.
  revert acc calls. induction sets as [|[x s] sets IH]; intros acc calls; cbn [register_all]; [intros [= <- <-] _ sub; by destruct (acc !! sub)|].
  unfold vs_RegisterManagerCallbackListener. destruct (vs_added_events s) as [es|]; simpl; [|done]. set (s1 := mkSet _ _ _ _ _ _ _ _ _ _). destruct (register_all l sets (<[x := s1]> acc)) as [[acc1 calls1]|] eqn:E; [|done]. simpl. intros [= <- <-] Hin sub.
  destruct (Hin x s ltac:(left)) as (s0 & Hs0 & Hl0 & Hn0). assert (∀ y t, (y, t) ∈ sets → ∃ s0, <[x := s1]> acc !! y = Some s0 ∧ setCallbackListeners s0 = setCallbackListeners t ∧ vs_len s0 = vs_len t) as Hin'.
  { intros y t Hy. destruct (Hin y t ltac:(by right)) as (t0 & Ht0 & Hlt & Hnt). destruct (decide (y = x)) as [->|Hne]; [|exists t0; by rewrite lookup_insert_ne]. exists s1. rewrite lookup_insert_eq. split; [done|]. assert (t0 = s0) as -> by congruence. unfold s1, vs_len in *. simpl. split; congruence. }
  specialize (IH _ _ E Hin' sub). destruct (decide (sub = x)) as [->|Hne]; [|by rewrite lookup_insert_ne in IH]. rewrite lookup_insert_eq in IH. rewrite Hs0. destruct (acc1 !! x); [|done]. destruct IH as [-> ->]. unfold s1, vs_len in *. simpl. split; congruence.
Qed.

(** The subnets that got listeners. *)
Definition registers (op : vdr_op) (sub : ID) : Prop := match op with OpRegisterSet sub' _ => sub' = sub | _ => False end.

Lemma run_op_tracked m R op m' calls err : run_op m op = Some (m', calls, err) → tracked m R → tracked m' (λ sub, R sub ∨ registers op sub).
Proof.
  intros Hrun Hm. assert (∀ sub s, subnetToVdrs m !! sub = Some s → (setCallbackListeners s ≠ [] ↔ R sub ∨ False) ∧ (vs_len s = 0%nat → R sub ∨ False)) as Hs by (intros sub s Es; specialize (Hm sub); rewrite Es in Hm; tauto).
  assert (tracked m (λ sub, R sub ∨ False)) as Hsame. { intros sub. specialize (Hm sub). destruct (subnetToVdrs m !! sub); tauto. }
  destruct op as [sub n pk tx w|sub n w|sub n w|l|sub l|sub size src]; simpl in Hrun |- *.
  - unfold AddStaker in Hrun. destruct (w =? 0); [by injection Hrun as <- <- <-|]. destruct (vs_add _ n pk tx w) as [[[s' c] e]|] eqn:E; [|done]. simpl in Hrun. injection Hrun as <- <- <-. apply vs_add_tracked in E as [Hl Hlen].
    apply (tracked_set m R); [done|tauto| |].
    + rewrite Hl. specialize (Hm sub). destruct (subnetToVdrs m !! sub) as [s|]; simpl; tauto.
    + intros Hz. destruct (Hlen Hz) as [-> Hin]. destruct (subnetToVdrs m !! sub) as [s|] eqn:Es; simpl in *; [by apply (Hs sub s Es)|]. rewrite lookup_empty in Hin. by destruct Hin.
  - unfold AddWeight in Hrun. destruct (w =? 0); [by injection Hrun as <- <- <-|]. destruct (subnetToVdrs m !! sub) as [s|] eqn:Es; [|by injection Hrun as <- <- <-]. destruct (vs_addWeight s n w) as [[[s' c] e]|] eqn:E; [|done]. simpl in Hrun. injection Hrun as <- <- <-.
    apply vs_addWeight_tracked in E as [Hl Hlen]. destruct (Hs sub s Es). apply (tracked_set m R); [done|tauto|by rewrite Hl|by rewrite Hlen].
  - unfold RemoveWeight in Hrun. destruct (w =? 0); [by injection Hrun as <- <- <-|]. destruct (subnetToVdrs m !! sub) as [s|] eqn:Es; [|by injection Hrun as <- <- <-]. destruct (vs_removeWeight s n w) as [[[s' c] e]|] eqn:E; [|done]. simpl in Hrun.
    apply vs_removeWeight_tracked in E as [Hl Herr]. destruct (Hs sub s Es) as [Hlis Hlen]. destruct e as [e|]; [injection Hrun as <- <- <-; rewrite Herr by done; apply (tracked_set m R); [done|tauto|done|done]|].
    destruct ((vs_len s' =? 0)%nat && (length (setCallbackListeners s') =? 0)%nat) eqn:Eb; injection Hrun as <- <- <-.
    + apply andb_true_iff in Eb as [_ Hz%Nat.eqb_eq]. intros sub'. simpl. destruct (decide (sub' = sub)) as [->|Hne]; [|rewrite lookup_delete_ne by done; apply Hsame]. rewrite lookup_delete_eq. apply nil_length_inv in Hz. rewrite Hl in Hz. intros HR. by apply Hlis in HR.
    + apply (tracked_set m R); [done|tauto|by rewrite Hl|]. intros Hz. apply Hlis. rewrite <- Hl. intros Hnil. by rewrite Hz, Hnil in Eb.
  - unfold RegisterCallbackListener in Hrun. destruct (register_all l _ _) as [[sets c]|] eqn:E; [|done]. simpl in Hrun. injection Hrun as <- <- <-. intros sub. simpl. pose proof (register_all_tracked _ _ _ _ _ E) as Ht. specialize (Ht ltac:(intros x t Hx%elem_of_map_range; by exists t) sub).
    specialize (Hsame sub). destruct (sets !! sub), (subnetToVdrs m !! sub); [|done..]. destruct Ht as [-> ->]. done.
  - unfold RegisterSetCallbackListener, vs_RegisterCallbackListener in Hrun. destruct (vs_added_events _); [|done]. simpl in Hrun. injection Hrun as <- <- <-. apply (tracked_set m R); [done|intros sub' Hne; split; [tauto|by intros [?|Heq]]|simpl|by right].
    split; [by right|]. intros _ Hnil. by apply app_nil in Hnil as [_ ?].
  - destruct (mgr_Sample _ m sub size src) as [[[m1 src1] r]|] eqn:E; [|done]. simpl in Hrun. assert (m1 = m') as -> by (destruct r; by injection Hrun). clear Hrun. unfold mgr_Sample in E. destruct (size =? 0); [by injection E as <- <- <-|].
    destruct (subnetToVdrs m !! sub) as [s|] eqn:Es; [|by injection E as <- <- <-]. destruct (vs_sample _ s size src) as [[[s' src'] r']|] eqn:E2; [|done]. simpl in E. injection E as <- <- <-. apply vs_sample_tracked in E2 as [Hl Hlen]. destruct (Hs sub s Es). apply (tracked_set m R); [done|tauto|by rewrite Hl|by rewrite Hlen].
Qed.

Lemma run_ops_tracked m R ops m' calls errs : run_ops m ops = Some (m', calls, errs) → tracked m R → tracked m' (λ sub, R sub ∨ ∃ op, op ∈ ops ∧ registers op sub).
Proof.
  revert m R calls errs. induction ops as [|op ops IH]; intros m R calls errs; cbn [run_ops].
  { intros [= <- <- <-] Hm sub. specialize (Hm sub). assert ((∃ op, op ∈ [] ∧ registers op sub) ↔ False) as Hf by (split; [by intros (op & ?%elem_of_nil & _)|done]). destruct (subnetToVdrs m !! sub); tauto. }
  destruct (run_op m op) as [[[m1 c1] e1]|] eqn:E1; [|done]. simpl. destruct (run_ops m1 ops) as [[[m2 c2] e2]|] eqn:E2; [|done]. simpl. intros [= <- <- <-] Hm. pose proof (IH _ _ _ _ E2 (run_op_tracked _ _ _ _ _ _ E1 Hm)) as Ht. intros sub. specialize (Ht sub).
  assert ((R sub ∨ registers op sub) ∨ (∃ op0, op0 ∈ ops ∧ registers op0 sub) ↔ R sub ∨ ∃ op0, op0 ∈ op :: ops ∧ registers op0 sub) as Hiff by (setoid_rewrite elem_of_cons; naive_solver). destruct (subnetToVdrs m2 !! sub); rewrite <- Hiff; done.
Qed.

Lemma tracked_new : tracked NewManager (λ _, False).
Proof. intros sub. simpl. rewrite lookup_empty. tauto. Qed.

(** [NumSubnets] counts the subnets with validators or with listeners of their own. *)
Lemma NumSubnets_spec m σ R : mgr_rep m σ → tracked m R → ∃ X : gset ID, NumSubnets m = base.size X ∧ ∀ sub, sub ∈ X ↔ σ sub ≠ ∅ ∨ R sub.
Proof.
  intros Hm Ht. exists (dom (subnetToVdrs m)). split; [by rewrite size_dom|]. intros sub. rewrite elem_of_dom. specialize (Hm sub). specialize (Ht sub). destruct (subnetToVdrs m !! sub) as [s|].
  - destruct Hm as (Hr & _ & _). split; [|by eexists]. intros _. destruct (decide (vs_len s = 0%nat)) as [Hz|Hnz]; [right; by apply Ht|left]. intros Hempty. apply Hnz. rewrite (rep_len s (σ sub)) by done. by rewrite Hempty.
  - split; [by intros [? ?]|]. rewrite Hm. tauto.
Qed.

(** The answers of the manager about a subnet. *)
Definition answers_ok m (σ : vdr_state) : Prop :=
  ∀ sub, let μ := σ sub in
    (∀ n, info <$> GetValidator m sub n = μ !! n) ∧
    (∀ n, GetWeight m sub n = default 0 (vi_Weight <$> μ !! n)) ∧
    NumValidators m sub = base.size μ ∧
    TotalWeight m sub = (if total μ <=? MaxUint64 then Ok (total μ) else Err errTotalWeightNotUint64) ∧
    GetMap m sub = Some (map_imap (λ n i, Some (mkOutput n (vi_PublicKey i) (vi_Weight i))) μ) ∧
    (∃ l, GetValidatorIDs m sub = Some l ∧ l ≡ₚ (map_to_list μ).*1) ∧
    (∀ subset, let sum := lsum (map (λ n, default 0 (vi_Weight <$> μ !! n)) subset) in
       SubsetWeight m sub subset = if sum <=? MaxUint64 then Ok sum else Err ErrOverflow).

Lemma mgr_rep_answers m σ : mgr_rep m σ → answers_ok m σ.
Proof.
  intros Hm sub μ. specialize (Hm sub). unfold GetValidator, GetWeight, NumValidators, TotalWeight, GetMap, GetValidatorIDs, SubsetWeight.
  fold μ in Hm. destruct (subnetToVdrs m !! sub) as [s|].
  - destruct Hm as (Hr & _ & _). split_and!.
    + intros n. symmetry. by apply rep_lookup.
    + intros n. by apply rep_getWeight.
    + by apply rep_len.
    + by apply rep_TotalWeight.
    + by apply rep_Map.
    + by apply rep_GetValidatorIDs.
    + intros subset. by rewrite (rep_subsetWeight s μ).
  - rewrite Hm. split_and!; try done.
    + exists []. by rewrite map_to_list_empty.
    + intros subset. assert (lsum (map (λ n, default 0 (vi_Weight <$> (∅ : gmap NodeID vinfo) !! n)) subset) = 0) as ->; [|done].
      induction subset as [|n subset IH]; [done|]. unfold lsum in *. simpl in *. by rewrite IH.
Qed.

(** C12: the validator manager refines a map from nodes to weights per subnet: no
    sequence of operations panics, every operation returns the error of the
    specification (no weight, a validator that exists or is missing, and a weight that
    would overflow or become negative) and then changes nothing, and every query answers
    from the map, although sets are created and dropped, slices are reordered on removal
    and samplers are cached; [NumSubnets] counts the subnets that have validators or on
    which a listener was registered. *)
Theorem validators_refine (ops : list vdr_op) :
  Forall op_ok ops →
  ∃ m calls, run_ops NewManager ops = Some (m, calls, (spec_ops (λ _, ∅) ops).2) ∧
    answers_ok m (spec_ops (λ _, ∅) ops).1 ∧
    ∃ X : gset ID, NumSubnets m = base.size X ∧ ∀ sub, sub ∈ X ↔ (spec_ops (λ _, ∅) ops).1 sub ≠ ∅ ∨ ∃ op, op ∈ ops ∧ registers op sub.
Proof.
  intros Hops. destruct (run_ops_spec NewManager (λ _, ∅) ops mgr_rep_new Hops) as (m & calls & Hrun & Hm & _).
  exists m, calls. split; [done|]. split; [by apply mgr_rep_answers|].
  destruct (NumSubnets_spec m _ _ Hm (run_ops_tracked NewManager (λ _, False) ops m calls _ Hrun tracked_new)) as (X & HX & Hin). exists X. split; [done|]. intros sub. rewrite Hin. tauto.
Qed.

(** A registered listener is told everything: the calls it received since
    the node started determine the weight of every validator of every subnet,
    also when it registered late or more than once. *)
Theorem listeners_informed (ops : list vdr_op) m calls errs l sub :
  Forall op_ok ops → run_ops NewManager ops = Some (m, calls, errs) → l ∈ callbackListeners m →
  replay l calls (λ _, ∅) sub = vi_Weight <$> (spec_ops (λ _, ∅) ops).1 sub.
Proof.
  intros Hops Hrun Hl. destruct (run_ops_spec NewManager (λ _, ∅) ops mgr_rep_new Hops) as (m' & calls' & Hrun' & _ & Hk).
  rewrite Hrun in Hrun'. injection Hrun' as <- <- _. rewrite (Hk l (λ _, ∅)); [by rewrite decide_True|].
  intros sub'. by case_decide.
Qed.

(** After any sequence of operations, a sample of a subnet has the requested
    number of validators, none of them more often than its current weight; it
    fails with an error that says whether the subnet is unknown, its total
    weight exceeds 64 bits or is smaller than the sample. *)
Theorem Sample_correct (ops : list vdr_op) sub size src :
  Forall op_ok ops → 0 ≤ size →
  let μ := (spec_ops (λ _, ∅) ops).1 sub in
  ∃ m calls errs m' src' r, run_ops NewManager ops = Some (m, calls, errs) ∧
    mgr_Sample patience m sub size src = Some (m', src', r) ∧
    if size =? 0 then r = Ok [] else
    if bool_decide (subnetToVdrs m !! sub = None) then r = Err ErrMissingValidators ∧ μ = ∅ else
    match r with
    | Ok l => total μ ≤ MaxUint64 ∧ size ≤ total μ ∧ Z.of_nat (length l) = size ∧
        ∀ n, Z.of_nat (length (filter (n =.) l)) ≤ default 0 (vi_Weight <$> μ !! n)
    | Err e => (MaxUint64 < total μ ∧ e = errMath ErrOverflow) ∨
        (total μ ≤ MaxUint64 ∧ total μ < size ∧ e = errInsufficientWeight)
    end.
Proof.
  intros Hops Hsize μ. destruct (run_ops_spec NewManager (λ _, ∅) ops mgr_rep_new Hops) as (m & calls & Hrun & Hm & _).
  destruct (mgr_Sample_spec m _ sub size src Hm Hsize) as (m' & src' & r & Hs & _ & _ & Hres).
  exists m, calls, (spec_ops (λ _, ∅) ops).2, m', src', r. split_and!; [done|done|exact Hres].
Qed.
End Listeners.
End SampleProofs.
End Validators.

(** ** A concrete run

    Nodes are numbers and keys are absent; draws come from a counter. *)
#[local] Instance demo_source : Source Z := {| Uint64 s := (s mod 2 ^ 62, s + 7919) |}.

#[local] Instance demo_laws : SourceLaws Z 1.
Proof.
  split.
  - intros s. simpl. pose proof (Z.mod_pos_bound s (2 ^ 62)). unfold is_u64, MaxUint64. lia.
  - intros s. simpl. constructor. apply Z.mod_pos_bound. lia.
Qed.

#[local] Instance demo_nodes : MapRange nat := canonical_range nat.
#[local] Instance demo_ids : MapRange ID := canonical_range ID.

Definition demo_ops : list (vdr_op (NodeID := nat) (PublicKey := unit) (Listener := nat) (Src := Z)) :=
  [ OpAddStaker Empty 1%nat None Empty 5; OpAddStaker Empty 2%nat None Empty 3; OpRegister 7%nat;
    OpAddStaker Empty 3%nat None Empty 1; OpSample Empty 2 11; OpRemoveWeight Empty 1%nat 5;
    OpAddWeight Empty 2%nat (2 ^ 64 - 1); OpRemoveWeight Empty 3%nat 2; OpAddWeight Empty 3%nat 4 ].

Lemma demo_ops_ok : Forall op_ok demo_ops.
Proof. repeat constructor; vm_compute; congruence. Qed.

Lemma validators_refine_witness :
  ∃ m calls, run_ops (patience := 1) NewManager demo_ops =
    Some (m, calls, [None; None; None; None; None; None; Some (errMath ErrOverflow); Some (errMath ErrUnderflow); None]) ∧
    TotalWeight m Empty = Ok 8.
Proof.
  destruct (validators_refine (patience := 1) demo_ops demo_ops_ok) as (m & calls & Hrun & Hq).
  exists m, calls. split; [exact Hrun|]. destruct Hq as [Hq _]. destruct (Hq Empty) as (_ & _ & _ & Ht & _). rewrite Ht. by vm_compute.
Defined.

Lemma listeners_informed_witness :
  ∃ m calls errs, run_ops (patience := 1) NewManager demo_ops = Some (m, calls, errs) ∧
    replay 7%nat calls (λ _, ∅) Empty = {[ 2%nat := 3; 3%nat := 5 ]}.
Proof.
  destruct (run_ops (patience := 1) NewManager demo_ops) as [[[m calls] errs]|] eqn:Hrun; [|by vm_compute in Hrun].
  exists m, calls, errs. split; [done|].
  rewrite (listeners_informed (patience := 1) demo_ops m calls errs 7%nat Empty demo_ops_ok Hrun); [by vm_compute|].
  vm_compute in Hrun. injection Hrun as <- <- <-. vm_compute. constructor.
Defined.

Lemma Sample_correct_witness :
  ∃ m calls errs m' src' l, run_ops (patience := 1) NewManager demo_ops = Some (m, calls, errs) ∧
    mgr_Sample 1 m Empty 4 100 = Some (m', src', Ok l) ∧ length l = 4%nat.
Proof.
  destruct (Sample_correct (patience := 1) demo_ops Empty 4 100 demo_ops_ok) as (m & calls & errs & m' & src' & r & Hrun & Hs & Hr);
    [done|]. exists m, calls, errs, m', src'. destruct r as [l|e].
  - exists l. split_and!; [done|done|]. simpl in Hr. case_bool_decide; [by destruct Hr|]. lia.
  - exfalso. vm_compute in Hrun. injection Hrun as <- <- <-. by vm_compute in Hs.
Defined.
