(* ===== verification/Bootstrapper.v ===== *)
(** * Bootstrapping polls (package [snow/consensus/snowman/bootstrapper])

    [requests.go], [minority.go] and [majority.go]: a poll asks every peer once,
    with a bounded number of outstanding requests, and when all have answered
    (or failed to) computes its result: every reported block for the minority
    poll, the blocks reported by more than half of the weight for the majority
    poll. *)
From S2P Require Import Prelude SafeMath Ids.

Section Bootstrapper.
Context {NodeID : Type} `{Countable NodeID}.
Context `{!MapRange NodeID, !MapRange ID}.

(** ** [requests] *)

Record requests : Type := mkRequests {
  maxOutstanding : Z;
  pendingSend : gset NodeID;
  outstanding : gset NodeID;
}.
Implicit Types r : requests.

(** The loop of [GetPeers]: [n] calls of [Pop]. *)
Fixpoint pop_peers (n : nat) (pending nodeIDs : gset NodeID) : gset NodeID * gset NodeID :=
  match n with
  | O => (pending, nodeIDs)
  | S n =>
      match set_range pending with
      | [] => (pending, nodeIDs)
      | nodeID :: _ => pop_peers n (pending ∖ {[nodeID]}) ({[nodeID]} ∪ nodeIDs)
      end
  end.

(** [GetPeers] *)
Definition GetPeers r : requests * gset NodeID :=
  let numPending := Z.of_nat (base.size (outstanding r)) in
  if maxOutstanding r <=? numPending then (r, ∅) else
  let numToSend := (maxOutstanding r - numPending) `min` Z.of_nat (base.size (pendingSend r)) in
  let '(pending, nodeIDs) := pop_peers (Z.to_nat numToSend) (pendingSend r) ∅ in
  (mkRequests (maxOutstanding r) pending (outstanding r ∪ nodeIDs), nodeIDs).

(** [recordResponse] *)
Definition recordResponse r (nodeID : NodeID) : requests * bool :=
  (mkRequests (maxOutstanding r) (pendingSend r) (outstanding r ∖ {[nodeID]}),
   bool_decide (nodeID ∈ outstanding r)).

(** [finished] *)
Definition req_finished r : bool :=
  bool_decide (pendingSend r = ∅) && bool_decide (outstanding r = ∅).

(** ** [Minority] *)

Record Minority : Type := mkMinority {
  mi_requests : requests;
  receivedSet : gset ID;
  mi_received : list ID;
}.

Definition NewMinority (frontierNodes : gset NodeID) (maxOut : Z) : Minority :=
  mkMinority (mkRequests maxOut frontierNodes ∅) ∅ [].

Definition mi_GetPeers (m : Minority) : Minority * gset NodeID :=
  let '(r, peers) := GetPeers (mi_requests m) in (mkMinority r (receivedSet m) (mi_received m), peers).

(** [Minority.RecordOpinion], which never fails. *)
Definition mi_RecordOpinion (m : Minority) (nodeID : NodeID) (blkIDs : gset ID) : Minority :=
  let '(r, wasOutstanding) := recordResponse (mi_requests m) nodeID in
  if negb wasOutstanding then mkMinority r (receivedSet m) (mi_received m) else
  let received := receivedSet m ∪ blkIDs in
  if negb (req_finished r) then mkMinority r received (mi_received m)
  else mkMinority r received (set_range received).

Definition mi_Result (m : Minority) : list ID * bool := (mi_received m, req_finished (mi_requests m)).

(** ** [Majority] *)

Record Majority : Type := mkMajority {
  ma_requests : requests;
  nodeWeights : gmap NodeID Z;
  ma_received : gmap ID Z;
  accepted : list ID;
}.

Definition NewMajority (weights : gmap NodeID Z) (maxOut : Z) : Majority :=
  mkMajority (mkRequests maxOut (dom weights) ∅) weights ∅ [].

Definition ma_GetPeers (m : Majority) : Majority * gset NodeID :=
  let '(r, peers) := GetPeers (ma_requests m) in
  (mkMajority r (nodeWeights m) (ma_received m) (accepted m), peers).

(** The loop that adds the weight of a peer to the blocks it reported; on an
    overflow the blocks visited before keep their new weight. *)
Fixpoint add_weight (weight : Z) (blkIDs : list ID) (received : gmap ID Z)
    : gmap ID Z * option math_error :=
  match blkIDs with
  | [] => (received, None)
  | blkID :: blkIDs =>
      match safe_Add 64 (default 0 (received !! blkID)) weight with
      | Err e => (received, Some e)
      | Ok newWeight => add_weight weight blkIDs (<[blkID := newWeight]> received)
      end
  end.

(** The loop that adds up the weights of all peers. *)
Fixpoint total_weight (weights : list (NodeID * Z)) (totalWeight : Z) : result Z math_error :=
  match weights with
  | [] => Ok totalWeight
  | (_, weight) :: weights =>
      match safe_Add 64 totalWeight weight with
      | Err e => Err e
      | Ok totalWeight => total_weight weights totalWeight
      end
  end.

(** [Majority.RecordOpinion]: the new state and the error it returns. *)
Definition ma_RecordOpinion (m : Majority) (nodeID : NodeID) (blkIDs : gset ID)
    : Majority * option math_error :=
  let '(r, wasOutstanding) := recordResponse (ma_requests m) nodeID in
  if negb wasOutstanding then (mkMajority r (nodeWeights m) (ma_received m) (accepted m), None) else
  let weight := default 0 (nodeWeights m !! nodeID) in
  let '(received, err) := add_weight weight (set_range blkIDs) (ma_received m) in
  match err with
  | Some e => (mkMajority r (nodeWeights m) received (accepted m), Some e)
  | None =>
      if negb (req_finished r) then (mkMajority r (nodeWeights m) received (accepted m), None) else
      match total_weight (map_range (nodeWeights m)) 0 with
      | Err e => (mkMajority r (nodeWeights m) received (accepted m), Some e)
      | Ok totalWeight =>
          let requiredWeight := totalWeight `div` 2 + 1 in
          let more := (filter (λ '(_, w), requiredWeight ≤ w) (map_range received)).*1 in
          (mkMajority r (nodeWeights m) received (accepted m ++ more), None)
      end
  end.

Definition ma_Result (m : Majority) : list ID * bool := (accepted m, req_finished (ma_requests m)).

(** ** Requests: every peer is asked once *)

Lemma pop_peers_spec n (pending nodeIDs : gset NodeID) :
  let '(pending', nodeIDs') := pop_peers n pending nodeIDs in
  pending' ⊆ pending ∧ nodeIDs ⊆ nodeIDs' ∧ nodeIDs' ∖ nodeIDs ⊆ pending ∧
  pending' ∪ nodeIDs' = pending ∪ nodeIDs ∧ (pending ## nodeIDs → pending' ## nodeIDs') ∧
  (base.size nodeIDs' ≤ base.size nodeIDs + n)%nat ∧
  ((base.size pending ≤ n)%nat → pending' = ∅).
Proof.
  revert pending nodeIDs. induction n as [|n IH]; intros pending nodeIDs; simpl.
  { split_and!; try set_solver; [lia|]. intros Hn. apply leibniz_equiv, size_empty_inv. lia. }
  destruct (set_range pending) as [|x r] eqn:Hr.
  { assert (pending = ∅) as ->.
    { apply set_eq. intros y. split; [|set_solver]. intros Hy%elem_of_set_range. rewrite Hr in Hy. set_solver. }
    split_and!; try set_solver; lia. }
  assert (x ∈ pending) as Hx by (apply elem_of_set_range; rewrite Hr; set_solver).
  specialize (IH (pending ∖ {[x]}) ({[x]} ∪ nodeIDs)).
  destruct (pop_peers n (pending ∖ {[x]}) ({[x]} ∪ nodeIDs)) as [pending' nodeIDs'].
  destruct IH as (H1 & H2 & H3 & H4 & H5 & H6 & H7). split_and!.
  - set_solver.
  - set_solver.
  - intros y Hy. destruct (decide (y = x)); set_solver.
  - rewrite H4. apply set_eq. intros y. destruct (decide (y = x)); set_solver.
  - intros Hd. apply H5. set_solver.
  - etrans; [done|]. pose proof (size_union_alt {[x]} nodeIDs).
    assert (base.size ({[x]} ∪ nodeIDs) ≤ 1 + base.size nodeIDs)%nat; [|lia].
    rewrite size_union_alt, size_singleton. pose proof (subseteq_size (nodeIDs ∖ {[x]}) nodeIDs ltac:(set_solver)). lia.
  - intros Hs. apply H7. rewrite size_difference by set_solver. rewrite size_singleton. lia.
Qed.

(** ** The majority poll *)

Section MajorityPoll.
Context (weights : gmap NodeID Z) (maxOut : Z).
Context (Hweights : map_Forall (λ _ w, 0 ≤ w) weights) (Htotal : msum weights ≤ MaxUint64).

Definition node_weight (n : NodeID) : Z := default 0 (weights !! n).

Inductive poll_event : Type :=
| AskPeers
| Opinion (nodeID : NodeID) (blkIDs : gset ID).

(** A poll and the answers it counted, in order. *)
Record poll_trace : Type := mkTrace {
  pt_poll : Majority;
  pt_answers : list (NodeID * gset ID);
  pt_error : option math_error;
}.

Definition poll_step (t : poll_trace) (e : poll_event) : poll_trace :=
  match e with
  | AskPeers => mkTrace (ma_GetPeers (pt_poll t)).1 (pt_answers t) (pt_error t)
  | Opinion nodeID blkIDs =>
      let '(m, err) := ma_RecordOpinion (pt_poll t) nodeID blkIDs in
      mkTrace m
        (if decide (nodeID ∈ outstanding (ma_requests (pt_poll t)))
         then pt_answers t ++ [(nodeID, blkIDs)] else pt_answers t)
        (match err with Some e => Some e | None => pt_error t end)
  end.

Definition poll_exec (es : list poll_event) : poll_trace :=
  foldl poll_step (mkTrace (NewMajority weights maxOut) [] None) es.

(** The weight of the peers that reported a block. *)
Definition support (answers : list (NodeID * gset ID)) (blkID : ID) : Z :=
  lsum (map (λ nb, if decide (blkID ∈ nb.2) then node_weight nb.1 else 0) answers).

Record poll_inv (t : poll_trace) : Prop := {
  pv_weights : nodeWeights (pt_poll t) = weights;
  pv_error : pt_error t = None;
  pv_nodup : NoDup (pt_answers t).*1;
  pv_cover : pendingSend (ma_requests (pt_poll t)) ∪ outstanding (ma_requests (pt_poll t)) ∪
    list_to_set (pt_answers t).*1 = dom weights;
  pv_disjoint : pendingSend (ma_requests (pt_poll t)) ## outstanding (ma_requests (pt_poll t));
  pv_answered n : n ∈ (pt_answers t).*1 →
    (n ∉ pendingSend (ma_requests (pt_poll t))) ∧ (n ∉ outstanding (ma_requests (pt_poll t)));
  pv_bound : Z.of_nat (base.size (outstanding (ma_requests (pt_poll t)))) ≤ maxOut `max` 0;
  pv_max : maxOutstanding (ma_requests (pt_poll t)) = maxOut;
  pv_received b : default 0 (ma_received (pt_poll t) !! b) = support (pt_answers t) b;
  pv_accepted b : b ∈ accepted (pt_poll t) ↔
    req_finished (ma_requests (pt_poll t)) = true ∧ msum weights < 2 * support (pt_answers t) b;
  pv_accepted_nodup : NoDup (accepted (pt_poll t));
}.

Lemma node_weight_nonneg n : 0 ≤ node_weight n.
Proof. unfold node_weight. destruct (weights !! n) as [w|] eqn:Hw; [by apply (Hweights n)|done]. Qed.

Lemma sum_nodes_le (R : list NodeID) (m : gmap NodeID Z) :
  map_Forall (λ _ w, 0 ≤ w) m → NoDup R → (∀ n, n ∈ R → n ∈ dom m) →
  lsum (map (λ n, default 0 (m !! n)) R) ≤ msum m.
Proof.
  revert m. induction R as [|n R IH]; intros m Hm Hnd Hin; [by apply msum_nonneg|].
  apply NoDup_cons in Hnd as [Hn Hnd]. destruct (m !! n) as [w|] eqn:Hw; last first.
  { apply not_elem_of_dom in Hw. destruct Hw. apply Hin. set_solver. }
  rewrite (msum_delete m n w Hw).
  assert (lsum (map (λ x, default 0 (m !! x)) (n :: R)) =
    w + lsum (map (λ x, default 0 (delete n m !! x)) R)) as ->.
  { unfold lsum. simpl. rewrite Hw. simpl. f_equal. apply (f_equal (foldr Z.add 0)).
    apply List.map_ext_in. intros x Hx%list_elem_of_In. rewrite lookup_delete_ne; [done|]. intros ->. done. }
  apply Z.add_le_mono_l, IH; [by apply map_Forall_delete|done|].
  intros x Hx. rewrite dom_delete_L. assert (x ∈ dom m) by (apply Hin; set_solver). set_solver.
Qed.

Lemma reported_nonneg answers b : 0 ≤ support answers b.
Proof.
  apply lsum_nonneg, Forall_fmap, Forall_forall. intros x _. simpl. case_decide; [apply node_weight_nonneg|done].
Qed.

Lemma support_le answers b :
  NoDup answers.*1 → (∀ n, n ∈ answers.*1 → n ∈ dom weights) → support answers b ≤ msum weights.
Proof.
  intros Hnd Hin. etrans; [|by apply (sum_nodes_le answers.*1)].
  clear Hnd Hin. unfold support. induction answers as [|[n bs] answers IH]; [done|].
  change ((if decide (b ∈ bs) then node_weight n else 0) + support answers b ≤
    node_weight n + lsum (map (λ n, default 0 (weights !! n)) answers.*1)).
  pose proof (node_weight_nonneg n). unfold support. case_decide; lia.
Qed.

Lemma support_snoc answers n bs b :
  support (answers ++ [(n, bs)]) b = support answers b + if decide (b ∈ bs) then node_weight n else 0.
Proof. unfold support. rewrite List.map_app, lsum_app. unfold lsum at 2. simpl. lia. Qed.

Lemma add_weight_spec w l received :
  NoDup l → 0 ≤ w → (∀ b, 0 ≤ default 0 (received !! b)) →
  (∀ b, b ∈ l → default 0 (received !! b) + w ≤ MaxUint64) →
  ∃ received', add_weight w l received = (received', None) ∧
    ∀ b, default 0 (received' !! b) = default 0 (received !! b) + if decide (b ∈ l) then w else 0.
Proof.
  intros Hnd Hw. revert received. induction l as [|x l IH]; intros received Hr Hb.
  { exists received. split; [done|]. intros b. rewrite decide_False by set_solver. lia. }
  apply NoDup_cons in Hnd as [Hx Hnd]. cbn [add_weight].
  pose proof (Hr x). pose proof (Hb x ltac:(set_solver)). rewrite safe_Add64 by (split; lia).
  destruct (Z.leb_spec (default 0 (received !! x) + w) MaxUint64); [|lia].
  destruct (IH Hnd (<[x := default 0 (received !! x) + w]> received)) as (received' & -> & Hr').
  { intros b. destruct (decide (b = x)) as [->|]; [rewrite lookup_insert_eq; simpl; lia|].
    rewrite lookup_insert_ne by done. apply Hr. }
  { intros b Hbl. rewrite lookup_insert_ne by (intros ->; done). apply Hb. set_solver. }
  exists received'. split; [done|]. intros b. rewrite Hr'. destruct (decide (b = x)) as [->|Hne].
  - rewrite lookup_insert_eq, (decide_False (P := x ∈ l)), decide_True by set_solver. simpl. lia.
  - rewrite lookup_insert_ne by done. f_equal. repeat case_decide; first [done | exfalso; set_solver].
Qed.

Lemma total_weight_spec l acc :
  0 ≤ acc → Forall (λ w, 0 ≤ w) l.*2 → acc + lsum l.*2 ≤ MaxUint64 →
  total_weight l acc = Ok (acc + lsum l.*2).
Proof.
  revert acc. induction l as [|[n w] l IH]; intros acc Ha Hl Hs; [unfold lsum; simpl; by rewrite Z.add_0_r|].
  rewrite fmap_cons in Hl. apply Forall_cons in Hl as [Hw Hl]. simpl in Hw. cbn [total_weight].
  change (lsum ((n, w) :: l).*2) with (w + lsum l.*2) in *. pose proof (lsum_nonneg _ Hl).
  rewrite safe_Add64 by (split; lia). destruct (Z.leb_spec (acc + w) MaxUint64); [|lia].
  rewrite IH by (done || lia). f_equal. lia.
Qed.

Lemma total_weight_msum : total_weight (map_range weights) 0 = Ok (msum weights).
Proof.
  assert (lsum (map_range weights).*2 = msum weights) as Heq.
  { unfold msum. by rewrite map_range_perm. }
  rewrite total_weight_spec, Heq; [done|done| |lia].
  apply Forall_fmap, Forall_forall. intros [n w] Hin%elem_of_map_range. by apply (Hweights n).
Qed.

Lemma finished_spec r : req_finished r = true ↔ pendingSend r = ∅ ∧ outstanding r = ∅.
Proof. unfold req_finished. rewrite andb_true_iff, !bool_decide_eq_true. done. Qed.

Lemma poll_start : poll_inv (mkTrace (NewMajority weights maxOut) [] None).
Proof.
  split; simpl; try done; try set_solver.
  - apply NoDup_nil_2.
  - change (Z.of_nat (base.size (∅ : gset NodeID)) ≤ maxOut `max` 0). rewrite size_empty. lia.
  - intros b. split; [set_solver|]. intros [_ Hs]. unfold support, lsum in Hs. simpl in Hs.
    pose proof (msum_nonneg _ Hweights). lia.
  - apply NoDup_nil_2.
Qed.

Lemma GetPeers_spec r :
  pendingSend r ## outstanding r →
  let r' := (GetPeers r).1 in
  maxOutstanding r' = maxOutstanding r ∧
  pendingSend r' ∪ outstanding r' = pendingSend r ∪ outstanding r ∧ pendingSend r' ## outstanding r' ∧
  Z.of_nat (base.size (outstanding r')) ≤ maxOutstanding r `max` Z.of_nat (base.size (outstanding r)) ∧
  req_finished r' = req_finished r.
Proof.
  intros Hd. unfold GetPeers. destruct (Z.leb_spec (maxOutstanding r) (Z.of_nat (base.size (outstanding r)))).
  { split_and!; try done. cbn [fst]. lia. }
  set (n := _ `min` _). pose proof (pop_peers_spec (Z.to_nat n) (pendingSend r) ∅) as Hpop.
  destruct (pop_peers (Z.to_nat n) (pendingSend r) ∅) as [pending nodeIDs] eqn:Heq.
  destruct Hpop as (H1 & H2 & H3 & H4 & H5 & H6 & _). simpl.
  assert (pending ∪ (outstanding r ∪ nodeIDs) = pendingSend r ∪ outstanding r) as Hun.
  { transitivity ((pending ∪ nodeIDs) ∪ outstanding r); [set_solver|]. rewrite H4. set_solver. }
  split_and!; [done|done|set_solver| |].
  - rewrite size_empty in H6. pose proof (size_union_alt (outstanding r) nodeIDs).
    pose proof (subseteq_size (nodeIDs ∖ outstanding r) nodeIDs ltac:(set_solver)). lia.
  - apply eq_bool_prop_intro. rewrite !Is_true_true, !finished_spec. simpl. set_solver.
Qed.

Lemma poll_step_ask t : poll_inv t → poll_inv (poll_step t AskPeers).
Proof.
  intros Hi. pose proof (GetPeers_spec _ (pv_disjoint _ Hi)) as Hg. unfold poll_step, ma_GetPeers.
  destruct (GetPeers (ma_requests (pt_poll t))) as [r peers]. simpl in Hg. destruct Hg as (Hm & Hun & Hd & Hb & Hf).
  split; simpl; try apply Hi.
  - rewrite <- (pv_cover _ Hi), <- Hun. done.
  - done.
  - intros n Hn%(pv_answered _ Hi). set_solver.
  - pose proof (pv_bound _ Hi). rewrite (pv_max _ Hi) in Hb. lia.
  - by rewrite Hm, (pv_max _ Hi).
  - intros b. rewrite Hf. apply (pv_accepted _ Hi).
Qed.

(** An answer that was not asked for changes nothing. *)
Lemma poll_step_unexpected t n bs :
  poll_inv t → n ∉ outstanding (ma_requests (pt_poll t)) → poll_inv (poll_step t (Opinion n bs)).
Proof.
  intros Hi Hn. unfold poll_step, ma_RecordOpinion, recordResponse. rewrite bool_decide_false by done. simpl.
  rewrite decide_False by done.
  assert (outstanding (ma_requests (pt_poll t)) ∖ {[n]} = outstanding (ma_requests (pt_poll t))) as -> by set_solver.
  destruct t as [[[] ? ? ?] ? ?]; exact Hi.
Qed.

Lemma majority_weight total w : 0 ≤ total → (total `div` 2 + 1 ≤ w ↔ total < 2 * w).
Proof. intros. split; intros; dmlia. Qed.

Lemma poll_step_answer t n bs :
  poll_inv t → n ∈ outstanding (ma_requests (pt_poll t)) → poll_inv (poll_step t (Opinion n bs)).
Proof.
  intros Hi Hn. unfold poll_step, ma_RecordOpinion, recordResponse. rewrite bool_decide_true by done. simpl.
  rewrite decide_True by done. rewrite (pv_weights _ Hi). fold (node_weight n).
  set (answers := pt_answers t ++ [(n, bs)]).
  assert (NoDup answers.*1) as Hnd.
  { unfold answers. rewrite fmap_app. apply NoDup_app. split_and!; [apply Hi| |apply NoDup_singleton].
    intros x Hx%(pv_answered _ Hi) ->%list_elem_of_singleton. tauto. }
  assert (∀ x, x ∈ answers.*1 → x ∈ dom weights) as Hin.
  { intros x. unfold answers. rewrite fmap_app, elem_of_app, <- (pv_cover _ Hi). set_solver. }
  destruct (add_weight_spec (node_weight n) (set_range bs) (ma_received (pt_poll t))) as (received & -> & Hrec).
  { apply NoDup_set_range. } { apply node_weight_nonneg. }
  { intros b. rewrite (pv_received _ Hi). apply reported_nonneg. }
  { intros b Hb%elem_of_set_range. rewrite (pv_received _ Hi).
    pose proof (support_le answers b Hnd Hin) as Hle. unfold answers in Hle. rewrite support_snoc in Hle.
    rewrite decide_True in Hle by done. lia. }
  assert (∀ b, default 0 (received !! b) = support answers b) as Hrec'.
  { intros b. rewrite Hrec, (pv_received _ Hi). unfold answers. rewrite support_snoc.
    repeat case_decide; rewrite elem_of_set_range in *; done || lia. }
  assert (req_finished (ma_requests (pt_poll t)) = false) as Hnf.
  { apply not_true_iff_false. rewrite finished_spec. set_solver. }
  assert (accepted (pt_poll t) = []) as Hacc.
  { destruct (accepted (pt_poll t)) as [|b l] eqn:Ha; [done|].
    assert (b ∈ accepted (pt_poll t)) as Hb by (rewrite Ha; set_solver).
    apply (pv_accepted _ Hi) in Hb as [? _]. congruence. }
  set (r := mkRequests _ _ _). assert (pendingSend r ∪ outstanding r ∪ list_to_set answers.*1 = dom weights) as Hcov.
  { rewrite <- (pv_cover _ Hi). unfold r, answers. rewrite fmap_app, list_to_set_app_L. simpl.
    apply set_eq. intros x. destruct (decide (x = n)); set_solver. }
  assert (∀ acc, (∀ b, b ∈ acc ↔ req_finished r = true ∧ msum weights < 2 * support answers b) → NoDup acc →
    poll_inv (mkTrace (mkMajority r weights received acc) answers (pt_error t))) as Hmk.
  { intros acc Ha Han. split; simpl; try done; try apply Hi.
    - pose proof (pv_disjoint _ Hi). set_solver.
    - intros x. unfold answers. rewrite fmap_app, elem_of_app. intros [Hx%(pv_answered _ Hi)|Hx]; [set_solver|].
      simpl in Hx. apply list_elem_of_singleton in Hx as ->. pose proof (pv_disjoint _ Hi). set_solver.
    - pose proof (pv_bound _ Hi).
      pose proof (subseteq_size (outstanding (ma_requests (pt_poll t)) ∖ {[n]}) (outstanding (ma_requests (pt_poll t))) ltac:(set_solver)). lia. }
  rewrite Hacc. destruct (req_finished r) eqn:Hf; cbn [negb].
  - rewrite total_weight_msum. apply Hmk.
    + intros b. rewrite app_nil_l, list_elem_of_fmap. split.
      * intros ([b' w] & -> & [Hw Hin']%list_elem_of_filter). apply elem_of_map_range in Hin'. simpl.
        split; [done|]. rewrite <- Hrec', Hin'. simpl. apply majority_weight; [by apply msum_nonneg|done].
      * intros [_ Hs]. rewrite <- Hrec' in Hs. pose proof (msum_nonneg _ Hweights).
        destruct (received !! b) as [w|] eqn:Hw; simpl in Hs; [|lia]. exists (b, w). split; [done|].
        apply list_elem_of_filter. split; [by apply majority_weight|by apply elem_of_map_range].
    + simpl. apply NoDup_fst_filter, NoDup_map_range_keys.
  - apply Hmk; [|apply NoDup_nil_2]. intros b. split; [set_solver|by intros [? _]].
Qed.

Lemma poll_exec_inv es : poll_inv (poll_exec es).
Proof.
  unfold poll_exec. induction es as [|e es IH] using rev_ind; [apply poll_start|].
  rewrite foldl_app. simpl. destruct e as [|n bs]; [by apply poll_step_ask|].
  destruct (decide (n ∈ outstanding (ma_requests (pt_poll (foldl poll_step (mkTrace (NewMajority weights maxOut) [] None) es))))).
  - by apply poll_step_answer.
  - by apply poll_step_unexpected.
Qed.

(** The majority poll accepts exactly the blocks that peers with more than
    half of the total weight reported: whatever order peers are asked and answer
    in, however often, and whatever unexpected answers arrive, no addition
    overflows, at most [maxOutstanding] requests are pending, every peer is
    counted at most once, and a finished poll has counted every peer. *)
Theorem majority_poll_correct (es : list poll_event) :
  let t := poll_exec es in
  pt_error t = None ∧ NoDup (pt_answers t).*1 ∧
  Z.of_nat (base.size (outstanding (ma_requests (pt_poll t)))) ≤ maxOut `max` 0 ∧
  let '(result, finished) := ma_Result (pt_poll t) in
  if (finished : bool)
  then (∀ n, n ∈ (pt_answers t).*1 ↔ n ∈ dom weights) ∧ NoDup result ∧
       ∀ b, b ∈ result ↔ msum weights < 2 * support (pt_answers t) b
  else result = [].
Proof.
  intros t. pose proof (poll_exec_inv es) as Hi. fold t in Hi.
  split_and!; [apply Hi..|]. unfold ma_Result. pose proof (pv_accepted _ Hi) as Ha.
  destruct (req_finished (ma_requests (pt_poll t))) eqn:Hf.
  - apply finished_spec in Hf as [Hp Ho]. split_and!; [|apply Hi|].
    + intros n. rewrite <- (pv_cover _ Hi), Hp, Ho. set_solver.
    + intros b. rewrite Ha. naive_solver.
  - destruct (accepted (pt_poll t)) as [|b l]; [done|]. destruct (Ha b) as [H1 _].
    destruct H1 as [? _]; [set_solver|done].
Qed.
End MajorityPoll.
End Bootstrapper.

(** ** A concrete poll

    Three peers of weights 30, 30 and 50, two requests at a time. *)
Definition demo_weights : gmap nat Z := {[ 1%nat := 30; 2%nat := 30; 3%nat := 50 ]}.

Definition demo_events (x : ID) : list (poll_event (NodeID := nat)) :=
  let answers := [Opinion 1%nat {[x]}; Opinion 2%nat {[x]}; Opinion 3%nat {[Empty]}] in
  AskPeers :: answers ++ AskPeers :: answers.

Lemma majority_poll_correct_witness :
  let _ := canonical_range nat in
  let _ := canonical_range ID in
  match id_of_first_byte 1 with
  | Some x =>
      let t := poll_exec demo_weights 2 (demo_events x) in
      pt_error t = None ∧ ma_Result (pt_poll t) = ([x], true) ∧
      ∀ b, b ∈ [x] ↔ msum demo_weights < 2 * support demo_weights (pt_answers t) b
  | None => False
  end.
Proof.
  intros RN RI. destruct (id_of_first_byte 1) as [x|] eqn:Hx; [|by vm_compute in Hx].
  assert (map_Forall (λ _ w, 0 ≤ w) demo_weights) as Hw.
  { apply map_Forall_to_list. vm_compute. repeat constructor; discriminate. }
  assert (msum demo_weights ≤ MaxUint64) as Ht by (vm_compute; discriminate).
  pose proof (majority_poll_correct demo_weights 2 Hw Ht (demo_events x)) as Hc.
  assert (ma_Result (pt_poll (poll_exec demo_weights 2 (demo_events x))) = ([x], true)) as Hr.
  { vm_compute in Hx. injection Hx as <-. vm_compute. done. }
  cbv zeta in Hc |- *. rewrite Hr in Hc. destruct Hc as (He & _ & _ & _ & _ & Hb).
  split_and!; [exact He|exact Hr|exact Hb].
Defined.
