(* ===== verification/LinkedList.v ===== *)
(** * Doubly linked lists (package [utils/linked], [list.go])

    Elements are shared, mutable objects: the model is a heap of elements with
    [next], [prev] and [list] pointers, and every assignment of the source is an
    update of that heap.  A list is the location of its sentinel.  [None] as the
    result of an operation is a nil dereference.

    [is_list h l xs] says that the heap [h] holds a well-formed list at [l] whose
    elements, from the front, are [xs]; the theorems show that every operation
    maps such a heap to one that holds the expected sequence. *)
From S2P Require Import Prelude.

Definition loc : Type := nat.

Record ListElement (T : Type) : Type := mkElement {
  el_next : option loc;
  el_prev : option loc;
  el_list : option loc;
  el_Value : T;
}.
Arguments mkElement {T} _ _ _ _.
Arguments el_next {T} _.
Arguments el_prev {T} _.
Arguments el_list {T} _.
Arguments el_Value {T} _.

(** The elements, and the [length] field of each list. *)
Record lheap (T : Type) : Type := mkHeap {
  elements : gmap loc (ListElement T);
  lengths : gmap loc Z;
}.
Arguments mkHeap {T} _ _.
Arguments elements {T} _.
Arguments lengths {T} _.

Section LinkedList.
Context {T : Type}.
Implicit Types (h : lheap T) (l e location : loc).

(** ** Loads and stores *)

Definition load h e : option (ListElement T) := elements h !! e.

Definition store (f : ListElement T → ListElement T) h e : option (lheap T) :=
  x ← load h e; Some (mkHeap (<[e := f x]> (elements h)) (lengths h)).

Definition set_next h e (p : option loc) : option (lheap T) :=
  store (λ x, mkElement p (el_prev x) (el_list x) (el_Value x)) h e.
Definition set_prev h e (p : option loc) : option (lheap T) :=
  store (λ x, mkElement (el_next x) p (el_list x) (el_Value x)) h e.
Definition set_list h e (p : option loc) : option (lheap T) :=
  store (λ x, mkElement (el_next x) (el_prev x) p (el_Value x)) h e.
Definition set_Value h e (v : T) : option (lheap T) :=
  store (λ x, mkElement (el_next x) (el_prev x) (el_list x) v) h e.

(** [e.next], [e.prev], [e.list]; the outer [None] is a nil dereference. *)
Definition get_next h e : option (option loc) := el_next <$> load h e.
Definition get_prev h e : option (option loc) := el_prev <$> load h e.
Definition get_list h e : option (option loc) := el_list <$> load h e.

(** [e.prev.next = e.next; e.next.prev = e.prev], which [Remove] and [moveAfter]
    share. *)
Definition unlink h e : option (lheap T) :=
  p ← get_prev h e; p ← p;
  n ← get_next h e;
  h ← set_next h p n;
  n ← get_next h e; n ← n;
  p ← get_prev h e;
  set_prev h n p.

(** [e.prev = location; e.next = location.next; e.prev.next = e; e.next.prev = e],
    which [insertAfter] and [moveAfter] share. *)
Definition link_after h e location : option (lheap T) :=
  h ← set_prev h e (Some location);
  n ← get_next h location;
  h ← set_next h e n;
  p ← get_prev h e; p ← p;
  h ← set_next h p (Some e);
  n ← get_next h e; n ← n;
  set_prev h n (Some e).

Definition add_length h l (d : Z) : option (lheap T) :=
  n ← lengths h !! l; Some (mkHeap (elements h) (<[l := n + d]> (lengths h))).

(** ** Operations *)

(** [NewList]; [l] is a fresh location and [zero] the value of the sentinel. *)
Definition NewList (zero : T) h l : lheap T :=
  mkHeap (<[l := mkElement (Some l) (Some l) (Some l) zero]> (elements h)) (<[l := 0]> (lengths h)).

(** [&ListElement{Value: v}] *)
Definition NewElement (v : T) h e : lheap T :=
  mkHeap (<[e := mkElement None None None v]> (elements h)) (lengths h).

(** [ListElement.Next] and [ListElement.Prev] *)
Definition Next h e : option (option loc) :=
  x ← load h e;
  match el_list x with
  | Some l => if decide (el_next x = Some l) then Some None else Some (el_next x)
  | None => Some None
  end.

Definition Prev h e : option (option loc) :=
  x ← load h e;
  match el_list x with
  | Some l => if decide (el_prev x = Some l) then Some None else Some (el_prev x)
  | None => Some None
  end.

Definition List_Len h l : option Z := lengths h !! l.

Definition Front h l : option (option loc) :=
  n ← lengths h !! l; if n =? 0 then Some None else get_next h l.

Definition Back h l : option (option loc) :=
  n ← lengths h !! l; if n =? 0 then Some None else get_prev h l.

Definition Remove h l e : option (lheap T) :=
  q ← get_list h e;
  if decide (q ≠ Some l) then Some h else
  h ← unlink h e;
  h ← set_next h e None;
  h ← set_prev h e None;
  h ← set_list h e None;
  add_length h l (-1).

Definition insertAfter h l e location : option (lheap T) :=
  q ← get_list h e;
  if decide (q ≠ None) then Some h else
  h ← link_after h e location;
  h ← set_list h e (Some l);
  add_length h l 1.

Definition moveAfter h l e location : option (lheap T) :=
  q ← get_list h e;
  if decide (q ≠ Some l) then Some h else
  q' ← get_list h location;
  if decide (q' ≠ Some l ∨ e = location) then Some h else
  h ← unlink h e;
  link_after h e location.

Definition PushFront h l e : option (lheap T) := insertAfter h l e l.

Definition PushBack h l e : option (lheap T) :=
  p ← get_prev h l; p ← p; insertAfter h l e p.

Definition InsertBefore h l e location : option (lheap T) :=
  q ← get_list h location;
  if decide (q = Some l) then p ← get_prev h location; p ← p; insertAfter h l e p else Some h.

Definition InsertAfter h l e location : option (lheap T) :=
  q ← get_list h location;
  if decide (q = Some l) then insertAfter h l e location else Some h.

Definition MoveToFront h l e : option (lheap T) :=
  n ← get_next h l;
  if decide (n ≠ Some e) then moveAfter h l e l else Some h.

Definition MoveToBack h l e : option (lheap T) :=
  p ← get_prev h l; p ← p; moveAfter h l e p.

(** In [MoveBefore] the location may be in no list, and its [prev] nil: the
    pointer is then only compared and dereferenced by [moveAfter]. *)
Definition MoveBefore h l e location : option (lheap T) :=
  if decide (e ≠ location) then
    p ← get_prev h location;
    match p with
    | Some p => moveAfter h l e p
    | None => q ← get_list h e; if decide (q ≠ Some l) then Some h else None
    end
  else Some h.

Definition MoveAfter h l e location : option (lheap T) := moveAfter h l e location.

Definition get_Value h e : option T := el_Value <$> load h e.

(** ** Well-formed lists *)

(** [x] and [y] point at each other. *)
Definition linked h (x y : loc) : Prop :=
  get_next h x = Some (Some y) ∧ get_prev h y = Some (Some x).

(** Each element is linked to the one that follows it. *)
Fixpoint path h (xs : list loc) : Prop :=
  match xs with
  | x :: ((y :: _) as ys) => linked h x y ∧ path h ys
  | _ => True
  end.

Record is_list h l (xs : list loc) : Prop := {
  il_path : path h (l :: xs ++ [l]);
  il_nodup : NoDup (l :: xs);
  il_list : ∀ e, get_list h e = Some (Some l) ↔ e ∈ l :: xs;
  il_length : lengths h !! l = Some (Z.of_nat (length xs));
}.

Lemma lpath_app h xs x y ys :
  path h ((xs ++ [x]) ++ y :: ys) ↔ path h (xs ++ [x]) ∧ linked h x y ∧ path h (y :: ys).
Proof.
  rewrite <- app_assoc. simpl. induction xs as [|z xs IH]; [simpl; tauto|].
  destruct xs as [|z' xs]; simpl in *; [tauto|]. rewrite IH. tauto.
Qed.

(** Changing pointers that a path does not read: the [next] of its last element
    and the [prev] of its first. *)
Lemma path_frame h h' xs :
  NoDup xs →
  (∀ x, x ∈ xs → last xs ≠ Some x → get_next h' x = get_next h x) →
  (∀ x, x ∈ xs → head xs ≠ Some x → get_prev h' x = get_prev h x) →
  path h xs → path h' xs.
Proof.
  induction xs as [|x xs IH]; [done|]. intros [Hx Hnd]%NoDup_cons Hn Hp. destruct xs as [|y ys]; [done|].
  intros [[Hl1 Hl2] Hpath]. split.
  - split; [rewrite Hn; [done|set_solver|]|rewrite Hp; [done|set_solver|set_solver]].
    rewrite last_cons_cons. intros ?%last_Some_elem_of. done.
  - apply IH; [done|..|done].
    + intros z Hz Hl. apply Hn; [set_solver|]. by rewrite last_cons_cons.
    + intros z Hz Hhd. apply Hp; [set_solver|]. simpl. intros [= ->]. done.
Qed.

(** ** The effect of the stores

    [changes h h' n p q]: the pointers of [h'] are those of [h] but for the
    updates [n], [p] and [q] of [next], [prev] and [list]; values and lengths
    stay. *)
Record changes h h' (n p q : loc → option (option loc)) : Prop := {
  ch_next x : get_next h' x = match n x with Some v => Some v | None => get_next h x end;
  ch_prev x : get_prev h' x = match p x with Some v => Some v | None => get_prev h x end;
  ch_list x : get_list h' x = match q x with Some v => Some v | None => get_list h x end;
  ch_Value x : get_Value h' x = get_Value h x;
  ch_lengths : lengths h' = lengths h;
  ch_load x : is_Some (load h' x) ↔ is_Some (load h x);
}.

Definition only (e : loc) (v : option (option loc)) : loc → option (option loc) :=
  λ x, if decide (x = e) then v else None.

Lemma store_load f h e : is_Some (load h e) → ∃ h' v, load h e = Some v ∧
  store f h e = Some h' ∧ lengths h' = lengths h ∧
  ∀ x, load h' x = if decide (x = e) then Some (f v) else load h x.
Proof.
  intros [v Hv]. unfold store. rewrite Hv. eexists _, v. split_and!; [done..|].
  intros x. unfold load. simpl. case_decide; subst; [apply lookup_insert_eq|by apply lookup_insert_ne].
Qed.

Lemma store_changes f n p q h e :
  is_Some (load h e) →
  (∀ v, f v = mkElement (default (el_next v) n) (default (el_prev v) p) (default (el_list v) q) (el_Value v)) →
  ∃ h', store f h e = Some h' ∧ changes h h' (only e n) (only e p) (only e q).
Proof.
  intros Hl Hf. destruct (store_load f h e Hl) as (h' & v & Hv & Hs & Hlen & Hload).
  exists h'. split; [done|].
  split; intros; unfold get_next, get_prev, get_list, get_Value, only; rewrite ?Hload; try done;
    case_decide; subst; rewrite ?Hv, ?Hf; simpl; try done; try (split; by eauto).
  - by destruct n.
  - by destruct p.
  - by destruct q.
Qed.

Lemma set_next_changes h e p :
  is_Some (load h e) →
  ∃ h', set_next h e p = Some h' ∧ changes h h' (only e (Some p)) (only e None) (only e None).
Proof. intros. by apply store_changes. Qed.

Lemma set_prev_changes h e p :
  is_Some (load h e) →
  ∃ h', set_prev h e p = Some h' ∧ changes h h' (only e None) (only e (Some p)) (only e None).
Proof. intros. by apply store_changes. Qed.

Lemma set_list_changes h e p :
  is_Some (load h e) →
  ∃ h', set_list h e p = Some h' ∧ changes h h' (only e None) (only e None) (only e (Some p)).
Proof. intros. by apply store_changes. Qed.

Lemma get_next_load h e p : get_next h e = Some p → is_Some (load h e).
Proof. unfold get_next. destruct (load h e); by eauto. Qed.
Lemma get_prev_load h e p : get_prev h e = Some p → is_Some (load h e).
Proof. unfold get_prev. destruct (load h e); by eauto. Qed.
Lemma get_list_load h e p : get_list h e = Some p → is_Some (load h e).
Proof. unfold get_list. destruct (load h e); by eauto. Qed.

(** Rewrites every read of the heap after a store with reads of the heap before
    it. *)
Ltac use_changes H :=
  rewrite ?(ch_next _ _ _ _ _ H), ?(ch_prev _ _ _ _ _ H), ?(ch_list _ _ _ _ _ H),
    ?(ch_Value _ _ _ _ _ H), ?(ch_lengths _ _ _ _ _ H); unfold only.

Lemma unlink_changes h e p n :
  get_prev h e = Some (Some p) → get_next h e = Some (Some n) →
  is_Some (load h p) → is_Some (load h n) → e ≠ p → e ≠ n →
  ∃ h', unlink h e = Some h' ∧
    changes h h' (only p (Some (Some n))) (only n (Some (Some p))) (only e None).
Proof.
  intros Hp Hn Hlp Hln Hep Hen. unfold unlink. rewrite Hp. simpl. rewrite Hn. simpl.
  destruct (set_next_changes h p (Some n) Hlp) as (h1 & -> & H1). simpl.
  use_changes H1. rewrite (decide_False (P := e = p)) by done. rewrite Hn. simpl.
  use_changes H1. rewrite Hp. rewrite (decide_False (P := e = p)) by done. simpl.
  destruct (set_prev_changes h1 n (Some p)) as (h2 & -> & H2); [by apply (ch_load _ _ _ _ _ H1)|].
  exists h2. split; [done|]. split; intros; use_changes H2; use_changes H1;
    repeat case_decide; subst; try done.
  rewrite (ch_load _ _ _ _ _ H2). apply (ch_load _ _ _ _ _ H1).
Qed.

Lemma link_after_changes h e location n :
  is_Some (load h e) → get_next h location = Some (Some n) → is_Some (load h n) →
  e ≠ location → e ≠ n →
  ∃ h', link_after h e location = Some h' ∧
    changes h h' (λ x, if decide (x = location) then Some (Some e) else only e (Some (Some n)) x)
      (λ x, if decide (x = n) then Some (Some e) else only e (Some (Some location)) x) (only e None).
Proof.
  intros He Hn Hln Hel Hen. unfold link_after.
  destruct (set_prev_changes h e (Some location) He) as (h1 & -> & H1). simpl.
  use_changes H1. rewrite Hn. rewrite (decide_False (P := location = e)) by done. simpl.
  destruct (set_next_changes h1 e (Some n)) as (h2 & -> & H2); [by apply (ch_load _ _ _ _ _ H1)|]. simpl.
  use_changes H2. use_changes H1. rewrite !(decide_True (P := e = e)) by done. simpl.
  destruct (set_next_changes h2 location (Some e)) as (h3 & -> & H3).
  { apply (ch_load _ _ _ _ _ H2), (ch_load _ _ _ _ _ H1). by eapply get_next_load. }
  simpl. use_changes H3. use_changes H2.
  rewrite (decide_False (P := e = location)), (decide_True (P := e = e)) by done. simpl.
  destruct (set_prev_changes h3 n (Some e)) as (h4 & -> & H4).
  { by apply (ch_load _ _ _ _ _ H3), (ch_load _ _ _ _ _ H2), (ch_load _ _ _ _ _ H1). }
  exists h4. split; [done|]. split; intros; use_changes H4; use_changes H3; use_changes H2; use_changes H1;
    repeat case_decide; subst; try done.
  by rewrite (ch_load _ _ _ _ _ H4), (ch_load _ _ _ _ _ H3), (ch_load _ _ _ _ _ H2), (ch_load _ _ _ _ _ H1).
Qed.

(** ** Splitting and joining the cycle *)

(** The elements around the gap between [xs1] and [xs2]. *)
Definition before l (xs1 : list loc) : loc := default l (last xs1).
Definition after l (xs2 : list loc) : loc := default l (head xs2).

Lemma before_last l xs1 : last (l :: xs1) = Some (before l xs1).
Proof. unfold before. rewrite last_cons. by destruct (last xs1). Qed.
Lemma after_head l xs2 : head (xs2 ++ [l]) = Some (after l xs2).
Proof. by destruct xs2. Qed.
Lemma before_elem l xs1 : before l xs1 ∈ l :: xs1.
Proof. apply last_Some_elem_of, before_last. Qed.
Lemma after_elem l xs2 : after l xs2 ∈ l :: xs2.
Proof. destruct xs2; simpl; set_solver. Qed.

Lemma lpath_split h l xs1 xs2 :
  path h (l :: (xs1 ++ xs2) ++ [l]) ↔
  path h (l :: xs1) ∧ linked h (before l xs1) (after l xs2) ∧ path h (xs2 ++ [l]).
Proof.
  assert (∃ ps, l :: xs1 = ps ++ [before l xs1]) as [ps Hps].
  { pose proof (before_last l xs1) as [ps ?]%last_Some. by exists ps. }
  assert (∃ ns, xs2 ++ [l] = after l xs2 :: ns) as [ns Hns] by (destruct xs2; simpl; eauto).
  rewrite <- app_assoc, app_comm_cons, Hps, Hns. apply lpath_app.
Qed.

(** New pointers across the gap leave both sides of it intact. *)
Lemma path_gap h h' l xs1 xs2 :
  NoDup (l :: xs1 ++ xs2) →
  (∀ x, x ∈ l :: xs1 ++ xs2 → x ≠ before l xs1 → get_next h' x = get_next h x) →
  (∀ x, x ∈ l :: xs1 ++ xs2 → x ≠ after l xs2 → get_prev h' x = get_prev h x) →
  path h (l :: xs1) → path h (xs2 ++ [l]) → path h' (l :: xs1) ∧ path h' (xs2 ++ [l]).
Proof.
  intros Hnd Hn Hp H1 H2. apply NoDup_cons in Hnd as [Hl (Hnd1 & Hdisj & Hnd2)%NoDup_app].
  rewrite elem_of_app in Hl. split; apply (path_frame h); try done.
  - apply NoDup_cons. split; [tauto|done].
  - intros x Hx. rewrite before_last. intros Hx'. apply Hn; [set_solver|congruence].
  - intros x Hx Hxl. apply Hp; [set_solver|].
    destruct xs2 as [|y xs2]; unfold after; simpl in *; [congruence|].
    intros ->. apply elem_of_cons in Hx as [->|Hx]; [congruence|]. apply (Hdisj y Hx). set_solver.
  - apply NoDup_app. split_and!; [done| |apply NoDup_singleton]. set_solver.
  - intros x Hx Hxl. rewrite last_snoc in Hxl. apply Hn; [set_solver|]. intros ->.
    apply elem_of_app in Hx as [Hx|Hx]; [|set_solver].
    pose proof (before_elem l xs1) as [Hb|Hb]%elem_of_cons; [congruence|]. by apply (Hdisj _ Hb).
  - intros x Hx. rewrite after_head. intros Hx'. apply Hp; [set_solver|congruence].
Qed.

Lemma is_list_load h l xs e : is_list h l xs → e ∈ l :: xs → is_Some (load h e).
Proof. intros Hl He%(il_list _ _ _ Hl). by eapply get_list_load. Qed.

(** ** Operations on well-formed lists *)

(** The lists at other sentinels and all values are untouched. *)
Definition same_values h h' : Prop :=
  (∀ x, get_Value h' x = get_Value h x) ∧ (∀ x, is_Some (load h' x) ↔ is_Some (load h x)).

(** A path reads the elements only. *)
Lemma path_lengths h lens xs : path h xs → path (mkHeap (elements h) lens) xs.
Proof. induction xs as [|x [|y xs] IH]; [done..|]. intros [??]. by split; [|apply IH]. Qed.

Lemma path_changes h h' l xs1 xs2 n p q :
  changes h h' n p q → NoDup (l :: xs1 ++ xs2) →
  (∀ x, x ∈ l :: xs1 ++ xs2 → x ≠ before l xs1 → n x = None) →
  (∀ x, x ∈ l :: xs1 ++ xs2 → x ≠ after l xs2 → p x = None) →
  path h (l :: xs1) → path h (xs2 ++ [l]) → linked h' (before l xs1) (after l xs2) →
  path h' (l :: (xs1 ++ xs2) ++ [l]).
Proof.
  intros Hc Hnd Hn Hp H1 H2 Hl. apply lpath_split.
  destruct (path_gap h h' l xs1 xs2) as [H1' H2']; try done.
  - intros x Hx Hb. by rewrite (ch_next _ _ _ _ _ Hc), Hn.
  - intros x Hx Hb. by rewrite (ch_prev _ _ _ _ _ Hc), Hp.
Qed.

Lemma changes_trans h h1 h2 n p q n' p' q' :
  changes h h1 n p q → changes h1 h2 n' p' q' →
  changes h h2 (λ x, match n' x with Some v => Some v | None => n x end)
    (λ x, match p' x with Some v => Some v | None => p x end)
    (λ x, match q' x with Some v => Some v | None => q x end).
Proof.
  intros H1 H2. split; intros.
  - rewrite (ch_next _ _ _ _ _ H2), (ch_next _ _ _ _ _ H1). by destruct (n' x).
  - rewrite (ch_prev _ _ _ _ _ H2), (ch_prev _ _ _ _ _ H1). by destruct (p' x).
  - rewrite (ch_list _ _ _ _ _ H2), (ch_list _ _ _ _ _ H1). by destruct (q' x).
  - by rewrite (ch_Value _ _ _ _ _ H2), (ch_Value _ _ _ _ _ H1).
  - by rewrite (ch_lengths _ _ _ _ _ H2), (ch_lengths _ _ _ _ _ H1).
  - by rewrite (ch_load _ _ _ _ _ H2), (ch_load _ _ _ _ _ H1).
Qed.

(** An element of a list and its neighbours. *)
Lemma is_list_around h l xs1 e xs2 :
  is_list h l (xs1 ++ e :: xs2) →
  linked h (before l xs1) e ∧ linked h e (after l xs2) ∧ path h (l :: xs1) ∧ path h (xs2 ++ [l]) ∧
  NoDup (l :: xs1 ++ xs2) ∧ (e ∉ l :: xs1 ++ xs2) ∧ e ≠ before l xs1 ∧ e ≠ after l xs2.
Proof.
  intros [Hp Hnd _ _]. apply lpath_split in Hp as (Hp1 & Hpe & Hp2).
  assert (linked h e (after l xs2) ∧ path h (xs2 ++ [l])) as [Hen Hp3] by (by destruct xs2).
  assert (NoDup (e :: l :: xs1 ++ xs2)) as [Hne Hnd']%NoDup_cons.
  { eapply NoDup_Permutation_proper; [|exact Hnd]. solve_Permutation. }
  pose proof (before_elem l xs1) as Hb. pose proof (after_elem l xs2) as Ha.
  split_and!; try done; intros Heq; [rewrite <- Heq in Hb|rewrite <- Heq in Ha]; set_solver.
Qed.

(** What [unlink] leaves: the cycle without [e], which still names its list. *)
Lemma unlink_list h l xs1 e xs2 :
  is_list h l (xs1 ++ e :: xs2) →
  ∃ h', unlink h e = Some h' ∧ path h' (l :: (xs1 ++ xs2) ++ [l]) ∧
    changes h h' (only (before l xs1) (Some (Some (after l xs2))))
      (only (after l xs2) (Some (Some (before l xs1)))) (only e None).
Proof.
  intros Hl. destruct (is_list_around _ _ _ _ _ Hl) as ([Hb1 Hb2] & [Ha1 Ha2] & Hp1 & Hp2 & Hnd & He & Heb & Hea).
  pose proof (before_elem l xs1). pose proof (after_elem l xs2).
  destruct (unlink_changes h e (before l xs1) (after l xs2)) as (h' & Hu & Hc); try done;
    [eapply is_list_load; [done|set_solver]..|].
  exists h'. split_and!; [done| |done].
  eapply path_changes; try done; unfold only.
  - intros x _ ?. by rewrite decide_False.
  - intros x _ ?. by rewrite decide_False.
  - split; [rewrite (ch_next _ _ _ _ _ Hc)|rewrite (ch_prev _ _ _ _ _ Hc)];
      unfold only; by rewrite decide_True.
Qed.

Lemma Remove_spec h l xs1 e xs2 :
  is_list h l (xs1 ++ e :: xs2) →
  ∃ h', Remove h l e = Some h' ∧ is_list h' l (xs1 ++ xs2) ∧ get_list h' e = Some None ∧
    same_values h h' ∧ (∀ x, x ≠ e → get_list h' x = get_list h x).
Proof.
  intros Hl. destruct (is_list_around _ _ _ _ _ Hl) as (_ & _ & _ & _ & Hnd & He & _ & _).
  pose proof Hl as [_ _ Hel Hlen]. assert (is_Some (load h e)) as Hle by (eapply is_list_load; [done|set_solver]).
  destruct (unlink_list _ _ _ _ _ Hl) as (h1 & Hu & Hpath & H1).
  unfold Remove. rewrite (proj2 (Hel e)) by set_solver. simpl. rewrite decide_False by tauto.
  rewrite Hu. simpl.
  destruct (set_next_changes h1 e None) as (h2 & -> & H2); [by apply (ch_load _ _ _ _ _ H1)|]. simpl.
  destruct (set_prev_changes h2 e None) as (h3 & -> & H3);
    [by apply (ch_load _ _ _ _ _ H2), (ch_load _ _ _ _ _ H1)|]. simpl.
  destruct (set_list_changes h3 e None) as (h4 & -> & H4);
    [by apply (ch_load _ _ _ _ _ H3), (ch_load _ _ _ _ _ H2), (ch_load _ _ _ _ _ H1)|]. simpl.
  pose proof (changes_trans _ _ _ _ _ _ _ _ _ H2 (changes_trans _ _ _ _ _ _ _ _ _ H3 H4)) as H24.
  pose proof (changes_trans _ _ _ _ _ _ _ _ _ H1 H24) as H14. clear H2 H3 H4 Hu.
  unfold add_length. rewrite (ch_lengths _ _ _ _ _ H14), Hlen. simpl. eexists. split; [done|].
  split_and!; [split|..].
  - apply path_lengths.
    apply lpath_split in Hpath as (Hp1 & [Hl1 Hl2] & Hp2). eapply path_changes; [exact H24|done|..]; try done.
    + intros x Hx _. unfold only. by rewrite !(decide_False (P := x = e)) by set_solver.
    + intros x Hx _. unfold only. by rewrite !(decide_False (P := x = e)) by set_solver.
    + pose proof (before_elem l xs1). pose proof (after_elem l xs2).
      split; [rewrite (ch_next _ _ _ _ _ H24)|rewrite (ch_prev _ _ _ _ _ H24)]; unfold only.
      * by rewrite !(decide_False (P := before l xs1 = e)) by set_solver.
      * by rewrite !(decide_False (P := after l xs2 = e)) by set_solver.
  - done.
  - intros x. change (get_list h4 x = Some (Some l) ↔ x ∈ l :: xs1 ++ xs2).
    rewrite (ch_list _ _ _ _ _ H14). unfold only. destruct (decide (x = e)) as [->|]; [split; done|].
    rewrite Hel. set_solver.
  - simpl. rewrite lookup_insert_eq, !length_app. simpl. f_equal. lia.
  - change (get_list h4 e = Some None). rewrite (ch_list _ _ _ _ _ H14). unfold only. by rewrite decide_True.
  - split; [apply (ch_Value _ _ _ _ _ H14)|apply (ch_load _ _ _ _ _ H14)].
  - intros x Hx. change (get_list h4 x = get_list h x). rewrite (ch_list _ _ _ _ _ H14). unfold only.
    by rewrite !decide_False.
Qed.

(** What [link_after] leaves: the cycle with [e] in the gap. *)
Lemma link_list h l xs1 e xs2 :
  path h (l :: (xs1 ++ xs2) ++ [l]) → NoDup (l :: xs1 ++ xs2) → (e ∉ l :: xs1 ++ xs2) →
  is_Some (load h e) → is_Some (load h (after l xs2)) →
  ∃ h' n p, link_after h e (before l xs1) = Some h' ∧ path h' (l :: (xs1 ++ e :: xs2) ++ [l]) ∧
    changes h h' n p (only e None).
Proof.
  intros Hp Hnd He Hle Hla. apply lpath_split in Hp as (Hp1 & [Hn Hpr] & Hp2).
  pose proof (before_elem l xs1) as Hb. pose proof (after_elem l xs2) as Ha.
  assert (e ≠ before l xs1) as Heb by (intros ->; set_solver).
  assert (e ≠ after l xs2) as Hea by (intros ->; set_solver).
  destruct (link_after_changes h e (before l xs1) (after l xs2)) as (h' & Hlink & Hc); try done.
  exists h'. eexists _, _. split; [done|]. split; [|exact Hc].
  destruct (path_gap h h' l xs1 xs2) as [H1 H2]; try done.
  { intros x Hx Hxb. rewrite (ch_next _ _ _ _ _ Hc). unfold only.
    rewrite (decide_False (P := x = before l xs1)) by done.
    by rewrite (decide_False (P := x = e)) by (intros ->; done). }
  { intros x Hx Hxb. rewrite (ch_prev _ _ _ _ _ Hc). unfold only.
    rewrite (decide_False (P := x = after l xs2)) by done.
    by rewrite (decide_False (P := x = e)) by (intros ->; done). }
  assert (linked h' (before l xs1) e ∧ linked h' e (after l xs2)) as [Hbe Hea'].
  { unfold linked. rewrite !(ch_next _ _ _ _ _ Hc), !(ch_prev _ _ _ _ _ Hc). unfold only.
    rewrite (decide_False (P := e = before l xs1)), (decide_False (P := e = after l xs2)) by done.
    by rewrite !decide_True. }
  apply lpath_split. split_and!; [done|done|]. by destruct xs2.
Qed.

Lemma insertAfter_spec h l xs1 e xs2 :
  is_list h l (xs1 ++ xs2) → get_list h e = Some None →
  ∃ h', insertAfter h l e (before l xs1) = Some h' ∧ is_list h' l (xs1 ++ e :: xs2) ∧
    same_values h h' ∧ (∀ x, x ≠ e → get_list h' x = get_list h x).
Proof.
  intros Hl He. pose proof Hl as [Hp Hnd Hel Hlen].
  assert (e ∉ l :: xs1 ++ xs2) as Hnin by (intros Hin%Hel; congruence).
  pose proof (get_list_load _ _ _ He) as Hle. pose proof (after_elem l xs2).
  destruct (link_list h l xs1 e xs2) as (h1 & n & p & Hlink & Hp1 & H1); try done.
  { eapply is_list_load; [done|set_solver]. }
  unfold insertAfter. rewrite He. simpl. rewrite Hlink. simpl.
  destruct (set_list_changes h1 e (Some l)) as (h2 & -> & H2); [by apply (ch_load _ _ _ _ _ H1)|]. simpl.
  pose proof (changes_trans _ _ _ _ _ _ _ _ _ H1 H2) as H12.
  unfold add_length. rewrite (ch_lengths _ _ _ _ _ H12), Hlen. simpl. eexists. split; [done|].
  split_and!; [split|..].
  - apply path_lengths. eapply (path_changes h1 h2 l [] (xs1 ++ e :: xs2)); [exact H2|..].
    + simpl. apply NoDup_cons in Hnd as [??]. apply NoDup_cons. split; [set_solver|].
      rewrite <- Permutation_middle. apply NoDup_cons. split; [set_solver|done].
    + intros x _ _. unfold only. by destruct (decide _).
    + intros x _ _. unfold only. by destruct (decide _).
    + done.
    + apply (lpath_split h1 l []) in Hp1. apply Hp1.
    + apply (lpath_split h1 l []) in Hp1 as (_ & [??] & _).
      split; [rewrite (ch_next _ _ _ _ _ H2)|rewrite (ch_prev _ _ _ _ _ H2)]; unfold only; by destruct (decide _).
  - apply NoDup_cons in Hnd as [??]. apply NoDup_cons. split; [set_solver|].
    rewrite <- Permutation_middle. apply NoDup_cons. split; [set_solver|done].
  - intros x. change (get_list h2 x = Some (Some l) ↔ x ∈ l :: xs1 ++ e :: xs2).
    rewrite (ch_list _ _ _ _ _ H12). unfold only. destruct (decide (x = e)) as [->|]; [split; [set_solver|done]|].
    rewrite Hel. set_solver.
  - simpl. rewrite lookup_insert_eq, !length_app. simpl. f_equal. lia.
  - split; [apply (ch_Value _ _ _ _ _ H12)|apply (ch_load _ _ _ _ _ H12)].
  - intros x Hx. change (get_list h2 x = get_list h x). rewrite (ch_list _ _ _ _ _ H12). unfold only.
    by rewrite !decide_False.
Qed.

Lemma moveAfter_spec h l xs1 e xs2 ys1 ys2 :
  is_list h l (xs1 ++ e :: xs2) → xs1 ++ xs2 = ys1 ++ ys2 →
  ∃ h', moveAfter h l e (before l ys1) = Some h' ∧ is_list h' l (ys1 ++ e :: ys2) ∧
    same_values h h' ∧ (∀ x, get_list h' x = get_list h x).
Proof.
  intros Hl Hys. pose proof Hl as [_ Hnd0 Hel Hlen].
  destruct (is_list_around _ _ _ _ _ Hl) as (_ & _ & _ & _ & Hnd & He & _ & _).
  destruct (unlink_list _ _ _ _ _ Hl) as (h1 & Hu & Hp & H1). rewrite Hys in *.
  pose proof (before_elem l ys1) as Hb. pose proof (after_elem l ys2) as Ha.
  assert (is_Some (load h e)) by (eapply is_list_load; [done|set_solver]).
  assert (∀ x, x ∈ l :: xs1 ++ e :: xs2 ↔ x ∈ l :: ys1 ++ e :: ys2) as Hin.
  { intros x. rewrite !elem_of_cons, !elem_of_app, !elem_of_cons.
    assert (x ∈ xs1 ++ xs2 ↔ x ∈ ys1 ++ ys2) as Hx by (by rewrite Hys). rewrite !elem_of_app in Hx. tauto. }
  destruct (link_list h1 l ys1 e ys2) as (h2 & n & p & Hlink & Hp2 & H2); try done.
  { by apply (ch_load _ _ _ _ _ H1). }
  { apply (ch_load _ _ _ _ _ H1). eapply is_list_load; [done|]. apply Hin. set_solver. }
  pose proof (changes_trans _ _ _ _ _ _ _ _ _ H1 H2) as H12.
  assert (∀ x, get_list h2 x = get_list h x) as Hlist.
  { intros x. rewrite (ch_list _ _ _ _ _ H12). unfold only. by destruct (decide _). }
  exists h2. split.
  - unfold moveAfter. rewrite (proj2 (Hel e)) by set_solver. simpl. rewrite decide_False by tauto.
    rewrite (proj2 (Hel (before l ys1))) by (apply Hin; set_solver). simpl.
    rewrite decide_False by (intros [?| ->]; [done|set_solver]). by rewrite Hu.
  - split; [split|split; [split|done]].
    + done.
    + apply NoDup_cons in Hnd as [??]. apply NoDup_cons. split; [set_solver|].
      rewrite <- Permutation_middle. apply NoDup_cons. split; [set_solver|done].
    + intros x. by rewrite Hlist, Hel.
    + rewrite (ch_lengths _ _ _ _ _ H12), Hlen. f_equal. apply (f_equal length) in Hys.
      rewrite !length_app in *. simpl. lia.
    + apply (ch_Value _ _ _ _ _ H12).
    + apply (ch_load _ _ _ _ _ H12).
Qed.

(** ** The list as a sequence *)

Inductive list_op : Type :=
| OpPushFront (e : loc)
| OpPushBack (e : loc)
| OpInsertBefore (e location : loc)
| OpInsertAfter (e location : loc)
| OpMoveToFront (e : loc)
| OpMoveToBack (e : loc)
| OpMoveBefore (e location : loc)
| OpMoveAfter (e location : loc)
| OpRemove (e : loc).

Definition run_op h l (op : list_op) : option (lheap T) :=
  match op with
  | OpPushFront e => PushFront h l e
  | OpPushBack e => PushBack h l e
  | OpInsertBefore e location => InsertBefore h l e location
  | OpInsertAfter e location => InsertAfter h l e location
  | OpMoveToFront e => MoveToFront h l e
  | OpMoveToBack e => MoveToBack h l e
  | OpMoveBefore e location => MoveBefore h l e location
  | OpMoveAfter e location => MoveAfter h l e location
  | OpRemove e => Remove h l e
  end.

Definition without (e : loc) (xs : list loc) : list loc := filter (λ x, x ≠ e) xs.

Fixpoint put_before (e location : loc) (xs : list loc) : list loc :=
  match xs with
  | [] => []
  | x :: xs => if decide (x = location) then e :: x :: xs else x :: put_before e location xs
  end.

Fixpoint put_after (e location : loc) (xs : list loc) : list loc :=
  match xs with
  | [] => []
  | x :: xs => if decide (x = location) then x :: e :: xs else x :: put_after e location xs
  end.

(** What each operation does to the sequence, with the cases in which its comment
    says that the list is not modified. *)
Definition abs_op (xs : list loc) (op : list_op) : list loc :=
  match op with
  | OpPushFront e => if decide (e ∈ xs) then xs else e :: xs
  | OpPushBack e => if decide (e ∈ xs) then xs else xs ++ [e]
  | OpInsertBefore e location =>
      if decide (location ∈ xs ∧ e ∉ xs) then put_before e location xs else xs
  | OpInsertAfter e location =>
      if decide (location ∈ xs ∧ e ∉ xs) then put_after e location xs else xs
  | OpMoveToFront e => if decide (e ∈ xs) then e :: without e xs else xs
  | OpMoveToBack e => if decide (e ∈ xs) then without e xs ++ [e] else xs
  | OpMoveBefore e location =>
      if decide (e ∈ xs ∧ location ∈ xs ∧ e ≠ location)
      then put_before e location (without e xs) else xs
  | OpMoveAfter e location =>
      if decide (e ∈ xs ∧ location ∈ xs ∧ e ≠ location)
      then put_after e location (without e xs) else xs
  | OpRemove e => without e xs
  end.

(** An element that is in the list at [l] or in none. *)
Definition known h l e : Prop :=
  e ≠ l ∧ (get_list h e = Some (Some l) ∨ get_list h e = Some None).

Definition op_known h l (op : list_op) : Prop :=
  match op with
  | OpPushFront e | OpPushBack e | OpMoveToFront e | OpMoveToBack e | OpRemove e => known h l e
  | OpInsertBefore e location | OpInsertAfter e location | OpMoveAfter e location =>
      known h l e ∧ known h l location
  | OpMoveBefore e location => known h l e ∧ location ≠ l ∧ get_list h location = Some (Some l)
  end.

Lemma without_id e xs : (e ∉ xs) → without e xs = xs.
Proof.
  induction xs as [|x xs IH]; [done|]. intros He. unfold without in *.
  rewrite filter_cons_True by set_solver. by rewrite IH by set_solver.
Qed.

Lemma without_split e xs1 xs2 :
  NoDup (xs1 ++ e :: xs2) → without e (xs1 ++ e :: xs2) = xs1 ++ xs2.
Proof.
  intros Hnd. rewrite <- Permutation_middle in Hnd. apply NoDup_cons in Hnd as [Hx _]. unfold without.
  rewrite filter_app, filter_cons_False by tauto. f_equal; apply without_id; set_solver.
Qed.

Lemma put_before_split e location xs1 xs2 :
  location ∉ xs1 → put_before e location (xs1 ++ location :: xs2) = xs1 ++ e :: location :: xs2.
Proof.
  induction xs1 as [|x xs1 IH]; simpl; intros H; [by rewrite decide_True|].
  rewrite decide_False by set_solver. by rewrite IH by set_solver.
Qed.

Lemma put_after_split e location xs1 xs2 :
  location ∉ xs1 → put_after e location (xs1 ++ location :: xs2) = xs1 ++ location :: e :: xs2.
Proof.
  induction xs1 as [|x xs1 IH]; simpl; intros H; [by rewrite decide_True|].
  rewrite decide_False by set_solver. by rewrite IH by set_solver.
Qed.

Lemma before_snoc l xs x : before l (xs ++ [x]) = x.
Proof. unfold before. by rewrite last_snoc. Qed.

(** ** Every operation refines its effect on the sequence *)

Record op_result h l h' (xs' : list loc) : Prop := {
  or_list : is_list h' l xs';
  or_values : same_values h h';
  or_known x : known h l x → known h' l x;
}.

Lemma op_result_refl h l xs : is_list h l xs → op_result h l h xs.
Proof. by split; [|split|]. Qed.

Lemma known_elem h l xs e : is_list h l xs → known h l e →
  (e ∈ xs ∧ get_list h e = Some (Some l)) ∨ ((e ∉ xs) ∧ get_list h e = Some None).
Proof.
  intros Hl [Hne He]. pose proof (il_list _ _ _ Hl e) as Hel. rewrite elem_of_cons in Hel.
  destruct He as [He|He]; [left; tauto|right]. split; [|done]. intros Hin. rewrite He in Hel. naive_solver.
Qed.

Lemma insert_op h l xs1 xs2 e :
  is_list h l (xs1 ++ xs2) → known h l e →
  ∃ h', insertAfter h l e (before l xs1) = Some h' ∧
    op_result h l h' (if decide (e ∈ xs1 ++ xs2) then xs1 ++ xs2 else xs1 ++ e :: xs2).
Proof.
  intros Hl Hk. destruct (known_elem _ _ _ _ Hl Hk) as [[Hin Hg]|[Hnin Hg]].
  - exists h. rewrite decide_True by done. split; [|by apply op_result_refl].
    unfold insertAfter. by rewrite Hg.
  - rewrite decide_False by done. destruct (insertAfter_spec h l xs1 e xs2) as (h' & Hi & Hl' & Hv & Hx); [done..|].
    exists h'. split; [done|]. split; [done..|]. intros x [Hne Hx']. split; [done|].
    destruct (decide (x = e)) as [->|]; [|by rewrite Hx].
    left. apply (il_list _ _ _ Hl'). set_solver.
Qed.

Lemma move_op h l xs1 e xs2 ys1 ys2 :
  is_list h l (xs1 ++ e :: xs2) → xs1 ++ xs2 = ys1 ++ ys2 →
  ∃ h', moveAfter h l e (before l ys1) = Some h' ∧ op_result h l h' (ys1 ++ e :: ys2).
Proof.
  intros Hl Hys. destruct (moveAfter_spec h l xs1 e xs2 ys1 ys2) as (h' & Hm & Hl' & Hv & Hx); [done..|].
  exists h'. split; [done|]. split; [done..|]. intros x [Hne Hx']. split; [done|]. by rewrite Hx.
Qed.

Lemma move_absent h l e location : get_list h e = Some None → moveAfter h l e location = Some h.
Proof. intros He. unfold moveAfter. by rewrite He. Qed.

Lemma is_list_prev h l xs : is_list h l xs → get_prev h l = Some (Some (before l xs)).
Proof.
  intros [Hp _ _ _]. rewrite <- (app_nil_r xs) in Hp. apply lpath_split in Hp as (_ & [_ Hp] & _). done.
Qed.

Lemma is_list_next h l xs : is_list h l xs → get_next h l = Some (Some (after l xs)).
Proof. intros [Hp _ _ _]. apply (lpath_split h l []) in Hp as (_ & [Hp _] & _). done. Qed.

Lemma elem_split_first (x : loc) xs : x ∈ xs → ∃ xs1 xs2, xs = xs1 ++ x :: xs2 ∧ x ∉ xs1.
Proof.
  intros Hx. apply list_elem_of_split in Hx as (xs1 & xs2 & ->). revert xs2.
  induction xs1 as [|y xs1 IH]; intros xs2; [exists [], xs2; set_solver|].
  destruct (decide (y = x)) as [->|]; [exists [], (xs1 ++ x :: xs2); set_solver|].
  destruct (IH xs2) as (ys1 & ys2 & Heq & ?). exists (y :: ys1), ys2. simpl. rewrite Heq. set_solver.
Qed.

Lemma push_op h l xs e (front : bool) :
  is_list h l xs → known h l e →
  ∃ h', run_op h l (if front then OpPushFront e else OpPushBack e) = Some h' ∧
    op_result h l h' (abs_op xs (if front then OpPushFront e else OpPushBack e)).
Proof.
  intros Hl Hk. destruct front; simpl.
  - apply (insert_op h l [] xs e Hl Hk).
  - unfold PushBack. rewrite (is_list_prev _ _ _ Hl). simpl.
    destruct (insert_op h l xs [] e) as (h' & Hi & Hr); [by rewrite app_nil_r|done|].
    rewrite app_nil_r in Hr. eauto.
Qed.

Lemma insert_at_op h l xs e location (is_before : bool) :
  is_list h l xs → known h l e → known h l location →
  ∃ h', run_op h l (if is_before then OpInsertBefore e location else OpInsertAfter e location) = Some h' ∧
    op_result h l h' (abs_op xs (if is_before then OpInsertBefore e location else OpInsertAfter e location)).
Proof.
  intros Hl Hk Hkl. destruct (known_elem _ _ _ _ Hl Hkl) as [[Hin Hg]|[Hnin Hg]]; last first.
  { exists h. destruct is_before; simpl; unfold InsertBefore, InsertAfter; rewrite Hg, decide_False by naive_solver;
      (split; [done|]); by apply op_result_refl. }
  destruct (elem_split_first _ _ Hin) as (xs1 & xs2 & -> & Hx1).
  destruct is_before; simpl; unfold InsertBefore, InsertAfter; rewrite Hg; simpl; rewrite decide_True by done.
  - destruct (is_list_around _ _ _ _ _ Hl) as ([_ Hp] & _). rewrite Hp. simpl.
    destruct (insert_op h l xs1 (location :: xs2) e Hl Hk) as (h' & -> & Hr). exists h'. split; [done|].
    rewrite put_before_split by done. case_decide; [rewrite decide_False by tauto; done|].
    by rewrite decide_True by tauto.
  - destruct (insert_op h l (xs1 ++ [location]) xs2 e) as (h' & Hi & Hr);
      [by rewrite <- app_assoc|done|]. rewrite before_snoc in Hi. exists h'. split; [done|].
    rewrite <- !app_assoc in Hr. simpl in Hr.
    rewrite put_after_split by done. case_decide; [rewrite decide_False by tauto; done|].
    by rewrite decide_True by tauto.
Qed.

Lemma move_end_op h l xs e (front : bool) :
  is_list h l xs → known h l e →
  ∃ h', run_op h l (if front then OpMoveToFront e else OpMoveToBack e) = Some h' ∧
    op_result h l h' (abs_op xs (if front then OpMoveToFront e else OpMoveToBack e)).
Proof.
  intros Hl Hk. destruct (known_elem _ _ _ _ Hl Hk) as [[Hin Hg]|[Hnin Hg]]; last first.
  { exists h. destruct front; simpl; unfold MoveToFront, MoveToBack;
      rewrite ?(is_list_next _ _ _ Hl), ?(is_list_prev _ _ _ Hl); simpl;
      rewrite ?move_absent by done; rewrite (decide_False (P := e ∈ xs)) by done;
      (split; [by try case_decide|by apply op_result_refl]). }
  destruct (elem_split_first _ _ Hin) as (xs1 & xs2 & -> & Hx1).
  pose proof (il_nodup _ _ _ Hl) as [_ Hnd]%NoDup_cons. simpl.
  destruct front; simpl; rewrite (decide_True (P := e ∈ _)) by done; rewrite without_split by done.
  - unfold MoveToFront. rewrite (is_list_next _ _ _ Hl). simpl.
    destruct xs1 as [|x xs1]; simpl.
    + rewrite decide_False by tauto. exists h. split; [done|by apply op_result_refl].
    + rewrite decide_True by (unfold after; simpl; intros [= ->]; set_solver).
      apply (move_op h l (x :: xs1) e xs2 [] ((x :: xs1) ++ xs2) Hl). done.
  - unfold MoveToBack. rewrite (is_list_prev _ _ _ Hl). simpl.
    destruct xs2 as [|x xs2] using rev_ind.
    + rewrite before_snoc, app_nil_r. exists h. split; [|by apply op_result_refl].
      unfold moveAfter. rewrite Hg. simpl. by rewrite decide_False, decide_True by tauto.
    + replace (before l (xs1 ++ e :: xs2 ++ [x])) with (before l (xs1 ++ xs2 ++ [x]));
        [apply (move_op h l xs1 e (xs2 ++ [x]) (xs1 ++ xs2 ++ [x]) [] Hl); by rewrite app_nil_r|].
      by rewrite app_comm_cons, !app_assoc, !before_snoc.
Qed.

(** Taking out [e], which is neither [location] nor its left neighbour, leaves that
    neighbour in place. *)
Lemma without_around l e zs1 location zs2 :
  NoDup (zs1 ++ location :: zs2) → e ≠ location → e ≠ before l zs1 →
  without e (zs1 ++ location :: zs2) = without e zs1 ++ location :: without e zs2 ∧
  before l (without e zs1) = before l zs1.
Proof.
  intros Hnd Hne Hb. split; [unfold without; by rewrite filter_app, filter_cons_True by done|].
  destruct zs1 as [|z zs1] using rev_ind; [done|]. rewrite before_snoc in *. unfold without.
  rewrite filter_app, filter_cons_True by done. apply before_snoc.
Qed.

Lemma move_at_op h l xs e location (is_before : bool) :
  is_list h l xs → known h l e → known h l location → (is_before = true → location ∈ xs) →
  ∃ h', run_op h l (if is_before then OpMoveBefore e location else OpMoveAfter e location) = Some h' ∧
    op_result h l h' (abs_op xs (if is_before then OpMoveBefore e location else OpMoveAfter e location)).
Proof.
  intros Hl Hk Hkl Hb. pose proof (il_nodup _ _ _ Hl) as [_ Hnd]%NoDup_cons.
  destruct (known_elem _ _ _ _ Hl Hk) as [[Hin Hg]|[Hnin Hg]]; last first.
  { exists h. split; [|destruct is_before; simpl; rewrite decide_False by tauto; by apply op_result_refl].
    destruct is_before; simpl; [|by apply move_absent]. unfold MoveBefore. case_decide; [|done].
    destruct (elem_split_first _ _ (Hb eq_refl)) as (xs1 & xs2 & -> & _).
    destruct (is_list_around _ _ _ _ _ Hl) as ([_ Hp] & _). rewrite Hp. simpl. by apply move_absent. }
  destruct (decide (e = location)) as [->|Hne].
  { exists h. split; [|destruct is_before; simpl; rewrite decide_False by tauto; by apply op_result_refl].
    destruct is_before; simpl; [unfold MoveBefore; by rewrite decide_False by tauto|].
    unfold MoveAfter, moveAfter. rewrite Hg. simpl. by rewrite decide_False, decide_True by tauto. }
  destruct (known_elem _ _ _ _ Hl Hkl) as [[Hinl Hgl]|[Hninl Hgl]]; last first.
  { destruct is_before; [by destruct Hninl; auto|]. exists h. simpl. rewrite decide_False by tauto.
    split; [|by apply op_result_refl]. unfold MoveAfter, moveAfter. rewrite Hg. simpl.
    rewrite decide_False by tauto. by rewrite Hgl. }
  destruct (list_elem_of_split _ _ Hin) as (xs1 & xs2 & Hxs).
  destruct (elem_split_first _ _ Hinl) as (zs1 & zs2 & Hzs & Hz1).
  pose proof Hnd as Hndx. rewrite Hxs in Hndx. apply without_split in Hndx as Hw.
  destruct is_before; simpl; rewrite (decide_True (P := _ ∧ _)) by done.
  - unfold MoveBefore. rewrite decide_True by done.
    rewrite Hzs in Hl. destruct (is_list_around _ _ _ _ _ Hl) as ([_ Hp] & _). rewrite Hp. simpl.
    rewrite <- Hzs in Hl. destruct (decide (e = before l zs1)) as [Heb|Hneb].
    + exists h. rewrite <- Heb. split.
      { unfold moveAfter. rewrite Hg. simpl. by rewrite decide_False, decide_True by tauto. }
      destruct zs1 as [|z zs1] using rev_ind; [by destruct Hk as [? _]|]. rewrite before_snoc in Heb. subst z.
      rewrite <- app_assoc in Hzs. cbn [app] in Hzs. rewrite Hzs in Hnd, Hl |- *.
      rewrite without_split by done. rewrite put_before_split by set_solver. by apply op_result_refl.
    + rewrite Hzs in Hnd |- *. destruct (without_around l e zs1 location zs2 Hnd Hne Hneb) as [Hwz Hbz].
      rewrite Hwz, <- Hbz, put_before_split by (unfold without; rewrite list_elem_of_filter; tauto).
      rewrite Hxs in Hl. apply (move_op h l xs1 e xs2 _ (location :: without e zs2) Hl).
      by rewrite <- Hw, <- Hxs, Hzs.
  - rewrite Hzs in Hnd |- *. assert (location ∉ without e zs1) by (unfold without; rewrite list_elem_of_filter; tauto).
    assert (without e (zs1 ++ location :: zs2) = without e zs1 ++ location :: without e zs2) as Hwz.
    { unfold without. by rewrite filter_app, filter_cons_True by done. }
    rewrite Hwz, put_after_split by done. rewrite Hxs in Hl.
    destruct (move_op h l xs1 e xs2 (without e zs1 ++ [location]) (without e zs2) Hl) as (h' & Hm & Hr).
    { rewrite <- Hw, <- Hxs, Hzs, Hwz. by rewrite <- app_assoc. }
    rewrite before_snoc in Hm. rewrite <- app_assoc in Hr. eauto.
Qed.

Lemma remove_op h l xs e :
  is_list h l xs → known h l e →
  ∃ h', run_op h l (OpRemove e) = Some h' ∧ op_result h l h' (abs_op xs (OpRemove e)).
Proof.
  intros Hl Hk. pose proof (il_nodup _ _ _ Hl) as [_ Hnd]%NoDup_cons. simpl.
  destruct (known_elem _ _ _ _ Hl Hk) as [[Hin Hg]|[Hnin Hg]].
  - apply list_elem_of_split in Hin as (xs1 & xs2 & ->). rewrite without_split by done.
    destruct (Remove_spec _ _ _ _ _ Hl) as (h' & -> & Hl' & He & Hv & Hx). exists h'. split; [done|].
    split; [done..|]. intros x [Hne Hkx]. split; [done|].
    destruct (decide (x = e)) as [->|]; [by right|by rewrite Hx].
  - exists h. rewrite without_id by done. split; [|by apply op_result_refl].
    unfold Remove. by rewrite Hg.
Qed.

(** ** Theorems *)

(** Every operation of a linked list, through its pointer assignments, has on
    the sequence of elements the effect its comment describes (including the
    cases in which it must not modify the list), keeps the list well-formed and
    its length right, changes no value, and never dereferences nil.  In
    [MoveBefore] the location must be in the list. *)
Theorem list_op_refines h l xs op :
  is_list h l xs → op_known h l op →
  ∃ h', run_op h l op = Some h' ∧ op_result h l h' (abs_op xs op).
Proof.
  intros Hl Hop. destruct op as [e|e|e p|e p|e|e|e p|e p|e]; simpl in Hop.
  - by apply (push_op h l xs e true).
  - by apply (push_op h l xs e false).
  - destruct Hop. by apply (insert_at_op h l xs e p true).
  - destruct Hop. by apply (insert_at_op h l xs e p false).
  - by apply (move_end_op h l xs e true).
  - by apply (move_end_op h l xs e false).
  - destruct Hop as (Hk & Hne & Hg). apply (move_at_op h l xs e p true); [done..|by split; [|left]|].
    intros _. apply (il_list _ _ _ Hl), elem_of_cons in Hg. naive_solver.
  - apply (move_at_op h l xs e p false); [done|tauto..|done].
  - by apply remove_op.
Qed.

(** C40: the comment of [MoveBefore] says that the list is not modified when one of
    the elements is not in the list; when the location is in no list, moving an
    element of the list dereferences a nil pointer instead. *)
Theorem MoveBefore_detached h l xs e location v :
  is_list h l xs → e ∈ xs → load h location = Some (mkElement None None None v) →
  MoveBefore h l e location = None.
Proof.
  intros Hl He Hv. assert (get_list h e = Some (Some l)) as Hg by (apply (il_list _ _ _ Hl); set_solver).
  unfold MoveBefore, get_prev. rewrite Hv. simpl. rewrite Hg. simpl.
  rewrite decide_True; [by rewrite decide_False by tauto|].
  intros ->. unfold get_list in Hg. by rewrite Hv in Hg.
Qed.
End LinkedList.

(** A fresh list is empty. *)
Lemma NewList_is_list {T} (zero : T) h l :
  (∀ e, get_list h e ≠ Some (Some l)) → is_list (NewList zero h l) l [].
Proof.
  intros Hnone. split; unfold NewList, linked, get_next, get_prev, get_list, load in *; simpl.
  - unfold linked, get_next, get_prev, load. simpl. by rewrite lookup_insert_eq.
  - apply NoDup_singleton.
  - intros e. rewrite list_elem_of_singleton. destruct (decide (e = l)) as [->|].
    + by rewrite lookup_insert_eq.
    + rewrite lookup_insert_ne by done. split; [intros []%Hnone|done].
  - by rewrite lookup_insert_eq.
Qed.

(** A list at [1] and two elements in no list, [2] and [3]. *)
Definition demo_heap : lheap Z :=
  NewElement 30 (NewElement 20 (NewList 0 (mkHeap ∅ ∅) 1%nat) 2%nat) 3%nat.

Lemma demo_heap_ok : is_list demo_heap 1%nat [].
Proof.
  split; [done|apply NoDup_singleton| |done]. intros e. rewrite list_elem_of_singleton.
  unfold demo_heap, NewElement, NewList, get_list, load. simpl.
  destruct (decide (e = 3%nat)) as [->|]; [by rewrite lookup_insert_eq|rewrite lookup_insert_ne by done].
  destruct (decide (e = 2%nat)) as [->|]; [by rewrite lookup_insert_eq|rewrite lookup_insert_ne by done].
  destruct (decide (e = 1%nat)) as [->|]; [by rewrite lookup_insert_eq|rewrite lookup_insert_ne by done].
  by rewrite lookup_empty.
Qed.

Lemma list_op_refines_witness :
  ∃ h, PushBack demo_heap 1%nat 2%nat = Some h ∧ is_list h 1%nat [2%nat].
Proof.
  destruct (list_op_refines demo_heap 1%nat [] (OpPushBack 2%nat) demo_heap_ok) as (h & Hr & Ho).
  { split; [done|by right]. }
  exists h. split; [exact Hr|exact (or_list _ _ _ _ Ho)].
Defined.

Lemma MoveBefore_detached_witness :
  ∃ h, PushBack demo_heap 1%nat 2%nat = Some h ∧ MoveBefore h 1%nat 2%nat 3%nat = None.
Proof.
  destruct (insertAfter_spec demo_heap 1%nat [] 2%nat [] demo_heap_ok eq_refl) as (h & Hi & Hl & _).
  exists h. split; [exact Hi|].
  apply (MoveBefore_detached h 1%nat [2%nat] 2%nat 3%nat 30 Hl); [set_solver|].
  vm_compute in Hi. injection Hi as <-. reflexivity.
Defined.
