(* ===== verification/LinkedHashmap.v ===== *)
(** * Insertion-ordered hash maps (package [utils/linked], [hashmap.go])

    A map from keys to elements of a linked list that holds the entries, oldest
    first, with a list of free elements for reuse.  The abstraction of a map is
    the list of its entries in insertion order. *)
From S2P Require Import Prelude LinkedList.

Section Hashmap.
Context `{Countable K} {V : Type} `{!MapRange K} (zeroK : K) (zeroV : V).

Record Hashmap : Type := mkHashmap {
  entryMap : gmap K loc;
  entryList : loc;
  freeList : list loc;
  hm_heap : lheap (K * V);
}.
Implicit Types lh : Hashmap.

Definition zeroKV : K * V := (zeroK, zeroV).

(** A location that is not in use. *)
Definition alloc (h : lheap (K * V)) : loc := fresh (dom (elements h)).

(** [NewHashmapWithSize] *)
Definition NewHashmapWithSize (initialSize : nat) : Hashmap :=
  let l := 0%nat in
  let frees := seq 1 initialSize in
  mkHashmap ∅ l frees (foldl (λ h e, NewElement zeroKV h e) (NewList zeroKV (mkHeap ∅ ∅) l) frees).

(** [NewHashmap] *)
Definition NewHashmap : Hashmap := NewHashmapWithSize 0.

(** [Put]; [None] is a nil dereference, here and below. *)
Definition Put lh (key : K) (value : V) : option Hashmap :=
  match entryMap lh !! key with
  | Some e =>
      h ← MoveToBack (hm_heap lh) (entryList lh) e;
      h ← set_Value h e (key, value);
      Some (mkHashmap (entryMap lh) (entryList lh) (freeList lh) h)
  | None =>
      let '(e, frees, h) :=
        match last (freeList lh) with
        | Some e => (e, take (length (freeList lh) - 1) (freeList lh), hm_heap lh)
        | None => let e := alloc (hm_heap lh) in (e, freeList lh, NewElement zeroKV (hm_heap lh) e)
        end in
      h ← set_Value h e (key, value);
      h ← PushBack h (entryList lh) e;
      Some (mkHashmap (<[key := e]> (entryMap lh)) (entryList lh) frees h)
  end.

(** [Get]: whether the key is present, and its value. *)
Definition Get lh (key : K) : option (option V) :=
  match entryMap lh !! key with
  | Some e => kv ← get_Value (hm_heap lh) e; Some (Some kv.2)
  | None => Some None
  end.

(** [remove] *)
Definition hm_remove lh (e : loc) : option Hashmap :=
  kv ← get_Value (hm_heap lh) e;
  h ← Remove (hm_heap lh) (entryList lh) e;
  h ← set_Value h e zeroKV;
  Some (mkHashmap (delete kv.1 (entryMap lh)) (entryList lh) (freeList lh ++ [e]) h).

(** [Delete] *)
Definition Delete lh (key : K) : option (Hashmap * bool) :=
  match entryMap lh !! key with
  | Some e => lh ← hm_remove lh e; Some (lh, true)
  | None => Some (lh, false)
  end.

(** [Clear] *)
Definition Clear lh : option Hashmap :=
  foldl (λ acc '(_, e), lh ← acc; hm_remove lh e) (Some lh) (map_range (entryMap lh)).

Definition hm_Len lh : Z := Z.of_nat (base.size (entryMap lh)).

(** [Oldest] and [Newest] *)
Definition Oldest lh : option (option (K * V)) :=
  e ← Front (hm_heap lh) (entryList lh);
  match e with Some e => kv ← get_Value (hm_heap lh) e; Some (Some kv) | None => Some None end.

Definition Newest lh : option (option (K * V)) :=
  e ← Back (hm_heap lh) (entryList lh);
  match e with Some e => kv ← get_Value (hm_heap lh) e; Some (Some kv) | None => Some None end.

(** ** Iterators *)

Record Iterator : Type := mkIterator {
  it_key : K;
  it_value : V;
  it_next : option loc;
  it_initialized : bool;
  it_exhausted : bool;
}.

Definition NewIterator : Iterator := mkIterator zeroK zeroV None false false.

(** The end of [Iterator.Next]: the current entry is the one at [next]. *)
Definition it_advance lh (it : Iterator) (next : option loc) : option (Iterator * bool) :=
  e ← next;
  kv ← get_Value (hm_heap lh) e;
  n ← Next (hm_heap lh) e;
  Some (mkIterator kv.1 kv.2 n true (match n with None => true | Some _ => false end), true).

(** [Iterator.Next]; the iterator's map is passed at each call. *)
Definition it_Next lh (it : Iterator) : option (Iterator * bool) :=
  if it_exhausted it then Some (mkIterator zeroK zeroV None (it_initialized it) true, false)
  else if it_initialized it then it_advance lh it (it_next it)
  else
    oldest ← Front (hm_heap lh) (entryList lh);
    match oldest with
    | None => Some (mkIterator zeroK zeroV None true true, false)
    | Some e => it_advance lh it (Some e)
    end.

(** ** The abstraction *)

(** The map holds the entries [kvs], from the oldest. *)
Record represents lh (xs : list loc) (kvs : list (K * V)) : Prop := {
  rp_list : is_list (hm_heap lh) (entryList lh) xs;
  rp_values : Forall2 (λ e kv, get_Value (hm_heap lh) e = Some kv) xs kvs;
  rp_keys : NoDup kvs.*1;
  rp_map k e : entryMap lh !! k = Some e ↔ (k, e) ∈ zip kvs.*1 xs;
  rp_free : Forall (λ e, get_list (hm_heap lh) e = Some None) (freeList lh);
  rp_free_nodup : NoDup (freeList lh);
}.

Definition hm_entries lh (kvs : list (K * V)) : Prop := ∃ xs, represents lh xs kvs.

(** Abstract operations. *)
Definition drop_key (key : K) (kvs : list (K * V)) : list (K * V) := filter (λ kv, kv.1 ≠ key) kvs.
Definition put_entry (key : K) (value : V) (kvs : list (K * V)) : list (K * V) :=
  drop_key key kvs ++ [(key, value)].
Definition find_key (key : K) (kvs : list (K * V)) : option V := (list_to_map kvs : gmap K V) !! key.

(** ** Lemmas on the abstraction *)

Lemma represents_length lh xs kvs : represents lh xs kvs → length xs = length kvs.
Proof. intros Hr. by eapply Forall2_length, rp_values. Qed.

(** The entry of a key in the map, the list and the abstraction. *)
Lemma represents_lookup lh xs kvs key e :
  represents lh xs kvs → entryMap lh !! key = Some e →
  ∃ xs1 xs2 kvs1 kvs2 v, xs = xs1 ++ e :: xs2 ∧ kvs = kvs1 ++ (key, v) :: kvs2 ∧
    length xs1 = length kvs1 ∧ get_Value (hm_heap lh) e = Some (key, v) ∧ (key ∉ kvs1.*1) ∧ (key ∉ kvs2.*1).
Proof.
  intros Hr Hk. pose proof (represents_length _ _ _ Hr) as Hlen. rewrite (rp_map _ _ _ Hr) in Hk.
  apply list_elem_of_lookup in Hk as [i Hi].
  apply lookup_zip_Some in Hi as [Hki Hei]. apply list_lookup_fmap_Some in Hki as ([k v] & ? & Hkv).
  simpl in *; subst k. pose proof (Forall2_lookup_lr _ _ _ _ _ _ (rp_values _ _ _ Hr) Hei Hkv) as Hv.
  exists (take i xs), (drop (S i) xs), (take i kvs), (drop (S i) kvs), v.
  rewrite !take_drop_middle by done. split_and!; try done.
  - rewrite !length_take. lia.
  - pose proof (rp_keys _ _ _ Hr) as Hnd. rewrite <- (take_drop_middle kvs i (key, v)) in Hnd by done.
    rewrite fmap_app in Hnd. apply NoDup_app in Hnd as (_ & Hnd & _). intros Hin. apply (Hnd _ Hin). simpl. set_solver.
  - pose proof (rp_keys _ _ _ Hr) as Hnd. rewrite <- (take_drop_middle kvs i (key, v)) in Hnd by done.
    rewrite fmap_app in Hnd. apply NoDup_app in Hnd as (_ & _ & Hnd). simpl in Hnd. by apply NoDup_cons in Hnd as [? _].
Qed.

Lemma represents_absent lh xs kvs key :
  represents lh xs kvs → entryMap lh !! key = None → key ∉ kvs.*1.
Proof.
  intros Hr Hk [i Hi]%list_elem_of_lookup. pose proof (represents_length _ _ _ Hr) as Hlen.
  pose proof (lookup_lt_Some _ _ _ Hi) as Hlt. rewrite length_fmap in Hlt.
  destruct (lookup_lt_is_Some_2 xs i) as [e He]; [lia|].
  assert (entryMap lh !! key = Some e); [|congruence].
  apply (rp_map _ _ _ Hr), list_elem_of_lookup. exists i. by apply lookup_zip_Some.
Qed.

Lemma drop_key_absent key kvs : key ∉ kvs.*1 → drop_key key kvs = kvs.
Proof.
  induction kvs as [|[k v] kvs IH]; [done|]. intros Hk. unfold drop_key in *.
  rewrite filter_cons_True by set_solver. by rewrite IH by set_solver.
Qed.

Lemma drop_key_split key v kvs1 kvs2 :
  key ∉ kvs1.*1 → key ∉ kvs2.*1 → drop_key key (kvs1 ++ (key, v) :: kvs2) = kvs1 ++ kvs2.
Proof.
  intros H1 H2. unfold drop_key. rewrite filter_app, filter_cons_False by naive_solver.
  f_equal; by apply drop_key_absent.
Qed.

Lemma find_key_None key kvs : find_key key kvs = None ↔ key ∉ kvs.*1.
Proof. unfold find_key. split; [apply not_elem_of_list_to_map_2|apply not_elem_of_list_to_map_1]. Qed.

Lemma find_key_in key kvs v : find_key key kvs = Some v → (key, v) ∈ kvs.
Proof. unfold find_key. apply elem_of_list_to_map_2. Qed.

Lemma find_key_Some key v kvs : find_key key kvs = Some v → ∃ kvs1 kvs2, kvs = kvs1 ++ (key, v) :: kvs2.
Proof. intros Hk%find_key_in. by apply list_elem_of_split. Qed.

(** Changing the value of an element changes no pointer. *)
Lemma set_Value_spec (h : lheap (K * V)) e kv :
  is_Some (load h e) → ∃ h', set_Value h e kv = Some h' ∧
    (∀ x, get_Value h' x = if decide (x = e) then Some kv else get_Value h x) ∧
    (∀ x, get_next h' x = get_next h x) ∧ (∀ x, get_prev h' x = get_prev h x) ∧
    (∀ x, get_list h' x = get_list h x) ∧ lengths h' = lengths h.
Proof.
  intros Hl. unfold set_Value. destruct (store_load (λ x, mkElement (el_next x) (el_prev x) (el_list x) kv) h e Hl)
    as (h' & v & Hv & Hs & Hlen & Hload). exists h'. split; [done|].
  split_and!; [..|done]; intros x; unfold get_Value, get_next, get_prev, get_list;
    rewrite Hload; case_decide; subst; rewrite ?Hv; done.
Qed.

Lemma path_agree (h h' : lheap (K * V)) xs :
  (∀ x, x ∈ xs → get_next h' x = get_next h x ∧ get_prev h' x = get_prev h x) → path h xs → path h' xs.
Proof.
  intros Hx. induction xs as [|x [|y xs] IH]; [done..|]. intros [[Hn Hp] Hpath].
  split; [|apply IH; [intros z Hz; apply Hx; set_solver|done]].
  split; [rewrite (proj1 (Hx x ltac:(set_solver)))|rewrite (proj2 (Hx y ltac:(set_solver)))]; done.
Qed.

Lemma is_list_ext (h h' : lheap (K * V)) l xs :
  (∀ x, get_next h' x = get_next h x) → (∀ x, get_prev h' x = get_prev h x) →
  (∀ x, get_list h' x = get_list h x) → lengths h' = lengths h → is_list h l xs → is_list h' l xs.
Proof.
  intros Hn Hp Hq Hlen [? ? Hel ?]. split; [by apply (path_agree h)|done| |by rewrite Hlen].
  intros e. by rewrite Hq.
Qed.

Lemma elem_of_zip_middle (ks1 ks2 : list K) (xs1 xs2 : list loc) k0 e0 k e :
  length xs1 = length ks1 →
  (k, e) ∈ zip (ks1 ++ k0 :: ks2) (xs1 ++ e0 :: xs2) ↔
  (k, e) = (k0, e0) ∨ (k, e) ∈ zip (ks1 ++ ks2) (xs1 ++ xs2).
Proof.
  intros Hlen. rewrite !zip_with_app by done. simpl. rewrite !elem_of_app, elem_of_cons. tauto.
Qed.

Lemma Get_spec lh xs kvs key : represents lh xs kvs → Get lh key = Some (find_key key kvs).
Proof.
  intros Hr. unfold Get, find_key. destruct (entryMap lh !! key) as [e|] eqn:Hk.
  - destruct (represents_lookup _ _ _ _ _ Hr Hk) as (xs1 & xs2 & kvs1 & kvs2 & v & -> & -> & _ & -> & H1 & H2).
    simpl. do 2 f_equal. symmetry. apply elem_of_list_to_map_1; [apply (rp_keys _ _ _ Hr)|set_solver].
  - f_equal. symmetry. by apply not_elem_of_list_to_map_1, (represents_absent lh xs).
Qed.

(** Taking an entry out of the list, as [Put] and [Delete] do first. *)
Lemma represents_middle lh xs1 e xs2 kvs1 key v kvs2 :
  represents lh (xs1 ++ e :: xs2) (kvs1 ++ (key, v) :: kvs2) → length xs1 = length kvs1 →
  Forall2 (λ x kv, get_Value (hm_heap lh) x = Some kv) (xs1 ++ xs2) (kvs1 ++ kvs2) ∧
  NoDup (key :: (kvs1 ++ kvs2).*1) ∧ (e ∉ xs1 ++ xs2) ∧ known (hm_heap lh) (entryList lh) e.
Proof.
  intros Hr Hlen. pose proof (rp_values _ _ _ Hr) as Hv.
  apply Forall2_app_inv in Hv as [Hv1 Hv2]; [|done]. inversion Hv2; subst.
  pose proof (rp_list _ _ _ Hr) as Hl. split_and!.
  - by apply Forall2_app.
  - pose proof (rp_keys _ _ _ Hr) as Hnd. rewrite fmap_app in *. simpl in Hnd.
    by rewrite <- Permutation_middle in Hnd.
  - pose proof (il_nodup _ _ _ Hl) as [_ Hnd]%NoDup_cons. rewrite <- Permutation_middle in Hnd.
    by apply NoDup_cons in Hnd as [? _].
  - pose proof (il_nodup _ _ _ Hl) as [Hnd _]%NoDup_cons. split; [intros ->; set_solver|].
    left. apply (il_list _ _ _ Hl). set_solver.
Qed.

Lemma Forall2_values (h h' : lheap (K * V)) xs kvs e :
  Forall2 (λ x kv, get_Value h x = Some kv) xs kvs → (e ∉ xs) →
  (∀ x, x ≠ e → get_Value h' x = get_Value h x) →
  Forall2 (λ x kv, get_Value h' x = Some kv) xs kvs.
Proof.
  intros Hv He Hx. induction Hv as [|x kv xs kvs Hx1 Hv IH]; [done|].
  constructor; [rewrite Hx; [done|set_solver]|apply IH; set_solver].
Qed.

(** Elements that an operation does not put in the list stay free. *)
Lemma free_preserved (h h' : lheap (K * V)) l xs xs' x :
  is_list h l xs → op_result h l h' xs' → get_list h x = Some None → (x ∉ xs') →
  get_list h' x = Some None.
Proof.
  intros Hl [Hl' _ Hk] Hx Hx'. assert (x ≠ l) as Hne.
  { intros ->. rewrite (proj2 (il_list _ _ _ Hl l)) in Hx by set_solver. done. }
  destruct (Hk x) as [_ [Hin|]]; [by split; [|right]| |done].
  apply (il_list _ _ _ Hl') in Hin. set_solver.
Qed.

Lemma free_not_in (h : lheap (K * V)) l xs x : is_list h l xs → get_list h x = Some None → x ∉ l :: xs.
Proof. intros Hl Hx Hin%(il_list _ _ _ Hl). congruence. Qed.

Lemma Put_existing lh xs kvs key e value :
  represents lh xs kvs → entryMap lh !! key = Some e →
  ∃ lh' xs', Put lh key value = Some lh' ∧ represents lh' xs' (put_entry key value kvs).
Proof.
  intros Hr Hk. unfold Put. rewrite Hk.
  destruct (represents_lookup _ _ _ _ _ Hr Hk) as (xs1 & xs2 & kvs1 & kvs2 & v & -> & -> & Hlen & _ & H1 & H2).
  destruct (represents_middle _ _ _ _ _ _ _ _ Hr Hlen) as (Hv & Hnd & He & Hkn).
  pose proof (rp_list _ _ _ Hr) as Hl. pose proof (il_nodup _ _ _ Hl) as [_ Hndx]%NoDup_cons.
  destruct (move_end_op _ _ _ e false Hl Hkn) as (h1 & Hm & [Hl1 [Hval1 Hload1] Hkn1]). simpl in Hm, Hl1.
  rewrite decide_True, without_split in Hl1 by (done || set_solver). rewrite Hm. simpl.
  destruct (set_Value_spec h1 e (key, value)) as (h2 & -> & Hval2 & Hn2 & Hp2 & Hq2 & Hlen2).
  { apply Hload1. eapply is_list_load; [done|set_solver]. }
  simpl. eexists _, ((xs1 ++ xs2) ++ [e]). split; [done|].
  unfold put_entry. rewrite drop_key_split by done. split; simpl.
  - by eapply is_list_ext.
  - apply Forall2_app; [|constructor; [by rewrite Hval2, decide_True|done]].
    eapply Forall2_values; [done|done|]. intros x Hx. rewrite Hval2, decide_False by done. apply Hval1.
  - rewrite fmap_app. simpl. by rewrite Permutation_app_comm.
  - intros k x. rewrite (rp_map _ _ _ Hr). rewrite !fmap_app. simpl.
    rewrite elem_of_zip_middle by (by rewrite length_fmap).
    rewrite elem_of_zip_middle; [by rewrite !app_nil_r|].
    apply Forall2_length in Hv. rewrite !length_app in *. rewrite !length_fmap. lia.
  - eapply Forall_impl; [apply (rp_free _ _ _ Hr)|]. simpl. intros x Hx. rewrite Hq2.
    eapply free_preserved; [exact Hl|by split|done|]. apply (free_not_in _ _ _ _ Hl) in Hx. set_solver.
  - apply (rp_free_nodup _ _ _ Hr).
Qed.

(** A new object is in no list. *)
Lemma NewElement_list (h : lheap (K * V)) l xs e :
  is_list h l xs → load h e = None → is_list (NewElement zeroKV h e) l xs.
Proof.
  intros Hl He. assert (e ∉ l :: xs) as Hnin.
  { intros [v Hv]%(is_list_load _ _ _ _ Hl). congruence. }
  assert (∀ x, x ≠ e → load (NewElement zeroKV h e) x = load h x) as Hx.
  { intros x Hx. unfold load, NewElement. simpl. by rewrite lookup_insert_ne. }
  destruct Hl as [Hp Hnd Hel Hlen]. split; [|done| |done].
  - eapply path_agree; [|exact Hp]. intros x Hin. unfold get_next, get_prev. rewrite Hx; [done|]. set_solver.
  - intros x. destruct (decide (x = e)) as [->|]; [|unfold get_list; rewrite Hx by done; apply Hel].
    unfold get_list, load, NewElement. simpl. rewrite lookup_insert_eq. simpl. split; [done|set_solver].
Qed.

(** The element [Put] takes for a new entry, off the free list or fresh. *)
Lemma Put_element lh xs kvs :
  represents lh xs kvs →
  ∃ e frees h,
    match last (freeList lh) with
    | Some e => (e, take (length (freeList lh) - 1) (freeList lh), hm_heap lh)
    | None => (alloc (hm_heap lh), freeList lh, NewElement zeroKV (hm_heap lh) (alloc (hm_heap lh)))
    end = (e, frees, h) ∧ is_list h (entryList lh) xs ∧ get_list h e = Some None ∧
    (∀ x, x ≠ e → get_Value h x = get_Value (hm_heap lh) x) ∧ NoDup (e :: frees) ∧
    Forall (λ x, get_list h x = Some None) frees.
Proof.
  intros Hr. pose proof (rp_list _ _ _ Hr) as Hl. pose proof (rp_free _ _ _ Hr) as Hfree.
  pose proof (rp_free_nodup _ _ _ Hr) as Hfnd. destruct (last (freeList lh)) as [e|] eqn:Hlast.
  - apply last_Some in Hlast as [l' Hl']. exists e, l', (hm_heap lh). rewrite Hl' in Hfree, Hfnd |- *.
    apply Forall_app in Hfree as [Hf1 Hf2]. rewrite Forall_singleton in Hf2. split_and!; try done.
    + rewrite length_app. simpl. by rewrite Nat.add_sub, take_app_length.
    + eapply NoDup_Permutation_proper; [|exact Hfnd]. solve_Permutation.
  - set (e := alloc (hm_heap lh)). assert (load (hm_heap lh) e = None) as Hfresh.
    { apply not_elem_of_dom, (is_fresh (dom (elements (hm_heap lh)))). }
    assert (∀ x, get_list (hm_heap lh) x = Some None → x ≠ e) as Hne.
    { intros x Hx ->. apply get_list_load in Hx as [v Hv]. congruence. }
    rewrite Forall_forall in Hfree. eexists e, _, _. split; [done|]. split_and!.
    + by apply NewElement_list.
    + unfold get_list, load, NewElement. simpl. by rewrite lookup_insert_eq.
    + intros x Hx. unfold get_Value, load, NewElement. simpl. by rewrite lookup_insert_ne.
    + apply NoDup_cons. split; [|done]. intros Hin%Hfree. by apply (Hne e).
    + apply Forall_forall. intros x Hx%Hfree. unfold get_list, load, NewElement. simpl.
      rewrite lookup_insert_ne by (by apply not_eq_sym, Hne). done.
Qed.

Lemma Put_new lh xs kvs key value :
  represents lh xs kvs → entryMap lh !! key = None →
  ∃ lh' xs', Put lh key value = Some lh' ∧ represents lh' xs' (put_entry key value kvs).
Proof.
  intros Hr Hk. unfold Put. rewrite Hk. pose proof (rp_list _ _ _ Hr) as Hl.
  pose proof (represents_absent _ _ _ _ Hr Hk) as Habs.
  destruct (Put_element _ _ _ Hr) as (e & frees & h & -> & Hlh & Heh & Hvh & Hnd & Hfh).
  simpl. destruct (set_Value_spec h e (key, value)) as (h2 & -> & Hval2 & Hn2 & Hp2 & Hq2 & Hlen2);
    [by eapply get_list_load|]. simpl.
  assert (is_list h2 (entryList lh) xs) as Hl2 by (by apply (is_list_ext h)).
  assert (e ∉ entryList lh :: xs) as Hnin by (by apply (free_not_in h)).
  destruct (push_op h2 (entryList lh) xs e false Hl2) as (h3 & Hpush & [Hl3 [Hval3 Hload3] Hkn3]).
  { split; [intros ->; set_solver|]. right. by rewrite Hq2. }
  simpl in Hpush, Hl3. rewrite Hpush. simpl. rewrite decide_False in Hl3 by set_solver.
  eexists _, (xs ++ [e]). split; [done|]. unfold put_entry. rewrite drop_key_absent by done. split; simpl.
  - done.
  - apply Forall2_app; [|constructor; [by rewrite Hval3, Hval2, decide_True|done]].
    apply (Forall2_values (hm_heap lh) _ _ _ e); [apply (rp_values _ _ _ Hr)|set_solver|]. intros x Hx.
    by rewrite Hval3, Hval2, decide_False, Hvh.
  - rewrite fmap_app, Permutation_app_comm. apply NoDup_cons. split; [done|apply (rp_keys _ _ _ Hr)].
  - intros k x. rewrite fmap_app. simpl. pose proof (represents_length _ _ _ Hr).
    rewrite elem_of_zip_middle, !app_nil_r by (by rewrite length_fmap).
    rewrite <- (rp_map _ _ _ Hr). rewrite lookup_insert_Some. split; [naive_solver|].
    intros [[= -> ->]|?]; [by left|right]. split; [congruence|done].
  - rewrite Forall_forall in Hfh |- *. intros x Hx. apply NoDup_cons in Hnd as [Hne _].
    eapply free_preserved; [exact Hl2|by split|by rewrite Hq2; apply Hfh|].
    specialize (Hfh x Hx). apply (free_not_in _ _ _ _ Hlh) in Hfh. set_solver.
  - by apply NoDup_cons in Hnd as [_ ?].
Qed.

Lemma Put_spec lh kvs key value :
  hm_entries lh kvs → ∃ lh', Put lh key value = Some lh' ∧ hm_entries lh' (put_entry key value kvs).
Proof.
  intros [xs Hr]. destruct (entryMap lh !! key) as [e|] eqn:Hk.
  - destruct (Put_existing _ _ _ _ _ value Hr Hk) as (lh' & xs' & ? & ?). exists lh'. split; [done|by eexists].
  - destruct (Put_new _ _ _ _ value Hr Hk) as (lh' & xs' & ? & ?). exists lh'. split; [done|by eexists].
Qed.

Lemma hm_remove_spec lh xs1 e xs2 kvs1 key v kvs2 :
  represents lh (xs1 ++ e :: xs2) (kvs1 ++ (key, v) :: kvs2) → length xs1 = length kvs1 →
  get_Value (hm_heap lh) e = Some (key, v) →
  ∃ lh', hm_remove lh e = Some lh' ∧ represents lh' (xs1 ++ xs2) (kvs1 ++ kvs2) ∧
    entryList lh' = entryList lh ∧ (∀ x, x ≠ e → get_Value (hm_heap lh') x = get_Value (hm_heap lh) x) ∧
    entryMap lh' = delete key (entryMap lh).
Proof.
  intros Hr Hlen Hv. destruct (represents_middle _ _ _ _ _ _ _ _ Hr Hlen) as (Hvals & Hnd & He & Hkn).
  pose proof (rp_list _ _ _ Hr) as Hl. pose proof (il_nodup _ _ _ Hl) as [_ Hndx]%NoDup_cons.
  unfold hm_remove. rewrite Hv. simpl.
  destruct (Remove_spec _ _ _ _ _ Hl) as (h1 & -> & Hl1 & He1 & [Hval1 Hload1] & Hq1). simpl.
  destruct (set_Value_spec h1 e zeroKV) as (h2 & -> & Hval2 & Hn2 & Hp2 & Hq2 & Hlen2);
    [by eapply get_list_load|]. simpl.
  assert (∀ x, get_list (hm_heap lh) x = Some None → x ≠ e) as Hfe.
  { intros x Hx ->. destruct Hkn as [_ [?|?]]; [congruence|].
    apply (free_not_in _ _ _ _ Hl) in Hx. set_solver. }
  eexists. split; [done|]. split_and!; simpl; [split; simpl|done| |done].
  - by apply (is_list_ext h1).
  - apply (Forall2_values (hm_heap lh) _ _ _ e); [done..|]. intros x Hx. by rewrite Hval2, decide_False.
  - by apply NoDup_cons in Hnd as [_ ?].
  - intros k x. rewrite lookup_delete_Some, (rp_map _ _ _ Hr), !fmap_app. simpl.
    rewrite elem_of_zip_middle by (by rewrite length_fmap).
    apply NoDup_cons in Hnd as [Hnk _]. rewrite fmap_app in Hnk.
    split; [by intros [Hne [[= -> ->]|Hin]]|]. intros Hin. split; [|by right].
    intros ->. apply Hnk. by eapply elem_of_zip_l.
  - apply Forall_app. split; [|apply Forall_singleton; by rewrite Hq2].
    pose proof (rp_free _ _ _ Hr) as Hfree. rewrite Forall_forall in Hfree |- *.
    intros x Hx%Hfree. rewrite Hq2, Hq1; auto.
  - apply NoDup_app. split_and!; [apply (rp_free_nodup _ _ _ Hr)| |apply NoDup_singleton].
    pose proof (rp_free _ _ _ Hr) as Hfree. rewrite Forall_forall in Hfree.
    intros x Hx%Hfree. rewrite list_elem_of_singleton. auto.
  - intros x Hx. by rewrite Hval2, decide_False.
Qed.

Lemma Delete_spec lh kvs key :
  hm_entries lh kvs →
  ∃ lh', Delete lh key = Some (lh', bool_decide (key ∈ kvs.*1)) ∧ hm_entries lh' (drop_key key kvs).
Proof.
  intros [xs Hr]. unfold Delete. destruct (entryMap lh !! key) as [e|] eqn:Hk.
  - destruct (represents_lookup _ _ _ _ _ Hr Hk) as (xs1 & xs2 & kvs1 & kvs2 & v & -> & -> & Hlen & Hv & H1 & H2).
    destruct (hm_remove_spec _ _ _ _ _ _ _ _ Hr Hlen Hv) as (lh' & -> & Hr' & _). simpl. exists lh'.
    rewrite drop_key_split by done. rewrite bool_decide_true; [by split; [|eexists]|].
    rewrite fmap_app. set_solver.
  - pose proof (represents_absent _ _ _ _ Hr Hk). exists lh. rewrite drop_key_absent by done.
    rewrite bool_decide_false by done. by split; [|eexists].
Qed.

(** The loop of [Clear] over a list of entries of the map. *)
Lemma Clear_loop_spec (l : list (K * loc)) lh kvs :
  NoDup l.*1 → (∀ k e, (k, e) ∈ l → entryMap lh !! k = Some e) → hm_entries lh kvs →
  ∃ lh', foldl (λ acc '(_, e), lh ← acc; hm_remove lh e) (Some lh) l = Some lh' ∧ hm_entries lh' (filter (λ kv, kv.1 ∉ l.*1) kvs).
Proof.
  revert lh kvs. induction l as [|[k e] l IH]; intros lh kvs Hnd Hl He.
  { exists lh. split; [done|]. assert (∀ l' : list (K * V), filter (λ kv, kv.1 ∉ (@nil (K * loc)).*1) l' = l') as ->; [|done].
    clear. induction l' as [|kv l' IH]; [done|]. rewrite filter_cons_True, IH; [done|apply not_elem_of_nil]. }
  rewrite fmap_cons in *. cbn [foldl fst mbind option_bind] in *.
  destruct He as [xs Hr]. pose proof (Hl k e ltac:(by left)) as Hk. apply NoDup_cons in Hnd as [Hkl Hnd].
  destruct (represents_lookup _ _ _ _ _ Hr Hk) as (xs1 & xs2 & kvs1 & kvs2 & v & -> & -> & Hlen & Hv & H1 & H2).
  destruct (hm_remove_spec _ _ _ _ _ _ _ _ Hr Hlen Hv) as (lh1 & -> & Hr1 & _ & _ & Hmap).
  destruct (IH lh1 (kvs1 ++ kvs2) Hnd) as (lh' & Hrun & He'); [|by eexists|].
  { intros k' e' Hin. rewrite Hmap, lookup_delete_ne; [apply Hl; by right|]. intros ->. apply Hkl. apply list_elem_of_fmap. by exists (k', e'). }
  exists lh'. split; [done|]. rewrite filter_app, filter_cons_False by (simpl; intros Hn; apply Hn; by left).
  rewrite filter_app in He'. assert (∀ kvs : list (K * V), k ∉ kvs.*1 → filter (λ kv, kv.1 ∉ k :: l.*1) kvs = filter (λ kv, kv.1 ∉ l.*1) kvs) as Heq.
  { intros l'. induction l' as [|kv l' IHl]; [done|]. rewrite fmap_cons, not_elem_of_cons. intros [Hkv Hl'].
    rewrite !filter_cons, IHl by done. repeat case_decide; set_solver. }
  by rewrite !Heq.
Qed.

Lemma Clear_spec lh kvs : hm_entries lh kvs → ∃ lh', Clear lh = Some lh' ∧ hm_entries lh' [].
Proof.
  intros He. destruct (Clear_loop_spec (map_range (entryMap lh)) lh kvs) as (lh' & Hrun & He').
  - apply NoDup_map_range_keys.
  - intros k e. apply elem_of_map_range.
  - done.
  - exists lh'. split; [done|]. destruct He as [xs Hr].
    assert (filter (λ kv, kv.1 ∉ (map_range (entryMap lh)).*1) kvs = []) as Hnil; [|by rewrite Hnil in He'].
    apply elem_of_nil_inv. intros kv [Hn Hkv]%list_elem_of_filter. apply Hn. destruct (entryMap lh !! kv.1) as [e|] eqn:Hk.
    + apply list_elem_of_fmap. exists (kv.1, e). split; [done|]. by apply elem_of_map_range.
    + exfalso. apply (represents_absent _ _ _ _ Hr Hk). by apply list_elem_of_fmap_2.
Qed.

(** ** Iteration *)

(** The position of an iterator: the entries it visited that are still in the map,
    and the entries to come. *)
Definition it_at lh (it : Iterator) (visited rest : list (K * V)) : Prop :=
  ∃ xs1 xs2, represents lh (xs1 ++ xs2) (visited ++ rest) ∧ length xs1 = length visited ∧
    if it_initialized it
    then it_next it = head xs2 ∧ it_exhausted it = bool_decide (xs2 = [])
    else xs1 = [] ∧ it_exhausted it = false.

Lemma Front_spec (h : lheap (K * V)) l xs : is_list h l xs → Front h l = Some (head xs).
Proof.
  intros Hl. unfold Front. rewrite (il_length _ _ _ Hl). simpl. destruct xs as [|x xs]; [done|].
  rewrite (proj2 (Z.eqb_neq _ _)) by (simpl; lia). by rewrite (is_list_next _ _ _ Hl).
Qed.

Lemma Next_spec (h : lheap (K * V)) l xs1 e xs2 :
  is_list h l (xs1 ++ e :: xs2) → Next h e = Some (head xs2).
Proof.
  intros Hl. destruct (is_list_around _ _ _ _ _ Hl) as (_ & [Hn _] & _).
  pose proof (proj2 (il_list _ _ _ Hl e) ltac:(set_solver)) as Hq.
  unfold Next, get_next, get_list in *. destruct (load h e) as [v|]; [|done]. simpl in *.
  injection Hn as Hn. injection Hq as Hq. rewrite Hq, Hn. unfold after. destruct xs2 as [|x xs2]; simpl.
  - by rewrite decide_True.
  - rewrite decide_False; [done|]. intros [= ->]. pose proof (il_nodup _ _ _ Hl) as [Hnd _]%NoDup_cons.
    set_solver.
Qed.

Lemma it_advance_spec lh xs1 e xs2 visited kv rest it :
  represents lh (xs1 ++ e :: xs2) (visited ++ kv :: rest) → length xs1 = length visited →
  ∃ it', it_advance lh it (Some e) = Some (it', true) ∧ (it_key it', it_value it') = kv ∧
    it_initialized it' = true ∧ it_at lh it' (visited ++ [kv]) rest.
Proof.
  intros Hr Hlen. unfold it_advance. simpl. pose proof (rp_values _ _ _ Hr) as Hv.
  apply Forall2_app_inv in Hv as [_ Hv]; [|done]. apply Forall2_cons in Hv as [-> _]. simpl.
  rewrite (Next_spec _ _ _ _ _ (rp_list _ _ _ Hr)). simpl. eexists. split; [done|].
  split; [by destruct kv|]. split; [done|].
  exists (xs1 ++ [e]), xs2. rewrite <- !app_assoc. split_and!; try done.
  - rewrite !length_app. simpl. lia.
  - simpl. by destruct xs2.
Qed.

Lemma it_Next_spec lh it visited rest :
  it_at lh it visited rest →
  match rest with
  | [] => ∃ it', it_Next lh it = Some (it', false)
  | kv :: rest' =>
      ∃ it', it_Next lh it = Some (it', true) ∧ (it_key it', it_value it') = kv ∧
        it_initialized it' = true ∧ it_at lh it' (visited ++ [kv]) rest'
  end.
Proof.
  intros (xs1 & xs2 & Hr & Hlen & Hit).
  pose proof (represents_length _ _ _ Hr) as Hl2. rewrite !length_app in Hl2. unfold it_Next.
  destruct (it_initialized it) eqn:Hi.
  - destruct Hit as [Hn ->]. destruct rest as [|kv rest], xs2 as [|e xs2]; simpl in *; try lia; [eauto|].
    rewrite Hn. by eapply it_advance_spec.
  - destruct Hit as [-> ->]. destruct visited; [|done]. simpl in *.
    rewrite (Front_spec _ _ _ (rp_list _ _ _ Hr)). simpl.
    destruct rest as [|kv rest], xs2 as [|e xs2]; simpl in *; try lia; [eauto|].
    by apply (it_advance_spec lh [] e xs2 [] kv rest it).
Qed.

Lemma NewIterator_at lh kvs : hm_entries lh kvs → it_at lh NewIterator [] kvs.
Proof. intros [xs Hr]. by exists [], xs. Qed.

(** Deleting an entry that was already visited does not disturb an iterator, as
    its comment promises. *)
Lemma it_at_Delete lh it visited1 key v visited2 rest :
  it_initialized it = true → it_at lh it (visited1 ++ (key, v) :: visited2) rest →
  ∃ lh', Delete lh key = Some (lh', true) ∧ it_at lh' it (visited1 ++ visited2) rest.
Proof.
  intros Hi (xs1 & xs2 & Hr & Hlen & Hit). rewrite Hi in Hit. unfold Delete.
  destruct (entryMap lh !! key) as [e|] eqn:Hk; last first.
  { apply (represents_absent _ _ _ _ Hr) in Hk. rewrite !fmap_app in Hk. set_solver. }
  destruct (represents_lookup _ _ _ _ _ Hr Hk) as (ys1 & ys2 & kvs1 & kvs2 & v' & Hys & Hkvs & Hlen' & Hv & H1 & H2).
  assert (kvs1 = visited1 ∧ (key, v') = (key, v) ∧ kvs2 = visited2 ++ rest) as (-> & [= ->] & ->).
  { rewrite <- app_assoc in Hkvs. simpl in Hkvs. pose proof (rp_keys _ _ _ Hr) as Hnd.
    rewrite <- app_assoc in Hnd. simpl in Hnd. rewrite fmap_app in Hnd. simpl in Hnd.
    apply NoDup_app in Hnd as (_ & Hd & Hnd). apply NoDup_cons in Hnd as [Hnd _].
    clear -Hkvs H1 H2 Hd Hnd. revert visited1 Hkvs Hd.
    induction kvs1 as [|kv kvs1 IH]; intros [|kv' visited1]; simpl; intros Hkvs Hd.
    - by simplify_eq.
    - injection Hkvs as -> _. exfalso. apply (Hd key); simpl; set_solver.
    - injection Hkvs as <- _. simpl in H1. set_solver.
    - injection Hkvs as -> Hkvs. simpl in H1. apply IH in Hkvs as (-> & ? & ->); [done|set_solver|].
      intros x Hx. apply Hd. simpl. set_solver. }
  assert (∃ zs, xs1 = ys1 ++ e :: zs ∧ ys2 = zs ++ xs2) as (zs & -> & ->).
  { rewrite length_app in Hlen. simpl in Hlen.
    exists (drop (S (length ys1)) xs1). rewrite <- (take_drop (length ys1) xs1) in Hys.
    rewrite <- app_assoc in Hys. apply app_inj_1 in Hys as [Hy1 Hy2];
      [|rewrite length_take; lia].
    destruct (drop (length ys1) xs1) as [|x zs] eqn:Hd.
    { apply (f_equal length) in Hd. rewrite length_drop in Hd. simpl in Hd. lia. }
    simpl in Hy2. injection Hy2 as -> <-. rewrite <- Hy1 at 1.
    assert (drop (S (length ys1)) xs1 = zs) as ->; [|by rewrite <- Hd, take_drop].
    replace (S (length ys1)) with (length ys1 + 1)%nat by lia. rewrite <- drop_drop, Hd. done. }
  rewrite <- !app_assoc in Hr. simpl in Hr.
  destruct (hm_remove_spec _ _ _ _ _ _ _ _ Hr Hlen' Hv) as (lh' & -> & Hr' & _). simpl.
  exists lh'. split; [done|]. exists (ys1 ++ zs), xs2. rewrite <- !app_assoc. split; [done|]. rewrite Hi.
  rewrite !length_app in *. simpl in *. split; [lia|done].
Qed.

(** ** The empty map *)

Lemma NewElements_spec frees (h : lheap (K * V)) l :
  NoDup frees → (∀ e, e ∈ frees → load h e = None) → is_list h l [] →
  let h' := foldl (λ h e, NewElement zeroKV h e) h frees in
  is_list h' l [] ∧ Forall (λ e, get_list h' e = Some None) frees ∧
  ∀ x, x ∉ frees → load h' x = load h x.
Proof.
  revert h. induction frees as [|e frees IH]; intros h Hnd Hfresh Hl; [done|]. simpl.
  apply NoDup_cons in Hnd as [He Hnd].
  assert (∀ x, x ≠ e → load (NewElement zeroKV h e) x = load h x) as Hx.
  { intros x Hx. unfold load, NewElement. simpl. by rewrite lookup_insert_ne. }
  destruct (IH (NewElement zeroKV h e) Hnd) as (Hl' & Hf & Hload).
  { intros x Hin. rewrite Hx by set_solver. apply Hfresh. set_solver. }
  { apply NewElement_list; [done|apply Hfresh; set_solver]. }
  split_and!; [done| |].
  - apply Forall_cons. split; [|done]. unfold get_list. rewrite Hload by done.
    unfold load, NewElement. simpl. by rewrite lookup_insert_eq.
  - intros x Hnin. rewrite Hload by set_solver. apply Hx. set_solver.
Qed.

Lemma NewHashmap_spec n : represents (NewHashmapWithSize n) [] [].
Proof.
  destruct (NewElements_spec (seq 1 n) (NewList zeroKV (mkHeap ∅ ∅) 0%nat) 0%nat) as (Hl & Hf & _).
  - apply NoDup_seq.
  - intros e He%elem_of_seq. unfold load, NewList. simpl. rewrite lookup_insert_ne by lia. apply lookup_empty.
  - apply NewList_is_list. intros e. unfold get_list, load. simpl. by rewrite lookup_empty.
  - split; simpl; try done; [apply NoDup_nil_2| |apply NoDup_seq].
    intros k e. rewrite lookup_empty. split; [done|by intros ?%not_elem_of_nil].
Qed.

(** ** Queries *)

Lemma hm_Len_spec lh kvs : hm_entries lh kvs → hm_Len lh = Z.of_nat (length kvs).
Proof.
  intros [xs Hr]. unfold hm_Len. f_equal. pose proof (represents_length _ _ _ Hr) as Hlen.
  assert (NoDup (zip kvs.*1 xs).*1) as Hnd.
  { rewrite fst_zip; [apply (rp_keys _ _ _ Hr)|rewrite length_fmap; lia]. }
  assert (entryMap lh = list_to_map (zip kvs.*1 xs)) as ->.
  { apply map_eq. intros k. apply option_eq. intros e. rewrite (rp_map _ _ _ Hr).
    by apply elem_of_list_to_map. }
  rewrite map_size_list_to_map by done. rewrite length_zip_with, length_fmap. lia.
Qed.

Lemma Oldest_spec lh kvs : hm_entries lh kvs → Oldest lh = Some (head kvs).
Proof.
  intros [xs Hr]. unfold Oldest. rewrite (Front_spec _ _ _ (rp_list _ _ _ Hr)). simpl.
  pose proof (rp_values _ _ _ Hr) as Hv. destruct Hv as [|x kv xs kvs Hx Hv]; [done|]. simpl. by rewrite Hx.
Qed.

Lemma Newest_spec lh kvs : hm_entries lh kvs → Newest lh = Some (last kvs).
Proof.
  intros [xs Hr]. unfold Newest, Back. pose proof (rp_list _ _ _ Hr) as Hl.
  rewrite (il_length _ _ _ Hl). simpl. pose proof (rp_values _ _ _ Hr) as Hv.
  destruct xs as [|x xs _] using rev_ind.
  { by apply Forall2_nil_inv_l in Hv as ->. }
  apply Forall2_app_inv_l in Hv as (kvs1 & kvs2 & _ & Hv & ->).
  apply Forall2_cons_inv_l in Hv as (kv & ? & Hx & ->%Forall2_nil_inv_l & ->).
  rewrite (proj2 (Z.eqb_neq _ _)) by (rewrite length_app; simpl; lia).
  rewrite (is_list_prev _ _ _ Hl). simpl. rewrite before_snoc, Hx, last_snoc. done.
Qed.

(** ** Theorems *)

(** The entries an iterator returns. *)
Fixpoint collect (fuel : nat) lh (it : Iterator) : option (list (K * V)) :=
  match fuel with
  | O => None
  | S fuel =>
      '(it, more) ← it_Next lh it;
      if (more : bool) then rest ← collect fuel lh it; Some ((it_key it, it_value it) :: rest) else Some []
  end.

Lemma collect_S fuel lh it :
  collect (S fuel) lh it =
    '(it, more) ← it_Next lh it;
    if (more : bool) then rest ← collect fuel lh it; Some ((it_key it, it_value it) :: rest) else Some [].
Proof. done. Qed.

Lemma collect_spec lh it visited rest :
  it_at lh it visited rest → collect (S (length rest)) lh it = Some rest.
Proof.
  revert it visited. induction rest as [|kv rest IH]; intros it visited Hit.
  - apply it_Next_spec in Hit as (it' & Hn). simpl. by rewrite Hn.
  - apply it_Next_spec in Hit as (it' & Hn & Hkv & _ & Hit'). rewrite collect_S, Hn. cbn [mbind option_bind].
    change (length (kv :: rest)) with (S (length rest)). rewrite (IH _ _ Hit'). simpl. by rewrite Hkv.
Qed.

(** The operations that change a map. *)
Inductive hm_op : Type := HPut (key : K) (value : V) | HDelete (key : K) | HClear.

Definition hm_run lh (op : hm_op) : option Hashmap :=
  match op with
  | HPut key value => Put lh key value
  | HDelete key => r ← Delete lh key; Some r.1
  | HClear => Clear lh
  end.
Definition hm_exec lh (ops : list hm_op) : option Hashmap :=
  foldl (λ acc op, lh ← acc; hm_run lh op) (Some lh) ops.

(** Their effect on the entries. *)
Definition entries_op (kvs : list (K * V)) (op : hm_op) : list (K * V) :=
  match op with HPut key value => put_entry key value kvs | HDelete key => drop_key key kvs | HClear => [] end.

(** C37: a linked hash map is the list of its entries in insertion order: after any
    sequence of insertions, deletions and clearings of a new map, with reused elements and
    all pointer updates, no nil pointer was dereferenced, [Get] finds the latest
    value of a key, [Oldest] and [Newest] are the ends of the list, [Len] is its
    length, and an iterator returns its entries in order. *)
Theorem hashmap_refines initialSize (ops : list hm_op) :
  let kvs := foldl entries_op [] ops in
  ∃ lh, hm_exec (NewHashmapWithSize initialSize) ops = Some lh ∧
    (∀ key, Get lh key = Some (find_key key kvs)) ∧
    Oldest lh = Some (head kvs) ∧ Newest lh = Some (last kvs) ∧ hm_Len lh = Z.of_nat (length kvs) ∧
    collect (S (length kvs)) lh NewIterator = Some kvs.
Proof.
  intros kvs. assert (∃ lh, hm_exec (NewHashmapWithSize initialSize) ops = Some lh ∧ hm_entries lh kvs)
    as (lh & Hex & He).
  { subst kvs. induction ops as [|op ops (lh & Hex & He)] using rev_ind.
    { eexists. split; [done|]. eexists. apply NewHashmap_spec. }
    unfold hm_exec in *. rewrite !foldl_app, Hex. simpl. destruct op as [key value|key|]; simpl.
    - by apply Put_spec.
    - destruct (Delete_spec _ _ key He) as (lh' & -> & He'). by exists lh'.
    - by eapply Clear_spec. }
  exists lh. split_and!; [done|..].
  - intros key. destruct He as [xs Hr]. by eapply Get_spec.
  - by apply Oldest_spec.
  - by apply Newest_spec.
  - by apply hm_Len_spec.
  - by eapply collect_spec, NewIterator_at.
Qed.
End Hashmap.
