(* ===== verification/VoteGraph.v ===== *)
(** * The vote graph of a poll (package [snow/consensus/snowman/poll], [graph.go])

    A poll arranges the blocks it has votes for, and their processing ancestors,
    in a forest, and adds up the votes of every block and its descendants by a
    topological sort.

    [getParent] is constant while a graph is built; it is the finite map
    [parents].  A [*voteVertex] is owned by the map [id2Vertex], so the vertex of
    an identifier is denoted by the identifier. *)
From S2P Require Import Prelude Ids Bag Forest.

(** ** Data *)

Record voteVertex : Type := mkVertex {
  vv_id : ID;
  vv_parent : option ID;
  vv_descendants : list ID;
}.

Record voteGraph : Type := mkGraph {
  vg_vertices : gmap ID voteVertex;
  vg_vertexCount : nat;
  vg_leaves : list ID;
  vg_roots : list ID;
}.

Section VoteGraph.
Context `{!MapRange ID} (parents : gmap ID ID).
Implicit Types (m : gmap ID voteVertex) (cc : gmap ID Z).

(** [addIDAndAncestorsToGraph] *)
Fixpoint addIDAndAncestorsToGraph (fuel : nat) (id : ID) m : option (gmap ID voteVertex) :=
  match fuel with
  | O => None
  | S fuel =>
      match m !! id with
      | Some _ => Some m
      | None =>
          let m := <[id := mkVertex id None []]> m in
          match parents !! id with
          | None => Some m
          | Some parent => addIDAndAncestorsToGraph fuel parent m
          end
      end
  end.

(** Every iteration but the last adds a block whose parent is known. *)
Definition graph_fuel : nat := S (base.size parents).

(** The loop over the votes. *)
Fixpoint add_all (ids : list ID) m : option (gmap ID voteVertex) :=
  match ids with
  | [] => Some m
  | id :: ids => m ← addIDAndAncestorsToGraph graph_fuel id m; add_all ids m
  end.

Definition set_parent (p : ID) (v : voteVertex) : voteVertex := mkVertex (vv_id v) (Some p) (vv_descendants v).
Definition add_descendant (c : ID) (v : voteVertex) : voteVertex :=
  mkVertex (vv_id v) (vv_parent v) (vv_descendants v ++ [c]).

(** The loop that links the vertices and collects the roots. *)
Fixpoint link_vertices (ids : list ID) m (roots : list ID) : gmap ID voteVertex * list ID :=
  match ids with
  | [] => (m, roots)
  | id :: ids =>
      match parents !! id with
      | None => link_vertices ids m (roots ++ [id])
      | Some parent =>
          match m !! parent with
          | Some _ => link_vertices ids (alter (add_descendant id) parent (alter (set_parent parent) id m)) roots
          | None => link_vertices ids m (roots ++ [id])
          end
      end
  end.

(** [findLeaves] *)
Definition findLeaves m : list ID :=
  (filter (λ '(_, v), vv_descendants v = []) (map_range m)).*1.

(** [buildVoteGraph] *)
Definition buildVoteGraph (votes : Bag ID) : option voteGraph :=
  m ← add_all (List votes) ∅;
  let '(m, roots) := link_vertices (map_range m).*1 m [] in
  Some (mkGraph m (base.size m) (findLeaves m) roots).

(** [voteVertex.traverse]: the vertices in the order in which [f] is called on
    them. *)
Fixpoint vertex_traverse (fuel : nat) m (id : ID) : option (list ID) :=
  match fuel with
  | O => None
  | S fuel =>
      v ← m !! id;
      below ← mapM (vertex_traverse fuel m) (vv_descendants v);
      Some (id :: concat below)
  end.

(** [voteGraph.traverse] *)
Definition graph_traverse (g : voteGraph) : option (list ID) :=
  l ← mapM (vertex_traverse (S (vg_vertexCount g)) (vg_vertices g)) (vg_roots g); Some (concat l).

(** The loop over one generation of leaves: the new leaves, the remaining counts
    and the vertices visited. *)
Fixpoint topo_layer m (leaves : list ID) cc (newLeaves order : list ID)
    : option (list ID * gmap ID Z * list ID) :=
  match leaves with
  | [] => Some (newLeaves, cc, order)
  | leaf :: leaves =>
      v ← m !! leaf;
      let order := order ++ [leaf] in
      match vv_parent v with
      | None => topo_layer m leaves cc newLeaves order
      | Some p =>
          let n := default 0 (cc !! p) - 1 in
          topo_layer m leaves (<[p := n]> cc) (if n =? 0 then newLeaves ++ [p] else newLeaves) order
      end
  end.

(** The loop over the generations. *)
Fixpoint topo_loop (fuel : nat) m (leaves : list ID) cc (order : list ID) : option (list ID) :=
  match leaves with
  | [] => Some order
  | _ :: _ =>
      match fuel with
      | O => None
      | S fuel =>
          '(leaves, cc, order) ← topo_layer m leaves cc [] order;
          topo_loop fuel m leaves cc order
      end
  end.

(** [topologicalSortTraversal]: the vertices in the order in which [f] is called
    on them. *)
Definition topologicalSortTraversal (g : voteGraph) : option (list ID) :=
  visited ← graph_traverse g;
  let cc := foldl (λ cc id, match vg_vertices g !! id with
                            | Some v => <[id := Z.of_nat (length (vv_descendants v))]> cc
                            | None => cc
                            end) ∅ visited in
  topo_loop (vg_vertexCount g) (vg_vertices g) (vg_leaves g) cc [].

(** [computeTransitiveVoteCountGraph] *)
Definition computeTransitiveVoteCountGraph (g : voteGraph) (votes : Bag ID) : option (Bag ID) :=
  order ← topologicalSortTraversal g;
  Some (foldl (λ b id,
    match vg_vertices g !! id with
    | Some (mkVertex _ (Some p) _) => AddCount b p (Count b id)
    | _ => b
    end) (Clone votes) order).
End VoteGraph.

(** ** The graph that is built *)

Section Graph.
Context `{!MapRange ID} (parents : gmap ID ID) (rank : ID → nat).
Context (Hrank : ∀ c p, parents !! c = Some p → (rank p < rank c)%nat).
Implicit Types (m : gmap ID voteVertex) (cc : gmap ID Z).

#[local] Abbreviation anc := (ancestors parents rank).
#[local] Abbreviation anc_eq := (ancestors_eq parents rank Hrank).

Lemma anc_length x : (length (anc x) ≤ S (base.size parents))%nat.
Proof.
  assert (∃ l y, anc x = l ++ [y] ∧ ∀ z, z ∈ l → z ∈ dom parents) as (l & y & Heq & Hl).
  { revert x. apply (forest_ind parents rank Hrank). intros x IH. rewrite anc_eq.
    destruct (parents !! x) as [p|] eqn:Hp; [|exists [], x; split; [done|]; by intros z ?%not_elem_of_nil].
    destruct (IH p eq_refl) as (l & y & -> & Hl). exists (x :: l), y. split; [done|].
    intros z [->|Hz]%elem_of_cons; [by eapply elem_of_dom_2|by apply Hl]. }
  pose proof (ancestors_NoDup parents rank Hrank x) as Hnd. rewrite Heq in Hnd |- *.
  apply NoDup_app in Hnd as (Hnd & _ & _). rewrite length_app. simpl.
  cut (length l ≤ base.size (dom parents))%nat; [rewrite size_dom; lia|].
  rewrite <- (size_list_to_set (C := gset ID) l) by done. apply subseteq_size.
  intros z. rewrite elem_of_list_to_set. apply Hl.
Qed.

(** Closed under known parents, but for one parent that is still to be added. *)
Definition closed_but (pending : option ID) m : Prop :=
  ∀ x p, x ∈ dom m → parents !! x = Some p → p ∈ dom m ∨ pending = Some p.

Definition blank m : Prop := ∀ x v, m !! x = Some v → v = mkVertex x None [].

Lemma closed_ancestors m x : closed_but None m → x ∈ dom m → ∀ y, y ∈ anc x → y ∈ dom m.
Proof.
  intros Hc. revert x. apply (forest_ind parents rank Hrank (λ x, x ∈ dom m → ∀ y, y ∈ anc x → y ∈ dom m)).
  intros x IH Hx y. rewrite anc_eq. intros [->|Hy]%elem_of_cons; [done|].
  destruct (parents !! x) as [p|] eqn:Hp; [|by apply not_elem_of_nil in Hy].
  destruct (Hc x p Hx Hp) as [Hpm|]; [|done]. by apply (IH p).
Qed.

Lemma add_ancestors_spec fuel id m :
  (length (anc id) ≤ fuel)%nat → closed_but (Some id) m → blank m →
  ∃ m', addIDAndAncestorsToGraph parents fuel id m = Some m' ∧ closed_but None m' ∧ blank m' ∧
    ∀ x, x ∈ dom m' ↔ x ∈ dom m ∨ x ∈ anc id.
Proof.
  revert id m. induction fuel as [|fuel IH]; intros id m Hf Hc Hb; [rewrite anc_eq in Hf; simpl in Hf; lia|].
  cbn [addIDAndAncestorsToGraph]. destruct (m !! id) as [v|] eqn:Hid.
  { apply elem_of_dom_2 in Hid. assert (closed_but None m) as Hc'.
    { intros x p Hx Hp. left. destruct (Hc x p Hx Hp) as [|[= <-]]; done. }
    exists m. split_and!; try done. intros x. split; [by left|]. intros [|Hx]; [done|by eapply closed_ancestors]. }
  assert (blank (<[id := mkVertex id None []]> m)) as Hb'.
  { intros x v [[<- <-]|[_ Hx]]%lookup_insert_Some; [done|by apply Hb]. }
  rewrite anc_eq in Hf |- *. destruct (parents !! id) as [p|] eqn:Hp.
  - destruct (IH p (<[id := mkVertex id None []]> m)) as (m' & -> & Hc' & Hb'' & Hdom); [simpl in Hf; lia| |done|].
    { intros x q. rewrite dom_insert_L. intros [->%elem_of_singleton|Hx]%elem_of_union Hq; [right; congruence|].
      destruct (Hc x q Hx Hq) as [|[= <-]]; left; set_solver. }
    exists m'. split_and!; try done. intros x. rewrite Hdom, dom_insert_L. set_solver.
  - eexists. split; [done|]. split_and!; [|done|].
    + intros x q. rewrite dom_insert_L. intros [->%elem_of_singleton|Hx]%elem_of_union Hq; [congruence|].
      left. destruct (Hc x q Hx Hq) as [|[= <-]]; set_solver.
    + intros x. rewrite dom_insert_L. set_solver.
Qed.

Lemma add_all_spec ids m :
  closed_but None m → blank m →
  ∃ m', add_all parents ids m = Some m' ∧ closed_but None m' ∧ blank m' ∧
    ∀ x, x ∈ dom m' ↔ x ∈ dom m ∨ ∃ y, y ∈ ids ∧ x ∈ anc y.
Proof.
  revert m. induction ids as [|id ids IH]; intros m Hc Hb.
  { exists m. split_and!; try done. intros x. split; [by left|]. intros [|(y & Hy & _)]; [done|by apply not_elem_of_nil in Hy]. }
  cbn [add_all]. destruct (add_ancestors_spec (graph_fuel parents) id m) as (m1 & -> & Hc1 & Hb1 & Hd1); [|by intros x p Hx Hp; destruct (Hc x p Hx Hp); auto|done|].
  { unfold graph_fuel. apply anc_length. }
  simpl. destruct (IH m1 Hc1 Hb1) as (m2 & -> & Hc2 & Hb2 & Hd2). exists m2. split_and!; try done.
  intros x. rewrite Hd2, Hd1. set_solver.
Qed.

(** The vertices of the graph are linked as the blocks are. *)
Record graph_ok (votes : Bag ID) (g : voteGraph) : Prop := {
  go_dom x : x ∈ dom (vg_vertices g) ↔ ∃ y, y ∈ List votes ∧ x ∈ anc y;
  go_id x v : vg_vertices g !! x = Some v → vv_id v = x;
  go_parent x v : vg_vertices g !! x = Some v → vv_parent v = parents !! x;
  go_nodup x v : vg_vertices g !! x = Some v → NoDup (vv_descendants v);
  go_desc x v c : vg_vertices g !! x = Some v →
    c ∈ vv_descendants v ↔ c ∈ dom (vg_vertices g) ∧ parents !! c = Some x;
  go_count : vg_vertexCount g = base.size (vg_vertices g);
  go_leaves x : x ∈ vg_leaves g ↔ ∃ v, vg_vertices g !! x = Some v ∧ vv_descendants v = [];
  go_leaves_nodup : NoDup (vg_leaves g);
  go_roots x : x ∈ vg_roots g ↔ x ∈ dom (vg_vertices g) ∧ parents !! x = None;
}.

(** The state of the linking loop after the vertices [done]. *)
Record link_inv (D : gset ID) (seen : list ID) m (roots : list ID) : Prop := {
  li_dom : dom m = D;
  li_id x v : m !! x = Some v → vv_id v = x;
  li_parent x v : m !! x = Some v → vv_parent v = if decide (x ∈ seen) then parents !! x else None;
  li_nodup x v : m !! x = Some v → NoDup (vv_descendants v);
  li_desc x v c : m !! x = Some v → c ∈ vv_descendants v ↔ c ∈ seen ∧ parents !! c = Some x;
  li_roots x : x ∈ roots ↔ x ∈ seen ∧ parents !! x = None;
}.

Lemma link_root D seen m roots id :
  link_inv D seen m roots → parents !! id = None → link_inv D (seen ++ [id]) m (roots ++ [id]).
Proof.
  intros Hi Hp. split; try apply Hi.
  - intros x v Hx. rewrite (li_parent _ _ _ _ Hi x v Hx). destruct (decide (x ∈ seen)); [by rewrite decide_True by set_solver|].
    case_decide as Hd; [|done]. apply elem_of_app in Hd as [| ->%list_elem_of_singleton]; done.
  - intros x v c Hx. rewrite (li_desc _ _ _ _ Hi x v c Hx), elem_of_app, list_elem_of_singleton.
    split; [tauto|]. intros [[| ->] ?]; [done|congruence].
  - intros x. rewrite !elem_of_app, !list_elem_of_singleton, (li_roots _ _ _ _ Hi). split; [|tauto].
    intros [[? ?]| ->]; auto.
Qed.

Lemma link_child D seen m roots id p :
  link_inv D seen m roots → id ∈ D → id ∉ seen → parents !! id = Some p → p ∈ D →
  link_inv D (seen ++ [id]) (alter (add_descendant id) p (alter (set_parent p) id m)) roots.
Proof.
  intros Hi Hid Hns Hp HpD. assert (p ≠ id) as Hne by (intros ->; apply Hrank in Hp; lia).
  assert (∀ x v, alter (add_descendant id) p (alter (set_parent p) id m) !! x = Some v →
    ∃ v0, m !! x = Some v0 ∧ vv_id v = vv_id v0 ∧ vv_parent v = (if decide (x = id) then Some p else vv_parent v0) ∧
      vv_descendants v = (if decide (x = p) then vv_descendants v0 ++ [id] else vv_descendants v0)) as Hm.
  { intros x v. destruct (decide (x = p)) as [->|Hxp].
    - rewrite lookup_alter_eq, lookup_alter_ne by done. intros (v0 & Hv0 & ->)%fmap_Some.
      exists v0. rewrite decide_False by done. done.
    - rewrite lookup_alter_ne by done. destruct (decide (x = id)) as [->|Hxi].
      + rewrite lookup_alter_eq. intros (v0 & Hv0 & ->)%fmap_Some. by exists v0.
      + rewrite lookup_alter_ne by done. intros Hv. by exists v. }
  split.
  - by rewrite !dom_alter_L, (li_dom _ _ _ _ Hi).
  - intros x v (v0 & Hv0 & -> & _)%Hm. by apply (li_id _ _ _ _ Hi).
  - intros x v (v0 & Hv0 & _ & -> & _)%Hm. rewrite (li_parent _ _ _ _ Hi x v0 Hv0).
    destruct (decide (x = id)) as [->|Hx].
    + rewrite decide_True by set_solver. by rewrite Hp.
    + destruct (decide (x ∈ seen)); [by rewrite decide_True by set_solver|by rewrite decide_False by set_solver].
  - intros x v (v0 & Hv0 & _ & _ & ->)%Hm. pose proof (li_nodup _ _ _ _ Hi x v0 Hv0). case_decide; [|done].
    apply NoDup_app. split_and!; [done| |apply NoDup_singleton]. intros c Hc ->%list_elem_of_singleton.
    apply (li_desc _ _ _ _ Hi x v0 id Hv0) in Hc. tauto.
  - intros x v c (v0 & Hv0 & _ & _ & ->)%Hm. rewrite elem_of_app, list_elem_of_singleton.
    pose proof (li_desc _ _ _ _ Hi x v0 c Hv0) as Hd. case_decide as Hx.
    + subst. rewrite elem_of_app, Hd, list_elem_of_singleton. split; [intros [[? ?]| ->]; auto|]. intros [[| ->] ?]; auto.
    + rewrite Hd. split; [tauto|]. intros [[| ->] ?]; [done|congruence].
  - intros x. rewrite (li_roots _ _ _ _ Hi), elem_of_app, list_elem_of_singleton. split; [tauto|].
    intros [[| ->] ?]; [done|congruence].
Qed.

Lemma link_vertices_spec D ids seen m roots :
  link_inv D seen m roots → NoDup (seen ++ ids) → (∀ x, x ∈ ids → x ∈ D) →
  (∀ x p, x ∈ D → parents !! x = Some p → p ∈ D) →
  let '(m', roots') := link_vertices parents ids m roots in link_inv D (seen ++ ids) m' roots'.
Proof.
  intros Hi Hnd Hin Hcl. revert seen m roots Hi Hnd Hin. induction ids as [|id ids IH]; intros seen m roots Hi Hnd Hin.
  { simpl. by rewrite app_nil_r. }
  cbn [link_vertices]. rewrite cons_middle, app_assoc in Hnd.
  assert (id ∉ seen) as Hns.
  { rewrite <- app_assoc in Hnd. apply NoDup_app in Hnd as (_ & Hd & _). intros Hs. apply (Hd id Hs). set_solver. }
  assert (∀ x, x ∈ ids → x ∈ D) as Hin' by (intros; apply Hin; set_solver).
  assert (id ∈ D) as Hid by (apply Hin; set_solver).
  destruct (parents !! id) as [p|] eqn:Hp.
  - pose proof (Hcl id p Hid Hp) as HpD. rewrite <- (li_dom _ _ _ _ Hi) in HpD. apply elem_of_dom in HpD as [u Hu]. rewrite Hu.
    assert (link_inv D (seen ++ [id]) (alter (add_descendant id) p (alter (set_parent p) id m)) roots) as Hi'
      by (apply link_child; try done; by apply (Hcl id)).
    specialize (IH _ _ _ Hi' Hnd Hin'). destruct (link_vertices _ _ _ _). by rewrite <- app_assoc in IH.
  - specialize (IH _ _ _ (link_root _ _ _ _ _ Hi Hp) Hnd Hin'). destruct (link_vertices _ _ _ _). by rewrite <- app_assoc in IH.
Qed.

Lemma buildVoteGraph_spec votes : ∃ g, buildVoteGraph parents votes = Some g ∧ graph_ok votes g.
Proof.
  unfold buildVoteGraph. destruct (add_all_spec (List votes) ∅) as (m & -> & Hc & Hb & Hd);
    [intros x p Hx; set_solver|intros x v; by rewrite lookup_empty|]. simpl.
  assert (∀ x, x ∈ (map_range m).*1 ↔ x ∈ dom m) as Hr.
  { intros x. rewrite elem_of_dom, list_elem_of_fmap. split.
    - intros ([y v] & -> & Hin%elem_of_map_range). by exists v.
    - intros [v Hv]. exists (x, v). split; [done|]. by apply elem_of_map_range. }
  pose proof (link_vertices_spec (dom m) (map_range m).*1 [] m []) as Hl. simpl in Hl.
  destruct (link_vertices parents (map_range m).*1 m []) as [m' roots]. eexists. split; [done|].
  destruct Hl as [Hdom Hid Hpar Hnd Hdesc Hroots].
  { split; try done.
    - intros x v Hx. by rewrite (Hb x v Hx).
    - intros x v Hx. rewrite (Hb x v Hx). done.
    - intros x v Hx. rewrite (Hb x v Hx). apply NoDup_nil_2.
    - intros x v c Hx. rewrite (Hb x v Hx). simpl. set_solver.
    - intros x. set_solver. }
  { apply NoDup_map_range_keys. } { intros x. apply Hr. }
  { intros x p Hx Hp. by destruct (Hc x p Hx Hp). }
  split; simpl.
  - intros x. rewrite Hdom, Hd. set_solver.
  - done.
  - intros x v Hx. rewrite (Hpar x v Hx). rewrite decide_True; [done|]. apply Hr. rewrite <- Hdom. by eapply elem_of_dom_2.
  - done.
  - intros x v c Hx. rewrite (Hdesc x v c Hx), Hr, Hdom. done.
  - done.
  - intros x. unfold findLeaves. rewrite list_elem_of_fmap. split.
    + intros ([y v] & -> & [Hv Hin%elem_of_map_range]%list_elem_of_filter). by exists v.
    + intros (v & Hv & Hde). exists (x, v). split; [done|]. apply list_elem_of_filter. split; [done|]. by apply elem_of_map_range.
  - apply NoDup_fst_filter, NoDup_map_range_keys.
  - intros x. by rewrite Hroots, Hr, Hdom.
Qed.

(** ** Traversal *)

Section Traversal.
Context (votes : Bag ID) (g : voteGraph) (Hg : graph_ok votes g).
#[local] Abbreviation vertices := (vg_vertices g).

Lemma dom_ancestors x y : y ∈ dom vertices → x ∈ anc y → x ∈ dom vertices.
Proof.
  rewrite !(go_dom _ _ Hg). intros (z & Hz & Hy) Hx. exists z. split; [done|].
  by apply (ancestors_trans parents rank Hrank x y z).
Qed.

Lemma child_towards x y : x ∈ anc y → y = x ∨ ∃ c, parents !! c = Some x ∧ c ∈ anc y.
Proof.
  revert y. apply (forest_ind parents rank Hrank (λ y, x ∈ anc y → _)). intros y IH. rewrite anc_eq.
  intros [->|Hx]%elem_of_cons; [by left|]. right. destruct (parents !! y) as [p|] eqn:Hp; [|by apply not_elem_of_nil in Hx].
  destruct (IH p eq_refl Hx) as [->|(c & Hc & Hcp)].
  - exists y. split; [done|]. set_solver.
  - exists c. split; [done|]. set_solver.
Qed.

Lemma root_above y : ∃ r, r ∈ anc y ∧ parents !! r = None.
Proof.
  revert y. apply (forest_ind parents rank Hrank). intros y IH. rewrite anc_eq.
  destruct (parents !! y) as [p|] eqn:Hp; [|exists y; set_solver].
  destruct (IH p eq_refl) as (r & Hr & Hn). exists r. set_solver.
Qed.

(** The vertices below a vertex. *)
Definition subtree (x : ID) : gset ID := filter (λ y, x ∈ anc y) (dom vertices).

Lemma subtree_child x c : parents !! c = Some x → c ∈ dom vertices → (base.size (subtree c) < base.size (subtree x))%nat.
Proof.
  intros Hc Hd. apply subset_size. unfold subtree. apply strict_spec. split.
  - intros y. rewrite !elem_of_filter. intros [Hy ?]. split; [|done]. by eapply (ancestors_parent parents rank Hrank c).
  - intros Hsub. assert (x ∈ dom vertices) as Hx.
    { apply (dom_ancestors x c Hd). rewrite anc_eq, Hc. apply elem_of_cons. right. apply (ancestors_self parents rank Hrank). }
    specialize (Hsub x). rewrite !elem_of_filter in Hsub.
    destruct Hsub as [Hcx _]; [split; [apply (ancestors_self parents rank Hrank)|done]|].
    apply (ancestors_rank parents rank Hrank) in Hcx. apply Hrank in Hc. lia.
Qed.

Lemma vertex_traverse_spec fuel x :
  x ∈ dom vertices → (base.size (subtree x) < fuel)%nat →
  ∃ l, vertex_traverse fuel vertices x = Some l ∧ ∀ y, y ∈ l ↔ y ∈ subtree x.
Proof.
  revert x. induction fuel as [|fuel IH]; intros x Hx Hf; [lia|]. cbn [vertex_traverse].
  pose proof Hx as [v Hv]%elem_of_dom. rewrite Hv. simpl.
  destruct (mapM_elements (vertex_traverse fuel vertices) (λ c y, y ∈ subtree c) (vv_descendants v)) as (rs & -> & Hrs).
  { intros c [Hc Hp]%(go_desc _ _ Hg x v c Hv). apply IH; [done|]. pose proof (subtree_child x c Hp Hc). lia. }
  simpl. eexists. split; [done|]. intros y. rewrite elem_of_cons, Hrs. unfold subtree. setoid_rewrite elem_of_filter. split.
  - intros [->|(c & [_ Hp]%(go_desc _ _ Hg x v c Hv) & Hy & ?)].
    + split; [apply (ancestors_self parents rank Hrank)|done].
    + split; [|done]. by eapply (ancestors_parent parents rank Hrank c).
  - intros [[->|(c & Hp & Hc)]%child_towards Hy]; [by left|right]. exists c. split; [|done].
    apply (go_desc _ _ Hg x v c Hv). split; [by eapply dom_ancestors|done].
Qed.

Lemma graph_traverse_spec : ∃ l, graph_traverse g = Some l ∧ ∀ y, y ∈ l ↔ y ∈ dom vertices.
Proof.
  unfold graph_traverse. rewrite (go_count _ _ Hg).
  destruct (mapM_elements (vertex_traverse (S (base.size vertices)) vertices) (λ r y, y ∈ subtree r) (vg_roots g)) as (rs & -> & Hrs).
  { intros r [Hr _]%(go_roots _ _ Hg). apply vertex_traverse_spec; [done|].
    assert (base.size (subtree r) ≤ base.size (dom vertices))%nat; [|rewrite size_dom in *; lia].
    apply subseteq_size. unfold subtree. set_solver. }
  simpl. eexists. split; [done|]. intros y. rewrite Hrs. unfold subtree. setoid_rewrite elem_of_filter.
  setoid_rewrite (go_roots _ _ Hg). split; [naive_solver|]. intros Hy. destruct (root_above y) as (r & Hr & Hn).
  exists r. split_and!; try done. by eapply dom_ancestors.
Qed.

(** ** The topological order *)

Definition kids (x : ID) : list ID := default [] (vv_descendants <$> vertices !! x).

Lemma elem_of_graph_kids x c : c ∈ kids x ↔ c ∈ dom vertices ∧ parents !! c = Some x.
Proof.
  unfold kids. destruct (vertices !! x) as [v|] eqn:Hv; simpl; [by apply (go_desc _ _ Hg)|].
  split; [by intros ?%not_elem_of_nil|]. intros [Hc Hp]. exfalso. apply not_elem_of_dom in Hv. apply Hv.
  apply (dom_ancestors x c Hc). rewrite anc_eq, Hp. apply elem_of_cons. right. apply (ancestors_self parents rank Hrank).
Qed.

Lemma graph_kids_NoDup x : NoDup (kids x).
Proof. unfold kids. destruct (vertices !! x) as [v|] eqn:Hv; simpl; [by apply (go_nodup _ _ Hg x)|apply NoDup_nil_2]. Qed.

(** The children of a vertex that are still to be visited. *)
Definition unvisited (order : list ID) (x : ID) : list ID := filter (.∉ order) (kids x).

Record topo_inv (ready : list ID) cc (order : list ID) : Prop := {
  ti_nodup : NoDup (order ++ ready);
  ti_ready x : x ∈ order ++ ready ↔ x ∈ dom vertices ∧ unvisited order x = [];
  ti_count x : x ∈ dom vertices → cc !! x = Some (Z.of_nat (length (unvisited order x)));
  ti_before l1 x l2 : order = l1 ++ x :: l2 → ∀ c, c ∈ kids x → c ∈ l1;
}.

Lemma unvisited_nil order x : unvisited order x = [] ↔ ∀ c, c ∈ kids x → c ∈ order.
Proof.
  unfold unvisited. split.
  - intros Hn c Hc. destruct (decide (c ∈ order)); [done|]. assert (c ∈ filter (.∉ order) (kids x)) as Hin by (by apply list_elem_of_filter).
    rewrite Hn in Hin. by apply not_elem_of_nil in Hin.
  - intros Hall. destruct (filter _ _) as [|c l] eqn:Hf; [done|].
    assert (c ∈ filter (.∉ order) (kids x)) as [Hn Hc]%list_elem_of_filter by (rewrite Hf; set_solver). by destruct (Hn (Hall c Hc)).
Qed.

Lemma unvisited_snoc order leaf x :
  leaf ∉ order →
  length (unvisited order x) = (length (unvisited (order ++ [leaf]) x) + if decide (leaf ∈ kids x) then 1 else 0)%nat.
Proof.
  intros Hn. unfold unvisited. pose proof (graph_kids_NoDup x) as Hnd. induction (kids x) as [|c l IH]; [done|].
  apply NoDup_cons in Hnd as [Hc Hnd]. specialize (IH Hnd). rewrite !filter_cons. destruct (decide (c = leaf)) as [->|Hne].
  - rewrite decide_True, (decide_False (P := leaf ∉ order ++ [leaf])), (decide_True (P := leaf ∈ leaf :: l)) by set_solver.
    rewrite decide_False in IH by done. simpl. lia.
  - destruct (decide (c ∉ order)) as [Hco|Hco].
    + rewrite (decide_True (P := c ∉ order ++ [leaf])) by set_solver. simpl.
      repeat case_decide; first [lia | exfalso; set_solver].
    + rewrite (decide_False (P := c ∉ order ++ [leaf])) by set_solver.
      repeat case_decide; first [lia | exfalso; set_solver].
Qed.

Lemma unvisited_other order leaf x : leaf ∉ order → leaf ∉ kids x → length (unvisited (order ++ [leaf]) x) = length (unvisited order x).
Proof. intros Hn Hk. rewrite (unvisited_snoc order leaf x) by done. rewrite decide_False by done. lia. Qed.

Lemma length_zero_nil {A} (l : list A) : l = [] ↔ length l = 0%nat.
Proof. destruct l; naive_solver. Qed.

(** One leaf of a generation. *)
Lemma topo_step leaf ready cc order :
  topo_inv (leaf :: ready) cc order → ∃ v, vertices !! leaf = Some v ∧
  match vv_parent v with
  | None => topo_inv ready cc (order ++ [leaf])
  | Some p =>
      let n := default 0 (cc !! p) - 1 in
      topo_inv (if n =? 0 then ready ++ [p] else ready) (<[p := n]> cc) (order ++ [leaf])
  end.
Proof.
  intros Hi. assert (leaf ∈ dom vertices ∧ unvisited order leaf = []) as [Hd Hu] by (apply (ti_ready _ _ _ Hi); set_solver).
  pose proof Hd as [v Hv]%elem_of_dom. exists v. split; [done|]. rewrite (go_parent _ _ Hg _ _ Hv).
  assert (leaf ∉ order) as Hn.
  { pose proof (ti_nodup _ _ _ Hi) as Hnd. apply NoDup_app in Hnd as (_ & Hd' & _). intros Ho. apply (Hd' leaf Ho). set_solver. }
  assert (∀ x, leaf ∈ kids x ↔ parents !! leaf = Some x) as Hk by (intros x; rewrite elem_of_graph_kids; tauto).
  assert (∀ l1 x l2, order ++ [leaf] = l1 ++ x :: l2 → ∀ c, c ∈ kids x → c ∈ l1) as Hbefore.
  { intros l1 x l2 Heq c Hc. destruct l2 as [|y l2] using rev_ind.
    - apply app_inj_tail in Heq as [<- <-]. by apply (unvisited_nil order leaf).
    - rewrite app_comm_cons, app_assoc in Heq. apply app_inj_tail in Heq as [-> _].
      by apply (ti_before _ _ _ Hi l1 x l2). }
  destruct (parents !! leaf) as [p|] eqn:Hp.
  - assert (p ∈ dom vertices) as Hpd.
    { apply (dom_ancestors p leaf Hd). rewrite anc_eq, Hp. apply elem_of_cons. right. apply (ancestors_self parents rank Hrank). }
    pose proof (ti_count _ _ _ Hi p Hpd) as Hcp. cbv zeta. rewrite Hcp. simpl.
    pose proof (unvisited_snoc order leaf p Hn) as Hlen. rewrite decide_True in Hlen by (by apply Hk).
    assert (p ∉ order ++ leaf :: ready) as Hpn.
    { intros [_ Hz]%(ti_ready _ _ _ Hi). rewrite Hz in Hlen. simpl in Hlen. lia. }
    assert (p ∉ (order ++ [leaf]) ++ ready) as Hpn' by (rewrite <- app_assoc; done).
    assert (NoDup ((order ++ [leaf]) ++ ready)) as Hnd by (rewrite <- app_assoc; apply (ti_nodup _ _ _ Hi)).
    assert (∀ x, x ≠ p → (x ∈ (order ++ [leaf]) ++ ready ↔ x ∈ dom vertices ∧ unvisited (order ++ [leaf]) x = [])) as Hother.
    { intros x Hx. rewrite <- app_assoc. simpl. rewrite (ti_ready _ _ _ Hi). rewrite !length_zero_nil, (unvisited_other order leaf x); [done|done|].
      intros ?%Hk. congruence. }
    split.
    + destruct (_ =? 0); [|done]. rewrite app_assoc. apply NoDup_app. split_and!; [done| |apply NoDup_singleton].
      intros x Hx ->%list_elem_of_singleton. done.
    + intros x. destruct (decide (x = p)) as [->|Hx].
      * rewrite length_zero_nil. destruct (Z.eqb_spec (Z.of_nat (length (unvisited order p)) - 1) 0).
        -- split; [intros _; split; [done|lia]|]. set_solver.
        -- split; [done|]. intros [_ ?]. lia.
      * rewrite <- Hother by done. destruct (_ =? 0); set_solver.
    + intros x Hx. destruct (decide (x = p)) as [->|Hne].
      * rewrite lookup_insert_eq. f_equal. lia.
      * rewrite lookup_insert_ne by done. rewrite (ti_count _ _ _ Hi x Hx). do 2 f_equal. symmetry.
        apply unvisited_other; [done|]. intros ?%Hk. congruence.
    + exact Hbefore.
  - assert (∀ x, length (unvisited (order ++ [leaf]) x) = length (unvisited order x)) as Hsame.
    { intros x. apply unvisited_other; [done|]. by intros ?%Hk. }
    split.
    + rewrite <- app_assoc. apply Hi.
    + intros x. rewrite <- app_assoc. simpl. rewrite (ti_ready _ _ _ Hi), !length_zero_nil, Hsame. done.
    + intros x Hx. rewrite Hsame. by apply (ti_count _ _ _ Hi).
    + exact Hbefore.
Qed.

Lemma topo_layer_spec leaves new cc order :
  topo_inv (leaves ++ new) cc order →
  ∃ new' cc' order', topo_layer vertices leaves cc new order = Some (new', cc', order') ∧
    topo_inv new' cc' order' ∧ length order' = (length order + length leaves)%nat.
Proof.
  revert new cc order. induction leaves as [|leaf leaves IH]; intros new cc order Hi.
  { exists new, cc, order. split_and!; [done|done|simpl; lia]. }
  simpl in Hi. destruct (topo_step leaf (leaves ++ new) cc order Hi) as (v & Hv & Hstep). cbn [topo_layer]. rewrite Hv. simpl.
  assert (∀ n (b : bool) p, (if b then (leaves ++ new) ++ [p] else leaves ++ new : list ID) =
    leaves ++ (if b then new ++ [p] else new) ∧ n = n :> Z) as Hif.
  { intros n [] p; [by rewrite <- app_assoc|done]. }
  destruct (vv_parent v) as [p|].
  - cbv zeta in Hstep. rewrite (proj1 (Hif 0 _ _)) in Hstep. destruct (IH _ _ _ Hstep) as (new' & cc' & order' & -> & Hi' & Hlen).
    exists new', cc', order'. split_and!; [done|done|]. rewrite Hlen, length_app. simpl. lia.
  - destruct (IH _ _ _ Hstep) as (new' & cc' & order' & -> & Hi' & Hlen).
    exists new', cc', order'. split_and!; [done|done|]. rewrite Hlen, length_app. simpl. lia.
Qed.

Lemma topo_size ready cc order : topo_inv ready cc order → (length order + length ready ≤ base.size vertices)%nat.
Proof.
  intros Hi. rewrite <- length_app, <- size_dom, <- (size_list_to_set (C := gset ID)) by apply Hi.
  apply subseteq_size. intros x. rewrite elem_of_list_to_set. intros [? _]%(ti_ready _ _ _ Hi). done.
Qed.

Lemma topo_loop_spec fuel leaves cc order :
  topo_inv leaves cc order → (base.size vertices - length order ≤ fuel)%nat →
  ∃ order' cc', topo_loop fuel vertices leaves cc order = Some order' ∧ topo_inv [] cc' order'.
Proof.
  revert leaves cc order. induction fuel as [|fuel IH]; intros leaves cc order Hi Hf;
    (destruct leaves as [|leaf leaves]; [by exists order, cc|]).
  { apply topo_size in Hi. simpl in Hi. lia. }
  cbn [topo_loop]. rewrite <- (app_nil_r (leaf :: leaves)) in Hi.
  destruct (topo_layer_spec (leaf :: leaves) [] cc order Hi) as (new & cc' & order' & -> & Hi' & Hlen). simpl in Hlen. simpl.
  apply (IH _ _ _ Hi'). lia.
Qed.

Lemma topo_complete cc order x : topo_inv [] cc order → x ∈ dom vertices → x ∈ order.
Proof.
  intros Hi. rewrite <- (app_nil_r order) at 1.
  remember (base.size (subtree x)) as n eqn:Hn. assert (base.size (subtree x) ≤ n)%nat as Hle by lia. clear Hn.
  revert x Hle. induction n as [|n IH]; intros x Hle Hx.
  all: apply (ti_ready _ _ _ Hi); split; [done|]; apply unvisited_nil; intros c [Hc Hp]%elem_of_graph_kids;
    pose proof (subtree_child x c Hp Hc).
  - lia.
  - specialize (IH c ltac:(lia) Hc). by rewrite app_nil_r in IH.
Qed.

Lemma count_fold visited cc x :
  x ∈ dom vertices →
  (x ∈ visited ∨ cc !! x = Some (Z.of_nat (length (kids x)))) →
  foldl (λ cc id, match vertices !! id with
                  | Some v => <[id := Z.of_nat (length (vv_descendants v))]> cc
                  | None => cc
                  end) cc visited !! x = Some (Z.of_nat (length (kids x))).
Proof.
  intros [v Hv]%elem_of_dom. revert cc. induction visited as [|y visited IH]; intros cc Hx; simpl.
  { destruct Hx as [Hx|Hx]; [by apply not_elem_of_nil in Hx|done]. }
  apply IH. destruct (decide (y = x)) as [->|Hne].
  - right. rewrite Hv, lookup_insert_eq. unfold kids. by rewrite Hv.
  - destruct Hx as [[->|Hx]%elem_of_cons|Hx]; [done|by left|right].
    destruct (vertices !! y); [by rewrite lookup_insert_ne|done].
Qed.

(** The traversal visits every vertex once, after its children. *)
Lemma topologicalSort_spec :
  ∃ order, topologicalSortTraversal g = Some order ∧ NoDup order ∧ (∀ x, x ∈ order ↔ x ∈ dom vertices) ∧
    ∀ l1 x l2, order = l1 ++ x :: l2 → ∀ c, c ∈ kids x → c ∈ l1.
Proof.
  unfold topologicalSortTraversal. destruct graph_traverse_spec as (visited & -> & Hvis). simpl.
  set (cc := foldl _ _ _). assert (topo_inv (vg_leaves g) cc []) as Hi.
  { assert (∀ x, unvisited [] x = kids x) as Hun.
    { intros x. unfold unvisited. induction (kids x) as [|c l IH]; [done|]. rewrite filter_cons, decide_True by apply not_elem_of_nil. by rewrite IH. }
    split.
    - simpl. apply (go_leaves_nodup _ _ Hg).
    - intros x. simpl. rewrite (go_leaves _ _ Hg), Hun, elem_of_dom. unfold kids. split.
      + intros (v & Hv & Hd). rewrite Hv. split; [by exists v|done].
      + intros [[v Hv] Hk]. rewrite Hv in Hk. by exists v.
    - intros x Hx. rewrite Hun. apply count_fold; [done|]. left. by apply Hvis.
    - intros l1 x l2 Heq. by destruct l1. }
  destruct (topo_loop_spec (vg_vertexCount g) (vg_leaves g) cc [] Hi) as (order & cc' & -> & Hi').
  { rewrite (go_count _ _ Hg). lia. }
  exists order. pose proof (ti_nodup _ _ _ Hi') as Hnd. rewrite app_nil_r in Hnd. split_and!; [done|done| |apply Hi'].
  intros x. split; [|by eapply topo_complete]. intros Hx. apply (ti_ready _ _ _ Hi'). by rewrite app_nil_r.
Qed.

(** ** Transitive votes *)

Context (Hvotes : bag_ok votes).
#[local] Abbreviation tvotes := (transitive parents rank (List votes) (Count votes)).

Lemma tvotes_outside x : x ∉ dom vertices → tvotes x = 0.
Proof.
  intros Hx. apply sum_over_zero. intros y Hy. unfold above. rewrite decide_False; [lia|].
  intros Ha. apply Hx, (go_dom _ _ Hg). by exists y.
Qed.

Lemma tvotes_eq x : tvotes x = Count votes x + sum_over tvotes (kids x).
Proof.
  rewrite (transitive_children parents rank Hrank (List votes) (Count votes) x (kids x)).
  - f_equal. case_decide as Hx; [done|]. rewrite elem_of_List in Hx by done. pose proof (Count_nonneg votes x Hvotes). lia.
  - apply NoDup_map_range_keys.
  - apply graph_kids_NoDup.
  - intros c. rewrite elem_of_graph_kids. tauto.
  - intros c y Hc Hy Ha. apply elem_of_graph_kids. split; [|done]. apply (go_dom _ _ Hg). by exists y.
Qed.

Lemma tvotes_nonneg x : 0 ≤ tvotes x.
Proof. apply transitive_nonneg. intros y _. by apply Count_nonneg. Qed.

(** The votes that have reached [x] when the vertices [seen] have been visited. *)
Definition reached (seen : list ID) (x : ID) : Z :=
  Count votes x + sum_over (λ c, if decide (c ∈ seen) then tvotes c else 0) (kids x).

Lemma reached_all seen x : (∀ c, c ∈ kids x → c ∈ seen) → reached seen x = tvotes x.
Proof.
  intros Hall. unfold reached. rewrite tvotes_eq. f_equal. apply sum_over_ext. intros c Hc. by rewrite decide_True by auto.
Qed.

Lemma reached_snoc seen id x :
  id ∉ seen → reached (seen ++ [id]) x = reached seen x + if decide (id ∈ kids x) then tvotes id else 0.
Proof.
  intros Hn. unfold reached. rewrite (sum_over_ext (λ c, if decide (c ∈ seen ++ [id]) then tvotes c else 0)
    (λ c, (if decide (c ∈ seen) then tvotes c else 0) + if decide (c = id) then tvotes c else 0)).
  - rewrite sum_over_add, (sum_over_single tvotes) by apply graph_kids_NoDup. lia.
  - intros c _. destruct (decide (c = id)) as [->|Hne].
    + rewrite decide_True, (decide_False (P := id ∈ seen)) by set_solver. lia.
    + destruct (decide (c ∈ seen)); [rewrite decide_True by set_solver|rewrite decide_False by set_solver]; lia.
Qed.

Lemma Count_AddCount_nonneg (b : Bag ID) x n y :
  0 ≤ n → Count (AddCount b x n) y = Count b y + if decide (y = x) then n else 0.
Proof. intros Hn. rewrite Count_AddCount. case_decide; lia. Qed.

Lemma transitive_fold rest seen b :
  NoDup (seen ++ rest) → (∀ x, x ∈ seen ++ rest ↔ x ∈ dom vertices) →
  (∀ l1 x l2, seen ++ rest = l1 ++ x :: l2 → ∀ c, c ∈ kids x → c ∈ l1) →
  bag_ok b → (∀ x, Count b x = reached seen x) →
  let b' := foldl (λ b id, match vertices !! id with
                           | Some (mkVertex _ (Some p) _) => AddCount b p (Count b id)
                           | _ => b
                           end) b rest in
  bag_ok b' ∧ ∀ x, Count b' x = tvotes x.
Proof.
  revert seen b. induction rest as [|id rest IH]; intros seen b Hnd Hdom Hbefore Hb Hcount; simpl.
  { split; [done|]. intros x. rewrite Hcount. apply reached_all. intros c [Hc _]%elem_of_graph_kids.
    apply Hdom in Hc. by rewrite app_nil_r in Hc. }
  assert (id ∈ dom vertices) as [v Hv]%elem_of_dom by (apply Hdom; set_solver).
  assert (id ∉ seen) as Hn. { apply NoDup_app in Hnd as (_ & Hd & _). intros Hs. apply (Hd id Hs). set_solver. }
  assert (Count b id = tvotes id) as Hid by (rewrite Hcount; apply reached_all; by apply (Hbefore seen id rest)).
  assert (∀ b', bag_ok b' → (∀ x, Count b' x = reached (seen ++ [id]) x) →
    let b'' := foldl (λ b id, match vertices !! id with
                              | Some (mkVertex _ (Some p) _) => AddCount b p (Count b id)
                              | _ => b
                              end) b' rest in
    bag_ok b'' ∧ ∀ x, Count b'' x = tvotes x) as Hnext.
  { intros b' Hb' Hc'. apply (IH (seen ++ [id])); try done; rewrite <- app_assoc; done. }
  rewrite Hv. pose proof (go_parent _ _ Hg id v Hv) as Hp. destruct v as [vid vp vd]. simpl in Hp. destruct vp as [p|].
  - apply Hnext; [by apply AddCount_ok|]. intros x. rewrite reached_snoc by done.
    rewrite Count_AddCount_nonneg, Hcount, Hid by (rewrite Hid; apply tvotes_nonneg). f_equal.
    assert (x = p ↔ id ∈ kids x) as Hiff.
    { rewrite elem_of_graph_kids, <- Hp. split; [intros ->; split; [by eapply elem_of_dom_2|done]|]. intros [_ [= ->]]. done. }
    repeat case_decide; tauto || done.
  - apply Hnext; [done|]. intros x. rewrite reached_snoc, Hcount by done. rewrite decide_False; [lia|].
    rewrite elem_of_graph_kids, <- Hp. by intros [_ ?].
Qed.

Lemma compute_spec :
  ∃ b, computeTransitiveVoteCountGraph g votes = Some b ∧ bag_ok b ∧ ∀ x, Count b x = tvotes x.
Proof.
  unfold computeTransitiveVoteCountGraph. destruct topologicalSort_spec as (order & -> & Hnd & Hdom & Hbefore). simpl.
  rewrite Clone_map by done. eexists. split; [done|].
  apply (transitive_fold order []); try done; last first.
  { intros x. unfold reached. rewrite sum_over_zero; [by rewrite Z.add_0_r|]. intros c _.
    by rewrite decide_False by apply not_elem_of_nil. }
  apply bag_of_map_ok, (bag_pos _ Hvotes).
Qed.
End Traversal.
End Graph.
