(* ===== verification/PrefixGroups.v ===== *)
(** * Shared bit prefixes of identifiers (package [snow/consensus/snowman/poll], [prefix.go])

    Competing blocks share a snow instance on every common bit prefix.  A poll
    finds these prefixes by splitting a set of identifiers bit by bit.

    The groups are the elements of the work list [pgs], and a [*prefixGroup] is
    the position of its group in that list. *)
From S2P Require Import Prelude Ids.

Record prefixGroup : Type := mkGroup {
  pg_index : Z;
  pg_members : list ID;
  pg_children : arr2 (option nat);
}.

(** A group that has not been split. *)
Definition new_group (index : Z) (members : list ID) : prefixGroup :=
  mkGroup index members (mkArr2 None None).

(** [canSplit] *)
Definition canSplit (pg : prefixGroup) : bool := (1 <? length (pg_members pg))%nat.

(** [isBifurcation] *)
Definition isBifurcation (pg : prefixGroup) : bool :=
  match pg_children pg with mkArr2 (Some _) (Some _) => true | _ => false end.

(** The members whose bit at the index of the group is [b]. *)
Definition members_with (pg : prefixGroup) (b : Z) : list ID :=
  filter (λ id, Bit id (pg_index pg) = b) (pg_members pg).

(** [split]: the two groups, [None] for an empty one.  A bit beyond the last is
    an index out of range. *)
Definition pg_split (pg : prefixGroup) : option (arr2 (option prefixGroup)) :=
  if NumBits <=? pg_index pg then None else
  let child b := match members_with pg b with
                 | [] => None
                 | members => Some (new_group (pg_index pg + 1) members)
                 end in
  Some (mkArr2 (child 0) (child 1)).

(** The inner loop of [longestSharedPrefixes]: the group becomes its only
    descendant ([determineDescendant], which panics without one) until it is a
    bifurcation. *)
Fixpoint split_loop (fuel : nat) (pg : prefixGroup) : option (prefixGroup * prefixGroup * prefixGroup) :=
  match fuel with
  | O => None
  | S fuel =>
      children ← pg_split pg;
      match children with
      | mkArr2 (Some child0) (Some child1) => Some (pg, child0, child1)
      | mkArr2 (Some descendant) None | mkArr2 None (Some descendant) => split_loop fuel descendant
      | mkArr2 None None => None
      end
  end.

(** The loop over the work list. *)
Fixpoint split_all (fuel : nat) (i : nat) (pgs : list prefixGroup) : option (list prefixGroup) :=
  match pgs !! i with
  | None => Some pgs
  | Some pg =>
      match fuel with
      | O => None
      | S fuel =>
          if negb (canSplit pg) then split_all fuel (S i) pgs else
          '(pg, child0, child1) ← split_loop (Z.to_nat NumBits) pg;
          let n := length pgs in
          split_all fuel (S i)
            (<[i := mkGroup (pg_index pg) (pg_members pg) (mkArr2 (Some n) (Some (S n)))]> pgs ++ [child0; child1])
      end
  end.

(** [deduplicate] *)
Fixpoint deduplicate_from (used : gset ID) (l : list ID) : list ID :=
  match l with
  | [] => []
  | id :: l =>
      if decide (id ∈ used) then deduplicate_from used l
      else id :: deduplicate_from ({[id]} ∪ used) l
  end.

Definition deduplicate (l : list ID) : list ID := deduplicate_from ∅ l.

(** [longestSharedPrefixes]: the groups, the first of which is the result. *)
Definition longestSharedPrefixes (idList : list ID) : option (list prefixGroup) :=
  let idList := deduplicate idList in
  split_all (S (2 * length idList)) 0 [new_group 0 idList].

(** [prefixGroup.traverse]: the groups in the order in which [f] is called on
    them. *)
Fixpoint pg_traverse (fuel : nat) (pgs : list prefixGroup) (i : nat) : option (list prefixGroup) :=
  match fuel with
  | O => None
  | S fuel =>
      pg ← pgs !! i;
      let below c := match c with Some c => pg_traverse fuel pgs c | None => Some [] end in
      l0 ← below (at0 (pg_children pg));
      l1 ← below (at1 (pg_children pg));
      Some (pg :: l0 ++ l1)
  end.

(** [bifurcationsWithCommonPrefix] of the first group: the lists [f] is called
    on. *)
Definition bifurcationsWithCommonPrefix (pgs : list prefixGroup) : option (list (list ID)) :=
  l ← pg_traverse (length pgs) pgs 0;
  Some (map pg_members (filter (λ pg, isBifurcation pg = true ∧ 0 < pg_index pg) l)).

(** ** The shared prefixes, by recursion on the bits *)

Definition zeros (index : Z) (members : list ID) : list ID := filter (λ id, Bit id index = 0) members.
Definition ones (index : Z) (members : list ID) : list ID := filter (λ id, Bit id index = 1) members.

Fixpoint groups (bits : nat) (index : Z) (members : list ID) : list (list ID) :=
  match bits with
  | O => []
  | S bits =>
      match members with
      | [] | [_] => []
      | _ =>
          match zeros index members, ones index members with
          | [], m | m, [] => groups bits (index + 1) m
          | m0, m1 => (if 0 <? index then [members] else []) ++ groups bits (index + 1) m0 ++ groups bits (index + 1) m1
          end
      end
  end.

Definition bits_left (index : Z) : nat := Z.to_nat (NumBits - index).

(** Members that agree on the bits before the index of their group. *)
Definition group_ok (index : Z) (members : list ID) : Prop :=
  0 ≤ index ≤ NumBits ∧ NoDup members ∧ ∀ x y, x ∈ members → y ∈ members → agree 0 index x y.

Lemma Bit_cases id i : 0 ≤ i → Bit id i = 0 ∨ Bit id i = 1.
Proof. intros Hi. rewrite Bit_bit_of by done. destruct (bit_of id i); auto. Qed.

Lemma zeros_ones_length index members :
  0 ≤ index → length members = (length (zeros index members) + length (ones index members))%nat.
Proof.
  intros Hi. unfold zeros, ones. induction members as [|x l IH]; [done|]. rewrite !filter_cons.
  destruct (Bit_cases x index Hi) as [Hb|Hb]; rewrite Hb; simpl; lia.
Qed.

Lemma agree_next index x y : 0 ≤ index → agree 0 index x y → Bit x index = Bit y index → agree 0 (index + 1) x y.
Proof.
  intros Hi Ha Hb i Hr. destruct (decide (i = index)) as [->|]; [|apply Ha; lia].
  rewrite !Bit_bit_of in Hb by done. by destruct (bit_of x index), (bit_of y index).
Qed.

Lemma group_ok_side index members b :
  group_ok index members → index < NumBits → group_ok (index + 1) (filter (λ id, Bit id index = b) members).
Proof.
  intros (Hi & Hnd & Ha) Hlt. split_and!; [lia|lia|by apply NoDup_filter|].
  intros x y [Hx Hxm]%list_elem_of_filter [Hy Hym]%list_elem_of_filter. apply agree_next; [lia|by apply Ha|congruence].
Qed.

(** Two distinct identifiers differ before the last bit. *)
Lemma group_ok_bits index members : group_ok index members → (1 < length members)%nat → index < NumBits.
Proof.
  intros (Hi & Hnd & Ha) Hlen. destruct (decide (index = NumBits)) as [->|]; [|lia]. exfalso.
  destruct members as [|x [|y l]]; simpl in Hlen; try lia. apply NoDup_cons in Hnd as [Hx _]. apply Hx.
  rewrite (agree_full x y) by (apply Ha; set_solver). set_solver.
Qed.

Lemma filter_all {A} (P : A → Prop) `{!∀ x, Decision (P x)} l : length (filter P l) = length l → filter P l = l.
Proof.
  induction l as [|x l IH]; [done|]. rewrite filter_cons. case_decide; simpl; intros Hl; [f_equal; apply IH; lia|].
  pose proof (length_filter P l). lia.
Qed.

Lemma zeros_none index members : 0 ≤ index → ones index members = [] → zeros index members = members.
Proof. intros Hi Ho. apply filter_all. pose proof (zeros_ones_length index members Hi) as Hl. rewrite Ho in Hl. simpl in Hl. unfold zeros in Hl. lia. Qed.

Lemma ones_none index members : 0 ≤ index → zeros index members = [] → ones index members = members.
Proof. intros Hi Hz. apply filter_all. pose proof (zeros_ones_length index members Hi) as Hl. rewrite Hz in Hl. simpl in Hl. unfold ones in Hl. lia. Qed.

Lemma groups_small n index members : (length members ≤ 1)%nat → groups n index members = [].
Proof. destruct n, members as [|x [|y l]]; simpl; try done; lia. Qed.

Lemma groups_swallow n index members :
  0 ≤ index → (1 < length members)%nat → zeros index members = [] ∨ ones index members = [] →
  groups (S n) index members = groups n (index + 1) members.
Proof.
  intros Hi Hl Hside. destruct members as [|x [|y l]]; simpl in Hl; try lia. cbn [groups].
  destruct Hside as [Hz|Ho].
  - rewrite Hz, (ones_none _ _ Hi Hz). done.
  - rewrite Ho, (zeros_none _ _ Hi Ho). done.
Qed.

Lemma groups_bifurcation n index members :
  (1 < length members)%nat → zeros index members ≠ [] → ones index members ≠ [] →
  groups (S n) index members = (if 0 <? index then [members] else []) ++
    groups n (index + 1) (zeros index members) ++ groups n (index + 1) (ones index members).
Proof.
  intros Hl Hz Ho. destruct members as [|x [|y l]]; simpl in Hl; try lia. cbn [groups].
  by destruct (zeros index (x :: y :: l)), (ones index (x :: y :: l)).
Qed.

Lemma bits_left_S index : index < NumBits → bits_left index = S (bits_left (index + 1)).
Proof. unfold bits_left, NumBits. lia. Qed.

Lemma split_loop_spec fuel index members :
  group_ok index members → (1 < length members)%nat → (bits_left index ≤ fuel)%nat →
  ∃ j, index ≤ j < NumBits ∧ group_ok j members ∧ zeros j members ≠ [] ∧ ones j members ≠ [] ∧
    split_loop fuel (new_group index members) =
      Some (new_group j members, new_group (j + 1) (zeros j members), new_group (j + 1) (ones j members)) ∧
    groups (bits_left index) index members = groups (bits_left j) j members.
Proof.
  revert index. induction fuel as [|fuel IH]; intros index Hok Hl Hf; pose proof (group_ok_bits _ _ Hok Hl) as Hlt;
    rewrite (bits_left_S index Hlt) in Hf; [lia|]. pose proof Hok as (Hi & _).
  cbn [split_loop]. unfold pg_split. cbn [pg_index new_group]. destruct (Z.leb_spec NumBits index) as [|_]; [lia|]. simpl.
  unfold members_with. cbn [pg_index pg_members new_group]. fold (zeros index members) (ones index members).
  destruct (zeros index members) as [|z0 zs] eqn:Hz, (ones index members) as [|o0 os] eqn:Ho.
  - pose proof (zeros_ones_length index members ltac:(lia)) as Hs. rewrite Hz, Ho in Hs. simpl in Hs. lia.
  - assert (o0 :: os = members) as Hm by (rewrite <- Ho; apply ones_none; [lia|done]). rewrite Hm.
    destruct (IH (index + 1)) as (j & Hj & Hokj & Hzj & Hoj & Hrun & Hg); [|done|lia|].
    { rewrite <- Hm at 1. rewrite <- Ho. apply group_ok_side; [done|lia]. }
    exists j. split_and!; try done; [lia|lia|]. rewrite <- Hg, bits_left_S by lia. apply groups_swallow; [lia|done|by left].
  - assert (z0 :: zs = members) as Hm by (rewrite <- Hz; apply zeros_none; [lia|done]). rewrite Hm.
    destruct (IH (index + 1)) as (j & Hj & Hokj & Hzj & Hoj & Hrun & Hg); [|done|lia|].
    { rewrite <- Hm at 1. rewrite <- Hz. apply group_ok_side; [done|lia]. }
    exists j. split_and!; try done; [lia|lia|]. rewrite <- Hg, bits_left_S by lia. apply groups_swallow; [lia|done|by right].
  - exists index. rewrite Hz, Ho. split_and!; try done; lia.
Qed.

(** ** The work list computes the recursion *)

(** The parameters with which the groups of the work list were created. *)
Implicit Types (orig : list (Z * list ID)) (pgs : list prefixGroup).

Definition done_at orig pgs (j : nat) : Prop :=
  ∃ index members, orig !! j = Some (index, members) ∧
  ( ((length members ≤ 1)%nat ∧ pgs !! j = Some (new_group index members)) ∨
    ∃ k a b, (j < a)%nat ∧ (j < b)%nat ∧ index ≤ k < NumBits ∧ zeros k members ≠ [] ∧ ones k members ≠ [] ∧
      groups (bits_left index) index members = groups (bits_left k) k members ∧
      pgs !! j = Some (mkGroup k members (mkArr2 (Some a) (Some b))) ∧
      orig !! a = Some (k + 1, zeros k members) ∧ orig !! b = Some (k + 1, ones k members) ).

Record work_inv orig pgs (i : nat) : Prop := {
  wi_length : length orig = length pgs;
  wi_ok j index members : orig !! j = Some (index, members) → group_ok index members;
  wi_todo j index members : (i ≤ j)%nat → orig !! j = Some (index, members) → pgs !! j = Some (new_group index members);
  wi_done j : (j < i)%nat → (j < length pgs)%nat → done_at orig pgs j;
}.

(** The splits that remain: a group of [n] members has at most [n - 1] of them. *)
Definition work (orig : list (Z * list ID)) (i : nat) : nat :=
  sum_list_with (λ '(_, members), 2 * length members - 1)%nat (drop i orig).

Lemma done_at_ext orig pgs orig' pgs' j :
  done_at orig pgs j → (∀ k x, orig !! k = Some x → orig' !! k = Some x) → pgs' !! j = pgs !! j → done_at orig' pgs' j.
Proof.
  intros (index & members & Ho & Hd) Hext Hj. exists index, members. split; [by apply Hext|].
  destruct Hd as [[Hl Hp]|(k & a & b & Ha & Hb & Hk & Hz & Hon & Hg & Hp & Hoa & Hob)]; [left; split; congruence|right].
  exists k, a, b. split_and!; first [lia | done | by rewrite Hj | by apply Hext].
Qed.

Lemma split_all_spec fuel orig pgs i :
  work_inv orig pgs i → (work orig i < fuel)%nat → (∀ j index members, (i ≤ j)%nat → orig !! j = Some (index, members) → members ≠ []) →
  ∃ orig' pgs', split_all fuel i pgs = Some pgs' ∧ work_inv orig' pgs' (length pgs') ∧
    (length pgs ≤ length pgs')%nat ∧ ∀ k x, orig !! k = Some x → orig' !! k = Some x.
Proof.
  revert orig pgs i. induction fuel as [|fuel IH]; intros orig pgs i Hi Hf Hne; [lia|].
  pose proof (wi_length _ _ _ Hi) as Hlen. cbn [split_all]. destruct (pgs !! i) as [pg|] eqn:Hpg; last first.
  { apply lookup_ge_None in Hpg. exists orig, pgs. split_and!; try done.
    destruct Hi as [H1 H2 H3 H4]. split; try done.
    - intros j index members Hj Ho. apply lookup_lt_Some in Ho. lia.
    - intros j Hj _. apply H4; lia. }
  pose proof (lookup_lt_Some _ _ _ Hpg) as Hlt. destruct (lookup_lt_is_Some_2 orig i) as [[index members] Ho]; [lia|].
  pose proof (wi_todo _ _ _ Hi i index members ltac:(lia) Ho) as Hpg'. rewrite Hpg in Hpg'. injection Hpg' as ->.
  pose proof (wi_ok _ _ _ Hi i index members Ho) as Hok. pose proof (Hne i index members ltac:(lia) Ho) as Hmem.
  assert (work orig i = (2 * length members - 1) + work orig (S i))%nat as Hwork.
  { unfold work. by rewrite (drop_S orig (index, members) i Ho). }
  unfold canSplit. cbn [pg_members new_group]. destruct (Nat.ltb_spec 1 (length members)) as [Hl|Hl]; cbn [negb].
  - destruct (split_loop_spec (Z.to_nat NumBits) index members Hok Hl) as (k & Hk & Hokk & Hz & Hon & Hrun & Hg).
    { unfold bits_left, NumBits. destruct Hok as ([??] & _). lia. }
    rewrite Hrun. cbn [mbind option_bind pg_index pg_members new_group].
    pose proof (zeros_ones_length k members ltac:(destruct Hok; lia)) as Hsum.
    set (orig' := orig ++ [(k + 1, zeros k members); (k + 1, ones k members)]).
    assert (∀ j x, orig !! j = Some x → orig' !! j = Some x) as Hext by (intros; by apply lookup_app_l_Some).
    assert (length (zeros k members) ≠ 0%nat ∧ length (ones k members) ≠ 0%nat) as [Hz' Hon'].
    { split; intros Hn; apply length_zero_iff_nil in Hn; done. }
    destruct (IH orig' (<[i := mkGroup k members (mkArr2 (Some (length pgs)) (Some (S (length pgs))))]> pgs ++
      [new_group (k + 1) (zeros k members); new_group (k + 1) (ones k members)]) (S i)) as (orig'' & pgs' & Hres & Hi' & Hle & Hext').
    + split.
      * unfold orig'. rewrite !length_app, length_insert. simpl. lia.
      * intros j idx mem. unfold orig'. intros [Hj|[Hj Hj']]%lookup_app_Some; [by apply (wi_ok _ _ _ Hi j)|].
        destruct (j - length orig)%nat as [|[|]]; [injection Hj' as <- <-..|done]; (apply group_ok_side; [exact Hokk|lia]).
      * intros j idx mem Hj. unfold orig'. intros [Hj'|[Hge Hj']]%lookup_app_Some.
        -- apply lookup_app_l_Some. rewrite list_lookup_insert_ne by lia. apply (wi_todo _ _ _ Hi); [lia|done].
        -- rewrite lookup_app_r by (rewrite length_insert; lia). rewrite length_insert, <- Hlen.
           destruct (j - length orig)%nat as [|[|]]; [by injection Hj' as <- <-..|done].
      * intros j Hj _. destruct (decide (j = i)) as [->|Hji].
        -- exists index, members. split; [by apply Hext|]. right. exists k, (length pgs), (S (length pgs)).
           split_and!; try done; try lia.
           ++ rewrite lookup_app_l by (rewrite length_insert; lia). by rewrite list_lookup_insert_eq by lia.
           ++ unfold orig'. rewrite lookup_app_r by lia. rewrite Hlen, Nat.sub_diag. done.
           ++ unfold orig'. rewrite lookup_app_r by lia. by replace (S (length pgs) - length orig)%nat with 1%nat by lia.
        -- eapply done_at_ext; [apply (wi_done _ _ _ Hi j); lia|done|].
           rewrite lookup_app_l by (rewrite length_insert; lia). by rewrite list_lookup_insert_ne.
    + unfold work, orig' in *. rewrite drop_app_le by lia. rewrite sum_list_with_app. cbn [sum_list_with]. lia.
    + intros j idx mem Hj. unfold orig'. intros [Hj'|[Hge Hj']]%lookup_app_Some; [apply (Hne j idx); [lia|done]|].
      destruct (j - length orig)%nat as [|[|]]; [by injection Hj' as _ <-..|done].
    + exists orig'', pgs'. split_and!; [exact Hres|done| |]; [|by intros j x ?%Hext%Hext'].
      rewrite length_app, length_insert in Hle. lia.
  - destruct (IH orig pgs (S i)) as (orig' & pgs' & Hres & Hi' & Hle & Hext).
    + destruct Hi as [H1 H2 H3 H4]. split; try done.
      * intros j idx mem Hj. apply H3. lia.
      * intros j Hj Hjl. destruct (decide (j = i)) as [->|]; [|apply H4; lia]. exists index, members. split; [done|]. by left.
    + assert (length members ≠ 0)%nat by (by destruct members). lia.
    + intros j idx mem Hj. apply Hne. lia.
    + by exists orig', pgs'.
Qed.

(** The lists that the traversal of a group reports. *)
Definition reported (l : list prefixGroup) : list (list ID) :=
  map pg_members (filter (λ pg, isBifurcation pg = true ∧ 0 < pg_index pg) l).

Lemma traverse_groups fuel orig pgs j index members :
  work_inv orig pgs (length pgs) → orig !! j = Some (index, members) → (length pgs - j ≤ fuel)%nat →
  ∃ l, pg_traverse fuel pgs j = Some l ∧ reported l = groups (bits_left index) index members.
Proof.
  intros Hi. revert j index members. induction fuel as [|fuel IH]; intros j index members Ho Hf.
  { apply lookup_lt_Some in Ho. rewrite (wi_length _ _ _ Hi) in Ho. lia. }
  pose proof (lookup_lt_Some _ _ _ Ho) as Hlt. rewrite (wi_length _ _ _ Hi) in Hlt.
  destruct (wi_done _ _ _ Hi j Hlt Hlt) as (index' & members' & Ho' & Hd). rewrite Ho in Ho'. injection Ho' as <- <-.
  cbn [pg_traverse]. destruct Hd as [[Hl Hp]|(k & a & b & Ha & Hb & Hk & Hz & Hon & Hg & Hp & Hoa & Hob)]; rewrite Hp; cbn -[pg_traverse].
  - eexists. split; [done|]. unfold reported. rewrite filter_cons, decide_False by (intros [? _]; done). simpl. by rewrite groups_small.
  - destruct (IH a _ _ Hoa) as (la & Hla & Hra); [lia|]. destruct (IH b _ _ Hob) as (lb & Hlb & Hrb); [lia|].
    rewrite Hla. simpl. rewrite Hlb. simpl. eexists. split; [done|].
    pose proof (zeros_ones_length k members) as Hlen. destruct (wi_ok _ _ _ Hi j _ _ Ho) as ([Hi0 _] & _).
    specialize (Hlen ltac:(lia)).
    assert (length (zeros k members) ≠ 0%nat ∧ length (ones k members) ≠ 0%nat) as [Hz' Hon'].
    { split; intros Hn; apply length_zero_iff_nil in Hn; done. }
    rewrite Hg, (bits_left_S k) by lia. rewrite groups_bifurcation by (done || lia). rewrite <- Hra, <- Hrb.
    unfold reported. rewrite filter_cons. simpl. destruct (Z.ltb_spec 0 k).
    + rewrite decide_True by done. simpl. by rewrite filter_app, List.map_app.
    + rewrite decide_False by (intros [_ ?]; lia). by rewrite filter_app, List.map_app.
Qed.

Lemma deduplicate_from_spec used l :
  NoDup (deduplicate_from used l) ∧ ∀ x, x ∈ deduplicate_from used l ↔ x ∈ l ∧ x ∉ used.
Proof.
  revert used. induction l as [|id l IH]; intros used; simpl; [split; [apply NoDup_nil_2|set_solver]|].
  destruct (decide (id ∈ used)); destruct (IH used) as [H1 H2]; destruct (IH ({[id]} ∪ used)) as [H3 H4].
  - split; [done|]. intros x. rewrite H2. set_solver.
  - split; [apply NoDup_cons; split; [|done]; rewrite H4; set_solver|]. intros x. rewrite elem_of_cons, H4.
    destruct (decide (x = id)); set_solver.
Qed.

Lemma bifurcations_groups l :
  ∃ pgs, longestSharedPrefixes l = Some pgs ∧
    bifurcationsWithCommonPrefix pgs = Some (groups (bits_left 0) 0 (deduplicate l)).
Proof.
  unfold longestSharedPrefixes. destruct (deduplicate_from_spec ∅ l) as [Hnd _]. fold (deduplicate l) in Hnd.
  set (ids := deduplicate l) in *.
  assert (work_inv [(0, ids)] [new_group 0 ids] 0) as Hi.
  { split; try done; try lia.
    - intros [|j] index members Hj; simplify_eq/=. split_and!; [done|done|done|]. intros x y _ _ i Hr. lia.
    - intros [|j] index members _ Hj; by simplify_eq/=. }
  destruct (decide (ids = [])) as [Hemp|Hemp].
  { rewrite Hemp. eexists. split; [done|]. done. }
  destruct (split_all_spec (S (2 * length ids)) [(0, ids)] [new_group 0 ids] 0 Hi) as (orig & pgs & -> & Hi' & Hle & Hext).
  { unfold work. simpl. lia. }
  { intros [|j] index members _ Hj; by simplify_eq/=. }
  exists pgs. split; [done|]. unfold bifurcationsWithCommonPrefix.
  destruct (traverse_groups (length pgs) orig pgs 0 0 ids Hi') as (lst & -> & Hr); [by apply Hext|lia|].
  rewrite <- Hr. reflexivity.
Qed.

(** ** The groups are the sets of identifiers that share a prefix *)

Definition sharing (k : Z) (id : ID) (members : list ID) : list ID :=
  filter (λ y, EqualSubset 0 k id y = true) members.

Lemma EqualSubset_prefix k x y : 0 < k ≤ NumBits → EqualSubset 0 k x y = true ↔ agree 0 k x y.
Proof. intros Hk. apply EqualSubset_true; lia. Qed.

Lemma filter_true {A} (P : A → Prop) `{!∀ x, Decision (P x)} (l : list A) : (∀ x, x ∈ l → P x) → filter P l = l.
Proof.
  induction l as [|x l IH]; intros HP; [done|]. rewrite filter_cons, decide_True by (apply HP; set_solver). f_equal.
  apply IH. set_solver.
Qed.

Lemma filter_filter_impl {A} (P Q : A → Prop) `{!∀ x, Decision (P x), !∀ x, Decision (Q x)} (l : list A) :
  (∀ x, P x → Q x) → filter P (filter Q l) = filter P l.
Proof.
  intros HPQ. induction l as [|x l IH]; [done|]. rewrite !filter_cons. destruct (decide (Q x)).
  - rewrite filter_cons. case_decide; by rewrite IH.
  - rewrite (decide_False (P := P x)) by auto. done.
Qed.

Lemma sharing_group k index id members :
  group_ok index members → id ∈ members → 0 < k ≤ index → sharing k id members = members.
Proof.
  intros (Hi & _ & Ha) Hid Hk. apply filter_true. intros y Hy. apply EqualSubset_prefix; [lia|].
  intros i Hr. apply (Ha id y Hid Hy). lia.
Qed.

Lemma sharing_side k index id b members :
  0 ≤ index < k → k ≤ NumBits → Bit id index = b →
  sharing k id (filter (λ y, Bit y index = b) members) = sharing k id members.
Proof.
  intros Hi Hk <-. apply filter_filter_impl. intros y Hy%EqualSubset_prefix; [|lia].
  rewrite !Bit_bit_of by lia. by rewrite (Hy index) by lia.
Qed.

Lemma groups_complete n index members k id :
  n = bits_left index → group_ok index members → id ∈ members → 0 < k ≤ NumBits → (0 < index ∨ index < k) →
  (1 < length (sharing k id members))%nat → sharing k id members ∈ groups n index members.
Proof.
  revert index members. induction n as [|n IH]; intros index members Hn Hok Hid Hk Hpos Hlen;
    (assert (1 < length members)%nat as Hl
      by (unfold sharing in Hlen; pose proof (length_filter (λ y, EqualSubset 0 k id y = true) members); lia));
    pose proof (group_ok_bits _ _ Hok Hl) as Hlt; rewrite (bits_left_S index Hlt) in Hn; [done|]. injection Hn as Hn.
  pose proof Hok as ([Hi _] & _).
  destruct (decide (zeros index members = [])) as [Hz|Hz]; [|destruct (decide (ones index members = [])) as [Ho|Ho]].
  - rewrite groups_swallow by auto. apply IH; try done; [|lia]. rewrite <- (ones_none _ _ Hi Hz). by apply group_ok_side.
  - rewrite groups_swallow by auto. apply IH; try done; [|lia]. rewrite <- (zeros_none _ _ Hi Ho). by apply group_ok_side.
  - rewrite groups_bifurcation by done. destruct (decide (k ≤ index)) as [Hki|Hki].
    + rewrite (sharing_group k index) by (done || lia). rewrite (proj2 (Z.ltb_lt _ _)) by lia. set_solver.
    + apply elem_of_app. right. apply elem_of_app. destruct (Bit_cases id index Hi) as [Hb|Hb].
      * left. rewrite <- (sharing_side k index id 0 members) in Hlen |- * by (done || lia). fold (zeros index members) in *.
        apply IH; try done; [by apply group_ok_side| |lia]. by apply list_elem_of_filter.
      * right. rewrite <- (sharing_side k index id 1 members) in Hlen |- * by (done || lia). fold (ones index members) in *.
        apply IH; try done; [by apply group_ok_side| |lia]. by apply list_elem_of_filter.
Qed.

Lemma groups_sound n index members G :
  n = bits_left index → group_ok index members → G ∈ groups n index members →
  ∃ k id, 0 < k ≤ NumBits ∧ index ≤ k ∧ id ∈ members ∧ G = sharing k id members ∧ (1 < length G)%nat.
Proof.
  revert index members. induction n as [|n IH]; intros index members Hn Hok HG; [by apply not_elem_of_nil in HG|].
  destruct (decide (length members ≤ 1)%nat) as [Hs|Hs]; [rewrite groups_small in HG by done; by apply not_elem_of_nil in HG|].
  assert (1 < length members)%nat as Hl by lia. pose proof (group_ok_bits _ _ Hok Hl) as Hlt.
  rewrite (bits_left_S index Hlt) in Hn. injection Hn as Hn. pose proof Hok as ([Hi _] & _).
  assert (∀ b side, side = filter (λ y, Bit y index = b) members → G ∈ groups n (index + 1) side →
    ∃ k id, 0 < k ≤ NumBits ∧ index ≤ k ∧ id ∈ members ∧ G = sharing k id members ∧ (1 < length G)%nat) as Hside.
  { intros b side -> HG'. destruct (IH (index + 1) _ Hn (group_ok_side _ _ b Hok Hlt) HG') as (k & id & Hk & Hki & [Hb Hid]%list_elem_of_filter & -> & Hlen).
    exists k, id. rewrite (sharing_side k index id b members) in Hlen |- * by (done || lia). split_and!; done || lia. }
  destruct (decide (zeros index members = [])) as [Hz|Hz]; [|destruct (decide (ones index members = [])) as [Ho|Ho]].
  - rewrite groups_swallow in HG by auto. rewrite <- (ones_none _ _ Hi Hz) in HG. by apply (Hside 1 _ eq_refl).
  - rewrite groups_swallow in HG by auto. rewrite <- (zeros_none _ _ Hi Ho) in HG. by apply (Hside 0 _ eq_refl).
  - rewrite groups_bifurcation in HG by done. apply elem_of_app in HG as [HG|[HG|HG]%elem_of_app];
      [|by apply (Hside 0 _ eq_refl)|by apply (Hside 1 _ eq_refl)].
    destruct (Z.ltb_spec 0 index); [|by apply not_elem_of_nil in HG]. apply list_elem_of_singleton in HG as ->.
    destruct members as [|x l]; [simpl in Hl; lia|]. exists index, x.
    rewrite (sharing_group index index) by (done || lia || set_solver). split_and!; try done; try lia. set_solver.
Qed.

(** C10: the prefix groups are exactly the shared prefixes: splitting the work
    list ends, no bit index is out of range, and the lists reported are those of
    at least two of the identifiers that agree on some non-empty bit prefix. *)
Theorem prefix_groups_exact (idList : list ID) :
  ∃ pgs out, longestSharedPrefixes idList = Some pgs ∧ bifurcationsWithCommonPrefix pgs = Some out ∧
    (∀ x, x ∈ deduplicate idList ↔ x ∈ idList) ∧ NoDup (deduplicate idList) ∧
    ∀ G, G ∈ out ↔ ∃ k id, 0 < k ≤ NumBits ∧ id ∈ idList ∧ (1 < length G)%nat ∧
      G = filter (λ y, EqualSubset 0 k id y = true) (deduplicate idList).
Proof.
  destruct (bifurcations_groups idList) as (pgs & Hp & Ho). destruct (deduplicate_from_spec ∅ idList) as [Hnd Hel].
  fold (deduplicate idList) in Hnd, Hel.
  assert (∀ x, x ∈ deduplicate idList ↔ x ∈ idList) as Hel' by (clear Hp Ho; set_solver).
  assert (group_ok 0 (deduplicate idList)) as Hok.
  { split_and!; [done|done|done|]. intros x y _ _ i Hr. lia. }
  exists pgs, (groups (bits_left 0) 0 (deduplicate idList)).
  split; [exact Hp|]. split; [exact Ho|]. split; [exact Hel'|]. split; [exact Hnd|]. intros G. split.
  - intros (k & id & Hk & _ & Hid & Heq & Hlen)%(groups_sound _ _ _ _ eq_refl Hok). exists k, id.
    split; [exact Hk|]. split; [by apply Hel'|]. split; [exact Hlen|exact Heq].
  - intros (k & id & Hk & Hid & Hlen & Heq). rewrite Heq in Hlen |- *.
    apply (groups_complete _ _ _ k id eq_refl Hok); [by apply Hel'|exact Hk|right; apply Hk|exact Hlen].
Qed.
