(* ===== verification/EarlyTermPoll.v ===== *)
(** * Polls with early termination (package [snow/consensus/snowman/poll], [early_term_traversal.go])

    A poll collects the votes of the sampled validators and ends as soon as the
    outstanding votes can no longer change its outcome for any block or shared
    bit prefix.  [getParent] of the blocks is the finite map [parents] at the time
    of a call; metrics are left out. *)
From S2P Require Import Prelude Ids Bag Forest VoteGraph PrefixGroups.

Section Poll.
Context {NodeID : Type} `{Countable NodeID} `{!MapRange ID}.

Record earlyTermPoll : Type := mkPoll {
  p_votes : Bag ID;
  p_polled : Bag NodeID;
  p_alphaPreference : Z;
  p_alphaConfidence : Z;
  p_finished : bool;
}.
Implicit Types p : earlyTermPoll.

(** [earlyTermTraversalFactory.New] *)
Definition newPoll (alphaPreference alphaConfidence : Z) (vdrs : Bag NodeID) : earlyTermPoll :=
  mkPoll empty_bag vdrs alphaPreference alphaConfidence false.

(** [Vote] *)
Definition poll_Vote p (vdr : NodeID) (vote : ID) : earlyTermPoll :=
  let count := Count (p_polled p) vdr in
  mkPoll (AddCount (p_votes p) vote count) (Remove (p_polled p) vdr)
    (p_alphaPreference p) (p_alphaConfidence p) (p_finished p).

(** [Drop] *)
Definition poll_Drop p (vdr : NodeID) : earlyTermPoll :=
  mkPoll (p_votes p) (Remove (p_polled p) vdr) (p_alphaPreference p) (p_alphaConfidence p) (p_finished p).

(** [Result] *)
Definition poll_Result p : Bag ID := p_votes p.

(** [shouldTerminate] *)
Definition shouldTerminate p (freq remaining : Z) : bool :=
  let maxPossibleVotes := freq + remaining in
  (maxPossibleVotes <? p_alphaPreference p) ||
  ((p_alphaPreference p <=? freq) && (maxPossibleVotes <? p_alphaConfidence p)) ||
  (p_alphaConfidence p <=? freq).

(** [sumVotesFromIDs] *)
Definition sumVotesFromIDs (ids : list ID) (transitiveVotes : Bag ID) : Z :=
  foldl (λ count id, count + Count transitiveVotes id) 0 ids.

(** [descendantIDsOfVertex] *)
Definition descendantIDsOfVertex (v : voteVertex) : list ID := vv_descendants v.

(** The function [computeTransitiveVotesForPrefixes] calls on a vertex. *)
Definition prefix_votes_of (g : voteGraph) (transitiveVotes : Bag ID) (id : ID) : option (list Z) :=
  v ← vg_vertices g !! id;
  pg ← longestSharedPrefixes (descendantIDsOfVertex v);
  groups ← bifurcationsWithCommonPrefix pg;
  Some (map (λ ids, sumVotesFromIDs ids transitiveVotes) groups).

(** [computeTransitiveVotesForPrefixes] *)
Definition computeTransitiveVotesForPrefixes (g : voteGraph) (transitiveVotes : Bag ID) : option (list Z) :=
  visited ← graph_traverse g;
  l ← mapM (prefix_votes_of g transitiveVotes) visited;
  Some (concat l).

(** [aggregateVotesFromPrefixesAndIDs] *)
Definition aggregateVotesFromPrefixesAndIDs (forPrefixes : list Z) (transitiveVotes : Bag ID) : list Z :=
  map (Count transitiveVotes) (List transitiveVotes) ++ forPrefixes.

(** The loop over the vote counts, which stops at the first that can improve. *)
Fixpoint cant_improve p (counts : list Z) (remaining : Z) (acc : bool) : bool :=
  match counts with
  | [] => acc
  | completedVotes :: counts =>
      let acc := acc && shouldTerminate p completedVotes remaining in
      if acc then cant_improve p counts remaining acc else acc
  end.

Definition set_finished p : earlyTermPoll :=
  mkPoll (p_votes p) (p_polled p) (p_alphaPreference p) (p_alphaConfidence p) true.

(** [Finished] *)
Definition poll_Finished (parents : gmap ID ID) p : option (earlyTermPoll * bool) :=
  if p_finished p then Some (p, true) else
  let remaining := Len (p_polled p) in
  if remaining =? 0 then Some (set_finished p, true) else
  let received := Len (p_votes p) in
  let maxPossibleVotes := received + remaining in
  if maxPossibleVotes <? p_alphaPreference p then Some (set_finished p, true) else
  votesGraph ← buildVoteGraph parents (p_votes p);
  transitiveVotes ← computeTransitiveVoteCountGraph votesGraph (p_votes p);
  forPrefixes ← computeTransitiveVotesForPrefixes votesGraph transitiveVotes;
  let voteCounts := aggregateVotesFromPrefixesAndIDs forPrefixes transitiveVotes in
  let cantImprove := cant_improve p voteCounts remaining (negb (length voteCounts =? 0)%nat) in
  if cantImprove then Some (set_finished p, true) else Some (p, false).
End Poll.

(** ** What can still happen to a poll *)

Section Events.
Context {NodeID : Type} `{Countable NodeID} `{!MapRange NodeID}.
Implicit Types p q : earlyTermPoll (NodeID := NodeID).

Inductive poll_event : Type :=
| EVote (vdr : NodeID) (vote : ID)
| EDrop (vdr : NodeID).

Definition run_event p (e : poll_event) : earlyTermPoll :=
  match e with EVote vdr vote => poll_Vote p vdr vote | EDrop vdr => poll_Drop p vdr end.

Definition run_events p (es : list poll_event) : earlyTermPoll := foldl run_event p es.

(** A poll whose thresholds and bags are consistent: at most one block of a
    conflicting set can reach [alphaPreference]. *)
Record poll_ok p : Prop := {
  po_votes : bag_ok (p_votes p);
  po_polled : bag_ok (p_polled p);
  po_alpha : 0 < p_alphaPreference p ≤ p_alphaConfidence p;
  po_majority : Len (p_votes p) + Len (p_polled p) < 2 * p_alphaPreference p;
}.

(** [q] has at least the votes of [p], and at most the outstanding ones in
    addition. *)
Record later p q : Prop := {
  la_votes : bag_ok (p_votes q);
  la_polled : bag_ok (p_polled q);
  la_more y : Count (p_votes p) y ≤ Count (p_votes q) y;
  la_total : Len (p_votes q) + Len (p_polled q) ≤ Len (p_votes p) + Len (p_polled p);
  la_preference : p_alphaPreference q = p_alphaPreference p;
  la_confidence : p_alphaConfidence q = p_alphaConfidence p;
}.

Lemma run_event_later p e : bag_ok (p_votes p) → bag_ok (p_polled p) → later p (run_event p e).
Proof.
  intros Hv Hp. destruct e as [vdr vote|vdr]; simpl;
    pose proof (Count_nonneg (p_polled p) vdr Hp) as Hc; split; simpl; try done.
  - by apply AddCount_ok.
  - by apply Remove_ok.
  - intros y. rewrite Count_AddCount. case_decide; lia.
  - rewrite Len_AddCount by done. unfold Len. simpl. lia.
  - by apply Remove_ok.
  - unfold Len. simpl. lia.
Qed.

Lemma later_trans p q r : later p q → later q r → later p r.
Proof.
  intros [H1 H2 H3 H4 H5 H6] [G1 G2 G3 G4 G5 G6]. split; try done; try congruence; try lia.
  intros y. specialize (H3 y). specialize (G3 y). lia.
Qed.

Lemma run_events_later es p : bag_ok (p_votes p) → bag_ok (p_polled p) → later p (run_events p es).
Proof.
  revert p. induction es as [|e es IH]; intros p Hv Hp; [by split|]. simpl.
  pose proof (run_event_later p e Hv Hp) as Hl. eapply later_trans; [exact Hl|]. apply IH; apply Hl.
Qed.

(** All the outstanding validators vote for one block. *)
Definition unanimous p (x : ID) : list poll_event := map (λ vdr, EVote vdr x) (List (p_polled p)).

Lemma run_unanimous l p x y :
  NoDup l → bag_ok (p_votes p) → bag_ok (p_polled p) →
  Count (p_votes (run_events p (map (λ vdr, EVote vdr x) l))) y =
    Count (p_votes p) y + if decide (y = x) then sum_over (Count (p_polled p)) l else 0.
Proof.
  revert p. induction l as [|vdr l IH]; intros p Hnd Hv Hp; [simpl; unfold sum_over; simpl; case_decide; lia|].
  apply NoDup_cons in Hnd as [Hn Hnd]. simpl. rewrite IH; [|done|by apply AddCount_ok|by apply Remove_ok].
  simpl. rewrite Count_AddCount. pose proof (Count_nonneg (p_polled p) vdr Hp). destruct (decide (y = x)); [|lia].
  rewrite sum_over_cons, (sum_over_ext (Count (Remove _ _)) (Count (p_polled p))); [lia|].
  intros z Hz. unfold Count. simpl. rewrite lookup_delete_ne; [done|]. by intros ->.
Qed.

Lemma unanimous_votes p x y :
  bag_ok (p_votes p) → bag_ok (p_polled p) →
  Count (p_votes (run_events p (unanimous p x))) y = Count (p_votes p) y + if decide (y = x) then Len (p_polled p) else 0.
Proof.
  intros Hv Hp. unfold unanimous. rewrite run_unanimous; [|apply List_NoDup|done|done].
  rewrite <- (Len_sum_over (p_polled p) (List (p_polled p))); [done|done|apply List_NoDup|].
  intros k. by rewrite elem_of_List.
Qed.
End Events.

(** ** The votes of the snow instances

    A poll decides snow instances: one for every block, and one for every bit
    prefix that some children of a block share.  The votes of an instance are the
    received votes weighted by a function from blocks to [0] or [1]. *)

Definition weighted `{!MapRange ID} (w : ID → Z) (votes : Bag ID) : Z :=
  sum_over (λ y, w y * Count votes y) (List votes).

Section Weighted.
Context `{!MapRange ID} (w : ID → Z) (Hw : ∀ y, 0 ≤ w y ≤ 1).

Lemma weighted_cover votes l :
  bag_ok votes → NoDup l → (∀ y, 0 < Count votes y → y ∈ l) →
  weighted w votes = sum_over (λ y, w y * Count votes y) l.
Proof.
  intros Hb Hnd Hl. apply sum_over_cover; [apply List_NoDup|done| |].
  - intros y. rewrite elem_of_List by done. apply Hl.
  - intros y _. rewrite elem_of_List by done. pose proof (Count_nonneg votes y Hb). intros. assert (Count votes y = 0) as -> by lia. lia.
Qed.

Lemma weighted_bounds votes : bag_ok votes → 0 ≤ weighted w votes ≤ Len votes.
Proof.
  intros Hb. rewrite (Len_sum_over votes (List votes)); [|done|apply List_NoDup|intros y; by rewrite elem_of_List].
  split; [apply sum_over_nonneg|apply sum_over_le]; intros y _; pose proof (Count_nonneg votes y Hb); specialize (Hw y); nia.
Qed.

(** The outstanding votes are added to an instance or not. *)
Lemma weighted_later `{Countable NodeID} (p q : earlyTermPoll (NodeID := NodeID)) :
  bag_ok (p_votes p) → later p q →
  weighted w (p_votes p) ≤ weighted w (p_votes q) ≤ weighted w (p_votes p) + Len (p_polled p).
Proof.
  intros Hp [Hv Hq Hmore Htot _ _]. pose proof (Len_nonneg _ Hq) as Hnn.
  assert (∀ y, 0 < Count (p_votes p) y → y ∈ List (p_votes q)) as Hcov.
  { intros y Hy. rewrite elem_of_List by done. specialize (Hmore y). lia. }
  assert (∀ y, 0 < Count (p_votes q) y → y ∈ List (p_votes q)) as Hcov' by (intros y; by rewrite elem_of_List).
  rewrite (weighted_cover (p_votes p) (List (p_votes q)) Hp (List_NoDup _) Hcov). unfold weighted. split.
  - apply sum_over_le. intros y _. specialize (Hmore y). specialize (Hw y). nia.
  - cut (sum_over (λ y, w y * Count (p_votes q) y) (List (p_votes q)) + sum_over (Count (p_votes p)) (List (p_votes q)) ≤
      sum_over (λ y, w y * Count (p_votes p) y) (List (p_votes q)) + sum_over (Count (p_votes q)) (List (p_votes q))).
    { rewrite <- !Len_sum_over by (done || apply List_NoDup). lia. }
    rewrite <- !sum_over_add. apply sum_over_le. intros y _. specialize (Hmore y). specialize (Hw y). nia.
Qed.

Lemma weighted_unanimous `{Countable NodeID} `{!MapRange NodeID} (p : earlyTermPoll (NodeID := NodeID)) x :
  bag_ok (p_votes p) → bag_ok (p_polled p) → w x = 1 →
  weighted w (p_votes (run_events p (unanimous p x))) = weighted w (p_votes p) + Len (p_polled p).
Proof.
  intros Hv Hp Hx. set (q := run_events p (unanimous p x)).
  assert (later p q) as Hl by (by apply run_events_later). pose proof Hl as [Hvq _ Hmore _ _ _].
  set (l := if decide (x ∈ List (p_votes q)) then List (p_votes q) else x :: List (p_votes q)).
  assert (NoDup l ∧ x ∈ l) as [Hnd Hxl].
  { unfold l. case_decide; [split; [apply List_NoDup|done]|]. split; [|set_solver]. apply NoDup_cons. split; [done|apply List_NoDup]. }
  assert (∀ y, 0 < Count (p_votes q) y → y ∈ l) as Hcov.
  { intros y Hy. rewrite <- elem_of_List in Hy by done. unfold l. case_decide; set_solver. }
  rewrite (weighted_cover (p_votes q) l), (weighted_cover (p_votes p) l); [|done|done| |done..].
  2: { intros y Hy. apply Hcov. specialize (Hmore y). lia. }
  rewrite (sum_over_ext _ (λ y, w y * Count (p_votes p) y + if decide (y = x) then Len (p_polled p) else 0)).
  - rewrite sum_over_add, (sum_over_single (λ _, Len (p_polled p))), decide_True by done. done.
  - intros y _. unfold q. rewrite unanimous_votes by done. case_decide; [subst; rewrite Hx|]; lia.
Qed.
End Weighted.

(** The thresholds on the same side of which two counts are. *)
Definition same_outcome `{Countable NodeID} (p : earlyTermPoll (NodeID := NodeID)) (f f' : Z) : Prop :=
  (p_alphaPreference p <=? f) = (p_alphaPreference p <=? f') ∧
  (p_alphaConfidence p <=? f) = (p_alphaConfidence p <=? f').

Section ShouldTerminate.
Context `{Countable NodeID} (p : earlyTermPoll (NodeID := NodeID)).

(** [shouldTerminate] decides whether outstanding votes can change the outcome. *)
Lemma shouldTerminate_true f r f' :
  p_alphaPreference p ≤ p_alphaConfidence p → shouldTerminate p f r = true → f ≤ f' ≤ f + r → same_outcome p f f'.
Proof. unfold shouldTerminate, same_outcome. intros Ha Ht Hf. revert Ht. zcases; intros; split; try done; lia. Qed.

Lemma shouldTerminate_false f r :
  p_alphaPreference p ≤ p_alphaConfidence p → shouldTerminate p f r = false → ¬ same_outcome p f (f + r).
Proof. unfold shouldTerminate, same_outcome. intros Ha. zcases; intros _ [??]; done. Qed.

Lemma cant_improve_true counts r acc :
  cant_improve p counts r acc = true ↔ acc = true ∧ ∀ f, f ∈ counts → shouldTerminate p f r = true.
Proof.
  revert acc. induction counts as [|f counts IH]; intros acc; simpl; [set_solver|].
  destruct acc; simpl; [|naive_solver]. destruct (shouldTerminate p f r) eqn:Hf.
  - rewrite IH. set_solver.
  - split; [done|]. intros [_ Hall]. rewrite <- Hf. apply Hall. set_solver.
Qed.
End ShouldTerminate.

Inductive instance : Type :=
| IBlock (x : ID)                       (* the block [x] *)
| IPrefix (v : ID) (k : Z) (id : ID).   (* the children of [v] that share the first [k] bits of [id] *)

Definition instance_ok (i : instance) : Prop :=
  match i with IBlock _ => True | IPrefix _ k _ => 0 < k ≤ NumBits end.

Section Instances.
Context `{!MapRange ID} (parents : gmap ID ID) (rank : ID → nat).
Context (Hrank : ∀ c p, parents !! c = Some p → (rank p < rank c)%nat).

Definition children_of (v : ID) : list ID := (map_to_list (filter (λ '(_, p), p = v) parents)).*1.

(** The votes of an instance: those for the block and its descendants, or for
    the children that share the prefix and their descendants. *)
Definition instance_votes (i : instance) (votes : Bag ID) : Z :=
  let below := transitive parents rank (List votes) (Count votes) in
  match i with
  | IBlock x => below x
  | IPrefix v k id => sum_over below (sharing k id (children_of v))
  end.

Definition weight (i : instance) (y : ID) : Z :=
  match i with
  | IBlock x => above parents rank x y
  | IPrefix v k id => sum_over (λ c, above parents rank c y) (sharing k id (children_of v))
  end.

Lemma elem_of_children v c : c ∈ children_of v ↔ parents !! c = Some v.
Proof.
  unfold children_of. rewrite list_elem_of_fmap. split.
  - intros ([c' q] & -> & Hin%elem_of_map_to_list). by apply map_lookup_filter_Some in Hin as [Hin ->].
  - intros Hc. exists (c, v). split; [done|]. by apply elem_of_map_to_list, map_lookup_filter_Some.
Qed.

Lemma children_NoDup v : NoDup (children_of v).
Proof. apply NoDup_fst_map_to_list. Qed.

Lemma weight_bounds i y : 0 ≤ weight i y ≤ 1.
Proof.
  assert (∀ x, 0 ≤ above parents rank x y ≤ 1) as Hab by (intros x; unfold above; case_decide; lia).
  destruct i as [x|v k id]; simpl; [done|]. split; [apply sum_over_nonneg; intros; apply Hab|].
  transitivity (sum_over (λ c, above parents rank c y) (children_of v)); [apply sum_over_filter_le; intros; apply Hab|].
  pose proof (above_children parents rank Hrank v y (children_of v) (children_NoDup v)) as Ha.
  setoid_rewrite elem_of_children in Ha. specialize (Ha ltac:(tauto) ltac:(tauto)). specialize (Hab v). case_decide; lia.
Qed.

Lemma instance_weighted i votes : instance_votes i votes = weighted (weight i) votes.
Proof.
  destruct i as [x|v k id]; [done|]. unfold instance_votes, transitive, weighted. rewrite sum_over_swap.
  apply sum_over_ext. intros y _. simpl. rewrite Z.mul_comm, <- sum_over_scale. apply sum_over_ext. intros; lia.
Qed.

(** A vote that an instance counts. *)
Definition supports (i : instance) (x : ID) : Prop :=
  match i with IBlock y => x = y | IPrefix v k id => x ∈ sharing k id (children_of v) end.

Lemma supports_weight i x : supports i x → weight i x = 1.
Proof.
  assert (above parents rank x x = 1) as Hx.
  { unfold above. rewrite decide_True; [done|]. apply (ancestors_self parents rank Hrank). }
  destruct i as [y|v k id]; simpl; [by intros ->|]. intros Hin. pose proof (weight_bounds (IPrefix v k id) x) as [_ Hle]. simpl in Hle.
  apply list_elem_of_split in Hin as (l1 & l2 & Heq). rewrite Heq in Hle |- *. rewrite sum_over_app, sum_over_cons in Hle |- *.
  assert (∀ l, 0 ≤ sum_over (λ c, above parents rank c x) l) as Hnn.
  { intros l. apply sum_over_nonneg. intros c _. unfold above. case_decide; lia. }
  pose proof (Hnn l1). pose proof (Hnn l2). lia.
Qed.

(** ** What the poll looks at *)

#[local] Opaque groups bits_left.

Context (votes : Bag ID) (Hvotes : bag_ok votes) (g : voteGraph) (Hg : graph_ok parents rank votes g).
Context (tvs : Bag ID) (Htvs : bag_ok tvs).
#[local] Abbreviation tv := (transitive parents rank (List votes) (Count votes)).
Context (Htv : ∀ x, Count tvs x = tv x).

Lemma deduplicate_NoDup used l : NoDup l → (∀ x, x ∈ l → x ∉ used) → deduplicate_from used l = l.
Proof.
  revert used. induction l as [|x l IH]; intros used Hnd Hu; [done|]. apply NoDup_cons in Hnd as [Hx Hnd]. simpl.
  rewrite decide_False by (apply Hu; set_solver). f_equal. apply IH; [done|]. set_solver.
Qed.

Lemma sumVotes_sum_over ids : sumVotesFromIDs ids tvs = sum_over tv ids.
Proof.
  unfold sumVotesFromIDs. assert (∀ acc, foldl (λ count id, count + Count tvs id) acc ids = acc + sum_over tv ids) as Hf; [|apply Hf].
  induction ids as [|x ids IH]; intros acc; simpl; [unfold sum_over; simpl; lia|]. rewrite IH, sum_over_cons, Htv. lia.
Qed.

Lemma prefix_votes_spec v :
  v ∈ dom (vg_vertices g) →
  prefix_votes_of g tvs v = Some (map (sum_over tv) (groups (bits_left 0) 0 (kids g v))).
Proof.
  intros [u Hu]%elem_of_dom. unfold prefix_votes_of, descendantIDsOfVertex. rewrite Hu. cbn [mbind option_bind].
  destruct (bifurcations_groups (vv_descendants u)) as (pgs & -> & Hout). cbn [mbind option_bind]. rewrite Hout. cbn [mbind option_bind].
  unfold deduplicate. rewrite deduplicate_NoDup; [|by apply (go_nodup _ _ _ _ Hg v)|intros; apply not_elem_of_empty].
  unfold kids. rewrite Hu. cbn [fmap option_fmap option_map default]. f_equal. apply List.map_ext. apply sumVotes_sum_over.
Qed.

(** The votes of the shared prefixes are those of at least two voted children. *)
Lemma prefixes_spec :
  ∃ fs, computeTransitiveVotesForPrefixes g tvs = Some fs ∧
    ∀ f, f ∈ fs ↔ ∃ v, v ∈ dom (vg_vertices g) ∧ ∃ G, f = sum_over tv G ∧ G ∈ groups (bits_left 0) 0 (kids g v).
Proof.
  unfold computeTransitiveVotesForPrefixes.
  destruct (graph_traverse_spec parents rank Hrank votes g Hg) as (visited & -> & Hvis). cbn [mbind option_bind].
  destruct (mapM_elements (prefix_votes_of g tvs)
    (λ v f, ∃ G, f = sum_over tv G ∧ G ∈ groups (bits_left 0) 0 (kids g v)) visited) as (fs & -> & Hfs).
  { intros v Hv. eexists. split; [apply prefix_votes_spec; by apply Hvis|]. intros f. apply list_elem_of_fmap. }
  eexists. split; [reflexivity|]. intros f. rewrite Hfs. split.
  - intros (v & Hv%Hvis & HG). by exists v.
  - intros (v & Hv%Hvis & HG). by exists v.
Qed.

Lemma sharing_cover v k id : sum_over tv (sharing k id (kids g v)) = sum_over tv (sharing k id (children_of v)).
Proof.
  pose proof (elem_of_graph_kids parents rank Hrank votes g Hg v) as Hk.
  apply sum_over_cover; [apply NoDup_filter, (graph_kids_NoDup parents rank votes g Hg)|apply NoDup_filter, children_NoDup| |].
  - intros c [He [_ Hc]%Hk]%list_elem_of_filter. apply list_elem_of_filter. split; [done|]. by apply elem_of_children.
  - intros c [He Hc%elem_of_children]%list_elem_of_filter Hn. apply (tvotes_outside parents rank votes g Hg). intros Hd.
    apply Hn, list_elem_of_filter. split; [done|]. by apply Hk.
Qed.

Lemma kids_group_ok v : group_ok 0 (kids g v).
Proof.
  split_and!; [done|done|apply (graph_kids_NoDup parents rank votes g Hg)|]. intros x y _ _ i Hr. lia.
Qed.

(** Every count is that of an instance. *)
Lemma counts_sound fs f :
  computeTransitiveVotesForPrefixes g tvs = Some fs → f ∈ aggregateVotesFromPrefixesAndIDs fs tvs →
  ∃ i x, instance_ok i ∧ supports i x ∧ f = instance_votes i votes.
Proof.
  intros Hfs. destruct prefixes_spec as (fs' & Hfs' & Hin). rewrite Hfs in Hfs'. injection Hfs' as <-.
  unfold aggregateVotesFromPrefixesAndIDs. intros [Hf|Hf]%elem_of_app.
  - apply list_elem_of_fmap in Hf as (x & -> & _). exists (IBlock x), x. split_and!; [done|done|apply Htv].
  - apply Hin in Hf as (v & _ & G & -> & HG).
    apply (groups_sound _ _ _ _ eq_refl (kids_group_ok v)) in HG as (k & id & Hk & _ & Hid & -> & _).
    exists (IPrefix v k id), id. split; [exact Hk|]. split; [|apply sharing_cover]. simpl.
    apply (elem_of_graph_kids parents rank Hrank votes g Hg) in Hid as [_ Hid].
    apply list_elem_of_filter. split; [apply EqualSubset_prefix; [done|apply agree_refl]|by apply elem_of_children].
Qed.

Lemma sharing_repr k id id' l :
  0 < k ≤ NumBits → id' ∈ sharing k id l → sharing k id l = sharing k id' l.
Proof.
  intros Hk [He%EqualSubset_prefix _]%list_elem_of_filter; [|done]. apply list_filter_iff. intros y.
  rewrite !EqualSubset_prefix by done. split; intros Ha; [by apply (agree_trans 0 k id' id y); [apply agree_sym|]|by apply (agree_trans 0 k id id' y)].
Qed.

(** The counts decide every instance. *)
Lemma counts_complete fs (ok : Z → Prop) i :
  computeTransitiveVotesForPrefixes g tvs = Some fs →
  ok 0 → (∀ f, f ∈ aggregateVotesFromPrefixesAndIDs fs tvs → ok f) → instance_ok i → ok (instance_votes i votes).
Proof.
  intros Hfs Hzero Hall. destruct prefixes_spec as (fs' & Hfs' & Hin). rewrite Hfs in Hfs'. injection Hfs' as <-.
  assert (∀ x, ok (tv x)) as Hblock.
  { intros x. pose proof (tvotes_nonneg parents rank votes Hvotes x). destruct (decide (tv x = 0)) as [->|]; [done|].
    apply Hall, elem_of_app. left. apply list_elem_of_fmap. exists x. split; [by rewrite Htv|].
    apply elem_of_List; [done|]. rewrite Htv. lia. }
  destruct i as [x|v k id]; simpl; intros Hk; [apply Hblock|]. rewrite <- sharing_cover.
  destruct (sharing k id (kids g v)) as [|c [|c' l]] eqn:Hs; [done|unfold sum_over; simpl; rewrite Z.add_0_r; apply Hblock|].
  rewrite <- Hs. apply Hall, elem_of_app. right. apply Hin.
  assert (c ∈ sharing k id (kids g v)) as Hc by (rewrite Hs; apply elem_of_cons; by left).
  pose proof Hc as [_ Hck]%list_elem_of_filter.
  exists v. split.
  - apply (elem_of_graph_kids parents rank Hrank votes g Hg) in Hck as [Hcd Hp].
    apply (dom_ancestors parents rank Hrank votes g Hg v c Hcd). rewrite (ancestors_eq parents rank Hrank c), Hp.
    apply elem_of_cons. right. apply (ancestors_self parents rank Hrank).
  - exists (sharing k id (kids g v)). split; [reflexivity|]. rewrite (sharing_repr k id c) by done.
    apply (groups_complete _ _ _ k c eq_refl (kids_group_ok v)); [done|done|right; lia|].
    rewrite <- (sharing_repr k id c), Hs by done. simpl. lia.
Qed.

(** Without a count there is no vote. *)
Lemma counts_empty fs : aggregateVotesFromPrefixesAndIDs fs tvs = [] → List votes = [].
Proof.
  intros [Hn _]%app_nil. destruct (decide (List votes = [])) as [|Hl]; [done|]. exfalso.
  assert (∃ y, y ∈ List votes) as (y & Hy).
  { clear -Hl. destruct (List votes) as [|y l]; [done|]. exists y. apply elem_of_cons. by left. }
  apply elem_of_List in Hy; [|done]. assert (y ∈ List tvs) as Hin.
  { apply elem_of_List; [done|]. rewrite Htv. pose proof (tvotes_eq parents rank Hrank votes g Hg Hvotes y) as ->.
    pose proof (sum_over_nonneg tv (kids g y) ltac:(intros; by apply tvotes_nonneg)). lia. }
  destruct (List tvs); [by apply not_elem_of_nil in Hin|done].
Qed.
End Instances.

(** ** Early termination is exact *)

Section EarlyTermination.
Context `{!MapRange ID} `{Countable NodeID} `{!MapRange NodeID}.
Context (parents : gmap ID ID) (rank : ID → nat).
Context (Hrank : ∀ c p, parents !! c = Some p → (rank p < rank c)%nat).
Implicit Types p : earlyTermPoll (NodeID := NodeID).

(** No sequence of responses changes the outcome of the poll for an instance. *)
Definition settled p : Prop :=
  ∀ es i, instance_ok i →
    same_outcome p (instance_votes parents rank i (poll_Result p))
                   (instance_votes parents rank i (poll_Result (run_events p es))).

Lemma instance_later p es i :
  poll_ok p →
  instance_votes parents rank i (p_votes p) ≤ instance_votes parents rank i (p_votes (run_events p es)) ≤
    instance_votes parents rank i (p_votes p) + Len (p_polled p).
Proof.
  intros Hp. rewrite !instance_weighted. apply weighted_later; [by apply weight_bounds|apply Hp|].
  apply run_events_later; apply Hp.
Qed.

Lemma instance_unanimous p i x :
  poll_ok p → supports parents i x →
  instance_votes parents rank i (p_votes (run_events p (unanimous p x))) =
    instance_votes parents rank i (p_votes p) + Len (p_polled p).
Proof.
  intros Hp Hx. rewrite !instance_weighted. apply weighted_unanimous; [by apply weight_bounds|apply Hp|apply Hp|by apply supports_weight].
Qed.

(** An instance that may still change is not settled. *)
Lemma not_settled p i x :
  poll_ok p → instance_ok i → supports parents i x →
  shouldTerminate p (instance_votes parents rank i (p_votes p)) (Len (p_polled p)) = false → ¬ settled p.
Proof.
  intros Hp Hi Hx Hs Hset. specialize (Hset (unanimous p x) i Hi). unfold poll_Result in Hset.
  rewrite instance_unanimous in Hset by done. revert Hset. apply shouldTerminate_false; [apply Hp|done].
Qed.

Lemma settled_exhausted p : poll_ok p → Len (p_polled p) = 0 → settled p.
Proof.
  intros Hp Hr es i _. pose proof (instance_later p es i Hp) as Hl. unfold poll_Result.
  assert (instance_votes parents rank i (p_votes (run_events p es)) = instance_votes parents rank i (p_votes p)) as -> by lia.
  by split.
Qed.

Lemma settled_fail p : poll_ok p → Len (p_votes p) + Len (p_polled p) < p_alphaPreference p → settled p.
Proof.
  intros Hp Hr es i _. pose proof (instance_later p es i Hp) as Hl. unfold poll_Result, same_outcome.
  pose proof (weighted_bounds _ (weight_bounds parents rank Hrank i) (p_votes p) (po_votes _ Hp)) as Hb.
  rewrite <- instance_weighted in Hb. pose proof (po_alpha _ Hp). zcases; split; done || lia.
Qed.

(** Once some count is settled, a block without votes cannot win. *)
Lemma settled_rest p f :
  poll_ok p → 0 ≤ f ≤ Len (p_votes p) → shouldTerminate p f (Len (p_polled p)) = true →
  shouldTerminate p 0 (Len (p_polled p)) = true.
Proof.
  intros [_ Hq Ha Hm] Hf. unfold shouldTerminate. pose proof (Len_nonneg _ Hq). zcases; done.
Qed.

(** What [Finished] has found when it returns. *)
Lemma Finished_cases p :
  poll_ok p → p_finished p = false →
  ∃ fin : bool, poll_Finished parents p = Some (if fin then set_finished p else p, fin) ∧
    if fin then settled p
    else ∃ i x, instance_ok i ∧ supports parents i x ∧
      shouldTerminate p (instance_votes parents rank i (p_votes p)) (Len (p_polled p)) = false.
Proof.
  intros Hp Hfin. unfold poll_Finished. rewrite Hfin.
  destruct (Z.eqb_spec (Len (p_polled p)) 0) as [Hr|Hr].
  { exists true. split; [done|]. by apply settled_exhausted. }
  destruct (Z.ltb_spec (Len (p_votes p) + Len (p_polled p)) (p_alphaPreference p)) as [Hm|Hm].
  { exists true. split; [done|]. by apply settled_fail. }
  destruct (buildVoteGraph_spec parents rank Hrank (p_votes p)) as (g & -> & Hg). cbn [mbind option_bind].
  destruct (compute_spec parents rank Hrank (p_votes p) g Hg (po_votes _ Hp)) as (tvs & -> & Htvs & Htv). cbn [mbind option_bind].
  destruct (prefixes_spec parents rank Hrank (p_votes p) (po_votes _ Hp) g Hg tvs Htvs Htv) as (fs & Hfs & _). rewrite Hfs. cbn [mbind option_bind].
  pose proof (counts_sound parents rank Hrank (p_votes p) (po_votes _ Hp) g Hg tvs Htvs Htv fs) as Hsound.
  set (counts := aggregateVotesFromPrefixesAndIDs fs tvs) in *.
  destruct (cant_improve p counts (Len (p_polled p)) (negb (length counts =? 0)%nat)) eqn:Hc.
  - exists true. split; [done|]. apply cant_improve_true in Hc as [Hne Hall]. intros es i Hi.
    apply (shouldTerminate_true p _ (Len (p_polled p))); [apply Hp| |by apply instance_later].
    apply (counts_complete parents rank Hrank (p_votes p) (po_votes _ Hp) g Hg tvs Htvs Htv fs
      (λ f : Z, shouldTerminate p f (Len (p_polled p)) = true) i Hfs); [|exact Hall|exact Hi].
    destruct counts as [|f l] eqn:Hcounts; [done|]. apply (settled_rest p f Hp); [|apply Hall, elem_of_cons; by left].
    destruct (Hsound f Hfs) as (j & x & _ & _ & ->); [apply elem_of_cons; by left|].
    rewrite instance_weighted. apply weighted_bounds; [by apply weight_bounds|apply Hp].
  - exists false. split; [done|].
    destruct (decide (Forall (λ f : Z, shouldTerminate p f (Len (p_polled p)) = true) counts)) as [Hall|Hall].
    + destruct counts as [|f l] eqn:Hcounts.
      * exists (IBlock Empty), Empty. split_and!; [done|done|].
        apply (counts_empty parents rank Hrank (p_votes p) (po_votes _ Hp) g Hg tvs Htvs Htv fs) in Hcounts.
        rewrite (Len_sum_over (p_votes p) []) in Hm;
          [|apply Hp|apply NoDup_nil_2|intros k; rewrite <- Hcounts; by apply elem_of_List, Hp].
        unfold instance_votes, transitive. rewrite Hcounts. unfold sum_over in *. simpl in *.
        pose proof (po_alpha _ Hp). unfold shouldTerminate. zcases.
      * assert (cant_improve p (f :: l) (Len (p_polled p)) (negb (length (f :: l) =? 0)%nat) = true); [|congruence].
        apply cant_improve_true. split; [done|]. by apply Forall_forall.
    + apply not_Forall_Exists, Exists_exists in Hall as (f & Hf & Hs); [|apply _]. apply not_true_is_false in Hs.
      destruct (Hsound f Hfs Hf) as (i & x & Hi & Hx & ->). by exists i, x.
Qed.

(** C8: a poll ends exactly when its outcome is settled.  On an acyclic forest of
    blocks, [Finished] of a poll that has not ended always returns (the graph
    walks end and no index is out of range), and it returns [true], recording
    that, if and only if no sequence of later votes and drops can move a snow
    instance (a block, or a bit prefix shared by some children of a block)
    across the preference or the confidence threshold.  (The fourth condition of the
    comment of [Finished], that a single element has an alphaConfidence majority, is
    not enough for it: the poll goes on while another instance can still cross a
    threshold.) *)
Theorem early_term_exact p :
  poll_ok p → p_finished p = false →
  ∃ fin : bool, poll_Finished parents p = Some (if fin then set_finished p else p, fin) ∧ (fin = true ↔ settled p).
Proof.
  intros Hp Hfin. destruct (Finished_cases p Hp Hfin) as ([] & Hf & Hc); [by exists true|].
  exists false. split; [done|]. split; [done|]. destruct Hc as (i & x & Hi & Hx & Hs). intros Hset. exfalso.
  by apply (not_settled p i x).
Qed.

(** ** A settled poll stays settled *)

Lemma run_event_ok p e : poll_ok p → poll_ok (run_event p e).
Proof.
  intros [Hv Hq Ha Hm]. destruct (run_event_later p e Hv Hq) as [H1 H2 _ H4 H5 H6].
  split; [done|done|by rewrite H5, H6|rewrite H5; lia].
Qed.

Lemma settled_event p e : poll_ok p → settled p → settled (run_event p e).
Proof.
  intros [Hv Hq _ _] Hs es i Hi. destruct (run_event_later p e Hv Hq) as [_ _ _ _ H5 H6].
  destruct (Hs [e] i Hi) as [H1 H2]. destruct (Hs (e :: es) i Hi) as [H3 H4]. simpl in *.
  unfold same_outcome. rewrite H5, H6. split; congruence.
Qed.

Lemma run_events_set_finished p es : run_events (set_finished p) es = set_finished (run_events p es).
Proof. revert p. induction es as [|e es IH]; intros p; [done|]. simpl. by rewrite <- IH; destruct e. Qed.

Lemma settled_set_finished p : settled p → settled (set_finished p).
Proof. intros Hs es i Hi. rewrite run_events_set_finished. by apply Hs. Qed.
End EarlyTermination.

(** ** Witness *)

Section Demo.
#[local] Instance demo_poll_range : MapRange ID := canonical_range ID.
#[local] Instance demo_node_range : MapRange Z := canonical_range Z.

(** A chain of two blocks and a poll of three validators, two of which voted. *)
Definition demo_parents (a b : ID) : gmap ID ID := {[a := Empty; b := a]}.
Definition demo_rank (a b x : ID) : nat := if decide (x = Empty) then 0 else if decide (x = a) then 1 else 2.
Definition demo_poll (b : ID) : earlyTermPoll (NodeID := Z) :=
  run_events (newPoll 2 2 (Of [1; 2; 3])) [EVote 1 b; EVote 2 b].

Lemma early_term_exact_witness :
  match id_of_first_byte 1, id_of_first_byte 2 with
  | Some a, Some b =>
      settled (demo_parents a b) (demo_rank a b) (demo_poll b) ∧
      poll_Finished (demo_parents a b) (demo_poll b) = Some (set_finished (demo_poll b), true)
  | _, _ => False
  end.
Proof.
  destruct (id_of_first_byte 1) as [a|] eqn:Ha; [|by vm_compute in Ha].
  destruct (id_of_first_byte 2) as [b|] eqn:Hb; [|by vm_compute in Hb].
  vm_compute in Ha, Hb. injection Ha as <-. injection Hb as <-. set (a := mkID (1 :: _) _). set (b := mkID (2 :: _) _).
  assert (∀ c p, demo_parents a b !! c = Some p → (demo_rank a b p < demo_rank a b c)%nat) as Hrank.
  { intros c p. unfold demo_parents. intros [[<- <-]|[_ [<- <-]%lookup_singleton_Some]]%lookup_insert_Some; vm_compute; lia. }
  assert (poll_ok (demo_poll b)) as Hok.
  { split; [apply run_events_later, AddCount_ok, AddCount_ok, AddCount_ok, empty_bag_ok; apply empty_bag_ok
           |apply run_events_later, AddCount_ok, AddCount_ok, AddCount_ok, empty_bag_ok; apply empty_bag_ok|by vm_compute|by vm_compute]. }
  destruct (early_term_exact (demo_parents a b) (demo_rank a b) Hrank (demo_poll b) Hok eq_refl) as (fin & Hfin & Hset).
  assert (fin = true) as ->.
  { destruct fin; [done|]. exfalso. apply (f_equal (fmap snd)) in Hfin. by vm_compute in Hfin. }
  split; [by apply Hset|exact Hfin].
Defined.
End Demo.
