(* ===== verification/PollSet.v ===== *)
(** * The set of outstanding polls (package [snow/consensus/snowman/poll], [set.go])

    Polls are kept in an insertion-ordered hash map of pointers, from the request
    to the poll, and a response to one poll may end it; the results of ended
    polls are handed out oldest first.  The set is proved against the interface
    of a poll, and the polls with early termination implement it.

    Poll objects live in a store [st_heap], since [Vote], [Drop] and [Finished]
    update them through the pointer the map holds.  Logging, metrics and start
    times are left out. *)
From S2P Require Import Prelude Ids Bag LinkedList LinkedHashmap Forest VoteGraph PrefixGroups EarlyTermPoll.

(** ** The interfaces [Poll] and [Factory] *)

(** [Env] is what [Finished] reads besides the poll (the blocks of the chain);
    [None] is a panic. *)
Class Poll (Env NodeID : Type) `{Countable NodeID} (P : Type) : Type := {
  New : Bag NodeID → P;
  Vote : P → NodeID → ID → P;
  Drop : P → NodeID → P;
  Finished : Env → P → option (P * bool);
  Result : P → Bag ID;
}.

(** What the set relies on: [Finished] returns on polls of the factory, whatever
    they received, and [ended] is what it promises when it returns [true]. *)
Class PollLaws (Env NodeID : Type) `{Poll Env NodeID P} (env_ok : Env → Prop) (vdrs_ok : Bag NodeID → Prop)
    (poll_inv ended : P → Prop) : Prop := {
  New_inv vdrs : vdrs_ok vdrs → poll_inv (New vdrs);
  Vote_inv p vdr vote : poll_inv p → poll_inv (Vote p vdr vote);
  Drop_inv p vdr : poll_inv p → poll_inv (Drop p vdr);
  Finished_inv env p : env_ok env → poll_inv p →
    ∃ p' (fin : bool), Finished env p = Some (p', fin) ∧ poll_inv p' ∧ (fin = true → ended p');
}.

(** ** The set *)

Section Set_.
Context {Env NodeID P : Type} `{Countable NodeID} `{!Poll Env NodeID P} `{!MapRange Z}.

(** A [pollHolder] is the pointer to its poll; request identifiers are [uint32]s. *)
Record set : Type := mkSet {
  st_heap : gmap nat P;
  st_polls : Hashmap (K := Z) (V := option nat);
}.
Implicit Types s : set.

(** [NewSet] *)
Definition NewSet : set := mkSet ∅ (NewHashmap 0 None).

(** [Add] *)
Definition set_Add s (requestID : Z) (vdrs : Bag NodeID) : option (set * bool) :=
  exists_ ← Get (st_polls s) requestID;
  match exists_ with
  | Some _ => Some (s, false)
  | None =>
      let ptr := fresh (dom (st_heap s)) in
      polls ← Put 0 None (st_polls s) requestID (Some ptr);
      Some (mkSet (<[ptr := New vdrs]> (st_heap s)) polls, true)
  end.

(** A call of [Finished] through a pointer. *)
Definition call_Finished (env : Env) (heap : gmap nat P) (ptr : nat) : option (gmap nat P * bool) :=
  p ← heap !! ptr;
  '(p, fin) ← Finished env p;
  Some (<[ptr := p]> heap, fin).

(** The loop of [processFinishedPolls]. *)
Fixpoint process_loop (fuel : nat) (env : Env) s (iter : Iterator (K := Z) (V := option nat)) (results : list (Bag ID))
    : option (set * list (Bag ID)) :=
  match fuel with
  | O => None
  | S fuel =>
      '(iter, more) ← it_Next 0 None (st_polls s) iter;
      if (more : bool) then
        ptr ← it_value iter;
        '(heap, fin) ← call_Finished env (st_heap s) ptr;
        if (fin : bool) then
          p ← heap !! ptr;
          '(polls, _) ← Delete 0 None (st_polls s) (it_key iter);
          process_loop fuel env (mkSet heap polls) iter (results ++ [Result p])
        else Some (mkSet heap (st_polls s), results)
      else Some (s, results)
  end.

(** [processFinishedPolls] *)
Definition processFinishedPolls (env : Env) s : option (set * list (Bag ID)) :=
  process_loop (S (base.size (entryMap (st_polls s)))) env s (NewIterator 0 None) [].

(** The common part of [Vote] and [Drop]: [respond] is the call on the poll. *)
Definition set_respond (env : Env) s (requestID : Z) (respond : P → P) : option (set * list (Bag ID)) :=
  holder ← Get (st_polls s) requestID;
  match holder with
  | None => Some (s, [])
  | Some holder =>
      ptr ← holder;
      p ← st_heap s !! ptr;
      '(heap, fin) ← call_Finished env (<[ptr := respond p]> (st_heap s)) ptr;
      let s := mkSet heap (st_polls s) in
      if (fin : bool) then processFinishedPolls env s else Some (s, [])
  end.

(** [Vote] *)
Definition set_Vote (env : Env) s (requestID : Z) (vdr : NodeID) (vote : ID) : option (set * list (Bag ID)) :=
  set_respond env s requestID (λ p, Vote p vdr vote).

(** [Drop] *)
Definition set_Drop (env : Env) s (requestID : Z) (vdr : NodeID) : option (set * list (Bag ID)) :=
  set_respond env s requestID (λ p, Drop p vdr).

(** [Len] *)
Definition set_Len s : Z := hm_Len (st_polls s).

(** ** The specification: a queue of polls *)

Abbreviation queue := (list (Z * P)).
Implicit Types q : queue.

Definition q_find (requestID : Z) q : option P := find_key requestID q.

Definition q_update (requestID : Z) (p : P) q : queue :=
  map (λ '(k, p0), (k, if decide (k = requestID) then p else p0)) q.

Definition q_Add q (requestID : Z) (vdrs : Bag NodeID) : queue * bool :=
  match q_find requestID q with
  | Some _ => (q, false)
  | None => (q ++ [(requestID, New vdrs)], true)
  end.

(** The ended polls at the front of the queue, and the rest. *)
Fixpoint q_process (env : Env) q : option (queue * queue) :=
  match q with
  | [] => Some ([], [])
  | (k, p) :: q =>
      '(p, fin) ← Finished env p;
      if (fin : bool) then '(out, q) ← q_process env q; Some ((k, p) :: out, q)
      else Some ([], (k, p) :: q)
  end.

(** The polls that are delivered, and the rest. *)
Definition q_respond (env : Env) q (requestID : Z) (respond : P → P) : option (queue * queue) :=
  match q_find requestID q with
  | None => Some ([], q)
  | Some p =>
      '(p, fin) ← Finished env (respond p);
      let q := q_update requestID p q in
      if (fin : bool) then q_process env q else Some ([], q)
  end.

(** ** The set implements the queue *)

Definition link (heap : gmap nat P) (kv : Z * option nat) (kp : Z * P) : Prop :=
  kv.1 = kp.1 ∧ ∃ ptr, kv.2 = Some ptr ∧ heap !! ptr = Some kp.2.

(** The map points to the polls of the queue, each by a pointer of its own. *)
Definition implements s q : Prop :=
  ∃ kvs, hm_entries (st_polls s) kvs ∧ Forall2 (link (st_heap s)) kvs q ∧ NoDup kvs.*2.

Lemma link_keys heap kvs q : Forall2 (link heap) kvs q → kvs.*1 = q.*1.
Proof. induction 1 as [|kv kp kvs q [Hk _] _ IH]; [done|]. by rewrite !fmap_cons, Hk, IH. Qed.

Lemma link_update heap kvs q ptr p :
  Forall2 (link heap) kvs q → Some ptr ∉ kvs.*2 → Forall2 (link (<[ptr := p]> heap)) kvs q.
Proof.
  induction 1 as [|kv kp kvs q (Hk & x & Hx & Hp) _ IH]; [constructor|]. rewrite fmap_cons. intros Hn.
  constructor; [|apply IH; set_solver]. split; [done|]. exists x. split; [done|]. rewrite lookup_insert_ne; [done|].
  intros ->. apply Hn. rewrite Hx. set_solver.
Qed.

Lemma NoDup_fst_unique {A B} (l1 l2 : list (A * B)) k v : NoDup (l1 ++ (k, v) :: l2).*1 → (k ∉ l1.*1) ∧ (k ∉ l2.*1).
Proof.
  rewrite fmap_app, fmap_cons. simpl. intros (_ & Hd & [Hn _]%NoDup_cons)%NoDup_app. split; [|done].
  intros Hk. apply (Hd k Hk). set_solver.
Qed.

Lemma find_key_middle {V} k (v : V) (l1 l2 : list (Z * V)) :
  NoDup (l1 ++ (k, v) :: l2).*1 → find_key k (l1 ++ (k, v) :: l2) = Some v.
Proof. intros Hnd. apply elem_of_list_to_map_1; [done|]. set_solver. Qed.

Lemma q_update_middle k p p' q1 q2 :
  NoDup (q1 ++ (k, p) :: q2).*1 → q_update k p' (q1 ++ (k, p) :: q2) = q1 ++ (k, p') :: q2.
Proof.
  intros [H1 H2]%NoDup_fst_unique. unfold q_update. rewrite List.map_app. simpl. rewrite decide_True by done.
  assert (∀ l : queue, k ∉ l.*1 → map (λ '(k0, p0), (k0, if decide (k0 = k) then p' else p0)) l = l) as Hid.
  { clear. intros l. induction l as [|[k0 p0] l IH]; [done|]. rewrite fmap_cons. simpl. intros Hn.
    rewrite decide_False by set_solver. rewrite IH by set_solver. done. }
  by rewrite !Hid.
Qed.

(** The poll of a request, in the map and in the queue. *)
Lemma link_middle heap kvs q k ptr kvs1 kvs2 :
  Forall2 (link heap) kvs q → kvs = kvs1 ++ (k, Some ptr) :: kvs2 → NoDup kvs.*2 →
  ∃ q1 p q2, q = q1 ++ (k, p) :: q2 ∧ heap !! ptr = Some p ∧
    ∀ p', Forall2 (link (<[ptr := p']> heap)) kvs (q1 ++ (k, p') :: q2).
Proof.
  intros Hl -> Hnd. apply Forall2_app_inv_l in Hl as (q1 & q2 & H1 & H2 & ->).
  apply Forall2_cons_inv_l in H2 as ([k' p] & q2' & (Hk & x & [= <-] & Hp) & H2 & ->). simpl in Hk, Hp. subst k'.
  exists q1, p, q2'. split_and!; [done|done|]. intros p'.
  rewrite fmap_app, fmap_cons in Hnd. simpl in Hnd. apply NoDup_app in Hnd as (_ & Hd & [Hn _]%NoDup_cons).
  apply Forall2_app; [apply link_update; [done|]|constructor; [|by apply link_update]].
  - intros Hin. apply (Hd _ Hin). set_solver.
  - split; [done|]. exists ptr. split; [done|]. apply lookup_insert_eq.
Qed.

Lemma it_at_entries lh it visited rest :
  it_at (K := Z) (V := option nat) lh it visited rest → hm_entries lh (visited ++ rest).
Proof. intros (xs1 & xs2 & Hr & _). by eexists. Qed.

(** ** Every call *)

Context (env_ok : Env → Prop) (vdrs_ok : Bag NodeID → Prop) (poll_inv ended : P → Prop).
Context `{Hlaws : !PollLaws Env NodeID env_ok vdrs_ok poll_inv ended}.

Definition q_inv q : Prop := ∀ k p, (k, p) ∈ q → poll_inv p.
Definition q_ended q : Prop := ∀ k p, (k, p) ∈ q → ended p.

Definition results_of (out : queue) : list (Bag ID) := map (λ kp, Result kp.2) out.

Lemma process_loop_spec fuel env s iter results kvs q :
  env_ok env → it_at (st_polls s) iter [] kvs → Forall2 (link (st_heap s)) kvs q → NoDup kvs.*2 → q_inv q →
  (length kvs < fuel)%nat →
  ∃ out q' s', q_process env q = Some (out, q') ∧
    process_loop fuel env s iter results = Some (s', results ++ results_of out) ∧
    implements s' q' ∧ q_inv q' ∧ q_ended out ∧ q.*1 = out.*1 ++ q'.*1.
Proof.
  intros Henv. revert s iter results kvs q. induction fuel as [|fuel IH]; intros s iter results kvs q Hat Hl Hnd Hinv Hf; [lia|].
  pose proof (it_Next_spec 0 None _ _ _ _ Hat) as Hnext. pose proof (it_at_entries _ _ _ _ Hat) as Hent.
  cbn [process_loop]. destruct kvs as [|[k h] kvs].
  { destruct Hnext as (it & ->). apply Forall2_nil_inv_l in Hl as ->. exists [], [], s. simpl. rewrite app_nil_r.
    split_and!; try done; [|by intros ?? ?%not_elem_of_nil..]. exists []. split_and!; [done|constructor|apply NoDup_nil_2]. }
  destruct Hnext as (it & -> & [= Hk Hv] & Hi & Hat'). cbn [mbind option_bind]. rewrite ?Hk, ?Hv.
  pose proof Hl as Hl0. apply Forall2_cons_inv_l in Hl as ([k' p] & q' & (Hkk & ptr & Hh & Hp) & Hl & ->).
  simpl in Hkk, Hh, Hp. subst k' h. cbn [mbind option_bind].
  destruct (Finished_inv (ended := ended) env p Henv) as (p' & fin & Hfin & Hinv' & Hend); [apply (Hinv k); set_solver|].
  unfold call_Finished. rewrite Hp. cbn [mbind option_bind]. rewrite Hfin. cbn [mbind option_bind q_process].
  rewrite fmap_cons in Hnd. apply NoDup_cons in Hnd as [Hn Hnd]. simpl in Hn. pose proof (link_update _ _ _ ptr p' Hl Hn) as Hl'.
  rewrite Hfin. cbn [mbind option_bind]. destruct fin.
  - rewrite lookup_insert_eq. cbn [mbind option_bind].
    destruct (it_at_Delete 0 None (st_polls s) it [] k (Some ptr) [] kvs Hi Hat') as (polls & -> & Hat'').
    cbn [mbind option_bind]. destruct (IH (mkSet (<[ptr := p']> (st_heap s)) polls) it (results ++ [Result p']) kvs q')
      as (out & q'' & s' & -> & -> & Himp & Hinv'' & Hend' & Hkeys); [done|done|done| |simpl in Hf; lia|].
    { intros k0 p0 Hin. apply (Hinv k0). set_solver. }
    cbn [mbind option_bind]. exists ((k, p') :: out), q'', s'. split_and!; [done| |done|done| |].
    + unfold results_of. simpl. by rewrite <- app_assoc.
    + intros k0 p0 [[= -> ->]|Hin]%elem_of_cons; [by apply Hend|by apply (Hend' k0)].
    + rewrite !fmap_cons. simpl. by rewrite Hkeys.
  - exists [], ((k, p') :: q'), (mkSet (<[ptr := p']> (st_heap s)) (st_polls s)). unfold results_of. simpl. rewrite app_nil_r.
    split_and!; [done|done| | |by intros ?? ?%not_elem_of_nil|done].
    + exists ((k, Some ptr) :: kvs). split_and!; [exact Hent| |apply NoDup_cons; done].
      constructor; [|done]. split; [done|]. exists ptr. split; [done|]. simpl. apply lookup_insert_eq.
    + intros k0 p0 [[= -> ->]|Hin]%elem_of_cons; [done|]. apply (Hinv k0). set_solver.
Qed.

Lemma implements_keys s q : implements s q → NoDup q.*1 ∧ set_Len s = Z.of_nat (length q).
Proof.
  intros (kvs & He & Hl & _). split.
  - rewrite <- (link_keys _ _ _ Hl). destruct He as [xs Hr]. apply (rp_keys _ _ _ Hr).
  - unfold set_Len. rewrite (hm_Len_spec _ kvs) by done. by rewrite (Forall2_length _ _ _ Hl).
Qed.

Lemma set_respond_spec env s q requestID respond :
  env_ok env → (∀ p, poll_inv p → poll_inv (respond p)) → implements s q → q_inv q →
  ∃ out q' s', q_respond env q requestID respond = Some (out, q') ∧
    set_respond env s requestID respond = Some (s', results_of out) ∧
    implements s' q' ∧ q_inv q' ∧ q_ended out ∧ q.*1 = out.*1 ++ q'.*1.
Proof.
  intros Henv Hresp Himp Hinv. pose proof (implements_keys _ _ Himp) as [Hndq _].
  pose proof Himp as (kvs & [xs Hr] & Hl & Hnd). unfold set_respond. rewrite (Get_spec _ _ _ requestID Hr). cbn [mbind option_bind].
  unfold q_respond, q_find. destruct (find_key requestID kvs) as [h|] eqn:Hfk; last first.
  { apply find_key_None in Hfk. rewrite (link_keys _ _ _ Hl) in Hfk. rewrite (proj2 (find_key_None _ _) Hfk).
    exists [], q, s. split_and!; [done|done|done|done|by intros ?? ?%not_elem_of_nil|done]. }
  apply find_key_Some in Hfk as (kvs1 & kvs2 & Heq).
  assert (∃ ptr, h = Some ptr) as [ptr ->].
  { apply (Forall2_lookup_l _ _ _ (length kvs1) (requestID, h)) in Hl as (kp & _ & _ & ptr & ? & _); [by exists ptr|].
    rewrite Heq. by apply list_lookup_middle. }
  destruct (link_middle _ _ _ _ _ _ _ Hl Heq Hnd) as (q1 & p & q2 & Hq & Hp & Hupd). rewrite Hq in Hndq |- *.
  rewrite find_key_middle by done. cbn [mbind option_bind]. rewrite Hp. cbn [mbind option_bind].
  destruct (Finished_inv (ended := ended) env (respond p) Henv) as (p' & fin & Hfin & Hinv' & Hend).
  { apply Hresp, (Hinv requestID). rewrite Hq. set_solver. }
  unfold call_Finished. rewrite lookup_insert_eq. cbn [mbind option_bind]. rewrite Hfin. cbn [mbind option_bind].
  rewrite insert_insert_eq, q_update_middle by done.
  assert (q_inv (q1 ++ (requestID, p') :: q2)) as Hinv''.
  { intros k0 p0. rewrite elem_of_app, elem_of_cons. intros [Hin|[[= -> ->]|Hin]]; [|done|]; apply (Hinv k0); rewrite Hq; set_solver. }
  assert ((q1 ++ (requestID, p) :: q2).*1 = (q1 ++ (requestID, p') :: q2).*1) as -> by (rewrite !fmap_app; done).
  destruct fin.
  - unfold processFinishedPolls. cbn [st_polls]. pose proof (represents_length _ _ _ Hr) as Hlen.
    apply (process_loop_spec _ env (mkSet _ (st_polls s)) _ [] kvs); [done|apply NewIterator_at; by exists xs|apply Hupd|done|done|].
    pose proof (hm_Len_spec (st_polls s) kvs ltac:(by exists xs)) as HL. unfold hm_Len in HL. lia.
  - exists [], (q1 ++ (requestID, p') :: q2), (mkSet (<[ptr := p']> (st_heap s)) (st_polls s)).
    split_and!; [done|done| |done|by intros ?? ?%not_elem_of_nil|done]. exists kvs. split_and!; [by exists xs|apply Hupd|done].
Qed.

Lemma set_Add_spec s q requestID vdrs :
  vdrs_ok vdrs → implements s q → q_inv q →
  ∃ s', set_Add s requestID vdrs = Some (s', (q_Add q requestID vdrs).2) ∧
    implements s' (q_Add q requestID vdrs).1 ∧ q_inv (q_Add q requestID vdrs).1.
Proof.
  intros Hv (kvs & [xs Hr] & Hl & Hnd) Hinv. unfold set_Add, q_Add, q_find. rewrite (Get_spec _ _ _ requestID Hr). cbn [mbind option_bind].
  pose proof (link_keys _ _ _ Hl) as Hkeys. destruct (find_key requestID kvs) as [h|] eqn:Hfk.
  { destruct (find_key requestID q) eqn:Hfq; [|apply find_key_None in Hfq; rewrite <- Hkeys in Hfq; apply find_key_None in Hfq; congruence].
    exists s. split_and!; [done| |done]. exists kvs. split_and!; [by exists xs|done|done]. }
  pose proof Hfk as Hfk'. apply find_key_None in Hfk. pose proof Hfk as Hfq. rewrite Hkeys in Hfq. rewrite (proj2 (find_key_None _ _) Hfq).
  set (ptr := fresh (dom (st_heap s))). destruct (Put_spec 0 None (st_polls s) kvs requestID (Some ptr)) as (polls & -> & He); [by exists xs|].
  cbn [mbind option_bind]. unfold put_entry in He. rewrite drop_key_absent in He by done.
  assert (Some ptr ∉ kvs.*2) as Hptr.
  { intros ([k h] & Hh & Hin)%list_elem_of_fmap. simpl in Hh. subst h. apply list_elem_of_lookup in Hin as [i Hi].
    apply (Forall2_lookup_l _ _ _ _ _ Hl) in Hi as (kp & _ & _ & x & [= <-] & Hx). apply elem_of_dom_2 in Hx. by apply is_fresh in Hx. }
  eexists. split_and!; [done| |].
  - exists (kvs ++ [(requestID, Some ptr)]). split_and!; [done| |].
    + apply Forall2_app; [by apply link_update|]. constructor; [|constructor]. split; [done|]. exists ptr. split; [done|]. apply lookup_insert_eq.
    + rewrite fmap_app. apply NoDup_app. split_and!; [done| |apply NoDup_singleton]. intros h Hh ->%list_elem_of_singleton. done.
  - intros k p. simpl. rewrite elem_of_app, list_elem_of_singleton. intros [Hin|[= -> ->]]; [by apply (Hinv k)|by apply (New_inv (ended := ended))].
Qed.

(** ** Sequences of calls *)

Inductive set_op : Type :=
| OAdd (requestID : Z) (vdrs : Bag NodeID)
| OVote (env : Env) (requestID : Z) (vdr : NodeID) (vote : ID)
| ODrop (env : Env) (requestID : Z) (vdr : NodeID).

Definition op_ok (op : set_op) : Prop :=
  match op with OAdd _ vdrs => vdrs_ok vdrs | OVote env _ _ _ | ODrop env _ _ => env_ok env end.

(** What a call returns: whether the poll was registered, or the results. *)
Inductive output : Type :=
| Registered (b : bool)
| Results (rs : list (Bag ID)).

Definition set_step s (op : set_op) : option (set * output) :=
  match op with
  | OAdd requestID vdrs => '(s, b) ← set_Add s requestID vdrs; Some (s, Registered b)
  | OVote env requestID vdr vote => '(s, rs) ← set_Vote env s requestID vdr vote; Some (s, Results rs)
  | ODrop env requestID vdr => '(s, rs) ← set_Drop env s requestID vdr; Some (s, Results rs)
  end.

Fixpoint set_run s (ops : list set_op) : option (set * list output) :=
  match ops with
  | [] => Some (s, [])
  | op :: ops => '(s, o) ← set_step s op; '(s, os) ← set_run s ops; Some (s, o :: os)
  end.

(** The same calls on the queue, with the polls that are delivered: a poll is appended
    when it is registered, hears the responses to its request, and is delivered when it
    has ended and every poll before it is delivered. *)
Definition q_step q (op : set_op) : option (queue * queue * output) :=
  match op with
  | OAdd requestID vdrs => let '(q, b) := q_Add q requestID vdrs in Some (q, [], Registered b)
  | OVote env requestID vdr vote => '(out, q) ← q_respond env q requestID (λ p, Vote p vdr vote); Some (q, out, Results (results_of out))
  | ODrop env requestID vdr => '(out, q) ← q_respond env q requestID (λ p, Drop p vdr); Some (q, out, Results (results_of out))
  end.

Fixpoint q_run q (ops : list set_op) : option (queue * queue * list output) :=
  match ops with
  | [] => Some (q, [], [])
  | op :: ops => '(q, out, o) ← q_step q op; '(q, outs, os) ← q_run q ops; Some (q, out ++ outs, o :: os)
  end.

(** The requests that were registered, in order. *)
Fixpoint registered (ops : list set_op) (os : list output) : list Z :=
  match ops, os with
  | OAdd requestID _ :: ops, Registered true :: os => requestID :: registered ops os
  | _ :: ops, _ :: os => registered ops os
  | _, _ => []
  end.

(** The results that were returned, in order. *)
Definition all_results (os : list output) : list (Bag ID) :=
  concat (map (λ o, match o with Results rs => rs | Registered _ => [] end) os).

Lemma set_step_spec s q op :
  op_ok op → implements s q → q_inv q →
  ∃ s' o out q', set_step s op = Some (s', o) ∧ q_step q op = Some (q', out, o) ∧ implements s' q' ∧ q_inv q' ∧ q_ended out ∧
    all_results [o] = results_of out ∧ q.*1 ++ registered [op] [o] = out.*1 ++ q'.*1.
Proof.
  intros Hop Himp Hinv. destruct op as [k vdrs|env k vdr vote|env k vdr]; simpl in Hop |- *.
  - destruct (set_Add_spec s q k vdrs Hop Himp Hinv) as (s' & -> & Himp' & Hinv'). cbn [mbind option_bind].
    exists s', (Registered (q_Add q k vdrs).2), [], (q_Add q k vdrs).1.
    split_and!; [done|by destruct (q_Add q k vdrs)|done|done|by intros ?? ?%not_elem_of_nil|done|].
    unfold q_Add. destruct (q_find k q); simpl; [by rewrite app_nil_r|by rewrite fmap_app].
  - destruct (set_respond_spec env s q k (λ p, Vote p vdr vote) Hop) as (out & q' & s' & Hq & Hrun & Himp' & Hinv' & Hend & Hkeys);
      [intros; by apply (Vote_inv (ended := ended))|done|done|].
    unfold set_Vote. rewrite Hrun, Hq. cbn [mbind option_bind]. exists s', (Results (results_of out)), out, q'.
    rewrite app_nil_r. split_and!; try done. unfold all_results. simpl. by rewrite app_nil_r.
  - destruct (set_respond_spec env s q k (λ p, Drop p vdr) Hop) as (out & q' & s' & Hq & Hrun & Himp' & Hinv' & Hend & Hkeys);
      [intros; by apply (Drop_inv (ended := ended))|done|done|].
    unfold set_Drop. rewrite Hrun, Hq. cbn [mbind option_bind]. exists s', (Results (results_of out)), out, q'.
    rewrite app_nil_r. split_and!; try done. unfold all_results. simpl. by rewrite app_nil_r.
Qed.

Lemma registered_cons op ops o os : registered (op :: ops) (o :: os) = registered [op] [o] ++ registered ops os.
Proof. destruct op, o as [[]|]; done. Qed.

Lemma all_results_cons o os : all_results (o :: os) = all_results [o] ++ all_results os.
Proof. unfold all_results. simpl. by rewrite app_nil_r. Qed.

Lemma set_run_spec ops s q :
  Forall op_ok ops → implements s q → q_inv q →
  ∃ s' os out q', set_run s ops = Some (s', os) ∧ q_run q ops = Some (q', out, os) ∧ implements s' q' ∧ q_inv q' ∧ q_ended out ∧
    all_results os = results_of out ∧ q.*1 ++ registered ops os = out.*1 ++ q'.*1.
Proof.
  intros Hops. revert s q. induction Hops as [|op ops Hop _ IH]; intros s q Himp Hinv.
  { exists s, [], [], q. split_and!; try done; [by intros ?? ?%not_elem_of_nil|]. simpl. by rewrite app_nil_r. }
  destruct (set_step_spec s q op Hop Himp Hinv) as (s1 & o & out1 & q1 & Hs & Hq & Himp1 & Hinv1 & He1 & Hr1 & Hk1).
  destruct (IH s1 q1 Himp1 Hinv1) as (s2 & os & out2 & q2 & Hrun & Hqrun & Himp2 & Hinv2 & He2 & Hr2 & Hk2).
  exists s2, (o :: os), (out1 ++ out2), q2. cbn [set_run q_run]. rewrite Hs, Hq. cbn [mbind option_bind]. rewrite Hrun, Hqrun. cbn [mbind option_bind].
  split_and!; [done|done|done|done| | |].
  - intros k p [Hin|Hin]%elem_of_app; [by apply (He1 k)|by apply (He2 k)].
  - rewrite all_results_cons, Hr1, Hr2. unfold results_of. by rewrite List.map_app.
  - rewrite registered_cons, app_assoc, Hk1, <- app_assoc, Hk2, fmap_app, app_assoc. done.
Qed.

Lemma NewSet_implements : implements NewSet [].
Proof.
  exists []. split_and!; [|constructor|apply NoDup_nil_2]. exists []. apply NewHashmap_spec.
Qed.
End Set_.

(** ** Polls with early termination *)

Section EarlyTermSet.
Context `{!MapRange ID} `{!MapRange Z} `{Countable NodeID} `{!MapRange NodeID} (alphaPreference alphaConfidence : Z).
Context (Halpha : 0 < alphaPreference ≤ alphaConfidence).

(** [Finished] reads the parents of the processing blocks. *)
#[global] Instance earlyTermPoll_poll : Poll (gmap ID ID) NodeID (earlyTermPoll (NodeID := NodeID)) := {
  New := newPoll alphaPreference alphaConfidence;
  Vote := poll_Vote;
  Drop := poll_Drop;
  Finished := poll_Finished;
  Result := poll_Result;
}.

Definition acyclic (parents : gmap ID ID) : Prop :=
  ∃ rank : ID → nat, ∀ c p, parents !! c = Some p → (rank p < rank c)%nat.

(** A sample that fits the thresholds. *)
Definition sample_ok (vdrs : Bag NodeID) : Prop := bag_ok vdrs ∧ Len vdrs < 2 * alphaPreference.

(** The blocks at some time at which the outcome of the poll was settled. *)
Definition settled_at (seen : gmap ID ID → Prop) (p : earlyTermPoll (NodeID := NodeID)) : Prop :=
  ∃ parents rank, seen parents ∧ (∀ c p, parents !! c = Some p → (rank p < rank c)%nat) ∧ settled parents rank p.

Definition early_inv (seen : gmap ID ID → Prop) (p : earlyTermPoll (NodeID := NodeID)) : Prop :=
  poll_ok p ∧ (p_finished p = true → settled_at seen p).

Lemma settled_at_event seen p e : poll_ok p → settled_at seen p → settled_at seen (run_event p e).
Proof.
  intros Hp (parents & rank & Hs & Hr & Hset). exists parents, rank. split_and!; [done|done|by apply settled_event].
Qed.

Lemma early_inv_event seen p e : early_inv seen p → early_inv seen (run_event p e).
Proof.
  intros [Hp Hf]. split; [by apply run_event_ok|]. intros Hfin. apply settled_at_event; [done|]. apply Hf. by destruct e.
Qed.

Lemma early_term_laws (seen : gmap ID ID → Prop) :
  PollLaws (gmap ID ID) NodeID (λ parents, seen parents ∧ acyclic parents) sample_ok (early_inv seen) (settled_at seen).
Proof.
  split.
  - intros vdrs [Hv Hl]. split; [|done]. split; simpl; [apply empty_bag_ok|done|done|unfold Len in *; simpl; lia].
  - intros p vdr vote. apply (early_inv_event seen p (EVote vdr vote)).
  - intros p vdr. apply (early_inv_event seen p (EDrop vdr)).
  - intros parents p [Hseen [rank Hrank]] [Hp Hf]. simpl. destruct (p_finished p) eqn:Hfin.
    { exists p, true. unfold poll_Finished. rewrite Hfin. specialize (Hf eq_refl). split; [done|].
      split; [split; [exact Hp|intros _; exact Hf]|intros _; exact Hf]. }
    destruct (Finished_cases parents rank Hrank p Hp Hfin) as (fin & Hrun & Hcase). rewrite Hrun. eexists _, fin. split; [done|].
    destruct fin; [|split; [split; [exact Hp|congruence]|done]]. assert (settled_at seen (set_finished p)) as Hs.
    { exists parents, rank. split_and!; [done|done|by apply settled_set_finished]. }
    split; [|done]. split; [|done]. destruct Hp as [H1 H2 H3 H4]. by split.
Qed.

(** C9: the set of polls is a queue.  On any sequence of registrations, votes and drops
    (with acyclic blocks, which may change from call to call, and samples of less than
    twice [alphaPreference]), no call panics or loops, and the set returns what the queue
    returns: a poll made for the sample of its registration hears the responses to its
    request, and its result is returned once, when it has ended and all polls registered
    before it have been returned.  So the requests registered so far are those delivered
    followed by those outstanding, in the order of registration, the results returned are
    those of the delivered polls, and each of these was settled: no response could have
    changed its outcome for any snow instance. *)
Theorem poll_set_fifo (seen : gmap ID ID → Prop) (ops : list set_op) :
  (∀ parents, seen parents → acyclic parents) →
  Forall (op_ok seen sample_ok) ops →
  ∃ s os delivered outstanding,
    set_run NewSet ops = Some (s, os) ∧
    q_run [] ops = Some (outstanding, delivered, os) ∧
    registered ops os = map fst delivered ++ map fst outstanding ∧
    set_Len s = Z.of_nat (length outstanding) ∧
    all_results os = map (λ kp, poll_Result kp.2) delivered ∧
    ∀ k p, (k, p) ∈ delivered → settled_at seen p.
Proof.
  intros Hseen Hops. pose proof (early_term_laws seen) as Hlaws.
  destruct (set_run_spec (λ parents, seen parents ∧ acyclic parents) sample_ok (early_inv seen) (settled_at seen) ops NewSet [])
    as (s & os & out & q & Hrun & Hq & Himp & _ & Hend & Hres & Hkeys).
  { eapply Forall_impl; [exact Hops|]. intros [] Hop; simpl in *; [done|auto..]. }
  { apply NewSet_implements. } { by intros ?? ?%not_elem_of_nil. }
  exists s, os, out, q. split_and!; [done|done|done| |done|done].
  by apply (implements_keys s q).
Qed.
End EarlyTermSet.

(** ** Witness *)

Section Demo.
#[local] Instance demo_set_range : MapRange ID := canonical_range ID.
#[local] Instance demo_request_range : MapRange Z := canonical_range Z.

(** Two polls; the newer one ends first and waits for the older one. *)
Definition demo_ops (b : ID) : list (set_op (Env := gmap ID ID) (NodeID := Z)) :=
  [OAdd 7 (Of [1; 2; 3]); OAdd 8 (Of [1; 2; 3]); OAdd 7 (Of [4]); OVote ∅ 8 1 b; OVote ∅ 8 2 b; ODrop ∅ 7 1; ODrop ∅ 7 2].

Definition is_empty_forest (parents : gmap ID ID) : Prop := parents = ∅.

Lemma Of_ok (l : list Z) : bag_ok (Of l).
Proof.
  unfold Of, Add. assert (∀ b, bag_ok b → bag_ok (foldl (λ b elt, AddCount b elt 1) b l)) as Hf; [|apply Hf, empty_bag_ok].
  induction l as [|x l IH]; intros b Hb; [done|]. apply IH. by apply AddCount_ok.
Qed.

Lemma poll_set_fifo_witness :
  ∃ s os (delivered outstanding : list (Z * earlyTermPoll (NodeID := Z))),
    set_run (Poll0 := earlyTermPoll_poll 2 2) NewSet (demo_ops Empty) = Some (s, os) ∧
    q_run (Poll0 := earlyTermPoll_poll 2 2) [] (demo_ops Empty) = Some (outstanding, delivered, os) ∧
    registered (demo_ops Empty) os = [7; 8] ∧ map fst delivered = [7; 8] ∧
    ∀ k p, (k, p) ∈ delivered → settled_at is_empty_forest p.
Proof.
  destruct (poll_set_fifo 2 2 ltac:(lia) is_empty_forest (demo_ops Empty)) as (s & os & delivered & outstanding & Hrun & Hq & Hreg & Hlen & _ & Hset).
  - intros parents ->. exists (λ _, 0%nat). intros c p. by rewrite lookup_empty.
  - unfold demo_ops. repeat (apply Forall_cons; split); [..|apply Forall_nil_2]; first [done | split; [apply Of_ok|by vm_compute]].
  - exists s, os, delivered, outstanding.
    assert (registered (demo_ops Empty) os = [7; 8] ∧ set_Len s = 0) as [Hos Hs].
    { clear -Hrun. set (r := λ x, match x : option (set (P := earlyTermPoll (NodeID := Z)) * _) with Some (s, os) => (registered (demo_ops Empty) os, set_Len s) | None => ([], 1) end).
      assert (r (set_run (Poll0 := earlyTermPoll_poll 2 2) NewSet (demo_ops Empty)) = ([7; 8], 0)) as Hv by (by vm_compute).
      rewrite Hrun in Hv. split; [exact (f_equal fst Hv)|exact (f_equal snd Hv)]. }
    split; [exact Hrun|]. split; [exact Hq|]. split; [exact Hos|]. split; [|exact Hset].
    rewrite Hs in Hlen. destruct outstanding; [|simpl in Hlen; lia]. rewrite app_nil_r in Hreg. congruence.
Defined.
End Demo.
