(* ===== verification/LRUCache.v ===== *)
(** * Bounded caches (package [cache])

    [lru_cache.go]: a cache of at most [Size] entries, and [lru_sized_cache.go]: a
    cache bounded by the total size of its entries.  Both keep their entries in a
    linked hash map, oldest use first, and evict from the front.  The lock makes
    every method one step; [PortionFilled] computes floating-point numbers and is
    left out.  [None] is a nil dereference, or a loop that needs more steps than
    the map has entries. *)
From S2P Require Import Prelude LinkedList LinkedHashmap.

(** ** Caches bounded by their number of entries *)

Section LRU.
Context `{Countable K} {V : Type} `{!MapRange K} (zeroK : K) (zeroV : V).

#[local] Abbreviation Hashmap := (Hashmap (K := K) (V := V)).
#[local] Abbreviation entries := (hm_entries (K := K) (V := V)).
#[local] Abbreviation kvput := (LinkedHashmap.Put zeroK zeroV).
#[local] Abbreviation kvdelete := (LinkedHashmap.Delete zeroK zeroV).

Record LRU : Type := mkLRU {
  lru_elements : option Hashmap;
  lru_Size : Z;
}.

(** [Oldest] followed by [Delete], as the loops do. *)
Definition delete_oldest (lh : Hashmap) : option Hashmap :=
  oldest ← Oldest lh;
  let oldestKey := match oldest with Some kv => kv.1 | None => zeroK end in
  r ← kvdelete lh oldestKey; Some r.1.

(** The loop of [resize]. *)
Fixpoint shrink (fuel : nat) (size : Z) (lh : Hashmap) : option Hashmap :=
  if size <? hm_Len lh then
    match fuel with O => None | S fuel => lh ← delete_oldest lh; shrink fuel size lh end
  else Some lh.

(** [resize]; the map it leaves is never nil. *)
Definition resize (c : LRU) : option (Hashmap * Z) :=
  let lh := default (NewHashmap zeroK zeroV) (lru_elements c) in
  let size := if lru_Size c <=? 0 then 1 else lru_Size c in
  lh ← shrink (Z.to_nat (hm_Len lh)) size lh;
  Some (lh, size).

(** [put] *)
Definition lru_put (c : LRU) (key : K) (value : V) : option LRU :=
  '(lh, size) ← resize c;
  lh ← (if hm_Len lh =? size then delete_oldest lh else Some lh);
  lh ← kvput lh key value;
  Some (mkLRU (Some lh) size).

(** [get] *)
Definition lru_get (c : LRU) (key : K) : option (LRU * option V) :=
  '(lh, size) ← resize c;
  val ← LinkedHashmap.Get lh key;
  match val with
  | None => Some (mkLRU (Some lh) size, None)
  | Some val => lh ← kvput lh key val; Some (mkLRU (Some lh) size, Some val)
  end.

(** [evict] *)
Definition lru_evict (c : LRU) (key : K) : option LRU :=
  '(lh, size) ← resize c;
  r ← kvdelete lh key;
  Some (mkLRU (Some r.1) size).

(** [flush] *)
Definition lru_flush (c : LRU) : option LRU :=
  match lru_elements c with
  | None => Some c
  | Some lh => lh ← Clear zeroK zeroV lh; Some (mkLRU (Some lh) (lru_Size c))
  end.

(** [len] *)
Definition lru_len (c : LRU) : Z := match lru_elements c with None => 0 | Some lh => hm_Len lh end.

(** ** The abstract cache: the entries, least recently used first *)

(** The capacity: a [Size] below one counts as one. *)
Definition capacity (size : Z) : Z := if size <=? 0 then 1 else size.

Definition make_room (n : Z) (kvs : list (K * V)) : list (K * V) :=
  if Z.of_nat (length kvs) =? n then tail kvs else kvs.

Inductive cache_op : Type :=
| CPut (key : K) (value : V)
| CGet (key : K)
| CEvict (key : K)
| CFlush.

Definition cache_step (n : Z) (kvs : list (K * V)) (op : cache_op) : list (K * V) :=
  match op with
  | CPut key value => put_entry key value (make_room n kvs)
  | CGet key => match find_key key kvs with Some v => put_entry key v kvs | None => kvs end
  | CEvict key => drop_key key kvs
  | CFlush => []
  end.

(** The concrete cache; the result of [Get] is returned. *)
Definition lru_step (c : LRU) (op : cache_op) : option (LRU * option V) :=
  match op with
  | CPut key value => c ← lru_put c key value; Some (c, None)
  | CGet key => lru_get c key
  | CEvict key => c ← lru_evict c key; Some (c, None)
  | CFlush => c ← lru_flush c; Some (c, None)
  end.

Definition cache_result (kvs : list (K * V)) (op : cache_op) : option V :=
  match op with CGet key => find_key key kvs | _ => None end.

(** ** The cache implements it *)

Definition implements_cache (c : LRU) (n : Z) (kvs : list (K * V)) : Prop :=
  capacity (lru_Size c) = n ∧ Z.of_nat (length kvs) ≤ n ∧
  match lru_elements c with None => kvs = [] | Some lh => entries lh kvs end.

Lemma entries_nodup (lh : Hashmap) kvs : entries lh kvs → NoDup kvs.*1.
Proof. intros [xs Hr]. apply Hr. Qed.

Lemma drop_key_head (key : K) (v : V) kvs : key ∉ kvs.*1 → drop_key key ((key, v) :: kvs) = kvs.
Proof. intros Hk. apply (drop_key_split key v [] kvs); [apply not_elem_of_nil|done]. Qed.

Lemma delete_oldest_spec (lh : Hashmap) kvs : entries lh kvs → ∃ lh', delete_oldest lh = Some lh' ∧ entries lh' (tail kvs).
Proof.
  intros He. unfold delete_oldest. rewrite (Oldest_spec _ _ He). simpl.
  set (key := match head kvs with Some kv => kv.1 | None => zeroK end).
  destruct (Delete_spec zeroK zeroV lh kvs key He) as (lh' & -> & He'). exists lh'. split; [done|].
  assert (drop_key key kvs = tail kvs) as Heq; [|by rewrite Heq in He'].
  apply entries_nodup in He. unfold key. destruct kvs as [|[k v] kvs]; [done|]. simpl. apply NoDup_cons in He as [Hk _]. by apply drop_key_head.
Qed.

Lemma resize_spec c n kvs : implements_cache c n kvs → ∃ lh, resize c = Some (lh, n) ∧ entries lh kvs ∧ hm_Len lh = Z.of_nat (length kvs).
Proof.
  intros (Hn & Hlen & He). unfold resize. fold (capacity (lru_Size c)). rewrite Hn.
  assert (entries (default (NewHashmap zeroK zeroV) (lru_elements c)) kvs) as He'.
  { destruct (lru_elements c) as [lh|]; [done|]. subst. eexists. apply NewHashmap_spec. }
  set (lh := default _ _) in *. pose proof (hm_Len_spec _ _ He') as Hl. exists lh. split; [|done].
  destruct (Z.to_nat (hm_Len lh)); simpl; rewrite (proj2 (Z.ltb_ge _ _)) by lia; done.
Qed.

Lemma drop_key_length (key : K) (kvs : list (K * V)) : (length (drop_key key kvs) ≤ length kvs)%nat.
Proof. apply length_filter. Qed.

Lemma drop_key_present (key : K) (kvs : list (K * V)) : key ∈ kvs.*1 → (length (drop_key key kvs) < length kvs)%nat.
Proof.
  intros ([k v] & -> & Hin)%list_elem_of_fmap. apply list_elem_of_split in Hin as (l1 & l2 & ->). unfold drop_key.
  rewrite filter_app, filter_cons_False by naive_solver. rewrite !length_app. simpl.
  pose proof (length_filter (λ kv : K * V, kv.1 ≠ k) l1). pose proof (length_filter (λ kv : K * V, kv.1 ≠ k) l2). lia.
Qed.

Lemma find_key_present (key : K) (kvs : list (K * V)) v : find_key key kvs = Some v → key ∈ kvs.*1.
Proof. intros Hf%find_key_in. apply list_elem_of_fmap. by exists (key, v). Qed.

Lemma make_room_length n (kvs : list (K * V)) : 0 < n → Z.of_nat (length kvs) ≤ n → Z.of_nat (length (make_room n kvs)) < n.
Proof. intros Hn Hl. unfold make_room. destruct (Z.eqb_spec (Z.of_nat (length kvs)) n); [|lia]. destruct kvs; simpl in *; lia. Qed.

Lemma lru_step_spec c n kvs op :
  implements_cache c n kvs →
  ∃ c', lru_step c op = Some (c', cache_result kvs op) ∧ implements_cache c' n (cache_step n kvs op).
Proof.
  intros Hc. pose proof Hc as (Hcap & Hlen & He0). destruct (resize_spec _ _ _ Hc) as (lh & Hr & He & Hl).
  assert (0 < n ∧ capacity n = n) as [Hn Hnn].
  { subst n. unfold capacity. destruct (Z.leb_spec (lru_Size c) 0); [done|]. rewrite (proj2 (Z.leb_gt _ _)) by lia. split; [lia|done]. }
  assert (∀ lh' kvs', entries lh' kvs' → Z.of_nat (length kvs') ≤ n → implements_cache (mkLRU (Some lh') n) n kvs') as Hmk by (intros; by split_and!).
  destruct op as [key value|key|key|]; simpl.
  - unfold lru_put. rewrite Hr. simpl. rewrite Hl.
    assert (∃ lh1, (if Z.of_nat (length kvs) =? n then delete_oldest lh else Some lh) = Some lh1 ∧ entries lh1 (make_room n kvs)) as (lh1 & -> & He1).
    { unfold make_room. destruct (Z.of_nat (length kvs) =? n); [by apply delete_oldest_spec|by exists lh]. }
    simpl. destruct (Put_spec zeroK zeroV lh1 _ key value He1) as (lh2 & -> & He2). simpl. eexists. split; [done|]. apply Hmk; [done|].
    unfold put_entry. rewrite length_app. simpl. pose proof (drop_key_length key (make_room n kvs)). pose proof (make_room_length n kvs Hn Hlen). lia.
  - unfold lru_get. rewrite Hr. simpl. destruct He as [xs Hrep]. rewrite (Get_spec _ _ _ key Hrep). simpl.
    destruct (find_key key kvs) as [v|] eqn:Hf; [|eexists; split; [done|]; apply Hmk; [by eexists|done]].
    destruct (Put_spec zeroK zeroV lh kvs key v ltac:(by eexists)) as (lh2 & -> & He2). simpl. eexists. split; [done|]. apply Hmk; [done|].
    unfold put_entry. rewrite length_app. simpl. pose proof (drop_key_present key kvs (find_key_present _ _ _ Hf)). lia.
  - unfold lru_evict. rewrite Hr. simpl. destruct (Delete_spec zeroK zeroV lh kvs key He) as (lh2 & -> & He2). simpl. eexists. split; [done|].
    apply Hmk; [done|]. pose proof (drop_key_length key kvs). lia.
  - unfold lru_flush. destruct (lru_elements c) as [lh0|] eqn:Hel; simpl.
    + destruct (Clear_spec zeroK zeroV lh0 kvs He0) as (lh2 & -> & He2). simpl. eexists. split; [done|]. split_and!; simpl; [done|lia|done].
    + eexists. split; [done|]. split_and!; [done|simpl; lia|]. by rewrite Hel.
Qed.

(** ** Sequences of calls *)

Fixpoint lru_run (c : LRU) (ops : list cache_op) : option (LRU * list (option V)) :=
  match ops with
  | [] => Some (c, [])
  | op :: ops => '(c, r) ← lru_step c op; '(c, rs) ← lru_run c ops; Some (c, r :: rs)
  end.

(** The values of the latest insertions that were not evicted or flushed. *)
Definition latest_step (m : gmap K V) (op : cache_op) : gmap K V :=
  match op with CPut key value => <[key := value]> m | CEvict key => delete key m | CFlush => ∅ | CGet _ => m end.

Lemma latest_entries n m kvs op :
  (∀ kv, kv ∈ kvs → m !! kv.1 = Some kv.2) → ∀ kv, kv ∈ cache_step n kvs op → latest_step m op !! kv.1 = Some kv.2.
Proof.
  intros Hm kv. assert (∀ l, kv ∈ tail l → kv ∈ l) as Htail by (intros []; [done|by right]).
  destruct op as [key value|key|key|]; simpl; unfold put_entry, drop_key.
  - rewrite elem_of_app, list_elem_of_filter, list_elem_of_singleton. intros [[Hne Hin]| ->]; [|apply lookup_insert_eq].
    rewrite lookup_insert_ne by done. apply Hm. unfold make_room in Hin. destruct (_ =? _); auto.
  - destruct (find_key key kvs) as [v|] eqn:Hf; [|auto]. rewrite elem_of_app, list_elem_of_filter, list_elem_of_singleton.
    intros [[_ Hin]| ->]; [auto|]. apply find_key_in in Hf. by apply (Hm (key, v)).
  - rewrite list_elem_of_filter. intros [Hne Hin]. rewrite lookup_delete_ne by done. auto.
  - by intros ?%not_elem_of_nil.
Qed.

Lemma lru_run_spec ops c n kvs m :
  implements_cache c n kvs → (∀ kv, kv ∈ kvs → m !! kv.1 = Some kv.2) →
  ∃ c' rs, lru_run c ops = Some (c', rs) ∧ implements_cache c' n (foldl (cache_step n) kvs ops) ∧
    ∀ kv, kv ∈ foldl (cache_step n) kvs ops → foldl latest_step m ops !! kv.1 = Some kv.2.
Proof.
  revert c kvs m. induction ops as [|op ops IH]; intros c kvs m Hc Hm; [by exists c, []|].
  cbn [lru_run foldl]. destruct (lru_step_spec c n kvs op Hc) as (c1 & -> & Hc1).
  destruct (IH c1 (cache_step n kvs op) (latest_step m op) Hc1) as (c' & rs & Hrun & Hc' & Hm'); [by apply latest_entries|].
  cbn [mbind option_bind]. rewrite Hrun. eexists _, _. done.
Qed.

(** C33: the cache keeps the entries of an abstract cache, least recently used
    first: no call fails or loops, the number of entries never exceeds the
    capacity, [Get] answers from the entries, and an entry is never stale: it is
    the latest value put for its key, which was neither evicted nor flushed
    since. *)
Theorem lru_refines size (ops : list cache_op) :
  let kvs := foldl (cache_step (capacity size)) [] ops in
  ∃ c rs, lru_run (mkLRU None size) ops = Some (c, rs) ∧
    lru_len c = Z.of_nat (length kvs) ∧ lru_len c ≤ capacity size ∧
    (∀ key, ∃ c', lru_get c key = Some (c', find_key key kvs)) ∧
    ∀ key v, find_key key kvs = Some v → foldl latest_step ∅ ops !! key = Some v.
Proof.
  intros kvs. destruct (lru_run_spec ops (mkLRU None size) (capacity size) [] ∅) as (c & rs & Hrun & Hc & Hm).
  - split_and!; [done|simpl; unfold capacity; zcases|done].
  - by intros kv ?%not_elem_of_nil.
  - fold kvs in Hc, Hm. exists c, rs. split; [done|]. pose proof Hc as (_ & Hlen & He).
    assert (lru_len c = Z.of_nat (length kvs)) as Hl.
    { unfold lru_len. destruct (lru_elements c) as [lh|]; [by apply hm_Len_spec|by rewrite He]. }
    split_and!; [done|lia| |].
    + intros key. destruct (lru_step_spec c _ kvs (CGet key) Hc) as (c' & Hget & _). by exists c'.
    + intros key v Hf. apply find_key_in in Hf. by apply (Hm (key, v)).
Qed.
End LRU.

(** ** Caches bounded by the size of their entries *)

Section SizedLRU.
Context `{Countable K} {V : Type} `{!MapRange K} (zeroK : K) (zeroV : V) (size : K → V → Z).

Record sizedElement : Type := mkSizedElement {
  se_value : V;
  se_size : Z;
}.

Definition zero_element : sizedElement := mkSizedElement zeroV 0.
#[local] Abbreviation Hashmap := (Hashmap (K := K) (V := sizedElement)).
#[local] Abbreviation entries := (hm_entries (K := K) (V := sizedElement)).

Record sizedLRU : Type := mkSizedLRU {
  sl_elements : Hashmap;
  sl_maxSize : Z;
  sl_currentSize : Z;
}.

(** [NewSizedLRU] *)
Definition NewSizedLRU (maxSize : Z) : sizedLRU := mkSizedLRU (NewHashmap zeroK zero_element) maxSize 0.

(** [flush] *)
Definition sized_flush (c : sizedLRU) : option sizedLRU :=
  lh ← Clear zeroK zero_element (sl_elements c);
  Some (mkSizedLRU lh (sl_maxSize c) 0).

(** The loop of [put] that makes room; the oldest element is nil when the map is
    empty. *)
Fixpoint evict_until (fuel : nat) (limit : Z) (lh : Hashmap) (currentSize : Z) : option (Hashmap * Z) :=
  if limit <? currentSize then
    match fuel with
    | O => None
    | S fuel =>
        oldest ← Oldest lh;
        '(oldestKey, oldestElement) ← oldest;
        r ← Delete zeroK zero_element lh oldestKey;
        evict_until fuel limit r.1 (currentSize - se_size oldestElement)
    end
  else Some (lh, currentSize).

(** [put] *)
Definition sized_put (c : sizedLRU) (key : K) (value : V) : option sizedLRU :=
  let newEntrySize := size key value in
  if sl_maxSize c <? newEntrySize then sized_flush c else
  old ← LinkedHashmap.Get (sl_elements c) key;
  let currentSize := match old with Some oldElement => sl_currentSize c - se_size oldElement | None => sl_currentSize c end in
  '(lh, currentSize) ← evict_until (Z.to_nat (hm_Len (sl_elements c))) (sl_maxSize c - newEntrySize) (sl_elements c) currentSize;
  lh ← LinkedHashmap.Put zeroK zero_element lh key (mkSizedElement value newEntrySize);
  Some (mkSizedLRU lh (sl_maxSize c) (currentSize + newEntrySize)).

(** [get] *)
Definition sized_get (c : sizedLRU) (key : K) : option (sizedLRU * option V) :=
  element ← LinkedHashmap.Get (sl_elements c) key;
  match element with
  | None => Some (c, None)
  | Some element =>
      lh ← LinkedHashmap.Put zeroK zero_element (sl_elements c) key element;
      Some (mkSizedLRU lh (sl_maxSize c) (sl_currentSize c), Some (se_value element))
  end.

(** [evict] *)
Definition sized_evict (c : sizedLRU) (key : K) : option sizedLRU :=
  element ← LinkedHashmap.Get (sl_elements c) key;
  match element with
  | None => Some c
  | Some element =>
      r ← Delete zeroK zero_element (sl_elements c) key;
      Some (mkSizedLRU r.1 (sl_maxSize c) (sl_currentSize c - se_size element))
  end.

(** [len] *)
Definition sized_len (c : sizedLRU) : Z := hm_Len (sl_elements c).

(** ** Sizes *)

Definition total_size (kvs : list (K * sizedElement)) : Z := foldr (λ kv acc, se_size kv.2 + acc) 0 kvs.

Definition sized_step (c : sizedLRU) (op : cache_op (K := K) (V := V)) : option (sizedLRU * option V) :=
  match op with
  | CPut key value => c ← sized_put c key value; Some (c, None)
  | CGet key => sized_get c key
  | CEvict key => c ← sized_evict c key; Some (c, None)
  | CFlush => c ← sized_flush c; Some (c, None)
  end.

Fixpoint sized_run (c : sizedLRU) (ops : list (cache_op (K := K) (V := V))) : option (sizedLRU * list (option V)) :=
  match ops with
  | [] => Some (c, [])
  | op :: ops => '(c, r) ← sized_step c op; '(c, rs) ← sized_run c ops; Some (c, r :: rs)
  end.

Section Bounded.
Context (Hsize : ∀ key value, 0 ≤ size key value) (Hkey : ∀ key v v', size key v = size key v').

(** The entries, with their sizes, and the map of the latest values. *)
Record sized_ok (c : sizedLRU) (kvs : list (K * sizedElement)) (m : gmap K V) : Prop := {
  so_entries : entries (sl_elements c) kvs;
  so_total : sl_currentSize c = total_size kvs;
  so_bound : sl_currentSize c ≤ sl_maxSize c;
  so_sizes k e : (k, e) ∈ kvs → se_size e = size k (se_value e);
  so_latest k e : (k, e) ∈ kvs → m !! k = Some (se_value e);
}.

Lemma total_size_app l1 l2 : total_size (l1 ++ l2) = total_size l1 + total_size l2.
Proof. induction l1 as [|kv l1 IH]; simpl; [done|]. unfold total_size in *. simpl. lia. Qed.

Lemma total_size_nonneg (kvs : list (K * sizedElement)) : (∀ k e, (k, e) ∈ kvs → se_size e = size k (se_value e)) → 0 ≤ total_size kvs.
Proof.
  induction kvs as [|[k e] kvs IH]; intros Hs; [done|]. simpl. pose proof (Hs k e ltac:(by left)) as He. pose proof (Hsize k (se_value e)).
  assert (0 ≤ total_size kvs) by (apply IH; intros; apply Hs; by right). unfold total_size in *. simpl. lia.
Qed.

(** Taking the entry of a key out. *)
Lemma total_size_drop (kvs : list (K * sizedElement)) key :
  NoDup kvs.*1 → total_size kvs = total_size (drop_key key kvs) + match find_key key kvs with Some e => se_size e | None => 0 end.
Proof.
  intros Hnd. destruct (find_key key kvs) as [e|] eqn:Hf.
  - apply find_key_in in Hf. apply list_elem_of_split in Hf as (l1 & l2 & ->). rewrite fmap_app in Hnd. apply NoDup_app in Hnd as (_ & Hd & Hnd).
    apply NoDup_cons in Hnd as [H2 _]. rewrite drop_key_split, !total_size_app; [simpl; unfold total_size; simpl; lia| |done].
    intros Hin. apply (Hd _ Hin). by left.
  - rewrite drop_key_absent; [lia|]. by apply find_key_None.
Qed.

(** The loop evicts the oldest entries, as few as needed. *)
Lemma evict_until_spec fuel limit lh kvs :
  entries lh kvs → 0 ≤ limit → (length kvs ≤ fuel)%nat →
  ∃ lh' j, evict_until fuel limit lh (total_size kvs) = Some (lh', total_size (drop j kvs)) ∧ entries lh' (drop j kvs) ∧
    total_size (drop j kvs) ≤ limit ∧ ∀ i, (i < j)%nat → limit < total_size (drop i kvs).
Proof.
  revert lh kvs. induction fuel as [|fuel IH]; intros lh kvs He Hlim Hf; cbn [evict_until];
    destruct (Z.ltb_spec limit (total_size kvs)) as [Hlt|Hle]; try (exists lh, 0%nat; by split_and!; [| | |intros i Hi; lia]).
  - destruct kvs; simpl in *; lia.
  - destruct kvs as [|[k e] kvs]; [unfold total_size in Hlt; simpl in Hlt; lia|]. rewrite (Oldest_spec _ _ He). cbn [mbind option_bind head].
    destruct (Delete_spec zeroK zero_element lh _ k He) as (lh1 & -> & He1). cbn [mbind option_bind fst].
    pose proof (entries_nodup _ _ He) as Hnd. apply NoDup_cons in Hnd as [Hk _]. rewrite drop_key_head in He1 by done.
    replace (total_size ((k, e) :: kvs) - se_size e) with (total_size kvs) by (unfold total_size; simpl; lia).
    destruct (IH lh1 kvs He1 Hlim) as (lh' & j & -> & He' & Hle & Hmin); [simpl in Hf; lia|].
    exists lh', (S j). split_and!; [done|done|done|]. intros [|i] Hi; [done|]. apply Hmin. lia.
Qed.

Lemma put_total (kvs : list (K * sizedElement)) key e :
  NoDup kvs.*1 → total_size (put_entry key e kvs) = total_size kvs - match find_key key kvs with Some e => se_size e | None => 0 end + se_size e.
Proof. intros Hnd. unfold put_entry. rewrite total_size_app, (total_size_drop kvs key Hnd). unfold total_size at 2. simpl. lia. Qed.

(** The sizes and values of the entries after an insertion. *)
Lemma put_entry_in (kvs : list (K * sizedElement)) key e k' e' :
  (k', e') ∈ put_entry key e kvs → (k' = key ∧ e' = e) ∨ (k' ≠ key ∧ (k', e') ∈ kvs).
Proof. unfold put_entry, drop_key. rewrite elem_of_app, list_elem_of_filter, list_elem_of_singleton. naive_solver. Qed.

Lemma find_key_drop (kvs : list (K * sizedElement)) j key : find_key key kvs = None → find_key key (drop j kvs) = None.
Proof.
  rewrite !find_key_None. intros Hn Hin. apply Hn. apply list_elem_of_fmap in Hin as (kv & -> & Hin).
  apply list_elem_of_fmap_2. rewrite <- (take_drop j kvs). apply elem_of_app. by right.
Qed.

Lemma sized_put_spec c kvs m key value :
  sized_ok c kvs m → 0 ≤ sl_maxSize c →
  ∃ c' kvs', sized_put c key value = Some c' ∧ sized_ok c' kvs' (latest_step m (CPut key value)) ∧ sl_maxSize c' = sl_maxSize c ∧
    (size key value ≤ sl_maxSize c → find_key key kvs' = Some (mkSizedElement value (size key value))).
Proof.
  intros [He Ht Hb Hs Hl] Hmax. unfold sized_put. pose proof (entries_nodup _ _ He) as Hnd.
  destruct (Z.ltb_spec (sl_maxSize c) (size key value)) as [Hbig|Hfit].
  { unfold sized_flush. destruct (Clear_spec zeroK zero_element _ _ He) as (lh & -> & He'). cbn [mbind option_bind].
    eexists _, []. split; [done|]. split; [|split; [done|lia]]. split; simpl; [done|done|lia|..]; by intros k e ?%not_elem_of_nil. }
  assert (∃ lh kvs1, (old ← LinkedHashmap.Get (sl_elements c) key;
      evict_until (Z.to_nat (hm_Len (sl_elements c))) (sl_maxSize c - size key value) (sl_elements c)
        (match old with Some oldElement => sl_currentSize c - se_size oldElement | None => sl_currentSize c end)) =
      Some (lh, total_size kvs1 - match find_key key kvs1 with Some e => se_size e | None => 0 end) ∧ entries lh kvs1 ∧
      total_size kvs1 - match find_key key kvs1 with Some e => se_size e | None => 0 end ≤ sl_maxSize c - size key value ∧
      (∀ kv, kv ∈ kvs1 → kv ∈ kvs)) as (lh & kvs1 & Hrun & He1 & Hle & Hsub).
  { destruct He as [xs Hrep]. rewrite (Get_spec _ _ _ key Hrep). cbn [mbind option_bind]. pose proof (ex_intro _ _ Hrep : entries _ _) as He.
    rewrite Ht, (hm_Len_spec _ _ He). destruct (find_key key kvs) as [e|] eqn:Hf.
    - exists (sl_elements c), kvs. rewrite Hf. apply find_key_in in Hf. pose proof (Hs _ _ Hf) as Hse. rewrite (Hkey _ _ value) in Hse.
      assert (total_size kvs - se_size e ≤ sl_maxSize c - size key value) as Hle by lia.
      split; [|done]. destruct (Z.to_nat (Z.of_nat (length kvs))); simpl; rewrite (proj2 (Z.ltb_ge _ _)) by done; done.
    - destruct (evict_until_spec (Z.to_nat (Z.of_nat (length kvs))) (sl_maxSize c - size key value) _ _ He) as (lh & j & Hrun & He' & Hle & _); [lia|lia|].
      exists lh, (drop j kvs). rewrite (find_key_drop _ _ _ Hf), !Z.sub_0_r. split_and!; [done|done|done|].
      intros kv Hkv. rewrite <- (take_drop j kvs). apply elem_of_app. by right. }
  destruct (LinkedHashmap.Get (sl_elements c) key) as [old|]; [|done]. cbn [mbind option_bind] in Hrun |- *. rewrite Hrun. cbn [mbind option_bind].
  destruct (Put_spec zeroK zero_element lh kvs1 key (mkSizedElement value (size key value)) He1) as (lh2 & -> & He2). cbn [mbind option_bind].
  exists (mkSizedLRU lh2 (sl_maxSize c) (total_size kvs1 - match find_key key kvs1 with Some e => se_size e | None => 0 end + size key value)),
    (put_entry key (mkSizedElement value (size key value)) kvs1).
  split; [done|]. split; [|split; [done|]].
  - split; simpl; [done|by rewrite (put_total _ _ _ (entries_nodup _ _ He1))|lia|..].
    + intros k e [[-> ->]|[_ Hin]]%put_entry_in; [done|]. by apply Hs, Hsub.
    + intros k e [[-> ->]|[Hk Hin]]%put_entry_in; [by rewrite lookup_insert_eq|]. rewrite lookup_insert_ne by done. by apply Hl, Hsub.
  - intros _. unfold find_key, put_entry. apply elem_of_list_to_map_1; [apply (entries_nodup _ _ He2)|]. apply elem_of_app. right. by left.
Qed.

Lemma sized_step_spec c kvs m op :
  sized_ok c kvs m → 0 ≤ sl_maxSize c →
  ∃ c' r kvs', sized_step c op = Some (c', r) ∧ sized_ok c' kvs' (latest_step m op) ∧ sl_maxSize c' = sl_maxSize c ∧
    (∀ key v, op = CGet key → r = Some v → m !! key = Some v).
Proof.
  intros Hc Hmax. pose proof Hc as [He Ht Hb Hs Hl]. destruct op as [key value|key|key|]; cbn [sized_step latest_step].
  - destruct (sized_put_spec c kvs m key value Hc Hmax) as (c' & kvs' & -> & Hc' & Hm & _). by exists c', None, kvs'.
  - unfold sized_get. destruct He as [xs Hrep]. rewrite (Get_spec _ _ _ key Hrep). cbn [mbind option_bind].
    pose proof (ex_intro _ _ Hrep : entries _ _) as He. destruct (find_key key kvs) as [e|] eqn:Hf; [|by exists c, None, kvs].
    destruct (Put_spec zeroK zero_element _ kvs key e He) as (lh & -> & He'). cbn [mbind option_bind].
    pose proof (find_key_in _ _ _ Hf) as Hin. eexists _, (Some (se_value e)), _. split; [done|]. split_and!; [|done|].
    + split; simpl; [exact He'|rewrite (put_total _ _ _ (entries_nodup _ _ He)), Hf; lia|done|..].
      * intros k e' [[-> ->]|[_ ?]]%put_entry_in; by apply Hs.
      * intros k e' [[-> ->]|[_ ?]]%put_entry_in; by apply Hl.
    + intros key' v [= <-] [= <-]. by apply Hl.
  - unfold sized_evict. destruct He as [xs Hrep]. rewrite (Get_spec _ _ _ key Hrep). cbn [mbind option_bind].
    pose proof (ex_intro _ _ Hrep : entries _ _) as He. pose proof (total_size_drop kvs key (entries_nodup _ _ He)) as Htd.
    assert (∀ k e, (k, e) ∈ drop_key key kvs → k ≠ key ∧ (k, e) ∈ kvs) as Hdrop by (intros k e [? ?]%list_elem_of_filter; done).
    destruct (find_key key kvs) as [e|] eqn:Hf; cbn [mbind option_bind].
    + destruct (Delete_spec zeroK zero_element _ kvs key He) as (lh & -> & He'). cbn [mbind option_bind fst]. eexists _, None, (drop_key key kvs).
      split; [done|]. split_and!; [|done|done]. pose proof (find_key_in _ _ _ Hf) as Hin. pose proof (Hs _ _ Hin) as Hse. pose proof (Hsize key (se_value e)).
      split; simpl; [done|lia|lia|..].
      * intros k e' [_ ?]%Hdrop. by apply Hs.
      * intros k e' [Hk ?]%Hdrop. rewrite lookup_delete_ne by done. by apply Hl.
    + exists c, None, kvs. split; [done|]. split_and!; [|done|done]. split; [done..|]. intros k e Hin.
      apply find_key_None in Hf. rewrite lookup_delete_ne; [by apply Hl|]. intros ->. apply Hf. apply list_elem_of_fmap. by exists (k, e).
  - unfold sized_flush. destruct (Clear_spec zeroK zero_element _ _ He) as (lh & -> & He'). cbn [mbind option_bind].
    eexists _, None, []. split; [done|]. split_and!; [|done|done]. split; simpl; [done|done|done|..]; by intros k e ?%not_elem_of_nil.
Qed.

Lemma sized_run_spec ops c kvs m :
  sized_ok c kvs m → 0 ≤ sl_maxSize c →
  ∃ c' rs kvs', sized_run c ops = Some (c', rs) ∧ sized_ok c' kvs' (foldl latest_step m ops) ∧ sl_maxSize c' = sl_maxSize c.
Proof.
  revert c kvs m. induction ops as [|op ops IH]; intros c kvs m Hc Hmax; [by exists c, [], kvs|]. cbn [sized_run foldl].
  destruct (sized_step_spec c kvs m op Hc Hmax) as (c1 & r & kvs1 & -> & Hc1 & Hm1 & _).
  destruct (IH c1 kvs1 (latest_step m op) Hc1 ltac:(lia)) as (c' & rs & kvs' & Hrun & Hc' & Hm').
  cbn [mbind option_bind]. rewrite Hrun. eexists _, _, kvs'. split; [done|]. split; [done|]. congruence.
Qed.

(** C34: a cache bounded by size keeps its bound, when the size of an entry is
    determined by its key: after any calls its counter is the exact total size of
    its entries and at most the maximum, no call fails or loops, and [Get] returns
    the latest value put for the key if any. *)
Theorem sized_lru_bounded maxSize (ops : list (cache_op (K := K) (V := V))) :
  0 ≤ maxSize →
  ∃ c rs kvs, sized_run (NewSizedLRU maxSize) ops = Some (c, rs) ∧ hm_entries (sl_elements c) kvs ∧
    sl_currentSize c = total_size kvs ∧ total_size kvs ≤ maxSize ∧ sized_len c = Z.of_nat (length kvs) ∧
    ∀ key, ∃ c' r, sized_get c key = Some (c', r) ∧ ∀ v, r = Some v → foldl latest_step ∅ ops !! key = Some v.
Proof.
  intros Hmax. destruct (sized_run_spec ops (NewSizedLRU maxSize) [] ∅) as (c & rs & kvs & Hrun & Hc & Hm).
  - split; simpl; [eexists; apply NewHashmap_spec|done|done|..]; by intros k e ?%not_elem_of_nil.
  - done.
  - exists c, rs, kvs. pose proof Hc as [He Ht Hb Hs Hl]. simpl in Hm. split_and!; [done|done|done|lia|by apply hm_Len_spec|].
    intros key. destruct (sized_step_spec c kvs _ (CGet key) Hc ltac:(lia)) as (c' & r & _ & Hget & _ & _ & Hr). exists c', r.
    split; [done|]. intros v Hv. by apply (Hr key v).
Qed.
End Bounded.
End SizedLRU.

(** ** Entries that grow *)

Section Growth.
#[local] Instance growth_range : MapRange Z := canonical_range Z.
#[local] Abbreviation size_is_value := (λ _ v : Z, v).

(** Without that assumption the bound is broken: when a new value of the
    oldest key is larger than its old one, [Put] subtracts the old size and then
    evicts the old entry and subtracts its size again, so the counter is too low
    and the entries exceed the maximum for good. *)
Lemma sized_put_growth :
  ∃ c rs kvs, sized_run 0 0 size_is_value (NewSizedLRU 0 0 3) [CPut 1 2; CPut 2 1; CPut 1 3] = Some (c, rs) ∧
    collect 0 (zero_element 0) 3 (sl_elements c) (NewIterator 0 (zero_element 0)) = Some kvs ∧
    sl_maxSize c = 3 ∧ total_size kvs = 4 ∧ sl_currentSize c = 2.
Proof.
  eexists _, _, _. split; [vm_compute; reflexivity|]. split; [vm_compute; reflexivity|]. repeat split; vm_compute; reflexivity.
Qed.

(** Putting a key that is present evicts the oldest entry of a full cache,
    although the number of entries would not grow. *)
Lemma lru_put_present_evicts :
  ∃ c, lru_run 0 0 (mkLRU None 2) [CPut 1 10; CPut 2 20; CPut 2 21; CGet 1] = Some (c, [None; None; None; None]) ∧ lru_len c = 1.
Proof. eexists. split; vm_compute; reflexivity. Qed.

Lemma sized_lru_bounded_witness :
  ∃ c rs kvs, sized_run 0 0 (λ _ _ : Z, 2) (NewSizedLRU 0 0 5) [CPut 1 10; CPut 2 20; CPut 3 30; CGet 2] = Some (c, rs) ∧
    hm_entries (sl_elements c) kvs ∧ total_size kvs ≤ 5 ∧ sl_currentSize c = 4.
Proof.
  destruct (sized_lru_bounded 0 0 (λ _ _ : Z, 2) (λ _ _, ltac:(lia)) (λ _ _ _, eq_refl) 5 [CPut 1 10; CPut 2 20; CPut 3 30; CGet 2] ltac:(lia))
    as (c & rs & kvs & Hrun & He & _ & Hle & _). exists c, rs, kvs. split; [exact Hrun|]. split; [exact He|]. split; [exact Hle|].
  vm_compute in Hrun. injection Hrun as <- _. reflexivity.
Defined.
End Growth.
