(* ===== verification/Deque.v ===== *)
(** * Double-ended queues (package [utils/buffer])

    [unbounded_deque.go]: a deque in a ring buffer that doubles when it is full,
    and [bounded_nonblocking_queue.go]: a queue of bounded length over it.  [None]
    is an index out of range. *)
From S2P Require Import Prelude.

Section Deque.
Context {T : Type} (Zero : T).

(** ** The ring buffer *)

Definition defaultInitSize : Z := 32.

Record unboundedSliceDeque : Type := mkDeque {
  dq_size : Z;
  dq_left : Z;
  dq_right : Z;
  dq_data : list T;
}.
Implicit Types b : unboundedSliceDeque.

Definition len (l : list T) : Z := Z.of_nat (length l).

(** [data[i]] and its assignment. *)
Definition at_index (data : list T) (i : Z) : option T := if i <? 0 then None else data !! Z.to_nat i.
Definition set_index (data : list T) (i : Z) (x : T) : option (list T) :=
  _ ← at_index data i; Some (<[Z.to_nat i := x]> data).

(** [copy(dst[from:], src)], for [from] in range. *)
Definition copy_to (dst : list T) (from : Z) (src : list T) : list T :=
  let n := Nat.min (length dst - Z.to_nat from) (length src) in
  take (Z.to_nat from) dst ++ take n src ++ drop (Z.to_nat from + n) dst.

(** [NewUnboundedDeque] *)
Definition NewUnboundedDeque (initSize : Z) : unboundedSliceDeque :=
  let initSize := if initSize <? 2 then defaultInitSize else initSize in
  mkDeque 0 0 1 (replicate (Z.to_nat initSize) Zero).

(** [leftmostEltIdx] and [rightmostEltIdx] *)
Definition leftmostEltIdx b : Z := if dq_left b =? len (dq_data b) - 1 then 0 else dq_left b + 1.
Definition rightmostEltIdx b : Z := if dq_right b =? 0 then len (dq_data b) - 1 else dq_right b - 1.

(** [resize] *)
Definition dq_resize b : unboundedSliceDeque :=
  if negb (dq_size b =? len (dq_data b)) then b else
  let newData := replicate (Z.to_nat (dq_size b * 2)) Zero in
  let leftmostIdx := leftmostEltIdx b in
  let newData := copy_to newData 0 (drop (Z.to_nat leftmostIdx) (dq_data b)) in
  let numCopied := len (dq_data b) - leftmostIdx in
  let newData := copy_to newData numCopied (take (Z.to_nat (dq_right b)) (dq_data b)) in
  mkDeque (dq_size b) (len newData - 1) (dq_size b) newData.

(** [PushRight] *)
Definition PushRight (elt : T) b : option (unboundedSliceDeque * bool) :=
  data ← set_index (dq_data b) (dq_right b) elt;
  Some (dq_resize (mkDeque (dq_size b + 1) (dq_left b) ((dq_right b + 1) mod len data) data), true).

(** [PushLeft] *)
Definition PushLeft (elt : T) b : option (unboundedSliceDeque * bool) :=
  data ← set_index (dq_data b) (dq_left b) elt;
  let left := dq_left b - 1 in
  let left := if left <? 0 then len data - 1 else left in
  Some (dq_resize (mkDeque (dq_size b + 1) left (dq_right b) data), true).

(** [PopLeft] *)
Definition PopLeft b : option (unboundedSliceDeque * option T) :=
  if dq_size b =? 0 then Some (b, None) else
  let idx := leftmostEltIdx b in
  elt ← at_index (dq_data b) idx;
  data ← set_index (dq_data b) idx Zero;
  Some (mkDeque (dq_size b - 1) ((dq_left b + 1) mod len data) (dq_right b) data, Some elt).

(** [PeekLeft] *)
Definition PeekLeft b : option (option T) :=
  if dq_size b =? 0 then Some None else
  elt ← at_index (dq_data b) (leftmostEltIdx b); Some (Some elt).

(** [PopRight] *)
Definition PopRight b : option (unboundedSliceDeque * option T) :=
  if dq_size b =? 0 then Some (b, None) else
  let idx := rightmostEltIdx b in
  elt ← at_index (dq_data b) idx;
  data ← set_index (dq_data b) idx Zero;
  let right := dq_right b - 1 in
  let right := if right <? 0 then len data - 1 else right in
  Some (mkDeque (dq_size b - 1) (dq_left b) right data, Some elt).

(** [PeekRight] *)
Definition PeekRight b : option (option T) :=
  if dq_size b =? 0 then Some None else
  elt ← at_index (dq_data b) (rightmostEltIdx b); Some (Some elt).

(** [Index] *)
Definition Index (idx : Z) b : option (option T) :=
  if (idx <? 0) || (dq_size b <=? idx) then Some None else
  elt ← at_index (dq_data b) ((leftmostEltIdx b + idx) mod len (dq_data b)); Some (Some elt).

Definition dq_Len b : Z := dq_size b.

(** [List]; [nil] is the empty slice. *)
Definition dq_List b : list T :=
  if dq_size b =? 0 then [] else
  let leftmostIdx := leftmostEltIdx b in
  let list := copy_to (replicate (Z.to_nat (dq_size b)) Zero) 0 (drop (Z.to_nat leftmostIdx) (dq_data b)) in
  let numCopied := Z.min (dq_size b) (len (dq_data b) - leftmostIdx) in
  if numCopied <? dq_size b then copy_to list numCopied (take (Z.to_nat (dq_right b)) (dq_data b)) else list.

(** ** The bounded queue *)

Record boundedQueue : Type := mkQueue {
  bq_deque : unboundedSliceDeque;
  bq_maxSize : Z;
}.

Inductive queue_error : Type := errInvalidMaxSize.

(** [NewBoundedQueue] *)
Definition NewBoundedQueue (maxSize : Z) : result boundedQueue queue_error :=
  if maxSize <? 1 then Err errInvalidMaxSize else Ok (mkQueue (NewUnboundedDeque (maxSize + 1)) maxSize).

(** [Push]; the evicted element, which is passed to [onEvict], is returned. *)
Definition bq_Push (elt : T) (q : boundedQueue) : option (boundedQueue * option T) :=
  '(d, evicted) ← (if dq_Len (bq_deque q) =? bq_maxSize q then
                     '(d, e) ← PopLeft (bq_deque q); Some (d, Some (default Zero e))
                   else Some (bq_deque q, None));
  '(d, _) ← PushRight elt d;
  Some (mkQueue d (bq_maxSize q), evicted).

(** [Pop] *)
Definition bq_Pop (q : boundedQueue) : option (boundedQueue * option T) :=
  '(d, e) ← PopLeft (bq_deque q); Some (mkQueue d (bq_maxSize q), e).

Definition bq_Peek (q : boundedQueue) : option (option T) := PeekLeft (bq_deque q).
Definition bq_Index (i : Z) (q : boundedQueue) : option (option T) := Index i (bq_deque q).
Definition bq_Len (q : boundedQueue) : Z := dq_Len (bq_deque q).
Definition bq_List (q : boundedQueue) : list T := dq_List (bq_deque q).

(** ** The contents *)

(** [b] holds [l], from left to right; the buffer may be full. *)
Record ring b (l : list T) : Prop := {
  rg_room : 2 ≤ len (dq_data b);
  rg_left : 0 ≤ dq_left b < len (dq_data b);
  rg_size : dq_size b = len l;
  rg_fits : len l ≤ len (dq_data b);
  rg_right : dq_right b = (dq_left b + 1 + len l) mod len (dq_data b);
  rg_data i x : 0 ≤ i → at_index l i = Some x → at_index (dq_data b) ((dq_left b + 1 + i) mod len (dq_data b)) = Some x;
}.

(** Between calls there is room for one more element. *)
Definition holds b (l : list T) : Prop := ring b l ∧ len l < len (dq_data b).

Lemma at_index_Some (l : list T) i x : at_index l i = Some x → 0 ≤ i < len l.
Proof.
  unfold at_index, len. destruct (Z.ltb_spec i 0); [done|]. intros Hx%lookup_lt_Some. lia.
Qed.

Lemma at_index_lt (l : list T) i : 0 ≤ i < len l → ∃ x, at_index l i = Some x.
Proof.
  unfold at_index, len. intros Hi. rewrite (proj2 (Z.ltb_ge _ _)) by lia. apply lookup_lt_is_Some_2. lia.
Qed.

Lemma at_index_cons (l : list T) x i : 0 < i → at_index (x :: l) i = at_index l (i - 1).
Proof.
  intros Hi. unfold at_index. rewrite !(proj2 (Z.ltb_ge _ _)) by lia. destruct (Z.to_nat i) eqn:E; [lia|]. simpl. f_equal. lia.
Qed.

Lemma at_index_app (l1 l2 : list T) i :
  at_index (l1 ++ l2) i = if i <? len l1 then at_index l1 i else at_index l2 (i - len l1).
Proof.
  unfold at_index, len. destruct (Z.ltb_spec i 0); destruct (Z.ltb_spec i (Z.of_nat (length l1))); try lia.
  - done.
  - by rewrite lookup_app_l by lia.
  - rewrite lookup_app_r by lia. rewrite (proj2 (Z.ltb_ge _ _)) by lia. f_equal. lia.
Qed.

Lemma len_app (l1 l2 : list T) : len (l1 ++ l2) = len l1 + len l2.
Proof. unfold len. rewrite length_app. lia. Qed.

Lemma set_index_spec (l : list T) i x :
  0 ≤ i < len l → ∃ l', set_index l i x = Some l' ∧ len l' = len l ∧
    ∀ j, at_index l' j = if decide (j = i) then Some x else at_index l j.
Proof.
  intros Hi. unfold set_index. destruct (at_index_lt l i Hi) as [y ->]. simpl. eexists. split; [done|]. unfold len in *. rewrite length_insert.
  split; [done|]. intros j. unfold at_index. case_decide as Hj.
  - subst. rewrite (proj2 (Z.ltb_ge _ _)) by lia. apply list_lookup_insert_eq. lia.
  - destruct (Z.ltb_spec j 0); [done|]. apply list_lookup_insert_ne. lia.
Qed.

(** Positions in a ring of [n] places. *)
Lemma pos_inj a i j n : 0 ≤ i < n → 0 ≤ j < n → (a + i) mod n = (a + j) mod n → i = j.
Proof.
  intros Hi Hj Heq. pose proof (Z.div_mod (a + i) n ltac:(lia)) as H1. pose proof (Z.div_mod (a + j) n ltac:(lia)) as H2.
  rewrite Heq in H1. assert (n * ((a + i) / n - (a + j) / n) = i - j) as Hm by lia.
  assert ((a + i) / n - (a + j) / n = 0) as Hz by nia. lia.
Qed.

Lemma wrap_up a n : 0 ≤ a < n → (if a =? n - 1 then 0 else a + 1) = (a + 1) mod n.
Proof.
  intros Ha. destruct (Z.eqb_spec a (n - 1)) as [->|]; [replace (n - 1 + 1) with n by lia; by rewrite Z_mod_same_full|by rewrite Z.mod_small by lia].
Qed.

Lemma wrap_down a n : 0 ≤ a < n → (if a - 1 <? 0 then n - 1 else a - 1) = (a - 1) mod n.
Proof.
  intros Ha. destruct (Z.ltb_spec (a - 1) 0); [|by rewrite Z.mod_small by lia].
  assert (a = 0) as -> by lia. apply (Z.mod_unique_pos _ _ (-1)); lia.
Qed.

Lemma leftmost_pos b l : ring b l → leftmostEltIdx b = (dq_left b + 1) mod len (dq_data b).
Proof. intros Hr. unfold leftmostEltIdx. apply wrap_up, Hr. Qed.

Lemma rightmost_pos b l : ring b l → rightmostEltIdx b = (dq_left b + len l) mod len (dq_data b).
Proof.
  intros Hr. pose proof (rg_room _ _ Hr). unfold rightmostEltIdx. rewrite (rg_right _ _ Hr).
  pose proof (Z.mod_pos_bound (dq_left b + 1 + len l) (len (dq_data b)) ltac:(lia)) as Hb. set (r := _ mod _) in *.
  assert ((if r =? 0 then len (dq_data b) - 1 else r - 1) = (r - 1) mod len (dq_data b)) as ->.
  { rewrite <- wrap_down by lia. destruct (Z.eqb_spec r 0), (Z.ltb_spec (r - 1) 0); lia. }
  unfold r. rewrite Zminus_mod_idemp_l. f_equal. lia.
Qed.

Lemma copy_to_spec (dst : list T) from src :
  0 ≤ from ≤ len dst → len (copy_to dst from src) = len dst ∧
    ∀ i, at_index (copy_to dst from src) i =
      if (from <=? i) && (i <? from + Z.min (len dst - from) (len src)) then at_index src (i - from) else at_index dst i.
Proof.
  unfold len. intros Hf. unfold copy_to. set (n := Nat.min (length dst - Z.to_nat from) (length src)). split.
  - rewrite !length_app, !length_take, length_drop. lia.
  - intros i. unfold at_index. destruct (Z.ltb_spec i 0) as [Hi|Hi].
    { rewrite (proj2 (Z.leb_gt _ _)) by lia. done. }
    destruct (Z.leb_spec from i) as [Hfi|Hfi]; simpl.
    + rewrite (proj2 (Z.ltb_ge (i - from) 0)) by lia. rewrite lookup_app_r by (rewrite length_take; lia). rewrite length_take.
      destruct (Z.ltb_spec i (from + Z.min (Z.of_nat (length dst) - from) (Z.of_nat (length src)))) as [Hlt|Hge].
      * rewrite lookup_app_l by (rewrite length_take; lia). rewrite lookup_take_lt by lia. f_equal. lia.
      * rewrite lookup_app_r by (rewrite length_take; lia). rewrite length_take, lookup_drop. f_equal. lia.
    + rewrite lookup_app_l by (rewrite length_take; lia). by rewrite lookup_take_lt by lia.
Qed.

Lemma at_index_drop (l : list T) k i : 0 ≤ k → 0 ≤ i → at_index (drop (Z.to_nat k) l) i = at_index l (k + i).
Proof. intros Hk Hi. unfold at_index. rewrite !(proj2 (Z.ltb_ge _ _)) by lia. rewrite lookup_drop. f_equal. lia. Qed.

Lemma at_index_take (l : list T) k i : i < k → at_index (take (Z.to_nat k) l) i = at_index l i.
Proof. intros Hi. unfold at_index. destruct (Z.ltb_spec i 0); [done|]. by rewrite lookup_take_lt by lia. Qed.

Lemma len_drop (l : list T) k : 0 ≤ k ≤ len l → len (drop (Z.to_nat k) l) = len l - k.
Proof. unfold len. intros Hk. rewrite length_drop. lia. Qed.

Lemma len_take (l : list T) k : 0 ≤ k ≤ len l → len (take (Z.to_nat k) l) = k.
Proof. unfold len. intros Hk. rewrite length_take. lia. Qed.

Lemma len_replicate n (x : T) : 0 ≤ n → len (replicate (Z.to_nat n) x) = n.
Proof. unfold len. intros Hn. rewrite length_replicate. lia. Qed.

(** The position of an element, from the leftmost one. *)
Lemma pos_split b l i :
  ring b l → let n := len (dq_data b) in let s := leftmostEltIdx b in 0 ≤ s < n ∧
    (0 ≤ i < n → (dq_left b + 1 + i) mod n = if s + i <? n then s + i else s + i - n).
Proof.
  intros Hr n s. pose proof (rg_room _ _ Hr) as Hn. fold n in Hn. unfold s. rewrite (leftmost_pos _ _ Hr). fold n.
  pose proof (Z.mod_pos_bound (dq_left b + 1) n ltac:(lia)) as Hs. split; [done|]. intros Hi.
  rewrite <- Zplus_mod_idemp_l. set (s' := (dq_left b + 1) mod n) in *.
  destruct (Z.ltb_spec (s' + i) n); [by rewrite Z.mod_small by lia|]. symmetry. apply (Z.mod_unique_pos _ _ 1); lia.
Qed.

(** Copying the two parts of the ring puts the elements in order. *)
Lemma unroll b l dst :
  ring b l → len l ≤ len dst →
  let n := len (dq_data b) in let s := leftmostEltIdx b in
  let list := copy_to dst 0 (drop (Z.to_nat s) (dq_data b)) in
  len list = len dst ∧ (len l ≤ n - s → ∀ i x, at_index l i = Some x → at_index list i = Some x) ∧
  (n - s ≤ len l → let list := copy_to list (n - s) (take (Z.to_nat (dq_right b)) (dq_data b)) in
    len list = len dst ∧ ∀ i x, at_index l i = Some x → at_index list i = Some x).
Proof.
  intros Hr Hd n s list. destruct (pos_split b l 0 Hr) as [Hs _]. fold n s in Hs. pose proof (rg_fits _ _ Hr) as Hfit. fold n in Hfit.
  assert (len (drop (Z.to_nat s) (dq_data b)) = n - s) as Hdrop by (apply len_drop; unfold n; lia).
  assert (0 ≤ len l) as Hl0 by (unfold len; lia).
  destruct (copy_to_spec dst 0 (drop (Z.to_nat s) (dq_data b)) ltac:(lia)) as [Hlen Hat]. fold list in Hlen, Hat. rewrite Hdrop in Hat.
  assert (∀ i x, at_index l i = Some x → i < n - s → at_index list i = Some x) as Hfirst.
  { intros i x Hx Hi. pose proof (at_index_Some _ _ _ Hx) as Hil. rewrite Hat, (proj2 (Z.leb_le _ _)), (proj2 (Z.ltb_lt _ _)) by lia. simpl.
    rewrite at_index_drop by lia. pose proof (rg_data _ _ Hr i x ltac:(lia) Hx) as Hdat. rewrite (proj2 (pos_split b l i Hr)) in Hdat by (fold n; lia).
    fold n s in Hdat. rewrite (proj2 (Z.ltb_lt _ _)) in Hdat by lia. by rewrite Z.sub_0_r. }
  split; [done|]. split; [intros Hle i x Hx; apply Hfirst; [done|]; apply at_index_Some in Hx; lia|].
  intros Hle list2.
  assert (dq_right b = if s + len l - n <? n then s + len l - n else s) as Hright.
  { rewrite (rg_right _ _ Hr), <- Zplus_mod_idemp_l, <- (leftmost_pos _ _ Hr). fold n s.
    destruct (Z.ltb_spec (s + len l - n) n); [symmetry; apply (Z.mod_unique_pos _ _ 1); lia|lia]. }
  assert (dq_right b = s + len l - n) as Hright' by (destruct (Z.ltb_spec (s + len l - n) n); lia).
  assert (len (take (Z.to_nat (dq_right b)) (dq_data b)) = dq_right b) as Htake by (apply len_take; fold n; lia).
  destruct (copy_to_spec list (n - s) (take (Z.to_nat (dq_right b)) (dq_data b)) ltac:(lia)) as [Hlen2 Hat2]. fold list2 in Hlen2, Hat2.
  split; [lia|]. intros i x Hx. pose proof (at_index_Some _ _ _ Hx) as Hil. rewrite Hat2, Htake.
  destruct (Z.leb_spec (n - s) i) as [Hi|Hi]; simpl; [|by apply Hfirst].
  rewrite (proj2 (Z.ltb_lt _ _)) by lia. rewrite at_index_take by lia.
  pose proof (rg_data _ _ Hr i x ltac:(lia) Hx) as Hdat. rewrite (proj2 (pos_split b l i Hr)) in Hdat by (fold n; lia).
  fold n s in Hdat. rewrite (proj2 (Z.ltb_ge _ _)) in Hdat by lia. by replace (i - (n - s)) with (s + i - n) by lia.
Qed.

Lemma resize_holds b l : ring b l → holds (dq_resize b) l.
Proof.
  intros Hr. unfold dq_resize. pose proof (rg_size _ _ Hr) as Hsz. pose proof (rg_fits _ _ Hr) as Hfit. pose proof (rg_room _ _ Hr) as Hroom.
  destruct (Z.eqb_spec (dq_size b) (len (dq_data b))) as [Hfull|Hne]; simpl; [|split; [done|lia]].
  assert (len (replicate (Z.to_nat (dq_size b * 2)) Zero) = dq_size b * 2) as Hrep by (apply len_replicate; lia).
  destruct (unroll b l (replicate (Z.to_nat (dq_size b * 2)) Zero) Hr ltac:(lia)) as (_ & _ & Hun).
  destruct (pos_split b l 0 Hr) as [Hs _]. destruct (Hun ltac:(lia)) as [Hlen Hat]. clear Hun. set (data := copy_to _ _ (take _ _)) in *.
  split; [|simpl; lia]. split; simpl; try lia.
  - rewrite Hlen, Hrep. replace (dq_size b * 2 - 1 + 1 + len l) with (len l + 1 * (dq_size b * 2)) by lia.
    rewrite Z_mod_plus_full, Z.mod_small by lia. done.
  - intros i x Hi Hx. apply at_index_Some in Hx as Hil. rewrite Hlen, Hrep.
    replace (dq_size b * 2 - 1 + 1 + i) with (i + 1 * (dq_size b * 2)) by lia. rewrite Z_mod_plus_full, Z.mod_small by lia. by apply Hat.
Qed.

Lemma dq_List_spec b l : holds b l → dq_List b = l.
Proof.
  intros [Hr Hlt]. unfold dq_List. pose proof (rg_size _ _ Hr) as Hsz. rewrite Hsz. assert (0 ≤ len l) as Hl0 by (unfold len; lia).
  destruct (Z.eqb_spec (len l) 0) as [Hz|Hz]; [unfold len in Hz; symmetry; apply nil_length_inv; lia|].
  assert (len (replicate (Z.to_nat (len l)) Zero) = len l) as Hrep by (by apply len_replicate).
  destruct (unroll b l (replicate (Z.to_nat (len l)) Zero) Hr ltac:(lia)) as (Hlen & Hshort & Hlong). cbv zeta in *.
  assert (∀ l', len l' = len l → (∀ i x, at_index l i = Some x → at_index l' i = Some x) → l' = l) as Heq.
  { intros l' Hll Hi. apply list_eq_same_length with (length l); [done|unfold len in Hll; lia|]. intros i x y Hil Hx Hy.
    specialize (Hi (Z.of_nat i) y). unfold at_index in Hi. rewrite (proj2 (Z.ltb_ge _ _)), Nat2Z.id in Hi by lia. rewrite Hi in Hx; congruence. }
  destruct (Z.ltb_spec (Z.min (len l) (len (dq_data b) - leftmostEltIdx b)) (len l)) as [Hwrap|Hno].
  - rewrite Z.min_r by lia. destruct (Hlong ltac:(lia)) as [Hl2 Hat]. apply Heq; [lia|done].
  - apply Heq; [lia|]. apply Hshort. lia.
Qed.

(** ** The operations *)

Lemma PushRight_spec b l x : holds b l → ∃ b', PushRight x b = Some (b', true) ∧ holds b' (l ++ [x]).
Proof.
  intros [Hr Hlt]. pose proof (rg_room _ _ Hr). pose proof (rg_left _ _ Hr). unfold PushRight.
  assert (0 ≤ len l) as Hl0 by (unfold len; lia). pose proof (rg_right _ _ Hr) as Hright.
  destruct (set_index_spec (dq_data b) (dq_right b) x) as (data & -> & Hlen & Hat); [rewrite Hright; apply Z.mod_pos_bound; lia|].
  cbn [mbind option_bind]. eexists. split; [done|]. apply resize_holds. assert (len (l ++ [x]) = len l + 1) as Hl1 by (rewrite len_app; done).
  split; simpl; rewrite ?Hlen, ?Hl1; try done; try lia; [by rewrite (rg_size _ _ Hr)| |].
  - rewrite Hright, Zplus_mod_idemp_l. f_equal. lia.
  - intros i y Hi Hy. rewrite Hat, Hright. rewrite at_index_app in Hy. destruct (Z.ltb_spec i (len l)) as [Hil|Hil].
    + rewrite decide_False; [by apply (rg_data _ _ Hr)|]. intros Heq. apply pos_inj in Heq; lia.
    + pose proof (at_index_Some _ _ _ Hy) as Hil'. change (len [x]) with 1 in Hil'. assert (i = len l) as -> by lia.
      rewrite Z.sub_diag in Hy. rewrite decide_True by done. done.
Qed.

Lemma PushLeft_spec b l x : holds b l → ∃ b', PushLeft x b = Some (b', true) ∧ holds b' (x :: l).
Proof.
  intros [Hr Hlt]. pose proof (rg_room _ _ Hr). pose proof (rg_left _ _ Hr) as Hleft. unfold PushLeft.
  assert (0 ≤ len l) as Hl0 by (unfold len; lia).
  destruct (set_index_spec (dq_data b) (dq_left b) x Hleft) as (data & -> & Hlen & Hat).
  cbn [mbind option_bind]. eexists. split; [done|]. apply resize_holds. assert (len (x :: l) = len l + 1) as Hl1 by (unfold len; simpl; lia).
  set (n := len (dq_data b)) in *. assert (∀ k, ((dq_left b - 1) mod n + 1 + k) mod n = (dq_left b + k) mod n) as Hpos.
  { intros k. rewrite <- Z.add_assoc, Zplus_mod_idemp_l. f_equal. lia. }
  split; simpl; rewrite ?Hlen, ?Hl1; fold n; rewrite ?wrap_down by done; try done; try lia; [apply Z.mod_pos_bound; lia|by rewrite (rg_size _ _ Hr)| |].
  - rewrite Hpos, (rg_right _ _ Hr). fold n. f_equal. lia.
  - intros i y Hi Hy. rewrite Hat, Hpos. destruct (decide (i = 0)) as [->|Hi0].
    + rewrite Z.add_0_r, Z.mod_small by done. rewrite decide_True by done. done.
    + rewrite at_index_cons in Hy by lia. pose proof (at_index_Some _ _ _ Hy) as Hil. rewrite decide_False.
      * pose proof (rg_data _ _ Hr (i - 1) y ltac:(lia) Hy) as Hd. fold n in Hd. by replace (dq_left b + 1 + (i - 1)) with (dq_left b + i) in Hd by lia.
      * intros Heq. rewrite <- (Z.mod_small (dq_left b) n) in Heq at 2 by done. rewrite <- (Z.add_0_r (dq_left b)) in Heq at 2.
        apply pos_inj in Heq; lia.
Qed.

Lemma leftmost_elt b x l : holds b (x :: l) → at_index (dq_data b) (leftmostEltIdx b) = Some x.
Proof.
  intros [Hr _]. rewrite (leftmost_pos _ _ Hr). pose proof (rg_data _ _ Hr 0 x ltac:(lia) eq_refl) as Hd. by rewrite Z.add_0_r in Hd.
Qed.

Lemma rightmost_elt b x l : holds b (l ++ [x]) → at_index (dq_data b) (rightmostEltIdx b) = Some x.
Proof.
  intros [Hr _]. rewrite (rightmost_pos _ _ Hr), len_app. change (len [x]) with 1.
  replace (dq_left b + (len l + 1)) with (dq_left b + 1 + len l) by lia. apply (rg_data _ _ Hr); [unfold len; lia|].
  rewrite at_index_app, Z.ltb_irrefl, Z.sub_diag. done.
Qed.

Lemma PopLeft_spec b l : holds b l → ∃ b', PopLeft b = Some (b', head l) ∧ holds b' (tail l).
Proof.
  intros Hh. pose proof Hh as [Hr Hlt]. unfold PopLeft. rewrite (rg_size _ _ Hr). destruct l as [|x l]; [by exists b|].
  assert (len (x :: l) = len l + 1) as Hl1 by (unfold len; simpl; lia). assert (0 ≤ len l) as Hl0 by (unfold len; lia).
  rewrite (proj2 (Z.eqb_neq _ _)) by lia. rewrite (leftmost_elt _ _ _ Hh). cbn [mbind option_bind].
  destruct (pos_split _ _ 0 Hr) as [Hs _]. destruct (set_index_spec (dq_data b) (leftmostEltIdx b) Zero Hs) as (data & -> & Hlen & Hat).
  cbn [mbind option_bind]. eexists. split; [done|]. set (n := len (dq_data b)) in *.
  assert (∀ k, ((dq_left b + 1) mod n + 1 + k) mod n = (dq_left b + 1 + (k + 1)) mod n) as Hpos.
  { intros k. rewrite <- Z.add_assoc, Zplus_mod_idemp_l. f_equal. lia. }
  split; [|simpl; lia]. pose proof (rg_room _ _ Hr). pose proof (rg_left _ _ Hr).
  split; simpl; rewrite ?Hlen; fold n; try done; try lia; [apply Z.mod_pos_bound; lia| |].
  - rewrite Hpos, (rg_right _ _ Hr), Hl1. done.
  - intros i y Hi Hy. apply at_index_Some in Hy as Hil. rewrite Hat, Hpos. rewrite decide_False.
    + apply (rg_data _ _ Hr); [lia|]. rewrite at_index_cons by lia. by replace (i + 1 - 1) with i by lia.
    + rewrite (leftmost_pos _ _ Hr). fold n. intros Heq. rewrite <- (Z.add_0_r (dq_left b + 1)) in Heq at 2. apply pos_inj in Heq; lia.
Qed.

Lemma PopRight_spec b l : holds b l → ∃ b', PopRight b = Some (b', last l) ∧ holds b' (removelast l).
Proof.
  intros Hh. pose proof Hh as [Hr Hlt]. unfold PopRight. rewrite (rg_size _ _ Hr). destruct l as [|x l _] using rev_ind; [by exists b|].
  assert (len (l ++ [x]) = len l + 1) as Hl1 by (rewrite len_app; done). assert (0 ≤ len l) as Hl0 by (unfold len; lia).
  rewrite (proj2 (Z.eqb_neq _ _)) by lia. rewrite (rightmost_elt _ _ _ Hh). cbn [mbind option_bind].
  pose proof (rg_room _ _ Hr). pose proof (rg_left _ _ Hr). set (n := len (dq_data b)) in *.
  pose proof (rightmost_pos _ _ Hr) as Hrp. fold n in Hrp.
  destruct (set_index_spec (dq_data b) (rightmostEltIdx b) Zero) as (data & -> & Hlen & Hat); [rewrite Hrp; apply Z.mod_pos_bound; lia|].
  cbn [mbind option_bind]. rewrite last_snoc, removelast_last. eexists. split; [done|].
  split; [|simpl; lia]. split; simpl; rewrite ?Hlen; fold n; try done; try lia.
  - pose proof (rg_right _ _ Hr) as Hright. fold n in Hright. pose proof (Z.mod_pos_bound (dq_left b + 1 + len (l ++ [x])) n ltac:(lia)).
    rewrite wrap_down by (by rewrite Hright). rewrite Hright, Zminus_mod_idemp_l, Hl1. f_equal. lia.
  - intros i y Hi Hy. apply at_index_Some in Hy as Hil. rewrite Hat, decide_False.
    + apply (rg_data _ _ Hr); [lia|]. rewrite at_index_app, (proj2 (Z.ltb_lt _ _)) by lia. done.
    + rewrite Hrp, Hl1. replace (dq_left b + (len l + 1)) with (dq_left b + 1 + len l) by lia. intros Heq. apply pos_inj in Heq; lia.
Qed.

Lemma PeekLeft_spec b l : holds b l → PeekLeft b = Some (head l).
Proof.
  intros Hh. unfold PeekLeft. rewrite (rg_size _ _ (proj1 Hh)). destruct l as [|x l]; [done|].
  rewrite (proj2 (Z.eqb_neq _ _)) by (unfold len; simpl; lia). by rewrite (leftmost_elt _ _ _ Hh).
Qed.

Lemma PeekRight_spec b l : holds b l → PeekRight b = Some (last l).
Proof.
  intros Hh. unfold PeekRight. rewrite (rg_size _ _ (proj1 Hh)). destruct l as [|x l _] using rev_ind; [done|].
  rewrite (proj2 (Z.eqb_neq _ _)) by (rewrite len_app; unfold len; simpl; lia). by rewrite (rightmost_elt _ _ _ Hh), last_snoc.
Qed.

Lemma Index_spec b l i : holds b l → Index i b = Some (at_index l i).
Proof.
  intros [Hr Hlt]. unfold Index. rewrite (rg_size _ _ Hr). destruct (at_index l i) as [x|] eqn:Hx.
  - pose proof (at_index_Some _ _ _ Hx) as Hil. rewrite (proj2 (Z.ltb_ge _ _)), (proj2 (Z.leb_gt _ _)) by lia. simpl.
    rewrite (leftmost_pos _ _ Hr), Zplus_mod_idemp_l. by rewrite (rg_data _ _ Hr i x ltac:(lia) Hx).
  - destruct (Z.ltb_spec i 0); [done|]. destruct (Z.leb_spec (len l) i); [done|]. destruct (at_index_lt l i ltac:(lia)). congruence.
Qed.

Lemma NewUnboundedDeque_spec initSize : holds (NewUnboundedDeque initSize) [].
Proof.
  unfold NewUnboundedDeque. set (n := if initSize <? 2 then defaultInitSize else initSize).
  assert (2 ≤ n) as Hn by (unfold n, defaultInitSize; destruct (Z.ltb_spec initSize 2); lia).
  assert (len (replicate (Z.to_nat n) Zero) = n) as Hl by (apply len_replicate; lia).
  assert (len [] = 0) as H0 by done.
  split; [|simpl; lia]. split; simpl; rewrite ?Hl; try lia; [by rewrite H0, Z.mod_small by lia|].
  intros i x _ Hx%at_index_Some. lia.
Qed.

(** ** Sequences of calls *)

Inductive deque_op : Type := DPushLeft (x : T) | DPushRight (x : T) | DPopLeft | DPopRight.

Definition deque_step b (op : deque_op) : option (unboundedSliceDeque * option T) :=
  match op with
  | DPushLeft x => '(b, _) ← PushLeft x b; Some (b, None)
  | DPushRight x => '(b, _) ← PushRight x b; Some (b, None)
  | DPopLeft => PopLeft b
  | DPopRight => PopRight b
  end.

Definition list_step (l : list T) (op : deque_op) : list T * option T :=
  match op with
  | DPushLeft x => (x :: l, None)
  | DPushRight x => (l ++ [x], None)
  | DPopLeft => (tail l, head l)
  | DPopRight => (removelast l, last l)
  end.

Fixpoint deque_run b (ops : list deque_op) : option (unboundedSliceDeque * list (option T)) :=
  match ops with
  | [] => Some (b, [])
  | op :: ops => '(b, r) ← deque_step b op; '(b, rs) ← deque_run b ops; Some (b, r :: rs)
  end.

Fixpoint list_run (l : list T) (ops : list deque_op) : list T * list (option T) :=
  match ops with
  | [] => (l, [])
  | op :: ops => let '(l, r) := list_step l op in let '(l, rs) := list_run l ops in (l, r :: rs)
  end.

Lemma deque_step_spec b l op : holds b l → ∃ b', deque_step b op = Some (b', (list_step l op).2) ∧ holds b' (list_step l op).1.
Proof.
  intros Hh. destruct op as [x|x| |]; simpl.
  - destruct (PushLeft_spec b l x Hh) as (b' & -> & Hh'). by exists b'.
  - destruct (PushRight_spec b l x Hh) as (b' & -> & Hh'). by exists b'.
  - by apply PopLeft_spec.
  - by apply PopRight_spec.
Qed.

Lemma deque_run_spec ops b l :
  holds b l → ∃ b', deque_run b ops = Some (b', (list_run l ops).2) ∧ holds b' (list_run l ops).1.
Proof.
  revert b l. induction ops as [|op ops IH]; intros b l Hh; [by exists b|]. cbn [deque_run list_run].
  destruct (deque_step_spec b l op Hh) as (b1 & -> & Hh1). cbn [mbind option_bind]. destruct (list_step l op) as [l1 r]. simpl in Hh1 |- *.
  destruct (IH b1 l1 Hh1) as (b' & -> & Hh'). cbn [mbind option_bind]. destruct (list_run l1 ops). by exists b'.
Qed.

(** The ring buffer is a deque: whatever the initial size, after any sequence
    of pushes and pops, through wrap-around and growth, no index is out of range,
    every pop returned what it returns on a plain sequence, and [List], [Len],
    [Index], [PeekLeft] and [PeekRight] answer from that sequence. *)
Theorem deque_refines initSize (ops : list deque_op) :
  let '(l, rs) := list_run [] ops in
  ∃ b, deque_run (NewUnboundedDeque initSize) ops = Some (b, rs) ∧
    dq_List b = l ∧ dq_Len b = len l ∧ PeekLeft b = Some (head l) ∧ PeekRight b = Some (last l) ∧
    ∀ i, Index i b = Some (at_index l i).
Proof.
  pose proof (deque_run_spec ops _ _ (NewUnboundedDeque_spec initSize)) as (b & Hrun & Hh). destruct (list_run [] ops) as [l rs]. simpl in *.
  exists b. split_and!; [done|by apply dq_List_spec|apply (rg_size _ _ (proj1 Hh))|by apply PeekLeft_spec|by apply PeekRight_spec|].
  intros i. by apply Index_spec.
Qed.

(** *** Bounded queues *)

(** What a call does to the bounded queue, and to its contents. *)
Inductive queue_op : Type := QPush (x : T) | QPop.

Definition queue_step (q : boundedQueue) (op : queue_op) : option (boundedQueue * option T) :=
  match op with QPush x => bq_Push x q | QPop => bq_Pop q end.

Fixpoint queue_run (q : boundedQueue) (ops : list queue_op) : option (boundedQueue * list (option T)) :=
  match ops with
  | [] => Some (q, [])
  | op :: ops => '(q, r) ← queue_step q op; '(q, rs) ← queue_run q ops; Some (q, r :: rs)
  end.

(** The elements pushed, and those that left, in order. *)
Definition pushed (ops : list queue_op) : list T := omap (λ op, match op with QPush x => Some x | QPop => None end) ops.
Definition departed (rs : list (option T)) : list T := omap id rs.

(** The buffer grows only when it is full. *)
Lemma set_index_len (l l' : list T) i x : set_index l i x = Some l' → len l' = len l.
Proof. unfold set_index. destruct (at_index l i); [|done]. simpl. intros [= <-]. unfold len. by rewrite length_insert. Qed.

Lemma PushRight_keep b b' l x : holds b l → len l + 1 < len (dq_data b) → PushRight x b = Some (b', true) → len (dq_data b') = len (dq_data b).
Proof.
  intros [Hr _] Hroom. unfold PushRight. destruct (set_index _ _ _) as [data|] eqn:Hset; [|done]. cbn [mbind option_bind]. intros [= <-].
  apply set_index_len in Hset. unfold dq_resize. simpl. rewrite (rg_size _ _ Hr), Hset, (proj2 (Z.eqb_neq _ _)) by lia. done.
Qed.

Lemma PopLeft_keep b b' r : PopLeft b = Some (b', r) → len (dq_data b') = len (dq_data b).
Proof.
  unfold PopLeft. destruct (dq_size b =? 0); [by intros [= <- _]|]. destruct (at_index _ _); [|done]. cbn [mbind option_bind].
  destruct (set_index _ _ _) as [data|] eqn:Hset; [|done]. cbn [mbind option_bind]. intros [= <- _]. by apply set_index_len in Hset.
Qed.

(** [q] holds [l], in the buffer it started with. *)
Record queue_holds (q : boundedQueue) (l : list T) : Prop := {
  qh_deque : holds (bq_deque q) l;
  qh_max : 1 ≤ bq_maxSize q;
  qh_len : len l ≤ bq_maxSize q;
  qh_buffer : len (dq_data (bq_deque q)) = bq_maxSize q + 1;
}.

Lemma queue_step_spec q l op :
  queue_holds q l → ∃ q' r, queue_step q op = Some (q', r) ∧ bq_maxSize q' = bq_maxSize q ∧
    match op with
    | QPush x => let full := len l =? bq_maxSize q in
        r = (if full then head l else None) ∧ queue_holds q' ((if full then tail l else l) ++ [x])
    | QPop => r = head l ∧ queue_holds q' (tail l)
    end.
Proof.
  intros [Hh Hmax Hlen Hbuf]. assert (0 ≤ len l) as Hl0 by (unfold len; lia).
  assert (len (tail l) = if len l =? 0 then 0 else len l - 1) as Htail by (destruct l; unfold len; simpl; [done|lia]).
  destruct op as [x|]; simpl.
  - unfold bq_Push, dq_Len. rewrite (rg_size _ _ (proj1 Hh)).
    assert (∃ d r, (if len l =? bq_maxSize q then '(d, e) ← PopLeft (bq_deque q); Some (d, Some (default Zero e)) else Some (bq_deque q, None)) = Some (d, r) ∧
      r = (if len l =? bq_maxSize q then head l else None) ∧ holds d (if len l =? bq_maxSize q then tail l else l) ∧ len (dq_data d) = bq_maxSize q + 1)
      as (d & r & -> & Hr & Hd & Hdb).
    { destruct (Z.eqb_spec (len l) (bq_maxSize q)); [|by exists (bq_deque q), None]. destruct (PopLeft_spec _ _ Hh) as (d & Hpop & Hd). rewrite Hpop.
      apply PopLeft_keep in Hpop. eexists d, _. split; [done|]. destruct l; [unfold len in *; simpl in *; lia|]. split_and!; [done|done|lia]. }
    set (l1 := if len l =? bq_maxSize q then tail l else l) in *.
    assert (len l1 + 1 ≤ bq_maxSize q) as Hl1.
    { unfold l1. destruct (Z.eqb_spec (len l) (bq_maxSize q)); [|lia]. rewrite Htail. destruct (Z.eqb_spec (len l) 0); lia. }
    cbn [mbind option_bind]. destruct (PushRight_spec d l1 x Hd) as (d' & Hpush & Hd'). rewrite Hpush. cbn [mbind option_bind].
    pose proof (PushRight_keep d d' l1 x Hd ltac:(lia) Hpush) as Hkeep. eexists _, r. split; [done|]. split; [done|]. split; [done|].
    split; simpl; [done|done| |lia]. rewrite len_app. change (len [x]) with 1. lia.
  - unfold bq_Pop. destruct (PopLeft_spec _ _ Hh) as (d & Hpop & Hd). rewrite Hpop. apply PopLeft_keep in Hpop. eexists _, _. split; [done|].
    split; [done|]. split; [done|]. split; simpl; [done|done| |lia]. rewrite Htail. destruct (Z.eqb_spec (len l) 0); lia.
Qed.

Lemma queue_run_spec ops q l :
  queue_holds q l → ∃ q' rs l', queue_run q ops = Some (q', rs) ∧ queue_holds q' l' ∧ bq_maxSize q' = bq_maxSize q ∧
    l ++ pushed ops = departed rs ++ l'.
Proof.
  revert q l. induction ops as [|op ops IH]; intros q l Hq; [exists q, [], l; by rewrite app_nil_r|]. cbn [queue_run].
  destruct (queue_step_spec q l op Hq) as (q1 & r & -> & Hm & Hstep). cbn [mbind option_bind].
  assert (∃ l1, queue_holds q1 l1 ∧ l ++ pushed [op] = departed [r] ++ l1) as (l1 & Hq1 & Heq).
  { destruct op as [x|]; simpl in Hstep; destruct Hstep as [-> Hq1]; eexists; (split; [exact Hq1|]).
    - destruct (len l =? bq_maxSize q); [destruct l; done|done].
    - rewrite app_nil_r. by destruct l. }
  destruct (IH q1 l1 Hq1) as (q' & rs & l' & -> & Hq' & Hm' & Heq'). cbn [mbind option_bind]. exists q', (r :: rs), l'.
  split; [done|]. split; [done|]. split; [congruence|].
  change (pushed (op :: ops)) with (pushed ([op] ++ ops)). change (departed (r :: rs)) with (departed ([r] ++ rs)).
  unfold pushed, departed in *. rewrite !omap_app, app_assoc, Heq, <- !app_assoc, Heq'. done.
Qed.

(** The bounded queue is first in, first out: it is refused for a maximal size
    below one; otherwise, after any pushes and pops, it holds at most that many
    elements in a buffer that never grew, and the elements that were popped or
    evicted, followed by those it holds, are the elements pushed, in order. *)
Theorem bounded_queue_fifo maxSize (ops : list queue_op) :
  match NewBoundedQueue maxSize with
  | Err _ => maxSize < 1
  | Ok q => 1 ≤ maxSize ∧ ∃ q' rs, queue_run q ops = Some (q', rs) ∧
      pushed ops = departed rs ++ bq_List q' ∧ bq_Len q' = len (bq_List q') ∧ bq_Len q' ≤ maxSize ∧
      len (dq_data (bq_deque q')) = maxSize + 1
  end.
Proof.
  unfold NewBoundedQueue. destruct (Z.ltb_spec maxSize 1) as [|Hmax]; [done|]. split; [done|].
  destruct (queue_run_spec ops (mkQueue (NewUnboundedDeque (maxSize + 1)) maxSize) []) as (q & rs & l & Hrun & Hq & Hm & Heq).
  - split; simpl; [apply NewUnboundedDeque_spec|done|unfold len; simpl; lia|]. unfold NewUnboundedDeque.
    rewrite (proj2 (Z.ltb_ge (maxSize + 1) 2)) by lia. apply len_replicate. lia.
  - exists q, rs. simpl in Hm. destruct Hq as [Hh _ Hl Hb]. split; [done|]. unfold bq_List, bq_Len, dq_Len.
    rewrite (dq_List_spec _ _ Hh), (rg_size _ _ (proj1 Hh)), Hb, Hm in *. split_and!; [done|done|lia|lia].
Qed.
End Deque.
