(* ===== verification/AncestorTree.v ===== *)
(** * Partial views of a tree of blocks (package [snow/engine/snowman/ancestor])

    [tree.go]: the engine records the parent of each block it has not verified,
    to attribute a vote for such a block to its oldest known ancestor, and forgets
    a block with its descendants.  Two maps hold the edges in both directions. *)
From S2P Require Import Prelude Ids Bag Forest.

Section AncestorTree.
Context `{!MapRange ID}.

Record tree : Type := mkTree {
  childToParent : gmap ID ID;
  parentToChildren : gmap ID (gset ID);
}.
Implicit Types t : tree.

(** [NewTree] *)
Definition NewTree : tree := mkTree ∅ ∅.

(** [Add] *)
Definition Add t (blkID parentID : ID) : tree :=
  let children := default ∅ (parentToChildren t !! parentID) in
  mkTree (<[blkID := parentID]> (childToParent t)) (<[parentID := {[blkID]} ∪ children]> (parentToChildren t)).

(** [Has] *)
Definition Has t (blkID : ID) : bool := bool_decide (is_Some (childToParent t !! blkID)).

(** The loop of [GetAncestor]. *)
Fixpoint get_ancestor (fuel : nat) t (blkID : ID) : option ID :=
  match fuel with
  | O => None
  | S fuel =>
      match childToParent t !! blkID with
      | None => Some blkID
      | Some parentID => get_ancestor fuel t parentID
      end
  end.

(** [GetAncestor]; a walk visits each block that has a parent at most once. *)
Definition GetAncestor t (blkID : ID) : option ID := get_ancestor (S (base.size (childToParent t))) t blkID.

(** [Remove]; the set of children is shared with the map, so that removing from it
    changes the map. *)
Definition Remove t (blkID : ID) : tree :=
  match childToParent t !! blkID with
  | None => t
  | Some parent =>
      let children := default ∅ (parentToChildren t !! parent) ∖ {[blkID]} in
      mkTree (delete blkID (childToParent t))
        (if decide (base.size children = 0%nat) then delete parent (parentToChildren t)
         else <[parent := children]> (parentToChildren t))
  end.

(** The loop of [RemoveDescendants]; the head of the list is the end of the
    slice. *)
Fixpoint remove_descendants (fuel : nat) t (childrenList : list ID) : option tree :=
  match childrenList with
  | [] => Some t
  | childID :: childrenList =>
      match fuel with
      | O => None
      | S fuel =>
          let t := Remove t childID in
          let grandChildren := set_range (default ∅ (parentToChildren t !! childID)) in
          remove_descendants fuel t (reverse grandChildren ++ childrenList)
      end
  end.

(** [RemoveDescendants]; each pass but the first removes a block. *)
Definition RemoveDescendants t (blkID : ID) : option tree :=
  remove_descendants (S (base.size (childToParent t))) t [blkID].

(** [Len] *)
Definition tree_Len t : Z := Z.of_nat (base.size (childToParent t)).

(** ** Representation *)

(** Blocks have one parent each, and parents are older. *)
Context (par : gmap ID ID) (rank : ID → nat) (Hrank : ∀ c q, par !! c = Some q → (rank q < rank c)%nat).
Implicit Types m : gmap ID ID.

(** The tree holds the known edges [m]. *)
Record holds_edges t m : Prop := {
  he_parent : childToParent t = m;
  he_children q S : parentToChildren t !! q = Some S ↔ S ≠ ∅ ∧ ∀ c, c ∈ S ↔ m !! c = Some q;
}.

#[local] Abbreviation anc m := (ancestors m rank).

Lemma sub_rank m : m ⊆ par → ∀ c q, m !! c = Some q → (rank q < rank c)%nat.
Proof. intros Hsub c q Hq. by apply Hrank, (lookup_weaken m). Qed.

Lemma children_of t m q : holds_edges t m → ∀ c, c ∈ default ∅ (parentToChildren t !! q) ↔ m !! c = Some q.
Proof.
  intros Ht c. destruct (parentToChildren t !! q) as [S|] eqn:HS; simpl.
  - apply (he_children _ _ Ht) in HS as [_ HS]. apply HS.
  - split; [set_solver|]. intros Hc.
    assert (parentToChildren t !! q = Some (dom (filter (λ cp, cp.2 = q) m))); [|congruence].
    assert (∀ c, c ∈ dom (filter (λ cp : ID * ID, cp.2 = q) m) ↔ m !! c = Some q) as Hin.
    { intros c'. rewrite elem_of_dom. unfold is_Some. setoid_rewrite map_lookup_filter_Some. simpl. naive_solver. }
    apply (he_children _ _ Ht). split; [|done]. apply Hin in Hc. set_solver.
Qed.

Lemma Add_holds t m c q : holds_edges t m → m !! c = None ∨ m !! c = Some q → holds_edges (Add t c q) (<[c := q]> m).
Proof.
  intros Ht Hc. pose proof (children_of t m q Ht) as Hq. split; simpl; [by rewrite (he_parent _ _ Ht)|]. intros q' S.
  assert (∀ c', c' ∈ {[c]} ∪ default ∅ (parentToChildren t !! q) ↔ <[c := q]> m !! c' = Some q) as Hnew.
  { intros c'. rewrite elem_of_union, elem_of_singleton, Hq. destruct (decide (c' = c)) as [->|Hne].
    - rewrite lookup_insert_eq. tauto.
    - rewrite lookup_insert_ne by done. tauto. }
  destruct (decide (q' = q)) as [->|Hqq].
  - rewrite lookup_insert_eq. split.
    + intros [= <-]. split; [set_solver|done].
    + intros [_ HS]. f_equal. apply set_eq. intros c'. by rewrite HS, Hnew.
  - rewrite lookup_insert_ne by done. rewrite (he_children _ _ Ht).
    assert (∀ c', m !! c' = Some q' ↔ <[c := q]> m !! c' = Some q') as Hsame; [|by setoid_rewrite Hsame].
    intros c'. destruct (decide (c' = c)) as [->|Hne]; [|by rewrite lookup_insert_ne].
    rewrite lookup_insert_eq. destruct Hc as [->| ->]; split; congruence.
Qed.

Lemma Remove_holds t m c : holds_edges t m → holds_edges (Remove t c) (delete c m).
Proof.
  intros Ht. unfold Remove. rewrite (he_parent _ _ Ht). destruct (m !! c) as [q|] eqn:Hc; [|by rewrite delete_id].
  pose proof (children_of t m q Ht) as Hq. set (S0 := default ∅ _) in *. split; [done|]. simpl. intros q' S.
  assert (∀ c', c' ∈ S0 ∖ {[c]} ↔ delete c m !! c' = Some q) as HS0.
  { intros c'. rewrite elem_of_difference, elem_of_singleton, Hq, lookup_delete_Some. split; intros [? ?]; split; congruence. }
  assert (q' ≠ q → ∀ c', m !! c' = Some q' ↔ delete c m !! c' = Some q') as Hother.
  { intros Hne c'. rewrite lookup_delete_Some. split; [|by intros [_ ?]]. intros Hc'. split; [|done]. intros ->. congruence. }
  destruct (decide (q' = q)) as [->|Hne].
  - case_decide as Hsz.
    + apply size_empty_inv in Hsz. rewrite lookup_delete_eq. split; [done|]. intros [HSne HS]. destruct HSne. set_solver.
    + rewrite lookup_insert_eq. split.
      * intros [= <-]. split; [|done]. intros Hemp. apply Hsz. rewrite Hemp. apply size_empty.
      * intros [_ HS]. f_equal. set_solver.
  - assert ((if decide (base.size (S0 ∖ {[c]}) = 0%nat) then delete q (parentToChildren t) else <[q := S0 ∖ {[c]}]> (parentToChildren t)) !! q' = parentToChildren t !! q') as ->.
    { case_decide; [by rewrite lookup_delete_ne|by rewrite lookup_insert_ne]. }
    rewrite (he_children _ _ Ht). by setoid_rewrite (Hother Hne).
Qed.

(** ** Walking up *)

Lemma ancestors_size m c : m ⊆ par → (length (anc m c) ≤ S (base.size m))%nat.
Proof.
  intros Hsub. pose proof (sub_rank m Hsub) as Hr.
  assert (∀ z, z ∈ tail (reverse (anc m c)) → z ∈ dom m) as Htail.
  { revert c. apply (forest_ind m rank Hr (λ c, ∀ z, z ∈ tail (reverse (anc m c)) → z ∈ dom m)). intros c IH z.
    rewrite (ancestors_eq m rank Hr). destruct (m !! c) as [q|] eqn:Hq; simpl.
    - rewrite reverse_cons. pose proof (ancestors_eq m rank Hr q) as Heq. destruct (reverse (anc m q)) as [|a l] eqn:Hrev.
      { apply (f_equal length) in Hrev. rewrite length_reverse, Heq in Hrev. done. }
      simpl. specialize (IH q eq_refl z). rewrite Hrev in IH. simpl in IH. rewrite elem_of_app, list_elem_of_singleton.
      intros [Hz| ->]; [auto|]. by apply elem_of_dom_2 in Hq.
    - by intros ?%not_elem_of_nil. }
  pose proof (ancestors_NoDup m rank Hr c) as Hnd. rewrite <- (reverse_Permutation (anc m c)) in Hnd.
  rewrite <- length_reverse. destruct (reverse (anc m c)) as [|a l]; [simpl; lia|]. simpl in *. apply le_n_S.
  apply NoDup_cons in Hnd as [_ Hnd]. rewrite <- size_dom, <- (size_list_to_set (C := gset ID)) by done.
  apply subseteq_size. intros z. rewrite elem_of_list_to_set. apply Htail.
Qed.

Lemma get_ancestor_spec t m fuel c :
  holds_edges t m → m ⊆ par → (length (anc m c) ≤ fuel)%nat → get_ancestor fuel t c = last (anc m c).
Proof.
  intros Ht Hsub. pose proof (sub_rank m Hsub) as Hr. revert c. induction fuel as [|fuel IH]; intros c; rewrite (ancestors_eq m rank Hr c); simpl; [lia|].
  rewrite (he_parent _ _ Ht). destruct (m !! c) as [q|] eqn:Hq; [|done]. intros Hlen. rewrite IH by lia.
  pose proof (ancestors_eq m rank Hr q) as ->. done.
Qed.

(** ** Removing descendants *)

(** Forgetting the parent of [y] cuts the walks that pass through it. *)
Lemma anc_delete_sub m y c z : m ⊆ par → z ∈ anc (delete y m) c → z ∈ anc m c.
Proof.
  intros Hsub. pose proof (sub_rank m Hsub) as Hr. assert (delete y m ⊆ par) as Hsub' by (etrans; [apply delete_subseteq|done]).
  pose proof (sub_rank _ Hsub') as Hr'. revert c. apply (forest_ind m rank Hr (λ c, z ∈ anc (delete y m) c → z ∈ anc m c)). intros c IH.
  rewrite (ancestors_eq _ _ Hr' c), (ancestors_eq _ _ Hr c), !elem_of_cons. intros [->|Hz]; [by left|right].
  destruct (delete y m !! c) as [q|] eqn:Hq; [|by apply not_elem_of_nil in Hz]. apply lookup_delete_Some in Hq as [_ Hq]. rewrite Hq. by apply IH.
Qed.

Lemma anc_delete_above m y c z : m ⊆ par → z ∈ anc m c → y ∉ anc m c → z ∈ anc (delete y m) c.
Proof.
  intros Hsub. pose proof (sub_rank m Hsub) as Hr. assert (delete y m ⊆ par) as Hsub' by (etrans; [apply delete_subseteq|done]).
  pose proof (sub_rank _ Hsub') as Hr'. revert c. apply (forest_ind m rank Hr (λ c, z ∈ anc m c → y ∉ anc m c → z ∈ anc (delete y m) c)). intros c IH.
  rewrite (ancestors_eq _ _ Hr' c), (ancestors_eq _ _ Hr c), !elem_of_cons. intros [->|Hz] Hn; [by left|right].
  assert (y ≠ c) as Hy by tauto.
  destruct (m !! c) as [q|] eqn:Hq; [|by apply not_elem_of_nil in Hz]. rewrite lookup_delete_ne by done. rewrite Hq. apply IH; [done|done|]. tauto.
Qed.

Lemma anc_child m y c : m ⊆ par → y ∈ anc m c → c ≠ y → ∃ k, k ∈ anc (delete y m) c ∧ m !! k = Some y ∧ k ≠ y.
Proof.
  intros Hsub. pose proof (sub_rank m Hsub) as Hr. assert (delete y m ⊆ par) as Hsub' by (etrans; [apply delete_subseteq|done]).
  pose proof (sub_rank _ Hsub') as Hr'. revert c. apply (forest_ind m rank Hr (λ c, y ∈ anc m c → c ≠ y → ∃ k, k ∈ anc (delete y m) c ∧ m !! k = Some y ∧ k ≠ y)).
  intros c IH. rewrite (ancestors_eq _ _ Hr' c), (ancestors_eq _ _ Hr c). intros [?|Hy]%elem_of_cons Hne; [done|].
  destruct (m !! c) as [q|] eqn:Hq; [|by apply not_elem_of_nil in Hy]. rewrite lookup_delete_ne, Hq by done.
  destruct (decide (q = y)) as [->|Hqy]; [exists c; split; [by left|done]|].
  destruct (IH q eq_refl Hy Hqy) as (k & Hk & ?). exists k. split; [by right|done].
Qed.

(** The edges left when the blocks [l] and their descendants are removed. *)
Definition prune m (l : list ID) : gmap ID ID := filter (λ cp, Forall (λ y, y ∉ anc m cp.1) l) m.

Lemma prune_step m y l l' :
  m ⊆ par → (∀ z, z ∈ l → (z ∉ anc m y) ∧ (y ∉ anc m z)) → (∀ k, k ∈ l' ↔ m !! k = Some y) →
  prune (delete y m) (l' ++ l) = prune m (y :: l).
Proof.
  intros Hsub Hanti Hkids. pose proof (sub_rank m Hsub) as Hr. apply map_eq. intros c. apply option_eq. intros q.
  unfold prune. rewrite !map_lookup_filter_Some, lookup_delete_Some. simpl. rewrite Forall_app, Forall_cons, !Forall_forall.
  split.
  - intros [[Hcy Hq] [Hl' Hl]]. split; [done|]. assert (y ∉ anc m c) as Hy.
    { intros Hy. destruct (anc_child m y c Hsub Hy ltac:(done)) as (k & Hk & Hky & _). apply (Hl' k); [by apply Hkids|done]. }
    split; [done|]. intros z Hz Hzc. apply (Hl z Hz). by apply anc_delete_above.
  - intros [Hq [Hy Hl]]. assert (y ≠ c) as Hyc by (intros ->; apply Hy, (ancestors_self m rank Hr)). split; [done|].
    split; [|intros z Hz Hzc; apply (Hl z Hz); by eapply anc_delete_sub].
    intros k Hk%Hkids Hkc. apply Hy. apply anc_delete_sub in Hkc; [|done]. by eapply (ancestors_parent m rank Hr k).
Qed.

Lemma remove_descendants_spec fuel t m l :
  holds_edges t m → m ⊆ par → NoDup l → (∀ y, y ∈ l → y ∈ dom m) → (∀ y z, y ∈ l → z ∈ l → y ≠ z → y ∉ anc m z) →
  (base.size m ≤ fuel)%nat → ∃ t', remove_descendants fuel t l = Some t' ∧ holds_edges t' (prune m l).
Proof.
  revert t m l. induction fuel as [|fuel IH]; intros t m l Ht Hsub Hnd Hdom Hanti Hsz.
  - destruct l as [|y l]; last first.
    { assert (y ∈ dom m) as Hy by (apply Hdom; by left). assert (base.size m = 0%nat) as Hz by lia. apply map_size_empty_inv in Hz as ->. set_solver. }
    exists t. split; [done|]. unfold prune. by rewrite map_filter_id.
  - destruct l as [|y l]; [exists t; split; [done|]; unfold prune; by rewrite map_filter_id|]. cbn [remove_descendants].
    apply NoDup_cons in Hnd as [Hyl Hnd]. pose proof (sub_rank m Hsub) as Hr.
    assert (delete y m ⊆ par) as Hsub' by (etrans; [apply delete_subseteq|done]). pose proof (sub_rank _ Hsub') as Hr'.
    pose proof (Remove_holds t m y Ht) as Ht1. set (t1 := Remove t y) in *. set (kids := reverse (set_range _)).
    assert (∀ k, k ∈ kids ↔ m !! k = Some y) as Hkids.
    { intros k. unfold kids. rewrite elem_of_reverse, elem_of_set_range, (children_of _ _ y Ht1), lookup_delete_Some.
      split; [by intros [_ ?]|]. intros Hk. split; [|done]. intros ->. apply Hr in Hk. lia. }
    assert (∀ k z, k ∈ kids → z ∈ l → (k ∉ anc m z) ∧ (z ∉ anc m k) ∧ k ≠ z) as Hkl.
    { intros k z Hk%Hkids Hz. assert (y ∉ anc m z) as Hyz by (apply Hanti; [by left|by right|]; intros ->; done).
      assert (z ∉ anc m y) as Hzy by (apply Hanti; [by right|by left|]; intros ->; done). split_and!.
      - intros Hkz. apply Hyz. by eapply (ancestors_parent m rank Hr k).
      - rewrite (ancestors_eq m rank Hr k), Hk. intros [->|?]%elem_of_cons; [|done]. apply Hyz. rewrite (ancestors_eq m rank Hr k), Hk.
        apply elem_of_cons. right. apply (ancestors_self m rank Hr).
      - intros ->. apply Hyz. rewrite (ancestors_eq m rank Hr z), Hk. apply elem_of_cons. right. apply (ancestors_self m rank Hr). }
    destruct (IH t1 (delete y m) (kids ++ l) Ht1 Hsub') as (t' & Hrun & Ht').
    + apply NoDup_app. split_and!; [unfold kids; rewrite reverse_Permutation; apply NoDup_set_range| |done].
      intros k Hk Hkl'. by destruct (Hkl k k Hk Hkl') as (_ & _ & ?).
    + intros z. rewrite elem_of_app. intros [Hz|Hz].
      * apply Hkids in Hz as Hzy. rewrite dom_delete_L. apply elem_of_difference. split; [by eapply elem_of_dom_2|].
        intros ->%elem_of_singleton. apply Hr in Hzy. lia.
      * rewrite dom_delete_L. apply elem_of_difference. split; [apply Hdom; by right|]. intros ->%elem_of_singleton. done.
    + intros a b. rewrite !elem_of_app. intros Ha Hb Hne Hab. apply anc_delete_sub in Hab; [|done].
      destruct Ha as [Ha|Ha], Hb as [Hb|Hb].
      * apply Hkids in Ha, Hb. rewrite (ancestors_eq m rank Hr b), Hb in Hab. apply elem_of_cons in Hab as [?|Hay]; [done|].
        apply (ancestors_rank m rank Hr) in Hay. apply Hr in Ha. lia.
      * exact (proj1 (Hkl a b Ha Hb) Hab).
      * exact (proj1 (proj2 (Hkl b a Hb Ha)) Hab).
      * revert Hab. apply Hanti; [by right|by right|done].
    + pose proof (Hdom y ltac:(by left)) as [q Hq]%elem_of_dom. rewrite map_size_delete, Hq. lia.
    + exists t'. split; [done|]. rewrite (prune_step m y l kids) in Ht'; [done|done| |done].
      intros z Hz. split; apply Hanti; try (by left) || (by right); intros ->; done.
Qed.

Lemma RemoveDescendants_spec t m x :
  holds_edges t m → m ⊆ par → ∃ t', RemoveDescendants t x = Some t' ∧ holds_edges t' (prune m [x]).
Proof.
  intros Ht Hsub. unfold RemoveDescendants. rewrite (he_parent _ _ Ht). destruct (m !! x) as [q|] eqn:Hx.
  - apply remove_descendants_spec; [done|done|apply NoDup_singleton| | |lia].
    + intros y ->%list_elem_of_singleton. by eapply elem_of_dom_2.
    + by intros y z ->%list_elem_of_singleton ->%list_elem_of_singleton.
  - cbn [remove_descendants]. pose proof (sub_rank m Hsub) as Hr. pose proof (Remove_holds t m x Ht) as Ht1.
    set (kids := reverse (set_range _)). assert (∀ k, k ∈ kids ↔ m !! k = Some x) as Hkids.
    { intros k. unfold kids. rewrite elem_of_reverse, elem_of_set_range, (children_of _ _ x Ht1), lookup_delete_Some.
      split; [by intros [_ ?]|]. intros Hk. split; [|done]. intros ->. apply Hr in Hk. lia. }
    rewrite app_nil_r. rewrite delete_id in Ht1 by done.
    destruct (remove_descendants_spec (base.size m) (Remove t x) m kids Ht1 Hsub) as (t' & Hrun & Ht').
    + unfold kids. rewrite reverse_Permutation. apply NoDup_set_range.
    + intros k Hk%Hkids. by eapply elem_of_dom_2.
    + intros a b Ha%Hkids Hb%Hkids Hne. rewrite (ancestors_eq m rank Hr b), Hb. intros [?|Hab]%elem_of_cons; [done|].
      apply (ancestors_rank m rank Hr) in Hab. apply Hr in Ha. lia.
    + done.
    + exists t'. split; [done|]. pose proof (prune_step m x [] kids Hsub) as Hp. rewrite app_nil_r, delete_id in Hp by done. rewrite <- Hp; [done| |done].
      by intros z ?%not_elem_of_nil.
Qed.

(** ** Sequences of calls *)

Inductive edge_op : Type := EAdd (blkID parentID : ID) | ERemove (blkID : ID) | ERemoveDescendants (blkID : ID).

Definition edge_op_ok (op : edge_op) : Prop := match op with EAdd c q => par !! c = Some q | _ => True end.

Definition edge_step m (op : edge_op) : gmap ID ID :=
  match op with EAdd c q => <[c := q]> m | ERemove c => delete c m | ERemoveDescendants c => prune m [c] end.

Definition tree_op t (op : edge_op) : option tree :=
  match op with EAdd c q => Some (Add t c q) | ERemove c => Some (Remove t c) | ERemoveDescendants c => RemoveDescendants t c end.

Fixpoint tree_ops t (ops : list edge_op) : option tree :=
  match ops with [] => Some t | op :: ops => t ← tree_op t op; tree_ops t ops end.

Lemma tree_ops_spec ops t m :
  holds_edges t m → m ⊆ par → Forall edge_op_ok ops →
  ∃ t', tree_ops t ops = Some t' ∧ holds_edges t' (foldl edge_step m ops) ∧ foldl edge_step m ops ⊆ par.
Proof.
  intros Ht Hsub Hops. revert t m Ht Hsub. induction Hops as [|op ops Hop _ IH]; intros t m Ht Hsub; [by exists t|]. cbn [tree_ops foldl].
  assert (∃ t1, tree_op t op = Some t1 ∧ holds_edges t1 (edge_step m op)) as (t1 & -> & Ht1).
  { destruct op as [c q|c|c]; simpl.
    - eexists. split; [done|]. apply Add_holds; [done|]. simpl in Hop. destruct (m !! c) as [q'|] eqn:Hc; [right|by left].
      pose proof (lookup_weaken _ _ _ _ Hc Hsub). congruence.
    - eexists. split; [done|]. by apply Remove_holds.
    - by apply RemoveDescendants_spec. }
  cbn [mbind option_bind]. apply IH; [done|]. destruct op as [c q|c|c]; simpl.
  - by apply insert_subseteq_l.
  - etrans; [apply delete_subseteq|done].
  - etrans; [apply map_filter_subseteq|done].
Qed.

(** C35: the tree of unverified blocks is the set of its edges: after any calls
    that give each block its one parent, [Has] and [Len] answer from the edges,
    [GetAncestor] ends at the oldest known ancestor, and [RemoveDescendants]
    forgets exactly the block and the blocks known to descend from it; no walk
    runs out of steps. *)
Theorem ancestor_tree_refines (ops : list edge_op) :
  Forall edge_op_ok ops → let m := foldl edge_step ∅ ops in
  ∃ t, tree_ops NewTree ops = Some t ∧ (∀ c, Has t c = bool_decide (is_Some (m !! c))) ∧ tree_Len t = Z.of_nat (base.size m) ∧
    ∀ c, ∃ a, GetAncestor t c = Some a ∧ a ∈ ancestors m rank c ∧ m !! a = None.
Proof.
  intros Hops m. destruct (tree_ops_spec ops NewTree ∅) as (t & Hrun & Ht & Hsub); [|apply map_empty_subseteq|done|].
  { split; [done|]. simpl. intros q S. rewrite lookup_empty. split; [done|]. intros [Hne HS]. destruct Hne. apply set_eq. intros c.
    rewrite HS, lookup_empty. set_solver. }
  fold m in Ht, Hsub. exists t. split; [done|]. unfold Has, tree_Len. rewrite (he_parent _ _ Ht). split; [done|]. split; [done|].
  intros c. unfold GetAncestor. rewrite (he_parent _ _ Ht), (get_ancestor_spec t m _ c Ht Hsub (ancestors_size m c Hsub)).
  pose proof (sub_rank m Hsub) as Hr. revert c. apply (forest_ind m rank Hr). intros c IH. rewrite (ancestors_eq m rank Hr).
  destruct (m !! c) as [q|] eqn:Hq; [|exists c; by split_and!; [|left|]]. destruct (IH q eq_refl) as (a & Hl & Ha & Hn).
  exists a. pose proof (ancestors_eq m rank Hr q) as Heq. rewrite Heq in Hl. rewrite Heq. split_and!; [done| |done].
  rewrite <- Heq. by right.
Qed.
End AncestorTree.

(** ** Witness *)

Section AncestorDemo.
#[local] Instance ancestor_range : MapRange ID := canonical_range ID.

Definition id_a : ID := mkID (1 :: replicate 31 0) eq_refl.
Definition id_b : ID := mkID (2 :: replicate 31 0) eq_refl.
Definition demo_parents : gmap ID ID := {[id_a := Empty; id_b := id_a]}.
Definition demo_rank (x : ID) : nat := if decide (x = id_b) then 2 else if decide (x = id_a) then 1 else 0.
Definition demo_edges : list edge_op := [EAdd id_b id_a; EAdd id_a Empty; ERemove id_a].

Lemma demo_parents_rank c q : demo_parents !! c = Some q → (demo_rank q < demo_rank c)%nat.
Proof.
  unfold demo_parents. intros [[<- <-]|[_ [<- <-]%lookup_singleton_Some]]%lookup_insert_Some; vm_compute; lia.
Qed.

Lemma ancestor_tree_refines_witness :
  ∃ t a, tree_ops NewTree demo_edges = Some t ∧ GetAncestor t id_b = Some a ∧ a = id_a ∧ a ∈ ancestors (foldl (edge_step demo_rank) ∅ demo_edges) demo_rank id_b.
Proof.
  assert (Forall (edge_op_ok demo_parents) demo_edges) as Hok by (repeat constructor; vm_compute; reflexivity).
  destruct (ancestor_tree_refines demo_parents demo_rank demo_parents_rank demo_edges Hok) as (t & Hrun & _ & _ & Hget).
  destruct (Hget id_b) as (a & Ha & Hin & _). exists t, a. split; [exact Hrun|]. split; [exact Ha|]. split; [|exact Hin].
  assert (tree_ops NewTree demo_edges ≫= (λ t, GetAncestor t id_b) = Some id_a) as Heval by (vm_compute; reflexivity).
  rewrite Hrun in Heval. cbn [mbind option_bind] in Heval. congruence.
Defined.
End AncestorDemo.
