(* ===== verification/Bytes.v ===== *)
(** * Byte strings

    Keys, values and encodings are lists of bytes.  This file has the big-endian
    integers of [encoding/binary], the lexicographic order in which Go compares
    strings, prefixes, and the lemma that big-endian integers of one width are
    ordered as their values. *)
From stdpp Require Import sorting.
From S2P Require Import Prelude.

(** ** Big-endian integers *)

(** [binary.BigEndian.PutUint16] and the like, for [n] bytes. *)
Fixpoint put_uint (n : nat) (v : Z) : list Z :=
  match n with
  | O => []
  | S n => Z.land (Z.shiftr v (8 * Z.of_nat n)) 255 :: put_uint n v
  end.

(** [binary.BigEndian.Uint16] and the like. *)
Definition get_uint (bs : list Z) : Z := foldl (λ acc b, Z.lor (Z.shiftl acc 8) b) 0 bs.

(** ** Encodings *)

Definition is_byte (b : Z) : Prop := 0 ≤ b < 256.

Lemma lor_byte acc b : is_byte b → Z.lor (Z.shiftl acc 8) b = acc * 256 + b.
Proof.
  intros Hb. rewrite Z.shiftl_mul_pow2 by lia. change (2 ^ 8) with 256. symmetry. apply Z.add_nocarry_lor.
  apply Z.bits_inj'. intros i Hi. rewrite Z.land_spec, Z.bits_0. change 256 with (2 ^ 8). rewrite Z.mul_pow2_bits by lia.
  destruct (Z.lt_ge_cases i 8) as [Hlt|Hge]; [by rewrite Z.testbit_neg_r by lia|].
  assert (Z.testbit b i = false) as ->; [|apply andb_false_r]. destruct (decide (b = 0)) as [->|Hne]; [apply Z.bits_0|].
  unfold is_byte in Hb. apply Z.bits_above_log2; [lia|]. enough (Z.log2 b < 8) by lia. apply Z.log2_lt_pow2; lia.
Qed.

Lemma land_shift v k : 0 ≤ k → Z.land (Z.shiftr v k) 255 = (v / 2 ^ k) mod 256.
Proof. intros Hk. change 255 with (Z.ones 8). rewrite Z.land_ones, Z.shiftr_div_pow2 by lia. done. Qed.

Lemma put_uint_length n v : length (put_uint n v) = n.
Proof. induction n as [|n IH]; simpl; [done|by rewrite IH]. Qed.

Lemma put_uint_bytes n v : Forall is_byte (put_uint n v).
Proof.
  induction n as [|n IH]; simpl; constructor; [|done]. rewrite land_shift by lia. unfold is_byte. apply Z.mod_pos_bound. lia.
Qed.

Lemma pow256_S n : 2 ^ (8 * Z.of_nat (S n)) = 2 ^ (8 * Z.of_nat n) * 256.
Proof. change 256 with (2 ^ 8). rewrite <- Z.pow_add_r by lia. f_equal. lia. Qed.

Lemma get_uint_acc acc bs :
  Forall is_byte bs →
  foldl (λ acc b, Z.lor (Z.shiftl acc 8) b) acc bs = acc * 2 ^ (8 * Z.of_nat (length bs)) + get_uint bs ∧
  0 ≤ get_uint bs < 2 ^ (8 * Z.of_nat (length bs)).
Proof.
  intros Hbs. revert acc. induction Hbs as [|b bs Hb _ IH]; intros acc; [cbn; lia|].
  unfold get_uint. cbn [foldl length]. rewrite !lor_byte by done. destruct (IH (acc * 256 + b)) as [-> _].
  destruct (IH (0 * 256 + b)) as [-> Hr]. rewrite pow256_S. unfold is_byte in Hb. nia.
Qed.

Lemma get_put n v : get_uint (put_uint n v) = v mod 2 ^ (8 * Z.of_nat n).
Proof.
  induction n as [|n IH]; [by rewrite Z.mod_1_r|]. unfold get_uint. cbn [put_uint foldl]. rewrite land_shift by lia.
  pose proof (Z.mod_pos_bound (v / 2 ^ (8 * Z.of_nat n)) 256 ltac:(lia)) as Hb. rewrite lor_byte by done.
  rewrite (proj1 (get_uint_acc _ _ (put_uint_bytes n v))), put_uint_length, IH, pow256_S, Z.rem_mul_r by lia. lia.
Qed.

Lemma put_get_acc acc bs : Forall is_byte bs → put_uint (length bs) (acc * 2 ^ (8 * Z.of_nat (length bs)) + get_uint bs) = bs.
Proof.
  intros Hbs. revert acc. induction Hbs as [|b bs Hb Hbs IH]; intros acc; [done|]. cbn [length put_uint].
  assert (get_uint (b :: bs) = b * 2 ^ (8 * Z.of_nat (length bs)) + get_uint bs) as Hcons.
  { unfold get_uint at 1. cbn [foldl]. rewrite lor_byte by done. apply (get_uint_acc _ _ Hbs). }
  rewrite Hcons, pow256_S. destruct (get_uint_acc 0 bs Hbs) as [_ Hr]. set (P := 2 ^ (8 * Z.of_nat (length bs))) in *.
  replace (acc * (P * 256) + (b * P + get_uint bs)) with ((acc * 256 + b) * P + get_uint bs) by lia.
  f_equal; [|apply IH]. rewrite land_shift by lia. fold P. rewrite Z.div_add_l by lia. rewrite (Z.div_small (get_uint bs)) by lia.
  rewrite Z.add_0_r, Z.add_comm, Z.mod_add by lia. by apply Z.mod_small.
Qed.

Lemma put_get bs : Forall is_byte bs → put_uint (length bs) (get_uint bs) = bs.
Proof. intros Hbs. by apply (put_get_acc 0). Qed.

(** ** The order of strings *)

Abbreviation bytes := (list Z).

(** Comparison of two Go strings: lexicographic by bytes. *)
Fixpoint bcompare (a b : bytes) : comparison :=
  match a, b with
  | [], [] => Eq
  | [], _ :: _ => Lt
  | _ :: _, [] => Gt
  | x :: a, y :: b => match x ?= y with Eq => bcompare a b | c => c end
  end.

Definition blt (a b : bytes) : Prop := bcompare a b = Lt.
Definition ble (a b : bytes) : Prop := bcompare a b ≠ Gt.

#[global] Instance blt_dec a b : Decision (blt a b).
Proof. unfold blt. apply _. Defined.
#[global] Instance ble_dec a b : Decision (ble a b).
Proof. unfold ble. apply _. Defined.

Lemma bcompare_refl a : bcompare a a = Eq.
Proof. induction a as [|x a IH]; simpl; [done|]. by rewrite Z.compare_refl. Qed.

Lemma bcompare_eq a b : bcompare a b = Eq → a = b.
Proof.
  revert b. induction a as [|x a IH]; intros [|y b]; simpl; try done.
  destruct (Z.compare_spec x y) as [->| |]; [|done..]. intros H. f_equal. by apply IH.
Qed.

Lemma bcompare_antisym a b : bcompare b a = CompOpp (bcompare a b).
Proof.
  revert b. induction a as [|x a IH]; intros [|y b]; simpl; try done.
  rewrite (Z.compare_antisym x y). destruct (x ?= y); simpl; [apply IH|done..].
Qed.

Lemma bcompare_trans a b c : bcompare a b = Lt → bcompare b c = Lt → bcompare a c = Lt.
Proof.
  revert b c. induction a as [|x a IH]; intros [|y b] [|z c]; simpl; try done.
  destruct (Z.compare_spec x y) as [->|Hxy|]; [|intros _|done].
  - destruct (y ?= z); [apply IH|done..].
  - destruct (Z.compare_spec y z) as [->|Hyz|]; [|intros _|done].
    + intros _. by rewrite (proj2 (Z.compare_lt_iff x z)).
    + by rewrite (proj2 (Z.compare_lt_iff x z)) by lia.
Qed.

#[global] Instance blt_strict : StrictOrder blt.
Proof.
  split; unfold blt.
  - intros a Ha. by rewrite bcompare_refl in Ha.
  - intros a b c. apply bcompare_trans.
Qed.

Lemma ble_cases a b : ble a b ↔ blt a b ∨ a = b.
Proof.
  unfold ble, blt. split.
  - intros H. destruct (bcompare a b) eqn:E; [right; by apply bcompare_eq|by left|done].
  - intros [->| ->]; [done|by rewrite bcompare_refl].
Qed.

Lemma not_ble a b : ¬ ble a b ↔ blt b a.
Proof. unfold ble, blt. rewrite (bcompare_antisym a b). destruct (bcompare a b); simpl; naive_solver. Qed.

#[global] Instance ble_total : Total ble.
Proof.
  intros a b. destruct (decide (ble a b)) as [|H]; [by left|right].
  apply not_ble in H. apply ble_cases. by left.
Qed.

#[global] Instance ble_trans : Transitive ble.
Proof.
  intros a b c [Hab| ->]%ble_cases [Hbc| ->]%ble_cases; apply ble_cases; [left; by etrans|by left|by left|by right].
Qed.

#[global] Instance ble_antisym : AntiSymm (=) ble.
Proof.
  intros a b [Hab| ->]%ble_cases [Hba|]%ble_cases; [|done..]. destruct (irreflexivity blt a). by apply (transitivity (y := b)).
Qed.

Lemma blt_trichotomy a b : blt a b ∨ a = b ∨ blt b a.
Proof. unfold blt. rewrite (bcompare_antisym a b). destruct (bcompare a b) eqn:E; simpl; [right; left; by apply bcompare_eq|auto..]. Qed.

Lemma bcompare_app p a b : bcompare (p ++ a) (p ++ b) = bcompare a b.
Proof. induction p as [|x p IH]; simpl; [done|]. by rewrite Z.compare_refl. Qed.

Lemma blt_app p a b : blt (p ++ a) (p ++ b) ↔ blt a b.
Proof. unfold blt. by rewrite bcompare_app. Qed.
Lemma ble_app p a b : ble (p ++ a) (p ++ b) ↔ ble a b.
Proof. unfold ble. by rewrite bcompare_app. Qed.

(** Sorted lists without repetition are determined by their elements. *)
Lemma sorted_unique (l1 l2 : list bytes) :
  StronglySorted blt l1 → StronglySorted blt l2 → (∀ k, k ∈ l1 ↔ k ∈ l2) → l1 = l2.
Proof.
  revert l2. induction l1 as [|x l1 IH]; intros [|y l2] H1 H2 Hk; [done|set_solver|set_solver|].
  apply StronglySorted_inv in H1 as [H1 Hx], H2 as [H2 Hy]. rewrite Forall_forall in Hx, Hy.
  assert (x = y) as ->.
  { pose proof (proj1 (Hk x) ltac:(by left)) as [|Hin]%elem_of_cons; [done|].
    pose proof (proj2 (Hk y) ltac:(by left)) as [|Hin']%elem_of_cons; [done|].
    destruct (irreflexivity blt x). apply (transitivity (y := y)); [by apply Hx|by apply Hy]. }
  f_equal. apply IH; [done..|]. intros k. split; intros Hin.
  - pose proof (proj1 (Hk k) ltac:(by right)) as [->|?]%elem_of_cons; [|done].
    destruct (irreflexivity blt y). by apply Hx.
  - pose proof (proj2 (Hk k) ltac:(by right)) as [->|?]%elem_of_cons; [|done].
    destruct (irreflexivity blt y). by apply Hy.
Qed.

(** ** Prefixes *)

(** [strings.HasPrefix] *)
Fixpoint HasPrefix (s prefix : bytes) {struct prefix} : bool :=
  match prefix, s with
  | [], _ => true
  | x :: prefix, y :: s => (x =? y) && HasPrefix s prefix
  | _ :: _, [] => false
  end.

Lemma HasPrefix_spec s p : HasPrefix s p = true ↔ ∃ t, s = p ++ t.
Proof.
  revert s. induction p as [|x p IH]; intros s; simpl; [split; [by exists s|done]|].
  destruct s as [|y s]; simpl; [split; [done|by intros (? & ?)]|]. rewrite andb_true_iff, IH, Z.eqb_eq. split.
  - intros [-> (t & ->)]. by exists t.
  - intros (t & [= -> ->]). split; [done|by exists t].
Qed.

Lemma HasPrefix_app p s q : HasPrefix (p ++ s) (p ++ q) = HasPrefix s q.
Proof. induction p as [|x p IH]; simpl; [done|]. by rewrite Z.eqb_refl. Qed.

(** ** The order of big-endian integers *)

Lemma put_uint_compare n a b :
  0 ≤ a < 2 ^ (8 * Z.of_nat n) → 0 ≤ b < 2 ^ (8 * Z.of_nat n) →
  bcompare (put_uint n a) (put_uint n b) = (a ?= b).
Proof.
  assert (∀ n v, put_uint n (v mod 2 ^ (8 * Z.of_nat n)) = put_uint n v) as Hmod.
  { intros m v. rewrite <- get_put, <- (put_uint_length m v) at 1. apply put_get, put_uint_bytes. }
  revert a b. induction n as [|n IH]; intros a b Ha Hb.
  { simpl in *. symmetry. apply Z.compare_eq_iff. lia. }
  rewrite pow256_S in Ha, Hb. cbn [put_uint bcompare]. rewrite !land_shift by lia.
  rewrite <- (Hmod n a), <- (Hmod n b). set (P := 2 ^ (8 * Z.of_nat n)) in *.
  assert (0 < P) by (apply Z.pow_pos_nonneg; lia). rewrite IH by (apply Z.mod_pos_bound; lia).
  assert (∀ v, 0 ≤ v < P * 256 → (v / P) mod 256 = v / P) as Hdiv.
  { intros v Hv. apply Z.mod_small. split; [apply Z.div_pos; lia|apply Z.div_lt_upper_bound; lia]. }
  rewrite !Hdiv by lia. pose proof (Z.div_mod a P ltac:(lia)). pose proof (Z.div_mod b P ltac:(lia)).
  pose proof (Z.mod_pos_bound a P ltac:(lia)). pose proof (Z.mod_pos_bound b P ltac:(lia)).
  destruct (Z.compare_spec (a / P) (b / P)) as [E|E|E].
  - destruct (Z.compare_spec (a mod P) (b mod P)); symmetry; [apply Z.compare_eq_iff|apply Z.compare_lt_iff|apply Z.compare_gt_iff]; lia.
  - symmetry. apply Z.compare_lt_iff. nia.
  - symmetry. apply Z.compare_gt_iff. nia.
Qed.

Lemma put_uint_inj n a b :
  0 ≤ a < 2 ^ (8 * Z.of_nat n) → 0 ≤ b < 2 ^ (8 * Z.of_nat n) → put_uint n a = put_uint n b → a = b.
Proof.
  intros Ha Hb Heq. apply (f_equal get_uint) in Heq. rewrite !get_put, !Z.mod_small in Heq by done. done.
Qed.
