(* ===== verification/Packer.v ===== *)
(** * Packing values into bytes (package [utils/wrappers])

    [packing.go] and [errors.go]: a packer appends values to a byte slice in
    big-endian order up to a maximal size, and reads them back.  The first error
    sticks.  A slice is its backing array with its length; what [append] makes of
    the capacity is a parameter, as the language leaves it open.  [None] is a
    panic: an index or a slice bound out of range. *)
From S2P Require Import Prelude Bytes.

(** ** Data *)

Definition MaxStringLen : Z := 2 ^ 16 - 1.
Definition ByteLen : Z := 1.
Definition ShortLen : Z := 2.
Definition IntLen : Z := 4.
Definition LongLen : Z := 8.
Definition BoolLen : Z := 1.

(** The error values of the package. *)
Inductive pack_error : Type :=
| ErrInsufficientLength
| errNegativeOffset
| errInvalidInput
| errBadBool
| errOversized.

Record Packer : Type := mkPacker {
  pk_Err : option pack_error;
  pk_MaxSize : Z;
  pk_backing : list Z;
  pk_len : Z;
  pk_Offset : Z;
}.

(** The slice [Bytes]. *)
Definition pk_Bytes (p : Packer) : list Z := take (Z.to_nat (pk_len p)) (pk_backing p).

Definition with_Err (p : Packer) (e : option pack_error) : Packer :=
  mkPacker e (pk_MaxSize p) (pk_backing p) (pk_len p) (pk_Offset p).
Definition with_Bytes (p : Packer) (backing : list Z) (len : Z) : Packer :=
  mkPacker (pk_Err p) (pk_MaxSize p) backing len (pk_Offset p).
Definition advance (p : Packer) (n : Z) : Packer :=
  mkPacker (pk_Err p) (pk_MaxSize p) (pk_backing p) (pk_len p) (pk_Offset p + n).

(** [int] is 64 bits wide. *)
Definition wrap_int (z : Z) : Z := (z + 2 ^ 63) mod 2 ^ 64 - 2 ^ 63.

(** ** Operations *)

Section Packer.
Context (grow : Z → Z → Z).

Definition PM (A : Type) : Type := Packer → option (A * Packer).
#[local] Instance PM_ret : MRet PM := λ A a p, Some (a, p).
#[local] Instance PM_bind : MBind PM := λ A B k m p, match m p with Some (a, p') => k a p' | None => None end.

(** [Errored] and [Add] of [Errs]. *)
Definition Errored (p : Packer) : bool := match pk_Err p with Some _ => true | None => false end.
Definition errs_Add (e : pack_error) : PM unit := λ p,
  Some (tt, match pk_Err p with None => with_Err p (Some e) | Some _ => p end).
Definition errored : PM bool := λ p, Some (Errored p, p).

(** [expand] *)
Definition expand (bytes : Z) : PM unit := λ p,
  let neededSize := wrap_int (bytes + pk_Offset p) in
  let cap := Z.of_nat (length (pk_backing p)) in
  Some (tt,
    if neededSize <=? pk_len p then p
    else if pk_MaxSize p <? neededSize then with_Err p (Some ErrInsufficientLength)
    else if neededSize <=? cap then with_Bytes p (pk_backing p) neededSize
    else
      let newCap := grow cap neededSize in
      with_Bytes p (pk_backing p ++ replicate (Z.to_nat (newCap - cap)) 0) neededSize).

(** [checkSpace] *)
Definition checkSpace (bytes : Z) : PM unit := λ p,
  if pk_Offset p <? 0 then errs_Add errNegativeOffset p
  else if bytes <? 0 then errs_Add errInvalidInput p
  else if pk_len p - pk_Offset p <? bytes then errs_Add ErrInsufficientLength p
  else Some (tt, p).

(** Writing the bytes [bs] at [Bytes[Offset:]].  Where they do not fit the source panics,
    except that [copy] in [PackFixedBytes] writes a part of them; [expand] makes room
    unless the sum of the lengths wraps. *)
Definition write_at_Offset (bs : list Z) : PM unit := λ p,
  let off := pk_Offset p in let n := Z.of_nat (length bs) in
  if (0 <=? off) && (off + n <=? pk_len p) then
    Some (tt, with_Bytes p (take (Z.to_nat off) (pk_backing p) ++ bs ++ drop (Z.to_nat (off + n)) (pk_backing p)) (pk_len p))
  else None.

(** Reading [n] bytes at [Bytes[Offset:]]. *)
Definition read_at_Offset (n : Z) : PM (list Z) := λ p,
  let off := pk_Offset p in
  if (0 <=? off) && (0 <=? n) && (off + n <=? pk_len p) then Some (take (Z.to_nat n) (drop (Z.to_nat off) (pk_Bytes p)), p) else None.

Definition move_Offset (n : Z) : PM unit := λ p, Some (tt, advance p n).

(** [PackByte] *)
Definition PackByte (val : Z) : PM unit :=
  _ ← expand ByteLen; e ← errored;
  if e : bool then mret tt else _ ← write_at_Offset [val]; move_Offset 1.

(** [UnpackByte] *)
Definition UnpackByte : PM Z :=
  _ ← checkSpace ByteLen; e ← errored;
  if e : bool then mret 0 else
  bs ← read_at_Offset ByteLen; _ ← move_Offset ByteLen; mret (get_uint bs).

(** [PackShort] *)
Definition PackShort (val : Z) : PM unit :=
  _ ← expand ShortLen; e ← errored;
  if e : bool then mret tt else _ ← write_at_Offset (put_uint 2 val); move_Offset ShortLen.

(** [UnpackShort] *)
Definition UnpackShort : PM Z :=
  _ ← checkSpace ShortLen; e ← errored;
  if e : bool then mret 0 else
  bs ← read_at_Offset ShortLen; _ ← move_Offset ShortLen; mret (get_uint bs).

(** [PackInt] *)
Definition PackInt (val : Z) : PM unit :=
  _ ← expand IntLen; e ← errored;
  if e : bool then mret tt else _ ← write_at_Offset (put_uint 4 val); move_Offset IntLen.

(** [UnpackInt] *)
Definition UnpackInt : PM Z :=
  _ ← checkSpace IntLen; e ← errored;
  if e : bool then mret 0 else
  bs ← read_at_Offset IntLen; _ ← move_Offset IntLen; mret (get_uint bs).

(** [PackLong] *)
Definition PackLong (val : Z) : PM unit :=
  _ ← expand LongLen; e ← errored;
  if e : bool then mret tt else _ ← write_at_Offset (put_uint 8 val); move_Offset LongLen.

(** [UnpackLong] *)
Definition UnpackLong : PM Z :=
  _ ← checkSpace LongLen; e ← errored;
  if e : bool then mret 0 else
  bs ← read_at_Offset LongLen; _ ← move_Offset LongLen; mret (get_uint bs).

(** [PackBool] *)
Definition PackBool (b : bool) : PM unit := if b then PackByte 1 else PackByte 0.

(** [UnpackBool] *)
Definition UnpackBool : PM bool :=
  b ← UnpackByte;
  if b =? 0 then mret false
  else if b =? 1 then mret true
  else _ ← errs_Add errBadBool; mret false.

(** [PackFixedBytes] *)
Definition PackFixedBytes (bytes : list Z) : PM unit :=
  _ ← expand (Z.of_nat (length bytes)); e ← errored;
  if e : bool then mret tt else _ ← write_at_Offset bytes; move_Offset (Z.of_nat (length bytes)).

(** [UnpackFixedBytes]; [nil] is the empty slice. *)
Definition UnpackFixedBytes (size : Z) : PM (list Z) :=
  _ ← checkSpace size; e ← errored;
  if e : bool then mret [] else
  bs ← read_at_Offset size; _ ← move_Offset size; mret bs.

(** [PackBytes], with the conversion to [uint32]. *)
Definition PackBytes (bytes : list Z) : PM unit :=
  _ ← PackInt (Z.of_nat (length bytes) mod 2 ^ 32); PackFixedBytes bytes.

(** [UnpackBytes] *)
Definition UnpackBytes : PM (list Z) := size ← UnpackInt; UnpackFixedBytes size.

(** [UnpackLimitedBytes] *)
Definition UnpackLimitedBytes (limit : Z) : PM (list Z) :=
  size ← UnpackInt;
  if limit <? size then _ ← errs_Add errOversized; mret [] else UnpackFixedBytes size.

(** [PackStr]; a string is its bytes. *)
Definition PackStr (str : list Z) : PM unit :=
  let strSize := Z.of_nat (length str) in
  if MaxStringLen <? strSize then errs_Add errInvalidInput
  else _ ← PackShort (strSize mod 2 ^ 16); PackFixedBytes str.

(** [UnpackStr] *)
Definition UnpackStr : PM (list Z) := strSize ← UnpackShort; UnpackFixedBytes strSize.

(** [UnpackLimitedStr] *)
Definition UnpackLimitedStr (limit : Z) : PM (list Z) :=
  strSize ← UnpackShort;
  if limit <? strSize then _ ← errs_Add errOversized; mret [] else UnpackFixedBytes strSize.
End Packer.

(** ** Encodings *)

(** The values of the interface, and the formats to read them by. *)
Inductive item : Type :=
| IByte (v : Z)
| IShort (v : Z)
| IInt (v : Z)
| ILong (v : Z)
| IBool (b : bool)
| IFixedBytes (bs : list Z)
| IBytes (bs : list Z)
| IStr (bs : list Z).

Inductive format : Type :=
| FByte
| FShort
| FInt
| FLong
| FBool
| FFixedBytes (size : Z)
| FBytes
| FLimitedBytes (limit : Z)
| FStr
| FLimitedStr (limit : Z).

Definition encode (i : item) : list Z :=
  match i with
  | IByte v => [v]
  | IShort v => put_uint 2 v
  | IInt v => put_uint 4 v
  | ILong v => put_uint 8 v
  | IBool b => [if b : bool then 1 else 0]
  | IFixedBytes bs => bs
  | IBytes bs => put_uint 4 (Z.of_nat (length bs)) ++ bs
  | IStr bs => put_uint 2 (Z.of_nat (length bs)) ++ bs
  end.

Definition is_bytes (bound : Z) (bs : list Z) : Prop := Forall is_byte bs ∧ Z.of_nat (length bs) < bound.

(** The value [i] is one of the format [f]. *)
Definition has_format (i : item) (f : format) : Prop :=
  match f, i with
  | FByte, IByte v => 0 ≤ v < 2 ^ 8
  | FShort, IShort v => 0 ≤ v < 2 ^ 16
  | FInt, IInt v => 0 ≤ v < 2 ^ 32
  | FLong, ILong v => 0 ≤ v < 2 ^ 64
  | FBool, IBool _ => True
  | FFixedBytes size, IFixedBytes bs => Forall is_byte bs ∧ Z.of_nat (length bs) = size
  | FBytes, IBytes bs => is_bytes (2 ^ 32) bs
  | FLimitedBytes limit, IBytes bs => is_bytes (2 ^ 32) bs ∧ Z.of_nat (length bs) ≤ limit
  | FStr, IStr bs => is_bytes (2 ^ 16) bs
  | FLimitedStr limit, IStr bs => is_bytes (2 ^ 16) bs ∧ Z.of_nat (length bs) ≤ limit
  | _, _ => False
  end.

Section RoundTrip.
Context (grow : Z → Z → Z) (Hgrow : ∀ cap neededSize, neededSize ≤ grow cap neededSize).
#[local] Existing Instances PM_ret PM_bind.

(** ** Sequences of values *)

Definition pack_item (i : item) : PM unit :=
  match i with
  | IByte v => PackByte grow v
  | IShort v => PackShort grow v
  | IInt v => PackInt grow v
  | ILong v => PackLong grow v
  | IBool b => PackBool grow b
  | IFixedBytes bs => PackFixedBytes grow bs
  | IBytes bs => PackBytes grow bs
  | IStr bs => PackStr grow bs
  end.

Definition unpack_item (f : format) : PM item :=
  match f with
  | FByte => v ← UnpackByte; mret (IByte v)
  | FShort => v ← UnpackShort; mret (IShort v)
  | FInt => v ← UnpackInt; mret (IInt v)
  | FLong => v ← UnpackLong; mret (ILong v)
  | FBool => b ← UnpackBool; mret (IBool b)
  | FFixedBytes size => bs ← UnpackFixedBytes size; mret (IFixedBytes bs)
  | FBytes => bs ← UnpackBytes; mret (IBytes bs)
  | FLimitedBytes limit => bs ← UnpackLimitedBytes limit; mret (IBytes bs)
  | FStr => bs ← UnpackStr; mret (IStr bs)
  | FLimitedStr limit => bs ← UnpackLimitedStr limit; mret (IStr bs)
  end.

Fixpoint pack_all (items : list item) : PM unit :=
  match items with [] => mret tt | i :: items => _ ← pack_item i; pack_all items end.

Fixpoint unpack_all (fs : list format) : PM (list item) :=
  match fs with [] => mret [] | f :: fs => i ← unpack_item f; items ← unpack_all fs; mret (i :: items) end.

Definition encode_all (items : list item) : list Z := concat (map encode items).

(** ** Packing *)

(** The common shape of the operations that write. *)
Definition pack_raw (bs : list Z) : PM unit :=
  _ ← expand grow (Z.of_nat (length bs)); e ← errored;
  if e : bool then mret tt else _ ← write_at_Offset bs; move_Offset (Z.of_nat (length bs)).

(** A packer that appends: it writes at the end of its bytes. *)
Record appends (p : Packer) (pre : list Z) : Prop := {
  ap_err : pk_Err p = None;
  ap_bytes : pk_Bytes p = pre;
  ap_offset : pk_Offset p = Z.of_nat (length pre);
  ap_len : pk_len p = Z.of_nat (length pre);
  ap_cap : (length pre ≤ length (pk_backing p))%nat;
  ap_size : Z.of_nat (length pre) ≤ pk_MaxSize p;
}.

Lemma wrap_int_id z : 0 ≤ z < 2 ^ 63 → wrap_int z = z.
Proof. intros Hz. unfold wrap_int. rewrite Z.mod_small by lia. lia. Qed.

Lemma pack_raw_errored bs p : pk_Err p ≠ None → ∃ p', pack_raw bs p = Some (tt, p') ∧ pk_Err p' ≠ None ∧ pk_MaxSize p' = pk_MaxSize p.
Proof.
  intros He. assert (∃ p1, expand grow (Z.of_nat (length bs)) p = Some (tt, p1) ∧ pk_Err p1 ≠ None ∧ pk_MaxSize p1 = pk_MaxSize p)
    as (p1 & Hp1 & He1 & Hm1).
  { unfold expand. eexists. split; [done|]. repeat case_match; done. }
  exists p1. unfold pack_raw, mbind, PM_bind. rewrite Hp1. unfold errored, Errored. by destruct (pk_Err p1).
Qed.

(** A packer that writes after [pre], possibly over bytes written before. *)
Record writes (p : Packer) (pre : list Z) : Prop := {
  wr_err : pk_Err p = None;
  wr_bytes : take (length pre) (pk_backing p) = pre;
  wr_offset : pk_Offset p = Z.of_nat (length pre);
  wr_len : Z.of_nat (length pre) ≤ pk_len p;
  wr_cap : pk_len p ≤ Z.of_nat (length (pk_backing p));
  wr_size : pk_len p ≤ pk_MaxSize p;
}.

Lemma appends_writes p pre : appends p pre ↔ writes p pre ∧ pk_len p = Z.of_nat (length pre).
Proof.
  split.
  - intros [He Hb Ho Hl Hc Hs]. split; [|done]. split; try done; try lia. rewrite <- Hb at 2. unfold pk_Bytes. by rewrite Hl, Nat2Z.id.
  - intros [[He Hb Ho Hl Hc Hs] Hlen]. split; try done; try lia. unfold pk_Bytes. by rewrite Hlen, Nat2Z.id.
Qed.

Lemma write_writes bs p pre backing len :
  writes p pre → take (length pre) backing = pre → Z.of_nat (length (pre ++ bs)) ≤ len → len ≤ Z.of_nat (length backing) → len ≤ pk_MaxSize p →
  ∃ p', write_at_Offset bs (with_Bytes p backing len) = Some (tt, p') ∧ pk_MaxSize p' = pk_MaxSize p ∧
    writes (advance p' (Z.of_nat (length bs))) (pre ++ bs) ∧ pk_len p' = len.
Proof.
  intros [He Hb Ho Hl Hc Hs] Htake Hlen Hcap Hmax. rewrite length_app in Hlen. unfold write_at_Offset. simpl. rewrite Ho.
  rewrite (proj2 (andb_true_iff _ _)) by (split; apply Z.leb_le; lia). eexists. split; [done|]. split; [done|]. split; [|done].
  rewrite <- Nat2Z.inj_add, !Nat2Z.id, Htake.
  split; simpl; rewrite ?length_app, ?length_drop; try lia; [done|].
  rewrite app_assoc. apply take_app_length'. rewrite length_app. lia.
Qed.

Lemma pack_raw_writes bs p pre :
  writes p pre → Z.of_nat (length (pre ++ bs)) < 2 ^ 63 →
  ∃ p', pack_raw bs p = Some (tt, p') ∧ pk_MaxSize p' = pk_MaxSize p ∧
    if Z.of_nat (length (pre ++ bs)) <=? pk_MaxSize p
    then writes p' (pre ++ bs) ∧ pk_len p' = Z.max (pk_len p) (Z.of_nat (length (pre ++ bs)))
    else pk_Err p' = Some ErrInsufficientLength.
Proof.
  intros Hw H63. pose proof Hw as [He Hb Ho Hl Hc Hs]. unfold pack_raw, mbind, PM_bind, expand, errored, Errored.
  rewrite Ho, wrap_int_id by (rewrite length_app in H63; lia).
  replace (Z.of_nat (length bs) + Z.of_nat (length pre)) with (Z.of_nat (length (pre ++ bs))) by (rewrite length_app; lia).
  set (n := Z.of_nat (length (pre ++ bs))) in *.
  assert (∀ backing len, take (length pre) backing = pre → n ≤ len → len ≤ Z.of_nat (length backing) → len ≤ pk_MaxSize p → len = Z.max (pk_len p) n →
    ∃ p', match (if pk_Err p is Some _ then mret tt else (_ ← write_at_Offset bs; move_Offset (Z.of_nat (length bs)))) (with_Bytes p backing len) with
          | Some (a, p') => Some (a, p') | None => None end = Some (tt, p') ∧
      pk_MaxSize p' = pk_MaxSize p ∧ writes p' (pre ++ bs) ∧ pk_len p' = Z.max (pk_len p) n) as Hdo.
  { intros backing len H1 H2 H3 H4 ->. destruct (write_writes bs p pre backing _ Hw H1 H2 H3 H4) as (p' & Hp' & Hm & Hp & Hlen).
    rewrite He. unfold mbind, PM_bind. rewrite Hp'. simpl. eexists. split; [done|]. done. }
  destruct (Z.leb_spec n (pk_len p)) as [Hsmall|Hbig].
  - rewrite (proj2 (Z.leb_le n (pk_MaxSize p))) by lia.
    destruct (Hdo (pk_backing p) (pk_len p)) as (p' & Hp' & ?); [done|lia|lia|lia|lia|].
    assert (with_Bytes p (pk_backing p) (pk_len p) = p) as Hid by by destruct p. rewrite Hid in Hp'. rewrite He in Hp' |- *. exists p'. split; [|done].
    unfold mbind, PM_bind in Hp'. by destruct (write_at_Offset bs p) as [[]|].
  - destruct (Z.ltb_spec (pk_MaxSize p) n) as [Hmax|Hmax].
    { rewrite (proj2 (Z.leb_gt _ _)) by lia. simpl. by eexists. }
    rewrite (proj2 (Z.leb_le n (pk_MaxSize p))) by lia.
    destruct (Z.leb_spec n (Z.of_nat (length (pk_backing p)))) as [Hcap|Hcap]; simpl.
    + destruct (Hdo (pk_backing p) n) as (p' & Hp' & ?); [done|lia|lia|lia|lia|]. rewrite He in Hp' |- *. exists p'. split; [|done].
      unfold mbind, PM_bind in Hp'. by destruct (write_at_Offset bs _) as [[]|].
    + specialize (Hgrow (Z.of_nat (length (pk_backing p))) n).
      destruct (Hdo (pk_backing p ++ replicate (Z.to_nat (grow (Z.of_nat (length (pk_backing p))) n - Z.of_nat (length (pk_backing p)))) 0) n)
        as (p' & Hp' & ?); [by rewrite take_app_le by lia|lia|rewrite length_app, length_replicate; lia|lia|lia|].
      rewrite He in Hp' |- *. exists p'. split; [|done]. unfold mbind, PM_bind in Hp'. by destruct (write_at_Offset bs _) as [[]|].
Qed.

Lemma pack_raw_spec bs p pre :
  appends p pre → Z.of_nat (length (pre ++ bs)) < 2 ^ 63 →
  ∃ p', pack_raw bs p = Some (tt, p') ∧ pk_MaxSize p' = pk_MaxSize p ∧
    if Z.of_nat (length (pre ++ bs)) <=? pk_MaxSize p then appends p' (pre ++ bs) else pk_Err p' = Some ErrInsufficientLength.
Proof.
  intros [Hw Hlen]%appends_writes H63. destruct (pack_raw_writes bs p pre Hw H63) as (p' & Hp & Hm & Hcase). exists p'. split; [done|]. split; [done|].
  destruct (_ <=? _); [|done]. destruct Hcase as [Hw' Hlen']. apply appends_writes. split; [done|]. rewrite length_app in *. lia.
Qed.

Lemma pack_raw_two a b p pre :
  appends p pre → Z.of_nat (length (pre ++ a ++ b)) < 2 ^ 63 →
  ∃ p', (_ ← pack_raw a; pack_raw b) p = Some (tt, p') ∧ pk_MaxSize p' = pk_MaxSize p ∧
    if Z.of_nat (length (pre ++ a ++ b)) <=? pk_MaxSize p then appends p' (pre ++ a ++ b) else pk_Err p' ≠ None.
Proof.
  intros Hp H63. rewrite app_assoc in *. unfold mbind, PM_bind.
  destruct (pack_raw_spec a p pre Hp) as (p1 & -> & Hm1 & Hp1); [rewrite length_app in H63; lia|].
  destruct (Z.leb_spec (Z.of_nat (length (pre ++ a))) (pk_MaxSize p)) as [Ha|Ha].
  - destruct (pack_raw_spec b p1 _ Hp1 H63) as (p2 & -> & Hm2 & Hp2). rewrite Hm1 in *. exists p2. split; [done|]. split; [done|].
    destruct (Z.leb_spec (Z.of_nat (length ((pre ++ a) ++ b))) (pk_MaxSize p)); [done|congruence].
  - destruct (pack_raw_errored b p1) as (p2 & -> & He & Hm2); [congruence|]. exists p2. split; [done|]. split; [congruence|].
    rewrite (length_app (pre ++ a)). destruct (Z.leb_spec (Z.of_nat (length (pre ++ a) + length b)) (pk_MaxSize p)); [lia|done].
Qed.

(** The format a value is read by. *)
Definition format_of (i : item) : format :=
  match i with
  | IByte _ => FByte | IShort _ => FShort | IInt _ => FInt | ILong _ => FLong | IBool _ => FBool
  | IFixedBytes bs => FFixedBytes (Z.of_nat (length bs)) | IBytes _ => FBytes | IStr _ => FStr
  end.

(** The values of the types of the arguments; slices are shorter than [2^32]. *)
Definition value_ok (i : item) : Prop :=
  match i with IStr bs => is_bytes (2 ^ 32) bs | _ => has_format i (format_of i) end.

Definition short_str (i : item) : bool :=
  match i with IStr bs => Z.of_nat (length bs) <=? MaxStringLen | _ => true end.

Lemma pack_item_errored i p : pk_Err p ≠ None → ∃ p', pack_item i p = Some (tt, p') ∧ pk_Err p' ≠ None.
Proof.
  intros He. assert (∀ bs, ∃ p', pack_raw bs p = Some (tt, p') ∧ pk_Err p' ≠ None) as Hraw.
  { intros bs. destruct (pack_raw_errored bs p He) as (p' & ? & ? & _). eauto. }
  assert (∀ a b, ∃ p', (_ ← pack_raw a; pack_raw b) p = Some (tt, p') ∧ pk_Err p' ≠ None) as Hraw2.
  { intros a b. unfold mbind, PM_bind. destruct (Hraw a) as (p1 & -> & He1). destruct (pack_raw_errored b p1 He1) as (p' & ? & ? & _). eauto. }
  destruct i as [v|v|v|v|[]|bs|bs|bs]; simpl.
  1: exact (Hraw [v]). 1: exact (Hraw (put_uint 2 v)). 1: exact (Hraw (put_uint 4 v)). 1: exact (Hraw (put_uint 8 v)).
  1: exact (Hraw [1]). 1: exact (Hraw [0]). 1: exact (Hraw bs). 1: exact (Hraw2 (put_uint 4 _) bs).
  unfold PackStr. destruct (MaxStringLen <? Z.of_nat (length bs)); [|exact (Hraw2 (put_uint 2 _) bs)].
  unfold errs_Add. eexists. split; [done|]. by destruct (pk_Err p) eqn:E; [rewrite E|].
Qed.

Lemma pack_item_spec i p pre :
  appends p pre → value_ok i → Z.of_nat (length (pre ++ encode i)) < 2 ^ 63 →
  ∃ p', pack_item i p = Some (tt, p') ∧ pk_MaxSize p' = pk_MaxSize p ∧
    if short_str i && (Z.of_nat (length (pre ++ encode i)) <=? pk_MaxSize p) then appends p' (pre ++ encode i) else pk_Err p' ≠ None.
Proof.
  intros Hp Hv H63.
  assert (∀ bs, encode i = bs → short_str i = true → ∃ p', pack_raw bs p = Some (tt, p') ∧ pk_MaxSize p' = pk_MaxSize p ∧
    if short_str i && (Z.of_nat (length (pre ++ encode i)) <=? pk_MaxSize p) then appends p' (pre ++ encode i) else pk_Err p' ≠ None) as Hraw.
  { intros bs <- ->. destruct (pack_raw_spec (encode i) p pre Hp H63) as (p' & ? & ? & Hp'). exists p'. split_and!; [done..|].
    simpl. destruct (_ <=? _); [done|congruence]. }
  assert (∀ a b, encode i = a ++ b → short_str i = true → ∃ p', (_ ← pack_raw a; pack_raw b) p = Some (tt, p') ∧ pk_MaxSize p' = pk_MaxSize p ∧
    if short_str i && (Z.of_nat (length (pre ++ encode i)) <=? pk_MaxSize p) then appends p' (pre ++ encode i) else pk_Err p' ≠ None) as Hraw2.
  { intros a b Hab ->. rewrite Hab in *. by apply pack_raw_two. }
  destruct i as [v|v|v|v|[]|bs|bs|bs]; simpl in Hv |- *.
  1: by apply (Hraw [v]). 1: by apply (Hraw (put_uint 2 v)). 1: by apply (Hraw (put_uint 4 v)). 1: by apply (Hraw (put_uint 8 v)).
  1: by apply (Hraw [1]). 1: by apply (Hraw [0]). 1: by apply (Hraw bs).
  - apply (Hraw2 (put_uint 4 (Z.of_nat (length bs) mod 2 ^ 32)) bs); [|done]. rewrite Z.mod_small by (destruct Hv; lia). done.
  - unfold PackStr. destruct (Z.ltb_spec MaxStringLen (Z.of_nat (length bs))) as [Hlong|Hshort].
    + rewrite (proj2 (Z.leb_gt _ _)) by done. simpl. unfold errs_Add. rewrite (ap_err _ _ Hp). by eexists.
    + apply (Hraw2 (put_uint 2 (Z.of_nat (length bs) mod 2 ^ 16)) bs); [|by apply Z.leb_le].
      rewrite Z.mod_small by (unfold MaxStringLen in *; lia). done.
Qed.

Lemma pack_all_errored items p : pk_Err p ≠ None → ∃ p', pack_all items p = Some (tt, p') ∧ pk_Err p' ≠ None.
Proof.
  revert p. induction items as [|i items IH]; intros p He; simpl; [by exists p|]. unfold mbind, PM_bind.
  destruct (pack_item_errored i p He) as (p1 & -> & He1). by apply IH.
Qed.

(** Packing a sequence of values. *)
Lemma pack_all_spec items p pre :
  appends p pre → Forall value_ok items → Z.of_nat (length (pre ++ encode_all items)) < 2 ^ 63 →
  ∃ p', pack_all items p = Some (tt, p') ∧
    if forallb short_str items && (Z.of_nat (length (pre ++ encode_all items)) <=? pk_MaxSize p)
    then appends p' (pre ++ encode_all items) else pk_Err p' ≠ None.
Proof.
  intros Hp Hv. revert p pre Hp. induction Hv as [|i items Hi _ IH]; intros p pre Hp H63; simpl.
  { exists p. split; [done|]. unfold encode_all in *. simpl in *. rewrite app_nil_r in *. rewrite (proj2 (Z.leb_le _ _)) by apply Hp. done. }
  unfold mbind, PM_bind. change (encode_all (i :: items)) with (encode i ++ encode_all items) in *. rewrite app_assoc in *.
  destruct (pack_item_spec i p pre Hp Hi) as (p1 & -> & Hm & Hp1); [rewrite length_app in H63; lia|].
  destruct (short_str i && (Z.of_nat (length (pre ++ encode i)) <=? pk_MaxSize p)) eqn:Hfit.
  - apply andb_true_iff in Hfit as [-> _]. destruct (IH p1 _ Hp1 H63) as (p' & ? & Hp'). exists p'. split; [done|]. by rewrite Hm in Hp'.
  - destruct (pack_all_errored items p1 Hp1) as (p' & ? & He). exists p'. split; [done|].
    apply andb_false_iff in Hfit as [->|Hbig]; [done|]. apply Z.leb_gt in Hbig.
    rewrite (proj2 (Z.leb_gt _ _)) by (rewrite length_app; lia). by rewrite andb_false_r.
Qed.

(** ** Unpacking *)

(** The common shape of the operations that read. *)
Definition unpack_raw (n : Z) : PM (list Z) :=
  _ ← checkSpace n; e ← errored;
  if e : bool then mret [] else bs ← read_at_Offset n; _ ← move_Offset n; mret bs.

(** A packer over a slice of bytes, and the bytes from its offset on. *)
Definition slice_ok (p : Packer) : Prop := 0 ≤ pk_len p ≤ Z.of_nat (length (pk_backing p)) ∧ Forall is_byte (pk_Bytes p).
Definition unread (p : Packer) : list Z := drop (Z.to_nat (pk_Offset p)) (pk_Bytes p).

(** The offset is within the slice. *)
Definition inside (p : Packer) : Prop := 0 ≤ pk_Offset p ≤ pk_len p.

(** [p'] is [p] after reading [bs], or after an error. *)
Definition reads (p : Packer) (bs : list Z) (p' : Packer) : Prop :=
  pk_Err p = None ∧ inside p ∧ (∃ rest, unread p = bs ++ rest) ∧ p' = advance p (Z.of_nat (length bs)).
Definition fails (p p' : Packer) : Prop :=
  pk_Err p' ≠ None ∧ pk_backing p' = pk_backing p ∧ pk_len p' = pk_len p.

Lemma bytes_length p : slice_ok p → Z.of_nat (length (pk_Bytes p)) = pk_len p.
Proof. intros [? _]. unfold pk_Bytes. rewrite length_take. lia. Qed.

Lemma unread_length p : slice_ok p → inside p → Z.of_nat (length (unread p)) = pk_len p - pk_Offset p.
Proof. intros Hs [? ?]. unfold unread. rewrite length_drop. pose proof (bytes_length p Hs). lia. Qed.

Lemma reads_slice p bs p' : slice_ok p → reads p bs p' → slice_ok p' ∧ pk_Err p' = None ∧ pk_Bytes p' = pk_Bytes p ∧ Forall is_byte bs ∧
  unread p = bs ++ unread p' ∧ pk_Offset p' = pk_Offset p + Z.of_nat (length bs) ∧ inside p'.
Proof.
  intros Hs (He & Ho & (rest & Hr) & ->). pose proof (unread_length p Hs Ho) as Hul. rewrite Hr, length_app in Hul. destruct Hs as [Hlen Hb].
  unfold inside, slice_ok, unread, pk_Bytes in *. simpl in *.
  split_and!; try done; try lia.
  - apply (Forall_drop _ (Z.to_nat (pk_Offset p))) in Hb. rewrite Hr in Hb. by apply Forall_app in Hb as [? _].
  - rewrite Z2Nat.inj_add, Nat2Z.id by lia. rewrite <- drop_drop, Hr, drop_app_length. done.
Qed.

Lemma reads_trans p a p1 b p2 : slice_ok p → reads p a p1 → reads p1 b p2 → reads p (a ++ b) p2.
Proof.
  intros Hs H1 H2. destruct (reads_slice _ _ _ Hs H1) as (_ & _ & _ & _ & Hu & _). destruct H1 as (? & ? & _ & ->).
  destruct H2 as (_ & _ & (rest & Hr) & ->). split; [done|]. split; [done|]. split; [exists rest; by rewrite Hu, Hr, app_assoc|].
  unfold advance. simpl. f_equal. rewrite length_app. lia.
Qed.

Lemma errs_Add_fails e p : ∃ p', errs_Add e p = Some (tt, p') ∧ fails p p'.
Proof. unfold errs_Add. eexists. split; [done|]. unfold fails. destruct (pk_Err p) eqn:E; by rewrite ?E. Qed.

Lemma checkSpace_spec n p :
  slice_ok p → ∃ p1, checkSpace n p = Some (tt, p1) ∧
    ((p1 = p ∧ inside p ∧ 0 ≤ n ≤ Z.of_nat (length (unread p))) ∨
     (fails p p1 ∧ (inside p → Z.of_nat (length (unread p)) < n ∨ n < 0))).
Proof.
  intros Hs. unfold checkSpace.
  assert (inside p → Z.of_nat (length (unread p)) = pk_len p - pk_Offset p) as Hul by (by apply unread_length). unfold inside in *.
  destruct (Z.ltb_spec (pk_Offset p) 0); [|destruct (Z.ltb_spec n 0); [|destruct (Z.ltb_spec (pk_len p - pk_Offset p) n)]].
  1-3: edestruct errs_Add_fails as (p1 & -> & Hf); exists p1; split; [done|right; split; [done|]; lia].
  exists p. split; [done|]. left. split; [done|]. lia.
Qed.

Lemma unpack_raw_spec n p :
  slice_ok p → ∃ bs p', unpack_raw n p = Some (bs, p') ∧
    ((reads p bs p' ∧ Z.of_nat (length bs) = n) ∨
     (fails p p' ∧ bs = [] ∧ (pk_Err p = None → inside p → Z.of_nat (length (unread p)) < n ∨ n < 0))).
Proof.
  intros Hs. unfold unpack_raw, mbind, PM_bind.
  destruct (checkSpace_spec n p Hs) as (p1 & -> & [(-> & Hin & Hn)|[Hf Hwhy]]); unfold errored, Errored.
  - destruct (pk_Err p) eqn:He; [exists [], p; split; [done|]; right; split; [split; [congruence|done]|done]|].
    pose proof (unread_length p Hs Hin) as Hul. unfold read_at_Offset. unfold inside in Hin.
    rewrite (proj2 (Z.leb_le 0 (pk_Offset p))), (proj2 (Z.leb_le 0 n)), (proj2 (Z.leb_le (pk_Offset p + n) _)) by lia. simpl.
    assert (Z.of_nat (length (take (Z.to_nat n) (unread p))) = n) as Hlen by (rewrite length_take; lia).
    exists (take (Z.to_nat n) (unread p)), (advance p n). split; [done|]. left. split; [|done].
    split; [done|]. split; [done|]. split; [|by rewrite Hlen]. exists (drop (Z.to_nat n) (unread p)). by rewrite take_drop.
  - exists [], p1. destruct (pk_Err p1) eqn:He; [|by destruct Hf]. split; [done|]. right. split; [split; [congruence|apply Hf]|]. done.
Qed.

Lemma fails_trans p p1 p2 : fails p p1 → fails p1 p2 → fails p p2.
Proof. intros (_ & H1 & H2) (He & H3 & H4). split_and!; congruence. Qed.

Lemma reads_fails p bs p1 p2 : reads p bs p1 → fails p1 p2 → fails p p2.
Proof. intros (_ & _ & _ & ->) (He & H3 & H4). by split_and!. Qed.

Lemma fails_errored p p' : slice_ok p → fails p p' → slice_ok p' ∧ ∀ bs p'', ¬ reads p' bs p''.
Proof.
  intros [Hl Hb] (He & H1 & H2). split; [|by intros bs p'' (? & _)]. unfold slice_ok, pk_Bytes in *. by rewrite H1, H2.
Qed.

(** Reading an integer of [n] bytes. *)
Lemma unpack_uint n p :
  (_ ← checkSpace n; e ← errored; if e : bool then mret 0 else bs ← read_at_Offset n; _ ← move_Offset n; mret (get_uint bs)) p
  = (bs ← unpack_raw n; mret (get_uint bs)) p.
Proof.
  unfold unpack_raw, mbind, PM_bind. destruct (checkSpace n p) as [[[] p1]|]; [|done]. simpl. destruct (Errored p1); [done|].
  by destruct (read_at_Offset n p1) as [[bs p2]|].
Qed.

(** No value satisfying [P] can be read from [p]. *)
Definition unreadable {A} (P : A → Prop) (enc : A → list Z) (p : Packer) : Prop :=
  pk_Err p = None → inside p → ∀ a, P a → ∀ rest, unread p ≠ enc a ++ rest.

Lemma uint_spec (k : nat) p :
  slice_ok p → ∃ v p', (bs ← unpack_raw (Z.of_nat k); mret (get_uint bs)) p = Some (v, p') ∧
    ((reads p (put_uint k v) p' ∧ 0 ≤ v < 2 ^ (8 * Z.of_nat k)) ∨
     (fails p p' ∧ v = 0 ∧ unreadable (λ _, True) (put_uint k) p)).
Proof.
  intros Hs. unfold mbind, PM_bind. destruct (unpack_raw_spec (Z.of_nat k) p Hs) as (bs & p' & -> & [[Hr Hlen]|(Hf & -> & Hwhy)]).
  - destruct (reads_slice _ _ _ Hs Hr) as (_ & _ & _ & Hb & _). assert (length bs = k) as <- by lia.
    exists (get_uint bs), p'. split; [done|]. left. rewrite put_get by done. split; [done|]. apply (get_uint_acc 0 bs Hb).
  - exists 0, p'. split; [done|]. right. split_and!; [done..|]. intros He Hin v _ rest Hu.
    destruct (Hwhy He Hin) as [Hlt|]; [|lia]. rewrite Hu, length_app, put_uint_length in Hlt. lia.
Qed.

(** Reading a length of [k] bytes and as many bytes, unless [too_big]. *)
Definition unpack_prefixed (k : nat) (too_big : Z → bool) : PM (list Z) :=
  size ← (bs ← unpack_raw (Z.of_nat k); mret (get_uint bs));
  if too_big size then _ ← errs_Add errOversized; mret [] else UnpackFixedBytes size.

Lemma prefixed_spec k too_big p :
  slice_ok p → ∃ bs p', unpack_prefixed k too_big p = Some (bs, p') ∧
    ((reads p (put_uint k (Z.of_nat (length bs)) ++ bs) p' ∧ is_bytes (2 ^ (8 * Z.of_nat k)) bs ∧ too_big (Z.of_nat (length bs)) = false) ∨
     (fails p p' ∧ unreadable (λ bs, is_bytes (2 ^ (8 * Z.of_nat k)) bs ∧ too_big (Z.of_nat (length bs)) = false)
                     (λ bs, put_uint k (Z.of_nat (length bs)) ++ bs) p)).
Proof.
  intros Hs. unfold unpack_prefixed. unfold mbind at 1, PM_bind at 1.
  destruct (uint_spec k p Hs) as (size & p1 & -> & [[Hr Hv]|(Hf & -> & Hwhy)]).
  - destruct (reads_slice _ _ _ Hs Hr) as (Hs1 & He1 & _ & _ & Hu & _ & Hin1).
    assert (∀ bs rest, is_bytes (2 ^ (8 * Z.of_nat k)) bs → unread p = (put_uint k (Z.of_nat (length bs)) ++ bs) ++ rest →
      Z.of_nat (length bs) = size ∧ unread p1 = bs ++ rest) as Hpre.
    { intros bs rest [_ Hlt] Heq. rewrite Hu, <- app_assoc in Heq. apply app_inj_1 in Heq as [Heq ->]; [|by rewrite !put_uint_length].
      split; [|done]. apply (f_equal get_uint) in Heq. rewrite !get_put in Heq. rewrite !Z.mod_small in Heq by lia. done. }
    destruct (too_big size) eqn:Hbig.
    + unfold mbind, PM_bind. destruct (errs_Add_fails errOversized p1) as (p2 & -> & Hf). exists [], p2. split; [done|]. right.
      split; [by eapply reads_fails|]. intros _ _ bs [Hbs Hsmall] rest Heq. destruct (Hpre bs rest Hbs Heq) as [Hsz _]. congruence.
    + destruct (unpack_raw_spec size p1 Hs1) as (bs & p2 & Hraw & Hcase). exists bs, p2. split; [exact Hraw|].
      destruct Hcase as [[Hr2 Hlen]|(Hf & -> & Hwhy)].
      * left. rewrite Hlen. split; [by eapply reads_trans|]. split; [|done]. split; [|lia]. by destruct (reads_slice _ _ _ Hs1 Hr2) as (_ & _ & _ & ? & _).
      * right. split; [by eapply reads_fails|]. intros _ _ bs [Hbs _] rest Heq. destruct (Hpre bs rest Hbs Heq) as [Hsz Hu1].
        destruct (Hwhy He1 Hin1) as [Hlt|]; [|lia]. rewrite Hu1, length_app in Hlt. lia.
  - destruct (fails_errored _ _ Hs Hf) as [Hs1 Hno].
    assert (unreadable (λ bs, is_bytes (2 ^ (8 * Z.of_nat k)) bs ∧ too_big (Z.of_nat (length bs)) = false)
      (λ bs, put_uint k (Z.of_nat (length bs)) ++ bs) p) as Hun.
    { intros He Hin bs _ rest Heq. rewrite <- app_assoc in Heq. by apply (Hwhy He Hin (Z.of_nat (length bs)) I (bs ++ rest)). }
    destruct (too_big 0).
    + unfold mbind, PM_bind. destruct (errs_Add_fails errOversized p1) as (p2 & -> & Hf2). exists [], p2. split; [done|]. right.
      split; [by eapply fails_trans|done].
    + destruct (unpack_raw_spec 0 p1 Hs1) as (bs & p2 & Hraw & Hcase). exists bs, p2. split; [exact Hraw|]. right.
      destruct Hcase as [[Hr2 _]|(Hf2 & _)]; [by apply Hno in Hr2|]. split; [by eapply fails_trans|done].
Qed.

(** Reading one value: the value whose encoding is next, or an error when there
    is none of the format. *)
Definition unpacks {A} (P : A → Prop) (enc : A → list Z) (op : PM A) (p : Packer) : Prop :=
  ∃ a p', op p = Some (a, p') ∧ ((P a ∧ reads p (enc a) p') ∨ (fails p p' ∧ unreadable P enc p)).

Lemma unpacks_map {A B} (P : A → Prop) (Q : B → Prop) encA encB (op : PM A) (f : A → B) p :
  unpacks P encA op p → (∀ a, P a → Q (f a) ∧ encB (f a) = encA a) → (∀ b, Q b → ∃ a, P a ∧ b = f a) →
  unpacks Q encB (a ← op; mret (f a)) p.
Proof.
  intros (a & p' & Hop & Hcase) Hf Hinv. exists (f a), p'. unfold mbind, PM_bind. rewrite Hop. split; [done|].
  destruct Hcase as [[Ha Hr]|[Hfail Hun]].
  - destruct (Hf a Ha) as [HQ Henc]. left. by rewrite Henc.
  - right. split; [done|]. intros He Hin b Hb rest. destruct (Hinv b Hb) as (a' & Ha' & ->).
    rewrite (proj2 (Hf a' Ha')). by apply Hun.
Qed.

Lemma unpacks_uint (k : nat) (op : PM Z) p :
  slice_ok p → op p = (bs ← unpack_raw (Z.of_nat k); mret (get_uint bs)) p →
  unpacks (λ v, 0 ≤ v < 2 ^ (8 * Z.of_nat k)) (put_uint k) op p.
Proof.
  intros Hs Hop. destruct (uint_spec k p Hs) as (v & p' & Heq & Hcase). exists v, p'. rewrite Hop. split; [done|].
  destruct Hcase as [[Hr Hv]|(Hf & _ & Hun)]; [by left|right]. split; [done|]. intros He Hin a _. by apply Hun.
Qed.

Lemma put_byte v : 0 ≤ v < 256 → put_uint 1 v = [v].
Proof. intros Hv. cbn [put_uint]. rewrite land_shift by lia. cbn. rewrite Z.div_1_r, Z.mod_small by lia. done. Qed.

Lemma unpacks_bool p : slice_ok p → unpacks (λ _, True) (λ b : bool, [if b then 1 else 0]) UnpackBool p.
Proof.
  intros Hs. unfold UnpackBool, unpacks. unfold mbind at 1, PM_bind at 1.
  destruct (unpacks_uint 1 UnpackByte p Hs (unpack_uint 1 p)) as (v & p1 & -> & Hcase).
  pose proof put_byte as Hput.
  destruct Hcase as [[Hv Hr]|[Hf Hun]].
  - change (2 ^ (8 * Z.of_nat 1)) with 256 in Hv. rewrite Hput in Hr by done.
    destruct (Z.eqb_spec v 0) as [->|Hv0]; [by exists false, p1; split; [|left]|].
    destruct (Z.eqb_spec v 1) as [->|Hv1]; [by exists true, p1; split; [|left]|].
    unfold mbind, PM_bind. destruct (errs_Add_fails errBadBool p1) as (p2 & -> & Hf). exists false, p2. split; [done|]. right.
    split; [by eapply reads_fails|]. destruct (reads_slice _ _ _ Hs Hr) as (_ & _ & _ & _ & Hu & _).
    intros _ _ b _ rest. rewrite Hu. simpl. intros [= Hvb _]. by destruct b.
  - assert (unreadable (λ _, True) (λ b : bool, [if b then 1 else 0]) p) as Hun'.
    { intros He Hin b _ rest Heq. apply (Hun He Hin (if b then 1 else 0)) with rest; [destruct b; cbn; lia|]. rewrite Hput; [done|]. destruct b; lia. }
    destruct (fails_errored _ _ Hs Hf) as [Hs1 _]. destruct (v =? 0); [by exists false, p1; split; [|right]|].
    destruct (v =? 1); [by exists true, p1; split; [|right]|].
    unfold mbind, PM_bind. destruct (errs_Add_fails errBadBool p1) as (p2 & -> & Hf2). exists false, p2. split; [done|]. right.
    split; [by eapply fails_trans|done].
Qed.

Lemma unpacks_fixed size p : slice_ok p → unpacks (λ bs, Forall is_byte bs ∧ Z.of_nat (length bs) = size) (λ bs, bs) (UnpackFixedBytes size) p.
Proof.
  intros Hs. destruct (unpack_raw_spec size p Hs) as (bs & p' & Heq & Hcase). exists bs, p'. split; [exact Heq|].
  destruct Hcase as [[Hr Hlen]|(Hf & _ & Hwhy)].
  - left. split; [|done]. split; [|done]. by destruct (reads_slice _ _ _ Hs Hr) as (_ & _ & _ & ? & _).
  - right. split; [done|]. intros He Hin a [_ Ha] rest Hu. destruct (Hwhy He Hin) as [Hlt|]; [|lia]. rewrite Hu, length_app in Hlt. lia.
Qed.

Lemma unpacks_prefixed k too_big (op : PM (list Z)) p :
  slice_ok p → op p = unpack_prefixed k too_big p →
  unpacks (λ bs, is_bytes (2 ^ (8 * Z.of_nat k)) bs ∧ too_big (Z.of_nat (length bs)) = false)
    (λ bs, put_uint k (Z.of_nat (length bs)) ++ bs) op p.
Proof.
  intros Hs Hop. destruct (prefixed_spec k too_big p Hs) as (bs & p' & Heq & Hcase). exists bs, p'. rewrite Hop. split; [done|].
  destruct Hcase as [(Hr & ? & ?)|[Hf Hun]]; [by left|by right].
Qed.

Lemma prefixed_op k too_big (len op : PM _) p :
  len p = (bs ← unpack_raw (Z.of_nat k); mret (get_uint bs)) p →
  op p = (size ← len; if too_big size : bool then _ ← errs_Add errOversized; mret [] else UnpackFixedBytes size) p →
  op p = unpack_prefixed k too_big p.
Proof. intros Hlen ->. unfold unpack_prefixed. unfold mbind at 1 3, PM_bind at 1 3. by rewrite Hlen. Qed.

Lemma unpack_item_spec f p : slice_ok p → unpacks (λ i, has_format i f) encode (unpack_item f) p.
Proof.
  intros Hs. destruct f as [| | | | |size| |limit| |limit]; cbn [unpack_item].
  - eapply unpacks_map; [by apply (unpacks_uint 1), unpack_uint| |intros []; naive_solver]. intros v Hv. split; [done|]. by rewrite put_byte.
  - eapply unpacks_map; [by apply (unpacks_uint 2), unpack_uint|done|intros []; naive_solver].
  - eapply unpacks_map; [by apply (unpacks_uint 4), unpack_uint|done|intros []; naive_solver].
  - eapply unpacks_map; [by apply (unpacks_uint 8), unpack_uint|done|intros []; naive_solver].
  - eapply unpacks_map; [by apply unpacks_bool|done|intros []; naive_solver].
  - eapply unpacks_map; [by apply unpacks_fixed|done|intros []; naive_solver].
  - eapply unpacks_map; [apply (unpacks_prefixed 4 (λ _, false)); [done|]; exact (prefixed_op 4 (λ _, false) UnpackInt _ p (unpack_uint 4 p) eq_refl)| |intros []; naive_solver].
    intros bs [Hbs _]. done.
  - eapply unpacks_map; [apply (unpacks_prefixed 4 (λ size, limit <? size)); [done|]; exact (prefixed_op 4 (λ size, limit <? size) UnpackInt _ p (unpack_uint 4 p) eq_refl)| |].
    + intros bs [Hbs Hle]. apply Z.ltb_ge in Hle. done.
    + intros [] Hb; try done. destruct Hb as [Hb Hle]. eexists. split; [split; [exact Hb|by apply Z.ltb_ge]|done].
  - eapply unpacks_map; [apply (unpacks_prefixed 2 (λ _, false)); [done|]; exact (prefixed_op 2 (λ _, false) UnpackShort _ p (unpack_uint 2 p) eq_refl)| |intros []; naive_solver].
    intros bs [Hbs _]. done.
  - eapply unpacks_map; [apply (unpacks_prefixed 2 (λ size, limit <? size)); [done|]; exact (prefixed_op 2 (λ size, limit <? size) UnpackShort _ p (unpack_uint 2 p) eq_refl)| |].
    + intros bs [Hbs Hle]. apply Z.ltb_ge in Hle. done.
    + intros [] Hb; try done. destruct Hb as [Hb Hle]. eexists. split; [split; [exact Hb|by apply Z.ltb_ge]|done].
Qed.

(** Encodings of one format are prefix-free. *)
Lemma encode_prefix f i i' rest rest' : has_format i f → has_format i' f → encode i ++ rest = encode i' ++ rest' → i' = i.
Proof.
  assert (∀ k v w l l', 0 ≤ v < 2 ^ (8 * Z.of_nat k) → 0 ≤ w < 2 ^ (8 * Z.of_nat k) → put_uint k v ++ l = put_uint k w ++ l' → w = v ∧ l' = l) as Huint.
  { intros k v w l l' Hv Hw Heq. apply app_inj_1 in Heq as [Heq ->]; [|by rewrite !put_uint_length]. split; [|done].
    apply (f_equal get_uint) in Heq. rewrite !get_put, !Z.mod_small in Heq by done. done. }
  assert (∀ k a b, is_bytes (2 ^ (8 * Z.of_nat k)) a → is_bytes (2 ^ (8 * Z.of_nat k)) b →
    (put_uint k (Z.of_nat (length a)) ++ a) ++ rest = (put_uint k (Z.of_nat (length b)) ++ b) ++ rest' → b = a) as Hbytes.
  { intros k a b [_ Ha] [_ Hb]. rewrite <- !app_assoc. intros [Hlen Heq]%Huint; [|lia..]. symmetry. by apply app_inj_1 in Heq as [? _]; [|lia]. }
  destruct f, i; simpl; try done; destruct i'; simpl; try done; intros Hi Hi' Heq; f_equal.
  - by injection Heq.
  - by apply (Huint 2%nat) in Heq as [? _].
  - by apply (Huint 4%nat) in Heq as [? _].
  - by apply (Huint 8%nat) in Heq as [? _].
  - injection Heq as Heq _. by destruct b, b0.
  - destruct Hi as [_ Hi], Hi' as [_ Hi']. symmetry. by apply app_inj_1 in Heq as [? _]; [|lia].
  - by apply (Hbytes 4%nat).
  - by apply (Hbytes 4%nat); [apply Hi|apply Hi'|].
  - by apply (Hbytes 2%nat).
  - by apply (Hbytes 2%nat); [apply Hi|apply Hi'|].
Qed.

Lemma encode_all_cons i items : encode_all (i :: items) = encode i ++ encode_all items.
Proof. done. Qed.

(** Reading a sequence of values. *)
Lemma unpack_all_spec fs p :
  slice_ok p → (pk_Err p = None → inside p) → unpacks (λ items, Forall2 has_format items fs) encode_all (unpack_all fs) p.
Proof.
  revert p. induction fs as [|f fs IH]; intros p Hs Hin; simpl.
  { exists [], p. split; [done|]. destruct (pk_Err p) eqn:He.
    - right. split; [by split_and!; [congruence|..]|]. intros He'. congruence.
    - left. split; [constructor|]. split; [done|]. split; [auto|]. split; [by exists (unread p)|]. unfold advance. simpl. rewrite Z.add_0_r. by destruct p. }
  unfold unpacks, mbind, PM_bind. destruct (unpack_item_spec f p Hs) as (i & p1 & -> & Hcase).
  assert (∀ items, Forall2 has_format items (f :: fs) → ∃ i items', items = i :: items' ∧ has_format i f ∧ Forall2 has_format items' fs) as Hinv.
  { intros items (i' & items' & ? & ? & ->)%Forall2_cons_inv_r. eauto. }
  destruct Hcase as [[Hi Hr]|[Hf Hun]].
  - destruct (reads_slice _ _ _ Hs Hr) as (Hs1 & He1 & _ & _ & Hu & _ & Hin1).
    destruct (IH p1 Hs1 (λ _, Hin1)) as (items & p2 & -> & Hcase). exists (i :: items), p2. split; [done|].
    destruct Hcase as [[Hitems Hr2]|[Hf Hun]].
    + left. split; [by constructor|]. rewrite encode_all_cons. by eapply reads_trans.
    + right. split; [by eapply reads_fails|]. intros He Hin0 a Ha rest Heq. destruct (Hinv a Ha) as (i' & items' & -> & Hi' & Ha').
      rewrite encode_all_cons, <- app_assoc, Hu in Heq.
      assert (i' = i) as -> by (eapply encode_prefix; eauto). apply app_inv_head in Heq. by apply (Hun He1 Hin1 items' Ha' rest).
  - destruct (fails_errored _ _ Hs Hf) as [Hs1 Hno].
    destruct (IH p1 Hs1) as (items & p2 & -> & Hcase); [by intros He; destruct Hf|]. exists (i :: items), p2. split; [done|]. right.
    destruct Hcase as [[_ Hr2]|[Hf2 _]]; [by apply Hno in Hr2|]. split; [by eapply fails_trans|].
    intros He Hin0 a Ha rest Heq. destruct (Hinv a Ha) as (i' & items' & -> & Hi' & _). rewrite encode_all_cons, <- app_assoc in Heq.
    by apply (Hun He Hin0 i' Hi' (encode_all items' ++ rest)).
Qed.

Lemma encode_all_prefix fs items items' rest rest' :
  Forall2 has_format items fs → Forall2 has_format items' fs → encode_all items ++ rest = encode_all items' ++ rest' → items' = items.
Proof.
  intros Hi. revert items'. induction Hi as [|i f items fs Hi _ IH]; intros items' Hi' Heq; [by inversion Hi'|].
  apply Forall2_cons_inv_r in Hi' as (i' & items1 & Hi' & Hi1 & ->). rewrite !encode_all_cons, <- !app_assoc in Heq.
  assert (i' = i) as -> by (eapply encode_prefix; [exact Hi|exact Hi'|exact Heq]). apply app_inv_head in Heq. f_equal. by apply IH.
Qed.

Lemma encode_bytes i f : has_format i f → Forall is_byte (encode i).
Proof.
  assert (∀ k bs, Forall is_byte bs → Forall is_byte (put_uint k (Z.of_nat (length bs)) ++ bs)) as Hb.
  { intros k bs Hbs. apply Forall_app. split; [apply put_uint_bytes|done]. }
  destruct f, i; cbn [has_format encode]; try done; try (intros _; apply put_uint_bytes).
  - intros Hv. by apply Forall_singleton.
  - intros _. apply Forall_singleton. unfold is_byte. destruct b; lia.
  - by intros [? _].
  - intros [? _]. by apply Hb.
  - intros [[? _] _]. by apply Hb.
  - intros [? _]. by apply Hb.
  - intros [[? _] _]. by apply Hb.
Qed.

Lemma encode_all_bytes items fs : Forall2 has_format items fs → Forall is_byte (encode_all items).
Proof. induction 1 as [|i f items fs Hi _ IH]; [constructor|]. rewrite encode_all_cons. apply Forall_app. split; [by eapply encode_bytes|done]. Qed.

Lemma short_strs items : forallb short_str items = true ↔ Forall (λ i, short_str i = true) items.
Proof.
  induction items as [|i items IH]; simpl; [split; [constructor|done]|]. rewrite andb_true_iff, IH, Forall_cons. done.
Qed.

Lemma values_formats items : Forall value_ok items → forallb short_str items = true → Forall2 has_format items (map format_of items).
Proof.
  induction 1 as [|i items Hi _ IH]; simpl; [constructor|]. intros [Hs Hss]%andb_true_iff. constructor; [|by apply IH].
  destruct i; try done. simpl in *. apply Z.leb_le in Hs. destruct Hi as [Hi _]. split; [done|]. unfold MaxStringLen in Hs. lia.
Qed.

(** ** Theorems *)

(** C31: packing and unpacking are inverse: a sequence of values whose byte slices are
    shorter than 2^32 bytes packs without panic, without error exactly when its strings
    are short enough and its encoding fits the maximal size, and then reading the bytes
    by the formats of the values returns the values, consumes every byte and reports no
    error.  (The length of a longer slice does not fit its prefix: [PackBytes] writes it
    modulo 2^32 without an error.) *)
Theorem pack_unpack items maxSize :
  0 ≤ maxSize → Forall value_ok items → Z.of_nat (length (encode_all items)) < 2 ^ 63 →
  ∃ p, pack_all items (mkPacker None maxSize [] 0 0) = Some (tt, p) ∧
    (pk_Err p = None ↔ Forall (λ i, short_str i = true) items ∧ Z.of_nat (length (encode_all items)) ≤ maxSize) ∧
    (pk_Err p = None → pk_Bytes p = encode_all items ∧ ∃ q,
      unpack_all (map format_of items) (mkPacker None maxSize (pk_backing p) (pk_len p) 0) = Some (items, q) ∧
      pk_Err q = None ∧ pk_Offset q = pk_len p).
Proof.
  intros Hmax Hv H63. destruct (pack_all_spec items (mkPacker None maxSize [] 0 0) []) as (p & Hpack & Hp); [by split|done|done|].
  exists p. split; [done|]. simpl in Hp. rewrite <- short_strs. destruct (forallb short_str items) eqn:Hshort; simpl in Hp; [|split; [naive_solver|done]].
  destruct (Z.leb_spec (Z.of_nat (length (encode_all items))) maxSize) as [Hle|Hgt]; [|split; [|done]; split; [done|lia]].
  split; [split; [done|intros _; apply Hp]|]. intros _. split; [apply Hp|].
  set (q0 := mkPacker None maxSize (pk_backing p) (pk_len p) 0).
  assert (pk_Bytes q0 = encode_all items) as Hq by exact (ap_bytes _ _ Hp).
  pose proof (values_formats items Hv Hshort) as Hfs.
  assert (slice_ok q0) as Hsl.
  { split; [simpl; rewrite (ap_len _ _ Hp); pose proof (ap_cap _ _ Hp); simpl; lia|]. rewrite Hq. by eapply encode_all_bytes. }
  assert (inside q0) as Hin by (unfold inside; simpl; rewrite (ap_len _ _ Hp); lia).
  assert (unread q0 = encode_all items) as Hu by (unfold unread; by rewrite Hq).
  destruct (unpack_all_spec (map format_of items) q0 Hsl (λ _, Hin)) as (items' & q & Hun & Hcase).
  destruct Hcase as [[Hitems Hr]|[_ Hno]]; [|by destruct (Hno eq_refl Hin items Hfs []); rewrite Hu, app_nil_r].
  destruct (reads_slice _ _ _ Hsl Hr) as (_ & He & _ & _ & Hu' & Ho & _). rewrite Hu, <- (app_nil_r (encode_all items)) in Hu'.
  assert (items' = items) as -> by (by eapply encode_all_prefix). exists q. split_and!; [done..|].
  rewrite Ho, (ap_len _ _ Hp). done.
Qed.

(** C32: unpacking arbitrary bytes is total and typed: it never panics and never
    changes the bytes; without an error the values have the requested formats and
    ranges and the bytes consumed are exactly their encoding; an error means that
    no sequence of values of these formats is encoded at the offset. *)
Theorem unpack_typed fs p :
  slice_ok p → pk_Err p = None → inside p →
  ∃ items p', unpack_all fs p = Some (items, p') ∧ pk_Bytes p' = pk_Bytes p ∧
    (pk_Err p' = None → Forall2 has_format items fs ∧ unread p = encode_all items ++ unread p' ∧ inside p' ∧
      pk_Offset p' = pk_Offset p + Z.of_nat (length (encode_all items))) ∧
    (pk_Err p' ≠ None → ∀ items' rest, Forall2 has_format items' fs → unread p ≠ encode_all items' ++ rest).
Proof.
  intros Hs He Hin. destruct (unpack_all_spec fs p Hs (λ _, Hin)) as (items & p' & Hun & Hcase). exists items, p'. split; [done|].
  destruct Hcase as [[Hitems Hr]|[(Hf & Hb & Hl) Hno]].
  - destruct (reads_slice _ _ _ Hs Hr) as (_ & He' & Hb & _ & Hu & Ho & Hin'). done.
  - split; [unfold pk_Bytes; by rewrite Hb, Hl|]. split; [done|]. intros _ items' rest Hi. by apply Hno.
Qed.
End RoundTrip.

(** ** Witnesses *)

Definition demo_items : list item := [IShort 258; IStr [104; 105]; IBool true; ILong 7; IBytes [1; 2; 3]].
Definition exact_growth (cap neededSize : Z) : Z := neededSize.

Lemma demo_items_ok : Forall value_ok demo_items.
Proof. repeat constructor; unfold is_byte; cbn; lia. Qed.

Lemma pack_unpack_witness :
  ∃ p, pack_all exact_growth demo_items (mkPacker None 64 [] 0 0) = Some (tt, p) ∧ pk_Err p = None ∧
    ∃ q, unpack_all (map format_of demo_items) (mkPacker None 64 (pk_backing p) (pk_len p) 0) = Some (demo_items, q).
Proof.
  destruct (pack_unpack exact_growth (λ _ n, Z.le_refl n) demo_items 64 ltac:(lia) demo_items_ok ltac:(cbn; lia)) as (p & Hp & Hiff & Hun).
  exists p. assert (pk_Err p = None) as He by (apply Hiff; split; [repeat constructor|cbn; lia]).
  split; [exact Hp|]. split; [exact He|]. destruct (Hun He) as (_ & q & Hq & _). by exists q.
Defined.

Lemma unpack_typed_witness :
  ∃ items p', unpack_all [FBool; FShort] (mkPacker None 0 [1; 2; 3; 9] 4 0) = Some (items, p') ∧ items = [IBool true; IShort 515] ∧
    pk_Err p' = None ∧ Forall2 has_format items [FBool; FShort].
Proof.
  destruct (unpack_typed [FBool; FShort] (mkPacker None 0 [1; 2; 3; 9] 4 0)) as (items & p' & Hun & _ & Hok & _).
  - split; [cbn; lia|]. repeat constructor; unfold is_byte; lia.
  - reflexivity.
  - unfold inside; cbn; lia.
  - exists items, p'. split; [exact Hun|]. vm_compute in Hun. injection Hun as <- <-. split; [reflexivity|]. split; [reflexivity|]. by apply Hok.
Defined.
