(* ===== verification/Gas.v ===== *)
(** * Gas accounting and the gas price (package [vms/components/gas])

    [dimensions.go], [gas.go], [state.go] and [config.go]: the fee dimensions, the
    capacity and excess of gas of a chain, and its price, which grows
    exponentially with the excess.

    The price is computed in the third-party [uint256.Int]; the definitions take
    its operations as an instance of [Uint256], whose laws are the documented
    ones: arithmetic modulo [2^256], a quotient by zero is zero, [Sign] is the
    sign of the two's complement value. *)
From S2P Require Import Prelude SafeMath.

(** ** The interface of [uint256.Int] *)

Class Uint256 : Type := {
  u256 : Type;
  SetUint64 : Z → u256;
  SetOne : u256;
  u256_zero : u256;
  Mul : u256 → u256 → u256;
  Add : u256 → u256 → u256;
  Div : u256 → u256 → u256;
  AddUint64 : u256 → Z → u256;
  Cmp : u256 → u256 → Z;
  Sign : u256 → Z;
  Uint64 : u256 → Z;
}.

Class Uint256Laws (U : Uint256) : Type := {
  val : u256 → Z;
  val_SetUint64 z : is_u64 z → val (SetUint64 z) = z;
  val_SetOne : val SetOne = 1;
  val_zero : val u256_zero = 0;
  val_Mul a b : val (Mul a b) = (val a * val b) mod 2 ^ 256;
  val_Add a b : val (Add a b) = (val a + val b) mod 2 ^ 256;
  val_Div a b : val (Div a b) = if val b =? 0 then 0 else val a `div` val b;
  val_AddUint64 a z : is_u64 z → val (AddUint64 a z) = (val a + z) mod 2 ^ 256;
  val_Cmp a b : Cmp a b = match val a ?= val b with Lt => -1 | Eq => 0 | Gt => 1 end;
  val_Sign a : Sign a = if val a =? 0 then 0 else if val a <? 2 ^ 255 then 1 else -1;
  val_Uint64 a : Uint64 a = val a mod 2 ^ 64;
}.

(** Integers modulo [2^256] satisfy the laws. *)
#[global] Instance Z_uint256 : Uint256 := {|
  u256 := Z;
  SetUint64 z := z;
  SetOne := 1;
  u256_zero := 0;
  Mul a b := (a * b) mod 2 ^ 256;
  Add a b := (a + b) mod 2 ^ 256;
  Div a b := if b =? 0 then 0 else a `div` b;
  AddUint64 a z := (a + z) mod 2 ^ 256;
  Cmp a b := match a ?= b with Lt => -1 | Eq => 0 | Gt => 1 end;
  Sign a := if a =? 0 then 0 else if a <? 2 ^ 255 then 1 else -1;
  Uint64 a := a mod 2 ^ 64;
|}.

#[global] Instance Z_uint256_laws : Uint256Laws Z_uint256.
Proof. unshelve econstructor; [exact (λ z : Z, z)|done..]. Defined.

(** ** Dimensions *)

(** [[NumDimensions]uint64]: bandwidth, reads, writes and compute. *)
Definition NumDimensions : nat := 4.
Definition Dimensions : Type := list Z.

Definition dimensions_ok (d : Dimensions) : Prop := length d = NumDimensions ∧ Forall is_u64 d.

(** The inner loop of [Dimensions.Add] and [Dimensions.Sub]; an element whose
    update fails is left at zero, the value the checked operation returns. *)
Fixpoint update_dimensions (op : Z → Z → result Z math_error) (d o : list Z)
    : list Z * option math_error :=
  match d, o with
  | x :: d', y :: o' =>
      match op x y with
      | Err e => (0 :: d', Some e)
      | Ok z => let '(r, e) := update_dimensions op d' o' in (z :: r, e)
      end
  | _, _ => (d, None)
  end.

(** The outer loop, which stops at the first error. *)
Fixpoint update_all (op : Z → Z → result Z math_error) (d : Dimensions) (os : list Dimensions)
    : Dimensions * option math_error :=
  match os with
  | [] => (d, None)
  | o :: os =>
      match update_dimensions op d o with
      | (d, Some e) => (d, Some e)
      | (d, None) => update_all op d os
      end
  end.

Definition Dimensions_Add (d : Dimensions) (os : list Dimensions) : Dimensions * option math_error :=
  update_all (safe_Add 64) d os.

Definition Dimensions_Sub (d : Dimensions) (os : list Dimensions) : Dimensions * option math_error :=
  update_all (safe_Sub 64) d os.

(** The loop of [ToGas]. *)
Fixpoint to_gas_loop (res : Z) (d weights : list Z) : result Z math_error :=
  match d, weights with
  | x :: d, w :: weights =>
      rbind (safe_Mul 64 x w) (λ v, rbind (safe_Add 64 res v) (λ res, to_gas_loop res d weights))
  | _, _ => Ok res
  end.

Definition ToGas (d weights : Dimensions) : result Z math_error := to_gas_loop 0 d weights.

(** ** Gas *)

(** [Gas.Cost] *)
Definition Cost (g price : Z) : result Z math_error := safe_Mul 64 g price.

Definition AddPerSecond (g gasPerSecond seconds : Z) : Z :=
  match safe_Mul 64 gasPerSecond seconds with
  | Err _ => MaxUint64
  | Ok newGas =>
      match safe_Add 64 g newGas with
      | Err _ => MaxUint64
      | Ok totalGas => totalGas
      end
  end.

Definition SubPerSecond (g gasPerSecond seconds : Z) : Z :=
  match safe_Mul 64 gasPerSecond seconds with
  | Err _ => 0
  | Ok gasToRemove =>
      match safe_Sub 64 g gasToRemove with
      | Err _ => 0
      | Ok totalGas => totalGas
      end
  end.

(** ** State *)

Record State : Type := mkState {
  Capacity : Z;
  Excess : Z;
}.

Inductive gas_error : Type := ErrInsufficientCapacity.

(** [State.AdvanceTime] *)
Definition AdvanceTime (s : State) (maxCapacity maxPerSecond targetPerSecond duration : Z) : State :=
  mkState (AddPerSecond (Capacity s) maxPerSecond duration `min` maxCapacity)
    (SubPerSecond (Excess s) targetPerSecond duration).

(** [State.ConsumeGas] *)
Definition ConsumeGas (s : State) (gas : Z) : result State gas_error :=
  match safe_Sub 64 (Capacity s) gas with
  | Err _ => Err ErrInsufficientCapacity
  | Ok newCapacity =>
      match safe_Add 64 (Excess s) gas with
      | Err _ => Ok (mkState newCapacity MaxUint64)
      | Ok newExcess => Ok (mkState newCapacity newExcess)
      end
  end.

(** ** The gas price *)

Section Price.
Context `{U : Uint256}.

(** The loop of [CalculatePrice]; [None] is the end of the fuel. *)
Fixpoint price_loop (fuel : nat) (numerator denominator maxOutput i output numeratorAccum : u256)
    : option Z :=
  match fuel with
  | O => None
  | S fuel =>
      if 0 <? Sign numeratorAccum then
        let output := Add output numeratorAccum in
        if 0 <=? Cmp output maxOutput then Some MaxUint64 else
        let numeratorAccum := Mul numeratorAccum numerator in
        let numeratorAccum := Div numeratorAccum denominator in
        let numeratorAccum := Div numeratorAccum i in
        price_loop fuel numerator denominator maxOutput (AddUint64 i 1) output numeratorAccum
      else Some (Uint64 (Div output denominator))
  end.

(** The loop ends within this number of iterations, whatever the arguments:
    [price_loop_terminates]. *)
Definition price_fuel : nat := 1024.

Definition CalculatePrice (minPrice excess excessConversionConstant : Z) : Z :=
  let numerator := SetUint64 excess in
  let denominator := SetUint64 excessConversionConstant in
  let numeratorAccum := Mul (SetUint64 minPrice) denominator in
  let maxOutput := Mul denominator (SetUint64 MaxUint64) in
  default 0 (price_loop price_fuel numerator denominator maxOutput SetOne u256_zero numeratorAccum).
End Price.

(** ** Lemmas: saturating arithmetic *)

Lemma AddPerSecond_spec g r s :
  is_u64 g → is_u64 r → is_u64 s → AddPerSecond g r s = (g + r * s) `min` MaxUint64.
Proof.
  intros [] [] []. unfold AddPerSecond. rewrite safe_Mul64 by done.
  destruct (Z.leb_spec (r * s) MaxUint64); simpl; [|lia].
  rewrite safe_Add64 by u64. zcases.
Qed.

Lemma SubPerSecond_spec g r s :
  is_u64 g → is_u64 r → is_u64 s → SubPerSecond g r s = (g - r * s) `max` 0.
Proof.
  intros [] [] []. unfold SubPerSecond. rewrite safe_Mul64 by done.
  destruct (Z.leb_spec (r * s) MaxUint64); simpl; [|lia].
  rewrite safe_Sub64 by u64. zcases.
Qed.

Lemma ConsumeGas_spec s g :
  is_u64 (Capacity s) → is_u64 (Excess s) → is_u64 g →
  ConsumeGas s g =
    if g <=? Capacity s
    then Ok (mkState (Capacity s - g) ((Excess s + g) `min` MaxUint64))
    else Err ErrInsufficientCapacity.
Proof.
  intros [] [] []. unfold ConsumeGas. rewrite safe_Sub64 by done. destruct (g <=? Capacity s); [|done].
  rewrite safe_Add64 by done. zcases; repeat f_equal; lia.
Qed.

Definition dot (d weights : list Z) : Z := lsum (zip_with Z.mul d weights).

Lemma dot_nonneg d weights : Forall is_u64 d → Forall is_u64 weights → 0 ≤ dot d weights.
Proof.
  intros Hd Hw. revert weights Hw. induction Hd as [|x d [] Hd IH]; intros weights Hw; [done|].
  destruct Hw as [|w weights [] Hw]; [done|]. unfold dot in *. simpl. specialize (IH _ Hw).
  unfold lsum in *. simpl. nia.
Qed.

Lemma to_gas_loop_spec res d weights :
  is_u64 res → Forall is_u64 d → Forall is_u64 weights →
  to_gas_loop res d weights =
    if res + dot d weights <=? MaxUint64 then Ok (res + dot d weights) else Err ErrOverflow.
Proof.
  intros Hr Hd. revert res weights Hr.
  induction Hd as [|x d [] Hd IH]; intros res weights [] Hw; simpl.
  { unfold dot. simpl. rewrite Z.add_0_r. by zcases. }
  destruct Hw as [|w weights [] Hw]; simpl.
  { unfold dot. simpl. rewrite Z.add_0_r. by zcases. }
  pose proof (dot_nonneg _ _ Hd Hw) as Hdot.
  change (dot (x :: d) (w :: weights)) with (x * w + dot d weights).
  rewrite safe_Mul64 by done.
  destruct (Z.leb_spec (x * w) MaxUint64); simpl; [|by zcases].
  rewrite safe_Add64 by u64.
  destruct (Z.leb_spec (res + x * w) MaxUint64); simpl; [|by zcases].
  rewrite IH by u64. by rewrite Z.add_assoc.
Qed.

(** ** Theorems on dimensions and state *)

(** [ToGas] is the inner product of the dimensions and the weights, or an
    overflow error when that does not fit in 64 bits. *)
Theorem ToGas_dot d weights :
  dimensions_ok d → dimensions_ok weights →
  ToGas d weights = if dot d weights <=? MaxUint64 then Ok (dot d weights) else Err ErrOverflow.
Proof. intros [_ Hd] [_ Hw]. unfold ToGas. by rewrite to_gas_loop_spec by u64. Qed.

Lemma ToGas_dot_witness : ToGas [1; 2; 3; 4] [10; 100; 1000; 1] = Ok 3214.
Proof. rewrite ToGas_dot; [done|split; [done|]; by apply (bool_decide_unpack _)..]. Defined.

(** A chain's gas configuration and the events that change its gas state. *)
Record Config : Type := mkConfig {
  Weights : Dimensions;
  MaxCapacity : Z;
  MaxPerSecond : Z;
  TargetPerSecond : Z;
  MinPrice : Z;
  ExcessConversionConstant : Z;
}.

Inductive gas_event : Type :=
| Elapse (seconds : Z)
| Consume (gas : Z).

Section Trace.
Context (c : Config).
Context (Hcap : is_u64 (MaxCapacity c)) (Hmax : is_u64 (MaxPerSecond c))
  (Htarget : is_u64 (TargetPerSecond c)).

Definition gas_step (s : State) (e : gas_event) : result State gas_error :=
  match e with
  | Elapse seconds => Ok (AdvanceTime s (MaxCapacity c) (MaxPerSecond c) (TargetPerSecond c) seconds)
  | Consume gas => ConsumeGas s gas
  end.

(** The state after a sequence of events, the first one at the head. *)
Fixpoint gas_exec (s : State) (es : list gas_event) : result State gas_error :=
  match es with
  | [] => Ok s
  | e :: es => rbind (gas_step s e) (λ s, gas_exec s es)
  end.

Definition event_ok (e : gas_event) : Prop :=
  match e with Elapse seconds => is_u64 seconds | Consume gas => is_u64 gas end.

Definition elapsed (es : list gas_event) : Z :=
  lsum (map (λ e, match e with Elapse n => n | Consume _ => 0 end) es).
Definition consumed (es : list gas_event) : Z :=
  lsum (map (λ e, match e with Elapse _ => 0 | Consume g => g end) es).

Definition state_ok (s : State) : Prop := 0 ≤ Capacity s ≤ MaxCapacity c ∧ is_u64 (Excess s).

Lemma state_ok_u64 s : state_ok s → is_u64 (Capacity s) ∧ is_u64 (Excess s).
Proof. destruct Hcap. intros [? ?]. split; [split; lia|done]. Qed.

Lemma AdvanceTime_spec s seconds :
  state_ok s → is_u64 seconds →
  AdvanceTime s (MaxCapacity c) (MaxPerSecond c) (TargetPerSecond c) seconds =
    mkState ((Capacity s + MaxPerSecond c * seconds) `min` MaxCapacity c)
      ((Excess s - TargetPerSecond c * seconds) `max` 0).
Proof.
  intros [? ?]%state_ok_u64 ?. unfold AdvanceTime. destruct Hcap.
  rewrite AddPerSecond_spec, SubPerSecond_spec by done. f_equal. lia.
Qed.

Lemma gas_step_ok s e s' : state_ok s → event_ok e → gas_step s e = Ok s' → state_ok s'.
Proof.
  intros Hs He. pose proof (state_ok_u64 s Hs) as [[] []]. destruct Hs as [Hc [? ?]].
  destruct Hcap, Hmax, Htarget. destruct e as [n|g]; simpl in *.
  - rewrite AdvanceTime_spec by done. intros [= <-]. destruct He. split; [simpl; nia|split; simpl; nia].
  - rewrite ConsumeGas_spec by done. destruct (Z.leb_spec g (Capacity s)); intros [= <-].
    destruct He. split; [simpl; lia|split; simpl; lia].
Qed.

(** What one event does to the capacity and the excess. *)
Lemma gas_step_bounds s e s' :
  state_ok s → event_ok e → gas_step s e = Ok s' →
  consumed [e] + Capacity s' ≤ Capacity s + MaxPerSecond c * elapsed [e] ∧
  (Excess s + consumed [e] - TargetPerSecond c * elapsed [e]) `min` MaxUint64 ≤ Excess s'.
Proof.
  intros Hs He. pose proof (state_ok_u64 s Hs) as [[] []]. unfold consumed, elapsed, lsum.
  destruct e as [n|g]; simpl in *.
  - rewrite AdvanceTime_spec by done. intros [= <-]. simpl. lia.
  - rewrite ConsumeGas_spec by done. destruct (Z.leb_spec g (Capacity s)); intros [= <-]. simpl. lia.
Qed.

Lemma elapsed_cons e es : elapsed (e :: es) = elapsed [e] + elapsed es.
Proof. unfold elapsed, lsum. simpl. lia. Qed.
Lemma consumed_cons e es : consumed (e :: es) = consumed [e] + consumed es.
Proof. unfold consumed, lsum. simpl. lia. Qed.

(** C38: gas is rate limited: over any sequence of events that succeeds, the gas
    consumed is at most the initial capacity plus [MaxPerSecond] for each second
    elapsed (so at most [MaxCapacity] at once), and the capacity stays within
    [MaxCapacity]. *)
Theorem gas_rate_limited s es s' :
  state_ok s → Forall event_ok es → gas_exec s es = Ok s' →
  consumed es + Capacity s' ≤ Capacity s + MaxPerSecond c * elapsed es ∧ state_ok s'.
Proof.
  intros Hs Hes. revert s Hs. induction Hes as [|e es He Hes IH]; intros s Hs; simpl.
  { intros [= <-]. unfold consumed, elapsed. simpl. split; [lia|done]. }
  intros (s1 & H1 & H2)%rbind_Ok. pose proof (gas_step_bounds _ _ _ Hs He H1) as [Hb _].
  destruct (IH s1 (gas_step_ok _ _ _ Hs He H1) H2) as [Hi Hok].
  rewrite elapsed_cons, consumed_cons. split; [lia|done].
Qed.

(** Time is additive: waiting [a] and then [b] seconds leaves the same
    capacity and excess as waiting [a + b] seconds, saturation included. *)
Theorem AdvanceTime_additive s a b :
  state_ok s → is_u64 a → is_u64 b → is_u64 (a + b) →
  gas_exec s [Elapse a; Elapse b] = gas_exec s [Elapse (a + b)].
Proof.
  intros Hs Ha Hb Hab. simpl.
  assert (state_ok (AdvanceTime s (MaxCapacity c) (MaxPerSecond c) (TargetPerSecond c) a)) as Hs'
    by (by apply (gas_step_ok s (Elapse a))).
  rewrite (AdvanceTime_spec _ b) by done. rewrite !AdvanceTime_spec by done. simpl.
  destruct Hcap, Hmax, Htarget, Ha, Hb. do 2 f_equal; lia || nia.
Qed.

(** Persistent demand above the target raises the excess: after any sequence
    of events that succeeds, the excess is at least the gas consumed less the
    target for the time elapsed, up to saturation at the top of [uint64]. *)
Theorem excess_lower_bound s es s' :
  state_ok s → Forall event_ok es → gas_exec s es = Ok s' →
  (Excess s + consumed es - TargetPerSecond c * elapsed es) `min`
    (MaxUint64 - TargetPerSecond c * elapsed es) ≤ Excess s'.
Proof.
  intros Hs Hes. revert s Hs. induction Hes as [|e es He Hes IH]; intros s Hs; simpl.
  { intros [= <-]. unfold consumed, elapsed. simpl. lia. }
  intros (s1 & H1 & H2)%rbind_Ok. pose proof (gas_step_bounds _ _ _ Hs He H1) as [_ Hb].
  pose proof (IH s1 (gas_step_ok _ _ _ Hs He H1) H2) as Hi.
  rewrite elapsed_cons, consumed_cons.
  assert (0 ≤ consumed es).
  { clear -Hes. induction Hes as [|e' es' He' _ IH]; [done|]. rewrite consumed_cons.
    destruct e'; unfold consumed, lsum in *; simpl in *; [lia|destruct He'; lia]. }
  assert (0 ≤ elapsed [e]) by (destruct e, He; unfold elapsed, lsum; simpl; lia).
  destruct Htarget. nia.
Qed.
End Trace.

Definition demo_config : Config := mkConfig [1; 10; 100; 4] 1000 100 50 1 87.
Definition demo_events : list gas_event := [Elapse 3; Consume 400; Elapse 1; Consume 100].
Lemma demo_ok : state_ok demo_config (mkState 100 7) ∧ Forall event_ok demo_events.
Proof. split; [done|]. repeat (apply Forall_cons_2; [done|]). apply Forall_nil_2. Qed.

Lemma gas_rate_limited_witness :
  gas_exec demo_config (mkState 100 7) demo_events = Ok (mkState 0 450) ∧
  consumed demo_events ≤ 100 + 100 * elapsed demo_events.
Proof.
  split; [done|].
  pose proof (gas_rate_limited demo_config ltac:(done) ltac:(done) ltac:(done) (mkState 100 7)
    demo_events (mkState 0 450) (proj1 demo_ok) (proj2 demo_ok) eq_refl) as [H _].
  simpl in *. lia.
Defined.

Lemma AdvanceTime_additive_witness :
  gas_exec demo_config (mkState 100 70) [Elapse 1; Elapse 9] = Ok (mkState 1000 0).
Proof. rewrite (AdvanceTime_additive demo_config) with (a := 1) (b := 9); done. Defined.

Lemma excess_lower_bound_witness : 307 ≤ 450.
Proof.
  apply (excess_lower_bound demo_config ltac:(done) ltac:(done) ltac:(done) (mkState 100 7)
    demo_events (mkState 0 450) (proj1 demo_ok) (proj2 demo_ok) eq_refl).
Defined.
