(* ===== verification/GasPrice.v ===== *)
(** * The gas price against its specification

    [CalculatePrice] of [vms/components/gas/gas.go] is an optimised, bounded
    version of the [fake_exponential] its comment quotes.  This file shows that
    its loop ends, that no 256-bit operation wraps, that it returns the value of
    [fake_exponential] capped at the largest [uint64], and that the price grows
    with the excess and never falls below the minimum. *)
From S2P Require Import Prelude SafeMath Gas.

(** ** The specification *)

(** The loop of [fake_exponential] from EIP-4844, on unbounded integers:
    [fake_exponential_loop i output accum r] when it returns [r]. *)
Inductive fake_exponential_loop (numerator denominator : Z) : Z → Z → Z → Z → Prop :=
| fe_done i output accum :
    accum ≤ 0 → fake_exponential_loop numerator denominator i output accum (output `div` denominator)
| fe_step i output accum r :
    0 < accum →
    fake_exponential_loop numerator denominator (i + 1) (output + accum)
      ((accum * numerator) `div` (denominator * i)) r →
    fake_exponential_loop numerator denominator i output accum r.

Definition fake_exponential (factor numerator denominator r : Z) : Prop :=
  fake_exponential_loop numerator denominator 1 0 (factor * denominator) r.

(** ** The loop on integers *)

Section Loop.
Context (num den : Z) (Hnum : is_u64 num) (Hden : 0 < den ≤ MaxUint64).

Definition next_accum (i accum : Z) : Z := ((accum * num) `div` den) `div` i.

(** [price_loop] without machine integers. *)
Fixpoint zloop (fuel : nat) (i output accum : Z) : option Z :=
  match fuel with
  | O => None
  | S fuel =>
      if 0 <? accum then
        if den * MaxUint64 <=? output + accum then Some MaxUint64
        else zloop fuel (i + 1) (output + accum) (next_accum i accum)
      else Some (output `div` den)
  end.

Lemma next_accum_nonneg i accum : 0 < i → 0 ≤ accum → 0 ≤ next_accum i accum.
Proof.
  intros. destruct Hnum. unfold next_accum. apply Z.div_pos; [|done].
  apply Z.div_pos; [nia|lia].
Qed.

Lemma next_accum_div i accum : 0 < i → next_accum i accum = (accum * num) `div` (den * i).
Proof. intros. unfold next_accum. rewrite Z.div_div by lia. done. Qed.

Lemma next_accum_bound i accum :
  0 < i → 0 ≤ accum < 2 ^ 128 → next_accum i accum < 2 ^ 192.
Proof.
  intros Hi Ha. destruct Hnum as [? Hn]. unfold MaxUint64 in Hn. rewrite next_accum_div by done.
  apply Z.div_lt_upper_bound; nia.
Qed.

(** While the exponent is large the terms double, so the cap is reached. *)
Lemma zloop_grow k i output accum :
  258 * den ≤ num → 0 < i → i + Z.of_nat k ≤ 129 → 0 ≤ output → 2 ^ 128 ≤ accum * 2 ^ Z.of_nat k →
  is_Some (zloop (S k) i output accum).
Proof.
  intros Hbig. revert i output accum.
  induction k as [|k IH]; intros i output accum Hi Hk Ho Ha; cbn [zloop].
  - rewrite Z.pow_0_r in Ha. destruct (0 <? accum); [|eauto].
    destruct (Z.leb_spec (den * MaxUint64) (output + accum)); [eauto|]. unfold MaxUint64 in *. nia.
  - rewrite Nat2Z.inj_succ, Z.pow_succ_r in Ha by lia.
    destruct (Z.ltb_spec 0 accum); [|eauto].
    destruct (den * MaxUint64 <=? output + accum); [eauto|]. apply IH; try lia.
    assert (2 * accum ≤ next_accum i accum).
    { assert (2 * (den * i) ≤ num) by nia. rewrite next_accum_div by done.
      apply Z.div_le_lower_bound; [lia|nia]. }
    etrans; [|apply Z.mul_le_mono_nonneg_r; [lia|done]]. lia.
Qed.

(** Once the index is large the terms halve. *)
Lemma zloop_shrink k i output accum :
  num < 258 * den → 516 ≤ i → 0 ≤ accum < 2 ^ Z.of_nat k → is_Some (zloop (S k) i output accum).
Proof.
  intros Hsmall. revert i output accum.
  induction k as [|k IH]; intros i output accum Hi Ha; cbn [zloop].
  - rewrite Z.pow_0_r in Ha. destruct (Z.ltb_spec 0 accum); [lia|eauto].
  - rewrite Nat2Z.inj_succ, Z.pow_succ_r in Ha by lia. destruct (0 <? accum); [|eauto].
    destruct (den * MaxUint64 <=? output + accum); [eauto|]. apply IH; [lia|].
    split; [apply next_accum_nonneg; lia|]. rewrite next_accum_div by lia. destruct Hnum.
    apply Z.div_lt_upper_bound; [nia|].
    apply Z.le_lt_trans with (accum * (258 * den)); [apply Z.mul_le_mono_nonneg_l; lia|].
    apply Z.lt_le_trans with (2 * 2 ^ Z.of_nat k * (258 * den)); [apply Z.mul_lt_mono_pos_r; lia|].
    replace (2 * 2 ^ Z.of_nat k * (258 * den)) with (den * 516 * 2 ^ Z.of_nat k) by ring.
    apply Z.mul_le_mono_nonneg_r; nia.
Qed.

Lemma zloop_middle n i output accum :
  num < 258 * den → 0 < i → 516 ≤ i + Z.of_nat n → 0 ≤ output → 0 ≤ accum < 2 ^ 192 →
  is_Some (zloop (n + 193) i output accum).
Proof.
  intros Hsmall. revert i output accum.
  induction n as [|n IH]; intros i output accum Hi Hn Ho Ha.
  - apply zloop_shrink; [done|lia|]. by change (Z.of_nat 192) with 192.
  - cbn [Nat.add zloop]. destruct (0 <? accum); [|eauto].
    destruct (Z.leb_spec (den * MaxUint64) (output + accum)) as [|Hlt]; [eauto|].
    apply IH; try lia. split; [apply next_accum_nonneg; lia|]. apply next_accum_bound; [done|].
    split; [lia|]. unfold MaxUint64 in *. nia.
Qed.

Lemma zloop_mono n m i output accum r :
  (n ≤ m)%nat → zloop n i output accum = Some r → zloop m i output accum = Some r.
Proof.
  revert m i output accum. induction n as [|n IH]; intros [|m] i output accum Hm; simpl; try done; [lia|].
  destruct (0 <? accum), (den * MaxUint64 <=? output + accum); try done. apply IH. lia.
Qed.

Lemma zloop_terminates accum :
  0 ≤ accum < 2 ^ 192 → is_Some (zloop price_fuel 1 0 accum).
Proof.
  intros Ha. destruct (Z.le_gt_cases (258 * den) num) as [Hb|Hs].
  - destruct (Z.eq_dec accum 0) as [->|]; [by eexists|].
    destruct (zloop_grow 128 1 0 accum) as [r Hr]; try lia.
    exists r. by apply (zloop_mono 129); [unfold price_fuel; lia|].
  - destruct (zloop_middle 515 1 0 accum) as [r Hr]; try lia.
    exists r. apply (zloop_mono (515 + 193)); [unfold price_fuel; lia|done].
Qed.

(** ** The specification's loop *)

Lemma fake_exponential_ge i output accum r :
  0 < i → 0 ≤ accum → fake_exponential_loop num den i output accum r →
  (output + accum) `div` den ≤ r.
Proof.
  intros Hi Ha Hr. induction Hr as [i output accum Ha'|i output accum r Ha' _ IH].
  - assert (accum = 0) as -> by lia. by rewrite Z.add_0_r.
  - etrans; [|apply IH; [lia|]].
    + apply Z.div_le_mono; [lia|]. rewrite <- next_accum_div by done.
      pose proof (next_accum_nonneg i accum). lia.
    + rewrite <- next_accum_div by done. apply next_accum_nonneg; lia.
Qed.

Lemma zloop_spec fuel i output accum v r :
  0 < i → 0 ≤ accum → 0 ≤ output < den * MaxUint64 → zloop fuel i output accum = Some v →
  fake_exponential_loop num den i output accum r → v = r `min` MaxUint64.
Proof.
  revert i output accum. induction fuel as [|fuel IH]; intros i output accum Hi Ha Ho; [done|].
  cbn [zloop]. intros Hz Hr. destruct (Z.ltb_spec 0 accum).
  - destruct (Z.leb_spec (den * MaxUint64) (output + accum)) as [Hle|Hlt].
    + injection Hz as <-. pose proof (fake_exponential_ge _ _ _ _ Hi Ha Hr).
      assert (MaxUint64 ≤ (output + accum) `div` den) by (apply Z.div_le_lower_bound; lia). lia.
    + inversion Hr as [|? ? ? ? ? Hr']; subst; [lia|]. rewrite <- next_accum_div in Hr' by done.
      eapply IH; [| | |exact Hz|exact Hr']; [lia|by apply next_accum_nonneg|lia].
  - injection Hz as <-. inversion Hr; subst; [|lia].
    assert (output `div` den < MaxUint64) by (apply Z.div_lt_upper_bound; lia). lia.
Qed.

(** The specification's loop ends too: once [denominator * i] exceeds the
    numerator the terms decrease. *)
Lemma fake_exponential_tail n i output accum :
  num < den * i → 0 < i → accum ≤ Z.of_nat n → ∃ r, fake_exponential_loop num den i output accum r.
Proof.
  revert i output accum. induction n as [|n IH]; intros i output accum Hi Hi0 Ha.
  { eexists. by constructor. }
  destruct (Z.le_gt_cases accum 0); [eexists; by constructor|].
  destruct (IH (i + 1) (output + accum) ((accum * num) `div` (den * i))) as [r Hr]; [nia|lia| |].
  { assert ((accum * num) `div` (den * i) < accum); [|lia]. apply Z.div_lt_upper_bound; nia. }
  exists r. by constructor.
Qed.

Lemma fake_exponential_ends n i output accum :
  num < den * (i + Z.of_nat n) → 0 < i → ∃ r, fake_exponential_loop num den i output accum r.
Proof.
  revert i output accum. induction n as [|n IH]; intros i output accum Hi Hi0.
  { apply (fake_exponential_tail (Z.to_nat accum)); lia. }
  destruct (Z.le_gt_cases accum 0); [eexists; by constructor|].
  destruct (IH (i + 1) (output + accum) ((accum * num) `div` (den * i))) as [r Hr]; [lia..|].
  exists r. by constructor.
Qed.

Lemma fake_exponential_total factor : ∃ r, fake_exponential factor num den r.
Proof. destruct Hnum. apply (fake_exponential_ends (Z.to_nat num)); nia. Qed.
End Loop.

(** A larger numerator gives a larger value. *)
Lemma fake_exponential_monotone num1 num2 den i output1 output2 accum1 accum2 r1 r2 :
  is_u64 num1 → is_u64 num2 → num1 ≤ num2 → 0 < den ≤ MaxUint64 → 0 < i →
  output1 ≤ output2 → 0 ≤ accum1 ≤ accum2 →
  fake_exponential_loop num1 den i output1 accum1 r1 →
  fake_exponential_loop num2 den i output2 accum2 r2 → r1 ≤ r2.
Proof.
  intros Hn1 Hn2 Hn Hd Hi Ho Ha Hr1. revert output2 accum2 r2 Hi Ho Ha.
  induction Hr1 as [i output1 accum1 Hz|i output1 accum1 r1 Hz Hr1 IH];
    intros output2 accum2 r2 Hi Ho Ha Hr2.
  - etrans; [|eapply (fake_exponential_ge num2 den); [..|exact Hr2]]; [|done|done|done|lia].
    apply Z.div_le_mono; lia.
  - inversion Hr2 as [|? ? ? ? ? Hr2']; subst; [lia|]. eapply IH; [..|exact Hr2']; [lia..|].
    destruct Hn1. split; [apply Z.div_pos; nia|apply Z.div_le_mono; nia].
Qed.

(** ** The loop in 256 bits *)

Section Refinement.
Context `{U : Uint256, !Uint256Laws U}.

Lemma Cmp_ge a b : (0 <=? Cmp a b) = (val b <=? val a).
Proof. rewrite val_Cmp. destruct (Z.compare_spec (val a) (val b)); zcases. Qed.

Lemma Sign_pos a : 0 ≤ val a < 2 ^ 255 → (0 <? Sign a) = (0 <? val a).
Proof.
  intros. rewrite val_Sign. destruct (Z.eqb_spec (val a) 0) as [->|]; [done|].
  destruct (Z.ltb_spec (val a) (2 ^ 255)), (Z.ltb_spec 0 (val a)); done || lia.
Qed.

Lemma price_loop_zloop fuel num den maxOutput i output accum :
  is_u64 (val num) → 0 < val den ≤ MaxUint64 → val maxOutput = val den * MaxUint64 →
  0 < val i → val i + Z.of_nat fuel < 2 ^ 64 → 0 ≤ val output < val den * MaxUint64 → 0 ≤ val accum < 2 ^ 192 →
  price_loop fuel num den maxOutput i output accum =
    zloop (val num) (val den) fuel (val i) (val output) (val accum).
Proof.
  intros Hnum Hden Hmax. revert i output accum.
  induction fuel as [|fuel IH]; intros i output accum Hi Hf Ho Ha; [done|].
  cbn [price_loop zloop]. rewrite Sign_pos by lia.
  assert (is_u64 1) by done. destruct Hnum as [Hn0 Hn].
  assert (val den * MaxUint64 < 2 ^ 128) by (unfold MaxUint64 in *; nia).
  destruct (Z.ltb_spec 0 (val accum)).
  - rewrite Cmp_ge, Hmax. rewrite val_Add, Z.mod_small by lia.
    destruct (Z.leb_spec (val den * MaxUint64) (val output + val accum)); [done|].
    assert (val (Div (Div (Mul accum num) den) i) = next_accum (val num) (val den) (val i) (val accum)) as Hacc.
    { rewrite !val_Div, val_Mul, Z.mod_small by (unfold MaxUint64 in *; nia).
      by destruct (Z.eqb_spec (val den) 0), (Z.eqb_spec (val i) 0); try lia. }
    rewrite IH; rewrite ?Hacc, ?val_AddUint64, ?val_Add, ?Z.mod_small by (done || lia); try lia; [done|].
    split; [apply next_accum_nonneg; done || lia|]. apply next_accum_bound; done || lia.
  - rewrite val_Uint64, val_Div. destruct (Z.eqb_spec (val den) 0); [lia|].
    f_equal. apply Z.mod_small. split; [apply Z.div_pos; lia|].
    apply Z.div_lt_upper_bound; [lia|]. unfold MaxUint64 in *. nia.
Qed.

(** [CalculatePrice] is the loop on integers; its fuel is enough. *)
Lemma CalculatePrice_zloop minPrice excess c :
  is_u64 minPrice → is_u64 excess → 0 < c ≤ MaxUint64 →
  zloop excess c price_fuel 1 0 (minPrice * c) = Some (CalculatePrice minPrice excess c).
Proof.
  intros Hm He Hc. assert (is_u64 c) by (split; lia). assert (is_u64 MaxUint64) by done.
  assert (0 ≤ minPrice * c < 2 ^ 128) by (destruct Hm; unfold MaxUint64 in *; nia).
  destruct (zloop_terminates excess c He Hc (minPrice * c)) as [r Hr]; [lia|].
  unfold CalculatePrice. rewrite price_loop_zloop; rewrite ?val_SetOne, ?val_zero, ?val_Mul, ?val_SetUint64,
    ?Z.mod_small by (done || unfold MaxUint64 in *; nia); try done; try (unfold MaxUint64 in *; nia).
  by rewrite Hr.
Qed.

Lemma CalculatePrice_fake_exponential minPrice excess c r :
  is_u64 minPrice → is_u64 excess → 0 < c ≤ MaxUint64 → fake_exponential minPrice excess c r →
  CalculatePrice minPrice excess c = r `min` MaxUint64.
Proof.
  intros Hm He Hc Hr. eapply zloop_spec; [done|done| | | |by apply CalculatePrice_zloop|exact Hr].
  - lia.
  - destruct Hm. nia.
  - unfold MaxUint64 in *. nia.
Qed.

Lemma CalculatePrice_ge minPrice excess c :
  is_u64 minPrice → is_u64 excess → 0 < c ≤ MaxUint64 → minPrice ≤ CalculatePrice minPrice excess c.
Proof.
  intros Hm He Hc. destruct (fake_exponential_total excess c He Hc minPrice) as [r Hr].
  rewrite (CalculatePrice_fake_exponential _ _ _ r) by done. destruct Hm.
  apply (fake_exponential_ge excess c He Hc) in Hr; [|lia|nia].
  rewrite Z.add_0_l, Z.div_mul in Hr by lia. lia.
Qed.

Lemma CalculatePrice_zero_excess minPrice c :
  is_u64 minPrice → 0 < c ≤ MaxUint64 → CalculatePrice minPrice 0 c = minPrice.
Proof.
  intros Hm Hc. rewrite (CalculatePrice_fake_exponential _ _ _ minPrice); [destruct Hm; lia|done..|].
  destruct (Z.eq_dec minPrice 0) as [->|].
  - apply (fe_done 0 c 1 0 (0 * c)). lia.
  - destruct Hm. constructor; [nia|].
    replace minPrice with ((0 + minPrice * c) `div` c) at 3 by (by rewrite Z.add_0_l, Z.div_mul by lia).
    rewrite Z.mul_0_r, Z.div_0_l by lia. by constructor.
Qed.

Lemma CalculatePrice_u64 minPrice excess c :
  is_u64 minPrice → is_u64 excess → 0 < c ≤ MaxUint64 → is_u64 (CalculatePrice minPrice excess c).
Proof.
  intros Hm He Hc. pose proof (CalculatePrice_ge _ _ _ Hm He Hc). destruct Hm as [??].
  destruct (fake_exponential_total excess c He Hc minPrice) as [r Hr].
  rewrite (CalculatePrice_fake_exponential _ _ _ r) in * by done. split; lia.
Qed.

(** ** Theorems *)

(** C36: the price is the [fake_exponential] of EIP-4844, capped at the largest
    [uint64]: the early exit, the two divisions in place of one and the 256-bit
    registers do not change the value, and the loop ends within its fuel. *)
Theorem CalculatePrice_correct minPrice excess c :
  is_u64 minPrice → is_u64 excess → 0 < c ≤ MaxUint64 →
  ∃ r, fake_exponential minPrice excess c r ∧
    CalculatePrice minPrice excess c = r `min` MaxUint64 ∧
    price_loop price_fuel (SetUint64 excess) (SetUint64 c) (Mul (SetUint64 c) (SetUint64 MaxUint64))
      SetOne u256_zero (Mul (SetUint64 minPrice) (SetUint64 c)) = Some (r `min` MaxUint64).
Proof.
  intros Hm He Hc. destruct (fake_exponential_total excess c He Hc minPrice) as [r Hr].
  exists r. split; [done|]. pose proof (CalculatePrice_fake_exponential _ _ _ r Hm He Hc Hr) as Hp.
  split; [done|]. pose proof (CalculatePrice_zloop _ _ _ Hm He Hc) as Hz. rewrite Hp in Hz.
  rewrite <- Hz. assert (is_u64 c) by (split; lia). assert (is_u64 MaxUint64) by done.
  assert (0 ≤ minPrice * c < 2 ^ 128) by (destruct Hm; unfold MaxUint64 in *; nia).
  rewrite price_loop_zloop; rewrite ?val_SetOne, ?val_zero, ?val_Mul, ?val_SetUint64,
    ?Z.mod_small by (done || unfold MaxUint64 in *; nia); try done; try (unfold MaxUint64 in *; nia).
Qed.

(** The price is at least the minimum price, equals it without excess, and
    never falls when the excess grows. *)
Theorem CalculatePrice_monotone minPrice excess1 excess2 c :
  is_u64 minPrice → is_u64 excess1 → is_u64 excess2 → 0 < c ≤ MaxUint64 → excess1 ≤ excess2 →
  CalculatePrice minPrice 0 c = minPrice ∧
  minPrice ≤ CalculatePrice minPrice excess1 c ≤ CalculatePrice minPrice excess2 c ≤ MaxUint64.
Proof.
  intros Hm H1 H2 Hc Hle. split; [by apply CalculatePrice_zero_excess|].
  split; [by apply CalculatePrice_ge|]. split; [|by apply CalculatePrice_u64].
  destruct (fake_exponential_total excess1 c H1 Hc minPrice) as [r1 Hr1].
  destruct (fake_exponential_total excess2 c H2 Hc minPrice) as [r2 Hr2].
  rewrite (CalculatePrice_fake_exponential _ _ _ r1), (CalculatePrice_fake_exponential _ _ _ r2) by done.
  assert (r1 ≤ r2); [|lia].
  eapply (fake_exponential_monotone excess1 excess2 c 1 0 0); [..|exact Hr1|exact Hr2]; try done.
  destruct Hm. nia.
Qed.
End Refinement.

Lemma CalculatePrice_correct_witness : CalculatePrice 1 20 5 = 53.
Proof.
  destruct (CalculatePrice_correct 1 20 5) as (r & _ & -> & Hl); [done..|].
  enough (Some (r `min` MaxUint64) = Some 53) by congruence.
  rewrite <- Hl. vm_compute. reflexivity.
Defined.

Lemma CalculatePrice_monotone_witness : CalculatePrice 7 100 30 ≤ CalculatePrice 7 101 30.
Proof.
  assert (is_u64 7 ∧ is_u64 100 ∧ is_u64 101 ∧ 0 < 30 ≤ MaxUint64 ∧ 100 ≤ 101) as (H1 & H2 & H3 & H4 & H5)
    by done.
  pose proof (CalculatePrice_monotone 7 100 101 30 H1 H2 H3 H4 H5) as (_ & _ & H & _). exact H.
Defined.
