(* ===== verification/ValidatorFee.v ===== *)
(** * The continuous validator fee (package [vms/platformvm/validators/fee])

    [fee.go]: every second each validator pays a price that depends on an excess,
    which moves by the distance between the current and the target number of
    validators.  [CostOf] and [SecondsRemaining] simulate that second by second
    with shortcuts; they are shown to compute the sum of the prices and the
    largest affordable duration. *)
From S2P Require Import Prelude SafeMath Gas GasPrice.

Record FeeConfig : Type := mkFeeConfig {
  fc_Capacity : Z;
  fc_Target : Z;
  fc_MinPrice : Z;
  fc_ExcessConversionConstant : Z;
}.

Record FeeState : Type := mkFeeState {
  fs_Current : Z;
  fs_Excess : Z;
}.

Section Fee.
Context `{U : Uint256}.
Implicit Types (s : FeeState) (c : FeeConfig).

(** [State.AdvanceTime] *)
Definition fee_AdvanceTime s (target seconds : Z) : FeeState :=
  let excess := fs_Excess s in
  let excess :=
    if fs_Current s <? target then SubPerSecond excess (wrap64 (target - fs_Current s)) seconds
    else if target <? fs_Current s then AddPerSecond excess (wrap64 (fs_Current s - target)) seconds
    else excess in
  mkFeeState (fs_Current s) excess.

Definition price_of s c : Z :=
  CalculatePrice (fc_MinPrice c) (fs_Excess s) (fc_ExcessConversionConstant c).

(** The loop of [CostOf], with [n] iterations left: [i = seconds - n]. *)
Fixpoint cost_loop c (seconds : Z) (n : nat) s (cost : Z) : Z :=
  match n with
  | O => cost
  | S n' =>
      let s := fee_AdvanceTime s (fc_Target c) 1 in
      if fs_Excess s =? 0 then
        let i := wrap64 (seconds - Z.of_nat n) in
        let secondsWithZeroExcess := wrap64 (seconds - i) in
        match safe_Mul 64 (fc_MinPrice c) secondsWithZeroExcess with
        | Err _ => MaxUint64
        | Ok zeroExcessCost =>
            match safe_Add 64 cost zeroExcessCost with
            | Err _ => MaxUint64
            | Ok cost => cost
            end
        end
      else
        match safe_Add 64 cost (price_of s c) with
        | Err _ => MaxUint64
        | Ok cost => cost_loop c seconds n' s cost
        end
  end.

(** [State.CostOf] *)
Definition CostOf s c (seconds : Z) : Z :=
  if fs_Current s =? fc_Target c then
    match safe_Mul 64 seconds (price_of s c) with
    | Err _ => MaxUint64
    | Ok cost => cost
    end
  else cost_loop c seconds (Z.to_nat seconds) s 0.

(** Integer division panics on a zero divisor. *)
Definition go_div (a b : Z) : option Z := if b =? 0 then None else Some (a `div` b).

(** The loop of [SecondsRemaining], with [n] iterations left:
    [seconds = maxSeconds - n]. *)
Fixpoint seconds_loop c (maxSeconds : Z) (n : nat) s (fundsRemaining : Z) : option Z :=
  match n with
  | O => Some maxSeconds
  | S n' =>
      let seconds := wrap64 (maxSeconds - Z.of_nat n) in
      let s := fee_AdvanceTime s (fc_Target c) 1 in
      if fs_Excess s =? 0 then
        secondsWithZeroExcess ← go_div fundsRemaining (fc_MinPrice c);
        match safe_Add 64 seconds secondsWithZeroExcess with
        | Err _ => Some maxSeconds
        | Ok totalSeconds => Some (totalSeconds `min` maxSeconds)
        end
      else
        let price := price_of s c in
        if fundsRemaining <? price then Some seconds
        else seconds_loop c maxSeconds n' s (wrap64 (fundsRemaining - price))
  end.

(** [State.SecondsRemaining]; [None] is a run-time panic. *)
Definition SecondsRemaining s c (maxSeconds fundsRemaining : Z) : option Z :=
  if fc_MinPrice c =? 0 then Some maxSeconds
  else if fs_Current s =? fc_Target c then
    seconds ← go_div fundsRemaining (price_of s c);
    Some (seconds `min` maxSeconds)
  else seconds_loop c maxSeconds (Z.to_nat maxSeconds) s fundsRemaining.

(** ** The specification *)

(** What a validator owes for the second that starts [k - 1] seconds from now. *)
Definition price_at s c (k : nat) : Z := price_of (fee_AdvanceTime s (fc_Target c) (Z.of_nat k)) c.

(** What it owes for the next [n] seconds. *)
Definition total_cost s c (n : nat) : Z := lsum (map (price_at s c) (seq 1 n)).
End Fee.

#[local] Opaque CalculatePrice.

Section Correctness.
Context `{U : Uint256, !Uint256Laws U}.
Context (c : FeeConfig) (Htarget : is_u64 (fc_Target c)) (Hmin : is_u64 (fc_MinPrice c))
  (Hconst : 0 < fc_ExcessConversionConstant c ≤ MaxUint64).
Implicit Types s : FeeState.

Definition fee_ok s : Prop := is_u64 (fs_Current s) ∧ is_u64 (fs_Excess s).

Lemma fee_AdvanceTime_spec s seconds :
  fee_ok s → is_u64 seconds →
  fee_AdvanceTime s (fc_Target c) seconds =
    mkFeeState (fs_Current s)
      (((fs_Excess s + (fs_Current s - fc_Target c) * seconds) `max` 0) `min` MaxUint64).
Proof.
  intros [HC HE] Hs. unfold fee_AdvanceTime. f_equal. pose proof HC as [??]. pose proof HE as [??].
  pose proof Hs as [??]. destruct Htarget.
  destruct (Z.ltb_spec (fs_Current s) (fc_Target c)); [|destruct (Z.ltb_spec (fc_Target c) (fs_Current s))].
  - rewrite wrap64_id by (split; lia). rewrite SubPerSecond_spec by (done || split; lia). nia.
  - rewrite wrap64_id by (split; lia). rewrite AddPerSecond_spec by (done || split; lia). nia.
  - replace (fs_Current s - fc_Target c) with 0 by lia. lia.
Qed.

Lemma fee_AdvanceTime_ok s seconds :
  fee_ok s → is_u64 seconds → fee_ok (fee_AdvanceTime s (fc_Target c) seconds).
Proof.
  intros Hs Hn. rewrite fee_AdvanceTime_spec by done. destruct Hs. split; [done|]. simpl.
  unfold is_u64, MaxUint64. lia.
Qed.

(** Time is additive. *)
Lemma fee_AdvanceTime_add s a b :
  fee_ok s → is_u64 a → is_u64 b → is_u64 (a + b) →
  fee_AdvanceTime (fee_AdvanceTime s (fc_Target c) a) (fc_Target c) b =
    fee_AdvanceTime s (fc_Target c) (a + b).
Proof.
  intros Hs Ha Hb Hab. rewrite (fee_AdvanceTime_spec _ b) by (done || by apply fee_AdvanceTime_ok).
  rewrite !fee_AdvanceTime_spec by done. simpl. f_equal.
  destruct Hs as [_ [??]], Ha, Hb. rewrite Z.mul_add_distr_l.
  destruct (Z.le_gt_cases (fs_Current s) (fc_Target c)); nia.
Qed.

Lemma price_of_ge s : fee_ok s → fc_MinPrice c ≤ price_of s c.
Proof. intros []. by apply CalculatePrice_ge. Qed.

Lemma price_of_u64 s : fee_ok s → is_u64 (price_of s c).
Proof. intros []. by apply CalculatePrice_u64. Qed.

Lemma price_of_zero s : fs_Excess s = 0 → price_of s c = fc_MinPrice c.
Proof. intros He. unfold price_of. rewrite He. by apply CalculatePrice_zero_excess. Qed.

(** The simulation one second at a time. *)
Lemma price_at_S s k :
  fee_ok s → is_u64 (Z.of_nat (S k)) →
  price_at s c (S k) = price_at (fee_AdvanceTime s (fc_Target c) 1) c k.
Proof.
  intros Hs [??]. unfold price_at. rewrite fee_AdvanceTime_add by (done || split; lia).
  do 2 f_equal. lia.
Qed.

Lemma total_cost_S s n :
  fee_ok s → is_u64 (Z.of_nat (S n)) →
  total_cost s c (S n) =
    price_of (fee_AdvanceTime s (fc_Target c) 1) c + total_cost (fee_AdvanceTime s (fc_Target c) 1) c n.
Proof.
  intros Hs [? Hn]. unfold total_cost. cbn [seq map lsum foldr]. apply (f_equal2 Z.add); [done|].
  rewrite <- (seq_shift n 1), (List.map_map S (price_at s c)).
  apply (f_equal lsum), List.map_ext_in. intros k Hk%List.in_seq. apply price_at_S; [done|]. split; lia.
Qed.

(** An excess that reached zero stays there, so the price is the minimum. *)
Lemma price_at_zero s k :
  fee_ok s → fs_Current s ≤ fc_Target c → fs_Excess s = 0 → is_u64 (Z.of_nat k) →
  price_at s c k = fc_MinPrice c.
Proof.
  intros Hs Hlt He Hk. apply price_of_zero. rewrite fee_AdvanceTime_spec by done. simpl.
  rewrite He. destruct Hk. unfold MaxUint64. nia.
Qed.

Lemma total_cost_zero s n :
  fee_ok s → fs_Current s ≤ fc_Target c → fs_Excess s = 0 → is_u64 (Z.of_nat n) →
  total_cost s c n = fc_MinPrice c * Z.of_nat n.
Proof.
  intros Hs Hlt He [_ Hn]. unfold total_cost. induction n as [|n IH].
  { by rewrite Z.mul_0_r. }
  rewrite seq_S, List.map_app, lsum_app. rewrite IH by lia. cbn [map lsum foldr Nat.add].
  rewrite (price_at_zero s (S n)) by (done || split; lia). lia.
Qed.

Lemma total_cost_nonneg s n : fee_ok s → is_u64 (Z.of_nat n) → 0 ≤ total_cost s c n.
Proof.
  intros Hs [? Hn]. apply lsum_nonneg, Forall_fmap, Forall_forall. intros k Hk%elem_of_seq. simpl.
  apply price_of_u64, fee_AdvanceTime_ok; [done|split; lia].
Qed.

(** A validator set that moved away from the target and has no excess left is
    below the target. *)
Lemma zero_excess_below s :
  fee_ok s → fs_Current s ≠ fc_Target c → fs_Excess (fee_AdvanceTime s (fc_Target c) 1) = 0 →
  fs_Current s ≤ fc_Target c.
Proof.
  intros Hs Hne. rewrite fee_AdvanceTime_spec by done. destruct Hs as [_ [??]]. simpl.
  unfold MaxUint64. lia.
Qed.

(** ** The loops *)

Lemma cost_loop_spec seconds n s cost :
  fee_ok s → fs_Current s ≠ fc_Target c → is_u64 seconds → Z.of_nat n ≤ seconds → is_u64 cost →
  cost_loop c seconds n s cost = (cost + total_cost s c n) `min` MaxUint64.
Proof.
  intros Hs Hne Hsec Hn Hcost. revert s cost Hs Hne Hcost.
  induction n as [|n IH]; intros s cost Hs Hne [Hc0 Hc1].
  { cbn [cost_loop total_cost]. unfold total_cost. cbn [seq map lsum foldr]. lia. }
  destruct Hsec as [? Hsec]. assert (is_u64 (Z.of_nat (S n))) as HSn by (split; lia).
  rewrite total_cost_S by done. cbn [cost_loop].
  pose proof (fee_AdvanceTime_ok s 1 Hs ltac:(done)) as Hs'.
  pose proof (zero_excess_below s Hs Hne) as Hbelow.
  assert (fs_Current (fee_AdvanceTime s (fc_Target c) 1) = fs_Current s) as Hcur by done.
  set (s' := fee_AdvanceTime s (fc_Target c) 1) in *. clearbody s'.
  destruct (Z.eqb_spec (fs_Excess s') 0) as [Hz|Hz].
  - rewrite price_of_zero, total_cost_zero by (done || (rewrite Hcur; auto) || split; lia).
    rewrite (wrap64_id (seconds - Z.of_nat (S n))) by (split; lia).
    replace (seconds - (seconds - Z.of_nat (S n))) with (Z.of_nat (S n)) by lia.
    rewrite wrap64_id by done.
    rewrite safe_Mul64 by done. destruct Hmin.
    destruct (Z.leb_spec (fc_MinPrice c * Z.of_nat (S n)) MaxUint64); [|nia].
    rewrite safe_Add64 by (split; nia). zcases.
  - pose proof (price_of_u64 s' Hs') as [??].
    rewrite safe_Add64 by (split; lia).
    assert (0 ≤ total_cost s' c n) by (apply total_cost_nonneg; [done|split; lia]).
    destruct (Z.leb_spec (cost + price_of s' c) MaxUint64); [|lia].
    rewrite IH; [lia|lia|done|congruence|split; lia].
Qed.

(** Affordable for [n] seconds, out of at most [maxSeconds], and not for more. *)
Definition affordable s (maxSeconds funds n : Z) : Prop :=
  0 ≤ n ≤ maxSeconds ∧ total_cost s c (Z.to_nat n) ≤ funds ∧
  (n < maxSeconds → funds < total_cost s c (S (Z.to_nat n))).

(** Affordability after paying for one second. *)
Lemma affordable_S s maxSeconds funds n :
  fee_ok s → is_u64 maxSeconds → 0 ≤ n →
  let s' := fee_AdvanceTime s (fc_Target c) 1 in
  affordable s' (maxSeconds - 1) (funds - price_of s' c) n → affordable s maxSeconds funds (n + 1).
Proof.
  intros Hs [? Hm] Hn s' (Hr & Hle & Hlt). split; [lia|].
  replace (Z.to_nat (n + 1)) with (S (Z.to_nat n)) by lia. split.
  - rewrite total_cost_S by (done || split; lia). fold s'. lia.
  - intros. rewrite total_cost_S by (done || split; lia). fold s'. lia.
Qed.

Lemma affordable_none s maxSeconds funds :
  fee_ok s → is_u64 maxSeconds → 0 < maxSeconds → 0 ≤ funds →
  funds < price_of (fee_AdvanceTime s (fc_Target c) 1) c → affordable s maxSeconds funds 0.
Proof.
  intros Hs [? Hm] ? ? ?. split; [lia|]. split; [done|]. intros _. change (Z.to_nat 0) with O.
  rewrite total_cost_S by done. change (total_cost _ c 0) with 0. lia.
Qed.

(** When every second costs the same. *)
Lemma affordable_linear s price maxSeconds funds :
  (∀ m : nat, Z.of_nat m ≤ maxSeconds → total_cost s c m = price * Z.of_nat m) →
  0 < price → 0 ≤ funds → 0 ≤ maxSeconds →
  affordable s maxSeconds funds ((funds `div` price) `min` maxSeconds).
Proof.
  intros Hlin Hp Hf Hm. assert (0 ≤ funds `div` price) by (apply Z.div_pos; lia).
  pose proof (Z.mul_div_le funds price Hp). pose proof (Z.mul_succ_div_gt funds price Hp).
  split; [lia|]. split; [rewrite Hlin by lia; nia|]. intros. rewrite Hlin by lia.
  rewrite Nat2Z.inj_succ, Z2Nat.id by lia. nia.
Qed.

(** From the second in which the excess reaches zero, the price is the minimum. *)
Lemma total_cost_from_zero s (m : nat) :
  fee_ok s → fs_Current s ≤ fc_Target c → fs_Excess (fee_AdvanceTime s (fc_Target c) 1) = 0 →
  is_u64 (Z.of_nat m) → total_cost s c m = fc_MinPrice c * Z.of_nat m.
Proof.
  intros Hs Hb Hz Hm. destruct m as [|m]; [unfold total_cost; simpl; lia|].
  rewrite total_cost_S by done. pose proof (fee_AdvanceTime_ok s 1 Hs ltac:(done)).
  destruct Hm. rewrite price_of_zero, total_cost_zero by (done || split; lia). lia.
Qed.

(** At the target the price never moves. *)
Lemma total_cost_constant s (m : nat) :
  fee_ok s → fs_Current s = fc_Target c → is_u64 (Z.of_nat m) →
  total_cost s c m = price_of s c * Z.of_nat m.
Proof.
  intros Hs Heq [_ Hm]. unfold total_cost. induction m as [|m IH]; [by rewrite Z.mul_0_r|].
  rewrite seq_S, List.map_app, lsum_app. rewrite IH by lia. cbn [map lsum foldr Nat.add].
  replace (price_at s c (S m)) with (price_of s c); [lia|]. unfold price_at, fee_AdvanceTime.
  rewrite Heq, Z.ltb_irrefl. unfold price_of. by rewrite <- Heq.
Qed.

Lemma seconds_loop_spec maxSeconds n s funds :
  fee_ok s → fs_Current s ≠ fc_Target c → 0 < fc_MinPrice c → is_u64 maxSeconds → is_u64 funds →
  Z.of_nat n ≤ maxSeconds →
  ∃ k, seconds_loop c maxSeconds n s funds = Some (maxSeconds - Z.of_nat n + k) ∧
    affordable s (Z.of_nat n) funds k.
Proof.
  intros Hs Hne Hp Hmax Hf Hn. revert s funds Hs Hne Hf.
  induction n as [|n IH]; intros s funds Hs Hne [Hf0 Hf1].
  { exists 0. split; [cbn [seconds_loop]; f_equal; lia|]. split; [done|]. split; [done|lia]. }
  destruct Hmax as [? Hmax]. assert (is_u64 (Z.of_nat (S n))) as HSn by (split; lia).
  cbn [seconds_loop]. rewrite wrap64_id by (split; lia).
  pose proof (fee_AdvanceTime_ok s 1 Hs ltac:(done)) as Hs'.
  pose proof (total_cost_from_zero s) as Hlin. pose proof (zero_excess_below s Hs Hne) as Hbelow.
  pose proof (affordable_S s (Z.of_nat (S n)) funds) as Hnext.
  pose proof (affordable_none s (Z.of_nat (S n)) funds Hs HSn ltac:(lia) Hf0) as Hnone.
  assert (fs_Current (fee_AdvanceTime s (fc_Target c) 1) = fs_Current s) as Hcur by done.
  set (s' := fee_AdvanceTime s (fc_Target c) 1) in *. clearbody s'.
  destruct (Z.eqb_spec (fs_Excess s') 0) as [Hz|Hz].
  - exists ((funds `div` fc_MinPrice c) `min` Z.of_nat (S n)). split.
    + unfold go_div. destruct (Z.eqb_spec (fc_MinPrice c) 0); [lia|]. cbn [mbind option_bind].
      assert (0 ≤ funds `div` fc_MinPrice c ≤ funds).
      { split; [apply Z.div_pos; lia|]. apply Z.div_le_upper_bound; nia. }
      rewrite safe_Add64 by (split; lia). zcases; f_equal; lia.
    + apply affordable_linear; try lia. intros m Hm. apply Hlin; auto. split; lia.
  - destruct (Z.ltb_spec funds (price_of s' c)).
    + exists 0. split; [f_equal; lia|auto].
    + pose proof (price_of_u64 s' Hs') as [??]. rewrite wrap64_id by (split; lia).
      destruct (IH ltac:(lia) s' (funds - price_of s' c)) as (k & -> & Hk);
        [done|congruence|split; lia|].
      exists (k + 1). split; [f_equal; lia|]. apply Hnext; try done; [by destruct Hk; lia|].
      by replace (Z.of_nat (S n) - 1) with (Z.of_nat n) by lia.
Qed.

(** ** Theorems *)

(** [CostOf] is the sum of the prices of the next seconds, capped at the
    largest [uint64]: its constant-price and zero-excess shortcuts and its early
    exits do not change the amount. *)
Theorem CostOf_correct s seconds :
  fee_ok s → is_u64 seconds →
  CostOf s c seconds = total_cost s c (Z.to_nat seconds) `min` MaxUint64.
Proof.
  intros Hs Hsec. unfold CostOf. pose proof Hsec as [? ?].
  destruct (Z.eqb_spec (fs_Current s) (fc_Target c)).
  - rewrite total_cost_constant by (done || split; lia). rewrite Z2Nat.id by done.
    rewrite safe_Mul64 by (done || by apply price_of_u64). zcases.
  - rewrite cost_loop_spec by (done || lia). f_equal; lia.
Qed.

(** [SecondsRemaining] never panics and returns the largest number of
    seconds, up to [maxSeconds], whose total cost the funds cover. *)
Theorem SecondsRemaining_correct s maxSeconds funds :
  fee_ok s → 0 < fc_MinPrice c → is_u64 maxSeconds → is_u64 funds →
  ∃ n, SecondsRemaining s c maxSeconds funds = Some n ∧
    0 ≤ n ≤ maxSeconds ∧ total_cost s c (Z.to_nat n) ≤ funds ∧
    (n < maxSeconds → funds < total_cost s c (S (Z.to_nat n))).
Proof.
  intros Hs Hp Hmax Hf. unfold SecondsRemaining. destruct (Z.eqb_spec (fc_MinPrice c) 0); [lia|].
  pose proof Hmax as [??]. pose proof Hf as [??].
  destruct (Z.eqb_spec (fs_Current s) (fc_Target c)).
  - pose proof (price_of_ge s Hs). unfold go_div. destruct (Z.eqb_spec (price_of s c) 0); [lia|].
    exists ((funds `div` price_of s c) `min` maxSeconds). split; [done|].
    apply affordable_linear; try lia. intros m Hm. apply total_cost_constant; [done..|split; lia].
  - destruct (seconds_loop_spec maxSeconds (Z.to_nat maxSeconds) s funds) as (k & -> & Hk);
      [done..|lia|]. rewrite Z2Nat.id in * by done. exists k. split; [f_equal; lia|done].
Qed.
End Correctness.

Definition demo_fee : FeeConfig := mkFeeConfig 20 10 2 30.
Definition demo_fee_state : FeeState := mkFeeState 15 21.

Lemma CostOf_correct_witness :
  CostOf demo_fee_state demo_fee 4 = total_cost demo_fee_state demo_fee 4 ∧ 0 < CostOf demo_fee_state demo_fee 4.
Proof. rewrite CostOf_correct; [by vm_compute|done..]. Defined.

Lemma SecondsRemaining_correct_witness :
  SecondsRemaining demo_fee_state demo_fee 100 30 = Some 4 ∧ total_cost demo_fee_state demo_fee 4 ≤ 30.
Proof.
  destruct (SecondsRemaining_correct demo_fee ltac:(done) ltac:(done) ltac:(done) demo_fee_state 100 30)
    as (n & Hn & Hr); [done..|].
  assert (Some n = Some 4) as [= ->]; [|split; [done|apply Hr]].
  rewrite <- Hn. vm_compute. reflexivity.
Defined.

(** The panic that remains: with a zero conversion constant the price is zero,
    and a validator set at its target divides by it. *)
Lemma SecondsRemaining_zero_constant :
  SecondsRemaining (mkFeeState 10 0) (mkFeeConfig 20 10 2 0) 100 30 = None.
Proof. vm_compute. reflexivity. Qed.
