(* ===== verification/Reward.v ===== *)
(** * Staking rewards (package [vms/platformvm/reward])

    [calculator.go] and [config.go]: how many tokens a staker earns, and how a
    reward is split between a validator and its delegator.  [math/big] integers
    are integers; [uint64] subtractions and products wrap. *)
From S2P Require Import Prelude SafeMath.

Definition PercentDenominator : Z := 1000000.
Definition consumptionRateDenominator : Z := PercentDenominator.

Record RewardConfig : Type := mkRewardConfig {
  MaxConsumptionRate : Z;
  MinConsumptionRate : Z;
  MintingPeriod : Z;
  SupplyCap : Z;
}.

Record calculator : Type := mkCalculator {
  maxSubMinConsumptionRate : Z;
  minConsumptionRate : Z;
  mintingPeriod : Z;
  supplyCap : Z;
}.

(** [NewCalculator]; [MintingPeriod] is an [int64]. *)
Definition NewCalculator (c : RewardConfig) : calculator :=
  mkCalculator (wrap64 (MaxConsumptionRate c - MinConsumptionRate c)) (MinConsumptionRate c)
    (wrap64 (MintingPeriod c)) (SupplyCap c).

(** [big.Int.Div], which panics on a zero divisor; Euclidean division, as [Z.div]
    for the positive divisors used here. *)
Definition big_Div (a b : Z) : option Z := if b =? 0 then None else Some (a `div` b).

(** [calculator.Calculate]; [None] is a panic. *)
Definition Calculate (c : calculator) (stakedDuration stakedAmount currentSupply : Z) : option Z :=
  let bigStakedDuration := wrap64 stakedDuration in
  let adjustedConsumptionRateNumerator := maxSubMinConsumptionRate c * bigStakedDuration in
  let adjustedMinConsumptionRateNumerator := minConsumptionRate c * mintingPeriod c in
  let adjustedConsumptionRateNumerator :=
    adjustedConsumptionRateNumerator + adjustedMinConsumptionRateNumerator in
  let adjustedConsumptionRateDenominator := mintingPeriod c * consumptionRateDenominator in
  let remainingSupply := wrap64 (supplyCap c - currentSupply) in
  let reward := remainingSupply in
  let reward := reward * adjustedConsumptionRateNumerator in
  let reward := reward * stakedAmount in
  let reward := reward * bigStakedDuration in
  reward ← big_Div reward adjustedConsumptionRateDenominator;
  reward ← big_Div reward currentSupply;
  reward ← big_Div reward (mintingPeriod c);
  if (0 <=? reward) && (reward <=? MaxUint64)
  then Some (remainingSupply `min` reward) else Some remainingSupply.

(** [Split] *)
Definition reward_Split (totalAmount shares : Z) : Z * Z :=
  let remainderShares := wrap64 (PercentDenominator - shares) in
  let remainderAmount := wrap64 (remainderShares * (totalAmount `div` PercentDenominator)) in
  let remainderAmount :=
    match safe_Mul 64 remainderShares totalAmount with
    | Ok optimisticReward => optimisticReward `div` PercentDenominator
    | Err _ => remainderAmount
    end in
  let amountFromShares := wrap64 (totalAmount - remainderAmount) in
  (amountFromShares, remainderAmount).

(** ** The reward formula *)

Section Reward.
Context (c : RewardConfig).
Context (Hrates : 0 ≤ MinConsumptionRate c ≤ MaxConsumptionRate c)
  (Hmax : MaxConsumptionRate c ≤ MaxUint64)
  (Hperiod : 0 < MintingPeriod c < 2 ^ 63) (Hcap : is_u64 (SupplyCap c)).

(** The numerator and the denominator of
    [RemainingSupply * MintingRate * PortionOfExistingSupply * PortionOfStakingDuration],
    the product that the comment of [Calculate] describes. *)
Definition reward_numerator (duration amount supply : Z) : Z :=
  (SupplyCap c - supply) *
  ((MaxConsumptionRate c - MinConsumptionRate c) * duration + MinConsumptionRate c * MintingPeriod c) *
  amount * duration.
Definition reward_denominator (supply : Z) : Z :=
  MintingPeriod c * PercentDenominator * supply * MintingPeriod c.

Lemma Calculate_spec duration amount supply :
  0 ≤ duration < 2 ^ 63 → is_u64 amount → 0 < supply ≤ SupplyCap c →
  Calculate (NewCalculator c) duration amount supply =
    Some ((SupplyCap c - supply) `min`
          (reward_numerator duration amount supply `div` reward_denominator supply)).
Proof.
  intros Hd [Ha0 Ha1] Hs. destruct Hcap as [Hc0 Hc1]. unfold Calculate, NewCalculator, big_Div.
  cbn [maxSubMinConsumptionRate minConsumptionRate mintingPeriod supplyCap].
  rewrite !wrap64_id by (unfold is_u64, MaxUint64; unfold MaxUint64 in *; lia).
  unfold consumptionRateDenominator, PercentDenominator.
  destruct (Z.eqb_spec (MintingPeriod c * 1000000) 0), (Z.eqb_spec supply 0),
    (Z.eqb_spec (MintingPeriod c) 0); try lia. cbn [mbind option_bind].
  rewrite !Z.div_div, Z.mul_assoc by lia. unfold reward_numerator, reward_denominator, PercentDenominator.
  set (r := _ `div` _). assert (0 ≤ r).
  { apply Z.div_pos; [|nia]. repeat apply Z.mul_nonneg_nonneg; nia. }
  destruct (Z.leb_spec 0 r), (Z.leb_spec r MaxUint64); simpl; try lia; f_equal; lia.
Qed.

Lemma Calculate_panics duration amount supply : Calculate (NewCalculator c) duration amount supply = None ↔ supply = 0.
Proof.
  unfold Calculate, NewCalculator, big_Div, consumptionRateDenominator, PercentDenominator. cbn [mintingPeriod].
  rewrite (wrap64_id (MintingPeriod c)) by (unfold is_u64, MaxUint64; lia).
  destruct (Z.eqb_spec (MintingPeriod c * 1000000) 0), (Z.eqb_spec supply 0), (Z.eqb_spec (MintingPeriod c) 0); cbn [mbind option_bind]; try lia; split; try done.
  by destruct (_ && _).
Qed.

Lemma reward_denominator_pos supply : 0 < supply → 0 < reward_denominator supply.
Proof. intros. unfold reward_denominator, PercentDenominator. nia. Qed.

(** A longer stake of more tokens earns at least as much. *)
Lemma reward_numerator_mono d1 d2 a1 a2 supply :
  0 ≤ d1 ≤ d2 → 0 ≤ a1 ≤ a2 → supply ≤ SupplyCap c →
  reward_numerator d1 a1 supply ≤ reward_numerator d2 a2 supply.
Proof.
  intros Hd Ha Hs. unfold reward_numerator. apply Z.mul_le_mono_nonneg; [|..|lia].
  1, 3: repeat apply Z.mul_nonneg_nonneg; nia.
  apply Z.mul_le_mono_nonneg; [|..|lia]; [repeat apply Z.mul_nonneg_nonneg; nia| |lia].
  apply Z.mul_le_mono_nonneg_l; nia.
Qed.

(** C39: With a positive minting period of less than 2^63 and rates in order, [Calculate]
    panics exactly when the current supply is zero.  For a supply above zero and at most
    the cap it returns the documented product rounded down once (its three divisions and
    its overflow check change nothing), at most what is left below the supply cap, and a
    longer or larger stake never earns less.  (Above the cap the remaining supply wraps,
    and nothing but the absence of a panic is claimed.) *)
Theorem Calculate_correct d1 d2 a1 a2 supply :
  0 ≤ d1 ≤ d2 → d2 < 2 ^ 63 → 0 ≤ a1 ≤ a2 → a2 ≤ MaxUint64 → 0 < supply ≤ SupplyCap c →
  ∃ r1 r2, Calculate (NewCalculator c) d1 a1 supply = Some r1 ∧
    Calculate (NewCalculator c) d2 a2 supply = Some r2 ∧
    r1 = (SupplyCap c - supply) `min` (reward_numerator d1 a1 supply `div` reward_denominator supply) ∧
    0 ≤ r1 ≤ r2 ∧ supply + r2 ≤ SupplyCap c ∧
    ∀ s, Calculate (NewCalculator c) d1 a1 s = None ↔ s = 0.
Proof.
  intros Hd Hd2 Ha Ha2 Hs. pose proof (Calculate_panics d1 a1) as Hpanic. rewrite !Calculate_spec by (done || split; lia || lia).
  eexists _, _. split; [done|]. split; [done|]. split; [done|].
  pose proof (reward_denominator_pos supply ltac:(lia)).
  pose proof (reward_numerator_mono d1 d2 a1 a2 supply Hd Ha ltac:(lia)).
  assert (0 ≤ reward_numerator d1 a1 supply) by (unfold reward_numerator; repeat apply Z.mul_nonneg_nonneg; nia).
  assert (0 ≤ reward_numerator d1 a1 supply `div` reward_denominator supply) by (apply Z.div_pos; lia).
  assert (reward_numerator d1 a1 supply `div` reward_denominator supply ≤
    reward_numerator d2 a2 supply `div` reward_denominator supply) by (apply Z.div_le_mono; lia).
  split; [lia|]. split; [lia|done].
Qed.

(** With a rate of at most 100%, a stake that is part of the supply and lasts
    at most the minting period, the cap at the remaining supply is never the
    reason for a reward: the formula alone stays below it. *)
Theorem Calculate_uncapped duration amount supply :
  0 ≤ duration ≤ MintingPeriod c → 0 ≤ amount ≤ supply → 0 < supply ≤ SupplyCap c →
  MaxConsumptionRate c ≤ PercentDenominator →
  Calculate (NewCalculator c) duration amount supply =
    Some (reward_numerator duration amount supply `div` reward_denominator supply) ∧
  reward_numerator duration amount supply `div` reward_denominator supply ≤ SupplyCap c - supply.
Proof.
  intros Hd Ha Hs Hr. assert (is_u64 amount) by (destruct Hcap; split; lia).
  rewrite Calculate_spec by (done || lia).
  assert (reward_numerator duration amount supply `div` reward_denominator supply ≤ SupplyCap c - supply);
    [|split; [f_equal|]; lia].
  apply Z.div_le_upper_bound; [apply reward_denominator_pos; lia|].
  unfold reward_numerator, reward_denominator.
  set (rate := _ * duration + _). assert (0 ≤ rate ≤ PercentDenominator * MintingPeriod c) by nia.
  set (R := SupplyCap c - supply). assert (0 ≤ R) by lia.
  transitivity (R * (PercentDenominator * MintingPeriod c) * supply * MintingPeriod c); [|nia].
  apply Z.mul_le_mono_nonneg; [repeat apply Z.mul_nonneg_nonneg; lia| |lia|lia].
  apply Z.mul_le_mono_nonneg; [apply Z.mul_nonneg_nonneg; lia| |lia|lia].
  apply Z.mul_le_mono_nonneg_l; lia.
Qed.
End Reward.

(** [Split] loses nothing: the two parts add up to the total, neither wraps,
    and the remainder is the exact share rounded down, or below it by less than
    one unit of [PercentDenominator] when the product overflows. *)
Theorem reward_Split_exact totalAmount shares :
  is_u64 totalAmount → 0 ≤ shares ≤ PercentDenominator →
  let '(fromShares, remainder) := reward_Split totalAmount shares in
  fromShares + remainder = totalAmount ∧ 0 ≤ fromShares ∧ 0 ≤ remainder ∧
  let exact := ((PercentDenominator - shares) * totalAmount) `div` PercentDenominator in
  exact - PercentDenominator < remainder ≤ exact ∧
  ((PercentDenominator - shares) * totalAmount ≤ MaxUint64 → remainder = exact).
Proof.
  intros [Ht0 Ht1] Hs. unfold reward_Split.
  assert (is_u64 totalAmount) by done.
  assert (is_u64 (PercentDenominator - shares)) by (unfold is_u64, MaxUint64, PercentDenominator in *; lia).
  rewrite (wrap64_id (PercentDenominator - shares)), safe_Mul64 by done.
  set (k := PercentDenominator - shares) in *. set (q := totalAmount `div` PercentDenominator).
  assert (0 ≤ k ≤ PercentDenominator) by lia.
  assert (0 ≤ q) by (apply Z.div_pos; [lia|done]).
  assert (PercentDenominator * q ≤ totalAmount < PercentDenominator * q + PercentDenominator).
  { unfold q, PercentDenominator. dmlia. }
  assert (k * q ≤ (k * totalAmount) `div` PercentDenominator).
  { apply Z.div_le_lower_bound; [done|]. unfold PercentDenominator in *. nia. }
  assert ((k * totalAmount) `div` PercentDenominator - PercentDenominator < k * q).
  { cut ((k * totalAmount) `div` PercentDenominator < k * q + PercentDenominator); [lia|].
    apply Z.div_lt_upper_bound; [done|]. unfold PercentDenominator in *. nia. }
  assert ((k * totalAmount) `div` PercentDenominator ≤ totalAmount).
  { apply Z.div_le_upper_bound; [done|]. nia. }
  destruct (Z.leb_spec (k * totalAmount) MaxUint64).
  - rewrite wrap64_id by (split; nia). repeat split; try lia; try nia; unfold PercentDenominator; lia.
  - rewrite (wrap64_id (k * q)) by (split; nia). rewrite wrap64_id by (split; nia).
    repeat split; try lia; nia.
Qed.

(** The configuration of the primary network: 12% to 10% over a year, 720M AVAX. *)
Definition mainnet_rewards : RewardConfig :=
  mkRewardConfig 120000 100000 (365 * 24 * 3600 * 10 ^ 9) (720 * 10 ^ 15).

Lemma Calculate_correct_witness :
  ∃ r, Calculate (NewCalculator mainnet_rewards) (14 * 24 * 3600 * 10 ^ 9) (2 * 10 ^ 12) (360 * 10 ^ 15)
    = Some r ∧ 0 ≤ r.
Proof.
  destruct (Calculate_correct mainnet_rewards) with (d1 := 14 * 24 * 3600 * 10 ^ 9)
    (d2 := 14 * 24 * 3600 * 10 ^ 9) (a1 := 2 * 10 ^ 12) (a2 := 2 * 10 ^ 12) (supply := 360 * 10 ^ 15)
    as (r & ? & -> & _ & _ & ? & _); try by vm_compute. exists r. split; [done|lia].
Defined.

Lemma Calculate_uncapped_witness :
  is_Some (Calculate (NewCalculator mainnet_rewards) (14 * 24 * 3600 * 10 ^ 9) (2 * 10 ^ 12) (360 * 10 ^ 15)).
Proof.
  destruct (Calculate_uncapped mainnet_rewards) with (duration := 14 * 24 * 3600 * 10 ^ 9)
    (amount := 2 * 10 ^ 12) (supply := 360 * 10 ^ 15) as [-> _]; try by vm_compute. by eexists.
Defined.

Lemma reward_Split_exact_witness :
  reward_Split 1000001 20000 = (20001, 980000) ∧
  let '(fromShares, remainder) := reward_Split 1000001 20000 in fromShares + remainder = 1000001.
Proof.
  split; [by vm_compute|]. pose proof (reward_Split_exact 1000001 20000 ltac:(done) ltac:(done)) as Hs.
  destruct (reward_Split 1000001 20000). apply Hs.
Defined.
