(* ===== verification/Database.v ===== *)
(** * Key-value databases (package [database])

    [database.go], [batch.go], [iterator.go] and [helpers.go].  The interface
    [Database] is a class whose operations pass the state of the database; its
    documented contract is the class [DatabaseLaws]: a database is open with some
    contents or closed, iterators list the contents at their creation in key
    order, and a batch applies its operations in order when it is written.
    Implementations ([MemDB], [VersionDB], [PrefixDB]) discharge the laws, clients
    are proved against them.  A nil slice is the empty one. *)
From stdpp Require Import sorting.
From S2P Require Import Prelude Bytes.

(** ** Data *)

Inductive db_error : Type :=
| ErrClosed
| ErrNotFound
| errWrongSize
| errBadBool.

Record BatchOp : Type := mkBatchOp {
  op_Key : bytes;
  op_Value : bytes;
  op_Delete : bool;
}.

Record BatchOps : Type := mkBatchOps {
  Ops : list BatchOp;
  ops_size : Z;
}.

Abbreviation kvmap := (gmap bytes bytes).

(** [KeyValueWriterDeleter] *)
Record KeyValueWriterDeleter (W : Type) : Type := mkWriter {
  w_Put : W → bytes → bytes → W * option db_error;
  w_Delete : W → bytes → W * option db_error;
}.
Arguments mkWriter {W} _ _.
Arguments w_Put {W} _ _ _ _.
Arguments w_Delete {W} _ _ _.

(** ** The interface

    [it_Next] and the like take the database the iterator belongs to, as the
    iterators ask it whether it is closed.  [HealthCheck] is a query like [Has]. *)
Class Database (DB It Ba : Type) : Type := {
  db_Has : DB → bytes → result bool db_error;
  db_Get : DB → bytes → result bytes db_error;
  db_Put : DB → bytes → bytes → DB * option db_error;
  db_Delete : DB → bytes → DB * option db_error;
  db_NewBatch : DB → Ba;
  db_NewIteratorWithStartAndPrefix : DB → bytes → bytes → It;
  db_Compact : DB → option bytes → option bytes → DB * option db_error;
  db_Close : DB → DB * option db_error;
  db_HealthCheck : DB → option db_error;
  it_Next : DB → It → It * bool;
  it_Error : It → option db_error;
  it_Key : It → bytes;
  it_Value : It → bytes;
  it_Release : It → It;
  ba_Put : Ba → bytes → bytes → Ba * option db_error;
  ba_Delete : Ba → bytes → Ba * option db_error;
  ba_Size : Ba → Z;
  ba_Write : DB → Ba → DB * option db_error;
  ba_Reset : Ba → Ba;
}.

Section Interface.
Context `{D : Database DB It Ba}.

(** [NewIterator], [NewIteratorWithStart] and [NewIteratorWithPrefix], the same
    three lines in every implementation. *)
Definition NewIterator (db : DB) : It := db_NewIteratorWithStartAndPrefix db [] [].
Definition NewIteratorWithStart (db : DB) (start : bytes) : It := db_NewIteratorWithStartAndPrefix db start [].
Definition NewIteratorWithPrefix (db : DB) (prefix : bytes) : It := db_NewIteratorWithStartAndPrefix db [] prefix.

Definition db_writer : KeyValueWriterDeleter DB := mkWriter db_Put db_Delete.
Definition ba_writer : KeyValueWriterDeleter Ba := mkWriter ba_Put ba_Delete.
End Interface.

(** ** Batches ([BatchOps]) *)

Definition ops_Put (b : BatchOps) (key value : bytes) : BatchOps * option db_error :=
  (mkBatchOps (Ops b ++ [mkBatchOp key value false])
     (ops_size b + (Z.of_nat (length key) + Z.of_nat (length value))), None).

Definition ops_Delete (b : BatchOps) (key : bytes) : BatchOps * option db_error :=
  (mkBatchOps (Ops b ++ [mkBatchOp key [] true]) (ops_size b + Z.of_nat (length key)), None).

Definition ops_Size (b : BatchOps) : Z := ops_size b.

Definition ops_Reset (b : BatchOps) : BatchOps := mkBatchOps [] 0.

Fixpoint replay_ops {W} (w : KeyValueWriterDeleter W) (ops : list BatchOp) (s : W) : W * option db_error :=
  match ops with
  | [] => (s, None)
  | op :: ops =>
      let '(s, err) := if op_Delete op then w_Delete w s (op_Key op) else w_Put w s (op_Key op) (op_Value op) in
      match err with Some e => (s, Some e) | None => replay_ops w ops s end
  end.

Definition ops_Replay {W} (b : BatchOps) (w : KeyValueWriterDeleter W) (s : W) : W * option db_error :=
  replay_ops w (Ops b) s.

(** ** Helpers ([helpers.go]) *)

Definition Uint64Size : Z := 8.
Definition BoolSize : Z := 1.
Definition BoolFalse : Z := 0.
Definition BoolTrue : Z := 1.
Definition kvPairOverhead : Z := 8.

Definition PackUInt64 (val : Z) : bytes := put_uint 8 val.

Definition ParseUInt64 (b : bytes) : result Z db_error :=
  if Z.of_nat (length b) =? Uint64Size then Ok (get_uint b) else Err errWrongSize.

Definition PackUInt32 (val : Z) : bytes := put_uint 4 val.

Definition ParseUInt32 (b : bytes) : result Z db_error :=
  if Z.of_nat (length b) =? 4 then Ok (get_uint b) else Err errWrongSize.

Section Helpers.
Context `{D : Database DB It Ba}.
Local Open Scope go_scope.

Definition PutUInt64 {W} (w : KeyValueWriterDeleter W) (s : W) (key : bytes) (val : Z) : W * option db_error :=
  w_Put w s key (PackUInt64 val).

Definition GetUInt64 (db : DB) (key : bytes) : result Z db_error :=
  let! b := db_Get db key in ParseUInt64 b.

Definition PutUInt32 {W} (w : KeyValueWriterDeleter W) (s : W) (key : bytes) (val : Z) : W * option db_error :=
  w_Put w s key (PackUInt32 val).

Definition GetUInt32 (db : DB) (key : bytes) : result Z db_error :=
  let! b := db_Get db key in ParseUInt32 b.

Definition PutBool {W} (w : KeyValueWriterDeleter W) (s : W) (key : bytes) (b : bool) : W * option db_error :=
  if b then w_Put w s key [BoolTrue] else w_Put w s key [BoolFalse].

Definition GetBool (db : DB) (key : bytes) : result bool db_error :=
  let! b := db_Get db key in
  match b with
  | [b0] => if negb (b0 =? BoolFalse) && negb (b0 =? BoolTrue) then Err errBadBool else Ok (b0 =? BoolTrue)
  | _ => Err errBadBool
  end.

(** [WithDefault] *)
Definition WithDefault {V} (get : DB → bytes → result V db_error) (db : DB) (key : bytes) (def : V) : result V db_error :=
  match get db key with Err ErrNotFound => Ok def | r => r end.

(** A loop [for iterator.Next() { ... }] that only reads: the pairs it sees and
    the iterator at the end.  [None] is the end of the fuel. *)
Fixpoint drain (fuel : nat) (db : DB) (it : It) : option (list (bytes * bytes) * It) :=
  match fuel with
  | O => None
  | S fuel =>
      let '(it, more) := it_Next db it in
      if (more : bool) then
        '(l, it') ← drain fuel db it; Some ((it_Key it, it_Value it) :: l, it')
      else Some ([], it)
  end.

(** [Count] and [Size] *)
Definition Count (fuel : nat) (db : DB) : option (Z * option db_error) :=
  '(l, it) ← drain fuel db (NewIterator db); Some (Z.of_nat (length l), it_Error it).

Definition Size (fuel : nat) (db : DB) : option (Z * option db_error) :=
  '(l, it) ← drain fuel db (NewIterator db);
  Some (lsum (map (λ '(k, v), Z.of_nat (length k) + Z.of_nat (length v) + kvPairOverhead) l), it_Error it).

(** The loop of [AtomicClearPrefix] *)
Fixpoint atomic_clear_loop {W} (w : KeyValueWriterDeleter W) (fuel : nat) (db : DB) (it : It) (deleterDB : W)
    : option (W * option db_error) :=
  match fuel with
  | O => None
  | S fuel =>
      let '(it, more) := it_Next db it in
      if (more : bool) then
        let '(deleterDB, err) := w_Delete w deleterDB (it_Key it) in
        match err with Some e => Some (deleterDB, Some e) | None => atomic_clear_loop w fuel db it deleterDB end
      else Some (deleterDB, it_Error it)
  end.

(** [AtomicClearPrefix] and [AtomicClear], with a deleter other than the reader. *)
Definition AtomicClearPrefix {W} (w : KeyValueWriterDeleter W) (fuel : nat) (readerDB : DB) (deleterDB : W) (prefix : bytes)
    : option (W * option db_error) :=
  atomic_clear_loop w fuel readerDB (NewIteratorWithPrefix readerDB prefix) deleterDB.
Definition AtomicClear {W} (w : KeyValueWriterDeleter W) (fuel : nat) (readerDB : DB) (deleterDB : W)
    : option (W * option db_error) := AtomicClearPrefix w fuel readerDB deleterDB [].

(** The loop of [ClearPrefix] *)
Fixpoint clear_loop (fuel : nat) (prefix : bytes) (writeSize : Z) (db : DB) (b : Ba) (it : It) : option (DB * option db_error) :=
  match fuel with
  | O => None
  | S fuel =>
      let '(it, more) := it_Next db it in
      if (more : bool) then
        let '(b, err) := ba_Delete b (it_Key it) in
        match err with
        | Some e => Some (db, Some e)
        | None =>
            if ba_Size b <? writeSize then clear_loop fuel prefix writeSize db b it
            else
              let '(db, err) := ba_Write db b in
              match err with
              | Some e => Some (db, Some e)
              | None =>
                  let b := ba_Reset b in
                  match it_Error it with
                  | Some e => Some (db, Some e)
                  | None => clear_loop fuel prefix writeSize db b (NewIteratorWithPrefix db prefix)
                  end
              end
        end
      else
        let '(db, err) := ba_Write db b in
        match err with Some e => Some (db, Some e) | None => Some (db, it_Error it) end
  end.

(** [ClearPrefix] and [Clear] *)
Definition ClearPrefix (fuel : nat) (db : DB) (prefix : bytes) (writeSize : Z) : option (DB * option db_error) :=
  clear_loop fuel prefix writeSize db (db_NewBatch db) (NewIteratorWithPrefix db prefix).
Definition Clear (fuel : nat) (db : DB) (writeSize : Z) : option (DB * option db_error) :=
  ClearPrefix fuel db [] writeSize.
End Helpers.

(** The keys of a map that an iterator ranges over, sorted: the first lines of
    [NewIteratorWithStartAndPrefix]. *)
Definition sorted_keys {V : Type} `{!MapRange bytes} (m : gmap bytes V) (start prefix : bytes) : list bytes :=
  merge_sort ble (filter (λ key, HasPrefix key prefix = true ∧ ble start key) (map_range m).*1).

(** ** The contract *)

(** [l] lists the entries of [m] from [start] on whose keys have the prefix. *)
Record listing {V : Type} (m : gmap bytes V) (start prefix : bytes) (l : list (bytes * V)) : Prop := {
  listing_sorted : StronglySorted blt l.*1;
  listing_elem : ∀ k v, (k, v) ∈ l ↔ m !! k = Some v ∧ HasPrefix k prefix = true ∧ ble start k;
}.

Definition apply_op (m : kvmap) (op : BatchOp) : kvmap :=
  if op_Delete op then delete (op_Key op) m else <[op_Key op := op_Value op]> m.
Definition apply_ops (ops : list BatchOp) (m : kvmap) : kvmap := foldl apply_op m ops.

Definition closed_error (c : option kvmap) : option db_error :=
  match c with None => Some ErrClosed | Some _ => None end.

(** [contents] is [None] for a closed database; [it_rest] are the pairs an
    iterator has still to return, [pending] the operations of a batch. *)
Class DatabaseLaws {DB It Ba} (D : Database DB It Ba) : Type := {
  db_inv : DB → Prop;
  contents : DB → option kvmap;
  it_inv : It → Prop;
  it_rest : It → list (bytes * bytes);
  ba_inv : Ba → Prop;
  pending : Ba → list BatchOp;

  Has_law db k : db_inv db →
    db_Has db k = match contents db with None => Err ErrClosed | Some m => Ok (bool_decide (is_Some (m !! k))) end;
  Get_law db k : db_inv db →
    db_Get db k = match contents db with
                  | None => Err ErrClosed
                  | Some m => match m !! k with Some v => Ok v | None => Err ErrNotFound end
                  end;
  Put_law db k v : db_inv db →
    db_inv (db_Put db k v).1 ∧ contents (db_Put db k v).1 = <[k := v]> <$> contents db ∧
    (db_Put db k v).2 = closed_error (contents db);
  Delete_law db k : db_inv db →
    db_inv (db_Delete db k).1 ∧ contents (db_Delete db k).1 = delete k <$> contents db ∧
    (db_Delete db k).2 = closed_error (contents db);
  Compact_law db start limit : db_inv db →
    db_inv (db_Compact db start limit).1 ∧ contents (db_Compact db start limit).1 = contents db ∧
    (db_Compact db start limit).2 = closed_error (contents db);
  Close_law db : db_inv db →
    db_inv (db_Close db).1 ∧ contents (db_Close db).1 = None ∧ (db_Close db).2 = closed_error (contents db);
  HealthCheck_law db : db_inv db → db_HealthCheck db = closed_error (contents db);

  NewIterator_law db start prefix : db_inv db →
    it_inv (db_NewIteratorWithStartAndPrefix db start prefix) ∧
    it_Error (db_NewIteratorWithStartAndPrefix db start prefix) = closed_error (contents db) ∧
    ∀ m, contents db = Some m → listing m start prefix (it_rest (db_NewIteratorWithStartAndPrefix db start prefix));
  Next_law db it m : db_inv db → contents db = Some m → it_inv it → it_Error it = None →
    let '(it', more) := it_Next db it in
    it_inv it' ∧ it_Error it' = None ∧ it_rest it' = tail (it_rest it) ∧
    more = bool_decide (it_rest it ≠ []) ∧
    (it_Key it', it_Value it') = hd ([], []) (it_rest it);
  Next_closed_law db it : db_inv db → contents db = None → it_inv it →
    let '(it', more) := it_Next db it in
    it_inv it' ∧ it_Error it' = Some ErrClosed ∧ more = false ∧ it_Key it' = [] ∧ it_Value it' = [];

  NewBatch_law db : db_inv db → ba_inv (db_NewBatch db) ∧ pending (db_NewBatch db) = [];
  ba_Put_law b k v : ba_inv b →
    ba_inv (ba_Put b k v).1 ∧ pending (ba_Put b k v).1 = pending b ++ [mkBatchOp k v false] ∧ (ba_Put b k v).2 = None;
  ba_Delete_law b k : ba_inv b →
    ba_inv (ba_Delete b k).1 ∧ pending (ba_Delete b k).1 = pending b ++ [mkBatchOp k [] true] ∧ (ba_Delete b k).2 = None;
  ba_Reset_law b : ba_inv b → ba_inv (ba_Reset b) ∧ pending (ba_Reset b) = [];
  ba_Write_law db b : db_inv db → ba_inv b →
    db_inv (ba_Write db b).1 ∧ contents (ba_Write db b).1 = apply_ops (pending b) <$> contents db ∧
    (ba_Write db b).2 = closed_error (contents db);
}.

(** *** Listings *)

Section Listing.
Context {V : Type}.
Implicit Types (m : gmap bytes V) (l : list (bytes * V)).

Lemma sorted_NoDup (l : list bytes) : StronglySorted blt l → NoDup l.
Proof.
  induction 1 as [|x l Hs IH Hx]; constructor; [|done]. intros Hin. rewrite Forall_forall in Hx.
  destruct (irreflexivity blt x). by apply Hx.
Qed.

Lemma listing_keys m start prefix l k :
  listing m start prefix l → k ∈ l.*1 ↔ is_Some (m !! k) ∧ HasPrefix k prefix = true ∧ ble start k.
Proof.
  intros Hl. rewrite list_elem_of_fmap. split.
  - intros ([k' v] & -> & (Hm & Hr)%(listing_elem _ _ _ _ Hl)). simpl. by rewrite Hm.
  - intros [[v Hm] Hr]. exists (k, v). split; [done|]. by apply (listing_elem _ _ _ _ Hl).
Qed.

Lemma listing_unique m start prefix l1 l2 : listing m start prefix l1 → listing m start prefix l2 → l1 = l2.
Proof.
  intros H1 H2. assert (l1.*1 = l2.*1) as Hk.
  { apply sorted_unique; [apply H1|apply H2|]. intros k. by rewrite (listing_keys _ _ _ _ _ H1), (listing_keys _ _ _ _ _ H2). }
  assert (∀ l, listing m start prefix l → Forall (λ x, m !! x.1 = Some x.2) l) as Hv.
  { intros l Hl. apply Forall_forall. intros [k v] Hin. by apply (listing_elem _ _ _ _ Hl) in Hin as [? _]. }
  pose proof (Hv _ H1) as V1. pose proof (Hv _ H2) as V2. clear H1 H2 Hv. revert l2 Hk V2.
  induction V1 as [|[k v] l1 Hv V1 IH]; intros [|[k' v'] l2]; simpl; try done. intros [= -> Hk] [Hv' V2]%Forall_cons.
  simpl in *. rewrite Hv in Hv'. injection Hv' as ->. f_equal. by apply IH.
Qed.

(** A sorted list of the entries of a map is the listing of its first key on. *)
Lemma listing_intro m start prefix (keys : list bytes) (value : bytes → V) :
  StronglySorted blt keys →
  (∀ k, k ∈ keys ↔ is_Some (m !! k) ∧ HasPrefix k prefix = true ∧ ble start k) →
  (∀ k v, m !! k = Some v → value k = v) →
  listing m start prefix (zip keys (map value keys)).
Proof.
  intros Hs Hk Hv. assert (zip keys (map value keys) = (λ k, (k, value k)) <$> keys) as ->.
  { clear Hs Hk. induction keys as [|k keys IH]; simpl; [done|by rewrite IH]. }
  split.
  - rewrite <- list_fmap_compose. by rewrite list_fmap_id.
  - intros k v. rewrite list_elem_of_fmap. split.
    + intros (k' & [= -> ->] & ([v' Hm] & Hr)%Hk). by rewrite (Hv _ _ Hm).
    + intros [Hm Hr]. exists k. rewrite (Hv _ _ Hm). split; [done|]. apply Hk. by rewrite Hm.
Qed.

Lemma sorted_keys_spec `{!MapRange bytes} m start prefix :
  StronglySorted blt (sorted_keys m start prefix) ∧
  ∀ k, k ∈ sorted_keys m start prefix ↔ is_Some (m !! k) ∧ HasPrefix k prefix = true ∧ ble start k.
Proof.
  unfold sorted_keys. set (ks := filter _ _). assert (NoDup ks) as Hnd.
  { apply NoDup_filter, NoDup_map_range_keys. }
  split.
  - pose proof (StronglySorted_merge_sort ble ks) as Hs. pose proof (merge_sort_Permutation ble ks) as Hp.
    rewrite <- Hp in Hnd. clear Hp. induction Hs as [|x l Hs IH Hx]; constructor.
    + apply IH. by apply NoDup_cons in Hnd as [_ ?].
    + apply NoDup_cons in Hnd as [Hnot _]. rewrite Forall_forall in Hx |- *. intros y Hy.
      destruct (proj1 (ble_cases x y) (Hx y Hy)) as [?| ->]; done.
  - intros k. rewrite merge_sort_Permutation. unfold ks. rewrite list_elem_of_filter, list_elem_of_fmap. split.
    + intros [Hr ([k' v] & -> & Hm%elem_of_map_range)]. simpl in *. by rewrite Hm.
    + intros [[v Hm] Hr]. split; [done|]. exists (k, v). split; [done|]. by apply elem_of_map_range.
Qed.

Lemma listing_nil m start prefix : listing m start prefix [] ↔ ∀ k v, m !! k = Some v → ¬ (HasPrefix k prefix = true ∧ ble start k).
Proof.
  split.
  - intros Hl k v Hm Hr. assert ((k, v) ∈ ([] : list (bytes * V))) as Hin by by apply (listing_elem _ _ _ _ Hl). by apply elem_of_nil in Hin.
  - intros H. split; [constructor|]. intros k v. split; [by intros Hin%elem_of_nil|]. intros [Hm Hr]. by destruct (H k v Hm).
Qed.
End Listing.

Definition op_deletes (keys : list bytes) : list BatchOp := map (λ k, mkBatchOp k [] true) keys.

Lemma apply_deletes keys m k :
  apply_ops (op_deletes keys) m !! k = if decide (k ∈ keys) then None else m !! k.
Proof.
  unfold apply_ops. revert m. induction keys as [|x keys IH]; intros m; [by rewrite decide_False by apply not_elem_of_nil|].
  cbn [op_deletes map foldl]. rewrite IH. unfold apply_op. cbn [op_Delete op_Key]. destruct (decide (x = k)) as [->|Hne].
  - rewrite lookup_delete_eq, (decide_True (P := k ∈ k :: keys)) by (by left). by case_decide.
  - rewrite lookup_delete_ne by done. apply decide_ext. rewrite elem_of_cons. naive_solver.
Qed.

Lemma apply_ops_app l1 l2 m : apply_ops (l1 ++ l2) m = apply_ops l2 (apply_ops l1 m).
Proof. apply foldl_app. Qed.

Lemma listing_drop {V} (m m' : gmap bytes V) start prefix done rest :
  listing m start prefix (done ++ rest) →
  (∀ k, m' !! k = if decide (k ∈ done.*1) then None else m !! k) →
  listing m' start prefix rest.
Proof.
  intros [Hs He] Hm. rewrite fmap_app in Hs. split.
  - by apply StronglySorted_app_1_r in Hs.
  - intros k v. rewrite Hm. pose proof (sorted_NoDup _ Hs) as (_ & Hd & _)%NoDup_app. case_decide as Hin.
    + split; [|by intros [? _]]. intros Hr. destruct (Hd k Hin). apply list_elem_of_fmap. by exists (k, v).
    + rewrite <- He, elem_of_app. split; [by right|]. intros [Hl|]; [|done]. destruct Hin. apply list_elem_of_fmap. by exists (k, v).
Qed.

(** ** Clients of any database *)

Section Clients.
Context `{D : Database DB It Ba} (L : DatabaseLaws D).
Implicit Types (db : DB) (it : It) (b : Ba) (m : kvmap).

(** An open iterator that has [l] to return. *)
Definition it_at (it : It) (l : list (bytes * bytes)) : Prop := it_inv it ∧ it_Error it = None ∧ it_rest it = l.

Lemma Next_cons db m it k v l :
  db_inv db → contents db = Some m → it_at it ((k, v) :: l) →
  ∃ it', it_Next db it = (it', true) ∧ it_Key it' = k ∧ it_Value it' = v ∧ it_at it' l.
Proof.
  intros Hi Hc (Hit & He & Hr). pose proof (Next_law db it m Hi Hc Hit He) as H. destruct (it_Next db it) as [it' more].
  rewrite Hr in H. simpl in H. destruct H as (? & ? & ? & -> & [= ? ?]). exists it'. done.
Qed.

Lemma Next_nil db m it :
  db_inv db → contents db = Some m → it_at it [] →
  ∃ it', it_Next db it = (it', false) ∧ it_at it' [].
Proof.
  intros Hi Hc (Hit & He & Hr). pose proof (Next_law db it m Hi Hc Hit He) as H. destruct (it_Next db it) as [it' more].
  rewrite Hr in H. simpl in H. destruct H as (? & ? & ? & -> & _). exists it'. done.
Qed.

Lemma db_iterator_at db m start prefix :
  db_inv db → contents db = Some m →
  ∃ l, it_at (db_NewIteratorWithStartAndPrefix db start prefix) l ∧ listing m start prefix l.
Proof.
  intros Hi Hc. destruct (NewIterator_law db start prefix Hi) as (? & He & Hl). rewrite Hc in He. simpl in He.
  eexists. split; [done|by apply Hl].
Qed.

Lemma drain_spec db m it l fuel :
  db_inv db → contents db = Some m → it_at it l → (length l < fuel)%nat →
  ∃ it', drain fuel db it = Some (l, it') ∧ it_at it' [].
Proof.
  intros Hi Hc. revert it fuel. induction l as [|[k v] l IH]; intros it [|fuel] Hat Hf; simpl in *; try lia.
  - destruct (Next_nil db m it Hi Hc Hat) as (it' & -> & Hat'). by exists it'.
  - destruct (Next_cons db m it k v l Hi Hc Hat) as (it1 & -> & -> & -> & Hat1).
    destruct (IH it1 fuel Hat1 ltac:(lia)) as (it' & -> & Hat'). by exists it'.
Qed.

Lemma listing_length {V} (m : gmap bytes V) start prefix l : listing m start prefix l → (length l ≤ size m)%nat.
Proof.
  intros [Hs He]. rewrite <- (length_fmap fst l), <- length_map_to_list, <- (length_fmap fst (map_to_list m)).
  apply submseteq_length, NoDup_submseteq; [by apply sorted_NoDup|]. intros k.
  rewrite !list_elem_of_fmap. intros ([k' v] & -> & [Hm _]%He). exists (k', v). split; [done|]. by apply elem_of_map_to_list.
Qed.

Lemma Count_correct db m fuel :
  db_inv db → contents db = Some m → (size m < fuel)%nat → Count fuel db = Some (Z.of_nat (size m), None).
Proof.
  intros Hi Hc Hf. destruct (db_iterator_at db m [] [] Hi Hc) as (l & Hat & Hl).
  pose proof (listing_length _ _ _ _ Hl) as Hlen. unfold Count, NewIterator.
  destruct (drain_spec db m _ l fuel Hi Hc Hat ltac:(lia)) as (it' & -> & (_ & He & _)). simpl. rewrite He. do 3 f_equal.
  enough (size m ≤ length l)%nat by lia. rewrite <- length_map_to_list. apply submseteq_length, NoDup_submseteq.
  { apply NoDup_map_to_list. }
  intros [k v] Hm%elem_of_map_to_list. apply (listing_elem _ _ _ _ Hl). split; [done|]. split; [done|].
  unfold ble. by destruct k.
Qed.

Lemma clear_loop_correct fuel prefix ws db m b it done rest :
  db_inv db → contents db = Some m → ba_inv b → pending b = op_deletes done.*1 →
  it_at it rest → listing m [] prefix (done ++ rest) → (length rest < fuel)%nat →
  ∃ db', clear_loop fuel prefix ws db b it = Some (db', None) ∧ db_inv db' ∧
    contents db' = Some (filter (λ x, HasPrefix x.1 prefix ≠ true) m).
Proof.
  revert db m b it done rest. induction fuel as [|fuel IH]; intros db m b it done rest Hi Hc Hb Hp Hat Hl Hf; [lia|]. simpl.
  destruct rest as [|[k v] rest]; simpl in Hf.
  - destruct (Next_nil db m it Hi Hc Hat) as (it' & -> & (_ & He & _)).
    destruct (ba_Write_law db b Hi Hb) as (Hi' & Hc' & He'). destruct (ba_Write db b) as [db' e]. simpl in *.
    rewrite He', Hc. simpl. exists db'. rewrite He. split; [done|]. split; [done|]. rewrite Hc', Hc, Hp. simpl. f_equal.
    apply map_eq. intros k. rewrite apply_deletes. rewrite app_nil_r in Hl.
    destruct (m !! k) as [v|] eqn:Hk.
    + case_decide as Hin.
      * apply (listing_keys _ _ _ _ _ Hl) in Hin as (_ & Hpre & _). symmetry. apply map_lookup_filter_None. naive_solver.
      * symmetry. apply map_lookup_filter_Some. split; [done|]. simpl. intros Hpre. destruct Hin.
        apply (listing_keys _ _ _ _ _ Hl). split; [by rewrite Hk|]. split; [done|]. unfold ble. by destruct k.
    + rewrite map_lookup_filter, Hk. by case_decide.
  - destruct (Next_cons db m it k v rest Hi Hc Hat) as (it1 & -> & -> & _ & Hat1).
    destruct (ba_Delete_law b k Hb) as (Hb' & Hp' & He'). destruct (ba_Delete b k) as [b' e]. simpl in *. rewrite He'.
    assert (pending b' = op_deletes (done ++ [(k, v)]).*1) as Hp1.
    { rewrite Hp', Hp. unfold op_deletes. by rewrite fmap_app, map_app. }
    assert (listing m [] prefix ((done ++ [(k, v)]) ++ rest)) as Hl1 by by rewrite <- app_assoc.
    case_match; [apply (IH db m b' it1 _ rest Hi Hc Hb' Hp1 Hat1 Hl1); lia|].
    destruct (ba_Write_law db b' Hi Hb') as (Hi2 & Hc2 & He2). destruct (ba_Write db b') as [db2 e2]. simpl in *.
    rewrite He2, Hc. simpl. destruct Hat1 as (Hii & -> & Hrest). destruct (ba_Reset_law b' Hb') as [Hb3 Hp3].
    rewrite Hc, Hp1 in Hc2. simpl in Hc2.
    assert (∀ x, apply_ops (op_deletes (done ++ [(k, v)]).*1) m !! x = if decide (x ∈ (done ++ [(k, v)]).*1) then None else m !! x) as Hm'
      by (intros; apply apply_deletes).
    pose proof (listing_drop _ _ _ _ _ _ Hl1 Hm') as Hl2.
    destruct (db_iterator_at db2 _ [] prefix Hi2 Hc2) as (l & Hat2 & Hl3). rewrite (listing_unique _ _ _ _ _ Hl3 Hl2) in Hat2.
    destruct (IH db2 _ (ba_Reset b') _ [] rest Hi2 Hc2 Hb3 Hp3 Hat2 Hl2 ltac:(lia)) as (db' & Heq & Hi' & Hc'). exists db'.
    unfold NewIteratorWithPrefix. rewrite Heq. split; [done|]. split; [done|]. rewrite Hc'. f_equal.
    apply map_eq. intros x. rewrite !map_lookup_filter, Hm'. case_decide as Hin; [|done]. simpl.
    destruct (m !! x) as [w|] eqn:Hx; [|done]. simpl. case_guard as Hg; [|done]. destruct Hg. simpl.
    apply list_elem_of_fmap in Hin as ([x' w'] & -> & Hin). apply (listing_elem _ _ _ _ Hl1 x' w'). apply elem_of_app. by left.
Qed.

(** Clearing a prefix, in batches of any size, removes exactly the keys with the
    prefix. *)
Lemma ClearPrefix_spec db m fuel prefix ws :
  db_inv db → contents db = Some m → (size m < fuel)%nat →
  ∃ db', ClearPrefix fuel db prefix ws = Some (db', None) ∧ db_inv db' ∧
    contents db' = Some (filter (λ x, HasPrefix x.1 prefix ≠ true) m).
Proof.
  intros Hi Hc Hf. destruct (db_iterator_at db m [] prefix Hi Hc) as (l & Hat & Hl). destruct (NewBatch_law db Hi) as [Hb Hp].
  pose proof (listing_length _ _ _ _ Hl). apply (clear_loop_correct fuel prefix ws db m _ _ [] l); try done. lia.
Qed.
End Clients.

(** ** Writers

    What code that is given a [KeyValueWriterDeleter] relies on: writes succeed
    and change a map.  An open database is such a writer, and so is a batch, whose
    map is what the database will have when the batch is written. *)
Class WriterLaws {W} (w : KeyValueWriterDeleter W) : Type := {
  w_inv : W → Prop;
  w_map : W → kvmap;
  w_Put_law s k v : w_inv s → w_inv (w_Put w s k v).1 ∧ w_map (w_Put w s k v).1 = <[k := v]> (w_map s) ∧ (w_Put w s k v).2 = None;
  w_Delete_law s k : w_inv s → w_inv (w_Delete w s k).1 ∧ w_map (w_Delete w s k).1 = delete k (w_map s) ∧ (w_Delete w s k).2 = None;
}.

Section WriterInstances.
Context `{D : Database DB It Ba} (L : DatabaseLaws D).

Definition db_writer_laws : WriterLaws db_writer.
Proof.
  refine {| w_inv db := db_inv db ∧ is_Some (contents db); w_map db := default ∅ (contents db) |}; simpl.
  - intros db k v [Hi [m Hc]]. destruct (Put_law db k v Hi) as (? & -> & ->). by rewrite Hc.
  - intros db k [Hi [m Hc]]. destruct (Delete_law db k Hi) as (? & -> & ->). by rewrite Hc.
Defined.

Definition ba_writer_laws (m : kvmap) : WriterLaws ba_writer.
Proof.
  refine {| w_inv b := ba_inv b; w_map b := apply_ops (pending b) m |}; simpl.
  - intros b k v Hb. destruct (ba_Put_law b k v Hb) as (? & -> & ->). by rewrite apply_ops_app.
  - intros b k Hb. destruct (ba_Delete_law b k Hb) as (? & -> & ->). by rewrite apply_ops_app.
Defined.
End WriterInstances.

(** ** Sequences of operations

    Commands on a database with any number of open iterators, run on an
    implementation and on the abstract database: the contents, or [None] when
    closed, and for each iterator the pairs it has still to return.  Iterators are
    snapshots: what they return does not depend on later writes. *)
Inductive db_cmd : Type :=
| CHas (k : bytes)
| CGet (k : bytes)
| CPut (k v : bytes)
| CDelete (k : bytes)
| CBatch (ops : list BatchOp)
| CIterate (start prefix : bytes)
| CNext (i : nat)
| CCompact (start limit : option bytes)
| CHealthCheck
| CClose.

Inductive db_out : Type :=
| OHas (r : result bool db_error)
| OGet (r : result bytes db_error)
| OErr (e : option db_error)
| ONext (more : bool) (k v : bytes) (e : option db_error)
| ONone.

Section Machine.
Context `{D : Database DB It Ba}.

(** A batch with the given operations, written. *)
Definition write_batch (db : DB) (ops : list BatchOp) : DB * option db_error :=
  let '(b, err) := replay_ops ba_writer ops (db_NewBatch db) in
  match err with Some e => (db, Some e) | None => ba_Write db b end.

Definition db_step (s : DB * list It) (c : db_cmd) : (DB * list It) * db_out :=
  let '(db, its) := s in
  match c with
  | CHas k => (s, OHas (db_Has db k))
  | CGet k => (s, OGet (db_Get db k))
  | CPut k v => let '(db, e) := db_Put db k v in ((db, its), OErr e)
  | CDelete k => let '(db, e) := db_Delete db k in ((db, its), OErr e)
  | CBatch ops => let '(db, e) := write_batch db ops in ((db, its), OErr e)
  | CIterate start prefix =>
      let it := db_NewIteratorWithStartAndPrefix db start prefix in ((db, its ++ [it]), OErr (it_Error it))
  | CNext i =>
      match its !! i with
      | None => (s, ONone)
      | Some it =>
          let '(it, more) := it_Next db it in
          ((db, <[i := it]> its), ONext more (it_Key it) (it_Value it) (it_Error it))
      end
  | CCompact start limit => let '(db, e) := db_Compact db start limit in ((db, its), OErr e)
  | CHealthCheck => (s, OErr (db_HealthCheck db))
  | CClose => let '(db, e) := db_Close db in ((db, its), OErr e)
  end.
End Machine.

Definition entries (m : kvmap) (start prefix : bytes) : list (bytes * bytes) :=
  let keys := @sorted_keys _ (canonical_range bytes) m start prefix in
  zip keys (map (λ k, default [] (m !! k)) keys).

Definition spec_state : Type := option kvmap * list (list (bytes * bytes)).

Definition spec_step (s : spec_state) (c : db_cmd) : spec_state * db_out :=
  let '(o, its) := s in
  match c with
  | CHas k => (s, OHas match o with None => Err ErrClosed | Some m => Ok (bool_decide (is_Some (m !! k))) end)
  | CGet k => (s, OGet match o with
                       | None => Err ErrClosed
                       | Some m => match m !! k with Some v => Ok v | None => Err ErrNotFound end
                       end)
  | CPut k v => ((<[k := v]> <$> o, its), OErr (closed_error o))
  | CDelete k => ((delete k <$> o, its), OErr (closed_error o))
  | CBatch ops => ((apply_ops ops <$> o, its), OErr (closed_error o))
  | CIterate start prefix =>
      ((o, its ++ [match o with None => [] | Some m => entries m start prefix end]), OErr (closed_error o))
  | CNext i =>
      match its !! i with
      | None => (s, ONone)
      | Some l =>
          match o with
          | None => ((o, its), ONext false [] [] (Some ErrClosed))
          | Some _ => ((o, <[i := tail l]> its), ONext (bool_decide (l ≠ [])) (hd ([], []) l).1 (hd ([], []) l).2 None)
          end
      end
  | CCompact _ _ => (s, OErr (closed_error o))
  | CHealthCheck => (s, OErr (closed_error o))
  | CClose => ((None, its), OErr (closed_error o))
  end.

Fixpoint run {S C O} (step : S → C → S * O) (s : S) (cs : list C) : S * list O :=
  match cs with
  | [] => (s, [])
  | c :: cs => let '(s, o) := step s c in let '(s, os) := run step s cs in (s, o :: os)
  end.

Lemma entries_listing m start prefix : listing m start prefix (entries m start prefix).
Proof.
  unfold entries. destruct (@sorted_keys_spec _ (canonical_range bytes) m start prefix) as [Hs Hk].
  apply listing_intro; [done|done|]. by intros k v ->.
Qed.

Section Refinement.
Context `{D : Database DB It Ba} (L : DatabaseLaws D).

Record refines (s : DB * list It) (a : spec_state) : Prop := {
  ref_inv : db_inv s.1;
  ref_contents : contents s.1 = a.1;
  ref_its : Forall2 (λ it l, it_inv it ∧ (is_Some a.1 → it_at L it l)) s.2 a.2;
}.

Lemma replay_batch ops b :
  ba_inv b → ∃ b', replay_ops ba_writer ops b = (b', None) ∧ ba_inv b' ∧
    ∀ m, apply_ops (pending b') m = apply_ops ops (apply_ops (pending b) m).
Proof.
  revert b. induction ops as [|[k v [|]] ops IH]; intros b Hb; simpl; [by exists b| |].
  - destruct (ba_Delete_law b k Hb) as (Hb' & Hp & He). destruct (ba_Delete b k) as [b1 e]. simpl in *. subst e.
    destruct (IH b1 Hb') as (b' & -> & Hi & Ha). exists b'. split; [done|]. split; [done|]. intros m. by rewrite Ha, Hp, apply_ops_app.
  - destruct (ba_Put_law b k v Hb) as (Hb' & Hp & He). destruct (ba_Put b k v) as [b1 e]. simpl in *. subst e.
    destruct (IH b1 Hb') as (b' & -> & Hi & Ha). exists b'. split; [done|]. split; [done|]. intros m. by rewrite Ha, Hp, apply_ops_app.
Qed.

Lemma write_batch_law db ops :
  db_inv db →
  db_inv (write_batch db ops).1 ∧ contents (write_batch db ops).1 = apply_ops ops <$> contents db ∧
  (write_batch db ops).2 = closed_error (contents db).
Proof.
  intros Hi. destruct (NewBatch_law db Hi) as [Hb Hp]. unfold write_batch.
  destruct (replay_batch ops _ Hb) as (b' & -> & Hb' & Ha). destruct (ba_Write_law db b' Hi Hb') as (? & Hc & ?).
  split; [done|]. split; [|done]. rewrite Hc. destruct (contents db); simpl; [|done]. by rewrite Ha, Hp.
Qed.

(** The iterators stay related when the contents change, unless it is opened. *)
Lemma refines_update db its a db' o' :
  refines (db, its) a → db_inv db' → contents db' = o' → (is_Some o' → is_Some a.1) → refines (db', its) (o', a.2).
Proof.
  intros [_ _ Hits] Hi Hc Ho. split; [done|done|]. simpl in *. eapply Forall2_impl; [done|]. naive_solver.
Qed.

Lemma refines_step s a c :
  refines s a →
  refines (db_step s c).1 (spec_step a c).1 ∧ (db_step s c).2 = (spec_step a c).2.
Proof.
  intros Hr. destruct s as [db its], a as [o ls]. pose proof Hr as [Hi Hc Hits]. simpl in Hi, Hc, Hits.
  destruct c as [k|k|k v|k|ops|start prefix|i|start limit| |]; simpl.
  - by rewrite (Has_law db k Hi), Hc.
  - by rewrite (Get_law db k Hi), Hc.
  - destruct (Put_law db k v Hi) as (Hi' & Hc' & He). destruct (db_Put db k v) as [db' e]. simpl in *. rewrite He, Hc.
    split; [|done]. apply (refines_update db its (o, ls)); [done|done|by rewrite Hc', Hc|by rewrite fmap_is_Some].
  - destruct (Delete_law db k Hi) as (Hi' & Hc' & He). destruct (db_Delete db k) as [db' e]. simpl in *. rewrite He, Hc.
    split; [|done]. apply (refines_update db its (o, ls)); [done|done|by rewrite Hc', Hc|by rewrite fmap_is_Some].
  - destruct (write_batch_law db ops Hi) as (Hi' & Hc' & He). destruct (write_batch db ops) as [db' e]. simpl in *. rewrite He, Hc.
    split; [|done]. apply (refines_update db its (o, ls)); [done|done|by rewrite Hc', Hc|by rewrite fmap_is_Some].
  - destruct (NewIterator_law db start prefix Hi) as (Hit & He & Hl). rewrite He, Hc. split; [|done].
    split; [done|done|]. simpl. apply Forall2_app; [done|]. constructor; [|done]. split; [done|]. intros [m ->].
    rewrite Hc in He. split; [done|]. split; [done|]. apply (listing_unique m start prefix); [by apply Hl|apply entries_listing].
  - destruct (its !! i) as [it|] eqn:Hi1.
    + destruct (Forall2_lookup_l _ _ _ _ _ Hits Hi1) as (l & Hl & Hit & Hat). rewrite Hl. destruct o as [m|].
      * destruct (Hat ltac:(done)) as (_ & He & Hrest). pose proof (Next_law db it m Hi Hc Hit He) as Hn.
        destruct (it_Next db it) as [it' more]. destruct Hn as (Hit' & He' & Hr' & -> & Hkv). rewrite Hrest in *. simpl.
        rewrite <- Hkv, He'. split; [|done]. split; [done|done|]. simpl. apply Forall2_insert; [done|]. done.
      * pose proof (Next_closed_law db it Hi Hc Hit) as Hn. destruct (it_Next db it) as [it' more].
        destruct Hn as (Hit' & He' & -> & -> & ->). rewrite He'. split; [|done]. split; [done|done|]. simpl.
        rewrite <- (list_insert_id ls i l Hl). apply Forall2_insert; [done|]. split; [done|]. by intros [??].
    + assert (ls !! i = None) as ->; [|done]. apply lookup_ge_None. rewrite <- (Forall2_length _ _ _ Hits). by apply lookup_ge_None.
  - destruct (Compact_law db start limit Hi) as (Hi' & Hc' & He). destruct (db_Compact db start limit) as [db' e]. simpl in *. rewrite He, Hc.
    split; [|done]. apply (refines_update db its (o, ls)); [done|done|by rewrite Hc', Hc|done].
  - by rewrite (HealthCheck_law db Hi), Hc.
  - destruct (Close_law db Hi) as (Hi' & Hc' & He). destruct (db_Close db) as [db' e]. simpl in *. rewrite He, Hc.
    split; [|done]. apply (refines_update db its (o, ls)); [done..|]. by intros [??].
Qed.

Lemma refines_run s a cs :
  refines s a → (run db_step s cs).2 = (run spec_step a cs).2 ∧ refines (run db_step s cs).1 (run spec_step a cs).1.
Proof.
  revert s a. induction cs as [|c cs IH]; intros s a Hr; [done|]. simpl.
  destruct (refines_step s a c Hr) as [Hr' Ho]. destruct (db_step s c) as [s' o], (spec_step a c) as [a' o']. simpl in *.
  destruct (IH s' a' Hr') as [Hos Hr2]. destruct (run db_step s' cs), (run spec_step a' cs). simpl in *. by rewrite Ho, Hos.
Qed.
End Refinement.
