(* ===== verification/MemDB.v ===== *)
(** * The database in memory (package [database/memdb])

    [db.go]: a map from keys to values, nil when closed.  Iterators copy the sorted
    keys and their values at creation. *)
From stdpp Require Import sorting.
From S2P Require Import Prelude Bytes Database.

(** ** State *)

Record MemDatabase : Type := mkMem { mem_db : option kvmap }.

(** An iterator, or [IteratorError] with the error of a closed database.  Its
    field [initialized] tells whether [Next] was called. *)
Inductive mem_iterator : Type :=
| IteratorError (err : db_error)
| MemIterator (initialized : bool) (keys : list bytes) (values : list bytes) (err : option db_error).

Section MemDB.
Context `{!MapRange bytes}.

(** [New] and [NewWithSize] *)
Definition mem_New : MemDatabase := mkMem (Some ∅).

Definition mem_Close (db : MemDatabase) : MemDatabase * option db_error :=
  match mem_db db with None => (db, Some ErrClosed) | Some _ => (mkMem None, None) end.

Definition mem_isClosed (db : MemDatabase) : bool := match mem_db db with None => true | Some _ => false end.

Definition mem_Has (db : MemDatabase) (key : bytes) : result bool db_error :=
  match mem_db db with
  | None => Err ErrClosed
  | Some m => Ok (match m !! key with Some _ => true | None => false end)
  end.

Definition mem_Get (db : MemDatabase) (key : bytes) : result bytes db_error :=
  match mem_db db with
  | None => Err ErrClosed
  | Some m => match m !! key with Some entry => Ok entry | None => Err ErrNotFound end
  end.

Definition mem_Put (db : MemDatabase) (key value : bytes) : MemDatabase * option db_error :=
  match mem_db db with None => (db, Some ErrClosed) | Some m => (mkMem (Some (<[key := value]> m)), None) end.

Definition mem_Delete (db : MemDatabase) (key : bytes) : MemDatabase * option db_error :=
  match mem_db db with None => (db, Some ErrClosed) | Some m => (mkMem (Some (delete key m)), None) end.

Definition mem_NewBatch (db : MemDatabase) : BatchOps := mkBatchOps [] 0.

Definition mem_NewIteratorWithStartAndPrefix (db : MemDatabase) (start prefix : bytes) : mem_iterator :=
  match mem_db db with
  | None => IteratorError ErrClosed
  | Some m =>
      let keys := sorted_keys m start prefix in
      MemIterator false keys (map (λ key, default [] (m !! key)) keys) None
  end.

Definition mem_Compact (db : MemDatabase) (start limit : option bytes) : MemDatabase * option db_error :=
  (db, match mem_db db with None => Some ErrClosed | Some _ => None end).

Definition mem_HealthCheck (db : MemDatabase) : option db_error := if mem_isClosed db then Some ErrClosed else None.

(** [batch.Write] *)
Definition mem_Write (db : MemDatabase) (b : BatchOps) : MemDatabase * option db_error :=
  match mem_db db with
  | None => (db, Some ErrClosed)
  | Some m =>
      (mkMem (Some (foldl (λ m op, if op_Delete op then delete (op_Key op) m else <[op_Key op := op_Value op]> m) m (Ops b))), None)
  end.

Definition mem_Next (db : MemDatabase) (it : mem_iterator) : mem_iterator * bool :=
  match it with
  | IteratorError _ => (it, false)
  | MemIterator initialized keys values err =>
      if mem_isClosed db then (MemIterator initialized [] [] (Some ErrClosed), false)
      else if negb initialized then (MemIterator true keys values err, bool_decide (keys ≠ []))
      else (MemIterator true (tail keys) (tail values) err, bool_decide (tail keys ≠ []))
  end.

Definition mem_Error (it : mem_iterator) : option db_error :=
  match it with IteratorError err => Some err | MemIterator _ _ _ err => err end.

Definition mem_Key (it : mem_iterator) : bytes :=
  match it with IteratorError _ => [] | MemIterator _ keys _ _ => hd [] keys end.

Definition mem_Value (it : mem_iterator) : bytes :=
  match it with IteratorError _ => [] | MemIterator _ _ values _ => hd [] values end.

Definition mem_Release (it : mem_iterator) : mem_iterator :=
  match it with IteratorError _ => it | MemIterator initialized _ _ err => MemIterator initialized [] [] err end.

#[global] Instance MemDB : Database MemDatabase mem_iterator BatchOps := {|
  db_Has := mem_Has;
  db_Get := mem_Get;
  db_Put := mem_Put;
  db_Delete := mem_Delete;
  db_NewBatch := mem_NewBatch;
  db_NewIteratorWithStartAndPrefix := mem_NewIteratorWithStartAndPrefix;
  db_Compact := mem_Compact;
  db_Close := mem_Close;
  db_HealthCheck := mem_HealthCheck;
  it_Next := mem_Next;
  it_Error := mem_Error;
  it_Key := mem_Key;
  it_Value := mem_Value;
  it_Release := mem_Release;
  ba_Put := ops_Put;
  ba_Delete := ops_Delete;
  ba_Size := ops_Size;
  ba_Write := mem_Write;
  ba_Reset := ops_Reset;
|}.

(** ** The laws *)

Definition mem_it_inv (it : mem_iterator) : Prop :=
  match it with
  | IteratorError err => err = ErrClosed
  | MemIterator _ keys values _ => length keys = length values
  end.

Definition mem_rest (it : mem_iterator) : list (bytes * bytes) :=
  match it with
  | IteratorError _ => []
  | MemIterator false keys values _ => zip keys values
  | MemIterator true keys values _ => tail (zip keys values)
  end.

Lemma mem_Next_open db it m :
  mem_db db = Some m → mem_it_inv it → mem_Error it = None →
  let '(it', more) := mem_Next db it in
  mem_it_inv it' ∧ mem_Error it' = None ∧ mem_rest it' = tail (mem_rest it) ∧
  more = bool_decide (mem_rest it ≠ []) ∧ (mem_Key it', mem_Value it') = hd ([], []) (mem_rest it).
Proof.
  intros Hm Hi He. destruct it as [e|ini keys values err]; simpl in *; [done|]. subst err.
  unfold mem_isClosed. rewrite Hm. simpl.
  destruct ini; simpl; destruct keys as [|k keys], values as [|v values]; simpl in *; try done.
  destruct keys as [|k' keys], values as [|v' values]; simpl in *; try done. by injection Hi as ->.
Qed.

#[global] Instance MemDB_laws : DatabaseLaws MemDB.
Proof.
  refine {| db_inv _ := True; contents := mem_db; it_inv := mem_it_inv; it_rest := mem_rest; ba_inv _ := True; pending := Ops |};
    simpl; intros; auto.
  - unfold mem_Has. destruct (mem_db db) as [m|]; [|done]. by destruct (m !! k).
  - unfold mem_Put. by destruct (mem_db db) eqn:E; simpl.
  - unfold mem_Delete. by destruct (mem_db db) eqn:E; simpl.
  - unfold mem_Close. by destruct (mem_db db) eqn:E; simpl.
  - unfold mem_HealthCheck, mem_isClosed. by destruct (mem_db db).
  - unfold mem_NewIteratorWithStartAndPrefix. destruct (mem_db db) as [m|] eqn:E; [|done]. simpl.
    split; [by rewrite length_map|]. split; [done|]. intros ? [= <-].
    apply listing_intro; [apply sorted_keys_spec..|]. by intros k v ->.
  - by apply (mem_Next_open db it m).
  - destruct it as [e|ini keys values err]; simpl in *; [by subst e|]. unfold mem_isClosed. by rewrite H0.
  - unfold mem_Write. by destruct (mem_db db) eqn:E; simpl.
Defined.
End MemDB.

(** C30: The database in memory implements the interface: for any sequence of
    reads, writes, batches, iterators interleaved with writes and closing, it
    answers as the abstract database, whose iterators are sorted snapshots. *)
Theorem memdb_refines `{!MapRange bytes} (cmds : list db_cmd) :
  (run db_step (mem_New, []) cmds).2 = (run spec_step (Some ∅, []) cmds).2.
Proof. apply (refines_run MemDB_laws). by split. Qed.
