(* ===== verification/VersionDB.v ===== *)
(** * A database of uncommitted changes (package [database/versiondb])

    [db.go]: a database on top of another one that keeps its changes in memory
    until they are committed.  Its iterator merges the changes with an iterator of
    the database below.  It is proved for any database below that satisfies the
    contract, and then satisfies the contract itself. *)
From stdpp Require Import sorting.
From S2P Require Import Prelude Bytes Database MemDB.

(** ** State *)

Record valueDelete : Type := mkVD {
  vd_value : bytes;
  vd_delete : bool;
}.

(** The fields of an open database.  [Close] sets all three to nil at once. *)
Record v_fields (DB Ba : Type) : Type := mkV {
  v_mem : gmap bytes valueDelete;
  v_db : DB;
  v_batch : Ba;
}.
Arguments mkV {DB Ba} _ _ _.
Arguments v_mem {DB Ba} _.
Arguments v_db {DB Ba} _.
Arguments v_batch {DB Ba} _.

Record VDatabase (DB Ba : Type) : Type := mkVDB { v_open : option (v_fields DB Ba) }.
Arguments mkVDB {DB Ba} _.
Arguments v_open {DB Ba} _.

(** The embedded iterator of the database below and the fields of the iterator. *)
Record v_iter (It : Type) : Type := mkVIter {
  vi_Iterator : It;
  vi_key : bytes;
  vi_value : bytes;
  vi_err : option db_error;
  vi_keys : list bytes;
  vi_values : list valueDelete;
  vi_initialized : bool;
  vi_exhausted : bool;
}.
Arguments mkVIter {It} _ _ _ _ _ _ _ _.
Arguments vi_Iterator {It} _.
Arguments vi_key {It} _.
Arguments vi_value {It} _.
Arguments vi_err {It} _.
Arguments vi_keys {It} _.
Arguments vi_values {It} _.
Arguments vi_initialized {It} _.
Arguments vi_exhausted {It} _.

Inductive v_iterator (It : Type) : Type :=
| VIteratorError (err : db_error)
| VIterator (it : v_iter It).
Arguments VIteratorError {It} err.
Arguments VIterator {It} it.

(** ** Operations *)

Section VersionDB.
Context `{!MapRange bytes} `{D : Database DB It Ba}.
Abbreviation VDB := (VDatabase DB Ba).

(** [New] *)
Definition v_New (db : DB) : VDB := mkVDB (Some (mkV ∅ db (db_NewBatch db))).

Definition v_Has (db : VDB) (key : bytes) : result bool db_error :=
  match v_open db with
  | None => Err ErrClosed
  | Some f => match v_mem f !! key with Some val => Ok (negb (vd_delete val)) | None => db_Has (v_db f) key end
  end.

Definition v_Get (db : VDB) (key : bytes) : result bytes db_error :=
  match v_open db with
  | None => Err ErrClosed
  | Some f =>
      match v_mem f !! key with
      | Some val => if vd_delete val then Err ErrNotFound else Ok (vd_value val)
      | None => db_Get (v_db f) key
      end
  end.

Definition set_mem (f : v_fields DB Ba) (mem : gmap bytes valueDelete) : VDB := mkVDB (Some (mkV mem (v_db f) (v_batch f))).

Definition v_Put (db : VDB) (key value : bytes) : VDB * option db_error :=
  match v_open db with
  | None => (db, Some ErrClosed)
  | Some f => (set_mem f (<[key := mkVD value false]> (v_mem f)), None)
  end.

Definition v_Delete (db : VDB) (key : bytes) : VDB * option db_error :=
  match v_open db with
  | None => (db, Some ErrClosed)
  | Some f => (set_mem f (<[key := mkVD [] true]> (v_mem f)), None)
  end.

Definition v_NewBatch (db : VDB) : BatchOps := mkBatchOps [] 0.

Definition v_NewIteratorWithStartAndPrefix (db : VDB) (start prefix : bytes) : v_iterator It :=
  match v_open db with
  | None => VIteratorError ErrClosed
  | Some f =>
      let keys := sorted_keys (v_mem f) start prefix in
      let values := map (λ key, default (mkVD [] false) (v_mem f !! key)) keys in
      VIterator (mkVIter (db_NewIteratorWithStartAndPrefix (v_db f) start prefix) [] [] None keys values false false)
  end.

Definition v_Compact (db : VDB) (start limit : option bytes) : VDB * option db_error :=
  match v_open db with
  | None => (db, Some ErrClosed)
  | Some f => let '(u, err) := db_Compact (v_db f) start limit in (mkVDB (Some (mkV (v_mem f) u (v_batch f))), err)
  end.

Definition SetDatabase (db : VDB) (newDB : DB) : VDB * option db_error :=
  match v_open db with
  | None => (db, Some ErrClosed)
  | Some f => (mkVDB (Some (mkV (v_mem f) newDB (db_NewBatch newDB))), None)
  end.

Definition GetDatabase (db : VDB) : option DB := v_db <$> v_open db.

(** The loop of [commitBatch] over the entries of the map. *)
Fixpoint fill_batch (batch : Ba) (l : list (bytes * valueDelete)) : Ba * option db_error :=
  match l with
  | [] => (batch, None)
  | (key, value) :: l =>
      let '(batch, err) := if vd_delete value then ba_Delete batch key else ba_Put batch key (vd_value value) in
      match err with Some e => (batch, Some e) | None => fill_batch batch l end
  end.

(** [commitBatch]; the batch it returns is the one of the database. *)
Definition commitBatch (db : VDB) : VDB * result Ba db_error :=
  match v_open db with
  | None => (db, Err ErrClosed)
  | Some f =>
      let '(batch, err) := fill_batch (ba_Reset (v_batch f)) (map_range (v_mem f)) in
      (mkVDB (Some (mkV (v_mem f) (v_db f) batch)), match err with Some e => Err e | None => Ok batch end)
  end.

Definition CommitBatch (db : VDB) : VDB * result Ba db_error := commitBatch db.

(** [abort] and [Abort] *)
Definition abort (db : VDB) : VDB := match v_open db with None => db | Some f => set_mem f ∅ end.
Definition Abort (db : VDB) : VDB := abort db.

(** [Commit] *)
Definition Commit (db : VDB) : VDB * option db_error :=
  let '(db, r) := commitBatch db in
  match r with
  | Err e => (db, Some e)
  | Ok batch =>
      match v_open db with
      | None => (db, Some ErrClosed)
      | Some f =>
          let '(u, err) := ba_Write (v_db f) batch in
          let db := mkVDB (Some (mkV (v_mem f) u batch)) in
          match err with
          | Some e => (db, Some e)
          | None => (abort (mkVDB (Some (mkV (v_mem f) u (ba_Reset batch)))), None)
          end
      end
  end.

Definition v_Close (db : VDB) : VDB * option db_error :=
  match v_open db with None => (db, Some ErrClosed) | Some _ => (mkVDB None, None) end.

Definition v_isClosed (db : VDB) : bool := match v_open db with None => true | Some _ => false end.

Definition v_HealthCheck (db : VDB) : option db_error :=
  match v_open db with None => Some ErrClosed | Some f => db_HealthCheck (v_db f) end.

(** [batch.Write] *)
Definition v_Write (db : VDB) (b : BatchOps) : VDB * option db_error :=
  match v_open db with
  | None => (db, Some ErrClosed)
  | Some f =>
      (set_mem f (foldl (λ mem op, <[op_Key op := mkVD (op_Value op) (op_Delete op)]> mem) (v_mem f) (Ops b)), None)
  end.

(** The loop of [Next]: every round that does not return drops a key of the
    changes.  The result is the state of the iterator and whether a pair was
    found. *)
Fixpoint next_loop (u : DB) (inner : It) (exhausted : bool) (keys : list bytes) (values : list valueDelete) : v_iter It * bool :=
  match keys with
  | [] =>
      if exhausted then (mkVIter inner [] [] None [] values true true, false)
      else
        let key := it_Key inner in
        let value := it_Value inner in
        let '(inner, more) := it_Next u inner in
        (mkVIter inner key value None [] values true (negb more), true)
  | memKey :: keys' =>
      let memValue := hd (mkVD [] false) values in
      let values' := tail values in
      if exhausted then
        if negb (vd_delete memValue) then (mkVIter inner memKey (vd_value memValue) None keys' values' true true, true)
        else next_loop u inner true keys' values'
      else
        let dbKey := it_Key inner in
        if decide (blt memKey dbKey) then
          if negb (vd_delete memValue) then (mkVIter inner memKey (vd_value memValue) None keys' values' true false, true)
          else next_loop u inner false keys' values'
        else if decide (blt dbKey memKey) then
          let value := it_Value inner in
          let '(inner, more) := it_Next u inner in
          (mkVIter inner dbKey value None keys values true (negb more), true)
        else
          let '(inner, more) := it_Next u inner in
          if negb (vd_delete memValue) then (mkVIter inner memKey (vd_value memValue) None keys' values' true (negb more), true)
          else next_loop u inner (negb more) keys' values'
  end.

Definition set_err (it : v_iter It) (err : option db_error) : v_iter It :=
  mkVIter (vi_Iterator it) (vi_key it) (vi_value it) err (vi_keys it) (vi_values it) (vi_initialized it) (vi_exhausted it).

(** [iterator.Next] *)
Definition v_Next (db : VDB) (it : v_iterator It) : v_iterator It * bool :=
  match it with
  | VIteratorError _ => (it, false)
  | VIterator i =>
      match v_open db with
      | None =>
          (VIterator (mkVIter (vi_Iterator i) [] [] (Some ErrClosed) (vi_keys i) (vi_values i) (vi_initialized i) (vi_exhausted i)), false)
      | Some f =>
          let '(inner, exhausted) :=
            if vi_initialized i then (vi_Iterator i, vi_exhausted i)
            else let '(inner, more) := it_Next (v_db f) (vi_Iterator i) in (inner, negb more) in
          let '(i', found) := next_loop (v_db f) inner exhausted (vi_keys i) (vi_values i) in
          (VIterator (set_err i' (vi_err i)), found)
      end
  end.

Definition v_Error (it : v_iterator It) : option db_error :=
  match it with
  | VIteratorError err => Some err
  | VIterator i => match vi_err i with Some e => Some e | None => it_Error (vi_Iterator i) end
  end.

Definition v_Key (it : v_iterator It) : bytes := match it with VIteratorError _ => [] | VIterator i => vi_key i end.
Definition v_Value (it : v_iterator It) : bytes := match it with VIteratorError _ => [] | VIterator i => vi_value i end.

Definition v_Release (it : v_iterator It) : v_iterator It :=
  match it with
  | VIteratorError _ => it
  | VIterator i => VIterator (mkVIter (it_Release (vi_Iterator i)) [] [] (vi_err i) [] [] (vi_initialized i) (vi_exhausted i))
  end.

#[global] Instance VersionDB : Database VDB (v_iterator It) BatchOps := {|
  db_Has := v_Has;
  db_Get := v_Get;
  db_Put := v_Put;
  db_Delete := v_Delete;
  db_NewBatch := v_NewBatch;
  db_NewIteratorWithStartAndPrefix := v_NewIteratorWithStartAndPrefix;
  db_Compact := v_Compact;
  db_Close := v_Close;
  db_HealthCheck := v_HealthCheck;
  it_Next := v_Next;
  it_Error := v_Error;
  it_Key := v_Key;
  it_Value := v_Value;
  it_Release := v_Release;
  ba_Put := ops_Put;
  ba_Delete := ops_Delete;
  ba_Size := ops_Size;
  ba_Write := v_Write;
  ba_Reset := ops_Reset;
|}.
End VersionDB.

(** ** What the changes make of a map *)

Definition vd_entry (v : valueDelete) : option bytes := if vd_delete v then None else Some (vd_value v).

Definition overlay (mem : gmap bytes valueDelete) (m : kvmap) : kvmap :=
  merge (λ a b, match a with Some v => vd_entry v | None => b end) mem m.

Lemma lookup_overlay mem m k :
  overlay mem m !! k = match mem !! k with Some v => vd_entry v | None => m !! k end.
Proof. unfold overlay. rewrite lookup_merge. by destruct (mem !! k), (m !! k). Qed.

Lemma overlay_empty m : overlay ∅ m = m.
Proof. apply map_eq. intros k. by rewrite lookup_overlay, lookup_empty. Qed.

Lemma overlay_insert mem m k v :
  overlay (<[k := v]> mem) m = match vd_entry v with Some x => <[k := x]> (overlay mem m) | None => delete k (overlay mem m) end.
Proof.
  apply map_eq. intros k'. rewrite lookup_overlay. destruct (decide (k = k')) as [<-|Hne].
  - rewrite lookup_insert_eq. destruct (vd_entry v); by rewrite ?lookup_insert_eq, ?lookup_delete_eq.
  - rewrite lookup_insert_ne by done. destruct (vd_entry v); by rewrite ?lookup_insert_ne, ?lookup_delete_ne, lookup_overlay by done.
Qed.

(** *** Merging two sorted lists *)

Definition emit (k : bytes) (v : valueDelete) (l : list (bytes * bytes)) : list (bytes * bytes) :=
  match vd_entry v with Some x => (k, x) :: l | None => l end.

Fixpoint merged (ks : list (bytes * valueDelete)) : list (bytes * bytes) → list (bytes * bytes) :=
  match ks with
  | [] => λ ds, ds
  | (k, v) :: ks' =>
      fix go ds :=
        match ds with
        | [] => emit k v (merged ks' [])
        | (d, x) :: ds' =>
            if decide (blt k d) then emit k v (merged ks' ds)
            else if decide (blt d k) then (d, x) :: go ds'
            else emit k v (merged ks' ds')
        end
  end.

Lemma elem_of_emit k v l y : y ∈ emit k v l ↔ (y.1 = k ∧ vd_entry v = Some y.2) ∨ y ∈ l.
Proof. unfold emit. destruct y as [y1 y2], (vd_entry v) eqn:E; rewrite ?elem_of_cons; naive_solver. Qed.

Lemma emit_sorted k v l :
  StronglySorted blt l.*1 → (∀ x, x ∈ l.*1 → blt k x) → StronglySorted blt (emit k v l).*1.
Proof. intros Hs Hk. unfold emit. destruct (vd_entry v); [|done]. simpl. constructor; [done|]. by apply Forall_forall. Qed.

Lemma sorted_cons_inv {V} (k : bytes) (v : V) l :
  StronglySorted blt ((k, v) :: l).*1 → StronglySorted blt l.*1 ∧ ∀ x, x ∈ l.*1 → blt k x.
Proof. simpl. intros [Hs Hf]%StronglySorted_inv. split; [done|]. by apply Forall_forall. Qed.

Lemma blt_neq k d : blt k d → k ≠ d.
Proof. intros H ->. by destruct (irreflexivity blt d). Qed.

Lemma blt_total k d : ¬ blt k d → ¬ blt d k → k = d.
Proof. intros. destruct (blt_trichotomy k d) as [|[|]]; done. Qed.

Lemma merged_spec ks ds :
  StronglySorted blt ks.*1 → StronglySorted blt ds.*1 →
  StronglySorted blt (merged ks ds).*1 ∧
  (∀ k x, (k, x) ∈ merged ks ds ↔ (∃ v, (k, v) ∈ ks ∧ vd_entry v = Some x) ∨ ((k ∉ ks.*1) ∧ (k, x) ∈ ds)) ∧
  (∀ k, k ∈ (merged ks ds).*1 → k ∈ ks.*1 ∨ k ∈ ds.*1).
Proof.
  assert (∀ ks ds, (∀ k x, (k, x) ∈ merged ks ds ↔ (∃ v, (k, v) ∈ ks ∧ vd_entry v = Some x) ∨ ((k ∉ ks.*1) ∧ (k, x) ∈ ds)) →
    ∀ k, k ∈ (merged ks ds).*1 → k ∈ ks.*1 ∨ k ∈ ds.*1) as Hkeys.
  { intros ks' ds' H k ([k' x] & -> & Hin)%list_elem_of_fmap. apply H in Hin as [(v & Hv & _)|[_ Hv]]; [left|right]; by apply (list_elem_of_fmap_2 fst) in Hv. }
  cut (∀ ks ds, StronglySorted blt ks.*1 → StronglySorted blt ds.*1 → StronglySorted blt (merged ks ds).*1 ∧
    (∀ k x, (k, x) ∈ merged ks ds ↔ (∃ v, (k, v) ∈ ks ∧ vd_entry v = Some x) ∨ ((k ∉ ks.*1) ∧ (k, x) ∈ ds))).
  { intros H Hk Hd. destruct (H ks ds Hk Hd) as [H1 H2]. split; [done|]. split; [done|]. by apply Hkeys. }
  clear ks ds. intros ks. induction ks as [|[k v] ks IHk]; intros ds Hk Hd; simpl.
  { split; [done|]. intros. set_solver. }
  pose proof (sorted_cons_inv _ _ _ Hk) as [Hk' Hlt].
  induction ds as [|[d y] ds IHd].
  - destruct (IHk [] Hk' Hd) as [Hs He]. split.
    + apply emit_sorted; [done|]. intros x Hx. apply (Hkeys _ _ He) in Hx as [?|?]; [by apply Hlt|set_solver].
    + intros k' x. rewrite elem_of_emit, He. simpl. set_solver.
  - pose proof (sorted_cons_inv _ _ _ Hd) as [Hd' Hdlt]. case_decide as C1; [|case_decide as C2].
    + destruct (IHk ((d, y) :: ds) Hk' Hd) as [Hs He]. split.
      * apply emit_sorted; [done|]. intros x Hx. apply (Hkeys _ _ He) in Hx as [?|Hx]; [by apply Hlt|].
        simpl in Hx. apply elem_of_cons in Hx as [->|Hx]; [done|]. apply (transitivity (y := d)); [done|by apply Hdlt].
      * intros k' x. rewrite elem_of_emit, He. simpl. pose proof (blt_neq _ _ C1).
        assert (∀ z, (k, z) ∉ ds). { intros z Hz. destruct (irreflexivity blt k). apply (transitivity (y := d)); [done|]. apply Hdlt, list_elem_of_fmap. by exists (k, z). }
        set_solver.
    + destruct (IHd Hd') as [Hs He]. split.
      * simpl. constructor; [done|]. apply Forall_forall. intros x Hx.
        apply (Hkeys ((k, v) :: ks) ds He) in Hx as [Hx|Hx]; [|by apply Hdlt].
        simpl in Hx. apply elem_of_cons in Hx as [->|Hx]; [done|]. apply (transitivity (y := k)); [done|by apply Hlt].
      * intros k' x. rewrite elem_of_cons, He. simpl. pose proof (blt_neq _ _ C2).
        assert (d ∉ ks.*1). { intros Hin. destruct (irreflexivity blt d). apply (transitivity (y := k)); [done|]. by apply Hlt. }
        set_solver.
    + pose proof (blt_total _ _ C1 C2) as <-. destruct (IHk ds Hk' Hd') as [Hs He]. split.
      * apply emit_sorted; [done|]. intros x Hx. apply (Hkeys _ _ He) in Hx as [?|Hx]; [by apply Hlt|by apply Hdlt].
      * intros k' x. rewrite elem_of_emit, He. simpl.
        assert (k ∉ ks.*1). { intros Hin. destruct (irreflexivity blt k). by apply Hlt. }
        assert (∀ z, (k, z) ∉ ds). { intros z Hz. destruct (irreflexivity blt k). apply Hdlt, list_elem_of_fmap. by exists (k, z). }
        set_solver.
Qed.

(** The merged lists of the changes and of the map below list the result. *)
Lemma merged_listing mem m start prefix ks ds :
  listing mem start prefix ks → listing m start prefix ds → listing (overlay mem m) start prefix (merged ks ds).
Proof.
  intros Hk Hd. destruct (merged_spec ks ds) as (Hs & He & _); [apply Hk|apply Hd|]. split; [done|].
  intros k x. rewrite He, lookup_overlay, (listing_keys _ _ _ _ _ Hk), (listing_elem _ _ _ _ Hd). split.
  - intros [(v & (Hm & Hr)%(listing_elem _ _ _ _ Hk) & Hv)|[Hn [Hm Hr]]]; [by rewrite Hm|]. split; [|done].
    destruct (mem !! k); [|done]. destruct Hn. by split.
  - intros [Hm Hr]. destruct (mem !! k) as [v|] eqn:Hk'.
    + left. exists v. split; [|done]. by apply (listing_elem _ _ _ _ Hk).
    + right. split; [|done]. by intros [[??] _].
Qed.

(** ** The contract, given that of the database below *)

Section Laws.
Context `{!MapRange bytes} `{D : Database DB It Ba} (L : DatabaseLaws D).
Implicit Types (db : VDatabase DB Ba) (f : v_fields DB Ba) (i : v_iter It).

Definition v_contents db : option kvmap :=
  f ← v_open db; overlay (v_mem f) <$> contents (v_db f).

Definition v_inv db : Prop :=
  match v_open db with
  | None => True
  | Some f => db_inv (v_db f) ∧ is_Some (contents (v_db f)) ∧ ba_inv (v_batch f)
  end.

Definition below (exhausted : bool) (inner : It) : list (bytes * bytes) :=
  if exhausted then [] else (it_Key inner, it_Value inner) :: it_rest inner.

Definition v_it_inv (it : v_iterator It) : Prop :=
  match it with
  | VIteratorError e => e = ErrClosed
  | VIterator i => it_inv (vi_Iterator i) ∧ length (vi_keys i) = length (vi_values i)
  end.

Definition v_rest (it : v_iterator It) : list (bytes * bytes) :=
  match it with
  | VIteratorError _ => []
  | VIterator i =>
      merged (zip (vi_keys i) (vi_values i))
        (if vi_initialized i then below (vi_exhausted i) (vi_Iterator i) else it_rest (vi_Iterator i))
  end.

(** Advancing the iterator below. *)
Lemma advance_below u m inner :
  db_inv u → contents u = Some m → it_inv inner → it_Error inner = None →
  let '(inner', more) := it_Next u inner in
  it_inv inner' ∧ it_Error inner' = None ∧ below (negb more) inner' = it_rest inner.
Proof.
  intros Hi Hc Hit He. pose proof (Next_law u inner m Hi Hc Hit He) as H. destruct (it_Next u inner) as [inner' more].
  destruct H as (? & ? & Hr & -> & Hkv). split; [done|]. split; [done|]. unfold below. rewrite Hkv, Hr.
  by destruct (it_rest inner) as [|x l].
Qed.

Lemma next_loop_spec u m inner exhausted keys values :
  db_inv u → contents u = Some m → it_inv inner → it_Error inner = None → length keys = length values →
  let '(i', found) := next_loop u inner exhausted keys values in
  let R := merged (zip keys values) (below exhausted inner) in
  v_it_inv (VIterator i') ∧ it_Error (vi_Iterator i') = None ∧ vi_err i' = None ∧
  v_rest (VIterator i') = tail R ∧ found = bool_decide (R ≠ []) ∧ (vi_key i', vi_value i') = hd ([], []) R.
Proof.
  intros Hi Hc. revert values inner exhausted. induction keys as [|k keys IH]; intros [|v values] inner exhausted Hit He Hlen; try done; simpl.
  - destruct exhausted; simpl; [done|]. pose proof (advance_below u m inner Hi Hc Hit He) as Ha.
    destruct (it_Next u inner) as [inner' more]. destruct Ha as (? & ? & Hb). simpl. by rewrite Hb.
  - injection Hlen as Hlen. unfold emit, vd_entry. destruct exhausted; simpl.
    { specialize (IH values inner true Hit He Hlen). by destruct (vd_delete v); simpl. }
    case_decide as C1; [|case_decide as C2].
    + specialize (IH values inner false Hit He Hlen). by destruct (vd_delete v); simpl.
    + pose proof (advance_below u m inner Hi Hc Hit He) as Ha. destruct (it_Next u inner) as [inner' more].
      destruct Ha as (? & ? & Hb). simpl. rewrite Hb. split; [by rewrite Hlen|]. done.
    + pose proof (advance_below u m inner Hi Hc Hit He) as Ha. destruct (it_Next u inner) as [inner' more].
      destruct Ha as (Hit' & He' & Hb). rewrite <- Hb. specialize (IH values inner' (negb more) Hit' He' Hlen).
      by destruct (vd_delete v); simpl.
Qed.

Lemma v_Next_law db it m :
  v_inv db → v_contents db = Some m → v_it_inv it → v_Error it = None →
  let '(it', more) := v_Next db it in
  v_it_inv it' ∧ v_Error it' = None ∧ v_rest it' = tail (v_rest it) ∧
  more = bool_decide (v_rest it ≠ []) ∧ (v_Key it', v_Value it') = hd ([], []) (v_rest it).
Proof.
  unfold v_inv, v_contents. destruct (v_open db) as [f|] eqn:Hopen; [|done]. intros (Hi & [mu Hc] & _) _ Hit He.
  destruct it as [e|i]; [done|]. simpl in *. destruct (vi_err i) eqn:Herr; [done|]. destruct Hit as [Hit Hlen]. rewrite Hopen.
  assert (∃ inner exhausted, (if vi_initialized i then (vi_Iterator i, vi_exhausted i)
            else let '(inner, more) := it_Next (v_db f) (vi_Iterator i) in (inner, negb more)) = (inner, exhausted) ∧
          it_inv inner ∧ it_Error inner = None ∧
          below exhausted inner = if vi_initialized i then below (vi_exhausted i) (vi_Iterator i) else it_rest (vi_Iterator i)) as (inner & ex & -> & Hit' & He' & Hb).
  { destruct (vi_initialized i); [by eexists _, _|]. pose proof (advance_below _ _ _ Hi Hc Hit He) as Ha.
    destruct (it_Next (v_db f) (vi_Iterator i)) as [inner more]. eexists _, _. split; [done|]. tauto. }
  pose proof (next_loop_spec _ _ inner ex _ _ Hi Hc Hit' He' Hlen) as H.
  destruct (next_loop (v_db f) inner ex (vi_keys i) (vi_values i)) as [i' found]. rewrite Hb in H.
  destruct H as (? & ? & ? & ? & -> & ?). done.
Qed.

Lemma v_NewIterator_law db start prefix :
  v_inv db →
  v_it_inv (v_NewIteratorWithStartAndPrefix db start prefix) ∧
  v_Error (v_NewIteratorWithStartAndPrefix db start prefix) = closed_error (v_contents db) ∧
  ∀ m, v_contents db = Some m → listing m start prefix (v_rest (v_NewIteratorWithStartAndPrefix db start prefix)).
Proof.
  unfold v_inv, v_contents, v_NewIteratorWithStartAndPrefix. destruct (v_open db) as [f|]; [|done]. intros (Hi & [mu Hc] & _).
  destruct (NewIterator_law (v_db f) start prefix Hi) as (Hit & He & Hl). simpl. rewrite Hc in *. simpl in *.
  split; [by rewrite length_map|]. split; [done|]. intros m [= <-]. apply merged_listing; [|by apply Hl].
  apply listing_intro; [apply sorted_keys_spec..|]. by intros k v ->.
Qed.

Lemma v_Write_overlay ops mem m :
  overlay (foldl (λ mem op, <[op_Key op := mkVD (op_Value op) (op_Delete op)]> mem) mem ops) m = apply_ops ops (overlay mem m).
Proof.
  revert mem. induction ops as [|[k v d] ops IH]; intros mem; [done|]. simpl. rewrite IH, overlay_insert.
  unfold vd_entry, apply_op. by destruct d.
Qed.

#[global] Instance VersionDB_laws : DatabaseLaws VersionDB.
Proof.
  refine {| db_inv := v_inv; contents := v_contents; it_inv := v_it_inv; it_rest := v_rest; ba_inv _ := True; pending := Ops |};
    simpl; try done.
  - unfold v_inv, v_contents, v_Has. intros db k Hi. destruct (v_open db) as [f|]; [|done]. destruct Hi as (Hi & [m Hc] & _).
    simpl. rewrite (Has_law _ k Hi), Hc. simpl. rewrite lookup_overlay. destruct (v_mem f !! k) as [v|]; [|done].
    unfold vd_entry. by destruct (vd_delete v).
  - unfold v_inv, v_contents, v_Get. intros db k Hi. destruct (v_open db) as [f|]; [|done]. destruct Hi as (Hi & [m Hc] & _).
    simpl. rewrite (Get_law _ k Hi), Hc. simpl. rewrite lookup_overlay. destruct (v_mem f !! k) as [v|]; [|done].
    unfold vd_entry. by destruct (vd_delete v).
  - unfold v_inv, v_contents, v_Put. intros db k v Hi. destruct (v_open db) as [f|] eqn:E; simpl; [|by rewrite E].
    destruct Hi as (Hi & [m Hc] & ?). rewrite Hc. simpl. rewrite overlay_insert. done.
  - unfold v_inv, v_contents, v_Delete. intros db k Hi. destruct (v_open db) as [f|] eqn:E; simpl; [|by rewrite E].
    destruct Hi as (Hi & [m Hc] & ?). rewrite Hc. simpl. rewrite overlay_insert. done.
  - unfold v_inv, v_contents, v_Compact. intros db start limit Hi. destruct (v_open db) as [f|] eqn:E; simpl; [|by rewrite E].
    destruct Hi as (Hi & [m Hc] & ?). destruct (Compact_law _ start limit Hi) as (? & Hc' & He).
    destruct (db_Compact (v_db f) start limit) as [u e]. simpl in *. by rewrite He, Hc', Hc.
  - unfold v_inv, v_contents, v_Close. intros db Hi. destruct (v_open db) as [f|] eqn:E; simpl; [|by rewrite E].
    destruct Hi as (_ & [m ->] & _). done.
  - unfold v_inv, v_contents, v_HealthCheck. intros db Hi. destruct (v_open db) as [f|]; simpl; [|done].
    destruct Hi as (Hi & [m Hc] & _). by rewrite (HealthCheck_law _ Hi), Hc.
  - apply v_NewIterator_law.
  - apply v_Next_law.
  - unfold v_inv, v_contents. intros db it Hi Hc Hit. destruct (v_open db) as [f|] eqn:E.
    { destruct Hi as (_ & [m Hm] & _). simpl in Hc. by rewrite Hm in Hc. }
    destruct it as [e|i]; simpl in *; [by subst e|]. by rewrite E.
  - unfold v_inv, v_contents, v_Write. intros db b Hi _. destruct (v_open db) as [f|] eqn:E; simpl; [|by rewrite E].
    destruct Hi as (Hi & [m Hc] & ?). rewrite Hc. simpl. by rewrite v_Write_overlay.
Defined.
End Laws.

(** ** Committing *)

Section Commit.
Context `{!MapRange bytes} `{D : Database DB It Ba} (L : DatabaseLaws D).
Implicit Types (db : VDatabase DB Ba) (f : v_fields DB Ba).
#[local] Existing Instance VersionDB_laws.

Definition change_op (x : bytes * valueDelete) : BatchOp :=
  if vd_delete x.2 then mkBatchOp x.1 [] true else mkBatchOp x.1 (vd_value x.2) false.

Lemma fill_batch_spec b l :
  ba_inv b → ∃ b', fill_batch b l = (b', None) ∧ ba_inv b' ∧ pending b' = pending b ++ map change_op l.
Proof.
  revert b. induction l as [|[k v] l IH]; intros b Hb; simpl; [exists b; by rewrite app_nil_r|].
  unfold change_op at 1. simpl. destruct (vd_delete v).
  - destruct (ba_Delete_law b k Hb) as (Hb' & Hp & He). destruct (ba_Delete b k) as [b1 e]. simpl in *. subst e.
    destruct (IH b1 Hb') as (b' & -> & Hi & Hp'). exists b'. by rewrite Hp', Hp, <- app_assoc.
  - destruct (ba_Put_law b k (vd_value v) Hb) as (Hb' & Hp & He). destruct (ba_Put b k (vd_value v)) as [b1 e]. simpl in *. subst e.
    destruct (IH b1 Hb') as (b' & -> & Hi & Hp'). exists b'. by rewrite Hp', Hp, <- app_assoc.
Qed.

Lemma apply_changes l m :
  NoDup l.*1 → apply_ops (map change_op l) m = overlay (list_to_map l) m.
Proof.
  revert m. induction l as [|[k v] l IH]; intros m Hnd; simpl; [by rewrite overlay_empty|].
  apply NoDup_cons in Hnd as [Hnot Hnd]. rewrite IH by done. rewrite overlay_insert.
  apply map_eq. intros k'. assert ((list_to_map l : gmap bytes valueDelete) !! k = None) as Hk by by apply not_elem_of_list_to_map_1.
  unfold change_op, apply_op, vd_entry. simpl. destruct (decide (k = k')) as [<-|Hne].
  - rewrite lookup_overlay, Hk. destruct (vd_delete v); simpl; by rewrite ?lookup_insert_eq, ?lookup_delete_eq.
  - destruct (vd_delete v); simpl; rewrite ?lookup_insert_ne, ?lookup_delete_ne, !lookup_overlay by done;
      by rewrite ?lookup_insert_ne, ?lookup_delete_ne by done.
Qed.

(** [Commit] writes the changes to the database below and forgets them. *)
Lemma Commit_spec db :
  v_inv L db →
  match v_open db with
  | None => Commit db = (db, Some ErrClosed)
  | Some f =>
      ∃ f', Commit db = (mkVDB (Some f'), None) ∧ v_inv L (mkVDB (Some f')) ∧ v_mem f' = ∅ ∧
        contents (v_db f') = overlay (v_mem f) <$> contents (v_db f)
  end.
Proof.
  unfold v_inv, Commit, commitBatch. destruct (v_open db) as [f|] eqn:E; [|done]. intros (Hi & [m Hc] & Hb).
  destruct (ba_Reset_law _ Hb) as [Hb0 Hp0]. destruct (fill_batch_spec _ (map_range (v_mem f)) Hb0) as (b & -> & Hbi & Hp). simpl.
  destruct (ba_Write_law (v_db f) b Hi Hbi) as (Hi' & Hc' & He). destruct (ba_Write (v_db f) b) as [u e]. simpl in *.
  rewrite He, Hc. simpl. eexists. split; [done|]. simpl. destruct (ba_Reset_law _ Hbi) as [Hb1 _].
  rewrite Hc', Hc. simpl. split; [done|]. split; [done|]. f_equal. rewrite Hp, Hp0. simpl.
  rewrite apply_changes by apply NoDup_map_range_keys. by rewrite map_range_to_map.
Qed.

(** *** Sequences of operations with commits

    The abstract state has the map below and the database above it. *)
Inductive v_cmd : Type :=
| VDo (c : db_cmd)
| VCommit
| VAbort.

Definition v_step (s : VDatabase DB Ba * list (v_iterator It)) (c : v_cmd) : (VDatabase DB Ba * list (v_iterator It)) * db_out :=
  match c with
  | VDo c => db_step s c
  | VCommit => let '(db, e) := Commit s.1 in ((db, s.2), OErr e)
  | VAbort => ((Abort s.1, s.2), ONone)
  end.

Definition v_spec_step (a : kvmap * spec_state) (c : v_cmd) : (kvmap * spec_state) * db_out :=
  let '(base, (view, its)) := a in
  match c with
  | VDo c => let '(s, o) := spec_step (view, its) c in ((base, s), o)
  | VCommit => ((default base view, (view, its)), OErr (closed_error view))
  | VAbort => ((base, ((λ _, base) <$> view, its)), ONone)
  end.

Record v_refines (s : VDatabase DB Ba * list (v_iterator It)) (a : kvmap * spec_state) : Prop := {
  vref_view : refines (VersionDB_laws L) s a.2;
  vref_base : ∀ f, v_open s.1 = Some f → contents (v_db f) = Some a.1;
}.

(** Commands of the interface change the database below only by [Compact]. *)
Lemma db_step_below db its c f :
  v_inv L db → v_open (db_step (db, its) c).1.1 = Some f →
  ∃ f0, v_open db = Some f0 ∧ contents (v_db f) = contents (v_db f0).
Proof.
  intros Hi. assert (v_open db = Some f → ∃ f0, v_open db = Some f0 ∧ contents (v_db f) = contents (v_db f0)) as Hsame by eauto.
  destruct c as [k|k|k v|k|ops|start prefix|i|start limit| |]; simpl; try exact Hsame.
  - unfold v_Put. destruct (v_open db) as [f0|] eqn:E; simpl; [|by rewrite E]. intros [= <-]. eauto.
  - unfold v_Delete. destruct (v_open db) as [f0|] eqn:E; simpl; [|by rewrite E]. intros [= <-]. eauto.
  - unfold write_batch. destruct (replay_ops ba_writer ops (db_NewBatch db)) as [b [e|]]; simpl; [exact Hsame|].
    unfold v_Write. destruct (v_open db) as [f0|] eqn:E; simpl; [|by rewrite E]. intros [= <-]. eauto.
  - destruct (its !! i); [|exact Hsame]. by destruct (v_Next db v).
  - unfold v_inv, v_Compact in *. destruct (v_open db) as [f0|] eqn:E; simpl; [|by rewrite E]. destruct Hi as [Hi _].
    destruct (Compact_law _ start limit Hi) as (_ & Hc & _). destruct (db_Compact (v_db f0) start limit) as [u e]. simpl in *.
    intros [= <-]. eauto.
  - unfold v_Close. destruct (v_open db) as [f0|] eqn:E; simpl; [done|by rewrite E].
Qed.

Lemma v_refines_step s a c :
  v_refines s a → v_refines (v_step s c).1 (v_spec_step a c).1 ∧ (v_step s c).2 = (v_spec_step a c).2.
Proof.
  destruct s as [db its], a as [base [view ls]]. intros [Hv Hb]. simpl in Hb. destruct c as [c| |]; cbn [v_step v_spec_step].
  - destruct (refines_step _ _ _ c Hv) as [Hv' Ho]. pose proof (db_step_below db its c) as Hbelow.
    cbn [snd] in Hv', Ho. destruct (db_step (db, its) c) as [s' o], (spec_step (view, ls) c) as [a' o']. simpl in *.
    split; [|done]. split; [done|]. intros f Hf. simpl. destruct (Hbelow f (ref_inv _ _ _ Hv) Hf) as (f0 & Hf0 & ->). by apply Hb.
  - pose proof Hv as [Hi Hc Hits]. simpl in *. pose proof (Commit_spec db Hi) as HC. unfold v_contents in Hc.
    destruct (v_open db) as [f|] eqn:E.
    + destruct HC as (f' & -> & Hi' & Hmem & Hc'). simpl in *. rewrite (Hb f eq_refl) in *. simpl in *. subst view. simpl. split; [|done].
      split; [|by intros ? [= <-]]. apply (refines_update _ db its (Some (overlay (v_mem f) base), ls)); [done|done| |done].
      simpl. unfold v_contents. simpl. rewrite Hmem, Hc'. simpl. by rewrite overlay_empty.
    + rewrite HC. simpl in *. subst view. split; [|done]. split; [done|]. simpl. by rewrite E.
  - pose proof Hv as [Hi Hc Hits]. simpl in *. unfold Abort, abort, v_inv, v_contents in *. destruct (v_open db) as [f|] eqn:E; simpl in *.
    + rewrite (Hb f eq_refl) in Hc. simpl in Hc. subst view. simpl. split; [|done]. split; [|intros ? [= <-]; exact (Hb f eq_refl)].
      apply (refines_update _ db its (Some (overlay (v_mem f) base), ls)); [done|done| |done].
      simpl. unfold v_contents. simpl. rewrite (Hb f eq_refl). simpl. by rewrite overlay_empty.
    + subst view. split; [|done]. split; [done|]. simpl. by rewrite E.
Qed.

Lemma v_refines_run s a cs :
  v_refines s a → (run v_step s cs).2 = (run v_spec_step a cs).2 ∧ v_refines (run v_step s cs).1 (run v_spec_step a cs).1.
Proof.
  revert s a. induction cs as [|c cs IH]; intros s a Hr; [done|]. simpl.
  destruct (v_refines_step s a c Hr) as [Hr' Ho]. destruct (v_step s c) as [s' o], (v_spec_step a c) as [a' o']. simpl in *.
  destruct (IH s' a' Hr') as [Hos Hr2]. destruct (run v_step s' cs), (run v_spec_step a' cs). simpl in *. by rewrite Ho, Hos.
Qed.

Lemma v_New_refines u m : db_inv u → contents u = Some m → v_refines (v_New u, []) (m, (Some m, [])).
Proof.
  intros Hi Hc. destruct (NewBatch_law u Hi) as [Hb _]. split; [|by intros ? [= <-]]. split; [|simpl|done].
  - simpl. unfold v_inv. simpl. by rewrite Hc.
  - unfold v_contents. simpl. rewrite Hc. simpl. by rewrite overlay_empty.
Qed.
End Commit.

(** C24: A versioned database over any database that keeps the contract answers
    every sequence of reads, writes, batches, interleaved iterators, commits and
    aborts as two abstract maps do: reads and iterators see the changes, the map
    below changes only by a commit, which makes it the map above, and an abort
    makes the map above the one below. *)
Theorem versiondb_refines `{!MapRange bytes} `{D : Database DB It Ba} (L : DatabaseLaws D) (db : DB) (m : kvmap) (cmds : list v_cmd) :
  db_inv db → contents db = Some m →
  let '((vdb, _), out) := run v_step (v_New db, []) cmds in
  let '((base, _), out') := run v_spec_step (m, (Some m, [])) cmds in
  out = out' ∧ ∀ u, GetDatabase vdb = Some u → contents u = Some base.
Proof.
  intros Hi Hc. destruct (v_refines_run L _ _ cmds (v_New_refines L db m Hi Hc)) as [Ho [_ Hb]].
  destruct (run v_step _ _) as [[vdb its] out], (run v_spec_step _ _) as [[base a] out']. simpl in *. split; [done|].
  unfold GetDatabase. intros u. destruct (v_open vdb) as [f|] eqn:E; [|done]. intros [= <-]. by apply Hb.
Qed.

(** A versioned database over a versioned database over one in memory. *)
Lemma versiondb_refines_witness :
  let _ := canonical_range bytes in
  let cmds := [VDo (CPut [1] [10]); VDo (CDelete [2]); VDo (CIterate [] []); VCommit; VDo (CPut [1] [11]); VDo (CNext 0); VDo (CNext 0);
               VAbort; VDo (CGet [1])] in
  let base := v_New (mkMem (Some {[ [2] := [20]; [3] := [30] ]})) in
  (run v_step (v_New base, []) cmds).2 =
  (run v_spec_step ({[ [2] := [20]; [3] := [30] ]}, (Some {[ [2] := [20]; [3] := [30] ]}, [])) cmds).2 ∧
  (run v_step (v_New base, []) cmds).2 !! 6%nat = Some (ONext true [3] [30] None).
Proof.
  intros R cmds base. split; [|vm_compute; reflexivity].
  pose proof (versiondb_refines (VersionDB_laws MemDB_laws) base {[ [2] := [20]; [3] := [30] ]} cmds) as H.
  destruct (run v_step _ _) as [[vdb its] out], (run v_spec_step _ _) as [[b a] out'].
  apply H; [|vm_compute; reflexivity]. split; [exact I|]. split; [by eexists|exact I].
Defined.
