(* ===== verification/PrefixDB.v ===== *)
(** * Databases that share one by prefixes (package [database/prefixdb])

    [db.go]: a database that puts a prefix before every key of another one.  The
    prefix is a hash, a parameter; the pool of key buffers is left out, as keys are
    copied.  Several of these databases share the one below: operations take the
    handle and the state of the shared database. *)
From stdpp Require Import sorting.
From S2P Require Import Prelude Bytes Database MemDB.

(** ** State *)

Record PDatabase : Type := mkPDB {
  pd_dbPrefix : bytes;
  pd_dbLimit : bytes;
  pd_closed : bool;
}.

Record p_iter (It : Type) : Type := mkPIter {
  pi_Iterator : It;
  pi_key : bytes;
  pi_val : bytes;
  pi_err : option db_error;
}.
Arguments mkPIter {It} _ _ _ _.
Arguments pi_Iterator {It} _.
Arguments pi_key {It} _.
Arguments pi_val {It} _.
Arguments pi_err {It} _.

Inductive p_iterator (It : Type) : Type :=
| PIteratorError (err : db_error)
| PIterator (it : p_iter It).
Arguments PIteratorError {It} err.
Arguments PIterator {It} it.

(** A batch: the batch below, the prefix of its database, and its operations with
    prefixed keys. *)
Record p_batch (Ba : Type) : Type := mkPBatch {
  pb_Batch : Ba;
  pb_dbPrefix : bytes;
  pb_ops : list BatchOp;
}.
Arguments mkPBatch {Ba} _ _ _.
Arguments pb_Batch {Ba} _.
Arguments pb_dbPrefix {Ba} _.
Arguments pb_ops {Ba} _.

(** ** Operations *)

(** The loop of [incrementByteSlice], from the last byte. *)
Fixpoint increment_rev (buf : bytes) : bytes :=
  match buf with
  | [] => []
  | b :: buf => let b := (b + 1) mod 256 in if b =? 0 then b :: increment_rev buf else b :: buf
  end.
Definition incrementByteSlice (orig : bytes) : bytes := reverse (increment_rev (reverse orig)).

Definition newDB (prefix : bytes) : PDatabase := mkPDB prefix (incrementByteSlice prefix) false.

Section Prefix.
Context (ComputeHash256 : bytes → bytes).

Definition MakePrefix (prefix : bytes) : bytes := ComputeHash256 prefix.
Definition JoinPrefixes (firstPrefix secondPrefix : bytes) : bytes := MakePrefix (firstPrefix ++ secondPrefix).

(** [New] over a database that is itself prefixed ([Some]) or not. *)
Definition p_New (prefix : bytes) (db : option PDatabase) : PDatabase :=
  match db with
  | Some prefixDB => newDB (JoinPrefixes (pd_dbPrefix prefixDB) prefix)
  | None => newDB (MakePrefix prefix)
  end.
Definition NewNested (prefix : bytes) : PDatabase := newDB (MakePrefix prefix).
End Prefix.

Definition PrefixKey (prefix key : bytes) : bytes := prefix ++ key.

(** [prefix] *)
Definition p_prefix (db : PDatabase) (key : bytes) : bytes := pd_dbPrefix db ++ key.

Section PrefixDB.
Context `{D : Database DB It Ba}.
Abbreviation PDB := (PDatabase * DB)%type.

Definition p_Has (db : PDB) (key : bytes) : result bool db_error :=
  if pd_closed db.1 then Err ErrClosed else db_Has db.2 (p_prefix db.1 key).

Definition p_Get (db : PDB) (key : bytes) : result bytes db_error :=
  if pd_closed db.1 then Err ErrClosed else db_Get db.2 (p_prefix db.1 key).

Definition p_Put (db : PDB) (key value : bytes) : PDB * option db_error :=
  if pd_closed db.1 then (db, Some ErrClosed)
  else let '(u, err) := db_Put db.2 (p_prefix db.1 key) value in ((db.1, u), err).

Definition p_Delete (db : PDB) (key : bytes) : PDB * option db_error :=
  if pd_closed db.1 then (db, Some ErrClosed)
  else let '(u, err) := db_Delete db.2 (p_prefix db.1 key) in ((db.1, u), err).

Definition p_NewBatch (db : PDB) : p_batch Ba := mkPBatch (db_NewBatch db.2) (pd_dbPrefix db.1) [].

Definition p_NewIteratorWithStartAndPrefix (db : PDB) (start prefix : bytes) : p_iterator It :=
  if pd_closed db.1 then PIteratorError ErrClosed
  else PIterator (mkPIter (db_NewIteratorWithStartAndPrefix db.2 (p_prefix db.1 start) (p_prefix db.1 prefix)) [] [] None).

Definition p_Compact (db : PDB) (start limit : option bytes) : PDB * option db_error :=
  if pd_closed db.1 then (db, Some ErrClosed)
  else
    let prefixedStart := p_prefix db.1 (default [] start) in
    let '(u, err) :=
      match limit with
      | None => db_Compact db.2 (Some prefixedStart) (Some (pd_dbLimit db.1))
      | Some limit => db_Compact db.2 (Some prefixedStart) (Some (p_prefix db.1 limit))
      end in
    ((db.1, u), err).

Definition p_Close (db : PDB) : PDB * option db_error :=
  if pd_closed db.1 then (db, Some ErrClosed)
  else ((mkPDB (pd_dbPrefix db.1) (pd_dbLimit db.1) true, db.2), None).

Definition p_isClosed (db : PDB) : bool := pd_closed db.1.

Definition p_HealthCheck (db : PDB) : option db_error :=
  if pd_closed db.1 then Some ErrClosed else db_HealthCheck db.2.

(** [batch.Put] and [batch.Delete] *)
Definition pb_Put (b : p_batch Ba) (key value : bytes) : p_batch Ba * option db_error :=
  let prefixedKey := pb_dbPrefix b ++ key in
  let '(inner, err) := ba_Put (pb_Batch b) prefixedKey value in
  (mkPBatch inner (pb_dbPrefix b) (pb_ops b ++ [mkBatchOp prefixedKey value false]), err).

Definition pb_Delete (b : p_batch Ba) (key : bytes) : p_batch Ba * option db_error :=
  let prefixedKey := pb_dbPrefix b ++ key in
  let '(inner, err) := ba_Delete (pb_Batch b) prefixedKey in
  (mkPBatch inner (pb_dbPrefix b) (pb_ops b ++ [mkBatchOp prefixedKey [] true]), err).

(** [batch.Write] and [batch.Reset] *)
Definition pb_Write (db : PDB) (b : p_batch Ba) : PDB * option db_error :=
  if pd_closed db.1 then (db, Some ErrClosed)
  else let '(u, err) := ba_Write db.2 (pb_Batch b) in ((db.1, u), err).

Definition pb_Reset (b : p_batch Ba) : p_batch Ba := mkPBatch (ba_Reset (pb_Batch b)) (pb_dbPrefix b) [].

(** [batch.Replay] *)
Definition unprefix_op (prefix : bytes) (op : BatchOp) : BatchOp :=
  mkBatchOp (drop (length prefix) (op_Key op)) (op_Value op) (op_Delete op).
Definition pb_Replay {W} (b : p_batch Ba) (w : KeyValueWriterDeleter W) (s : W) : W * option db_error :=
  replay_ops w (map (unprefix_op (pb_dbPrefix b)) (pb_ops b)) s.

(** [iterator.Next] *)
Definition p_Next (db : PDB) (it : p_iterator It) : p_iterator It * bool :=
  match it with
  | PIteratorError _ => (it, false)
  | PIterator i =>
      if pd_closed db.1 then (PIterator (mkPIter (pi_Iterator i) [] [] (Some ErrClosed)), false)
      else
        let '(inner, hasNext) := it_Next db.2 (pi_Iterator i) in
        (PIterator
           (if (hasNext : bool) then
              let key := it_Key inner in
              let prefixLen := length (pd_dbPrefix db.1) in
              let key := if Nat.leb prefixLen (length key) then drop prefixLen key else key in
              mkPIter inner key (it_Value inner) (pi_err i)
            else mkPIter inner [] [] (pi_err i)), hasNext)
  end.

Definition p_Error (it : p_iterator It) : option db_error :=
  match it with
  | PIteratorError err => Some err
  | PIterator i => match pi_err i with Some e => Some e | None => it_Error (pi_Iterator i) end
  end.

Definition p_Key (it : p_iterator It) : bytes := match it with PIteratorError _ => [] | PIterator i => pi_key i end.
Definition p_Value (it : p_iterator It) : bytes := match it with PIteratorError _ => [] | PIterator i => pi_val i end.

(** [Release] is that of the embedded iterator. *)
Definition p_Release (it : p_iterator It) : p_iterator It :=
  match it with
  | PIteratorError _ => it
  | PIterator i => PIterator (mkPIter (it_Release (pi_Iterator i)) (pi_key i) (pi_val i) (pi_err i))
  end.

#[global] Instance PrefixDB : Database PDB (p_iterator It) (p_batch Ba) := {|
  db_Has := p_Has;
  db_Get := p_Get;
  db_Put := p_Put;
  db_Delete := p_Delete;
  db_NewBatch := p_NewBatch;
  db_NewIteratorWithStartAndPrefix := p_NewIteratorWithStartAndPrefix;
  db_Compact := p_Compact;
  db_Close := p_Close;
  db_HealthCheck := p_HealthCheck;
  it_Next := p_Next;
  it_Error := p_Error;
  it_Key := p_Key;
  it_Value := p_Value;
  it_Release := p_Release;
  ba_Put := pb_Put;
  ba_Delete := pb_Delete;
  ba_Size b := ba_Size (pb_Batch b);
  ba_Write := pb_Write;
  ba_Reset := pb_Reset;
|}.
End PrefixDB.

(** ** The part of a map under a prefix *)

Definition strip (p : bytes) (x : bytes * bytes) : bytes * bytes := (drop (length p) x.1, x.2).

Definition view (p : bytes) (m : kvmap) : kvmap :=
  list_to_map (map (strip p) (filter (λ x, HasPrefix x.1 p = true) (map_to_list m))).

Lemma HasPrefix_drop k p : HasPrefix k p = true → k = p ++ drop (length p) k.
Proof. intros (t & ->)%HasPrefix_spec. by rewrite drop_app_length. Qed.

Lemma HasPrefix_refl p k : HasPrefix (p ++ k) p = true.
Proof. apply HasPrefix_spec. by exists k. Qed.

Lemma strip_keys_NoDup p (l : list (bytes * bytes)) :
  NoDup l.*1 → Forall (λ x, HasPrefix x.1 p = true) l → NoDup (map (strip p) l).*1.
Proof.
  induction l as [|[k v] l IH]; simpl; [done|]. intros [Hn Hnd]%NoDup_cons [Hp Hf]%Forall_cons. apply NoDup_cons. split; [|by apply IH].
  intros (y & Hy & (x & -> & Hx)%list_elem_of_fmap)%list_elem_of_fmap. simpl in *. destruct Hn.
  rewrite (HasPrefix_drop k p Hp), Hy. rewrite Forall_forall in Hf. simpl. rewrite <- (HasPrefix_drop _ _ (Hf x Hx)).
  apply list_elem_of_fmap. by exists x.
Qed.

Lemma elem_of_strip p l k v :
  Forall (λ x : bytes * bytes, HasPrefix x.1 p = true) l → (k, v) ∈ map (strip p) l ↔ (p ++ k, v) ∈ l.
Proof.
  intros Hf. rewrite Forall_forall in Hf. rewrite list_elem_of_fmap. split.
  - intros ([k' v'] & [= -> ->] & Hin). by rewrite <- (HasPrefix_drop k' p (Hf _ Hin)).
  - intros Hin. exists (p ++ k, v). split; [|done]. unfold strip. simpl. by rewrite drop_app_length.
Qed.

Lemma lookup_view p m k : view p m !! k = m !! (p ++ k).
Proof.
  unfold view. set (l := filter _ _). assert (Forall (λ x : bytes * bytes, HasPrefix x.1 p = true) l) as Hf.
  { apply Forall_forall. intros x Hx. by apply list_elem_of_filter in Hx as [? _]. }
  assert (NoDup l.*1) as Hnd by (apply NoDup_fst_filter, NoDup_fst_map_to_list).
  assert (∀ v, (p ++ k, v) ∈ l ↔ m !! (p ++ k) = Some v) as Hl.
  { intros v. unfold l. rewrite list_elem_of_filter, elem_of_map_to_list. simpl. rewrite HasPrefix_refl. tauto. }
  destruct (m !! (p ++ k)) as [v|] eqn:E.
  - apply elem_of_list_to_map; [by apply strip_keys_NoDup|]. apply elem_of_strip; [done|]. by apply Hl.
  - apply not_elem_of_list_to_map. intros ([k' v] & -> & Hin)%list_elem_of_fmap.
    apply (elem_of_strip p l k' v Hf) in Hin. simpl in *. apply Hl in Hin. congruence.
Qed.

Lemma app_eq_prefix (p a b : bytes) : p ++ a = p ++ b ↔ a = b.
Proof. split; [apply app_inv_head|by intros ->]. Qed.

Lemma view_insert p m k v : view p (<[p ++ k := v]> m) = <[k := v]> (view p m).
Proof.
  apply map_eq. intros x. rewrite lookup_view. destruct (decide (k = x)) as [->|Hne].
  - by rewrite !lookup_insert_eq.
  - rewrite !lookup_insert_ne by (try done; by intros ?%app_eq_prefix). by rewrite lookup_view.
Qed.

Lemma view_delete p m k : view p (delete (p ++ k) m) = delete k (view p m).
Proof.
  apply map_eq. intros x. rewrite lookup_view. destruct (decide (k = x)) as [->|Hne].
  - by rewrite !lookup_delete_eq.
  - rewrite !lookup_delete_ne by (try done; by intros ?%app_eq_prefix). by rewrite lookup_view.
Qed.

Lemma view_apply_ops p ops m :
  Forall (λ op, HasPrefix (op_Key op) p = true) ops →
  view p (apply_ops ops m) = apply_ops (map (unprefix_op p) ops) (view p m).
Proof.
  intros Hf. revert m. induction Hf as [|[k v d] ops Hop Hf IH]; intros m; [done|]. simpl in *. rewrite IH. f_equal.
  unfold apply_op. simpl. apply HasPrefix_spec in Hop as (t & ->). rewrite drop_app_length.
  destruct d; [apply view_delete|apply view_insert].
Qed.

Lemma view_listing p m start prefix l :
  listing m (p ++ start) (p ++ prefix) l → listing (view p m) start prefix (map (strip p) l).
Proof.
  intros Hl. assert (Forall (λ x : bytes * bytes, HasPrefix x.1 p = true) l) as Hf.
  { apply Forall_forall. intros [k v] (_ & (t & ->)%HasPrefix_spec & _)%(listing_elem _ _ _ _ Hl). simpl.
    rewrite <- app_assoc. apply HasPrefix_refl. }
  split.
  - pose proof (listing_sorted _ _ _ _ Hl) as Hs. clear Hl. induction l as [|[k v] l IH]; simpl in *; [constructor|].
    apply StronglySorted_inv in Hs as [Hs Hk]. apply Forall_cons in Hf as [Hp Hf]. constructor; [by apply IH|].
    rewrite Forall_forall in Hk. rewrite Forall_forall in Hf. apply Forall_forall. intros y (z & -> & (x & -> & Hx)%list_elem_of_fmap)%list_elem_of_fmap. simpl.
    apply (blt_app p). rewrite <- (HasPrefix_drop k p Hp), <- (HasPrefix_drop _ _ (Hf x Hx)). apply Hk.
    apply list_elem_of_fmap. by exists x.
  - intros k v. rewrite elem_of_strip by done. rewrite (listing_elem _ _ _ _ Hl), lookup_view, HasPrefix_app, ble_app. done.
Qed.

(** ** The contract *)

Section Laws.
Context `{D : Database DB It Ba} (L : DatabaseLaws D) (p : bytes).
Implicit Types (db : PDatabase * DB).

Definition p_contents db : option kvmap := if pd_closed db.1 then None else view p <$> contents db.2.

Definition p_inv db : Prop := pd_dbPrefix db.1 = p ∧ db_inv db.2 ∧ is_Some (contents db.2).

Definition p_it_inv (it : p_iterator It) : Prop :=
  match it with
  | PIteratorError e => e = ErrClosed
  | PIterator i => it_inv (pi_Iterator i) ∧ Forall (λ x, HasPrefix x.1 p = true) (it_rest (pi_Iterator i))
  end.

Definition p_rest (it : p_iterator It) : list (bytes * bytes) :=
  match it with PIteratorError _ => [] | PIterator i => map (strip p) (it_rest (pi_Iterator i)) end.

Definition pb_inv (b : p_batch Ba) : Prop :=
  pb_dbPrefix b = p ∧ ba_inv (pb_Batch b) ∧ pending (pb_Batch b) = pb_ops b ∧
  Forall (λ op, HasPrefix (op_Key op) p = true) (pb_ops b).

Lemma p_Next_law db it m :
  p_inv db → p_contents db = Some m → p_it_inv it → p_Error it = None →
  let '(it', more) := p_Next db it in
  p_it_inv it' ∧ p_Error it' = None ∧ p_rest it' = tail (p_rest it) ∧
  more = bool_decide (p_rest it ≠ []) ∧ (p_Key it', p_Value it') = hd ([], []) (p_rest it).
Proof.
  intros (Hp & Hi & [mu Hc]) Hm Hit He. unfold p_contents in Hm. destruct (pd_closed db.1) eqn:Hcl; [done|].
  destruct it as [e|i]; [done|]. simpl in *. rewrite Hcl. destruct (pi_err i) eqn:Herr; [done|]. destruct Hit as [Hit Hf].
  pose proof (Next_law _ _ _ Hi Hc Hit He) as H. destruct (it_Next db.2 (pi_Iterator i)) as [inner more].
  destruct H as (Hit' & He' & Hr & -> & Hkv). destruct (it_rest (pi_Iterator i)) as [|[k v] l] eqn:El; simpl in *.
  - rewrite Hr. done.
  - apply Forall_cons in Hf as [Hk Hf]. injection Hkv as -> ->. rewrite Hr, Hp. split; [done|]. split; [done|]. split; [done|].
    split; [done|]. unfold strip. simpl. f_equal. pose proof (HasPrefix_drop k p Hk) as Hd.
    destruct (Nat.leb_spec (length p) (length k)) as [|Hlt]; [done|]. apply (f_equal length) in Hd. rewrite length_app in Hd. lia.
Qed.

Lemma p_NewIterator_law db start prefix :
  p_inv db →
  p_it_inv (p_NewIteratorWithStartAndPrefix db start prefix) ∧
  p_Error (p_NewIteratorWithStartAndPrefix db start prefix) = closed_error (p_contents db) ∧
  ∀ m, p_contents db = Some m → listing m start prefix (p_rest (p_NewIteratorWithStartAndPrefix db start prefix)).
Proof.
  intros (Hp & Hi & [mu Hc]). unfold p_NewIteratorWithStartAndPrefix, p_contents. destruct (pd_closed db.1); [done|].
  unfold p_prefix. rewrite Hp. destruct (NewIterator_law db.2 (p ++ start) (p ++ prefix) Hi) as (Hit & He & Hl). rewrite Hc in *. simpl in *.
  specialize (Hl _ eq_refl). split; [split; [done|]|].
  - apply Forall_forall. intros [k v] (_ & (t & ->)%HasPrefix_spec & _)%(listing_elem _ _ _ _ Hl). simpl. rewrite <- app_assoc. apply HasPrefix_refl.
  - split; [done|]. intros m [= <-]. by apply view_listing.
Qed.

#[global] Instance PrefixDB_laws : DatabaseLaws PrefixDB.
Proof.
  refine {| db_inv := p_inv; contents := p_contents; it_inv := p_it_inv; it_rest := p_rest; ba_inv := pb_inv;
            pending b := map (unprefix_op p) (pb_ops b) |}; simpl.
  - intros db k (Hp & Hi & [m Hc]). unfold p_Has, p_contents. destruct (pd_closed db.1); [done|].
    rewrite (Has_law _ _ Hi), Hc. simpl. unfold p_prefix. by rewrite lookup_view, Hp.
  - intros db k (Hp & Hi & [m Hc]). unfold p_Get, p_contents. destruct (pd_closed db.1); [done|].
    rewrite (Get_law _ _ Hi), Hc. simpl. unfold p_prefix. by rewrite lookup_view, Hp.
  - intros db k v (Hp & Hi & [m Hc]). unfold p_Put, p_contents, p_inv. destruct (pd_closed db.1) eqn:E; simpl; [by rewrite E, Hc|].
    destruct (Put_law _ (p_prefix db.1 k) v Hi) as (Hi' & Hc' & He). destruct (db_Put db.2 (p_prefix db.1 k) v) as [u e]. simpl in *.
    rewrite He, E, Hc', Hc. simpl. unfold p_prefix. rewrite Hp, view_insert. done.
  - intros db k (Hp & Hi & [m Hc]). unfold p_Delete, p_contents, p_inv. destruct (pd_closed db.1) eqn:E; simpl; [by rewrite E, Hc|].
    destruct (Delete_law _ (p_prefix db.1 k) Hi) as (Hi' & Hc' & He). destruct (db_Delete db.2 (p_prefix db.1 k)) as [u e]. simpl in *.
    rewrite He, E, Hc', Hc. simpl. unfold p_prefix. rewrite Hp, view_delete. done.
  - intros db start limit (Hp & Hi & [m Hc]). unfold p_Compact, p_contents, p_inv. destruct (pd_closed db.1) eqn:E; simpl; [by rewrite E, Hc|].
    destruct limit as [limit|];
      (match goal with |- context [db_Compact ?u ?a ?b] => destruct (Compact_law u a b Hi) as (Hi' & Hc' & He); destruct (db_Compact u a b) as [u' e] end);
      simpl in *; by rewrite He, E, Hc', Hc.
  - intros db (Hp & Hi & [m Hc]). unfold p_Close, p_contents, p_inv. destruct (pd_closed db.1) eqn:E; simpl; by rewrite ?E, Hc.
  - intros db (Hp & Hi & [m Hc]). unfold p_HealthCheck, p_contents. destruct (pd_closed db.1); [done|]. by rewrite (HealthCheck_law _ Hi), Hc.
  - apply p_NewIterator_law.
  - apply p_Next_law.
  - intros db it (Hp & Hi & [m Hc]) Hcl Hit. unfold p_contents in Hcl. destruct (pd_closed db.1) eqn:E; [|by rewrite Hc in Hcl].
    destruct it as [e|i]; simpl in *; [by subst e|]. by rewrite E.
  - intros db (Hp & Hi & _). destruct (NewBatch_law _ Hi) as [Hb Hpe]. done.
  - intros b k v (Hp & Hb & Hpe & Hf). unfold pb_Put. destruct (ba_Put_law _ (pb_dbPrefix b ++ k) v Hb) as (Hb' & Hp' & He).
    destruct (ba_Put (pb_Batch b) (pb_dbPrefix b ++ k) v) as [b' e]. simpl in *. subst e. unfold pb_inv. simpl. rewrite Hp', Hpe.
    rewrite map_app. simpl. unfold unprefix_op at 2. simpl. rewrite Hp, drop_app_length. split; [|done]. split; [done|]. split; [done|].
    split; [done|]. apply Forall_app. split; [done|]. constructor; [apply HasPrefix_refl|done].
  - intros b k (Hp & Hb & Hpe & Hf). unfold pb_Delete. destruct (ba_Delete_law _ (pb_dbPrefix b ++ k) Hb) as (Hb' & Hp' & He).
    destruct (ba_Delete (pb_Batch b) (pb_dbPrefix b ++ k)) as [b' e]. simpl in *. subst e. unfold pb_inv. simpl. rewrite Hp', Hpe.
    rewrite map_app. simpl. unfold unprefix_op at 2. simpl. rewrite Hp, drop_app_length. split; [|done]. split; [done|]. split; [done|].
    split; [done|]. apply Forall_app. split; [done|]. constructor; [apply HasPrefix_refl|done].
  - intros b (Hp & Hb & _). destruct (ba_Reset_law _ Hb) as [? ?]. done.
  - intros db b (Hp & Hi & [m Hc]) (Hpb & Hb & Hpe & Hf). unfold pb_Write, p_contents, p_inv. destruct (pd_closed db.1) eqn:E; simpl; [by rewrite E, Hc|].
    destruct (ba_Write_law _ _ Hi Hb) as (Hi' & Hc' & He). destruct (ba_Write db.2 (pb_Batch b)) as [u e]. simpl in *.
    rewrite He, E, Hc', Hc. simpl. rewrite Hpe, view_apply_ops by done. done.
Defined.
End Laws.

(** ** Several databases over one *)

Section Shared.
Context `{D : Database DB It Ba} (L : DatabaseLaws D).
#[local] Existing Instance PrefixDB_laws.

(** A command for the [i]th of the databases that share one. *)
Definition shared_step (s : list (PDatabase * list (p_iterator It)) * DB) (c : nat * db_cmd)
    : (list (PDatabase * list (p_iterator It)) * DB) * db_out :=
  let '(hs, u) := s in
  match hs !! c.1 with
  | None => (s, ONone)
  | Some (h, its) =>
      let '((h, u, its), o) := db_step ((h, u), its) c.2 in
      ((<[c.1 := (h, its)]> hs, u), o)
  end.

Definition shared_spec_step (a : list spec_state) (c : nat * db_cmd) : list spec_state * db_out :=
  match a !! c.1 with
  | None => (a, ONone)
  | Some s => let '(s, o) := spec_step s c.2 in (<[c.1 := s]> a, o)
  end.

(** What a command on one handle does to the shared database: nothing outside of
    its prefix. *)
Lemma db_step_frame p h u its c m :
  p_inv L p (h, u) → contents u = Some m →
  let u' := (db_step ((h, u), its) c).1.1.2 in
  db_inv u' ∧ ∃ m', contents u' = Some m' ∧ ∀ k, HasPrefix k p = false → m' !! k = m !! k.
Proof.
  intros (Hp & Hi & _) Hc. simpl in Hp, Hi.
  assert (db_inv u ∧ ∃ m', contents u = Some m' ∧ ∀ k, HasPrefix k p = false → m' !! k = m !! k) as Hsame by (split; [done|by exists m]).
  assert (∀ k x, HasPrefix k p = false → p ++ x ≠ k) as Hne.
  { intros k x Hk <-. by rewrite HasPrefix_refl in Hk. }
  destruct c as [k|k|k v|k|ops|start prefix|i|start limit| |]; simpl; try exact Hsame.
  - unfold p_Put, p_prefix. simpl. destruct (pd_closed h); [exact Hsame|].
    destruct (Put_law u (pd_dbPrefix h ++ k) v Hi) as (Hi' & Hc' & _). destruct (db_Put u (pd_dbPrefix h ++ k) v) as [u' e]. simpl in *.
    rewrite Hc', Hc, Hp. split; [done|]. eexists. split; [done|]. intros x Hx. by rewrite lookup_insert_ne by by apply Hne.
  - unfold p_Delete, p_prefix. simpl. destruct (pd_closed h); [exact Hsame|].
    destruct (Delete_law u (pd_dbPrefix h ++ k) Hi) as (Hi' & Hc' & _). destruct (db_Delete u (pd_dbPrefix h ++ k)) as [u' e]. simpl in *.
    rewrite Hc', Hc, Hp. split; [done|]. eexists. split; [done|]. intros x Hx. by rewrite lookup_delete_ne by by apply Hne.
  - unfold write_batch. destruct (NewBatch_law (h, u) (DatabaseLaws := PrefixDB_laws L p)) as [Hb _]; [by split|].
    destruct (replay_batch (PrefixDB_laws L p) ops _ Hb) as (b & -> & (_ & Hbi & Hpe & Hf) & _). simpl.
    unfold pb_Write. simpl. destruct (pd_closed h); [exact Hsame|]. destruct (ba_Write_law u _ Hi Hbi) as (Hi' & Hc' & _).
    destruct (ba_Write u (pb_Batch b)) as [u' e]. simpl in *. rewrite Hc', Hc, Hpe. split; [done|]. eexists. split; [done|]. intros x Hx.
    clear -Hf Hx Hne. generalize m. induction Hf as [|[k v d] l Hk _ IH]; intros m'; [done|]. simpl in *. rewrite IH. unfold apply_op. simpl.
    assert (k ≠ x) by (intros ->; congruence). destruct d; [by apply lookup_delete_ne|by apply lookup_insert_ne].
  - destruct (its !! i) as [it|]; [|exact Hsame]. by destruct (p_Next (h, u) it).
  - unfold p_Compact. simpl. destruct (pd_closed h); [exact Hsame|].
    destruct limit as [limit|];
      (match goal with |- context [db_Compact ?u ?a ?b] => destruct (Compact_law u a b Hi) as (Hi' & Hc' & He); destruct (db_Compact u a b) as [u' e] end);
      simpl in *; rewrite Hc'; (split; [done|]); by exists m.
  - unfold p_Close. simpl. by destruct (pd_closed h).
Qed.

(** Prefixes at different places, none of which extends the other. *)
Definition apart (ps : list bytes) : Prop := ∀ i j p q, ps !! i = Some p → ps !! j = Some q → i ≠ j → HasPrefix q p = false.

Lemma other_prefix (p q k : bytes) : HasPrefix q p = false → HasPrefix p q = false → HasPrefix (q ++ k) p = false.
Proof.
  rewrite <- !not_true_iff_false, !HasPrefix_spec. intros Hqp Hpq (t & Ht). destruct (Nat.le_ge_cases (length p) (length q)) as [Hle|Hge].
  - apply Hqp. exists (drop (length p) q). rewrite <- (take_drop (length p) q) at 1. f_equal. apply (f_equal (take (length p))) in Ht. rewrite take_app_le, take_app_length in Ht by done. done.
  - apply Hpq. exists (drop (length q) p). rewrite <- (take_drop (length q) p) at 1. f_equal. apply (f_equal (take (length q))) in Ht. rewrite take_app_length, take_app_le in Ht by done. done.
Qed.

(** Each handle with its iterators refines its own abstract database. *)
Record shared_refines (ps : list bytes) (s : list (PDatabase * list (p_iterator It)) * DB) (a : list spec_state) : Prop := {
  sh_inv : db_inv s.2;
  sh_open : is_Some (contents s.2);
  sh_all : Forall2 (λ '(p, x) a, refines (PrefixDB_laws L p) ((x.1, s.2), x.2) a) (zip ps s.1) a;
  sh_len : length s.1 = length ps;
}.

Lemma refines_frame p h u its a u' m m' :
  refines (PrefixDB_laws L p) ((h, u), its) a → db_inv u' → contents u = Some m → contents u' = Some m' →
  view p m' = view p m → refines (PrefixDB_laws L p) ((h, u'), its) a.
Proof.
  intros [(Hp & Hi & _) Hc Hits] Hi' Hm Hm' Hv. simpl in *. split; simpl; [|rewrite <- Hc|done].
  { split; [done|]. split; [done|]. simpl. by rewrite Hm'. }
  unfold p_contents. simpl. destruct (pd_closed h); [done|]. rewrite Hm, Hm'. simpl. by rewrite Hv.
Qed.

Lemma shared_step_refines ps s a c :
  apart ps → shared_refines ps s a →
  shared_refines ps (shared_step s c).1 (shared_spec_step a c).1 ∧ (shared_step s c).2 = (shared_spec_step a c).2.
Proof.
  intros Hapart Hr. destruct s as [hs u], c as [i c]. pose proof Hr as [Hi [m Hm] Hall Hl]. cbn [fst snd] in *.
  unfold shared_step, shared_spec_step. cbn [fst snd]. destruct (hs !! i) as [[h its]|] eqn:Eh.
  - assert (is_Some (ps !! i)) as [p Ep] by (apply lookup_lt_is_Some; rewrite <- Hl; by apply lookup_lt_Some in Eh).
    assert (zip ps hs !! i = Some (p, (h, its))) as Ez by (apply lookup_zip_Some; by split).
    destruct (Forall2_lookup_l _ _ _ _ _ Hall Ez) as (sa & Ea & Href). rewrite Ea. simpl in Href.
    destruct (refines_step _ _ _ c Href) as [Href' Ho]. pose proof (db_step_frame p h u its c m (ref_inv _ _ _ Href) Hm) as Hframe.
    destruct (db_step (h, u, its) c) as [[[h' u'] its'] o]. cbn [fst snd] in *. destruct (spec_step sa c) as [sa' o'] eqn:Es. cbn [fst snd] in *.
    destruct Hframe as (Hi' & m' & Hm' & Hout). split; [|done]. split; simpl; [done|by rewrite Hm'| |by rewrite length_insert].
    assert (zip ps (<[i := (h', its')]> hs) = <[i := (p, (h', its'))]> (zip ps hs)) as ->.
    { rewrite <- (list_insert_id ps i p Ep) at 1. symmetry. apply insert_zip_with. }
    apply Forall2_same_length_lookup. split; [rewrite !length_insert; by apply Forall2_length in Hall|].
    intros j [q x] b Hx Hb. destruct (decide (j = i)) as [->|Hji].
    + rewrite list_lookup_insert_eq in Hx by by apply lookup_lt_Some in Ez. rewrite list_lookup_insert_eq in Hb by by apply lookup_lt_Some in Ea.
      injection Hx as <- <-. injection Hb as <-. done.
    + rewrite list_lookup_insert_ne in Hx by done. rewrite list_lookup_insert_ne in Hb by done. destruct x as [hx ix]. simpl.
      apply (refines_frame q hx u ix b u' m m'); [|done..|].
      * apply Forall2_same_length_lookup in Hall as [_ Hall]. by apply (Hall j (q, (hx, ix)) b).
      * apply lookup_zip_Some in Hx as [Hq _]. apply map_eq. intros k. rewrite !lookup_view. apply Hout. apply other_prefix; [by apply (Hapart i j)|by apply (Hapart j i)].
  - assert (a !! i = None) as ->; [|done]. apply lookup_ge_None. apply lookup_ge_None in Eh.
    rewrite <- (Forall2_length _ _ _ Hall), length_zip. lia.
Qed.

Lemma shared_run_refines ps s a cs :
  apart ps → shared_refines ps s a →
  (run shared_step s cs).2 = (run shared_spec_step a cs).2.
Proof.
  intros Hapart. revert s a. induction cs as [|c cs IH]; intros s a Hr; [done|]. simpl.
  destruct (shared_step_refines ps s a c Hapart Hr) as [Hr' Ho]. destruct (shared_step s c) as [s' o], (shared_spec_step a c) as [a' o'].
  simpl in *. pose proof (IH s' a' Hr') as Hos. destruct (run shared_step s' cs), (run shared_spec_step a' cs). simpl in *. by rewrite Ho, Hos.
Qed.

Lemma shared_init ps u m :
  db_inv u → contents u = Some m →
  shared_refines ps (map (λ p, (newDB p, [])) ps, u) (map (λ p, (Some (view p m), [])) ps).
Proof.
  intros Hi Hm. split; simpl; [done|by rewrite Hm| |by rewrite length_map]. induction ps as [|p ps IH]; simpl; constructor; [|done].
  split; simpl; [|unfold p_contents; simpl; by rewrite Hm|done]. split; [done|]. split; [done|]. simpl. by rewrite Hm.
Qed.
End Shared.

(** C25: Databases over any database that keeps the contract, with prefixes none of
    which extends another, are independent of each other: whatever commands are
    interleaved on them, each answers as an abstract database of its own, which
    starts with the part of the shared database under its prefix. *)
Theorem prefixdb_isolated `{D : Database DB It Ba} (L : DatabaseLaws D) (ps : list bytes) (db : DB) (m : kvmap) (cmds : list (nat * db_cmd)) :
  db_inv db → contents db = Some m → apart ps →
  (run shared_step (map (λ p, (newDB p, [])) ps, db) cmds).2 =
  (run shared_spec_step (map (λ p, (Some (view p m), [])) ps) cmds).2.
Proof. intros Hi Hm Hapart. apply (shared_run_refines L ps); [done..|]. by apply shared_init. Qed.

(** Two databases over one in memory. *)
Lemma prefixdb_isolated_witness :
  let _ := canonical_range bytes in
  let ps := [[7; 1]; [7; 2; 0]] in
  let cmds := [(0%nat, CPut [1] [10]); (1%nat, CPut [1] [20]); (0%nat, CIterate [] []); (1%nat, CDelete [1]); (0%nat, CNext 0); (1%nat, CGet [1])] in
  (run shared_step (map (λ p, (newDB p, [])) ps, mem_New) cmds).2 =
  (run shared_spec_step (map (λ p, (Some (view p ∅), [])) ps) cmds).2 ∧
  (run shared_step (map (λ p, (newDB p, [])) ps, mem_New) cmds).2 !! 4%nat = Some (ONext true [1] [10] None).
Proof.
  intros R ps cmds. split; [|vm_compute; reflexivity].
  apply (prefixdb_isolated MemDB_laws ps mem_New ∅ cmds); [exact I|reflexivity|].
  intros [|[|?]] [|[|?]] p q Hp Hq Hij; simpl in Hp, Hq; try discriminate; try (by destruct Hij); injection Hp as <-; injection Hq as <-; reflexivity.
Defined.
