(* ===== verification/IntervalTree.v ===== *)
(** * The set of fetched heights (package [bootstrap/interval])

    [interval.go], [tree.go], [state.go] and [blocks.go]: a set of 64-bit heights
    kept as a search tree of intervals in memory and, one key per interval, in a
    database.  The search tree is [github.com/google/btree], a class with its
    documented laws.  Its items are pointers to intervals that are modified in
    place: intervals live in a heap, a pointer is an index. *)
From stdpp Require Import sorting.
From S2P Require Import Prelude Bytes Database MemDB.

(** ** The search tree

    A tree compares its items by [less].  The iteration methods give the items
    they visit, in order; a callback that returns false after the first one sees
    the head. *)
Class BTree (T A : Type) : Type := {
  bt_NewG : T;
  bt_ReplaceOrInsert : (A → A → bool) → T → A → T;
  bt_Delete : (A → A → bool) → T → A → T;
  bt_AscendGreaterOrEqual : (A → A → bool) → T → A → list A;
  bt_DescendLessOrEqual : (A → A → bool) → T → A → list A;
  bt_Ascend : T → list A;
  bt_Len : T → Z;
}.

(** [less] is a strict weak order on [l]: a comparison of keys. *)
Definition compares {A} (less : A → A → bool) (l : list A) : Prop :=
  ∃ key : A → Z, ∀ x y, x ∈ l → y ∈ l → less x y = (key x <? key y).

(** What the methods do to the items in order, as long as the order of the items
    in the tree agrees with the comparison. *)
Class BTreeLaws {T A} (B : BTree T A) : Type := {
  items : T → list A;
  items_NewG : items bt_NewG = [];
  items_ReplaceOrInsert less t x : compares less (x :: items t) → StronglySorted (λ a b, less a b = true) (items t) →
    items (bt_ReplaceOrInsert less t x) = filter (λ y, less y x = true) (items t) ++ x :: filter (λ y, less x y = true) (items t);
  items_Delete less t x : compares less (x :: items t) → StronglySorted (λ a b, less a b = true) (items t) →
    items (bt_Delete less t x) = filter (λ y, less y x || less x y = true) (items t);
  items_AscendGreaterOrEqual less t x : compares less (x :: items t) → StronglySorted (λ a b, less a b = true) (items t) →
    bt_AscendGreaterOrEqual less t x = filter (λ y, less y x = false) (items t);
  items_DescendLessOrEqual less t x : compares less (x :: items t) → StronglySorted (λ a b, less a b = true) (items t) →
    bt_DescendLessOrEqual less t x = reverse (filter (λ y, less x y = false) (items t));
  items_Ascend t : bt_Ascend t = items t;
  items_Len t : bt_Len t = Z.of_nat (length (items t));
}.

(** ** Intervals ([interval.go]) *)

Record Interval : Type := mkInterval {
  LowerBound : Z;
  UpperBound : Z;
}.

Definition Less (i other : Interval) : bool := UpperBound i <? UpperBound other.

(** Methods that accept a nil pointer. *)
Definition Contains (i : option Interval) (height : Z) : bool :=
  match i with
  | None => false
  | Some i => (LowerBound i <=? height) && (height <=? UpperBound i)
  end.

Definition AdjacentToLowerBound (i : option Interval) (height : Z) : bool :=
  match i with
  | None => false
  | Some i => (height <? MaxUint64) && (wrap64 (height + 1) =? LowerBound i)
  end.

Definition AdjacentToUpperBound (i : option Interval) (height : Z) : bool :=
  match i with
  | None => false
  | Some i => (UpperBound i <? MaxUint64) && (wrap64 (UpperBound i + 1) =? height)
  end.

(** ** Persisted intervals and blocks ([state.go]) *)

Inductive iv_error : Type :=
| DbError (e : db_error)
| errInvalidKeyLength.

Definition intervalPrefixByte : Z := 0.
Definition blockPrefixByte : Z := 1.
Definition prefixLen : Z := 1.
Definition intervalPrefix : bytes := [intervalPrefixByte].
Definition blockPrefix : bytes := [blockPrefixByte].

Definition makeIntervalKey (upperBound : Z) : bytes := intervalPrefix ++ PackUInt64 upperBound.
Definition makeBlockKey (height : Z) : bytes := blockPrefix ++ PackUInt64 height.

Section Writers.
Context {W : Type} (w : KeyValueWriterDeleter W).

Definition PutInterval (db : W) (upperBound lowerBound : Z) : W * option db_error :=
  PutUInt64 w db (makeIntervalKey upperBound) lowerBound.
Definition DeleteInterval (db : W) (upperBound : Z) : W * option db_error := w_Delete w db (makeIntervalKey upperBound).
Definition PutBlock (db : W) (height : Z) (bytes : bytes) : W * option db_error := w_Put w db (makeBlockKey height) bytes.
Definition DeleteBlock (db : W) (height : Z) : W * option db_error := w_Delete w db (makeBlockKey height).
End Writers.

Section Readers.
Context `{D : Database DB It Ba}.

(** The loop of [GetIntervals] *)
Fixpoint get_intervals_loop (fuel : nat) (db : DB) (it : It) (intervals : list Interval) : option (result (list Interval) iv_error) :=
  match fuel with
  | O => None
  | S fuel =>
      let '(it, more) := it_Next db it in
      if (more : bool) then
        let dbKey := it_Key it in
        if Z.of_nat (length dbKey) <? prefixLen then Some (Err errInvalidKeyLength) else
        match ParseUInt64 (drop (Z.to_nat prefixLen) dbKey) with
        | Err e => Some (Err (DbError e))
        | Ok upperBound =>
            match ParseUInt64 (it_Value it) with
            | Err e => Some (Err (DbError e))
            | Ok lowerBound => get_intervals_loop fuel db it (intervals ++ [mkInterval lowerBound upperBound])
            end
        end
      else Some (match it_Error it with Some e => Err (DbError e) | None => Ok intervals end)
  end.

(** [GetIntervals]; with an error the intervals are not used. *)
Definition GetIntervals (fuel : nat) (db : DB) : option (result (list Interval) iv_error) :=
  get_intervals_loop fuel db (NewIteratorWithPrefix db intervalPrefix) [].

Definition GetBlockIterator (db : DB) : It := NewIteratorWithPrefix db blockPrefix.
Definition GetBlockIteratorWithStart (db : DB) (height : Z) : It :=
  db_NewIteratorWithStartAndPrefix db (makeBlockKey height) blockPrefix.
Definition GetBlock (db : DB) (height : Z) : result bytes db_error := db_Get db (makeBlockKey height).
End Readers.

(** ** The tree ([tree.go]) *)

Record Tree (T : Type) : Type := mkTree {
  t_heap : list Interval;
  knownHeights : T;
  numKnownHeights : Z;
}.
Arguments mkTree {T} _ _ _.
Arguments t_heap {T} _.
Arguments knownHeights {T} _.
Arguments numKnownHeights {T} _.

(** [Less] on pointers into the heap. *)
Definition less_at (heap : list Interval) (a b : nat) : bool :=
  match heap !! a, heap !! b with Some i, Some j => Less i j | _, _ => false end.

Section Tree.
Context `{B : BTree T nat}.
Abbreviation tree := (Tree T).

(** A pointer that may be nil. *)
Definition deref (heap : list Interval) (p : option nat) : option Interval := p ≫= λ p, heap !! p.

(** The body of the loop of [NewTree] *)
Definition new_tree_insert (t : tree) (i : Interval) : tree :=
  let heap := t_heap t ++ [i] in
  mkTree heap (bt_ReplaceOrInsert (less_at heap) (knownHeights t) (length (t_heap t)))
    (wrap64 (numKnownHeights t + (UpperBound i - LowerBound i + 1))).

(** [NewTree] *)
Definition NewTree `{D : Database DB It Ba} (fuel : nat) (db : DB) : option (result tree iv_error) :=
  r ← GetIntervals fuel db;
  Some (match r with
        | Err e => Err e
        | Ok intervals => Ok (foldl new_tree_insert (mkTree [] bt_NewG 0) intervals)
        end).

(** The first item from [height] up, and the first one down, with a new interval
    of that height as the pivot, at the end of the heap. *)
Definition find_upper (heap : list Interval) (t : T) (pivot : nat) : option nat :=
  head (bt_AscendGreaterOrEqual (less_at heap) t pivot).
Definition find_lower (heap : list Interval) (t : T) (pivot : nat) : option nat :=
  head (bt_DescendLessOrEqual (less_at heap) t pivot).

Section Writing.
Context {W : Type} (w : KeyValueWriterDeleter W).

(** [Tree.Add] *)
Definition Tree_Add (t : tree) (db : W) (height : Z) : tree * W * option db_error :=
  let newInterval := length (t_heap t) in
  let heap := t_heap t ++ [mkInterval height height] in
  let kh := knownHeights t in
  let upperp := find_upper heap kh newInterval in
  let upper := deref heap upperp in
  if Contains upper height then (mkTree heap kh (numKnownHeights t), db, None) else
  let lowerp := find_lower heap kh newInterval in
  let lower := deref heap lowerp in
  let num := wrap64 (numKnownHeights t + 1) in
  match upperp, upper, lowerp, lower, AdjacentToLowerBound upper height, AdjacentToUpperBound lower height with
  | Some up, Some u, Some lp, Some l, true, true =>
      let '(db, err) := DeleteInterval w db (UpperBound l) in
      match err with
      | Some e => (mkTree heap kh num, db, Some e)
      | None =>
          let heap := <[up := mkInterval (LowerBound l) (UpperBound u)]> heap in
          let kh := bt_Delete (less_at heap) kh lp in
          let '(db, err) := PutInterval w db (UpperBound u) (LowerBound l) in
          (mkTree heap kh num, db, err)
      end
  | Some up, Some u, _, _, true, _ =>
      let heap := <[up := mkInterval height (UpperBound u)]> heap in
      let '(db, err) := PutInterval w db (UpperBound u) height in
      (mkTree heap kh num, db, err)
  | _, _, Some lp, Some l, _, true =>
      let '(db, err) := DeleteInterval w db (UpperBound l) in
      match err with
      | Some e => (mkTree heap kh num, db, Some e)
      | None =>
          let heap := <[lp := mkInterval (LowerBound l) height]> heap in
          let '(db, err) := PutInterval w db height (LowerBound l) in
          (mkTree heap kh num, db, err)
      end
  | _, _, _, _, _, _ =>
      let kh := bt_ReplaceOrInsert (less_at heap) kh newInterval in
      let '(db, err) := PutInterval w db height height in
      (mkTree heap kh num, db, err)
  end.

(** [Tree.Remove] *)
Definition Tree_Remove (t : tree) (db : W) (height : Z) : tree * W * option db_error :=
  let newInterval := length (t_heap t) in
  let heap := t_heap t ++ [mkInterval height height] in
  let kh := knownHeights t in
  let higherp := find_upper heap kh newInterval in
  match higherp, deref heap higherp with
  | Some hp, Some higher =>
      if negb (Contains (Some higher) height) then (mkTree heap kh (numKnownHeights t), db, None) else
      let num := wrap64 (numKnownHeights t - 1) in
      if LowerBound higher =? UpperBound higher then
        let kh := bt_Delete (less_at heap) kh hp in
        let '(db, err) := DeleteInterval w db (UpperBound higher) in
        (mkTree heap kh num, db, err)
      else if LowerBound higher =? height then
        let lower := wrap64 (LowerBound higher + 1) in
        let '(db, err) := PutInterval w db (UpperBound higher) lower in
        (mkTree (<[hp := mkInterval lower (UpperBound higher)]> heap) kh num, db, err)
      else if UpperBound higher =? height then
        let '(db, err) := DeleteInterval w db (UpperBound higher) in
        match err with
        | Some e => (mkTree heap kh num, db, Some e)
        | None =>
            let upper := wrap64 (UpperBound higher - 1) in
            let '(db, err) := PutInterval w db upper (LowerBound higher) in
            (mkTree (<[hp := mkInterval (LowerBound higher) upper]> heap) kh num, db, err)
        end
      else
        let new := mkInterval (LowerBound higher) (wrap64 (height - 1)) in
        let heap := <[newInterval := new]> heap in
        let kh := bt_ReplaceOrInsert (less_at heap) kh newInterval in
        let '(db, err) := PutInterval w db (UpperBound new) (LowerBound new) in
        match err with
        | Some e => (mkTree heap kh num, db, Some e)
        | None =>
            let lower := wrap64 (height + 1) in
            let '(db, err) := PutInterval w db (UpperBound higher) lower in
            (mkTree (<[hp := mkInterval lower (UpperBound higher)]> heap) kh num, db, err)
        end
  | _, _ => (mkTree heap kh (numKnownHeights t), db, None)
  end.
End Writing.

(** [Tree.Contains]; the pivot it allocates is dropped. *)
Definition Tree_Contains (t : tree) (height : Z) : bool :=
  let heap := t_heap t ++ [mkInterval height height] in
  Contains (deref heap (find_upper heap (knownHeights t) (length (t_heap t)))) height.

(** [Tree.Flatten], with the intervals its pointers have. *)
Definition Flatten (t : tree) : list Interval := omap (λ p, t_heap t !! p) (bt_Ascend (knownHeights t)).

Definition Tree_Len (t : tree) : Z := numKnownHeights t.

(** ** Blocks ([blocks.go]) *)

(** [Add] *)
Definition Add {W} (w : KeyValueWriterDeleter W) (db : W) (t : tree) (lastAcceptedHeight height : Z) (blkBytes : bytes)
    : tree * W * result bool db_error :=
  if (height <=? lastAcceptedHeight) || Tree_Contains t height then (t, db, Ok false) else
  let '(db, err) := PutBlock w db height blkBytes in
  match err with
  | Some e => (t, db, Err e)
  | None =>
      let '(t, db, err) := Tree_Add w t db height in
      match err with
      | Some e => (t, db, Err e)
      | None =>
          let nextHeight := wrap64 (height - 1) in
          (t, db, Ok (negb (nextHeight =? lastAcceptedHeight) && negb (Tree_Contains t nextHeight)))
      end
  end.

(** [Remove] *)
Definition Remove {W} (w : KeyValueWriterDeleter W) (db : W) (t : tree) (height : Z) : tree * W * option db_error :=
  let '(db, err) := DeleteBlock w db height in
  match err with
  | Some e => (t, db, Some e)
  | None => Tree_Remove w t db height
  end.
End Tree.

(** ** Lists of intervals *)

Definition valid (i : Interval) : Prop := 0 ≤ LowerBound i ≤ UpperBound i ∧ UpperBound i ≤ MaxUint64.
Definition gap (i j : Interval) : Prop := UpperBound i + 1 < LowerBound j.

(** Sorted, disjoint and not adjacent: the maximal intervals of a set. *)
Fixpoint canonical (ivs : list Interval) : Prop :=
  match ivs with
  | [] => True
  | i :: ivs => valid i ∧ (∀ j, j ∈ ivs → gap i j) ∧ canonical ivs
  end.

Definition covers (ivs : list Interval) (x : Z) : Prop := ∃ i, i ∈ ivs ∧ LowerBound i ≤ x ≤ UpperBound i.

Definition width (i : Interval) : Z := UpperBound i - LowerBound i + 1.
Definition total (ivs : list Interval) : Z := lsum (map width ivs).

Lemma canonical_app l1 l2 :
  canonical (l1 ++ l2) ↔ canonical l1 ∧ canonical l2 ∧ ∀ i j, i ∈ l1 → j ∈ l2 → gap i j.
Proof.
  induction l1 as [|i l1 IH]; simpl; [set_solver|]. rewrite IH. split.
  - intros (Hv & Hg & H1 & H2 & H12). split_and!; [done| |done|done|].
    + intros j Hj. apply Hg, elem_of_app. by left.
    + intros x y [->|Hx]%elem_of_cons Hy; [|by apply H12]. apply Hg, elem_of_app. by right.
  - intros ((Hv & Hg & H1) & H2 & H12). split_and!; [done| |done|done|].
    + intros j [Hj|Hj]%elem_of_app; [by apply Hg|]. apply H12; [by left|done].
    + intros x y Hx Hy. apply H12; [by right|done].
Qed.

Lemma canonical_valid ivs i : canonical ivs → i ∈ ivs → valid i.
Proof. induction ivs as [|j ivs IH]; simpl; [by intros _ ?%elem_of_nil|]. intros (? & _ & ?) [->|?]%elem_of_cons; auto. Qed.

Lemma covers_app l1 l2 x : covers (l1 ++ l2) x ↔ covers l1 x ∨ covers l2 x.
Proof. unfold covers. setoid_rewrite elem_of_app. naive_solver. Qed.

Lemma covers_cons i l x : covers (i :: l) x ↔ LowerBound i ≤ x ≤ UpperBound i ∨ covers l x.
Proof. unfold covers. setoid_rewrite elem_of_cons. naive_solver. Qed.

Lemma covers_nil x : ¬ covers [] x.
Proof. by intros (i & ?%elem_of_nil & _). Qed.

Lemma total_app l1 l2 : total (l1 ++ l2) = total l1 + total l2.
Proof. unfold total. by rewrite map_app, lsum_app. Qed.

Lemma total_cons i l : total (i :: l) = width i + total l.
Proof. done. Qed.

(** The intervals before a height and those that end at it or after. *)
Lemma split_at ivs h :
  canonical ivs → ∃ lo hi, ivs = lo ++ hi ∧ (∀ i, i ∈ lo → UpperBound i < h) ∧ (∀ i, i ∈ hi → h ≤ UpperBound i).
Proof.
  induction ivs as [|i ivs IH]; intros Hc; [exists [], []; split; [done|]; split; by intros ? ?%elem_of_nil|].
  destruct Hc as (Hv & Hg & Hc). destruct (Z.lt_ge_cases (UpperBound i) h).
  - destruct (IH Hc) as (lo & hi & -> & Hlo & Hhi). exists (i :: lo), hi. split; [done|]. split; [|done]. intros j [->|?]%elem_of_cons; auto.
  - exists [], (i :: ivs). split; [done|]. split; [by intros ? ?%elem_of_nil|]. intros j [->|Hj]%elem_of_cons; [done|].
    pose proof (Hg j Hj). pose proof (canonical_valid _ _ Hc Hj). unfold gap, valid in *. lia.
Qed.

(** ** Trees that represent a list of intervals *)

Section Represent.
Context `{B : BTree T nat} (L : BTreeLaws B).

Definition points (heap : list Interval) (ps : list nat) (ivs : list Interval) : Prop :=
  Forall2 (λ p i, heap !! p = Some i) ps ivs.

Record rep (t : Tree T) (ivs : list Interval) : Prop := {
  rep_points : points (t_heap t) (items (knownHeights t)) ivs;
  rep_canonical : canonical ivs;
  rep_num : numKnownHeights t = wrap64 (total ivs);
}.

Lemma less_at_compares heap ps : (∀ p, p ∈ ps → is_Some (heap !! p)) → compares (less_at heap) ps.
Proof.
  intros H. exists (λ p, default 0 (UpperBound <$> heap !! p)). intros x y Hx Hy.
  destruct (H x Hx) as [i Hi], (H y Hy) as [j Hj]. unfold less_at. by rewrite Hi, Hj.
Qed.

Lemma points_lookup heap ps ivs p : points heap ps ivs → p ∈ ps → ∃ i, i ∈ ivs ∧ heap !! p = Some i.
Proof.
  intros Hp (n & Hn)%list_elem_of_lookup. destruct (Forall2_lookup_l _ _ _ _ _ Hp Hn) as (i & Hi & ?). exists i.
  split; [by apply list_elem_of_lookup_2 in Hi|done].
Qed.

Lemma points_sorted heap ps ivs :
  points heap ps ivs → canonical ivs → StronglySorted (λ a b, less_at heap a b = true) ps.
Proof.
  induction 1 as [|p i ps ivs Hp Hps IH]; simpl; [constructor|]. intros (Hv & Hg & Hc). constructor; [by apply IH|].
  apply Forall_forall. intros q Hq. destruct (points_lookup _ _ _ _ Hps Hq) as (j & Hj & Hqj). unfold less_at, Less. rewrite Hp, Hqj.
  pose proof (Hg j Hj). pose proof (canonical_valid _ _ Hc Hj). unfold gap, valid in *. apply Z.ltb_lt. lia.
Qed.

Lemma sorted_pointers_NoDup heap ps : StronglySorted (λ a b, less_at heap a b = true) ps → NoDup ps.
Proof.
  induction 1 as [|p ps Hs IH Hp]; constructor; [|done]. intros Hin. rewrite Forall_forall in Hp. specialize (Hp p Hin).
  unfold less_at, Less in Hp. destruct (heap !! p); [|done]. zbool. lia.
Qed.

(** Writing to another pointer, or extending the heap, keeps what is pointed to. *)
Lemma points_frame heap heap' ps ivs :
  points heap ps ivs → (∀ p, p ∈ ps → heap' !! p = heap !! p) → points heap' ps ivs.
Proof.
  induction 1 as [|p i ps ivs Hp Hps IH]; intros Hf; constructor.
  - rewrite Hf; [done|by left].
  - apply IH. intros q Hq. apply Hf. by right.
Qed.

Lemma points_alloc heap ps ivs i : points heap ps ivs → points (heap ++ [i]) ps ivs.
Proof.
  intros Hp. apply (points_frame heap); [done|]. intros p Hin. destruct (points_lookup _ _ _ _ Hp Hin) as (j & _ & Hj).
  rewrite Hj. by apply lookup_app_l_Some.
Qed.

Lemma points_app heap ps ivs1 ivs2 :
  points heap ps (ivs1 ++ ivs2) → ∃ ps1 ps2, ps = ps1 ++ ps2 ∧ points heap ps1 ivs1 ∧ points heap ps2 ivs2.
Proof. intros (ps1 & ps2 & ? & ? & ->)%Forall2_app_inv_r. by exists ps1, ps2. Qed.

Lemma filter_id {A} (P : A → Prop) `{!∀ x, Decision (P x)} (l : list A) : (∀ x, x ∈ l → P x) → filter P l = l.
Proof.
  induction l as [|x l IH]; intros Hl; [done|]. rewrite filter_cons_True by (apply Hl; by left). f_equal. apply IH. intros. apply Hl. by right.
Qed.

Lemma filter_none {A} (P : A → Prop) `{!∀ x, Decision (P x)} (l : list A) : (∀ x, x ∈ l → ¬ P x) → filter P l = [].
Proof.
  induction l as [|x l IH]; intros Hl; [done|]. rewrite filter_cons_False by (apply Hl; by left). apply IH. intros. apply Hl. by right.
Qed.

(** The state in which the tree is searched: the pivot [q] with height [h] is in
    the heap, and the items are split at the height. *)
Record searched (heap : list Interval) (t : T) (q : nat) (h : Z) (ps1 ps2 : list nat) (lo hi : list Interval) : Prop := {
  se_items : items t = ps1 ++ ps2;
  se_lo : points heap ps1 lo;
  se_hi : points heap ps2 hi;
  se_pivot : ∃ l, heap !! q = Some (mkInterval l h);
  se_canonical : canonical (lo ++ hi);
  se_below : ∀ i, i ∈ lo → UpperBound i < h;
  se_above : ∀ i, i ∈ hi → h ≤ UpperBound i;
}.

Section Searched.
Context (heap : list Interval) (t : T) (q : nat) (h : Z) (ps1 ps2 : list nat) (lo hi : list Interval)
  (S : searched heap t q h ps1 ps2 lo hi).

Lemma se_points : points heap (items t) (lo ++ hi).
Proof. rewrite (se_items _ _ _ _ _ _ _ _ S). apply Forall2_app; apply S. Qed.

Lemma se_compares : compares (less_at heap) (q :: items t).
Proof.
  apply less_at_compares. intros p [->|Hp]%elem_of_cons.
  - destruct (se_pivot _ _ _ _ _ _ _ _ S) as [l ->]. done.
  - destruct (points_lookup _ _ _ _ se_points Hp) as (i & _ & ->). done.
Qed.

Lemma se_sorted : StronglySorted (λ a b, less_at heap a b = true) (items t).
Proof. apply (points_sorted _ _ _ se_points), S. Qed.

Lemma se_less_lo p : p ∈ ps1 → less_at heap p q = true ∧ less_at heap q p = false.
Proof.
  intros Hp. destruct (points_lookup _ _ _ _ (se_lo _ _ _ _ _ _ _ _ S) Hp) as (i & Hi & Hpi).
  destruct (se_pivot _ _ _ _ _ _ _ _ S) as [l Hq]. unfold less_at, Less. rewrite Hq, Hpi. simpl.
  pose proof (se_below _ _ _ _ _ _ _ _ S i Hi). split; [apply Z.ltb_lt|apply Z.ltb_ge]; lia.
Qed.

Lemma se_less_hi p : p ∈ ps2 → less_at heap p q = false.
Proof.
  intros Hp. destruct (points_lookup _ _ _ _ (se_hi _ _ _ _ _ _ _ _ S) Hp) as (i & Hi & Hpi).
  destruct (se_pivot _ _ _ _ _ _ _ _ S) as [l Hq]. unfold less_at, Less. rewrite Hq, Hpi. simpl.
  pose proof (se_above _ _ _ _ _ _ _ _ S i Hi). apply Z.ltb_ge; lia.
Qed.

Lemma se_less_hi_strict p : (∀ i, i ∈ hi → h < UpperBound i) → p ∈ ps2 → less_at heap q p = true.
Proof.
  intros Hlt Hp. destruct (points_lookup _ _ _ _ (se_hi _ _ _ _ _ _ _ _ S) Hp) as (i & Hi & Hpi).
  destruct (se_pivot _ _ _ _ _ _ _ _ S) as [l Hq]. unfold less_at, Less. rewrite Hq, Hpi. simpl. apply Z.ltb_lt. by apply Hlt.
Qed.

Lemma find_upper_spec : find_upper heap t q = head ps2.
Proof.
  unfold find_upper. rewrite (items_AscendGreaterOrEqual _ _ _ se_compares se_sorted), (se_items _ _ _ _ _ _ _ _ S), filter_app.
  rewrite filter_none, filter_id; [done| |].
  - intros p Hp. by apply se_less_hi.
  - intros p Hp. by rewrite (proj1 (se_less_lo p Hp)).
Qed.

Lemma find_lower_spec : (∀ i, i ∈ hi → h < UpperBound i) → find_lower heap t q = last ps1.
Proof.
  intros Hlt. unfold find_lower. rewrite (items_DescendLessOrEqual _ _ _ se_compares se_sorted), (se_items _ _ _ _ _ _ _ _ S), filter_app.
  rewrite (filter_id _ ps1), (filter_none _ ps2), app_nil_r.
  - by rewrite head_reverse.
  - intros p Hp. by rewrite (se_less_hi_strict p Hlt Hp).
  - intros p Hp. apply se_less_lo, Hp.
Qed.

Lemma insert_pivot_spec : (∀ i, i ∈ hi → h < UpperBound i) → items (bt_ReplaceOrInsert (less_at heap) t q) = ps1 ++ q :: ps2.
Proof.
  intros Hlt. rewrite (items_ReplaceOrInsert _ _ _ se_compares se_sorted), (se_items _ _ _ _ _ _ _ _ S), !filter_app.
  rewrite (filter_id _ ps1), (filter_none _ ps2), (filter_none _ ps1), (filter_id _ ps2); [by rewrite app_nil_r| | | |].
  - intros p Hp. by apply se_less_hi_strict.
  - intros p Hp. by rewrite (proj2 (se_less_lo p Hp)).
  - intros p Hp. by rewrite (se_less_hi p Hp).
  - intros p Hp. apply se_less_lo, Hp.
Qed.
End Searched.

Lemma sorted_impl {A} (R R' : A → A → Prop) l : (∀ a b, R a b → R' a b) → StronglySorted R l → StronglySorted R' l.
Proof. intros HR. induction 1 as [|x l Hs IH Hx]; constructor; [done|]. eapply Forall_impl; [done|]. apply HR. Qed.

(** Deleting an item of the tree. *)
Lemma delete_item_spec heap t ps1 p ps2 :
  items t = ps1 ++ p :: ps2 → StronglySorted (λ a b, less_at heap a b = true) (items t) →
  (∀ q, q ∈ items t → is_Some (heap !! q)) → items (bt_Delete (less_at heap) t p) = ps1 ++ ps2.
Proof.
  intros Hit Hs Hq. rewrite items_Delete; [|apply less_at_compares|done].
  - rewrite Hit in *. pose proof Hs as Hs'. rewrite filter_app, filter_cons_False.
    + apply StronglySorted_app in Hs as (H12 & _ & Hs2). apply StronglySorted_inv in Hs2 as [_ H2]. rewrite Forall_forall in H2.
      rewrite !filter_id; [done| |]; intros q Hin; apply orb_true_iff; [right; by apply H2|left; apply H12; [done|by left]].
    + intros [H|H]%orb_true_iff; unfold less_at, Less in H; destruct (heap !! p); try done; zbool; lia.
  - intros q [->|Hin]%elem_of_cons; apply Hq; [rewrite Hit; set_solver|done].
Qed.

Lemma points_update heap ps1 p ps2 l1 i l2 i' :
  points heap ps1 l1 → points heap (p :: ps2) (i :: l2) → NoDup (ps1 ++ p :: ps2) →
  points (<[p := i']> heap) (ps1 ++ p :: ps2) (l1 ++ i' :: l2).
Proof.
  intros H1 H2 Hnd. apply Forall2_cons in H2 as [Hp H2]. apply NoDup_app in Hnd as (_ & Hd & [Hn _]%NoDup_cons).
  apply Forall2_app; [|constructor].
  - apply (points_frame heap); [done|]. intros q Hq. apply list_lookup_insert_ne. intros ->. destruct (Hd q Hq). by left.
  - apply list_lookup_insert_eq. by apply lookup_lt_Some in Hp.
  - apply (points_frame heap); [done|]. intros q Hq. apply list_lookup_insert_ne. by intros ->.
Qed.

(** The order of the items depends on the upper bounds only. *)
Lemma less_at_update heap p i i' a b :
  heap !! p = Some i → UpperBound i' = UpperBound i → less_at (<[p := i']> heap) a b = less_at heap a b.
Proof.
  intros Hp Hu. assert (∀ q, UpperBound <$> (<[p := i']> heap !! q) = UpperBound <$> (heap !! q)) as Hq.
  { intros q. destruct (decide (q = p)) as [->|Hne]; [|by rewrite list_lookup_insert_ne].
    rewrite list_lookup_insert_eq by by apply lookup_lt_Some in Hp. rewrite Hp. simpl. by rewrite Hu. }
  unfold less_at, Less. pose proof (Hq a) as Ha. pose proof (Hq b) as Hb.
  destruct (<[p := i']> heap !! a), (heap !! a), (<[p := i']> heap !! b), (heap !! b); try done.
  injection Ha as ->. injection Hb as ->. done.
Qed.
End Represent.

(** ** The persisted intervals *)

(** The keys under the prefix of intervals are those of [ivs]. *)
Definition persisted (m : kvmap) (ivs : list Interval) : Prop :=
  ∀ k v, HasPrefix k intervalPrefix = true →
    m !! k = Some v ↔ ∃ i, i ∈ ivs ∧ k = makeIntervalKey (UpperBound i) ∧ v = PackUInt64 (LowerBound i).

Lemma makeIntervalKey_inj a b : is_u64 a → is_u64 b → makeIntervalKey a = makeIntervalKey b → a = b.
Proof. unfold is_u64, MaxUint64. intros Ha Hb H%(app_inv_head intervalPrefix). apply (put_uint_inj 8); [lia..|exact H]. Qed.

Lemma makeIntervalKey_prefix u : HasPrefix (makeIntervalKey u) intervalPrefix = true.
Proof. done. Qed.

Lemma persisted_put m ivs ivs' ub lb :
  persisted m ivs → is_u64 ub → (∀ i, i ∈ ivs → is_u64 (UpperBound i)) →
  (∀ i, i ∈ ivs' ↔ i = mkInterval lb ub ∨ (i ∈ ivs ∧ UpperBound i ≠ ub)) →
  persisted (<[makeIntervalKey ub := PackUInt64 lb]> m) ivs'.
Proof.
  intros Hp Hub Hivs Hi k v Hk. destruct (decide (makeIntervalKey ub = k)) as [<-|Hne].
  - rewrite lookup_insert_eq. split.
    + intros [= <-]. exists (mkInterval lb ub). split; [|done]. apply Hi. by left.
    + intros (i & [->|[Hin Hu]]%Hi & Hk' & ->); [done|]. apply makeIntervalKey_inj in Hk'; [congruence|done|by apply Hivs].
  - rewrite lookup_insert_ne by done. rewrite (Hp k v Hk). split; intros (i & Hin & -> & ->); exists i; (split; [|done]).
    + apply Hi. right. split; [done|]. by intros <-.
    + apply Hi in Hin as [->|[? _]]; [|done]. by simpl in Hne.
Qed.

Lemma persisted_delete m ivs ivs' ub :
  persisted m ivs → is_u64 ub → (∀ i, i ∈ ivs → is_u64 (UpperBound i)) →
  (∀ i, i ∈ ivs' ↔ i ∈ ivs ∧ UpperBound i ≠ ub) →
  persisted (delete (makeIntervalKey ub) m) ivs'.
Proof.
  intros Hp Hub Hivs Hi k v Hk. destruct (decide (makeIntervalKey ub = k)) as [<-|Hne].
  - rewrite lookup_delete_eq. split; [done|].
    intros (i & [Hin Hu]%Hi & Hk' & ->). apply makeIntervalKey_inj in Hk'; [congruence|done|by apply Hivs].
  - rewrite lookup_delete_ne by done. rewrite (Hp k v Hk). split; intros (i & Hin & -> & ->); exists i; (split; [|done]).
    + apply Hi. split; [done|]. by intros <-.
    + by apply Hi in Hin as [? _].
Qed.

(** Keys outside of the prefix of intervals are left alone. *)
Definition same_outside (m m' : kvmap) : Prop := ∀ k, HasPrefix k intervalPrefix = false → m' !! k = m !! k.

Lemma same_outside_put m u v : same_outside m (<[makeIntervalKey u := v]> m).
Proof. intros k Hk. apply lookup_insert_ne. by intros <-. Qed.
Lemma same_outside_delete m u : same_outside m (delete (makeIntervalKey u) m).
Proof. intros k Hk. apply lookup_delete_ne. by intros <-. Qed.
Lemma same_outside_trans m1 m2 m3 : same_outside m1 m2 → same_outside m2 m3 → same_outside m1 m3.
Proof. intros H1 H2 k Hk. by rewrite H2, H1. Qed.

(** ** Adding and removing a height *)

Section Operations.
Context `{B : BTree T nat} (L : BTreeLaws B) {W : Type} {w : KeyValueWriterDeleter W} (WL : WriterLaws w).

(** The tree and what it has persisted represent [ivs]. *)
Record stored (t : Tree T) (s : W) (ivs : list Interval) : Prop := {
  st_rep : rep L t ivs;
  st_inv : w_inv s;
  st_persisted : persisted (w_map s) ivs;
}.

(** The tree searched for a height, with a new pivot at the end of the heap. *)
Lemma stored_search t s ivs h :
  stored t s ivs →
  ∃ ps1 ps2 lo hi, ivs = lo ++ hi ∧
    searched L (t_heap t ++ [mkInterval h h]) (knownHeights t) (length (t_heap t)) h ps1 ps2 lo hi ∧
    (∀ p, p ∈ ps1 ++ ps2 → p ≠ length (t_heap t)) ∧ NoDup (ps1 ++ ps2).
Proof.
  intros [[Hp Hc _] _ _]. destruct (split_at ivs h Hc) as (lo & hi & -> & Hlo & Hhi).
  pose proof (points_sorted _ _ _ Hp Hc) as Hs. destruct (points_app _ _ _ _ Hp) as (ps1 & ps2 & Hit & H1 & H2).
  exists ps1, ps2, lo, hi. split; [done|]. split; [|split].
  - split; [done|by apply points_alloc|by apply points_alloc| |done..]. exists h. by apply list_lookup_middle.
  - intros p Hin ->. rewrite <- Hit in Hin. destruct (points_lookup _ _ _ _ Hp Hin) as (i & _ & Hi). apply lookup_lt_Some in Hi. lia.
  - rewrite <- Hit. by apply (sorted_pointers_NoDup (t_heap t)).
Qed.

Lemma points_head heap ps ivs : points heap ps ivs → deref heap (head ps) = head ivs.
Proof. by destruct 1. Qed.

Lemma points_last heap ps ivs : points heap ps ivs → deref heap (last ps) = last ivs.
Proof.
  induction 1 as [|p i ps ivs Hp Hps IH]; [done|]. destruct Hps; [done|]. done.
Qed.

Lemma canonical_mid lo i hi :
  canonical (lo ++ i :: hi) ↔
  canonical lo ∧ canonical hi ∧ valid i ∧ (∀ j, j ∈ lo → gap j i) ∧ (∀ j, j ∈ hi → gap i j) ∧ (∀ j k, j ∈ lo → k ∈ hi → gap j k).
Proof.
  rewrite canonical_app. simpl. split.
  - intros (H1 & (Hv & Hg & H2) & H12). split_and!; try done; intros; apply H12; try done; [by left|by right].
  - intros (H1 & H2 & Hv & Ha & Hb & Hab). split_and!; try done. intros j k Hj [->|Hk]%elem_of_cons; auto.
Qed.

(** The result of adding a height. *)
Definition added (t' : Tree T) (s s' : W) (ivs : list Interval) (h : Z) : Prop :=
  ∃ ivs', stored t' s' ivs' ∧ same_outside (w_map s) (w_map s') ∧
    (∀ x, covers ivs' x ↔ x = h ∨ covers ivs x) ∧ (¬ covers ivs h → total ivs' = total ivs + 1) ∧
    (covers ivs h → ivs' = ivs).

Lemma PutInterval_spec s ub lb :
  w_inv s → ∃ s', PutInterval w s ub lb = (s', None) ∧ w_inv s' ∧ w_map s' = <[makeIntervalKey ub := PackUInt64 lb]> (w_map s).
Proof.
  intros Hs. unfold PutInterval, PutUInt64. destruct (w_Put_law s (makeIntervalKey ub) (PackUInt64 lb) Hs) as (? & ? & ?).
  destruct (w_Put w s (makeIntervalKey ub) (PackUInt64 lb)) as [s' e]. simpl in *. subst e. by exists s'.
Qed.

Lemma DeleteInterval_spec s ub :
  w_inv s → ∃ s', DeleteInterval w s ub = (s', None) ∧ w_inv s' ∧ w_map s' = delete (makeIntervalKey ub) (w_map s).
Proof.
  intros Hs. unfold DeleteInterval. destruct (w_Delete_law s (makeIntervalKey ub) Hs) as (? & ? & ?).
  destruct (w_Delete w s (makeIntervalKey ub)) as [s' e]. simpl in *. subst e. by exists s'.
Qed.

Lemma wrap64_succ a b : wrap64 (wrap64 a + b) = wrap64 (a + b).
Proof. unfold wrap64. by rewrite Z.add_mod_idemp_l by lia. Qed.

Lemma added_intro t s s' ivs ivs' heap kh h :
  stored t s ivs → points heap (items kh) ivs' → canonical ivs' → w_inv s' → persisted (w_map s') ivs' →
  same_outside (w_map s) (w_map s') → ¬ covers ivs h → (∀ x, covers ivs' x ↔ x = h ∨ covers ivs x) → total ivs' = total ivs + 1 →
  added (mkTree heap kh (wrap64 (numKnownHeights t + 1))) s s' ivs h.
Proof.
  intros [[_ _ Hn] _ _] Hp Hc Hi Hper Ho Hnot Hcov Ht. exists ivs'. split; [|by split_and!]. split; [|done|done]. split; [done|done|].
  simpl. by rewrite Hn, wrap64_succ, Ht.
Qed.

Lemma canonical_u64 ivs i : canonical ivs → i ∈ ivs → is_u64 (UpperBound i).
Proof. intros Hc Hi. pose proof (canonical_valid _ _ Hc Hi). unfold valid, is_u64 in *. lia. Qed.

Lemma points_snoc heap ps p l i : points heap (ps ++ [p]) (l ++ [i]) → points heap ps l ∧ heap !! p = Some i.
Proof.
  intros (k1 & k2 & H1 & H2 & Heq)%Forall2_app_inv_l. apply Forall2_cons_inv_l in H2 as (j & k & Hj & Hnil & ->).
  apply Forall2_nil_inv_l in Hnil as ->. by apply app_inj_tail in Heq as [-> ->].
Qed.

Section Adding.
Context (t : Tree T) (s : W) (h : Z) (ps1 ps2 : list nat) (lo hi : list Interval).
Abbreviation heap := (t_heap t ++ [mkInterval h h]).
Abbreviation q := (length (t_heap t)).
Context (Hst : stored t s (lo ++ hi)) (Hh : is_u64 h)
  (S : searched L heap (knownHeights t) q h ps1 ps2 lo hi)
  (Hfresh : ∀ p, p ∈ ps1 ++ ps2 → p ≠ q) (Hnd : NoDup (ps1 ++ ps2))
  (Hnew : ∀ i, i ∈ hi → h < LowerBound i).

Lemma adding_not_covered : ¬ covers (lo ++ hi) h.
Proof.
  intros (i & [Hi|Hi]%elem_of_app & Hx); [pose proof (se_below _ _ _ _ _ _ _ _ _ S i Hi)|pose proof (Hnew i Hi)]; lia.
Qed.

Lemma adding_above i : i ∈ hi → h < UpperBound i.
Proof.
  intros Hi. pose proof (Hnew i Hi). assert (valid i) as Hv by (apply (canonical_valid (lo ++ hi)); [apply S|apply elem_of_app; by right]).
  unfold valid in Hv. lia.
Qed.

(** No neighbour: a new interval. *)
Lemma add_alone :
  (∀ i, i ∈ lo → UpperBound i + 1 < h) → (∀ i, i ∈ hi → h + 1 < LowerBound i) →
  let '(s', err) := PutInterval w s h h in
  err = None ∧ added (mkTree heap (bt_ReplaceOrInsert (less_at heap) (knownHeights t) q) (wrap64 (numKnownHeights t + 1))) s s' (lo ++ hi) h.
Proof.
  intros Hlo Hhi. destruct (PutInterval_spec s h h (st_inv _ _ _ Hst)) as (s' & -> & Hi' & Hm'). split; [done|].
  pose proof (proj1 (canonical_app _ _) (se_canonical _ _ _ _ _ _ _ _ _ S)) as (Hc1 & Hc2 & Hc12).
  apply (added_intro t s s' (lo ++ hi) (lo ++ mkInterval h h :: hi)); try done.
  - rewrite (insert_pivot_spec _ _ _ _ _ _ _ _ _ S adding_above). apply Forall2_app; [apply S|]. constructor; [|apply S].
    by apply list_lookup_middle.
  - apply canonical_mid. split_and!; try done. unfold valid, is_u64 in *. simpl. lia.
  - rewrite Hm'. apply (persisted_put _ (lo ++ hi)); [apply Hst|done|intros; by apply (canonical_u64 (lo ++ hi)); [apply S|]|].
    intros i. rewrite !elem_of_app, elem_of_cons. split.
    + intros [Hi|[->|Hi]]; [right|by left|right]; (split; [tauto|]); [pose proof (Hlo i Hi)|pose proof (adding_above i Hi)]; lia.
    + tauto.
  - rewrite Hm'. apply same_outside_put.
  - apply adding_not_covered.
  - intros x. rewrite !covers_app, covers_cons. simpl. split; [intros [?|[?|?]]; [tauto|left; lia|tauto]|].
    intros [->|[?|?]]; [right; left; lia|tauto|tauto].
  - rewrite !total_app, total_cons. unfold width. simpl. lia.
Qed.

(** The interval above is extended down. *)
Lemma add_to_upper up ps2' u hi' :
  ps2 = up :: ps2' → hi = u :: hi' → LowerBound u = h + 1 → (∀ i, i ∈ lo → UpperBound i + 1 < h) →
  let '(s', err) := PutInterval w s (UpperBound u) h in
  err = None ∧ added (mkTree (<[up := mkInterval h (UpperBound u)]> heap) (knownHeights t) (wrap64 (numKnownHeights t + 1))) s s' (lo ++ hi) h.
Proof.
  intros Hps Hhi Hu Hlo. destruct (PutInterval_spec s (UpperBound u) h (st_inv _ _ _ Hst)) as (s' & -> & Hi' & Hm'). split; [done|].
  pose proof (se_canonical _ _ _ _ _ _ _ _ _ S) as Hc. pose proof adding_not_covered as Hnc. pose proof S as S'. rewrite Hhi, Hps in *.
  apply canonical_mid in Hc as (Hc1 & Hc2 & Hv & Ha & Hb & Hab).
  apply (added_intro t s s' (lo ++ u :: hi') (lo ++ mkInterval h (UpperBound u) :: hi')); try done.
  - rewrite (se_items _ _ _ _ _ _ _ _ _ S'). by apply (points_update heap _ _ _ _ u); [apply S'..|].
  - apply canonical_mid. split_and!; try done. unfold valid, is_u64 in *. simpl. lia.
  - rewrite Hm'. apply (persisted_put _ (lo ++ u :: hi')); [apply Hst|unfold valid, is_u64 in *; lia|intros; by apply (canonical_u64 (lo ++ u :: hi')); [apply S'|]|].
    intros i. rewrite !elem_of_app, !elem_of_cons. split.
    + intros [Hi|[->|Hi]]; [right|by left|right]; (split; [tauto|]).
      * pose proof (Ha i Hi). unfold valid, gap in *. lia.
      * pose proof (Hb i Hi). pose proof (canonical_valid _ _ Hc2 Hi). unfold valid, gap in *. lia.
    + intros [->|[[?|[->|?]] ?]]; tauto.
  - rewrite Hm'. apply same_outside_put.
  - intros x. rewrite !covers_app, !covers_cons. simpl. unfold valid in Hv. split; [intros [?|[?|?]]; [tauto| |tauto]|intros [->|[?|[?|?]]]; [right; left; lia|tauto|right; left; lia|tauto]].
    destruct (decide (x = h)); [by left|]. right. right. left. lia.
  - rewrite !total_app, !total_cons. unfold width. simpl. lia.
Qed.

(** The interval below is extended up. *)
Lemma add_to_lower lp ps1' l lo' :
  ps1 = ps1' ++ [lp] → lo = lo' ++ [l] → UpperBound l + 1 = h → (∀ i, i ∈ hi → h + 1 < LowerBound i) →
  let '(s1, err) := DeleteInterval w s (UpperBound l) in
  err = None ∧
  let '(s', err) := PutInterval w s1 h (LowerBound l) in
  err = None ∧ added (mkTree (<[lp := mkInterval (LowerBound l) h]> heap) (knownHeights t) (wrap64 (numKnownHeights t + 1))) s s' (lo ++ hi) h.
Proof.
  intros Hps Hlo Hl Hhi. destruct (DeleteInterval_spec s (UpperBound l) (st_inv _ _ _ Hst)) as (s1 & -> & Hi1 & Hm1). split; [done|].
  destruct (PutInterval_spec s1 h (LowerBound l) Hi1) as (s' & -> & Hi' & Hm'). split; [done|].
  pose proof adding_above as Hab'. pose proof (se_canonical _ _ _ _ _ _ _ _ _ S) as Hc. pose proof adding_not_covered as Hnc. pose proof S as S'. rewrite Hlo, Hps, <- !app_assoc in *. simpl in *.
  pose proof Hc as Hc0. apply canonical_mid in Hc as (Hc1 & Hc2 & Hv & Ha & Hb & Hab).
  destruct (points_snoc _ _ _ _ _ (se_lo _ _ _ _ _ _ _ _ _ S')) as [Hp1 Hp2].
  apply (added_intro t s s' (lo' ++ l :: hi) (lo' ++ mkInterval (LowerBound l) h :: hi)); try done.
  - rewrite (se_items _ _ _ _ _ _ _ _ _ S'), <- app_assoc. simpl. apply (points_update heap _ _ _ _ l); [done| |done]. constructor; [done|apply S'].
  - apply canonical_mid. split_and!; try done. unfold valid, is_u64 in *. simpl. lia.
  - rewrite Hm'. apply (persisted_put _ (lo' ++ hi)).
    + rewrite Hm1. apply (persisted_delete _ (lo' ++ l :: hi)); [apply Hst|unfold valid, is_u64 in *; lia|intros; by apply (canonical_u64 (lo' ++ l :: hi))|].
      intros i. rewrite !elem_of_app, elem_of_cons. split.
      * intros [Hi|Hi]; (split; [tauto|]); [pose proof (Ha i Hi)|pose proof (Hab' i Hi)]; unfold valid, gap in *; lia.
      * intros [[?|[->|?]] ?]; tauto.
    + done.
    + intros i Hi. apply (canonical_u64 (lo' ++ l :: hi)); [done|]. apply elem_of_app. apply elem_of_app in Hi as [?|?]; [by left|right; by right].
    + intros i. rewrite !elem_of_app, elem_of_cons. split; [|tauto].
      intros [Hi|[->|Hi]]; [right|by left|right]; (split; [tauto|]); [pose proof (Ha i Hi)|pose proof (Hab' i Hi)]; unfold valid, gap in *; lia.
  - rewrite Hm', Hm1. eapply same_outside_trans; [apply same_outside_delete|apply same_outside_put].
  - intros x. rewrite !covers_app, !covers_cons. simpl. unfold valid in Hv. split; [intros [?|[?|?]]; [tauto| |tauto]|intros [->|[?|[?|?]]]; [right; left; lia|tauto|right; left; lia|tauto]].
    destruct (decide (x = h)); [by left|]. right. right. left. lia.
  - rewrite !total_app, !total_cons. unfold width. simpl. lia.
Qed.

(** Both neighbours: they are merged. *)
Lemma add_between lp ps1' l lo' up ps2' u hi' :
  ps1 = ps1' ++ [lp] → lo = lo' ++ [l] → UpperBound l + 1 = h → ps2 = up :: ps2' → hi = u :: hi' → LowerBound u = h + 1 →
  let '(s1, err) := DeleteInterval w s (UpperBound l) in
  err = None ∧
  let '(s', err) := PutInterval w s1 (UpperBound u) (LowerBound l) in
  let heap' := <[up := mkInterval (LowerBound l) (UpperBound u)]> heap in
  err = None ∧ added (mkTree heap' (bt_Delete (less_at heap') (knownHeights t) lp) (wrap64 (numKnownHeights t + 1))) s s' (lo ++ hi) h.
Proof.
  intros Hps1 Hlo Hl Hps2 Hhi Hu. destruct (DeleteInterval_spec s (UpperBound l) (st_inv _ _ _ Hst)) as (s1 & -> & Hi1 & Hm1). split; [done|].
  destruct (PutInterval_spec s1 (UpperBound u) (LowerBound l) Hi1) as (s' & -> & Hi' & Hm'). split; [done|].
  pose proof (se_canonical _ _ _ _ _ _ _ _ _ S) as Hc. pose proof adding_not_covered as Hnc. pose proof S as S'.
  pose proof (se_points _ _ _ _ _ _ _ _ _ S) as Hpoints. pose proof (se_sorted _ _ _ _ _ _ _ _ _ S) as Hsorted.
  rewrite Hlo, Hps1, Hps2, Hhi in *. rewrite <- !app_assoc in *. simpl in *.
  pose proof Hc as Hc0. apply canonical_mid in Hc as (Hc1 & Hc2 & Hv & Ha & Hb & Hab). simpl in Hc2. destruct Hc2 as (Hvu & Hbu & Hc2).
  destruct (points_snoc _ _ _ _ _ (se_lo _ _ _ _ _ _ _ _ _ S')) as [Hp1 Hp2].
  pose proof (se_hi _ _ _ _ _ _ _ _ _ S') as [Hp3 Hp4]%Forall2_cons.
  apply (added_intro t s s' (lo' ++ l :: u :: hi') (lo' ++ mkInterval (LowerBound l) (UpperBound u) :: hi')); try done.
  - pose proof (se_items _ _ _ _ _ _ _ _ _ S') as Hit. rewrite <- app_assoc in Hit. simpl in Hit.
    rewrite (delete_item_spec L _ _ ps1' lp (up :: ps2')); [|done| |].
    + apply (points_update heap _ _ _ _ u); [done|by constructor|]. rewrite <- (Permutation_middle ps1' (up :: ps2') lp) in Hnd.
      by apply NoDup_cons in Hnd as [_ ?].
    + eapply sorted_impl; [|exact Hsorted]. intros a b Hlt. by rewrite (less_at_update _ _ u).
    + intros x Hx. destruct (points_lookup _ _ _ _ Hpoints Hx) as (i & _ & Hxi). apply lookup_lt_is_Some. rewrite length_insert.
      by apply lookup_lt_Some in Hxi.
  - apply canonical_mid. split_and!; try done; [unfold valid, is_u64 in *; simpl; lia|]. intros j k Hj Hk. apply Hab; [done|by right].
  - assert (∀ i, i ∈ lo' → UpperBound i < UpperBound l ∧ UpperBound i < UpperBound u) as Hlt1.
    { intros i Hi. pose proof (Ha i Hi). pose proof (canonical_valid _ _ Hc1 Hi). unfold valid, gap in *. lia. }
    assert (∀ i, i ∈ hi' → UpperBound l < UpperBound i ∧ UpperBound u < UpperBound i) as Hlt2.
    { intros i Hi. pose proof (Hbu i Hi). pose proof (canonical_valid _ _ Hc2 Hi). unfold valid, gap in *. lia. }
    rewrite Hm'. apply (persisted_put _ (lo' ++ u :: hi')).
    + rewrite Hm1. apply (persisted_delete _ (lo' ++ l :: u :: hi')); [apply Hst|unfold valid, is_u64 in *; lia|intros; by apply (canonical_u64 (lo' ++ l :: u :: hi'))|].
      intros i. rewrite !elem_of_app, !elem_of_cons. split.
      * intros [Hi|[->|Hi]]; (split; [tauto|]); [pose proof (Hlt1 i Hi)| |pose proof (Hlt2 i Hi)]; unfold valid in *; lia.
      * intros [[?|[->|[->|?]]] ?]; tauto.
    + unfold valid, is_u64 in *; lia.
    + intros i Hi. apply (canonical_u64 (lo' ++ l :: u :: hi')); [done|]. apply elem_of_app. apply elem_of_app in Hi as [?|?]; [by left|right; by right].
    + intros i. rewrite !elem_of_app, !elem_of_cons. split; [|by intros [->|[[?|[->|?]] ?]]; tauto].
      intros [Hi|[->|Hi]]; [right|by left|right]; (split; [tauto|]); [pose proof (Hlt1 i Hi)|pose proof (Hlt2 i Hi)]; lia.
  - rewrite Hm', Hm1. eapply same_outside_trans; [apply same_outside_delete|apply same_outside_put].
  - intros x. rewrite !covers_app, !covers_cons. simpl. unfold valid in *. split.
    + intros [?|[?|?]]; [tauto| |tauto]. destruct (Z.lt_trichotomy x h) as [?|[->|?]]; [|tauto|]; right; right; [left|right; left]; lia.
    + intros [->|[?|[?|[?|?]]]]; [right; left; lia|tauto|right; left; lia|right; left; lia|tauto].
  - rewrite !total_app, !total_cons. unfold width. simpl. lia.
Qed.
End Adding.
Lemma stored_alloc t s ivs i : stored t s ivs → stored (mkTree (t_heap t ++ [i]) (knownHeights t) (numKnownHeights t)) s ivs.
Proof. intros [[Hp Hc Hn] Hi Hper]. split; [|done|done]. split; [by apply points_alloc|done|done]. Qed.

Lemma points_snoc_inv heap ps l i : points heap ps (l ++ [i]) → ∃ ps' p, ps = ps' ++ [p].
Proof.
  intros (k1 & k2 & H1 & H2 & ->)%Forall2_app_inv_r. apply Forall2_cons_inv_r in H2 as (p & k & _ & Hnil & ->).
  apply Forall2_nil_inv_r in Hnil as ->. by exists k1, p.
Qed.

Lemma contains_head lo hi h :
  canonical (lo ++ hi) → (∀ i, i ∈ lo → UpperBound i < h) → (∀ i, i ∈ hi → h ≤ UpperBound i) →
  if Contains (head hi) h then covers (lo ++ hi) h else ∀ i, i ∈ hi → h < LowerBound i.
Proof.
  intros Hc Hlo Hhi. destruct hi as [|u hi]; simpl; [by intros i ?%elem_of_nil|].
  destruct (_ && _) eqn:E; zbool.
  - exists u. split; [apply elem_of_app; right; by left|lia].
  - assert (h < LowerBound u) as Hlt. { pose proof (Hhi u ltac:(by left)). apply andb_false_iff in E as [E|E]; zbool; lia. }
    apply canonical_mid in Hc as (_ & _ & Hv & _ & Hb & _). intros i [->|Hi]%elem_of_cons; [done|]. pose proof (Hb i Hi).
    unfold gap, valid in *. lia.
Qed.

(** Whether the height is next to an interval. *)
Lemma adjacent_upper heap ps lo hi h :
  points heap ps hi → canonical (lo ++ hi) → is_u64 h → (∀ i, i ∈ hi → h < LowerBound i) →
  if AdjacentToLowerBound (head hi) h
  then ∃ u hi' up ps', hi = u :: hi' ∧ ps = up :: ps' ∧ LowerBound u = h + 1
  else ∀ i, i ∈ hi → h + 1 < LowerBound i.
Proof.
  intros Hp Hc Hh Hnew. destruct Hp as [|up u ps hi Hup Hp]; simpl; [by intros i ?%elem_of_nil|].
  apply canonical_mid in Hc as (_ & _ & Hv & _ & Hb & _). pose proof (Hnew u ltac:(by left)). unfold valid in Hv.
  rewrite wrap64_id by (unfold is_u64 in *; lia). destruct (Z.ltb_spec h MaxUint64); [|lia]. simpl.
  destruct (Z.eqb_spec (h + 1) (LowerBound u)).
  - by exists u, hi, up, ps.
  - intros i [->|Hi]%elem_of_cons; [lia|]. pose proof (Hb i Hi). unfold gap in *. lia.
Qed.

Lemma adjacent_lower heap ps lo hi h :
  points heap ps lo → canonical (lo ++ hi) → is_u64 h → (∀ i, i ∈ lo → UpperBound i < h) →
  if AdjacentToUpperBound (last lo) h
  then ∃ l lo' lp ps', lo = lo' ++ [l] ∧ ps = ps' ++ [lp] ∧ UpperBound l + 1 = h
  else ∀ i, i ∈ lo → UpperBound i + 1 < h.
Proof.
  intros Hp (Hc & _ & _)%canonical_app Hh Hlo. destruct lo as [|l lo _] using rev_ind; simpl; [by intros i ?%elem_of_nil|].
  rewrite last_snoc. simpl. apply canonical_mid in Hc as (_ & _ & Hv & Ha & _ & _).
  assert (UpperBound l < h) by (apply Hlo, elem_of_app; right; by left). unfold valid in Hv.
  rewrite wrap64_id by (unfold is_u64 in *; lia). destruct (Z.ltb_spec (UpperBound l) MaxUint64); [|unfold is_u64 in *; lia]. simpl.
  destruct (Z.eqb_spec (UpperBound l + 1) h).
  - destruct (points_snoc_inv _ _ _ _ Hp) as (ps' & lp & ->). by exists l, lo, lp, ps'.
  - intros i [Hi|Hi%list_elem_of_singleton]%elem_of_app; [|subst i; lia]. pose proof (Ha i Hi). unfold gap in *. lia.
Qed.

Lemma Tree_Add_spec t s ivs h :
  stored t s ivs → is_u64 h → ∃ t' s', Tree_Add w t s h = (t', s', None) ∧ added t' s s' ivs h.
Proof.
  intros Hst Hh. destruct (stored_search t s ivs h Hst) as (ps1 & ps2 & lo & hi & -> & S & Hfresh & Hnd).
  unfold Tree_Add. cbv zeta. rewrite (find_upper_spec _ _ _ _ _ _ _ _ _ S), (points_head _ _ _ (se_hi _ _ _ _ _ _ _ _ _ S)).
  pose proof (contains_head lo hi h) as Hcon. destruct (Contains (head hi) h).
  { eexists _, _. split; [done|]. exists (lo ++ hi). split; [by apply stored_alloc|]. split; [done|].
    assert (covers (lo ++ hi) h) as Hcov by (apply Hcon; apply S). split; [|done].
    intros x. split; [tauto|]. by intros [->|]. }
  assert (∀ i, i ∈ hi → h < LowerBound i) as Hnew by (apply Hcon; apply S). clear Hcon.
  pose proof (adding_above t h ps1 ps2 lo hi S Hnew) as Habove.
  rewrite (find_lower_spec _ _ _ _ _ _ _ _ _ S Habove), (points_last _ _ _ (se_lo _ _ _ _ _ _ _ _ _ S)).
  pose proof (adjacent_upper _ _ lo hi h (se_hi _ _ _ _ _ _ _ _ _ S) (se_canonical _ _ _ _ _ _ _ _ _ S) Hh Hnew) as Hup.
  pose proof (adjacent_lower _ _ lo hi h (se_lo _ _ _ _ _ _ _ _ _ S) (se_canonical _ _ _ _ _ _ _ _ _ S) Hh (se_below _ _ _ _ _ _ _ _ _ S)) as Hlow.
  destruct (AdjacentToLowerBound (head hi) h) eqn:E1, (AdjacentToUpperBound (last lo) h) eqn:E2.
  - destruct Hup as (u & hi' & up & ps2' & Ehi & Eps2 & Hu), Hlow as (l & lo' & lp & ps1' & Elo & Eps1 & Hl).
    pose proof (add_between t s h ps1 ps2 lo hi Hst S Hfresh Hnd Hnew lp ps1' l lo' up ps2' u hi' Eps1 Elo Hl Eps2 Ehi Hu) as H.
    rewrite Eps1, Elo, Eps2, Ehi, !last_snoc in *. cbn [head] in *. rewrite E1, E2. destruct (DeleteInterval w s (UpperBound l)) as [s1 e1]. destruct H as [-> H].
    destruct (PutInterval w s1 (UpperBound u) (LowerBound l)) as [s' e]. destruct H as [-> H]. by eexists _, _.
  - destruct Hup as (u & hi' & up & ps2' & Ehi & Eps2 & Hu).
    pose proof (add_to_upper t s h ps1 ps2 lo hi Hst Hh S Hfresh Hnd Hnew up ps2' u hi' Eps2 Ehi Hu Hlow) as H.
    rewrite Eps2, Ehi in *. cbn [head] in *. destruct (PutInterval w s (UpperBound u) h) as [s' e]. destruct H as [-> H].
    destruct (last ps1), (last lo); rewrite E1, ?E2; by eexists _, _.
  - destruct Hlow as (l & lo' & lp & ps1' & Elo & Eps1 & Hl).
    pose proof (add_to_lower t s h ps1 ps2 lo hi Hst Hh S Hfresh Hnd Hnew lp ps1' l lo' Eps1 Elo Hl Hup) as H.
    rewrite Eps1, Elo, !last_snoc in *. destruct (DeleteInterval w s (UpperBound l)) as [s1 e1]. destruct H as [-> H].
    destruct (PutInterval w s1 h (LowerBound l)) as [s' e]. destruct H as [-> H].
    destruct (head ps2), (head hi); rewrite ?E1, E2; by eexists _, _.
  - pose proof (add_alone t s h ps1 ps2 lo hi Hst Hh S Hnew Hlow Hup) as H.
    destruct (PutInterval w s h h) as [s' e]. destruct H as [-> H].
    destruct (head ps2), (head hi), (last ps1), (last lo); rewrite ?E1, ?E2; by eexists _, _.
Qed.

(** The result of removing a height. *)
Definition removed (t' : Tree T) (s s' : W) (ivs : list Interval) (h : Z) : Prop :=
  ∃ ivs', stored t' s' ivs' ∧ same_outside (w_map s) (w_map s') ∧
    (∀ x, covers ivs' x ↔ x ≠ h ∧ covers ivs x) ∧ (covers ivs h → total ivs' = total ivs - 1) ∧
    (¬ covers ivs h → ivs' = ivs).

Section Removing.
Context (t : Tree T) (s : W) (h : Z) (ps1 ps2 : list nat) (lo hi : list Interval) (u : Interval) (up : nat).
Abbreviation heap := (t_heap t ++ [mkInterval h h]).
Abbreviation q := (length (t_heap t)).
Context (Hst : stored t s (lo ++ u :: hi)) (Hh : is_u64 h)
  (S : searched L heap (knownHeights t) q h ps1 (up :: ps2) lo (u :: hi))
  (Hfresh : ∀ p, p ∈ ps1 ++ up :: ps2 → p ≠ q) (Hnd : NoDup (ps1 ++ up :: ps2))
  (Hin : LowerBound u ≤ h ≤ UpperBound u).

Lemma removing_facts :
  canonical lo ∧ canonical hi ∧ valid u ∧ (∀ j, j ∈ lo → gap j u ∧ UpperBound j < LowerBound u) ∧
  (∀ j, j ∈ hi → gap u j ∧ UpperBound u < UpperBound j) ∧ (∀ j k, j ∈ lo → k ∈ hi → gap j k).
Proof.
  pose proof (se_canonical _ _ _ _ _ _ _ _ _ S) as (H1 & H2 & Hv & Ha & Hb & Hab)%canonical_mid.
  split; [done|]. split; [done|]. split; [done|]. split; [|split; [|done]].
  - intros j Hj. pose proof (Ha j Hj). unfold gap in *. split; [done|lia].
  - intros j Hj. pose proof (Hb j Hj). pose proof (canonical_valid _ _ H2 Hj). unfold gap, valid in *. split; [done|lia].
Qed.

Lemma removed_intro heap' kh s' mid :
  points heap' (items kh) (lo ++ mid ++ hi) → canonical (lo ++ mid ++ hi) → w_inv s' → persisted (w_map s') (lo ++ mid ++ hi) →
  same_outside (w_map s) (w_map s') → (∀ x, covers mid x ↔ x ≠ h ∧ LowerBound u ≤ x ≤ UpperBound u) → total mid = width u - 1 →
  removed (mkTree heap' kh (wrap64 (numKnownHeights t - 1))) s s' (lo ++ u :: hi) h.
Proof.
  intros Hp Hc Hi Hper Ho Hcov Ht. destruct removing_facts as (_ & Hc2 & _ & Ha & Hb & _). exists (lo ++ mid ++ hi). split.
  { split; [|done|done]. split; [done|done|]. simpl. rewrite (rep_num _ _ _ (st_rep _ _ _ Hst)). unfold Z.sub. rewrite wrap64_succ. f_equal.
    rewrite !total_app, total_cons, Ht. lia. }
  assert (covers (lo ++ u :: hi) h) as Hcovh. { exists u. split; [apply elem_of_app; right; by left|done]. }
  split; [done|]. split; [|split; [|done]].
  - intros x. rewrite !covers_app, covers_cons, Hcov. split; [|tauto]. intros [Hx|[Hx|Hx]]; [|tauto|]; (split; [|tauto]); intros ->.
    + destruct Hx as (i & Hi' & ?). pose proof (Ha i Hi'). lia.
    + destruct Hx as (i & Hi' & ?). pose proof (Hb i Hi') as [Hg _]. unfold gap in Hg. lia.
  - intros _. rewrite !total_app, total_cons, Ht. lia.
Qed.

Lemma ubs_u64 i : i ∈ lo ++ u :: hi → is_u64 (UpperBound i).
Proof. apply canonical_u64, S. Qed.

(** The interval of one height is dropped. *)
Lemma remove_single :
  LowerBound u = UpperBound u →
  let '(s', err) := DeleteInterval w s (UpperBound u) in
  err = None ∧ removed (mkTree heap (bt_Delete (less_at heap) (knownHeights t) up) (wrap64 (numKnownHeights t - 1))) s s' (lo ++ u :: hi) h.
Proof.
  intros Heq. destruct (DeleteInterval_spec s (UpperBound u) (st_inv _ _ _ Hst)) as (s' & -> & Hi' & Hm'). split; [done|].
  destruct removing_facts as (H1 & H2 & Hv & Ha & Hb & Hab). apply (removed_intro _ _ _ []); simpl; try done.
  - rewrite (delete_item_spec L _ _ ps1 up ps2); [|apply S|apply (se_sorted _ _ _ _ _ _ _ _ _ S)|].
    + apply Forall2_app; [apply S|]. by apply (Forall2_cons_1 _ _ _ _ _ (se_hi _ _ _ _ _ _ _ _ _ S)).
    + intros p Hp. destruct (points_lookup _ _ _ _ (se_points _ _ _ _ _ _ _ _ _ S) Hp) as (i & _ & ->). done.
  - by apply canonical_app.
  - rewrite Hm'. apply (persisted_delete _ (lo ++ u :: hi)); [apply Hst|unfold valid, is_u64 in *; lia|apply ubs_u64|].
    intros i. rewrite !elem_of_app, elem_of_cons. split.
    + intros [Hi|Hi]; (split; [tauto|]); [pose proof (Ha i Hi)|pose proof (Hb i Hi)]; lia.
    + intros [[?|[->|?]] ?]; tauto.
  - rewrite Hm'. apply same_outside_delete.
  - intros x. split; [by intros ?%covers_nil|lia].
  - unfold width, total. simpl. lia.
Qed.

(** The lowest height of an interval. *)
Lemma remove_lowest :
  LowerBound u ≠ UpperBound u → LowerBound u = h →
  let lower := wrap64 (LowerBound u + 1) in
  let '(s', err) := PutInterval w s (UpperBound u) lower in
  err = None ∧ removed (mkTree (<[up := mkInterval lower (UpperBound u)]> heap) (knownHeights t) (wrap64 (numKnownHeights t - 1))) s s' (lo ++ u :: hi) h.
Proof.
  intros Hne Heq. cbv zeta. destruct removing_facts as (H1 & H2 & Hv & Ha & Hb & Hab). rewrite wrap64_id by (unfold valid, is_u64 in *; lia).
  destruct (PutInterval_spec s (UpperBound u) (LowerBound u + 1) (st_inv _ _ _ Hst)) as (s' & -> & Hi' & Hm'). split; [done|].
  apply (removed_intro _ _ _ [mkInterval (LowerBound u + 1) (UpperBound u)]); simpl; try done.
  - rewrite (se_items _ _ _ _ _ _ _ _ _ S). by apply (points_update heap _ _ _ _ u); [apply S..|].
  - apply canonical_mid. split_and!; try done; unfold valid, gap in *; simpl; [lia| |intros; by apply Hb].
    intros j Hj. pose proof (Ha j Hj). unfold gap in *. lia.
  - rewrite Hm'. apply (persisted_put _ (lo ++ u :: hi)); [apply Hst|unfold valid, is_u64 in *; lia|apply ubs_u64|].
    intros i. rewrite !elem_of_app, !elem_of_cons. split.
    + intros [Hi|[->|Hi]]; [right|by left|right]; (split; [tauto|]); [pose proof (Ha i Hi)|pose proof (Hb i Hi)]; unfold valid in *; lia.
    + intros [->|[[?|[->|?]] ?]]; tauto.
  - rewrite Hm'. apply same_outside_put.
  - intros x. rewrite covers_cons. simpl. split; [intros [?|?%covers_nil]; [lia|done]|]. left. lia.
  - unfold width, total. simpl. unfold width. simpl. lia.
Qed.

(** The highest height of an interval. *)
Lemma remove_highest :
  LowerBound u ≠ UpperBound u → UpperBound u = h →
  let '(s1, err) := DeleteInterval w s (UpperBound u) in
  err = None ∧
  let upper := wrap64 (UpperBound u - 1) in
  let '(s', err) := PutInterval w s1 upper (LowerBound u) in
  err = None ∧ removed (mkTree (<[up := mkInterval (LowerBound u) upper]> heap) (knownHeights t) (wrap64 (numKnownHeights t - 1))) s s' (lo ++ u :: hi) h.
Proof.
  intros Hne Heq. cbv zeta. destruct removing_facts as (H1 & H2 & Hv & Ha & Hb & Hab). rewrite wrap64_id by (unfold valid, is_u64 in *; lia).
  destruct (DeleteInterval_spec s (UpperBound u) (st_inv _ _ _ Hst)) as (s1 & -> & Hi1 & Hm1). split; [done|].
  destruct (PutInterval_spec s1 (UpperBound u - 1) (LowerBound u) Hi1) as (s' & -> & Hi' & Hm'). split; [done|].
  apply (removed_intro _ _ _ [mkInterval (LowerBound u) (UpperBound u - 1)]); simpl; try done.
  - rewrite (se_items _ _ _ _ _ _ _ _ _ S). by apply (points_update heap _ _ _ _ u); [apply S..|].
  - apply canonical_mid. split_and!; try done; unfold valid, gap in *; simpl; [lia|intros; by apply Ha|].
    intros j Hj. pose proof (Hb j Hj). unfold gap in *. lia.
  - rewrite Hm'. apply (persisted_put _ (lo ++ hi)).
    + rewrite Hm1. apply (persisted_delete _ (lo ++ u :: hi)); [apply Hst|unfold valid, is_u64 in *; lia|apply ubs_u64|].
      intros i. rewrite !elem_of_app, elem_of_cons. split.
      * intros [Hi|Hi]; (split; [tauto|]); [pose proof (Ha i Hi)|pose proof (Hb i Hi)]; unfold valid in *; lia.
      * intros [[?|[->|?]] ?]; tauto.
    + unfold valid, is_u64 in *; lia.
    + intros i [?|?]%elem_of_app; apply ubs_u64, elem_of_app; [by left|right; by right].
    + intros i. rewrite !elem_of_app, elem_of_cons. split; [|tauto].
      intros [Hi|[->|Hi]]; [right|by left|right]; (split; [tauto|]); [pose proof (Ha i Hi)|pose proof (Hb i Hi)]; unfold valid in *; lia.
  - rewrite Hm', Hm1. eapply same_outside_trans; [apply same_outside_delete|apply same_outside_put].
  - intros x. rewrite covers_cons. simpl. split; [intros [?|?%covers_nil]; [lia|done]|]. left. lia.
  - unfold width, total. simpl. unfold width. simpl. lia.
Qed.

(** A height inside of an interval splits it. *)
Lemma remove_inside :
  LowerBound u ≠ h → UpperBound u ≠ h →
  let new := mkInterval (LowerBound u) (wrap64 (h - 1)) in
  let heap1 := <[q := new]> heap in
  let lower := wrap64 (h + 1) in
  let '(s1, err) := PutInterval w s (UpperBound new) (LowerBound new) in
  err = None ∧
  let '(s', err) := PutInterval w s1 (UpperBound u) lower in
  err = None ∧
  removed (mkTree (<[up := mkInterval lower (UpperBound u)]> heap1) (bt_ReplaceOrInsert (less_at heap1) (knownHeights t) q)
    (wrap64 (numKnownHeights t - 1))) s s' (lo ++ u :: hi) h.
Proof.
  intros Hne1 Hne2. cbv zeta. destruct removing_facts as (H1 & H2 & Hv & Ha & Hb & Hab). rewrite !wrap64_id by (unfold valid, is_u64 in *; lia). simpl.
  destruct (PutInterval_spec s (h - 1) (LowerBound u) (st_inv _ _ _ Hst)) as (s1 & -> & Hi1 & Hm1). split; [done|].
  destruct (PutInterval_spec s1 (UpperBound u) (h + 1) Hi1) as (s' & -> & Hi' & Hm'). split; [done|].
  set (new := mkInterval (LowerBound u) (h - 1)). set (heap1 := <[q := new]> heap).
  assert (∀ p, p ∈ ps1 ++ up :: ps2 → heap1 !! p = heap !! p) as Hother.
  { intros p Hp. apply list_lookup_insert_ne. intros Hq. by apply (Hfresh p Hp). }
  assert (heap1 !! q = Some new) as Hnew. { apply list_lookup_insert_eq. rewrite length_app. simpl. lia. }
  assert (points heap1 ps1 lo) as Hp1. { apply (points_frame heap); [apply S|]. intros p Hp. apply Hother, elem_of_app. by left. }
  assert (points heap1 (up :: ps2) (u :: hi)) as Hp2. { apply (points_frame heap); [apply S|]. intros p Hp. apply Hother, elem_of_app. by right. }
  assert (searched L heap1 (knownHeights t) q (h - 1) ps1 (up :: ps2) lo (u :: hi)) as S1.
  { split; [apply S|done|done|by exists (LowerBound u)|apply S| |].
    - intros i Hi. pose proof (Ha i Hi). lia.
    - intros i Hi. pose proof (se_above _ _ _ _ _ _ _ _ _ S i Hi). lia. }
  apply (removed_intro _ _ _ [new; mkInterval (h + 1) (UpperBound u)]); simpl; try done.
  - rewrite (insert_pivot_spec _ _ _ _ _ _ _ _ _ S1).
    + replace (ps1 ++ q :: up :: ps2) with ((ps1 ++ [q]) ++ up :: ps2) by by rewrite <- app_assoc.
      replace (lo ++ new :: mkInterval (h + 1) (UpperBound u) :: hi) with ((lo ++ [new]) ++ mkInterval (h + 1) (UpperBound u) :: hi) by by rewrite <- app_assoc.
      apply (points_update heap1 _ _ _ _ u); [apply Forall2_app; [done|by constructor]|done|].
      rewrite <- app_assoc. simpl. rewrite <- (Permutation_middle ps1 (up :: ps2) q). apply NoDup_cons. split; [|done].
      intros Hq. by apply (Hfresh _ Hq).
    + intros i Hi. pose proof (se_above _ _ _ _ _ _ _ _ _ S i Hi). lia.
  - apply canonical_mid. simpl. split_and!; try done; unfold valid, gap in *; simpl; try lia; [intros; by apply Hb|intros; by apply Ha| |].
    + intros j [->|Hj]%elem_of_cons; simpl; [lia|]. pose proof (Hb j Hj). unfold gap in *. lia.
    + intros j k Hj [->|Hk]%elem_of_cons; [|by apply Hab]. simpl. pose proof (Ha j Hj). unfold gap in *. lia.
  - rewrite Hm'. apply (persisted_put _ (lo ++ new :: u :: hi)).
    + rewrite Hm1. apply (persisted_put _ (lo ++ u :: hi)); [apply Hst|unfold valid, is_u64 in *; lia|apply ubs_u64|].
      intros i. rewrite !elem_of_app, !elem_of_cons. split; [|tauto].
      intros [Hi|[->|[->|Hi]]]; [right|by left|right|right]; (split; [tauto|]); [pose proof (Ha i Hi)| |pose proof (Hb i Hi)]; unfold valid in *; lia.
    + unfold valid, is_u64 in *; lia.
    + intros i [?|[->|?]%elem_of_cons]%elem_of_app; [apply ubs_u64, elem_of_app; by left|unfold valid, is_u64 in *; simpl; lia|apply ubs_u64, elem_of_app; by right].
    + intros i. rewrite !elem_of_app, !elem_of_cons. split.
      * intros [Hi|[->|[->|Hi]]]; [right|right|by left|right]; (split; [tauto|]); [pose proof (Ha i Hi)|simpl|pose proof (Hb i Hi)]; unfold valid in *; lia.
      * intros [->|[[?|[->|[->|?]]] ?]]; tauto.
  - rewrite Hm', Hm1. eapply same_outside_trans; apply same_outside_put.
  - intros x. rewrite !covers_cons. simpl. split; [intros [?|[?|?%covers_nil]]; [lia|lia|done]|]. intros [? ?].
    destruct (Z.lt_ge_cases x h); [left; lia|right; left; lia].
  - unfold total. simpl. unfold width. simpl. lia.
Qed.
End Removing.

Lemma Tree_Remove_spec t s ivs h :
  stored t s ivs → is_u64 h → ∃ t' s', Tree_Remove w t s h = (t', s', None) ∧ removed t' s s' ivs h.
Proof.
  intros Hst Hh. destruct (stored_search t s ivs h Hst) as (ps1 & ps2 & lo & hi & -> & S & Hfresh & Hnd).
  assert ((∀ i, i ∈ hi → h < LowerBound i) → removed (mkTree (t_heap t ++ [mkInterval h h]) (knownHeights t) (numKnownHeights t)) s s (lo ++ hi) h) as Hsame.
  { intros Hnew. pose proof (adding_not_covered t h ps1 ps2 lo hi S Hnew) as Hn. exists (lo ++ hi). split; [by apply stored_alloc|]. split; [done|].
    split; [|done]. intros x. split; [|tauto]. intros Hx. split; [by intros ->|done]. }
  unfold Tree_Remove. cbv zeta. rewrite (find_upper_spec _ _ _ _ _ _ _ _ _ S).
  pose proof (contains_head lo hi h (se_canonical _ _ _ _ _ _ _ _ _ S) (se_below _ _ _ _ _ _ _ _ _ S) (se_above _ _ _ _ _ _ _ _ _ S)) as Hcon.
  pose proof (se_hi _ _ _ _ _ _ _ _ _ S) as Hp2. destruct Hp2 as [|up u ps2 hi Hup Hp2]; cbn [head] in *.
  { eexists _, _. split; [done|]. by apply Hsame. }
  unfold deref. simpl mbind. rewrite Hup. destruct (Contains (Some u) h) eqn:Econ; simpl in Econ; zbool; [|eexists _, _; split; [done|]; by apply Hsame].
  assert (LowerBound u ≤ h ≤ UpperBound u) as Hin by lia. clear H H0. cbn [negb].
  destruct (Z.eqb_spec (LowerBound u) (UpperBound u)) as [E1|E1].
  { pose proof (remove_single t s h ps1 ps2 lo hi u up Hst Hh S Hin E1) as H. destruct (DeleteInterval w s (UpperBound u)) as [s' e].
    destruct H as [-> H]. by eexists _, _. }
  destruct (Z.eqb_spec (LowerBound u) h) as [E2|E2].
  { pose proof (remove_lowest t s h ps1 ps2 lo hi u up Hst S Hnd Hin E1 E2) as H. cbv zeta in H.
    destruct (PutInterval w s (UpperBound u) (wrap64 (LowerBound u + 1))) as [s' e]. destruct H as [-> H]. by eexists _, _. }
  destruct (Z.eqb_spec (UpperBound u) h) as [E3|E3].
  { pose proof (remove_highest t s h ps1 ps2 lo hi u up Hst S Hnd Hin E1 E3) as H. destruct (DeleteInterval w s (UpperBound u)) as [s1 e1].
    destruct H as [-> H]. cbv zeta in H. destruct (PutInterval w s1 (wrap64 (UpperBound u - 1)) (LowerBound u)) as [s' e]. destruct H as [-> H]. by eexists _, _. }
  pose proof (remove_inside t s h ps1 ps2 lo hi u up Hst Hh S Hfresh Hnd Hin E2 E3) as H. cbv zeta in H. cbn [UpperBound LowerBound] in *.
  destruct (PutInterval w s (wrap64 (h - 1)) (LowerBound u)) as [s1 e1]. destruct H as [-> H].
  destruct (PutInterval w s1 (UpperBound u) (wrap64 (h + 1))) as [s' e]. destruct H as [-> H]. by eexists _, _.
Qed.

Lemma Tree_Contains_spec t s ivs h : stored t s ivs → Tree_Contains t h = true ↔ covers ivs h.
Proof.
  intros Hst. destruct (stored_search t s ivs h Hst) as (ps1 & ps2 & lo & hi & -> & S & Hfresh & Hnd).
  unfold Tree_Contains. rewrite (find_upper_spec _ _ _ _ _ _ _ _ _ S), (points_head _ _ _ (se_hi _ _ _ _ _ _ _ _ _ S)).
  pose proof (contains_head lo hi h (se_canonical _ _ _ _ _ _ _ _ _ S) (se_below _ _ _ _ _ _ _ _ _ S) (se_above _ _ _ _ _ _ _ _ _ S)) as Hcon.
  destruct (Contains (head hi) h); [done|]. split; [done|]. intros Hc. by destruct (adding_not_covered t h ps1 ps2 lo hi S Hcon).
Qed.

Lemma Flatten_spec t s ivs : stored t s ivs → Flatten t = ivs.
Proof.
  intros [[Hp _ _] _ _]. unfold Flatten. rewrite items_Ascend. induction Hp as [|p i ps ivs Hi Hp IH]; [done|]. simpl. rewrite Hi. f_equal. exact IH.
Qed.

(** *** Blocks *)

Definition is_block_key (k : bytes) : bool := HasPrefix k blockPrefix.

Lemma makeBlockKey_outside h : HasPrefix (makeBlockKey h) intervalPrefix = false.
Proof. done. Qed.

Lemma makeBlockKey_inj a b : is_u64 a → is_u64 b → makeBlockKey a = makeBlockKey b → a = b.
Proof. unfold is_u64, MaxUint64. intros Ha Hb H%(app_inv_head blockPrefix). apply (put_uint_inj 8); [lia..|exact H]. Qed.

Lemma stored_outside t s s' ivs :
  stored t s ivs → w_inv s' → (∀ k, HasPrefix k intervalPrefix = true → w_map s' !! k = w_map s !! k) → stored t s' ivs.
Proof. intros [Hr Hi Hp] Hi' Hm. split; [done|done|]. intros k v Hk. rewrite Hm by done. by apply Hp. Qed.

(** [Add] of a block: nothing for a height that is accepted or known; otherwise the
    block is stored, its height added, and the parent wanted unless it is the last
    accepted block or known. *)
Lemma Add_spec t s ivs last h blk :
  stored t s ivs → is_u64 h → is_u64 last →
  ∃ t' s' r, Add w s t last h blk = (t', s', Ok r) ∧
    (((h ≤ last ∨ covers ivs h) ∧ t' = t ∧ s' = s ∧ r = false) ∨
     (last < h ∧ ¬ covers ivs h ∧ ∃ ivs', stored t' s' ivs' ∧ (∀ x, covers ivs' x ↔ x = h ∨ covers ivs x) ∧
       total ivs' = total ivs + 1 ∧
       (∀ k, HasPrefix k intervalPrefix = false → w_map s' !! k = <[makeBlockKey h := blk]> (w_map s) !! k) ∧
       (r = true ↔ h - 1 ≠ last ∧ ¬ covers ivs (h - 1)))).
Proof.
  intros Hst Hh Hl. unfold Add. destruct ((h <=? last) || Tree_Contains t h) eqn:E.
  { eexists _, _, _. split; [done|]. left. split; [|done]. apply orb_true_iff in E as [?%Z.leb_le|?]; [by left|right]. by apply (Tree_Contains_spec t s). }
  zbool. assert (¬ covers ivs h) as Hnc. { intros Hc. apply (Tree_Contains_spec t s ivs h Hst) in Hc. congruence. }
  unfold PutBlock. destruct (w_Put_law s (makeBlockKey h) blk (st_inv _ _ _ Hst)) as (Hi1 & Hm1 & He1).
  destruct (w_Put w s (makeBlockKey h) blk) as [s1 e1]. simpl in *. subst e1.
  assert (stored t s1 ivs) as Hst1.
  { apply (stored_outside t s s1); [done|done|]. intros k Hk. rewrite Hm1. apply lookup_insert_ne. by intros <-. }
  destruct (Tree_Add_spec t s1 ivs h Hst1 Hh) as (t' & s' & -> & (ivs' & Hst' & Ho & Hcov & Ht & _)).
  eexists _, _, _. split; [done|]. right. split; [lia|]. split; [done|]. exists ivs'. split; [done|]. split; [done|]. split; [by apply Ht|].
  split; [intros k Hk; by rewrite Ho, Hm1|]. rewrite wrap64_id by (unfold is_u64 in *; lia).
  rewrite andb_true_iff, !negb_true_iff, Z.eqb_neq, <- not_true_iff_false, (Tree_Contains_spec t' s' ivs' (h - 1) Hst'), Hcov.
  split; [intros [? Hn]; split; [done|]; tauto|]. intros [? Hn]. split; [done|]. intros [?|?]; [lia|done].
Qed.

Lemma Remove_block_spec t s ivs h :
  stored t s ivs → is_u64 h →
  ∃ t' s' ivs', Remove w s t h = (t', s', None) ∧ stored t' s' ivs' ∧ (∀ x, covers ivs' x ↔ x ≠ h ∧ covers ivs x) ∧
    (covers ivs h → total ivs' = total ivs - 1) ∧
    (∀ k, HasPrefix k intervalPrefix = false → w_map s' !! k = delete (makeBlockKey h) (w_map s) !! k).
Proof.
  intros Hst Hh. unfold Remove, DeleteBlock. destruct (w_Delete_law s (makeBlockKey h) (st_inv _ _ _ Hst)) as (Hi1 & Hm1 & He1).
  destruct (w_Delete w s (makeBlockKey h)) as [s1 e1]. simpl in *. subst e1.
  assert (stored t s1 ivs) as Hst1.
  { apply (stored_outside t s s1); [done|done|]. intros k Hk. rewrite Hm1. apply lookup_delete_ne. by intros <-. }
  destruct (Tree_Remove_spec t s1 ivs h Hst1 Hh) as (t' & s' & -> & (ivs' & Hst' & Ho & Hcov & Ht & _)).
  exists t', s', ivs'. split; [done|]. split; [done|]. split; [done|]. split; [done|]. intros k Hk. by rewrite Ho, Hm1.
Qed.
End Operations.

(** ** Reading the tree back *)

Section Reopen.
Context `{B : BTree T nat} (L : BTreeLaws B) `{D : Database DB It Ba} (DL : DatabaseLaws D).

Definition iv_entry (i : Interval) : bytes * bytes := (makeIntervalKey (UpperBound i), PackUInt64 (LowerBound i)).

Lemma persisted_listing m ivs : persisted m ivs → canonical ivs → listing m [] intervalPrefix (map iv_entry ivs).
Proof.
  intros Hp Hc. split.
  - clear Hp. induction ivs as [|i ivs IH]; simpl; [constructor|]. destruct Hc as (Hv & Hg & Hc). constructor; [by apply IH|].
    apply Forall_forall. intros k (e & -> & (j & -> & Hj)%list_elem_of_fmap)%list_elem_of_fmap. simpl.
    pose proof (Hg j Hj). pose proof (canonical_valid _ _ Hc Hj). unfold gap, valid in *. apply (blt_app intervalPrefix). unfold blt, PackUInt64.
    rewrite put_uint_compare; [apply Z.compare_lt_iff; lia| |]; unfold MaxUint64 in *; simpl; lia.
  - intros k v. rewrite list_elem_of_fmap. split.
    + intros (i & [= -> ->] & Hi). split; [|split; [apply makeIntervalKey_prefix|done]].
      apply Hp; [apply makeIntervalKey_prefix|]. by exists i.
    + intros (Hm & Hk & _). apply Hp in Hm as (i & Hi & -> & ->); [|done]. by exists i.
Qed.

Lemma ParsePack v : is_u64 v → ParseUInt64 (PackUInt64 v) = Ok v.
Proof.
  intros Hv. unfold ParseUInt64, PackUInt64. rewrite put_uint_length. change (Z.of_nat 8 =? Uint64Size) with true. cbv iota. rewrite get_put. f_equal. apply Z.mod_small.
  unfold is_u64, MaxUint64 in Hv. simpl. lia.
Qed.

Lemma get_intervals_loop_spec db m ivs it acc fuel :
  db_inv db → contents db = Some m → it_at DL it (map iv_entry ivs) → Forall valid ivs → (length ivs < fuel)%nat →
  get_intervals_loop fuel db it acc = Some (Ok (acc ++ ivs)).
Proof.
  intros Hi Hc. revert it acc fuel. induction ivs as [|i ivs IH]; intros it acc [|fuel] Hat Hv Hf; simpl in Hf; try lia; simpl.
  - destruct (Next_nil DL db m it Hi Hc Hat) as (it' & -> & (_ & -> & _)). by rewrite app_nil_r.
  - destruct (Next_cons DL db m it _ _ _ Hi Hc Hat) as (it' & -> & -> & -> & Hat'). apply Forall_cons in Hv as [Hvi Hv]. unfold valid in Hvi.
    assert (drop (Z.to_nat prefixLen) (makeIntervalKey (UpperBound i)) = PackUInt64 (UpperBound i)) as -> by done.
    assert ((Z.of_nat (length (makeIntervalKey (UpperBound i))) <? prefixLen) = false) as ->.
    { apply Z.ltb_ge. unfold makeIntervalKey, prefixLen. rewrite length_app. simpl. lia. }
    rewrite !ParsePack by (unfold is_u64; lia). rewrite IH; [|done|done|lia]. rewrite <- app_assoc. by destruct i.
Qed.

Lemma GetIntervals_spec db m ivs fuel :
  db_inv db → contents db = Some m → persisted m ivs → canonical ivs → (length ivs < fuel)%nat → GetIntervals fuel db = Some (Ok ivs).
Proof.
  intros Hi Hm Hp Hc Hf. destruct (db_iterator_at DL db m [] intervalPrefix Hi Hm) as (l & Hat & Hl).
  rewrite (listing_unique _ _ _ _ _ Hl (persisted_listing m ivs Hp Hc)) in Hat.
  apply (get_intervals_loop_spec db m ivs _ []); [done..| |done]. apply Forall_forall. intros i Hin. by apply (canonical_valid ivs).
Qed.

Lemma new_tree_insert_spec t ivs i : rep L t ivs → canonical (ivs ++ [i]) → rep L (new_tree_insert t i) (ivs ++ [i]).
Proof.
  intros [Hp Hc Hn] Hc'. pose proof (proj1 (canonical_mid ivs i []) Hc') as (_ & _ & Hv & Ha & _ & _).
  assert (searched L (t_heap t ++ [i]) (knownHeights t) (length (t_heap t)) (UpperBound i) (items (knownHeights t)) [] ivs []) as S.
  { split; [by rewrite app_nil_r|by apply points_alloc|constructor| |by rewrite app_nil_r| |by intros ? ?%elem_of_nil].
    - exists (LowerBound i). rewrite list_lookup_middle by done. by destruct i.
    - intros j Hj. pose proof (Ha j Hj). unfold gap, valid in *. lia. }
  split; [|done|].
  - simpl. rewrite (insert_pivot_spec _ _ _ _ _ _ _ _ _ S) by by intros ? ?%elem_of_nil.
    apply Forall2_app; [by apply points_alloc|]. constructor; [by apply list_lookup_middle|constructor].
  - simpl. rewrite Hn, wrap64_succ, total_app. f_equal. unfold total. simpl. unfold width. lia.
Qed.

Lemma new_tree_spec ivs ivs0 t : rep L t ivs0 → canonical (ivs0 ++ ivs) → rep L (foldl new_tree_insert t ivs) (ivs0 ++ ivs).
Proof.
  revert ivs0 t. induction ivs as [|i ivs IH]; intros ivs0 t Hr Hc; simpl; [by rewrite app_nil_r|].
  rewrite (app_assoc ivs0 [i] ivs : ivs0 ++ i :: ivs = (ivs0 ++ [i]) ++ ivs) in *. apply IH; [|done]. apply new_tree_insert_spec; [done|].
  by apply canonical_app in Hc as (? & _ & _).
Qed.

Lemma NewTree_spec db m ivs fuel :
  db_inv db → contents db = Some m → persisted m ivs → canonical ivs → (length ivs < fuel)%nat →
  ∃ t, NewTree fuel db = Some (Ok t) ∧ rep L t ivs.
Proof.
  intros Hi Hm Hp Hc Hf. unfold NewTree. rewrite (GetIntervals_spec db m ivs fuel) by done. simpl. eexists. split; [done|].
  apply (new_tree_spec ivs []); [|done]. split; simpl; [|done|done]. rewrite items_NewG. constructor.
Qed.
End Reopen.

(** ** Sequences of operations on the set of heights *)

Inductive tree_cmd : Type :=
| TAdd (h : Z)
| TRemove (h : Z)
| TContains (h : Z)
| TLen
| TFlatten
| TReopen.

Inductive tree_out : Type :=
| TDone
| TBool (b : bool)
| TNum (n : Z)
| TIntervals (l : list Interval)
| TFailed.

Section Sequences.
Context `{B : BTree T nat} `{D : Database DB It Ba}.

(** [TReopen] drops the tree and makes it again from the database. *)
Definition tree_step (s : Tree T * DB) (c : tree_cmd) : (Tree T * DB) * tree_out :=
  let '(t, db) := s in
  match c with
  | TAdd h => let '(t, db, e) := Tree_Add db_writer t db h in ((t, db), match e with None => TDone | Some _ => TFailed end)
  | TRemove h => let '(t, db, e) := Tree_Remove db_writer t db h in ((t, db), match e with None => TDone | Some _ => TFailed end)
  | TContains h => (s, TBool (Tree_Contains t h))
  | TLen => (s, TNum (Tree_Len t))
  | TFlatten => (s, TIntervals (Flatten t))
  | TReopen =>
      match NewTree (S (length (Flatten t))) db with
      | Some (Ok t) => ((t, db), TDone)
      | _ => (s, TFailed)
      end
  end.

(** What a set of heights answers; the intervals are its maximal ones. *)
Fixpoint answers (hs : gset Z) (cmds : list tree_cmd) (outs : list tree_out) : Prop :=
  match cmds, outs with
  | [], [] => True
  | TAdd h :: cmds, TDone :: outs => answers ({[h]} ∪ hs) cmds outs
  | TRemove h :: cmds, TDone :: outs => answers (hs ∖ {[h]}) cmds outs
  | TContains h :: cmds, TBool b :: outs => b = bool_decide (h ∈ hs) ∧ answers hs cmds outs
  | TLen :: cmds, TNum n :: outs => n = wrap64 (Z.of_nat (size hs)) ∧ answers hs cmds outs
  | TFlatten :: cmds, TIntervals l :: outs => canonical l ∧ (∀ x, covers l x ↔ x ∈ hs) ∧ answers hs cmds outs
  | TReopen :: cmds, TDone :: outs => answers hs cmds outs
  | _, _ => False
  end.

Definition cmd_height (c : tree_cmd) : Z := match c with TAdd h | TRemove h => h | _ => 0 end.

Context (L : BTreeLaws B) (DL : DatabaseLaws D).

Record set_rep (s : Tree T * DB) (ivs : list Interval) (hs : gset Z) : Prop := {
  sr_stored : stored L (db_writer_laws DL) s.1 s.2 ivs;
  sr_covers : ∀ x, covers ivs x ↔ x ∈ hs;
  sr_total : total ivs = Z.of_nat (size hs);
}.

Lemma set_rep_add s ivs hs h :
  set_rep s ivs hs → is_u64 h → ∃ ivs', (tree_step s (TAdd h)).2 = TDone ∧ set_rep (tree_step s (TAdd h)).1 ivs' ({[h]} ∪ hs).
Proof.
  destruct s as [t db]. intros [Hst Hcov Htot] Hh. simpl in *.
  destruct (Tree_Add_spec L (db_writer_laws DL) t db ivs h Hst Hh) as (t' & db' & -> & (ivs' & Hst' & _ & Hc & Ht & Hs)).
  exists ivs'. split; [done|]. split; [done| |].
  - intros x. rewrite Hc, Hcov. set_solver.
  - destruct (decide (h ∈ hs)) as [Hin|Hn].
    + rewrite Hs by by apply Hcov. rewrite Htot. do 2 f_equal. set_solver.
    + rewrite Ht by by rewrite Hcov. rewrite size_union, size_singleton by set_solver. lia.
Qed.

Lemma set_rep_remove s ivs hs h :
  set_rep s ivs hs → is_u64 h → ∃ ivs', (tree_step s (TRemove h)).2 = TDone ∧ set_rep (tree_step s (TRemove h)).1 ivs' (hs ∖ {[h]}).
Proof.
  destruct s as [t db]. intros [Hst Hcov Htot] Hh. simpl in *.
  destruct (Tree_Remove_spec L (db_writer_laws DL) t db ivs h Hst Hh) as (t' & db' & -> & (ivs' & Hst' & _ & Hc & Ht & Hs)).
  exists ivs'. split; [done|]. split; [done| |].
  - intros x. rewrite Hc, Hcov. set_solver.
  - destruct (decide (h ∈ hs)) as [Hin|Hn].
    + rewrite Ht by by apply Hcov. rewrite Htot, (size_difference hs {[h]}), size_singleton by set_solver.
      pose proof (subseteq_size {[h]} hs ltac:(set_solver)) as Hsz. rewrite size_singleton in Hsz. lia.
    + rewrite Hs by by rewrite Hcov. rewrite Htot. do 2 f_equal. set_solver.
Qed.

Lemma set_rep_reopen s ivs hs :
  set_rep s ivs hs → (tree_step s TReopen).2 = TDone ∧ set_rep (tree_step s TReopen).1 ivs hs.
Proof.
  destruct s as [t db]. intros [Hst Hcov Htot]. simpl in *. pose proof Hst as [Hr [Hi [m Hm]] Hp]. simpl in Hi, Hm, Hp.
  rewrite (Flatten_spec L _ t db ivs Hst). rewrite Hm in Hp.
  destruct (NewTree_spec L DL db m ivs (S (length ivs)) Hi Hm Hp (rep_canonical _ _ _ Hr) ltac:(lia)) as (t' & -> & Hr'). split; [done|].
  split; [|done|done]. split; [done|by split|]. simpl. by rewrite Hm.
Qed.

Lemma set_rep_run s ivs hs cmds :
  set_rep s ivs hs → Forall (λ c, is_u64 (cmd_height c)) cmds → answers hs cmds (run tree_step s cmds).2.
Proof.
  revert s ivs hs. induction cmds as [|c cmds IH]; intros s ivs hs Hr Hf; [done|]. apply Forall_cons in Hf as [Hh Hf]. cbn [run].
  destruct c as [h|h|h| | |]; simpl in Hh.
  - destruct (set_rep_add s ivs hs h Hr Hh) as (ivs' & Ho & Hr'). destruct (tree_step s (TAdd h)) as [s' o]. simpl in Ho, Hr'. subst o.
    specialize (IH s' ivs' _ Hr' Hf). by destruct (run tree_step s' cmds).
  - destruct (set_rep_remove s ivs hs h Hr Hh) as (ivs' & Ho & Hr'). destruct (tree_step s (TRemove h)) as [s' o]. simpl in Ho, Hr'. subst o.
    specialize (IH s' ivs' _ Hr' Hf). by destruct (run tree_step s' cmds).
  - specialize (IH s ivs hs Hr Hf). destruct s as [t db]. simpl. destruct (run tree_step (t, db) cmds). simpl. split; [|done].
    destruct Hr as [Hst Hcov _]. simpl in *. pose proof (Tree_Contains_spec L _ t db ivs h Hst) as Hc. rewrite Hcov in Hc.
    case_bool_decide; [by apply Hc|]. apply not_true_iff_false. tauto.
  - specialize (IH s ivs hs Hr Hf). destruct s as [t db]. simpl. destruct (run tree_step (t, db) cmds). simpl. split; [|done].
    destruct Hr as [Hst _ Htot]. simpl in *. unfold Tree_Len. rewrite (rep_num _ _ _ (st_rep _ _ _ _ _ Hst)). by rewrite Htot.
  - specialize (IH s ivs hs Hr Hf). destruct s as [t db]. simpl. destruct (run tree_step (t, db) cmds). simpl.
    destruct Hr as [Hst Hcov _]. simpl in *. rewrite (Flatten_spec L _ t db ivs Hst). split; [apply Hst|done].
  - destruct (set_rep_reopen s ivs hs Hr) as [Ho Hr']. destruct (tree_step s TReopen) as [s' o]. simpl in Ho, Hr'. subst o.
    specialize (IH s' ivs _ Hr' Hf). by destruct (run tree_step s' cmds).
Qed.
End Sequences.

(** ** A search tree

    A sorted list satisfies the laws of the search tree; examples run with it. *)
Definition ListTree (A : Type) : BTree (list A) A := {|
  bt_NewG := [];
  bt_ReplaceOrInsert less t x := filter (λ y, less y x = true) t ++ x :: filter (λ y, less x y = true) t;
  bt_Delete less t x := filter (λ y, less y x || less x y = true) t;
  bt_AscendGreaterOrEqual less t x := filter (λ y, less y x = false) t;
  bt_DescendLessOrEqual less t x := reverse (filter (λ y, less x y = false) t);
  bt_Ascend t := t;
  bt_Len t := Z.of_nat (length t);
|}.

Definition ListTree_laws (A : Type) : BTreeLaws (ListTree A).
Proof. by refine {| items t := t |}. Defined.

(** C26: The tree of intervals is a set of heights: from an empty database, any
    sequence of adding, removing and testing 64-bit heights answers as a finite set
    does, its length is the size of the set modulo 2^64, its intervals are the
    maximal intervals of the set in order, and the tree can be dropped and made
    again from the database at any time.  No operation fails.  This holds for any
    search tree and any database that keep their contracts. *)
Theorem interval_tree_refines `{B : BTree T nat} (L : BTreeLaws B) `{D : Database DB It Ba} (DL : DatabaseLaws D)
    (db : DB) (m : kvmap) (cmds : list tree_cmd) :
  db_inv db → contents db = Some m → (∀ k, HasPrefix k intervalPrefix = true → m !! k = None) →
  Forall (λ c, is_u64 (cmd_height c)) cmds →
  ∃ t, NewTree 1 db = Some (Ok t) ∧ answers ∅ cmds (run tree_step (t, db) cmds).2.
Proof.
  intros Hi Hm Hno Hf. assert (persisted m []) as Hp.
  { intros k v Hk. rewrite Hno by done. split; [done|]. by intros (i & ?%elem_of_nil & _). }
  destruct (NewTree_spec L DL db m [] 1 Hi Hm Hp I ltac:(simpl; lia)) as (t & -> & Hr). exists t. split; [done|].
  apply (set_rep_run L DL _ []); [|done]. split; simpl.
  - split; [done|by split|]. simpl. by rewrite Hm.
  - intros x. split; [by intros ?%covers_nil|set_solver].
  - done.
Qed.

(** Heights that are merged, split and removed, over a database in memory. *)
Lemma interval_tree_refines_witness :
  let _ := canonical_range bytes in
  let _ := ListTree nat in
  let cmds := [TAdd 5; TAdd 7; TAdd 6; TAdd 0; TAdd MaxUint64; TRemove 6; TReopen; TContains 6; TContains 7; TLen; TFlatten] in
  (∃ t, NewTree 1 mem_New = Some (Ok t) ∧ answers ∅ cmds (run tree_step (t, mem_New) cmds).2) ∧
  option_map (λ r, match r with Ok t => last (run tree_step (t, mem_New) cmds).2 | Err _ => None end) (NewTree 1 mem_New) =
  Some (Some (TIntervals [mkInterval 0 0; mkInterval 5 5; mkInterval 7 7; mkInterval MaxUint64 MaxUint64])).
Proof.
  intros R LT cmds. split; [|vm_compute; reflexivity].
  apply (interval_tree_refines (ListTree_laws nat) MemDB_laws mem_New ∅ cmds); [exact I|reflexivity|intros; apply lookup_empty|].
  repeat constructor; vm_compute; discriminate.
Defined.
