(* ===== verification/BlockStorage.v ===== *)
(** * Fetching and executing blocks (package [snowman/bootstrap])

    [storage.go]: which blocks are still missing, storing fetched blocks with their
    ancestors, and executing the stored blocks in the order of their heights.  It
    composes the tree of heights with a database.  The virtual machine is a parser
    from bytes to blocks and the calls [Verify] and [Accept], which are recorded. *)
From stdpp Require Import sorting.
From S2P Require Import Prelude Ids Bytes Database MemDB IntervalTree.

(** ** Data *)

(** What is used of a [snowman.Block]. *)
Record Block : Type := mkBlock {
  b_ID : ID;
  b_Parent : ID;
  b_Height : Z;
  b_Bytes : bytes;
}.

Inductive vm_call : Type :=
| VM_Verify (id : ID)
| VM_Accept (id : ID).

Inductive boot_error : Type :=
| BDatabase (e : db_error)
| BParse
| BVerify (id : ID)
| BAccept (id : ID).

Definition batchWritePeriod : Z := 64.
Definition iteratorReleasePeriod : Z := 1024.
Definition minBlocksToCompact : Z := 5000.

Section Storage.
Context (ParseBlock : bytes → option Block).
Context `{B : BTree T nat} `{D : Database DB It Ba}.

(** ** Missing blocks *)

(** The loop of [getMissingBlockIDs] *)
Fixpoint missing_loop (db : DB) (lastHeightToFetch : Z) (intervals : list Interval) (missingBlocks : gset ID) : result (gset ID) boot_error :=
  match intervals with
  | [] => Ok missingBlocks
  | i :: intervals =>
      if LowerBound i <=? lastHeightToFetch then missing_loop db lastHeightToFetch intervals missingBlocks else
      match GetBlock db (LowerBound i) with
      | Err e => Err (BDatabase e)
      | Ok blkBytes =>
          match ParseBlock blkBytes with
          | None => Err BParse
          | Some blk => missing_loop db lastHeightToFetch intervals ({[b_Parent blk]} ∪ missingBlocks)
          end
      end
  end.

(** [getMissingBlockIDs] *)
Definition getMissingBlockIDs (db : DB) (tree : Tree T) (lastAcceptedHeight : Z) : result (gset ID) boot_error :=
  missing_loop db (wrap64 (lastAcceptedHeight + 1)) (Flatten tree) ∅.

(** ** Storing blocks *)

(** [process]: the loop over a block and its ancestors; the result is the block to
    fetch, if any. *)
Fixpoint process (fuel : nat) (db : DB) (tree : Tree T) (missingBlockIDs : gset ID) (lastAcceptedHeight : Z) (blk : Block)
    (ancestors : gmap ID Block) : option (DB * Tree T * gset ID * result (option ID) db_error) :=
  match fuel with
  | O => None
  | S fuel =>
      let missingBlockIDs := missingBlockIDs ∖ {[b_ID blk]} in
      let '(tree, db, r) := Add db_writer db tree lastAcceptedHeight (b_Height blk) (b_Bytes blk) in
      match r with
      | Err e => Some (db, tree, missingBlockIDs, Err e)
      | Ok wantsParent =>
          if negb wantsParent then Some (db, tree, missingBlockIDs, Ok None) else
          let parentID := b_Parent blk in
          match ancestors !! parentID with
          | None => Some (db, tree, missingBlockIDs, Ok (Some parentID))
          | Some parent => process fuel db tree missingBlockIDs lastAcceptedHeight parent ancestors
          end
      end
  end.

(** ** Executing blocks *)

Record exec : Type := mkExec {
  ex_db : DB;
  ex_batch : Ba;
  ex_processedSinceBatchWrite : Z;
  ex_iterator : It;
  ex_processedSinceIteratorRelease : Z;
  ex_tree : Tree T;
  ex_calls : list vm_call;
}.

(** The closure [writeBatch] *)
Definition writeBatch (s : exec) : exec * option db_error :=
  if ex_processedSinceBatchWrite s =? 0 then (s, None) else
  let '(db, err) := ba_Write (ex_db s) (ex_batch s) in
  let batch := match err with Some _ => ex_batch s | None => ba_Reset (ex_batch s) end in
  (mkExec db batch 0 (ex_iterator s) (ex_processedSinceIteratorRelease s) (ex_tree s) (ex_calls s), err).

(** The environment: whether the [n]th call of [shouldHalt] answers yes, and
    whether a call of the virtual machine succeeds after the earlier ones. *)
Context (shouldHalt : nat → bool) (vm_ok : list vm_call → vm_call → bool).

(** A call of the virtual machine. *)
Definition vm (s : exec) (c : vm_call) : exec * bool :=
  (mkExec (ex_db s) (ex_batch s) (ex_processedSinceBatchWrite s) (ex_iterator s) (ex_processedSinceIteratorRelease s) (ex_tree s)
     (ex_calls s ++ [c]), vm_ok (ex_calls s) c).

(** The periodic write of the batch and release of the iterator, after the block of
    the given height was removed. *)
Definition period (s : exec) (height : Z) : exec * option db_error :=
  let s := mkExec (ex_db s) (ex_batch s) (ex_processedSinceBatchWrite s + 1) (ex_iterator s)
             (ex_processedSinceIteratorRelease s) (ex_tree s) (ex_calls s) in
  let '(s, err) := if batchWritePeriod <=? ex_processedSinceBatchWrite s then writeBatch s else (s, None) in
  match err with
  | Some e => (s, Some e)
  | None =>
      let since := ex_processedSinceIteratorRelease s + 1 in
      let s := mkExec (ex_db s) (ex_batch s) (ex_processedSinceBatchWrite s) (ex_iterator s) since (ex_tree s) (ex_calls s) in
      if iteratorReleasePeriod <=? since then
        match it_Error (ex_iterator s) with
        | Some e => (s, Some e)
        | None =>
            let '(s, err) := writeBatch s in
            match err with
            | Some e => (s, Some e)
            | None =>
                (mkExec (ex_db s) (ex_batch s) (ex_processedSinceBatchWrite s)
                   (GetBlockIteratorWithStart (ex_db s) (wrap64 (height + 1))) 0 (ex_tree s) (ex_calls s), None)
            end
        end
      else (s, None)
  end.

(** The body of the loop of [execute] for a parsed block. *)
Definition execute_block (s : exec) (lastAcceptedHeight : Z) (blk : Block) : exec * option boot_error :=
  let height := b_Height blk in
  let '(tree, batch, err) := Remove ba_writer (ex_batch s) (ex_tree s) height in
  let s := mkExec (ex_db s) batch (ex_processedSinceBatchWrite s) (ex_iterator s) (ex_processedSinceIteratorRelease s) tree (ex_calls s) in
  match err with
  | Some e => (s, Some (BDatabase e))
  | None =>
      let '(s, err) := period s height in
      match err with
      | Some e => (s, Some (BDatabase e))
      | None =>
          if height <=? lastAcceptedHeight then (s, None) else
          let '(s, ok) := vm s (VM_Verify (b_ID blk)) in
          if negb ok then (s, Some (BVerify (b_ID blk))) else
          let '(s, ok) := vm s (VM_Accept (b_ID blk)) in
          if negb ok then (s, Some (BAccept (b_ID blk))) else (s, None)
      end
  end.

(** The loop of [execute]; [n] counts the calls of [shouldHalt]. *)
Fixpoint execute_loop (fuel n : nat) (s : exec) (lastAcceptedHeight : Z) : option (exec * nat * option boot_error) :=
  match fuel with
  | O => None
  | S fuel =>
      let finish (s : exec) : exec * option boot_error :=
        let '(s, err) := writeBatch s in
        match err with
        | Some e => (s, Some (BDatabase e))
        | None => (s, BDatabase <$> it_Error (ex_iterator s))
        end in
      if shouldHalt n then let '(s, err) := finish s in Some (s, S n, err) else
      let '(it, more) := it_Next (ex_db s) (ex_iterator s) in
      let s := mkExec (ex_db s) (ex_batch s) (ex_processedSinceBatchWrite s) it (ex_processedSinceIteratorRelease s) (ex_tree s) (ex_calls s) in
      if negb more then let '(s, err) := finish s in Some (s, S n, err) else
      match ParseBlock (it_Value it) with
      | None => Some (s, S n, Some BParse)
      | Some blk =>
          let '(s, err) := execute_block s lastAcceptedHeight blk in
          match err with
          | Some e => Some (s, S n, Some e)
          | None => execute_loop fuel (S n) s lastAcceptedHeight
          end
      end
  end.

(** [execute]; an error of [Compact] is only logged. *)
Definition execute (fuel : nat) (db : DB) (tree : Tree T) (lastAcceptedHeight : Z) : option (exec * option boot_error) :=
  let totalNumberToProcess := Tree_Len tree in
  let db := if minBlocksToCompact <=? totalNumberToProcess then (db_Compact db None None).1 else db in
  let s := mkExec db (db_NewBatch db) 0 (GetBlockIterator db) 0 tree [] in
  '(s, n, err) ← execute_loop fuel 0 s lastAcceptedHeight;
  let it := it_Release (ex_iterator s) in
  let numProcessed := wrap64 (totalNumberToProcess - Tree_Len (ex_tree s)) in
  let halted := shouldHalt n in
  let db := if (minBlocksToCompact <=? numProcessed) && negb halted then (db_Compact (ex_db s) None None).1 else ex_db s in
  Some (mkExec db (ex_batch s) (ex_processedSinceBatchWrite s) it (ex_processedSinceIteratorRelease s) (ex_tree s) (ex_calls s), err).
End Storage.
Arguments exec T DB It Ba : clear implicits.

(** ** The stored blocks *)

Lemma canonical_compare ivs i j : canonical ivs → i ∈ ivs → j ∈ ivs → i = j ∨ gap i j ∨ gap j i.
Proof.
  induction ivs as [|x ivs IH]; simpl; [by intros _ ?%elem_of_nil|]. intros (_ & Hg & Hc) [->|Hi]%elem_of_cons [->|Hj]%elem_of_cons; auto.
Qed.

(** The lower bounds are the heights whose predecessor is missing. *)
Lemma canonical_lower ivs h :
  canonical ivs → (∃ i, i ∈ ivs ∧ LowerBound i = h) ↔ covers ivs h ∧ ¬ covers ivs (h - 1).
Proof.
  intros Hc. split.
  - intros (i & Hi & <-). pose proof (canonical_valid _ _ Hc Hi) as Hv. unfold valid in Hv. split; [exists i; split; [done|lia]|].
    intros (j & Hj & Hx). pose proof (canonical_valid _ _ Hc Hj) as Hvj. unfold valid in Hvj.
    destruct (canonical_compare ivs i j Hc Hi Hj) as [->|[H|H]]; unfold gap in *; lia.
  - intros [(i & Hi & Hx) Hn]. exists i. split; [done|]. destruct (decide (LowerBound i = h)); [done|]. destruct Hn. exists i. split; [done|lia].
Qed.

Section Correct.
Context (ParseBlock : bytes → option Block).
Context `{B : BTree T nat} (L : BTreeLaws B) `{D : Database DB It Ba} (DL : DatabaseLaws D).
Implicit Types (db : DB) (t : Tree T) (bm : gmap Z Block).

(** A block that its bytes stand for, with a 64-bit height. *)
Definition good (b : Block) : Prop := is_u64 (b_Height b) ∧ ParseBlock (b_Bytes b) = Some b.

(** The keys under the prefix of blocks are those of [bm]. *)
Definition has_blocks (m : kvmap) bm : Prop :=
  ∀ k v, HasPrefix k blockPrefix = true → m !! k = Some v ↔ ∃ h b, bm !! h = Some b ∧ k = makeBlockKey h ∧ v = b_Bytes b.

(** The tree and the database hold the blocks [bm], by height.  The writer is the
    database, or a batch that is to be written to it. *)
Record boot {W} {w : KeyValueWriterDeleter W} (WL : WriterLaws w) (t : Tree T) (s : W) (ivs : list Interval) bm : Prop := {
  bo_stored : stored L WL t s ivs;
  bo_covers : ∀ x, covers ivs x ↔ is_Some (bm !! x);
  bo_blocks : has_blocks (w_map s) bm;
  bo_good : ∀ h b, bm !! h = Some b → b_Height b = h ∧ good b;
}.
Abbreviation stores t db bm := (∃ ivs, boot (db_writer_laws DL) t db ivs bm).

(** The lowest block of a range whose parent is above the last accepted block. *)
Definition gap_end (last : Z) bm (h : Z) : Prop := is_Some (bm !! h) ∧ last + 1 < h ∧ bm !! (h - 1) = None.

Lemma has_blocks_insert m m' bm h b :
  has_blocks m bm → is_u64 h → (∀ h b, bm !! h = Some b → is_u64 h) →
  (∀ k, HasPrefix k blockPrefix = true → m' !! k = <[makeBlockKey h := b_Bytes b]> m !! k) →
  has_blocks m' (<[h := b]> bm).
Proof.
  intros Hb Hh Hu Hm k v Hk. rewrite Hm by done. destruct (decide (makeBlockKey h = k)) as [<-|Hne].
  - rewrite lookup_insert_eq. split.
    + intros [= <-]. exists h, b. by rewrite lookup_insert_eq.
    + intros (h' & b' & Hl & Hkey & ->). destruct (decide (h = h')) as [<-|Hne']; [by rewrite lookup_insert_eq in Hl; injection Hl as ->|].
      rewrite lookup_insert_ne in Hl by done. apply makeBlockKey_inj in Hkey; [congruence|done|by apply (Hu h' b')].
  - rewrite lookup_insert_ne by done. rewrite (Hb k v Hk). split; intros (h' & b' & Hl & -> & ->); exists h', b'; (split; [|done]).
    + rewrite lookup_insert_ne by congruence. done.
    + by rewrite lookup_insert_ne in Hl by congruence.
Qed.

Lemma has_blocks_delete m m' bm h :
  has_blocks m bm → is_u64 h → (∀ h b, bm !! h = Some b → is_u64 h) →
  (∀ k, HasPrefix k blockPrefix = true → m' !! k = delete (makeBlockKey h) m !! k) →
  has_blocks m' (delete h bm).
Proof.
  intros Hb Hh Hu Hm k v Hk. rewrite Hm by done. destruct (decide (makeBlockKey h = k)) as [<-|Hne].
  - rewrite lookup_delete_eq. split; [done|]. intros (h' & b' & Hl & Hkey & ->). apply lookup_delete_Some in Hl as [Hne Hl].
    apply makeBlockKey_inj in Hkey; [congruence|done|by apply (Hu h' b')].
  - rewrite lookup_delete_ne by done. rewrite (Hb k v Hk). split; intros (h' & b' & Hl & -> & ->); exists h', b'; (split; [|done]).
    + rewrite lookup_delete_ne by congruence. done.
    + by apply lookup_delete_Some in Hl as [_ ?].
Qed.

Lemma block_key_outside k : HasPrefix k blockPrefix = true → HasPrefix k intervalPrefix = false.
Proof. intros (t & ->)%HasPrefix_spec. done. Qed.

Lemma boot_u64 {W} {w : KeyValueWriterDeleter W} (WL : WriterLaws w) t s ivs bm h b :
  boot WL t s ivs bm → bm !! h = Some b → is_u64 h.
Proof. intros Hb Hl. by destruct (bo_good _ _ _ _ _ Hb h b Hl) as [<- [? _]]. Qed.

(** *** Missing blocks *)

Lemma GetBlock_spec t db ivs bm h b :
  boot (db_writer_laws DL) t db ivs bm → bm !! h = Some b → GetBlock db h = Ok (b_Bytes b).
Proof.
  intros Hb Hl. pose proof (st_inv _ _ _ _ _ (bo_stored _ _ _ _ _ Hb)) as [Hi [m Hm]]. unfold GetBlock. rewrite (Get_law _ _ Hi), Hm.
  assert (m !! makeBlockKey h = Some (b_Bytes b)) as ->; [|done].
  pose proof (bo_blocks _ _ _ _ _ Hb) as Hbl. simpl in Hbl. rewrite Hm in Hbl. apply Hbl; [done|]. by exists h, b.
Qed.

Lemma missing_loop_spec t db ivs bm last intervals missing :
  boot (db_writer_laws DL) t db ivs bm → (∀ i, i ∈ intervals → i ∈ ivs) →
  ∃ r, missing_loop ParseBlock db last intervals missing = Ok r ∧
    ∀ id, id ∈ r ↔ id ∈ missing ∨ ∃ i b, i ∈ intervals ∧ last < LowerBound i ∧ bm !! LowerBound i = Some b ∧ id = b_Parent b.
Proof.
  intros Hb. revert missing. induction intervals as [|i intervals IH]; intros missing Hsub; simpl.
  { exists missing. split; [done|]. intros id. split; [by left|]. intros [?|(i & b & ?%elem_of_nil & _)]; done. }
  assert (∀ j, j ∈ intervals → j ∈ ivs) as Hsub' by (intros; apply Hsub; by right).
  destruct (Z.leb_spec (LowerBound i) last) as [Hle|Hlt].
  - destruct (IH missing Hsub') as (r & -> & Hr). exists r. split; [done|]. intros id. rewrite Hr.
    split; (intros [?|(j & b & Hj & Hl & ? & ?)]; [by left|right]); exists j, b; (split; [|done]); [by right|].
    apply elem_of_cons in Hj as [->|]; [lia|done].
  - assert (∃ b, bm !! LowerBound i = Some b) as [b Hbi].
    { apply (bo_covers _ _ _ _ _ Hb). pose proof (Hsub i ltac:(by left)) as Hi. exists i. split; [done|].
      pose proof (canonical_valid _ _ (rep_canonical _ _ _ (st_rep _ _ _ _ _ (bo_stored _ _ _ _ _ Hb))) Hi). unfold valid in *. lia. }
    rewrite (GetBlock_spec t db ivs bm _ b Hb Hbi). destruct (bo_good _ _ _ _ _ Hb _ b Hbi) as [_ [_ ->]].
    destruct (IH ({[b_Parent b]} ∪ missing) Hsub') as (r & -> & Hr). exists r. split; [done|]. intros id. rewrite Hr, elem_of_union, elem_of_singleton. split.
    + intros [[->|?]|(j & b' & Hj & ? & ? & ?)]; [right; exists i, b|by left|right; exists j, b']; (split; [|done]); [by left|by right].
    + intros [?|(j & b' & [->|Hj]%elem_of_cons & ? & Hbj & ->)]; [by left; right|left; left; congruence|]. right. by exists j, b'.
Qed.

(** The missing blocks are the parents of the lowest blocks of the ranges. *)
Lemma getMissingBlockIDs_spec t db bm last :
  stores t db bm → 0 ≤ last < MaxUint64 →
  ∃ r, getMissingBlockIDs ParseBlock db t last = Ok r ∧
    ∀ id, id ∈ r ↔ ∃ h b, gap_end last bm h ∧ bm !! h = Some b ∧ id = b_Parent b.
Proof.
  intros (ivs & Hb) Hlast. unfold getMissingBlockIDs. rewrite wrap64_id by (unfold is_u64; lia).
  rewrite (Flatten_spec _ _ _ _ _ (bo_stored _ _ _ _ _ Hb)).
  destruct (missing_loop_spec t db ivs bm (last + 1) ivs ∅ Hb (λ i H, H)) as (r & -> & Hr). exists r. split; [done|].
  pose proof (rep_canonical _ _ _ (st_rep _ _ _ _ _ (bo_stored _ _ _ _ _ Hb))) as Hc. pose proof (bo_covers _ _ _ _ _ Hb) as Hcov.
  intros id. rewrite Hr. split.
  - intros [?%elem_of_empty|(i & b & Hi & Hl & Hbi & ->)]; [done|]. exists (LowerBound i), b. split; [|done].
    pose proof (proj1 (canonical_lower ivs (LowerBound i) Hc) (ex_intro _ i (conj Hi eq_refl))) as [H1 H2]. split; [by apply Hcov|]. split; [lia|].
    apply eq_None_not_Some. by rewrite <- Hcov.
  - intros (h & b & (H1 & H2 & H3) & Hbh & ->). right. destruct (proj2 (canonical_lower ivs h Hc)) as (i & Hi & <-).
    { rewrite !Hcov, H3. split; [done|by intros [??]]. }
    exists i, b. split; [done|]. split; [lia|done].
Qed.

(** *** Storing blocks *)

Lemma Add_boot t db ivs bm last b :
  boot (db_writer_laws DL) t db ivs bm → is_u64 last → good b →
  ∃ t' db' r, Add db_writer db t last (b_Height b) (b_Bytes b) = (t', db', Ok r) ∧
    (((b_Height b ≤ last ∨ is_Some (bm !! b_Height b)) ∧ t' = t ∧ db' = db ∧ r = false) ∨
     (last < b_Height b ∧ bm !! b_Height b = None ∧ stores t' db' (<[b_Height b := b]> bm) ∧
      (r = true ↔ b_Height b - 1 ≠ last ∧ bm !! (b_Height b - 1) = None))).
Proof.
  intros Hb Hl Hgood. pose proof Hgood as [Hh Hp].
  destruct (Add_spec L (db_writer_laws DL) t db ivs last (b_Height b) (b_Bytes b) (bo_stored _ _ _ _ _ Hb) Hh Hl)
    as (t' & db' & r & -> & H). exists t', db', r. split; [done|]. rewrite !(bo_covers _ _ _ _ _ Hb) in H.
  destruct H as [?|(Hlt & Hn & ivs' & Hst & Hc & Ht & Ho & Hr)]; [by left|right].
  split; [done|]. split; [by apply eq_None_not_Some|]. rewrite (bo_covers _ _ _ _ _ Hb), <- eq_None_not_Some in Hr. split; [|done]. exists ivs'. split; [done| | |].
  - intros x. rewrite Hc, (bo_covers _ _ _ _ _ Hb). destruct (decide (x = b_Height b)) as [->|Hne].
    + rewrite lookup_insert_eq. split; [by eexists|by left].
    + rewrite lookup_insert_ne by done. tauto.
  - eapply has_blocks_insert; [apply Hb|done|intros h b' Hl'; exact (boot_u64 _ _ _ _ _ _ _ Hb Hl')|].
    intros k Hk. apply Ho, block_key_outside, Hk.
  - intros h b' Hl'. destruct (decide (h = b_Height b)) as [->|Hne]; [by rewrite lookup_insert_eq in Hl'; injection Hl' as <-|].
    rewrite lookup_insert_ne in Hl' by done. by apply (bo_good _ _ _ _ _ Hb).
Qed.

(** The unknown ancestors at other heights than that of a block bound the rounds. *)
Definition unknown (ancestors : gmap ID Block) bm (h : Z) : gmap ID Block :=
  filter (λ x, bm !! b_Height x.2 = None ∧ b_Height x.2 ≠ h) ancestors.

Lemma unknown_decreases ancestors bm b id p :
  bm !! b_Height b = None → ancestors !! id = Some p → <[b_Height b := b]> bm !! b_Height p = None →
  (size (unknown ancestors (<[b_Height b := b]> bm) (b_Height p)) < size (unknown ancestors bm (b_Height b)))%nat.
Proof.
  intros Hn Hp Hk. apply lookup_insert_None in Hk as [Hk1 Hk2]. apply map_subset_size. apply map_subset_alt. split.
  - apply map_subseteq_spec. intros id' x Hx. apply map_lookup_filter_Some in Hx as (Hx & [H1 H2]%lookup_insert_None & H3). simpl in *.
    apply map_lookup_filter_Some. simpl. done.
  - exists id. split.
    + apply map_lookup_filter_None. right. intros x Hx [_ Hne]. rewrite Hp in Hx. injection Hx as <-. done.
    + exists p. apply map_lookup_filter_Some. simpl. done.
Qed.

(** The blocks that [process] visits, from [blk] along its ancestors: it stores them until
    it meets a block that is known, joins the stored or accepted blocks, or lacks a parent,
    which is the result. *)
Inductive walk (last : Z) (ancestors : gmap ID Block) : gmap Z Block → Block → list Block → option ID → gmap Z Block → Prop :=
  | walk_known bm blk : b_Height blk ≤ last ∨ is_Some (bm !! b_Height blk) → walk last ancestors bm blk [blk] None bm
  | walk_joined bm blk :
      last < b_Height blk → bm !! b_Height blk = None → b_Height blk - 1 = last ∨ is_Some (bm !! (b_Height blk - 1)) →
      walk last ancestors bm blk [blk] None (<[b_Height blk := blk]> bm)
  | walk_end bm blk :
      last < b_Height blk → bm !! b_Height blk = None → b_Height blk - 1 ≠ last → bm !! (b_Height blk - 1) = None → ancestors !! b_Parent blk = None →
      walk last ancestors bm blk [blk] (Some (b_Parent blk)) (<[b_Height blk := blk]> bm)
  | walk_next bm blk p visited r bm' :
      last < b_Height blk → bm !! b_Height blk = None → b_Height blk - 1 ≠ last → bm !! (b_Height blk - 1) = None → ancestors !! b_Parent blk = Some p →
      walk last ancestors (<[b_Height blk := blk]> bm) p visited r bm' → walk last ancestors bm blk (blk :: visited) r bm'.

Lemma process_spec fuel t db bm last blk ancestors missing :
  stores t db bm → is_u64 last → good blk → (∀ id b, ancestors !! id = Some b → good b) →
  ((if bool_decide (b_Height blk ≤ last ∨ is_Some (bm !! b_Height blk))%Z then 1
    else size (unknown ancestors bm (b_Height blk)) + 2) ≤ fuel)%nat →
  ∃ db' t' r bm' visited, process fuel db t missing last blk ancestors = Some (db', t', missing ∖ list_to_set (b_ID <$> visited), Ok r) ∧
    stores t' db' bm' ∧ walk last ancestors bm blk visited r bm'.
Proof.
  revert t db bm blk missing. induction fuel as [|fuel IH]; intros t db bm blk missing (ivs & Hb) Hlast Hgood Hanc Hfuel;
    [by case_bool_decide; lia|]. simpl.
  assert (∀ bs : list Block, missing ∖ {[b_ID blk]} ∖ list_to_set (b_ID <$> bs) = missing ∖ list_to_set (b_ID <$> blk :: bs)) as Hm by (intros bs; cbn; set_solver).
  pose proof (Hm []) as Hm0. cbn in Hm0. rewrite difference_empty_L in Hm0.
  destruct (Add_boot t db ivs bm last blk Hb Hlast Hgood) as (t1 & db1 & w & -> & [(Hkn & -> & -> & ->)|(Hlt & Hn & Hb1 & Hw)]).
  { simpl. exists db, t, None, bm, [blk]. split; [cbn; by rewrite Hm0|]. split; [by exists ivs|by constructor]. }
  rewrite bool_decide_eq_false_2 in Hfuel by (rewrite Hn; intros [?|[??]]; [lia|done]). destruct w; simpl.
  - destruct (proj1 Hw eq_refl) as [Hw1 Hw2]. destruct (ancestors !! b_Parent blk) as [p|] eqn:Hp.
    + assert (good p) as Hgp by by apply (Hanc (b_Parent blk)).
      destruct (IH t1 db1 (<[b_Height blk := blk]> bm) p (missing ∖ {[b_ID blk]}) Hb1 Hlast Hgp Hanc) as (db' & t' & r & bm' & visited & Hpr & Hst & Hwalk).
      { case_bool_decide as Hk; [lia|]. apply Decidable.not_or in Hk as [_ Hk]. apply eq_None_not_Some in Hk.
        pose proof (unknown_decreases ancestors bm blk _ p Hn Hp Hk). lia. }
      exists db', t', r, bm', (blk :: visited). rewrite <- Hm. split; [done|]. split; [done|by eapply walk_next].
    + eexists _, _, _, (<[b_Height blk := blk]> bm), [blk]. split; [cbn; by rewrite Hm0|]. split; [done|by constructor].
  - eexists _, _, _, (<[b_Height blk := blk]> bm), [blk]. split; [cbn; by rewrite Hm0|]. split; [done|]. constructor; [done|done|].
    destruct (decide (b_Height blk - 1 = last)); [by left|right]. apply not_eq_None_Some. intros Hnone. by assert (false = true) by (apply Hw; done).
Qed.

(** *** The gaps *)

(** The blocks to fetch, the parents of the lowest blocks of the ranges. *)
Definition wanted (last : Z) bm (id : ID) : Prop := ∃ h b, gap_end last bm h ∧ bm !! h = Some b ∧ id = b_Parent b.

(** Blocks of one chain. *)
Definition one_chain (C : Block → Prop) : Prop := ∀ b c, C b → C c → b_Parent b = b_ID c ↔ b_Height b = b_Height c + 1.

Definition at_heights bm : Prop := ∀ h b, bm !! h = Some b → b_Height b = h.

Lemma wanted_insert (C : Block → Prop) last bm b id :
  one_chain C → C b → (∀ h c, bm !! h = Some c → C c) → at_heights bm → last < b_Height b → bm !! b_Height b = None →
  wanted last (<[b_Height b := b]> bm) id ↔ (wanted last bm id ∧ id ≠ b_ID b) ∨ (id = b_Parent b ∧ last + 1 < b_Height b ∧ bm !! (b_Height b - 1) = None).
Proof.
  intros HC Hb HCm Hh Hlast Hn. unfold wanted, gap_end. split.
  - intros (h & c & (_ & Hl & [H1 H2]%lookup_insert_None) & Hc & ->). destruct (decide (h = b_Height b)) as [->|Hne].
    + rewrite lookup_insert_eq in Hc. injection Hc as <-. right. done.
    + rewrite lookup_insert_ne in Hc by done. left. split; [exists h, c; by rewrite Hc|]. intros Heq. apply HC in Heq; [|by eapply HCm|done]. apply Hh in Hc. lia.
  - intros [((h & c & (_ & Hl & Hg) & Hc & ->) & Hid)|(-> & Hl & Hg)].
    + assert (h ≠ b_Height b) by (intros ->; congruence). exists h, c. rewrite !lookup_insert_ne; [|intros Heq|done]; [by rewrite Hc|]. apply Hid. apply HC; [by eapply HCm|done|]. apply Hh in Hc. lia.
    + exists (b_Height b), b. rewrite lookup_insert_eq, lookup_insert_ne by lia. done.
Qed.

(** If the missing blocks were the gaps, they are again, with the block that is returned. *)
Lemma walk_wanted (C : Block → Prop) last ancestors bm blk visited r bm' (missing : gset ID) :
  one_chain C → (∀ id b, ancestors !! id = Some b → b_ID b = id ∧ C b) → walk last ancestors bm blk visited r bm' →
  C blk → (∀ h c, bm !! h = Some c → C c) → at_heights bm → (∀ id, id ≠ b_ID blk → id ∈ missing ↔ wanted last bm id) →
  ∀ id, (id ∈ missing ∖ list_to_set (b_ID <$> visited) ∨ r = Some id) ↔ wanted last bm' id.
Proof.
  intros HC Hanc Hw. revert missing. induction Hw as [bm blk Hk|bm blk Hl Hn Hj|bm blk Hl Hn Hne Hg Ha|bm blk p visited r bm' Hl Hn Hne Hg Ha Hw IH]; intros missing HCb HCm Hh Hmiss id; cbn [fmap list_fmap list_to_set].
  - rewrite union_empty_r_L, elem_of_difference, elem_of_singleton. assert (¬ wanted last bm (b_ID blk)) as Hno.
    { intros (h & c & (_ & Hlh & Hg) & Hc & Heq). symmetry in Heq. apply HC in Heq; [|by eapply HCm|done]. apply Hh in Hc. replace (h - 1) with (b_Height blk) in Hg by lia. destruct Hk as [?|[??]]; [lia|congruence]. }
    destruct (decide (id = b_ID blk)) as [->|Hid]; [naive_solver|]. rewrite (Hmiss id Hid). naive_solver.
  - rewrite union_empty_r_L, elem_of_difference, elem_of_singleton, (wanted_insert C) by done. assert (¬ (last + 1 < b_Height blk ∧ bm !! (b_Height blk - 1) = None)) as Hno by (intros [? H]; destruct Hj as [?|[? Hj]]; [lia|congruence]).
    destruct (decide (id = b_ID blk)) as [->|Hid]; [naive_solver|]. rewrite (Hmiss id Hid). naive_solver.
  - rewrite union_empty_r_L, elem_of_difference, elem_of_singleton, (wanted_insert C) by done.
    destruct (decide (id = b_ID blk)) as [->|Hid]; [|rewrite (Hmiss id Hid); split; [intros [?|[= ->]]; [tauto|right; split; [done|]; split; [lia|done]]|intros [?|[-> _]]; tauto]].
    split; [intros [[_ []]|[= Heq]]; [done|right; split; [done|]; split; [lia|done]]|intros [[_ []]|[-> _]]; [done|by right]].
  - destruct (Hanc _ _ Ha) as [Hidp HCp]. rewrite <- (IH (missing ∖ {[b_ID blk]})); [|done| | |].
    + rewrite difference_difference_l_L. done.
    + intros h c. destruct (decide (h = b_Height blk)) as [->|Hneq]; [rewrite lookup_insert_eq; by intros [= <-]|]. rewrite lookup_insert_ne by done. apply HCm.
    + intros h c. destruct (decide (h = b_Height blk)) as [->|Hneq]; [rewrite lookup_insert_eq; by intros [= <-]|]. rewrite lookup_insert_ne by done. apply Hh.
    + intros id' Hid'. rewrite Hidp in Hid'. rewrite elem_of_difference, elem_of_singleton, (wanted_insert C) by done. destruct (decide (id' = b_ID blk)) as [->|Hid2]; [naive_solver|]. rewrite (Hmiss id' Hid2). naive_solver.
Qed.

(** *** Executing blocks *)

Definition ascending (blks : list Block) : Prop := StronglySorted (λ a b, b_Height a < b_Height b) blks.
Definition by_height (blks : list Block) : gmap Z Block := list_to_map ((λ b, (b_Height b, b)) <$> blks).
Definition block_entries (blks : list Block) : list (bytes * bytes) := (λ b, (makeBlockKey (b_Height b), b_Bytes b)) <$> blks.

(** The calls that execute the blocks above a height. *)
Definition block_calls (last : Z) (b : Block) : list vm_call :=
  if b_Height b <=? last then [] else [VM_Verify (b_ID b); VM_Accept (b_ID b)].
Definition calls_of (last : Z) (blks : list Block) : list vm_call := concat (map (block_calls last) blks).

Lemma ascending_cons b blks : ascending (b :: blks) → ascending blks ∧ ∀ c, c ∈ blks → b_Height b < b_Height c.
Proof. intros [H1 H2]%StronglySorted_inv. split; [done|]. by apply Forall_forall. Qed.

Lemma by_height_lookup blks h b : ascending blks → by_height blks !! h = Some b ↔ b ∈ blks ∧ h = b_Height b.
Proof.
  induction blks as [|c blks IH]; intros Ha; [unfold by_height; simpl; rewrite lookup_empty; set_solver|]. apply ascending_cons in Ha as [Ha Hlt].
  unfold by_height in *. simpl. rewrite lookup_insert_Some, IH, elem_of_cons by done. split; [naive_solver|].
  intros [[->|Hb] ->]; [by left|right]. split; [|done]. specialize (Hlt b Hb). lia.
Qed.

Lemma by_height_cons b blks : ascending (b :: blks) → delete (b_Height b) (by_height (b :: blks)) = by_height blks.
Proof.
  intros [Ha Hlt]%ascending_cons. unfold by_height. simpl. apply delete_insert_id. fold (by_height blks).
  apply eq_None_not_Some. intros [c [Hc Heq]%by_height_lookup]; [|done]. specialize (Hlt c Hc). lia.
Qed.

Lemma block_entries_listing m start blks :
  has_blocks m (by_height blks) → ascending blks → (∀ b, b ∈ blks → is_u64 (b_Height b)) →
  (∀ b, b ∈ blks → ble start (makeBlockKey (b_Height b))) → listing m start blockPrefix (block_entries blks).
Proof.
  intros Hm Ha Hu Hs. split.
  - clear Hm Hs. induction blks as [|b blks IH]; simpl; [constructor|]. apply ascending_cons in Ha as [Ha Hlt].
    constructor; [apply IH; [done|]; intros; apply Hu; by right|]. apply Forall_forall.
    intros k (e & -> & (c & -> & Hc)%list_elem_of_fmap)%list_elem_of_fmap. simpl. apply (blt_app blockPrefix). unfold blt, PackUInt64.
    pose proof (Hu b ltac:(by left)). pose proof (Hu c ltac:(by right)). specialize (Hlt c Hc). unfold is_u64, MaxUint64 in *.
    rewrite put_uint_compare; [by apply Z.compare_lt_iff|simpl; lia|simpl; lia].
  - intros k v. unfold block_entries. rewrite list_elem_of_fmap. split.
    + intros (b & [= -> ->] & Hb). split; [|split; [done|by apply Hs]]. apply Hm; [done|]. exists (b_Height b), b.
      split; [by apply by_height_lookup|done].
    + intros (Hk & Hp & _). apply Hm in Hk as (h & b & [Hb ->]%by_height_lookup & -> & ->); [|done..]. by exists b.
Qed.

Lemma ble_block_key a b : is_u64 a → is_u64 b → a ≤ b → ble (makeBlockKey a) (makeBlockKey b).
Proof.
  intros Ha Hb Hle. apply (ble_app blockPrefix). unfold ble, PackUInt64, is_u64, MaxUint64 in *.
  rewrite put_uint_compare; [by apply Z.compare_le_iff|simpl; lia|simpl; lia].
Qed.

(** The state of [execute]: the batch, when written, leaves the blocks [all], and
    the iterator has still to return [rest]. *)
Record exec_inv (s : exec T DB It Ba) (all rest : list Block) : Prop := {
  ei_db : db_inv (ex_db s);
  ei_boot : ∃ m ivs, contents (ex_db s) = Some m ∧ boot (ba_writer_laws DL m) (ex_tree s) (ex_batch s) ivs (by_height all);
  ei_it : it_at DL (ex_iterator s) (block_entries rest);
  ei_asc : ascending all;
  ei_counter : 0 ≤ ex_processedSinceBatchWrite s;
  ei_empty : ex_processedSinceBatchWrite s = 0 → pending (ex_batch s) = [];
}.

Lemma boot_flush t b ivs bm m :
  boot (ba_writer_laws DL m) t b ivs bm → boot (ba_writer_laws DL (apply_ops (pending b) m)) t (ba_Reset b) ivs bm.
Proof.
  intros [[Hr Hi Hp] Hc Hb Hg]. simpl in *. destruct (ba_Reset_law b Hi) as [Hi' Hp'].
  split; [|done| |done]; [split; [done|done|]|]; simpl; by rewrite Hp'.
Qed.

(** A batch without operations stands for the database itself. *)
Lemma boot_flushed t db b ivs bm m :
  db_inv db → contents db = Some m → pending b = [] → boot (ba_writer_laws DL m) t b ivs bm → boot (db_writer_laws DL) t db ivs bm.
Proof.
  intros Hi Hm Hp [[Hr Hb Hper] Hc Hbl Hg]. simpl in *. rewrite Hp in Hper, Hbl. simpl in *.
  split; [|done| |done]; [split; [done|by split|]|]; simpl; by rewrite Hm.
Qed.

Lemma writeBatch_spec s all rest :
  exec_inv s all rest →
  ∃ s', writeBatch s = (s', None) ∧ exec_inv s' all rest ∧ pending (ex_batch s') = [] ∧ ex_processedSinceBatchWrite s' = 0 ∧
    ex_calls s' = ex_calls s ∧ ex_tree s' = ex_tree s ∧ ex_iterator s' = ex_iterator s ∧
    ex_processedSinceIteratorRelease s' = ex_processedSinceIteratorRelease s.
Proof.
  intros [Hi (m & ivs & Hm & Hb) Hit Ha Hc He]. unfold writeBatch. destruct (Z.eqb_spec (ex_processedSinceBatchWrite s) 0) as [E|E].
  { exists s. split; [done|]. split; [|split; [by apply He|done]]. split; try done. by exists m, ivs. }
  assert (ba_inv (ex_batch s)) as Hbi by apply Hb. destruct (ba_Write_law _ _ Hi Hbi) as (Hi' & Hc' & He').
  destruct (ba_Write (ex_db s) (ex_batch s)) as [db' e]. simpl in *. rewrite Hm in He'. simpl in He'. subst e.
  destruct (ba_Reset_law _ Hbi) as [_ Hp]. eexists. split; [done|]. simpl. split; [|done].
  split; simpl; try done. exists (apply_ops (pending (ex_batch s)) m), ivs. rewrite Hc', Hm. split; [done|]. by apply boot_flush.
Qed.

(** The counter of the batch counts the block that was just removed. *)
Definition bump (s : exec T DB It Ba) : exec T DB It Ba :=
  mkExec (ex_db s) (ex_batch s) (ex_processedSinceBatchWrite s + 1) (ex_iterator s) (ex_processedSinceIteratorRelease s) (ex_tree s) (ex_calls s).

Lemma period_spec s blks h :
  exec_inv (bump s) blks blks → is_u64 h → (∀ b, b ∈ blks → h < b_Height b) →
  ∃ s', period s h = (s', None) ∧ exec_inv s' blks blks ∧ ex_calls s' = ex_calls s.
Proof.
  intros H0 Hh Hlt. unfold period. fold (bump s). set (s0 := bump s) in *.
  assert (∃ s1, (if batchWritePeriod <=? ex_processedSinceBatchWrite s0 then writeBatch s0 else (s0, None)) = (s1, None) ∧
    exec_inv s1 blks blks ∧ ex_calls s1 = ex_calls s) as (s1 & -> & H1 & Hc1).
  { destruct (batchWritePeriod <=? ex_processedSinceBatchWrite s0); [|by exists s0].
    destruct (writeBatch_spec _ _ _ H0) as (s1 & ? & ? & _ & _ & Hc & _). exists s1. split; [done|]. split; [done|]. by rewrite Hc. }
  set (s2 := mkExec (ex_db s1) _ _ _ (ex_processedSinceIteratorRelease s1 + 1) _ _).
  assert (exec_inv s2 blks blks) as H2. { by destruct H1 as [????? ?]; split. }
  case_match; [|by exists s2]. pose proof (ei_it _ _ _ H2) as (_ & -> & _).
  destruct (writeBatch_spec _ _ _ H2) as (s3 & -> & H3 & Hp3 & _ & Hc3 & _). eexists. split; [done|]. simpl. split; [|by rewrite Hc3].
  destruct H3 as [Hi (m & ivs & Hm & Hb) Hit Ha Hcnt Hem]. split; simpl; try done; [by exists m, ivs|].
  destruct (db_iterator_at DL (ex_db s3) m (makeBlockKey (wrap64 (h + 1))) blockPrefix Hi Hm) as (l & Hat & Hl).
  assert (l = block_entries blks) as ->; [|done]. apply (listing_unique _ _ _ _ _ Hl). pose proof (bo_blocks _ _ _ _ _ Hb) as Hbl. simpl in Hbl.
  rewrite Hp3 in Hbl. simpl in Hbl.
  assert (∀ b, b ∈ blks → is_u64 (b_Height b)) as Hu.
  { intros b Hin. apply (boot_u64 _ _ _ _ _ (b_Height b) b Hb). by apply by_height_lookup. }
  apply block_entries_listing; [done|done|done|]. intros b Hin. apply ble_block_key; [apply wrap64_range|by apply Hu|].
  pose proof (Hu b Hin) as Hub. specialize (Hlt b Hin). unfold is_u64 in *. rewrite wrap64_id by (unfold is_u64; lia). lia.
Qed.

Context (shouldHalt : nat → bool) (vm_ok : list vm_call → vm_call → bool) (Hvm : ∀ log c, vm_ok log c = true).

Lemma execute_block_spec s b blks last :
  exec_inv s (b :: blks) blks →
  ∃ s', execute_block vm_ok s last b = (s', None) ∧ exec_inv s' blks blks ∧ ex_calls s' = ex_calls s ++ block_calls last b.
Proof.
  intros [Hi (m & ivs & Hm & Hb) Hit Ha Hc He]. unfold execute_block. pose proof (ascending_cons _ _ Ha) as [Ha' Hlt].
  assert (by_height (b :: blks) !! b_Height b = Some b) as Hbb by (apply by_height_lookup; [done|]; split; [by left|done]).
  pose proof (boot_u64 _ _ _ _ _ _ _ Hb Hbb) as Hh.
  destruct (Remove_block_spec L (ba_writer_laws DL m) (ex_tree s) (ex_batch s) ivs (b_Height b) (bo_stored _ _ _ _ _ Hb) Hh)
    as (t' & b' & ivs' & -> & Hst' & Hcov & _ & Ho).
  set (s1 := mkExec (ex_db s) b' _ _ _ t' _).
  assert (exec_inv (bump s1) blks blks) as H1.
  { split; simpl; try done; [|lia|lia]. exists m, ivs'. split; [done|]. rewrite <- (by_height_cons b blks Ha). split; [done| | |].
    - intros x. rewrite Hcov, (bo_covers _ _ _ _ _ Hb). destruct (decide (x = b_Height b)) as [->|Hne].
      + rewrite lookup_delete_eq. split; [by intros [? _]|by intros [??]].
      + rewrite lookup_delete_ne by done. tauto.
    - eapply has_blocks_delete; [apply Hb|done|intros h c Hl; exact (boot_u64 _ _ _ _ _ _ _ Hb Hl)|].
      intros k Hk. apply Ho, block_key_outside, Hk.
    - intros h c [_ Hl]%lookup_delete_Some. by apply (bo_good _ _ _ _ _ Hb). }
  destruct (period_spec s1 blks (b_Height b)) as (s2 & -> & H2 & Hc2); [done..|].
  unfold block_calls. destruct (b_Height b <=? last); [exists s2; by rewrite app_nil_r, Hc2|].
  unfold vm. simpl. rewrite !Hvm. simpl. eexists. split; [done|]. simpl. rewrite Hc2, <- app_assoc. split; [|done]. by destruct H2; split.
Qed.

(** What is left after [execute] returned without an error. *)
Definition finished (s' : exec T DB It Ba) (log : list vm_call) (last : Z) (blks : list Block) : Prop :=
  ∃ done rest, blks = done ++ rest ∧ ex_calls s' = log ++ calls_of last done ∧
    (∃ ivs, boot (db_writer_laws DL) (ex_tree s') (ex_db s') ivs (by_height rest)) ∧
    ((∀ n, shouldHalt n = false) → rest = []).

Lemma finish_spec s blks last done rest log :
  exec_inv s rest rest → blks = done ++ rest → ex_calls s = log ++ calls_of last done → ((∀ n, shouldHalt n = false) → rest = []) →
  ∃ s', (let '(s, err) := writeBatch s in
         match err with Some e => (s, Some (BDatabase e)) | None => (s, BDatabase <$> it_Error (ex_iterator s)) end) = (s', None) ∧
    finished s' log last blks.
Proof.
  intros Hinv Hblks Hcalls Hrest. destruct (writeBatch_spec _ _ _ Hinv) as (s' & -> & H' & Hp & _ & Hc & _).
  pose proof (ei_it _ _ _ H') as (_ & -> & _). exists s'. split; [done|]. exists done, rest. split; [done|]. split; [by rewrite Hc|]. split; [|done].
  destruct H' as [Hi (m & ivs & Hm & Hb) _ _ _ _]. exists ivs. by apply (boot_flushed _ _ (ex_batch s') _ _ m).
Qed.

Lemma execute_loop_spec fuel n s blks last done rest log :
  exec_inv s rest rest → blks = done ++ rest → ex_calls s = log ++ calls_of last done → (length rest < fuel)%nat →
  ∃ s' n', execute_loop ParseBlock shouldHalt vm_ok fuel n s last = Some (s', n', None) ∧ finished s' log last blks.
Proof.
  revert n s done rest. induction fuel as [|fuel IH]; intros n s done rest Hinv Hblks Hcalls Hf; [lia|]. simpl.
  destruct (shouldHalt n) eqn:Hhalt.
  { destruct (finish_spec s blks last done rest log Hinv Hblks Hcalls) as (s' & -> & Hfin); [intros H; by rewrite H in Hhalt|]. by eexists _, _. }
  pose proof Hinv as [Hi (m & ivs & Hm & Hb) Hit Ha Hc He]. destruct rest as [|b rest].
  - destruct (Next_nil DL (ex_db s) m _ Hi Hm Hit) as (it' & -> & Hit'). cbn [negb]. set (s1 := mkExec _ _ _ it' _ _ _).
    destruct (finish_spec s1 blks last done [] log) as (s' & -> & Hfin); [|done..|by eexists _, _]. split; try done. by exists m, ivs.
  - destruct (Next_cons DL (ex_db s) m _ _ _ _ Hi Hm Hit) as (it' & -> & _ & -> & Hit'). cbn [negb]. set (s1 := mkExec _ _ _ it' _ _ _).
    assert (by_height (b :: rest) !! b_Height b = Some b) as Hbb by (apply by_height_lookup; [done|]; split; [by left|done]).
    destruct (bo_good _ _ _ _ _ Hb _ _ Hbb) as [_ [_ ->]].
    destruct (execute_block_spec s1 b rest last) as (s2 & -> & H2 & Hc2); [split; try done; by exists m, ivs|].
    apply (IH (S n) s2 (done ++ [b]) rest H2); [by rewrite <- app_assoc| |simpl in Hf; lia].
    rewrite Hc2. simpl. rewrite Hcalls. unfold calls_of. rewrite map_app, concat_app, <- app_assoc. simpl. by rewrite app_nil_r.
Qed.

Lemma boot_Compact t db ivs bm a c :
  boot (db_writer_laws DL) t db ivs bm → boot (db_writer_laws DL) t (db_Compact db a c).1 ivs bm.
Proof.
  intros [[Hr [Hi [m Hm]] Hp] Hc Hb Hg]. destruct (Compact_law db a c Hi) as (Hi' & Hc' & _). simpl in *.
  split; [|done| |done]; [split; [done|split; [done|by rewrite Hc', Hm]|]|]; simpl; by rewrite Hc'.
Qed.

Lemma execute_spec t db blks last :
  stores t db (by_height blks) → ascending blks →
  ∃ s', execute ParseBlock shouldHalt vm_ok (S (length blks)) db t last = Some (s', None) ∧ finished s' [] last blks.
Proof.
  intros (ivs & Hb) Ha. unfold execute. set (db1 := if _ : bool then _ else db).
  assert (boot (db_writer_laws DL) t db1 ivs (by_height blks)) as Hb1 by (unfold db1; case_match; [by apply boot_Compact|done]).
  pose proof (st_inv _ _ _ _ _ (bo_stored _ _ _ _ _ Hb1)) as [Hi [m Hm]]. destruct (NewBatch_law db1 Hi) as [Hbi Hp].
  assert (∀ b, b ∈ blks → is_u64 (b_Height b)) as Hu.
  { intros b Hin. apply (boot_u64 _ _ _ _ _ (b_Height b) b Hb1). by apply by_height_lookup. }
  pose proof (bo_blocks _ _ _ _ _ Hb1) as Hbl. simpl in Hbl. rewrite Hm in Hbl. simpl in Hbl.
  destruct (execute_loop_spec (S (length blks)) 0 (mkExec db1 (db_NewBatch db1) 0 (GetBlockIterator db1) 0 t []) blks last [] blks [])
    as (s' & n' & -> & Hfin); [|done|done|lia|].
  { destruct (db_iterator_at DL db1 m [] blockPrefix Hi Hm) as (l & Hat & Hl).
    rewrite (listing_unique _ _ _ _ _ Hl (block_entries_listing m [] blks Hbl Ha Hu ltac:(done))) in Hat.
    split; simpl; try done. exists m, ivs. split; [done|]. destruct Hb1 as [[Hr _ Hper] Hc _ Hg]. simpl in Hper. rewrite Hm in Hper.
    split; [|done| |done]; [split; [done|done|]|]; simpl; by rewrite Hp. }
  simpl. eexists. split; [done|]. destruct Hfin as (done & rest & -> & Hcalls & (ivs' & Hb') & Hrest). exists done, rest. simpl.
  split; [done|]. split; [done|]. split; [|done]. exists ivs'. case_match; [by apply boot_Compact|done].
Qed.
End Correct.

(** ** Theorems *)

Lemma boot_empty ParseBlock `{B : BTree T nat} (L : BTreeLaws B) `{D : Database DB It Ba} (DL : DatabaseLaws D) (db : DB) :
  db_inv db → contents db = Some ∅ → boot ParseBlock L (db_writer_laws DL) (mkTree [] bt_NewG 0) db [] ∅.
Proof.
  intros Hi Hm. split.
  - split; [|split; [done|by rewrite Hm]|].
    + split; simpl; [rewrite items_NewG; constructor|done|done].
    + simpl. rewrite Hm. simpl. intros k v _. rewrite lookup_empty. split; [done|]. by intros (i & ?%elem_of_nil & _).
  - intros x. rewrite lookup_empty. split; [by intros ?%covers_nil|by intros [??]].
  - simpl. rewrite Hm. simpl. intros k v _. rewrite lookup_empty. split; [done|]. intros (h & b & Hl & _). by rewrite lookup_empty in Hl.
  - intros h b Hl. by rewrite lookup_empty in Hl.
Qed.

(** When the tree and the database hold some blocks, [getMissingBlockIDs]
    succeeds and returns exactly the parents of those blocks above the last
    accepted height whose predecessor height is neither stored nor accepted. *)
Theorem missing_blocks_exact (ParseBlock : bytes → option Block) `{B : BTree T nat} (L : BTreeLaws B) `{D : Database DB It Ba}
    (DL : DatabaseLaws D) (t : Tree T) (db : DB) (bm : gmap Z Block) (last : Z) :
  (∃ ivs, boot ParseBlock L (db_writer_laws DL) t db ivs bm) → 0 ≤ last < MaxUint64 →
  ∃ r, getMissingBlockIDs ParseBlock db t last = Ok r ∧
    ∀ id, id ∈ r ↔ ∃ h b, gap_end last bm h ∧ bm !! h = Some b ∧ id = b_Parent b.
Proof. apply getMissingBlockIDs_spec. Qed.

(** C28: [process] of a block with any set of ancestors terminates without an error, in
    at most one round more than there are ancestors of distinct heights.  It stores exactly
    the run of blocks from the given one along the ancestors until a block is known, joins
    the stored or accepted blocks, or has no parent among the ancestors; in the last case
    the parent is returned.  Exactly the visited blocks leave the missing set.  And for
    blocks of one chain, if the missing set was the set of gaps before, then it is so
    afterwards, together with the block that is returned. *)
Theorem process_tracks_gaps (ParseBlock : bytes → option Block) `{B : BTree T nat} (L : BTreeLaws B) `{D : Database DB It Ba}
    (DL : DatabaseLaws D) (t : Tree T) (db : DB) (bm : gmap Z Block) (last : Z) (blk : Block) (ancestors : gmap ID Block) (missing : gset ID) :
  (∃ ivs, boot ParseBlock L (db_writer_laws DL) t db ivs bm) → is_u64 last → good ParseBlock blk →
  (∀ id b, ancestors !! id = Some b → good ParseBlock b) →
  ∃ db' t' missing' r bm' visited, process (size ancestors + 2) db t missing last blk ancestors = Some (db', t', missing', Ok r) ∧
    (∃ ivs, boot ParseBlock L (db_writer_laws DL) t' db' ivs bm') ∧ walk last ancestors bm blk visited r bm' ∧
    missing' = missing ∖ list_to_set (b_ID <$> visited) ∧
    ∀ C : Block → Prop, one_chain C → C blk → (∀ id b, ancestors !! id = Some b → b_ID b = id ∧ C b) → (∀ h b, bm !! h = Some b → C b) →
      (∀ id, id ∈ missing ↔ wanted last bm id) → ∀ id, (id ∈ missing' ∨ r = Some id) ↔ wanted last bm' id.
Proof.
  intros Hb Hl Hg Ha. destruct (process_spec ParseBlock L DL (size ancestors + 2) t db bm last blk ancestors missing Hb Hl Hg Ha) as (db' & t' & r & bm' & visited & Hp & Hst & Hw).
  - case_bool_decide; [lia|]. enough (size (unknown ancestors bm (b_Height blk)) ≤ size ancestors)%nat by lia. apply map_subseteq_size, map_filter_subseteq.
  - exists db', t', (missing ∖ list_to_set (b_ID <$> visited)), r, bm', visited. split; [done|]. split; [done|]. split; [done|]. split; [done|]. intros C HC HCb HCa HCm Hmiss. apply (walk_wanted C last ancestors bm blk visited r bm'); [done..| |].
    + intros h b Hl'. destruct Hb as (ivs & Hb). by apply (bo_good _ _ _ _ _ _ _ Hb).
    + intros id _. apply Hmiss.
Qed.

(** C27: when the calls of [Verify] and [Accept] succeed, [execute] makes them on the
    stored blocks above the last accepted height, in the order of their heights.
    Whenever it is halted, the tree and the database hold exactly the blocks that were
    not processed, so that a later run resumes there; when it is not halted nothing is
    left.  If no blocks were missing, the executed heights have no gaps.  (A block is
    removed before its calls, so nothing is claimed for a call that fails.) *)
Theorem execute_resumable (ParseBlock : bytes → option Block) `{B : BTree T nat} (L : BTreeLaws B) `{D : Database DB It Ba}
    (DL : DatabaseLaws D) (shouldHalt : nat → bool) (vm_ok : list vm_call → vm_call → bool)
    (t : Tree T) (db : DB) (blks : list Block) (last : Z) :
  (∀ log c, vm_ok log c = true) → 0 ≤ last < MaxUint64 →
  (∃ ivs, boot ParseBlock L (db_writer_laws DL) t db ivs (by_height blks)) → ascending blks →
  ∃ s' done rest, execute ParseBlock shouldHalt vm_ok (S (length blks)) db t last = Some (s', None) ∧
    blks = done ++ rest ∧ ex_calls s' = calls_of last done ∧
    (∃ ivs, boot ParseBlock L (db_writer_laws DL) (ex_tree s') (ex_db s') ivs (by_height rest)) ∧
    ((∀ n, shouldHalt n = false) → rest = []) ∧
    (getMissingBlockIDs ParseBlock db t last = Ok ∅ →
     ∀ b, b ∈ done → last < b_Height b → b_Height b = last + 1 ∨ ∃ c, c ∈ done ∧ b_Height c = b_Height b - 1).
Proof.
  intros Hvm Hlast Hb Ha. destruct (execute_spec ParseBlock L DL shouldHalt vm_ok Hvm t db blks last Hb Ha) as (s' & He & (done & rest & Hblks & Hc & Hb' & Hr)).
  exists s', done, rest. split; [done|]. split; [done|]. split; [done|]. split; [done|]. split; [done|]. intros Hmiss b Hbd Hlt.
  destruct (decide (b_Height b = last + 1)) as [|Hne]; [by left|right].
  destruct (getMissingBlockIDs_spec ParseBlock L DL t db (by_height blks) last Hb Hlast) as (r & Hr' & Hid). rewrite Hmiss in Hr'. injection Hr' as <-.
  assert (b ∈ blks) as Hbb by (rewrite Hblks; apply elem_of_app; by left).
  assert (by_height blks !! b_Height b = Some b) as Hlk by by apply by_height_lookup.
  destruct (by_height blks !! (b_Height b - 1)) as [c|] eqn:E.
  - apply by_height_lookup in E as [Hc' Hh]; [|done]. exists c. split; [|lia]. rewrite Hblks in Hc', Ha. apply elem_of_app in Hc' as [?|Hc']; [done|].
    apply StronglySorted_app in Ha as (Hlt' & _). specialize (Hlt' b c Hbd Hc'). simpl in Hlt'. lia.
  - assert (b_Parent b ∈ (∅ : gset ID)) as Hin; [|by apply elem_of_empty in Hin]. apply Hid. exists (b_Height b), b.
    split; [|done]. split; [by rewrite Hlk|]. split; [lia|done].
Qed.

(** *** Examples

    Blocks of one byte, their height, over a database in memory. *)
Definition id_n (n : Z) : ID := default Empty (ID_of_bytes (n :: replicate 31 0)).
Definition blk_n (n : Z) : Block := mkBlock (id_n n) (id_n (n - 1)) n [n].
Definition parse_n (bs : bytes) : option Block := match bs with [n] => Some (blk_n n) | _ => None end.

Section Examples.
#[local] Instance example_range : MapRange bytes := canonical_range bytes.
#[local] Instance example_tree : BTree (list nat) nat := ListTree nat.
Abbreviation example_boot t db bm :=
  (∃ ivs, boot parse_n (ListTree_laws nat) (db_writer_laws MemDB_laws) t db ivs bm).

Lemma good_n n : is_u64 n → good parse_n (blk_n n).
Proof. by split. Qed.

(** Storing one more block. *)
Lemma example_add t db bm n :
  example_boot t db bm → is_u64 n → 1 < n → bm !! n = None → ∃ t' db', example_boot t' db' (<[n := blk_n n]> bm).
Proof.
  intros (ivs & Hb) Hn Hlt Hnone.
  destruct (Add_boot parse_n (ListTree_laws nat) MemDB_laws t db ivs bm 1 (blk_n n) Hb ltac:(done) (good_n n Hn))
    as (t' & db' & r & _ & [([?|[??]] & _)|(_ & _ & Hst & _)]); simpl in *; [lia|congruence|]. by exists t', db'.
Qed.

Lemma example_stores : ∃ t db, example_boot t db (by_height [blk_n 2; blk_n 3; blk_n 5]).
Proof.
  assert (example_boot (mkTree [] [] 0) mem_New ∅) as H0 by (exists []; by apply boot_empty).
  destruct (example_add _ _ _ 5 H0 ltac:(done) ltac:(lia) ltac:(done)) as (t1 & db1 & H1).
  destruct (example_add _ _ _ 3 H1 ltac:(done) ltac:(lia) ltac:(done)) as (t2 & db2 & H2).
  destruct (example_add _ _ _ 2 H2 ltac:(done) ltac:(lia) ltac:(done)) as (t3 & db3 & H3).
  by exists t3, db3.
Qed.

Lemma missing_blocks_exact_witness :
  ∃ (t : Tree (list nat)) (db : MemDatabase) r, getMissingBlockIDs parse_n db t 1 = Ok r ∧
    ∀ id, id ∈ r ↔ ∃ h b, gap_end 1 (by_height [blk_n 2; blk_n 3; blk_n 5]) h ∧ by_height [blk_n 2; blk_n 3; blk_n 5] !! h = Some b ∧ id = b_Parent b.
Proof.
  destruct example_stores as (t & db & H). exists t, db.
  apply (missing_blocks_exact parse_n (ListTree_laws nat) MemDB_laws t db _ 1 H). split; [lia|reflexivity].
Defined.

Lemma process_tracks_gaps_witness :
  let ancestors : gmap ID Block := {[ id_n 4 := blk_n 4; id_n 3 := blk_n 3 ]} in
  ∃ db' t' missing' r bm' visited,
    process (size ancestors + 2) mem_New (mkTree [] [] 0) {[id_n 4; id_n 9]} 1 (blk_n 5) ancestors = Some (db', t', missing', Ok r) ∧
    walk 1 ancestors ∅ (blk_n 5) visited r bm' ∧ missing' = {[id_n 4; id_n 9]} ∖ list_to_set (b_ID <$> visited).
Proof.
  intros ancestors. destruct (process_tracks_gaps parse_n (ListTree_laws nat) MemDB_laws (mkTree [] [] 0) mem_New ∅ 1 (blk_n 5) ancestors {[id_n 4; id_n 9]}) as (db' & t' & missing' & r & bm' & visited & Hp & _ & Hw & Hm & _).
  - exists []. apply boot_empty; [exact I|reflexivity].
  - split; [lia|discriminate].
  - apply good_n. split; [lia|discriminate].
  - intros id b [[_ <-]|[_ [_ <-]%lookup_singleton_Some]]%lookup_insert_Some; apply good_n; (split; [lia|discriminate]).
  - exists db', t', missing', r, bm', visited. split; [exact Hp|]. split; [exact Hw|exact Hm].
Defined.

Lemma execute_resumable_witness :
  ∃ (t : Tree (list nat)) (db : MemDatabase) s' done rest,
    execute parse_n (λ n, Nat.eqb n 2) (λ _ _, true) 4 db t 2 = Some (s', None) ∧
    [blk_n 2; blk_n 3; blk_n 5] = done ++ rest ∧ ex_calls s' = calls_of 2 done ∧ example_boot (ex_tree s') (ex_db s') (by_height rest).
Proof.
  destruct example_stores as (t & db & H).
  destruct (execute_resumable parse_n (ListTree_laws nat) MemDB_laws (λ n, Nat.eqb n 2) (λ _ _, true) t db [blk_n 2; blk_n 3; blk_n 5] 2)
    as (s' & done & rest & He & Hb & Hc & Hst & _); [reflexivity|split; [lia|reflexivity]|exact H| |].
  - repeat constructor.
  - by exists t, db, s', done, rest.
Defined.
End Examples.
