(* ===== verification/Scheduler.v ===== *)
(** * Jobs with dependencies (package [snowman/job])

    [scheduler.go]: jobs wait until each of their dependencies is fulfilled or
    abandoned and are then executed.  A job is arbitrary code that may itself call
    the scheduler, so that the loops of the scheduler nest: execution is a machine
    whose stack holds the loops and the suspended callers.  Pointers to jobs are
    indices into a heap; a job that was scheduled without dependencies is not
    stored. *)
From S2P Require Import Prelude.

Section Scheduler.
Context {T : Type} `{Countable T} {J Err : Type}.

(** ** Data *)

(** User code between two calls of the scheduler: it returns, or calls a method and
    goes on with the error it returned. *)
Inductive code : Type :=
| Return (err : option Err)
| CallSchedule (userJob : J) (dependencies : list T) (k : option Err → code)
| CallFulfill (dependency : T) (k : option Err → code)
| CallAbandon (dependency : T) (k : option Err → code).

(** [Job.Execute] *)
Context (Execute : J → list T → list T → code).

Record job : Type := mkJob {
  numUnresolved : Z;
  fulfilled : list T;
  abandoned : list T;
  user_job : J;
}.

Record Scheduler : Type := mkScheduler {
  jobs_heap : list job;
  dependents : gmap T (list nat);
}.

(** What happened, for the statements of theorems. *)
Inductive event : Type :=
| Scheduled (n : nat) (deps : list T)
| Resolved (d : T) (ok : bool)
| Executed (n : nat) (ful ab : list T).

(** A frame runs user code, waits for a method to return, or is the loop of
    [resolveDependency] with the jobs it has still to visit. *)
Inductive frame : Type :=
| FRun (c : code)
| FWait (k : option Err → code)
| FLoop (dependency : T) (ok : bool) (jobs : list nat).

(** [aborted] tells that an error ended a loop early. *)
Record config : Type := mkConfig {
  sched : Scheduler;
  stack : list frame;
  trace : list event;
  aborted : bool;
}.

(** ** Operations *)

Definition NewScheduler : Scheduler := mkScheduler [] ∅.

(** [Schedule] with at least one dependency. *)
Definition Schedule (s : Scheduler) (userJob : J) (dependencies : list T) : Scheduler :=
  let j := length (jobs_heap s) in
  mkScheduler (jobs_heap s ++ [mkJob (Z.of_nat (length dependencies)) [] [] userJob])
    (foldl (λ m d, <[d := default [] (m !! d) ++ [j]]> m) (dependents s) dependencies).

Definition NumDependencies (s : Scheduler) : Z := Z.of_nat (size (dependents s)).

(** The first lines of [resolveDependency]: the jobs of the loop. *)
Definition take_dependents (s : Scheduler) (dependency : T) : Scheduler * list nat :=
  (mkScheduler (jobs_heap s) (delete dependency (dependents s)), default [] (dependents s !! dependency)).

(** The updates of a job in the loop. *)
Definition resolve_job (j : job) (dependency : T) (ok : bool) : job :=
  if ok then mkJob (numUnresolved j - 1) (fulfilled j ++ [dependency]) (abandoned j) (user_job j)
  else mkJob (numUnresolved j - 1) (fulfilled j) (abandoned j ++ [dependency]) (user_job j).

(** One step.  [None]: the program has ended, or a pointer is nil. *)
Definition step (c : config) : option config :=
  let s := sched c in
  match stack c with
  | [] => None
  | FWait _ :: _ => None
  | FRun (Return err) :: rest =>
      match rest, err with
      | [], _ => Some (mkConfig s [] (trace c) (aborted c))
      | FWait k :: rest, _ => Some (mkConfig s (FRun (k err) :: rest) (trace c) (aborted c))
      | FLoop d ok js :: rest, None => Some (mkConfig s (FLoop d ok js :: rest) (trace c) (aborted c))
      | FLoop d ok js :: rest, Some e => Some (mkConfig s (FRun (Return (Some e)) :: rest) (trace c) true)
      | FRun _ :: _, _ => None
      end
  | FRun (CallSchedule userJob [] k) :: rest =>
      Some (mkConfig s (FRun (Execute userJob [] []) :: FWait k :: rest) (trace c) (aborted c))
  | FRun (CallSchedule userJob dependencies k) :: rest =>
      Some (mkConfig (Schedule s userJob dependencies) (FRun (k None) :: rest)
              (trace c ++ [Scheduled (length (jobs_heap s)) dependencies]) (aborted c))
  | FRun (CallFulfill d k) :: rest =>
      let '(s, js) := take_dependents s d in
      Some (mkConfig s (FLoop d true js :: FWait k :: rest) (trace c ++ [Resolved d true]) (aborted c))
  | FRun (CallAbandon d k) :: rest =>
      let '(s, js) := take_dependents s d in
      Some (mkConfig s (FLoop d false js :: FWait k :: rest) (trace c ++ [Resolved d false]) (aborted c))
  | FLoop d ok [] :: rest => Some (mkConfig s (FRun (Return None) :: rest) (trace c) (aborted c))
  | FLoop d ok (n :: js) :: rest =>
      j ← jobs_heap s !! n;
      let j := resolve_job j d ok in
      let s := mkScheduler (<[n := j]> (jobs_heap s)) (dependents s) in
      if 0 <? numUnresolved j then Some (mkConfig s (FLoop d ok js :: rest) (trace c) (aborted c))
      else Some (mkConfig s (FRun (Execute (user_job j) (fulfilled j) (abandoned j)) :: FLoop d ok js :: rest)
                   (trace c ++ [Executed n (fulfilled j) (abandoned j)]) (aborted c))
  end.

Definition start (c : code) : config := mkConfig NewScheduler [FRun c] [] false.

(** ** The waiting jobs *)

(** The pairs of a dependency and a job that waits for it: those in the map and
    those in the loops. *)
Definition map_pairs (m : gmap T (list nat)) : list (T * nat) := map_to_list m ≫= λ x, (λ n, (x.1, n)) <$> x.2.
Definition frame_pairs (f : frame) : list (T * nat) := match f with FLoop d _ js => (λ n, (d, n)) <$> js | _ => [] end.
Definition pairs (c : config) : list (T * nat) := map_pairs (dependents (sched c)) ++ (stack c ≫= frame_pairs).

(** The dependencies job [n] waits for among [P]. *)
Definition waiting (n : nat) (P : list (T * nat)) : list T := (filter (λ x, x.2 = n) P).*1.

Lemma waiting_app n P Q : waiting n (P ++ Q) = waiting n P ++ waiting n Q.
Proof. unfold waiting. by rewrite filter_app, fmap_app. Qed.

#[local] Instance waiting_proper n : Proper ((≡ₚ) ==> (≡ₚ)) (waiting n).
Proof. intros P Q HPQ. unfold waiting. by rewrite HPQ. Qed.

Lemma map_pairs_delete m d :
  map_pairs m ≡ₚ ((λ n, (d, n)) <$> default [] (m !! d)) ++ map_pairs (delete d m).
Proof.
  unfold map_pairs. destruct (m !! d) as [l|] eqn:E; simpl; [|by rewrite delete_id].
  rewrite <- (insert_delete_id m d l E) at 1. rewrite map_to_list_insert by apply lookup_delete_eq. done.
Qed.

Lemma map_pairs_push m d j : map_pairs (<[d := default [] (m !! d) ++ [j]]> m) ≡ₚ (d, j) :: map_pairs m.
Proof.
  rewrite (map_pairs_delete (<[d := _]> m) d), (map_pairs_delete m d), lookup_insert_eq. simpl.
  rewrite delete_insert_eq, fmap_app. simpl. rewrite <- app_assoc. simpl. symmetry. apply Permutation_middle.
Qed.

Lemma map_pairs_schedule m deps j :
  map_pairs (foldl (λ m d, <[d := default [] (m !! d) ++ [j]]> m) m deps) ≡ₚ ((λ d, (d, j)) <$> deps) ++ map_pairs m.
Proof.
  revert m. induction deps as [|d deps IH]; intros m; simpl; [done|]. rewrite IH, map_pairs_push. symmetry. apply Permutation_middle.
Qed.

(** ** The invariant *)

Definition executed_id (e : event) : option nat := match e with Executed n _ _ => Some n | _ => None end.

(** The dependencies of a job are those resolved, those it waits for, and, after an
    error ended a loop, those that were lost. *)
Record inv (s : Scheduler) (P : list (T * nat)) (tr : list event) (ab : bool) : Prop := {
  inv_pairs : ∀ d n, (d, n) ∈ P → (n < length (jobs_heap s))%nat;
  inv_scheduled : ∀ n, (∃ deps, Scheduled n deps ∈ tr) ↔ (n < length (jobs_heap s))%nat;
  inv_job : ∀ n j deps, jobs_heap s !! n = Some j → Scheduled n deps ∈ tr →
    deps ≠ [] ∧ numUnresolved j = Z.of_nat (length deps) - Z.of_nat (length (fulfilled j ++ abandoned j)) ∧
    ∃ lost, (fulfilled j ++ abandoned j) ++ waiting n P ++ lost ≡ₚ deps ∧ (ab = false → lost = []);
  inv_exec : ∀ n ful abd, Executed n ful abd ∈ tr ↔
    ∃ j, jobs_heap s !! n = Some j ∧ numUnresolved j = 0 ∧ ful = fulfilled j ∧ abd = abandoned j;
  inv_once : NoDup (omap executed_id tr);
  inv_resolved : ∀ n j d, jobs_heap s !! n = Some j →
    (d ∈ fulfilled j → Resolved d true ∈ tr) ∧ (d ∈ abandoned j → Resolved d false ∈ tr);
  inv_nonempty : ∀ d l, dependents s !! d = Some l → l ≠ [];
}.

Lemma inv_perm s P P' tr ab : P ≡ₚ P' → inv s P tr ab → inv s P' tr ab.
Proof.
  intros HP [H1 H2 H3 H4 H5 H6 H7]. split; try done.
  - intros d n. rewrite <- HP. apply H1.
  - intros n j deps Hj Hs. destruct (H3 n j deps Hj Hs) as (? & ? & lost & Hl & ?). split; [done|]. split; [done|]. exists lost.
    split; [|done]. by rewrite <- Hl, HP.
Qed.

Lemma inv_lose s L P tr ab : inv s (L ++ P) tr ab → inv s P tr true.
Proof.
  intros [H1 H2 H3 H4 H5 H6 H7]. split; try done.
  - intros d n Hin. apply (H1 d n), elem_of_app. by right.
  - intros n j deps Hj Hs. destruct (H3 n j deps Hj Hs) as (? & ? & lost & Hl & ?). split; [done|]. split; [done|].
    exists (waiting n L ++ lost). split; [|done]. rewrite <- Hl, waiting_app. solve_Permutation.
Qed.

Lemma waiting_fresh n P : (∀ d m, (d, m) ∈ P → m ≠ n) → waiting n P = [].
Proof.
  intros HP. unfold waiting. induction P as [|[d m] P IH]; [done|]. rewrite filter_cons_False; [|simpl; apply (HP d); by left].
  apply IH. intros d' m' Hin. apply (HP d'). by right.
Qed.

Lemma waiting_same n (deps : list T) : waiting n ((λ d, (d, n)) <$> deps) = deps.
Proof. unfold waiting. induction deps as [|d deps IH]; [done|]. rewrite fmap_cons, filter_cons_True by done. rewrite fmap_cons. by rewrite IH. Qed.

Lemma waiting_other n m (deps : list T) : m ≠ n → waiting n ((λ d, (d, m)) <$> deps) = [].
Proof. intros Hne. apply waiting_fresh. intros d m' (x & [= -> ->] & _)%list_elem_of_fmap. done. Qed.

Lemma lookup_schedule (m : gmap T (list nat)) deps j d l :
  (∀ d l, m !! d = Some l → l ≠ []) → foldl (λ m d, <[d := default [] (m !! d) ++ [j]]> m) m deps !! d = Some l → l ≠ [].
Proof.
  revert m. induction deps as [|x deps IH]; intros m Hm; simpl; [apply Hm|]. apply IH. intros d' l'.
  rewrite lookup_insert_Some. intros [[_ <-]|[_ Hl]]; [by destruct (default [] (m !! x))|by apply (Hm d')].
Qed.

Lemma inv_Schedule s u deps P tr ab :
  deps ≠ [] → inv s P tr ab →
  inv (Schedule s u deps) (((λ d, (d, length (jobs_heap s))) <$> deps) ++ P) (tr ++ [Scheduled (length (jobs_heap s)) deps]) ab.
Proof.
  intros Hne [H1 H2 H3 H4 H5 H6 H7]. unfold Schedule. set (k := length (jobs_heap s)) in *.
  assert (∀ n j, (jobs_heap s ++ [mkJob (Z.of_nat (length deps)) [] [] u]) !! n = Some j ↔
    (jobs_heap s !! n = Some j ∧ (n < k)%nat) ∨ (n = k ∧ j = mkJob (Z.of_nat (length deps)) [] [] u)) as Hlk.
  { intros n j. rewrite lookup_snoc_Some. fold k. naive_solver. }
  split; simpl.
  - intros d n [(x & [= -> ->] & _)%list_elem_of_fmap|Hin]%elem_of_app; rewrite length_app; simpl; [fold k; lia|]. specialize (H1 d n Hin). fold k in H1. lia.
  - intros n. rewrite length_app. simpl. fold k. split.
    + intros (deps' & [Hd|Hd%list_elem_of_singleton]%elem_of_app); [|injection Hd as -> ->; lia]. assert (n < k)%nat by (apply H2; by exists deps'). lia.
    + intros Hn. destruct (decide (n = k)) as [->|]; [exists deps; apply elem_of_app; right; by left|].
      destruct (proj2 (H2 n)) as [deps' Hd]; [fold k; lia|]. exists deps'. apply elem_of_app. by left.
  - intros n j deps' Hj Hs. apply Hlk in Hj as [[Hj Hn]|[-> ->]]; apply elem_of_app in Hs as [Hs|Hs%list_elem_of_singleton].
    + destruct (H3 n j deps' Hj Hs) as (? & ? & lost & Hl & ?). split; [done|]. split; [done|]. exists lost. split; [|done].
      rewrite waiting_app, waiting_other by lia. done.
    + injection Hs as -> ->. lia.
    + assert (k < k)%nat by (apply H2; by exists deps'). lia.
    + injection Hs as ->. simpl. split; [done|]. split; [lia|]. exists []. split; [|done]. rewrite app_nil_r, waiting_app, waiting_same.
      rewrite waiting_fresh; [by rewrite app_nil_r|]. intros d m Hin. specialize (H1 d m Hin). fold k in H1. lia.
  - intros n ful abd. rewrite elem_of_app, list_elem_of_singleton, H4. split.
    + intros [(j & Hj & ?)|Hd]; [|done]. exists j. split; [|done]. apply Hlk. left. split; [done|]. by apply lookup_lt_Some in Hj.
    + intros (j & [[Hj _]|[-> ->]]%Hlk & Hu & ?); [left; by exists j|]. simpl in Hu. destruct deps; [done|]. simpl in Hu. lia.
  - rewrite omap_app. simpl. by rewrite app_nil_r.
  - intros n j d [[Hj _]|[-> ->]]%Hlk; [|split; by intros ?%elem_of_nil]. destruct (H6 n j d Hj) as [? ?].
    split; intros; apply elem_of_app; left; auto.
  - intros d l. by apply lookup_schedule.
Qed.

Lemma inv_take s d ok P tr ab : inv s P tr ab → inv (take_dependents s d).1 P (tr ++ [Resolved d ok]) ab.
Proof.
  intros [H1 H2 H3 H4 H5 H6 H7].
  assert (∀ e, e ∈ tr ++ [Resolved d ok] ↔ e ∈ tr ∨ e = Resolved d ok) as Htr.
  { intros e. rewrite elem_of_app, list_elem_of_singleton. done. }
  split; simpl; try done.
  - intros n. rewrite <- H2. setoid_rewrite Htr. naive_solver.
  - intros n j deps Hj Hs. apply Htr in Hs as [Hs|?]; [|done]. by apply H3.
  - intros n ful abd. rewrite Htr, H4. naive_solver.
  - rewrite omap_app. simpl. by rewrite app_nil_r.
  - intros n j x Hj. destruct (H6 n j x Hj) as [? ?]. rewrite !Htr. split; intros; left; auto.
  - intros x l [_ Hl]%lookup_delete_Some. by apply (H7 x).
Qed.

Lemma waiting_cons_eq d n P : waiting n ((d, n) :: P) = d :: waiting n P.
Proof. unfold waiting. by rewrite filter_cons_True. Qed.
Lemma waiting_cons_ne d n m P : m ≠ n → waiting n ((d, m) :: P) = waiting n P.
Proof. intros. unfold waiting. by rewrite filter_cons_False. Qed.

Lemma resolve_job_spec j d ok :
  numUnresolved (resolve_job j d ok) = numUnresolved j - 1 ∧
  fulfilled (resolve_job j d ok) ++ abandoned (resolve_job j d ok) ≡ₚ d :: fulfilled j ++ abandoned j ∧
  (∀ x, x ∈ fulfilled (resolve_job j d ok) → x ∈ fulfilled j ∨ (x = d ∧ ok = true)) ∧
  (∀ x, x ∈ abandoned (resolve_job j d ok) → x ∈ abandoned j ∨ (x = d ∧ ok = false)).
Proof.
  unfold resolve_job. destruct ok; simpl; (split; [done|]); (split; [|split; set_solver]).
  - rewrite <- app_assoc. simpl. symmetry. apply Permutation_middle.
  - rewrite app_assoc. symmetry. apply Permutation_cons_append.
Qed.

(** A round of the loop of [resolveDependency]. *)
Lemma inv_resolve s d n ok P tr ab j :
  inv s ((d, n) :: P) tr ab → Resolved d ok ∈ tr → jobs_heap s !! n = Some j →
  let j' := resolve_job j d ok in
  let s' := mkScheduler (<[n := j']> (jobs_heap s)) (dependents s) in
  0 < numUnresolved j ∧
  (if 0 <? numUnresolved j' then inv s' P tr ab else inv s' P (tr ++ [Executed n (fulfilled j') (abandoned j')]) ab).
Proof.
  intros [H1 H2 H3 H4 H5 H6 H7] Hres Hj j' s'. destruct (resolve_job_spec j d ok) as (Hnum & Hperm & Hful & Habd). fold j' in Hnum, Hperm, Hful, Habd.
  assert (n < length (jobs_heap s))%nat as Hn by by apply lookup_lt_Some in Hj.
  destruct (proj2 (H2 n) Hn) as [deps Hdeps]. destruct (H3 n j deps Hj Hdeps) as (Hne & Hu & lost & Hl & Hab).
  rewrite waiting_cons_eq in Hl. assert (0 < numUnresolved j) as Hpos.
  { rewrite Hu, <- Hl, !length_app. simpl. lia. }
  split; [done|].
  assert (∀ m jm, <[n := j']> (jobs_heap s) !! m = Some jm ↔ (m = n ∧ jm = j') ∨ (m ≠ n ∧ jobs_heap s !! m = Some jm)) as Hlk.
  { intros m jm. destruct (decide (m = n)) as [->|Hmn]; [rewrite list_lookup_insert_eq by done|rewrite list_lookup_insert_ne by done]; naive_solver. }
  assert (∀ tr', (∀ e, e ∈ tr' ↔ e ∈ tr ∨ ∃ n ful abd, e = Executed n ful abd ∧ e ∈ tr') → NoDup (omap executed_id tr') →
    (∀ m ful abd, Executed m ful abd ∈ tr' ↔ ∃ jm, <[n := j']> (jobs_heap s) !! m = Some jm ∧ numUnresolved jm = 0 ∧ ful = fulfilled jm ∧ abd = abandoned jm) →
    inv s' P tr' ab) as Hmk.
  { intros tr' Htr Hnd Hex. split; simpl; try done.
    - intros d' m Hin. rewrite length_insert. apply (H1 d'). by right.
    - intros m. rewrite length_insert, <- H2. setoid_rewrite Htr. split; [intros (x & [?|(?&?&?&?&_)]); [by exists x|done]|intros (x & ?); exists x; by left].
    - intros m jm deps' Hm Hs. apply Htr in Hs as [Hs|(?&?&?&?&_)]; [|done]. apply Hlk in Hm as [[-> ->]|[Hmn Hm]].
      + destruct (H3 n j deps' Hj Hs) as (Hne' & Hu' & lost' & Hl' & Hab'). rewrite waiting_cons_eq in Hl'. split; [done|]. split.
        * rewrite Hnum, Hu', Hperm. simpl. lia.
        * exists lost'. split; [|done]. rewrite Hperm, <- Hl'. solve_Permutation.
      + destruct (H3 m jm deps' Hm Hs) as (? & ? & lost' & Hl' & ?). rewrite waiting_cons_ne in Hl' by done. split; [done|]. split; [done|]. by exists lost'.
    - assert (∀ e, e ∈ tr → e ∈ tr') as Hsub by (intros e ?; apply Htr; by left).
      intros m jm x [[-> ->]|[Hmn Hm]]%Hlk.
      + destruct (H6 n j x Hj) as [Hf Hb]. split; [intros [Hx|[-> ->]]%Hful|intros [Hx|[-> ->]]%Habd]; auto.
      + destruct (H6 m jm x Hm). split; auto. }
  destruct (Z.ltb_spec 0 (numUnresolved j')) as [Hgt|Hle].
  - apply Hmk; [naive_solver|done|]. intros m ful abd. rewrite H4. split.
    + intros (jm & Hm & Hz & ?). exists jm. split; [|done]. apply Hlk. right. split; [|done]. intros ->. rewrite Hj in Hm. injection Hm as ->. lia.
    + intros (jm & [[-> ->]|[_ Hm]]%Hlk & Hz & ?); [lia|]. by exists jm.
  - apply Hmk.
    + intros e. split; [|intros [He|(_ & _ & _ & _ & He)]; [apply elem_of_app; by left|done]].
      intros [He|He%list_elem_of_singleton]%elem_of_app; [by left|]. right. eexists _, _, _. split; [exact He|].
      rewrite He. apply elem_of_app. right. by left.
    + rewrite omap_app. simpl. apply NoDup_app. split; [done|]. split; [|apply NoDup_singleton].
      intros m (e & He & Hm)%list_elem_of_omap ->%list_elem_of_singleton. destruct e as [| |m ful abd]; simplify_eq/=.
      apply H4 in He as (jm & Hjm & Hz & _). rewrite Hj in Hjm. injection Hjm as ->. lia.
    + intros m ful abd. rewrite elem_of_app, list_elem_of_singleton, H4. split.
      * intros [(jm & Hm & Hz & ?)|[= -> -> ->]].
        -- exists jm. split; [|done]. apply Hlk. right. split; [|done]. intros ->. rewrite Hj in Hm. injection Hm as ->. lia.
        -- exists j'. split; [apply Hlk; by left|]. split; [lia|done].
      * intros (jm & [[-> ->]|[_ Hm]]%Hlk & Hz & -> & ->); [by right|]. left. by exists jm.
Qed.

(** ** Reachable configurations *)

Definition loops_resolved (st : list frame) (tr : list event) : Prop := ∀ d ok js, FLoop d ok js ∈ st → Resolved d ok ∈ tr.

Record cinv (c : config) : Prop := {
  cinv_inv : inv (sched c) (pairs c) (trace c) (aborted c);
  cinv_loops : loops_resolved (stack c) (trace c);
}.

Lemma cinv_start c : cinv (start c).
Proof.
  split; [|intros d ok js [? |?%elem_of_nil]%elem_of_cons; done].
  split; simpl; try done.
  - by intros d n ?%elem_of_nil.
  - intros n. split; [by intros (deps & ?%elem_of_nil)|lia].
  - intros n ful abd. split; [by intros ?%elem_of_nil|]. by intros (j & ? & _).
  - apply NoDup_nil. done.
Qed.

Lemma loops_trace st tr tr' : loops_resolved st tr → (∀ e, e ∈ tr → e ∈ tr') → loops_resolved st tr'.
Proof. intros Hl Hsub d ok js Hin. by apply Hsub, (Hl d ok js). Qed.

Lemma elem_of_snoc (tr : list event) e e' : e ∈ tr → e ∈ tr ++ [e'].
Proof. intros. apply elem_of_app. by left. Qed.

Lemma loops_push d ok js st tr : Resolved d ok ∈ tr → loops_resolved st tr → loops_resolved (FLoop d ok js :: st) tr.
Proof. intros Hr Hl d' ok' js' [[= -> -> ->]|?]%elem_of_cons; [done|by apply (Hl d' ok' js')]. Qed.

Lemma loops_plain f st tr : (∀ d ok js, f ≠ FLoop d ok js) → loops_resolved st tr ↔ loops_resolved (f :: st) tr.
Proof.
  intros Hf. split; intros Hl d ok js Hin; apply (Hl d ok js).
  - apply elem_of_cons in Hin as [?|?]; [by destruct (Hf d ok js)|done].
  - by right.
Qed.

Lemma loops_pop d ok js st tr : loops_resolved (FLoop d ok js :: st) tr → Resolved d ok ∈ tr ∧ loops_resolved st tr.
Proof. intros Hl. split; [apply (Hl d ok js); by left|]. intros d' ok' js' Hin. apply (Hl d' ok' js'). by right. Qed.

(** The loop of [Fulfill] and [Abandon] starts. *)
Lemma cinv_call s d ok k st tr ab c :
  (∀ d ok js, FRun c ≠ FLoop d ok js) → cinv (mkConfig s (FRun c :: st) tr ab) →
  cinv (mkConfig (take_dependents s d).1 (FLoop d ok (take_dependents s d).2 :: FWait k :: st) (tr ++ [Resolved d ok]) ab).
Proof.
  intros Hc [Hi Hl]. simpl in *. split; simpl.
  - eapply inv_perm; [|by apply inv_take]. unfold pairs. simpl. rewrite (map_pairs_delete (dependents s) d). solve_Permutation.
  - apply loops_push; [apply elem_of_app; right; by left|]. apply loops_plain; [done|]. apply (loops_trace _ tr); [|intros ?; apply elem_of_snoc].
    by apply (loops_plain (FRun c)).
Qed.

Lemma cinv_step c c' : cinv c → step c = Some c' → cinv c'.
Proof.
  destruct c as [s st tr ab]. intros Hinv Hstep. pose proof Hinv as [Hi Hl]. unfold step in Hstep. simpl in *.
  destruct st as [|[[err|u [|d0 deps] k|d k|d k]|k|d ok js] rest]; try done.
  - apply (loops_plain (FRun (Return err))) in Hl; [|done]. destruct rest as [|[c|k|d ok js] rest]; [|done| |destruct err as [e|]]; injection Hstep as <-.
    + by split.
    + split; [done|]. simpl. apply loops_plain; [done|]. by apply (loops_plain (FWait k)).
    + split; simpl; [|apply loops_plain; [done|]; by apply loops_pop in Hl as [_ ?]].
      apply (inv_lose _ ((λ n, (d, n)) <$> js) _ _ ab). eapply inv_perm; [|exact Hi]. unfold pairs. simpl. solve_Permutation.
    + by split.
  - injection Hstep as <-. split; [done|]. simpl. apply loops_plain; [done|]. apply loops_plain; [done|]. by apply loops_plain in Hl.
  - injection Hstep as <-. split; cbn [sched trace aborted stack].
    + eapply inv_perm; [|apply inv_Schedule; [|exact Hi]; done]. unfold pairs. cbn [sched stack dependents Schedule]. rewrite map_pairs_schedule. simpl. solve_Permutation.
    + apply loops_plain; [done|]. apply (loops_trace _ tr); [by apply loops_plain in Hl|intros ?; apply elem_of_snoc].
  - injection Hstep as <-. by apply (cinv_call s d true k rest tr ab (CallFulfill d k)).
  - injection Hstep as <-. by apply (cinv_call s d false k rest tr ab (CallAbandon d k)).
  - apply loops_pop in Hl as [Hres Hl]. destruct js as [|n js]; [injection Hstep as <-; split; [done|]; simpl; by apply loops_plain|].
    destruct (jobs_heap s !! n) as [j|] eqn:Hj; [|done]. simpl in Hstep.
    assert (inv s ((d, n) :: map_pairs (dependents s) ++ ((λ n, (d, n)) <$> js) ++ (rest ≫= frame_pairs)) tr ab) as Hi'.
    { eapply inv_perm; [|exact Hi]. unfold pairs. simpl. solve_Permutation. }
    destruct (inv_resolve s d n ok _ tr ab j Hi' Hres Hj) as [_ Hr]. destruct (0 <? numUnresolved (resolve_job j d ok)); injection Hstep as <-.
    + split; [exact Hr|]. simpl. by apply loops_push.
    + split; [exact Hr|]. simpl. apply loops_plain; [done|]. apply loops_push; [by apply elem_of_snoc|]. apply (loops_trace _ tr); [done|intros ?; apply elem_of_snoc].
Qed.

Lemma cinv_reachable c c' : cinv c → rtc (λ c c', step c = Some c') c c' → cinv c'.
Proof. intros Hc Hr. induction Hr as [|c c1 c2 Hs _ IH]; [done|]. apply IH. by eapply cinv_step. Qed.

(** ** No step is stuck *)

Definition suspended (f : frame) : bool := match f with FRun _ => false | _ => true end.
Definition shape (st : list frame) : Prop :=
  match st with [] => True | FWait _ :: _ => False | _ :: rest => Forall suspended rest end.

Lemma shape_step c c' : shape (stack c) → step c = Some c' → shape (stack c').
Proof.
  destruct c as [s st tr ab]. unfold step. simpl. intros Hs Hstep.
  destruct st as [|[[err|u [|d0 deps] k|d k|d k]|k|d ok js] rest]; try done; simpl in Hs.
  - destruct rest as [|[c|k|d ok js] rest]; [|done| |destruct err as [e|]]; simplify_eq/=; try done; by inversion Hs.
  - simplify_eq/=. by constructor.
  - by simplify_eq/=.
  - simplify_eq/=. by constructor.
  - simplify_eq/=. by constructor.
  - destruct js as [|n js]; [by simplify_eq/=|]. destruct (jobs_heap s !! n) as [j|]; [|done]. simpl in Hstep.
    destruct (0 <? _); simplify_eq/=; [done|by constructor].
Qed.

Lemma shape_reachable c c' : shape (stack c) → rtc (λ c c', step c = Some c') c c' → shape (stack c').
Proof. intros Hc Hr. induction Hr as [|c c1 c2 Hs _ IH]; [done|]. apply IH. by eapply shape_step. Qed.

Lemma step_progress c : cinv c → shape (stack c) → step c = None → stack c = [].
Proof.
  destruct c as [s st tr ab]. intros [Hi _] Hsh. unfold step. simpl in *.
  destruct st as [|[[err|u [|d0 deps] k|d k|d k]|k|d ok js] rest]; try done; simpl in Hsh.
  - destruct rest as [|[c|k|d ok js] rest]; [done|by inversion Hsh|done|by destruct err].
  - destruct js as [|n js]; [done|]. destruct (lookup_lt_is_Some_2 (jobs_heap s) n) as [j Hj].
    { eapply (inv_pairs _ _ _ _ Hi d). unfold pairs. simpl. apply elem_of_app. right. by left. }
    rewrite Hj. simpl. by destruct (0 <? _).
Qed.

Lemma map_pairs_elem m d n : (d, n) ∈ map_pairs m ↔ ∃ l, m !! d = Some l ∧ n ∈ l.
Proof.
  unfold map_pairs. rewrite list_elem_of_bind. split.
  - intros ([d' l] & (n' & [= -> ->] & Hn)%list_elem_of_fmap & Hl%elem_of_map_to_list). by exists l.
  - intros (l & Hl%elem_of_map_to_list & Hn). exists (d, l). split; [|done]. apply list_elem_of_fmap. by exists n.
Qed.

Lemma waiting_elem n P d : d ∈ waiting n P ↔ (d, n) ∈ P.
Proof.
  unfold waiting. rewrite list_elem_of_fmap. split.
  - intros ([d' m] & -> & [Hm Hin]%list_elem_of_filter). by simpl in *; subst.
  - intros Hin. exists (d, n). by rewrite list_elem_of_filter.
Qed.

(** A job that waits is not executed. *)
Lemma waiting_unexecuted s P tr ab d n : inv s P tr ab → (d, n) ∈ P → n ∉ omap executed_id tr.
Proof.
  intros Hi Hin (e & He & Hn)%list_elem_of_omap. destruct e as [| |m ful abd]; simplify_eq/=.
  apply (inv_exec _ _ _ _ Hi) in He as (j & Hj & Hz & _). destruct (proj2 (inv_scheduled _ _ _ _ Hi n)) as [deps Hd]; [by apply lookup_lt_Some in Hj|].
  destruct (inv_job _ _ _ _ Hi n j deps Hj Hd) as (_ & Hu & lost & Hl & _). apply waiting_elem in Hin.
  rewrite <- Hl, !length_app in Hu. destruct (waiting n P); [by apply elem_of_nil in Hin|]. simpl in Hu. lia.
Qed.

(** C29: The scheduler runs each job exactly when its dependencies are resolved, with
    arbitrary jobs that call the scheduler back.  In every configuration a program
    reaches: the machine stops only when the program has returned; a job is executed
    at most once; it is executed with the dependencies it was scheduled with, in some
    order and with their multiplicity, split into those that were fulfilled and those
    that were abandoned; and a job listed under a dependency has not been executed.
    When the program has returned and no job failed, a scheduled job that was not
    executed is still listed under one of its dependencies, and no dependency is kept
    without a job that waits for it. *)
Theorem scheduler_exact a c :
  rtc (λ c c', step c = Some c') (start a) c →
  (step c = None → stack c = []) ∧
  NoDup (omap executed_id (trace c)) ∧
  (∀ n ful abd, Executed n ful abd ∈ trace c → ∃ deps, Scheduled n deps ∈ trace c ∧ ful ++ abd ≡ₚ deps ∧
    (∀ d, d ∈ ful → Resolved d true ∈ trace c) ∧ (∀ d, d ∈ abd → Resolved d false ∈ trace c)) ∧
  (∀ d l, dependents (sched c) !! d = Some l → l ≠ [] ∧ ∀ n, n ∈ l → n ∉ omap executed_id (trace c)) ∧
  (stack c = [] → aborted c = false → ∀ n deps, Scheduled n deps ∈ trace c →
    n ∈ omap executed_id (trace c) ∨ ∃ d l, d ∈ deps ∧ dependents (sched c) !! d = Some l ∧ n ∈ l).
Proof.
  intros Hr. pose proof (cinv_reachable _ _ (cinv_start a) Hr) as Hc. pose proof (shape_reachable (start a) c (Forall_nil_2 suspended) Hr) as Hsh.
  pose proof Hc as [Hi _]. split; [by apply step_progress|]. split; [apply Hi|]. split; [|split].
  - intros n ful abd (j & Hj & Hz & -> & ->)%(inv_exec _ _ _ _ Hi).
    destruct (proj2 (inv_scheduled _ _ _ _ Hi n)) as [deps Hd]; [by apply lookup_lt_Some in Hj|]. exists deps. split; [done|].
    destruct (inv_job _ _ _ _ Hi n j deps Hj Hd) as (_ & Hu & lost & Hl & _). split; [|split; intros d; by apply (inv_resolved _ _ _ _ Hi n j d Hj)].
    assert (waiting n (pairs c) ++ lost = []) as He.
    { apply nil_length_inv. rewrite <- Hl, length_app in Hu. lia. }
    by rewrite He, app_nil_r in Hl.
  - intros d l Hl. split; [by apply (inv_nonempty _ _ _ _ Hi d)|]. intros n Hn. apply (waiting_unexecuted _ _ _ _ d n Hi).
    apply elem_of_app. left. apply map_pairs_elem. by exists l.
  - intros Hst Hab n deps Hd. destruct (lookup_lt_is_Some_2 (jobs_heap (sched c)) n) as [j Hj]; [apply (inv_scheduled _ _ _ _ Hi); by exists deps|].
    destruct (inv_job _ _ _ _ Hi n j deps Hj Hd) as (_ & Hu & lost & Hl & Hlost). rewrite (Hlost Hab), app_nil_r in Hl.
    unfold pairs in Hl. rewrite Hst in Hl. simpl in Hl. rewrite app_nil_r in Hl.
    destruct (waiting n (map_pairs (dependents (sched c)))) as [|d w] eqn:Hw.
    + left. apply list_elem_of_omap. exists (Executed n (fulfilled j) (abandoned j)). split; [|done]. apply (inv_exec _ _ _ _ Hi). exists j.
      rewrite <- Hl, app_nil_r in Hu. split; [done|]. split; [lia|done].
    + right. assert ((d, n) ∈ map_pairs (dependents (sched c))) as (l & Hdl & Hn)%map_pairs_elem by (apply waiting_elem; rewrite Hw; by left).
      exists d, l. split; [|done]. rewrite <- Hl. apply elem_of_app. right. by left.
Qed.
End Scheduler.

(** ** A program *)

(** Job [1] fulfils dependency [2] when it runs, job [2] fails if a dependency was
    abandoned, other jobs do nothing. *)
Definition demo_execute (j : Z) (ful ab : list Z) : code (T := Z) (J := Z) (Err := Z) :=
  match j with
  | 1 => CallFulfill 2 Return
  | 2 => Return (match ab with [] => None | _ => Some 7 end)
  | _ => Return None
  end.

(** Jobs [1], [2] and [3] wait for dependencies among 1, 2 and 3, of which 1 is
    fulfilled by the program and 2 by job [1]. *)
Definition demo_program : code (T := Z) (J := Z) (Err := Z) :=
  CallSchedule 1 [1] (λ _, CallSchedule 2 [1; 2] (λ _, CallSchedule 3 [2; 3] (λ _, CallFulfill 1 Return))).

(** [n] steps of the machine. *)
Fixpoint run_steps {T : Type} `{Countable T} {J Err : Type} (Execute : J → list T → list T → code) (n : nat) (c : config (Err := Err)) : config :=
  match n with 0%nat => c | S n => match step Execute c with Some c' => run_steps Execute n c' | None => c end end.

Lemma run_steps_rtc {T : Type} `{Countable T} {J Err : Type} (Execute : J → list T → list T → code) n (c : config (Err := Err)) :
  rtc (λ c c', step Execute c = Some c') c (run_steps Execute n c).
Proof.
  revert c. induction n as [|n IH]; intros c; simpl; [constructor|]. destruct (step Execute c) eqn:E; [|constructor].
  by eapply rtc_l; [exact E|].
Qed.

Definition demo_end : config (T := Z) (J := Z) (Err := Z) := run_steps demo_execute 40 (start demo_program).

(** The program returns; the first two jobs have run, the third waits for 3. *)
Lemma scheduler_exact_witness :
  stack demo_end = [] ∧ aborted demo_end = false ∧
  trace demo_end = [Scheduled 0 [1]; Scheduled 1 [1; 2]; Scheduled 2 [2; 3]; Resolved 1 true; Executed 0 [1] []; Resolved 2 true; Executed 1 [2; 1] []] ∧
  ∃ d l, d ∈ [2; 3] ∧ dependents (sched demo_end) !! d = Some l ∧ 2%nat ∈ l.
Proof.
  split; [by vm_compute|]. split; [by vm_compute|]. split; [by vm_compute|].
  destruct (scheduler_exact demo_execute demo_program demo_end (run_steps_rtc demo_execute 40 _)) as (_ & _ & _ & _ & Hend).
  destruct (Hend ltac:(by vm_compute) ltac:(by vm_compute) 2%nat [2; 3]) as [Hx|Hx]; [| |exact Hx].
  - vm_compute. repeat constructor.
  - exfalso. revert Hx. vm_compute. intros Hx. repeat (inversion Hx as [|? ? ? Hx']; clear Hx; subst; rename Hx' into Hx).
Defined.
