(* ===== verification/BiMap.v ===== *)
(** * Maps with an inverse (package [utils/bimap])

    [bimap.go]: a one-to-one map kept as two maps.  JSON is left out. *)
From S2P Require Import Prelude.

Record BiMap (K V : Type) `{Countable K, Countable V} : Type := mkBiMap {
  keyToValue : gmap K V;
  valueToKey : gmap V K;
}.
Arguments mkBiMap {K V _ _ _ _} _ _.
Arguments keyToValue {K V _ _ _ _} _.
Arguments valueToKey {K V _ _ _ _} _.

Section BiMap.
Context {K V : Type} `{Countable K, Countable V}.

Definition bm_New : BiMap K V := mkBiMap ∅ ∅.

Definition GetKey (m : BiMap K V) (val : V) : option K := valueToKey m !! val.
Definition GetValue (m : BiMap K V) (key : K) : option V := keyToValue m !! key.
Definition HasKey (m : BiMap K V) (key : K) : bool := bool_decide (is_Some (keyToValue m !! key)).
Definition HasValue (m : BiMap K V) (val : V) : bool := bool_decide (is_Some (valueToKey m !! val)).

(** [DeleteKey] and [DeleteValue] return what they removed. *)
Definition DeleteKey (m : BiMap K V) (key : K) : BiMap K V * option V :=
  match keyToValue m !! key with
  | None => (m, None)
  | Some val => (mkBiMap (delete key (keyToValue m)) (delete val (valueToKey m)), Some val)
  end.

Definition DeleteValue (m : BiMap K V) (val : V) : BiMap K V * option K :=
  match valueToKey m !! val with
  | None => (m, None)
  | Some key => (mkBiMap (delete key (keyToValue m)) (delete val (valueToKey m)), Some key)
  end.

(** [Put] returns the entries it removed. *)
Definition bm_Put (m : BiMap K V) (key : K) (val : V) : BiMap K V * list (K * V) :=
  let '(m, oldVal) := DeleteKey m key in
  let removed := match oldVal with Some oldVal => [(key, oldVal)] | None => [] end in
  let '(m, oldKey) := DeleteValue m val in
  let removed := match oldKey with Some oldKey => removed ++ [(oldKey, val)] | None => removed end in
  (mkBiMap (<[key := val]> (keyToValue m)) (<[val := key]> (valueToKey m)), removed).

Definition bm_Len (m : BiMap K V) : Z := Z.of_nat (size (keyToValue m)).

(** ** The two maps are inverse *)

Definition bijective (m : BiMap K V) : Prop := ∀ k v, keyToValue m !! k = Some v ↔ valueToKey m !! v = Some k.

Lemma New_bijective : bijective bm_New.
Proof. intros k v. simpl. by rewrite !lookup_empty. Qed.

Lemma delete_bijective m k v :
  bijective m → keyToValue m !! k = Some v → bijective (mkBiMap (delete k (keyToValue m)) (delete v (valueToKey m))).
Proof.
  intros Hm Hk k' v'. simpl. rewrite !lookup_delete_Some, (Hm k' v'). pose proof Hk as Hv. apply Hm in Hv. split; intros [Hne Hk']; (split; [|done]); intros ->.
  - rewrite Hv in Hk'. congruence.
  - apply Hm in Hk'. congruence.
Qed.

Lemma DeleteKey_bijective m k : bijective m → bijective (DeleteKey m k).1 ∧ keyToValue (DeleteKey m k).1 = delete k (keyToValue m).
Proof.
  intros Hm. unfold DeleteKey. destruct (keyToValue m !! k) as [v|] eqn:Hk; simpl; [split; [by apply delete_bijective|done]|]. split; [done|]. by rewrite delete_id.
Qed.

Lemma DeleteValue_bijective m v :
  bijective m → bijective (DeleteValue m v).1 ∧ valueToKey (DeleteValue m v).1 = delete v (valueToKey m) ∧
    ∀ k v', keyToValue (DeleteValue m v).1 !! k = Some v' ↔ keyToValue m !! k = Some v' ∧ v' ≠ v.
Proof.
  intros Hm. unfold DeleteValue. destruct (valueToKey m !! v) as [k|] eqn:Hv; simpl.
  - pose proof Hv as Hk. apply Hm in Hk. split; [by apply delete_bijective|]. split; [done|]. intros k' v'. rewrite lookup_delete_Some. split.
    + intros [Hne Hk']. split; [done|]. intros ->. apply Hm in Hk'. congruence.
    + intros [Hk' Hne]. split; [|done]. intros ->. congruence.
  - split; [done|]. split; [by rewrite delete_id|]. intros k' v'. split; [|by intros [? _]]. intros Hk'. split; [done|]. intros ->. apply Hm in Hk'. congruence.
Qed.

(** [Put] keeps the map one-to-one: it holds the new entry and the old ones with
    another key and another value. *)
Lemma Put_bijective m k v :
  bijective m → bijective (bm_Put m k v).1 ∧
  ∀ k' v', keyToValue (bm_Put m k v).1 !! k' = Some v' ↔ (k' = k ∧ v' = v) ∨ (keyToValue m !! k' = Some v' ∧ k' ≠ k ∧ v' ≠ v).
Proof.
  intros Hm. unfold bm_Put. destruct (DeleteKey m k) as [m1 old1] eqn:H1. destruct (DeleteKey_bijective m k Hm) as [Hm1 Hk1]. rewrite H1 in Hm1, Hk1. simpl in *.
  destruct (DeleteValue m1 v) as [m2 old2] eqn:H2. destruct (DeleteValue_bijective m1 v Hm1) as (Hm2 & Hv2 & Hk2). rewrite H2 in Hm2, Hv2, Hk2. simpl in *.
  assert (∀ v', keyToValue m2 !! k ≠ Some v') as Hnew.
  { intros v' [Hv' _]%Hk2. rewrite Hk1, lookup_delete_eq in Hv'. done. }
  split.
  - intros k' v'. simpl. rewrite !lookup_insert_Some, (Hm2 k' v'). split.
    + intros [[-> ->]|[Hne Hv']]; [by left|]. right. split; [|done]. intros ->. by rewrite Hv2, lookup_delete_eq in Hv'.
    + intros [[-> ->]|[Hne Hv']]; [by left|]. right. split; [|done]. intros ->. apply Hm2 in Hv'. by apply Hnew in Hv'.
  - intros k' v'. rewrite lookup_insert_Some, Hk2, Hk1, lookup_delete_Some. naive_solver.
Qed.
End BiMap.
