(* ===== verification/Codec.v ===== *)
(** * Encoding Go values by reflection (packages [codec] and [codec/reflectcodec])

    [type_codec.go] and [struct_fielder.go]: a value of any supported type is
    marshaled into a packer and unmarshaled from one, by recursion over its type.
    Types are data: the struct types, which may be recursive, are names in an
    environment, and so are the interfaces with the types that implement them.  A
    nil slice or map is an empty one, and the fields of a struct that are not
    serialized are neither read nor written; an unmarshaled struct has [VKeep] in
    their place.  Unmarshaling panics where Go does: on an array of a named byte type,
    whose slice is not a [[]byte], and on a key of a map that cannot be hashed. *)
From stdpp Require Import countable sorting strings.
From S2P Require Import Prelude Bytes Packer.

(** ** Types and values *)

(** [TNamed n t] is the type named [n] with the underlying type [t]; [TOther] is a
    type of a kind that is not supported. *)
Inductive ty : Type :=
| TUint8
| TInt8
| TUint16
| TInt16
| TUint32
| TInt32
| TUint64
| TInt64
| TBool
| TString
| TPtr (t : ty)
| TInterface (i : Z)
| TSlice (t : ty)
| TArray (n : nat) (t : ty)
| TStruct (s : Z)
| TMap (k v : ty)
| TNamed (n : Z) (t : ty)
| TOther (n : Z).

#[global] Instance ty_eq_dec : EqDecision ty.
Proof. solve_decision. Defined.

Fixpoint ty_tree (t : ty) : gen_tree (nat * Z) :=
  match t with
  | TUint8 => GenLeaf (0%nat, 0)
  | TInt8 => GenLeaf (1%nat, 0)
  | TUint16 => GenLeaf (2%nat, 0)
  | TInt16 => GenLeaf (3%nat, 0)
  | TUint32 => GenLeaf (4%nat, 0)
  | TInt32 => GenLeaf (5%nat, 0)
  | TUint64 => GenLeaf (6%nat, 0)
  | TInt64 => GenLeaf (7%nat, 0)
  | TBool => GenLeaf (8%nat, 0)
  | TString => GenLeaf (9%nat, 0)
  | TPtr t => GenNode 0 [ty_tree t]
  | TInterface i => GenLeaf (10%nat, i)
  | TSlice t => GenNode 1 [ty_tree t]
  | TArray n t => GenNode (4 + n) [ty_tree t]
  | TStruct s => GenLeaf (11%nat, s)
  | TMap k v => GenNode 2 [ty_tree k; ty_tree v]
  | TNamed n t => GenNode 3 [GenLeaf (0%nat, n); ty_tree t]
  | TOther n => GenLeaf (12%nat, n)
  end.

Fixpoint tree_ty (t : gen_tree (nat * Z)) : ty :=
  match t with
  | GenLeaf (0%nat, _) => TUint8
  | GenLeaf (1%nat, _) => TInt8
  | GenLeaf (2%nat, _) => TUint16
  | GenLeaf (3%nat, _) => TInt16
  | GenLeaf (4%nat, _) => TUint32
  | GenLeaf (5%nat, _) => TInt32
  | GenLeaf (6%nat, _) => TUint64
  | GenLeaf (7%nat, _) => TInt64
  | GenLeaf (8%nat, _) => TBool
  | GenLeaf (9%nat, _) => TString
  | GenLeaf (10%nat, i) => TInterface i
  | GenLeaf (11%nat, s) => TStruct s
  | GenLeaf (_, n) => TOther n
  | GenNode 0%nat [t] => TPtr (tree_ty t)
  | GenNode 1%nat [t] => TSlice (tree_ty t)
  | GenNode 2%nat [k; v] => TMap (tree_ty k) (tree_ty v)
  | GenNode 3%nat [GenLeaf (_, n); t] => TNamed n (tree_ty t)
  | GenNode (S (S (S (S n)))) [t] => TArray n (tree_ty t)
  | GenNode _ _ => TOther 0
  end.

#[global] Instance ty_countable : Countable ty.
Proof. apply (inj_countable' ty_tree tree_ty). intros t. induction t; simpl; congruence. Defined.

Fixpoint underlying (t : ty) : ty := match t with TNamed _ t => underlying t | _ => t end.

Inductive val : Type :=
| VNum (n : Z)
| VBool (b : bool)
| VString (s : bytes)
| VPtr (v : option val)
| VInterface (v : option (ty * val))
| VSlice (vs : list val)
| VArray (vs : list val)
| VStruct (vs : list val)
| VMap (kvs : list (val * val))
| VKeep.

(** The number of a [VNum], as a byte of a slice of bytes. *)
Definition num (v : val) : Z := match v with VNum n => n | _ => 0 end.

(** A field of a struct type with its tag. *)
Record field : Type := mkField {
  f_type : ty;
  f_tag : list (string * string);
  f_exported : bool;
}.

Inductive codec_error : Type :=
| ErrMarshalNil
| ErrUnmarshalNil
| errNeedPointer
| errRecursiveInterfaceTypes
| ErrUnsupportedType
| ErrMaxSliceLenExceeded
| ErrDoesNotImplementInterface
| ErrUnexportedField
| ErrMarshalZeroLength
| ErrUnmarshalZeroLength
| ErrUnregisteredType
| ErrUnknownTypeID
| ErrKeysNotSorted
| PackErr (e : pack_error)
| OutOfFuel.

Definition MaxInt32 : Z := 2 ^ 31 - 1.

(** ** Steps on a packer *)

#[global] Existing Instances PM_ret PM_bind.

Definition get_Err : PM (option pack_error) := λ p, Some (pk_Err p, p).
Definition get_Offset : PM Z := λ p, Some (pk_Offset p, p).
Definition set_Offset (off : Z) : PM unit := λ p, Some (tt, mkPacker (pk_Err p) (pk_MaxSize p) (pk_backing p) (pk_len p) off).
Definition get_packer : PM Packer := λ p, Some (p, p).

(** [Bytes[a:b]] *)
Definition slice (bs : bytes) (a b : Z) : bytes := take (Z.to_nat (b - a)) (drop (Z.to_nat a) bs).

(** A step that ends in [return p.Err], and [if err := m1; err != nil] before [m2]. *)
Definition packed (op : PM unit) : PM (option codec_error) := _ ← op; e ← get_Err; mret (PackErr <$> e).
Definition and_then (m1 m2 : PM (option codec_error)) : PM (option codec_error) :=
  e ← m1; match e with Some e => mret (Some e) | None => m2 end.

(** The interface [TypeCodec]. *)
Class TypeCodec : Type := {
  PackPrefix : (Z → Z → Z) → ty → PM (option codec_error);
  UnpackPrefix : Z → PM (result ty codec_error);
  PrefixSize : ty → Z;
}.

Section Codec.
(** Like the fields of the structs, [comparable] belongs to the declared types: it tells
    the types whose values the language can compare ([Type.Comparable]). *)
Context (grow : Z → Z → Z) (struct_of : Z → list field) (tags : list string) (comparable : ty → bool) `{TC : TypeCodec}.

(** ** Fields ([struct_fielder.go]; its cache is left out) *)

Definition TagValue : string := "true".

(** [Tag.Get] *)
Fixpoint tag_get (tag : list (string * string)) (key : string) : string :=
  match tag with
  | [] => ""
  | (k, v) :: tag => if String.eqb k key then v else tag_get tag key
  end.

Definition captured (f : field) : bool := existsb (λ tag, String.eqb (tag_get (f_tag f) tag) TagValue) tags.

Fixpoint fields_loop (i : nat) (fs : list field) : result (list nat) codec_error :=
  match fs with
  | [] => Ok []
  | f :: fs =>
      if negb (captured f) then fields_loop (S i) fs
      else if negb (f_exported f) then Err ErrUnexportedField
      else match fields_loop (S i) fs with Ok l => Ok (i :: l) | Err e => Err e end
  end.

Definition GetSerializedFields (s : Z) : result (list nat) codec_error := fields_loop 0 (struct_of s).

(** ** Marshaling *)

Definition marshaler : Type := PM (option codec_error).

(** The loop over the elements of an array or the fields of a struct. *)
Fixpoint marshal_seq (ms : list marshaler) : marshaler :=
  match ms with [] => mret None | m :: ms => and_then m (marshal_seq ms) end.

(** The loop over the elements of a slice. *)
Definition nonzero (m : marshaler) : marshaler :=
  startOffset ← get_Offset;
  and_then m (offset ← get_Offset; mret (if startOffset =? offset then Some ErrMarshalZeroLength else None)).
Definition marshal_elems (ms : list marshaler) : marshaler := marshal_seq (map nonzero ms).

Definition marshal_slice (elem : ty) (vs : list val) (ms : list marshaler) : marshaler :=
  let numElts := Z.of_nat (length vs) in
  if MaxInt32 <? numElts then mret (Some ErrMaxSliceLenExceeded) else
  and_then (packed (PackInt grow (numElts mod 2 ^ 32)))
    (if numElts =? 0 then mret None
     else if decide (underlying elem = TUint8) then packed (PackFixedBytes grow (map num vs))
     else marshal_elems ms).

(** A marshaled key of a map: where its bytes are, and how to marshal its value. *)
Record keyTuple : Type := mkKeyTuple {
  startIndex : Z;
  endIndex : Z;
  kt_value : marshaler;
}.

(** The loop that marshals the keys. *)
Fixpoint marshal_keys (kvs : list (marshaler * marshaler)) (endOffset : Z) : PM (result (list keyTuple) codec_error) :=
  match kvs with
  | [] => mret (Ok [])
  | (mk, mv) :: kvs =>
      e ← mk;
      match e with
      | Some e => mret (Err e)
      | None =>
          pe ← get_Err;
          match pe with
          | Some pe => mret (Err (PackErr pe))
          | None =>
              off ← get_Offset;
              r ← marshal_keys kvs off;
              mret (match r with Ok l => Ok (mkKeyTuple endOffset off mv :: l) | Err e => Err e end)
          end
      end
  end.

(** The bytes of the keys sort them. *)
Definition key_le (bs : bytes) (a b : keyTuple) : Prop :=
  ble (slice bs (startIndex a) (endIndex a)) (slice bs (startIndex b) (endIndex b)).
#[global] Instance key_le_dec bs a b : Decision (key_le bs a b).
Proof. unfold key_le. apply _. Defined.

(** The pairs in the order of the keys. *)
Definition marshal_entry (allKeyBytes : bytes) (startOffset : Z) (key : keyTuple) : marshaler :=
  nonzero (and_then (packed (PackFixedBytes grow (slice allKeyBytes (startIndex key - startOffset) (endIndex key - startOffset))))
             (kt_value key)).

Definition marshal_map (kvs : list (marshaler * marshaler)) : marshaler :=
  let numElts := Z.of_nat (length kvs) in
  if MaxInt32 <? numElts then mret (Some ErrMaxSliceLenExceeded) else
  and_then (packed (PackInt grow (numElts mod 2 ^ 32)))
    (startOffset ← get_Offset;
     r ← marshal_keys kvs startOffset;
     match r with
     | Err e => mret (Some e)
     | Ok keys =>
         p ← get_packer;
         let sortedKeys := merge_sort (key_le (pk_Bytes p)) keys in
         let allKeyBytes := slice (pk_Bytes p) startOffset (pk_Offset p) in
         _ ← set_Offset startOffset;
         marshal_seq (map (marshal_entry allKeyBytes startOffset) sortedKeys)
     end).

(** The serialized fields of a struct. *)
Definition marshal_fields (s : Z) (ms : list (ty → marshaler)) : marshaler :=
  match GetSerializedFields s with
  | Err e => mret (Some e)
  | Ok idx =>
      match mapM (λ i, m ← ms !! i; f ← struct_of s !! i; Some (m (f_type f))) idx with
      | None => λ _, None
      | Some l => marshal_seq l
      end
  end.

(** [marshal]; [typeStack] holds the types of the interfaces around the value.  The
    shortcut for arrays of bytes is never taken, as it tests the kind of the array.
    A value that is not of its type does not exist. *)
Fixpoint marshal (value : val) (t : ty) (typeStack : list ty) : marshaler :=
  match underlying t, value with
  | TUint8, VNum n => packed (PackByte grow n)
  | TInt8, VNum n => packed (PackByte grow (n mod 2 ^ 8))
  | TUint16, VNum n => packed (PackShort grow n)
  | TInt16, VNum n => packed (PackShort grow (n mod 2 ^ 16))
  | TUint32, VNum n => packed (PackInt grow n)
  | TInt32, VNum n => packed (PackInt grow (n mod 2 ^ 32))
  | TUint64, VNum n => packed (PackLong grow n)
  | TInt64, VNum n => packed (PackLong grow (n mod 2 ^ 64))
  | TString, VString s => packed (PackStr grow s)
  | TBool, VBool b => packed (PackBool grow b)
  | TPtr _, VPtr None => mret (Some ErrMarshalNil)
  | TPtr t, VPtr (Some v) => marshal v t typeStack
  | TInterface _, VInterface None => mret (Some ErrMarshalNil)
  | TInterface _, VInterface (Some (underlyingType, v)) =>
      if decide (underlyingType ∈ typeStack) then mret (Some errRecursiveInterfaceTypes) else
      and_then (PackPrefix grow underlyingType) (and_then (marshal v underlyingType (underlyingType :: typeStack)) (packed (mret tt)))
  | TSlice elem, VSlice vs => marshal_slice elem vs (map (λ v, marshal v elem typeStack) vs)
  | TArray _ elem, VArray vs => marshal_seq (map (λ v, marshal v elem typeStack) vs)
  | TStruct s, VStruct vs => marshal_fields s (map (λ v t, marshal v t typeStack) vs)
  | TMap tk tv, VMap kvs => marshal_map (map (λ '(k, v), (marshal k tk typeStack, marshal v tv typeStack)) kvs)
  | TOther _, _ => mret (Some ErrUnsupportedType)
  | _, _ => λ _, None
  end.

(** [MarshalInto]; the value is nil or has a type. *)
Definition MarshalInto (value : option (ty * val)) : marshaler :=
  match value with
  | None => mret (Some ErrMarshalNil)
  | Some (t, v) => marshal v t []
  end.

(** ** Sizes *)

(** A size, and whether all values of the type have it. *)
Definition sizer : Type := result (Z * bool) codec_error.

(** The sum of sizes. *)
Fixpoint size_sum (total : Z) (ss : list sizer) : result Z codec_error :=
  match ss with
  | [] => Ok total
  | Ok (n, _) :: ss => size_sum (total + n) ss
  | Err e :: _ => Err e
  end.

Definition size_slice (ss : list sizer) : sizer :=
  match ss with
  | [] => Ok (IntLen, false)
  | Err e :: _ => Err e
  | Ok (size, constSize) :: rest =>
      if size =? 0 then Err ErrMarshalZeroLength
      else if constSize : bool then Ok (IntLen + Z.of_nat (length ss) * size, false)
      else match size_sum size rest with Ok size => Ok (IntLen + size, false) | Err e => Err e end
  end.

Definition size_array (ss : list sizer) : sizer :=
  match ss with
  | [] => Ok (0, true)
  | Err e :: _ => Err e
  | Ok (size, constSize) :: rest =>
      if constSize : bool then Ok (Z.of_nat (length ss) * size, true)
      else match size_sum size rest with Ok size => Ok (size, false) | Err e => Err e end
  end.

(** The loop over the fields of a struct. *)
Fixpoint size_struct (size : Z) (constSize : bool) (ss : list sizer) : sizer :=
  match ss with
  | [] => Ok (size, constSize)
  | Ok (n, c) :: ss => size_struct (size + n) (constSize && c) ss
  | Err e :: _ => Err e
  end.

Definition size_fields (s : Z) (ss : list (ty → sizer)) : option sizer :=
  match GetSerializedFields s with
  | Err e => Some (Err e)
  | Ok idx => l ← mapM (λ i, m ← ss !! i; f ← struct_of s !! i; Some (m (f_type f))) idx; Some (size_struct 0 true l)
  end.

(** The sizes of the keys and values of a map in an order of iteration. *)
Definition size_map (ss : list (sizer * sizer)) : sizer :=
  match ss with
  | [] => Ok (IntLen, false)
  | (Err e, _) :: _ => Err e
  | (Ok _, Err e) :: _ => Err e
  | (Ok (keySize, keyConstSize), Ok (valueSize, valueConstSize)) :: rest =>
      let numElts := Z.of_nat (length ss) in
      if (keySize =? 0) && (valueSize =? 0) then Err ErrMarshalZeroLength
      else match keyConstSize : bool, valueConstSize : bool with
      | true, true => Ok (IntLen + numElts * (keySize + valueSize), false)
      | true, false =>
          match size_sum valueSize (map snd rest) with
          | Ok totalValueSize => Ok (IntLen + numElts * keySize + totalValueSize, false)
          | Err e => Err e
          end
      | false, true =>
          match size_sum keySize (map fst rest) with
          | Ok totalKeySize => Ok (IntLen + totalKeySize + numElts * valueSize, false)
          | Err e => Err e
          end
      | false, false =>
          match size_sum (IntLen + keySize + valueSize) (concat (map (λ '(k, v), [k; v]) rest)) with
          | Ok totalSize => Ok (totalSize, false)
          | Err e => Err e
          end
      end
  end.

(** [size]; a value that is not of its type does not exist. *)
Fixpoint size (value : val) (t : ty) (typeStack : list ty) : sizer :=
  match underlying t, value with
  | TUint8, VNum _ | TInt8, VNum _ => Ok (ByteLen, true)
  | TUint16, VNum _ | TInt16, VNum _ => Ok (ShortLen, true)
  | TUint32, VNum _ | TInt32, VNum _ => Ok (IntLen, true)
  | TUint64, VNum _ | TInt64, VNum _ => Ok (LongLen, true)
  | TBool, VBool _ => Ok (BoolLen, true)
  | TString, VString s => Ok (ShortLen + Z.of_nat (length s), false)
  | TPtr _, VPtr None => Err ErrMarshalNil
  | TPtr t, VPtr (Some v) => size v t typeStack
  | TInterface _, VInterface None => Err ErrMarshalNil
  | TInterface _, VInterface (Some (underlyingType, v)) =>
      if decide (underlyingType ∈ typeStack) then Err errRecursiveInterfaceTypes else
      match size v underlyingType (underlyingType :: typeStack) with
      | Err e => Err e
      | Ok (valueSize, _) => Ok (PrefixSize underlyingType + valueSize, false)
      end
  | TSlice elem, VSlice vs => size_slice (map (λ v, size v elem typeStack) vs)
  | TArray _ elem, VArray vs => size_array (map (λ v, size v elem typeStack) vs)
  | TStruct s, VStruct vs => default (Err ErrUnsupportedType) (size_fields s (map (λ v t, size v t typeStack) vs))
  | TMap tk tv, VMap kvs => size_map (map (λ '(k, v), (size k tk typeStack, size v tv typeStack)) kvs)
  | _, _ => Err ErrUnsupportedType
  end.

(** [Size] *)
Definition Size (value : option (ty * val)) : result Z codec_error :=
  match value with
  | None => Err ErrMarshalNil
  | Some (t, v) => match size v t [] with Ok (n, _) => Ok n | Err e => Err e end
  end.

(** ** Unmarshaling *)

Definition unmarshaler : Type := PM (result val codec_error).

(** A step that returns the value unless the packer has an error. *)
Definition unpacked (v : val) : unmarshaler := e ← get_Err; mret (match e with Some e => Err (PackErr e) | None => Ok v end).

(** The two's complement number of [k] bits. *)
Definition signed (k n : Z) : Z := if n <? 2 ^ (k - 1) then n else n - 2 ^ k.

(** The loops over the elements of an array and of a slice. *)
Fixpoint unmarshal_array (m : unmarshaler) (n : nat) : PM (result (list val) codec_error) :=
  match n with
  | O => mret (Ok [])
  | S n =>
      r ← m;
      match r with
      | Err e => mret (Err e)
      | Ok v => r ← unmarshal_array m n; mret (match r with Ok vs => Ok (v :: vs) | Err e => Err e end)
      end
  end.

Definition unmarshal_nonzero (m : unmarshaler) : unmarshaler :=
  startOffset ← get_Offset;
  r ← m;
  match r with
  | Err e => mret (Err e)
  | Ok v => offset ← get_Offset; mret (if startOffset =? offset then Err ErrUnmarshalZeroLength else Ok v)
  end.

(** The length of a slice or map. *)
Definition unmarshal_length : PM (result Z codec_error) :=
  numElts32 ← UnpackInt;
  e ← get_Err;
  match e with
  | Some e => mret (Err (PackErr e))
  | None => mret (if MaxInt32 <? numElts32 then Err ErrMaxSliceLenExceeded else Ok numElts32)
  end.

Definition unmarshal_slice (elem : ty) (m : unmarshaler) : unmarshaler :=
  r ← unmarshal_length;
  match r with
  | Err e => mret (Err e)
  | Ok numElts =>
      if decide (underlying elem = TUint8) then bs ← UnpackFixedBytes numElts; unpacked (VSlice (VNum <$> bs))
      else r ← unmarshal_array (unmarshal_nonzero m) (Z.to_nat numElts); mret (match r with Ok vs => Ok (VSlice vs) | Err e => Err e end)
  end.

(** Whether an unmarshaled value can be hashed: a value in an interface has a type of its
    own, which must be comparable.  The fields that are not serialized hold zero values,
    which can be hashed. *)
Fixpoint hashable (v : val) (t : ty) : bool :=
  match underlying t, v with
  | TInterface _, VInterface (Some (dt, v)) => comparable dt && hashable v dt
  | TArray _ elem, VArray vs => forallb (λ v, hashable v elem) vs
  | TStruct s, VStruct vs => forallb id (zip_with (λ (h : ty → bool) f, implb (captured f) (h (f_type f))) (map (λ v t, hashable v t) vs) (struct_of s))
  | TSlice _, _ | TMap _ _, _ => false
  | _, _ => true
  end.

(** The loop over the entries of a map, with the bytes of the previous key.
    [SetMapIndex] panics when the key cannot be hashed. *)
Fixpoint unmarshal_entries (tk : ty) (mk mv : unmarshaler) (prevKey : option bytes) (n : nat) : PM (result (list (val * val)) codec_error) :=
  match n with
  | O => mret (Ok [])
  | S n =>
      keyStartOffset ← get_Offset;
      r ← mk;
      match r with
      | Err e => mret (Err e)
      | Ok mapKey =>
          p ← get_packer;
          let keyBytes := slice (pk_Bytes p) keyStartOffset (pk_Offset p) in
          if match prevKey with Some prev => bool_decide (ble keyBytes prev) | None => false end then mret (Err ErrKeysNotSorted) else
          r ← mv;
          match r with
          | Err e => mret (Err e)
          | Ok mapValue =>
              offset ← get_Offset;
              if keyStartOffset =? offset then mret (Err ErrUnmarshalZeroLength) else
              if hashable mapKey tk
              then r ← unmarshal_entries tk mk mv (Some keyBytes) n; mret (match r with Ok kvs => Ok ((mapKey, mapValue) :: kvs) | Err e => Err e end)
              else λ _, None
          end
      end
  end.

(** [SetMapIndex] adds an entry: the bytes of its key differ from those before. *)
Definition unmarshal_map (tk : ty) (mk mv : unmarshaler) : unmarshaler :=
  r ← unmarshal_length;
  match r with
  | Err e => mret (Err e)
  | Ok numElts => r ← unmarshal_entries tk mk mv None (Z.to_nat numElts); mret (match r with Ok kvs => Ok (VMap kvs) | Err e => Err e end)
  end.

(** The loop over the serialized fields, which sets them in [vs]. *)
Fixpoint unmarshal_fields (m : ty → unmarshaler) (fs : list field) (idx : list nat) (vs : list val) : unmarshaler :=
  match idx with
  | [] => mret (Ok (VStruct vs))
  | i :: idx =>
      match fs !! i with
      | None => λ _, None
      | Some f =>
          r ← m (f_type f);
          match r with
          | Err e => mret (Err e)
          | Ok v => unmarshal_fields m fs idx (<[i := v]> vs)
          end
      end
  end.

(** [value.Slice(0, numElts).Interface().([]byte)]: only a slice of [byte] itself is one
    of that type. *)
Definition as_bytes (elem : ty) (v : val) : unmarshaler := if decide (elem = TUint8) then mret (Ok v) else λ _, None.

(** [unmarshal] into a value of type [t]; [fuel] bounds the depth of the recursion. *)
Fixpoint unmarshal (fuel : nat) (t : ty) (typeStack : list ty) : unmarshaler :=
  match fuel with
  | O => mret (Err OutOfFuel)
  | S fuel =>
      match underlying t with
      | TUint8 => n ← UnpackByte; unpacked (VNum n)
      | TInt8 => n ← UnpackByte; unpacked (VNum (signed 8 n))
      | TUint16 => n ← UnpackShort; unpacked (VNum n)
      | TInt16 => n ← UnpackShort; unpacked (VNum (signed 16 n))
      | TUint32 => n ← UnpackInt; unpacked (VNum n)
      | TInt32 => n ← UnpackInt; unpacked (VNum (signed 32 n))
      | TUint64 => n ← UnpackLong; unpacked (VNum n)
      | TInt64 => n ← UnpackLong; unpacked (VNum (signed 64 n))
      | TBool => b ← UnpackBool; unpacked (VBool b)
      | TSlice elem => unmarshal_slice elem (unmarshal fuel elem typeStack)
      | TArray numElts elem =>
          if decide (underlying elem = TUint8) then
            r ← (bs ← UnpackFixedBytes (Z.of_nat numElts); unpacked (VArray (VNum <$> bs)));
            match r with
            | Err e => mret (Err e)
            | Ok v => as_bytes elem v
            end
          else r ← unmarshal_array (unmarshal fuel elem typeStack) numElts; mret (match r with Ok vs => Ok (VArray vs) | Err e => Err e end)
      | TString => s ← UnpackStr; unpacked (VString s)
      | TInterface i =>
          r ← UnpackPrefix i;
          match r with
          | Err e => mret (Err e)
          | Ok intfImplementorType =>
              if decide (intfImplementorType ∈ typeStack) then mret (Err errRecursiveInterfaceTypes) else
              r ← unmarshal fuel intfImplementorType (intfImplementorType :: typeStack);
              mret (match r with Ok v => Ok (VInterface (Some (intfImplementorType, v))) | Err e => Err e end)
          end
      | TStruct s =>
          match GetSerializedFields s with
          | Err e => mret (Err e)
          | Ok idx => unmarshal_fields (λ t, unmarshal fuel t typeStack) (struct_of s) idx (replicate (length (struct_of s)) VKeep)
          end
      | TPtr t => r ← unmarshal fuel t typeStack; mret (match r with Ok v => Ok (VPtr (Some v)) | Err e => Err e end)
      | TMap tk tv => unmarshal_map tk (unmarshal fuel tk typeStack) (unmarshal fuel tv typeStack)
      | TNamed _ _ | TOther _ => mret (Err ErrUnsupportedType)
      end
  end.

(** [UnmarshalFrom]; the destination is nil or has a type. *)
Definition UnmarshalFrom (fuel : nat) (dest : option ty) : unmarshaler :=
  match dest with
  | None => mret (Err ErrUnmarshalNil)
  | Some dest => match underlying dest with TPtr t => unmarshal fuel t [] | _ => mret (Err errNeedPointer) end
  end.
End Codec.
Arguments keyTuple : clear implicits.
