(* ===== verification/CodecEncode.v ===== *)
(** * What marshaling writes (package [codec/reflectcodec])

    The encoding of a value as a plain function, and the proofs that [marshal] writes
    it, also when it overwrites the bytes of the keys of a map to sort them, and that
    [size] is its length although it looks at one element of a type of fixed size. *)
From stdpp Require Import sorting strings.
From S2P Require Import Prelude Bytes Packer Codec.

(** ** Induction on values *)

Section Induction.
Context (P : val → Prop) (HNum : ∀ n, P (VNum n)) (HBool : ∀ b, P (VBool b)) (HString : ∀ s, P (VString s))
  (HPtr : ∀ o, (∀ v, o = Some v → P v) → P (VPtr o)) (HIface : ∀ o, (∀ t v, o = Some (t, v) → P v) → P (VInterface o))
  (HSlice : ∀ vs, Forall P vs → P (VSlice vs)) (HArray : ∀ vs, Forall P vs → P (VArray vs)) (HStruct : ∀ vs, Forall P vs → P (VStruct vs))
  (HMap : ∀ kvs, Forall (λ kv, P kv.1 ∧ P kv.2) kvs → P (VMap kvs)) (HKeep : P VKeep).

Fixpoint val_ind' (v : val) : P v :=
  let list_ind := fix go (vs : list val) : Forall P vs :=
    match vs with [] => Forall_nil_2 P | v :: vs => Forall_cons_2 P v vs (val_ind' v) (go vs) end in
  match v with
  | VNum n => HNum n
  | VBool b => HBool b
  | VString s => HString s
  | VPtr o => HPtr o (match o with None => λ v Hv, match Hv in _ = x return match x with Some _ => P v | None => True end with eq_refl => I end
                      | Some v0 => λ v Hv, match Hv in _ = x return match x with Some v => P v | None => True end with eq_refl => val_ind' v0 end end)
  | VInterface o =>
      HIface o (match o with
                | None => λ t v Hv, match Hv in _ = x return match x with Some _ => P v | None => True end with eq_refl => I end
                | Some (t0, v0) => λ t v Hv, match Hv in _ = x return match x with Some (_, v) => P v | None => True end with eq_refl => val_ind' v0 end
                end)
  | VSlice vs => HSlice vs (list_ind vs)
  | VArray vs => HArray vs (list_ind vs)
  | VStruct vs => HStruct vs (list_ind vs)
  | VMap kvs =>
      HMap kvs ((fix go (kvs : list (val * val)) : Forall (λ kv, P kv.1 ∧ P kv.2) kvs :=
        match kvs with
        | [] => Forall_nil_2 _
        | (k, v) :: kvs => Forall_cons_2 _ (k, v) kvs (conj (val_ind' k) (val_ind' v)) (go kvs)
        end) kvs)
  | VKeep => HKeep
  end.
End Induction.

(** ** Encodings *)

(** Encodings one after another. *)
Definition cat2 (x y : option bytes) : option bytes := a ← x; b ← y; Some (a ++ b).
Definition cat (xs : list (option bytes)) : option bytes := foldr cat2 (Some []) xs.
Definition nonempty (x : option bytes) : option bytes := a ← x; if decide (a = []) then None else Some a.

Definition entry_le (a b : bytes * bytes) : Prop := ble a.1 b.1.
#[global] Instance entry_le_dec a b : Decision (entry_le a b).
Proof. unfold entry_le. apply _. Defined.

(** The entries of a map in the order of their keys. *)
Definition enc_map (xs : list (option bytes * option bytes)) : option bytes :=
  if MaxInt32 <? Z.of_nat (length xs) then None else
  l ← mapM (λ x, a ← x.1; b ← x.2; Some (a, b)) xs;
  cat2 (Some (put_uint 4 (Z.of_nat (length xs)))) (cat (map (λ kv, nonempty (Some (kv.1 ++ kv.2))) (merge_sort entry_le l))).

Definition enc_slice (xs : list (option bytes)) : option bytes :=
  if MaxInt32 <? Z.of_nat (length xs) then None else cat2 (Some (put_uint 4 (Z.of_nat (length xs)))) (cat (map nonempty xs)).

Definition small {A} (l : list A) : Prop := Z.of_nat (length l) < 2 ^ 62.
Definition all (l : list Prop) : Prop := foldr and True l.

Lemma all_map {A} (f : A → Prop) l : all (map f l) ↔ Forall f l.
Proof. induction l as [|x l IH]; simpl; [done|]. rewrite Forall_cons, <- IH. done. Qed.

Section Encoding.
Context (grow : Z → Z → Z) (Hgrow : ∀ cap neededSize, neededSize ≤ grow cap neededSize).
Context (struct_of : Z → list field) (tags : list string) (comparable : ty → bool) (implements : ty → Z → bool) (type_id : ty → option bytes).

(** The serialized fields of a struct, with a function per field. *)
Definition pick {A} (s : Z) (ms : list (ty → A)) : option (list A) :=
  match GetSerializedFields struct_of tags s with
  | Err _ => None
  | Ok idx => mapM (λ i, m ← ms !! i; f ← struct_of s !! i; Some (m (f_type f))) idx
  end.

Fixpoint enc (v : val) (t : ty) (st : list ty) : option bytes :=
  match underlying t, v with
  | TUint8, VNum n => Some [n]
  | TInt8, VNum n => Some [n mod 2 ^ 8]
  | TUint16, VNum n => Some (put_uint 2 n)
  | TInt16, VNum n => Some (put_uint 2 (n mod 2 ^ 16))
  | TUint32, VNum n => Some (put_uint 4 n)
  | TInt32, VNum n => Some (put_uint 4 (n mod 2 ^ 32))
  | TUint64, VNum n => Some (put_uint 8 n)
  | TInt64, VNum n => Some (put_uint 8 (n mod 2 ^ 64))
  | TBool, VBool b => Some [if b then 1 else 0]
  | TString, VString s => if MaxStringLen <? Z.of_nat (length s) then None else Some (put_uint 2 (Z.of_nat (length s)) ++ s)
  | TPtr t, VPtr (Some v) => enc v t st
  | TInterface _, VInterface (Some (dt, v)) => if decide (dt ∈ st) then None else cat2 (type_id dt) (enc v dt (dt :: st))
  | TSlice elem, VSlice vs => enc_slice (map (λ v, enc v elem st) vs)
  | TArray _ elem, VArray vs => cat (map (λ v, enc v elem st) vs)
  | TStruct s, VStruct vs => l ← pick s (map (λ v t, enc v t st) vs); cat l
  | TMap tk tv, VMap kvs => enc_map (map (λ '(k, v), (enc k tk st, enc v tv st)) kvs)
  | _, _ => None
  end.

(** Values of a type.  The keys of a map can be hashed, and they have different
    encodings, so that there is one way to sort them. *)
Fixpoint wf (v : val) (t : ty) (st : list ty) : Prop :=
  match underlying t, v with
  | TUint8, VNum n => 0 ≤ n < 2 ^ 8
  | TInt8, VNum n => - 2 ^ 7 ≤ n < 2 ^ 7
  | TUint16, VNum n => 0 ≤ n < 2 ^ 16
  | TInt16, VNum n => - 2 ^ 15 ≤ n < 2 ^ 15
  | TUint32, VNum n => 0 ≤ n < 2 ^ 32
  | TInt32, VNum n => - 2 ^ 31 ≤ n < 2 ^ 31
  | TUint64, VNum n => 0 ≤ n < 2 ^ 64
  | TInt64, VNum n => - 2 ^ 63 ≤ n < 2 ^ 63
  | TBool, VBool _ => True
  | TString, VString s => Forall is_byte s ∧ small s
  | TPtr t, VPtr o => match o with None => True | Some v => wf v t st end
  | TInterface i, VInterface o => match o with None => True | Some (dt, v) => implements dt i = true ∧ wf v dt (dt :: st) end
  | TSlice elem, VSlice vs => small vs ∧ all (map (λ v, wf v elem st) vs)
  | TArray n elem, VArray vs => length vs = n ∧ all (map (λ v, wf v elem st) vs)
  | TStruct s, VStruct vs =>
      length vs = length (struct_of s) ∧ all (zip_with (λ (P : ty → Prop) f, captured tags f = true → P (f_type f)) (map (λ v t, wf v t st) vs) (struct_of s))
  | TMap tk tv, VMap kvs =>
      small kvs ∧ all (map (λ '(k, v), wf k tk st ∧ wf v tv st) kvs) ∧ NoDup (omap (λ kv, enc kv.1 tk st) kvs) ∧
      Forall (λ kv, hashable struct_of tags comparable kv.1 tk = true) kvs
  | TOther _, _ => True
  | _, _ => False
  end.

(** ** Steps that write *)

(** The step [m] appends the encoding [x] after [pre] if it exists and fits, and
    returns an error otherwise. *)
Definition outcome (p : Packer) (pre : bytes) (x : option bytes) (r : option codec_error) (p' : Packer) : Prop :=
  pk_MaxSize p' = pk_MaxSize p ∧
  match x with
  | Some bs =>
      if Z.of_nat (length (pre ++ bs)) <=? pk_MaxSize p
      then r = None ∧ writes p' (pre ++ bs) ∧ pk_len p' = Z.max (pk_len p) (Z.of_nat (length (pre ++ bs)))
      else r ≠ None
  | None => r ≠ None
  end.

Definition marshals (m : marshaler) (x : option bytes) : Prop :=
  ∀ p pre, writes p pre → pk_MaxSize p < 2 ^ 62 → ∃ r p', m p = Some (r, p') ∧ outcome p pre x r p'.

Lemma marshals_ret : marshals (mret None) (Some []).
Proof.
  intros p pre Hw _. exists None, p. split; [done|]. split; [done|]. rewrite app_nil_r. pose proof (wr_len _ _ Hw). pose proof (wr_size _ _ Hw).
  rewrite (proj2 (Z.leb_le _ _)) by lia. split; [done|]. split; [done|lia].
Qed.

Lemma marshals_err e : marshals (mret (Some e)) None.
Proof. intros p pre Hw _. by exists (Some e), p. Qed.

Lemma marshals_then m1 m2 x y : marshals m1 x → marshals m2 y → marshals (and_then m1 m2) (cat2 x y).
Proof.
  intros H1 H2 p pre Hw Hmax. destruct (H1 p pre Hw Hmax) as (r & p1 & Hm1 & Hs1 & Ho1).
  unfold and_then. unfold mbind at 1, PM_bind. rewrite Hm1. destruct x as [a|]; simpl.
  - destruct (Z.leb_spec (Z.of_nat (length (pre ++ a))) (pk_MaxSize p)) as [Hfit|Hbig].
    + destruct Ho1 as (-> & Hw1 & Hl1). destruct (H2 p1 _ Hw1) as (r2 & p2 & Hm2 & Hs2 & Ho2); [by rewrite Hs1|].
      exists r2, p2. split; [done|]. split; [by rewrite Hs2|]. destruct y as [b|]; simpl; [|done]. rewrite app_assoc, <- Hs1. destruct (_ <=? _); [|done].
      destruct Ho2 as (? & ? & Hl2). split; [done|]. split; [done|]. rewrite Hl2, Hl1. rewrite !length_app. lia.
    + destruct r as [e|]; [|done]. exists (Some e), p1. split; [done|]. split; [done|]. destruct y as [b|]; simpl; [|done].
      rewrite app_assoc, length_app, (proj2 (Z.leb_gt _ _)) by lia. done.
  - destruct r as [e|]; [|done]. by exists (Some e), p1.
Qed.

Lemma marshals_seq ms xs : Forall2 marshals ms xs → marshals (marshal_seq ms) (cat xs).
Proof. induction 1 as [|m x ms xs Hm _ IH]; [apply marshals_ret|]. by apply marshals_then. Qed.

(** Packing bytes, in one or two steps. *)
Lemma marshals_pack bs : small bs → marshals (packed (pack_raw grow bs)) (Some bs).
Proof.
  intros Hsm p pre Hw Hmax. pose proof (wr_len _ _ Hw). pose proof (wr_size _ _ Hw).
  destruct (pack_raw_writes grow Hgrow bs p pre Hw) as (p' & Hp & Hs & Hcase); [unfold small in Hsm; rewrite length_app; lia|].
  unfold packed, mbind, PM_bind. rewrite Hp. simpl. eexists _, p'. split; [done|]. split; [done|].
  destruct (_ <=? _); [destruct Hcase as [Hw' ?]; by rewrite (wr_err _ _ Hw')|by rewrite Hcase].
Qed.

Lemma marshals_pack2 a b : small a → small b → marshals (packed (_ ← pack_raw grow a; pack_raw grow b)) (Some (a ++ b)).
Proof.
  intros Ha Hb p pre Hw Hmax. pose proof (wr_len _ _ Hw). pose proof (wr_size _ _ Hw). unfold small in *.
  destruct (pack_raw_writes grow Hgrow a p pre Hw) as (p1 & Hp1 & Hs1 & Hcase); [rewrite length_app; lia|].
  unfold packed, mbind, PM_bind. rewrite Hp1. destruct (Z.leb_spec (Z.of_nat (length (pre ++ a))) (pk_MaxSize p)) as [Hfit|Hbig].
  - destruct Hcase as [Hw1 Hl1]. destruct (pack_raw_writes grow Hgrow b p1 _ Hw1) as (p2 & Hp2 & Hs2 & Hcase); [rewrite length_app; lia|].
    rewrite Hp2. simpl. eexists _, p2. split; [done|]. split; [congruence|]. rewrite app_assoc. rewrite Hs1 in Hcase.
    destruct (_ <=? _); [|by rewrite Hcase]. destruct Hcase as [Hw2 Hl2]. rewrite (wr_err _ _ Hw2). split; [done|]. split; [done|].
    rewrite Hl2, Hl1, !length_app. lia.
  - destruct (pack_raw_errored grow b p1) as (p2 & Hp2 & He & Hs2); [congruence|]. rewrite Hp2. simpl. eexists _, p2. split; [done|]. split; [congruence|].
    rewrite app_assoc, length_app, (proj2 (Z.leb_gt _ _)) by lia. by destruct (pk_Err p2).
Qed.

Lemma marshals_nonzero m x : marshals m x → marshals (nonzero m) (nonempty x).
Proof.
  intros Hm p pre Hw Hmax. destruct (Hm p pre Hw Hmax) as (r & p1 & Hm1 & Hs1 & Ho1). pose proof (wr_offset _ _ Hw) as Hoff.
  unfold nonzero, and_then, mbind, PM_bind, get_Offset. rewrite Hm1. destruct x as [a|]; simpl.
  - destruct (Z.leb_spec (Z.of_nat (length (pre ++ a))) (pk_MaxSize p)) as [Hfit|Hbig].
    + destruct Ho1 as (-> & Hw1 & Hl1). pose proof (wr_offset _ _ Hw1) as Hoff1. simpl. eexists _, p1. split; [done|]. split; [done|].
      rewrite Hoff, Hoff1, length_app. destruct (decide (a = [])) as [->|Hne].
      * by rewrite (proj2 (Z.eqb_eq _ _)) by (simpl; lia).
      * rewrite (proj2 (Z.leb_le _ _)) by done. rewrite <- length_app. rewrite (proj2 (Z.eqb_neq _ _)); [done|].
        destruct a; [done|]. rewrite length_app. simpl. lia.
    + destruct r as [e|]; [|done]. exists (Some e), p1. split; [done|]. split; [done|]. destruct (decide (a = [])); [done|].
      by rewrite (proj2 (Z.leb_gt _ _)) by lia.
  - destruct r as [e|]; [|done]. by exists (Some e), p1.
Qed.

Lemma marshals_elems ms xs : Forall2 marshals ms xs → marshals (marshal_elems ms) (cat (map nonempty xs)).
Proof.
  intros Hms. apply marshals_seq. induction Hms; simpl; constructor; [by apply marshals_nonzero|done].
Qed.

Lemma cat_bytes vs : cat (map nonempty (map (λ v, Some [num v]) vs)) = Some (map num vs).
Proof. induction vs as [|v vs IH]; [done|]. unfold cat in *. simpl. by rewrite IH. Qed.

Lemma small_put k n : small (put_uint k n) ↔ Z.of_nat k < 2 ^ 62.
Proof. unfold small. by rewrite put_uint_length. Qed.

Lemma marshals_length n : 0 ≤ n → n ≤ MaxInt32 → marshals (packed (PackInt grow (n mod 2 ^ 32))) (Some (put_uint 4 n)).
Proof. intros H0 Hn. unfold MaxInt32 in Hn. rewrite Z.mod_small by lia. apply (marshals_pack (put_uint 4 n)). apply small_put. lia. Qed.

Lemma marshals_slice elem vs ms xs :
  small vs → Forall2 marshals ms xs → length vs = length xs → (underlying elem = TUint8 → xs = map (λ v, Some [num v]) vs) →
  marshals (marshal_slice grow elem vs ms) (enc_slice xs).
Proof.
  intros Hsm Hms Hlen Hbytes. unfold marshal_slice, enc_slice. rewrite <- Hlen.
  destruct (Z.ltb_spec MaxInt32 (Z.of_nat (length vs))) as [Hbig|Hok]; [apply marshals_err|].
  apply marshals_then; [apply marshals_length; lia|].
  destruct (Z.eqb_spec (Z.of_nat (length vs)) 0) as [H0|_].
  { destruct xs; [|simpl in Hlen; lia]. apply marshals_ret. }
  destruct (decide (underlying elem = TUint8)) as [He|_]; [|by apply marshals_elems].
  rewrite (Hbytes He), cat_bytes. apply (marshals_pack (map num vs)). unfold small in *. by rewrite length_map.
Qed.

(** ** Maps *)

Lemma sort_entries (l l' : list (bytes * bytes)) :
  NoDup (map fst l) → l' ≡ₚ l → StronglySorted entry_le l' → merge_sort entry_le l = l'.
Proof.
  intros Hnd Hp Hs. apply (StronglySorted_unique_strong entry_le).
  - intros x y Hx Hy Hxy Hyx. rewrite merge_sort_Permutation in Hx. rewrite Hp in Hy. unfold entry_le in *.
    assert (x.1 = y.1) as Heq by (by apply (anti_symm ble)). apply list_elem_of_lookup in Hx as [i Hi]. apply list_elem_of_lookup in Hy as [j Hj].
    assert (i = j) as -> by (apply (NoDup_lookup _ _ _ x.1 Hnd); change (map fst l) with (fst <$> l); rewrite list_lookup_fmap, ?Hi, ?Hj; simpl; congruence).
    congruence.
  - apply StronglySorted_merge_sort.
    + intros a b c. unfold entry_le. apply transitivity.
    + intros a b. unfold entry_le. apply total, _.
  - done.
  - by rewrite merge_sort_Permutation, Hp.
Qed.

Lemma slice_shift bs o a b e : 0 ≤ o ≤ a → a ≤ b → b ≤ e → slice (slice bs o e) (a - o) (b - o) = slice bs a b.
Proof.
  intros Ho Hab Hbe. unfold slice. rewrite skipn_firstn_comm, take_take, drop_drop. f_equal; [lia|f_equal; lia].
Qed.

Lemma slice_mid pre k rest : slice (pre ++ k ++ rest) (Z.of_nat (length pre)) (Z.of_nat (length (pre ++ k))) = k.
Proof.
  unfold slice. rewrite length_app, Nat2Z.id, drop_app_length. replace (Z.to_nat _) with (length k) by lia. apply take_app_length.
Qed.

(** A key at its place in the bytes [B] after [lo], with the encoding of its value. *)
Record placed (B : bytes) (lo hi : Z) (t : keyTuple) (kx : bytes * option bytes) : Prop := {
  pl_bytes : slice B (startIndex t) (endIndex t) = kx.1;
  pl_range : lo ≤ startIndex t ∧ startIndex t ≤ endIndex t ∧ endIndex t ≤ hi;
  pl_value : marshals (kt_value t) kx.2;
}.

Definition entries_ok (kvs : list (marshaler * marshaler)) (xs : list (option bytes * option bytes)) : Prop :=
  Forall2 (λ m x, marshals m.1 x.1 ∧ marshals m.2 x.2) kvs xs.

Lemma marshal_keys_spec kvs xs p pre :
  entries_ok kvs xs → writes p pre → pk_MaxSize p < 2 ^ 62 →
  ∃ r p', marshal_keys kvs (pk_Offset p) p = Some (r, p') ∧ pk_MaxSize p' = pk_MaxSize p ∧
    match mapM fst xs with
    | Some ks =>
        if Z.of_nat (length (pre ++ concat ks)) <=? pk_MaxSize p then
          ∃ keys, r = Ok keys ∧ writes p' (pre ++ concat ks) ∧ pk_len p' = Z.max (pk_len p) (Z.of_nat (length (pre ++ concat ks))) ∧
            ∀ rest, Forall2 (placed (pre ++ concat ks ++ rest) (Z.of_nat (length pre)) (Z.of_nat (length (pre ++ concat ks)))) keys (zip ks (map snd xs))
        else ∃ e, r = Err e
    | None => ∃ e, r = Err e
    end.
Proof.
  intros Hxs. revert p pre. induction Hxs as [|[mk mv] [x y] kvs xs [Hk Hv] _ IH]; intros p pre Hw Hmax; simpl.
  { exists (Ok []), p. split; [done|]. split; [done|]. rewrite app_nil_r. pose proof (wr_len _ _ Hw). pose proof (wr_size _ _ Hw).
    rewrite (proj2 (Z.leb_le _ _)) by lia. exists []. split; [done|]. split; [done|]. split; [lia|]. constructor. }
  simpl in Hk, Hv. unfold mbind, PM_bind, get_Err, get_Offset. destruct (Hk p pre Hw Hmax) as (r & p1 & Hm1 & Hs1 & Ho1). rewrite Hm1.
  destruct x as [k|]; simpl; [|destruct r as [e|]; [|done]; eexists _, p1; split; [done|]; split; [done|]; by eexists].
  assert (∀ ks, pre ++ k ++ concat ks = (pre ++ k) ++ concat ks) as Hassoc by (intros; by rewrite app_assoc).
  destruct (Z.leb_spec (Z.of_nat (length (pre ++ k))) (pk_MaxSize p)) as [Hfit|Hbig].
  - destruct Ho1 as (-> & Hw1 & Hl1). rewrite (wr_err _ _ Hw1). destruct (IH p1 _ Hw1) as (r & p2 & Hm2 & Hs2 & Hcase); [by rewrite Hs1|].
    rewrite Hm2. simpl. eexists _, p2. split; [done|]. split; [congruence|]. rewrite Hs1 in Hcase.
    destruct (mapM fst xs) as [ks|] eqn:Hks; simpl; [|destruct Hcase as [e ->]; by eexists]. rewrite Hassoc.
    destruct (_ <=? _); [|destruct Hcase as [e ->]; by eexists]. destruct Hcase as (keys & -> & Hw2 & Hl2 & Hpl).
    eexists. split; [done|]. split; [done|]. split; [rewrite Hl2, Hl1, !length_app; lia|]. intros rest. constructor.
    + split; simpl; [|rewrite (wr_offset _ _ Hw), (wr_offset _ _ Hw1), !length_app; lia|done].
      rewrite (wr_offset _ _ Hw), (wr_offset _ _ Hw1). rewrite <- app_assoc. apply slice_mid.
    + eapply Forall2_impl; [apply (Hpl rest)|]. intros t kx [H1 H2 H3]. rewrite length_app in H2. split; [|lia|done]. by rewrite <- H1, <- !app_assoc.
  - destruct r as [e|]; [|done]. eexists _, p1. split; [done|]. split; [done|]. destruct (mapM fst xs) as [ks|]; simpl; [|by eexists].
    rewrite Hassoc, length_app, (proj2 (Z.leb_gt _ _)) by lia. by eexists.
Qed.

Lemma writes_bytes p pre : writes p pre → ∃ rest, pk_Bytes p = pre ++ rest.
Proof.
  intros [_ Hb _ Hl Hc _]. exists (drop (length pre) (pk_Bytes p)). rewrite <- Hb at 1. unfold pk_Bytes.
  rewrite <- (take_drop (length pre) (take (Z.to_nat (pk_len p)) (pk_backing p))) at 1. f_equal. rewrite take_take. f_equal. lia.
Qed.

Lemma writes_rewind p pre more :
  writes p (pre ++ more) → writes (mkPacker (pk_Err p) (pk_MaxSize p) (pk_backing p) (pk_len p) (Z.of_nat (length pre))) pre.
Proof.
  intros [He Hb Ho Hl Hc Hs]. rewrite length_app in *. split; simpl; try done; try lia.
  apply (f_equal (take (length pre))) in Hb. rewrite take_take, take_app_length, Nat.min_l in Hb by lia. done.
Qed.

Lemma sorted_transfer {A B} (R : A → A → Prop) (S : B → B → Prop) (Q : A → B → Prop) l k :
  (∀ a b x y, Q a x → Q b y → R a b → S x y) → Forall2 Q l k → StronglySorted R l → StronglySorted S k.
Proof.
  intros HQ Hlk. induction Hlk as [|a x l k Hax Hlk IH]; [constructor|]. intros [Hs Ha]%StronglySorted_inv. constructor; [by apply IH|].
  clear IH Hs. induction Hlk as [|b y l k Hby _ IH]; [constructor|]. apply Forall_cons in Ha as [? ?]. constructor; [by eapply HQ|by apply IH].
Qed.

(** The pairs of encodings, when all exist. *)
Definition pair_up (x : option bytes * option bytes) : option (bytes * bytes) := a ← x.1; b ← x.2; Some (a, b).
Definition some_value (kv : bytes * bytes) : bytes * option bytes := (kv.1, Some kv.2).

Lemma pair_up_keys xs ks : mapM fst xs = Some ks →
  match mapM pair_up xs with
  | Some l => ks = map fst l ∧ zip ks (map snd xs) = map some_value l
  | None => ∃ k, (k, None) ∈ zip ks (map snd xs)
  end.
Proof.
  revert ks. induction xs as [|[x y] xs IH]; intros ks; simpl; [by intros [= <-]|].
  destruct x as [k|]; simpl; [|done]. destruct (mapM fst xs) as [ks'|]; simpl; [|done]. intros [= <-]. specialize (IH ks' eq_refl). simpl.
  destruct y as [b|]; simpl; [|exists k; by left]. destruct (mapM pair_up xs) as [l|]; simpl.
  - destruct IH as [-> ->]. done.
  - destruct IH as [k' Hk']. exists k'. by right.
Qed.

Lemma pair_up_none xs : mapM fst xs = None → mapM pair_up xs = None.
Proof.
  induction xs as [|[x y] xs IH]; simpl; [done|]. destruct x as [k|]; simpl; [|done]. destruct (mapM fst xs); simpl; [done|]. intros _. destruct y; simpl; [|done].
  by rewrite IH.
Qed.

Definition cat_entries (l : list (bytes * bytes)) : option bytes := cat (map (λ kv, nonempty (Some (kv.1 ++ kv.2))) l).

Lemma cat_entries_some l bs : cat_entries l = Some bs → bs = concat (map (λ kv, kv.1 ++ kv.2) l).
Proof.
  revert bs. unfold cat_entries, cat. induction l as [|[k v] l IH]; simpl; intros bs; [by intros [= <-]|]. unfold nonempty. simpl.
  destruct (decide (k ++ v = [])); [done|]. simpl. destruct (foldr _ _ _) as [b|]; simpl; [|done]. intros [= <-]. f_equal. by apply IH.
Qed.

Lemma cat_none xs : None ∈ xs → cat xs = None.
Proof.
  unfold cat. induction xs as [|x xs IH]; [by intros ?%elem_of_nil|]. simpl. intros [<-|Hin]%elem_of_cons; [done|]. rewrite (IH Hin). by destruct x.
Qed.

Lemma length_concat_perm {A B} (f : A → list B) l l' : l ≡ₚ l' → length (concat (map f l)) = length (concat (map f l')).
Proof. intros Hp. induction Hp; simpl; rewrite ?length_app; lia. Qed.

Lemma keys_shorter l l' bs : l' ≡ₚ l → cat_entries l' = Some bs → (length (concat (map fst l)) ≤ length bs)%nat.
Proof.
  intros Hp ->%cat_entries_some. rewrite <- (length_concat_perm fst _ _ Hp). clear Hp. induction l' as [|[k v] l' IH]; simpl; [lia|]. rewrite !length_app. lia.
Qed.

Lemma marshals_entry B lo hi all_keys t kx :
  placed B lo hi t kx → 0 ≤ lo → hi < 2 ^ 62 → all_keys = slice B lo hi →
  marshals (marshal_entry grow all_keys lo t) (nonempty (cat2 (Some kx.1) kx.2)).
Proof.
  intros [Hb Hr Hv] Hlo Hhi ->. apply marshals_nonzero, marshals_then; [|done]. rewrite slice_shift, Hb by lia. apply (marshals_pack kx.1).
  rewrite <- Hb. unfold small, slice. rewrite length_take. lia.
Qed.

(** The keys sorted by their bytes are the sorted pairs of encodings. *)
Lemma sorted_keys_entries B lo hi keys Y :
  Forall2 (placed B lo hi) keys Y →
  ∃ Y', Y ≡ₚ Y' ∧ Forall2 (placed B lo hi) (merge_sort (key_le B) keys) Y' ∧ StronglySorted (λ a b, ble a.1 b.1) Y'.
Proof.
  intros HY. destruct (Permutation_Forall2 (symmetry (merge_sort_Permutation (key_le B) keys)) HY) as (Y' & Hp & HY').
  exists Y'. split; [done|]. split; [done|]. eapply (sorted_transfer (key_le B)); [|exact HY'|].
  - intros a b x y [Ha _ _] [Hb _ _]. unfold key_le. by rewrite Ha, Hb.
  - apply StronglySorted_merge_sort; [intros a b c; unfold key_le; apply transitivity|intros a b; unfold key_le; apply total, _].
Qed.

(** The second half of the marshaling of a map. *)
Lemma entries_outcome xs ks l' Y' :
  mapM fst xs = Some ks → zip ks (map snd xs) ≡ₚ Y' → StronglySorted (λ a b, ble a.1 b.1) Y' → NoDup ks →
  cat (map (λ kx, nonempty (cat2 (Some kx.1) kx.2)) Y') = l' →
  (l ← mapM pair_up xs; cat_entries (merge_sort entry_le l)) = l' ∧ ∀ bs, l' = Some bs → (length (concat ks) ≤ length bs)%nat.
Proof.
  intros Hks Hp Hs Hnd <-. pose proof (pair_up_keys xs ks Hks) as Hpu. destruct (mapM pair_up xs) as [l|]; simpl.
  - destruct Hpu as [-> HY]. rewrite HY in Hp.
    assert (∃ l', Y' = map some_value l' ∧ l ≡ₚ l') as (l1 & -> & Hl).
    { change (map some_value l) with (some_value <$> l) in Hp. symmetry in Hp. apply Permutation_map_inv in Hp as (l1 & -> & ?). by exists l1. }
    assert (StronglySorted entry_le l1) as Hs1.
    { eapply (sorted_transfer _ entry_le (λ x e, x = some_value e) (map some_value l1) l1); [|clear; induction l1; by constructor|exact Hs]. by intros ? ? ? ? -> ->. }
    rewrite (sort_entries l l1); [|done|by symmetry|done]. rewrite map_map. split; [done|].
    intros bs Hbs. eapply keys_shorter; [|exact Hbs]. by symmetry.
  - destruct Hpu as [k Hk]. rewrite Hp in Hk. rewrite cat_none; [done|]. apply list_elem_of_fmap. by exists (k, None).
Qed.

Lemma marshals_map kvs xs :
  entries_ok kvs xs → NoDup (omap fst xs) → marshals (marshal_map grow kvs) (enc_map xs).
Proof.
  intros Hxs Hnd. unfold marshal_map, enc_map. rewrite <- (Forall2_length _ _ _ Hxs).
  destruct (Z.ltb_spec MaxInt32 (Z.of_nat (length kvs))) as [Hbig|Hok]; [apply marshals_err|].
  assert ((l ← mapM pair_up xs; cat2 (Some (put_uint 4 (Z.of_nat (length kvs)))) (cat_entries (merge_sort entry_le l)))
    = cat2 (Some (put_uint 4 (Z.of_nat (length kvs)))) (l ← mapM pair_up xs; cat_entries (merge_sort entry_le l))) as Heq by by destruct (mapM pair_up xs).
  unfold pair_up in Heq at 1. unfold cat_entries in Heq at 1. rewrite Heq. clear Heq.
  apply marshals_then; [apply marshals_length; lia|]. intros p pre Hw Hmax.
  set (target := mapM pair_up xs ≫= _).
  destruct (marshal_keys_spec kvs xs p pre Hxs Hw Hmax) as (r & p1 & Hm & Hs & Hcase).
  unfold get_Offset, get_packer, set_Offset. unfold mbind at 1 2, PM_bind at 1 2. rewrite Hm.
  destruct (mapM fst xs) as [ks|] eqn:Hks.
  2:{ destruct Hcase as [e ->]. exists (Some e), p1. split; [done|]. split; [done|]. unfold target. by rewrite pair_up_none. }
  assert (NoDup ks) as Hnd'.
  { replace ks with (omap fst xs); [done|]. clear -Hks. apply mapM_Some in Hks. induction Hks as [|[? ?] ? ? ? Heq _ IH]; simpl in *; [done|]. rewrite Heq. by f_equal. }
  destruct (Z.leb_spec (Z.of_nat (length (pre ++ concat ks))) (pk_MaxSize p)) as [Hfit|Hbig].
  - destruct Hcase as (keys & -> & Hw1 & Hl1 & Hpl). unfold mbind, PM_bind.
    destruct (writes_bytes _ _ Hw1) as [rest Hbytes]. rewrite <- app_assoc in Hbytes. specialize (Hpl rest). rewrite <- Hbytes in Hpl.
    destruct (sorted_keys_entries _ _ _ _ _ Hpl) as (Y' & HY & HY' & Hsorted).
    pose proof (wr_offset _ _ Hw1) as Ho1. rewrite Ho1, (wr_offset _ _ Hw).
    set (entries := map _ (merge_sort _ _)).
    assert (Forall2 marshals entries (map (λ kx, nonempty (cat2 (Some kx.1) kx.2)) Y')) as Hent.
    { unfold entries. clear -HY' Hfit Hmax Hgrow. induction HY' as [|t kx ? ? Ht _ IH]; simpl; constructor; [|done].
      eapply marshals_entry; [exact Ht|lia|lia|done]. }
    destruct (marshals_seq _ _ Hent _ _ (writes_rewind _ _ _ Hw1)) as (r & p2 & Hm2 & Hs2 & Ho2); [simpl; lia|]. cbn [pk_MaxSize pk_len] in *.
    exists r, p2. split; [done|]. split; [congruence|].
    destruct (entries_outcome xs ks _ Y' Hks HY Hsorted Hnd' eq_refl) as [Htarget Hlen]. fold target in Htarget. rewrite Htarget.
    destruct (cat _) as [bs|]; [|done]. specialize (Hlen bs eq_refl). rewrite Hs in Ho2. destruct (_ <=? _); [|done].
    destruct Ho2 as (-> & Hw2 & Hl2). split; [done|]. split; [done|]. rewrite Hl2, Hl1, !length_app. lia.
  - destruct Hcase as [e ->]. exists (Some e), p1. split; [done|]. split; [done|]. pose proof (pair_up_keys xs ks Hks) as Hpu.
    unfold target. destruct (mapM pair_up xs) as [l|]; simpl; [|done]. destruct Hpu as [-> _].
    destruct (cat_entries _) as [bs|] eqn:Hcat; [|done]. apply (keys_shorter l) in Hcat; [|apply merge_sort_Permutation].
    rewrite length_app in *. by rewrite (proj2 (Z.leb_gt _ _)) by lia.
Qed.

(** ** Fields *)

Lemma fields_loop_spec i fs idx :
  fields_loop tags i fs = Ok idx →
  StronglySorted lt idx ∧ ∀ k, k ∈ idx ↔ (i ≤ k)%nat ∧ ∃ f, fs !! (k - i)%nat = Some f ∧ captured tags f = true.
Proof.
  revert i idx. induction fs as [|f fs IH]; intros i idx; simpl.
  { intros [= <-]. split; [constructor|]. intros k. rewrite elem_of_nil. split; [done|]. by intros (_ & f & ? & _). }
  assert (∀ k g, (i < k)%nat → (f :: fs) !! (k - i)%nat = Some g ↔ fs !! (k - S i)%nat = Some g) as Hnext.
  { intros k g Hk. replace (k - i)%nat with (S (k - S i)) by lia. done. }
  destruct (captured tags f) eqn:Hf; simpl.
  - destruct (f_exported f); simpl; [|done]. destruct (fields_loop tags (S i) fs) as [l|] eqn:Hl; [|done]. intros [= <-].
    destruct (IH _ _ Hl) as [Hs Hin]. split.
    + constructor; [done|]. apply Forall_forall. intros k [? _]%Hin. lia.
    + intros k. rewrite elem_of_cons, Hin. split.
      * intros [->|(Hk & g & Hg & ?)]; [split; [lia|]; exists f; by rewrite Nat.sub_diag|]. split; [lia|]. exists g. by rewrite Hnext by lia.
      * intros (Hk & g & Hg & ?). destruct (decide (k = i)) as [->|]; [by left|]. right. split; [lia|]. exists g. by rewrite <- Hnext by lia.
  - intros Hl. destruct (IH _ _ Hl) as [Hs Hin]. split; [done|]. intros k. rewrite Hin. split.
    + intros (Hk & g & Hg & ?). split; [lia|]. exists g. by rewrite Hnext by lia.
    + intros (Hk & g & Hg & ?). destruct (decide (k = i)) as [->|]; [rewrite Nat.sub_diag in Hg; simpl in Hg; congruence|].
      split; [lia|]. exists g. by rewrite <- Hnext by lia.
Qed.

Lemma serialized_spec s idx :
  GetSerializedFields struct_of tags s = Ok idx →
  StronglySorted lt idx ∧ ∀ k, k ∈ idx ↔ ∃ f, struct_of s !! k = Some f ∧ captured tags f = true.
Proof.
  intros [Hs Hin]%fields_loop_spec. split; [done|]. intros k. rewrite Hin, Nat.sub_0_r. split; [by intros [_ ?]|]. intros ?. split; [lia|done].
Qed.

Lemma all_zip (Ps : list (ty → Prop)) fs :
  all (zip_with (λ (P : ty → Prop) f, captured tags f = true → P (f_type f)) Ps fs) ↔
  ∀ k P f, Ps !! k = Some P → fs !! k = Some f → captured tags f = true → P (f_type f).
Proof.
  revert fs. induction Ps as [|P Ps IH]; intros [|f fs]; simpl; try (split; [by intros|done]). rewrite IH. split.
  - intros [H1 H2] [|k] Q g; simpl; [by intros [= <-] [= <-]|]. apply H2.
  - intros Hk. split; [apply (Hk 0%nat); done|]. intros k. apply (Hk (S k)).
Qed.

Lemma mapM_rel {I A B} (F : I → option A) (G : I → option B) (R : A → B → Prop) idx :
  (∀ i, i ∈ idx → ∃ a b, F i = Some a ∧ G i = Some b ∧ R a b) → ∃ l k, mapM F idx = Some l ∧ mapM G idx = Some k ∧ Forall2 R l k.
Proof.
  induction idx as [|i idx IH]; intros Hi; [by exists [], []|]. destruct (Hi i) as (a & b & Ha & Hb & Hab); [by left|].
  destruct IH as (l & k & Hl & Hk & Hlk); [intros j Hj; apply Hi; by right|]. exists (a :: l), (b :: k). simpl. rewrite Ha, Hb, Hl, Hk. split_and!; [done..|]. by constructor.
Qed.

Definition at_field {A} (s : Z) (m : val → ty → A) (vs : list val) (i : nat) : option A :=
  m ← map m vs !! i; f ← struct_of s !! i; Some (m (f_type f)).

Lemma at_field_some s vs idx i :
  GetSerializedFields struct_of tags s = Ok idx → length vs = length (struct_of s) → i ∈ idx →
  ∃ v f, vs !! i = Some v ∧ struct_of s !! i = Some f ∧ captured tags f = true ∧ ∀ B (m : val → ty → B), at_field s m vs i = Some (m v (f_type f)).
Proof.
  intros Hidx Hlen Hi. apply (proj2 (serialized_spec s idx Hidx)) in Hi as (f & Hf & Hc).
  destruct (lookup_lt_is_Some_2 vs i) as [v Hv]; [rewrite Hlen; by apply lookup_lt_Some in Hf|]. exists v, f. split_and!; [done..|].
  intros B m'. unfold at_field. change (map m' vs) with (m' <$> vs). by rewrite list_lookup_fmap, Hv, Hf.
Qed.

(** The serialized fields of a struct under two functions of the fields. *)
Lemma pick_rel {A B} (ma : val → ty → A) (mb : val → ty → B) (R : A → B → Prop) s vs idx :
  GetSerializedFields struct_of tags s = Ok idx → length vs = length (struct_of s) →
  (∀ k v f, vs !! k = Some v → struct_of s !! k = Some f → captured tags f = true → R (ma v (f_type f)) (mb v (f_type f))) →
  ∃ l k, mapM (at_field s ma vs) idx = Some l ∧ mapM (at_field s mb vs) idx = Some k ∧ Forall2 R l k.
Proof.
  intros Hidx Hlen HR. apply mapM_rel. intros i Hi. destruct (at_field_some s vs idx i Hidx Hlen Hi) as (v & f & Hv & Hf & Hc & Hat).
  exists (ma v (f_type f)), (mb v (f_type f)). rewrite !Hat. split_and!; [done..|]. by apply (HR i).
Qed.

(** ** Marshaling writes the encoding *)

Context `{TC : TypeCodec} (Htc : ∀ t, marshals (PackPrefix grow t) (type_id t)).

Lemma Forall2_map_map {A B C} (f : A → B) (g : A → C) (R : B → C → Prop) l : (∀ x, x ∈ l → R (f x) (g x)) → Forall2 R (map f l) (map g l).
Proof. induction l as [|x l IH]; intros Hl; simpl; constructor; [apply Hl; by left|]. apply IH. intros y Hy. apply Hl. by right. Qed.

Lemma marshals_no_error : marshals (packed (mret tt)) (Some []).
Proof.
  intros p pre Hw Hmax. destruct (marshals_ret p pre Hw Hmax) as (r & p' & Hm & Ho). injection Hm as <- <-.
  exists None, p. split; [|done]. unfold packed, mbind, PM_bind, get_Err. simpl. by rewrite (wr_err _ _ Hw).
Qed.

Lemma cat2_nil_r x : cat2 x (Some []) = x.
Proof. destruct x as [a|]; simpl; [|done]. by rewrite app_nil_r. Qed.

Lemma marshal_spec v t st : wf v t st → marshals (marshal grow struct_of tags v t st) (enc v t st).
Proof.
  revert t st. induction v as [n|b|s|o IH|o IH|vs IH|vs IH|vs IH|kvs IH|] using val_ind'; intros t st; simpl;
    destruct (underlying t) as [| | | | | | | | | |t'|i|te|k te|sn|tk tv|? ?|?] eqn:Hu; try done; try (intros _; apply marshals_err).
  1-8: intros Hn; match goal with |- marshals _ (Some ?bs) => apply (marshals_pack bs) end; try (unfold small; simpl; lia); apply small_put; lia.
  - intros _. destruct b; [apply (marshals_pack [1])|apply (marshals_pack [0])]; unfold small; simpl; lia.
  - intros [Hb Hs]. unfold PackStr. destruct (Z.ltb_spec MaxStringLen (Z.of_nat (length s))) as [Hlong|Hshort].
    + intros p pre Hw Hmax. unfold packed, mbind, PM_bind, errs_Add. rewrite (wr_err _ _ Hw). simpl. eexists _, _. split; [done|]. by split.
    + unfold MaxStringLen in Hshort. rewrite Z.mod_small by lia. apply (marshals_pack2 (put_uint 2 _) s); [apply small_put; lia|done].
  - destruct o as [v|]; intros Hv; [by apply (IH v)|apply marshals_err].
  - destruct o as [[dt v]|]; [|intros _; apply marshals_err]. intros [Himp Hv]. case_decide; [apply marshals_err|].
    apply marshals_then; [apply Htc|]. rewrite <- (cat2_nil_r (enc v dt (dt :: st))). apply marshals_then; [by apply (IH dt v)|apply marshals_no_error].
  - intros [Hsm Hall]. apply all_map in Hall. rewrite Forall_forall in IH, Hall. apply marshals_slice; [done| |by rewrite length_map|].
    + apply Forall2_map_map. intros v Hv. apply IH; [done|by apply Hall].
    + intros He. apply map_ext_in. intros v Hv. apply list_elem_of_In in Hv. specialize (Hall v Hv). simpl in Hall. destruct v; simpl in *; rewrite He in *; done.
  - intros [_ Hall]. apply all_map in Hall. rewrite Forall_forall in IH, Hall. apply marshals_seq, Forall2_map_map.
    intros v Hv. apply IH; [done|by apply Hall].
  - intros [Hlen Hall]. unfold marshal_fields, pick. destruct (GetSerializedFields struct_of tags sn) as [idx|e] eqn:Hidx; [|apply marshals_err].
    rewrite all_zip in Hall. rewrite Forall_forall in IH.
    destruct (pick_rel (λ v t, marshal grow struct_of tags v t st) (λ v t, enc v t st) marshals sn vs idx Hidx Hlen) as (l & k & Hl & Hk & Hlk).
    { intros k v f Hv Hf Hc. apply IH; [by apply list_elem_of_lookup_2 in Hv|]. apply (Hall k (λ t, wf v t st) f); [|done|done].
      change (map ?g vs) with (g <$> vs). by rewrite list_lookup_fmap, Hv. }
    unfold at_field in Hl, Hk. rewrite Hl, Hk. by apply marshals_seq.
  - intros (Hsm & Hall & Hnd & _). apply all_map in Hall. rewrite Forall_forall in IH, Hall. apply marshals_map.
    + apply Forall2_map_map. intros [k v] Hkv. specialize (Hall _ Hkv) as [Hk Hv]. destruct (IH _ Hkv) as [IHk IHv]. simpl in *. split; [by apply IHk|by apply IHv].
    + clear -Hnd. replace (omap fst _) with (omap (λ kv, enc kv.1 tk st) kvs); [done|]. clear. induction kvs as [|[k v] kvs IH]; [done|].
      cbn. destruct (enc k tk st); [f_equal|]; apply IH.
Qed.

(** ** Sizes *)

Lemma cat_some xs a : cat xs = Some a ↔ ∃ bl, xs = map Some bl ∧ a = concat bl.
Proof.
  unfold cat. revert a. induction xs as [|x xs IH]; intros a; simpl.
  - split; [intros [= <-]; by exists []|]. intros ([|b bl] & [=] & ->). done.
  - split.
    + destruct x as [b|]; simpl; [|done]. destruct (foldr _ _ xs) as [c|]; simpl; [|done]. intros [= <-]. destruct (proj1 (IH c) eq_refl) as (bl & -> & ->). by exists (b :: bl).
    + intros ([|b bl] & [= -> ->] & ->). simpl. rewrite (proj2 (IH (concat bl))); [done|]. by exists bl.
Qed.

Lemma nonempty_some x b : nonempty x = Some b ↔ x = Some b ∧ b ≠ [].
Proof. unfold nonempty. destruct x as [a|]; simpl; [|naive_solver]. case_decide; naive_solver. Qed.

Lemma map_nonempty xs bl : map nonempty xs = map Some bl ↔ xs = map Some bl ∧ Forall (λ b, b ≠ []) bl.
Proof.
  revert xs. induction bl as [|b bl IH]; intros [|x xs]; simpl; try (split; [done|by intros [? _]]). rewrite Forall_cons. split.
  - intros [= [-> ?]%nonempty_some [-> ?]%IH]. done.
  - intros [[= -> ->] [Hb Hbl]]. f_equal; [by apply nonempty_some|by apply IH].
Qed.

Lemma cat_nonempty xs a : cat (map nonempty xs) = Some a ↔ ∃ bl, xs = map Some bl ∧ Forall (λ b, b ≠ []) bl ∧ a = concat bl.
Proof. rewrite cat_some. setoid_rewrite map_nonempty. naive_solver. Qed.

Lemma enc_slice_some xs bs :
  enc_slice xs = Some bs ↔ Z.of_nat (length xs) ≤ MaxInt32 ∧ ∃ bl, xs = map Some bl ∧ Forall (λ b, b ≠ []) bl ∧ bs = put_uint 4 (Z.of_nat (length xs)) ++ concat bl.
Proof.
  unfold enc_slice. destruct (Z.ltb_spec MaxInt32 (Z.of_nat (length xs))) as [H|H]; [split; [done|lia]|]. split.
  - destruct (cat _) as [a|] eqn:Ha; simpl; [|done]. intros [= <-]. apply cat_nonempty in Ha as (bl & ? & ? & ->). split; [done|]. by exists bl.
  - intros (_ & bl & Hxs & Hbl & ->). rewrite (proj2 (cat_nonempty xs (concat bl))); [done|]. by exists bl.
Qed.

Lemma enc_map_some xs bs :
  enc_map xs = Some bs ↔ Z.of_nat (length xs) ≤ MaxInt32 ∧ ∃ l, xs = map (λ kv, (Some kv.1, Some kv.2)) l ∧ Forall (λ kv, kv.1 ++ kv.2 ≠ []) l ∧
    bs = put_uint 4 (Z.of_nat (length xs)) ++ concat (map (λ kv, kv.1 ++ kv.2) (merge_sort entry_le l)).
Proof.
  unfold enc_map. destruct (Z.ltb_spec MaxInt32 (Z.of_nat (length xs))) as [H|H]; [split; [done|lia]|].
  assert (∀ l, mapM (λ x : option bytes * option bytes, a ← x.1; b ← x.2; Some (a, b)) xs = Some l ↔ xs = map (λ kv, (Some kv.1, Some kv.2)) l) as Hl.
  { intros l. rewrite mapM_Some. clear. revert l. induction xs as [|[x y] xs IH]; intros [|[a b] l]; simpl; try (split; [by inversion 1|done]).
    rewrite Forall2_cons, IH. simpl. destruct x, y; simpl; naive_solver. }
  assert (∀ l : list (bytes * bytes), map (λ kv, nonempty (Some (kv.1 ++ kv.2))) l = map nonempty (map Some (map (λ kv, kv.1 ++ kv.2) l))) as Hmap by (intros; by rewrite !map_map).
  assert (∀ l, Forall (λ b, b ≠ []) (map (λ kv : bytes * bytes, kv.1 ++ kv.2) (merge_sort entry_le l)) ↔ Forall (λ kv, kv.1 ++ kv.2 ≠ []) l) as Hne.
  { intros l. change (map ?f ?k) with (f <$> k). rewrite Forall_fmap, merge_sort_Permutation. done. }
  split.
  - destruct (mapM _ xs) as [l|]; [|done]. simpl. rewrite Hmap. destruct (cat _) as [a|] eqn:Ha; simpl; [|done]. intros [= <-]. split; [done|].
    apply cat_nonempty in Ha as (bl & Hbl & Hn & ->). apply (inj (map Some)) in Hbl as <-. exists l. split; [by apply Hl|]. split; [by apply Hne|done].
  - intros (_ & l & Hxs%Hl & Hn & ->). rewrite Hxs. simpl. rewrite Hmap, (proj2 (cat_nonempty _ (concat (map (λ kv, kv.1 ++ kv.2) (merge_sort entry_le l))))); [done|].
    eexists. split; [done|]. split; [by apply Hne|done].
Qed.

(** A size that is the length of an encoding. *)
Definition sized (s : sizer) (b : bytes) : Prop := ∃ c, s = Ok (Z.of_nat (length b), c).

Lemma size_sum_spec n ss bl : Forall2 sized ss bl → size_sum n ss = Ok (n + Z.of_nat (length (concat bl))).
Proof.
  intros Hs. revert n. induction Hs as [|s b ss bl [c ->] _ IH]; intros n; simpl; [f_equal; lia|]. rewrite IH, length_app. f_equal. lia.
Qed.

Lemma length_concat_const (bl : list bytes) n : Forall (λ b, Z.of_nat (length b) = n) bl → Z.of_nat (length (concat bl)) = Z.of_nat (length bl) * n.
Proof. induction 1 as [|b bl Hb _ IH]; simpl; [lia|]. rewrite length_app. lia. Qed.

Context (Hsize : ∀ t bs, type_id t = Some bs → PrefixSize t = Z.of_nat (length bs)).

(** All values of the type have the size [n]. *)
Definition fixed (t : ty) (n : Z) : Prop := ∀ w st bs, wf w t st → enc w t st = Some bs → Z.of_nat (length bs) = n.
Definition sized_as (t : ty) (s : sizer) (b : bytes) : Prop := ∃ c, s = Ok (Z.of_nat (length b), c) ∧ (c = true → fixed t (Z.of_nat (length b))).

Lemma sized_as_sized t s b : sized_as t s b → sized s b.
Proof. intros (c & ? & _). by exists c. Qed.

Lemma fixed_all t n vs st bl : fixed t n → Forall (λ v, wf v t st) vs → map (λ v, enc v t st) vs = map Some bl → Forall (λ b, Z.of_nat (length b) = n) bl.
Proof.
  intros Hf Hvs. revert bl. induction Hvs as [|v vs Hv _ IH]; intros [|b bl] [=]; constructor; [by apply (Hf v st)|by apply IH].
Qed.

Lemma size_slice_spec t st vs ss bl :
  Forall2 (sized_as t) ss bl → Forall (λ v, wf v t st) vs → map (λ v, enc v t st) vs = map Some bl → Forall (λ b, b ≠ []) bl →
  size_slice ss = Ok (IntLen + Z.of_nat (length (concat bl)), false).
Proof.
  intros Hs Hvs Hbl Hne. destruct Hs as [|s b ss bl (c & -> & Hc) Hs]; simpl; [done|]. apply Forall_cons in Hne as [Hb _].
  rewrite (proj2 (Z.eqb_neq _ _)) by (destruct b; simpl in *; [done|lia]). destruct c.
  - pose proof (fixed_all t _ vs st (b :: bl) (Hc eq_refl) Hvs Hbl) as Hall. change (b ++ concat bl) with (concat (b :: bl)).
    rewrite (length_concat_const _ _ Hall). apply Forall2_length in Hs. simpl. rewrite Hs. done.
  - rewrite (size_sum_spec _ _ bl) by (eapply Forall2_impl; [exact Hs|]; apply sized_as_sized). rewrite length_app. repeat f_equal. lia.
Qed.

Lemma size_array_spec t st vs ss bl :
  Forall2 (sized_as t) ss bl → Forall (λ v, wf v t st) vs → map (λ v, enc v t st) vs = map Some bl →
  ∃ c, size_array ss = Ok (Z.of_nat (length (concat bl)), c) ∧
    (c = true → ∀ ws st' bl', length ws = length vs → Forall (λ v, wf v t st') ws → map (λ v, enc v t st') ws = map Some bl' →
      length (concat bl') = length (concat bl)).
Proof.
  intros Hs Hvs Hbl. assert (length vs = length bl) as Hlen by (apply (f_equal length) in Hbl; by rewrite !length_map in Hbl).
  destruct Hs as [|s b ss bl (c & -> & Hc) Hs]; simpl.
  - exists true. split; [done|]. intros _ ws st' bl' Hl _ Hb. destruct ws; [|simpl in *; lia]. by destruct bl'.
  - destruct c.
    + pose proof (fixed_all t _ vs st (b :: bl) (Hc eq_refl) Hvs Hbl) as Hall. exists true.
      change (b ++ concat bl) with (concat (b :: bl)). pose proof (length_concat_const _ _ Hall) as Htot. split.
      * rewrite Htot. apply Forall2_length in Hs. simpl. rewrite Hs. done.
      * intros _ ws st' bl' Hl Hws Hb'. pose proof (fixed_all t _ ws st' bl' (Hc eq_refl) Hws Hb') as Hall'. apply length_concat_const in Hall'.
        apply (f_equal length) in Hb'. rewrite !length_map in Hb'. rewrite Hl, Hlen in Hb'. rewrite <- Hb' in Hall'. lia.
    + exists false. split; [|done]. rewrite (size_sum_spec _ _ bl) by (eapply Forall2_impl; [exact Hs|]; apply sized_as_sized). rewrite length_app. repeat f_equal. lia.
Qed.

Lemma size_struct_spec n c ss bl :
  Forall2 sized ss bl → ∃ c', size_struct n c ss = Ok (n + Z.of_nat (length (concat bl)), c') ∧ (c' = true → c = true ∧ Forall (λ s, ∃ m, s = Ok (m, true)) ss).
Proof.
  intros Hs. revert n c. induction Hs as [|s b ss bl [d ->] _ IH]; intros n c; simpl.
  - exists c. split; [do 2 f_equal; lia|]. intros ->. split; [done|constructor].
  - destruct (IH (n + Z.of_nat (length b)) (c && d)) as (c' & -> & Hc'). exists c'. split; [rewrite length_app; do 2 f_equal; lia|].
    intros [[-> ->]%andb_true_iff Hall]%Hc'. split; [done|]. constructor; [by eexists|done].
Qed.

Lemma length_concat_pairs (l : list (bytes * bytes)) :
  Z.of_nat (length (concat (map (λ kv, kv.1 ++ kv.2) l))) = Z.of_nat (length (concat (map fst l))) + Z.of_nat (length (concat (map snd l))).
Proof. induction l as [|[k v] l IH]; simpl; [done|]. rewrite !length_app. lia. Qed.

Definition encodes (tk tv : ty) (st : list ty) (kvs : list (val * val)) (l : list (bytes * bytes)) : Prop :=
  Forall2 (λ kv e, (wf kv.1 tk st ∧ enc kv.1 tk st = Some e.1) ∧ wf kv.2 tv st ∧ enc kv.2 tv st = Some e.2) kvs l.

Lemma fixed_keys tk tv st kvs l n : encodes tk tv st kvs l → fixed tk n → Forall (λ b, Z.of_nat (length b) = n) (map fst l).
Proof. intros He Hf. induction He as [|kv e kvs l [[Hw Hk] _] _ IH]; simpl; constructor; [by apply (Hf kv.1 st)|done]. Qed.
Lemma fixed_values tk tv st kvs l n : encodes tk tv st kvs l → fixed tv n → Forall (λ b, Z.of_nat (length b) = n) (map snd l).
Proof. intros He Hf. induction He as [|kv e kvs l [_ [Hw Hv]] _ IH]; simpl; constructor; [by apply (Hf kv.2 st)|done]. Qed.

Lemma encodes_of tk tv st kvs l :
  (∀ kv, kv ∈ kvs → wf kv.1 tk st ∧ wf kv.2 tv st) → map (λ '(k, v), (enc k tk st, enc v tv st)) kvs = map (λ kv, (Some kv.1, Some kv.2)) l → encodes tk tv st kvs l.
Proof.
  revert l. induction kvs as [|[k v] kvs IH]; intros [|[a b] l] Hw [=]; constructor.
  - destruct (Hw (k, v)); [by left|]. done.
  - apply IH; [|done]. intros kv Hkv. apply Hw. by right.
Qed.

Lemma size_map_spec tk tv st kvs ss l :
  encodes tk tv st kvs l → Forall2 (λ s kv, sized_as tk s.1 kv.1 ∧ sized_as tv s.2 kv.2) ss l → Forall (λ kv, kv.1 ++ kv.2 ≠ []) l →
  size_map ss = Ok (IntLen + Z.of_nat (length (concat (map (λ kv, kv.1 ++ kv.2) l))), false).
Proof.
  intros Henc Hs Hne. pose proof (λ n, fixed_keys tk tv st kvs l n Henc) as Hfk. pose proof (λ n, fixed_values tk tv st kvs l n Henc) as Hfv.
  rewrite length_concat_pairs. destruct Hs as [|[sk sv] [k v] ss l [(ck & Hk & Hck) (cv & Hv & Hcv)] Hs]; [done|]. simpl in Hk, Hv. subst sk sv.
  cbn [size_map length]. apply Forall_cons in Hne as [Hb _]. simpl in Hb.
  assert ((Z.of_nat (length k) =? 0) && (Z.of_nat (length v) =? 0) = false) as ->.
  { destruct k, v; simpl in *; try done; try (rewrite andb_false_iff; rewrite !Z.eqb_neq; lia). }
  assert (Forall2 sized (map fst ss) (map fst l) ∧ Forall2 sized (map snd ss) (map snd l) ∧
    Forall2 sized (concat (map (λ '(k, v), [k; v]) ss)) (concat (map (λ kv, [kv.1; kv.2]) l))) as (Hss1 & Hss2 & Hss3).
  { clear -Hs. induction Hs as [|[a b] [x y] ss l [Ha Hb] _ (IH1 & IH2 & IH3)]; simpl; [done|]. apply sized_as_sized in Ha, Hb. split_and!; by repeat constructor. }
  assert (Z.of_nat (length (concat (concat (map (λ kv : bytes * bytes, [kv.1; kv.2]) l)))) = Z.of_nat (length (concat (map fst l))) + Z.of_nat (length (concat (map snd l)))) as H3.
  { clear. induction l as [|[a b] l IH]; simpl; [done|]. rewrite !length_app. lia. }
  apply Forall2_length in Hs. 
  assert (∀ n, fixed tk n → Z.of_nat (length (concat (map fst ((k, v) :: l)))) = Z.of_nat (S (length ss)) * n) as HK.
  { intros n Hf. rewrite (length_concat_const _ n) by (by eapply Hfk). rewrite length_map. simpl. by rewrite Hs. }
  assert (∀ n, fixed tv n → Z.of_nat (length (concat (map snd ((k, v) :: l)))) = Z.of_nat (S (length ss)) * n) as HV.
  { intros n Hf. rewrite (length_concat_const _ n) by (by eapply Hfv). rewrite length_map. simpl. by rewrite Hs. }
  destruct ck, cv; rewrite ?(size_sum_spec _ _ _ Hss1), ?(size_sum_spec _ _ _ Hss2), ?(size_sum_spec _ _ _ Hss3), ?H3;
    rewrite ?(HK _ (Hck eq_refl)), ?(HV _ (Hcv eq_refl)); cbn [map concat fst snd]; rewrite ?length_app; do 2 f_equal; lia.
Qed.

Lemma mapM_in {I A} (F : I → option A) idx l i : mapM F idx = Some l → i ∈ idx → ∃ a, F i = Some a ∧ a ∈ l.
Proof.
  intros Hl%mapM_Some. induction Hl as [|j a idx l Ha _ IH]; [by intros ?%elem_of_nil|]. intros [->|Hi]%elem_of_cons; [exists a; split; [done|by left]|].
  destruct (IH Hi) as (a' & ? & ?). exists a'. split; [done|by right].
Qed.

Lemma same_lengths (xs ys : list bytes) : Forall2 (λ a b, length a = length b) xs ys → length (concat xs) = length (concat ys).
Proof. induction 1 as [|a b xs ys Hab _ IH]; simpl; [done|]. rewrite !length_app. lia. Qed.

Lemma size_fields_spec t s idx vs st bs :
  underlying t = TStruct s → GetSerializedFields struct_of tags s = Ok idx → length vs = length (struct_of s) →
  (∀ i v f b, vs !! i = Some v → struct_of s !! i = Some f → captured tags f = true → enc v (f_type f) st = Some b →
     sized_as (f_type f) (size struct_of tags v (f_type f) st) b) →
  (l ← mapM (at_field s (λ v t, enc v t st) vs) idx; cat l) = Some bs →
  sized_as t (default (Err ErrUnsupportedType) (l ← mapM (at_field s (λ v t, size struct_of tags v t st) vs) idx; Some (size_struct 0 true l))) bs.
Proof.
  intros Hu Hidx Hlen IH He. destruct (mapM (at_field s (λ v t, enc v t st) vs) idx) as [l|] eqn:Hl; simpl in He; [|done].
  apply cat_some in He as (bl & -> & ->).
  destruct (pick_rel (λ v t, size struct_of tags v t st) (λ v t, enc v t st) (λ s x, ∀ b, x = Some b → sized s b) s vs idx Hidx Hlen) as (ss & l & Hss & Hl' & HR).
  { intros k v f Hv Hf Hc b Hb. by eapply sized_as_sized, IH. }
  rewrite Hl in Hl'. injection Hl' as <-. rewrite Hss. simpl.
  assert (Forall2 sized ss bl) as Hsz. { clear -HR. revert ss HR. induction bl as [|b bl IH]; intros ss; simpl; inversion 1; subst; constructor; auto. }
  destruct (size_struct_spec 0 true ss bl Hsz) as (c & -> & Hc). exists c. split; [done|]. intros ->. destruct (Hc eq_refl) as [_ Hconst]. rewrite Forall_forall in Hconst.
  intros w st' bs'. destruct w as [| | | | | | |ws| |]; simpl; rewrite Hu; try done. intros [Hlen' Hall']. unfold pick. rewrite Hidx. rewrite all_zip in Hall'.
  change (λ i, m ← map (λ v t, enc v t st') ws !! i; f ← struct_of s !! i; Some (m (f_type f))) with (at_field s (λ v t, enc v t st') ws).
  destruct (mapM (at_field s (λ v t, enc v t st') ws) idx) as [l'|] eqn:Hl'; simpl; [|done]. intros (bl' & -> & ->)%cat_some. f_equal. apply same_lengths.
  destruct (mapM_rel (at_field s (λ v t, enc v t st') ws) (at_field s (λ v t, enc v t st) vs) (λ x y, ∀ a b, x = Some a → y = Some b → length a = length b) idx) as (l1 & l2 & H1 & H2 & Hrel).
  - intros i Hi. destruct (at_field_some s vs idx i Hidx Hlen Hi) as (v & f & Hv & Hf & Hcap & Hat).
    destruct (at_field_some s ws idx i Hidx Hlen' Hi) as (w & f' & Hw & Hf' & _ & Hat'). rewrite Hf in Hf'. injection Hf' as <-.
    eexists _, _. split; [apply Hat'|]. split; [apply Hat|]. intros a b Ha Hb. destruct (mapM_in _ _ _ i Hss Hi) as (sz & Hsz' & Hin). rewrite Hat in Hsz'. injection Hsz' as <-.
    destruct (Hconst _ Hin) as [n Hn]. destruct (IH i v f b Hv Hf Hcap Hb) as (c & Hc1 & Hfix). rewrite Hn in Hc1. injection Hc1 as -> <-.
    apply Nat2Z.inj, (Hfix eq_refl w st' a); [|done]. apply (Hall' i (λ t, wf w t st') f); [|done|done].
    change (map ?g ws) with (g <$> ws). by rewrite list_lookup_fmap, Hw.
  - rewrite Hl' in H1. rewrite Hl in H2. injection H1 as <-. injection H2 as <-. clear -Hrel. revert bl' Hrel.
    induction bl as [|b bl IH]; intros [|b' bl']; simpl; inversion 1; subst; constructor; auto.
Qed.

Lemma sizes_list t st vs bl :
  (∀ v, v ∈ vs → ∀ bs, wf v t st → enc v t st = Some bs → sized_as t (size struct_of tags v t st) bs) →
  Forall (λ v, wf v t st) vs → map (λ v, enc v t st) vs = map Some bl → Forall2 (sized_as t) (map (λ v, size struct_of tags v t st) vs) bl.
Proof.
  intros IH Hvs. revert bl. induction Hvs as [|v vs Hv _ IHvs]; intros [|b bl] [=]; simpl; constructor; [apply IH; [by left|done..]|].
  apply IHvs; [|done]. intros w Hw. apply IH. by right.
Qed.

(** [size] is the length of the encoding. *)
Lemma size_spec v t st bs : wf v t st → enc v t st = Some bs → sized_as t (size struct_of tags v t st) bs.
Proof.
  revert t st bs. induction v as [n|b|s|o IH|o IH|vs IH|vs IH|vs IH|kvs IH|] using val_ind'; intros t st bs; simpl;
    destruct (underlying t) as [| | | | | | | | | |t'|i|te|k te|sn|tk tv|? ?|?] eqn:Hu; try done.
  1-8: intros _ [= <-]; eexists; (split; [rewrite ?put_uint_length; done|]); intros _ w st' bs' Hw; destruct w; simpl in *; rewrite Hu in *; try done;
    intros [= <-]; by rewrite ?put_uint_length.
  - intros _ [= <-]. eexists. split; [done|]. intros _ w st' bs'. destruct w; simpl; rewrite Hu; try done. by intros _ [= <-].
  - intros _. destruct (_ <? _); [done|]. intros [= <-]. exists false. split; [|done]. do 2 f_equal. unfold ShortLen. simpl. lia.
  - destruct o as [v|]; [|done]. intros Hw He. destruct (IH v eq_refl t' st bs Hw He) as (c & -> & Hc). exists c. split; [done|]. intros ->.
    intros w st' bs'. destruct w as [| | |[w|]| | | | | |]; simpl; rewrite Hu; try done. by apply Hc.
  - destruct o as [[dt v]|]; [|done]. intros [_ Hw]. case_decide; [done|]. destruct (type_id dt) as [id|] eqn:Hid; simpl; [|done].
    destruct (enc v dt (dt :: st)) as [b|] eqn:He; simpl; [|done]. intros [= <-]. destruct (IH dt v eq_refl dt (dt :: st) b Hw He) as (c & -> & _).
    exists false. split; [|done]. rewrite (Hsize _ _ Hid), length_app. do 2 f_equal. lia.
  - intros [_ Hall] (_ & bl & Hbl & Hne & ->)%enc_slice_some. apply all_map in Hall. exists false. split; [|done].
    rewrite (size_slice_spec te st vs _ bl); [rewrite length_app, put_uint_length; do 2 f_equal; unfold IntLen; lia| |done..].
    apply (sizes_list te st); [|done|done]. rewrite Forall_forall in IH. intros v Hv. by apply IH.
  - intros [Hk Hall] (bl & Hbl & ->)%cat_some. apply all_map in Hall.
    destruct (size_array_spec te st vs (map (λ v, size struct_of tags v te st) vs) bl) as (c & -> & Hc); [|done|done|].
    { apply (sizes_list te st); [|done|done]. rewrite Forall_forall in IH. intros v Hv. by apply IH. }
    exists c. split; [done|]. intros -> w st' bs'. destruct w as [| | | | | |ws| | |]; simpl; rewrite Hu; try done.
    intros [Hk' Hall'] (bl' & Hbl' & ->)%cat_some. apply all_map in Hall'. rewrite (Hc eq_refl ws st' bl'); [done|lia|done|done].
  - intros [Hlen Hall]. unfold pick, size_fields. destruct (GetSerializedFields struct_of tags sn) as [idx|e] eqn:Hidx; [|done].
    rewrite all_zip in Hall. rewrite Forall_forall in IH. change (λ i, m ← map (λ v t, enc v t st) vs !! i; f ← struct_of sn !! i; Some (m (f_type f))) with (at_field sn (λ v t, enc v t st) vs).
    change (λ i, m ← map (λ v t, size struct_of tags v t st) vs !! i; f ← struct_of sn !! i; Some (m (f_type f))) with (at_field sn (λ v t, size struct_of tags v t st) vs).
    intros He. apply (size_fields_spec t sn idx vs st bs Hu Hidx Hlen); [|done]. intros i v f b Hv Hf Hc Hb. apply IH; [by apply list_elem_of_lookup_2 in Hv| |done].
    apply (Hall i (λ t, wf v t st) f); [|done|done]. change (map ?g vs) with (g <$> vs). by rewrite list_lookup_fmap, Hv.
  - intros (_ & Hall & _) (_ & l & Hl & Hne & ->)%enc_map_some. apply all_map in Hall. exists false. split; [|done].
    rewrite (size_map_spec tk tv st kvs _ l); [| | |done].
    + rewrite length_app, put_uint_length. do 2 f_equal. unfold IntLen. erewrite (length_concat_perm _ (merge_sort entry_le l)); [|apply merge_sort_Permutation]. lia.
    + apply encodes_of; [|done]. intros kv Hkv. rewrite Forall_forall in Hall. specialize (Hall kv Hkv). by destruct kv.
    + rewrite Forall_forall in IH, Hall. clear Hne. revert l Hl. induction kvs as [|[k v] kvs IHk]; intros [|[a b] l] [=]; simpl; constructor.
      * destruct (IH (k, v)) as [IH1 IH2]; [by left|]. destruct (Hall (k, v)) as [? ?]; [by left|]. split; [by apply IH1|by apply IH2].
      * apply IHk; [intros kv Hkv; apply IH; by right|intros kv Hkv; apply Hall; by right|done].
Qed.

(** Encodings consist of bytes. *)
Context (Hid : ∀ t bs, type_id t = Some bs → Forall is_byte bs).

Lemma concat_bytes bl : Forall (Forall is_byte) bl → Forall is_byte (concat bl).
Proof. induction 1; simpl; [constructor|]. by apply Forall_app. Qed.

Lemma enc_list_bytes t st vs bl :
  Forall (λ v, ∀ t st bs, wf v t st → enc v t st = Some bs → Forall is_byte bs) vs → Forall (λ v, wf v t st) vs → map (λ v, enc v t st) vs = map Some bl →
  Forall is_byte (concat bl).
Proof.
  intros IH Hw He. apply concat_bytes. revert bl He. induction IH as [|v vs Hv _ IHvs]; intros [|b bl] [=]; constructor; apply Forall_cons in Hw as [? ?]; [by apply (Hv t st)|by apply IHvs].
Qed.

Lemma enc_bytes v t st bs : wf v t st → enc v t st = Some bs → Forall is_byte bs.
Proof.
  revert t st bs. induction v as [n|b|s|o IH|o IH|vs IH|vs IH|vs IH|kvs IH|] using val_ind'; intros t st bs; cbn [wf enc];
    destruct (underlying t) as [| | | | | | | | | |t'|i|te|k te|sn|tk tv|? ?|?] eqn:Hu; try done.
  1: intros Hn [= <-]; by apply Forall_singleton.
  1: intros Hn [= <-]; apply Forall_singleton; by apply Z.mod_pos_bound.
  1-6: intros Hn Hb; apply (inj Some) in Hb as <-; apply put_uint_bytes.
  - intros _ [= <-]. apply Forall_singleton. unfold is_byte. destruct b; lia.
  - intros [Hb _]. destruct (_ <? _); [done|]. intros He. apply (inj Some) in He as <-. apply Forall_app. split; [apply put_uint_bytes|done].
  - destruct o as [v|]; [|done]. by apply IH.
  - destruct o as [[dt v]|]; [|done]. intros [_ Hw]. case_decide; [done|]. destruct (type_id dt) as [id|] eqn:Hi; [|done]. destruct (enc v dt (dt :: st)) as [b|] eqn:He; [|done].
    intros [= <-]. apply Forall_app. split; [by apply (Hid dt)|by eapply (IH dt v)].
  - intros [_ Hw] (_ & bl & Hbl & _ & ->)%enc_slice_some. apply all_map in Hw. apply Forall_app. split; [apply put_uint_bytes|by eapply enc_list_bytes].
  - intros [_ Hw] (bl & Hbl & ->)%cat_some. apply all_map in Hw. by eapply enc_list_bytes.
  - intros [Hlen Hw] He. rewrite all_zip in Hw. unfold pick in He. destruct (GetSerializedFields struct_of tags sn) as [idx|] eqn:Hidx; [|done].
    destruct (mapM _ idx) as [l|] eqn:Hl; [|done]. apply cat_some in He as (bl & -> & ->). apply concat_bytes, Forall_forall. intros b Hb.
    apply mapM_Some in Hl. rewrite Forall_forall in IH. apply list_elem_of_lookup in Hb as [j Hj].
    destruct (Forall2_lookup_r _ _ _ j (Some b) Hl) as (i & Hi & Hat); [change (map Some bl) with (Some <$> bl); by rewrite list_lookup_fmap, Hj|].
    destruct (at_field_some sn vs idx i Hidx Hlen) as (v & f & Hv & Hf & Hc & Hfield); [by apply list_elem_of_lookup_2 in Hi|].
    pose proof (Hfield _ (λ v t, enc v t st)) as Hat'. unfold at_field in Hat'. rewrite Hat in Hat'. injection Hat' as Hat'. symmetry in Hat'.
    apply (IH v ltac:(by apply list_elem_of_lookup_2 in Hv) (f_type f) st b); [|done].
    apply (Hw i (λ t, wf v t st) f); [|done|done]. change (map ?g vs) with (g <$> vs). by rewrite list_lookup_fmap, Hv.
  - intros (_ & Hw & _) (_ & l & Hl & _ & ->)%enc_map_some. apply all_map in Hw. apply Forall_app. split; [apply put_uint_bytes|]. apply concat_bytes.
    change (map ?f ?k) with (f <$> k). rewrite Forall_fmap, merge_sort_Permutation.
    revert l Hl. induction kvs as [|[k v] kvs IHk]; intros [|[a b] l] Heq; try done. injection Heq as Ha Hb Hrest.
    apply Forall_cons in IH as [[IHa IHb] IH], Hw as [[Hwk Hwv] Hw]. constructor; [|by apply IHk]. simpl in *. apply Forall_app. split; [by apply (IHa tk st)|by apply (IHb tv st)].
Qed.
End Encoding.

(** What a registry of types promises to the codec: every registered type has an
    identifier that is written and read back. *)
Class TypeCodecLaws (grow : Z → Z → Z) (implements : ty → Z → bool) (TC : TypeCodec) : Type := {
  type_id : ty → option bytes;
  prefix_nonempty : ∀ t bs, type_id t = Some bs → bs ≠ [];
  pack_prefix : ∀ t, marshals (PackPrefix grow t) (type_id t);
  prefix_size : ∀ t bs, type_id t = Some bs → PrefixSize t = Z.of_nat (length bs);
  prefix_bytes : ∀ t bs, type_id t = Some bs → Forall is_byte bs;
  unpack_sound : ∀ i p, slice_ok p → pk_Err p = None → inside p →
    ∃ r p', UnpackPrefix i p = Some (r, p') ∧ pk_backing p' = pk_backing p ∧ pk_len p' = pk_len p ∧
      match r with Ok t => implements t i = true ∧ ∃ bs, type_id t = Some bs ∧ reads p bs p' | Err e => e ≠ OutOfFuel end;
  unpack_complete : ∀ i t bs p rest, slice_ok p → pk_Err p = None → inside p → implements t i = true → type_id t = Some bs →
    unread p = bs ++ rest → UnpackPrefix i p = Some (Ok t, advance p (Z.of_nat (length bs)));
}.
