(* ===== verification/CodecDecode.v ===== *)
(** * What unmarshaling reads (package [codec/reflectcodec])

    [unmarshal] accepts only encodings: a value it returns is encoded by exactly the
    bytes it read, and it returns without panic and with a bounded recursion on the types
    that allow it ([unmarshalable]).  And it accepts all of them: from the encoding of a value it
    returns the value, up to the order of maps and the fields that are not
    serialized. *)
From stdpp Require Import sorting strings.
From S2P Require Import Prelude Bytes Packer Codec CodecEncode.

(** A packer to read from. *)
Record ready (p : Packer) : Prop := {
  rd_slice : slice_ok p;
  rd_err : pk_Err p = None;
  rd_inside : inside p;
}.

Definition intact (p p' : Packer) : Prop := pk_backing p' = pk_backing p ∧ pk_len p' = pk_len p.

(** ** Reading *)

Lemma reads_nil p : ready p → reads p [] p.
Proof. intros [Hs He Hi]. split; [done|]. split; [done|]. split; [by exists (unread p)|]. unfold advance. destruct p. simpl. by rewrite Z.add_0_r. Qed.

Lemma reads_ready p bs p' : ready p → reads p bs p' → ready p' ∧ intact p p' ∧ unread p = bs ++ unread p' ∧ p' = advance p (Z.of_nat (length bs)).
Proof.
  intros [Hs He Hi] Hr. destruct (reads_slice _ _ _ Hs Hr) as (Hs' & He' & _ & _ & Hu & _ & Hi'). split; [by split|].
  destruct Hr as (_ & _ & _ & ->). done.
Qed.

Lemma reads_next p bs rest : ready p → unread p = bs ++ rest → reads p bs (advance p (Z.of_nat (length bs))).
Proof. intros [Hs He Hi] Hu. split_and!; [done..|by exists rest|done]. Qed.

Lemma advance_ready p bs rest :
  ready p → unread p = bs ++ rest → ready (advance p (Z.of_nat (length bs))) ∧ unread (advance p (Z.of_nat (length bs))) = rest.
Proof.
  intros Hp Hu. destruct (reads_ready _ _ _ Hp (reads_next _ _ _ Hp Hu)) as (? & _ & Heq & _). split; [done|]. rewrite Hu in Heq. by apply app_inv_head in Heq.
Qed.

Lemma advance_advance p (a b : bytes) : advance (advance p (Z.of_nat (length a))) (Z.of_nat (length b)) = advance p (Z.of_nat (length (a ++ b))).
Proof. unfold advance. simpl. f_equal. rewrite length_app. lia. Qed.

Lemma advance_nil p : advance p 0 = p.
Proof. unfold advance. destruct p. simpl. by rewrite Z.add_0_r. Qed.

Lemma intact_trans p p1 p2 : intact p p1 → intact p1 p2 → intact p p2.
Proof. intros [? ?] [? ?]. split; congruence. Qed.

Lemma fails_intact p p' : fails p p' → intact p p' ∧ pk_Err p' ≠ None.
Proof. by intros (? & ? & ?). Qed.

(** The bytes between two offsets. *)
Lemma reads_slice_bytes p bs p' : ready p → reads p bs p' → slice (pk_Bytes p') (pk_Offset p) (pk_Offset p') = bs.
Proof.
  intros [Hs He Hi] Hr. destruct (reads_slice _ _ _ Hs Hr) as (_ & _ & -> & _ & Hu & -> & _). unfold slice, unread in *. rewrite Hu.
  replace (Z.to_nat _) with (length bs) by lia. apply take_app_length.
Qed.

(** ** Sound and complete readers *)

(** With at most [N] bytes to read, [m] returns without panic, every value it returns is
    related to the bytes it read, and the fuel is enough. *)
Definition sound {A} (N : nat) (m : PM (result A codec_error)) (Q : A → bytes → Prop) : Prop :=
  ∀ p, ready p → (length (unread p) ≤ N)%nat →
    ∃ r p', m p = Some (r, p') ∧ intact p p' ∧ match r with Ok v => ∃ bs, Q v bs ∧ reads p bs p' | Err e => e ≠ OutOfFuel end.

(** From the bytes [bs], [m] returns [v]. *)
Definition complete {A} (m : PM (result A codec_error)) (bs : bytes) (v : A) : Prop :=
  ∀ p rest, ready p → unread p = bs ++ rest → m p = Some (Ok v, advance p (Z.of_nat (length bs))).

Lemma sound_impl {A} N (m : PM (result A codec_error)) (Q Q' : A → bytes → Prop) : sound N m Q → (∀ v bs, Q v bs → Q' v bs) → sound N m Q'.
Proof.
  intros Hm HQ p Hp HN. destruct (Hm p Hp HN) as (r & p' & ? & ? & Hr). exists r, p'. split_and!; [done..|]. destruct r; [|done].
  destruct Hr as (bs & ? & ?). exists bs. auto.
Qed.

Lemma sound_mono {A} N N' (m : PM (result A codec_error)) Q : (N' ≤ N)%nat → sound N m Q → sound N' m Q.
Proof. intros Hle Hm p Hp HN. apply Hm; [done|lia]. Qed.

Lemma sound_err {A} N e (Q : A → bytes → Prop) : e ≠ OutOfFuel → sound N (mret (Err e)) Q.
Proof. intros He p Hp _. by exists (Err e), p. Qed.

(** What is left to read after some bytes. *)
Lemma reads_left p bs p' N : ready p → reads p bs p' → (length (unread p) ≤ N)%nat → (length bs ≤ N)%nat ∧ (length (unread p') ≤ N - length bs)%nat.
Proof. intros Hp Hr HN. destruct (reads_ready _ _ _ Hp Hr) as (_ & _ & Hu & _). rewrite Hu, length_app in HN. lia. Qed.

(** A reader after another one, and a reader with its result mapped. *)
Definition then_read {A B} (m : PM (result A codec_error)) (k : A → PM (result B codec_error)) : PM (result B codec_error) :=
  r ← m; match r with Err e => mret (Err e) | Ok a => k a end.

Lemma sound_then {A B} N (m : PM (result A codec_error)) (k : A → PM (result B codec_error)) Q Q' :
  sound N m Q → (∀ a bs, Q a bs → (length bs ≤ N)%nat → sound (N - length bs) (k a) (λ b bs', Q' b (bs ++ bs'))) → sound N (then_read m k) Q'.
Proof.
  intros Hm Hk p Hp HN. unfold then_read, mbind, PM_bind. destruct (Hm p Hp HN) as (r & p1 & -> & Hi1 & Hr). destruct r as [a|e].
  - destruct Hr as (bs & HQ & Hr). destruct (reads_ready _ _ _ Hp Hr) as (Hp1 & _). destruct (reads_left _ _ _ _ Hp Hr HN) as [Hbs HN1].
    destruct (Hk a bs HQ Hbs p1 Hp1 HN1) as (r & p2 & -> & Hi2 & Hr2).
    exists r, p2. split; [done|]. split; [by eapply intact_trans|]. destruct r as [b|]; [|done]. destruct Hr2 as (bs' & HQ' & Hr2).
    exists (bs ++ bs'). split; [done|]. eapply reads_trans; [apply Hp|done..].
  - by exists (Err e), p1.
Qed.

Lemma complete_then {A B} (m : PM (result A codec_error)) (k : A → PM (result B codec_error)) bs bs' a b :
  complete m bs a → complete (k a) bs' b → complete (then_read m k) (bs ++ bs') b.
Proof.
  intros Hm Hk p rest Hp Hu. unfold then_read, mbind, PM_bind. rewrite <- app_assoc in Hu. rewrite (Hm p _ Hp Hu).
  destruct (advance_ready _ _ _ Hp Hu) as [Hp1 Hu1]. rewrite (Hk _ _ Hp1 Hu1). by rewrite advance_advance.
Qed.

Lemma sound_ret {A} N (a : A) (Q : A → bytes → Prop) : Q a [] → sound N (mret (Ok a)) Q.
Proof. intros HQ p Hp _. exists (Ok a), p. split; [done|]. split; [done|]. exists []. split; [done|]. by apply reads_nil. Qed.

Lemma complete_ret {A} (a : A) : complete (mret (Ok a)) [] a.
Proof. intros p rest Hp Hu. simpl. by rewrite advance_nil. Qed.

(** A reader whose result is mapped. *)
Definition map_read {A B} (m : PM (result A codec_error)) (f : A → B) : PM (result B codec_error) :=
  r ← m; mret (match r with Ok a => Ok (f a) | Err e => Err e end).

Lemma sound_map {A B} N (m : PM (result A codec_error)) (f : A → B) Q Q' :
  sound N m Q → (∀ a bs, Q a bs → Q' (f a) bs) → sound N (map_read m f) Q'.
Proof.
  intros Hm Hf p Hp HN. unfold map_read, mbind, PM_bind. destruct (Hm p Hp HN) as (r & p1 & -> & Hi & Hr). eexists _, p1. split; [done|]. split; [done|].
  destruct r as [a|e]; [|done]. destruct Hr as (bs & ? & ?). exists bs. auto.
Qed.

Lemma complete_map {A B} (m : PM (result A codec_error)) (f : A → B) bs a : complete m bs a → complete (map_read m f) bs (f a).
Proof. intros Hm p rest Hp Hu. unfold map_read, mbind, PM_bind. by rewrite (Hm p rest Hp Hu). Qed.

(** The operations of the packer. *)
Definition prefix_free {A} (P : A → Prop) (e : A → bytes) : Prop := ∀ a b rest rest', P a → P b → e a ++ rest = e b ++ rest' → a = b.

Lemma sound_unpacked {A} N (op : PM A) (P : A → Prop) e f (Q : val → bytes → Prop) :
  (∀ p, slice_ok p → unpacks P e op p) → (∀ a, P a → Q (f a) (e a)) → sound N (a ← op; unpacked (f a)) Q.
Proof.
  intros Hop HQ p Hp _. unfold mbind, PM_bind. destruct (Hop p (rd_slice _ Hp)) as (a & p' & -> & Hcase).
  unfold unpacked, mbind, PM_bind, get_Err. simpl. eexists _, p'. split; [done|]. destruct Hcase as [[Ha Hr]|[[Hi He]%fails_intact _]].
  - destruct (reads_ready _ _ _ Hp Hr) as ([_ He _] & Hi & _). rewrite He. split; [done|]. exists (e a). auto.
  - split; [done|]. by destruct (pk_Err p').
Qed.

Lemma complete_unpacked {A} (op : PM A) (P : A → Prop) e f a :
  (∀ p, slice_ok p → unpacks P e op p) → prefix_free P e → P a → complete (a ← op; unpacked (f a)) (e a) (f a).
Proof.
  intros Hop Hpf Ha p rest Hp Hu. unfold mbind, PM_bind. destruct (Hop p (rd_slice _ Hp)) as (b & p' & -> & Hcase).
  destruct Hcase as [[Hb Hr]|[_ Hun]]; [|by destruct (Hun (rd_err _ Hp) (rd_inside _ Hp) a Ha rest)].
  destruct (reads_ready _ _ _ Hp Hr) as (Hp' & _ & Hu' & ->). rewrite Hu in Hu'. apply Hpf in Hu' as <-; [|done|done].
  unfold unpacked, mbind, PM_bind, get_Err. by rewrite (rd_err _ Hp').
Qed.

(** ** Numbers, strings and bytes *)

Lemma put_uint_prefix k v w l l' :
  0 ≤ v < 2 ^ (8 * Z.of_nat k) → 0 ≤ w < 2 ^ (8 * Z.of_nat k) → put_uint k v ++ l = put_uint k w ++ l' → v = w ∧ l = l'.
Proof.
  intros Hv Hw Heq. apply app_inj_1 in Heq as [Heq ->]; [|by rewrite !put_uint_length]. split; [|done].
  apply (f_equal get_uint) in Heq. rewrite !get_put, !Z.mod_small in Heq by done. done.
Qed.

Lemma uint_prefix_free k : prefix_free (λ v, 0 ≤ v < 2 ^ (8 * Z.of_nat k)) (put_uint k).
Proof. intros v w l l' Hv Hw Heq. by apply put_uint_prefix in Heq as [? _]. Qed.

Lemma bool_prefix_free : prefix_free (λ _, True) (λ b : bool, [if b then 1 else 0]).
Proof. intros [] [] l l' _ _; simpl; congruence. Qed.

Lemma fixed_prefix_free n : prefix_free (λ bs, Forall is_byte bs ∧ Z.of_nat (length bs) = n) (λ bs, bs).
Proof. intros a b l l' [_ Ha] [_ Hb] Heq. by apply app_inj_1 in Heq as [? _]; [|lia]. Qed.

Definition short_bytes (bs : bytes) : Prop := is_bytes (2 ^ (8 * Z.of_nat 2)) bs ∧ false = false.

Lemma string_prefix_free : prefix_free short_bytes (λ bs, put_uint 2 (Z.of_nat (length bs)) ++ bs).
Proof.
  intros a b l l' [[_ Ha] _] [[_ Hb] _]. rewrite <- !app_assoc. intros [Hlen Heq]%put_uint_prefix; [|lia..]. by apply app_inj_1 in Heq as [? _]; [|lia].
Qed.

Lemma unpacks_string p : slice_ok p → unpacks short_bytes (λ bs, put_uint 2 (Z.of_nat (length bs)) ++ bs) UnpackStr p.
Proof.
  intros Hs. apply (unpacks_prefixed 2 (λ _, false)); [done|]. exact (prefixed_op 2 (λ _, false) UnpackShort UnpackStr p (unpack_uint 2 p) eq_refl).
Qed.

Lemma signed_range k n : 0 < k → 0 ≤ n < 2 ^ k → - 2 ^ (k - 1) ≤ signed k n < 2 ^ (k - 1) ∧ signed k n mod 2 ^ k = n.
Proof.
  intros Hk Hn. assert (2 ^ k = 2 * 2 ^ (k - 1)) as H2 by (rewrite <- Z.pow_succ_r by lia; f_equal; lia). unfold signed.
  destruct (Z.ltb_spec n (2 ^ (k - 1))); [split; [lia|by rewrite Z.mod_small by lia]|]. split; [lia|].
  replace (n - 2 ^ k) with (n + (-1) * 2 ^ k) by lia. rewrite Z.mod_add by lia. by apply Z.mod_small.
Qed.

Lemma signed_mod k n : 0 < k → - 2 ^ (k - 1) ≤ n < 2 ^ (k - 1) → signed k (n mod 2 ^ k) = n ∧ 0 ≤ n mod 2 ^ k < 2 ^ k.
Proof.
  intros Hk Hn. assert (2 ^ k = 2 * 2 ^ (k - 1)) as H2 by (rewrite <- Z.pow_succ_r by lia; f_equal; lia).
  assert (0 < 2 ^ k) as Hpos by lia. split; [|by apply Z.mod_pos_bound]. unfold signed.
  destruct (Z.ltb_spec (n mod 2 ^ k) (2 ^ (k - 1))) as [Hlt|Hge].
  - destruct (decide (0 ≤ n)); [by rewrite Z.mod_small by lia|]. exfalso. revert Hlt. replace n with (n + 2 ^ k + (-1) * 2 ^ k) by lia. rewrite Z.mod_add by lia. rewrite Z.mod_small by lia. lia.
  - destruct (decide (0 ≤ n)); [rewrite Z.mod_small in Hge by lia; lia|]. replace n with (n + 2 ^ k + (-1) * 2 ^ k) at 1 by lia. rewrite Z.mod_add by lia. rewrite Z.mod_small by lia. lia.
Qed.

(** The length of a slice or map. *)
Lemma sound_length N : sound N unmarshal_length (λ n bs, bs = put_uint 4 n ∧ 0 ≤ n ≤ MaxInt32).
Proof.
  intros p Hp _. unfold unmarshal_length, mbind, PM_bind, get_Err. destruct (unpacks_uint 4 UnpackInt p (rd_slice _ Hp) (unpack_uint 4 p)) as (n & p' & -> & Hcase).
  destruct Hcase as [[Hn Hr]|[[Hi He]%fails_intact _]].
  - destruct (reads_ready _ _ _ Hp Hr) as ([_ He _] & Hi & _). rewrite He. eexists _, p'. split; [done|]. split; [done|].
    destruct (Z.ltb_spec MaxInt32 n); [done|]. eexists. split; [split; [done|lia]|done].
  - destruct (pk_Err p') as [e|]; [|done]. by eexists _, p'.
Qed.

Lemma complete_length n : 0 ≤ n ≤ MaxInt32 → complete unmarshal_length (put_uint 4 n) n.
Proof.
  intros Hn p rest Hp Hu. unfold unmarshal_length, mbind, PM_bind, get_Err. destruct (unpacks_uint 4 UnpackInt p (rd_slice _ Hp) (unpack_uint 4 p)) as (m & p' & -> & Hcase).
  assert (0 ≤ n < 2 ^ (8 * Z.of_nat 4)) as Hn' by (unfold MaxInt32 in Hn; lia).
  destruct Hcase as [[Hm Hr]|[_ Hun]]; [|by destruct (Hun (rd_err _ Hp) (rd_inside _ Hp) n Hn' rest)].
  destruct (reads_ready _ _ _ Hp Hr) as (Hp' & _ & Hu' & ->). rewrite Hu in Hu'. apply put_uint_prefix in Hu' as [<- _]; [|done|done].
  rewrite (rd_err _ Hp'), (proj2 (Z.ltb_ge _ _)) by lia. done.
Qed.

(** ** Arrays and slices *)

Lemma sound_array N m Q n : sound N m Q → sound N (unmarshal_array m n) (λ vs bs, length vs = n ∧ ∃ bl, Forall2 Q vs bl ∧ bs = concat bl).
Proof.
  intros Hm. induction n as [|n IH]; [apply sound_ret; split; [done|]; by exists []|].
  change (sound N (then_read m (λ v, map_read (unmarshal_array m n) (cons v))) (λ vs bs, length vs = S n ∧ ∃ bl, Forall2 Q vs bl ∧ bs = concat bl)).
  eapply sound_then; [exact Hm|]. intros v b Hv _. eapply sound_map; [eapply sound_mono; [|exact IH]; lia|].
  intros vs bs (<- & bl & Hbl & ->). split; [done|]. exists (b :: bl). split; [by constructor|done].
Qed.

Lemma complete_array m vs bl : Forall2 (λ v b, complete m b v) vs bl → complete (unmarshal_array m (length vs)) (concat bl) vs.
Proof.
  induction 1 as [|v b vs bl Hv _ IH]; [apply complete_ret|]. simpl.
  eapply (complete_then m (λ v, map_read (unmarshal_array m (length vs)) (cons v))); [exact Hv|]. by apply (complete_map _ (cons v)).
Qed.

Lemma sound_nonzero N m Q : sound N m Q → sound N (unmarshal_nonzero m) (λ v bs, Q v bs ∧ bs ≠ []).
Proof.
  intros Hm p Hp HN. unfold unmarshal_nonzero, mbind, PM_bind, get_Offset. destruct (Hm p Hp HN) as (r & p' & -> & Hi & Hr).
  destruct r as [v|e]; [|by exists (Err e), p']. eexists _, p'. split; [done|]. split; [done|]. destruct Hr as (bs & HQ & Hr).
  destruct (Z.eqb_spec (pk_Offset p) (pk_Offset p')) as [|Hne]; [done|]. exists bs. split; [|done]. split; [done|]. intros ->.
  apply Hne. destruct Hr as (_ & _ & _ & ->). simpl. lia.
Qed.

Lemma complete_nonzero m bs v : complete m bs v → bs ≠ [] → complete (unmarshal_nonzero m) bs v.
Proof.
  intros Hm Hne p rest Hp Hu. unfold unmarshal_nonzero, mbind, PM_bind, get_Offset. rewrite (Hm p rest Hp Hu). simpl.
  rewrite (proj2 (Z.eqb_neq _ _)); [done|]. destruct bs; [done|]. simpl. lia.
Qed.

(** ** Maps *)

(** The encodings of the entries, with increasing keys after [prev]. *)
Record increasing (prev : option bytes) (l : list (bytes * bytes)) : Prop := {
  inc_sorted : StronglySorted blt (map fst l);
  inc_after : ∀ k, prev = Some k → Forall (blt k) (map fst l);
  inc_nonempty : Forall (λ kv, kv.1 ++ kv.2 ≠ []) l;
}.

Lemma increasing_cons prev kv l :
  increasing prev (kv :: l) ↔ (∀ k, prev = Some k → blt k kv.1) ∧ kv.1 ++ kv.2 ≠ [] ∧ increasing (Some kv.1) l.
Proof.
  split.
  - intros [Hs Ha Hn]. simpl in Hs. apply StronglySorted_inv in Hs as [Hs Hf]. apply Forall_cons in Hn as [? ?]. split; [|split; [done|]].
    + intros k Hk. specialize (Ha k Hk). by apply Forall_cons in Ha as [? _].
    + split; [done| |done]. by intros k [= <-].
  - intros (Hp & Hne & [Hs Ha Hn]). split; simpl.
    + constructor; [done|]. by apply Ha.
    + intros k Hk. constructor; [by apply Hp|]. eapply Forall_impl; [by apply Ha|]. intros x. apply transitivity, Hp, Hk.
    + by constructor.
Qed.

Definition cat_pairs (l : list (bytes * bytes)) : bytes := concat (map (λ kv, kv.1 ++ kv.2) l).

Section Entries.
Context (struct_of : Z → list field) (tags : list string) (comparable : ty → bool) (tk : ty).
Abbreviation hashes := (hashable struct_of tags comparable).
Abbreviation read_entries := (unmarshal_entries struct_of tags comparable tk).

Lemma sound_entries N mk mv Qk Qv prev n :
  sound N mk Qk → sound N mv Qv → (∀ k bs, Qk k bs → hashes k tk = true) →
  sound N (read_entries mk mv prev n)
    (λ kvs bs, length kvs = n ∧ ∃ l, Forall2 (λ kv e, Qk kv.1 e.1 ∧ Qv kv.2 e.2) kvs l ∧ increasing prev l ∧ bs = cat_pairs l).
Proof.
  intros Hk Hv Hh. revert prev. induction n as [|n IH]; intros prev; [apply sound_ret; split; [done|]; exists []; split; [done|]; split; [|done]; split; simpl; intros; constructor|].
  intros p Hp HN. simpl. unfold mbind, PM_bind, get_Offset, get_packer. destruct (Hk p Hp HN) as (r & p1 & -> & Hi1 & Hr1).
  destruct r as [k|e]; [|by exists (Err e), p1]. destruct Hr1 as (kb & HQk & Hr1). destruct (reads_ready _ _ _ Hp Hr1) as (Hp1 & _). destruct (reads_left _ _ _ _ Hp Hr1 HN) as [_ HN1].
  rewrite (reads_slice_bytes _ _ _ Hp Hr1). destruct (match prev with Some k => bool_decide (ble kb k) | None => false end) eqn:Hprev; [by eexists _, p1|].
  destruct (Hv p1 Hp1 ltac:(lia)) as (r & p2 & -> & Hi2 & Hr2). destruct r as [v|e]; [|eexists _, p2; split; [done|]; split; [by eapply intact_trans|done]].
  destruct Hr2 as (vb & HQv & Hr2). destruct (reads_ready _ _ _ Hp1 Hr2) as (Hp2 & _). destruct (reads_left _ _ _ _ Hp1 Hr2 HN1) as [_ HN2]. pose proof (reads_trans _ _ _ _ _ (rd_slice _ Hp) Hr1 Hr2) as Hr12.
  destruct (Z.eqb_spec (pk_Offset p) (pk_Offset p2)) as [|Hne]; [eexists _, p2; split; [done|]; split; [by eapply intact_trans|done]|].
  rewrite (Hh k kb HQk). destruct (IH (Some kb) p2 Hp2 ltac:(lia)) as (r & p3 & -> & Hi3 & Hr3). eexists _, p3. split; [done|]. split; [by do 2 (eapply intact_trans; [done|])|].
  destruct r as [kvs|e]; [|done]. destruct Hr3 as (bs & (<- & l & Hl & Hinc & ->) & Hr3). exists ((kb ++ vb) ++ cat_pairs l).
  split; [|by eapply reads_trans; [apply Hp|..]]. split; [done|]. exists ((kb, vb) :: l). split; [by constructor|]. split; [|done].
  apply increasing_cons. split; [|split; [|done]].
  - intros k' ->. simpl. apply not_ble. by apply bool_decide_eq_false in Hprev.
  - simpl. intros Hnil. apply Hne. destruct Hr12 as (_ & _ & _ & ->). rewrite Hnil. simpl. lia.
Qed.

Lemma complete_entries mk mv prev kvs l :
  Forall2 (λ kv e, complete mk e.1 kv.1 ∧ complete mv e.2 kv.2) kvs l → Forall (λ kv, hashes kv.1 tk = true) kvs → increasing prev l →
  complete (read_entries mk mv prev (length kvs)) (cat_pairs l) kvs.
Proof.
  intros Hl. revert prev. induction Hl as [|[k v] [kb vb] kvs l [Hk Hv] _ IH]; intros prev Hh Hinc; [apply complete_ret|]. apply Forall_cons in Hh as [Hkh Hh].
  apply increasing_cons in Hinc as (Hprev & Hne & Hinc). simpl in *. intros p rest Hp Hu. unfold mbind, PM_bind, get_Offset, get_packer.
  unfold cat_pairs in Hu. simpl in Hu. rewrite <- !app_assoc in Hu. rewrite (Hk p _ Hp Hu).
  destruct (advance_ready _ _ _ Hp Hu) as [Hp1 Hu1]. rewrite (reads_slice_bytes p kb _ Hp (reads_next _ _ _ Hp Hu)).
  assert (match prev with Some k => bool_decide (ble kb k) | None => false end = false) as ->.
  { destruct prev as [k'|]; [|done]. apply bool_decide_eq_false, not_ble. by apply Hprev. }
  rewrite (Hv _ _ Hp1 Hu1). destruct (advance_ready _ _ _ Hp1 Hu1) as [Hp2 Hu2]. rewrite advance_advance in *.
  rewrite (proj2 (Z.eqb_neq _ _)) by (simpl; destruct (kb ++ vb); [done|simpl; lia]).
  rewrite Hkh, (IH (Some kb) Hh Hinc _ _ Hp2 Hu2). rewrite advance_advance. done.
Qed.
End Entries.

Lemma increasing_sorted l : increasing None l → merge_sort entry_le l = l ∧ NoDup (map fst l).
Proof.
  intros [Hs _ _]. assert (NoDup (map fst l)) as Hnd.
  { clear -Hs. induction Hs as [|k ks _ IH Hk]; constructor; [|done]. intros Hin. rewrite Forall_forall in Hk. specialize (Hk k Hin). by apply (irreflexivity blt) in Hk. }
  split; [|done]. apply sort_entries; [done|done|]. clear Hnd. induction l as [|e l IH]; [constructor|]. simpl in Hs. apply StronglySorted_inv in Hs as [Hs He].
  constructor; [by apply IH|]. change (map fst l) with (fst <$> l) in He. rewrite Forall_fmap in He. eapply Forall_impl; [exact He|]. intros x Hx. apply ble_cases. by left.
Qed.

(** ** Structs *)

Section Structs.
Context (fs : list field) (m : ty → unmarshaler).

(** The fields [idx] were read into [vs'], the others are those of [vs]. *)
Definition fields_read (Q : ty → val → bytes → Prop) (idx : list nat) (vs vs' : list val) (bl : list bytes) : Prop :=
  length vs' = length vs ∧ (∀ j, j ∉ idx → vs' !! j = vs !! j) ∧
  Forall2 (λ i b, ∃ f v, fs !! i = Some f ∧ vs' !! i = Some v ∧ Q (f_type f) v b) idx bl.

Lemma fields_read_cons Q i idx vs vs' bl f v b :
  i ∉ idx → (i < length vs)%nat → fs !! i = Some f → Q (f_type f) v b → fields_read Q idx (<[i := v]> vs) vs' bl → fields_read Q (i :: idx) vs vs' (b :: bl).
Proof.
  intros Hi Hlt Hf HQ (Hlen & Hout & Hin). split; [by rewrite length_insert in Hlen|]. split.
  - intros j [Hne Hj]%not_elem_of_cons. rewrite (Hout j Hj). by rewrite list_lookup_insert_ne.
  - constructor; [|done]. exists f, v. split; [done|]. split; [|done]. rewrite (Hout i Hi). by rewrite list_lookup_insert_eq.
Qed.

Lemma sound_fields N Q idx vs :
  (∀ i f, i ∈ idx → fs !! i = Some f → sound N (m (f_type f)) (Q (f_type f))) → NoDup idx → length vs = length fs → (∀ i, i ∈ idx → (i < length fs)%nat) →
  sound N (unmarshal_fields m fs idx vs) (λ v bs, ∃ vs' bl, v = VStruct vs' ∧ fields_read Q idx vs vs' bl ∧ bs = concat bl).
Proof.
  intros Hm Hnd. revert vs. induction Hnd as [|i idx Hi _ IH]; intros vs Hlen Hlt; simpl.
  { apply sound_ret. exists vs, []. split; [done|]. split; [|done]. split; [done|]. split; [done|constructor]. }
  destruct (lookup_lt_is_Some_2 fs i) as [f Hf]; [apply Hlt; by left|]. rewrite Hf.
  eapply (sound_then _ (m (f_type f)) (λ v, unmarshal_fields m fs idx (<[i := v]> vs))); [eapply Hm; [by left|done]|]. intros v b Hv _.
  eapply sound_impl; [eapply sound_mono; [|apply IH; [intros j f' Hj; apply Hm; by right|by rewrite length_insert|intros j Hj; apply Hlt; by right]]; lia|].
  intros w bs (vs' & bl & -> & Hr & ->). exists vs', (b :: bl). split; [done|]. split; [|done].
  eapply fields_read_cons; [done| |done|done|done]. rewrite Hlen. by apply lookup_lt_Some in Hf.
Qed.

Lemma complete_fields idx vs (pick : nat → val) bl :
  NoDup idx → length vs = length fs → Forall2 (λ i b, ∃ f, fs !! i = Some f ∧ complete (m (f_type f)) b (pick i)) idx bl →
  complete (unmarshal_fields m fs idx vs) (concat bl) (VStruct (foldl (λ vs i, <[i := pick i]> vs) vs idx)).
Proof.
  intros Hnd Hlen Hbl. revert vs Hlen. induction Hbl as [|i b idx bl (f & Hf & Hc) _ IH]; intros vs Hlen; simpl; [apply complete_ret|].
  apply NoDup_cons in Hnd as [Hi Hnd]. rewrite Hf. eapply (complete_then (m (f_type f)) (λ v, unmarshal_fields m fs idx (<[i := v]> vs))); [exact Hc|].
  apply IH; [done|by rewrite length_insert].
Qed.
End Structs.

Lemma set_fields_lookup (pick : nat → val) idx vs j :
  NoDup idx → (∀ i, i ∈ idx → (i < length vs)%nat) →
  length (foldl (λ vs i, <[i := pick i]> vs) vs idx) = length vs ∧
  foldl (λ vs i, <[i := pick i]> vs) vs idx !! j = if decide (j ∈ idx) then Some (pick j) else vs !! j.
Proof.
  intros Hnd. revert vs. induction Hnd as [|i idx Hi _ IH]; intros vs Hlt; simpl; [done|].
  destruct (IH (<[i := pick i]> vs)) as [Hlen Hj]; [intros k Hk; rewrite length_insert; apply Hlt; by right|]. rewrite length_insert in Hlen. split; [done|]. rewrite Hj.
  destruct (decide (j = i)) as [->|Hne].
  - rewrite decide_False by done. rewrite decide_True by by left. apply list_lookup_insert_eq, Hlt. by left.
  - rewrite list_lookup_insert_ne by done. destruct (decide (j ∈ idx)); [by rewrite decide_True by by right|]. rewrite decide_False; [done|]. by intros [?|?]%elem_of_cons.
Qed.

(** ** Unmarshaling returns encoded values only *)

Section Unmarshal.
Context (grow : Z → Z → Z) (struct_of : Z → list field) (tags : list string) (comparable : ty → bool) (implements : ty → Z → bool).
Context `{TC : TypeCodec} `{TL : !TypeCodecLaws grow implements TC}.

Abbreviation encoding := (enc struct_of tags type_id).
Abbreviation typed := (wf struct_of tags comparable implements type_id).
Abbreviation hashes := (hashable struct_of tags comparable).
Abbreviation read := (unmarshal struct_of tags comparable).
Abbreviation read_map := (unmarshal_map struct_of tags comparable).

(** ** The types of the parts of a value *)

(** A type that may stand for the interface. *)
Definition registered (dt : ty) (i : Z) : Prop := implements dt i = true ∧ type_id dt ≠ None.

(** A value of type [t] is unmarshaled by unmarshaling values of these types. *)
Inductive part (t : ty) : ty → Prop :=
| part_ptr e : underlying t = TPtr e → part t e
| part_slice e : underlying t = TSlice e → part t e
| part_array n e : underlying t = TArray n e → part t e
| part_field s f : underlying t = TStruct s → f ∈ struct_of s → captured tags f = true → part t (f_type f)
| part_key k v : underlying t = TMap k v → part t k
| part_value k v : underlying t = TMap k v → part t v
| part_dynamic i dt : underlying t = TInterface i → registered dt i → part t dt.

(** The hash of a value of type [t] depends on values of these types. *)
Inductive inline (t : ty) : ty → Prop :=
| inline_array n e : underlying t = TArray n e → inline t e
| inline_field s f : underlying t = TStruct s → f ∈ struct_of s → captured tags f = true → inline t (f_type f)
| inline_dynamic i dt : underlying t = TInterface i → registered dt i → inline t dt.

(** An array of bytes is one of [byte] itself, not of a type named after it. *)
Definition byte_array_ok (t : ty) : Prop := ∀ n e, underlying t = TArray n e → underlying e = TUint8 → e = TUint8.

Definition hash_part_ok (t : ty) : Prop :=
  match underlying t with
  | TSlice _ | TMap _ _ => False
  | TInterface i => ∀ dt, registered dt i → comparable dt = true
  | _ => True
  end.

(** All values of type [k] can be hashed. *)
Definition hash_ok (k : ty) : Prop := ∀ k', rtc inline k k' → hash_part_ok k'.

(** At most [d] steps through pointers, arrays and fields lead to a slice, a map, an
    interface or a type without parts. *)
Fixpoint shallow (d : nat) (t : ty) : Prop :=
  match d with
  | O => False
  | S d =>
      match underlying t with
      | TPtr e | TArray _ e => shallow d e
      | TStruct s => ∀ f, f ∈ struct_of s → captured tags f = true → shallow d (f_type f)
      | _ => True
      end
  end.

Definition byte_arrays (t : ty) : Prop := ∀ t', rtc part t t' → byte_array_ok t'.

(** The types that are unmarshaled without panic and without endless recursion: arrays of
    bytes are arrays of [byte], keys of maps can be hashed, and a type contains itself
    through slices, maps or interfaces only. *)
Record unmarshalable (D : nat) (t : ty) : Prop := {
  um_bytes : byte_arrays t;
  um_keys : ∀ t' k v, rtc part t t' → underlying t' = TMap k v → hash_ok k;
  um_depth : ∀ t', rtc part t t' → shallow D t';
}.

Lemma unmarshalable_part D t t' : unmarshalable D t → part t t' → unmarshalable D t'.
Proof. intros [H1 H2 H3] Hp. split; [intros t'' ?|intros t'' ? ? ?|intros t'' ?]; eauto using rtc_l. Qed.

Lemma byte_arrays_part t t' : byte_arrays t → part t t' → byte_arrays t'.
Proof. intros H Hp t'' ?. eauto using rtc_l. Qed.

Lemma hash_ok_inline k k' : hash_ok k → inline k k' → hash_ok k'.
Proof. intros H Hp k'' ?. eauto using rtc_l. Qed.

(** A set of types closed under parts holds all types that are reached. *)
Lemma rtc_closed (R : ty → ty → Prop) (P : ty → Prop) t t' : (∀ x y, P x → R x y → P y) → P t → rtc R t t' → P t'.
Proof. intros HR Ht Hr. induction Hr; eauto. Qed.

Definition decodes (t : ty) (st : list ty) (v : val) (bs : bytes) : Prop := typed v t st ∧ encoding v t st = Some bs.

Lemma decodes_list t st vs bl :
  Forall2 (decodes t st) vs bl → Forall (λ v, typed v t st) vs ∧ map (λ v, encoding v t st) vs = map Some bl.
Proof. induction 1 as [|v b vs bl [Hw He] _ [IH1 IH2]]; simpl; [done|]. split; [by constructor|]. by rewrite He, IH2. Qed.

Lemma byte_values t st bs : underlying t = TUint8 → Forall is_byte bs →
  Forall (λ v, typed v t st) (VNum <$> bs) ∧ map (λ v, encoding v t st) (VNum <$> bs) = map Some ((λ b, [b]) <$> bs).
Proof. intros Hu. induction 1 as [|b bs Hb _ [IH1 IH2]]; simpl; [done|]. rewrite Hu. split; [constructor; [simpl; by rewrite Hu|done]|]. by f_equal. Qed.

Lemma concat_singletons (bs : bytes) : concat ((λ b, [b]) <$> bs) = bs.
Proof. induction bs as [|b bs IH]; [done|]. simpl. by f_equal. Qed.

Lemma sound_slice N t te st m :
  underlying t = TSlice te → ((4 ≤ N)%nat → sound (N - 4) m (decodes te st)) → sound N (unmarshal_slice te m) (decodes t st).
Proof.
  intros Hu Hm.
  assert (∀ vs bl, Z.of_nat (length vs) ≤ MaxInt32 → Forall (λ v, typed v te st) vs → map (λ v, encoding v te st) vs = map Some bl → Forall (λ b, b ≠ []) bl →
    decodes t st (VSlice vs) (put_uint 4 (Z.of_nat (length vs)) ++ concat bl)) as Hdone.
  { intros vs bl Hlen Hvs Hbl Hne. split; simpl; rewrite Hu.
    - split; [unfold small, MaxInt32 in *; lia|by apply all_map].
    - apply enc_slice_some. rewrite length_map. split; [done|]. by exists bl. }
  eapply (sound_then _ unmarshal_length (λ numElts, if decide (underlying te = TUint8) then bs ← UnpackFixedBytes numElts; unpacked (VSlice (VNum <$> bs))
      else map_read (unmarshal_array (unmarshal_nonzero m) (Z.to_nat numElts)) VSlice)); [apply sound_length|].
  intros n bs [-> Hn] HN. rewrite put_uint_length in *. case_decide as He.
  - eapply sound_unpacked; [intros p; apply (unpacks_fixed n)|]. intros bs [Hb Hlen]. destruct (byte_values te st bs He Hb) as [H1 H2].
    specialize (Hdone (VNum <$> bs) _ ltac:(rewrite length_fmap; lia) H1 H2). rewrite length_fmap, Hlen, concat_singletons in Hdone. apply Hdone.
    apply Forall_fmap, Forall_true. done.
  - eapply sound_map; [by apply sound_array, sound_nonzero, Hm|]. intros vs bs (Hlen & bl & Hbl & ->).
    assert (Forall2 (decodes te st) vs bl ∧ Forall (λ b, b ≠ []) bl) as [Hd Hne]. { clear -Hbl. induction Hbl as [|? ? ? ? [? ?] _ [? ?]]; split; constructor; done. }
    destruct (decodes_list _ _ _ _ Hd) as [H1 H2]. specialize (Hdone vs bl ltac:(lia) H1 H2 Hne). by replace (Z.of_nat (length vs)) with n in Hdone by lia.
Qed.

(** The serialized fields of a struct are encoded. *)
Lemma struct_field_decodes t s st vs bs i v f :
  decodes t st (VStruct vs) bs → underlying t = TStruct s → vs !! i = Some v → struct_of s !! i = Some f → captured tags f = true → ∃ b, decodes (f_type f) st v b.
Proof.
  intros [Hw He] Hu Hv Hf Hc. cbn [wf enc] in Hw, He. rewrite Hu in Hw, He. destruct Hw as [Hlen Hw]. rewrite all_zip in Hw. unfold pick in He.
  destruct (GetSerializedFields struct_of tags s) as [idx|] eqn:Hidx; [|done]. destruct (mapM _ idx) as [l|] eqn:Hl; [|done]. apply cat_some in He as (bl & -> & _). apply mapM_Some in Hl.
  destruct (serialized_spec struct_of tags s idx Hidx) as [_ Hin]. assert (i ∈ idx) as [j Hj]%list_elem_of_lookup by (apply Hin; by exists f).
  destruct (Forall2_lookup_l _ _ _ j i Hl Hj) as (x & Hx & Hat). change (map ?g vs) with (g <$> vs) in *. rewrite list_lookup_fmap, Hv, Hf in Hat. cbn in Hat.
  change (map ?g bl) with (g <$> bl) in Hx. rewrite list_lookup_fmap in Hx. destruct (bl !! j) as [b|]; [|done]. exists b. split; [|cbn in Hx; congruence].
  apply (Hw i (λ t, typed v t st) f); [|done|done]. change (map ?g vs) with (g <$> vs). by rewrite list_lookup_fmap, Hv.
Qed.

Lemma forallb_zip (hs : list (ty → bool)) (fs : list field) :
  (∀ i h f, hs !! i = Some h → fs !! i = Some f → captured tags f = true → h (f_type f) = true) →
  forallb id (zip_with (λ (h : ty → bool) f, implb (captured tags f) (h (f_type f))) hs fs) = true.
Proof.
  revert fs. induction hs as [|h hs IH]; intros [|f fs] H; try done. cbn. apply andb_true_iff. split; [|apply IH; intros i; apply (H (S i))].
  unfold id. destruct (captured tags f) eqn:Hc; [|done]. by apply (H 0%nat).
Qed.

Lemma decodes_hashable t st v bs : hash_ok t → decodes t st v bs → hashes v t = true.
Proof.
  revert t st bs. induction v as [n|b|s|o IH|o IH|vs IH|vs IH|vs IH|kvs IH|] using val_ind'; intros t st bs Hk Hd; pose proof (Hk t (rtc_refl _ _)) as Hh; unfold hash_part_ok in Hh; cbn [Codec.hashable];
    destruct (underlying t) as [| | | | | | | | | |t'|i|te|k te|sn|tk tv|? ?|?] eqn:Hu; try done.
  - destruct o as [[dt v]|]; [|done]. destruct Hd as [Hw He]. cbn [wf enc] in Hw, He. rewrite Hu in Hw, He. destruct Hw as [Himp Hw]. case_decide; [done|].
    destruct (type_id dt) as [id|] eqn:Hid; [|done]. destruct (encoding v dt (dt :: st)) as [b|] eqn:Hb; [|done]. assert (registered dt i) as Hreg by (split; congruence).
    rewrite (Hh dt Hreg). eapply (IH dt v eq_refl dt (dt :: st) b); [by eapply hash_ok_inline, inline_dynamic|done].
  - destruct Hd as [Hw He]. cbn [wf enc] in Hw, He. rewrite Hu in Hw, He. destruct Hw as [_ Hw]. apply all_map in Hw. apply cat_some in He as (bl & Hbl & _).
    assert (hash_ok te) as Hte by (by eapply hash_ok_inline, inline_array). clear Hk Hh Hu. revert bl Hbl. induction IH as [|v vs Hv _ IHvs]; intros [|b bl] Hbl; try done. cbn in Hbl |- *. injection Hbl as Hb Hbl.
    apply Forall_cons in Hw as [? ?]. rewrite (Hv te st b Hte ltac:(done)). by eapply IHvs.
  - apply forallb_zip. intros j h f Hj Hf Hc. change (map ?g vs) with (g <$> vs) in Hj. apply list_lookup_fmap_Some in Hj as (v & -> & Hv).
    destruct (struct_field_decodes _ _ _ _ _ _ _ _ Hd Hu Hv Hf Hc) as [b Hb]. rewrite Forall_forall in IH. apply (IH v ltac:(by apply list_elem_of_lookup_2 in Hv) (f_type f) st b); [|done].
    eapply hash_ok_inline, inline_field; [done|done|by apply list_elem_of_lookup_2 in Hf|done].
Qed.

Lemma fields_error s e : GetSerializedFields struct_of tags s = Err e → e ≠ OutOfFuel.
Proof.
  unfold GetSerializedFields. generalize 0%nat. induction (struct_of s) as [|f fs IH]; intros i; [done|]. cbn. destruct (captured tags f); cbn; [|apply IH].
  destruct (f_exported f); cbn; [|by intros [= <-]]. specialize (IH (S i)). destruct (fields_loop tags (S i) fs) as [l|e']; [done|]. intros [= <-]. by apply IH.
Qed.

Lemma sound_map_type N t tk tv st mk mv :
  underlying t = TMap tk tv → hash_ok tk → ((4 ≤ N)%nat → sound (N - 4) mk (decodes tk st) ∧ sound (N - 4) mv (decodes tv st)) → sound N (read_map tk mk mv) (decodes t st).
Proof.
  intros Hu Hh Hkv. eapply (sound_then _ unmarshal_length (λ numElts, map_read (unmarshal_entries struct_of tags comparable tk mk mv None (Z.to_nat numElts)) VMap)); [apply sound_length|].
  intros n bs [-> Hn] HN. rewrite put_uint_length in *. destruct (Hkv HN) as [Hk Hv]. eapply sound_map; [apply sound_entries; [done|done|intros k bs; by apply decodes_hashable]|]. intros kvs bs (Hlen & l & Hl & Hinc & ->). simpl in *.
  assert (map (λ '(k, v), (encoding k tk st, encoding v tv st)) kvs = map (λ kv, (Some kv.1, Some kv.2)) l) as Henc.
  { clear -Hl. induction Hl as [|[k v] [a b] kvs l [[_ Ha] [_ Hb]] _ IH]; simpl in *; [done|]. by rewrite Ha, Hb, IH. }
  assert (Forall (λ '(k, v), typed k tk st ∧ typed v tv st) kvs) as Hty.
  { clear -Hl. induction Hl as [|[k v] [a b] kvs l [[? _] [? _]] _ IH]; constructor; done. }
  assert (omap (λ kv, encoding kv.1 tk st) kvs = map fst l) as Hkeys.
  { clear -Hl. induction Hl as [|[k v] [a b] kvs l [[_ Ha] _] _ IH]; [done|]. cbn in *. rewrite Ha. by f_equal. }
  assert (Forall (λ kv, hashes kv.1 tk = true) kvs) as Hhash.
  { clear -Hl Hh. induction Hl as [|[k v] [a b] kvs l [Hk _] _ IH]; constructor; [by eapply decodes_hashable|done]. }
  destruct (increasing_sorted l Hinc) as [Hsort Hnd]. split; simpl; rewrite Hu.
  - split; [unfold small, MaxInt32 in *; lia|]. split; [by apply all_map|]. split; [by rewrite Hkeys|done].
  - apply enc_map_some. rewrite length_map. split; [lia|]. exists l. split; [done|]. split; [apply Hinc|]. rewrite Hsort.
    by replace (Z.of_nat (length kvs)) with n by lia.
Qed.

Lemma sound_struct N t s st m idx :
  underlying t = TStruct s → (∀ f, f ∈ struct_of s → captured tags f = true → sound N (m (f_type f)) (decodes (f_type f) st)) → GetSerializedFields struct_of tags s = Ok idx →
  sound N (unmarshal_fields m (struct_of s) idx (replicate (length (struct_of s)) VKeep)) (decodes t st).
Proof.
  intros Hu Hm Hidx. destruct (serialized_spec struct_of tags s idx Hidx) as [Hs Hin]. eapply sound_impl.
  - apply (sound_fields _ _ _ (λ t, decodes t st)); [| |by rewrite length_replicate|].
    + intros i f Hi Hf. destruct (proj1 (Hin i) Hi) as (f' & Hf' & Hc). apply Hm; [by apply list_elem_of_lookup_2 in Hf|congruence].
    + clear -Hs. induction Hs as [|i idx _ IH Hi]; constructor; [|done]. intros Hin. rewrite Forall_forall in Hi. specialize (Hi i Hin). lia.
    + intros i (f & Hf & _)%Hin. by apply lookup_lt_Some in Hf.
  - intros v bs (vs & bl & -> & (Hlen & _ & Hread) & ->). rewrite length_replicate in Hlen. split; simpl; rewrite Hu.
    + split; [done|]. apply all_zip. intros k P f HP Hf Hc. change (map ?g vs) with (g <$> vs) in HP. apply list_lookup_fmap_Some in HP as (v & -> & Hv).
      assert (k ∈ idx) as Hk by (apply Hin; by exists f).
      clear -Hread Hk Hf Hv. induction Hread as [|i b idx bl (f' & v' & Hf' & Hv' & Hd) _ IH]; [by apply elem_of_nil in Hk|].
      apply elem_of_cons in Hk as [->|Hk]; [|by apply IH]. rewrite Hf in Hf'. rewrite Hv in Hv'. injection Hf' as <-. injection Hv' as <-. apply Hd.
    + unfold pick. rewrite Hidx. rewrite (proj2 (mapM_Some _ _ (map Some bl))).
      * simpl. apply cat_some. by exists bl.
      * clear -Hread. induction Hread as [|i b idx bl (f & v & Hf & Hv & _ & He) _ IH]; simpl; constructor; [|done].
        change (map ?g vs) with (g <$> vs). rewrite list_lookup_fmap, Hv, Hf. simpl. by rewrite He.
Qed.

Lemma unmarshal_sound D fuel d N t st :
  unmarshalable D t → shallow d t → (d + D * N ≤ fuel)%nat → sound N (read fuel t st) (decodes t st).
Proof.
  revert d N t st. induction fuel as [|fuel IH]; intros [|d] N t st Ht Hd Hfuel; try done; [lia|].
  assert (∀ N' dt st', unmarshalable D dt → (N' < N)%nat → sound N' (read fuel dt st') (decodes dt st')) as Hnext.
  { intros N' dt st' Hdt HN. apply (IH D); [done|apply (um_depth _ _ Hdt); constructor|nia]. }
  pose proof (unmarshalable_part D t) as Hpart. cbn [Codec.unmarshal shallow] in *.
  destruct (underlying t) as [| | | | | | | | | |t'|i|te|k te|sn|tk tv|? ?|?] eqn:Hu; try (by apply sound_err).
  - eapply sound_unpacked; [intros p Hp; apply (unpacks_uint 1 _ _ Hp (unpack_uint 1 p))|]. intros n Hn. split; cbn [wf enc]; rewrite Hu; [exact Hn|by rewrite put_byte].
  - eapply sound_unpacked; [intros p Hp; apply (unpacks_uint 1 _ _ Hp (unpack_uint 1 p))|]. intros n Hn. destruct (signed_range 8 n) as [Hr Hm]; [lia|exact Hn|]. split; cbn [wf enc]; rewrite Hu; [exact Hr|by rewrite put_byte, Hm].
  - eapply sound_unpacked; [intros p Hp; apply (unpacks_uint 2 _ _ Hp (unpack_uint 2 p))|]. intros n Hn. split; cbn [wf enc]; rewrite Hu; [exact Hn|done].
  - eapply sound_unpacked; [intros p Hp; apply (unpacks_uint 2 _ _ Hp (unpack_uint 2 p))|]. intros n Hn. destruct (signed_range 16 n) as [Hr Hm]; [lia|exact Hn|]. split; cbn [wf enc]; rewrite Hu; [exact Hr|by rewrite Hm].
  - eapply sound_unpacked; [intros p Hp; apply (unpacks_uint 4 _ _ Hp (unpack_uint 4 p))|]. intros n Hn. split; cbn [wf enc]; rewrite Hu; [exact Hn|done].
  - eapply sound_unpacked; [intros p Hp; apply (unpacks_uint 4 _ _ Hp (unpack_uint 4 p))|]. intros n Hn. destruct (signed_range 32 n) as [Hr Hm]; [lia|exact Hn|]. split; cbn [wf enc]; rewrite Hu; [exact Hr|by rewrite Hm].
  - eapply sound_unpacked; [intros p Hp; apply (unpacks_uint 8 _ _ Hp (unpack_uint 8 p))|]. intros n Hn. split; cbn [wf enc]; rewrite Hu; [exact Hn|done].
  - eapply sound_unpacked; [intros p Hp; apply (unpacks_uint 8 _ _ Hp (unpack_uint 8 p))|]. intros n Hn. destruct (signed_range 64 n) as [Hr Hm]; [lia|exact Hn|]. split; cbn [wf enc]; rewrite Hu; [exact Hr|by rewrite Hm].
  - eapply sound_unpacked; [apply unpacks_bool|]. intros b _. split; cbn [wf enc]; by rewrite Hu.
  - eapply sound_unpacked; [apply unpacks_string|]. intros s [[Hb Hlen] _]. change (2 ^ (8 * Z.of_nat 2)) with 65536 in Hlen. split; cbn [wf enc]; rewrite Hu.
    + split; [done|]. unfold small. lia.
    + rewrite (proj2 (Z.ltb_ge _ _)) by (unfold MaxStringLen; lia). done.
  - eapply (sound_map _ _ (λ v, VPtr (Some v))); [apply (IH d N t'); [by eapply Hpart, part_ptr|done|lia]|]. intros v bs [Hw He]. split; cbn [wf enc]; by rewrite Hu.
  - eapply (sound_then _ (UnpackPrefix i) (λ dt, if decide (dt ∈ st) then mret (Err errRecursiveInterfaceTypes)
      else map_read (read fuel dt (dt :: st)) (λ v, VInterface (Some (dt, v))))) with (Q := λ dt bs, implements dt i = true ∧ type_id dt = Some bs).
    { intros p [Hs He Hi] _. destruct (unpack_sound i p Hs He Hi) as (r & p' & ? & ? & ? & Hr). exists r, p'. split; [done|]. split; [done|].
      destruct r; [|done]. destruct Hr as (? & bs & ? & ?). by exists bs. }
    intros dt id [Himp Hid] Hlen. case_decide as Hst; [by apply sound_err|]. pose proof (prefix_nonempty dt id Hid) as Hid0.
    eapply sound_map; [apply Hnext; [apply Hpart; [done|]; eapply part_dynamic; [exact Hu|split; congruence]|destruct id; [done|cbn in *; lia]]|]. intros v bs [Hw He]. split; cbn [wf enc]; rewrite Hu; [done|].
    by rewrite decide_False, Hid, He by done.
  - apply sound_slice; [done|]. intros HN. apply Hnext; [by eapply Hpart, part_slice|lia].
  - case_decide as He.
    + assert (te = TUint8) as Hte by (eapply (um_bytes _ _ Ht); [constructor|done|done]).
      eapply (sound_then _ _ (as_bytes te)) with (Q := decodes t st); [|intros v bs Hv _; unfold as_bytes; rewrite decide_True by done; apply sound_ret; by rewrite app_nil_r].
      eapply sound_unpacked; [intros p; apply (unpacks_fixed (Z.of_nat k))|]. intros bs [Hb Hlen]. destruct (byte_values te st bs He Hb) as [H1 H2].
      split; cbn [wf enc]; rewrite Hu; [rewrite length_fmap; split; [lia|by apply all_map]|]. apply cat_some. eexists. split; [exact H2|]. by rewrite concat_singletons.
    + eapply (sound_map _ _ VArray); [apply sound_array, (IH d); [by eapply Hpart, part_array|done|lia]|]. intros vs bs (Hlen & bl & Hbl & ->). destruct (decodes_list _ _ _ _ Hbl) as [H1 H2].
      split; cbn [wf enc]; rewrite Hu; [split; [done|by apply all_map]|]. apply cat_some. by exists bl.
  - destruct (GetSerializedFields struct_of tags sn) as [idx|e] eqn:Hidx; [|apply sound_err; by eapply fields_error]. eapply sound_struct; [done| |done].
    intros f Hf Hc. apply (IH d); [by eapply Hpart, part_field|by apply Hd|lia].
  - apply (sound_map_type N t tk tv); [done|eapply (um_keys _ _ Ht); [constructor|done]|]. intros HN.
    split; apply Hnext; try lia; [by eapply Hpart, part_key|by eapply Hpart, part_value].
Qed.

(** ** Unmarshaling returns every encoded value *)

Fixpoint depth (v : val) : nat :=
  match v with
  | VPtr (Some v) | VInterface (Some (_, v)) => S (depth v)
  | VSlice vs | VArray vs | VStruct vs => S (max_list (map depth vs))
  | VMap kvs => S (max_list (map (λ '(k, v), depth k `max` depth v) kvs))
  | _ => 1
  end%nat.

(** The values [v] and [w] of type [t] differ only in the order of maps and in fields
    that are not serialized. *)
Fixpoint same (v : val) (t : ty) (w : val) : Prop :=
  match underlying t, v, w with
  | TPtr t, VPtr (Some v), VPtr (Some w) => same v t w
  | TInterface _, VInterface (Some (dt, v)), VInterface (Some (dt', w)) => dt = dt' ∧ same v dt w
  | TSlice elem, VSlice vs, VSlice ws => length vs = length ws ∧ all (zip_with (λ P w, P w) (map (λ v, same v elem) vs) ws)
  | TArray _ elem, VArray vs, VArray ws => length vs = length ws ∧ all (zip_with (λ P w, P w) (map (λ v, same v elem) vs) ws)
  | TStruct s, VStruct vs, VStruct ws =>
      length vs = length ws ∧
      all (zip_with (λ (P : ty → val → Prop) fw, captured tags fw.1 = true → P (f_type fw.1) fw.2) (map (λ v t, same v t) vs) (zip (struct_of s) ws))
  | TMap tk tv, VMap kvs, VMap ws =>
      ∃ l, l ≡ₚ ws ∧ length kvs = length l ∧ all (zip_with (λ P w, P w) (map (λ '(k, v) w, same k tk w.1 ∧ same v tv w.2) kvs) l)
  | _, _, _ => v = w
  end.

Lemma all_zip2 {A B} (f : A → B → Prop) vs ws : Forall2 f vs ws → length vs = length ws ∧ all (zip_with (λ P w, P w) (map f vs) ws).
Proof. induction 1 as [|v w vs ws Hf _ [IH1 IH2]]; simpl; [done|]. split; [lia|done]. Qed.

Lemma max_list_le n l : (max_list l ≤ n)%nat ↔ Forall (λ x, (x ≤ n)%nat) l.
Proof. induction l as [|x l IH]; simpl; [split; [constructor|lia]|]. rewrite Forall_cons, <- IH. lia. Qed.

(** Values that are the same are hashed alike. *)
Lemma same_hashable v t w : same v t w → hashes v t = hashes w t.
Proof.
  revert t w. induction v as [n|b|s|o IH|o IH|vs IH|vs IH|vs IH|kvs IH|] using val_ind'; intros t w; cbn [same Codec.hashable];
    destruct (underlying t) as [| | | | | | | | | |t'|i|te|k te|sn|tk tv|? ?|?] eqn:Hu; try (intros <-; cbn [Codec.hashable]; by rewrite Hu); destruct w as [n'|b'|s'|o'|o'|ws|ws|ws|kws|]; cbn [Codec.hashable]; rewrite ?Hu; try done; try (by destruct o as [[? ?]|]); try (by intros [=]).
  - destruct o as [[dt v]|], o' as [[dt' w]|]; try done. intros [<- Hs]. f_equal. by apply (IH dt v eq_refl).
  - intros [Hlen Ha]. revert ws Hlen Ha. induction IH as [|v vs Hv _ IHvs]; intros [|w ws] Hlen Ha; try done. cbn in *. destruct Ha as [Hs Ha]. rewrite (Hv _ _ Hs). f_equal. apply IHvs; [lia|done].
  - intros [Hlen Ha]. f_equal. generalize dependent (struct_of sn). revert ws Hlen. induction IH as [|v vs Hv _ IHvs]; intros [|w ws] Hlen [|f fs] Ha; try done. cbn in *. destruct Ha as [Hs Ha]. f_equal; [|apply IHvs; [lia|done]].
    destruct (captured tags f); [|done]. cbn. by apply Hv, Hs.
Qed.

(** Choosing the values of a list. *)
Lemma choose_list {A B C} (R : A → C → Prop) (S : C → B → Prop) xs ys :
  Forall2 (λ x y, ∃ z, R x z ∧ S z y) xs ys → ∃ zs, Forall2 R xs zs ∧ Forall2 S zs ys.
Proof.
  induction 1 as [|x y xs ys (z & ? & ?) _ (zs & ? & ?)]; [by exists []|]. exists (z :: zs). split; by constructor.
Qed.

Lemma choose_fun {B C} (d : C) (R : nat → C → B → Prop) idx ys :
  NoDup idx → Forall2 (λ i y, ∃ z, R i z y) idx ys → ∃ pick, Forall2 (λ i y, R i (pick i) y) idx ys.
Proof.
  intros Hnd Hys. induction Hys as [|i y idx ys (z & Hz) Hys IH]; [by exists (λ _, d)|]. apply NoDup_cons in Hnd as [Hi Hnd]. destruct (IH Hnd) as [pick Hpick].
  exists (λ j, if decide (j = i) then z else pick j). constructor; [by rewrite decide_True|].
  clear -Hpick Hi. induction Hpick as [|j y idx ys Hj _ IH]; constructor.
  - rewrite decide_False; [done|]. intros ->. apply Hi. by left.
  - apply IH. intros Hin. apply Hi. by right.
Qed.

(** The induction hypothesis of the lemma below. *)
Definition returns (fuel : nat) (v : val) : Prop :=
  ∀ t st bs, byte_arrays t → typed v t st → encoding v t st = Some bs → ∃ w, same v t w ∧ complete (read fuel t st) bs w.

Lemma returns_list fuel t st vs bl :
  byte_arrays t → Forall (returns fuel) vs → Forall (λ v, typed v t st) vs → map (λ v, encoding v t st) vs = map Some bl →
  ∃ ws, Forall2 (λ v w, same v t w) vs ws ∧ Forall2 (λ w b, complete (read fuel t st) b w) ws bl.
Proof.
  intros Hb IH Hw He. apply choose_list. revert bl He. induction IH as [|v vs Hv _ IHvs]; intros [|b bl] [=]; constructor; apply Forall_cons in Hw as [? ?].
  - by apply Hv.
  - by apply IHvs.
Qed.

Lemma byte_list t st vs bl :
  underlying t = TUint8 → Forall (λ v, typed v t st) vs → map (λ v, encoding v t st) vs = map Some bl →
  ∃ bs, vs = VNum <$> bs ∧ Forall is_byte bs ∧ concat bl = bs.
Proof.
  intros Hu. revert bl. induction vs as [|v vs IH]; intros [|b bl] Hw [=]; [by exists []|]. apply Forall_cons in Hw as [Hv Hvs].
  destruct (IH bl Hvs) as (bs & -> & Hb & <-); [done|]. destruct v as [n| | | | | | | | |]; simpl in *; rewrite Hu in *; try done. simplify_eq/=.
  exists (n :: concat bl). split_and!; [done| |done]. constructor; [|done]. unfold is_byte. lia.
Qed.

Lemma same_bytes t bs : underlying t = TUint8 → Forall2 (λ v w, same v t w) (VNum <$> bs) (VNum <$> bs).
Proof. intros Hu. induction bs as [|b bs IH]; simpl; constructor; [simpl; by rewrite Hu|done]. Qed.

Lemma complete_slice fuel t te st vs bs :
  byte_arrays t → underlying t = TSlice te → Forall (returns fuel) vs → typed (VSlice vs) t st → encoding (VSlice vs) t st = Some bs →
  ∃ w, same (VSlice vs) t w ∧ complete (unmarshal_slice te (read fuel te st)) bs w.
Proof.
  intros Hba Hu IH. cbn [wf enc same]. rewrite Hu. intros [_ Hw] (Hlen & bl & Hbl & Hne & ->)%enc_slice_some. apply all_map in Hw. rewrite length_map in *.
  set (m := read fuel te st) in *.
  assert (∀ w, complete (if decide (underlying te = TUint8) then bs ← UnpackFixedBytes (Z.of_nat (length vs)); unpacked (VSlice (VNum <$> bs))
      else map_read (unmarshal_array (unmarshal_nonzero m) (Z.to_nat (Z.of_nat (length vs)))) VSlice) (concat bl) w →
    complete (unmarshal_slice te m) (put_uint 4 (Z.of_nat (length vs)) ++ concat bl) w) as Hthen.
  { intros w Hc. eapply (complete_then unmarshal_length (λ numElts, if decide (underlying te = TUint8) then bs ← UnpackFixedBytes numElts; unpacked (VSlice (VNum <$> bs))
      else map_read (unmarshal_array (unmarshal_nonzero m) (Z.to_nat numElts)) VSlice)); [apply complete_length; lia|exact Hc]. }
  destruct (decide (underlying te = TUint8)) as [He|He].
  - destruct (byte_list te st vs bl He Hw Hbl) as (bs & -> & Hb & Hcat). exists (VSlice (VNum <$> bs)). split; [apply all_zip2, same_bytes, He|].
    apply Hthen. rewrite Hcat. eapply (complete_unpacked _ _ (λ bs, bs) (λ bs, VSlice (VNum <$> bs))); [intros p; apply (unpacks_fixed (Z.of_nat (length (VNum <$> bs))))|apply fixed_prefix_free|].
    by rewrite length_fmap.
  - destruct (returns_list fuel te st vs bl ltac:(by eapply byte_arrays_part, part_slice) IH Hw Hbl) as (ws & Hsame & Hws). exists (VSlice ws). split; [by apply all_zip2|].
    apply Hthen. apply (complete_map _ VSlice). rewrite Nat2Z.id, (Forall2_length _ _ _ Hsame). apply complete_array.
    clear -Hws Hne. induction Hws as [|w b ws bl Hw _ IH]; constructor; apply Forall_cons in Hne as [? ?]; [by apply complete_nonzero|by apply IH].
Qed.

Lemma complete_map_type fuel t tk tv st kvs bs :
  byte_arrays t → underlying t = TMap tk tv → Forall (λ kv, returns fuel kv.1 ∧ returns fuel kv.2) kvs → typed (VMap kvs) t st → encoding (VMap kvs) t st = Some bs →
  ∃ w, same (VMap kvs) t w ∧ complete (read_map tk (read fuel tk st) (read fuel tv st)) bs w.
Proof.
  intros Hba Hu IH. cbn [wf enc same]. rewrite Hu. intros (_ & Hw & Hnd & Hhash) (Hlen & l & Hl & Hne & ->)%enc_map_some. apply all_map in Hw. rewrite length_map in *.
  set (mk := read fuel tk st). set (mv := read fuel tv st).
  assert (omap (λ kv, encoding kv.1 tk st) kvs = map fst l) as Hkeys.
  { clear -Hl. revert l Hl. induction kvs as [|[k v] kvs IH]; intros [|[a b] l] Heq; try done. injection Heq as Ha Hb Hrest. cbn in *. rewrite Ha. f_equal. by apply IH. }
  rewrite Hkeys in Hnd. assert (byte_arrays tk) as Htk by (eapply byte_arrays_part; [exact Hba|by eapply part_key]). assert (byte_arrays tv) as Htv by (eapply byte_arrays_part; [exact Hba|by eapply part_value]).
  assert (increasing None (merge_sort entry_le l)) as Hinc.
  { assert (StronglySorted entry_le (merge_sort entry_le l)) as Hs.
    { apply StronglySorted_merge_sort; [intros a b c; unfold entry_le; apply transitivity|intros a b; unfold entry_le; apply total, _]. }
    split; [|done|by rewrite merge_sort_Permutation].
    assert (NoDup (map fst (merge_sort entry_le l))) as Hnd'.
    { change (map ?f ?k) with (f <$> k). by rewrite merge_sort_Permutation. }
    clear -Hs Hnd'. induction (merge_sort entry_le l) as [|e l' IH]; [constructor|]. simpl in *. apply StronglySorted_inv in Hs as [Hs He]. apply NoDup_cons in Hnd' as [Hin Hnd'].
    constructor; [by apply IH|]. change (map fst l') with (fst <$> l') in *. apply Forall_forall. intros k Hk. assert (k ≠ e.1) as Hne by (intros ->; done).
    apply list_elem_of_fmap in Hk as (x & -> & Hx). rewrite Forall_forall in He. specialize (He x Hx). unfold entry_le in He. apply ble_cases in He as [?|?]; [done|congruence]. }
  assert (Forall2 (λ e kv, ∃ w, (same kv.1 tk w.1 ∧ same kv.2 tv w.2) ∧ complete mk e.1 w.1 ∧ complete mv e.2 w.2) l kvs) as Hret.
  { clear -IH Hw Hl Htk Htv. revert l Hl. induction kvs as [|[k v] kvs IHk]; intros [|[a b] l] [=]; constructor; apply Forall_cons in Hw as [[? ?] ?], IH as [[Hk Hv] ?].
    - destruct (Hk tk st a) as (wk & ? & ?); [done|done|done|]. destruct (Hv tv st b) as (wv & ? & ?); [done|done|done|]. by exists (wk, wv).
    - by apply IHk. }
  destruct (Permutation_Forall2 (symmetry (merge_sort_Permutation entry_le l)) Hret) as (kvs' & Hp & Hret').
  apply Forall2_flip, (choose_list (λ kv w, same kv.1 tk w.1 ∧ same kv.2 tv w.2) (λ w e, complete mk e.1 w.1 ∧ complete mv e.2 w.2)) in Hret' as (ws & Hsame & Hws).
  exists (VMap ws). split.
  - destruct (Permutation_Forall2 (symmetry Hp) Hsame) as (l' & Hl' & Hsame'). exists l'. split; [done|].
    destruct (all_zip2 (λ kv w, same kv.1 tk w.1 ∧ same kv.2 tv w.2) kvs l' Hsame') as [? Hall]. split; [done|].
    erewrite map_ext; [exact Hall|]. by intros [k v].
  - eapply (complete_then unmarshal_length (λ numElts, map_read (unmarshal_entries struct_of tags comparable tk mk mv None (Z.to_nat numElts)) VMap)); [apply complete_length; lia|].
    apply (complete_map _ VMap). replace (Z.to_nat (Z.of_nat (length kvs))) with (length ws) by (rewrite Nat2Z.id, Hp; symmetry; by eapply Forall2_length).
    apply complete_entries; [done| |done]. rewrite Hp in Hhash. clear -Hsame Hhash. induction Hsame as [|kv w kvs ws [Hk _] _ IH]; [constructor|]. apply Forall_cons in Hhash as [Hh ?].
    constructor; [by rewrite <- (same_hashable _ _ _ Hk)|by apply IH].
Qed.

Lemma all_zip3 (Ps : list (ty → val → Prop)) fs ws :
  (∀ k P f w, Ps !! k = Some P → fs !! k = Some f → ws !! k = Some w → captured tags f = true → P (f_type f) w) →
  all (zip_with (λ (P : ty → val → Prop) fw, captured tags fw.1 = true → P (f_type fw.1) fw.2) Ps (zip fs ws)).
Proof.
  revert fs ws. induction Ps as [|P Ps IH]; intros [|f fs] [|w ws] H; simpl; try done. split; [by apply (H 0%nat)|]. apply IH. intros k. apply (H (S k)).
Qed.

Lemma complete_struct fuel t s st vs bs idx :
  byte_arrays t → underlying t = TStruct s → Forall (returns fuel) vs → typed (VStruct vs) t st → encoding (VStruct vs) t st = Some bs →
  GetSerializedFields struct_of tags s = Ok idx →
  ∃ w, same (VStruct vs) t w ∧
    complete (unmarshal_fields (λ t, read fuel t st) (struct_of s) idx (replicate (length (struct_of s)) VKeep)) bs w.
Proof.
  intros Hba Hu IH. cbn [wf enc same]. rewrite Hu. intros [Hlen Hw] He Hidx. rewrite all_zip in Hw. unfold pick in He. rewrite Hidx in He.
  destruct (serialized_spec struct_of tags s idx Hidx) as [Hs Hin].
  assert (NoDup idx) as Hnd. { clear -Hs. induction Hs as [|i idx _ IH Hi]; constructor; [|done]. intros Hin. rewrite Forall_forall in Hi. specialize (Hi i Hin). lia. }
  destruct (mapM _ idx) as [l|] eqn:Hl; simpl in He; [|done]. apply cat_some in He as (bl & -> & ->). apply mapM_Some in Hl.
  assert (Forall2 (λ i b, ∃ w, ∃ f v, struct_of s !! i = Some f ∧ vs !! i = Some v ∧ same v (f_type f) w ∧ complete (read fuel (f_type f) st) b w) idx bl) as Hex.
  { assert (∀ i, i ∈ idx → ∃ f, struct_of s !! i = Some f ∧ captured tags f = true) as Hin' by (intros i; apply Hin). clear -Hl Hin' IH Hw Hba Hu.
    rewrite Forall_forall in IH. revert bl Hl. induction idx as [|i idx IHi]; intros [|b bl] Hl; inversion Hl as [|? ? ? ? Hi Hrest]; subst; constructor.
    - destruct (Hin' i) as (f & Hf & Hc); [by left|]. change (map ?g vs) with (g <$> vs) in *. rewrite list_lookup_fmap in Hi.
      destruct (vs !! i) as [v|] eqn:Hv; [|done]. simpl in Hi. rewrite Hf in Hi. simpl in Hi. injection Hi as Hb.
      destruct (IH v ltac:(by apply list_elem_of_lookup_2 in Hv) (f_type f) st b) as (w & ? & ?); [eapply byte_arrays_part, part_field; [done|exact Hu|by apply list_elem_of_lookup_2 in Hf|done]| |done|by exists w, f, v].
      apply (Hw i (λ t, typed v t st) f); [|done|done]. by rewrite list_lookup_fmap, Hv.
    - apply IHi; [|done]. intros j Hj. apply Hin'. by right. }
  apply (choose_fun VKeep) in Hex as [pick Hpick]; [|done].
  assert (∀ i, i ∈ idx → (i < length (replicate (length (struct_of s)) VKeep))%nat) as Hlt.
  { intros i (f & Hf & _)%Hin. rewrite length_replicate. by apply lookup_lt_Some in Hf. }
  exists (VStruct (foldl (λ vs i, <[i := pick i]> vs) (replicate (length (struct_of s)) VKeep) idx)). split.
  - destruct (set_fields_lookup pick idx _ 0 Hnd Hlt) as [Hlen' _]. rewrite length_replicate in Hlen'. split; [congruence|].
    apply all_zip3. intros k P f w HP Hf Hk Hc. change (map ?g vs) with (g <$> vs) in HP. apply list_lookup_fmap_Some in HP as (v & -> & Hv).
    assert (k ∈ idx) as Hki by (apply Hin; by exists f). rewrite (proj2 (set_fields_lookup pick idx _ k Hnd Hlt)), decide_True in Hk by done. injection Hk as <-.
    clear -Hpick Hki Hf Hv. induction Hpick as [|i b idx bl (f' & v' & Hf' & Hv' & Hsame & _) _ IH]; [by apply elem_of_nil in Hki|].
    apply elem_of_cons in Hki as [->|Hki]; [|by apply IH]. congruence.
  - apply complete_fields; [done|by rewrite length_replicate|]. eapply Forall2_impl; [exact Hpick|]. intros i b (f & v & ? & ? & ? & ?). by exists f.
Qed.

(** The cases of numbers. *)
Lemma complete_uint k (op : PM Z) n :
  (∀ p, op p = (bs ← unpack_raw (Z.of_nat k); mret (get_uint bs)) p) → 0 ≤ n < 2 ^ (8 * Z.of_nat k) → complete (n ← op; unpacked (VNum n)) (put_uint k n) (VNum n).
Proof. intros Hop Hn. eapply (complete_unpacked op _ (put_uint k) VNum); [intros p Hp; by apply unpacks_uint|apply uint_prefix_free|done]. Qed.

Lemma complete_int k (op : PM Z) n :
  (∀ p, op p = (bs ← unpack_raw (Z.of_nat k); mret (get_uint bs)) p) → 0 < 8 * Z.of_nat k → - 2 ^ (8 * Z.of_nat k - 1) ≤ n < 2 ^ (8 * Z.of_nat k - 1) →
  complete (n ← op; unpacked (VNum (signed (8 * Z.of_nat k) n))) (put_uint k (n mod 2 ^ (8 * Z.of_nat k))) (VNum n).
Proof.
  intros Hop Hk Hn. destruct (signed_mod _ n Hk Hn) as [Hs Hr]. rewrite <- Hs at 2.
  eapply (complete_unpacked op _ (put_uint k) (λ n, VNum (signed (8 * Z.of_nat k) n))); [intros p Hp; by apply unpacks_uint|apply uint_prefix_free|done].
Qed.

Lemma depth_below vs fuel : Forall (λ v, ∀ fuel, (depth v ≤ fuel)%nat → returns fuel v) vs → (S (max_list (map depth vs)) ≤ S fuel)%nat → Forall (returns fuel) vs.
Proof.
  intros IH Hd%le_S_n%max_list_le. rewrite Forall_forall in IH. rewrite Forall_forall in Hd. rewrite Forall_forall. intros v Hv. apply IH; [done|]. apply Hd, list_elem_of_fmap. by exists v.
Qed.

Lemma unmarshal_complete v fuel : (depth v ≤ fuel)%nat → returns fuel v.
Proof.
  revert fuel. induction v as [n|b|s|o IH|o IH|vs IH|vs IH|vs IH|kvs IH|] using val_ind'; intros fuel Hd t st bs Hba;
    (destruct fuel as [|fuel]; [exfalso; revert Hd; simpl; try destruct o as [[]|]; lia|]); cbn [Codec.unmarshal].
  - cbn [wf enc same]. destruct (underlying t) as [| | | | | | | | | |t'|i|te|k te|sn|tk tv|? ?|?] eqn:Hu; try done; intros Hn [= <-]; exists (VNum n); split; try done.
    + rewrite <- put_byte by done. by apply complete_uint; [intros; apply (unpack_uint 1)|].
    + destruct (signed_mod 8 n) as [_ Hr]; [lia|exact Hn|]. rewrite <- put_byte by exact Hr. by apply (complete_int 1); [intros; apply (unpack_uint 1)|..].
    + by apply (complete_uint 2); [intros; apply (unpack_uint 2)|].
    + by apply (complete_int 2); [intros; apply (unpack_uint 2)|..].
    + by apply (complete_uint 4); [intros; apply (unpack_uint 4)|].
    + by apply (complete_int 4); [intros; apply (unpack_uint 4)|..].
    + by apply (complete_uint 8); [intros; apply (unpack_uint 8)|].
    + by apply (complete_int 8); [intros; apply (unpack_uint 8)|..].
  - cbn [wf enc same]. destruct (underlying t) eqn:Hu; try done. intros _ [= <-]. exists (VBool b). split; [done|].
    eapply (complete_unpacked UnpackBool _ (λ b : bool, [if b then 1 else 0]) VBool); [apply unpacks_bool|apply bool_prefix_free|done].
  - cbn [wf enc same]. destruct (underlying t) eqn:Hu; try done. intros [Hb _]. destruct (Z.ltb_spec MaxStringLen (Z.of_nat (length s))) as [|Hlen]; [done|].
    intros [= <-]. exists (VString s). split; [done|]. unfold MaxStringLen in Hlen.
    eapply (complete_unpacked UnpackStr _ (λ bs, put_uint 2 (Z.of_nat (length bs)) ++ bs) VString); [apply unpacks_string|apply string_prefix_free|].
    split; [|done]. split; [done|]. change (2 ^ (8 * Z.of_nat 2)) with 65536. lia.
  - cbn [wf enc same]. destruct (underlying t) as [| | | | | | | | | |t'|i|te|k te|sn|tk tv|? ?|?] eqn:Hu; try done. destruct o as [v|]; [|done]. intros Hw He.
    destruct (IH v eq_refl fuel ltac:(simpl in Hd; lia) t' st bs ltac:(by eapply byte_arrays_part, part_ptr) Hw He) as (w & Hsame & Hc). exists (VPtr (Some w)). split; [done|].
    by apply (complete_map _ (λ v, VPtr (Some v))).
  - cbn [wf enc same]. destruct (underlying t) as [| | | | | | | | | |t'|i|te|k te|sn|tk tv|? ?|?] eqn:Hu; try done. destruct o as [[dt v]|]; [|done]. intros [Himp Hw].
    case_decide as Hst; [done|]. destruct (type_id dt) as [id|] eqn:Hid; simpl; [|done]. destruct (encoding v dt (dt :: st)) as [b|] eqn:He; simpl; [|done]. intros [= <-].
    destruct (IH dt v eq_refl fuel ltac:(simpl in Hd; lia) dt (dt :: st) b ltac:(eapply byte_arrays_part, part_dynamic; [done|exact Hu|split; congruence]) Hw He) as (w & Hsame & Hc). exists (VInterface (Some (dt, w))). split; [done|].
    eapply (complete_then (UnpackPrefix i) (λ dt, if decide (dt ∈ st) then mret (Err errRecursiveInterfaceTypes)
      else map_read (read fuel dt (dt :: st)) (λ v, VInterface (Some (dt, v))))).
    + intros p rest [Hs Hp Hi] Hu'. by eapply unpack_complete.
    + rewrite decide_False by done. by apply (complete_map _ (λ v, VInterface (Some (dt, v)))).
  - intros Hw He. destruct (underlying t) as [| | | | | | | | | |t'|i|te|k te|sn|tk tv|? ?|?] eqn:Hu; try (cbn [wf] in Hw; rewrite Hu in Hw; done); try (cbn [enc] in He; rewrite Hu in He; done).
    apply complete_slice; [done|done|by apply (depth_below vs)|done|done].
  - intros Hw He. destruct (underlying t) as [| | | | | | | | | |t'|i|te|k te|sn|tk tv|? ?|?] eqn:Hu; try (cbn [wf] in Hw; rewrite Hu in Hw; done); try (cbn [enc] in He; rewrite Hu in He; done).
    cbn [wf enc same] in *. rewrite Hu in *. destruct Hw as [Hlen Hw]. apply all_map in Hw. apply cat_some in He as (bl & Hbl & ->). case_decide as He.
    + destruct (byte_list te st vs bl He Hw Hbl) as (bs & -> & Hb & ->). rewrite length_fmap in Hlen. exists (VArray (VNum <$> bs)). split; [apply all_zip2, same_bytes, He|].
      assert (te = TUint8) as Hte by (eapply Hba; [constructor|exact Hu|done]). rewrite <- (app_nil_r bs) at 1. eapply (complete_then _ (as_bytes te)); [|unfold as_bytes; rewrite decide_True by done; apply complete_ret].
      eapply (complete_unpacked _ _ (λ bs, bs) (λ bs, VArray (VNum <$> bs))); [intros p; apply (unpacks_fixed (Z.of_nat k))|apply fixed_prefix_free|]. split; [done|lia].
    + destruct (returns_list fuel te st vs bl ltac:(by eapply byte_arrays_part, part_array) (depth_below vs fuel IH Hd) Hw Hbl) as (ws & Hsame & Hws). exists (VArray ws). split; [by apply all_zip2|].
      apply (complete_map _ VArray). rewrite <- Hlen, (Forall2_length _ _ _ Hsame). by apply complete_array.
  - intros Hw He. destruct (underlying t) as [| | | | | | | | | |t'|i|te|k te|sn|tk tv|? ?|?] eqn:Hu; try (cbn [wf] in Hw; rewrite Hu in Hw; done); try (cbn [enc] in He; rewrite Hu in He; done).
    destruct (GetSerializedFields struct_of tags sn) as [idx|e] eqn:Hidx.
    + by eapply complete_struct; [| |by apply (depth_below vs)|..].
    + cbn [enc] in He. rewrite Hu in He. unfold pick in He. by rewrite Hidx in He.
  - intros Hw He. destruct (underlying t) as [| | | | | | | | | |t'|i|te|k te|sn|tk tv|? ?|?] eqn:Hu; try (cbn [wf] in Hw; rewrite Hu in Hw; done); try (cbn [enc] in He; rewrite Hu in He; done).
    apply complete_map_type; [done|done| |done|done]. simpl in Hd. apply le_S_n, max_list_le in Hd. rewrite Forall_forall in IH. rewrite Forall_forall in Hd. rewrite Forall_forall.
    intros [k v] Hkv. destruct (IH _ Hkv) as [IHk IHv]. specialize (Hd (depth k `max` depth v)%nat). simpl in *.
    assert (depth k `max` depth v ≤ fuel)%nat as Hle by (apply Hd, list_elem_of_fmap; by exists (k, v)). split; [apply IHk; lia|apply IHv; lia].
  - cbn [wf enc]. by destruct (underlying t).
Qed.
End Unmarshal.
