(* ===== verification/CodecManager.v ===== *)
(** * Registries of types and codec versions (packages [codec], [codec/linearcodec]
    and [codec/hierarchycodec])

    [linearcodec/codec.go] numbers the types that may stand for an interface,
    [hierarchycodec/codec.go] numbers them within groups, and [manager.go] prefixes an
    encoding with the version of its codec.  The theorems are about a manager with
    a codec over any registry that keeps the laws, and both registries keep them. *)
From stdpp Require Import sorting strings.
From S2P Require Import Prelude Bytes Packer BiMap Codec CodecEncode CodecDecode.

(** ** Types numbered one after another *)

Record linearCodec : Type := mkLinear {
  lc_nextTypeID : Z;
  lc_registeredTypes : BiMap Z ty;
}.

Inductive registry_error : Type := ErrDuplicateType.

Definition wrap32 (z : Z) : Z := z mod 2 ^ 32.
Definition wrap16 (z : Z) : Z := z mod 2 ^ 16.

Definition lc_New : linearCodec := mkLinear 0 bm_New.

Definition lc_SkipRegistrations (c : linearCodec) (num : Z) : linearCodec :=
  mkLinear (wrap32 (lc_nextTypeID c + wrap32 num)) (lc_registeredTypes c).

Definition lc_RegisterType (c : linearCodec) (valType : ty) : linearCodec * option registry_error :=
  if HasValue (lc_registeredTypes c) valType then (c, Some ErrDuplicateType)
  else (mkLinear (wrap32 (lc_nextTypeID c + 1)) (bm_Put (lc_registeredTypes c) (lc_nextTypeID c) valType).1, None).

Definition lc_PrefixSize (c : linearCodec) (t : ty) : Z := IntLen.

Definition lc_PackPrefix (c : linearCodec) (grow : Z → Z → Z) (valueType : ty) : marshaler :=
  match GetKey (lc_registeredTypes c) valueType with
  | None => mret (Some ErrUnregisteredType)
  | Some typeID => packed (PackInt grow typeID)
  end.

(** [Type.Implements] is the parameter [implements]. *)
Definition lc_UnpackPrefix (implements : ty → Z → bool) (c : linearCodec) (valueType : Z) : PM (result ty codec_error) :=
  typeID ← UnpackInt;
  e ← get_Err;
  match e with
  | Some e => mret (Err (PackErr e))
  | None =>
      match GetValue (lc_registeredTypes c) typeID with
      | None => mret (Err ErrUnknownTypeID)
      | Some implementingType =>
          mret (if negb (implements implementingType valueType) then Err ErrDoesNotImplementInterface else Ok implementingType)
      end
  end.

Definition LinearCodec (implements : ty → Z → bool) (c : linearCodec) : TypeCodec := {|
  PackPrefix := lc_PackPrefix c;
  UnpackPrefix := lc_UnpackPrefix implements c;
  PrefixSize := lc_PrefixSize c;
|}.

(** ** Types numbered within groups *)

Record hierarchyCodec : Type := mkHierarchy {
  hc_currentGroupID : Z;
  hc_nextTypeID : Z;
  hc_registeredTypes : BiMap (Z * Z) ty;
}.

Definition hc_New : hierarchyCodec := mkHierarchy 0 0 bm_New.

Definition hc_SkipRegistrations (c : hierarchyCodec) (num : Z) : hierarchyCodec :=
  mkHierarchy (hc_currentGroupID c) (wrap16 (hc_nextTypeID c + wrap16 num)) (hc_registeredTypes c).

Definition NextGroup (c : hierarchyCodec) : hierarchyCodec := mkHierarchy (wrap16 (hc_currentGroupID c + 1)) 0 (hc_registeredTypes c).

Definition hc_RegisterType (c : hierarchyCodec) (valType : ty) : hierarchyCodec * option registry_error :=
  if HasValue (hc_registeredTypes c) valType then (c, Some ErrDuplicateType)
  else (mkHierarchy (hc_currentGroupID c) (wrap16 (hc_nextTypeID c + 1))
          (bm_Put (hc_registeredTypes c) (hc_currentGroupID c, hc_nextTypeID c) valType).1, None).

Definition hc_PrefixSize (c : hierarchyCodec) (t : ty) : Z := ShortLen + ShortLen.

Definition hc_PackPrefix (c : hierarchyCodec) (grow : Z → Z → Z) (valueType : ty) : marshaler :=
  match GetKey (hc_registeredTypes c) valueType with
  | None => mret (Some ErrUnregisteredType)
  | Some typeID => packed (_ ← PackShort grow typeID.1; PackShort grow typeID.2)
  end.

Definition hc_UnpackPrefix (implements : ty → Z → bool) (c : hierarchyCodec) (valueType : Z) : PM (result ty codec_error) :=
  groupID ← UnpackShort;
  typeIDShort ← UnpackShort;
  e ← get_Err;
  match e with
  | Some e => mret (Err (PackErr e))
  | None =>
      match GetValue (hc_registeredTypes c) (groupID, typeIDShort) with
      | None => mret (Err ErrUnknownTypeID)
      | Some implementingType =>
          mret (if negb (implements implementingType valueType) then Err ErrDoesNotImplementInterface else Ok implementingType)
      end
  end.

Definition HierarchyCodec (implements : ty → Z → bool) (c : hierarchyCodec) : TypeCodec := {|
  PackPrefix := hc_PackPrefix c;
  UnpackPrefix := hc_UnpackPrefix implements c;
  PrefixSize := hc_PrefixSize c;
|}.

(** ** The manager *)

(** The interface [Codec]; [fuel] bounds the depth of what is unmarshaled. *)
Record codec : Type := mkCodec {
  c_MarshalInto : option (ty * val) → marshaler;
  c_UnmarshalFrom : nat → option ty → unmarshaler;
  c_Size : option (ty * val) → result Z codec_error;
}.

(** [reflectcodec.New] *)
Definition reflect_New (grow : Z → Z → Z) (struct_of : Z → list field) (tags : list string) (comparable : ty → bool) (typer : TypeCodec) : codec :=
  mkCodec (MarshalInto grow struct_of tags) (UnmarshalFrom struct_of tags comparable) (Codec.Size struct_of tags).

Inductive manager_error : Type :=
| ErrUnknownVersion
| ErrManagerMarshalNil
| ErrManagerUnmarshalNil
| ErrUnmarshalTooBig
| ErrCantPackVersion
| ErrCantUnpackVersion
| ErrDuplicatedVersion
| ErrExtraSpace
| CodecErr (e : codec_error).

Record manager : Type := mkManager {
  m_maxSize : Z;
  m_codecs : gmap Z codec;
}.

Definition VersionSize : Z := ShortLen.
Definition defaultMaxSize : Z := 256 * 1024.
Definition initialSliceCap : Z := 128.

Definition NewManager (maxSize : Z) : manager := mkManager maxSize ∅.
Definition NewDefaultManager : manager := NewManager defaultMaxSize.

Definition RegisterCodec (m : manager) (version : Z) (c : codec) : manager * option manager_error :=
  match m_codecs m !! version with
  | Some _ => (m, Some ErrDuplicatedVersion)
  | None => (mkManager (m_maxSize m) (<[version := c]> (m_codecs m)), None)
  end.

Definition m_Size (m : manager) (version : Z) (value : option (ty * val)) : result Z manager_error :=
  match value with
  | None => Err ErrManagerMarshalNil
  | Some _ =>
      match m_codecs m !! version with
      | None => Err ErrUnknownVersion
      | Some c => match c_Size c value with Ok res => Ok (VersionSize + res) | Err e => Err (CodecErr e) end
      end
  end.

(** [Marshal]; the bytes are those after the call of [MarshalInto], as the compiler
    orders the operands of the last return. *)
Definition Marshal (grow : Z → Z → Z) (m : manager) (version : Z) (value : option (ty * val)) : option (result bytes manager_error) :=
  match value with
  | None => Some (Err ErrManagerMarshalNil)
  | Some _ =>
      match m_codecs m !! version with
      | None => Some (Err ErrUnknownVersion)
      | Some c =>
          '(_, p) ← PackShort grow version (mkPacker None (m_maxSize m) (replicate (Z.to_nat initialSliceCap) 0) 0 0);
          if Errored p then Some (Err ErrCantPackVersion) else
          '(err, p) ← c_MarshalInto c value p;
          Some (match err with Some e => Err (CodecErr e) | None => Ok (pk_Bytes p) end)
      end
  end.

(** [Unmarshal]; the result is the version and the value of the destination. *)
Definition Unmarshal (fuel : nat) (m : manager) (bytes : bytes) (dest : option ty) : option (result (Z * val) manager_error) :=
  match dest with
  | None => Some (Err ErrManagerUnmarshalNil)
  | Some _ =>
      let byteLen := Z.of_nat (length bytes) in
      if m_maxSize m <? byteLen then Some (Err ErrUnmarshalTooBig) else
      '(version, p) ← UnpackShort (mkPacker None 0 bytes byteLen 0);
      if Errored p then Some (Err ErrCantUnpackVersion) else
      match m_codecs m !! version with
      | None => Some (Err ErrUnknownVersion)
      | Some c =>
          '(r, p) ← c_UnmarshalFrom c fuel dest p;
          Some (match r with
                | Err e => Err (CodecErr e)
                | Ok v => if negb (pk_Offset p =? byteLen) then Err ErrExtraSpace else Ok (version, v)
                end)
      end
  end.

(** ** The registries keep the laws *)

Record lc_ok (c : linearCodec) : Prop := {
  lc_bijective : bijective (lc_registeredTypes c);
  lc_range : ∀ k t, keyToValue (lc_registeredTypes c) !! k = Some t → 0 ≤ k < 2 ^ 32;
  lc_next : 0 ≤ lc_nextTypeID c < 2 ^ 32;
}.

Record hc_ok (c : hierarchyCodec) : Prop := {
  hc_bijective : bijective (hc_registeredTypes c);
  hc_range : ∀ k t, keyToValue (hc_registeredTypes c) !! k = Some t → 0 ≤ k.1 < 2 ^ 16 ∧ 0 ≤ k.2 < 2 ^ 16;
  hc_group : 0 ≤ hc_currentGroupID c < 2 ^ 16;
  hc_next : 0 ≤ hc_nextTypeID c < 2 ^ 16;
}.

(** The registrations of a program, on both kinds of registry. *)
Inductive registration : Type :=
| Register (t : ty)
| Skip (num : Z)
| Next.

Definition lc_apply (c : linearCodec) (r : registration) : linearCodec :=
  match r with Register t => (lc_RegisterType c t).1 | Skip num => lc_SkipRegistrations c num | Next => c end.
Definition hc_apply (c : hierarchyCodec) (r : registration) : hierarchyCodec :=
  match r with Register t => (hc_RegisterType c t).1 | Skip num => hc_SkipRegistrations c num | Next => NextGroup c end.

Definition linear_registry (rs : list registration) : linearCodec := foldl lc_apply lc_New rs.
Definition hierarchy_registry (rs : list registration) : hierarchyCodec := foldl hc_apply hc_New rs.

Lemma wrap32_range z : 0 ≤ wrap32 z < 2 ^ 32.
Proof. by apply Z.mod_pos_bound. Qed.
Lemma wrap16_range z : 0 ≤ wrap16 z < 2 ^ 16.
Proof. by apply Z.mod_pos_bound. Qed.

Lemma linear_registry_ok rs : lc_ok (linear_registry rs).
Proof.
  unfold linear_registry. assert (lc_ok lc_New) as Hok by (split; simpl; [apply New_bijective|intros k t; by rewrite lookup_empty|lia]).
  revert Hok. generalize lc_New. induction rs as [|r rs IH]; intros c Hc; simpl; [done|]. apply IH. destruct Hc as [Hb Hr Hn]. destruct r as [t|num|]; simpl.
  - unfold lc_RegisterType. destruct (HasValue _ _); simpl; [done|]. destruct (Put_bijective (lc_registeredTypes c) (lc_nextTypeID c) t Hb) as [Hb' Hp].
    split; simpl; [done| |apply wrap32_range]. intros k t'. rewrite Hp. intros [[-> _]|[? _]]; [done|by apply (Hr k t')].
  - split; simpl; [done|done|apply wrap32_range].
  - done.
Qed.

Lemma hierarchy_registry_ok rs : hc_ok (hierarchy_registry rs).
Proof.
  unfold hierarchy_registry. assert (hc_ok hc_New) as Hok by (split; simpl; [apply New_bijective|intros k t; by rewrite lookup_empty|lia|lia]).
  revert Hok. generalize hc_New. induction rs as [|r rs IH]; intros c Hc; simpl; [done|]. apply IH. destruct Hc as [Hb Hr Hg Hn]. destruct r as [t|num|]; simpl.
  - unfold hc_RegisterType. destruct (HasValue _ _); simpl; [done|].
    destruct (Put_bijective (hc_registeredTypes c) (hc_currentGroupID c, hc_nextTypeID c) t Hb) as [Hb' Hp].
    split; simpl; [done| |done|apply wrap16_range]. intros k t'. rewrite Hp. intros [[-> _]|[? _]]; [done|by apply (Hr k t')].
  - split; simpl; [done|done|done|apply wrap16_range].
  - split; simpl; [done|done|apply wrap16_range|lia].
Qed.

(** The bytes [a ++ b] are read by two readers of fixed size. *)
Lemma unpack_int_complete n p rest : ready p → 0 ≤ n < 2 ^ 32 → unread p = put_uint 4 n ++ rest → UnpackInt p = Some (n, advance p 4).
Proof.
  intros Hp Hn Hu. destruct (unpacks_uint 4 UnpackInt p (rd_slice _ Hp) (unpack_uint 4 p)) as (m & p' & -> & [[Hm Hr]|[_ Hun]]).
  - destruct (reads_ready _ _ _ Hp Hr) as (_ & _ & Hu' & ->). rewrite Hu in Hu'. apply put_uint_prefix in Hu' as [<- _]; [|exact Hn|done]. by rewrite put_uint_length.
  - by destruct (Hun (rd_err _ Hp) (rd_inside _ Hp) n Hn rest).
Qed.

Lemma unpack_short_complete n p rest : ready p → 0 ≤ n < 2 ^ 16 → unread p = put_uint 2 n ++ rest → UnpackShort p = Some (n, advance p 2).
Proof.
  intros Hp Hn Hu. destruct (unpacks_uint 2 UnpackShort p (rd_slice _ Hp) (unpack_uint 2 p)) as (m & p' & -> & [[Hm Hr]|[_ Hun]]).
  - destruct (reads_ready _ _ _ Hp Hr) as (_ & _ & Hu' & ->). rewrite Hu in Hu'. apply put_uint_prefix in Hu' as [<- _]; [|exact Hn|done]. by rewrite put_uint_length.
  - by destruct (Hun (rd_err _ Hp) (rd_inside _ Hp) n Hn rest).
Qed.

Section Laws.
Context (grow : Z → Z → Z) (Hgrow : ∀ cap neededSize, neededSize ≤ grow cap neededSize) (implements : ty → Z → bool).

Definition lc_id (c : linearCodec) (t : ty) : option bytes := put_uint 4 <$> GetKey (lc_registeredTypes c) t.

Definition LinearCodec_laws rs : TypeCodecLaws grow implements (LinearCodec implements (linear_registry rs)).
Proof.
  pose proof (linear_registry_ok rs) as [Hb Hr _]. set (c := linear_registry rs) in *. refine {| type_id := lc_id c |}.
  - intros t bs. unfold lc_id. destruct (GetKey _ t); [|done]. by intros [= <-].
  - intros t. simpl. unfold lc_PackPrefix, lc_id. destruct (GetKey _ t) as [id|]; [|apply marshals_err]. apply (marshals_pack grow Hgrow (put_uint 4 id)). apply small_put. lia.
  - intros t bs. unfold lc_id. destruct (GetKey _ t); simpl; [|done]. intros [= <-]. done.
  - intros t bs. unfold lc_id. destruct (GetKey _ t) as [id|]; [|done]. intros [= <-]. apply (put_uint_bytes 4 id).
  - intros i p Hs He Hi. simpl. unfold lc_UnpackPrefix, mbind, PM_bind, get_Err. destruct (unpacks_uint 4 UnpackInt p Hs (unpack_uint 4 p)) as (id & p' & -> & Hcase).
    destruct Hcase as [[Hid Hrd]|[[[Hi1 Hi2] He']%fails_intact _]].
    + destruct (reads_ready p _ p' ltac:(by split) Hrd) as ([_ He' _] & [Hi1 Hi2] & _). rewrite He'.
      destruct (GetValue _ id) as [t|] eqn:Ht; eexists _, p'; (split; [done|]); (split; [done|]); (split; [done|]); [|done].
      destruct (implements t i) eqn:Himp; simpl; [|done]. split; [done|]. exists (put_uint 4 id). split; [|done]. unfold lc_id. apply Hb in Ht. unfold GetKey. by rewrite Ht.
    + destruct (pk_Err p'); [|done]. by eexists _, p'.
  - intros i t bs p rest Hs He Hi Himp Hid Hu. unfold lc_id in Hid. destruct (GetKey _ t) as [id|] eqn:Hk; [|done]. injection Hid as <-. apply Hb in Hk.
    simpl. unfold lc_UnpackPrefix, mbind, PM_bind, get_Err. rewrite (unpack_int_complete id p rest); [|by split|by apply (Hr id t)|done]. simpl. rewrite He.
    unfold GetValue. rewrite Hk, Himp. done.
Defined.

Definition hc_id (c : hierarchyCodec) (t : ty) : option bytes := (λ id, put_uint 2 id.1 ++ put_uint 2 id.2) <$> GetKey (hc_registeredTypes c) t.

Definition HierarchyCodec_laws rs : TypeCodecLaws grow implements (HierarchyCodec implements (hierarchy_registry rs)).
Proof.
  pose proof (hierarchy_registry_ok rs) as [Hb Hr _ _]. set (c := hierarchy_registry rs) in *. refine {| type_id := hc_id c |}.
  - intros t bs. unfold hc_id. destruct (GetKey _ t); [|done]. by intros [= <-].
  - intros t. simpl. unfold hc_PackPrefix, hc_id. destruct (GetKey _ t) as [id|]; [|apply marshals_err].
    apply (marshals_pack2 grow Hgrow (put_uint 2 id.1) (put_uint 2 id.2)); apply small_put; lia.
  - intros t bs. unfold hc_id. destruct (GetKey _ t); simpl; [|done]. intros [= <-]. done.
  - intros t bs. unfold hc_id. destruct (GetKey _ t) as [id|]; [|done]. intros He. apply (inj Some) in He as <-. apply Forall_app. split; apply put_uint_bytes.
  - intros i p Hs He Hi. simpl. unfold hc_UnpackPrefix, mbind, PM_bind, get_Err. destruct (unpacks_uint 2 UnpackShort p Hs (unpack_uint 2 p)) as (g & p1 & -> & Hcase).
    destruct Hcase as [[Hg Hrd]|[Hf _]].
    + assert (ready p) as Hp by by split. destruct (reads_ready p _ p1 Hp Hrd) as (Hp1 & Hi1 & _).
      destruct (unpacks_uint 2 UnpackShort p1 (rd_slice _ Hp1) (unpack_uint 2 p1)) as (n & p2 & -> & Hcase). destruct Hcase as [[Hn Hrd2]|[[Hi2 He']%fails_intact _]].
      * destruct (reads_ready p1 _ p2 Hp1 Hrd2) as ([_ He' _] & Hi2 & _). rewrite He'. destruct (intact_trans _ _ _ Hi1 Hi2) as [Hi3 Hi4].
        destruct (GetValue _ (g, n)) as [t|] eqn:Ht; eexists _, p2; (split; [done|]); (split; [done|]); (split; [done|]); [|done].
        destruct (implements t i) eqn:Himp; simpl; [|done]. split; [done|]. exists (put_uint 2 g ++ put_uint 2 n). split; [|by eapply reads_trans].
        unfold hc_id. apply Hb in Ht. unfold GetKey. by rewrite Ht.
      * destruct (intact_trans _ _ _ Hi1 Hi2) as [Hi3 Hi4]. destruct (pk_Err p2); [|done]. by eexists _, p2.
    + destruct (fails_errored _ _ Hs Hf) as [Hs1 Hno]. destruct (unpacks_uint 2 UnpackShort p1 Hs1 (unpack_uint 2 p1)) as (n & p2 & -> & Hcase).
      destruct Hcase as [[_ Hrd]|[Hf2 _]]; [by apply Hno in Hrd|]. destruct (fails_intact _ _ (fails_trans _ _ _ Hf Hf2)) as [[Hi1 Hi2] He2].
      destruct (pk_Err p2); [|done]. by eexists _, p2.
  - intros i t bs p rest Hs He Hi Himp Hid Hu. unfold hc_id in Hid. destruct (GetKey _ t) as [[g n]|] eqn:Hk; [|done]. assert (bs = put_uint 2 g ++ put_uint 2 n) as -> by by injection Hid. apply Hb in Hk.
    assert (ready p) as Hp by by split. destruct (Hr _ _ Hk) as [Hg Hn]. rewrite <- app_assoc in Hu.
    destruct (advance_ready p _ _ Hp Hu) as [Hp1 Hu1]. rewrite put_uint_length in Hp1, Hu1. change (Z.of_nat 2) with 2 in Hp1, Hu1.
    simpl. unfold hc_UnpackPrefix, mbind, PM_bind, get_Err. rewrite (unpack_short_complete g p _ Hp Hg Hu).
    rewrite (unpack_short_complete n _ _ Hp1 Hn Hu1). simpl. rewrite He. unfold GetValue. rewrite Hk, Himp. cbn.
    unfold mret, PM_ret, advance. cbn. do 3 f_equal. lia.
Defined.
End Laws.

(** ** Theorems *)

Section Theorems.
Context (grow : Z → Z → Z) (Hgrow : ∀ cap neededSize, neededSize ≤ grow cap neededSize) (implements : ty → Z → bool).
Context (struct_of : Z → list field) (tags : list string) (comparable : ty → bool) (TC : TypeCodec) (TL : TypeCodecLaws grow implements TC).
Context (m : manager) (version : Z) (Hmax : 0 ≤ m_maxSize m < 2 ^ 62) (Hversion : 0 ≤ version < 2 ^ 16).
Context (Hcodec : m_codecs m !! version = Some (reflect_New grow struct_of tags comparable TC)).

Abbreviation encoding := (enc struct_of tags type_id).
Abbreviation typed := (wf struct_of tags comparable implements type_id).
Abbreviation byte_arrays := (byte_arrays grow struct_of tags implements).
Abbreviation unmarshalable := (unmarshalable grow struct_of tags comparable implements).

(** [Marshal] returns the version and the encoding, if there is one and it fits. *)
Lemma Marshal_spec t v :
  typed v t [] → ∃ r, Marshal grow m version (Some (t, v)) = Some r ∧
    ∀ bs, r = Ok bs ↔ ∃ e, encoding v t [] = Some e ∧ bs = put_uint 2 version ++ e ∧ Z.of_nat (length bs) ≤ m_maxSize m.
Proof.
  intros Hw. unfold Marshal. rewrite Hcodec. set (p0 := mkPacker _ _ _ _ _).
  assert (writes p0 []) as Hp0 by (split; simpl; try done; lia).
  destruct (pack_raw_writes grow Hgrow (put_uint 2 version) p0 [] Hp0) as (p1 & Hp1 & Hm1 & Hcase); [rewrite app_nil_l, put_uint_length; lia|].
  change (PackShort grow version p0) with (pack_raw grow (put_uint 2 version) p0). rewrite Hp1. cbn [mbind option_bind]. unfold Errored.
  rewrite app_nil_l, put_uint_length in Hcase. change (pk_MaxSize p0) with (m_maxSize m) in *.
  destruct (Z.leb_spec (Z.of_nat 2) (m_maxSize m)) as [Hfit|Hbig].
  - destruct Hcase as [Hw1 Hl1]. rewrite (wr_err _ _ Hw1). cbn [c_MarshalInto reflect_New MarshalInto].
    destruct (marshal_spec grow Hgrow struct_of tags comparable implements type_id pack_prefix v t [] Hw p1 _ Hw1) as (r & p2 & Hm2 & Hs2 & Ho); [lia|].
    rewrite Hm2. cbn [mbind option_bind]. eexists. split; [done|]. intros bs. rewrite Hm1 in Ho. destruct (encoding v t []) as [e|].
    + destruct (Z.leb_spec (Z.of_nat (length (put_uint 2 version ++ e))) (m_maxSize m)) as [Hle|Hgt].
      * destruct Ho as (-> & Hw2 & Hl2). assert (pk_Bytes p2 = put_uint 2 version ++ e) as Hbytes.
        { apply (ap_bytes p2), appends_writes. split; [done|]. change (pk_len p0) with 0 in Hl1. rewrite Hl2, Hl1, length_app, put_uint_length. lia. }
        rewrite Hbytes. split; [intros [= <-]; by exists e|]. by intros (e' & [= <-] & -> & _).
      * destruct r as [err|]; [|done]. split; [done|]. intros (e' & [= <-] & -> & ?). lia.
    + destruct r as [err|]; [|done]. split; [done|]. by intros (e' & ? & _).
  - rewrite Hcase. eexists. split; [done|]. intros bs. split; [done|]. intros (e & _ & -> & Hle). rewrite length_app, put_uint_length in Hle. lia.
Qed.

(** The packer of [Unmarshal] after the version. *)
Lemma Unmarshal_start bs : Forall is_byte bs → ready (mkPacker None 0 bs (Z.of_nat (length bs)) 0) ∧ unread (mkPacker None 0 bs (Z.of_nat (length bs)) 0) = bs.
Proof.
  intros Hb. assert (pk_Bytes (mkPacker None 0 bs (Z.of_nat (length bs)) 0) = bs) as Hbytes by (unfold pk_Bytes; simpl; by rewrite Nat2Z.id, firstn_all).
  split; [|unfold unread; by rewrite Hbytes]. split; [|done|split; simpl; lia]. split; [simpl; lia|]. by rewrite Hbytes.
Qed.

(** What was marshaled is read. *)
Lemma Unmarshal_encoding t v e fuel :
  byte_arrays t → typed v t [] → encoding v t [] = Some e → Z.of_nat (length (put_uint 2 version ++ e)) ≤ m_maxSize m → (depth v ≤ fuel)%nat →
  ∃ w, Unmarshal fuel m (put_uint 2 version ++ e) (Some (TPtr t)) = Some (Ok (version, w)) ∧ same struct_of tags v t w.
Proof.
  intros Hba Hw He Hle Hd. destruct (unmarshal_complete grow struct_of tags comparable implements v fuel Hd t [] e Hba Hw He) as (w & Hsame & Hc). exists w. split; [|done].
  assert (Forall is_byte (put_uint 2 version ++ e)) as Hb.
  { apply Forall_app. split; [apply put_uint_bytes|]. by eapply (enc_bytes struct_of tags comparable implements type_id prefix_bytes). }
  destruct (Unmarshal_start _ Hb) as [Hp Hu]. unfold Unmarshal. rewrite (proj2 (Z.ltb_ge _ _)) by lia.
  rewrite (unpack_short_complete version _ e Hp Hversion Hu). cbn [mbind option_bind]. unfold Errored. cbn [pk_Err advance]. rewrite Hcodec.
  cbn [c_UnmarshalFrom reflect_New UnmarshalFrom underlying]. destruct (advance_ready _ _ _ Hp Hu) as [Hp1 Hu1].
  rewrite put_uint_length in Hp1, Hu1. change (Z.of_nat 2) with 2 in Hp1, Hu1. rewrite (Hc _ [] Hp1) by (by rewrite app_nil_r). cbn [mbind option_bind].
  unfold advance. cbn [pk_Offset]. rewrite length_app, put_uint_length. rewrite (proj2 (Z.eqb_eq _ _)) by lia. done.
Qed.

(** C22: A value that is marshaled is unmarshaled again.  For every value of every
    type, over any registry of types that keeps the laws, [Marshal] returns; when it
    returns bytes these have the length [Size] computes, at most the maximal size, and,
    unless the type has an array of a named byte type in it (on which [Unmarshal]
    panics), [Unmarshal] of them returns the version and the value, up to the order of
    maps and the fields that are not serialized, for every bound on the depth that the
    value keeps. *)
Theorem codec_roundtrip t v :
  typed v t [] → ∃ r, Marshal grow m version (Some (t, v)) = Some r ∧
    ∀ bs, r = Ok bs →
      m_Size m version (Some (t, v)) = Ok (Z.of_nat (length bs)) ∧ Z.of_nat (length bs) ≤ m_maxSize m ∧
      (byte_arrays t → ∀ fuel, (depth v ≤ fuel)%nat → ∃ w, Unmarshal fuel m bs (Some (TPtr t)) = Some (Ok (version, w)) ∧ same struct_of tags v t w).
Proof.
  intros Hw. destruct (Marshal_spec t v Hw) as (r & Hr & Hspec). exists r. split; [done|]. intros bs (e & He & -> & Hle)%Hspec. split; [|split; [done|]].
  - unfold m_Size. rewrite Hcodec. cbn [c_Size reflect_New Codec.Size]. destruct (size_spec struct_of tags comparable implements type_id prefix_size v t [] e Hw He) as (c & -> & _).
    rewrite length_app, put_uint_length. f_equal. unfold VersionSize, ShortLen. lia.
  - intros Hba fuel Hd. by apply Unmarshal_encoding.
Qed.

(** C21: Only canonical bytes are accepted.  For any bytes that start with the version
    of the codec, and any type whose arrays of bytes are arrays of [byte] itself, whose
    keys of maps can be hashed and that contains itself through slices, maps and
    interfaces only, [Unmarshal] returns without panic and without endless recursion: no
    more than [D] steps per byte are needed, where [D] bounds the steps through
    pointers, arrays and fields.  When it returns a value the value is one of the type,
    and marshaling it again gives exactly the same bytes: different bytes never stand
    for the same value. *)
Theorem codec_canonical D fuel t rest :
  unmarshalable D t → Forall is_byte rest → (D * S (length rest) ≤ fuel)%nat →
  ∃ r, Unmarshal fuel m (put_uint 2 version ++ rest) (Some (TPtr t)) = Some r ∧ r ≠ Err (CodecErr OutOfFuel) ∧
    ∀ version' v, r = Ok (version', v) →
      version' = version ∧ typed v t [] ∧ Marshal grow m version (Some (t, v)) = Some (Ok (put_uint 2 version ++ rest)).
Proof.
  intros Ht Hrest Hfuel. set (bs := put_uint 2 version ++ rest). assert (Forall is_byte bs) as Hb by (apply Forall_app; split; [apply put_uint_bytes|done]).
  destruct (Unmarshal_start _ Hb) as [Hp Hu]. unfold Unmarshal. set (p0 := mkPacker _ _ _ _ _) in *.
  destruct (Z.ltb_spec (m_maxSize m) (Z.of_nat (length bs))) as [|Hlen]; [by eexists|].
  rewrite (unpack_short_complete version p0 rest Hp Hversion Hu). cbn [mbind option_bind]. unfold Errored. cbn [pk_Err advance]. change (pk_Err p0) with (@None pack_error). cbv iota.
  rewrite Hcodec. cbn [c_UnmarshalFrom reflect_New UnmarshalFrom underlying].
  destruct (advance_ready _ _ _ Hp Hu) as [Hp1 Hu1]. rewrite put_uint_length in Hp1, Hu1. change (Z.of_nat 2) with 2 in Hp1, Hu1.
  destruct (unmarshal_sound grow struct_of tags comparable implements D fuel D (length rest) t [] Ht (um_depth _ _ _ _ _ _ _ Ht t (rtc_refl _ _)) ltac:(lia) _ Hp1 ltac:(by rewrite Hu1)) as (r & p2 & Hm & _ & Hres).
  rewrite Hm. cbn [mbind option_bind]. eexists. split; [done|]. split; [destruct r as [v|e]; [by destruct (negb _)|congruence]|].
  intros version' v. destruct r as [v0|e]; [|done]. destruct Hres as (e & [Hw He] & Hr2). destruct (Z.eqb_spec (pk_Offset p2) (Z.of_nat (length bs))) as [Hoff|]; [|done].
  intros [= <- <-]. split; [done|]. split; [done|]. destruct (Marshal_spec t v0 Hw) as (r & Hmr & Hspec). rewrite Hmr. f_equal. apply Hspec. exists e. split; [done|]. split; [|done].
  destruct (reads_ready _ _ _ Hp1 Hr2) as (Hp2 & [_ Hl2] & Hu2 & Hp2'). unfold bs. f_equal. rewrite <- Hu1, Hu2.
  assert (unread p2 = []) as ->; [|by rewrite app_nil_r]. apply nil_length_inv.
  pose proof (unread_length p2 (rd_slice _ Hp2) (rd_inside _ Hp2)) as Hlen2. change (pk_len (advance p0 2)) with (Z.of_nat (length bs)) in Hl2. lia.
Qed.
End Theorems.

(** ** Witnesses *)

(** A struct with an identifier that is not serialized, a map of names to scores, a
    slice of bytes and an interface, which is implemented by a pointer to a struct
    with one number. *)
Definition demo_structs (s : Z) : list field :=
  let on := [("serialize", "true")]%string in
  if s =? 0 then
    [mkField TUint64 [] true; mkField (TMap TString TInt16) on true; mkField (TSlice TUint8) on true; mkField (TInterface 0) on true]
  else [mkField TUint32 on true].
Definition demo_implements (t : ty) (i : Z) : bool := bool_decide (t = TPtr (TStruct 1)).
Definition demo_registry : list registration := [Skip 3; Register (TPtr (TStruct 1))].
Definition demo_tags : list string := ["serialize"%string].

Definition demo_value : val :=
  VStruct [VNum 99; VMap [(VString [98], VNum (-2)); (VString [97], VNum 1)]; VSlice [VNum 7; VNum 8]; VInterface (Some (TPtr (TStruct 1), VPtr (Some (VStruct [VNum 5]))))].

(** Types that can be compared, by the rules of the language, for structs nested at most
    [n] deep; there are no types of other kinds here. *)
Fixpoint comparable_types (struct_of : Z → list field) (n : nat) (t : ty) : bool :=
  match n with
  | O => false
  | S n =>
      match underlying t with
      | TSlice _ | TMap _ _ | TOther _ => false
      | TArray _ elem => comparable_types struct_of n elem
      | TStruct s => forallb (λ f, comparable_types struct_of n (f_type f)) (struct_of s)
      | _ => true
      end
  end.
Definition demo_comparable : ty → bool := comparable_types demo_structs 3.

Definition demo_manager (TC : TypeCodec) : manager := (RegisterCodec NewDefaultManager 1 (reflect_New exact_growth demo_structs demo_tags demo_comparable TC)).1.

Definition demo_TC : TypeCodec := LinearCodec demo_implements (linear_registry demo_registry).
Definition demo_TL : TypeCodecLaws exact_growth demo_implements demo_TC :=
  LinearCodec_laws exact_growth (λ _ n, Z.le_refl n) demo_implements demo_registry.

Definition demo_bytes : bytes := [0; 1; 0; 0; 0; 2; 0; 1; 97; 0; 1; 0; 1; 98; 255; 254; 0; 0; 0; 2; 7; 8; 0; 0; 0; 3; 0; 0; 0; 5].

Lemma demo_typed : wf demo_structs demo_tags demo_comparable demo_implements (@type_id _ _ _ demo_TL) demo_value (TStruct 0) [].
Proof.
  cbn. split; [done|]. split; [done|]. split; [intros _; split; [unfold small; simpl; lia|split]|split; [|split; [|done]]].
  - split_and!; try lia; try done; try (unfold small; simpl; lia); repeat constructor; unfold is_byte; lia.
  - refine (bool_decide_unpack _ _). by vm_compute.
  - intros _. unfold small. simpl. split_and!; try lia; done.
  - intros _. split; [done|]. split; [done|]. split; [lia|done].
Qed.

(** The types in the value. *)
Definition demo_types : list ty :=
  [TStruct 0; TMap TString TInt16; TString; TInt16; TSlice TUint8; TUint8; TInterface 0; TPtr (TStruct 1); TStruct 1; TUint32].

Lemma demo_reached t : rtc (part exact_growth demo_structs demo_tags demo_implements (TL := demo_TL)) (TStruct 0) t → t ∈ demo_types.
Proof.
  apply (rtc_closed _ (λ t, t ∈ demo_types)); [|by left]. intros x y Hx Hp. unfold demo_types in Hx. rewrite !elem_of_cons in Hx.
  destruct Hp as [e Hu|e Hu|n e Hu|s f Hu Hf Hc|k v Hu|k v Hu|i dt Hu [Hr _]]; repeat (destruct Hx as [->|Hx]); try (by apply elem_of_nil in Hx); try done; cbn in Hu; simplify_eq; cbn in *.
  all: first [apply (bool_decide_unpack _); by vm_compute|apply bool_decide_eq_true in Hr as ->; apply (bool_decide_unpack _); by vm_compute|idtac].
  all: rewrite ?elem_of_cons in Hf; repeat (destruct Hf as [->|Hf]); try (by apply elem_of_nil in Hf); try done; apply (bool_decide_unpack _); by vm_compute.
Qed.

Lemma demo_unmarshalable : unmarshalable exact_growth demo_structs demo_tags demo_comparable demo_implements (TL := demo_TL) 3 (TStruct 0).
Proof.
  split; [intros t Ht%demo_reached|intros t k v Ht%demo_reached Hu|intros t Ht%demo_reached]; unfold demo_types in Ht; rewrite !elem_of_cons in Ht; repeat (destruct Ht as [->|Ht]); try (by apply elem_of_nil in Ht); try done.
  { cbn in Hu. injection Hu as <- <-. intros k' Hk'. assert (k' = TString) as -> by (eapply (rtc_closed _ (λ t, t = TString)); [|done|exact Hk']; intros x y -> Hp; by inversion Hp). done. }
  all: cbn; intros f Hf Hc; rewrite !elem_of_cons in Hf; repeat (destruct Hf as [->|Hf]); try (by apply elem_of_nil in Hf); done.
Qed.

Lemma codec_roundtrip_witness :
  Marshal exact_growth (demo_manager demo_TC) 1 (Some (TStruct 0, demo_value)) = Some (Ok demo_bytes) ∧
  ∃ w, Unmarshal 5 (demo_manager demo_TC) demo_bytes (Some (TPtr (TStruct 0))) = Some (Ok (1, w)) ∧ same demo_structs demo_tags demo_value (TStruct 0) w.
Proof.
  destruct (codec_roundtrip exact_growth (λ _ n, Z.le_refl n) demo_implements demo_structs demo_tags demo_comparable demo_TC demo_TL (demo_manager demo_TC) 1
    ltac:(vm_compute; split; [discriminate|reflexivity]) ltac:(lia) ltac:(reflexivity) (TStruct 0) demo_value demo_typed) as (r & Hr & Hok).
  assert (r = Ok demo_bytes) as -> by (vm_compute in Hr; injection Hr as <-; reflexivity). split; [exact Hr|].
  destruct (Hok demo_bytes eq_refl) as (_ & _ & Hun). apply Hun; [|vm_compute; lia]. exact (um_bytes _ _ _ _ _ _ _ demo_unmarshalable).
Defined.

(** The bytes of the value are accepted and canonical. *)
Lemma codec_canonical_witness :
  ∃ v, Unmarshal 100 (demo_manager demo_TC) demo_bytes (Some (TPtr (TStruct 0))) = Some (Ok (1, v)) ∧
    Marshal exact_growth (demo_manager demo_TC) 1 (Some (TStruct 0, v)) = Some (Ok demo_bytes).
Proof.
  destruct (codec_canonical exact_growth (λ _ n, Z.le_refl n) demo_implements demo_structs demo_tags demo_comparable demo_TC demo_TL (demo_manager demo_TC) 1
    ltac:(vm_compute; split; [discriminate|reflexivity]) ltac:(lia) ltac:(reflexivity) 3 100 (TStruct 0) (drop 2 demo_bytes) demo_unmarshalable) as (r & Hr & _ & Hok).
  { refine (bool_decide_unpack _ _). by vm_compute. }
  { vm_compute. lia. }
  change (put_uint 2 1 ++ drop 2 demo_bytes) with demo_bytes in *.
  assert (∃ v, r = Ok (1, v)) as [v ->] by (vm_compute in Hr; injection Hr as <-; by eexists).
  exists v. split; [exact Hr|]. by apply (Hok 1 v).
Defined.
