(* ===== verification/MerkleKey.v ===== *)
(** * Keys of the Merkle trie (src/x/merkledb/key.go)

    A key is a string of bits, packed into bytes with the first bit as the most
    significant one and zeros after the last.  This file has the operations on packed
    keys, with every index that can be out of range as [None], and proves that on
    well-formed keys they are the operations on lists of bits ([key_bits]); a token is
    the number in [tokenSize] bits, and [tokens] splits a key into them.

    The length of a key is a Go [int]; keys are strings in memory, so that the sums of
    lengths here do not overflow. *)
From stdpp Require Import sorting.
From S2P Require Import Prelude Bytes.

(** ** Bytes of eight bits *)

(** [b << s] and [b >> s] of a byte. *)
Definition shl8 (b s : Z) : Z := Z.land (Z.shiftl b s) 255.
Definition shr8 (b s : Z) : Z := Z.shiftr b s.

Record Key : Type := mkKey { k_length : Z; k_value : bytes }.

#[global] Instance Key_eq_dec : EqDecision Key.
Proof. solve_decision. Defined.
#[global] Instance Key_countable : Countable Key.
Proof.
  apply (inj_countable' (λ k, (k_length k, k_value k)) (λ '(l, v), mkKey l v)). by intros [].
Defined.

(** [Key{}] *)
Definition emptyKey : Key := mkKey 0 [].

Inductive key_error := ErrInvalidBranchFactor.

Definition BranchFactorLargest : Z := 256.
Definition validBranchFactors : list Z := [2; 4; 16; 256].
Definition Valid (b : Z) : option key_error := if existsb (Z.eqb b) validBranchFactors then None else Some ErrInvalidBranchFactor.
Definition BranchFactorToTokenSize (b : Z) : option Z :=
  if b =? 2 then Some 1 else if b =? 4 then Some 2 else if b =? 16 then Some 4 else if b =? 256 then Some 8 else None.
Definition validTokenSizes : list Z := [1; 2; 4; 8].

Definition dualBitIndex (shift : Z) : Z := Z.rem (8 - shift) 8.

Definition bytesNeeded (bits : Z) : Z := if Z.rem bits 8 =? 0 then Z.quot bits 8 else Z.quot bits 8 + 1.

Definition ToToken (val tokenSize : Z) : Key := mkKey tokenSize [shl8 val (dualBitIndex tokenSize)].

Definition Token (k : Key) (bitIndex tokenSize : Z) : option Z :=
  storageByte ← k_value k !! Z.to_nat (bitIndex / 8);
  Some (Z.land (shr8 storageByte (dualBitIndex ((bitIndex + tokenSize) mod 8))) (Z.shiftr 255 (dualBitIndex tokenSize))).

(** The loop of [iteratedHasPrefix]: [n] tokens are left, from the bit [i] on. *)
Fixpoint prefix_loop (n : nat) (k prefix : Key) (bitsOffset i tokenSize : Z) : option bool :=
  match n with
  | O => Some true
  | S n =>
      a ← Token k (bitsOffset + i) tokenSize;
      b ← Token prefix i tokenSize;
      if a =? b then prefix_loop n k prefix bitsOffset (i + tokenSize) tokenSize else Some false
  end.

(** The loop runs for [i = 0, tokenSize, ...] below the length. *)
Definition iteratedHasPrefix (k prefix : Key) (bitsOffset tokenSize : Z) : option bool :=
  if k_length k - bitsOffset <? k_length prefix then Some false
  else prefix_loop (Z.to_nat ((k_length prefix + tokenSize - 1) / tokenSize)) k prefix bitsOffset 0 tokenSize.

Definition toKey (keyBytes : bytes) : Key := mkKey (Z.of_nat (length keyBytes) * 8) keyBytes.
Definition ToKey (keyBytes : bytes) : Key := toKey keyBytes.

Definition hasPartialByte (k : Key) : bool := 0 <? Z.rem (k_length k) 8.

(** [strings.HasPrefix] *)
Definition string_HasPrefix (s prefix : bytes) : bool := bool_decide (prefix `prefix_of` s).

Definition HasPrefix (k prefix : Key) : option bool :=
  if k_length k <? k_length prefix then Some false else
  let remainderBitCount := k_length prefix mod 8 in
  if remainderBitCount =? 0 then Some (string_HasPrefix (k_value k) (k_value prefix)) else
  let remainderBitsMask := Z.shiftr 255 remainderBitCount in
  let n := length (k_value prefix) in
  if decide (n = O) then None else
  p ← k_value prefix !! (n - 1)%nat;
  b ← k_value k !! (n - 1)%nat;
  if negb (Z.lor p remainderBitsMask =? Z.lor b remainderBitsMask) then Some false else
  Some (string_HasPrefix (k_value k) (take (n - 1) (k_value prefix))).

Definition HasStrictPrefix (k prefix : Key) : option bool :=
  if decide (k = prefix) then Some false else HasPrefix k prefix.

Definition Length (k : Key) : Z := k_length k.

Definition Compare (k other : Key) : comparison :=
  match bcompare (k_value k) (k_value other) with Eq => k_length k ?= k_length other | c => c end.
Definition Greater (k other : Key) : bool := match Compare k other with Gt => true | _ => false end.
Definition Key_Less (k other : Key) : bool := match Compare k other with Lt => true | _ => false end.

(** [copy(dst, src)] *)
Definition copy_into (dst src : bytes) : bytes := take (length dst) src ++ drop (length src) dst.

(** [shiftCopy] returns the destination. *)
Fixpoint shiftCopy (dst src : bytes) (shift : Z) : option bytes :=
  match src, dst with
  | [], [] => Some []
  | [], _ :: _ => None
  | [a], [] => Some []
  | [a], _ :: dst => Some (shl8 a shift :: dst)
  | _ :: _ :: _, [] => None
  | a :: ((b :: _) as src), _ :: dst =>
      rest ← shiftCopy dst src shift;
      Some (Z.lor (shl8 a shift) (shr8 b (dualBitIndex shift)) :: rest)
  end.

(** [extendIntoBuffer] returns the buffer. *)
Definition extendIntoBuffer (buffer : bytes) (val : Key) (bitsOffset : Z) : option bytes :=
  if k_length val =? 0 then Some buffer else
  let bytesOffset := Z.to_nat (bytesNeeded bitsOffset) in
  let bitsRemainder := bitsOffset mod 8 in
  if decide (length buffer < bytesOffset)%nat then None else
  if bitsRemainder =? 0 then Some (take bytesOffset buffer ++ copy_into (drop bytesOffset buffer) (k_value val)) else
  last ← buffer !! (bytesOffset - 1)%nat;
  first ← k_value val !! O;
  let buffer := <[(bytesOffset - 1)%nat := Z.lor last (shr8 first bitsRemainder)]> buffer in
  rest ← shiftCopy (drop bytesOffset buffer) (k_value val) (dualBitIndex bitsRemainder);
  Some (take bytesOffset buffer ++ rest).

Fixpoint extend_all (buffer : bytes) (keys : list Key) (currentTotal : Z) : option bytes :=
  match keys with
  | [] => Some buffer
  | key :: keys => buffer ← extendIntoBuffer buffer key currentTotal; extend_all buffer keys (currentTotal + k_length key)
  end.

(** [make([]byte, n)] *)
Definition make_bytes (n : Z) : bytes := replicate (Z.to_nat n) 0.

Definition Extend (k : Key) (keys : list Key) : option Key :=
  let totalBitLength := foldl (λ acc key, acc + k_length key) (k_length k) keys in
  let buffer := copy_into (make_bytes (bytesNeeded totalBitLength)) (k_value k) in
  buffer ← extend_all buffer keys (k_length k);
  Some (mkKey totalBitLength buffer).

Definition Skip (k : Key) (bitsToSkip : Z) : option Key :=
  if k_length k <=? bitsToSkip then Some emptyKey else
  let from := Z.to_nat (bitsToSkip / 8) in
  if decide (length (k_value k) < from)%nat then None else
  let value := drop from (k_value k) in
  let len := k_length k - bitsToSkip in
  if bitsToSkip mod 8 =? 0 then Some (mkKey len value) else
  buffer ← shiftCopy (make_bytes (bytesNeeded len)) value (bitsToSkip mod 8);
  Some (mkKey len buffer).

Definition Take (k : Key) (bitsToTake : Z) : option Key :=
  if k_length k <=? bitsToTake then Some k else
  let remainderBits := Z.rem bitsToTake 8 in
  if remainderBits =? 0 then
    if decide (0 ≤ Z.quot bitsToTake 8 ≤ Z.of_nat (length (k_value k))) then Some (mkKey bitsToTake (take (Z.to_nat (Z.quot bitsToTake 8)) (k_value k)))
    else None
  else
    let buffer := copy_into (make_bytes (bytesNeeded bitsToTake)) (k_value k) in
    last ← buffer !! (length buffer - 1)%nat;
    Some (mkKey bitsToTake (<[(length buffer - 1)%nat := Z.land last (shl8 255 (dualBitIndex remainderBits))]> buffer)).

(** [Bytes] *)
Definition Key_Bytes (k : Key) : bytes := k_value k.

(** ** Bytes as bits *)

Definition byte_bits (b : Z) : list bool := Z.testbit b <$> [7; 6; 5; 4; 3; 2; 1; 0].
Definition vbits (v : bytes) : list bool := v ≫= byte_bits.
Definition bval (l : list bool) : Z := foldl (λ acc b, 2 * acc + Z.b2z b) 0 l.

(** A statement about a byte is checked on all of them. *)
Lemma byte_all (P : Z → bool) : forallb P (seqZ 0 256) = true → ∀ b, is_byte b → P b = true.
Proof. rewrite forallb_forall. intros H b Hb. apply H, list_elem_of_In, elem_of_seqZ. unfold is_byte in Hb. lia. Qed.

(** The same for a shift by less than eight. *)
Lemma byte_shift_all (P : Z → nat → bool) :
  forallb (λ b, forallb (P b) (seq 0 8)) (seqZ 0 256) = true → ∀ b s, is_byte b → (s < 8)%nat → P b s = true.
Proof.
  intros H b s Hb Hs. pose proof (byte_all _ H b Hb) as H1. rewrite forallb_forall in H1. apply H1, in_seq. lia.
Qed.

Lemma byte_bits_length b : length (byte_bits b) = 8%nat.
Proof. done. Qed.

Lemma bval_byte_bits b : is_byte b → bval (byte_bits b) = b.
Proof. intros Hb. apply Z.eqb_eq. revert b Hb. apply byte_all. by vm_compute. Qed.

Lemma byte_bits_inj b b' : is_byte b → is_byte b' → byte_bits b = byte_bits b' → b = b'.
Proof. intros Hb Hb' H. by rewrite <- (bval_byte_bits b), <- (bval_byte_bits b'), H. Qed.

Ltac byte_brute :=
  apply (bool_decide_eq_true_1 _);
  match goal with
  | Hb : is_byte ?b, Hs : (?s < 8)%nat |- _ => revert b s Hb Hs; apply byte_shift_all; by vm_compute
  end.

Lemma byte_bits_shl b s : is_byte b → (s < 8)%nat → byte_bits (shl8 b (Z.of_nat s)) = drop s (byte_bits b) ++ replicate s false.
Proof. intros Hb Hs. byte_brute. Qed.

Lemma byte_bits_shr b s : is_byte b → (s < 8)%nat → byte_bits (shr8 b (Z.of_nat s)) = replicate s false ++ take (8 - s) (byte_bits b).
Proof. intros Hb Hs. byte_brute. Qed.

Lemma shl8_byte b s : is_byte (shl8 b s).
Proof. unfold shl8, is_byte. change 255 with (Z.ones 8). rewrite Z.land_ones by lia. apply Z.mod_pos_bound. lia. Qed.

Lemma shr8_byte b s : is_byte b → 0 ≤ s → is_byte (shr8 b s).
Proof.
  unfold shr8, is_byte. intros Hb Hs. rewrite Z.shiftr_div_pow2 by lia. pose proof (Z.pow_pos_nonneg 2 s ltac:(lia) ltac:(lia)).
  split; [apply Z.div_pos; lia|]. apply Z.div_lt_upper_bound; [lia|]. nia.
Qed.

Lemma lor_is_byte a b : is_byte a → is_byte b → is_byte (Z.lor a b).
Proof.
  unfold is_byte. intros Ha Hb. split; [apply Z.lor_nonneg; lia|].
  destruct (decide (Z.lor a b = 0)) as [->|]; [lia|]. pose proof (proj2 (Z.lor_nonneg a b) ltac:(lia)).
  apply (Z.log2_lt_pow2 (Z.lor a b) 8); [lia|]. rewrite Z.log2_lor by lia.
  assert (∀ x, 0 ≤ x < 256 → Z.log2 x < 8) as Hl; [|pose proof (Hl a Ha); pose proof (Hl b Hb); lia].
  intros x Hx. destruct (decide (x = 0)) as [->|]; [by vm_compute|]. apply Z.log2_lt_pow2; lia.
Qed.

Lemma land_is_byte a b : is_byte a → 0 ≤ b → is_byte (Z.land a b).
Proof.
  unfold is_byte. intros Ha Hb. split; [apply Z.land_nonneg; lia|].
  assert (Z.land a b ≤ a) as H; [|lia]. apply Z.ldiff_le; [lia|]. apply Z.bits_inj'. intros n Hn.
  rewrite Z.ldiff_spec, Z.land_spec, Z.bits_0. by destruct (Z.testbit a n), (Z.testbit b n).
Qed.

Lemma byte_bits_lor a b : byte_bits (Z.lor a b) = zip_with orb (byte_bits a) (byte_bits b).
Proof. unfold byte_bits. cbn -[Z.testbit Z.lor]. by rewrite !Z.lor_spec. Qed.

Lemma byte_bits_land a b : byte_bits (Z.land a b) = zip_with andb (byte_bits a) (byte_bits b).
Proof. unfold byte_bits. cbn -[Z.testbit Z.land]. by rewrite !Z.land_spec. Qed.

(** ** Strings as bits *)

Lemma vbits_cons b v : vbits (b :: v) = byte_bits b ++ vbits v.
Proof. done. Qed.

Lemma vbits_app v w : vbits (v ++ w) = vbits v ++ vbits w.
Proof. apply bind_app. Qed.

Lemma vbits_length v : length (vbits v) = (8 * length v)%nat.
Proof. induction v as [|b v IH]; [done|]. rewrite vbits_cons, length_app, byte_bits_length, IH. simpl. lia. Qed.

Lemma vbits_take n v : vbits (take n v) = take (8 * n) (vbits v).
Proof.
  revert n. induction v as [|b v IH]; intros [|n]; [done|done|done|]. rewrite firstn_cons, !vbits_cons, IH.
  rewrite take_app, byte_bits_length, (take_ge (byte_bits b)) by (rewrite byte_bits_length; lia). do 2 f_equal. lia.
Qed.

Lemma vbits_drop n v : vbits (drop n v) = drop (8 * n) (vbits v).
Proof.
  revert n. induction v as [|b v IH]; intros [|n]; [done|by rewrite drop_nil|done|]. rewrite skipn_cons, vbits_cons, IH.
  rewrite drop_app, byte_bits_length, (drop_ge (byte_bits b)) by (rewrite byte_bits_length; lia). simpl app. f_equal. lia.
Qed.

Lemma vbits_inj v w : Forall is_byte v → Forall is_byte w → vbits v = vbits w → v = w.
Proof.
  revert w. induction v as [|b v IH]; intros [|c w] Hv Hw; [done|done|done|]. rewrite !vbits_cons.
  intros [Hb Hr]%app_inj_1; [|done]. inversion_clear Hv. inversion_clear Hw. f_equal; [by apply byte_bits_inj|by apply IH].
Qed.

Lemma vbits_zeros n : vbits (replicate n 0) = replicate (8 * n) false.
Proof. induction n as [|n IH]; [done|]. simpl replicate at 1. rewrite vbits_cons, IH. change (byte_bits 0) with (replicate 8 false). rewrite <- replicate_add. f_equal. lia. Qed.

Lemma vbits_byte v j b : v !! j = Some b → take 8 (drop (8 * j) (vbits v)) = byte_bits b.
Proof.
  intros Hj. rewrite <- vbits_drop, (drop_S _ _ _ Hj), vbits_cons. by rewrite take_app_length'.
Qed.

(** ** Packed keys

    [packs k l]: the key [k] is the string of bits [l]. *)
Record packs (k : Key) (l : list bool) : Prop := mkPacks {
  pk_length : k_length k = Z.of_nat (length l);
  pk_bytes : Forall is_byte (k_value k);
  pk_bits : ∃ n, (n < 8)%nat ∧ vbits (k_value k) = l ++ replicate n false;
}.

Lemma packs_unique k k' l : packs k l → packs k' l → k = k'.
Proof.
  destruct k as [len v], k' as [len' v']. intros [Hl Hb (n & Hn & Hv)] [Hl' Hb' (n' & Hn' & Hv')]. cbn [k_length k_value] in *. f_equal; [congruence|].
  apply vbits_inj; [done|done|]. rewrite Hv, Hv'. do 2 f_equal.
  pose proof (f_equal length Hv) as Hx. pose proof (f_equal length Hv') as Hx'. rewrite vbits_length, length_app, length_replicate in Hx, Hx'. lia.
Qed.

Lemma packs_bits k l : packs k l → take (length l) (vbits (k_value k)) = l.
Proof. intros [_ _ (n & _ & ->)]. by rewrite take_app_length. Qed.

Lemma packs_fun k l l' : packs k l → packs k l' → l = l'.
Proof.
  intros H H'. rewrite <- (packs_bits k l H), <- (packs_bits k l' H'). f_equal. pose proof (pk_length _ _ H). pose proof (pk_length _ _ H'). lia.
Qed.

Lemma bytesNeeded_nat n : bytesNeeded (Z.of_nat n) = Z.of_nat ((n + 7) / 8).
Proof. unfold bytesNeeded. rewrite Z.rem_mod_nonneg, Z.quot_div_nonneg, Nat2Z.inj_div, Nat2Z.inj_add by lia. change (Z.of_nat 7) with 7. change (Z.of_nat 8) with 8. zcases; dmlia. Qed.

Lemma packs_value_length k l : packs k l → length (k_value k) = ((length l + 7) / 8)%nat.
Proof.
  intros [_ _ (n & Hn & Hv)]. pose proof (f_equal length Hv) as Hx. rewrite vbits_length, length_app, length_replicate in Hx.
  apply (Nat.div_unique _ _ _ (7 - n)); lia.
Qed.

Lemma packs_make l v n : Forall is_byte v → vbits v = l ++ replicate n false → (n < 8)%nat → packs (mkKey (Z.of_nat (length l)) v) l.
Proof. intros Hb Hv Hn. split; [done|done|by exists n]. Qed.

Lemma packs_empty : packs emptyKey [].
Proof. by apply (packs_make [] [] 0); [|done|lia]. Qed.

Lemma packs_toKey bs : Forall is_byte bs → packs (toKey bs) (vbits bs).
Proof.
  intros Hb. unfold toKey. replace (Z.of_nat (length bs) * 8) with (Z.of_nat (length (vbits bs))) by (rewrite vbits_length; lia).
  by apply (packs_make _ _ 0); [done|rewrite app_nil_r|lia].
Qed.

(** ** Tokens *)

Lemma token_byte b r ts :
  is_byte b → (1 ≤ ts)%nat → (r + ts ≤ 8)%nat →
  Z.land (shr8 b (dualBitIndex ((Z.of_nat r + Z.of_nat ts) mod 8))) (Z.shiftr 255 (dualBitIndex (Z.of_nat ts))) = bval (take ts (drop r (byte_bits b))).
Proof.
  intros Hb Hts Hr. apply Z.eqb_eq.
  set (P b := forallb (λ r, forallb (λ ts, bool_decide (8 < r + ts)%nat ||
    (Z.land (shr8 b (dualBitIndex ((Z.of_nat r + Z.of_nat ts) mod 8))) (Z.shiftr 255 (dualBitIndex (Z.of_nat ts))) =? bval (take ts (drop r (byte_bits b))))) (seq 1 8)) (seq 0 8)).
  assert (P b = true) as HP by (revert b Hb; apply byte_all; by vm_compute). unfold P in HP.
  rewrite forallb_forall in HP. specialize (HP r ltac:(apply in_seq; lia)). rewrite forallb_forall in HP. specialize (HP ts ltac:(apply in_seq; lia)).
  apply orb_true_iff in HP as [HP%bool_decide_eq_true|HP]; [lia|done].
Qed.

Lemma Token_spec k l i ts :
  packs k l → (1 ≤ ts)%nat → (i + ts ≤ length l)%nat → (i mod 8 + ts ≤ 8)%nat →
  Token k (Z.of_nat i) (Z.of_nat ts) = Some (bval (take ts (drop i l))).
Proof.
  intros Hk Hts Hlen Hin. unfold Token. replace (Z.to_nat (Z.of_nat i / 8)) with (i / 8)%nat by (change 8 with (Z.of_nat 8); by rewrite <- Nat2Z.inj_div, Nat2Z.id).
  pose proof (Nat.div_mod_eq i 8) as Hi. pose proof (packs_value_length k l Hk) as Hv.
  assert (i / 8 < length (k_value k))%nat as Hj.
  { rewrite Hv. apply (Nat.Div0.div_lt_upper_bound i). pose proof (Nat.div_mod_eq (length l + 7) 8). pose proof (Nat.mod_upper_bound (length l + 7) 8 ltac:(lia)). lia. }
  apply lookup_lt_is_Some in Hj as [b Hb]. rewrite Hb. cbn [mbind option_bind]. f_equal.
  assert (is_byte b) as Hbb by (eapply Forall_lookup_1; [apply (pk_bytes _ _ Hk)|done]).
  replace ((Z.of_nat i + Z.of_nat ts) mod 8) with ((Z.of_nat (i mod 8) + Z.of_nat ts) mod 8).
  2:{ rewrite Nat2Z.inj_mod. change (Z.of_nat 8) with 8. by rewrite Zplus_mod_idemp_l. }
  rewrite token_byte by done. f_equal. rewrite <- (vbits_byte _ _ _ Hb), <- (packs_bits k l Hk) at 1.
  rewrite !skipn_firstn_comm, drop_drop, !take_take. replace (8 * (i / 8) + i mod 8)%nat with i by lia. f_equal. lia.
Qed.

(** ** Prefixes and suffixes *)

Lemma vbits_copy_into dst src :
  vbits (copy_into dst src) = take (8 * length dst) (vbits src) ++ drop (8 * length src) (vbits dst).
Proof. unfold copy_into. by rewrite vbits_app, vbits_take, vbits_drop. Qed.

Lemma copy_into_bytes dst src : Forall is_byte dst → Forall is_byte src → Forall is_byte (copy_into dst src).
Proof. intros Hd Hs. apply Forall_app. split; [by apply Forall_take|by apply Forall_drop]. Qed.

Lemma zeros_bytes n : Forall is_byte (replicate n 0).
Proof. apply Forall_replicate. unfold is_byte. lia. Qed.

Lemma vbits_insert v j b x : v !! j = Some b → vbits (<[j := x]> v) = take (8 * j) (vbits v) ++ byte_bits x ++ drop (8 * S j) (vbits v).
Proof.
  intros Hj. rewrite insert_take_drop by (by eapply lookup_lt_Some). by rewrite vbits_app, vbits_take, vbits_cons, vbits_drop.
Qed.

Lemma take_zeros l n m : (n ≤ length l)%nat → take n (l ++ replicate m false) = take n l.
Proof. intros. by rewrite take_app_le. Qed.

Lemma byte_bits_mask b r : is_byte b → (r < 8)%nat → byte_bits (Z.land b (shl8 255 (Z.of_nat r))) = take (8 - r) (byte_bits b) ++ replicate r false.
Proof. intros Hb Hr. byte_brute. Qed.

Lemma byte_bits_fill b r : is_byte b → (r < 8)%nat → byte_bits (Z.lor b (Z.shiftr 255 (Z.of_nat r))) = take r (byte_bits b) ++ replicate (8 - r) true.
Proof. intros Hb Hr. byte_brute. Qed.

Lemma nat_rem8 n : Z.of_nat n mod 8 = Z.of_nat (n mod 8).
Proof. rewrite Nat2Z.inj_mod. done. Qed.
Lemma nat_quot8 n : Z.to_nat (Z.of_nat n / 8) = (n / 8)%nat.
Proof. change 8 with (Z.of_nat 8). by rewrite <- Nat2Z.inj_div, Nat2Z.id. Qed.
Lemma nat_trem8 n : Z.rem (Z.of_nat n) 8 = Z.of_nat (n mod 8).
Proof. rewrite Z.rem_mod_nonneg by lia. apply nat_rem8. Qed.
Lemma nat_tquot8 n : Z.quot (Z.of_nat n) 8 = Z.of_nat (n / 8).
Proof. rewrite Z.quot_div_nonneg by lia. change 8 with (Z.of_nat 8). by rewrite <- Nat2Z.inj_div. Qed.
Lemma dual_nat r : (0 < r < 8)%nat → dualBitIndex (Z.of_nat r) = Z.of_nat (8 - r).
Proof. intros Hr. unfold dualBitIndex. rewrite Z.rem_small by lia. lia. Qed.

(** The number of bytes of [n] bits that are not whole bytes. *)
Lemma ceil8 n : (n mod 8 ≠ 0)%nat → ((n + 7) / 8 = S (n / 8))%nat.
Proof.
  intros Hn. symmetry. pose proof (Nat.div_mod_eq n 8). pose proof (Nat.mod_upper_bound n 8 ltac:(lia)). apply (Nat.div_unique _ _ _ (n mod 8 - 1)); lia.
Qed.
Lemma ceil8_whole n : (n mod 8 = 0)%nat → ((n + 7) / 8 = n / 8)%nat.
Proof. intros Hn. symmetry. pose proof (Nat.div_mod_eq n 8). apply (Nat.div_unique _ _ _ 7); lia. Qed.
Lemma floor_ceil8 n m : (n ≤ m)%nat → (n / 8 ≤ (m + 7) / 8)%nat.
Proof. intros. apply Nat.Div0.div_le_mono. lia. Qed.
Lemma ceil8_le n m : (n ≤ m)%nat → ((n + 7) / 8 ≤ (m + 7) / 8)%nat.
Proof. intros. apply Nat.Div0.div_le_mono. lia. Qed.

Lemma Take_spec k l n : packs k l → ∃ k', Take k (Z.of_nat n) = Some k' ∧ packs k' (take n l).
Proof.
  intros Hk. pose proof Hk as [Hlen Hb (z & Hz & Hv)]. pose proof (packs_value_length k l Hk) as Hvl. unfold Take. rewrite Hlen.
  destruct (Z.leb_spec (Z.of_nat (length l)) (Z.of_nat n)) as [Hle|Hgt]; [exists k; split; [done|]; by rewrite take_ge by lia|].
  assert (length (take n l) = n) as Htl by (rewrite length_take; lia). rewrite nat_trem8, nat_tquot8, Nat2Z.id.
  pose proof (Nat.div_mod_eq n 8) as Hn. pose proof (Nat.mod_upper_bound n 8 ltac:(lia)) as Hr8.
  destruct (Z.eqb_spec (Z.of_nat (n mod 8)) 0) as [Hr|Hr].
  - pose proof (floor_ceil8 n (length l) ltac:(lia)). rewrite decide_True by lia. eexists. split; [done|]. rewrite <- Htl at 1.
    apply (packs_make _ _ 0); [by apply Forall_take| |lia]. rewrite app_nil_r, vbits_take, Hv. replace (8 * (n / 8))%nat with n by lia. apply take_zeros. lia.
  - rewrite bytesNeeded_nat, ceil8 by lia. unfold make_bytes. rewrite Nat2Z.id. pose proof (ceil8_le n (length l) ltac:(lia)) as Hc. rewrite ceil8 in Hc by lia.
    assert (copy_into (replicate (S (n / 8)) 0) (k_value k) = take (S (n / 8)) (k_value k)) as ->.
    { unfold copy_into. rewrite length_replicate, drop_ge by (rewrite length_replicate; lia). apply app_nil_r. }
    set (buf := take (S (n / 8)) (k_value k)). assert (length buf = S (n / 8)) as Hbl by (unfold buf; rewrite length_take; lia).
    rewrite Hbl. replace (S (n / 8) - 1)%nat with (n / 8)%nat by lia. destruct (lookup_lt_is_Some_2 buf (n / 8) ltac:(lia)) as [b Hbb].
    rewrite Hbb. cbn [mbind option_bind]. eexists. split; [done|]. rewrite <- Htl at 1.
    assert (Forall is_byte buf) as Hbuf by (by apply Forall_take). assert (is_byte b) as Hisb by (by eapply Forall_lookup_1).
    assert (0 ≤ shl8 255 (dualBitIndex (Z.of_nat (n mod 8)))) as Hm by apply shl8_byte.
    apply (packs_make _ _ (8 - n mod 8)); [apply Forall_insert; [done|by apply land_is_byte]| |lia].
    rewrite (vbits_insert _ _ _ _ Hbb), dual_nat, byte_bits_mask, <- (vbits_byte _ _ _ Hbb) by (done || lia).
    unfold buf. rewrite !vbits_take, (drop_ge _ (8 * S (n / 8))) by (rewrite length_take; lia). rewrite app_nil_r, app_assoc. f_equal.
    rewrite skipn_firstn_comm, !take_take. rewrite Hv, !Nat.min_l by lia. replace (8 - (8 - n mod 8))%nat with (n mod 8)%nat by lia.
    rewrite <- (take_zeros l n z) by lia. rewrite take_take_drop. f_equal. lia.
Qed.

(** [shiftCopy] drops the first [s] bits. *)
Lemma shiftCopy_spec dst src s :
  (0 < s < 8)%nat → Forall is_byte dst → Forall is_byte src → src ≠ [] → (length src - 1 ≤ length dst)%nat →
  ∃ r, shiftCopy dst src (Z.of_nat s) = Some r ∧ Forall is_byte r ∧
    vbits r = take (8 * length dst) (drop s (vbits src) ++ replicate s false) ++ drop (8 * length src) (vbits dst).
Proof.
  intros Hs Hd Hsrc Hne. revert dst Hd. induction Hsrc as [|a src Ha Hsrc IH]; [done|]. intros [|d dst] Hd Hlen.
  - destruct src; [|simpl in Hlen; lia]. by exists [].
  - inversion_clear Hd. destruct src as [|b src].
    + eexists. split; [done|]. split; [constructor; [apply shl8_byte|done]|]. rewrite !vbits_cons, byte_bits_shl by (done || lia).
      rewrite take_ge by (rewrite length_app, length_drop, length_app, length_replicate, byte_bits_length; simpl; lia).
      rewrite (drop_app_length' (byte_bits d)) by done. rewrite drop_app_le by (rewrite byte_bits_length; lia). simpl vbits. by rewrite app_nil_r.
    + destruct (IH ltac:(done) dst ltac:(done) ltac:(simpl in *; lia)) as (r & Hr & Hrb & Hbits). inversion Hsrc; subst.
      cbn [shiftCopy]. cbn [shiftCopy] in Hr. rewrite Hr. cbn [mbind option_bind]. eexists. split; [done|]. rewrite dual_nat by lia.
      split; [constructor; [apply lor_is_byte; [apply shl8_byte|apply shr8_byte; [done|lia]]|done]|].
      rewrite vbits_cons, byte_bits_lor, byte_bits_shl, byte_bits_shr, Hbits by (done || lia).
      replace (8 - (8 - s))%nat with s by lia.
      assert (zip_with orb (drop s (byte_bits a) ++ replicate s false) (replicate (8 - s) false ++ take s (byte_bits b)) = drop s (byte_bits a) ++ take s (byte_bits b)) as ->.
      { rewrite zip_with_app by (rewrite length_drop, byte_bits_length, length_replicate; done). f_equal.
        - rewrite zip_with_replicate_r_eq by (rewrite length_drop; done). rewrite <- (list_fmap_id (drop s _)) at 2. apply list_fmap_ext. intros ???. apply orb_false_r.
        - rewrite zip_with_replicate_l by (rewrite length_take, byte_bits_length; lia). apply list_fmap_id. }
      rewrite (vbits_cons a), (vbits_cons d), !drop_app_le by (rewrite byte_bits_length; lia). rewrite <- app_assoc.
      replace (8 * length (d :: dst))%nat with (length (drop s (byte_bits a)) + (s + 8 * length dst))%nat by (rewrite length_drop, byte_bits_length; simpl; lia).
      rewrite <- !app_assoc, take_app_add, <- take_take_drop, <- !app_assoc. f_equal. f_equal; [|f_equal].
      * rewrite vbits_cons, <- app_assoc. by rewrite take_app_le by (rewrite byte_bits_length; lia).
      * f_equal. rewrite drop_app_le; [done|]. rewrite vbits_length. simpl. lia.
      * replace (8 * length (a :: b :: src))%nat with (8 + 8 * length (b :: src))%nat by (simpl; lia). by rewrite <- drop_drop, drop_app_length'.
Qed.

Lemma replicate_drop_zeros (l : list bool) n m : (n ≤ length l)%nat → drop n (l ++ replicate m false) = drop n l ++ replicate m false.
Proof. intros. by rewrite drop_app_le. Qed.

Lemma Skip_spec k l n : packs k l → ∃ k', Skip k (Z.of_nat n) = Some k' ∧ packs k' (drop n l).
Proof.
  intros Hk. pose proof Hk as [Hlen Hb (z & Hz & Hv)]. pose proof (packs_value_length k l Hk) as Hvl. unfold Skip. rewrite Hlen.
  destruct (Z.leb_spec (Z.of_nat (length l)) (Z.of_nat n)) as [Hle|Hgt]; [exists emptyKey; split; [done|]; rewrite drop_ge by lia; apply packs_empty|].
  rewrite nat_rem8, nat_quot8. pose proof (Nat.div_mod_eq n 8) as Hn. pose proof (Nat.mod_upper_bound n 8 ltac:(lia)) as Hr8.
  pose proof (floor_ceil8 n (length l) ltac:(lia)). rewrite decide_False by lia.
  assert (Z.of_nat (length l) - Z.of_nat n = Z.of_nat (length (drop n l))) as Hdl by (rewrite length_drop; lia). rewrite Hdl.
  destruct (Z.eqb_spec (Z.of_nat (n mod 8)) 0) as [Hr|Hr].
  - eexists. split; [done|]. apply (packs_make _ _ z); [by apply Forall_drop| |done].
    rewrite vbits_drop, Hv. replace (8 * (n / 8))%nat with n by lia. apply replicate_drop_zeros. lia.
  - rewrite bytesNeeded_nat. unfold make_bytes. rewrite Nat2Z.id. set (B := ((length (drop n l) + 7) / 8)%nat).
    set (v := drop (n / 8) (k_value k)).
    assert (length v = (length (k_value k) - n / 8)%nat) as Hvlen by (unfold v; by rewrite length_drop).
    assert (8 * length (k_value k) = length l + z)%nat as Hbits by (rewrite <- vbits_length, Hv, length_app, length_replicate; done).
    assert (length (drop n l) = length l - n)%nat as Hdn by (by rewrite length_drop).
    assert (8 * B < length (drop n l) + 8 ∧ length (drop n l) ≤ 8 * B)%nat as [HB1 HB2].
    { unfold B. pose proof (Nat.div_mod_eq (length (drop n l) + 7) 8). pose proof (Nat.mod_upper_bound (length (drop n l) + 7) 8 ltac:(lia)). lia. }
    destruct (shiftCopy_spec (replicate B 0) v (n mod 8)) as (r & Hr' & Hrb & Hrv); [lia|apply zeros_bytes|by apply Forall_drop| |rewrite length_replicate; lia|].
    { intros Hv0. apply (f_equal length) in Hv0. simpl in Hv0. lia. }
    rewrite Hr'. cbn [mbind option_bind]. eexists. split; [done|]. apply (packs_make _ _ (8 * B - length (drop n l))); [done| |lia].
    rewrite Hrv. unfold v. rewrite vbits_drop, drop_drop, Hv, length_replicate, vbits_zeros. replace (8 * (n / 8) + n mod 8)%nat with n by lia.
    rewrite replicate_drop_zeros, <- app_assoc, <- replicate_add, take_app_ge, take_replicate, drop_replicate, <- app_assoc, <- replicate_add by lia.
    do 2 f_equal. rewrite Hdn in *. rewrite length_drop. lia.
Qed.

(** The buffer of [Extend]: the bits written, then zeros. *)
Record buffer_holds (buffer : bytes) (l : list bool) (m : nat) : Prop := mkHolds {
  bh_bytes : Forall is_byte buffer;
  bh_bits : vbits buffer = l ++ replicate m false;
}.

Lemma buffer_length buffer l m : buffer_holds buffer l m → (8 * length buffer = length l + m)%nat.
Proof. intros [_ H]. by rewrite <- vbits_length, H, length_app, length_replicate. Qed.

Lemma extendIntoBuffer_spec buffer l m val lv :
  buffer_holds buffer l m → packs val lv → (length lv ≤ m)%nat →
  ∃ buffer', extendIntoBuffer buffer val (Z.of_nat (length l)) = Some buffer' ∧ buffer_holds buffer' (l ++ lv) (m - length lv).
Proof.
  intros Hbuf Hk Hm. pose proof (buffer_length _ _ _ Hbuf) as Hbl. destruct Hbuf as [Hbb Hbv]. pose proof Hk as [Hlen Hb (z & Hz & Hv)].
  unfold extendIntoBuffer. rewrite Hlen. destruct (Z.eqb_spec (Z.of_nat (length lv)) 0) as [H0|Hpos].
  { apply (Nat2Z.inj _ 0), nil_length_inv in H0 as ->. exists buffer. split; [done|]. rewrite app_nil_r, Nat.sub_0_r. done. }
  rewrite bytesNeeded_nat, Nat2Z.id, nat_rem8. set (n := length l) in *. pose proof (Nat.div_mod_eq n 8) as Hn. pose proof (Nat.mod_upper_bound n 8 ltac:(lia)) as Hr8.
  assert (8 * length (k_value val) = length lv + z)%nat as Hbits by (rewrite <- vbits_length, Hv, length_app, length_replicate; done).
  destruct (Z.eqb_spec (Z.of_nat (n mod 8)) 0) as [Hr|Hr].
  - rewrite ceil8_whole by lia. rewrite decide_False by lia. eexists. split; [done|]. split.
    { apply Forall_app. split; [by apply Forall_take|]. apply copy_into_bytes; [by apply Forall_drop|done]. }
    rewrite vbits_app, vbits_take, vbits_copy_into, vbits_drop, Hbv, length_drop, Hv. replace (8 * (n / 8))%nat with n by lia.
    rewrite take_app_length', drop_app_length', <- app_assoc by done. f_equal. rewrite take_ge by (rewrite length_app, length_replicate; lia).
    rewrite drop_replicate, <- app_assoc, <- replicate_add. do 2 f_equal. lia.
  - rewrite ceil8 by lia. rewrite decide_False by lia. replace (S (n / 8) - 1)%nat with (n / 8)%nat by lia.
    destruct (lookup_lt_is_Some_2 buffer (n / 8) ltac:(lia)) as [last Hlast]. rewrite Hlast. cbn [mbind option_bind].
    destruct (lookup_lt_is_Some_2 (k_value val) 0 ltac:(lia)) as [first Hfirst]. rewrite Hfirst. cbn [mbind option_bind].
    assert (is_byte last) as Hlb by exact (Forall_lookup_1 _ _ _ _ Hbb Hlast). assert (is_byte first) as Hfb by exact (Forall_lookup_1 _ _ _ _ Hb Hfirst).
    set (x := Z.lor last (shr8 first (Z.of_nat (n mod 8)))). assert (is_byte x) as Hxb by (apply lor_is_byte; [done|apply shr8_byte; [done|lia]]).
    rewrite drop_insert_lt by lia. rewrite dual_nat by lia.
    destruct (shiftCopy_spec (drop (S (n / 8)) buffer) (k_value val) (8 - n mod 8)) as (r & Hr' & Hrb & Hrv);
      [lia|by apply Forall_drop|done|by intros H0; rewrite H0 in Hfirst|rewrite length_drop; lia|].
    rewrite Hr'. cbn [mbind option_bind]. eexists. split; [done|].
    split; [apply Forall_app; split; [apply Forall_take, Forall_insert|]; done|].
    assert (vbits (take (S (n / 8)) (<[(n / 8)%nat := x]> buffer)) = l ++ take (8 - n mod 8) (vbits (k_value val))) as Htake.
    { rewrite vbits_take, (vbits_insert _ _ _ _ Hlast), app_assoc, take_app_length'.
      2:{ rewrite length_app, length_take, byte_bits_length, vbits_length. lia. }
      assert (byte_bits x = drop (8 * (n / 8)) l ++ take (8 - n mod 8) (byte_bits first)) as ->.
      { unfold x. rewrite byte_bits_lor, byte_bits_shr, <- (vbits_byte _ _ _ Hlast), Hbv by (done || lia).
        rewrite replicate_drop_zeros by lia. rewrite take_app_ge by (rewrite length_drop; lia).
        rewrite take_replicate, zip_with_app by (rewrite length_drop, length_replicate; lia). f_equal.
        - rewrite zip_with_replicate_r_eq by (rewrite length_drop; lia). rewrite <- (list_fmap_id (drop _ l)) at 2. apply list_fmap_ext. intros ???. apply orb_false_r.
        - rewrite zip_with_replicate_l by (rewrite length_take, byte_bits_length, length_drop; lia). apply list_fmap_id. }
      rewrite Hbv, take_zeros by lia. rewrite app_assoc, take_drop. f_equal. destruct (k_value val) as [|f' v]; [done|]. injection Hfirst as ->.
      rewrite vbits_cons, take_app_le; [done|]. rewrite byte_bits_length. lia. }
    rewrite vbits_app, Htake, Hrv, <- app_assoc, <- app_assoc. f_equal.
    rewrite vbits_drop, Hbv, length_drop, !drop_drop.
    rewrite app_assoc, <- (drop_app_le (vbits (k_value val)) (replicate _ false)) by (rewrite vbits_length; lia).
    rewrite <- (take_app_le (vbits (k_value val)) (replicate (8 - n mod 8) false)) by (rewrite vbits_length; lia).
    rewrite take_take_drop, Hv, <- app_assoc, <- replicate_add, take_app_ge by lia.
    rewrite take_replicate, drop_app_ge, drop_replicate, <- app_assoc, <- replicate_add by lia. do 2 f_equal. lia.
Qed.

Lemma extend_all_spec keys ls buffer l m :
  buffer_holds buffer l m → Forall2 packs keys ls → (length (concat ls) ≤ m)%nat →
  ∃ buffer', extend_all buffer keys (Z.of_nat (length l)) = Some buffer' ∧ buffer_holds buffer' (l ++ concat ls) (m - length (concat ls)).
Proof.
  intros Hbuf Hk. revert buffer l m Hbuf. induction Hk as [|key lk keys ls Hkey _ IH]; intros buffer l m Hbuf Hm; cbn [concat extend_all] in *.
  { exists buffer. rewrite app_nil_r, Nat.sub_0_r. done. }
  rewrite length_app in Hm. destruct (extendIntoBuffer_spec buffer l m key lk Hbuf Hkey ltac:(lia)) as (b1 & -> & Hb1). cbn [mbind option_bind].
  destruct (IH b1 (l ++ lk) (m - length lk)%nat Hb1 ltac:(lia)) as (b2 & Hb2 & Hh). exists b2.
  rewrite (pk_length _ _ Hkey), <- Nat2Z.inj_add, <- length_app. split; [done|]. rewrite <- app_assoc in Hh. rewrite length_app, Nat.sub_add_distr. done.
Qed.

Lemma Extend_spec k l keys ls :
  packs k l → Forall2 packs keys ls → ∃ k', Extend k keys = Some k' ∧ packs k' (l ++ concat ls).
Proof.
  intros Hk Hks. unfold Extend. pose proof Hk as [Hlen Hb (z & Hz & Hv)].
  assert (∀ acc, foldl (λ acc key, acc + k_length key) (Z.of_nat acc) keys = Z.of_nat (acc + length (concat ls))) as Htot.
  { clear Hk Hlen Hb Hv. induction Hks as [|key lk keys ls Hkey _ IH]; intros acc; cbn [foldl concat]; [f_equal; simpl; lia|].
    rewrite (pk_length _ _ Hkey), <- Nat2Z.inj_add, IH, length_app. f_equal. lia. }
  rewrite Hlen, Htot, bytesNeeded_nat. unfold make_bytes. rewrite Nat2Z.id. set (t := (length l + length (concat ls))%nat). set (B := ((t + 7) / 8)%nat).
  assert (8 * B < t + 8 ∧ t ≤ 8 * B)%nat as [HB1 HB2].
  { unfold B. pose proof (Nat.div_mod_eq (t + 7) 8). pose proof (Nat.mod_upper_bound (t + 7) 8 ltac:(lia)). lia. }
  assert (8 * length (k_value k) = length l + z)%nat as Hbits by (rewrite <- vbits_length, Hv, length_app, length_replicate; done).
  assert (buffer_holds (copy_into (replicate B 0) (k_value k)) l (8 * B - length l)) as Hbuf.
  { split; [apply copy_into_bytes; [apply zeros_bytes|done]|]. rewrite vbits_copy_into, vbits_zeros, length_replicate, Hv, take_app_ge by lia.
    rewrite take_replicate, drop_replicate, <- app_assoc, <- replicate_add. do 2 f_equal. lia. }
  destruct (extend_all_spec keys ls _ _ _ Hbuf Hks ltac:(lia)) as (b & -> & [Hbb Hbv]). cbn [mbind option_bind]. eexists. split; [done|].
  unfold t. rewrite <- length_app. apply (packs_make _ _ (8 * B - t)); [done| |lia]. rewrite Hbv. do 2 f_equal. lia.
Qed.

(** ** Prefixes *)

Lemma prefix_take (A : Type) (l1 l2 : list A) : l1 `prefix_of` l2 ↔ l1 = take (length l1) l2.
Proof.
  split; [intros [l ->]; by rewrite take_app_length|]. intros ->. exists (drop (length l1) l2). by rewrite take_drop.
Qed.

Lemma string_prefix_bits v w : Forall is_byte v → Forall is_byte w → v `prefix_of` w ↔ vbits v `prefix_of` vbits w.
Proof.
  intros Hv Hw. split; [intros [u ->]; rewrite vbits_app; by eexists|]. rewrite !prefix_take, vbits_length, <- vbits_take.
  intros H. apply vbits_inj; [done|by apply Forall_take|done].
Qed.

Lemma prefix_zeros (l1 l2 : list bool) n : (length l1 ≤ length l2)%nat → l1 `prefix_of` l2 ++ replicate n false ↔ l1 `prefix_of` l2.
Proof. intros Hl. by rewrite !prefix_take, take_zeros. Qed.

Lemma prefix_app_split (l1 l2 l : list bool) : l1 ++ l2 `prefix_of` l ↔ l1 `prefix_of` l ∧ l2 `prefix_of` drop (length l1) l.
Proof.
  split.
  - intros [l' ->]. split; [rewrite <- app_assoc; by eexists|]. rewrite <- app_assoc, drop_app_length. by eexists.
  - intros [[a ->] [b Hb]]. rewrite drop_app_length in Hb. subst. rewrite app_assoc. by eexists.
Qed.

Lemma Key_HasPrefix_spec k l p lp : packs k l → packs p lp → HasPrefix k p = Some (bool_decide (lp `prefix_of` l)).
Proof.
  intros Hk Hp. pose proof Hk as [Hlen Hb (z & Hz & Hv)]. pose proof Hp as [Hlenp Hbp (zp & Hzp & Hvp)].
  pose proof (packs_value_length _ _ Hk) as Hvl. pose proof (packs_value_length _ _ Hp) as Hvlp. unfold HasPrefix. rewrite Hlen, Hlenp.
  destruct (Z.ltb_spec (Z.of_nat (length l)) (Z.of_nat (length lp))) as [Hlt|Hge].
  { f_equal. symmetry. apply bool_decide_eq_false. intros Hpre%prefix_length. lia. }
  rewrite nat_rem8. set (n := length lp) in *. pose proof (Nat.div_mod_eq n 8) as Hn. pose proof (Nat.mod_upper_bound n 8 ltac:(lia)) as Hr8.
  destruct (Z.eqb_spec (Z.of_nat (n mod 8)) 0) as [Hr|Hr].
  - f_equal. unfold string_HasPrefix. apply bool_decide_ext. rewrite string_prefix_bits, Hvp, Hv by done.
    assert (zp = 0%nat) as ->. { pose proof (f_equal length Hvp) as Hx. rewrite vbits_length, length_app, length_replicate in Hx. lia. }
    rewrite app_nil_r. apply prefix_zeros. lia.
  - rewrite ceil8 in Hvlp by lia. pose proof (ceil8_le n (length l) ltac:(lia)) as Hc. rewrite ceil8 in Hc by lia.
    rewrite Hvlp. rewrite decide_False by lia. replace (S (n / 8) - 1)%nat with (n / 8)%nat by lia.
    destruct (lookup_lt_is_Some_2 (k_value p) (n / 8) ltac:(lia)) as [x Hx]. rewrite Hx. cbn [mbind option_bind].
    destruct (lookup_lt_is_Some_2 (k_value k) (n / 8) ltac:(lia)) as [y Hy]. rewrite Hy. cbn [mbind option_bind].
    assert (is_byte x) as Hxb by exact (Forall_lookup_1 _ _ _ _ Hbp Hx). assert (is_byte y) as Hyb by exact (Forall_lookup_1 _ _ _ _ Hb Hy).
    set (mask := Z.shiftr 255 (Z.of_nat (n mod 8))).
    assert (is_byte mask) as Hmb by (apply shr8_byte; [unfold is_byte; lia|lia]).
    assert (Z.lor x mask = Z.lor y mask ↔ take (n mod 8) (byte_bits x) = take (n mod 8) (byte_bits y)) as Hmask.
    { split.
      - intros H%(f_equal byte_bits). unfold mask in H. rewrite !byte_bits_fill in H by done. by apply app_inj_2 in H as [H _].
      - intros H. apply byte_bits_inj; [by apply lor_is_byte|by apply lor_is_byte|]. unfold mask. rewrite !byte_bits_fill by done. by rewrite H. }
    rewrite <- (vbits_byte _ _ _ Hx), <- (vbits_byte _ _ _ Hy), Hvp, Hv, !take_take, Nat.min_l in Hmask by lia.
    assert (lp `prefix_of` l ↔ Z.lor x mask = Z.lor y mask ∧ take (n / 8) (k_value p) `prefix_of` k_value k) as Hiff.
    { rewrite Hmask, string_prefix_bits, vbits_take, Hvp, Hv, take_zeros by (done || lia || by apply Forall_take).
      rewrite prefix_zeros by (rewrite length_take; lia). rewrite <- (take_drop (8 * (n / 8)) lp) at 1. rewrite prefix_app_split, length_take, Nat.min_l by lia.
      rewrite (prefix_take _ (drop _ lp)), length_drop. fold n. replace (n - 8 * (n / 8))%nat with (n mod 8)%nat by lia.
      rewrite !replicate_drop_zeros, !take_zeros by (rewrite ?length_drop; lia). rewrite (take_ge (drop _ lp)) by (rewrite length_drop; lia). tauto. }
    destruct (Z.eqb_spec (Z.lor x mask) (Z.lor y mask)) as [He|He]; cbn [negb].
    + f_equal. unfold string_HasPrefix. apply bool_decide_ext. tauto.
    + f_equal. symmetry. apply bool_decide_eq_false. tauto.
Qed.

(** ** The order *)

Definition bits_compare (l l' : list bool) : comparison := bcompare (Z.b2z <$> l) (Z.b2z <$> l').

Lemma bcompare_app_length a b c d : length a = length b → bcompare (a ++ c) (b ++ d) = match bcompare a b with Eq => bcompare c d | r => r end.
Proof.
  revert b. induction a as [|x a IH]; intros [|y b] Hl; try done. cbn [app bcompare]. destruct (x ?= y); [|done|done]. apply IH. by injection Hl.
Qed.

(** Numbers of the same width are ordered as their bits. *)
Lemma bval_acc acc l : foldl (λ acc b, 2 * acc + Z.b2z b) acc l = acc * 2 ^ Z.of_nat (length l) + bval l.
Proof.
  revert acc. induction l as [|b l IH]; intros acc; [unfold bval; simpl; lia|]. unfold bval. cbn [foldl length]. rewrite !IH, Nat2Z.inj_succ, Z.pow_succ_r by lia. lia.
Qed.

Lemma bval_cons b l : bval (b :: l) = Z.b2z b * 2 ^ Z.of_nat (length l) + bval l.
Proof. unfold bval at 1. cbn [foldl]. rewrite bval_acc. lia. Qed.

Lemma bval_bound l : 0 ≤ bval l < 2 ^ Z.of_nat (length l).
Proof.
  induction l as [|b l IH]; [by vm_compute|]. rewrite bval_cons. cbn [length]. rewrite Nat2Z.inj_succ, Z.pow_succ_r by lia. destruct b; simpl; lia.
Qed.

Lemma bval_compare l l' : length l = length l' → (bval l ?= bval l') = bits_compare l l'.
Proof.
  revert l'. induction l as [|b l IH]; intros [|b' l'] Hl; try done. injection Hl as Hl. rewrite !bval_cons. unfold bits_compare. cbn [fmap list_fmap bcompare].
  pose proof (bval_bound l) as B. pose proof (bval_bound l') as B'. rewrite <- Hl in *. fold (bits_compare l l'). rewrite <- IH by done.
  destruct b, b'; cbn [Z.b2z Z.compare]; [|apply Z.compare_gt_iff; lia|apply Z.compare_lt_iff; lia|by rewrite !Z.mul_0_l].
  destruct (Z.compare_spec (bval l) (bval l')); [apply Z.compare_eq_iff|apply Z.compare_lt_iff|apply Z.compare_gt_iff]; lia.
Qed.

Lemma bval_inj l l' : length l = length l' → bval l = bval l' → l = l'.
Proof.
  intros Hl H. assert (bits_compare l l' = Eq) as Hc%bcompare_eq by (rewrite <- bval_compare by done; by apply Z.compare_eq_iff).
  apply (list_fmap_eq_inj Z.b2z); [|done]. by intros [] [].
Qed.

Lemma bcompare_vbits v w : Forall is_byte v → Forall is_byte w → bcompare v w = bits_compare (vbits v) (vbits w).
Proof.
  intros Hv. revert w. induction Hv as [|x v Hx Hv IH]; intros [|y w] Hw; try done. inversion_clear Hw. rewrite !vbits_cons. unfold bits_compare.
  rewrite !fmap_app, bcompare_app_length by done. fold (bits_compare (byte_bits x) (byte_bits y)). rewrite <- bval_compare, !bval_byte_bits by done.
  cbn [bcompare]. destruct (x ?= y); [|done|done]. by apply IH.
Qed.

(** Zeros at the end do not matter, up to the comparison of the lengths. *)
Lemma bits_compare_zeros l l' n n' :
  ((length l < length l' → length l + n ≤ length l' + n') ∧ (length l' < length l → length l' + n' ≤ length l + n) ∧ (length l = length l' → n = n'))%nat →
  match bits_compare (l ++ replicate n false) (l' ++ replicate n' false) with Eq => Z.of_nat (length l) ?= Z.of_nat (length l') | c => c end = bits_compare l l'.
Proof.
  assert (∀ l n m, (n ≤ length l + m)%nat → bits_compare (replicate n false) (l ++ replicate m false) ≠ Gt ∧ bits_compare (l ++ replicate m false) (replicate n false) ≠ Lt) as Hnil.
  { clear. intros a. induction a as [|b a IH]; intros n m Hn.
    - simpl. revert m Hn. induction n as [|n IHn]; intros [|m] Hn; simpl in Hn; [done|done|lia|]. apply (IHn m). simpl. lia.
    - destruct n as [|n]; [done|]. destruct b; [done|]. apply (IH n m). simpl in Hn. lia. }
  revert l'. induction l as [|b l IH]; intros [|b' l'] (H1 & H2 & H3).
  - rewrite (H3 ltac:(done)). simpl. unfold bits_compare. by rewrite bcompare_refl.
  - destruct (Hnil (b' :: l') n n' ltac:(simpl in *; lia)) as [Hc _]. cbn [app length].
    change (b' :: l' ++ replicate n' false) with ((b' :: l') ++ replicate n' false). destruct (bits_compare (replicate n false) _); [by apply Z.compare_lt_iff; simpl; lia|done|done].
  - destruct (Hnil (b :: l) n' n ltac:(simpl in *; lia)) as [_ Hc]. cbn [app length].
    change (b :: l ++ replicate n false) with ((b :: l) ++ replicate n false). destruct (bits_compare _ (replicate n' false)); [by apply Z.compare_gt_iff; simpl; lia|done|done].
  - specialize (IH l' ltac:(simpl in *; lia)). unfold bits_compare in *. cbn [app fmap list_fmap bcompare length].
    destruct (Z.b2z b ?= Z.b2z b'); [|done|done]. rewrite <- IH, !Nat2Z.inj_compare. done.
Qed.

Lemma Compare_spec k l k' l' : packs k l → packs k' l' → Compare k k' = bits_compare l l'.
Proof.
  intros [Hl Hb (n & Hn & Hv)] [Hl' Hb' (n' & Hn' & Hv')]. unfold Compare. rewrite bcompare_vbits, Hv, Hv', Hl, Hl' by done. apply bits_compare_zeros.
  pose proof (f_equal length Hv) as Hx. pose proof (f_equal length Hv') as Hx'. rewrite vbits_length, length_app, length_replicate in Hx, Hx'. lia.
Qed.

(** ** Keys as tokens

    The trie branches on tokens: the numbers in groups of [ts] bits, with [ts] one of
    1, 2, 4 and 8. *)
Definition token_size (ts : nat) : Prop := ts = 1%nat ∨ ts = 2%nat ∨ ts = 4%nat ∨ ts = 8%nat.

Fixpoint split_tokens (n ts : nat) (l : list bool) : list Z :=
  match n with O => [] | S n => bval (take ts l) :: split_tokens n ts (drop ts l) end.

(** [key_tokens ts k t]: the key [k] has the tokens [t]. *)
Definition key_tokens (ts : nat) (k : Key) (t : list Z) : Prop :=
  ∃ l, packs k l ∧ length l = (ts * length t)%nat ∧ t = split_tokens (length t) ts l.

Lemma split_tokens_length n ts l : length (split_tokens n ts l) = n.
Proof. revert l. induction n as [|n IH]; intros l; simpl; [done|]. by rewrite IH. Qed.

Lemma split_tokens_app n m ts l l' : length l = (ts * n)%nat → split_tokens (n + m) ts (l ++ l') = split_tokens n ts l ++ split_tokens m ts l'.
Proof.
  revert l. induction n as [|n IH]; intros l Hl; simpl.
  - rewrite Nat.mul_0_r in Hl. by apply nil_length_inv in Hl as ->.
  - rewrite take_app_le, drop_app_le by lia. f_equal. apply IH. rewrite length_drop. lia.
Qed.

Lemma split_tokens_inj n ts l l' : length l = (ts * n)%nat → length l' = (ts * n)%nat → split_tokens n ts l = split_tokens n ts l' → l = l'.
Proof.
  revert l l'. induction n as [|n IH]; intros l l' Hl Hl' H.
  - rewrite Nat.mul_0_r in *. apply nil_length_inv in Hl, Hl'. congruence.
  - injection H as Ht Hr. rewrite <- (take_drop ts l), <- (take_drop ts l'). f_equal.
    + apply bval_inj; [rewrite !length_take; lia|done].
    + apply IH; [rewrite length_drop; lia|rewrite length_drop; lia|done].
Qed.

Section tokens.
Context (ts : nat) (Hts : token_size ts).

Lemma key_tokens_fun k t t' : key_tokens ts k t → key_tokens ts k t' → t = t'.
Proof.
  intros (l & Hp & Hl & H) (l' & Hp' & Hl' & H'). assert (l = l') as <- by (by eapply packs_fun).
  rewrite H, H'. f_equal. destruct Hts as [->|[->|[->| ->]]]; lia.
Qed.

Lemma key_tokens_inj k k' t : key_tokens ts k t → key_tokens ts k' t → k = k'.
Proof.
  intros (l & Hp & Hl & H) (l' & Hp' & Hl' & H'). apply (packs_unique k k' l Hp). enough (l = l') as -> by done.
  eapply (split_tokens_inj (length t) ts); [done|done|congruence].
Qed.

Lemma key_tokens_length k t : key_tokens ts k t → k_length k = Z.of_nat ts * Z.of_nat (length t).
Proof. intros (l & Hp & Hl & _). rewrite (pk_length _ _ Hp). lia. Qed.

Lemma key_tokens_range k t x : key_tokens ts k t → x ∈ t → 0 ≤ x < 2 ^ Z.of_nat ts.
Proof.
  intros (l & _ & Hl & Ht) Hx. rewrite Ht in Hx. clear Ht. revert l Hl Hx. generalize (length t) as n. clear t k.
  induction n as [|n IH]; intros l Hl; simpl; [by intros ?%elem_of_nil|].
  rewrite elem_of_cons. intros [->|Hx]; [|apply (IH (drop ts l)); [rewrite length_drop; lia|done]].
  pose proof (bval_bound (take ts l)) as Hb. by rewrite length_take, Nat.min_l in Hb by lia.
Qed.

Lemma split_tokens_lookup n l i : (i < n)%nat → split_tokens n ts l !! i = Some (bval (take ts (drop (ts * i) l))).
Proof.
  revert l i. induction n as [|n IH]; intros l i Hi; [lia|]. destruct i as [|i]; simpl; [by rewrite Nat.mul_0_r|].
  rewrite IH by lia. rewrite drop_drop. do 4 f_equal. lia.
Qed.

Lemma Token_tokens k t i : key_tokens ts k t → (i < length t)%nat → Token k (Z.of_nat ts * Z.of_nat i) (Z.of_nat ts) = t !! i.
Proof.
  intros (l & Hp & Hl & Ht) Hi. rewrite Ht, split_tokens_lookup, <- Nat2Z.inj_mul by done. apply Token_spec; [done|destruct Hts as [->|[->|[->| ->]]]; lia|nia|].
  pose proof (Nat.mod_upper_bound (ts * i) 8 ltac:(lia)). pose proof (Nat.div_mod_eq (ts * i) 8). destruct Hts as [->|[->|[->| ->]]]; lia.
Qed.

Lemma key_tokens_take k t n : key_tokens ts k t → ∃ k', Take k (Z.of_nat ts * Z.of_nat n) = Some k' ∧ key_tokens ts k' (take n t).
Proof.
  intros (l & Hp & Hl & Ht). rewrite <- Nat2Z.inj_mul. destruct (Take_spec k l (ts * n) Hp) as (k' & -> & Hp'). exists k'. split; [done|].
  exists (take (ts * n) l). split; [done|]. rewrite !length_take. split; [nia|].
  destruct (decide (n ≤ length t)%nat) as [Hn|Hn]; [|by rewrite Nat.min_r, !take_ge by nia].
  rewrite Nat.min_l by done. rewrite Ht at 1. rewrite <- (take_drop (ts * n) l) at 1. replace (length t) with (n + (length t - n))%nat at 1 by lia.
  rewrite split_tokens_app by (rewrite length_take; nia). apply take_app_length'. by rewrite split_tokens_length.
Qed.

Lemma key_tokens_skip k t n : key_tokens ts k t → ∃ k', Skip k (Z.of_nat ts * Z.of_nat n) = Some k' ∧ key_tokens ts k' (drop n t).
Proof.
  intros (l & Hp & Hl & Ht). rewrite <- Nat2Z.inj_mul. destruct (Skip_spec k l (ts * n) Hp) as (k' & -> & Hp'). exists k'. split; [done|].
  exists (drop (ts * n) l). split; [done|]. rewrite !length_drop. split; [nia|].
  destruct (decide (n ≤ length t)%nat) as [Hn|Hn]; [|replace (length t - n)%nat with O by lia; cbn [split_tokens]; apply drop_ge; lia].
  rewrite Ht at 1. rewrite <- (take_drop (ts * n) l) at 1. replace (length t) with (n + (length t - n))%nat at 1 by lia.
  rewrite split_tokens_app by (rewrite length_take; nia). apply drop_app_length'. by rewrite split_tokens_length.
Qed.

Lemma key_tokens_extend k t keys tss : key_tokens ts k t → Forall2 (key_tokens ts) keys tss → ∃ k', Extend k keys = Some k' ∧ key_tokens ts k' (t ++ concat tss).
Proof.
  intros (l & Hp & Hl & Ht) Hks.
  assert (∃ ls, Forall2 packs keys ls ∧ length (concat ls) = (ts * length (concat tss))%nat ∧ concat tss = split_tokens (length (concat tss)) ts (concat ls)) as (ls & Hls & Hll & Hlt).
  { clear k t l Hp Hl Ht. induction Hks as [|key tk keys tss (lk & Hpk & Hlk & Htk) _ (ls & IH & Hll & Hlt)]; [exists []; split; [constructor|split; [simpl; lia|done]]|].
    exists (lk :: ls). split; [by constructor|]. cbn [concat]. rewrite !length_app, Hlk, Hll. split; [lia|]. rewrite split_tokens_app by done. by rewrite <- Htk, <- Hlt. }
  destruct (Extend_spec k l keys ls Hp Hls) as (k' & -> & Hp'). exists k'. split; [done|]. exists (l ++ concat ls). split; [done|].
  rewrite !length_app, Hl, Hll. split; [lia|]. rewrite split_tokens_app by done. by rewrite <- Ht, <- Hlt.
Qed.

Lemma key_tokens_prefix k t p tp : key_tokens ts k t → key_tokens ts p tp → HasPrefix k p = Some (bool_decide (tp `prefix_of` t)).
Proof.
  intros (l & Hp & Hl & Ht) (lp & Hpp & Hlp & Htp). rewrite (Key_HasPrefix_spec k l p lp Hp Hpp). f_equal. apply bool_decide_ext. split.
  - intros [l' ->]. rewrite length_app in Hl. assert (length tp ≤ length t)%nat as Hle by (destruct Hts as [->|[->|[->| ->]]]; lia).
    rewrite Ht, Htp. replace (length t) with (length tp + (length t - length tp))%nat by lia. rewrite split_tokens_app by done. by eexists.
  - intros Hpre. pose proof (prefix_length _ _ Hpre) as Hle. apply prefix_take in Hpre. apply prefix_take. apply (split_tokens_inj (length tp) ts); [done|rewrite length_take; nia|].
    rewrite <- Htp, Hpre at 1. rewrite Ht. rewrite <- (take_drop (length lp) l) at 1. replace (length t) with (length tp + (length t - length tp))%nat by lia.
    rewrite split_tokens_app by (rewrite length_take; nia). apply take_app_length'. by rewrite split_tokens_length.
Qed.

Lemma key_tokens_ToToken x : 0 ≤ x < 2 ^ Z.of_nat ts → key_tokens ts (ToToken x (Z.of_nat ts)) [x].
Proof.
  intros Hx. exists (take ts (byte_bits (shl8 x (dualBitIndex (Z.of_nat ts))))).
  assert (is_byte x) as Hb by (unfold is_byte; destruct Hts as [->|[->|[->| ->]]]; simpl in Hx; lia).
  assert (byte_bits (shl8 x (dualBitIndex (Z.of_nat ts))) = take ts (byte_bits (shl8 x (dualBitIndex (Z.of_nat ts)))) ++ replicate (8 - ts) false ∧
    x = bval (take ts (byte_bits (shl8 x (dualBitIndex (Z.of_nat ts)))))) as [Hs Hv].
  { assert (ts = Z.to_nat (Z.of_nat ts)) as E by lia. revert Hx. apply (bool_decide_eq_true_1 (_ → _)). revert x Hb. apply byte_all.
    destruct Hts as [->|[->|[->| ->]]]; by vm_compute. }
  split_and!.
  - unfold ToToken. replace (Z.of_nat ts) with (Z.of_nat (length (take ts (byte_bits (shl8 x (dualBitIndex (Z.of_nat ts))))))) at 1.
    2:{ rewrite length_take, byte_bits_length. f_equal. destruct Hts as [->|[->|[->| ->]]]; lia. }
    apply (packs_make _ _ (8 - ts)); [constructor; [apply shl8_byte|done]|rewrite vbits_cons; simpl (vbits []); by rewrite app_nil_r|destruct Hts as [->|[->|[->| ->]]]; lia].
  - rewrite length_take, byte_bits_length. simpl. destruct Hts as [->|[->|[->| ->]]]; lia.
  - cbn [length split_tokens]. rewrite take_take, Nat.min_id. by f_equal.
Qed.

Lemma key_tokens_bytes bs : Forall is_byte bs → ∃ t, key_tokens ts (toKey bs) t.
Proof.
  intros Hb. set (n := (length (vbits bs) / ts)%nat). exists (split_tokens n ts (vbits bs)). exists (vbits bs). split; [by apply packs_toKey|].
  rewrite split_tokens_length. split; [|done]. unfold n. rewrite vbits_length. apply Nat.Div0.div_exact. destruct Hts as [->|[->|[->| ->]]].
  - apply Nat.mod_1_r.
  - replace (8 * length bs)%nat with (4 * length bs * 2)%nat by lia. apply Nat.Div0.mod_mul.
  - replace (8 * length bs)%nat with (2 * length bs * 4)%nat by lia. apply Nat.Div0.mod_mul.
  - rewrite Nat.mul_comm. apply Nat.Div0.mod_mul.
Qed.

Lemma prefix_loop_spec n k t p tp i j :
  key_tokens ts k t → key_tokens ts p tp → (i + n = length tp)%nat → (j + length tp ≤ length t)%nat →
  prefix_loop n k p (Z.of_nat ts * Z.of_nat j) (Z.of_nat ts * Z.of_nat i) (Z.of_nat ts) = Some (bool_decide (drop i tp `prefix_of` drop (j + i) t)).
Proof.
  intros Hk Hp. revert i. induction n as [|n IH]; intros i Hi Hj; cbn [prefix_loop].
  { f_equal. symmetry. apply bool_decide_eq_true. rewrite drop_ge by lia. apply prefix_nil. }
  rewrite <- Z.mul_add_distr_l, <- Nat2Z.inj_add, (Token_tokens k t), (Token_tokens p tp) by (done || lia).
  destruct (lookup_lt_is_Some_2 t (j + i) ltac:(lia)) as [a Ha]. destruct (lookup_lt_is_Some_2 tp i ltac:(lia)) as [b Hb]. rewrite Ha, Hb. cbn [mbind option_bind].
  rewrite (drop_S _ _ _ Ha), (drop_S _ _ _ Hb). destruct (Z.eqb_spec a b) as [->|Hne].
  - replace (Z.of_nat ts * Z.of_nat i + Z.of_nat ts) with (Z.of_nat ts * Z.of_nat (S i)) by lia. rewrite IH by lia. f_equal. apply bool_decide_ext.
    rewrite Nat.add_succ_r. split; [apply prefix_cons|apply prefix_cons_inv_2].
  - f_equal. symmetry. apply bool_decide_eq_false. intros H%prefix_cons_inv_1. congruence.
Qed.

Lemma iteratedHasPrefix_spec k t p tp j :
  key_tokens ts k t → key_tokens ts p tp → (j ≤ length t)%nat →
  iteratedHasPrefix k p (Z.of_nat ts * Z.of_nat j) (Z.of_nat ts) = Some (bool_decide (tp `prefix_of` drop j t)).
Proof.
  intros Hk Hp Hj. unfold iteratedHasPrefix. rewrite (key_tokens_length k t Hk), (key_tokens_length p tp Hp).
  assert (0 < ts)%nat as H0 by (destruct Hts as [->|[->|[->| ->]]]; lia).
  destruct (Z.ltb_spec (Z.of_nat ts * Z.of_nat (length t) - Z.of_nat ts * Z.of_nat j) (Z.of_nat ts * Z.of_nat (length tp))) as [Hlt|Hge].
  { f_equal. symmetry. apply bool_decide_eq_false. intros H%prefix_length. rewrite length_drop in H. nia. }
  replace (Z.to_nat ((Z.of_nat ts * Z.of_nat (length tp) + Z.of_nat ts - 1) / Z.of_nat ts)) with (length tp).
  2:{ rewrite <- (Nat2Z.id (length tp)) at 1. f_equal. apply (Z.div_unique _ _ _ (Z.of_nat ts - 1)); lia. }
  pose proof (prefix_loop_spec (length tp) k t p tp 0 j Hk Hp ltac:(lia) ltac:(nia)) as H. by rewrite Z.mul_0_r, Nat.add_0_r in H.
Qed.

Lemma key_tokens_empty : key_tokens ts emptyKey [].
Proof. exists []. split; [apply packs_empty|]. split; [simpl; lia|done]. Qed.
End tokens.

(** C19: Packed keys are strings of bits.  On keys that hold the bits [l] and [l'] the
    operations never leave their arrays and are taking, skipping and concatenating
    bits, comparing prefixes and comparing lexicographically, whatever the alignment
    of the bits to bytes; keys are equal exactly if their bits are. *)
Theorem merkle_keys_exact k l k' l' (n : nat) :
  packs k l → packs k' l' →
  (∃ r, Take k (Z.of_nat n) = Some r ∧ packs r (take n l)) ∧
  (∃ r, Skip k (Z.of_nat n) = Some r ∧ packs r (drop n l)) ∧
  (∃ r, Extend k [k'] = Some r ∧ packs r (l ++ l')) ∧
  HasPrefix k k' = Some (bool_decide (l' `prefix_of` l)) ∧
  HasStrictPrefix k k' = Some (bool_decide (l' `prefix_of` l ∧ l ≠ l')) ∧
  Compare k k' = bits_compare l l' ∧ (k = k' ↔ l = l').
Proof.
  intros Hk Hk'. assert (k = k' ↔ l = l') as Heq.
  { split; [intros <-; by eapply packs_fun|intros <-; by eapply packs_unique]. }
  split; [by apply Take_spec|]. split; [by apply Skip_spec|]. split.
  { destruct (Extend_spec k l [k'] [l']) as (r & Hr & Hp); [done|by constructor; [|constructor]|]. exists r. split; [done|]. simpl in Hp. by rewrite app_nil_r in Hp. }
  split; [by apply Key_HasPrefix_spec|]. split; [|split; [by apply Compare_spec|done]].
  unfold HasStrictPrefix. rewrite (Key_HasPrefix_spec k l k' l') by done. case_decide as Hd; f_equal.
  - symmetry. apply bool_decide_eq_false. naive_solver.
  - apply bool_decide_ext. naive_solver.
Qed.

Definition demo_bits : list bool := [true; false; true; true; false; false; true; false; true; true].
Definition demo_key : Key := mkKey 10 [178; 192].

Lemma merkle_keys_exact_witness :
  Skip demo_key 3 = Some (mkKey 7 [150]) ∧ packs (mkKey 7 [150]) (drop 3 demo_bits) ∧ HasPrefix demo_key (mkKey 8 [178]) = Some true.
Proof.
  assert (packs demo_key demo_bits) as H1.
  { split; [reflexivity| |exists 6%nat; split; [lia|reflexivity]]. repeat constructor; unfold is_byte; lia. }
  assert (packs (mkKey 8 [178]) (take 8 demo_bits)) as H2.
  { split; [reflexivity| |exists 0%nat; split; [lia|reflexivity]]. repeat constructor; unfold is_byte; lia. }
  destruct (merkle_keys_exact demo_key demo_bits (mkKey 8 [178]) (take 8 demo_bits) 3 H1 H2) as (_ & (r & Hr & Hp) & _ & Hpre & _).
  split; [reflexivity|]. split; [|exact Hpre]. vm_compute in Hr. injection Hr as <-. exact Hp.
Defined.
