(* ===== verification/MerkleCodec.v ===== *)
(** * The encoding of trie nodes (src/x/merkledb/codec.go)

    The nodes of the trie are stored and hashed as bytes: variable-length integers,
    length-prefixed strings and keys, and children in the order of their index.  The
    file proves that decoding accepts exactly the bytes that encoding writes
    ([dbnode_codec_exact]). *)
From stdpp Require Import sorting.
From S2P Require Import Prelude Ids Bytes MerkleKey.

(** ** Variable-length integers ([encoding/binary]) *)

(** [binary.AppendUvarint] of a [uint64]: at most ten groups of seven bits, the least
    significant first. *)
Fixpoint uvarint_groups (n : nat) (x : Z) : bytes :=
  match n with
  | O => []
  | S n => if 128 <=? x then Z.lor (Z.land x 255) 128 :: uvarint_groups n (Z.shiftr x 7) else [Z.land x 255]
  end.
Definition AppendUvarint (x : Z) : bytes := uvarint_groups 10 x.

Definition MaxVarintLen64 : Z := 10.

(** The loop of [binary.Uvarint]; the number of bytes read is 0 when the buffer is too
    short and negative on overflow. *)
Fixpoint uvarint_loop (buf : bytes) (i x s : Z) : Z * Z :=
  match buf with
  | [] => (0, 0)
  | b :: buf =>
      if i =? MaxVarintLen64 then (0, - (i + 1)) else
      if b <? 128 then
        if (i =? MaxVarintLen64 - 1) && (1 <? b) then (0, - (i + 1)) else (Z.lor x (wrap64 (Z.shiftl b s)), i + 1)
      else uvarint_loop buf (i + 1) (Z.lor x (wrap64 (Z.shiftl (Z.land b 127) s))) (s + 7)
  end.
Definition binary_Uvarint (buf : bytes) : Z * Z := uvarint_loop buf 0 0 0.

(** ** Nodes *)

Record child : Type := mkChild { ch_compressedKey : Key; ch_id : ID; ch_hasValue : bool }.
Record dbNode : Type := mkDbNode { n_value : option bytes; n_children : gmap Z child }.

Inductive merkle_codec_error :=
  | errChildIndexTooLarge | errLeadingZeroes | errInvalidBool | errNonZeroKeyPadding | errExtraSpace | errIntOverflow | errTooManyChildren
  | ErrUnexpectedEOF.

Definition boolLen : Z := 1.
Definition trueByte : Z := 1.
Definition falseByte : Z := 0.

(** [bits.Len64] *)
Definition Len64 (x : Z) : Z := if x =? 0 then 0 else Z.log2 x + 1.

Definition uintSize (value : Z) : Z := if value =? 0 then 1 else (Len64 value + 6) / 7.
Definition keySize (p : Key) : Z := uintSize (k_length p) + bytesNeeded (k_length p).
Definition childSize (index : Z) (childEntry : child) : Z := uintSize index + Z.of_nat IDLen + keySize (ch_compressedKey childEntry) + boolLen.

(** The methods of [codecWriter] append these bytes. *)
Definition w_Bool (v : bool) : bytes := [if v then trueByte else falseByte].
Definition w_Uvarint (v : Z) : bytes := AppendUvarint v.
Definition w_ID (v : ID) : bytes := id_bytes v.
Definition w_Bytes (v : bytes) : bytes := w_Uvarint (Z.of_nat (length v)) ++ v.
Definition w_MaybeBytes (v : option bytes) : bytes := match v with Some v => w_Bool true ++ w_Bytes v | None => w_Bool false end.
Definition w_Key (v : Key) : bytes := w_Uvarint (k_length v) ++ Key_Bytes v.

(** The bytes of a child: the index, the key, the identifier and the flag. *)
Definition encode_child (e : Z * child) : bytes :=
  w_Uvarint e.1 ++ w_Key (ch_compressedKey e.2) ++ w_ID (ch_id e.2) ++ w_Bool (ch_hasValue e.2).

Definition encodeKey (key : Key) : bytes := w_Key key.

(** The methods of [codecReader] return the rest of the bytes. *)
Definition r_Bool (b : bytes) : result (bool * bytes) merkle_codec_error :=
  match b with
  | [] => Err ErrUnexpectedEOF
  | boolByte :: rest => if trueByte <? boolByte then Err errInvalidBool else Ok (boolByte =? trueByte, rest)
  end.

Definition r_Uvarint (b : bytes) : result (Z * bytes) merkle_codec_error :=
  let '(length, bytesRead) := binary_Uvarint b in
  if bytesRead <=? 0 then Err ErrUnexpectedEOF else
  if (1 <? bytesRead) && bool_decide (b !! Z.to_nat (bytesRead - 1) = Some 0) then Err errLeadingZeroes else
  Ok (length, drop (Z.to_nat bytesRead) b).

Definition r_ID (b : bytes) : result (ID * bytes) merkle_codec_error :=
  match ID_of_bytes (take IDLen b) with
  | None => Err ErrUnexpectedEOF
  | Some id => Ok (id, drop IDLen b)
  end.

Open Scope go_scope.

Definition r_Bytes (b : bytes) : result (bytes * bytes) merkle_codec_error :=
  let! (len, b) := r_Uvarint b in
  if Z.of_nat (length b) <? len then Err ErrUnexpectedEOF else Ok (take (Z.to_nat len) b, drop (Z.to_nat len) b).

Definition r_MaybeBytes (b : bytes) : result (option bytes * bytes) merkle_codec_error :=
  let! (hasValue, b) := r_Bool b in
  if negb hasValue then Ok (None, b) else
  let! (v, b) := r_Bytes b in Ok (Some v, b).

Definition MaxInt : Z := 2 ^ 63 - 1.

Definition r_Key (b : bytes) : result (Key * bytes) merkle_codec_error :=
  let! (bitLen, b) := r_Uvarint b in
  if MaxInt <? bitLen then Err errIntOverflow else
  let byteLen := bytesNeeded bitLen in
  if Z.of_nat (length b) <? byteLen then Err ErrUnexpectedEOF else
  if hasPartialByte (mkKey bitLen []) &&
     negb (Z.land (default 0 (b !! Z.to_nat (byteLen - 1))) (Z.shiftr 255 (bitLen mod 8)) =? 0) then Err errNonZeroKeyPadding else
  Ok (mkKey bitLen (take (Z.to_nat byteLen) b), drop (Z.to_nat byteLen) b).

(** The loop over the children: [n] are left, [previousChild] is the last index. *)
Fixpoint decode_children (n : nat) (previousChild : option Z) (children : gmap Z child) (b : bytes) : result (gmap Z child * bytes) merkle_codec_error :=
  match n with
  | O => Ok (children, b)
  | S n =>
      let! (index, b) := r_Uvarint b in
      if match previousChild with Some p => index <=? p | None => false end || (255 <? index) then Err errChildIndexTooLarge else
      let! (compressedKey, b) := r_Key b in
      let! (childID, b) := r_ID b in
      let! (hasValue, b) := r_Bool b in
      decode_children n (Some index) (<[index := mkChild compressedKey childID hasValue]> children) b
  end.

Definition decodeDBNode (b : bytes) : result dbNode merkle_codec_error :=
  let! (value, b) := r_MaybeBytes b in
  let! (numChildren, b) := r_Uvarint b in
  if BranchFactorLargest <? numChildren then Err errTooManyChildren else
  let! (children, b) := decode_children (Z.to_nat numChildren) None ∅ b in
  if decide (b = []) then Ok (mkDbNode value children) else Err errExtraSpace.

Definition decodeKey (b : bytes) : result Key merkle_codec_error :=
  let! (key, b) := r_Key b in
  if decide (b = []) then Ok key else Err errExtraSpace.

Section Encode.
Context {RZ : MapRange Z}.

Definition encodedDBNodeSize (n : dbNode) : Z :=
  uintSize (Z.of_nat (size (n_children n))) + boolLen +
  match n_value n with Some v => uintSize (Z.of_nat (length v)) + Z.of_nat (length v) | None => 0 end +
  lsum (map (λ e, childSize e.1 e.2) (map_range (n_children n))).

(** The indices, sorted; the loop encodes the entry at each of them. *)
Definition sorted_indices (children : gmap Z child) : list Z := merge_sort Z.le (map_range children).*1.
Definition encode_entry (children : gmap Z child) (index : Z) : bytes :=
  match children !! index with Some e => encode_child (index, e) | None => [] end.

Definition encodeDBNode (n : dbNode) : bytes :=
  w_MaybeBytes (n_value n) ++ w_Uvarint (Z.of_nat (size (n_children n))) ++ (sorted_indices (n_children n) ≫= encode_entry (n_children n)).
End Encode.

(** ** Integers *)

Lemma land_255 x : Z.land x 255 = x mod 256.
Proof. change 255 with (Z.ones 8). by rewrite Z.land_ones. Qed.

Lemma group_more x : 0 ≤ x → Z.lor (Z.land x 255) 128 = x mod 128 + 128.
Proof.
  intros Hx. rewrite land_255. replace (x mod 256) with (x mod 128 + 128 * ((x / 128) mod 2)).
  2:{ change 256 with (128 * 2). rewrite Z.rem_mul_r by lia. done. }
  pose proof (Z.mod_pos_bound x 128 ltac:(lia)) as Hb.
  assert (∀ y, 0 ≤ y < 128 → Z.lor y 128 = y + 128 ∧ Z.lor (y + 128) 128 = y + 128) as Hall.
  { intros y Hy. assert (forallb (λ y, (Z.lor y 128 =? y + 128) && (Z.lor (y + 128) 128 =? y + 128)) (seqZ 0 128) = true) as H by by vm_compute.
    rewrite forallb_forall in H. specialize (H y). rewrite <- list_elem_of_In, elem_of_seqZ in H. specialize (H ltac:(lia)). zbool. done. }
  destruct (Hall _ Hb) as [H1 H2]. pose proof (Z.mod_pos_bound (x / 128) 2 ltac:(lia)).
  assert ((x / 128) mod 2 = 0 ∨ (x / 128) mod 2 = 1) as [->| ->] by lia; [by rewrite Z.mul_0_r, Z.add_0_r|by rewrite Z.mul_1_r].
Qed.

Lemma lor_shift x b s : 0 ≤ s → 0 ≤ x < 2 ^ s → 0 ≤ b → Z.lor x (Z.shiftl b s) = x + b * 2 ^ s.
Proof.
  intros Hs Hx Hb. rewrite Z.shiftl_mul_pow2 by done. symmetry. apply Z.add_nocarry_lor, Z.bits_inj'. intros i Hi. rewrite Z.land_spec, Z.bits_0, Z.mul_pow2_bits by lia.
  destruct (Z.lt_ge_cases i s); [rewrite (Z.testbit_neg_r b) by lia; apply andb_false_r|].
  assert (Z.testbit x i = false) as ->; [|done]. destruct (decide (x = 0)) as [->|]; [apply Z.bits_0|].
  apply Z.bits_above_log2; [lia|]. apply (Z.lt_le_trans _ s); [|done]. apply Z.log2_lt_pow2; lia.
Qed.

(** What is left of 64 bits after [i] groups. *)
Definition left_bits (i : nat) : Z := 64 - 7 * Z.of_nat i.

Lemma wrap64_group b i : (i ≤ 9)%nat → 0 ≤ b < 2 ^ left_bits i → wrap64 (Z.shiftl b (7 * Z.of_nat i)) = Z.shiftl b (7 * Z.of_nat i).
Proof.
  intros Hi Hb. apply Z.mod_small. rewrite Z.shiftl_mul_pow2 by lia. split; [apply Z.mul_nonneg_nonneg; lia|].
  replace (2 ^ 64) with (2 ^ left_bits i * 2 ^ (7 * Z.of_nat i)); [apply Z.mul_lt_mono_pos_r; lia|].
  unfold left_bits in *. rewrite <- Z.pow_add_r by lia. f_equal. lia.
Qed.

Lemma left_bits_le i j : (i ≤ j)%nat → (j ≤ 9)%nat → 2 ^ left_bits j ≤ 2 ^ left_bits i.
Proof. intros. apply Z.pow_le_mono_r; unfold left_bits; lia. Qed.

Lemma left_bits_S i : (i ≤ 8)%nat → 2 ^ left_bits i = 2 ^ left_bits (S i) * 128.
Proof. intros. change 128 with (2 ^ 7). rewrite <- Z.pow_add_r by (unfold left_bits; lia). f_equal. unfold left_bits. lia. Qed.

(** One more group of the loop. *)
Lemma uvarint_loop_group c buf i x :
  (i ≤ 8)%nat → 0 ≤ c < 128 → 0 ≤ x < 2 ^ (7 * Z.of_nat i) →
  uvarint_loop ((c + 128) :: buf) (Z.of_nat i) x (7 * Z.of_nat i) =
  uvarint_loop buf (Z.of_nat (S i)) (x + c * 2 ^ (7 * Z.of_nat i)) (7 * Z.of_nat (S i)).
Proof.
  intros Hi Hc Hx. cbn [uvarint_loop]. unfold MaxVarintLen64. rewrite (proj2 (Z.eqb_neq _ _)), (proj2 (Z.ltb_ge _ _)) by lia.
  assert (Z.land (c + 128) 127 = c) as ->.
  { change 127 with (Z.ones 7). rewrite Z.land_ones by lia. change (2 ^ 7) with 128. rewrite <- (Z.mul_1_l 128) at 1. rewrite Z.mod_add by lia. by apply Z.mod_small. }
  assert (128 ≤ 2 ^ left_bits i) by (change 128 with (2 ^ 7); apply Z.pow_le_mono_r; unfold left_bits; lia).
  rewrite wrap64_group, lor_shift by lia. f_equal; lia.
Qed.

(** The last group. *)
Lemma uvarint_loop_last c buf i x :
  (i ≤ 9)%nat → 0 ≤ c < 128 → c < 2 ^ left_bits i → 0 ≤ x < 2 ^ (7 * Z.of_nat i) →
  uvarint_loop (c :: buf) (Z.of_nat i) x (7 * Z.of_nat i) = (x + c * 2 ^ (7 * Z.of_nat i), Z.of_nat (S i)).
Proof.
  intros Hi Hc Hl Hx. cbn [uvarint_loop]. unfold MaxVarintLen64. rewrite (proj2 (Z.eqb_neq _ _)), (proj2 (Z.ltb_lt _ _)) by lia.
  assert ((Z.of_nat i =? 10 - 1) && (1 <? c) = false) as ->.
  { destruct (Z.eqb_spec (Z.of_nat i) (10 - 1)); [|done]. assert (i = 9%nat) as -> by lia. change (2 ^ left_bits 9) with 2 in Hl. zcases. }
  rewrite wrap64_group, lor_shift by lia. f_equal. lia.
Qed.

Lemma group_sum x c v i : x + (c + 128 * v) * 2 ^ (7 * Z.of_nat i) = x + c * 2 ^ (7 * Z.of_nat i) + v * 2 ^ (7 * Z.of_nat (S i)).
Proof. rewrite Nat2Z.inj_succ, Z.mul_succ_r, Z.pow_add_r by lia. change (2 ^ 7) with 128. lia. Qed.

Lemma group_bound x c i : 0 ≤ c < 128 → 0 ≤ x < 2 ^ (7 * Z.of_nat i) → 0 ≤ x + c * 2 ^ (7 * Z.of_nat i) < 2 ^ (7 * Z.of_nat (S i)).
Proof. intros Hc Hx. rewrite Nat2Z.inj_succ, Z.mul_succ_r, Z.pow_add_r by lia. change (2 ^ 7) with 128. nia. Qed.

(** The groups of a number are read back. *)
Lemma uvarint_groups_read f i x v rest :
  (i + f = 10)%nat → 0 ≤ v < 2 ^ left_bits i → 0 ≤ x < 2 ^ (7 * Z.of_nat i) → (0 < f)%nat →
  let e := uvarint_groups f v in
  uvarint_loop (e ++ rest) (Z.of_nat i) x (7 * Z.of_nat i) = (x + v * 2 ^ (7 * Z.of_nat i), Z.of_nat (i + length e)) ∧
  Forall is_byte e ∧ (0 < length e)%nat ∧ (0 < v → last e ≠ Some 0).
Proof.
  revert i x v. induction f as [|f IH]; intros i x v Hf Hv Hx H0; [lia|]. cbn [uvarint_groups]. destruct (Z.leb_spec 128 v) as [Hge|Hlt].
  - assert (i ≤ 8)%nat as Hi8.
    { destruct (decide (i = 9)%nat) as [->|]; [|lia]. change (2 ^ left_bits 9) with 2 in Hv. lia. }
    rewrite group_more by lia. cbn [app length]. pose proof (Z.mod_pos_bound v 128 ltac:(lia)) as Hm. rewrite uvarint_loop_group by done.
    rewrite Z.shiftr_div_pow2 by lia. change (2 ^ 7) with 128. rewrite left_bits_S in Hv by done.
    assert (1 ≤ v / 128) as Hq by (apply Z.div_le_lower_bound; lia).
    destruct (IH (S i) (x + v mod 128 * 2 ^ (7 * Z.of_nat i)) (v / 128)) as (H1 & H2 & H3 & H4); [lia|split; [lia|apply Z.div_lt_upper_bound; lia]|by apply group_bound|lia|].
    split_and!; [|constructor; [unfold is_byte; lia|done]|lia|].
    + rewrite H1, <- group_sum. f_equal; [|f_equal; lia]. do 2 f_equal. pose proof (Z.div_mod v 128 ltac:(lia)). lia.
    + intros _. destruct (uvarint_groups f (v / 128)) as [|y e] eqn:E; [simpl in H3; lia|]. rewrite last_cons_cons. apply H4. lia.
  - rewrite land_255, Z.mod_small by lia. cbn [app length]. rewrite uvarint_loop_last by (done || lia).
    split_and!; [f_equal; lia|constructor; [unfold is_byte; lia|done]|lia|]. simpl. intros ? [= ->]. lia.
Qed.

(** What is read, without a zero group at the end, are the groups of a number. *)
Lemma uvarint_loop_sound buf i x r k :
  Forall is_byte buf → (i ≤ 9)%nat → 0 ≤ x < 2 ^ (7 * Z.of_nat i) → uvarint_loop buf (Z.of_nat i) x (7 * Z.of_nat i) = (r, k) → 0 < k →
  ∃ pre rest v, buf = pre ++ rest ∧ k = Z.of_nat (i + length pre) ∧ (0 < length pre)%nat ∧ 0 ≤ v < 2 ^ left_bits i ∧ r = x + v * 2 ^ (7 * Z.of_nat i) ∧
    (last pre ≠ Some 0 → 0 < v) ∧ (length pre = 1%nat ∨ last pre ≠ Some 0 → pre = uvarint_groups (10 - i) v).
Proof.
  intros Hb. revert i x. induction Hb as [|b buf Hb Hbuf IH]; intros i x Hi Hx Hloop Hk; [cbn in Hloop; simplify_eq; lia|]. unfold is_byte in Hb.
  destruct (decide (b < 128)) as [Hlt|Hge].
  - assert (b < 2 ^ left_bits i) as Hfit.
    { destruct (decide (i = 9)%nat) as [->|].
      - change (2 ^ left_bits 9) with 2. cbn [uvarint_loop] in Hloop. unfold MaxVarintLen64 in Hloop. rewrite (proj2 (Z.ltb_lt b 128)) in Hloop by lia.
        change (Z.of_nat 9 =? 10) with false in Hloop. change (Z.of_nat 9 =? 10 - 1) with true in Hloop. cbn [andb] in Hloop.
        destruct (Z.ltb_spec 1 b); [|lia]. injection Hloop as _ <-. lia.
      - pose proof (left_bits_le i 8 ltac:(lia) ltac:(lia)) as H8. change (2 ^ left_bits 8) with 256 in H8. lia. }
    rewrite uvarint_loop_last in Hloop by (done || lia). simplify_eq. exists [b], buf, b. split_and!; try done; try lia; [simpl; lia|simpl; lia| |].
    + simpl. intros Hne. enough (b ≠ 0) by lia. congruence.
    + intros _. replace (10 - i)%nat with (S (9 - i)) by lia. cbn [uvarint_groups]. rewrite (proj2 (Z.leb_gt 128 b)) by lia. by rewrite land_255, Z.mod_small by lia.
  - destruct (decide (i = 9)%nat) as [->|Hne].
    { cbn [uvarint_loop] in Hloop. unfold MaxVarintLen64 in Hloop. rewrite (proj2 (Z.ltb_ge b 128)) in Hloop by lia.
      change (Z.of_nat 9 =? 10) with false in Hloop. cbv iota in Hloop. destruct buf as [|b' buf]; cbn [uvarint_loop] in Hloop; [injection Hloop as _ <-; lia|].
      change (Z.of_nat 9 + 1 =? MaxVarintLen64) with true in Hloop. injection Hloop as _ <-. lia. }
    replace b with ((b - 128) + 128) in Hloop by lia. rewrite uvarint_loop_group in Hloop by lia.
    destruct (IH (S i) (x + (b - 128) * 2 ^ (7 * Z.of_nat i))) as (pre & rest & v & -> & Hk' & Hlen & Hv & -> & Hpos & Hgroups); [lia|apply group_bound; [lia|done]|done|done|].
    rewrite <- group_sum. exists (b :: pre), rest, (b - 128 + 128 * v). rewrite left_bits_S by lia.
    assert (last (b :: pre) = last pre) as Hlast by (destruct pre as [|y pre]; [simpl in Hlen; lia|apply last_cons_cons]). rewrite Hlast.
    split_and!; try done; try (simpl length; lia); [intros Hnz; specialize (Hpos Hnz); lia|]. intros [H1|Hnz]; [simpl in H1; lia|]. specialize (Hpos Hnz).
    replace (10 - i)%nat with (S (10 - S i)) by lia. cbn [uvarint_groups]. rewrite (proj2 (Z.leb_le 128 _)) by lia. rewrite group_more by lia.
    rewrite (Z.mul_comm 128 v), Z.mod_add, Z.shiftr_div_pow2 by lia. change (2 ^ 7) with 128. rewrite Z.div_add, (Z.mod_small (b - 128)), (Z.div_small (b - 128)) by lia.
    rewrite Z.add_0_l, <- Hgroups by auto. f_equal. lia.
Qed.

Lemma r_Uvarint_complete v rest : is_u64 v → r_Uvarint (AppendUvarint v ++ rest) = Ok (v, rest).
Proof.
  intros Hv. unfold is_u64, MaxUint64 in Hv. unfold r_Uvarint, binary_Uvarint, AppendUvarint. set (e := uvarint_groups 10 v).
  destruct (uvarint_groups_read 10 0 0 v rest) as (H1 & _ & H3 & H4); [done|change (2 ^ left_bits 0) with (2 ^ 64); lia|simpl; lia|lia|]. fold e in H1, H3, H4.
  change (7 * Z.of_nat 0) with 0 in H1. change (Z.of_nat 0) with 0 in H1. rewrite H1. cbn [Nat.add]. rewrite (proj2 (Z.leb_gt _ _)) by lia.
  assert ((1 <? Z.of_nat (length e)) && bool_decide ((e ++ rest) !! Z.to_nat (Z.of_nat (length e) - 1) = Some 0) = false) as ->.
  { destruct (Z.ltb_spec 1 (Z.of_nat (length e))) as [Hl|]; [|done]. apply bool_decide_eq_false. rewrite lookup_app_l by lia.
    replace (Z.to_nat (Z.of_nat (length e) - 1)) with (pred (length e)) by lia. rewrite <- last_lookup. apply H4.
    enough (v ≠ 0) by lia. intros ->. revert Hl. unfold e. cbn. lia. }
  rewrite Nat2Z.id, drop_app_length. do 2 f_equal. lia.
Qed.

Lemma r_Uvarint_sound b v rest : Forall is_byte b → r_Uvarint b = Ok (v, rest) → is_u64 v ∧ b = AppendUvarint v ++ rest.
Proof.
  intros Hb. unfold r_Uvarint, binary_Uvarint. destruct (uvarint_loop b 0 0 0) as [r k] eqn:E. destruct (Z.leb_spec k 0) as [|Hk]; [done|].
  destruct (uvarint_loop_sound b 0 0 r k Hb) as (pre & rest' & w & -> & -> & Hlen & Hw & -> & _ & Hg); [lia|simpl; lia|done|done|].
  cbn [Nat.add] in *. destruct (_ && _) eqn:Ez; [done|]. rewrite Nat2Z.id, drop_app_length. intros [= <- <-].
  change (2 ^ (7 * Z.of_nat 0)) with 1. replace (0 + w * 1) with w by lia. split; [unfold is_u64, MaxUint64; change (2 ^ left_bits 0) with (2 ^ 64) in Hw; lia|].
  f_equal. apply Hg. apply andb_false_iff in Ez as [Ez%Z.ltb_ge|Ez%bool_decide_eq_false]; [left; lia|]. right.
  rewrite lookup_app_l in Ez by lia. rewrite last_lookup. by replace (pred (length pre)) with (Z.to_nat (Z.of_nat (length pre) - 1)) by lia.
Qed.

(** ** The size of integers *)

Lemma uvarint_groups_length f v : 0 ≤ v < 2 ^ (7 * Z.of_nat f) → (0 < f)%nat → Z.of_nat (length (uvarint_groups f v)) = uintSize v.
Proof.
  revert v. induction f as [|f IH]; intros v Hv Hf; [lia|]. cbn [uvarint_groups]. unfold uintSize, Len64. destruct (Z.leb_spec 128 v) as [Hge|Hlt].
  - assert (0 < f)%nat. { destruct f; [|lia]. change (2 ^ (7 * Z.of_nat 1)) with 128 in Hv. lia. }
    rewrite Z.shiftr_div_pow2 by lia. change (2 ^ 7) with 128. assert (1 ≤ v / 128) by (apply Z.div_le_lower_bound; lia).
    cbn [length]. rewrite Nat2Z.inj_succ, IH; [|split; [lia|]|done].
    2:{ apply Z.div_lt_upper_bound; [lia|]. rewrite Nat2Z.inj_succ, Z.mul_succ_r, Z.pow_add_r in Hv by lia. change (2 ^ 7) with 128 in Hv. lia. }
    unfold uintSize, Len64. rewrite !(proj2 (Z.eqb_neq _ _)) by lia.
    assert (Z.log2 (v / 128) = Z.log2 v - 7) as ->; [|dmlia]. change 128 with (2 ^ 7). rewrite <- Z.shiftr_div_pow2, Z.log2_shiftr by lia.
    assert (7 ≤ Z.log2 v) by (apply Z.log2_le_pow2; lia). lia.
  - simpl length. destruct (Z.eqb_spec v 0) as [|Hne]; [done|]. pose proof (Z.log2_nonneg v). assert (Z.log2 v < 7) by (apply Z.log2_lt_pow2; lia). dmlia.
Qed.

Lemma AppendUvarint_length v : is_u64 v → Z.of_nat (length (AppendUvarint v)) = uintSize v.
Proof. unfold is_u64, MaxUint64. intros Hv. apply uvarint_groups_length; [|lia]. change (2 ^ (7 * Z.of_nat 10)) with (2 ^ 70). lia. Qed.

Lemma AppendUvarint_bytes v : is_u64 v → Forall is_byte (AppendUvarint v).
Proof.
  unfold is_u64, MaxUint64. intros Hv. destruct (uvarint_groups_read 10 0 0 v []) as (_ & H & _); [done|change (2 ^ left_bits 0) with (2 ^ 64); lia|simpl; lia|lia|done].
Qed.

(** ** Keys, identifiers and flags *)

Definition key_ok (k : Key) : Prop := (∃ l, packs k l) ∧ k_length k ≤ MaxInt.

Lemma int_u64 x : 0 ≤ x ≤ MaxInt → is_u64 x.
Proof. unfold is_u64, MaxUint64, MaxInt. lia. Qed.

Lemma key_ok_range k : key_ok k → 0 ≤ k_length k ≤ MaxInt.
Proof. intros [[l Hp] Hl]. rewrite (pk_length _ _ Hp) in *. lia. Qed.

Lemma byte_padding b r : is_byte b → (r < 8)%nat → (Z.land b (Z.shiftr 255 (Z.of_nat r)) =? 0) = bool_decide (drop r (byte_bits b) = replicate (8 - r) false).
Proof. intros Hb Hr. byte_brute. Qed.

Lemma packs_padded n v :
  Forall is_byte v → length v = ((n + 7) / 8)%nat →
  (∃ l, packs (mkKey (Z.of_nat n) v) l) ↔ (n mod 8 = 0)%nat ∨ ∃ b, v !! (n / 8)%nat = Some b ∧ drop (n mod 8) (byte_bits b) = replicate (8 - n mod 8) false.
Proof.
  intros Hb Hl. pose proof (Nat.div_mod_eq n 8) as Hn. pose proof (Nat.mod_upper_bound n 8 ltac:(lia)) as Hr.
  destruct (decide (n mod 8 = 0)%nat) as [H0|H0].
  { split; [by left|]. intros _. exists (vbits v). rewrite ceil8_whole in Hl by done. replace n with (length (vbits v)) by (rewrite vbits_length; lia).
    by apply (packs_make _ _ 0); [done|rewrite app_nil_r|lia]. }
  rewrite ceil8 in Hl by done. destruct (lookup_lt_is_Some_2 v (n / 8) ltac:(lia)) as [b Hbb].
  assert (vbits v = take (8 * (n / 8)) (vbits v) ++ byte_bits b) as Hv.
  { rewrite <- (vbits_byte _ _ _ Hbb), (take_ge (drop _ _)) by (rewrite length_drop, vbits_length; lia). by rewrite take_drop. }
  assert (length (take (8 * (n / 8)) (vbits v)) = (8 * (n / 8))%nat) as Hlt by (rewrite length_take, vbits_length; lia).
  split.
  - intros [l [Hkl _ (z & Hz & Hx)]]. cbn [k_length k_value] in *. right. exists b. split; [done|].
    assert (z = 8 - n mod 8)%nat as ->. { pose proof (f_equal length Hx) as Hy. rewrite vbits_length, length_app, length_replicate in Hy. lia. }
    pose proof (f_equal (drop n) Hx) as Hd. rewrite drop_app_length' in Hd by lia. rewrite <- Hd, Hv.
    rewrite drop_app_ge, Hlt by lia. f_equal. lia.
  - intros [|(b' & Hb' & Hpad)]; [lia|]. simplify_eq. exists (take (8 * (n / 8)) (vbits v) ++ take (n mod 8) (byte_bits b)).
    replace n with (length (take (8 * (n / 8)) (vbits v) ++ take (n mod 8) (byte_bits b))) at 1.
    2:{ rewrite length_app, Hlt, length_take, byte_bits_length. lia. }
    apply (packs_make _ _ (8 - n mod 8)); [done| |lia]. rewrite <- app_assoc, <- Hpad, take_drop. done.
Qed.

Lemma padding_check n v rest :
  Forall is_byte v → length v = ((n + 7) / 8)%nat →
  hasPartialByte (mkKey (Z.of_nat n) []) && negb (Z.land (default 0 ((v ++ rest) !! Z.to_nat (bytesNeeded (Z.of_nat n) - 1))) (Z.shiftr 255 (Z.of_nat n mod 8)) =? 0) = false ↔
  ∃ l, packs (mkKey (Z.of_nat n) v) l.
Proof.
  intros Hb Hl. rewrite packs_padded by done. unfold hasPartialByte. cbn [k_length]. rewrite nat_trem8, nat_rem8, bytesNeeded_nat.
  destruct (decide (n mod 8 = 0)%nat) as [->|H0]; [simpl; naive_solver|]. rewrite (proj2 (Z.ltb_lt 0 _)) by lia. rewrite ceil8 in * by done.
  replace (Z.to_nat (Z.of_nat (S (n / 8)) - 1)) with (n / 8)%nat by lia. destruct (lookup_lt_is_Some_2 v (n / 8) ltac:(lia)) as [b Hbb].
  rewrite lookup_app_l, Hbb by lia. cbn [default from_option andb]. pose proof (Nat.mod_upper_bound n 8 ltac:(lia)).
  rewrite byte_padding by (done || by eapply Forall_lookup_1). rewrite negb_false_iff, bool_decide_eq_true. naive_solver.
Qed.

Lemma r_Key_complete k rest : key_ok k → r_Key (w_Key k ++ rest) = Ok (k, rest).
Proof.
  intros Hk. pose proof (key_ok_range k Hk) as Hr. destruct Hk as [[l Hp] Hl]. unfold r_Key, w_Key, w_Uvarint. rewrite <- app_assoc, r_Uvarint_complete by (by apply int_u64). cbn [rbind].
  rewrite (proj2 (Z.ltb_ge _ _)) by lia. pose proof (packs_value_length k l Hp) as Hvl. unfold Key_Bytes. rewrite (pk_length _ _ Hp).
  assert (Z.to_nat (bytesNeeded (Z.of_nat (length l))) = length (k_value k)) as Hbn by (rewrite bytesNeeded_nat, Nat2Z.id; done).
  rewrite (proj2 (Z.ltb_ge _ _)) by (rewrite bytesNeeded_nat, length_app; lia).
  assert (mkKey (Z.of_nat (length l)) (k_value k) = k) as Hk by (destruct k as [n v]; f_equal; symmetry; apply (pk_length _ _ Hp)).
  rewrite (proj2 (padding_check (length l) (k_value k) rest (pk_bytes _ _ Hp) Hvl)) by (exists l; by rewrite Hk).
  by rewrite Hbn, take_app_length, drop_app_length, Hk.
Qed.

Lemma r_Key_sound b k rest : Forall is_byte b → r_Key b = Ok (k, rest) → key_ok k ∧ b = w_Key k ++ rest.
Proof.
  intros Hb. unfold r_Key. intros ((n & b') & Hu & H)%rbind_Ok. destruct (r_Uvarint_sound _ _ _ Hb Hu) as [Hn ->]. apply Forall_app in Hb as [_ Hb'].
  destruct (Z.ltb_spec MaxInt n) as [|Hmax]; [done|]. destruct (Z.ltb_spec (Z.of_nat (length b')) (bytesNeeded n)) as [|Hlen]; [done|].
  destruct (_ && _) eqn:Hpad; [done|]. injection H as <- <-. destruct (Z_of_nat_complete n) as [m ->]; [unfold is_u64 in Hn; lia|].
  rewrite bytesNeeded_nat in Hlen. assert (Z.to_nat (bytesNeeded (Z.of_nat m)) = ((m + 7) / 8)%nat) as -> by (by rewrite bytesNeeded_nat, Nat2Z.id).
  rewrite <- (take_drop ((m + 7) / 8) b') in Hpad at 1. set (v := take ((m + 7) / 8) b') in *. assert (length v = (m + 7) / 8)%nat as Hvl by (unfold v; rewrite length_take; lia).
  apply padding_check in Hpad; [|by apply Forall_take|done]. unfold w_Key, Key_Bytes. cbn [k_length k_value]. rewrite <- app_assoc. unfold v. rewrite take_drop. done.
Qed.

Lemma r_ID_complete id rest : r_ID (w_ID id ++ rest) = Ok (id, rest).
Proof.
  unfold r_ID, w_ID. pose proof (id_length id) as Hl. rewrite take_app_length', drop_app_length' by done. unfold ID_of_bytes.
  destruct (decide _) as [H|H]; [|destruct H; apply id_ok]. do 2 f_equal. by apply ID_eq.
Qed.

Lemma r_ID_sound b id rest : r_ID b = Ok (id, rest) → b = w_ID id ++ rest.
Proof.
  unfold r_ID, ID_of_bytes, w_ID. destruct (decide _) as [H|H]; [|done]. intros [= <- <-]. cbn [id_bytes]. by rewrite take_drop.
Qed.

Lemma r_Bool_complete v rest : r_Bool (w_Bool v ++ rest) = Ok (v, rest).
Proof. by destruct v. Qed.

Lemma r_Bool_sound b v rest : Forall is_byte b → r_Bool b = Ok (v, rest) → b = w_Bool v ++ rest.
Proof.
  intros Hb. destruct b as [|x b]; [done|]. unfold r_Bool, w_Bool, trueByte, falseByte. inversion_clear Hb as [|?? Hx]. unfold is_byte in Hx.
  destruct (Z.ltb_spec 1 x); [done|]. intros [= <- <-]. destruct (Z.eqb_spec x 1) as [->|]; [done|]. by replace x with 0 by lia.
Qed.

(** ** Children *)

Definition child_ok (e : Z * child) : Prop := 0 ≤ e.1 ≤ 255 ∧ key_ok (ch_compressedKey e.2).

(** The indices increase, from above [prev]. *)
Fixpoint increasing (prev : option Z) (es : list (Z * child)) : Prop :=
  match es with
  | [] => True
  | e :: es => match prev with Some p => p < e.1 | None => True end ∧ increasing (Some e.1) es
  end.

Definition add_children (children : gmap Z child) (es : list (Z * child)) : gmap Z child := foldl (λ m e, <[e.1 := e.2]> m) children es.

Lemma index_u64 i : 0 ≤ i ≤ 255 → is_u64 i.
Proof. unfold is_u64, MaxUint64. lia. Qed.

Lemma index_check prev i : 0 ≤ i ≤ 255 → (match prev with Some p => p < i | None => True end) →
  match prev with Some p => i <=? p | None => false end || (255 <? i) = false.
Proof. intros Hi Hp. apply orb_false_iff. split; [destruct prev; [apply Z.leb_gt; lia|done]|apply Z.ltb_ge; lia]. Qed.

Lemma decode_children_complete es prev children rest :
  Forall child_ok es → increasing prev es →
  decode_children (length es) prev children ((es ≫= encode_child) ++ rest) = Ok (add_children children es, rest).
Proof.
  intros Hes. revert prev children. induction Hes as [|[i c] es [Hi Hk] _ IH]; intros prev children Hinc; [done|]. destruct Hinc as [Hp Hinc]. cbn [fst snd] in *.
  cbn [length decode_children]. rewrite bind_cons, <- app_assoc. unfold encode_child at 1. cbn [fst snd]. rewrite <- !app_assoc.
  unfold w_Uvarint. rewrite r_Uvarint_complete by (by apply index_u64). cbn [rbind]. rewrite index_check by done.
  rewrite r_Key_complete by done. cbn [rbind]. rewrite r_ID_complete. cbn [rbind]. rewrite r_Bool_complete. cbn [rbind]. rewrite IH by done. by destruct c.
Qed.

Lemma decode_children_sound n prev children b m rest :
  Forall is_byte b → decode_children n prev children b = Ok (m, rest) →
  ∃ es, length es = n ∧ Forall child_ok es ∧ increasing prev es ∧ b = (es ≫= encode_child) ++ rest ∧ m = add_children children es.
Proof.
  revert prev children b. induction n as [|n IH]; intros prev children b Hb; cbn [decode_children].
  { intros [= <- <-]. by exists []. }
  intros ((i & b1) & Hu & H)%rbind_Ok. destruct (r_Uvarint_sound _ _ _ Hb Hu) as [Hi ->]. apply Forall_app in Hb as [_ Hb].
  destruct (match prev with Some p => i <=? p | None => false end || (255 <? i)) eqn:Hidx; [done|]. apply orb_false_iff in Hidx as [Hp Hmax].
  apply rbind_Ok in H as ((k & b2) & Hk & H). destruct (r_Key_sound _ _ _ Hb Hk) as [Hkok ->]. apply Forall_app in Hb as [_ Hb].
  apply rbind_Ok in H as ((id & b3) & Hid & H). apply r_ID_sound in Hid as ->. apply Forall_app in Hb as [_ Hb].
  apply rbind_Ok in H as ((hv & b4) & Hhv & H). apply r_Bool_sound in Hhv as ->; [|done]. apply Forall_app in Hb as [_ Hb].
  destruct (IH _ _ _ Hb H) as (es & <- & Hes & Hinc & -> & ->). exists ((i, mkChild k id hv) :: es). zbool. unfold is_u64 in Hi.
  split_and!; [done|constructor; [split; [simpl; lia|done]|done]| | |done].
  - split; [destruct prev; zbool; simpl; [lia|done]|done].
  - rewrite bind_cons. unfold encode_child at 2. cbn [fst snd ch_compressedKey ch_id ch_hasValue]. by rewrite <- !app_assoc.
Qed.

(** Entries in the order of their indices are those of the map they make. *)
Lemma increasing_above prev es e p : increasing prev es → prev = Some p → e ∈ es → p < e.1.
Proof.
  revert prev p. induction es as [|e' es IH]; intros prev p Hinc Hp; [by intros ?%elem_of_nil|]. destruct Hinc as [H1 H2]. rewrite Hp in H1.
  rewrite elem_of_cons. intros [->|Hin]; [done|]. pose proof (IH _ _ H2 eq_refl Hin). lia.
Qed.

Lemma indices_sorted prev es : increasing prev es → StronglySorted Z.lt es.*1.
Proof.
  revert prev. induction es as [|e es IH]; intros prev Hinc; [constructor|]. destruct Hinc as [H1 H2]. constructor; [by eapply IH|].
  apply Forall_fmap, Forall_forall. intros e' He'. by eapply increasing_above.
Qed.

Lemma add_children_map es : NoDup es.*1 → add_children ∅ es = list_to_map es.
Proof.
  assert (∀ m, NoDup es.*1 → add_children m es = list_to_map es ∪ m) as H; [|intros Hnd; by rewrite H, (right_id_L ∅ (∪))].
  induction es as [|[i c] es IH]; intros m Hnd; cbn; [by rewrite (left_id_L ∅ (∪))|]. apply NoDup_cons in Hnd as [Hi Hnd].
  fold (add_children (<[i := c]> m) es). rewrite IH by done. rewrite <- insert_union_l. rewrite insert_union_r; [done|]. by apply not_elem_of_list_to_map_1.
Qed.

Lemma sorted_lt_nodup (l : list Z) : StronglySorted Z.lt l → NoDup l.
Proof. induction 1 as [|x l _ IH Hx]; [constructor|]. constructor; [|done]. intros Hin. rewrite Forall_forall in Hx. specialize (Hx x Hin). lia. Qed.

Lemma sorted_lt_le (l : list Z) : StronglySorted Z.lt l → StronglySorted Z.le l.
Proof. induction 1 as [|x l _ IH Hx]; constructor; [done|]. eapply Forall_impl; [done|]. simpl. lia. Qed.

Section encode_children.
Context {RZ : MapRange Z}.

Lemma sorted_indices_perm m : sorted_indices m ≡ₚ (map_to_list m).*1.
Proof. unfold sorted_indices. rewrite merge_sort_Permutation. by rewrite map_range_perm. Qed.

Lemma sorted_indices_sorted m : StronglySorted Z.le (sorted_indices m).
Proof. apply StronglySorted_merge_sort; apply _. Qed.

Lemma sorted_indices_list es : StronglySorted Z.lt es.*1 → sorted_indices (list_to_map es) = es.*1.
Proof.
  intros Hs. apply (StronglySorted_unique Z.le); [apply sorted_indices_sorted|by apply sorted_lt_le|].
  rewrite sorted_indices_perm. by rewrite map_to_list_to_map by (by apply sorted_lt_nodup).
Qed.

Lemma encode_children_list es : StronglySorted Z.lt es.*1 → sorted_indices (list_to_map es) ≫= encode_entry (list_to_map es) = es ≫= encode_child.
Proof.
  intros Hs. rewrite sorted_indices_list by done. apply sorted_lt_nodup in Hs.
  assert (∀ l, l ⊆ es → l.*1 ≫= encode_entry (list_to_map es) = l ≫= encode_child) as H; [|by apply H].
  induction l as [|[i c] l IH]; intros Hl; [done|]. rewrite fmap_cons, !bind_cons, IH by set_solver. f_equal. unfold encode_entry. cbn [fst].
  assert (list_to_map es !! i = Some c) as ->; [|done]. apply elem_of_list_to_map_1; [done|]. apply Hl. left.
Qed.

(** Every map of children is made from a list in the order of the indices. *)
Definition sorted_entries (m : gmap Z child) : list (Z * child) := omap (λ i, pair i <$> m !! i) (sorted_indices m).

Lemma sorted_entries_keys m : (sorted_entries m).*1 = sorted_indices m.
Proof.
  unfold sorted_entries. assert (∀ l, (∀ i, i ∈ l → is_Some (m !! i)) → (omap (λ i, pair i <$> m !! i) l).*1 = l) as H.
  { induction l as [|i l IH]; intros Hl; [done|]. cbn. destruct (Hl i ltac:(left)) as [c Hc]. rewrite Hc. cbn. f_equal. apply IH. intros j Hj. apply Hl. by right. }
  apply H. intros i. rewrite sorted_indices_perm, list_elem_of_fmap. intros ([j c] & -> & Hj%elem_of_map_to_list). by exists c.
Qed.

Lemma sorted_indices_lt m : StronglySorted Z.lt (sorted_indices m).
Proof.
  assert (NoDup (sorted_indices m)) as Hnd by (rewrite sorted_indices_perm; apply NoDup_fst_map_to_list).
  pose proof (sorted_indices_sorted m) as Hs. induction Hs as [|x l _ IH Hx]; [constructor|]. apply NoDup_cons in Hnd as [Hnx Hnd]. constructor; [by apply IH|].
  rewrite Forall_forall in Hx |- *. intros y Hy. specialize (Hx y Hy). enough (x ≠ y) by lia. by intros ->.
Qed.

Lemma elem_of_sorted_entries m i c : (i, c) ∈ sorted_entries m ↔ m !! i = Some c.
Proof.
  unfold sorted_entries. rewrite list_elem_of_omap. split.
  - intros (j & _ & Hj). destruct (m !! j) eqn:E; [|done]. cbn in Hj. by simplify_eq.
  - intros Hc. exists i. rewrite Hc. split; [|done]. rewrite sorted_indices_perm, list_elem_of_fmap. exists (i, c). split; [done|]. by apply elem_of_map_to_list.
Qed.

Lemma sorted_entries_map m : list_to_map (sorted_entries m) = m.
Proof.
  apply map_eq. intros i. apply option_eq. intros c. rewrite <- elem_of_list_to_map, elem_of_sorted_entries; [done|].
  rewrite sorted_entries_keys. apply sorted_lt_nodup, sorted_indices_lt.
Qed.
End encode_children.

Lemma sorted_increasing prev es :
  StronglySorted Z.lt es.*1 → (∀ p e, prev = Some p → e ∈ es → p < e.1) → increasing prev es.
Proof.
  revert prev. induction es as [|e es IH]; intros prev Hs Hp; [done|]. inversion_clear Hs as [|?? Hs' Hx]. split.
  - destruct prev as [p|]; [|done]. apply Hp; [done|left].
  - apply IH; [done|]. intros p e' [= <-] He'. rewrite Forall_forall in Hx. apply Hx, list_elem_of_fmap. by exists e'.
Qed.

(** ** Nodes *)

Record dbnode_ok (n : dbNode) : Prop := {
  no_value : ∀ v, n_value n = Some v → Forall is_byte v ∧ Z.of_nat (length v) ≤ MaxInt;
  no_children : ∀ i c, n_children n !! i = Some c → child_ok (i, c);
}.

Section node_codec.
Context {RZ : MapRange Z}.

Lemma r_MaybeBytes_complete v rest : (∀ w, v = Some w → Z.of_nat (length w) ≤ MaxInt) → r_MaybeBytes (w_MaybeBytes v ++ rest) = Ok (v, rest).
Proof.
  intros Hv. unfold r_MaybeBytes, w_MaybeBytes. destruct v as [w|]; [|by rewrite r_Bool_complete]. rewrite <- app_assoc, r_Bool_complete. cbn [rbind negb].
  unfold r_Bytes, w_Bytes, w_Uvarint. rewrite <- app_assoc, r_Uvarint_complete by (apply int_u64; split; [lia|by apply Hv]). cbn [rbind].
  rewrite (proj2 (Z.ltb_ge _ _)) by (rewrite length_app; lia). by rewrite Nat2Z.id, take_app_length, drop_app_length.
Qed.

Lemma r_MaybeBytes_sound b v rest : Forall is_byte b → r_MaybeBytes b = Ok (v, rest) → b = w_MaybeBytes v ++ rest ∧ ∀ w, v = Some w → Forall is_byte w ∧ (length w ≤ length b)%nat.
Proof.
  intros Hb. unfold r_MaybeBytes. intros ((hv & b1) & H1 & H)%rbind_Ok. apply r_Bool_sound in H1 as ->; [|done]. apply Forall_app in Hb as [_ Hb].
  destruct hv; cbn [negb] in H; [|by simplify_eq]. apply rbind_Ok in H as ((w & b2) & H2 & H). simplify_eq. unfold r_Bytes in H2.
  apply rbind_Ok in H2 as ((len & b3) & Hu & H). destruct (r_Uvarint_sound _ _ _ Hb Hu) as [Hlen ->]. apply Forall_app in Hb as [_ Hb].
  destruct (Z.ltb_spec (Z.of_nat (length b3)) len) as [|Hle]; [done|]. injection H as <- <-. unfold is_u64 in Hlen. split.
  - unfold w_MaybeBytes, w_Bytes, w_Uvarint. rewrite length_take, Nat.min_l, Z2Nat.id by lia. by rewrite <- !app_assoc, take_drop.
  - intros ? [= <-]. split; [by apply Forall_take|]. rewrite !length_app, length_take. lia.
Qed.

Lemma children_bound (m : gmap Z child) : (∀ i c, m !! i = Some c → child_ok (i, c)) → (size m ≤ 256)%nat.
Proof.
  intros Hok. rewrite <- size_dom. assert (dom m ⊆ list_to_set (seqZ 0 256)) as Hsub.
  { intros i [c Hc]%elem_of_dom. destruct (Hok i c Hc) as [Hi _]. apply elem_of_list_to_set, elem_of_seqZ. simpl in Hi. lia. }
  apply subseteq_size in Hsub. etrans; [exact Hsub|]. rewrite size_list_to_set by apply NoDup_seqZ. by rewrite length_seqZ.
Qed.

Lemma decode_encode n : dbnode_ok n → decodeDBNode (encodeDBNode n) = Ok n.
Proof.
  intros [Hv Hc]. unfold decodeDBNode, encodeDBNode. rewrite r_MaybeBytes_complete by naive_solver. cbn [rbind]. pose proof (children_bound _ Hc) as Hsz.
  unfold w_Uvarint. rewrite r_Uvarint_complete by (apply int_u64; unfold MaxInt; lia). cbn [rbind]. rewrite (proj2 (Z.ltb_ge _ _)) by (unfold BranchFactorLargest; lia).
  rewrite Nat2Z.id. set (m := n_children n) in *. assert (StronglySorted Z.lt (sorted_entries m).*1) as Hs by (rewrite sorted_entries_keys; apply sorted_indices_lt).
  pose proof (encode_children_list _ Hs) as He. rewrite sorted_entries_map in He. rewrite He.
  assert (size m = length (sorted_entries m)) as ->.
  { rewrite <- (length_fmap fst), sorted_entries_keys, sorted_indices_perm, length_fmap. symmetry. apply length_map_to_list. }
  rewrite <- (app_nil_r (_ ≫= _)), decode_children_complete.
  - cbn [rbind]. rewrite decide_True by done. rewrite add_children_map by (by apply sorted_lt_nodup). rewrite sorted_entries_map. by destruct n.
  - apply Forall_forall. intros [i c] Hi%elem_of_sorted_entries. by apply Hc.
  - apply sorted_increasing; [done|]. intros; congruence.
Qed.

Lemma encode_decode b n : Forall is_byte b → Z.of_nat (length b) ≤ MaxInt → decodeDBNode b = Ok n → dbnode_ok n ∧ b = encodeDBNode n.
Proof.
  intros Hb Hmax. unfold decodeDBNode. intros ((v & b1) & H1 & H)%rbind_Ok. destruct (r_MaybeBytes_sound _ _ _ Hb H1) as [-> Hv]. apply Forall_app in Hb as [_ Hb].
  apply rbind_Ok in H as ((k & b2) & Hu & H). destruct (r_Uvarint_sound _ _ _ Hb Hu) as [Hk ->]. apply Forall_app in Hb as [_ Hb].
  destruct (Z.ltb_spec BranchFactorLargest k) as [|Hle]; [done|]. apply rbind_Ok in H as ((m & b3) & Hd & H). destruct (decide (b3 = [])) as [->|]; [|done]. injection H as <-.
  destruct (decode_children_sound _ _ _ _ _ _ Hb Hd) as (es & Hlen & Hes & Hinc & -> & ->). apply indices_sorted in Hinc. unfold is_u64 in Hk.
  pose proof (sorted_lt_nodup _ Hinc) as Hnd. rewrite add_children_map by done. split.
  - split; cbn [n_value n_children].
    + intros w Hw. destruct (Hv w Hw) as [Hwb Hwl]. split; [done|lia].
    + intros i c Hic%elem_of_list_to_map; [|done]. rewrite Forall_forall in Hes. by apply Hes.
  - unfold encodeDBNode. cbn [n_value n_children]. rewrite encode_children_list by done. unfold w_Uvarint. rewrite app_nil_r. do 3 f_equal.
    rewrite <- length_map_to_list, map_to_list_to_map by done. lia.
Qed.

Lemma key_size k : key_ok k → Z.of_nat (length (w_Key k)) = keySize k.
Proof.
  intros Hk. pose proof (key_ok_range k Hk) as Hr. destruct Hk as [[l Hp] _]. unfold w_Key, w_Uvarint, keySize, Key_Bytes. rewrite length_app, Nat2Z.inj_add, AppendUvarint_length by (by apply int_u64).
  rewrite (packs_value_length _ _ Hp), (pk_length _ _ Hp), bytesNeeded_nat. done.
Qed.

Lemma child_size e : child_ok e → Z.of_nat (length (encode_child e)) = childSize e.1 e.2.
Proof.
  intros [Hi Hk]. unfold encode_child, childSize, w_Uvarint, w_ID. rewrite !length_app, !Nat2Z.inj_add, AppendUvarint_length, key_size, id_length by (done || by apply index_u64).
  unfold w_Bool, boolLen. simpl. lia.
Qed.

Lemma children_size es : Forall child_ok es → Z.of_nat (length (es ≫= encode_child)) = lsum (map (λ e, childSize e.1 e.2) es).
Proof.
  induction 1 as [|e es He _ IH]; [done|]. rewrite bind_cons, length_app, Nat2Z.inj_add, IH, child_size by done. done.
Qed.

Lemma encode_size n : dbnode_ok n → Z.of_nat (length (encodeDBNode n)) = encodedDBNodeSize n.
Proof.
  intros [Hv Hc]. unfold encodeDBNode, encodedDBNodeSize. rewrite !length_app, !Nat2Z.inj_add. pose proof (children_bound _ Hc) as Hsz.
  unfold w_Uvarint. rewrite AppendUvarint_length by (apply int_u64; unfold MaxInt; lia).
  assert (StronglySorted Z.lt (sorted_entries (n_children n)).*1) as Hs by (rewrite sorted_entries_keys; apply sorted_indices_lt).
  pose proof (encode_children_list _ Hs) as He. rewrite sorted_entries_map in He. rewrite He, children_size.
  2:{ apply Forall_forall. intros [i c] Hi%elem_of_sorted_entries. by apply Hc. }
  assert (sorted_entries (n_children n) ≡ₚ map_range (n_children n)) as Hperm.
  { rewrite map_range_perm. apply NoDup_Permutation; [|apply NoDup_map_to_list|intros [i c]; by rewrite elem_of_sorted_entries, elem_of_map_to_list].
    apply (NoDup_fmap_1 fst). rewrite sorted_entries_keys. apply sorted_lt_nodup, sorted_indices_lt. }
  rewrite (lsum_perm (map _ (sorted_entries _)) _ (Permutation_map _ Hperm)).
  assert (Z.of_nat (length (w_MaybeBytes (n_value n))) = boolLen + match n_value n with Some v => uintSize (Z.of_nat (length v)) + Z.of_nat (length v) | None => 0 end) as ->; [|lia].
  destruct (n_value n) as [v|] eqn:Ev; [|done]. unfold w_MaybeBytes, w_Bytes, w_Uvarint. rewrite !length_app, !Nat2Z.inj_add, AppendUvarint_length.
  - unfold w_Bool, boolLen. simpl length. lia.
  - destruct (Hv v eq_refl). apply int_u64. lia.
Qed.

(** C18: The encoding of nodes is exact.  Bytes of at most the largest [int] decode to
    a node exactly if the node is well formed and they are its encoding, which has the
    length that was reserved for it: every node is read back as it was written, no
    node has two encodings, and the order in which the runtime iterates the children
    does not matter. *)
Theorem dbnode_codec_exact b n :
  Forall is_byte b → Z.of_nat (length b) ≤ MaxInt →
  decodeDBNode b = Ok n ↔ dbnode_ok n ∧ b = encodeDBNode n ∧ Z.of_nat (length b) = encodedDBNodeSize n.
Proof.
  intros Hb Hmax. split.
  - intros H. destruct (encode_decode b n Hb Hmax H) as [Hok ->]. split; [done|]. split; [done|]. by apply encode_size.
  - intros (Hok & -> & _). by apply decode_encode.
Qed.
End node_codec.

(** A node with a value and two children, one with a key of three bits. *)
Definition demo_children : gmap Z child := {[ 200 := mkChild (mkKey 3 [160]) Empty true; 7 := mkChild (mkKey 8 [5]) Empty false ]}.
Definition demo_node : dbNode := mkDbNode (Some [1; 2; 3]) demo_children.
Definition demo_node_bytes : bytes := [1; 3; 1; 2; 3; 2; 7; 8; 5] ++ replicate 32 0 ++ [0; 200; 1; 3; 160] ++ replicate 32 0 ++ [1].

Lemma dbnode_codec_exact_witness :
  encodeDBNode (RZ := canonical_range Z) demo_node = demo_node_bytes ∧ dbnode_ok demo_node.
Proof.
  destruct (proj1 (dbnode_codec_exact (RZ := canonical_range Z) demo_node_bytes demo_node
    ltac:(refine (bool_decide_unpack _ _); vm_compute; exact I) ltac:(vm_compute; discriminate)) ltac:(vm_compute; reflexivity)) as (Hok & He & _).
  split; [symmetry; exact He|exact Hok].
Defined.
