(* ===== verification/MerkleTree.v ===== *)
(** * Compressed tries of finite maps (no source)

    The shape of the trie that [x/merkledb] keeps is a function of the map it holds.
    Keys are lists of tokens.  The node reached from a prefix [p] is the longest
    common prefix of the keys that extend [p] ([top m p]); the nodes are the prefixes
    that are their own top.  The lemmas here say how the tops change when a key is
    added ([top_insert]) or removed ([top_delete]). *)
From S2P Require Import Prelude.

Section tree.
Context {V : Type}.
Implicit Types (m : gmap (list Z) V) (p q k t c : list Z).

(** ** Common prefixes *)

Fixpoint lcp (a b : list Z) : list Z :=
  match a, b with
  | x :: a, y :: b => if decide (x = y) then x :: lcp a b else []
  | _, _ => []
  end.

Lemma lcp_l a b : lcp a b `prefix_of` a.
Proof. revert b. induction a as [|x a IH]; intros [|y b]; simpl; [apply prefix_nil..|]. case_decide; [|apply prefix_nil]. by apply prefix_cons. Qed.

Lemma lcp_comm a b : lcp a b = lcp b a.
Proof. revert b. induction a as [|x a IH]; intros [|y b]; simpl; [done..|]. repeat case_decide; congruence. Qed.

Lemma lcp_r a b : lcp a b `prefix_of` b.
Proof. rewrite lcp_comm. apply lcp_l. Qed.

Lemma lcp_greatest a b q : q `prefix_of` a → q `prefix_of` b → q `prefix_of` lcp a b.
Proof.
  revert a b. induction q as [|z q IH]; intros a b Ha Hb; [apply prefix_nil|]. destruct a as [|x a]; [by apply prefix_nil_not in Ha|]. destruct b as [|y b]; [by apply prefix_nil_not in Hb|].
  pose proof (prefix_cons_inv_1 _ _ _ _ Ha) as ->. pose proof (prefix_cons_inv_1 _ _ _ _ Hb) as ->. simpl. rewrite decide_True by done.
  apply prefix_cons, IH; by eapply prefix_cons_inv_2.
Qed.

Lemma prefix_antisym p q : p `prefix_of` q → q `prefix_of` p → p = q.
Proof. intros H1 H2. by apply (anti_symm prefix). Qed.

Lemma lcp_of_prefix a b : a `prefix_of` b → lcp a b = a.
Proof. intros H. apply prefix_antisym; [apply lcp_l|by apply lcp_greatest]. Qed.

Lemma prefix_comparable (a b k : list Z) : a `prefix_of` k → b `prefix_of` k → a `prefix_of` b ∨ b `prefix_of` a.
Proof.
  revert b k. induction a as [|x a IH]; intros b k Ha Hb; [left; apply prefix_nil|]. destruct b as [|y b]; [right; apply prefix_nil|].
  destruct k as [|z k]; [by apply prefix_nil_not in Ha|]. pose proof (prefix_cons_inv_1 _ _ _ _ Ha) as ->. pose proof (prefix_cons_inv_1 _ _ _ _ Hb) as ->.
  destruct (IH b k) as [H|H]; [by eapply prefix_cons_inv_2..| |]; [left|right]; by apply prefix_cons.
Qed.

(** A strict prefix can be extended by one token. *)
Lemma prefix_next p k : p `prefix_of` k → p ≠ k → ∃ x, k !! length p = Some x ∧ (p ++ [x]) `prefix_of` k.
Proof.
  intros [l ->] Hne. destruct l as [|x l]; [by rewrite app_nil_r in Hne|]. exists x. split; [by rewrite list_lookup_middle|]. exists l. by rewrite <- app_assoc.
Qed.

Lemma prefix_next_inv p x k : (p ++ [x]) `prefix_of` k → p `prefix_of` k ∧ k !! length p = Some x.
Proof.
  intros [l ->]. rewrite <- app_assoc. split; [by eexists|]. cbn. by rewrite list_lookup_middle.
Qed.

Lemma prefix_next_iff p x k : (p ++ [x]) `prefix_of` k ↔ p `prefix_of` k ∧ k !! length p = Some x.
Proof.
  split; [apply prefix_next_inv|]. intros [[l ->] Hx]. destruct l as [|y l]; [rewrite app_nil_r, lookup_ge_None_2 in Hx by lia; done|].
  rewrite list_lookup_middle in Hx by done. injection Hx as ->. exists l. by rewrite <- app_assoc.
Qed.

Lemma prefix_snoc_l p x k : (p ++ [x]) `prefix_of` k → p `prefix_of` k.
Proof. intros H. by apply prefix_next_inv in H as [H _]. Qed.

Lemma not_prefix_snoc p x : ¬ (p ++ [x]) `prefix_of` p.
Proof. intros H%prefix_length. rewrite length_app in H. simpl in H. lia. Qed.

Lemma prefix_eq_length (a b : list Z) : a `prefix_of` b → (length b ≤ length a)%nat → a = b.
Proof. intros [l ->] Hl. rewrite length_app in Hl. destruct l; [by rewrite app_nil_r|simpl in Hl; lia]. Qed.

Lemma lcp_app a b c : lcp (a ++ b) (a ++ c) = a ++ lcp b c.
Proof. induction a as [|x a IH]; simpl; [done|]. rewrite decide_True by done. by rewrite IH. Qed.

Lemma prefix_split (a b : list Z) : a `prefix_of` b → b = a ++ drop (length a) b.
Proof. intros [l ->]. by rewrite drop_app_length. Qed.

(** ** The node under a prefix *)

Definition below m p : gmap (list Z) V := filter (λ e, p `prefix_of` e.1) m.

Definition top m p : option (list Z) :=
  match (map_to_list (below m p)).*1 with
  | [] => None
  | k :: ks => Some (foldl lcp k ks)
  end.

Definition is_node m q : Prop := top m q = Some q.

#[global] Instance is_node_dec m q : Decision (is_node m q).
Proof. unfold is_node. apply _. Defined.

(** [k] is a key of [m] that extends [p]. *)
Definition under m p k : Prop := is_Some (m !! k) ∧ p `prefix_of` k.

Lemma elem_of_below m p k : k ∈ (map_to_list (below m p)).*1 ↔ under m p k.
Proof.
  unfold under, below. rewrite list_elem_of_fmap. split.
  - intros ([k' v] & -> & H%elem_of_map_to_list). apply map_lookup_filter_Some in H as [H1 H2]. split; [by eexists|done].
  - intros [[v Hv] Hp]. exists (k, v). split; [done|]. apply elem_of_map_to_list, map_lookup_filter_Some. done.
Qed.

Lemma foldl_lcp_spec k ks : (∀ k', k' ∈ k :: ks → foldl lcp k ks `prefix_of` k') ∧ (∀ q, (∀ k', k' ∈ k :: ks → q `prefix_of` k') → q `prefix_of` foldl lcp k ks).
Proof.
  revert k. induction ks as [|k2 ks IH]; intros k; simpl; [split; [intros ? ->%list_elem_of_singleton; done|intros q Hq; apply Hq; left]|].
  destruct (IH (lcp k k2)) as [H1 H2]. split.
  - intros k' Hk'. apply elem_of_cons in Hk' as [->|Hk']; [etrans; [apply H1; left|apply lcp_l]|]. apply elem_of_cons in Hk' as [->|Hk']; [etrans; [apply H1; left|apply lcp_r]|].
    apply H1. by right.
  - intros q Hq. apply H2. intros k' [->|Hk']%elem_of_cons; [apply lcp_greatest; apply Hq; [left|right; left]|]. apply Hq. by do 2 right.
Qed.

Lemma top_None m p : top m p = None ↔ ∀ k, ¬ under m p k.
Proof.
  unfold top. pose proof (elem_of_below m p) as H. destruct ((map_to_list (below m p)).*1) as [|k ks] eqn:E.
  - split; [|done]. intros _ k Hk%H. by apply elem_of_nil in Hk.
  - split; [done|]. intros Hn. destruct (Hn k). apply H. left.
Qed.

Lemma top_Some m p q :
  top m p = Some q ↔ (∃ k, under m p k) ∧ (∀ k, under m p k → q `prefix_of` k) ∧ (∀ q', (∀ k, under m p k → q' `prefix_of` k) → q' `prefix_of` q).
Proof.
  unfold top. pose proof (elem_of_below m p) as H. destruct ((map_to_list (below m p)).*1) as [|k ks] eqn:E.
  - split; [done|]. intros ((k & Hk%H) & _). by apply elem_of_nil in Hk.
  - destruct (foldl_lcp_spec k ks) as [H1 H2]. assert (∀ q', (∀ k', under m p k' → q' `prefix_of` k') → q' `prefix_of` foldl lcp k ks) as H3.
    { intros q' Hq'. apply H2. intros k' Hk'%H. by apply Hq'. }
    split.
    + intros [= <-]. split; [exists k; apply H; left|]. split; [|done]. intros k' Hk'%H. by apply H1.
    + intros (_ & Hl & Hg). f_equal. apply prefix_antisym; [|by apply H3]. apply Hg. intros k' Hk'%H. by apply H1.
Qed.

Lemma top_is_Some m p : is_Some (top m p) ↔ ∃ k, under m p k.
Proof.
  split.
  - intros [q (Hk & _)%top_Some]. done.
  - intros [k Hk]. destruct (top m p) eqn:E; [done|]. by apply top_None with (k := k) in E.
Qed.

Lemma under_le m p q k : p `prefix_of` q → under m q k → under m p k.
Proof. intros Hp [Hk Hq]. split; [done|]. by etrans. Qed.

Lemma top_above m p q : top m p = Some q → p `prefix_of` q.
Proof. intros (_ & _ & H)%top_Some. apply H. by intros k [_ Hk]. Qed.

Lemma top_prefix m p q k : top m p = Some q → under m p k → q `prefix_of` k.
Proof. intros (_ & H & _)%top_Some. apply H. Qed.

Lemma top_ext m m' p p' : (∀ k, under m p k ↔ under m' p' k) → top m p = top m' p'.
Proof.
  intros H. destruct (top m' p') as [q|] eqn:E.
  - apply top_Some in E as ((k & Hk) & H1 & H2). apply top_Some. split; [exists k; by apply H|]. split; [intros k' Hk'%H; by apply H1|].
    intros q' Hq'. apply H2. intros k' Hk'%H. by apply Hq'.
  - apply top_None. intros k Hk%H. by apply (proj1 (top_None m' p') E k).
Qed.

(** Between a prefix and its top nothing branches. *)
Lemma top_between m p q r : top m p = Some q → p `prefix_of` r → r `prefix_of` q → top m r = Some q.
Proof.
  intros Hq Hp Hr. rewrite <- Hq. apply top_ext. intros k. split; [by apply under_le|]. intros Hk. split; [apply Hk|]. etrans; [done|]. by eapply top_prefix.
Qed.

Lemma top_node m p q : top m p = Some q → is_node m q.
Proof. intros H. eapply top_between; [done|by eapply top_above|done]. Qed.

Lemma top_off m p q r : top m p = Some q → p `prefix_of` r → ¬ r `prefix_of` q → ¬ q `prefix_of` r → top m r = None.
Proof.
  intros Hq Hp Hr Hr'. apply top_None. intros k Hk. pose proof (top_prefix _ _ _ _ Hq (under_le _ _ _ _ Hp Hk)) as Hqk. destruct Hk as [_ Hk].
  destruct (prefix_comparable q r k); done.
Qed.

Lemma key_is_node m k : is_Some (m !! k) → is_node m k.
Proof. intros Hk. apply top_Some. split; [exists k; done|]. split; [by intros k' [_ Hk']|]. intros q' Hq'. by apply Hq'. Qed.

(** A node carries a value or branches. *)
Lemma node_cases m q : is_node m q → is_Some (m !! q) ∨ ∃ x y, x ≠ y ∧ is_Some (top m (q ++ [x])) ∧ is_Some (top m (q ++ [y])).
Proof.
  intros Hq. destruct (decide (is_Some (m !! q))) as [|Hv]; [by left|]. right. pose proof Hq as ((k & Hk) & _ & Hg)%top_Some.
  assert (∀ k', under m q k' → q ≠ k') as Hne by (intros k' [Hk' _] ->; done).
  destruct (prefix_next q k) as (x & Hx & Hqx); [apply Hk|by apply Hne|]. exists x.
  destruct (decide (Forall (λ k', (q ++ [x]) `prefix_of` k') (map_to_list (below m q)).*1)) as [Hall|Hno].
  - rewrite Forall_forall in Hall. destruct (not_prefix_snoc q x). apply Hg. intros k' Hk'%elem_of_below. by apply Hall.
  - apply not_Forall_Exists in Hno; [|apply _]. apply Exists_exists in Hno as (k' & Hk' & Hnp). apply elem_of_below in Hk'.
    destruct (prefix_next q k') as (y & Hy & Hqy); [apply Hk'|by apply Hne|]. exists y. split; [by intros ->|].
    split; apply top_is_Some; [exists k|exists k']; (split; [apply Hk || apply Hk'|done]).
Qed.

Lemma branch_is_node m q x y : x ≠ y → is_Some (top m (q ++ [x])) → is_Some (top m (q ++ [y])) → is_node m q.
Proof.
  intros Hne [k1 Hk1]%top_is_Some [k2 Hk2]%top_is_Some. apply top_Some.
  pose proof (under_le m q (q ++ [x]) k1 ltac:(by eexists) Hk1) as U1. pose proof (under_le m q (q ++ [y]) k2 ltac:(by eexists) Hk2) as U2.
  split; [by exists k1|]. split; [by intros k [_ Hk]|]. intros q' Hq'. pose proof (Hq' _ U1) as H1. pose proof (Hq' _ U2) as H2.
  destruct (prefix_comparable q' q k1) as [|Hq]; [done|apply U1|done|]. destruct (decide (q = q')) as [->|Hn]; [done|].
  destruct (prefix_next q q') as (z & Hz & Hqz); [done|done|].
  assert (z = x) as ->. { destruct Hk1 as [_ [_ Hx]%prefix_next_inv]. pose proof (prefix_lookup_Some _ _ _ _ Hz H1). congruence. }
  assert (x = y) as ->; [|done]. destruct Hk2 as [_ [_ Hy]%prefix_next_inv]. pose proof (prefix_lookup_Some _ _ _ _ Hz H2). congruence.
Qed.

(** A prefix that is no node has one way down. *)
Lemma top_down m q t : top m q = Some t → q ≠ t → ∃ x, t !! length q = Some x ∧ top m (q ++ [x]) = Some t ∧ ∀ y, y ≠ x → top m (q ++ [y]) = None.
Proof.
  intros Ht Hne. pose proof (top_above _ _ _ Ht) as Hqt. destruct (prefix_next q t Hqt Hne) as (x & Hx & Hqx). exists x. split; [done|].
  split; [by eapply top_between; [done|by eexists|]|]. intros y Hy. eapply top_off; [done|by eexists| |].
  - intros [_ H]%prefix_next_inv. congruence.
  - intros H. destruct (decide (length t = length q)) as [Hl|Hl].
    + apply prefix_length in Hqx. rewrite length_app in Hqx. simpl in Hqx. lia.
    + apply prefix_next_inv in Hqx as [_ Hx']. assert ((q ++ [y]) = t) as <-.
      { symmetry. apply prefix_eq_length; [done|]. rewrite length_app. simpl. pose proof (prefix_length _ _ Hqt). lia. }
      rewrite list_lookup_middle in Hx by done. congruence.
Qed.

Lemma top_child_node m q x c : top m (q ++ [x]) = Some c → is_node m c ∧ q `prefix_of` c ∧ (length q < length c)%nat ∧ c !! length q = Some x.
Proof.
  intros H. split; [by eapply top_node|]. pose proof (top_above _ _ _ H) as Hp. destruct (prefix_next_inv _ _ _ Hp) as [H1 H2].
  split; [done|]. split; [apply prefix_length in Hp; rewrite length_app in Hp; simpl in Hp; lia|done].
Qed.

(** ** Adding a key *)

Definition join (t : option (list Z)) k : list Z := match t with None => k | Some t => lcp t k end.

Lemma under_insert m k v p k' : under (<[k := v]> m) p k' ↔ (k' = k ∧ p `prefix_of` k) ∨ under m p k'.
Proof.
  unfold under. destruct (decide (k' = k)) as [->|Hne]; [rewrite lookup_insert_eq; naive_solver|]. rewrite lookup_insert_ne by done. naive_solver.
Qed.

Lemma top_insert m k v p : top (<[k := v]> m) p = if decide (p `prefix_of` k) then Some (join (top m p) k) else top m p.
Proof.
  case_decide as Hp.
  - apply top_Some. split; [exists k; apply under_insert; by left|]. destruct (top m p) as [t|] eqn:E; simpl.
    + apply top_Some in E as (_ & H1 & H2). split.
      * intros k' [[-> _]|Hk']%under_insert; [apply lcp_r|]. etrans; [apply lcp_l|by apply H1].
      * intros q' Hq'. apply lcp_greatest; [|apply Hq', under_insert; by left]. apply H2. intros k' Hk'. apply Hq', under_insert. by right.
    + rewrite top_None in E. split; [intros k' [[-> _]|Hk']%under_insert; [done|by apply E in Hk']|].
      intros q' Hq'. apply Hq', under_insert. by left.
  - apply top_ext. intros k'. rewrite under_insert. naive_solver.
Qed.

(** ** Removing a key *)

Lemma under_delete m k p k' : under (delete k m) p k' ↔ k' ≠ k ∧ under m p k'.
Proof.
  unfold under. destruct (decide (k' = k)) as [->|Hne]; [rewrite lookup_delete_eq; split; [intros [[? ?] _]; done|naive_solver]|]. rewrite lookup_delete_ne by done. naive_solver.
Qed.

Lemma top_delete_other m k p : ¬ p `prefix_of` k → top (delete k m) p = top m p.
Proof. intros Hp. apply top_ext. intros k'. rewrite under_delete. unfold under. naive_solver. Qed.

(** Prefixes with the same top in [m] have the same top in a smaller map. *)
Lemma top_delete m k q : top (delete k m) q = top m q ≫= top (delete k m).
Proof.
  destruct (top m q) as [t|] eqn:E; cbn [mbind option_bind].
  - apply top_ext. intros k'. rewrite !under_delete. split.
    + intros [Hne Hk']. split; [done|]. split; [apply Hk'|]. by eapply top_prefix.
    + intros [Hne Hk']. split; [done|]. eapply under_le; [by eapply top_above|done].
  - apply top_None. intros k' [_ Hk']%under_delete. by apply (proj1 (top_None m q) E k').
Qed.

(** Without a value and with one way down, the top is that of the child. *)
Lemma top_single m t y : m !! t = None → (∀ z, z ≠ y → top m (t ++ [z]) = None) → top m t = top m (t ++ [y]).
Proof.
  intros Hv Hz. apply top_ext. intros k. split; [|apply under_le; by eexists]. intros [Hk Hp].
  assert (t ≠ k) as Hne by (intros ->; rewrite Hv in Hk; by destruct Hk). destruct (prefix_next t k Hp Hne) as (z & _ & Htz).
  destruct (decide (z = y)) as [->|Hzy]; [done|]. by destruct (proj1 (top_None _ _) (Hz z Hzy) k).
Qed.

Lemma top_none m t : m !! t = None → (∀ z, top m (t ++ [z]) = None) → top m t = None.
Proof. intros Hv Hz. by rewrite (top_single m t 0). Qed.

Lemma delete_child_other m k q x : ¬ (q ++ [x]) `prefix_of` k → top (delete k m) (q ++ [x]) = top m (q ++ [x]).
Proof. apply top_delete_other. Qed.

(** A node that is not on the way to the removed key stays. *)
Lemma delete_node_off m k t : is_node m t → ¬ t `prefix_of` k → is_node (delete k m) t.
Proof. intros Ht Hp. unfold is_node. by rewrite top_delete_other. Qed.

Lemma top_empty_map p : top (∅ : gmap (list Z) V) p = None.
Proof. apply top_None. intros k [Hk _]. rewrite lookup_empty in Hk. by destruct Hk. Qed.

Lemma top_all_None m : top m [] = None → m = ∅.
Proof.
  intros H. apply map_eq. intros k. rewrite lookup_empty. destruct (m !! k) eqn:E; [|done]. destruct (proj1 (top_None _ _) H k). split; [by eexists|apply prefix_nil].
Qed.

(** ** Paths

    The nodes on the way to a key: the root, and from a node the child in the
    direction of the key, as long as it is a prefix of it. *)
Lemma node_child_next m p c : is_node m p → is_node m c → p `prefix_of` c → p ≠ c →
  ∃ x c', c !! length p = Some x ∧ top m (p ++ [x]) = Some c' ∧ c' `prefix_of` c ∧ (length p < length c')%nat.
Proof.
  intros Hp Hc Hpc Hne. destruct (prefix_next p c Hpc Hne) as (x & Hx & Hpx). pose proof Hc as ((k & Hk) & _)%top_Some.
  destruct (proj2 (top_is_Some m (p ++ [x]))) as [c' Hc']; [exists k; by eapply under_le|]. exists x, c'. split; [done|]. split; [done|].
  destruct (top_child_node _ _ _ _ Hc') as (_ & _ & Hl & _). split; [|done].
  destruct (prefix_comparable c' c k) as [|Hcc]; [by eapply top_prefix, under_le|apply Hk|done|].
  enough (c = c') as -> by done. pose proof (top_between m (p ++ [x]) c' c Hc' Hpx Hcc) as H. unfold is_node in Hc. congruence.
Qed.

Lemma node_under m q : is_node m q → ∃ k, under m q k.
Proof. intros Hq. apply top_is_Some. by exists q. Qed.

(** The top of a prefix of a node is a prefix of the node. *)
Lemma top_below_node m q p : is_node m p → q `prefix_of` p → ∃ t, top m q = Some t ∧ t `prefix_of` p.
Proof.
  intros Hp Hq. destruct (node_under m p Hp) as (k & Hk). destruct (proj2 (top_is_Some m q)) as [t Ht]; [exists k; by eapply under_le|]. exists t. split; [done|].
  destruct (prefix_comparable t p k) as [|Hpt]; [by eapply top_prefix, under_le|apply Hk|done|].
  pose proof (top_between m q t p Ht Hq Hpt) as H. unfold is_node in Hp. simplify_eq. done.
Qed.

(** ** The nodes after adding a key

    [closest m k p]: [p] is the last node on the way to [k], or the place where a new
    root is needed. *)
Definition above_root m k p : Prop := ∃ r, top m [] = Some r ∧ ¬ r `prefix_of` k ∧ p = lcp r k.
Definition closest m k p : Prop :=
  p `prefix_of` k ∧ (∀ q, is_node m q → q `prefix_of` k → q `prefix_of` p) ∧ (is_node m p ∨ above_root m k p).

Lemma above_root_no_node m k p q : above_root m k p → is_node m q → ¬ q `prefix_of` k.
Proof.
  intros (r & Hr & Hn & _) Hq Hk. apply Hn. etrans; [|exact Hk]. destruct (top_below_node m [] q Hq (prefix_nil _)) as (t & Ht & Hp). by simplify_eq.
Qed.

Lemma insert_node_stays m k v q : is_node m q → is_node (<[k := v]> m) q.
Proof. unfold is_node. intros Hq. rewrite top_insert. case_decide as Hp; [|done]. rewrite Hq. simpl. by rewrite lcp_of_prefix. Qed.

Lemma insert_node_new m k v q :
  is_node (<[k := v]> m) q → is_node m q ∨ q = k ∨ (q `prefix_of` k ∧ ∃ t, top m q = Some t ∧ ¬ t `prefix_of` k ∧ lcp t k = q).
Proof.
  unfold is_node. rewrite top_insert. case_decide as Hp; [|by left]. destruct (top m q) as [t|]; simpl; intros [= Hj]; [|by right; left].
  destruct (decide (t `prefix_of` k)) as [Ht|Ht]; [left; by rewrite lcp_of_prefix in Hj; [rewrite Hj|]|]. right. right. split; [done|]. by exists t.
Qed.

Lemma insert_children_other m k v p q y : closest m k p → is_node m q → q ≠ p → top (<[k := v]> m) (q ++ [y]) = top m (q ++ [y]).
Proof.
  intros (Hpk & Hmax & Hp) Hq Hne. rewrite top_insert. case_decide as Hqy; [|done]. pose proof (prefix_snoc_l _ _ _ Hqy) as Hqk.
  pose proof (Hmax q Hq Hqk) as Hqp. destruct Hp as [Hp|Hp]; [|by destruct (above_root_no_node m k p q Hp Hq)].
  destruct (node_child_next m q p Hq Hp Hqp Hne) as (x & c & Hx & Hc & Hcp & _). apply prefix_next_inv in Hqy as [_ Hy].
  assert (y = x) as -> by (pose proof (prefix_lookup_Some _ _ _ _ Hx Hpk); congruence). rewrite Hc. simpl. f_equal. apply lcp_of_prefix. by etrans.
Qed.

(** Nothing changes when the key has a node already. *)
Lemma insert_existing m k v q : is_node m k → top (<[k := v]> m) q = top m q.
Proof.
  intros Hk. rewrite top_insert. case_decide as Hq; [|done]. destruct (top_below_node m q k Hk Hq) as (t & -> & Ht). simpl. by rewrite lcp_of_prefix.
Qed.

Lemma closest_child m k p x c : closest m k p → (p ++ [x]) `prefix_of` k → top m (p ++ [x]) = Some c → ¬ c `prefix_of` k.
Proof.
  intros (_ & Hmax & _) Hx Hc Hck. destruct (top_child_node _ _ _ _ Hc) as (Hn & _ & Hl & _). pose proof (prefix_length _ _ (Hmax c Hn Hck)). lia.
Qed.

(** The new nodes are the key, the branch before the next child and a new root. *)
Lemma insert_nodes m k v p q :
  closest m k p → is_node (<[k := v]> m) q → is_node m q ∨ q = k ∨ q = p ∨ ∃ x c, (p ++ [x]) `prefix_of` k ∧ top m (p ++ [x]) = Some c ∧ q = lcp c k.
Proof.
  intros (Hpk & Hmax & Hp) [Hq|[Hq|(Hqk & t & Ht & Htk & Hl)]]%insert_node_new; [by left|by right; left|]. right. right.
  destruct (decide (q = p)) as [->|Hne]; [by left|]. right. destruct (prefix_comparable q p k Hqk Hpk) as [Hqp|Hpq].
  - exfalso. destruct Hp as [Hp|(r & Hr & Hrk & ->)].
    + destruct (top_below_node m q p Hp Hqp) as (t' & Ht' & Htp). simplify_eq. apply Htk. by etrans.
    + assert (q `prefix_of` r) as Hqr by (etrans; [done|apply lcp_l]). pose proof (top_between m [] r q Hr (prefix_nil _) Hqr). simplify_eq.
  - destruct (prefix_next p q Hpq ltac:(done)) as (x & _ & Hx). exists x. destruct (proj1 (top_is_Some m q)) as [k1 Hk1]; [by exists t|].
    destruct (proj2 (top_is_Some m (p ++ [x]))) as [c Hc]; [exists k1; by eapply under_le|]. exists c. split; [by etrans|]. split; [done|].
    destruct (prefix_comparable q c k1) as [Hqc|Hcq]; [apply Hk1|by eapply top_prefix, under_le| |].
    + pose proof (top_between m _ _ q Hc Hx Hqc). by simplify_eq.
    + destruct (closest_child m k p x c); [done|by etrans|done|by etrans].
Qed.

Lemma insert_new_root m k v p : closest m k p → is_node (<[k := v]> m) p.
Proof.
  intros (Hpk & _ & [Hp|(r & Hr & Hrk & ->)]); [by apply insert_node_stays|]. unfold is_node. rewrite top_insert, decide_True by apply lcp_r.
  rewrite (top_between m [] r); [done|done|apply prefix_nil|apply lcp_l].
Qed.

(** The branch between [p] and its child [c]. *)
Lemma branch_spec m k p x c :
  closest m k p → (p ++ [x]) `prefix_of` k → top m (p ++ [x]) = Some c →
  (p ++ [x]) `prefix_of` lcp c k ∧ lcp c k ≠ c ∧ top m (lcp c k) = Some c ∧ ¬ is_node m (lcp c k).
Proof.
  intros Hcl Hx Hc. pose proof (closest_child m k p x c Hcl Hx Hc) as Hck. assert ((p ++ [x]) `prefix_of` lcp c k) as Hb.
  { apply lcp_greatest; [by eapply top_above|done]. }
  assert (lcp c k ≠ c) as Hne by (intros He; apply Hck; rewrite <- He; apply lcp_r).
  pose proof (top_between m _ _ _ Hc Hb (lcp_l c k)) as Ht. split_and!; [done..|]. unfold is_node. rewrite Ht. congruence.
Qed.

Lemma branch_children m k v p x c y :
  closest m k p → (p ++ [x]) `prefix_of` k → top m (p ++ [x]) = Some c →
  let b := lcp c k in
  top (<[k := v]> m) (b ++ [y]) = if decide (c !! length b = Some y) then Some c else if decide (k !! length b = Some y) then Some k else None.
Proof.
  intros Hcl Hx Hc b. destruct (branch_spec m k p x c Hcl Hx Hc) as (Hb & Hne & Ht & _). fold b in Hb, Hne, Ht.
  destruct (top_down m b c Ht Hne) as (z & Hz & Hcz & Hoff). rewrite top_insert, Hz. destruct (decide (Some z = Some y)) as [[= <-]|Hzy].
  - rewrite Hcz. case_decide as Hby; [|done]. destruct (not_prefix_snoc b z). apply lcp_greatest; [by eapply top_above|done].
  - rewrite (Hoff y) by congruence. case_decide as Hby; simpl.
    + rewrite decide_True; [done|]. by apply prefix_next_inv in Hby as [_ Hby].
    + rewrite decide_False; [done|]. intros Hky. apply Hby. apply prefix_next_iff. split; [apply lcp_r|done].
Qed.

(** A key that gets a leaf has no children. *)
Lemma leaf_children m k v p x y :
  closest m k p → (p ++ [x]) `prefix_of` k → (∀ c, top m (p ++ [x]) = Some c → lcp c k ≠ k) → top (<[k := v]> m) (k ++ [y]) = None.
Proof.
  intros Hcl Hx Hb. rewrite top_insert, decide_False by apply not_prefix_snoc. apply top_None. intros k' Hk'.
  assert (under m (p ++ [x]) k') as Hu by (eapply under_le; [|exact Hk']; etrans; [exact Hx|by eexists]).
  destruct (proj2 (top_is_Some m (p ++ [x]))) as [c Hc]; [by exists k'|]. destruct Hk' as [_ Hk'%prefix_snoc_l].
  destruct (prefix_comparable c k k') as [Hck|Hkc]; [by eapply top_prefix|done| |].
  - by destruct (closest_child m k p x c).
  - apply (Hb c Hc). rewrite lcp_comm. by apply lcp_of_prefix.
Qed.

(** ** The nodes after removing a key *)

Lemma top_only_key m p k : (∃ k', under m p k') → (∀ k', under m p k' → k' = k) → top m p = Some k.
Proof.
  intros (k' & Hk') Hall. pose proof (Hall k' Hk') as ->. apply top_Some. split; [by exists k|]. split; [intros k' H'; by rewrite (Hall k' H')|]. intros q' Hq'. by apply Hq'.
Qed.

Lemma delete_node_stays m k t :
  is_node m t → t ≠ k → (∀ x, top m (t ++ [x]) = Some k → is_Some (top (delete k m) (t ++ [x]))) → is_node (delete k m) t.
Proof.
  intros Ht Hne Hk. assert (∀ x, is_Some (top m (t ++ [x])) → is_Some (top (delete k m) (t ++ [x]))) as Hstay.
  { intros x Hx. destruct (top (delete k m) (t ++ [x])) eqn:E; [done|]. rewrite <- E. apply Hk. apply top_only_key; [by apply top_is_Some|].
    intros k' Hk'. destruct (decide (k' = k)) as [|Hkk]; [done|]. exfalso. apply (proj1 (top_None _ _) E k'), under_delete. done. }
  destruct (node_cases m t Ht) as [Hv|(x & y & Hxy & Hx & Hy)].
  - apply key_is_node. by rewrite lookup_delete_ne.
  - apply (branch_is_node _ _ x y Hxy); auto.
Qed.

(** The only node whose child is the node [k]. *)
Definition parent_node m p k : Prop := is_node m p ∧ p `prefix_of` k ∧ p ≠ k ∧ ∀ q, is_node m q → q `prefix_of` k → q ≠ k → q `prefix_of` p.

Lemma parent_child m p k : parent_node m p k → is_node m k → ∃ x, k !! length p = Some x ∧ top m (p ++ [x]) = Some k.
Proof.
  intros (Hp & Hpk & Hne & Hmax) Hk. destruct (node_child_next m p k Hp Hk Hpk Hne) as (x & c & Hx & Hc & Hck & Hl). exists x. split; [done|].
  destruct (decide (c = k)) as [->|Hckne]; [done|]. destruct (top_child_node _ _ _ _ Hc) as (Hcn & _). pose proof (prefix_length _ _ (Hmax c Hcn Hck Hckne)). lia.
Qed.

Lemma child_parent m p k q y : parent_node m p k → is_node m q → top m (q ++ [y]) = Some k → q = p.
Proof.
  intros (Hp & Hpk & Hne & Hmax) Hq Hy. destruct (top_child_node _ _ _ _ Hy) as (Hk & Hqk & Hl & Hx). assert (q ≠ k) as Hqne by (intros ->; lia).
  destruct (decide (q = p)) as [|Hqp]; [done|]. destruct (node_child_next m q p Hq Hp (Hmax q Hq Hqk Hqne) Hqp) as (z & c & Hz & Hc & Hcp & _).
  assert (z = y) as -> by (pose proof (prefix_lookup_Some _ _ _ _ Hz Hpk); congruence). simplify_eq. pose proof (prefix_antisym _ _ Hpk Hcp). congruence.
Qed.

Lemma parent_of_child m q x c : is_node m q → top m (q ++ [x]) = Some c → parent_node m q c.
Proof.
  intros Hq Hc. destruct (top_child_node _ _ _ _ Hc) as (_ & Hqc & Hl & Hx). split_and!; [done|done|intros ->; lia|].
  intros p Hp Hpc Hne. destruct (prefix_comparable p q c Hpc Hqc) as [|Hqp]; [done|]. destruct (decide (q = p)) as [->|Hqne]; [done|].
  destruct (prefix_next q p Hqp Hqne) as (y & Hy & Hqy). assert (y = x) as -> by (pose proof (prefix_lookup_Some _ _ _ _ Hy Hpc); congruence).
  pose proof (top_between m _ _ p Hc Hqy Hpc) as H. unfold is_node in Hp. congruence.
Qed.

Lemma closest_last m k q : is_node m q → q `prefix_of` k → (∀ x c, (q ++ [x]) `prefix_of` k → top m (q ++ [x]) = Some c → ¬ c `prefix_of` k) → closest m k q.
Proof.
  intros Hq Hqk Hno. split; [done|]. split; [|by left]. intros p Hp Hpk. destruct (prefix_comparable p q k Hpk Hqk) as [|Hqp]; [done|].
  destruct (decide (q = p)) as [->|Hne]; [done|]. destruct (node_child_next m q p Hq Hp Hqp Hne) as (x & c & Hx & Hc & Hcp & _).
  destruct (Hno x c); [|done|by etrans]. apply prefix_next_iff. split; [done|by eapply prefix_lookup_Some].
Qed.

Lemma root_prefix m r q : top m [] = Some r → is_node m q → r `prefix_of` q.
Proof. intros Hr Hq. destruct (top_below_node m [] q Hq (prefix_nil _)) as (t & Ht & Hp). by simplify_eq. Qed.

(** A path of nodes, each the child of the one before. *)
Fixpoint chain {L} m q (ps : list (list Z * L)) : Prop :=
  match ps with [] => True | (p, _) :: ps => parent_node m q p ∧ is_node m p ∧ chain m p ps end.
Fixpoint chain_end {L} q (ps : list (list Z * L)) : list Z :=
  match ps with [] => q | (p, _) :: ps => chain_end p ps end.
End tree.
