(* ===== verification/MerkleView.v ===== *)
(** * Views of the Merkle trie (src/x/merkledb/node.go, hashing.go, trie.go, view.go)

    A view applies changes of values to the trie below it: it copies the nodes on the
    way to each key, changes them in place, and computes the identifiers of what it
    changed.  Nodes are shared between the map of changes, the root and local
    variables, so they live in a heap ([v_heap]); the entries of children are not
    shared.  A computation takes the view and returns a result or an error with the
    view it leaves, or [None] when the code would dereference nil or index out of
    range (and when the fuel of a loop is not enough).

    Locks, traces, metrics and contexts are left out: a method is one step. *)
From S2P Require Import Prelude Ids Bytes MerkleKey MerkleCodec.

(** ** Nodes *)

Record node : Type := mkNode { n_db : dbNode; n_key : Key; n_valueDigest : option bytes }.

Definition nd_value (n : node) : option bytes := n_value (n_db n).
Definition nd_children (n : node) : gmap Z child := n_children (n_db n).

Definition HashLength : Z := 32.

(** [newNode] *)
Definition newNode (key : Key) : node := mkNode (mkDbNode None ∅) key None.

Definition hasValue (n : node) : bool := bool_decide (is_Some (nd_value n)).

Inductive merkle_error :=
  | ErrNotFound | ErrClosed | ErrInvalid | ErrCommitted | ErrVisitPathToKey | ErrNodesAlreadyCalculated | ErrEmptyProof
  | ErrPartialByteLengthWithValue | ErrProofNodeNotForKey | ErrNonIncreasingProofNodes | ErrProofValueDoesntMatch | ErrInvalidProof
  | CodecErr (e : merkle_codec_error) | BaseErr.

(** What a view needs of the trie below it ([trieInternals]); a node that is returned
    is a copy. *)
Record Trie : Type := mkTrie {
  t_getValue : Key → result bytes merkle_error;
  t_getEditableNode : Key → bool → result node merkle_error;
  t_getRoot : option node;
}.

(** ** The view *)

Definition loc := nat.

Record node_change : Type := mkNodeChange { nc_before : option node; nc_after : option loc }.
Record value_change : Type := mkValueChange { vc_before : option bytes; vc_after : option bytes }.

Record view : Type := mkView {
  v_heap : gmap loc node;
  v_next : loc;
  v_root : option loc;
  v_nodes : gmap Key node_change;
  v_values : gmap Key value_change;
  v_rootID : ID;
  v_rootChange : option node * option loc;
  v_applied : bool;
  v_once : bool;
  v_invalidated : bool;
}.

Definition set_heap h n v := mkView h n (v_root v) (v_nodes v) (v_values v) (v_rootID v) (v_rootChange v) (v_applied v) (v_once v) (v_invalidated v).
Definition set_root r v := mkView (v_heap v) (v_next v) r (v_nodes v) (v_values v) (v_rootID v) (v_rootChange v) (v_applied v) (v_once v) (v_invalidated v).
Definition set_nodes ns v := mkView (v_heap v) (v_next v) (v_root v) ns (v_values v) (v_rootID v) (v_rootChange v) (v_applied v) (v_once v) (v_invalidated v).
Definition set_values vs v := mkView (v_heap v) (v_next v) (v_root v) (v_nodes v) vs (v_rootID v) (v_rootChange v) (v_applied v) (v_once v) (v_invalidated v).
Definition set_rootID id v := mkView (v_heap v) (v_next v) (v_root v) (v_nodes v) (v_values v) id (v_rootChange v) (v_applied v) (v_once v) (v_invalidated v).
Definition set_rootChange rc v := mkView (v_heap v) (v_next v) (v_root v) (v_nodes v) (v_values v) (v_rootID v) rc (v_applied v) (v_once v) (v_invalidated v).
Definition set_applied v := mkView (v_heap v) (v_next v) (v_root v) (v_nodes v) (v_values v) (v_rootID v) (v_rootChange v) true (v_once v) (v_invalidated v).
Definition set_once v := mkView (v_heap v) (v_next v) (v_root v) (v_nodes v) (v_values v) (v_rootID v) (v_rootChange v) (v_applied v) true (v_invalidated v).

(** ** Computations *)

Definition VM (A : Type) : Type := view → option (result A merkle_error * view).

#[global] Instance VM_ret : MRet VM := λ A a v, Some (Ok a, v).
#[global] Instance VM_bind : MBind VM := λ A B k m v,
  match m v with
  | None => None
  | Some (Err e, v) => Some (Err e, v)
  | Some (Ok a, v) => k a v
  end.

Definition vfail {A} (e : merkle_error) : VM A := λ v, Some (Err e, v).
Definition vpanic {A} : VM A := λ _, None.
Definition vget {A} (f : view → A) : VM A := λ v, Some (Ok (f v), v).
Definition vmodify (f : view → view) : VM unit := λ v, Some (Ok tt, f v).
Definition vlift {A} (o : option A) : VM A := λ v, match o with Some a => Some (Ok a, v) | None => None end.
Definition vresult {A} (r : result A merkle_error) : VM A := λ v, Some (r, v).

(** [errors.Is(err, database.ErrNotFound)] *)
Definition if_found {A} (m : VM A) : VM (option A) := λ v,
  match m v with
  | Some (Ok a, v) => Some (Ok (Some a), v)
  | Some (Err ErrNotFound, v) => Some (Ok None, v)
  | Some (Err e, v) => Some (Err e, v)
  | None => None
  end.
(** [defer] *)
Definition deferred {A} (f : view → view) (m : VM A) : VM A := λ v, match m v with Some (r, v) => Some (r, f v) | None => None end.

Definition deref (l : loc) : VM node := v ← vget id; vlift (v_heap v !! l).
Definition store (l : loc) (n : node) : VM unit := vmodify (λ v, set_heap (<[l := n]> (v_heap v)) (v_next v) v).
Definition alloc (n : node) : VM loc := v ← vget id; _ ← vmodify (λ v, set_heap (<[v_next v := n]> (v_heap v)) (S (v_next v)) v); mret (v_next v).
(** A pointer that must not be nil. *)
Definition nonnil (l : option loc) : VM loc := vlift l.

Section View.
Context (tokenSize : Z) (sha256 : bytes → ID) (parent : Trie).
Context {RZ : MapRange Z} {RK : MapRange Key}.
(** Whether a key buffer of the pool is free when the children of a node are hashed,
    and what it holds. *)
Context (try_acquire : Key → option bytes).

(** ** Hashing *)

(** The bytes that [HashNode] writes to the hash. *)
Definition node_preimage (n : node) : bytes :=
  AppendUvarint (Z.of_nat (size (nd_children n))) ++
  (sorted_indices (nd_children n) ≫= λ index,
     match nd_children n !! index with Some entry => AppendUvarint index ++ id_bytes (ch_id entry) | None => [] end) ++
  match n_valueDigest n with Some value => [trueByte] ++ AppendUvarint (Z.of_nat (length value)) ++ value | None => [falseByte] end ++
  AppendUvarint (k_length (n_key n)) ++ Key_Bytes (n_key n).

Definition HashNode (n : node) : ID := sha256 (node_preimage n).
Definition HashValue (value : bytes) : ID := sha256 value.

(** [setValueDigest] and [setValue] *)
Definition valueDigest (value : option bytes) : option bytes :=
  match value with
  | Some v => if Z.of_nat (length v) <? HashLength then Some v else Some (id_bytes (HashValue v))
  | None => None
  end.
Definition setValue (n : node) (val : option bytes) : node := mkNode (mkDbNode val (nd_children n)) (n_key n) (valueDigest val).

Definition setChildEntry (n : node) (index : Z) (e : child) : node :=
  mkNode (mkDbNode (nd_value n) (<[index := e]> (nd_children n))) (n_key n) (n_valueDigest n).

Definition addChildWithID (n childNode : node) (childID : ID) : option node :=
  index ← Token (n_key childNode) (k_length (n_key n)) tokenSize;
  compressedKey ← Skip (n_key childNode) (k_length (n_key n) + tokenSize);
  Some (setChildEntry n index (mkChild compressedKey childID (hasValue childNode))).
Definition addChild (n childNode : node) : option node := addChildWithID n childNode Empty.

Definition removeChild (n childNode : node) : option node :=
  index ← Token (n_key childNode) (k_length (n_key n)) tokenSize;
  Some (mkNode (mkDbNode (nd_value n) (delete index (nd_children n))) (n_key n) (n_valueDigest n)).

(** The result of [f] is written back. *)
Definition update (l : loc) (f : node → option node) : VM unit := n ← deref l; n ← vlift (f n); store l n.

(** ** Reading *)

(** A node that is not among the changes is copied from the parent. *)
Definition getNode (key : Key) (hasVal : bool) : VM loc :=
  nodes ← vget v_nodes;
  match nodes !! key with
  | Some ch => match nc_after ch with Some l => mret l | None => vfail ErrNotFound end
  | None => n ← vresult (t_getEditableNode parent key hasVal); alloc n
  end.

(** The loop of [visitPathToKey]; [acc] stands for the variables that [visitNode]
    assigns. *)
Fixpoint visit_loop {A} (fuel : nat) (key : Key) (visitNode : A → loc → VM A) (currentNode : loc) (acc : A) : VM A :=
  match fuel with
  | O => vpanic
  | S fuel =>
      cur ← deref currentNode;
      if k_length (n_key cur) <? k_length key then
        index ← vlift (Token key (k_length (n_key cur)) tokenSize);
        match nd_children cur !! index with
        | None => mret acc
        | Some nextChildEntry =>
            on_path ← vlift (iteratedHasPrefix key (ch_compressedKey nextChildEntry) (k_length (n_key cur) + tokenSize) tokenSize);
            if negb on_path then mret acc else
            nextKey ← vlift (Take key (k_length (n_key cur) + tokenSize + k_length (ch_compressedKey nextChildEntry)));
            next ← getNode nextKey (ch_hasValue nextChildEntry);
            acc ← visitNode acc next;
            visit_loop fuel key visitNode next acc
        end
      else mret acc
  end.

(** Each step makes the key of the node longer. *)
Definition visitPathToKey {A} (key : Key) (visitNode : A → loc → VM A) (acc : A) : VM A :=
  maybeRoot ← vget v_root;
  match maybeRoot with
  | None => mret acc
  | Some root =>
      r ← deref root;
      p ← vlift (HasPrefix key (n_key r));
      if negb p then mret acc else
      acc ← visitNode acc root;
      visit_loop (S (Z.to_nat (k_length key))) key visitNode root acc
  end.

(** ** Recording changes *)

Definition recordKeyChange (key : Key) (after : option loc) (hadValue newNode : bool) : VM unit :=
  v ← vget id;
  if v_applied v then vfail ErrNodesAlreadyCalculated else
  match v_nodes v !! key with
  | Some existing => vmodify (set_nodes (<[key := mkNodeChange (nc_before existing) after]> (v_nodes v)))
  | None =>
      if newNode then vmodify (set_nodes (<[key := mkNodeChange None after]> (v_nodes v))) else
      before ← vresult (t_getEditableNode parent key hadValue);
      vmodify (set_nodes (<[key := mkNodeChange (Some before) after]> (v_nodes v)))
  end.

Definition recordNewNode (after : loc) : VM unit := n ← deref after; recordKeyChange (n_key n) (Some after) (hasValue n) true.
Definition recordNodeChange (after : loc) : VM unit := n ← deref after; recordKeyChange (n_key n) (Some after) (hasValue n) false.
Definition recordNodeDeleted (after : loc) (hadValue : bool) : VM unit := n ← deref after; recordKeyChange (n_key n) None hadValue false.

Definition recordValueChange (key : Key) (value : option bytes) : VM unit :=
  v ← vget id;
  if v_applied v then vfail ErrNodesAlreadyCalculated else
  match v_values v !! key with
  | Some existing => vmodify (set_values (<[key := mkValueChange (vc_before existing) value]> (v_values v)))
  | None =>
      beforeMaybe ← match t_getValue parent key with
                    | Ok before => mret (Some before)
                    | Err ErrNotFound => mret None
                    | Err e => vfail e
                    end;
      vmodify (set_values (<[key := mkValueChange beforeMaybe value]> (v_values v)))
  end.

(** ** Changing the trie *)

(** The only entry of a map of one child. *)
Definition only_child (n : node) : option (Z * child) := head (map_range (nd_children n)).

Definition compressNodePath (parentNode : option loc) (n : loc) : VM unit :=
  applied ← vget v_applied;
  if (applied : bool) then vfail ErrNodesAlreadyCalculated else
  nd ← deref n;
  if negb (Nat.eqb (size (nd_children nd)) 1) || hasValue nd then mret tt else
  _ ← recordNodeDeleted n false;
  only ← vlift (only_child nd);
  let '(index, childEntry) := only : Z * child in
  childKey ← vlift (Extend (n_key nd) [ToToken index tokenSize; ch_compressedKey childEntry]);
  match parentNode with
  | None => root ← getNode childKey (ch_hasValue childEntry); vmodify (set_root (Some root))
  | Some p =>
      pn ← deref p;
      token ← vlift (Token childKey (k_length (n_key pn)) tokenSize);
      compressedKey ← vlift (Skip childKey (k_length (n_key pn) + tokenSize));
      _ ← store p (setChildEntry pn token (mkChild compressedKey (ch_id childEntry) (ch_hasValue childEntry)));
      recordNodeChange p
  end.

(** The variables [grandParent], [parent] and [nodeToDelete]. *)
Definition path_vars : Type := option loc * option loc * option loc.
Definition visit_remove (vars : path_vars) (n : loc) : VM path_vars :=
  let '(grandParent, par, nodeToDelete) := vars in
  _ ← recordNodeChange n; mret (par, nodeToDelete, Some n).

(** [remove] returns early when the node does not exist or has no value. *)
Definition remove (key : Key) : VM unit :=
  applied ← vget v_applied;
  if (applied : bool) then vfail ErrNodesAlreadyCalculated else
  keyNode ← if_found (getNode key true);
  match keyNode with
  | None => mret tt
  | Some keyNode =>
      kn ← deref keyNode;
      if negb (hasValue kn) then mret tt else
      vars ← visitPathToKey key visit_remove (None, None, None);
      let '(grandParent, par, toDelete) := vars : path_vars in
      nodeToDelete ← nonnil toDelete;
      nd ← deref nodeToDelete;
      let hadValue := hasValue nd in
      _ ← store nodeToDelete (setValue nd None);
      if decide (nd_children nd = ∅) then
        _ ← recordNodeDeleted nodeToDelete hadValue;
        rootl ← vget v_root;
        root ← nonnil rootl;
        r ← deref root;
        if decide (n_key nd = n_key r) then vmodify (set_root None) else
        p ← nonnil par;
        nd ← deref nodeToDelete;
        _ ← update p (λ pn, removeChild pn nd);
        compressNodePath grandParent p
      else compressNodePath par nodeToDelete
  end.

(** [getLengthOfCommonPrefix]; the index grows by a token. *)
Fixpoint common_loop (fuel : nat) (first second : Key) (secondOffset commonIndex : Z) : option Z :=
  match fuel with
  | O => None
  | S fuel =>
      if (commonIndex <? k_length first) && (commonIndex + secondOffset <? k_length second) then
        a ← Token first commonIndex tokenSize;
        b ← Token second (commonIndex + secondOffset) tokenSize;
        if a =? b then common_loop fuel first second secondOffset (commonIndex + tokenSize) else Some commonIndex
      else Some commonIndex
  end.
Definition getLengthOfCommonPrefix (first second : Key) (secondOffset : Z) : option Z :=
  common_loop (S (Z.to_nat (k_length first))) first second secondOffset 0.

Definition visit_insert (closestNode : option loc) (n : loc) : VM (option loc) := _ ← recordNodeChange n; mret (Some n).

(** A new root above the old one, which is not a prefix of the key. *)
Definition insert_root (key : Key) : VM loc :=
  rootl ← vget v_root;
  oldRootl ← nonnil rootl;
  oldRoot ← deref oldRootl;
  commonPrefixLength ← vlift (getLengthOfCommonPrefix (n_key oldRoot) key 0);
  commonPrefix ← vlift (Take (n_key oldRoot) commonPrefixLength);
  newRoot ← vlift (addChildWithID (newNode commonPrefix) oldRoot (HashNode oldRoot));
  l ← alloc newRoot;
  _ ← recordNewNode l;
  _ ← vmodify (set_root (Some l));
  mret l.

(** A branch between the closest node and its child. *)
Definition insert_branch (key : Key) (value : option bytes) (closestNode : loc) (existingChildEntry : child) : VM loc :=
  cn ← deref closestNode;
  let len := k_length (n_key cn) in
  commonPrefixLength ← vlift (getLengthOfCommonPrefix (ch_compressedKey existingChildEntry) key (len + tokenSize));
  if k_length (ch_compressedKey existingChildEntry) <=? commonPrefixLength then vfail ErrVisitPathToKey else
  branchKey ← vlift (Take key (len + tokenSize + commonPrefixLength));
  let branchNode := newNode branchKey in
  _ ← update closestNode (λ cn, addChild cn branchNode);
  branches ←
    (if k_length key =? k_length branchKey then
       branch ← alloc (setValue branchNode value); mret (branch, branch)
     else
       let n := setValue (newNode key) value in
       bn ← vlift (addChild branchNode n);
       branch ← alloc bn;
       l ← alloc n;
       _ ← recordNewNode l;
       mret (branch, l));
  let '(branch, nodeWithValue) := branches : loc * loc in
  token ← vlift (Token (ch_compressedKey existingChildEntry) commonPrefixLength tokenSize);
  compressedKey ← vlift (Skip (ch_compressedKey existingChildEntry) (commonPrefixLength + tokenSize));
  _ ← update branch (λ bn, Some (setChildEntry bn token (mkChild compressedKey (ch_id existingChildEntry) (ch_hasValue existingChildEntry))));
  _ ← recordNewNode branch;
  mret nodeWithValue.

(** What [insert] does from the closest node on. *)
Definition insert_at (key : Key) (value : option bytes) (closestNode : loc) : VM loc :=
  cn ← deref closestNode;
  if decide (n_key cn = key) then _ ← store closestNode (setValue cn value); mret closestNode else
  index ← vlift (Token key (k_length (n_key cn)) tokenSize);
  match nd_children cn !! index with
  | None =>
      let n := setValue (newNode key) value in
      _ ← update closestNode (λ cn, addChild cn n);
      l ← alloc n;
      _ ← recordNewNode l;
      mret l
  | Some existingChildEntry => insert_branch key value closestNode existingChildEntry
  end.

Definition insert (key : Key) (value : option bytes) : VM loc :=
  v ← vget id;
  if v_applied v then vfail ErrNodesAlreadyCalculated else
  match v_root v with
  | None =>
      l ← alloc (setValue (newNode key) value);
      _ ← vmodify (set_root (Some l));
      _ ← recordNewNode l;
      mret l
  | Some _ =>
      closest ← visitPathToKey key visit_insert None;
      closestNode ← match closest with Some l => mret l | None => insert_root key end;
      insert_at key value closestNode
  end.

(** The loop of [calculateNodeChanges] over the changed values. *)
Fixpoint apply_changes (changes : list (Key * value_change)) : VM unit :=
  match changes with
  | [] => mret tt
  | (key, change) :: changes =>
      _ ← match vc_after change with
          | None => remove key
          | Some _ => _ ← insert key (vc_after change); mret tt
          end;
      apply_changes changes
  end.
Definition calculateNodeChanges : VM unit := values ← vget v_values; apply_changes (map_range values).

(** ** Identifiers of the changed nodes

    [hashChangedNode] builds the keys of the children in one buffer.  A buffer is here
    the array behind the slice; slicing it again takes a part of the array.  Children
    for which a second buffer is free are hashed by another goroutine; they do not
    share nodes with their siblings, and the node itself is hashed after all of them,
    so that they run in turn here. *)

Definition setBytesLength (b : bytes) (size : Z) : bytes := if size <=? Z.of_nat (length b) then b else b ++ make_bytes (size - Z.of_nat (length b)).

Definition setLengthForChildren (n : node) (keyBuffer : bytes) : bytes :=
  let maxBitLength := foldl (λ acc e, acc `max` k_length (ch_compressedKey e.2)) 0 (map_range (nd_children n)) in
  setBytesLength keyBuffer (bytesNeeded (k_length (n_key n) + tokenSize + maxBitLength)).

Definition setKeyBuffer (n : node) (keyBuffer : bytes) : bytes := copy_into (setLengthForChildren n keyBuffer) (k_value (n_key n)).

(** [b[i] = x] *)
Definition set_byte (b : bytes) (i : nat) (x : Z) : option bytes := if decide (i < length b)%nat then Some (<[i := x]> b) else None.

(** The key of a child, written into the buffer behind the key of the node. *)
Definition child_key (n : node) (lastKeyByte : Z) (keyBuffer : bytes) (childIndex : Z) (childEntry : child) : option (Key * bytes) :=
  let bytesForKey := bytesNeeded (k_length (n_key n)) in
  let totalBitLength := k_length (n_key n) + tokenSize + k_length (ch_compressedKey childEntry) in
  let len := Z.to_nat (bytesNeeded totalBitLength) in
  if decide (length keyBuffer < len)%nat then None else
  let buf := take len keyBuffer in
  buf ← (if 0 <? bytesForKey then set_byte buf (Z.to_nat (bytesForKey - 1)) lastKeyByte else Some buf);
  buf ← extendIntoBuffer buf (mkKey tokenSize [shl8 childIndex (dualBitIndex tokenSize)]) (k_length (n_key n));
  buf ← extendIntoBuffer buf (ch_compressedKey childEntry) (k_length (n_key n) + tokenSize);
  Some (mkKey totalBitLength buf, buf ++ drop len keyBuffer).

(** The loop over the children; [hash] computes the identifier of a child. *)
Fixpoint hash_children (hash : loc → bytes → VM (ID * bytes)) (l : loc) (n : node) (lastKeyByte : Z) (children : list (Z * child)) (keyBuffer : bytes) : VM bytes :=
  match children with
  | [] => mret keyBuffer
  | (childIndex, childEntry) :: children =>
      ck ← vlift (child_key n lastKeyByte keyBuffer childIndex childEntry);
      let '(childKey, keyBuffer) := ck : Key * bytes in
      nodes ← vget v_nodes;
      match nodes !! childKey with
      | None => hash_children hash l n lastKeyByte children keyBuffer
      | Some childNodeChange =>
          childNode ← nonnil (nc_after childNodeChange);
          cn ← deref childNode;
          res ←
            (if decide (nd_children cn = ∅) then mret (HashNode cn, keyBuffer) else
             match try_acquire childKey with
             | Some childKeyBuffer => res ← hash childNode (setKeyBuffer cn childKeyBuffer); mret (res.1, keyBuffer)
             | None => hash childNode (setLengthForChildren cn keyBuffer)
             end);
          let '(id, keyBuffer) := res : ID * bytes in
          _ ← update l (λ n, Some (setChildEntry n childIndex (mkChild (ch_compressedKey childEntry) id (hasValue cn))));
          hash_children hash l n lastKeyByte children keyBuffer
      end
  end.

Fixpoint hashChangedNode (fuel : nat) (l : loc) (keyBuffer : bytes) : VM (ID * bytes) :=
  match fuel with
  | O => vpanic
  | S fuel =>
      n ← deref l;
      let bytesForKey := bytesNeeded (k_length (n_key n)) in
      lastKeyByte ← (if 0 <? bytesForKey then vlift (keyBuffer !! Z.to_nat (bytesForKey - 1)) else mret 0);
      keyBuffer ← hash_children (hashChangedNode fuel) l n lastKeyByte (map_range (nd_children n)) keyBuffer;
      n ← deref l;
      mret (HashNode n, keyBuffer)
  end.

(** The depth of the recursion is at most the number of bits of the longest key. *)
Definition hash_fuel (v : view) : nat := S (foldr Nat.max 0%nat (map (λ e, Z.to_nat (k_length e.1)) (map_to_list (v_nodes v)))).

(** [hashChangedNodes]; [buffer] is what the pool returns. *)
Definition hashChangedNodes (buffer : bytes) : VM unit :=
  root ← vget v_root;
  match root with
  | None => vmodify (set_rootID Empty)
  | Some l =>
      root ← deref l;
      if decide (nd_children root = ∅) then vmodify (set_rootID (HashNode root)) else
      fuel ← vget hash_fuel;
      res ← hashChangedNode fuel l (setKeyBuffer root buffer);
      vmodify (set_rootID res.1)
  end.

Definition isInvalid : VM bool := vget v_invalidated.

(** [maybe.Bind(v.root, ( *node).clone)] *)
Definition clone_root : VM (option node) := root ← vget v_root; match root with Some l => n ← deref l; mret (Some n) | None => mret None end.

(** [applyValueChanges] runs once; later calls return nil. *)
Definition applyValueChanges (buffer : bytes) : VM unit :=
  once ← vget v_once;
  if (once : bool) then mret tt else
  _ ← vmodify set_once;
  invalid ← isInvalid;
  if (invalid : bool) then vfail ErrInvalid else
  deferred set_applied
    (oldRoot ← clone_root;
     _ ← calculateNodeChanges;
     _ ← hashChangedNodes buffer;
     root ← vget v_root;
     _ ← vmodify (set_rootChange (oldRoot, root));
     invalid ← isInvalid;
     if (invalid : bool) then vfail ErrInvalid else mret tt).

Definition GetMerkleRoot (buffer : bytes) : VM ID := _ ← applyValueChanges buffer; vget v_rootID.

(** ** Values *)

Definition getValue (key : Key) : VM bytes :=
  invalid ← isInvalid;
  if (invalid : bool) then vfail ErrInvalid else
  values ← vget v_values;
  match values !! key with
  | Some change => match vc_after change with Some v => mret v | None => vfail ErrNotFound end
  | None => value ← vresult (t_getValue parent key); invalid ← isInvalid; if (invalid : bool) then vfail ErrInvalid else mret value
  end.
Definition GetValue (key : bytes) : VM bytes := getValue (ToKey key).

Definition getEditableNode (key : Key) (hadValue : bool) : VM node :=
  invalid ← isInvalid;
  if (invalid : bool) then vfail ErrInvalid else
  l ← getNode key hadValue;
  invalid ← isInvalid;
  if (invalid : bool) then vfail ErrInvalid else deref l.

(** ** New views *)

(** A batch operation or an entry of the map of changes: a key and its new value. *)
Record ViewChanges : Type := mkViewChanges { BatchOps : list (bytes * option bytes); MapOps : list (bytes * option bytes) }.

Fixpoint record_changes (ops : list (bytes * option bytes)) : VM unit :=
  match ops with
  | [] => mret tt
  | (key, val) :: ops => _ ← recordValueChange (toKey key) val; record_changes ops
  end.

Definition newView (changes : ViewChanges) : option (result view merkle_error) :=
  let '(heap, root) := match t_getRoot parent with Some r => ({[ O := r ]}, Some O) | None => (∅, None) end in
  let v := mkView heap 1%nat root ∅ ∅ Empty (None, None) false false false in
  match (_ ← record_changes (BatchOps changes); record_changes (MapOps changes)) v with
  | None => None
  | Some (Err e, _) => Some (Err e)
  | Some (Ok _, v) => Some (Ok v)
  end.
End View.
