(* ===== verification/MerkleSpec.v ===== *)
(** * What the Merkle trie of a map is

    The nodes of the trie that holds a map, and their identifiers, as functions of the
    map ([cnode], [tid], [merkle_root]); what it means that a trie holds a map
    ([represents]).  The operations on keys are restated here on the tokens of the
    keys. *)
From S2P Require Import Prelude Ids Bytes MerkleKey MerkleCodec MerkleTree MerkleView.

Existing Class token_size.

Section keys.
Context (ts : nat) {Hts : token_size ts}.
Abbreviation tokenSize := (Z.of_nat ts).

(** ** Keys of tokens *)

Definition vtoks (t : list Z) : Prop := Forall (λ x, 0 ≤ x < 2 ^ tokenSize) t.
Definition token_key (t : list Z) : Key := default emptyKey (Extend emptyKey (map (λ x, ToToken x tokenSize) t)).

Lemma token_key_tokens t : vtoks t → key_tokens ts (token_key t) t.
Proof.
  intros Ht. destruct (key_tokens_extend ts emptyKey [] (map (λ x, ToToken x tokenSize) t) (map (λ x, [x]) t)) as (k & Hk & Hkt); [apply key_tokens_empty| |].
  - induction Ht as [|x t Hx _ IH]; constructor; [by apply key_tokens_ToToken|done].
  - unfold token_key. rewrite Hk. simpl. assert (concat (map (λ x, [x]) t) = t) as Hc by (clear; induction t as [|x t IH]; simpl; congruence). rewrite Hc in Hkt. done.
Qed.

Lemma key_tokens_vtoks k t : key_tokens ts k t → vtoks t.
Proof. intros Hk. apply Forall_forall. intros x Hx. by eapply key_tokens_range. Qed.

Lemma key_tokens_eq k t : key_tokens ts k t → k = token_key t.
Proof. intros Hk. apply (key_tokens_inj ts k _ t Hk). apply token_key_tokens. by eapply key_tokens_vtoks. Qed.

Lemma token_key_inj t t' : vtoks t → vtoks t' → token_key t = token_key t' → t = t'.
Proof. intros H H' Heq. apply (key_tokens_fun ts Hts (token_key t)); [by apply token_key_tokens|]. rewrite Heq. by apply token_key_tokens. Qed.

Lemma vtoks_app t t' : vtoks (t ++ t') ↔ vtoks t ∧ vtoks t'.
Proof. apply Forall_app. Qed.
Lemma vtoks_take n t : vtoks t → vtoks (take n t).
Proof. apply Forall_take. Qed.
Lemma vtoks_drop n t : vtoks t → vtoks (drop n t).
Proof. apply Forall_drop. Qed.
Lemma vtoks_prefix t t' : t `prefix_of` t' → vtoks t' → vtoks t.
Proof. intros [l ->]. by intros [H _]%vtoks_app. Qed.

Lemma token_key_length t : vtoks t → k_length (token_key t) = tokenSize * Z.of_nat (length t).
Proof. intros Ht. by apply key_tokens_length, token_key_tokens. Qed.

Lemma ts_pos : (0 < ts)%nat.
Proof. destruct Hts as [->|[->|[->| ->]]]; lia. Qed.

Lemma token_key_Token t i : vtoks t → (i < length t)%nat → Token (token_key t) (tokenSize * Z.of_nat i) tokenSize = t !! i.
Proof. intros Ht Hi. by apply Token_tokens; [|apply token_key_tokens|]. Qed.

Lemma token_key_Take t n : vtoks t → Take (token_key t) (tokenSize * Z.of_nat n) = Some (token_key (take n t)).
Proof. intros Ht. destruct (key_tokens_take ts _ t n (token_key_tokens t Ht)) as (k & -> & Hk). f_equal. by apply key_tokens_eq. Qed.

Lemma token_key_Skip t n : vtoks t → Skip (token_key t) (tokenSize * Z.of_nat n) = Some (token_key (drop n t)).
Proof. intros Ht. destruct (key_tokens_skip ts _ t n (token_key_tokens t Ht)) as (k & -> & Hk). f_equal. by apply key_tokens_eq. Qed.

Lemma token_key_HasPrefix t p : vtoks t → vtoks p → HasPrefix (token_key t) (token_key p) = Some (bool_decide (p `prefix_of` t)).
Proof. intros Ht Hp. by apply (key_tokens_prefix ts Hts); apply token_key_tokens. Qed.

Lemma token_key_iterated t p j : vtoks t → vtoks p → (j ≤ length t)%nat →
  iteratedHasPrefix (token_key t) (token_key p) (tokenSize * Z.of_nat j) tokenSize = Some (bool_decide (p `prefix_of` drop j t)).
Proof. intros Ht Hp Hj. by apply (iteratedHasPrefix_spec ts Hts); [apply token_key_tokens..|]. Qed.

Lemma token_key_Extend t x c : vtoks t → 0 ≤ x < 2 ^ tokenSize → vtoks c →
  Extend (token_key t) [ToToken x tokenSize; token_key c] = Some (token_key (t ++ x :: c)).
Proof.
  intros Ht Hx Hc. destruct (key_tokens_extend ts (token_key t) t [ToToken x tokenSize; token_key c] [[x]; c]) as (k & -> & Hk); [by apply token_key_tokens| |].
  - repeat constructor; [by apply key_tokens_ToToken|by apply token_key_tokens].
  - f_equal. simpl in Hk. rewrite app_nil_r in Hk. by apply key_tokens_eq.
Qed.

(** ** Common prefixes *)

Lemma lcp_cons_eq x a b : lcp (x :: a) (x :: b) = x :: lcp a b.
Proof. simpl. by rewrite decide_True. Qed.

Lemma common_loop_spec a b j i fuel :
  vtoks a → vtoks b → (j ≤ length b)%nat → (i ≤ length a)%nat → take i a = take i (drop j b) → (length a < i + fuel)%nat →
  common_loop tokenSize fuel (token_key a) (token_key b) (tokenSize * Z.of_nat j) (tokenSize * Z.of_nat i) = Some (tokenSize * Z.of_nat (length (lcp a (drop j b)))).
Proof.
  intros Ha Hb Hj. pose proof ts_pos as Hpos. revert i. induction fuel as [|fuel IH]; intros i Hi Hpre Hf; [lia|]. cbn [common_loop].
  rewrite !token_key_length by done.
  assert (∀ l : list Z, length l = i → l `prefix_of` a → l `prefix_of` drop j b → (∀ x, (l ++ [x]) `prefix_of` a → ¬ (l ++ [x]) `prefix_of` drop j b) → length (lcp a (drop j b)) = i) as Hstop.
  { intros l Hl H1 H2 Hno. pose proof (lcp_greatest _ _ _ H1 H2) as Hg. destruct (decide (l = lcp a (drop j b))) as [<-|Hne]; [done|].
    destruct (prefix_next _ _ Hg Hne) as (x & _ & Hx). destruct (Hno x); [etrans; [done|apply lcp_l]|etrans; [done|apply lcp_r]]. }
  assert (length (take i a) = i) as Htl by (rewrite length_take; lia).
  assert (take i a `prefix_of` a) as Hp1 by (exists (drop i a); by rewrite take_drop).
  assert (take i a `prefix_of` drop j b) as Hp2 by (rewrite Hpre; exists (drop i (drop j b)); by rewrite take_drop).
  destruct ((tokenSize * Z.of_nat i <? tokenSize * Z.of_nat (length a)) && (tokenSize * Z.of_nat i + tokenSize * Z.of_nat j <? tokenSize * Z.of_nat (length b))) eqn:Econd.
  - zbool. assert (i < length a)%nat as Hia by nia. assert (i + j < length b)%nat as Hib by nia.
    rewrite <- Z.mul_add_distr_l, <- Nat2Z.inj_add, !token_key_Token by done.
    destruct (lookup_lt_is_Some_2 a i Hia) as [x Hx]. destruct (lookup_lt_is_Some_2 b (i + j) Hib) as [y Hy]. rewrite Hx, Hy. cbn [mbind option_bind].
    destruct (Z.eqb_spec x y) as [->|Hne].
    + replace (tokenSize * Z.of_nat i + tokenSize) with (tokenSize * Z.of_nat (S i)) by lia. apply IH; [lia| |lia].
      rewrite (take_S_r _ _ _ Hx), (take_S_r _ _ y); [by rewrite Hpre|]. rewrite lookup_drop. by rewrite Nat.add_comm.
    + do 3 f_equal. symmetry. apply (Hstop (take i a)); [done..|]. intros z [_ Hz1]%prefix_next_inv [_ Hz2]%prefix_next_inv.
      rewrite Htl in Hz1, Hz2. rewrite lookup_drop, Nat.add_comm in Hz2. congruence.
  - do 3 f_equal. symmetry. apply (Hstop (take i a)); [done..|]. intros z [_ Hz1]%prefix_next_inv [_ Hz2]%prefix_next_inv.
    rewrite Htl in Hz1, Hz2. rewrite lookup_drop in Hz2. apply lookup_lt_Some in Hz1, Hz2. apply andb_false_iff in Econd as [E%Z.ltb_ge|E%Z.ltb_ge]; nia.
Qed.

Lemma getLengthOfCommonPrefix_spec a b j :
  vtoks a → vtoks b → (j ≤ length b)%nat →
  getLengthOfCommonPrefix tokenSize (token_key a) (token_key b) (tokenSize * Z.of_nat j) = Some (tokenSize * Z.of_nat (length (lcp a (drop j b)))).
Proof.
  intros Ha Hb Hj. unfold getLengthOfCommonPrefix. pose proof (common_loop_spec a b j 0 (S (Z.to_nat (k_length (token_key a)))) Ha Hb Hj) as H.
  rewrite Z.mul_0_r in H. apply H; [lia|done|]. rewrite token_key_length by done. pose proof ts_pos. nia.
Qed.
End keys.

(** ** The trie of a map *)

Section spec.
Context (ts : nat) {Hts : token_size ts} (sha256 : bytes → ID) {RZ : MapRange Z}.
Abbreviation tokenSize := (Z.of_nat ts).
Abbreviation tmap := (gmap (list Z) bytes).
Implicit Types (m : tmap) (q k c r : list Z).

Definition valid_map m : Prop := ∀ k, is_Some (m !! k) → vtoks ts k.

Lemma top_vtoks m p q : valid_map m → top m p = Some q → vtoks ts q.
Proof. intros Hm H. apply top_Some in H as ((k & Hk) & H & _). eapply vtoks_prefix; [by apply H|]. by apply Hm, Hk. Qed.

Lemma node_vtoks m q : valid_map m → is_node m q → vtoks ts q.
Proof. apply top_vtoks. Qed.

(** The entry of a child [c] of the node [q]. *)
Definition centry (idf : list Z → ID) m q c : child := mkChild (token_key ts (drop (S (length q)) c)) (idf c) (bool_decide (is_Some (m !! c))).

Definition cchildren (idf : list Z → ID) m q : gmap Z child :=
  list_to_map (omap (λ x, pair x <$> (centry idf m q <$> top m (q ++ [x]))) (seqZ 0 (2 ^ tokenSize))).

(** The node with the key [q], given the identifiers of its children. *)
Definition cnode (idf : list Z → ID) m q : node :=
  mkNode (mkDbNode (m !! q) (cchildren idf m q)) (token_key ts q) (valueDigest sha256 (m !! q)).

Lemma omap_pair_keys {A} (f : Z → option A) l : (omap (λ x, pair x <$> f x) l).*1 = filter (λ x, is_Some (f x)) l.
Proof.
  induction l as [|x l IH]; [done|]. rewrite filter_cons. cbn. destruct (f x); cbn.
  - rewrite decide_True by done. by f_equal.
  - rewrite decide_False by (by intros [? ?]). done.
Qed.

Lemma cchildren_lookup idf m q x : valid_map m → cchildren idf m q !! x = centry idf m q <$> top m (q ++ [x]).
Proof.
  intros Hm. unfold cchildren. set (f x := centry idf m q <$> top m (q ++ [x])). change ((list_to_map (omap (λ x, pair x <$> f x) (seqZ 0 (2 ^ tokenSize))) : gmap Z child) !! x = f x).
  apply option_eq. intros e. rewrite <- elem_of_list_to_map.
  - rewrite list_elem_of_omap. split.
    + intros (y & _ & Hy). destruct (f y) eqn:E; [|done]. cbn in Hy. simplify_eq. done.
    + intros He. exists x. rewrite He. split; [|done]. apply elem_of_seqZ. unfold f in He. destruct (top m (q ++ [x])) as [c|] eqn:E; [|done].
      pose proof (top_vtoks _ _ _ Hm E) as Hc. pose proof (top_above _ _ _ E) as Hp. apply (vtoks_prefix ts) in Hp; [|done].
      apply vtoks_app in Hp as [_ Hx]. inversion_clear Hx. lia.
  - rewrite omap_pair_keys. apply NoDup_filter, NoDup_seqZ.
Qed.

(** The identifier of a node is the hash of it, with the identifiers of its children;
    [f] bounds the depth. *)
Fixpoint node_id (f : nat) m q : ID :=
  match f with
  | O => Empty
  | S f => HashNode sha256 (cnode (node_id f m) m q)
  end.

Definition max_length m : nat := foldr Nat.max 0%nat (map (λ e, length e.1) (map_to_list m)).
Definition tid m q : ID := node_id (S (max_length m)) m q.

(** The identifier of the root, empty for the empty map. *)
Definition merkle_root m : ID := match top m [] with Some r => tid m r | None => Empty end.

Definition deep m q (f : nat) : Prop := ∀ k, under m q k → (length k < length q + f)%nat.

Lemma max_length_spec m k : is_Some (m !! k) → (length k ≤ max_length m)%nat.
Proof.
  intros [v Hv%elem_of_map_to_list]. unfold max_length. induction (map_to_list m) as [|e l IH]; [by apply elem_of_nil in Hv|].
  simpl. apply elem_of_cons in Hv as [<-|Hv]; simpl; [lia|]. specialize (IH Hv). lia.
Qed.

Lemma deep_max m q : deep m q (S (max_length m)).
Proof. intros k [Hk _]. apply max_length_spec in Hk. lia. Qed.

Lemma cnode_ext idf idf' m m' q :
  m !! q = m' !! q → (∀ x, top m (q ++ [x]) = top m' (q ++ [x])) → (∀ x c, top m (q ++ [x]) = Some c → idf c = idf' c ∧ m !! c = m' !! c) →
  cnode idf m q = cnode idf' m' q.
Proof.
  intros Hv Ht Hc. unfold cnode. rewrite Hv. do 2 f_equal. unfold cchildren. f_equal. apply list_omap_ext, Forall2_same_length_lookup.
  split; [done|]. intros i x y Hx Hy. assert (x = y) as <- by congruence. rewrite <- Ht. destruct (top m (q ++ [x])) as [c|] eqn:E; [|done]. simpl.
  destruct (Hc x c E) as [Hid Hm]. unfold centry. by rewrite Hid, Hm.
Qed.

(** Only the keys below a node matter for its identifier. *)
Lemma node_id_ext f f' m m' q :
  (∀ k, q `prefix_of` k → m !! k = m' !! k) → deep m q f → deep m q f' → (∃ k, under m q k) → node_id f m q = node_id f' m' q.
Proof.
  revert f' q. induction f as [|f IH]; intros f' q Heq Hd Hd' (k & Hk).
  { specialize (Hd k Hk). destruct Hk as [_ Hk%prefix_length]. lia. }
  destruct f' as [|f']; [specialize (Hd' k Hk); destruct Hk as [_ Hk%prefix_length]; lia|].
  cbn [node_id]. f_equal. assert (∀ x, top m (q ++ [x]) = top m' (q ++ [x])) as Ht.
  { intros x. apply top_ext. intros k'. unfold under. split; intros [H1 H2]; (split; [|done]).
    - by rewrite <- Heq by (by eapply prefix_snoc_l).
    - by rewrite Heq by (by eapply prefix_snoc_l). }
  apply cnode_ext; [by apply Heq|done|]. intros x c Hc. destruct (top_child_node _ _ _ _ Hc) as (_ & Hqc & Hl & _). split; [|by apply Heq].
  assert (∀ f, deep m q (S f) → deep m c f) as Hdeep.
  { intros g Hg k' Hk'. specialize (Hg k' (under_le _ _ _ _ Hqc Hk')). lia. }
  apply IH; [intros k' Hk'; apply Heq; by etrans|by apply Hdeep|by apply Hdeep|].
  destruct (proj1 (top_is_Some m c)) as [k' Hk']; [|by exists k']. exists c. by eapply top_node.
Qed.

Lemma tid_unfold m q : (∃ k, under m q k) → tid m q = HashNode sha256 (cnode (tid m) m q).
Proof.
  intros Hk. unfold tid at 1. cbn [node_id]. f_equal. apply cnode_ext; [done|done|]. intros x c Hc. split; [|done].
  destruct (top_child_node _ _ _ _ Hc) as (Hn & Hqc & Hl & _). apply node_id_ext; [done| |apply deep_max|].
  - intros k' [Hk' Hp]. pose proof (max_length_spec m k' Hk'). lia.
  - apply top_is_Some. by exists c.
Qed.

Lemma tid_ext m m' q : (∀ k, q `prefix_of` k → m !! k = m' !! k) → (∃ k, under m q k) → tid m q = tid m' q.
Proof.
  intros Heq Hk. unfold tid. set (F := (S (max_length m) + S (max_length m'))%nat).
  assert (∀ n, deep m n F) as HF by (intros n k' [Hk' _]; pose proof (max_length_spec m k' Hk'); lia).
  transitivity (node_id F m' q); [apply node_id_ext; [done|apply deep_max|done|done]|]. symmetry. apply node_id_ext; [done|apply deep_max| |].
  - intros k' [Hk' _]. pose proof (max_length_spec m' k' Hk'). lia.
  - destruct Hk as (k & Hk & Hp). exists k. split; [by rewrite <- Heq|done].
Qed.

(** ** A trie that holds a map *)

Record represents (T : Trie) (m : tmap) : Prop := {
  tr_valid : valid_map m;
  tr_root : t_getRoot T = cnode (tid m) m <$> top m [];
  tr_node : ∀ q, is_node m q → t_getEditableNode T (token_key ts q) (bool_decide (is_Some (m !! q))) = Ok (cnode (tid m) m q);
  tr_other : ∀ q hv, is_node m q → t_getEditableNode T (token_key ts q) hv = Ok (cnode (tid m) m q) ∨ t_getEditableNode T (token_key ts q) hv = Err ErrNotFound;
  tr_absent : ∀ q hv, vtoks ts q → ¬ is_node m q → t_getEditableNode T (token_key ts q) hv = Err ErrNotFound;
  tr_value : ∀ q, vtoks ts q → t_getValue T (token_key ts q) = match m !! q with Some v => Ok v | None => Err ErrNotFound end;
}.
End spec.
