(* ===== verification/MerkleInv.v ===== *)
(** * The state of a view while values are applied

    [Inv v m x]: the view [v] over a trie that holds [m0] has the nodes of the trie of
    the map [m], up to the identifiers of changed nodes; [x] is a new root that is not
    needed yet.  A node that is not among the changes is the node of [m0], with the
    same keys below it; the ancestors of a changed node are changed.  The lemmas say
    what reading and recording nodes does to it, up to the walk along the path to a
    key ([visitPathToKey_spec]). *)
From S2P Require Import Prelude Ids Bytes MerkleKey MerkleCodec MerkleTree MerkleView MerkleSpec.

(** ** Specifications of computations

    [wp m v Q]: from the view [v] the computation [m] returns without an error, with a
    result and a view that satisfy [Q]. *)
Definition wp {A} (m : VM A) (v : view) (Q : A → view → Prop) : Prop := ∃ a v', m v = Some (Ok a, v') ∧ Q a v'.

Section wp.
Context {A B : Type}.
Implicit Types (v : view).

Lemma wp_ret (a : A) v (Q : A → view → Prop) : Q a v → wp (mret a) v Q.
Proof. intros H. by exists a, v. Qed.

Lemma wp_bind (m : VM A) (k : A → VM B) v Q : wp m v (λ a v', wp (k a) v' Q) → wp (m ≫= k) v Q.
Proof. intros (a & v' & Hm & b & v'' & Hk & HQ). exists b, v''. split; [|done]. unfold mbind, VM_bind. by rewrite Hm. Qed.

Lemma wp_mono (m : VM A) v (P Q : A → view → Prop) : wp m v P → (∀ a v', P a v' → Q a v') → wp m v Q.
Proof. intros (a & v' & Hm & HP) H. exists a, v'. split; [done|]. by apply H. Qed.

Lemma wp_get (f : view → A) v (Q : A → view → Prop) : Q (f v) v → wp (vget f) v Q.
Proof. intros H. by exists (f v), v. Qed.

Lemma wp_lift (o : option A) a v (Q : A → view → Prop) : o = Some a → Q a v → wp (vlift o) v Q.
Proof. intros -> H. by exists a, v. Qed.

Lemma wp_result (r : result A merkle_error) a v (Q : A → view → Prop) : r = Ok a → Q a v → wp (vresult r) v Q.
Proof. intros -> H. by exists a, v. Qed.

Lemma wp_found (m : VM A) v (Q : option A → view → Prop) : wp m v (λ a v', Q (Some a) v') → wp (if_found m) v Q.
Proof. intros (a & v' & Hm & HQ). exists (Some a), v'. split; [|done]. unfold if_found. by rewrite Hm. Qed.

Lemma wp_not_found (m : VM A) v v' (Q : option A → view → Prop) : m v = Some (Err ErrNotFound, v') → Q None v' → wp (if_found m) v Q.
Proof. intros Hm HQ. exists None, v'. split; [|done]. unfold if_found. by rewrite Hm. Qed.
End wp.

Lemma wp_modify (f : view → view) v (Q : unit → view → Prop) : Q tt (f v) → wp (vmodify f) v Q.
Proof. intros H. by exists tt, (f v). Qed.

Lemma wp_deref l n v (Q : node → view → Prop) : v_heap v !! l = Some n → Q n v → wp (deref l) v Q.
Proof. intros Hl HQ. exists n, v. split; [|done]. unfold deref, mbind, VM_bind, vget, vlift. cbn. by rewrite Hl. Qed.

Lemma wp_store l n v (Q : unit → view → Prop) : Q tt (set_heap (<[l := n]> (v_heap v)) (v_next v) v) → wp (store l n) v Q.
Proof. apply wp_modify. Qed.

Lemma wp_alloc n v (Q : loc → view → Prop) : Q (v_next v) (set_heap (<[v_next v := n]> (v_heap v)) (S (v_next v)) v) → wp (alloc n) v Q.
Proof. intros HQ. unfold alloc. apply wp_bind, wp_get, wp_bind, wp_modify, wp_ret. done. Qed.

Lemma wp_update l f n n' v (Q : unit → view → Prop) :
  v_heap v !! l = Some n → f n = Some n' → Q tt (set_heap (<[l := n']> (v_heap v)) (v_next v) v) → wp (update l f) v Q.
Proof. intros Hl Hf HQ. unfold update. apply wp_bind. eapply wp_deref; [done|]. apply wp_bind. eapply wp_lift; [done|]. by apply wp_store. Qed.

(** What was recorded of a key before. *)
Definition old_before v (key : Key) : option node := match v_nodes v !! key with Some ch => nc_before ch | None => None end.

Lemma wp_recordNewNode T l n v (Q : unit → view → Prop) :
  v_applied v = false → v_heap v !! l = Some n → Q tt (set_nodes (<[n_key n := mkNodeChange (old_before v (n_key n)) (Some l)]> (v_nodes v)) v) → wp (recordNewNode T l) v Q.
Proof.
  intros Ha Hl HQ. unfold recordNewNode. apply wp_bind. eapply wp_deref; [done|]. unfold recordKeyChange. apply wp_bind, wp_get. cbn [id]. rewrite Ha. unfold old_before in HQ.
  destruct (v_nodes v !! n_key n); by apply wp_modify.
Qed.

(** A key that is among the changes. *)
Lemma wp_recordKeyChange T key after hv nn ch v (Q : unit → view → Prop) :
  v_applied v = false → v_nodes v !! key = Some ch → Q tt (set_nodes (<[key := mkNodeChange (nc_before ch) after]> (v_nodes v)) v) → wp (recordKeyChange T key after hv nn) v Q.
Proof. intros Ha Hch HQ. unfold recordKeyChange. apply wp_bind, wp_get. cbn [id]. rewrite Ha, Hch. by apply wp_modify. Qed.

(** One step of a sequence. *)
Ltac vbind := apply wp_bind.
Ltac vget := vbind; apply wp_get.
Ltac vderef := vbind; eapply wp_deref; [try done|].
Ltac vlift := vbind; eapply wp_lift.

Section Inv.
Context (ts : nat) {Hts : token_size ts} (sha256 : bytes → ID) (T : Trie).
Context {RZ : MapRange Z}.
Abbreviation tokenSize := (Z.of_nat ts).
Abbreviation tmap := (gmap (list Z) bytes).
Abbreviation tkey := (token_key ts).
Context (m0 : tmap) (HT : represents ts sha256 T m0).
Abbreviation node0 := (cnode ts sha256 (tid ts sha256 m0) m0).
Implicit Types (v : view) (m : tmap) (q p k c r : list Z) (l : loc) (n : node).

Definition changed v q : Prop := is_Some (v_nodes v !! tkey q).
Definition live v q l : Prop := ∃ ch, v_nodes v !! tkey q = Some ch ∧ nc_after ch = Some l.

(** The entry of the child [c] of [q]. *)
Definition entry_ok v q c (e : child) : Prop :=
  ch_compressedKey e = tkey (drop (S (length q)) c) ∧
  (¬ changed v c → ch_id e = tid ts sha256 m0 c ∧ ch_hasValue e = bool_decide (is_Some (m0 !! c))).

(** The node at [q], up to what changed below it. *)
Record near v m q n : Prop := mkNear {
  nr_key : n_key n = tkey q;
  nr_value : nd_value n = m !! q;
  nr_digest : n_valueDigest n = valueDigest sha256 (m !! q);
  nr_none : ∀ x, nd_children n !! x = None → top m (q ++ [x]) = None;
  nr_some : ∀ x e, nd_children n !! x = Some e → ∃ c, top m (q ++ [x]) = Some c ∧ entry_ok v q c e;
}.

Definition nodeX m (x : option (list Z)) q : Prop := is_node m q ∨ x = Some q.
Definition rootX m (x : option (list Z)) : option (list Z) := match x with Some b => Some b | None => top m [] end.

Record Inv v m (x : option (list Z)) : Prop := mkInv {
  iv_valid : valid_map ts m;
  iv_fresh : ∀ l, is_Some (v_heap v !! l) → (l < v_next v)%nat;
  iv_applied : v_applied v = false;
  iv_keys : ∀ key : Key, is_Some (v_nodes v !! key) → ∃ q, vtoks ts q ∧ key = tkey q;
  iv_live : ∀ q l, vtoks ts q → live v q l → nodeX m x q ∧ ∃ n, v_heap v !! l = Some n ∧ near v m q n;
  iv_dead : ∀ q ch, vtoks ts q → v_nodes v !! tkey q = Some ch → nc_after ch = None → ¬ nodeX m x q;
  iv_same : ∀ q, vtoks ts q → ¬ changed v q → (nodeX m x q ↔ is_node m0 q) ∧ (is_node m0 q → ∀ k, q `prefix_of` k → m !! k = m0 !! k);
  iv_before : ∀ q ch, vtoks ts q → v_nodes v !! tkey q = Some ch → nc_before ch = if decide (is_node m0 q) then Some (node0 q) else None;
  iv_root : match v_root v with
            | None => m = ∅ ∧ x = None
            | Some l => ∃ r n, vtoks ts r ∧ rootX m x = Some r ∧ v_heap v !! l = Some n ∧ near v m r n ∧ (changed v r → live v r l)
            end;
  iv_closed : ∀ q l p, vtoks ts q → live v q l → nodeX m x p → p `prefix_of` q → changed v p;
}.

#[global] Instance changed_dec v q : Decision (changed v q).
Proof. unfold changed. apply _. Defined.

Lemma live_changed v q l : live v q l → changed v q.
Proof. intros (ch & Hch & _). by exists ch. Qed.

Lemma live_fun v q l l' : live v q l → live v q l' → l = l'.
Proof. intros (ch & H & Hl) (ch' & H' & Hl'). congruence. Qed.

Lemma near_mono v v' m q n : (∀ c, changed v c → changed v' c) → near v m q n → near v' m q n.
Proof.
  intros Hch [H1 H2 H3 H4 H5]. split; [done..|]. intros x e He. destruct (H5 x e He) as (c & Hc & Hk & Hid). exists c. split; [done|]. split; [done|].
  intros Hn. apply Hid. auto.
Qed.

Lemma m0_valid : valid_map ts m0.
Proof. apply (tr_valid _ _ _ _ HT). Qed.

Lemma tops_agree m q x : (∀ k, q `prefix_of` k → m !! k = m0 !! k) → top m (q ++ [x]) = top m0 (q ++ [x]).
Proof. intros H. apply top_ext. intros k. unfold under. split; intros [H1 H2]; (split; [|done]); [rewrite <- H|rewrite H]; try done; by eapply prefix_snoc_l. Qed.

(** The nodes of the parent fit where nothing changed below. *)
Lemma near_node0 v m q : (∀ k, q `prefix_of` k → m !! k = m0 !! k) → near v m q (node0 q).
Proof.
  intros Heq. split; cbn; [done|by rewrite Heq|by rewrite Heq| |].
  - intros x Hx. unfold nd_children in Hx. cbn in Hx. rewrite cchildren_lookup in Hx by apply m0_valid. rewrite (tops_agree m q x Heq). by destruct (top m0 (q ++ [x])).
  - intros x e He. unfold nd_children in He. cbn in He. rewrite cchildren_lookup in He by apply m0_valid. rewrite (tops_agree m q x Heq).
    destruct (top m0 (q ++ [x])) as [c|]; [|done]. simpl in He. simplify_eq. exists c. done.
Qed.

Lemma hasValue_near v m q n : near v m q n → hasValue n = bool_decide (is_Some (m !! q)).
Proof. intros H. unfold hasValue. by rewrite (nr_value _ _ _ _ H). Qed.

(** ** Reading a node *)

(** What reading may change: new copies in the heap. *)
Record grows v v' : Prop := {
  gr_heap : ∀ l n, v_heap v !! l = Some n → v_heap v' !! l = Some n;
  gr_nodes : v_nodes v' = v_nodes v;
  gr_root : v_root v' = v_root v;
}.

Lemma alloc_inv v m x n : Inv v m x → let v' := set_heap (<[v_next v := n]> (v_heap v)) (S (v_next v)) v in Inv v' m x ∧ grows v v'.
Proof.
  intros HI v'. assert (v_heap v !! v_next v = None) as Hfr.
  { destruct (v_heap v !! v_next v) eqn:E; [|done]. pose proof (iv_fresh _ _ _ HI (v_next v) ltac:(by eexists)). lia. }
  assert (∀ l n', v_heap v !! l = Some n' → v_heap v' !! l = Some n') as Hg.
  { intros l n' Hl. cbn. rewrite lookup_insert_ne; [done|]. congruence. }
  split; [|by split]. destruct HI as [H1 H2 H3 H4 H5 H6 H7 H8 H9 H10]. split; try done.
  - intros l [n' Hn']. cbn in *. apply lookup_insert_Some in Hn' as [[<- _]|[_ Hn']]; [lia|]. specialize (H2 l ltac:(by eexists)). lia.
  - intros q l Hq Hl. destruct (H5 q l Hq Hl) as (Hx & n' & Hn' & Hnear). split; [done|]. exists n'. split; [by apply Hg|]. by apply (near_mono v v').
  - cbn. destruct (v_root v) as [l|]; [|done]. destruct H9 as (r & n' & Hr & Hx & Hn' & Hnear & Hlive). exists r, n'. split_and!; [done|done|by apply Hg|by apply (near_mono v v')|done].
Qed.

Lemma getNode_spec v m x c hv (Q : loc → view → Prop) :
  Inv v m x → vtoks ts c → nodeX m x c → (¬ changed v c → hv = bool_decide (is_Some (m0 !! c))) →
  (∀ l n v', Inv v' m x → grows v v' → v_heap v' !! l = Some n → near v' m c n → (changed v' c → live v' c l) → Q l v') →
  wp (getNode T (tkey c) hv) v Q.
Proof.
  intros HI Hc Hn Hhv HQ. unfold getNode. vget. destruct (v_nodes v !! tkey c) as [ch|] eqn:Ech.
  - destruct (nc_after ch) as [l|] eqn:El; [|by destruct (iv_dead _ _ _ HI c ch Hc Ech El)]. assert (live v c l) as Hl by (by exists ch).
    destruct (iv_live _ _ _ HI c l Hc Hl) as (_ & n & Hh & Hnear). apply wp_ret. by apply (HQ l n v).
  - assert (¬ changed v c) as Hnc by (unfold changed; rewrite Ech; by intros [? ?]). destruct (iv_same _ _ _ HI c Hc Hnc) as [Hiff Heq].
    apply Hiff in Hn as Hn0. rewrite (Hhv Hnc). vbind. eapply wp_result; [apply (tr_node _ _ _ _ HT c Hn0)|].
    destruct (alloc_inv v m x (node0 c) HI) as [HI' Hg]. unfold alloc. vget. vbind. apply wp_modify, wp_ret. eapply HQ; [done|done| | |].
    + cbn. by rewrite lookup_insert_eq.
    + apply near_node0. by apply Heq.
    + intros Hch. by destruct Hnc.
Qed.

(** ** Recording a node *)

(** What recording the node [q] at [l] changes. *)
Record records v v' q l : Prop := {
  rc_heap : v_heap v' = v_heap v;
  rc_root : v_root v' = v_root v;
  rc_live : live v' q l;
  rc_other : ∀ p, vtoks ts p → p ≠ q → v_nodes v' !! tkey p = v_nodes v !! tkey p;
}.

Lemma records_changed v v' q l p : vtoks ts p → records v v' q l → changed v p → changed v' p.
Proof.
  intros Hp Hr Hc. destruct (decide (p = q)) as [->|Hne]; [by eapply live_changed, rc_live|]. unfold changed. by rewrite (rc_other _ _ _ _ Hr).
Qed.

Lemma near_vtoks_child v m x q n : Inv v m x → near v m q n → ∀ y c, top m (q ++ [y]) = Some c → vtoks ts c.
Proof. intros HI _ y c Hc. eapply top_vtoks; [apply (iv_valid _ _ _ HI)|done]. Qed.

(** Only the flags of children that are valid keys matter. *)
Lemma near_mono_valid v v' m q n : valid_map ts m → (∀ c, vtoks ts c → changed v c → changed v' c) → near v m q n → near v' m q n.
Proof.
  intros Hm Hch [H1 H2 H3 H4 H5]. split; [done..|]. intros x e He. destruct (H5 x e He) as (c & Hc & Hk & Hid). exists c. split; [done|]. split; [done|].
  intros Hn. apply Hid. intros Hcc. apply Hn, Hch; [by eapply top_vtoks|done].
Qed.

Lemma insert_node_lookup v q p ch : vtoks ts q → vtoks ts p → <[tkey q := ch]> (v_nodes v) !! tkey p = if decide (p = q) then Some ch else v_nodes v !! tkey p.
Proof.
  intros Hq Hp. case_decide as Hd; [subst; by rewrite lookup_insert_eq|]. rewrite lookup_insert_ne; [done|]. intros He. apply Hd. symmetry. by apply (token_key_inj ts).
Qed.

Lemma set_nodes_inv v m x q l n ch :
  Inv v m x → vtoks ts q → nodeX m x q → v_heap v !! l = Some n → near v m q n → (changed v q → live v q l) →
  (∀ p, nodeX m x p → p `prefix_of` q → p ≠ q → changed v p) → (rootX m x = Some q → v_root v = Some l) →
  nc_after ch = Some l → nc_before ch = (if decide (is_node m0 q) then Some (node0 q) else None) →
  let v' := set_nodes (<[tkey q := ch]> (v_nodes v)) v in Inv v' m x ∧ records v v' q l.
Proof.
  intros HI Hq Hx Hl Hnear Hlive Hanc Hroot Hafter Hbefore v'.
  assert (∀ p, vtoks ts p → v_nodes v' !! tkey p = if decide (p = q) then Some ch else v_nodes v !! tkey p) as Hlook by (intros p Hp; by apply insert_node_lookup).
  assert (live v' q l) as Hlq by (exists ch; rewrite Hlook by done; by rewrite decide_True).
  assert (records v v' q l) as Hr. { split; [done|done|done|]. intros p Hp Hne. rewrite Hlook by done. by rewrite decide_False. }
  split; [|done]. pose proof (iv_valid _ _ _ HI) as Hval.
  assert (∀ p n', near v m p n' → near v' m p n') as Hmono by (intros p n'; apply near_mono_valid; [done|]; intros c Hc; by apply (records_changed v v' q l)).
  assert (∀ p l', vtoks ts p → live v' p l' → (p = q ∧ l' = l) ∨ (p ≠ q ∧ live v p l')) as Hcases.
  { intros p l' Hp Hl'. destruct (decide (p = q)) as [->|Hne]; [left; split; [done|by eapply live_fun]|]. right. split; [done|].
    destruct Hl' as (ch' & Hch' & Ha). exists ch'. by rewrite <- (rc_other _ _ _ _ Hr p Hp Hne). }
  destruct HI as [H1 H2 H3 H4 H5 H6 H7 H8 H9 H10]. split; [done|done|done|..].
  - intros key [ch' Hch']. cbn in Hch'. apply lookup_insert_Some in Hch' as [[<- _]|[_ Hch']]; [by exists q|]. apply H4. by eexists.
  - intros p l' Hp Hl'. destruct (Hcases p l' Hp Hl') as [[-> ->]|[Hne Hl0]].
    + split; [done|]. exists n. auto.
    + destruct (H5 p l' Hp Hl0) as (HX & n' & Hn' & Hnr). split; [done|]. exists n'. auto.
  - intros p ch' Hp Hch' Ha. rewrite Hlook in Hch' by done. case_decide; [simplify_eq|by eapply H6].
  - intros p Hp Hnc. apply H7; [done|]. intros Hc. by apply Hnc, (records_changed v v' q l).
  - intros p ch' Hp Hch'. rewrite Hlook in Hch' by done. case_decide; [subst; by simplify_eq|by eapply H8].
  - cbn. destruct (v_root v) as [lr|] eqn:Er; [|done]. destruct H9 as (r & n' & Hr' & HX & Hn' & Hnr & Hlr). exists r, n'. split_and!; [done|done|done|by apply Hmono|].
    intros Hc. destruct (decide (r = q)) as [->|Hne]; [by injection (Hroot HX) as ->|]. destruct (Hlr) as (ch' & Hch' & Ha).
    { unfold changed in *. by rewrite <- (rc_other _ _ _ _ Hr r). }
    exists ch'. by rewrite (rc_other _ _ _ _ Hr r).
  - intros p l' p' Hp Hl' HX Hpp. destruct (decide (p' = q)) as [->|Hne]; [by eapply live_changed|].
    assert (vtoks ts p') as Hp' by (by eapply vtoks_prefix). apply (records_changed v v' q l); [done|done|].
    destruct (Hcases p l' Hp Hl') as [[-> ->]|[_ Hl0]]; [by apply Hanc|exact (H10 p l' p' Hp Hl0 HX Hpp)].
Qed.

Lemma recordNodeChange_spec v m x q l n (Q : unit → view → Prop) :
  Inv v m x → vtoks ts q → nodeX m x q → v_heap v !! l = Some n → near v m q n → (changed v q → live v q l) →
  (∀ p, nodeX m x p → p `prefix_of` q → p ≠ q → changed v p) → (rootX m x = Some q → v_root v = Some l) →
  (∀ v', Inv v' m x → records v v' q l → Q tt v') →
  wp (recordNodeChange T l) v Q.
Proof.
  intros HI Hq Hx Hl Hnear Hlive Hanc Hroot HQ. unfold recordNodeChange. vderef. rewrite (nr_key _ _ _ _ Hnear), (hasValue_near v m q n Hnear).
  unfold recordKeyChange. vget. cbn [id]. rewrite (iv_applied _ _ _ HI).
  destruct (v_nodes v !! tkey q) as [ch|] eqn:Ech.
  - apply wp_modify. destruct (set_nodes_inv v m x q l n (mkNodeChange (nc_before ch) (Some l))) as [HI' Hr]; try done; [exact (iv_before _ _ _ HI q ch Hq Ech)|]. by apply HQ.
  - assert (¬ changed v q) as Hnc by (unfold changed; rewrite Ech; by intros [? ?]). destruct (iv_same _ _ _ HI q Hq Hnc) as [Hiff Heq].
    apply Hiff in Hx as Hn0. rewrite (Heq Hn0 q) by done. vbind. eapply wp_result; [apply (tr_node _ _ _ _ HT q Hn0)|]. apply wp_modify.
    destruct (set_nodes_inv v m x q l n (mkNodeChange (Some (node0 q)) (Some l))) as [HI' Hr]; try done; [cbn; by rewrite decide_True|]. by apply HQ.
Qed.

(** ** Changing nodes *)

(** A node that is not among the changes is the node of the parent. *)
Lemma near_unchanged v m x r n : Inv v m x → vtoks ts r → nodeX m x r → ¬ changed v r → near v m r n → n = node0 r.
Proof.
  intros HI Hvr Hx Hnc Hnear. destruct (iv_same _ _ _ HI r Hvr Hnc) as [Hiff Heq]. pose proof (proj1 Hiff Hx) as Hr0. specialize (Heq Hr0). destruct Hnear as [H1 H2 H3 H4 H5].
  destruct n as [[val ch] key dig]. unfold nd_value, nd_children in *. cbn in *. subst. unfold cnode. rewrite (Heq r) by done. do 2 f_equal.
  apply map_eq. intros y. rewrite cchildren_lookup by apply m0_valid. rewrite <- (tops_agree m r y Heq). destruct (ch !! y) as [e|] eqn:Ey; [|by rewrite (H4 y Ey)].
  destruct (H5 y e Ey) as (c & Hc & Hk & Hid). rewrite Hc. simpl. f_equal. assert (vtoks ts c) as Hvc by (eapply top_vtoks; [apply (iv_valid _ _ _ HI)|done]).
  assert (¬ changed v c) as Hncc.
  { intros [chg Hchg]. apply Hnc. destruct (top_child_node _ _ _ _ Hc) as (Hcn & Hrc & _). destruct (nc_after chg) as [l|] eqn:El.
    - apply (iv_closed _ _ _ HI c l); [done|by exists chg|done|done].
    - destruct (iv_dead _ _ _ HI c chg Hvc Hchg El). by left. }
  destruct (Hid Hncc) as [Hi Hv]. destruct e. unfold centry. cbn in *. by subst.
Qed.

(** A node that is not touched keeps its place when its children do. *)
Lemma near_change v v' m m' q n :
  valid_map ts m → near v m q n → (∀ c, vtoks ts c → changed v c → changed v' c) → m' !! q = m !! q → (∀ y, top m' (q ++ [y]) = top m (q ++ [y])) → near v' m' q n.
Proof.
  intros Hval Hnear Hch Hv Ht. apply (near_mono_valid v v') in Hnear; [|done|done]. destruct Hnear as [H1 H2 H3 H4 H5].
  split; [done|congruence|congruence|intros y Hy; rewrite Ht; by apply H4|]. intros y e He. rewrite Ht. by apply H5.
Qed.

(** What is recorded of a node that was touched. *)
Definition touched v' m' (x' : option (list Z)) q : Prop :=
  vtoks ts q ∧ ∃ ch, v_nodes v' !! tkey q = Some ch ∧ nc_before ch = (if decide (is_node m0 q) then Some (node0 q) else None) ∧
  match nc_after ch with
  | Some l => nodeX m' x' q ∧ (∃ n, v_heap v' !! l = Some n ∧ near v' m' q n) ∧ ∀ p, nodeX m' x' p → p `prefix_of` q → changed v' p
  | None => ¬ nodeX m' x' q
  end.

(** The invariant after a step that touches the nodes [U]. *)
Lemma Inv_update v m x v' m' x' (U : list (list Z)) :
  Inv v m x → valid_map ts m' → v_applied v' = false → (∀ l, is_Some (v_heap v' !! l) → (l < v_next v')%nat) →
  (∀ key : Key, is_Some (v_nodes v' !! key) → is_Some (v_nodes v !! key) ∨ ∃ q, q ∈ U ∧ key = tkey q) →
  (∀ q, q ∈ U → touched v' m' x' q) →
  (∀ q, vtoks ts q → q ∉ U → v_nodes v' !! tkey q = v_nodes v !! tkey q) →
  (∀ q, vtoks ts q → q ∉ U → (nodeX m' x' q ↔ nodeX m x q)) →
  (∀ q l n, vtoks ts q → q ∉ U → live v q l → v_heap v !! l = Some n → near v m q n → v_heap v' !! l = Some n) →
  (∀ q, nodeX m x q → q ∉ U → m' !! q = m !! q ∧ ∀ y, top m' (q ++ [y]) = top m (q ++ [y])) →
  (∀ q, vtoks ts q → ¬ changed v' q → is_node m0 q → ∀ k, q `prefix_of` k → m' !! k = m !! k) →
  match v_root v' with
  | None => m' = ∅ ∧ x' = None
  | Some l => ∃ r n, vtoks ts r ∧ rootX m' x' = Some r ∧ v_heap v' !! l = Some n ∧ near v' m' r n ∧ (changed v' r → live v' r l)
  end → Inv v' m' x'.
Proof.
  intros HI Hval Happ Hfresh Hkeys HU Hsame Hnodes Hheap Hkeep Hbelow Hroot.
  assert (∀ q, q ∈ U → changed v' q) as HUc by (intros q (_ & ch & Hch & _)%HU; by exists ch).
  assert (∀ q, vtoks ts q → changed v q → changed v' q) as Hmono.
  { intros q Hq Hc. destruct (decide (q ∈ U)) as [Hin|Hin]; [by apply HUc|]. unfold changed. by rewrite Hsame. }
  assert (∀ q, vtoks ts q → ¬ changed v' q → (q ∉ U) ∧ ¬ changed v q) as Hnc by (intros q Hq Hc; split; [intros Hin; by apply Hc, HUc|intros Hcc; by apply Hc, Hmono]).
  split; [done|done|done|..]; [| | | | |exact Hroot|].
  - intros key [Hk|(q & Hq & ->)]%Hkeys; [by apply (iv_keys _ _ _ HI)|]. exists q. split; [|done]. by apply HU.
  - intros q l Hq Hl. destruct (decide (q ∈ U)) as [Hin|Hin].
    + destruct (HU q Hin) as (_ & ch & Hch & _ & Hcase). destruct Hl as (ch' & Hch' & Ha). simplify_eq. rewrite Ha in Hcase. destruct Hcase as (HX & Hn & _). done.
    + assert (live v q l) as Hl0 by (destruct Hl as (ch & Hch & Ha); exists ch; by rewrite <- Hsame). destruct (iv_live _ _ _ HI q l Hq Hl0) as (HX & n & Hn & Hnear).
      split; [by apply Hnodes|]. exists n. split; [by apply (Hheap q l n)|]. destruct (Hkeep q HX Hin) as [Hv Ht]. by apply (near_change v v' m m'); [apply (iv_valid _ _ _ HI)|..].
  - intros q ch Hq Hch Ha. destruct (decide (q ∈ U)) as [Hin|Hin].
    + destruct (HU q Hin) as (_ & ch' & Hch' & _ & Hcase). simplify_eq. by rewrite Ha in Hcase.
    + rewrite Hnodes by done. rewrite Hsame in Hch by done. exact (iv_dead _ _ _ HI q ch Hq Hch Ha).
  - intros q Hq Hcq. destruct (Hnc q Hq Hcq) as [Hin Hc0]. destruct (iv_same _ _ _ HI q Hq Hc0) as [H1 H2]. split; [by rewrite Hnodes|].
    intros Hn0 k Hk. rewrite (Hbelow q Hq Hcq Hn0 k Hk). by apply H2.
  - intros q ch Hq Hch. destruct (decide (q ∈ U)) as [Hin|Hin].
    + destruct (HU q Hin) as (_ & ch' & Hch' & Hb & _). by simplify_eq.
    + rewrite Hsame in Hch by done. by apply (iv_before _ _ _ HI).
  - intros q l p Hq Hl HX Hpq. destruct (decide (q ∈ U)) as [Hin|Hin].
    + destruct (HU q Hin) as (_ & ch & Hch & _ & Hcase). destruct Hl as (ch' & Hch' & Ha). simplify_eq. rewrite Ha in Hcase. by apply Hcase.
    + destruct (decide (p ∈ U)) as [Hp|Hp]; [by apply HUc|]. assert (vtoks ts p) as Hvp by (by eapply vtoks_prefix). apply Hmono; [done|].
      apply (iv_closed _ _ _ HI q l); [done| |by apply Hnodes|done]. destruct Hl as (ch & Hch & Ha). exists ch. by rewrite <- Hsame.
Qed.

(** ** Walking to a key *)

(** What walking may change: copies in the heap and recorded nodes. *)
Record walks v v' : Prop := {
  wk_heap : ∀ l n, v_heap v !! l = Some n → v_heap v' !! l = Some n;
  wk_root : v_root v' = v_root v;
  wk_live : ∀ p l, vtoks ts p → live v p l → live v' p l;
}.

Lemma grows_walks v v' : grows v v' → walks v v'.
Proof. intros [H1 H2 H3]. split; [done|done|]. intros p l _ (ch & Hch & Ha). exists ch. by rewrite H2. Qed.

Lemma records_walks v v' q l : records v v' q l → (changed v q → live v q l) → walks v v'.
Proof.
  intros Hr Hq. split; [by rewrite (rc_heap _ _ _ _ Hr)|apply (rc_root _ _ _ _ Hr)|]. intros p l' Hp Hl. destruct (decide (p = q)) as [->|Hne].
  - rewrite (live_fun v q l' l Hl (Hq (live_changed _ _ _ Hl))). apply (rc_live _ _ _ _ Hr).
  - destruct Hl as (ch & Hch & Ha). exists ch. by rewrite (rc_other _ _ _ _ Hr).
Qed.

Lemma walks_trans v1 v2 v3 : walks v1 v2 → walks v2 v3 → walks v1 v3.
Proof. intros [H1 H2 H3] [H4 H5 H6]. split; [auto|congruence|auto]. Qed.

Lemma walks_refl v : walks v v.
Proof. by split. Qed.

Section visit.
Context {A : Type} (g : A → loc → A) (visit : A → loc → VM A).
Context (Hvis : ∀ acc l v (Q : A → view → Prop), wp (recordNodeChange T l) v (λ _ v', Q (g acc l) v') → wp (visit acc l) v Q).

(** The child entry that is followed leads to the child's key. *)
Lemma child_step q x c k : vtoks ts k → (q ++ [x]) `prefix_of` k → (q ++ [x]) `prefix_of` c → vtoks ts c →
  iteratedHasPrefix (tkey k) (tkey (drop (S (length q)) c)) (tokenSize * Z.of_nat (length q) + tokenSize) tokenSize = Some (bool_decide (c `prefix_of` k)) ∧
  (c `prefix_of` k → Take (tkey k) (tokenSize * Z.of_nat (length q) + tokenSize + k_length (tkey (drop (S (length q)) c))) = Some (tkey c)).
Proof.
  intros Hk Hqk Hqc Hc. assert (∀ l : list Z, (q ++ [x]) `prefix_of` l → l = (q ++ [x]) ++ drop (S (length q)) l) as Hsplit.
  { intros l [l' ->]. f_equal. rewrite drop_app_length'; [done|]. rewrite length_app. simpl. lia. }
  replace (tokenSize * Z.of_nat (length q) + tokenSize) with (tokenSize * Z.of_nat (S (length q))) by lia.
  pose proof (prefix_length _ _ Hqk) as Hl. rewrite length_app in Hl. simpl in Hl. split.
  - rewrite token_key_iterated by (done || lia || by apply vtoks_drop). f_equal. apply bool_decide_ext. rewrite (Hsplit c Hqc) at 2. rewrite (Hsplit k Hqk) at 2.
    split; [apply prefix_app|apply prefix_app_inv].
  - intros Hck. pose proof (prefix_length _ _ Hqc) as Hlc. rewrite length_app in Hlc. simpl in Hlc.
    rewrite token_key_length by (done || by apply vtoks_drop). rewrite length_drop, <- Z.mul_add_distr_l, <- Nat2Z.inj_add, token_key_Take by done. do 2 f_equal.
    replace (S (length q) + (length c - S (length q)))%nat with (length c) by lia. destruct Hck as [l ->]. by rewrite take_app_length.
Qed.

Lemma visit_loop_spec fuel v m k q l acc (Q : A → view → Prop) :
  Inv v m None → vtoks ts k → is_node m q → q `prefix_of` k → live v q l → (∀ p, is_node m p → p `prefix_of` q → changed v p) → (length k < length q + fuel)%nat →
  (∀ v' ps, Inv v' m None → walks v v' → chain m q ps → Forall (λ e, live v' e.1 e.2 ∧ e.1 `prefix_of` k) ps → closest m k (chain_end q ps) →
     (∀ p, is_node m p → p `prefix_of` chain_end q ps → changed v' p) → Q (foldl g acc ps.*2) v') →
  wp (visit_loop tokenSize T fuel (tkey k) visit l acc) v Q.
Proof.
  revert v q l acc. induction fuel as [|fuel IH]; intros v q l acc HI Hk Hq Hqk Hl Hanc Hf HQ; [pose proof (prefix_length _ _ Hqk); lia|].
  assert (vtoks ts q) as Hvq by (by eapply vtoks_prefix). pose proof (ts_pos ts) as Hpos. cbn [visit_loop].
  assert (closest m k q → wp (mret acc) v Q) as Hstop.
  { intros Hcl. apply wp_ret. apply (HQ v []); [done|apply walks_refl|done|constructor|done|done]. }
  destruct (iv_live _ _ _ HI q l Hvq Hl) as (_ & n & Hn & Hnear). vderef. rewrite (nr_key _ _ _ _ Hnear), !token_key_length by done.
  destruct (Z.ltb_spec (tokenSize * Z.of_nat (length q)) (tokenSize * Z.of_nat (length k))) as [Hlt|Hge].
  2:{ apply Hstop. assert (q = k) as <- by (apply prefix_eq_length; [done|nia]). apply closest_last; [done|done|]. intros x c Hx. by apply not_prefix_snoc in Hx. }
  assert (length q < length k)%nat as Hlt' by nia. destruct (lookup_lt_is_Some_2 k (length q) Hlt') as [x Hx]. vlift; [by rewrite token_key_Token|].
  assert ((q ++ [x]) `prefix_of` k) as Hqx by (by apply prefix_next_iff).
  assert (∀ y, (q ++ [y]) `prefix_of` k → y = x) as Huniq by (intros y [_ Hy]%prefix_next_inv; congruence).
  destruct (nd_children n !! x) as [e|] eqn:Ee.
  2:{ apply Hstop, closest_last; [done|done|]. intros y c ->%Huniq. by rewrite (nr_none _ _ _ _ Hnear x Ee). }
  destruct (nr_some _ _ _ _ Hnear x e Ee) as (c & Hc & Hck & Hid). rewrite Hck. pose proof (iv_valid _ _ _ HI) as Hval.
  assert (vtoks ts c) as Hvc by (by eapply top_vtoks). destruct (child_step q x c k) as [Hit Htake]; [done|done|by eapply top_above|done|].
  vlift; [exact Hit|]. destruct (decide (c `prefix_of` k)) as [Hcpre|Hnot].
  2:{ rewrite bool_decide_eq_false_2 by done. apply Hstop, closest_last; [done|done|]. intros y c' ->%Huniq Hc'. by simplify_eq. }
  rewrite bool_decide_eq_true_2 by done. cbn [negb]. vlift; [by apply Htake|]. destruct (top_child_node _ _ _ _ Hc) as (Hcn & Hqc & Hlen & _).
  pose proof (parent_of_child m q x c Hq Hc) as Hpar.
  vbind. eapply (getNode_spec v m None c); [done|done|by left|intros Hnc; by apply Hid|]. intros l1 n1 v1 HI1 Hg1 Hn1 Hnear1 Hlive1.
  pose proof (grows_walks _ _ Hg1) as Hw1. assert (∀ p, changed v p ↔ changed v1 p) as Hch1 by (intros p; unfold changed; by rewrite (gr_nodes _ _ Hg1)).
  vbind. apply Hvis. eapply (recordNodeChange_spec v1 m None c l1 n1); [done|done|by left|done|done|done| | |].
  - intros p [Hp|Hp]; [|done]. intros Hpc Hne. apply Hch1, Hanc; [done|]. destruct Hpar as (_ & _ & _ & Hmax). by apply Hmax.
  - intros Hr. cbn in Hr. pose proof (prefix_length _ _ (root_prefix m c q Hr Hq)). lia.
  - intros v2 HI2 Hr2. pose proof (records_walks _ _ _ _ Hr2 Hlive1) as Hw2. pose proof (walks_trans _ _ _ Hw1 Hw2) as Hw.
    eapply (IH v2 c l1); [done|done|done|done|by apply (rc_live _ _ _ _ Hr2)| |lia|].
    + intros p Hp Hpc. destruct (decide (p = c)) as [->|Hne]; [by eapply live_changed, (rc_live _ _ _ _ Hr2)|].
      apply (records_changed v1 v2 c l1); [by eapply node_vtoks|done|]. apply Hch1, Hanc; [done|]. destruct Hpar as (_ & _ & _ & Hmax). by apply Hmax.
    + intros v' ps HI' Hw' Hchain Hall Hcl Hanc'. apply (HQ v' ((c, l1) :: ps)); [done|by eapply walks_trans|done| |done|done].
      constructor; [|done]. split; [|done]. apply (wk_live _ _ Hw'); [done|]. apply (rc_live _ _ _ _ Hr2).
Qed.

(** The three outcomes: there is no trie, its root is not on the way, or the nodes on
    the way are recorded. *)
Lemma visitPathToKey_spec v m k acc (Q : A → view → Prop) :
  Inv v m None → vtoks ts k →
  (v_root v = None → m = ∅ → Q acc v) →
  (∀ r, top m [] = Some r → ¬ r `prefix_of` k → Q acc v) →
  (∀ v' r l ps, Inv v' m None → walks v v' → top m [] = Some r → r `prefix_of` k → v_root v' = Some l → live v' r l → chain m r ps →
     Forall (λ e, live v' e.1 e.2 ∧ e.1 `prefix_of` k) ps → closest m k (chain_end r ps) →
     (∀ p, is_node m p → p `prefix_of` chain_end r ps → changed v' p) → Q (foldl g acc (l :: ps.*2)) v') →
  wp (visitPathToKey tokenSize T (tkey k) visit acc) v Q.
Proof.
  intros HI Hk Hnone Hoff Hon. unfold visitPathToKey. vget. pose proof (iv_root _ _ _ HI) as Hroot. destruct (v_root v) as [l|] eqn:El.
  2:{ apply wp_ret, Hnone; [done|by apply Hroot]. }
  destruct Hroot as (r & n & Hvr & Hr & Hn & Hnear & Hlive). cbn in Hr. assert (is_node m r) as Hrn by (by eapply top_node). vderef. rewrite (nr_key _ _ _ _ Hnear).
  vlift; [by apply token_key_HasPrefix|]. destruct (decide (r `prefix_of` k)) as [Hrk|Hrk].
  2:{ rewrite bool_decide_eq_false_2 by done. by apply wp_ret, (Hoff r). }
  rewrite bool_decide_eq_true_2 by done. cbn [negb]. vbind. apply Hvis. eapply (recordNodeChange_spec v m None r l n); [done|done|by left|done|done|done| |done|].
  { intros p [Hp|Hp] Hpr Hne; [|done]. destruct Hne. apply prefix_antisym; [done|]. by apply (root_prefix m). }
  intros v1 HI1 Hr1. pose proof (records_walks _ _ _ _ Hr1 Hlive) as Hw1. eapply (visit_loop_spec _ v1 m k r l); [done|done|done|done|by apply (rc_live _ _ _ _ Hr1)| | |].
  - intros p Hp Hpr. assert (p = r) as ->; [|by eapply live_changed, (rc_live _ _ _ _ Hr1)]. apply prefix_antisym; [done|by apply (root_prefix m)].
  - rewrite token_key_length by done. pose proof (ts_pos ts). nia.
  - intros v' ps HI' Hw' Hchain Hall Hcl Hanc. eapply Hon; try done; [by eapply walks_trans|by rewrite (wk_root _ _ Hw'), (rc_root _ _ _ _ Hr1)|].
    apply (wk_live _ _ Hw'); [done|]. apply (rc_live _ _ _ _ Hr1).
Qed.
End visit.
End Inv.
