(* ===== verification/MerkleInsert.v ===== *)
(** * Inserting into a view

    [insert] leads from the trie of a map to the trie of the map with the key: the
    value is set on a node that exists, on a new leaf, or on a new branch, and a new
    root is made when the old one is not on the way ([insert_spec]). *)
From S2P Require Import Prelude Ids Bytes MerkleKey MerkleCodec MerkleTree MerkleView MerkleSpec MerkleInv.

Section Insert.
Context (ts : nat) {Hts : token_size ts} (sha256 : bytes → ID) (T : Trie).
Context {RZ : MapRange Z}.
Abbreviation tokenSize := (Z.of_nat ts).
Abbreviation tmap := (gmap (list Z) bytes).
Abbreviation tkey := (token_key ts).
Context (m0 : tmap) (HT : represents ts sha256 T m0).
Abbreviation node0 := (cnode ts sha256 (tid ts sha256 m0) m0).
Abbreviation Inv := (Inv ts sha256 m0).
Abbreviation near := (near ts sha256 m0).
Abbreviation live := (live ts).
Abbreviation changed := (changed ts).
Implicit Types (v : view) (m : tmap) (q p k c r b : list Z) (l : loc) (n : node).

Lemma old_before_ok v m x q : Inv v m x → vtoks ts q → changed v q ∨ ¬ nodeX m x q → old_before v (tkey q) = if decide (is_node m0 q) then Some (node0 q) else None.
Proof.
  intros HI Hq Hc. unfold old_before. destruct (v_nodes v !! tkey q) as [ch|] eqn:E; [by apply (iv_before _ _ _ _ _ _ HI)|].
  assert (¬ changed v q) as Hnc by (unfold MerkleInv.changed; rewrite E; by intros [? ?]). destruct Hc as [|Hx]; [done|].
  rewrite decide_False; [done|]. intros Hn. apply Hx. by apply (iv_same _ _ _ _ _ _ HI q Hq Hnc).
Qed.

(** The way to [k] is recorded and ends at the node [p], which is at [l]. *)
Record at_node v m x k p l : Prop := {
  an_inv : Inv v m x;
  an_key : vtoks ts k;
  an_closest : closest m k p;
  an_live : live v p l;
  an_extra : (x = None ∧ is_node m p) ∨ (x = Some p ∧ above_root m k p);
  an_path : ∀ q, nodeX m x q → q `prefix_of` p → changed v q;
}.

Lemma an_vtoks v m x k p l : at_node v m x k p l → vtoks ts p.
Proof. intros H. destruct (an_closest _ _ _ _ _ _ H) as (Hpk & _). by eapply vtoks_prefix, (an_key _ _ _ _ _ _ H). Qed.

Lemma an_prefix v m x k p l : at_node v m x k p l → p `prefix_of` k.
Proof. intros H. by destruct (an_closest _ _ _ _ _ _ H) as (Hpk & _). Qed.

Lemma an_max v m x k p l q : at_node v m x k p l → is_node m q → q `prefix_of` k → q `prefix_of` p.
Proof. intros H. destruct (an_closest _ _ _ _ _ _ H) as (_ & Hmax & _). apply Hmax. Qed.

Lemma an_nodeX v m x k p l q : at_node v m x k p l → nodeX m x q → q `prefix_of` k → q `prefix_of` p.
Proof.
  intros H [Hq| ->] Hqk; [by eapply an_max|]. destruct (an_extra _ _ _ _ _ _ H) as [[? _]|[? _]]; [done|by simplify_eq].
Qed.

Lemma valid_insert m k val : valid_map ts m → vtoks ts k → valid_map ts (<[k := val]> m).
Proof. intros Hm Hk q [w Hw]. apply lookup_insert_Some in Hw as [[<- _]|[_ Hw]]; [done|]. apply Hm. by eexists. Qed.

(** The root stays, or is the new one. *)
Lemma an_root v m x k p l val r : at_node v m x k p l → rootX m x = Some r → top (<[k := val]> m) [] = Some r.
Proof.
  intros H Hr. rewrite top_insert, decide_True by apply prefix_nil. f_equal. destruct (an_extra _ _ _ _ _ _ H) as [[-> Hp]|[-> (r0 & Hr0 & _ & ->)]]; cbn in Hr.
  - rewrite Hr. simpl. apply lcp_of_prefix. etrans; [by apply (root_prefix m)|]. by eapply an_prefix.
  - rewrite Hr0. simpl. congruence.
Qed.

(** The invariant after the nodes [U] on the way to [k] were changed or made. *)
Lemma Insert_update v m x k p l val v' (U : list (list Z)) :
  let m' := <[k := val]> m in
  at_node v m x k p l →
  v_applied v' = false → v_root v' = v_root v → (∀ l', is_Some (v_heap v' !! l') → (l' < v_next v')%nat) →
  (∀ l' n, l' ≠ l → v_heap v !! l' = Some n → v_heap v' !! l' = Some n) →
  (∀ key : Key, is_Some (v_nodes v' !! key) → is_Some (v_nodes v !! key) ∨ ∃ q, q ∈ U ∧ key = tkey q) →
  (∀ q, vtoks ts q → q ∉ U → v_nodes v' !! tkey q = v_nodes v !! tkey q) →
  p ∈ U → live v' p l →
  (∀ q, q ∈ U → q `prefix_of` k ∧ (q ≠ p → ¬ nodeX m x q) ∧ is_node m' q ∧ ∃ ch l' n, v_nodes v' !! tkey q = Some ch ∧ nc_before ch = old_before v (tkey q) ∧ nc_after ch = Some l' ∧ v_heap v' !! l' = Some n ∧ near v' m' q n) →
  (∀ q, is_node m' q → is_node m q ∨ q ∈ U) →
  Inv v' m' None.
Proof.
  intros m' Han Happ Hroot Hfresh Hheap Hkeys Hnodes HpU Hlp HU Hnew. pose proof (an_inv _ _ _ _ _ _ Han) as HI. pose proof (an_key _ _ _ _ _ _ Han) as Hk.
  pose proof (an_vtoks _ _ _ _ _ _ Han) as Hvp. pose proof (iv_valid _ _ _ _ _ _ HI) as Hval.
  assert (∀ q, q ∈ U → changed v' q) as HUc by (intros q (_ & _ & _ & ch & _ & _ & Hch & _)%HU; by exists ch).
  assert (∀ q, vtoks ts q → changed v q → changed v' q) as Hmono.
  { intros q Hq Hc. destruct (decide (q ∈ U)) as [|Hin]; [by apply HUc|]. unfold MerkleInv.changed. by rewrite Hnodes. }
  assert (∀ q, nodeX m x q → q ≠ p → is_node m q) as HX.
  { intros q [Hq| ->] Hne; [done|]. destruct (an_extra _ _ _ _ _ _ Han) as [[? _]|[? _]]; [done|by simplify_eq]. }
  assert (∀ q, nodeX m x q → q ∉ U → m' !! q = m !! q ∧ ∀ y, top m' (q ++ [y]) = top m (q ++ [y])) as Hkeep.
  { intros q Hq Hin. assert (q ≠ p) as Hne by (by intros ->). apply HX in Hq; [|done]. split; [|intros y; by apply (insert_children_other m k val p); [apply (an_closest _ _ _ _ _ _ Han)|..]].
    apply lookup_insert_ne. intros <-. apply Hne. apply prefix_antisym; [|by eapply an_prefix]. by eapply an_max. }
  apply (Inv_update ts sha256 m0 v m x v' m' None U); try done.
  - by apply valid_insert.
  - intros q Hin. destruct (HU q Hin) as (Hqk & Hx & Hqn & ch & l' & n & Hch & Hb & Ha & Hn & Hnear). assert (vtoks ts q) as Hvq by (by eapply vtoks_prefix).
    split; [done|]. exists ch. split; [done|]. split.
    { rewrite Hb. apply (old_before_ok v m x); [done|done|]. destruct (decide (q = p)) as [->|Hne]; [left; eapply live_changed, (an_live _ _ _ _ _ _ Han)|right; by apply Hx]. }
    rewrite Ha. split; [by left|]. split; [by exists n|]. intros p' [Hp'|?] Hpq; [|done]. destruct (Hnew p' Hp') as [Hpm|HpU']; [|by apply HUc].
    apply Hmono; [by eapply node_vtoks|]. apply (an_path _ _ _ _ _ _ Han); [by left|]. eapply an_max; [done|done|by etrans].
  - intros q Hq Hin. split.
    + intros [Hq'|?]; [|done]. destruct (Hnew q Hq') as [|]; [by left|done].
    + intros Hq'. left. apply insert_node_stays, HX; [done|]. by intros ->.
  - intros q l' n Hq Hin Hl Hn Hnear. apply Hheap; [|done]. intros ->. apply Hin. enough (q = p) as -> by done.
    destruct (iv_live _ _ _ _ _ _ HI p l Hvp (an_live _ _ _ _ _ _ Han)) as (_ & n' & Hn' & Hnear'). simplify_eq.
    apply (token_key_inj ts); [done|done|]. by rewrite <- (nr_key _ _ _ _ _ _ _ Hnear), <- (nr_key _ _ _ _ _ _ _ Hnear').
  - intros q Hq Hnc Hn0 k' Hqk'. apply lookup_insert_ne. intros <-. apply Hnc. assert (¬ changed v q) as Hnc0 by (intros Hc; by apply Hnc, Hmono).
    apply Hmono; [done|]. apply (iv_same _ _ _ _ _ _ HI q Hq Hnc0) in Hn0. apply (an_path _ _ _ _ _ _ Han); [done|]. by eapply an_nodeX.
  - rewrite Hroot. pose proof (iv_root _ _ _ _ _ _ HI) as Hr. destruct (v_root v) as [lr|] eqn:Elr.
    + destruct Hr as (r & n & Hvr & HrX & Hn & Hnear & Hlr). assert (top m' [] = Some r) as Hr' by (by eapply an_root). destruct (decide (r = p)) as [->|Hne].
      * assert (lr = l) as -> by (eapply (live_fun ts); [apply Hlr; eapply live_changed|]; apply (an_live _ _ _ _ _ _ Han)).
        destruct (HU p HpU) as (_ & _ & _ & ch & l' & n' & Hch & _ & Ha & Hn' & Hnear'). assert (l' = l) as -> by (eapply (live_fun ts); [by exists ch|done]).
        exists p, n'. done.
      * assert (r ∉ U) as HrU.
        { intros Hin. apply (HU r Hin); [done|]. destruct x as [b|]; cbn in HrX; [simplify_eq; by right|left; by eapply top_node]. }
        assert (nodeX m x r) as HXr by (destruct x as [b|]; cbn in HrX; [simplify_eq; by right|left; by eapply top_node]).
        assert (lr ≠ l) as Hll.
        { intros ->. apply Hne. destruct (iv_live _ _ _ _ _ _ HI p l Hvp (an_live _ _ _ _ _ _ Han)) as (_ & n' & Hn' & Hnear'). simplify_eq.
          apply (token_key_inj ts); [done|done|]. by rewrite <- (nr_key _ _ _ _ _ _ _ Hnear), <- (nr_key _ _ _ _ _ _ _ Hnear'). }
        exists r, n. split_and!; [done|done|by apply Hheap| |].
        -- destruct (Hkeep r HXr HrU). by apply (near_change ts sha256 m0 v v' m m').
        -- intros Hc. destruct Hlr as (ch & Hch & Ha); [unfold MerkleInv.changed in *; by rewrite <- Hnodes|]. exists ch. by rewrite Hnodes.
    + destruct Hr as [-> ->]. destruct (an_extra _ _ _ _ _ _ Han) as [[_ Hp]|[? _]]; [|done]. unfold is_node in Hp. by rewrite top_empty_map in Hp.
Qed.

(** ** Entries of children *)

Lemma addChild_spec n cn id p x c :
  vtoks ts c → n_key n = tkey p → n_key cn = tkey c → (p ++ [x]) `prefix_of` c →
  addChildWithID tokenSize n cn id = Some (setChildEntry n x (mkChild (tkey (drop (S (length p)) c)) id (hasValue cn))).
Proof.
  intros Hc Hn Hcn Hpc. assert (vtoks ts p) as Hp by (eapply vtoks_prefix; [by eapply prefix_snoc_l|done]). apply prefix_next_inv in Hpc as [_ Hx]. pose proof (lookup_lt_Some _ _ _ Hx) as Hl.
  unfold addChildWithID. rewrite Hn, Hcn, token_key_length, token_key_Token, Hx by done. cbn [mbind option_bind].
  replace (tokenSize * Z.of_nat (length p) + tokenSize) with (tokenSize * Z.of_nat (S (length p))) by lia. by rewrite token_key_Skip.
Qed.

Lemma near_setChild v v' m m' p n x c e :
  valid_map ts m → near v m p n → (∀ c, vtoks ts c → changed v c → changed v' c) → m' !! p = m !! p →
  (∀ y, y ≠ x → top m' (p ++ [y]) = top m (p ++ [y])) → top m' (p ++ [x]) = Some c → entry_ok ts sha256 m0 v' p c e →
  near v' m' p (setChildEntry n x e).
Proof.
  intros Hval Hnear Hch Hv Hy Hx He. apply (near_mono_valid ts sha256 m0 v v') in Hnear; [|done|done]. destruct Hnear as [H1 H2 H3 H4 H5].
  split; [done|cbn; congruence|cbn; congruence|..]; unfold nd_children; cbn.
  - intros y [Hyn Hne]%lookup_insert_None. rewrite Hy by done. by apply H4.
  - intros y e' [[<- <-]|[Hne He']]%lookup_insert_Some; [by exists c|]. rewrite Hy by done. by apply H5.
Qed.

(** A new node without children. *)
Lemma near_leaf v m q val : m !! q = Some val → (∀ y, top m (q ++ [y]) = None) → near v m q (setValue sha256 (newNode (tkey q)) (Some val)).
Proof. intros Hv Ht. split; cbn; [done|by rewrite Hv|by rewrite Hv|done|]. intros x e He. unfold nd_children in He. cbn in He. by rewrite lookup_empty in He. Qed.

(** ** The cases *)

Section cases.
Context (v : view) (m : tmap) (x : option (list Z)) (k p : list Z) (l : loc) (val : bytes) (Han : at_node v m x k p l).
Let m' := <[k := val]> m.

Lemma case_fresh l' : is_Some (v_heap v !! l') → (l' < v_next v)%nat.
Proof. apply (iv_fresh _ _ _ _ _ _ (an_inv _ _ _ _ _ _ Han)). Qed.

Lemma case_key_new : p ≠ k → ¬ nodeX m x k.
Proof.
  intros Hne Hx. apply Hne. apply prefix_antisym; [by eapply an_prefix|]. by eapply an_nodeX.
Qed.

Lemma case_loc : (l < v_next v)%nat.
Proof.
  destruct (iv_live _ _ _ _ _ _ (an_inv _ _ _ _ _ _ Han) p l (an_vtoks _ _ _ _ _ _ Han) (an_live _ _ _ _ _ _ Han)) as (_ & n & Hn & _).
  apply case_fresh. by eexists.
Qed.

Lemma insert_at_value (Q : loc → view → Prop) :
  p = k → (∀ l v', Inv v' m' None → Q l v') → wp (insert_at tokenSize sha256 T (tkey k) (Some val) l) v Q.
Proof.
  pose proof case_loc as Hll. pose proof case_fresh as Hfr. intros -> HQ. pose proof (an_inv _ _ _ _ _ _ Han) as HI. pose proof (an_key _ _ _ _ _ _ Han) as Hk. pose proof (an_live _ _ _ _ _ _ Han) as Hlive. pose proof (iv_valid _ _ _ _ _ _ HI) as Hval.
  destruct (iv_live _ _ _ _ _ _ HI k l Hk Hlive) as (HX & n & Hn & Hnear). unfold insert_at. vderef. rewrite decide_True by apply (nr_key _ _ _ _ _ _ _ Hnear).
  vbind. apply wp_store, wp_ret, HQ. set (v' := set_heap _ _ _). destruct Hlive as (ch & Hch & Ha).
  assert (near v' m' k (setValue sha256 n (Some val))) as Hnear'.
  { destruct Hnear as [H1 H2 H3 H4 H5]. assert (∀ y, top m' (k ++ [y]) = top m (k ++ [y])) as Ht.
    { intros y. unfold m'. rewrite top_insert, decide_False; [done|apply not_prefix_snoc]. }
    split; cbn; [done|unfold m'; by rewrite lookup_insert_eq|unfold m'; by rewrite lookup_insert_eq|intros y Hy; rewrite Ht; by apply H4|intros y e He; rewrite Ht; by apply H5]. }
  apply (Insert_update v m x k k l val v' [k] Han); try done.
  - apply (iv_applied _ _ _ _ _ _ HI).
  - intros l' [n' Hn']. cbn in Hn'. apply lookup_insert_Some in Hn' as [[<- _]|[_ Hn']]; [done|apply Hfr; by eexists].
  - intros l' n' Hne Hn'. cbn. by rewrite lookup_insert_ne.
  - by left.
  - left.
  - by exists ch.
  - intros q ->%list_elem_of_singleton. split; [done|]. split; [done|]. split; [apply key_is_node; unfold m'; by rewrite lookup_insert_eq|].
    exists ch, l, (setValue sha256 n (Some val)). split; [done|]. split; [by unfold old_before; rewrite Hch|]. split; [done|]. split; [cbn; by rewrite lookup_insert_eq|done].
  - intros q Hq. destruct (insert_nodes m k val k q) as [|[->|[->|(y & c & Hy & _)]]]; [apply (an_closest _ _ _ _ _ _ Han)|done|by left|right; left|right; left|]. by apply not_prefix_snoc in Hy.
Qed.

Lemma insert_at_leaf y (Q : loc → view → Prop) :
  p ≠ k → k !! length p = Some y → top m (p ++ [y]) = None → (∀ l v', Inv v' m' None → Q l v') → wp (insert_at tokenSize sha256 T (tkey k) (Some val) l) v Q.
Proof.
  intros Hne Hy Hnone HQ. pose proof (an_inv _ _ _ _ _ _ Han) as HI. pose proof (an_key _ _ _ _ _ _ Han) as Hk. pose proof (an_live _ _ _ _ _ _ Han) as Hlive. pose proof (iv_valid _ _ _ _ _ _ HI) as Hval.
  pose proof (an_vtoks _ _ _ _ _ _ Han) as Hvp. pose proof (an_prefix _ _ _ _ _ _ Han) as Hpk. pose proof (an_closest _ _ _ _ _ _ Han) as Hcl.
  assert ((p ++ [y]) `prefix_of` k) as Hpy by (by apply prefix_next_iff).
  destruct (iv_live _ _ _ _ _ _ HI p l Hvp Hlive) as (HX & n & Hn & Hnear). unfold insert_at. vderef. rewrite (nr_key _ _ _ _ _ _ _ Hnear).
  rewrite decide_False by (intros H; apply Hne; by apply (token_key_inj ts)). rewrite token_key_length by done. pose proof (lookup_lt_Some _ _ _ Hy) as Hlt.
  vlift; [by rewrite token_key_Token|]. destruct (nd_children n !! y) as [e|] eqn:Ee; [destruct (nr_some _ _ _ _ _ _ _ Hnear y e Ee) as (c & Hc & _); congruence|].
  set (leaf := setValue sha256 (newNode (tkey k)) (Some val)). set (e := mkChild (tkey (drop (S (length p)) k)) Empty (hasValue leaf)).
  vbind. eapply wp_update; [done|apply (addChild_spec n leaf Empty p y k); [done|apply (nr_key _ _ _ _ _ _ _ Hnear)|done|done]|]. fold e.
  vbind. apply wp_alloc. vbind. eapply wp_recordNewNode; [apply (iv_applied _ _ _ _ _ _ HI)|cbn; by rewrite lookup_insert_eq|]. apply wp_ret, HQ. cbn [v_next set_heap].
  set (v' := set_nodes _ _). pose proof case_loc as Hll.
  assert (∀ q, vtoks ts q → v_nodes v' !! tkey q = if decide (q = k) then Some (mkNodeChange (old_before v (tkey k)) (Some (v_next v))) else v_nodes v !! tkey q) as Hlook.
  { intros q Hq. exact (insert_node_lookup ts v k q _ Hk Hq). }
  assert (changed v' k) as Hck by (unfold MerkleInv.changed; rewrite Hlook by done; by rewrite decide_True).
  assert (∀ c, vtoks ts c → changed v c → changed v' c) as Hmono.
  { intros c Hc Hcc. unfold MerkleInv.changed in *. rewrite Hlook by done. by case_decide. }
  assert (near v' m' p (setChildEntry n y e)) as Hnear'.
  { eapply (near_setChild v v' m m' p n y k e); [done|done|done|unfold m'; by rewrite lookup_insert_ne| | |].
    - intros z Hz. unfold m'. rewrite top_insert, decide_False; [done|]. intros [_ Hz']%prefix_next_inv. congruence.
    - unfold m'. by rewrite top_insert, decide_True, Hnone.
    - split; [done|]. intros Hnc. by destruct Hnc. }
  destruct Hlive as (ch & Hch & Ha).
  apply (Insert_update v m x k p l val v' [p; k] Han); try done.
  - apply (iv_applied _ _ _ _ _ _ HI).
  - intros l' [n' Hn']. cbn in *. apply lookup_insert_Some in Hn' as [[<- _]|[_ Hn']]; [lia|]. apply lookup_insert_Some in Hn' as [[<- _]|[_ Hn']]; [lia|].
    pose proof (case_fresh l' ltac:(by eexists)). lia.
  - intros l' n' Hl' Hn'. cbn. pose proof (case_fresh l' ltac:(by eexists)). rewrite !lookup_insert_ne by (done || lia). done.
  - intros key [ch' Hch']. cbn in Hch'. apply lookup_insert_Some in Hch' as [[<- _]|[_ Hch']]; [right; exists k; split; [set_solver|done]|left; by eexists].
  - intros q Hq Hin. rewrite Hlook by done. rewrite decide_False; [done|]. intros ->. set_solver.
  - left.
  - exists ch. by rewrite Hlook, decide_False by done.
  - intros q [->|[->|[]%elem_of_nil]%elem_of_cons]%elem_of_cons.
    + split; [done|]. split; [done|]. split; [by apply insert_new_root|]. exists ch, l, (setChildEntry n y e). split; [by rewrite Hlook, decide_False by done|].
      split; [by unfold old_before; rewrite Hch|]. split; [done|]. split; [cbn; rewrite lookup_insert_ne by lia; by rewrite lookup_insert_eq|done].
    + split; [done|]. split; [intros _; by apply case_key_new|]. split; [apply key_is_node; unfold m'; by rewrite lookup_insert_eq|].
      eexists _, (v_next v), leaf. split; [rewrite Hlook, decide_True by done; done|]. split; [done|]. split; [done|]. split; [cbn; by rewrite lookup_insert_eq|].
      apply near_leaf; [unfold m'; by rewrite lookup_insert_eq|]. intros z. apply (leaf_children m k val p y z Hcl Hpy). intros c. by rewrite Hnone.
  - intros q Hq. destruct (insert_nodes m k val p q Hcl Hq) as [|[->|[->|(z & c & Hz & Hc & _)]]]; [by left|right; set_solver|right; set_solver|].
    apply prefix_next_inv in Hz as [_ Hz]. assert (z = y) as -> by congruence. congruence.
Qed.

(** The branch [b] between [p] and its child [c]. *)
Section branch.
Context (y : Z) (c : list Z) (n : node) (e : child).
Context (Hy : k !! length p = Some y) (Hc : top m (p ++ [y]) = Some c) (Hn : v_heap v !! l = Some n) (Hnear : near v m p n) (He : nd_children n !! y = Some e).
Let b := lcp c k.

Lemma branch_entry : entry_ok ts sha256 m0 v p c e.
Proof. destruct (nr_some _ _ _ _ _ _ _ Hnear y e He) as (c' & Hc' & Hok). by simplify_eq. Qed.

Lemma branch_facts :
  (p ++ [y]) `prefix_of` k ∧ (p ++ [y]) `prefix_of` b ∧ (length b < length c)%nat ∧ vtoks ts c ∧ vtoks ts b ∧ ¬ is_node m b ∧ p ≠ k ∧ b ≠ p ∧ ¬ nodeX m x b.
Proof.
  pose proof (an_closest _ _ _ _ _ _ Han) as Hcl. pose proof (an_prefix _ _ _ _ _ _ Han) as Hpk. pose proof (iv_valid _ _ _ _ _ _ (an_inv _ _ _ _ _ _ Han)) as Hval.
  assert ((p ++ [y]) `prefix_of` k) as Hpy by (by apply prefix_next_iff). destruct (branch_spec m k p y c Hcl Hpy Hc) as (Hb & Hne & _ & Hnn). fold b in Hb, Hne, Hnn.
  assert (vtoks ts c) as Hvc by (by eapply top_vtoks). assert (b ≠ p) as Hbp by (intros E; rewrite E in Hb; by apply not_prefix_snoc in Hb).
  split_and!; [done|done| |done|eapply vtoks_prefix; [apply lcp_l|done]|done|intros ->; by apply not_prefix_snoc in Hpy|done|].
  - destruct (decide (length b < length c)%nat); [done|]. destruct Hne. apply prefix_eq_length; [apply lcp_l|lia].
  - intros [|Hx]; [done|]. destruct (an_extra _ _ _ _ _ _ Han) as [[? _]|[? _]]; [congruence|by simplify_eq].
Qed.

(** The common part of the compressed key of the child and the rest of the key. *)
Lemma branch_common :
  getLengthOfCommonPrefix tokenSize (ch_compressedKey e) (tkey k) (tokenSize * Z.of_nat (length p) + tokenSize) = Some (tokenSize * Z.of_nat (length b - S (length p))) ∧
  k_length (ch_compressedKey e) = tokenSize * Z.of_nat (length c - S (length p)) ∧
  Take (tkey k) (tokenSize * Z.of_nat (length p) + tokenSize + tokenSize * Z.of_nat (length b - S (length p))) = Some (tkey b) ∧
  Token (ch_compressedKey e) (tokenSize * Z.of_nat (length b - S (length p))) tokenSize = c !! length b ∧
  Skip (ch_compressedKey e) (tokenSize * Z.of_nat (length b - S (length p)) + tokenSize) = Some (tkey (drop (S (length b)) c)).
Proof.
  destruct branch_facts as (Hpy & Hpb & Hlb & Hvc & Hvb & _). pose proof (an_key _ _ _ _ _ _ Han) as Hk. destruct branch_entry as [-> _].
  assert ((p ++ [y]) `prefix_of` c) as Hpc by (by eapply top_above). assert (length (p ++ [y]) = S (length p)) as Hlp by (rewrite length_app; simpl; lia).
  assert (S (length p) ≤ length b)%nat as Hle by (rewrite <- Hlp; by apply prefix_length). pose proof (prefix_length _ _ Hpy) as Hlk.
  assert (length (lcp (drop (S (length p)) c) (drop (S (length p)) k)) = (length b - S (length p))%nat) as Hcommon.
  { unfold b. rewrite (prefix_split _ _ Hpc) at 2. rewrite (prefix_split _ _ Hpy) at 2. rewrite lcp_app, length_app, Hlp. lia. }
  replace (tokenSize * Z.of_nat (length p) + tokenSize) with (tokenSize * Z.of_nat (S (length p))) by lia.
  assert (vtoks ts (drop (S (length p)) c)) as Hvd by (by apply vtoks_drop). split_and!.
  - rewrite getLengthOfCommonPrefix_spec by (done || lia). by rewrite Hcommon.
  - rewrite token_key_length by done. by rewrite length_drop.
  - rewrite <- Z.mul_add_distr_l, <- Nat2Z.inj_add, token_key_Take by done. replace (S (length p) + (length b - S (length p)))%nat with (length b) by lia.
    do 2 f_equal. symmetry. apply prefix_take, lcp_r.
  - rewrite token_key_Token by (done || rewrite length_drop; lia). rewrite lookup_drop. f_equal. lia.
  - replace (tokenSize * Z.of_nat (length b - S (length p)) + tokenSize) with (tokenSize * Z.of_nat (S (length b - S (length p)))) by lia.
    rewrite token_key_Skip, drop_drop by done. do 3 f_equal. lia.
Qed.

(** The entries of the closest node and of the branch. *)
Let e_branch : child := mkChild (tkey (drop (S (length p)) b)) Empty false.
Let e_child : child := mkChild (tkey (drop (S (length b)) c)) (ch_id e) (ch_hasValue e).

Lemma near_closest v' : (∀ c, vtoks ts c → changed v c → changed v' c) → changed v' b → near v' m' p (setChildEntry n y e_branch).
Proof.
  intros Hmono Hcb. destruct branch_facts as (Hpy & _ & _ & _ & _ & _ & Hpk & _). eapply (near_setChild v v' m m' p n y b); [apply (iv_valid _ _ _ _ _ _ (an_inv _ _ _ _ _ _ Han))|done|done|unfold m'; by rewrite lookup_insert_ne| | |].
  - intros z Hz. unfold m'. rewrite top_insert, decide_False; [done|]. intros [_ Hz']%prefix_next_inv. congruence.
  - unfold m'. by rewrite top_insert, decide_True, Hc.
  - split; [done|]. intros Hnc. by destruct Hnc.
Qed.

Lemma near_branch v' bn z :
  (∀ c, vtoks ts c → changed v c → changed v' c) → c !! length b = Some z → n_key bn = tkey b → nd_value bn = m' !! b → n_valueDigest bn = valueDigest sha256 (m' !! b) →
  (∀ y', y' ≠ z → nd_children bn !! y' = if decide (k !! length b = Some y') then Some (mkChild (tkey (drop (S (length b)) k)) Empty true) else None) → changed v' k →
  near v' m' b (setChildEntry bn z e_child).
Proof.
  intros Hmono Hz Hkey Hval Hdig Hch Hck. destruct branch_facts as (Hpy & _ & _ & Hvc & _). pose proof (an_closest _ _ _ _ _ _ Han) as Hcl.
  pose proof (λ y', branch_children m k val p y c y' Hcl Hpy Hc) as Ht. fold b in Ht. cbn in Ht. fold m' in Ht.
  split; [done|done|done|..]; unfold nd_children; cbn.
  - intros y' [Hy' Hne]%lookup_insert_None. rewrite Ht, Hz, decide_False by congruence. fold (nd_children bn) in Hy'. rewrite (Hch y') in Hy' by done. by case_decide.
  - intros y' e' [[<- <-]|[Hne He']]%lookup_insert_Some.
    + exists c. rewrite Ht, decide_True by done. split; [done|]. split; [done|]. destruct branch_entry as [_ Hid]. intros Hnc. apply Hid. intros Hcc. by apply Hnc, Hmono.
    + fold (nd_children bn) in He'. rewrite (Hch y') in He' by done. case_decide as Hky; [|done]. injection He' as <-. exists k. rewrite Ht, decide_False, decide_True by congruence.
      split; [done|]. split; [done|]. intros Hnc. by destruct Hnc.
Qed.

Lemma branch_nodes q : is_node m' q → is_node m q ∨ q ∈ [p; b; k].
Proof.
  intros Hq. destruct (insert_nodes m k val p q (an_closest _ _ _ _ _ _ Han) Hq) as [|[->|[->|(z & c' & Hz & Hc' & ->)]]]; [by left|right; set_solver|right; set_solver|].
  apply prefix_next_inv in Hz as [_ Hz]. assert (z = y) as -> by congruence. simplify_eq. right. fold b. set_solver.
Qed.

(** The state after a branch with the value of [k] on it. *)
Lemma branch_update v' U (la lb : loc) nb :
  v_applied v' = false → v_root v' = v_root v → (∀ l', is_Some (v_heap v' !! l') → (l' < v_next v')%nat) →
  (∀ l' n, l' ≠ l → v_heap v !! l' = Some n → v_heap v' !! l' = Some n) →
  (∀ key : Key, is_Some (v_nodes v' !! key) → is_Some (v_nodes v !! key) ∨ ∃ q, q ∈ U ∧ key = tkey q) →
  U = [p; b; k] →
  (∀ q, vtoks ts q → v_nodes v' !! tkey q = if decide (q = b) then Some (mkNodeChange (old_before v (tkey b)) (Some lb)) else
     if decide (q = k) then Some (mkNodeChange (old_before v (tkey k)) (Some la)) else v_nodes v !! tkey q) →
  v_heap v' !! l = Some (setChildEntry n y e_branch) → v_heap v' !! lb = Some nb → near v' m' b nb →
  (b ≠ k → v_heap v' !! la = Some (setValue sha256 (newNode (tkey k)) (Some val))) → Inv v' m' None.
Proof.
  intros Happ Hroot Hfresh Hheap Hkeys HU Hlook Hlp Hlb Hnb Hla. destruct branch_facts as (Hpy & Hpb & Hlen & Hvc & Hvb & Hnn & Hpk & Hbp & HbX).
  pose proof (an_closest _ _ _ _ _ _ Han) as Hcl. pose proof (an_vtoks _ _ _ _ _ _ Han) as Hvp. pose proof (an_key _ _ _ _ _ _ Han) as Hk.
  assert (∀ c, vtoks ts c → changed v c → changed v' c) as Hmono.
  { intros c' Hc' Hcc. unfold MerkleInv.changed in *. rewrite Hlook by done. by repeat case_decide. }
  assert (changed v' b) as Hcb by (unfold MerkleInv.changed; rewrite Hlook by done; by rewrite decide_True).
  destruct (an_live _ _ _ _ _ _ Han) as (ch & Hch & Ha). assert (v_nodes v' !! tkey p = Some ch) as Hchp by (rewrite Hlook by done; by rewrite !decide_False by congruence).
  apply (Insert_update v m x k p l val v' U Han); try done.
  - intros q Hq Hin. rewrite Hlook by done. rewrite !decide_False; [done|..]; intros ->; set_solver.
  - set_solver.
  - by exists ch.
  - intros q Hin. assert (q = p ∨ q = b ∨ (q = k ∧ q ≠ b)) as [->|[->|[-> Hne]]] by (destruct (decide (q = b)); set_solver).
    + split; [by eapply an_prefix|]. split; [done|]. split; [by apply insert_new_root|]. exists ch, l, (setChildEntry n y e_branch).
      split; [done|]. split; [by unfold old_before; rewrite Hch|]. split; [done|]. split; [done|]. by apply near_closest.
    + split; [apply lcp_r|]. split; [done|]. split.
      { unfold is_node, m'. rewrite top_insert, decide_True by apply lcp_r. destruct (branch_spec m k p y c Hcl Hpy Hc) as (_ & _ & Ht & _). unfold b. by rewrite Ht. }
      eexists _, lb, nb. split; [rewrite Hlook by done; by rewrite decide_True|]. done.
    + split; [done|]. split; [intros _; by apply case_key_new|]. split; [apply key_is_node; unfold m'; by rewrite lookup_insert_eq|].
      eexists _, la, _. split; [rewrite Hlook by done; rewrite decide_False, decide_True by done; done|]. split; [done|]. split; [done|]. split; [by apply Hla|].
      apply near_leaf; [unfold m'; by rewrite lookup_insert_eq|]. intros z. apply (leaf_children m k val p y z Hcl Hpy). intros c' Hc'. assert (c' = c) as -> by congruence. by fold b.
  - intros q Hq. rewrite HU. by apply branch_nodes.
Qed.

Lemma insert_branch_spec (Q : loc → view → Prop) :
  (∀ l v', Inv v' m' None → Q l v') → wp (insert_branch tokenSize sha256 T (tkey k) (Some val) l e) v Q.
Proof.
  intros HQ. destruct branch_facts as (Hpy & Hpb & Hlen & Hvc & Hvb & Hnn & Hpk & Hbp & HbX). destruct branch_common as (H1 & H2 & H3 & H4 & H5).
  pose proof (an_inv _ _ _ _ _ _ Han) as HI. pose proof (an_vtoks _ _ _ _ _ _ Han) as Hvp. pose proof (an_key _ _ _ _ _ _ Han) as Hk. pose proof case_loc as Hll. pose proof case_fresh as Hfr.
  pose proof (iv_applied _ _ _ _ _ _ HI) as Happ. pose proof (ts_pos ts) as Hpos. assert (length b ≤ length k)%nat as Hbk by (apply prefix_length, lcp_r).
  pose proof (prefix_length _ _ Hpb) as Hlpb. rewrite length_app in Hlpb. simpl in Hlpb.
  unfold insert_branch. vderef. cbv zeta. rewrite (nr_key _ _ _ _ _ _ _ Hnear), !(token_key_length ts p) by done. vlift; [exact H1|]. rewrite H2.
  rewrite (proj2 (Z.leb_gt _ _)) by nia. vlift; [exact H3|]. vbind. eapply wp_update; [done|apply (addChild_spec n (newNode (tkey b)) Empty p y b); [done|apply (nr_key _ _ _ _ _ _ _ Hnear)|done|done]|].
  change (mkChild (tkey (drop (S (length p)) b)) Empty (hasValue (newNode (tkey b)))) with e_branch. rewrite !token_key_length by done.
  destruct (lookup_lt_is_Some_2 c (length b) Hlen) as [z Hz]. vbind. destruct (decide (b = k)) as [Ebk|Ebk].
  - rewrite (proj2 (Z.eqb_eq _ _)) by (rewrite Ebk; done). vbind. apply wp_alloc, wp_ret. cbv beta iota zeta.
    vlift; [rewrite H4; done|]. vlift; [exact H5|]. fold e_child. vbind. eapply wp_update; [cbn; by rewrite lookup_insert_eq|done|].
    vbind. eapply wp_recordNewNode; [done|cbn; by rewrite lookup_insert_eq|]. apply wp_ret, HQ. cbn [v_next set_heap].
    set (nb := setChildEntry _ z e_child). set (v' := set_nodes _ _).
    assert (∀ q, vtoks ts q → v_nodes v' !! tkey q = if decide (q = b) then Some (mkNodeChange (old_before v (tkey b)) (Some (v_next v))) else v_nodes v !! tkey q) as Hlook.
    { intros q Hq. exact (insert_node_lookup ts v b q _ Hvb Hq). }
    assert (∀ c, vtoks ts c → changed v c → changed v' c) as Hmono by (intros c' Hc' Hcc; unfold MerkleInv.changed in *; rewrite Hlook by done; by case_decide).
    apply (branch_update v' [p; b; k] O (v_next v) nb); try done.
    + intros l' [n' Hn']. cbn in *. rewrite !lookup_insert_Some in Hn'. destruct Hn' as [[<- _]|[_ [[<- _]|[_ [[<- _]|[_ Hn']]]]]]; [lia|lia|lia|]. pose proof (Hfr l' ltac:(by eexists)). lia.
    + intros l' n' Hl' Hn'. pose proof (Hfr l' ltac:(by eexists)). cbn. by rewrite !lookup_insert_ne by (done || lia).
    + intros key [ch' Hch']. cbn in Hch'. apply lookup_insert_Some in Hch' as [[<- _]|[_ Hch']]; [right; exists b; split; [set_solver|done]|left; by eexists].
    + intros q Hq. rewrite Hlook by done. repeat case_decide; try done. congruence.
    + cbn. rewrite !lookup_insert_ne by lia. by rewrite lookup_insert_eq.
    + cbn. by rewrite lookup_insert_eq.
    + eapply near_branch; [done|done|done|unfold m'; by rewrite Ebk, lookup_insert_eq|unfold m'; by rewrite Ebk, lookup_insert_eq| |].
      * intros y' _. unfold nd_children. cbn. rewrite lookup_empty, decide_False; [done|]. rewrite Ebk, lookup_ge_None_2 by lia. done.
      * unfold MerkleInv.changed. rewrite Hlook by done. by rewrite decide_True.
  - assert (length b < length k)%nat as Hbk' by (destruct (decide (length b < length k)%nat); [done|]; destruct Ebk; apply prefix_eq_length; [apply lcp_r|lia]).
    rewrite (proj2 (Z.eqb_neq _ _)) by nia. destruct (lookup_lt_is_Some_2 k (length b) Hbk') as [z' Hz'].
    set (leaf := setValue sha256 (newNode (tkey k)) (Some val)). vlift.
    { apply (addChild_spec (newNode (tkey b)) leaf Empty b z' k); [done|done|done|]. apply prefix_next_iff. split; [apply lcp_r|done]. }
    change (hasValue leaf) with true. set (ek := mkChild _ Empty true). vbind. apply wp_alloc. vbind. apply wp_alloc. vbind. eapply wp_recordNewNode; [done|cbn; by rewrite lookup_insert_eq|].
    apply wp_ret. cbv beta iota zeta. vlift; [rewrite H4; done|]. vlift; [exact H5|]. fold e_child. vbind.
    eapply wp_update; [cbn; rewrite lookup_insert_ne by lia; by rewrite lookup_insert_eq|done|].
    vbind. eapply wp_recordNewNode; [done|cbn; by rewrite lookup_insert_eq|]. apply wp_ret, HQ. cbn [v_next set_heap set_nodes].
    set (nb := setChildEntry _ z e_child). set (v' := set_nodes _ _).
    assert (∀ q, vtoks ts q → v_nodes v' !! tkey q = if decide (q = b) then Some (mkNodeChange (old_before v (tkey b)) (Some (v_next v))) else
      if decide (q = k) then Some (mkNodeChange (old_before v (tkey k)) (Some (S (v_next v)))) else v_nodes v !! tkey q) as Hlook.
    { intros q Hq. unfold v'. cbn [v_nodes set_nodes set_heap]. change (n_key nb) with (tkey b). change (n_key leaf) with (tkey k).
      assert (∀ ns : gmap Key node_change, ∀ a ch, vtoks ts a → <[tkey a := ch]> ns !! tkey q = if decide (q = a) then Some ch else ns !! tkey q) as Hins.
      { intros ns a ch Ha. case_decide as Hd; [subst; by rewrite lookup_insert_eq|]. rewrite lookup_insert_ne; [done|]. intros E. apply Hd. symmetry. by apply (token_key_inj ts). }
      rewrite !Hins by done. case_decide; [|done]. do 2 f_equal. unfold old_before. cbn [v_nodes set_nodes set_heap]. rewrite lookup_insert_ne; [done|]. intros E. apply Ebk. symmetry. by apply (token_key_inj ts). }
    assert (∀ c, vtoks ts c → changed v c → changed v' c) as Hmono by (intros c' Hc' Hcc; unfold MerkleInv.changed in *; rewrite Hlook by done; by repeat case_decide).
    apply (branch_update v' [p; b; k] (S (v_next v)) (v_next v) nb); try done.
    + intros l' [n' Hn']. cbn in *. rewrite !lookup_insert_Some in Hn'. destruct Hn' as [[<- _]|[_ [[<- _]|[_ [[<- _]|[_ [[<- _]|[_ Hn']]]]]]]]; [lia|lia|lia|lia|]. pose proof (Hfr l' ltac:(by eexists)). lia.
    + intros l' n' Hl' Hn'. pose proof (Hfr l' ltac:(by eexists)). cbn. by rewrite !lookup_insert_ne by (done || lia).
    + intros key [ch' Hch']. cbn in Hch'. rewrite !lookup_insert_Some in Hch'. destruct Hch' as [[<- _]|[_ [[<- _]|[_ Hch']]]]; [right; exists b; split; [set_solver|done]|right; exists k; split; [set_solver|done]|left; by eexists].
    + cbn. rewrite !lookup_insert_ne by lia. by rewrite lookup_insert_eq.
    + cbn. by rewrite lookup_insert_eq.
    + assert (m' !! b = None) as Hmb.
      { unfold m'. rewrite lookup_insert_ne by done. destruct (m !! b) eqn:E; [|done]. destruct Hnn. apply key_is_node. by eexists. }
      eapply near_branch; [done|done|done|by rewrite Hmb|by rewrite Hmb| |].
      * intros y' _. unfold nd_children. cbn. rewrite Hz'. destruct (decide (Some z' = Some y')) as [[= ->]|Hne]; [by rewrite lookup_insert_eq|]. rewrite lookup_insert_ne by congruence. apply lookup_empty.
      * unfold MerkleInv.changed. rewrite Hlook by done. by repeat case_decide.
    + intros _. cbn. rewrite lookup_insert_ne by lia. by rewrite lookup_insert_eq.
Qed.
End branch.
End cases.

Lemma insert_at_spec v m x k p l val (Q : loc → view → Prop) :
  at_node v m x k p l → (∀ l v', Inv v' (<[k := val]> m) None → Q l v') → wp (insert_at tokenSize sha256 T (tkey k) (Some val) l) v Q.
Proof.
  intros Han HQ. destruct (decide (p = k)) as [Hpk|Hne]; [by eapply (insert_at_value v m x k p)|].
  destruct (prefix_next p k (an_prefix _ _ _ _ _ _ Han) Hne) as (y & Hy & Hpy). destruct (top m (p ++ [y])) as [c|] eqn:Hc; [|by eapply (insert_at_leaf v m x k p l val Han y)].
  pose proof (an_inv _ _ _ _ _ _ Han) as HI. pose proof (an_vtoks _ _ _ _ _ _ Han) as Hvp. pose proof (an_key _ _ _ _ _ _ Han) as Hk.
  destruct (iv_live _ _ _ _ _ _ HI p l Hvp (an_live _ _ _ _ _ _ Han)) as (HX & n & Hn & Hnear). unfold insert_at. vderef. rewrite (nr_key _ _ _ _ _ _ _ Hnear).
  rewrite decide_False by (intros H; apply Hne; by apply (token_key_inj ts)). rewrite token_key_length by done. pose proof (lookup_lt_Some _ _ _ Hy) as Hlt.
  vlift; [by rewrite token_key_Token|]. destruct (nd_children n !! y) as [e|] eqn:Ee; [|by rewrite (nr_none _ _ _ _ _ _ _ Hnear y Ee) in Hc].
  by eapply (insert_branch_spec v m x k p l val Han y c n e).
Qed.

(** ** A new root *)

Lemma insert_root_spec v m k r (Q : loc → view → Prop) :
  Inv v m None → vtoks ts k → top m [] = Some r → ¬ r `prefix_of` k →
  (∀ l v', at_node v' m (Some (lcp r k)) k (lcp r k) l → Q l v') → wp (insert_root tokenSize sha256 T (tkey k)) v Q.
Proof.
  intros HI Hk Hr Hrk HQ. set (b := lcp r k). pose proof (iv_valid _ _ _ _ _ _ HI) as Hval. pose proof (iv_applied _ _ _ _ _ _ HI) as Happ.
  pose proof (iv_root _ _ _ _ _ _ HI) as Hroot. unfold insert_root. vget. destruct (v_root v) as [lr|] eqn:Elr.
  2:{ destruct Hroot as [-> _]. by rewrite top_empty_map in Hr. }
  destruct Hroot as (r' & n & Hvr & Hr' & Hn & Hnear & Hlr). cbn in Hr'. assert (r' = r) as -> by congruence. clear Hr'.
  assert (is_node m r) as Hrn by (by eapply top_node). assert (b `prefix_of` r) as Hbr by apply lcp_l. assert (b ≠ r) as Hbne by (intros E; apply Hrk; rewrite <- E; apply lcp_r).
  assert (vtoks ts b) as Hvb by (by eapply vtoks_prefix). destruct (prefix_next b r Hbr Hbne) as (y & Hy & Hby).
  assert (∀ q, is_node m q → ¬ q `prefix_of` k) as Hoff by (intros q Hq Hqk; apply Hrk; etrans; [by apply (root_prefix m)|done]).
  assert (¬ is_node m b) as Hbn by (intros Hb; apply (Hoff b Hb), lcp_r).
  vbind. eapply wp_lift; [done|]. vderef. rewrite (nr_key _ _ _ _ _ _ _ Hnear). vlift.
  { pose proof (getLengthOfCommonPrefix_spec ts r k 0 Hvr Hk ltac:(lia)) as H. rewrite Z.mul_0_r, drop_0 in H. exact H. }
  fold b. vlift; [by apply token_key_Take|]. rewrite <- (proj1 (prefix_take _ b r) Hbr).
  set (e := mkChild (tkey (drop (S (length b)) r)) (HashNode sha256 n) (hasValue n)). set (nb := setChildEntry (newNode (tkey b)) y e).
  vlift; [apply (addChild_spec (newNode (tkey b)) n _ b y r); [done|done|apply (nr_key _ _ _ _ _ _ _ Hnear)|done]|]. fold e. fold nb.
  vbind. apply wp_alloc. vbind. eapply wp_recordNewNode; [done|cbn; by rewrite lookup_insert_eq|]. vbind. apply wp_modify, wp_ret, HQ. clear HQ. fold b.
  set (v' := set_root _ _).
  assert (∀ q, vtoks ts q → v_nodes v' !! tkey q = if decide (q = b) then Some (mkNodeChange (old_before v (tkey b)) (Some (v_next v))) else v_nodes v !! tkey q) as Hlook.
  { intros q Hq. exact (insert_node_lookup ts v b q _ Hvb Hq). }
  assert (∀ c, vtoks ts c → changed v c → changed v' c) as Hmono by (intros c' Hc' Hcc; unfold MerkleInv.changed in *; rewrite Hlook by done; by case_decide).
  assert (live v' b (v_next v)) as Hlb by (eexists; split; [rewrite Hlook by done; by rewrite decide_True|done]).
  assert (top m b = Some r) as Htb by (exact (top_between m [] r b Hr (prefix_nil _) Hbr)).
  assert (near v' m b nb) as Hnb.
  { assert (m !! b = None) as Hmb by (destruct (m !! b) eqn:E; [|done]; destruct Hbn; apply key_is_node; by eexists).
    destruct (top_down m b r Htb Hbne) as (y' & Hy' & Hty & Hoth). assert (y' = y) as -> by congruence. split; cbn; [done|by rewrite Hmb|by rewrite Hmb|..]; unfold nd_children; cbn.
    - intros z [_ Hz]%lookup_insert_None. by apply Hoth.
    - intros z e' [[<- <-]|[_ He']]%lookup_insert_Some; [|by rewrite lookup_empty in He']. exists r. split; [done|]. split; [done|]. intros Hnc.
      assert (¬ changed v r) as Hncr by (intros Hc; by apply Hnc, Hmono). pose proof (near_unchanged ts sha256 T m0 HT v m None r n HI Hvr (or_introl Hrn) Hncr Hnear) as ->.
      destruct (iv_same _ _ _ _ _ _ HI r Hvr Hncr) as [Hiff _]. pose proof (proj1 Hiff (or_introl Hrn)) as Hr0. split; [|done]. symmetry. apply tid_unfold, node_under. done. }
  assert (Inv v' m (Some b)) as HI'.
  { apply (Inv_update ts sha256 m0 v m None v' m (Some b) [b] HI); try done.
    - intros l' [n' Hn']. cbn in *. apply lookup_insert_Some in Hn' as [[<- _]|[_ Hn']]; [lia|]. pose proof (iv_fresh _ _ _ _ _ _ HI l' ltac:(by eexists)). lia.
    - intros key [ch' Hch']. cbn in Hch'. apply lookup_insert_Some in Hch' as [[<- _]|[_ Hch']]; [right; exists b; split; [left|done]|left; by eexists].
    - intros q ->%list_elem_of_singleton. split; [done|]. eexists. split; [rewrite Hlook by done; by rewrite decide_True|]. split.
      { apply (old_before_ok v m None); [done|done|]. right. intros [|]; done. }
      cbn. split; [by right|]. split; [exists nb; split; [by rewrite lookup_insert_eq|done]|].
      intros p [Hp|[= <-]] Hpb; [|by eapply live_changed]. destruct (Hoff p Hp). etrans; [done|apply lcp_r].
    - intros q Hq Hin. rewrite Hlook by done. rewrite decide_False; [done|]. intros ->. apply Hin. left.
    - intros q Hq Hin. split; [intros [|[= <-]]; [by left|destruct Hin; left]|intros [|]; [by left|done]].
    - intros q l' n' Hq Hin Hl Hn' _. cbn. rewrite lookup_insert_ne; [done|]. pose proof (iv_fresh _ _ _ _ _ _ HI l' ltac:(by eexists)). lia.
    - cbn. exists b, nb. split_and!; [done|done|by rewrite lookup_insert_eq|done|done]. }
  split; [done|done| |done| |].
  - split; [apply lcp_r|]. split; [intros q Hq Hqk; by destruct (Hoff q Hq)|]. right. by exists r.
  - right. split; [done|]. by exists r.
  - intros q [Hq|[= <-]] Hqb; [|by eapply live_changed]. destruct (Hoff q Hq). etrans; [done|apply lcp_r].
Qed.

(** ** Insertion *)

(** The last node that was visited. *)
Lemma last_visited v r l (ps : list (list Z * loc)) (acc : option loc) :
  live v r l → Forall (λ e, live v e.1 e.2 ∧ e.1 `prefix_of` e.1) ps → ∃ l', foldl (λ _ l, Some l) acc (l :: ps.*2) = Some l' ∧ live v (chain_end r ps) l'.
Proof.
  revert r l acc. induction ps as [|[p lp] ps IH]; intros r l acc Hr Hps; [by exists l|]. inversion_clear Hps as [|?? [Hp _] Hps']. apply (IH p lp (Some l)); done.
Qed.

Lemma insert_spec v m k val (Q : loc → view → Prop) :
  Inv v m None → vtoks ts k → (∀ l v', Inv v' (<[k := val]> m) None → Q l v') → wp (insert tokenSize sha256 T (tkey k) (Some val)) v Q.
Proof.
  intros HI Hk HQ. pose proof (iv_applied _ _ _ _ _ _ HI) as Happ. unfold insert. vget. cbn [id]. rewrite Happ. destruct (v_root v) as [lr|] eqn:Elr.
  - vbind. eapply (visitPathToKey_spec ts sha256 T m0 HT (λ _ l, Some l) (visit_insert T)); [|done|done| | |].
    + intros acc l v1 Q1 H. unfold visit_insert. vbind. eapply wp_mono; [exact H|]. intros [] v2 H2. by apply wp_ret.
    + congruence.
    + intros r Hr Hrk. vbind. eapply insert_root_spec; [done|done|done|done|]. intros l v1 Han. by eapply insert_at_spec.
    + intros v1 r l ps HI1 _ Hr Hrk _ Hl _ Hps Hcl Hanc. destruct (last_visited v1 r l ps None) as (l' & -> & Hl'); [done|eapply Forall_impl; [done|]; naive_solver|].
      vbind. apply wp_ret. eapply insert_at_spec; [|done]. destruct Hcl as (H1 & H2 & H3). split; [done|done|done|done| |].
      * left. split; [done|]. destruct H3 as [|Hab]; [done|]. destruct (above_root_no_node m k _ r Hab); [by eapply top_node|done].
      * intros q [Hq|] Hqp; [|done]. by apply Hanc.
  - pose proof (iv_root _ _ _ _ _ _ HI) as Hroot. rewrite Elr in Hroot. destruct Hroot as [-> _].
    vbind. apply wp_alloc. vbind. apply wp_modify. vbind. eapply wp_recordNewNode; [done|cbn; by rewrite lookup_insert_eq|]. apply wp_ret, HQ. set (v' := set_nodes _ _).
    set (m' := <[k := val]> (∅ : tmap)). assert (∀ q, vtoks ts q → v_nodes v' !! tkey q = if decide (q = k) then Some (mkNodeChange (old_before v (tkey k)) (Some (v_next v))) else v_nodes v !! tkey q) as Hlook.
    { intros q Hq. exact (insert_node_lookup ts v k q _ Hk Hq). }
    assert (∀ q, top m' q = if decide (q `prefix_of` k) then Some k else None) as Htop by (intros q; unfold m'; by rewrite top_insert, top_empty_map).
    assert (∀ q, is_node m' q ↔ q = k) as Hnode by (intros q; unfold is_node; rewrite Htop; case_decide as Hd; split; [congruence|congruence|done|intros ->; by destruct Hd]).
    assert (near v' m' k (setValue sha256 (newNode (tkey k)) (Some val))) as Hnk.
    { apply near_leaf; [unfold m'; by rewrite lookup_insert_eq|]. intros z. rewrite Htop, decide_False; [done|]. apply not_prefix_snoc. }
    assert (∀ q, ¬ nodeX (∅ : tmap) None q) as Hno by (intros q [Hq|]; [|done]; unfold is_node in Hq; by rewrite top_empty_map in Hq).
    apply (Inv_update ts sha256 m0 v ∅ None v' m' None [k] HI); try done.
    + by apply valid_insert; [apply (iv_valid _ _ _ _ _ _ HI)|].
    + intros l' [n' Hn']. cbn in *. apply lookup_insert_Some in Hn' as [[<- _]|[_ Hn']]; [lia|]. pose proof (iv_fresh _ _ _ _ _ _ HI l' ltac:(by eexists)). lia.
    + intros key [ch' Hch']. cbn in Hch'. apply lookup_insert_Some in Hch' as [[<- _]|[_ Hch']]; [right; exists k; split; [left|done]|left; by eexists].
    + intros q ->%list_elem_of_singleton. split; [done|]. eexists. split; [rewrite Hlook by done; by rewrite decide_True|]. split; [apply (old_before_ok v ∅ None); [done|done|right; apply Hno]|].
      cbn. split; [left; by apply Hnode|]. split; [eexists; split; [by rewrite lookup_insert_eq|done]|]. intros p [->%Hnode|] Hpk; [|done].
      unfold MerkleInv.changed. rewrite Hlook by done. by rewrite decide_True.
    + intros q Hq Hin. rewrite Hlook by done. rewrite decide_False; [done|]. intros ->. apply Hin. left.
    + intros q Hq Hin. split; [intros [->%Hnode|]; [destruct Hin; left|done]|intros Hq'; by destruct (Hno q)].
    + intros q l' n' Hq Hin Hl Hn' _. cbn. rewrite lookup_insert_ne; [done|]. pose proof (iv_fresh _ _ _ _ _ _ HI l' ltac:(by eexists)). lia.
    + intros q Hq. by destruct (Hno q).
    + intros q Hq Hnc Hn0 k' Hqk. exfalso. assert (¬ changed v q) as Hnc0.
      { intros Hc. apply Hnc. unfold MerkleInv.changed in *. rewrite Hlook by done. by case_decide. }
      apply (Hno q). by apply (iv_same _ _ _ _ _ _ HI q Hq Hnc0).
    + cbn. exists k. eexists. split_and!; [done|rewrite Htop; by rewrite decide_True by apply prefix_nil|by rewrite lookup_insert_eq|done|].
      intros _. eexists. split; [rewrite Hlook by done; by rewrite decide_True|done].
Qed.
End Insert.
