(* ===== verification/MerkleRemove.v ===== *)
(** * Removing from a view

    [remove] leads from the trie of a map to the trie of the map without the key: the
    value is taken from its node; a node without children is taken from its parent, and
    a node that is left with one child and no value is replaced by the child
    ([remove_spec]). *)
From S2P Require Import Prelude Ids Bytes MerkleKey MerkleCodec MerkleTree MerkleView MerkleSpec MerkleInv MerkleInsert.

Section Remove.
Context (ts : nat) {Hts : token_size ts} (sha256 : bytes → ID) (T : Trie).
Context {RZ : MapRange Z}.
Abbreviation tokenSize := (Z.of_nat ts).
Abbreviation tmap := (gmap (list Z) bytes).
Abbreviation tkey := (token_key ts).
Context (m0 : tmap) (HT : represents ts sha256 T m0).
Abbreviation node0 := (cnode ts sha256 (tid ts sha256 m0) m0).
Abbreviation Inv := (Inv ts sha256 m0).
Abbreviation near := (near ts sha256 m0).
Abbreviation live := (live ts).
Abbreviation changed := (changed ts).
Implicit Types (v : view) (m : tmap) (q p k c r t g : list Z) (l : loc) (n : node).

(** ** The trie without a key *)

(** The nodes of the smaller map are nodes of the map. *)
Lemma delete_node_old m k q : is_node (delete k m) q → is_node m q.
Proof.
  unfold is_node. intros Hq. pose proof Hq as Hq'. rewrite top_delete in Hq'. destruct (top m q) as [s|] eqn:E; [|done]. cbn in Hq'.
  f_equal. apply prefix_antisym; [by eapply top_above|by eapply top_above].
Qed.

(** Where the trie changes: at the node of the key when it has children, else at its
    parent. *)
Definition change_at m k t : Prop := (t = k ∧ ∃ x, is_Some (top m (k ++ [x]))) ∨ (parent_node m t k ∧ ∀ x, top m (k ++ [x]) = None).

Section delete.
Context (m : tmap) (k t : list Z) (Hk : is_Some (m !! k)) (Ht : change_at m k t).
Let m' := delete k m.

Lemma change_node : is_node m t ∧ t `prefix_of` k.
Proof. destruct Ht as [[-> _]|[(H1 & H2 & _) _]]; [split; [by apply key_is_node|done]|done]. Qed.

Lemma delete_stays q : is_node m q → q ≠ t → q ≠ k → is_node m' q.
Proof.
  intros Hq Hqt Hqk. apply delete_node_stays; [done|done|]. intros x Hx. destruct Ht as [[-> (y & Hy)]|[Hp _]].
  - apply top_is_Some. apply top_is_Some in Hy as (k' & Hk' & Hyk). exists k'. apply under_delete. split.
    + intros ->. by apply not_prefix_snoc in Hyk.
    + split; [done|]. etrans; [by eapply top_above|]. by eapply prefix_snoc_l.
  - destruct Hqt. by eapply child_parent.
Qed.

Lemma delete_children q y : is_node m q → q ≠ t → q ≠ k → (∀ z, top m (q ++ [z]) = Some t → is_node m' t) → top m' (q ++ [y]) = top m (q ++ [y]).
Proof.
  intros Hq Hqt Hqk Hc. unfold m'. rewrite top_delete. fold m'. destruct (top m (q ++ [y])) as [c|] eqn:E; [|done]. cbn [mbind option_bind].
  destruct (top_child_node _ _ _ _ E) as (Hcn & _). destruct (decide (c = t)) as [->|Hct]; [by eapply Hc|]. apply delete_stays; [done|done|].
  intros ->. destruct Ht as [[-> _]|[Hp _]]; [done|]. destruct Hqt. by eapply child_parent.
Qed.

Lemma delete_key_gone : t ≠ k → ¬ is_node m' k.
Proof.
  intros Hne. destruct Ht as [[? _]|[_ Hx]]; [done|]. unfold is_node. unfold m'. rewrite top_none; [done|by rewrite lookup_delete_eq|].
  intros z. rewrite delete_child_other by apply not_prefix_snoc. apply Hx.
Qed.

(** The children of the place of the change. *)
Lemma change_children x y : k !! length t = Some x ∨ t = k → y ≠ x ∨ t = k → top m' (t ++ [y]) = top m (t ++ [y]).
Proof.
  intros Hx Hy. apply delete_child_other. intros [Htk Hyk]%prefix_next_inv. destruct Hy as [Hy| ->]; [|by apply lookup_lt_Some in Hyk; lia].
  destruct Hx as [Hx| ->]; [congruence|by apply lookup_lt_Some in Hyk; lia].
Qed.

Lemma change_removed x : t ≠ k → k !! length t = Some x → top m' (t ++ [x]) = None.
Proof.
  intros Hne Hx. destruct Ht as [[? _]|[Hp Hch]]; [done|]. assert (is_node m k) as Hkn by by apply key_is_node. destruct (parent_child m t k Hp Hkn) as (x' & Hx' & Hc).
  assert (x' = x) as -> by congruence. unfold m'. rewrite top_delete, Hc. cbn [mbind option_bind]. apply top_none; [by rewrite lookup_delete_eq|].
  intros z. rewrite delete_child_other by apply not_prefix_snoc. apply Hch.
Qed.

(** It is left with one child and no value. *)
Lemma change_compress y c : m' !! t = None → top m' (t ++ [y]) = Some c → (∀ z, z ≠ y → top m' (t ++ [z]) = None) → top m' t = Some c ∧ ¬ is_node m' t.
Proof.
  intros Hv Hy Hz. assert (top m' t = Some c) as Htop by (rewrite (top_single m' t y); done). split; [done|]. unfold is_node. rewrite Htop. intros [= ->].
  destruct (top_child_node _ _ _ _ Hy) as (_ & _ & Hl & _). lia.
Qed.

(** Or it stays a node. *)
Lemma change_stays : is_Some (m' !! t) ∨ (∃ y z, y ≠ z ∧ is_Some (top m' (t ++ [y])) ∧ is_Some (top m' (t ++ [z]))) → is_node m' t.
Proof. intros [H|(y & z & Hne & Hy & Hz)]; [by apply key_is_node|by eapply branch_is_node]. Qed.

(** At least one child is left. *)
Lemma change_some_child : m' !! t = None → ∃ y, is_Some (top m' (t ++ [y])).
Proof.
  intros Hv. pose proof change_children as Hcc. destruct Ht as [[E (x & Hx)]|[Hp Hch]].
  - exists x. rewrite (Hcc x x); [by rewrite E|by right|by right].
  - destruct Hp as (Hp & Htk & Hne & Hmax). destruct (prefix_next t k Htk Hne) as (x & Hx & _). destruct (node_cases m t Hp) as [Hv'|(y & z & Hyz & Hy & Hz)].
    { unfold m' in Hv. rewrite lookup_delete_ne in Hv by done. rewrite Hv in Hv'. by destruct Hv'. }
    destruct (decide (y = x)) as [->|Hyx]; [exists z|exists y]; rewrite (Hcc x); auto.
Qed.
End delete.

(** ** The invariant *)

(** The way to the key [k] is recorded. *)
Record on_path v m k : Prop := {
  op_inv : Inv v m None;
  op_key : vtoks ts k;
  op_some : is_Some (m !! k);
  op_path : ∀ q, is_node m q → q `prefix_of` k → changed v q;
}.

Lemma valid_delete m k : valid_map ts m → valid_map ts (delete k m).
Proof. intros Hm q [w Hw]. apply lookup_delete_Some in Hw as [_ Hw]. apply Hm. by eexists. Qed.

(** Two nodes are not at one place. *)
Lemma live_inj v m q p l : Inv v m None → vtoks ts q → vtoks ts p → live v q l → live v p l → q = p.
Proof.
  intros HI Hq Hp Hlq Hlp. destruct (iv_live _ _ _ _ _ _ HI q l Hq Hlq) as (_ & n & Hn & H). destruct (iv_live _ _ _ _ _ _ HI p l Hp Hlp) as (_ & n' & Hn' & H'). simplify_eq.
  apply (token_key_inj ts); [done|done|]. by rewrite <- (nr_key _ _ _ _ _ _ _ H), <- (nr_key _ _ _ _ _ _ _ H').
Qed.

(** The root of the new view: the old one, or another node. *)
Definition new_root v v' m m' : Prop :=
  (v_root v' = v_root v ∧ ∀ r, top m [] = Some r → is_node m' r) ∨
  (∃ c l n, v_root v' = Some l ∧ top m' [] = Some c ∧ v_heap v' !! l = Some n ∧ near v m' c n ∧ (changed v' c → live v' c l)) ∨
  (v_root v' = None ∧ m' = ∅).

(** The invariant after the nodes [U] on the way to [k] were changed or removed. *)
Lemma Remove_update v m k v' (U : list (list Z)) :
  let m' := delete k m in
  on_path v m k → v_applied v' = false → (∀ l, is_Some (v_heap v' !! l) → (l < v_next v')%nat) →
  (∀ l n, v_heap v !! l = Some n → (∀ q, q ∈ U → ¬ live v q l) → v_heap v' !! l = Some n) →
  (∀ key : Key, is_Some (v_nodes v' !! key) → is_Some (v_nodes v !! key)) →
  (∀ q, vtoks ts q → q ∉ U → v_nodes v' !! tkey q = v_nodes v !! tkey q) →
  (∀ q l, vtoks ts q → live v' q l → live v q l) → k ∈ U →
  (∀ q, q ∈ U → is_node m q ∧ q `prefix_of` k ∧ ∃ ch, v_nodes v' !! tkey q = Some ch ∧ nc_before ch = old_before v (tkey q) ∧
     match nc_after ch with Some l => is_node m' q ∧ ∃ n, v_heap v' !! l = Some n ∧ near v m' q n | None => ¬ is_node m' q end) →
  (∀ q, is_node m q → q ∉ U → is_node m' q ∧ ∀ y, top m' (q ++ [y]) = top m (q ++ [y])) →
  new_root v v' m m' → Inv v' m' None.
Proof.
  intros m' [HI Hk Hs Hpath] Happ Hfresh Hheap Hkeys Hnodes Hlive HkU HU Hkeep Hroot. pose proof (iv_valid _ _ _ _ _ _ HI) as Hval. pose proof (valid_delete m k Hval) as Hval'. fold m' in Hval'.
  assert (∀ q, vtoks ts q → changed v q → changed v' q) as Hmono.
  { intros q Hq Hc. destruct (decide (q ∈ U)) as [(_ & _ & ch & Hch & _)%HU|Hin]; [by exists ch|]. unfold MerkleInv.changed. by rewrite Hnodes. }
  assert (∀ q n, near v m' q n → near v' m' q n) as Hnm by (intros q n; by apply near_mono_valid).
  assert (∀ q, vtoks ts q → changed v' q → changed v q) as Hback by (intros q Hq; apply Hkeys).
  apply (Inv_update ts sha256 m0 v m None v' m' None U HI); try done.
  - intros key Hkey. left. by apply Hkeys.
  - intros q Hin. destruct (HU q Hin) as (Hq & Hqk & ch & Hch & Hb & Ha). assert (vtoks ts q) as Hvq by (by eapply vtoks_prefix). split; [done|]. exists ch. split; [done|].
    split; [rewrite Hb; apply (old_before_ok ts sha256 m0 v m None); [done|done|left; by apply Hpath]|]. destruct (nc_after ch) as [l|]; [|intros [|]; done].
    destruct Ha as (Hn' & n & Hn & Hnear). split; [by left|]. split; [exists n; eauto|]. intros p [Hp|?] Hpq; [|done]. apply delete_node_old in Hp.
    apply Hmono; [by apply (node_vtoks ts m)|]. apply Hpath; [done|by etrans].
  - intros q Hq Hin. split; (intros [Hqn|?]; [left|done]); [by eapply delete_node_old|by apply Hkeep].
  - intros q l n Hq Hin Hl Hn _. apply Hheap; [done|]. intros p Hp Hlp. apply Hin. assert (q = p) as ->; [|done].
    destruct (HU p Hp) as (_ & Hpk & _). apply (live_inj v m q p l); [done|done|by eapply vtoks_prefix|done|done].
  - intros q [Hq|?] Hin; [|done]. destruct (Hkeep q Hq Hin) as [_ Ht]. split; [|done]. apply lookup_delete_ne. by intros <-.
  - intros q Hq Hnc Hn0 k' Hqk'. apply lookup_delete_ne. intros <-. apply Hnc. assert (¬ changed v q) as Hnc0 by (intros Hc; by apply Hnc, Hmono).
    apply Hmono; [done|]. apply (iv_same _ _ _ _ _ _ HI q Hq Hnc0) in Hn0 as [Hn0|]; [|done]. by apply Hpath.
  - destruct Hroot as [[-> Hr]|[(c & l & n & -> & Hc & Hn & Hnear & Hl)|[-> ?]]]; [|exists c, n; split_and!; try done; [by eapply top_vtoks|by apply Hnm]|done].
    pose proof (iv_root _ _ _ _ _ _ HI) as HR. destruct (v_root v) as [lr|] eqn:Elr; [|destruct HR as [-> _]; by rewrite lookup_empty in Hs; destruct Hs].
    destruct HR as (r & n & Hvr & Htop & Hn & Hnear & Hlr). cbn in Htop. specialize (Hr r Htop). assert (is_node m r) as Hrm by (by eapply top_node).
    assert (top m' [] = Some r) as Htop'.
    { unfold m'. rewrite top_delete, Htop. cbn [mbind option_bind]. exact Hr. }
    destruct (decide (r ∈ U)) as [Hin|Hin].
    + destruct (HU r Hin) as (_ & _ & ch & Hch & _ & Ha). destruct (nc_after ch) as [l|] eqn:El; [|done]. destruct Ha as (_ & n' & Hn' & Hnear').
      assert (live v' r l) as Hl by (by exists ch). pose proof (Hlive r l Hvr Hl) as Hl0. assert (l = lr) as -> by (eapply (live_fun ts); [done|]; by apply Hlr; eapply live_changed).
      exists r, n'. split_and!; try done. by apply Hnm.
    + exists r, n. destruct (Hkeep r Hrm Hin) as [_ Ht]. split_and!; [done|done| | |].
      * apply Hheap; [done|]. intros p Hp Hlp. apply Hin. assert (r = p) as ->; [|done]. destruct (HU p Hp) as (_ & Hpk & _). assert (vtoks ts p) as Hvp by (by eapply vtoks_prefix).
        destruct (iv_live _ _ _ _ _ _ HI p lr Hvp Hlp) as (_ & n' & Hn' & Hnear'). simplify_eq. apply (token_key_inj ts); [done|done|].
        by rewrite <- (nr_key _ _ _ _ _ _ _ Hnear), <- (nr_key _ _ _ _ _ _ _ Hnear').
      * apply (near_change ts sha256 m0 v v' m m'); try done. apply lookup_delete_ne. by intros <-.
      * intros Hc. destruct Hlr as (ch & Hch & Ha); [by apply Hback|]. exists ch. by rewrite Hnodes.
Qed.

(** ** The children that are left *)

Lemma one_child (ch : gmap Z child) : size ch = 1%nat → ∃ y e, ch = {[y := e]} ∧ head (map_range ch) = Some (y, e).
Proof.
  intros H. assert (length (map_range ch) = 1%nat) as Hl by (rewrite (map_range_perm ch); by rewrite length_map_to_list). destruct (map_range ch) as [|[y e] [|]] eqn:E; [done| |done].
  exists y, e. split; [|done]. rewrite <- (map_range_to_map ch), E. done.
Qed.

Lemma another_child (ch : gmap Z child) y : size ch ≠ 1%nat → is_Some (ch !! y) → ∃ z, y ≠ z ∧ is_Some (ch !! z).
Proof.
  intros Hs Hy. pose proof (map_size_delete_Some y ch Hy) as Hd. destruct (map_choose (delete y ch)) as (z & e & Hz).
  { intros E. rewrite E, map_size_empty in Hd. assert (size ch ≠ 0%nat) by (rewrite map_size_ne_0_lookup; eauto). lia. }
  apply lookup_delete_Some in Hz as [Hne Hz]. exists z. split; [done|by eexists].
Qed.

Lemma near_child v m q n x : near v m q n → is_Some (top m (q ++ [x])) → is_Some (nd_children n !! x).
Proof. intros Hn Hx. destruct (nd_children n !! x) eqn:E; [done|]. rewrite (nr_none _ _ _ _ _ _ _ Hn x E) in Hx. by destruct Hx. Qed.

Lemma near_child_top v m q n x : near v m q n → is_Some (nd_children n !! x) → is_Some (top m (q ++ [x])).
Proof. intros Hn [e He]. destruct (nr_some _ _ _ _ _ _ _ Hn x e He) as (c & -> & _). done. Qed.

(** ** Compression *)

(** The view in which the value is gone, and the node of the key when it had no
    children; [t] may have to be replaced by its child. *)
Record before_compress v m k t lt v1 nt : Prop := {
  bc_applied : v_applied v1 = false;
  bc_next : v_next v1 = v_next v;
  bc_root : v_root v1 = v_root v;
  bc_dom : ∀ l, is_Some (v_heap v1 !! l) → is_Some (v_heap v !! l);
  bc_heap : ∀ l n, v_heap v !! l = Some n → ¬ live v k l → l ≠ lt → v_heap v1 !! l = Some n;
  bc_nodes : ∀ q, vtoks ts q → v_nodes v1 !! tkey q = if decide (q = k ∧ t ≠ k) then Some (mkNodeChange (old_before v (tkey k)) None) else v_nodes v !! tkey q;
  bc_keys : ∀ key : Key, is_Some (v_nodes v1 !! key) → is_Some (v_nodes v !! key);
  bc_node : v_heap v1 !! lt = Some nt;
  bc_near : near v (delete k m) t nt;
}.

Section compress.
Context (v : view) (m : tmap) (k t : list Z) (lt : loc).
Context (Hp : on_path v m k) (Ht : change_at m k t) (Hlt : live v t lt).
Let m' := delete k m.

Lemma compress_vtoks : vtoks ts t.
Proof. eapply vtoks_prefix; [apply (change_node m k t (op_some _ _ _ Hp) Ht)|apply (op_key _ _ _ Hp)]. Qed.

(** The root is not the removed node when another node is on the way. *)
Lemma root_not_key r : top m [] = Some r → r ≠ t → r ≠ k.
Proof.
  intros Hr Hne ->. destruct (change_node m k t (op_some _ _ _ Hp) Ht) as [H1 H2]. apply Hne. apply prefix_antisym; [|done]. by apply (root_prefix m).
Qed.

(** The node stays. *)
Lemma keep_update v1 nt : before_compress v m k t lt v1 nt → is_node m' t → Inv v1 m' None.
Proof.
  intros [H1 H2 H3 H4 H5 H6 H7 H8 H9] Hn. pose proof compress_vtoks as Hvt. pose proof (op_some _ _ _ Hp) as Hs. pose proof (change_node m k t Hs Ht) as [Htn Htk].
  pose proof (op_inv _ _ _ Hp) as HI. destruct Hlt as (ch & Hch & Ha). assert (v_nodes v1 !! tkey t = Some ch) as Hch1 by (rewrite H6 by done; by rewrite decide_False by naive_solver).
  apply (Remove_update v m k v1 [k; t] Hp); try done.
  - intros l Hl. rewrite H2. by apply (iv_fresh _ _ _ _ _ _ HI), H4.
  - intros l n Hl Hno. apply H5; [done|apply Hno; left|]. intros ->. apply (Hno t); [right; left|by exists ch].
  - intros q Hq Hin. rewrite H6 by done. rewrite decide_False; [done|]. intros [-> _]. apply Hin. left.
  - intros q l Hq (ch' & Hch' & Hl). rewrite H6 in Hch' by done. case_decide; [by simplify_eq|]. by exists ch'.
  - left.
  - intros q Hin. destruct (decide (q = t)) as [->|Hne].
    + split; [done|]. split; [done|]. exists ch. split; [done|]. unfold old_before. rewrite Hch, Ha. split; [done|]. split; [done|]. by exists nt.
    + assert (q = k) as -> by (apply elem_of_cons in Hin as [|Hin%list_elem_of_singleton]; done). split; [by apply key_is_node|]. split; [done|].
      eexists. split; [rewrite H6 by apply (op_key _ _ _ Hp); by rewrite decide_True by auto|]. split; [done|]. cbn. by apply (delete_key_gone m k t).
  - intros q Hq Hin. assert (q ≠ t ∧ q ≠ k) as [Hqt Hqk] by (split; intros ->; apply Hin; [right; left|left]). split; [by apply (delete_stays m k t)|].
    intros y. by apply (delete_children m k t).
  - left. split; [done|]. intros r Hr. destruct (decide (r = t)) as [->|Hne]; [done|]. apply (delete_stays m k t); [done|by eapply top_node|done|by apply root_not_key].
Qed.

(** The node is replaced by its child; [G] is its parent. *)
Lemma compress_update v' (G : list (list Z)) y c :
  m' !! t = None → top m' (t ++ [y]) = Some c → (∀ z, z ≠ y → top m' (t ++ [z]) = None) →
  v_applied v' = false → (∀ l, is_Some (v_heap v' !! l) → (l < v_next v')%nat) →
  (∀ l n, v_heap v !! l = Some n → (∀ q, q ∈ k :: t :: G → ¬ live v q l) → v_heap v' !! l = Some n) →
  (∀ key : Key, is_Some (v_nodes v' !! key) → is_Some (v_nodes v !! key)) →
  (∀ q, vtoks ts q → v_nodes v' !! tkey q = if decide (q = k ∨ q = t) then Some (mkNodeChange (old_before v (tkey q)) None) else v_nodes v !! tkey q) →
  (∀ q z, is_node m q → top m (q ++ [z]) = Some t → q ∈ G) →
  (∀ q, q ∈ G → parent_node m q t ∧ ∃ l n, live v q l ∧ v_heap v' !! l = Some n ∧ near v m' q n) →
  new_root v v' m m' → Inv v' m' None.
Proof.
  intros Hv Hy Hz H1 H2 H3 H4 H5 HG HG' Hr. pose proof compress_vtoks as Hvt. pose proof (op_some _ _ _ Hp) as Hs. pose proof (change_node m k t Hs Ht) as [Htn Htk].
  pose proof (op_key _ _ _ Hp) as Hk. destruct (change_compress m k t y c Hv Hy Hz) as [Htc Hno]. fold m' in Htc, Hno.
  assert (¬ is_node m' k) as Hnk by (destruct (decide (t = k)) as [E|Hne]; [rewrite <- E; exact Hno|by apply (delete_key_gone m k t)]).
  assert (∀ q, q ∈ G → q ≠ t ∧ q ≠ k ∧ q `prefix_of` t) as HGt.
  { intros q Hq. destruct (HG' q Hq) as [(_ & Hqt & Hne & _) _]. split; [done|]. split; [|done]. intros ->. apply Hne. by apply prefix_antisym. }
  apply (Remove_update v m k v' (k :: t :: G) Hp); try done.
  - intros q Hq Hin. rewrite H5 by done. rewrite decide_False; [done|]. intros [-> | ->]; apply Hin; [left|right; left].
  - intros q l Hq (ch' & Hch' & Hl). rewrite H5 in Hch' by done. case_decide; [by simplify_eq|]. by exists ch'.
  - left.
  - intros q Hin. destruct (decide (q = k ∨ q = t)) as [Hkt|Hkt].
    + assert (is_node m q ∧ q `prefix_of` k) as [Hq1 Hq2] by (destruct Hkt as [-> | ->]; [split; [by apply key_is_node|done]|done]). split; [done|]. split; [done|].
      eexists. split; [rewrite H5 by (by eapply vtoks_prefix); by rewrite decide_True|]. split; [done|]. cbn. by destruct Hkt as [-> | ->].
    + assert (q ∈ G) as HqG by (apply elem_of_cons in Hin as [->|[->|Hin]%elem_of_cons]; [naive_solver|naive_solver|done]).
      destruct (HGt q HqG) as (Hqt & Hqk & Hqp). destruct (HG' q HqG) as [(Hqn & _) (l & n & (ch & Hch & Ha) & Hn & Hnear)]. assert (q `prefix_of` k) as Hqk' by (by etrans).
      split; [done|]. split; [done|]. exists ch. rewrite H5 by (by eapply vtoks_prefix). rewrite decide_False by done. split; [done|]. unfold old_before. rewrite Hch, Ha.
      split; [done|]. split; [by apply (delete_stays m k t)|]. by exists n.
  - intros q Hq Hin. assert (q ≠ t ∧ q ≠ k) as [Hqt Hqk] by (split; intros ->; apply Hin; [right; left|left]). split; [by apply (delete_stays m k t)|].
    intros z. apply (delete_children m k t); try done. intros z' Hz'. destruct Hin. right. right. by eapply HG.
Qed.
End compress.

Section compress_wp.
Context (v : view) (m : tmap) (k t : list Z) (lt : loc).
Context (Hp : on_path v m k) (Ht : change_at m k t) (Hlt : live v t lt).
Context (v1 : view) (nt : node) (Hbc : before_compress v m k t lt v1 nt).
Let m' := delete k m.

(** The child that is left when the node goes. *)
Context (y : Z) (e : child) (c : list Z) (Hv : m' !! t = None) (Hy : top m' (t ++ [y]) = Some c) (Hz : ∀ z, z ≠ y → top m' (t ++ [z]) = None) (He : entry_ok ts sha256 m0 v t c e).
Let v2 := set_nodes (<[tkey t := mkNodeChange (old_before v (tkey t)) None]> (v_nodes v1)) v1.

Lemma compress_child : is_node m' c ∧ is_node m c ∧ c ≠ t ∧ c ≠ k ∧ t `prefix_of` c ∧ vtoks ts c ∧ top m' t = Some c.
Proof.
  destruct (top_child_node _ _ _ _ Hy) as (Hc & Htc & Hl & _). destruct (change_compress m k t y c Hv Hy Hz) as [Htop _].
  assert (c ≠ t) as Hne by (intros ->; lia). split_and!; try done.
  - by eapply delete_node_old.
  - intros ->. destruct (decide (t = k)) as [E|Hn]; [congruence|]. by destruct (delete_key_gone m k t Ht Hn).
  - eapply (top_vtoks ts m'); [apply valid_delete, (iv_valid _ _ _ _ _ _ (op_inv _ _ _ Hp))|done].
Qed.

Lemma compress_nodes q : vtoks ts q → v_nodes v2 !! tkey q = if decide (q = k ∨ q = t) then Some (mkNodeChange (old_before v (tkey q)) None) else v_nodes v !! tkey q.
Proof.
  intros Hq. pose proof (compress_vtoks v m k t Hp Ht) as Hvt. cbn. destruct (decide (q = t)) as [->|Hne]; [by rewrite lookup_insert_eq, decide_True by auto|].
  rewrite lookup_insert_ne by (intros E; apply Hne; symmetry; by apply (token_key_inj ts)). rewrite (bc_nodes _ _ _ _ _ _ _ Hbc) by done.
  destruct (decide (q = k)) as [->|Hqk]; [rewrite !decide_True by auto; done|rewrite !decide_False by naive_solver; done].
Qed.

Lemma compress_keys (key : Key) : is_Some (v_nodes v2 !! key) → is_Some (v_nodes v !! key).
Proof.
  cbn. destruct (decide (key = tkey t)) as [->|Hne]; [intros _; by eapply live_changed|]. rewrite lookup_insert_ne by done. apply (bc_keys _ _ _ _ _ _ _ Hbc).
Qed.

(** The child keeps its node. *)
Lemma compress_near n : near v m c n → near v m' c n.
Proof.
  destruct compress_child as (Hc' & Hc & Hct & Hck & Htc & Hvc & _). intros Hn. apply (near_change ts sha256 m0 v v m m'); try done.
  - apply (iv_valid _ _ _ _ _ _ (op_inv _ _ _ Hp)).
  - by apply lookup_delete_ne.
  - intros z. apply (delete_children m k t); try done. intros z' Hz'. destruct (top_child_node _ _ _ _ Hz') as (_ & Hct' & _). destruct Hct. by apply prefix_antisym.
Qed.

(** The child becomes the root. *)
Lemma compress_to_root (Q : () → view → Prop) :
  top m [] = Some t → (∀ v', Inv v' m' None → Q tt v') → wp (getNode T (tkey c) (ch_hasValue e) ≫= λ root, vmodify (set_root (Some root))) v2 Q.
Proof.
  intros Hroot HQ. destruct compress_child as (Hc' & Hc & Hct & Hck & Htc & Hvc & Htop). pose proof (op_inv _ _ _ Hp) as HI. pose proof (op_key _ _ _ Hp) as Hk.
  assert (∀ v', v_applied v' = false → (∀ l, is_Some (v_heap v' !! l) → (l < v_next v')%nat) → (∀ l n, v_heap v1 !! l = Some n → v_heap v' !! l = Some n) → v_nodes v' = v_nodes v2 →
    (∃ l n, v_root v' = Some l ∧ v_heap v' !! l = Some n ∧ near v m' c n ∧ (changed v' c → live v' c l)) → Inv v' m' None) as Hupd.
  { intros v' H1 H2 H3 H4 (l & n & H5 & H6 & H7 & H8). apply (compress_update v m k t Hp Ht v' [] y c); try done.
    - intros l' n' Hl' Hno. apply H3, (bc_heap _ _ _ _ _ _ _ Hbc); [done|apply Hno; left|]. intros ->. apply (Hno t); [right; left|done].
    - rewrite H4. apply compress_keys.
    - rewrite H4. apply compress_nodes.
    - intros q z Hq Hqz. destruct (top_child_node _ _ _ _ Hqz) as (_ & Hqt & Hl & _). pose proof (prefix_length _ _ (root_prefix m t q Hroot Hq)). lia.
    - intros q Hq. by apply elem_of_nil in Hq.
    - right. left. exists c, l, n. split_and!; try done. unfold m'. rewrite top_delete, Hroot. exact Htop. }
  assert (∀ l, is_Some (v_heap v1 !! l) → (l < v_next v1)%nat) as Hfr.
  { intros l Hl. rewrite (bc_next _ _ _ _ _ _ _ Hbc). by apply (iv_fresh _ _ _ _ _ _ HI), (bc_dom _ _ _ _ _ _ _ Hbc). }
  pose proof (bc_applied _ _ _ _ _ _ _ Hbc) as Happ.
  assert (v_nodes v2 !! tkey c = v_nodes v !! tkey c) as Hcn by (rewrite compress_nodes by done; rewrite decide_False by naive_solver; done).
  vbind. unfold getNode. vget. rewrite Hcn. destruct (v_nodes v !! tkey c) as [ch|] eqn:Ech.
  - destruct (nc_after ch) as [l|] eqn:El; [|destruct (iv_dead _ _ _ _ _ _ HI c ch Hvc Ech El); by left]. assert (live v c l) as Hl by (by exists ch).
    destruct (iv_live _ _ _ _ _ _ HI c l Hvc Hl) as (_ & n & Hn & Hnear). apply wp_ret, wp_modify, HQ, Hupd; try done.
    assert (v_heap v1 !! l = Some n) as Hn1.
    { apply (bc_heap _ _ _ _ _ _ _ Hbc); [done| |].
      - intros Hlk. apply Hck. by apply (live_inj v m c k l).
      - intros ->. apply Hct. apply (live_inj v m c t lt); try done. by apply (compress_vtoks v m k t). }
    exists l, n. split_and!; try done; [by apply compress_near|]. intros _. exists ch. cbn [v_nodes set_root]. by rewrite Hcn.
  - assert (¬ changed v c) as Hnc by (unfold MerkleInv.changed; rewrite Ech; by intros [? ?]). destruct (iv_same _ _ _ _ _ _ HI c Hvc Hnc) as [Hiff Heq].
    pose proof (proj1 Hiff (or_introl Hc)) as Hc0. destruct He as [_ Hid]. destruct (Hid Hnc) as [_ ->]. vbind. eapply wp_result; [apply (tr_node _ _ _ _ HT c Hc0)|].
    apply wp_alloc, wp_modify, HQ, Hupd; try done.
    + intros l [n Hn]. cbn in *. apply lookup_insert_Some in Hn as [[<- _]|[_ Hn]]; [lia|]. specialize (Hfr l ltac:(by eexists)). lia.
    + intros l n Hn. cbn. rewrite lookup_insert_ne; [done|]. specialize (Hfr l ltac:(by eexists)). cbn. lia.
    + exists (v_next v1), (node0 c). cbn. rewrite lookup_insert_eq. split_and!; try done.
      * apply compress_near. apply (near_node0 ts sha256 T m0 HT). by apply Heq.
      * intros [ch Hch]. cbn [v_nodes set_root set_heap] in Hch. by pose proof (eq_trans (eq_sym Hch) Hcn).
Qed.

(** The parent points to the child. *)
Lemma compress_to_parent g lg (Q : () → view → Prop) :
  parent_node m g t → live v g lg → (∀ v', Inv v' m' None → Q tt v') →
  wp (pn ← deref lg; token ← MerkleView.vlift (Token (tkey c) (k_length (n_key pn)) tokenSize);
      compressedKey ← MerkleView.vlift (Skip (tkey c) (k_length (n_key pn) + tokenSize));
      _ ← store lg (setChildEntry pn token (mkChild compressedKey (ch_id e) (ch_hasValue e))); recordNodeChange T lg) v2 Q.
Proof.
  intros Hg Hlg HQ. destruct compress_child as (Hc' & Hc & Hct & Hck & Htc & Hvc & Htop). pose proof (op_inv _ _ _ Hp) as HI. pose proof (op_key _ _ _ Hp) as Hk.
  pose proof (compress_vtoks v m k t Hp Ht) as Hvt. destruct (change_node m k t (op_some _ _ _ Hp) Ht) as [Htn Htk]. pose proof (iv_valid _ _ _ _ _ _ HI) as Hval.
  destruct (parent_child m g t Hg Htn) as (z & Hz1 & Hz2). pose proof Hg as (Hgn & Hgt & Hgne & _). assert (vtoks ts g) as Hvg by (by apply (node_vtoks ts m)).
  assert (g ≠ k) as Hgk by (intros ->; apply Hgne; by apply prefix_antisym). assert (g `prefix_of` c) as Hgc by (by etrans).
  assert (c !! length g = Some z) as Hcz by exact (prefix_lookup_Some _ _ _ _ Hz1 Htc). assert (k !! length g = Some z) as Hkz by exact (prefix_lookup_Some _ _ _ _ Hz1 Htk).
  destruct (iv_live _ _ _ _ _ _ HI g lg Hvg Hlg) as (_ & pn & Hpn & Hnear). assert (v_heap v1 !! lg = Some pn) as Hpn1.
  { apply (bc_heap _ _ _ _ _ _ _ Hbc); [done| |].
    - intros Hlk. apply Hgk. by apply (live_inj v m g k lg).
    - intros E. apply Hgne. apply (live_inj v m g t lg); try done. by rewrite E. }
  vbind. eapply wp_deref; [exact Hpn1|]. rewrite (nr_key _ _ _ _ _ _ _ Hnear), token_key_length by done. pose proof (lookup_lt_Some _ _ _ Hcz) as Hlc.
  vlift; [by rewrite token_key_Token|]. replace (tokenSize * Z.of_nat (length g) + tokenSize) with (tokenSize * Z.of_nat (S (length g))) by lia. vlift; [by apply token_key_Skip|].
  set (e' := mkChild (tkey (drop (S (length g)) c)) (ch_id e) (ch_hasValue e)). vbind. apply wp_store. destruct Hlg as (chg & Hchg & Ha).
  assert (v_nodes v2 !! tkey g = Some chg) as Hg2 by (rewrite compress_nodes by done; rewrite decide_False by naive_solver; done).
  unfold recordNodeChange. vbind. eapply wp_deref; [cbn; by rewrite lookup_insert_eq|]. cbn [n_key setChildEntry]. rewrite (nr_key _ _ _ _ _ _ _ Hnear).
  eapply wp_recordKeyChange; [apply (bc_applied _ _ _ _ _ _ _ Hbc)|exact Hg2|]. apply HQ. set (v' := set_nodes _ _).
  assert (∀ q : Key, v_nodes v' !! q = v_nodes v2 !! q) as Hsame.
  { intros q. unfold v'. cbn [v_nodes set_nodes set_heap]. fold v2. destruct (decide (q = tkey g)) as [->|Hne]; [|by rewrite lookup_insert_ne]. rewrite lookup_insert_eq, Hg2. destruct chg. cbn in *. by subst. }
  apply (compress_update v m k t Hp Ht v' [g] y c); try done.
  - apply (bc_applied _ _ _ _ _ _ _ Hbc).
  - intros l [n Hn]. cbn in *. rewrite (bc_next _ _ _ _ _ _ _ Hbc). apply (iv_fresh _ _ _ _ _ _ HI).
    apply lookup_insert_Some in Hn as [[<- _]|[_ Hn]]; [by eexists|]. apply (bc_dom _ _ _ _ _ _ _ Hbc). by eexists.
  - intros l n Hl Hno. cbn. rewrite lookup_insert_ne.
    + apply (bc_heap _ _ _ _ _ _ _ Hbc); [done|apply Hno; left|]. intros ->. apply (Hno t); [right; left|done].
    + intros <-. apply (Hno g); [right; right; left|by exists chg].
  - intros key. rewrite Hsame. apply compress_keys.
  - intros q Hq. rewrite Hsame. by apply compress_nodes.
  - intros q w Hq Hqw. rewrite (child_parent m g t q w Hg Hq Hqw). left.
  - intros q ->%list_elem_of_singleton. split; [done|]. exists lg, (setChildEntry pn z e'). split; [by exists chg|]. split; [cbn; by rewrite lookup_insert_eq|].
    apply (near_setChild ts sha256 m0 v v m m' g pn z c e'); try done.
    + by apply lookup_delete_ne.
    + intros w Hw. apply delete_child_other. intros [_ Hkw]%prefix_next_inv. congruence.
    + unfold m'. rewrite top_delete, Hz2. exact Htop.
    + split; [done|]. apply He.
  - left. split; [apply (bc_root _ _ _ _ _ _ _ Hbc)|]. intros r Hr. assert (r ≠ t) as Hrt.
    { intros ->. apply Hgne. apply prefix_antisym; [done|]. by apply (root_prefix m). }
    apply (delete_stays m k t); [done|by eapply top_node|done|]. by apply (root_not_key v m k t).
Qed.
End compress_wp.

Lemma compress_spec v m k t lt v1 nt gp (Q : () → view → Prop) :
  on_path v m k → change_at m k t → live v t lt → before_compress v m k t lt v1 nt →
  match gp with None => top m [] = Some t | Some lg => ∃ g, parent_node m g t ∧ live v g lg end →
  (∀ v', Inv v' (delete k m) None → Q tt v') → wp (compressNodePath tokenSize T gp lt) v1 Q.
Proof.
  intros Hp Ht Hlt Hbc Hgp HQ. pose proof (bc_near _ _ _ _ _ _ _ Hbc) as Hnear. pose proof (compress_vtoks v m k t Hp Ht) as Hvt. set (m' := delete k m) in *.
  unfold compressNodePath. vget. rewrite (bc_applied _ _ _ _ _ _ _ Hbc). vbind. eapply wp_deref; [apply (bc_node _ _ _ _ _ _ _ Hbc)|]. rewrite (hasValue_near _ _ _ _ _ _ _ Hnear).
  destruct (decide (is_Some (m' !! t))) as [Hv|Hv].
  { rewrite bool_decide_eq_true_2, orb_true_r by done. apply wp_ret, HQ. apply (keep_update v m k t lt Hp Ht Hlt v1 nt Hbc). by apply key_is_node. }
  rewrite bool_decide_eq_false_2, orb_false_r by done. assert (m' !! t = None) as Hv' by (destruct (m' !! t) eqn:E; [by destruct Hv|done]).
  destruct (change_some_child m k t Ht Hv') as (y0 & Hy0). destruct (Nat.eqb_spec (size (nd_children nt)) 1) as [Hs|Hs]; cbn [negb].
  2:{ apply wp_ret, HQ. apply (keep_update v m k t lt Hp Ht Hlt v1 nt Hbc). destruct (another_child _ y0 Hs) as (z & Hne & Hz); [by eapply near_child|].
      apply change_stays. right. exists y0, z. split; [done|]. split; [done|]. by eapply near_child_top. }
  destruct (one_child _ Hs) as (y & e & Hch & Hhd). destruct (nr_some _ _ _ _ _ _ _ Hnear y e) as (c & Hc & He); [rewrite Hch; by rewrite lookup_singleton_eq|].
  assert (∀ z, z ≠ y → top m' (t ++ [z]) = None) as Hz by (intros z Hz; apply (nr_none _ _ _ _ _ _ _ Hnear); rewrite Hch; by rewrite lookup_singleton_ne).
  destruct (compress_child v m k t Hp Ht y e c Hv' Hc Hz He) as (_ & _ & _ & _ & Htc & Hvc & _). destruct (top_child_node _ _ _ _ Hc) as (_ & _ & Hlen & Hcy).
  assert (0 ≤ y < 2 ^ tokenSize) as Hyr by exact (Forall_lookup_1 _ _ _ _ Hvc Hcy).
  assert (t ++ y :: drop (S (length t)) c = c) as Hsplit.
  { destruct Htc as [w ->]. rewrite lookup_app_r in Hcy by lia. rewrite Nat.sub_diag in Hcy. destruct w as [|y' w]; [done|]. cbn in Hcy. simplify_eq.
    f_equal. f_equal. rewrite drop_app_ge by lia. by replace (S (length t) - length t)%nat with 1%nat by lia. }
  destruct Hlt as (ch & Hch1 & Ha). assert (v_nodes v1 !! tkey t = Some ch) as Hch2 by (rewrite (bc_nodes _ _ _ _ _ _ _ Hbc) by done; by rewrite decide_False by naive_solver).
  unfold recordNodeDeleted. vbind. vbind. eapply wp_deref; [apply (bc_node _ _ _ _ _ _ _ Hbc)|]. rewrite (nr_key _ _ _ _ _ _ _ Hnear).
  eapply wp_recordKeyChange; [apply (bc_applied _ _ _ _ _ _ _ Hbc)|done|]. assert (nc_before ch = old_before v (tkey t)) as -> by (unfold old_before; by rewrite Hch1).
  vlift; [exact Hhd|]. vlift; [destruct He as [-> _]; apply token_key_Extend; try done; by apply vtoks_drop|]. rewrite Hsplit. assert (live v t lt) as Hlt by (by exists ch). destruct gp as [lg|].
  - destruct Hgp as (g & Hg & Hlg). by eapply (compress_to_parent v m k t lt Hp Ht Hlt v1 nt Hbc y e c Hv' Hc Hz He g lg Q).
  - by apply (compress_to_root v m k t lt Hp Ht Hlt v1 nt Hbc y e c Hv' Hc Hz He Q).
Qed.

(** ** The node of the key *)

(** Where the variables of [remove] point after the walk to [q]. *)
Definition path_at v m q (vars : path_vars) : Prop :=
  ∃ l, vars.2 = Some l ∧ live v q l ∧
  match vars.1.2 with
  | None => top m [] = Some q
  | Some lp => ∃ p, parent_node m p q ∧ live v p lp ∧ match vars.1.1 with None => top m [] = Some p | Some lg => ∃ g, parent_node m g p ∧ live v g lg end
  end.

Definition shift_vars (vars : path_vars) (l : loc) : path_vars := (vars.1.2, vars.2, Some l).

Lemma path_at_chain v m q ps vars : path_at v m q vars → chain m q ps → Forall (λ e, live v e.1 e.2) ps → path_at v m (chain_end q ps) (foldl shift_vars vars ps.*2).
Proof.
  revert q vars. induction ps as [|[p l] ps IH]; intros q vars Hq Hc Hps; [done|]. destruct Hc as (Hqp & _ & Hc). inversion_clear Hps as [|?? Hl Hps']. apply (IH p); [|done|done].
  destruct Hq as (lq & H2 & Hlq & Hpar). exists l. cbn. split; [done|]. split; [done|]. rewrite H2. exists q. split; [done|]. split; [done|].
  destruct (vars.1.2) as [lp|]; [|done]. destruct Hpar as (p' & H & Hl' & _). by exists p'.
Qed.

(** What [remove] does from the node of the key on. *)
Definition remove_node (vars : path_vars) : VM unit :=
  let '(grandParent, par, toDelete) := vars in
  nodeToDelete ← nonnil toDelete;
  nd ← deref nodeToDelete;
  let hadValue := hasValue nd in
  _ ← store nodeToDelete (setValue sha256 nd None);
  if decide (nd_children nd = ∅) then
    _ ← recordNodeDeleted T nodeToDelete hadValue;
    rootl ← MerkleView.vget v_root;
    root ← nonnil rootl;
    r ← deref root;
    if decide (n_key nd = n_key r) then vmodify (set_root None) else
    p ← nonnil par;
    nd ← deref nodeToDelete;
    _ ← update p (λ pn, removeChild tokenSize pn nd);
    compressNodePath tokenSize T grandParent p
  else compressNodePath tokenSize T par nodeToDelete.

Section node.
Context (v : view) (m : tmap) (k : list Z) (lk : loc) (nd : node).
Context (Hp : on_path v m k) (Hlk : live v k lk) (Hnd : v_heap v !! lk = Some nd) (Hnear : near v m k nd).
Let m' := delete k m.
Let v1 := set_heap (<[lk := setValue sha256 nd None]> (v_heap v)) (v_next v) v.
Let v2 := set_nodes (<[tkey k := mkNodeChange (old_before v (tkey k)) None]> (v_nodes v1)) v1.

Lemma key_children x : top m' (k ++ [x]) = top m (k ++ [x]).
Proof. apply delete_child_other, not_prefix_snoc. Qed.

(** The node has children. *)
Lemma remove_inner gp lp (Q : () → view → Prop) :
  nd_children nd ≠ ∅ → match lp with None => top m [] = Some k | Some lp => ∃ p, parent_node m p k ∧ live v p lp end →
  (∀ v', Inv v' m' None → Q tt v') → wp (remove_node (gp, lp, Some lk)) v Q.
Proof.
  intros Hch Hpar HQ. pose proof (op_inv _ _ _ Hp) as HI. cbn. vlift; [done|]. vderef. vbind. apply wp_store. rewrite decide_False by done.
  apply (compress_spec v m k k lk _ (setValue sha256 nd None)); try done.
  - left. split; [done|]. apply map_choose in Hch as (x & e & He). exists x. eapply near_child_top; [done|by eexists].
  - split; try done.
    + apply (iv_applied _ _ _ _ _ _ HI).
    + intros l [n Hn]. cbn in Hn. apply lookup_insert_Some in Hn as [[<- _]|[_ Hn]]; by eexists.
    + intros l n Hl _ Hne. cbn. by rewrite lookup_insert_ne.
    + intros q Hq. by rewrite decide_False by naive_solver.
    + cbn. by rewrite lookup_insert_eq.
    + destruct Hnear as [H1 H2 H3 H4 H5]. split; cbn; [done|by rewrite lookup_delete_eq|by rewrite lookup_delete_eq|..].
      * intros x Hx. rewrite key_children. by apply H4.
      * intros x e He. rewrite key_children. by apply H5.
Qed.

Lemma remove_leaf_nodes q : vtoks ts q → v_nodes v2 !! tkey q = if decide (q = k) then Some (mkNodeChange (old_before v (tkey k)) None) else v_nodes v !! tkey q.
Proof. intros Hq. exact (insert_node_lookup ts v k q _ (op_key _ _ _ Hp) Hq). Qed.

Lemma remove_leaf_keys (key : Key) : is_Some (v_nodes v2 !! key) → is_Some (v_nodes v !! key).
Proof. cbn. destruct (decide (key = tkey k)) as [->|Hne]; [intros _; by eapply live_changed|]. by rewrite lookup_insert_ne. Qed.

Context (Hempty : nd_children nd = ∅).

Lemma leaf_no_children x : top m (k ++ [x]) = None.
Proof. apply (nr_none _ _ _ _ _ _ _ Hnear). by rewrite Hempty. Qed.

(** The last node. *)
Lemma remove_last : top m [] = Some k → Inv (set_root None v2) m' None.
Proof.
  intros Hr. pose proof (op_inv _ _ _ Hp) as HI. pose proof (op_key _ _ _ Hp) as Hk. assert (top m' k = None) as Htk.
  { apply top_none; [by apply lookup_delete_eq|]. intros z. rewrite key_children. apply leaf_no_children. }
  apply (Remove_update v m k _ [k] Hp); try done.
  - apply (iv_applied _ _ _ _ _ _ HI).
  - intros l [n Hn]. cbn in *. apply (iv_fresh _ _ _ _ _ _ HI). apply lookup_insert_Some in Hn as [[<- _]|[_ Hn]]; by eexists.
  - intros l n Hl Hno. cbn. rewrite lookup_insert_ne; [done|]. intros <-. apply (Hno k); [left|done].
  - apply remove_leaf_keys.
  - intros q Hq Hin. pose proof (remove_leaf_nodes q Hq) as H. rewrite decide_False in H; [exact H|]. intros ->. apply Hin. left.
  - intros q l Hq (ch & Hch & Ha). pose proof (eq_trans (eq_sym Hch) (remove_leaf_nodes q Hq)) as H. case_decide; [by simplify_eq|]. by exists ch.
  - left.
  - intros q ->%list_elem_of_singleton. split; [apply key_is_node, (op_some _ _ _ Hp)|]. split; [done|]. eexists. split; [pose proof (remove_leaf_nodes k Hk) as H; rewrite decide_True in H by done; exact H|].
    split; [done|]. cbn. unfold is_node. fold m'. by rewrite Htk.
  - intros q Hq Hin. destruct (node_child_next m k q) as (x & c & _ & Hc & _); [by eapply top_node|done|by apply (root_prefix m)|intros ->; apply Hin; left|].
    by rewrite leaf_no_children in Hc.
  - right. right. split; [done|]. apply top_all_None. unfold m' in Htk. rewrite top_delete, Hr. exact Htk.
Qed.

(** The node is taken from its parent. *)
Lemma remove_leaf gp p lp (Q : () → view → Prop) :
  parent_node m p k → live v p lp → match gp with None => top m [] = Some p | Some lg => ∃ g, parent_node m g p ∧ live v g lg end →
  (∀ v', Inv v' m' None → Q tt v') →
  wp (nd ← deref lk; _ ← update lp (λ pn, removeChild tokenSize pn nd); compressNodePath tokenSize T gp lp) v2 Q.
Proof.
  intros Hpk Hlp Hgp HQ. pose proof (op_inv _ _ _ Hp) as HI. pose proof (op_key _ _ _ Hp) as Hk. assert (is_node m k) as Hkn by apply key_is_node, (op_some _ _ _ Hp).
  destruct (parent_child m p k Hpk Hkn) as (x & Hx & Hxk). pose proof Hpk as (Hpn & Hppk & Hpne & _). assert (vtoks ts p) as Hvp by (by eapply vtoks_prefix).
  destruct (iv_live _ _ _ _ _ _ HI p lp Hvp Hlp) as (_ & pn & Hpnl & Hpnear). assert (lp ≠ lk) as Hne by (intros E; apply Hpne; apply (live_inj v m p k lk); try done; by rewrite <- E).
  vbind. eapply wp_deref; [cbn; by rewrite lookup_insert_eq|]. vbind. set (pn' := mkNode (mkDbNode (nd_value pn) (delete x (nd_children pn))) (n_key pn) (n_valueDigest pn)).
  eapply (wp_update _ _ pn pn'); [cbn; by rewrite lookup_insert_ne| |].
  { unfold removeChild. cbn [n_key setValue]. rewrite (nr_key _ _ _ _ _ _ _ Hnear), (nr_key _ _ _ _ _ _ _ Hpnear), token_key_length by done.
    pose proof (lookup_lt_Some _ _ _ Hx). rewrite token_key_Token by done. rewrite Hx. unfold pn'. by rewrite (nr_key _ _ _ _ _ _ _ Hpnear). }
  assert (change_at m k p) as Hat by (right; split; [done|apply leaf_no_children]).
  apply (compress_spec v m k p lp _ pn'); try done. split; try done.
  - apply (iv_applied _ _ _ _ _ _ HI).
  - intros l [n Hn]. cbn in Hn. apply lookup_insert_Some in Hn as [[<- _]|[_ Hn]]; [by eexists|]. apply lookup_insert_Some in Hn as [[<- _]|[_ Hn]]; by eexists.
  - intros l n Hl Hlk' Hne'. cbn. rewrite lookup_insert_ne by done. rewrite lookup_insert_ne; [done|]. by intros <-.
  - intros q Hq. rewrite (remove_leaf_nodes q Hq : v_nodes (set_heap _ _ _) !! tkey q = _). destruct (decide (q = k)) as [->|]; [by rewrite decide_True|by rewrite decide_False by naive_solver].
  - intros key Hkey. by apply remove_leaf_keys.
  - cbn. by rewrite lookup_insert_eq.
  - fold m'. assert (m' !! p = m !! p) as Hmp by (by apply lookup_delete_ne). destruct Hpnear as [H1 H2 H3 H4 H5]. split; [done|by rewrite Hmp|by rewrite Hmp|..]; unfold nd_children; cbn.
    + intros y Hy. destruct (decide (y = x)) as [->|Hyx]; [apply (change_removed m k p (op_some _ _ _ Hp) Hat x); done|]. rewrite (change_children m k p Hat x) by auto. apply H4. by rewrite lookup_delete_ne in Hy.
    + intros y e [Hyx He]%lookup_delete_Some. rewrite (change_children m k p Hat x) by auto. by apply H5.
Qed.
End node.

Lemma remove_node_spec v m k vars (Q : () → view → Prop) :
  on_path v m k → path_at v m k vars → (∀ v', Inv v' (delete k m) None → Q tt v') → wp (remove_node vars) v Q.
Proof.
  intros Hp (lk & Hvars & Hlk & Hpar) HQ. destruct vars as [[gp par] toDelete]. cbn in Hvars, Hpar. subst toDelete. pose proof (op_inv _ _ _ Hp) as HI. pose proof (op_key _ _ _ Hp) as Hk.
  destruct (iv_live _ _ _ _ _ _ HI k lk Hk Hlk) as (_ & nd & Hnd & Hnear). destruct (decide (nd_children nd = ∅)) as [He|He].
  2:{ apply (remove_inner v m k lk nd); try done. destruct par; [|done]. destruct Hpar as (p & H1 & H2 & _). by exists p. }
  cbn [remove_node]. vlift; [done|]. vderef. vbind. apply wp_store. rewrite decide_True by done. destruct Hlk as (ch & Hch & Ha). assert (live v k lk) as Hlk by (by exists ch).
  unfold recordNodeDeleted. vbind. vbind. eapply wp_deref; [cbn; by rewrite lookup_insert_eq|]. cbn [n_key setValue]. rewrite (nr_key _ _ _ _ _ _ _ Hnear).
  eapply wp_recordKeyChange; [apply (iv_applied _ _ _ _ _ _ HI)|exact Hch|]. assert (nc_before ch = old_before v (tkey k)) as -> by (unfold old_before; by rewrite Hch).
  vget. cbn [v_root set_nodes set_heap]. pose proof (iv_root _ _ _ _ _ _ HI) as HR. destruct (v_root v) as [lr|] eqn:Elr.
  2:{ destruct HR as [-> _]. pose proof (op_some _ _ _ Hp) as Hs. rewrite lookup_empty in Hs. by destruct Hs. }
  destruct HR as (r & n & Hvr & Htop & Hn & Hnr & Hlr). cbn in Htop. vlift; [done|]. assert (∃ n', <[lk := setValue sha256 nd None]> (v_heap v) !! lr = Some n' ∧ n_key n' = tkey r) as (n' & Hn' & Hkey).
  { destruct (decide (lr = lk)) as [->|Hne].
    - rewrite lookup_insert_eq. eexists. split; [done|]. cbn. simplify_eq. apply (nr_key _ _ _ _ _ _ _ Hnr).
    - rewrite lookup_insert_ne by done. exists n. split; [done|]. apply (nr_key _ _ _ _ _ _ _ Hnr). }
  vbind. eapply wp_deref; [exact Hn'|]. rewrite Hkey. case_decide as Hkr.
  - apply (token_key_inj ts) in Hkr as <-; [|done|done]. apply wp_modify, HQ. by apply (remove_last v m k lk nd).
  - assert (r ≠ k) as Hrk by congruence. destruct par as [lp|]; [|congruence]. destruct Hpar as (p & Hpk & Hlp & Hgp). vlift; [done|]. by apply (remove_leaf v m k lk nd Hp Hlk Hnd Hnear He gp p lp).
Qed.

(** ** Removal *)

(** A key without a value is left alone. *)
Lemma remove_absent v m k (Q : () → view → Prop) :
  Inv v m None → vtoks ts k → m !! k = None → (∀ v', Inv v' m None → Q tt v') → wp (remove tokenSize sha256 T (tkey k)) v Q.
Proof.
  intros HI Hk Hmk HQ. unfold remove. vget. rewrite (iv_applied _ _ _ _ _ _ HI). vbind.
  assert (wp (if_found (getNode T (tkey k) true)) v (λ o v', Inv v' m None ∧ ∀ l, o = Some l → ∃ n, v_heap v' !! l = Some n ∧ hasValue n = false)) as Hget.
  { unfold getNode. destruct (v_nodes v !! tkey k) as [ch|] eqn:Ech.
    - destruct (nc_after ch) as [l|] eqn:El.
      + apply wp_found. vget. rewrite Ech, El. apply wp_ret. split; [done|]. intros l' [= <-].
        destruct (iv_live _ _ _ _ _ _ HI k l Hk) as (_ & n & Hn & Hnear); [by exists ch|]. exists n. split; [done|]. rewrite (hasValue_near _ _ _ _ _ _ _ Hnear), Hmk. done.
      + eapply wp_not_found; [unfold mbind, VM_bind, MerkleView.vget; cbn; rewrite Ech, El; done|]. done.
    - assert (¬ changed v k) as Hnc by (unfold MerkleInv.changed; rewrite Ech; by intros [? ?]). destruct (iv_same _ _ _ _ _ _ HI k Hk Hnc) as [_ Heq].
      assert (t_getEditableNode T (tkey k) true = Err ErrNotFound ∨ is_node m0 k ∧ t_getEditableNode T (tkey k) true = Ok (node0 k)) as [E|[Hn0 E]].
      { destruct (decide (is_node m0 k)) as [Hn0|Hn0]; [|left; by apply (tr_absent _ _ _ _ HT)]. destruct (tr_other _ _ _ _ HT k true Hn0); auto. }
      + eapply wp_not_found; [unfold mbind, VM_bind, MerkleView.vget, vresult; cbn; rewrite Ech, E; done|]. done.
      + apply wp_found. vget. rewrite Ech. vbind. eapply wp_result; [exact E|]. apply wp_alloc. destruct (alloc_inv ts sha256 m0 v m None (node0 k) HI) as [HI' _].
        split; [done|]. intros l' [= <-]. exists (node0 k). cbn. rewrite lookup_insert_eq. split; [done|]. unfold hasValue, nd_value. cbn. rewrite <- (Heq Hn0 k), Hmk by done. done. }
  eapply wp_mono; [exact Hget|]. intros [l|] v1 [HI1 Hl]; [|by apply wp_ret, HQ]. destruct (Hl l eq_refl) as (n & Hn & Hv). vderef. rewrite Hv. by apply wp_ret, HQ.
Qed.

Lemma remove_spec v m k (Q : () → view → Prop) :
  Inv v m None → vtoks ts k → (∀ v', Inv v' (delete k m) None → Q tt v') → wp (remove tokenSize sha256 T (tkey k)) v Q.
Proof.
  intros HI Hk HQ. destruct (m !! k) as [val|] eqn:Emk; [|rewrite delete_id in HQ by done; by apply (remove_absent v m k)].
  assert (is_Some (m !! k)) as Hs by (by eexists). pose proof (key_is_node m k Hs) as Hkn. unfold remove. vget. rewrite (iv_applied _ _ _ _ _ _ HI). vbind. apply wp_found.
  eapply (getNode_spec ts sha256 T m0 HT v m None k); [done|done|by left| |].
  { intros Hnc. symmetry. apply bool_decide_eq_true_2. destruct (iv_same _ _ _ _ _ _ HI k Hk Hnc) as [Hiff Heq]. rewrite <- (Heq (proj1 Hiff (or_introl Hkn)) k); done. }
  intros l n v1 HI1 _ Hn Hnear _. vderef. rewrite (hasValue_near _ _ _ _ _ _ _ Hnear), bool_decide_eq_true_2 by done. cbn [negb].
  vbind. eapply (visitPathToKey_spec ts sha256 T m0 HT shift_vars (visit_remove T)); [|done|done| | |].
  - intros [[gp p] nd] l' v2 Q2 H. unfold visit_remove. vbind. eapply wp_mono; [exact H|]. intros [] v3 H3. by apply wp_ret.
  - intros _ ->. by rewrite lookup_empty in Hs; destruct Hs.
  - intros r Hr Hrk. destruct Hrk. by apply (root_prefix m).
  - intros v2 r lr ps HI2 _ Hr _ _ Hlr Hchain Hps Hcl Hanc. assert (chain_end r ps = k) as Hend.
    { destruct Hcl as (H1 & H2 & _). apply prefix_antisym; [done|]. by apply H2. }
    rewrite Hend in *. apply (remove_node_spec v2 m k); [by split| |done]. rewrite <- Hend. change (foldl shift_vars ?a (lr :: ps.*2)) with (foldl shift_vars (None, None, Some lr) ps.*2).
    apply path_at_chain; [|done|eapply Forall_impl; [done|]; naive_solver]. exists lr. done.
Qed.
End Remove.
