(* ===== verification/MerkleHash.v ===== *)
(** * The identifiers of a view

    [hashChangedNode] builds the keys of the children in a buffer that is used again
    and again, and may hold anything behind the key of the node ([child_key_spec]); it
    leaves every changed node as the node of the trie of the new map, and returns its
    identifier ([hashChangedNode_spec]). *)
From S2P Require Import Prelude Ids Bytes MerkleKey MerkleCodec MerkleTree MerkleView MerkleSpec MerkleInv MerkleInsert MerkleRemove.

(** ** Buffers *)

Definition ceil8b (n : nat) : nat := (n + 7) / 8.

Lemma ceil8b_spec n : (8 * ceil8b n < n + 8 ∧ n ≤ 8 * ceil8b n)%nat.
Proof. unfold ceil8b. pose proof (Nat.div_mod_eq (n + 7) 8). pose proof (Nat.mod_upper_bound (n + 7) 8 ltac:(lia)). lia. Qed.

Lemma bytesNeeded_ceil8b n : Z.to_nat (bytesNeeded (Z.of_nat n)) = ceil8b n.
Proof. by rewrite bytesNeeded_nat, Nat2Z.id. Qed.

Lemma ceil8b_le n m : (n ≤ m → ceil8b n ≤ ceil8b m)%nat.
Proof. intros. by apply ceil8_le. Qed.

(** The first bytes of the buffer hold the bits [l]. *)
Definition holds_prefix (buffer : bytes) (l : list bool) : Prop :=
  (ceil8b (length l) ≤ length buffer)%nat ∧ buffer_holds (take (ceil8b (length l)) buffer) l (8 * ceil8b (length l) - length l).

Lemma shiftCopy_agree src s dst dst' r :
  length dst' = length dst → shiftCopy dst src s = Some r → ∃ r', shiftCopy dst' src s = Some r' ∧ length r' = length dst ∧ take (length src) r' = take (length src) r.
Proof.
  revert dst dst' r. induction src as [|a src IH]; intros dst dst' r Hl H; [by destruct dst, dst'; try done; exists []; cbn in H; simplify_eq|].
  destruct dst as [|d dst], dst' as [|d' dst'], src as [|b src]; try done.
  - cbn in H. simplify_eq. by exists [].
  - cbn in H, Hl |- *. simplify_eq. eexists. split; [done|]. split; [cbn; lia|done].
  - change (shiftCopy (d :: dst) (a :: b :: src) s) with (rest ← shiftCopy dst (b :: src) s; Some (Z.lor (shl8 a s) (shr8 b (dualBitIndex s)) :: rest)) in H.
    change (shiftCopy (d' :: dst') (a :: b :: src) s) with (rest ← shiftCopy dst' (b :: src) s; Some (Z.lor (shl8 a s) (shr8 b (dualBitIndex s)) :: rest)).
    destruct (shiftCopy dst (b :: src) s) as [rest|] eqn:E; [|done]. cbn in Hl. destruct (IH dst dst' rest ltac:(lia) E) as (r' & Hr' & H1 & H2).
    rewrite Hr'. cbn in H |- *. simplify_eq. eexists. split; [done|]. cbn. split; [lia|]. f_equal. exact H2.
Qed.

(** [extendIntoBuffer] behind whole bytes. *)
Lemma extendIntoBuffer_split b d val n :
  ceil8b n = length b → k_length val ≠ 0 →
  extendIntoBuffer (b ++ d) val (Z.of_nat n) =
    if Z.of_nat n mod 8 =? 0 then Some (b ++ copy_into d (k_value val)) else
    last ← b !! (length b - 1)%nat; first ← k_value val !! O; rest ← shiftCopy d (k_value val) (dualBitIndex (Z.of_nat n mod 8));
    Some (<[(length b - 1)%nat := Z.lor last (shr8 first (Z.of_nat n mod 8))]> b ++ rest).
Proof.
  intros Hn Hv. unfold extendIntoBuffer. rewrite bytesNeeded_ceil8b, Hn. destruct (Z.eqb_spec (k_length val) 0) as [|_]; [done|]. rewrite decide_False by (rewrite length_app; lia).
  rewrite take_app_length, drop_app_length. destruct (Z.eqb_spec (Z.of_nat n mod 8) 0) as [|H0]; [done|].
  assert (length b ≠ 0)%nat as Hb.
  { rewrite nat_rem8 in H0. pose proof (ceil8b_spec n). intros E. assert (n = 0)%nat as -> by lia. by apply H0. }
  rewrite lookup_app_l by lia. destruct (b !! (length b - 1)%nat) as [last|]; [|done]. cbn [mbind option_bind]. destruct (k_value val !! 0%nat) as [first|]; [|done]. cbn [mbind option_bind].
  rewrite insert_app_l by lia. rewrite drop_app_length', take_app_length' by (by rewrite length_insert). done.
Qed.

Lemma extendIntoBuffer_agree b d d' val n r :
  ceil8b n = length b → k_length val ≠ 0 → length d' = length d → extendIntoBuffer (b ++ d) val (Z.of_nat n) = Some r →
  ∃ r', extendIntoBuffer (b ++ d') val (Z.of_nat n) = Some r' ∧ length r' = length (b ++ d) ∧ take (length b + length (k_value val)) r' = take (length b + length (k_value val)) r.
Proof.
  intros Hn Hv Hl. rewrite !extendIntoBuffer_split by done. destruct (Z.of_nat n mod 8 =? 0).
  - intros [= <-]. eexists. split; [done|]. rewrite !take_app_add, !length_app. unfold copy_into. rewrite !length_app, !length_take, !length_drop, Hl. split; [lia|]. f_equal.
    destruct (decide (length (k_value val) ≤ length d)%nat).
    + rewrite (take_ge (k_value val)) by lia. by rewrite !take_app_length.
    + rewrite !(drop_ge _ (length (k_value val))) by lia. done.
  - destruct (b !! (length b - 1)%nat) as [last|]; [|done]. cbn [mbind option_bind]. destruct (k_value val !! 0%nat) as [first|]; [|done]. cbn [mbind option_bind].
    destruct (shiftCopy d _ _) as [rest|] eqn:E; [|done]. cbn [mbind option_bind]. intros [= <-]. destruct (shiftCopy_agree _ _ _ d' _ Hl E) as (r' & -> & H1 & H2). cbn [mbind option_bind].
    eexists. split; [done|]. rewrite !length_app, length_insert, H1. split; [done|].
    rewrite !take_app_add' by (by rewrite length_insert). by f_equal.
Qed.

(** Bits are appended to those that the buffer holds. *)
Lemma extendIntoBuffer_prefix buffer l val lv :
  holds_prefix buffer l → packs val lv → (length l + length lv ≤ 8 * length buffer)%nat →
  ∃ buffer', extendIntoBuffer buffer val (Z.of_nat (length l)) = Some buffer' ∧ length buffer' = length buffer ∧ holds_prefix buffer' (l ++ lv).
Proof.
  intros [Hn Hb] Hv Hlen. destruct (decide (lv = [])) as [->|Hne].
  { exists buffer. unfold extendIntoBuffer. rewrite (pk_length _ _ Hv). cbn. rewrite app_nil_r. by split_and!. }
  set (c := ceil8b (length l)) in *. set (b := take c buffer) in *. set (d := drop c buffer). assert (length b = c) as Hbl by (unfold b; rewrite length_take; lia).
  assert (length lv ≠ 0)%nat as Hlv by (by intros ?%nil_length_inv). assert (k_length val ≠ 0) as Hkl by (rewrite (pk_length _ _ Hv); lia).
  assert (buffer = b ++ d) as E by (symmetry; apply take_drop). clearbody b d. subst buffer. rewrite length_app in *. pose proof (ceil8b_spec (length l)) as Hc. fold c in Hc.
  assert (buffer_holds (b ++ replicate (length d) 0) l (8 * c - length l + 8 * length d)) as Hclean.
  { destruct Hb as [H1 H2]. split; [apply Forall_app; split; [done|apply zeros_bytes]|]. rewrite vbits_app, H2, vbits_zeros, replicate_add. by rewrite app_assoc. }
  destruct (extendIntoBuffer_spec _ _ _ val lv Hclean Hv ltac:(lia)) as (r & Hr & Hrh). pose proof (buffer_length _ _ _ Hrh) as Hrl.
  destruct (extendIntoBuffer_agree b _ d val (length l) r ltac:(done) Hkl ltac:(by rewrite length_replicate) Hr) as (r' & Hr' & Hl' & Ht'). rewrite length_app, length_replicate in Hl'.
  exists r'. split; [done|]. split; [lia|]. pose proof (packs_value_length _ _ Hv) as Hvl. fold (ceil8b (length lv)) in Hvl. pose proof (ceil8b_spec (length lv)). pose proof (ceil8b_spec (length l + length lv)).
  unfold holds_prefix. rewrite length_app in *. set (c2 := ceil8b (length l + length lv)) in *. split; [lia|].
  assert (take c2 r' = take c2 r) as ->.
  { rewrite <- (Nat.min_l c2 (length b + length (k_value val))) by lia. rewrite <- !take_take. by rewrite Ht'. }
  destruct Hrh as [H1 H2]. split; [by apply Forall_take|]. rewrite vbits_take, H2, take_app_ge by (rewrite length_app; lia). f_equal. rewrite take_replicate, length_app. f_equal. lia.
Qed.

Lemma packs_holds k l : packs k l → holds_prefix (k_value k) l.
Proof.
  intros Hk. pose proof (packs_value_length _ _ Hk) as Hl. fold (ceil8b (length l)) in Hl. destruct Hk as [_ Hb (n & Hn & Hv)]. split; [lia|]. rewrite take_ge by lia. split; [done|].
  rewrite Hv. do 2 f_equal. apply (f_equal length) in Hv. rewrite vbits_length, length_app, length_replicate in Hv. lia.
Qed.

(** A buffer of the right length is the key. *)
Lemma holds_packs k l buffer : packs k l → holds_prefix buffer l → length buffer = ceil8b (length l) → buffer = k_value k.
Proof.
  intros Hk [_ [Hb Hv]] Hlen. rewrite take_ge in Hb, Hv by lia. pose proof (ceil8b_spec (length l)) as Hc.
  assert (packs (mkKey (Z.of_nat (length l)) buffer) l) as Hk' by (apply (packs_make _ _ (8 * ceil8b (length l) - length l)); [done|done|lia]).
  by rewrite (packs_unique _ _ _ Hk Hk').
Qed.

Section Hash.
Context (ts : nat) {Hts : token_size ts} (sha256 : bytes → ID) (T : Trie).
Context {RZ : MapRange Z} (try_acquire : Key → option bytes).
Abbreviation tokenSize := (Z.of_nat ts).
Abbreviation tmap := (gmap (list Z) bytes).
Abbreviation tkey := (token_key ts).
Implicit Types (v u : view) (m : tmap) (q p k c r : list Z) (l : loc) (n : node).

(** ** Keys of children *)

Definition kbytes q : bytes := k_value (tkey q).

Lemma tkey_packs q : vtoks ts q → ∃ l : list bool, packs (tkey q) l.
Proof. intros Hq. destruct (token_key_tokens ts q Hq) as (l & Hl & _). by exists l. Qed.

Lemma kbytes_needed q : vtoks ts q → Z.to_nat (bytesNeeded (k_length (tkey q))) = length (kbytes q).
Proof. intros [l Hl]%tkey_packs. rewrite (pk_length _ _ Hl), bytesNeeded_ceil8b. symmetry. by apply packs_value_length. Qed.

Lemma child_split q x c : (q ++ [x]) `prefix_of` c → c = q ++ x :: drop (S (length q)) c.
Proof. intros [w ->]. rewrite <- app_assoc. cbn. rewrite drop_app_ge by lia. by replace (S (length q) - length q)%nat with 1%nat by lia. Qed.

Lemma child_range q x c : vtoks ts c → (q ++ [x]) `prefix_of` c → 0 ≤ x < 2 ^ tokenSize.
Proof. intros Hc [_ Hx]%prefix_next_inv. exact (Forall_lookup_1 _ _ _ _ Hc Hx). Qed.

Lemma child_packs q x c : vtoks ts c → (q ++ [x]) `prefix_of` c →
  ∃ lq lx ls, packs (tkey q) lq ∧ packs (ToToken x tokenSize) lx ∧ packs (tkey (drop (S (length q)) c)) ls ∧ packs (tkey c) (lq ++ lx ++ ls) ∧ length lx = ts.
Proof.
  intros Hc Hx. pose proof (child_range _ _ _ Hc Hx) as Hr. assert (vtoks ts q) as Hq by (eapply vtoks_prefix; [by eapply prefix_snoc_l|done]).
  destruct (tkey_packs q Hq) as [lq Hlq]. destruct (key_tokens_ToToken ts Hts x Hr) as (lx & Hlx & Hlen & _). destruct (tkey_packs (drop (S (length q)) c)) as [ls Hls]; [by apply vtoks_drop|].
  exists lq, lx, ls. split_and!; [done|done|done| |rewrite Hlen; cbn; lia].
  destruct (Extend_spec (tkey q) lq [ToToken x tokenSize; tkey (drop (S (length q)) c)] [lx; ls] Hlq) as (k & Hk & Hkp); [by apply Forall2_cons; split; [|apply Forall2_cons; split]|].
  rewrite token_key_Extend in Hk by (done || by apply vtoks_drop). cbn in Hkp. rewrite app_nil_r in Hkp. rewrite (child_split q x c Hx) at 1. by simplify_eq.
Qed.

(** The bytes of a key but the last are those of a longer key. *)
Lemma kbytes_prefix q c : vtoks ts c → q `prefix_of` c → (length (kbytes q) ≤ length (kbytes c))%nat ∧ take (length (kbytes q) - 1) (kbytes c) = take (length (kbytes q) - 1) (kbytes q).
Proof.
  intros Hc Hp. destruct (decide (q = c)) as [->|Hne]; [done|]. destruct (prefix_next q c Hp Hne) as (x & _ & Hx). destruct (child_packs q x c Hc Hx) as (lq & lx & ls & Hq & _ & _ & Hlc & _).
  pose proof (packs_value_length _ _ Hq) as H1. pose proof (packs_value_length _ _ Hlc) as H2. fold (ceil8b (length lq)) in H1. fold (ceil8b (length (lq ++ lx ++ ls))) in H2.
  unfold kbytes. rewrite H1, H2. rewrite length_app. split; [apply ceil8b_le; lia|]. pose proof (ceil8b_spec (length lq)) as Hc8. destruct Hq as [_ Hqb (n & _ & Hqv)]. destruct Hlc as [_ Hcb (n' & _ & Hcv)].
  apply vbits_inj; [by apply Forall_take|by apply Forall_take|]. rewrite !vbits_take, Hqv, Hcv. rewrite <- !app_assoc, !take_app_le by lia. done.
Qed.

Lemma child_key_spec q x c n e lkb buffer :
  vtoks ts c → (q ++ [x]) `prefix_of` c → n_key n = tkey q → ch_compressedKey e = tkey (drop (S (length q)) c) →
  take (length (kbytes q) - 1) buffer = take (length (kbytes q) - 1) (kbytes q) → (kbytes q ≠ [] → kbytes q !! (length (kbytes q) - 1)%nat = Some lkb) → (length (kbytes c) ≤ length buffer)%nat →
  child_key tokenSize n lkb buffer x e = Some (tkey c, kbytes c ++ drop (length (kbytes c)) buffer).
Proof.
  intros Hc Hx Hn He Hbuf Hlkb Hlen. assert (vtoks ts q) as Hvq by (eapply vtoks_prefix; [by eapply prefix_snoc_l|done]).
  destruct (child_packs q x c Hc Hx) as (lq & lx & ls & Hq & Hlx & Hls & Hlc & Hlxts). destruct (kbytes_prefix q c Hc (prefix_snoc_l _ _ _ Hx)) as [Hqc _].
  unfold child_key. rewrite Hn, He. assert (k_length (tkey q) + tokenSize + k_length (tkey (drop (S (length q)) c)) = k_length (tkey c)) as ->.
  { rewrite (pk_length _ _ Hq), (pk_length _ _ Hls), (pk_length _ _ Hlc), !length_app, Hlxts. lia. }
  rewrite kbytes_needed by done. rewrite decide_False by lia. set (nq := length (kbytes q)) in *. set (b0 := take (length (kbytes c)) buffer).
  assert (length b0 = length (kbytes c)) as Hb0 by (unfold b0; rewrite length_take; lia).
  assert (∃ b1, (if 0 <? bytesNeeded (k_length (tkey q)) then set_byte b0 (Z.to_nat (bytesNeeded (k_length (tkey q)) - 1)) lkb else Some b0) = Some b1 ∧ length b1 = length b0 ∧ holds_prefix b1 lq) as (b1 & -> & Hl1 & Hh1).
  { pose proof (kbytes_needed q Hvq) as Hneed. fold nq in Hneed. pose proof (packs_holds _ _ Hq) as [Hh Hh']. fold (kbytes q) in Hh, Hh'.
    assert (ceil8b (length lq) = nq) as Hcq by (symmetry; apply (packs_value_length _ _ Hq)). rewrite Hcq in Hh, Hh'.
    destruct (Z.ltb_spec 0 (bytesNeeded (k_length (tkey q)))) as [Hpos|Hz].
    - replace (Z.to_nat (bytesNeeded (k_length (tkey q)) - 1)) with (nq - 1)%nat by lia. unfold set_byte. rewrite decide_True by lia. eexists. split; [done|]. rewrite length_insert. split; [done|].
      unfold holds_prefix. rewrite Hcq, length_insert. split; [lia|]. assert (take nq (<[(nq - 1)%nat := lkb]> b0) = take nq (kbytes q)) as ->; [|done].
      assert (kbytes q !! (nq - 1)%nat = Some lkb) as Hlast by (apply Hlkb; intros E; unfold nq in *; rewrite E in Hneed; cbn in Hneed; lia).
      replace nq with (S (nq - 1)) at 1 3 by lia. rewrite (take_S_r _ _ _ Hlast), (take_S_r _ (nq - 1) lkb) by (apply list_lookup_insert_eq; lia).
      f_equal. rewrite take_insert_ge by lia. unfold b0. rewrite take_take, Nat.min_l by lia. done.
    - exists b0. split; [done|]. split; [done|]. assert (nq = 0)%nat as Hn0 by lia. unfold holds_prefix. rewrite Hcq, Hn0 in *. split; [lia|]. done. }
  cbn [mbind option_bind]. rewrite (pk_length _ _ Hq).
  pose proof (packs_value_length _ _ Hlc) as Hcl. fold (ceil8b (length (lq ++ lx ++ ls))) in Hcl. fold (kbytes c) in Hcl. pose proof (ceil8b_spec (length (lq ++ lx ++ ls))) as Hc8. rewrite !length_app in Hc8, Hcl.
  change (mkKey tokenSize [shl8 x (dualBitIndex tokenSize)]) with (ToToken x tokenSize). destruct (extendIntoBuffer_prefix b1 lq _ lx Hh1 Hlx ltac:(lia)) as (b2 & -> & Hl2 & Hh2). cbn [mbind option_bind].
  replace (Z.of_nat (length lq) + tokenSize) with (Z.of_nat (length (lq ++ lx))) by (rewrite length_app; lia).
  destruct (extendIntoBuffer_prefix b2 (lq ++ lx) _ ls Hh2 Hls ltac:(rewrite length_app; lia)) as (b3 & -> & Hl3 & Hh3). cbn [mbind option_bind]. rewrite <- app_assoc in Hh3.
  assert (b3 = kbytes c) as -> by (apply (holds_packs _ _ _ Hlc Hh3); rewrite !length_app; lia). do 2 f_equal. unfold kbytes. by destruct (tkey c).
Qed.

(** ** Sizes of buffers *)

Lemma bytesNeeded_mono a b : 0 ≤ a ≤ b → (Z.to_nat (bytesNeeded a) ≤ Z.to_nat (bytesNeeded b))%nat.
Proof. intros H. rewrite <- (Z2Nat.id a), <- (Z2Nat.id b), !bytesNeeded_ceil8b by lia. apply ceil8b_le. lia. Qed.

Lemma setBytesLength_spec b size : ∃ z, setBytesLength b size = b ++ z ∧ size ≤ Z.of_nat (length (b ++ z)).
Proof.
  unfold setBytesLength. case_match eqn:E; [exists []; rewrite app_nil_r; split; [done|lia]|]. exists (make_bytes (size - Z.of_nat (length b))). split; [done|].
  unfold make_bytes. rewrite length_app, length_replicate. lia.
Qed.

Lemma max_length_le (cs : list (Z * child)) acc : acc ≤ foldl (λ acc e, acc `max` k_length (ch_compressedKey e.2)) acc cs ∧ ∀ x e, (x, e) ∈ cs → k_length (ch_compressedKey e) ≤ foldl (λ acc e, acc `max` k_length (ch_compressedKey e.2)) acc cs.
Proof.
  revert acc. induction cs as [|[y f] cs IH]; intros acc; cbn; [split; [lia|]; by intros x e ?%elem_of_nil|]. destruct (IH (acc `max` k_length (ch_compressedKey f))) as [H1 H2]. split; [lia|].
  intros x e [[= -> ->]|Hin]%elem_of_cons; [lia|by eapply H2].
Qed.

(** The entry [e] of a node with the key [q] is that of the child [c]. *)
Definition child_at q (x : Z) (e : child) c : Prop := vtoks ts c ∧ (q ++ [x]) `prefix_of` c ∧ ch_compressedKey e = tkey (drop (S (length q)) c).
Definition entries_of q n : Prop := ∀ x e, nd_children n !! x = Some e → ∃ c, child_at q x e c.

Lemma child_at_fun q x e c c' : child_at q x e c → child_at q x e c' → c = c'.
Proof.
  intros (Hv & Hp & Hk) (Hv' & Hp' & Hk'). rewrite (child_split q x c Hp), (child_split q x c' Hp'). do 2 f_equal.
  apply (token_key_inj ts); [by apply vtoks_drop|by apply vtoks_drop|congruence].
Qed.

Lemma setLengthForChildren_spec q n buffer :
  vtoks ts q → n_key n = tkey q → entries_of q n →
  ∃ z, setLengthForChildren tokenSize n buffer = buffer ++ z ∧ (length (kbytes q) ≤ length (buffer ++ z))%nat ∧ ∀ x e c, nd_children n !! x = Some e → child_at q x e c → (length (kbytes c) ≤ length (buffer ++ z))%nat.
Proof.
  intros Hq Hn Hent. unfold setLengthForChildren. set (mx := foldl _ _ _). destruct (max_length_le (map_range (nd_children n)) 0) as [H0 Hmx]. fold mx in H0, Hmx.
  destruct (setBytesLength_spec buffer (bytesNeeded (k_length (n_key n) + tokenSize + mx))) as (z & Hz & Hlen). exists z. split; [done|].
  assert (0 ≤ k_length (tkey q)) as Hkq by (destruct (tkey_packs q Hq) as [l Hl]; rewrite (pk_length _ _ Hl); lia). rewrite Hn in Hlen. split.
  - rewrite <- kbytes_needed by done. pose proof (bytesNeeded_mono (k_length (tkey q)) (k_length (tkey q) + tokenSize + mx)). lia.
  - intros x e c He (Hvc & Hx & Hk). pose proof (Hmx x e (proj2 (elem_of_map_range _ _ _) He)) as Hle. rewrite Hk in Hle.
    destruct (child_packs q x c Hvc Hx) as (lq & lx & ls & Hlq & _ & Hls & Hlc & Hlx).
    assert (k_length (tkey c) = k_length (tkey q) + tokenSize + k_length (tkey (drop (S (length q)) c))) as Hkc.
    { rewrite (pk_length _ _ Hlq), (pk_length _ _ Hls), (pk_length _ _ Hlc), !length_app, Hlx. lia. }
    rewrite <- kbytes_needed by done. pose proof (bytesNeeded_mono (k_length (tkey c)) (k_length (tkey q) + tokenSize + mx)). rewrite (pk_length _ _ Hls) in *. lia.
Qed.

Lemma setKeyBuffer_spec q n buffer :
  vtoks ts q → n_key n = tkey q → entries_of q n →
  take (length (kbytes q)) (setKeyBuffer tokenSize n buffer) = kbytes q ∧ ∀ x e c, nd_children n !! x = Some e → child_at q x e c → (length (kbytes c) ≤ length (setKeyBuffer tokenSize n buffer))%nat.
Proof.
  intros Hq Hn Hent. unfold setKeyBuffer. destruct (setLengthForChildren_spec q n buffer Hq Hn Hent) as (z & -> & Hl & Hc). rewrite Hn. fold (kbytes q). set (b := buffer ++ z) in *.
  assert (copy_into b (kbytes q) = kbytes q ++ drop (length (kbytes q)) b) as -> by (unfold copy_into; by rewrite take_ge by lia). split; [by rewrite take_app_length|].
  intros x e c Hx Hat. specialize (Hc x e c Hx Hat). rewrite length_app, length_drop. lia.
Qed.

(** The buffer holds the key of [q] but for its last byte. *)
Definition starts (buf : bytes) q : Prop := take (length (kbytes q) - 1) buf = take (length (kbytes q) - 1) (kbytes q).

Lemma starts_app q c z : vtoks ts c → q `prefix_of` c → starts (kbytes c ++ z) q.
Proof. intros Hc Hp. destruct (kbytes_prefix q c Hc Hp) as [Hl Ht]. unfold starts. rewrite take_app_le by lia. done. Qed.

Lemma starts_prefix q c buf : vtoks ts c → q `prefix_of` c → starts buf c → starts buf q.
Proof.
  intros Hc Hp Hs. destruct (kbytes_prefix q c Hc Hp) as [Hl Ht]. unfold starts in *. rewrite <- Ht. rewrite <- (Nat.min_l (length (kbytes q) - 1) (length (kbytes c) - 1)) by lia.
  rewrite <- !take_take. by rewrite Hs.
Qed.

Lemma starts_full q buf : take (length (kbytes q)) buf = kbytes q → starts buf q.
Proof. intros Hbuf. unfold starts. transitivity (take (length (kbytes q) - 1) (take (length (kbytes q)) buf)); [by rewrite take_take, Nat.min_l by lia|by rewrite Hbuf]. Qed.

(** [hashChangedNode] remembers the last byte of the key. *)
Lemma last_key_byte q buf v : vtoks ts q → take (length (kbytes q)) buf = kbytes q →
  ∃ lkb, wp (if 0 <? bytesNeeded (k_length (tkey q)) then MerkleView.vlift (buf !! Z.to_nat (bytesNeeded (k_length (tkey q)) - 1)) else mret 0) v (λ b v', b = lkb ∧ v' = v) ∧
    (kbytes q ≠ [] → kbytes q !! (length (kbytes q) - 1)%nat = Some lkb).
Proof.
  intros Hq Hbuf. pose proof (kbytes_needed q Hq) as Hneed. destruct (Z.ltb_spec 0 (bytesNeeded (k_length (tkey q)))) as [Hpos|Hz].
  - assert (length (kbytes q) - 1 < length (kbytes q))%nat as Hlt by lia. destruct (lookup_lt_is_Some_2 _ _ Hlt) as [b Hb]. exists b. split; [|done].
    eapply wp_lift; [|done]. replace (Z.to_nat (bytesNeeded (k_length (tkey q)) - 1)) with (length (kbytes q) - 1)%nat by lia. rewrite <- Hbuf in Hb at 2. by rewrite lookup_take_lt in Hb by lia.
  - exists 0. split; [by apply wp_ret|]. intros Hne. destruct (kbytes q); [done|]. cbn in Hneed. lia.
Qed.

(** ** Nodes with their identifiers *)

Context (m0 m : tmap).
Abbreviation Inv := (Inv ts sha256 m0).
Abbreviation near := (near ts sha256 m0).
Abbreviation live := (live ts).
Abbreviation changed := (changed ts).
Abbreviation fin := (cnode ts sha256 (tid ts sha256 m) m).
Abbreviation fentry := (centry ts (tid ts sha256 m) m).

Lemma near_child_at u q n x e c : valid_map ts m → near u m q n → nd_children n !! x = Some e → top m (q ++ [x]) = Some c → child_at q x e c.
Proof.
  intros Hm Hn He Hc. destruct (nr_some _ _ _ _ _ _ _ Hn x e He) as (c' & Hc' & Hk & _). simplify_eq. split; [by eapply top_vtoks|]. split; [by eapply top_above|done].
Qed.

Lemma near_entries u q n : valid_map ts m → near u m q n → entries_of q n.
Proof. intros Hm Hn x e He. destruct (nr_some _ _ _ _ _ _ _ Hn x e He) as (c & Hc & _). exists c. by eapply near_child_at. Qed.

Lemma final_node u q n : valid_map ts m → near u m q n → (∀ x e c, nd_children n !! x = Some e → top m (q ++ [x]) = Some c → e = fentry q c) → n = fin q.
Proof.
  intros Hm [H1 H2 H3 H4 H5] Hall. destruct n as [[val ch] key dig]. unfold nd_value, nd_children in *. cbn in *. subst. unfold cnode. do 2 f_equal. apply map_eq. intros x.
  rewrite cchildren_lookup by done. destruct (ch !! x) as [e|] eqn:Ex; [|by rewrite (H4 x Ex)]. destruct (H5 x e Ex) as (c & Hc & _). rewrite Hc. cbn. f_equal. by apply (Hall x e c).
Qed.

Lemma fin_id q : is_node m q → HashNode sha256 (fin q) = tid ts sha256 m q.
Proof. intros Hq. symmetry. apply tid_unfold. by apply node_under. Qed.

(** The entry of a child that did not change is final. *)
Lemma entry_unchanged u q x e c : Inv u m None → vtoks ts c → top m (q ++ [x]) = Some c → entry_ok ts sha256 m0 u q c e → ¬ changed u c → e = fentry q c.
Proof.
  intros HI Hc Hx [Hk Hid] Hnc. destruct (Hid Hnc) as [H1 H2]. destruct (top_child_node _ _ _ _ Hx) as (Hcn & _). destruct (iv_same _ _ _ _ _ _ HI c Hc Hnc) as [Hiff Heq].
  specialize (Heq (proj1 Hiff (or_introl Hcn))). destruct e as [ck id hv]. cbn in *. subst. unfold centry. rewrite (Heq c) by done. f_equal. symmetry. apply tid_ext; [done|by apply node_under].
Qed.

(** ** Changing the heap *)

Definition with_heap u (h : gmap loc node) : view := set_heap h (v_next u) u.

Lemma with_heap_id u : with_heap u (v_heap u) = u.
Proof. by destruct u. Qed.

Lemma near_heap u h h' q n : near (with_heap u h) m q n → near (with_heap u h') m q n.
Proof. by apply near_mono. Qed.

Lemma with_heap_inv u q l n h : Inv (with_heap u h) m None → vtoks ts q → live u q l → near (with_heap u h) m q n → Inv (with_heap u (<[l := n]> h)) m None.
Proof.
  intros HI Hq Hl Hn. destruct (iv_live _ _ _ _ _ _ HI q l Hq Hl) as (_ & n0 & Hn0 & Hnear0). cbn in Hn0. destruct HI as [H1 H2 H3 H4 H5 H6 H7 H8 H9 H10]. split; try done.
  - intros l' [n' Hn']. apply H2. cbn in *. apply lookup_insert_Some in Hn' as [[<- _]|[_ Hn']]; by eexists.
  - intros p l' Hp Hl'. destruct (H5 p l' Hp Hl') as (HX & n' & Hn' & Hnear'). split; [done|]. cbn in *. destruct (decide (l' = l)) as [->|Hne].
    + rewrite lookup_insert_eq. exists n. split; [done|]. simplify_eq. assert (p = q) as ->; [|by eapply near_heap].
      apply (token_key_inj ts); [done|done|]. by rewrite <- (nr_key _ _ _ _ _ _ _ Hnear'), <- (nr_key _ _ _ _ _ _ _ Hnear0).
    + rewrite lookup_insert_ne by done. exists n'. split; [done|]. by eapply near_heap.
  - cbn in *. destruct (v_root u) as [lr|]; [|done]. destruct H9 as (r & n' & Hr & Hroot & Hn' & Hnear' & Hlr). destruct (decide (lr = l)) as [->|Hne].
    + simplify_eq. assert (r = q) as -> by (apply (token_key_inj ts); [done|done|]; by rewrite <- (nr_key _ _ _ _ _ _ _ Hnear'), <- (nr_key _ _ _ _ _ _ _ Hnear0)).
      exists q, n. rewrite lookup_insert_eq. split_and!; try done. by eapply near_heap.
    + exists r, n'. rewrite lookup_insert_ne by done. split_and!; try done. by eapply near_heap.
Qed.

(** ** Hashing *)

Section hashing.
Context (u : view).
Abbreviation InvH h := (Inv (with_heap u h) m None).
Abbreviation hash_rec := (hashChangedNode tokenSize sha256 try_acquire).
Implicit Types (h : gmap loc node) (buf : bytes).

(** The changed nodes from [q] down are final; the others are as before. *)
Definition hashed h q : Prop := ∀ p l, vtoks ts p → live u p l → q `prefix_of` p → h !! l = Some (fin p).
Definition same_off h h' q : Prop := ∀ p l, vtoks ts p → live u p l → ¬ q `prefix_of` p → h' !! l = h !! l.

Definition deep_enough fuel q : Prop := ∀ p l, vtoks ts p → live u p l → q `prefix_of` p → (length p < length q + fuel)%nat.

Definition hash_ok (fuel : nat) : Prop := ∀ h q l n buf (Q : ID * bytes → view → Prop),
  InvH h → vtoks ts q → is_node m q → h !! l = Some n → near u m q n → (changed u q → live u q l) → deep_enough fuel q → (0 < fuel)%nat →
  take (length (kbytes q)) buf = kbytes q → (∀ x c, is_Some (nd_children n !! x) → top m (q ++ [x]) = Some c → (length (kbytes c) ≤ length buf)%nat) →
  (∀ h' buf', InvH h' → same_off h h' q → hashed h' q → h' !! l = Some (fin q) → starts buf' q → (length buf ≤ length buf')%nat → Q (tid ts sha256 m q, buf') (with_heap u h')) →
  wp (hash_rec fuel l buf) (with_heap u h) Q.

Lemma live_node h p l : InvH h → vtoks ts p → live u p l → is_node m p ∧ ∃ n, h !! l = Some n ∧ near u m p n.
Proof.
  intros HI Hp Hl. destruct (iv_live _ _ _ _ _ _ HI p l Hp Hl) as ([Hn|] & n & Hh & Hnear); [|done]. split; [done|]. exists n. split; [done|]. eapply near_mono; [|exact Hnear]. done.
Qed.

Lemma near_u h q n : near u m q n ↔ near (with_heap u h) m q n.
Proof. split; by apply near_mono. Qed.

(** A child that changed. *)
Lemma hash_child fuel h c lc cn buf z (Q : ID * bytes → view → Prop) :
  hash_ok fuel → InvH h → vtoks ts c → live u c lc → h !! lc = Some cn → near u m c cn → deep_enough fuel c → (0 < fuel)%nat → buf = kbytes c ++ z →
  (∀ h' buf', InvH h' → same_off h h' c → hashed h' c → starts buf' c → (length buf ≤ length buf')%nat → Q (tid ts sha256 m c, buf') (with_heap u h')) →
  wp (if decide (nd_children cn = ∅) then mret (HashNode sha256 cn, buf) else
      match try_acquire (tkey c) with
      | Some childKeyBuffer => res ← hash_rec fuel lc (setKeyBuffer tokenSize cn childKeyBuffer); mret (res.1, buf)
      | None => hash_rec fuel lc (setLengthForChildren tokenSize cn buf)
      end) (with_heap u h) Q.
Proof.
  intros Hok HI Hc Hl Hcn Hnear Hdeep Hf -> HQ. pose proof (iv_valid _ _ _ _ _ _ HI) as Hval. destruct (live_node h c lc HI Hc Hl) as [Hnode _]. pose proof (near_entries u c cn Hval Hnear) as Hent.
  assert (starts (kbytes c ++ z) c) as Hst by (by apply starts_app). destruct (decide (nd_children cn = ∅)) as [He|He].
  - assert (cn = fin c) as -> by (apply (final_node u); [done|done|]; intros x e d Hx; by rewrite He in Hx). rewrite fin_id by done. apply wp_ret, HQ; [done|done| |done|done].
    intros p l Hp Hlp Hcp. destruct (decide (c = p)) as [->|Hne]; [by rewrite (live_fun ts u p l lc Hlp Hl)|]. destruct (live_node h p l HI Hp Hlp) as [Hpn _].
    destruct (node_child_next m c p Hnode Hpn Hcp Hne) as (x & d & _ & Hd & _). destruct (near_child ts sha256 m0 u m c _ x Hnear) as [e Hx]; [by eexists|]. by rewrite He in Hx.
  - destruct (try_acquire (tkey c)) as [cb|].
    + destruct (setKeyBuffer_spec c cn cb Hc (nr_key _ _ _ _ _ _ _ Hnear) Hent) as [Hb Hlen]. vbind. eapply Hok; try done. { intros x d [e He'] Hd. eapply Hlen; [done|by eapply near_child_at]. } intros h' buf' HI' Hs Hh _ _ _. apply wp_ret. by apply HQ.
    + destruct (setLengthForChildren_spec c cn (kbytes c ++ z) Hc (nr_key _ _ _ _ _ _ _ Hnear) Hent) as (z' & -> & Hl' & Hlen). eapply Hok; try done.
      * by rewrite <- app_assoc, take_app_length.
      * intros x d [e He'] Hd. eapply Hlen; [done|by eapply near_child_at].
      * intros h' buf' HI' Hs Hh _ Hs' Hll. apply HQ; try done. rewrite length_app in Hll. lia.
Qed.

(** The loop over the children [cs] of [q]. *)
Section loop.
Context (fuel : nat) (Hok : hash_ok fuel) (q : list Z) (l : loc) (n : node) (lkb : Z).
Context (Hq : vtoks ts q) (Hqn : is_node m q) (Hkey : n_key n = tkey q) (Hlq : changed u q → live u q l).
Context (Hlast : kbytes q ≠ [] → kbytes q !! (length (kbytes q) - 1)%nat = Some lkb) (Hdeep : deep_enough (S fuel) q).

(** Children of different tokens have no descendants in common. *)
Lemma children_apart x y c d p : top m (q ++ [x]) = Some c → top m (q ++ [y]) = Some d → c `prefix_of` p → d `prefix_of` p → x = y.
Proof.
  intros Hc Hd Hcp Hdp. destruct (top_child_node _ _ _ _ Hc) as (_ & _ & _ & Hx). destruct (top_child_node _ _ _ _ Hd) as (_ & _ & _ & Hy).
  pose proof (prefix_lookup_Some _ _ _ _ Hx Hcp). pose proof (prefix_lookup_Some _ _ _ _ Hy Hdp). congruence.
Qed.

Lemma child_not_above x c : top m (q ++ [x]) = Some c → ¬ c `prefix_of` q.
Proof. intros Hc Hp. destruct (top_child_node _ _ _ _ Hc) as (_ & _ & Hl & _). apply prefix_length in Hp. lia. Qed.

Lemma loop_fuel h x c lc : InvH h → top m (q ++ [x]) = Some c → vtoks ts c → live u c lc → deep_enough fuel c ∧ (0 < fuel)%nat.
Proof.
  intros HI Hc Hvc Hl. destruct (top_child_node _ _ _ _ Hc) as (_ & Hqc & Hlen & _). split.
  - intros p l' Hp Hl' Hcp. specialize (Hdeep p l' Hp Hl' ltac:(by etrans)). lia.
  - specialize (Hdeep c lc Hvc Hl Hqc). lia.
Qed.

(** What the loop leaves: [nu] is the node before. *)
Definition loop_post h (cs : list (Z * child)) (nu : node) h' (nu' : node) : Prop :=
  InvH h' ∧ h' !! l = Some nu' ∧ near u m q nu' ∧
  (∀ x, nd_children nu' !! x = if decide (x ∈ cs.*1) then fentry q <$> top m (q ++ [x]) else nd_children nu !! x) ∧
  (∀ p l', vtoks ts p → live u p l' → p ≠ q → (∀ x c, x ∈ cs.*1 → top m (q ++ [x]) = Some c → ¬ c `prefix_of` p) → h' !! l' = h !! l') ∧
  (∀ x c, x ∈ cs.*1 → top m (q ++ [x]) = Some c → hashed h' c).

(** The child [c] did not change. *)
Lemma loop_post_skip h x e c cs nu h' nu' :
  InvH h → vtoks ts c → top m (q ++ [x]) = Some c → ¬ changed u c → nd_children nu !! x = Some (fentry q c) → x ∉ cs.*1 → loop_post h cs nu h' nu' → loop_post h ((x, e) :: cs) nu h' nu'.
Proof.
  intros HI Hvc Hc Hnc Hx Hin (H1 & H2 & H3 & H4 & H5 & H6). split_and!; try done.
  - intros y. rewrite H4. cbn. destruct (decide (y = x)) as [->|Hne]; [rewrite decide_False, decide_True by (done || left); by rewrite Hc|].
    destruct (decide (y ∈ cs.*1)) as [Hy|Hy]; [by rewrite decide_True by (by right)|]. rewrite decide_False; [done|]. by intros [|]%elem_of_cons.
  - intros p l' Hp Hl Hne Hno. apply (H5 p l'); try done. intros y d Hy. apply Hno. by right.
  - intros y d [->|Hy]%elem_of_cons Hd; [|by eapply H6]. assert (d = c) as -> by (cbn in Hd; congruence). intros p l' Hp Hl Hcp. destruct Hnc. destruct (top_child_node _ _ _ _ Hc) as (Hcn & _).
    apply (iv_closed _ _ _ _ _ _ HI p l'); [done|done|by left|done].
Qed.

(** The child [c] was hashed and its entry set. *)
Lemma loop_post_step h h1 x e c cs nu h' nu' :
  InvH h → vtoks ts c → top m (q ++ [x]) = Some c → live u q l → x ∉ cs.*1 → same_off h h1 c → hashed h1 c →
  loop_post (<[l := setChildEntry nu x (fentry q c)]> h1) cs (setChildEntry nu x (fentry q c)) h' nu' → loop_post h ((x, e) :: cs) nu h' nu'.
Proof.
  intros HI Hvc Hc Hl Hin Hoff Hhash (H1 & H2 & H3 & H4 & H5 & H6). split_and!; try done.
  - intros y. rewrite H4. cbn. destruct (decide (y = x)) as [->|Hne].
    + rewrite decide_False, decide_True by (done || left). unfold nd_children. cbn. by rewrite lookup_insert_eq, Hc.
    + unfold nd_children at 1. cbn. rewrite lookup_insert_ne by done. destruct (decide (y ∈ cs.*1)) as [Hy|Hy]; [by rewrite decide_True by (by right)|].
      rewrite decide_False; [done|]. by intros [|]%elem_of_cons.
  - intros p l' Hp Hl' Hne Hno. rewrite (H5 p l'); [|done|done|done|intros y d Hy; apply Hno; by right]. rewrite lookup_insert_ne.
    + apply (Hoff p l' Hp Hl'). apply (Hno x c); [left|done].
    + intros <-. apply Hne. by apply (live_inj ts sha256 m0 (with_heap u h) m p q l HI).
  - intros y d [->|Hy]%elem_of_cons Hd; [|by eapply H6]. assert (d = c) as -> by (cbn in Hd; congruence). intros p l' Hp Hl' Hcp.
    assert (p ≠ q) as Hne by (intros ->; by apply (child_not_above x c)). rewrite (H5 p l'); [|done|done|done|].
    + rewrite lookup_insert_ne; [by apply (Hhash p l')|]. intros <-. apply Hne. by apply (live_inj ts sha256 m0 (with_heap u h) m p q l HI).
    + intros y d' Hy Hd' Hdp. apply Hin. by rewrite (children_apart x y c d' p).
Qed.

Lemma hash_children_spec cs h nu buf (Q : bytes → view → Prop) :
  InvH h → h !! l = Some nu → near u m q nu → NoDup cs.*1 → (∀ x e, (x, e) ∈ cs → nd_children nu !! x = Some e) → starts buf q →
  (∀ x c, x ∈ cs.*1 → top m (q ++ [x]) = Some c → (length (kbytes c) ≤ length buf)%nat) →
  (∀ h' nu' buf', loop_post h cs nu h' nu' → starts buf' q → (length buf ≤ length buf')%nat → Q buf' (with_heap u h')) →
  wp (hash_children tokenSize sha256 try_acquire (hash_rec fuel) l n lkb cs buf) (with_heap u h) Q.
Proof.
  revert h nu buf. induction cs as [|[x e] cs IH]; intros h nu buf HI Hnu Hnear Hnd Hcs Hst Hlen HQ; cbn [hash_children].
  { apply wp_ret. apply (HQ h nu); [|done|done]. split_and!; try done; by intros x c ?%elem_of_nil. }
  cbn in Hnd. inversion_clear Hnd as [|?? Hin Hnd']. pose proof (Hcs x e ltac:(left)) as Hxe. destruct (nr_some _ _ _ _ _ _ _ Hnear x e Hxe) as (c & Hc & He).
  pose proof (iv_valid _ _ _ _ _ _ HI) as Hval. assert (vtoks ts c) as Hvc by (by apply (top_vtoks ts m (q ++ [x]))). pose proof (top_above _ _ _ Hc) as Hqc.
  pose proof (Hlen x c ltac:(left) Hc) as Hlc. vlift; [apply (child_key_spec q x c); try done; apply He|]. set (buf1 := kbytes c ++ drop (length (kbytes c)) buf).
  assert (length buf1 = length buf) as Hl1 by (unfold buf1; rewrite length_app, length_drop; lia). assert (starts buf1 q) as Hst1 by (apply starts_app; [done|by eapply prefix_snoc_l]).
  assert (∀ y e', (y, e') ∈ cs → y ≠ x ∧ nd_children nu !! y = Some e') as Hcs'.
  { intros y e' Hy. split; [|apply Hcs; by right]. intros ->. apply Hin. apply list_elem_of_fmap. by exists (x, e'). }
  vget. cbn [v_nodes with_heap set_heap]. destruct (v_nodes u !! tkey c) as [ch|] eqn:Ech.
  - destruct (nc_after ch) as [lc|] eqn:Elc; [|destruct (iv_dead _ _ _ _ _ _ HI c ch Hvc Ech Elc); left; by eapply top_child_node]. assert (live u c lc) as Hlc' by (by exists ch).
    destruct (live_node h c lc HI Hvc Hlc') as (_ & cn & Hcn & Hcnear). vlift; [done|]. vderef.
    assert (live u q l) as Hl by (apply Hlq; apply (iv_closed _ _ _ _ _ _ HI c lc); [done|done|by left|by eapply prefix_snoc_l]).
    destruct (loop_fuel h x c lc HI Hc Hvc Hlc') as [Hd Hf]. vbind. eapply hash_child; try done. intros h1 buf2 HI1 Hoff Hhash Hst2 Hl2.
    assert (h1 !! l = Some nu) as Hnu1 by (rewrite <- Hnu; apply (Hoff q l Hq Hl); by apply (child_not_above x)). set (e1 := fentry q c).
    assert (mkChild (ch_compressedKey e) (tid ts sha256 m c) (hasValue cn) = e1) as E1.
    { unfold e1, centry. rewrite (hasValue_near _ _ _ _ _ _ _ Hcnear). by rewrite (proj1 He). }
    assert (near u m q (setChildEntry nu x e1)) as Hnear1.
    { apply (near_setChild ts sha256 m0 u u m m q nu x c e1); try done. split; [done|]. intros Hnc. destruct Hnc. by eapply live_changed. }
    vbind. eapply wp_update; [exact Hnu1|done|]. rewrite E1. eapply (IH (<[l := setChildEntry nu x e1]> h1) (setChildEntry nu x e1)); try done.
    + by apply (with_heap_inv u q); [done|done|done|apply near_u].
    + by rewrite lookup_insert_eq.
    + intros y e' Hy. destruct (Hcs' y e' Hy) as [Hne Hy']. unfold nd_children. cbn. by rewrite lookup_insert_ne.
    + apply (starts_prefix q c); [done|by eapply prefix_snoc_l|done].
    + intros y d Hy Hd'. etrans; [by apply (Hlen y d); [right|]|lia].
    + intros h' nu' buf' Hpost Hst' Hl'. apply (HQ h' nu'); [|done|lia]. by apply (loop_post_step h h1 x e c).
  - assert (¬ changed u c) as Hnc by (unfold MerkleInv.changed; rewrite Ech; by intros [? ?]). eapply (IH h nu); try done.
    + intros y e' Hy. by apply Hcs'.
    + intros y d Hy Hd'. rewrite Hl1. apply (Hlen y d); [by right|done].
    + intros h' nu' buf' Hpost Hst' Hl'. apply (HQ h' nu'); [|done|lia]. apply (loop_post_skip h x e c); try done. rewrite Hxe. f_equal. by apply (entry_unchanged (with_heap u h) q x).
Qed.
End loop.

Lemma hashChangedNode_spec fuel : hash_ok fuel.
Proof.
  induction fuel as [|fuel IH]; intros h q l n buf Q HI Hq Hqn Hn Hnear Hlq Hdeep Hf Hbuf Hlen HQ; [lia|]. cbn [hashChangedNode]. vderef.
  rewrite (nr_key _ _ _ _ _ _ _ Hnear). pose proof (iv_valid _ _ _ _ _ _ HI) as Hval. vbind.
  destruct (last_key_byte q buf (with_heap u h) Hq Hbuf) as (lkb & Hwp & Hlast).
  eapply wp_mono; [exact Hwp|]. intros b v' [-> ->]. vbind.
  eapply (hash_children_spec fuel IH q l n lkb Hq Hqn (nr_key _ _ _ _ _ _ _ Hnear) Hlq Hlast Hdeep _ h n); try done.
  - apply NoDup_map_range_keys.
  - intros x e Hx. by apply elem_of_map_range.
  - by apply starts_full.
  - intros x c ([x' e] & -> & Hx)%list_elem_of_fmap Hc. apply elem_of_map_range in Hx. apply (Hlen x' c); [by eexists|done].
  - intros h' nu' buf' (H1 & H2 & H3 & H4 & H5 & H6) Hst Hl. assert (∀ x, x ∈ (map_range (nd_children n)).*1 ↔ is_Some (nd_children n !! x)) as Hin.
    { intros x. split; [intros ([x' e] & -> & Hx%elem_of_map_range)%list_elem_of_fmap; by eexists|]. intros [e He]. apply list_elem_of_fmap. exists (x, e). split; [done|]. by apply elem_of_map_range. }
    assert (nu' = fin q) as ->.
    { apply (final_node u); [done|done|]. intros x e c Hx Hc. rewrite H4 in Hx. destruct (decide _) as [_|Hno]; [rewrite Hc in Hx; by injection Hx as <-|].
      destruct Hno. apply Hin. by eexists. }
    vderef. rewrite fin_id by done. apply wp_ret, HQ; try done.
    + intros p l' Hp Hl' Hno. apply (H5 p l'); try done; [by intros ->|]. intros x c _ Hc Hcp. apply Hno. etrans; [|exact Hcp]. by apply (top_child_node _ _ _ _ Hc).
    + intros p l' Hp Hl' Hqp. destruct (decide (q = p)) as [->|Hne].
      * by rewrite (live_fun ts u p l' l Hl' (Hlq (live_changed ts _ _ _ Hl'))).
      * destruct (live_node h p l' HI Hp Hl') as [Hpn _]. destruct (node_child_next m q p Hqn Hpn Hqp Hne) as (x & c & _ & Hc & Hcp & _).
        apply (H6 x c); try done. apply Hin. apply (near_child ts sha256 m0 u m q n x Hnear). by eexists.
Qed.
End hashing.

(** ** The root *)

(** The view when the identifiers are computed: its nodes are those of the trie. *)
Record hash_done u u' : Prop := {
  hd_rootID : v_rootID u' = merkle_root ts sha256 m;
  hd_nodes : v_nodes u' = v_nodes u;
  hd_live : ∀ p l, vtoks ts p → live u p l → v_heap u' !! l = Some (fin p);
  hd_root : match v_root u' with None => m = ∅ | Some l => ∃ r, top m [] = Some r ∧ v_heap u' !! l = Some (fin r) end;
  hd_inv : Inv u' m None;
}.

Lemma hash_fuel_spec u (key : Key) : is_Some (v_nodes u !! key) → (Z.to_nat (k_length key) < hash_fuel u)%nat.
Proof.
  intros [ch Hch%elem_of_map_to_list]. unfold hash_fuel. induction (map_to_list (v_nodes u)) as [|e l IH]; [by apply elem_of_nil in Hch|].
  cbn. apply elem_of_cons in Hch as [<-|Hch]; [cbn; lia|]. specialize (IH Hch). lia.
Qed.

Lemma same_inv u u' : v_heap u' = v_heap u → v_next u' = v_next u → v_root u' = v_root u → v_nodes u' = v_nodes u → v_applied u' = v_applied u → Inv u m None → Inv u' m None.
Proof.
  intros Eh En Er Es Ea [H1 H2 H3 H4 H5 H6 H7 H8 H9 H10]. assert (∀ q, changed u q ↔ changed u' q) as Hc by (intros q; unfold MerkleInv.changed; by rewrite Es).
  assert (∀ q n, near u m q n → near u' m q n) as Hm by (intros q n; apply near_mono; intros c; by apply Hc). unfold MerkleInv.live in *.
  split; rewrite ?Eh, ?En, ?Er, ?Ea; try done; unfold MerkleInv.live, MerkleInv.changed in *; rewrite ?Es; try done.
  - intros q l Hq Hl. destruct (H5 q l Hq Hl) as (HX & n & Hn & Hnear). split; [done|]. exists n. auto.
  - destruct (v_root u); [|done]. destruct H9 as (r & n & ? & ? & ? & ? & ?). exists r, n. split_and!; auto.
Qed.

Lemma hashChangedNodes_spec u buffer (Q : () → view → Prop) :
  Inv u m None → (∀ u', hash_done u u' → Q tt u') → wp (hashChangedNodes tokenSize sha256 try_acquire buffer) u Q.
Proof.
  intros HI HQ. pose proof (iv_root _ _ _ _ _ _ HI) as HR. pose proof (iv_valid _ _ _ _ _ _ HI) as Hval. unfold hashChangedNodes. vget. destruct (v_root u) as [l|] eqn:El.
  2:{ destruct HR as [Hm _]. apply wp_modify, HQ. split; [unfold merkle_root; by rewrite Hm, top_empty_map|done| |cbn; by rewrite El|by apply (same_inv u)].
      intros p l Hp Hl. destruct (iv_live _ _ _ _ _ _ HI p l Hp Hl) as ([Hn|] & _); [|done]. unfold is_node in Hn. by rewrite Hm, top_empty_map in Hn. }
  destruct HR as (r & n & Hr & Htop & Hn & Hnear & Hlr). cbn in Htop. assert (is_node m r) as Hrn by (by eapply top_node). vderef.
  assert (merkle_root ts sha256 m = tid ts sha256 m r) as Hroot by (unfold merkle_root; by rewrite Htop).
  destruct (decide (nd_children n = ∅)) as [He|He].
  - assert (n = fin r) as -> by (apply (final_node u); [done|done|]; intros x e c Hx; by rewrite He in Hx). apply wp_modify, HQ. split; [cbn; by rewrite fin_id|done| |cbn; rewrite El; by exists r|by apply (same_inv u)].
    intros p l' Hp Hl'. destruct (iv_live _ _ _ _ _ _ HI p l' Hp Hl') as ([Hpn|] & _); [|done]. destruct (decide (r = p)) as [->|Hne].
    + cbn. by rewrite (live_fun ts u p l' l Hl' (Hlr (live_changed ts _ _ _ Hl'))).
    + destruct (node_child_next m r p Hrn Hpn (root_prefix m r p Htop Hpn) Hne) as (x & c & _ & Hc & _). destruct (near_child ts sha256 m0 u m r _ x Hnear) as [e Hx]; [by eexists|]. by rewrite He in Hx.
  - vget. destruct (setKeyBuffer_spec r n buffer Hr (nr_key _ _ _ _ _ _ _ Hnear) (near_entries u r n Hval Hnear)) as [Hb Hlen]. vbind. rewrite <- (with_heap_id u) at 2.
    eapply (hashChangedNode_spec u (hash_fuel u) (v_heap u) r l n); try done.
    + by rewrite with_heap_id.
    + intros p l' Hp Hl' Hrp. pose proof (hash_fuel_spec u (tkey p) (live_changed ts _ _ _ Hl')) as Hfu. rewrite token_key_length in Hfu by done. pose proof (ts_pos ts). nia.
    + unfold hash_fuel. lia.
    + intros x c [e He'] Hc. eapply Hlen; [done|by eapply near_child_at].
    + intros h' buf' HI' _ Hh Hl _ _. apply wp_modify, HQ. split; [cbn; by rewrite Hroot|done| |cbn; rewrite El; by exists r|by apply (same_inv (with_heap u h'))].
      intros p l' Hp Hl'. destruct (iv_live _ _ _ _ _ _ HI p l' Hp Hl') as ([Hpn|] & _); [|done]. apply (Hh p l'); try done. by apply (root_prefix m).
Qed.
End Hash.
