(* ===== verification/MerkleRoot.v ===== *)
(** * The root of a view

    A view over a trie that holds a map computes the root of the changed map, whatever
    the order of its maps and what its buffers hold, and holds the changed map itself,
    so that views can be put over views ([view_root_canonical]). *)
From S2P Require Import Prelude Ids Bytes MerkleKey MerkleCodec MerkleTree MerkleView MerkleSpec MerkleInv MerkleInsert MerkleRemove MerkleHash.

(** ** What computations leave alone *)

Definition view_frame (v : view) : gmap Key value_change * bool * bool := (v_values v, v_invalidated v, v_once v).

Class Keeps {A} (m : VM A) : Prop := keeps : ∀ v r v', m v = Some (r, v') → view_frame v' = view_frame v.

Section keeps.
Context {A B : Type}.

#[export] Instance keeps_ret (a : A) : Keeps (mret a).
Proof. intros v r v' H. by injection H as _ <-. Qed.
#[export] Instance keeps_bind (m : VM A) (k : A → VM B) : Keeps m → (∀ a, Keeps (k a)) → Keeps (m ≫= k).
Proof.
  intros Hm Hk v r v' H. unfold mbind, VM_bind in H. destruct (m v) as [[[a|e] v1]|] eqn:E; [| |done].
  - rewrite (Hk a _ _ _ H). by eapply Hm.
  - injection H as _ <-. by eapply Hm.
Qed.
#[export] Instance keeps_fail (e : merkle_error) : Keeps (vfail e : VM A).
Proof. intros v r v' H. by injection H as _ <-. Qed.
#[export] Instance keeps_panic : Keeps (vpanic : VM A).
Proof. by intros v r v' H. Qed.
#[export] Instance keeps_get (f : view → A) : Keeps (vget f).
Proof. intros v r v' H. by injection H as _ <-. Qed.
#[export] Instance keeps_lift (o : option A) : Keeps (vlift o).
Proof. intros v r v' H. unfold vlift in H. destruct o; [|done]. by injection H as _ <-. Qed.
#[export] Instance keeps_result (x : result A merkle_error) : Keeps (vresult x).
Proof. intros v r v' H. by injection H as _ <-. Qed.
#[export] Instance keeps_found (m : VM A) : Keeps m → Keeps (if_found m).
Proof. intros Hm v r v' H. unfold if_found in H. destruct (m v) as [[[a|e] v1]|] eqn:E; [| |done]; apply Hm in E; [|destruct e]; by injection H as _ <-. Qed.
Lemma keeps_modify (f : view → view) : (∀ v, view_frame (f v) = view_frame v) → Keeps (vmodify f).
Proof. intros Hf v r v' H. injection H as _ <-. apply Hf. Qed.
End keeps.

Ltac keeps := repeat first [progress intros | assumption | solve [apply _] | apply keeps_ret | apply keeps_bind | apply keeps_fail | apply keeps_panic | apply keeps_get | apply keeps_lift | apply keeps_result | apply keeps_found
  | apply keeps_modify; done | case_match].

Section frames.
Context (ts : Z) (sha256 : bytes → ID) (T : Trie) {RZ : MapRange Z} (try_acquire : Key → option bytes).

#[export] Instance keeps_deref l : Keeps (deref l).
Proof. unfold deref. keeps. Qed.
#[export] Instance keeps_alloc n : Keeps (alloc n).
Proof. unfold alloc. keeps. Qed.
#[export] Instance keeps_store l n : Keeps (store l n).
Proof. unfold store. keeps. Qed.
#[export] Instance keeps_update l f : Keeps (update l f).
Proof. unfold update. keeps. Qed.
#[export] Instance keeps_getNode key hv : Keeps (getNode T key hv).
Proof. unfold getNode. keeps. Qed.
#[export] Instance keeps_recordKeyChange key after hv nn : Keeps (recordKeyChange T key after hv nn).
Proof. unfold recordKeyChange. keeps. Qed.

#[export] Instance keeps_visit {A} key (visit : A → loc → VM A) acc : (∀ a l, Keeps (visit a l)) → Keeps (visitPathToKey ts T key visit acc).
Proof.
  intros Hv. assert (∀ fuel l a, Keeps (visit_loop ts T fuel key visit l a)) as Hloop.
  { induction fuel as [|fuel IH]; intros l a; cbn [visit_loop]; keeps. }
  unfold visitPathToKey. keeps.
Qed.

#[export] Instance keeps_compress p n : Keeps (compressNodePath ts T p n).
Proof. unfold compressNodePath, recordNodeDeleted, recordNodeChange. keeps. Qed.
#[export] Instance keeps_visit_remove vars l : Keeps (visit_remove T vars l).
Proof. unfold visit_remove, recordNodeChange. keeps. Qed.
#[export] Instance keeps_visit_insert vars l : Keeps (visit_insert T vars l).
Proof. unfold visit_insert, recordNodeChange. keeps. Qed.
#[export] Instance keeps_remove key : Keeps (remove ts sha256 T key).
Proof. unfold remove, recordNodeDeleted, nonnil. keeps. Qed.
#[export] Instance keeps_insert key val : Keeps (insert ts sha256 T key val).
Proof. unfold insert, insert_at, insert_branch, insert_root, recordNewNode, nonnil. keeps. Qed.
#[export] Instance keeps_apply cs : Keeps (apply_changes ts sha256 T cs).
Proof. induction cs as [|[key ch] cs IH]; cbn [apply_changes]; keeps. Qed.
#[export] Instance keeps_calculate {RK : MapRange Key} : Keeps (calculateNodeChanges ts sha256 T).
Proof. unfold calculateNodeChanges. keeps. Qed.
#[export] Instance keeps_hash buffer : Keeps (hashChangedNodes ts sha256 try_acquire buffer).
Proof.
  assert (∀ fuel l b, Keeps (hashChangedNode ts sha256 try_acquire fuel l b)) as Hh.
  { induction fuel as [|fuel IH]; intros l b; cbn [hashChangedNode]; [keeps|]. apply keeps_bind; [keeps|]. intros n. apply keeps_bind; [keeps|]. intros lkb. apply keeps_bind; [|keeps].
    generalize (map_range (nd_children n)) as cs. intros cs. revert b. induction cs as [|[x e] cs IHc]; intros b; cbn [hash_children]; [keeps|]. unfold nonnil. keeps. }
  unfold hashChangedNodes. keeps.
Qed.
End frames.

Lemma wp_keeps {A} (m : VM A) v (Q : A → view → Prop) : Keeps m → wp m v (λ a v', view_frame v' = view_frame v → Q a v') → wp m v Q.
Proof. intros Hk (a & v' & Hm & HQ). exists a, v'. split; [done|]. by apply HQ, (Hk _ _ _ Hm). Qed.

(** ** Changes of a map *)

(** The tokens of a key in bytes. *)
Definition key_toks (ts : nat) (key : bytes) : list Z := split_tokens (length (vbits key) / ts) ts (vbits key).

Definition apply_op (ts : nat) (m : gmap (list Z) bytes) (op : bytes * option bytes) : gmap (list Z) bytes :=
  match op.2 with Some val => <[key_toks ts op.1 := val]> m | None => delete (key_toks ts op.1) m end.
Definition apply_ops (ts : nat) (m : gmap (list Z) bytes) (ops : list (bytes * option bytes)) : gmap (list Z) bytes := foldl (apply_op ts) m ops.

(** The view as the trie below another view. *)
Definition as_trie (T : Trie) (v : view) : Trie := mkTrie
  (λ key, match getValue T key v with Some (r, _) => r | None => Err BaseErr end)
  (λ key hadValue, match getEditableNode T key hadValue v with Some (r, _) => r | None => Err BaseErr end)
  (v_root v ≫= λ l, v_heap v !! l).

Section Root.
Context (ts : nat) {Hts : token_size ts} (sha256 : bytes → ID) (T : Trie).
Context {RZ : MapRange Z} {RK : MapRange Key} (try_acquire : Key → option bytes).
Abbreviation tokenSize := (Z.of_nat ts).
Abbreviation tmap := (gmap (list Z) bytes).
Abbreviation tkey := (token_key ts).
Context (m0 : tmap) (HT : represents ts sha256 T m0).
Abbreviation Inv := (Inv ts sha256 m0).
Implicit Types (v : view) (m : tmap) (q : list Z).

Lemma toKey_toks key : Forall is_byte key → toKey key = tkey (key_toks ts key) ∧ vtoks ts (key_toks ts key).
Proof.
  intros Hb. destruct (key_tokens_bytes ts Hts key Hb) as (t & Ht). assert (t = key_toks ts key) as <-.
  { destruct Ht as (l & Hl & Hlen & E). pose proof (packs_fun _ _ _ Hl (packs_toKey key Hb)) as ->. rewrite E. unfold key_toks. f_equal. rewrite Hlen. pose proof (ts_pos ts). by rewrite Nat.mul_comm, Nat.div_mul by lia. }
  split; [by apply key_tokens_eq|by eapply key_tokens_vtoks].
Qed.

(** ** Recorded values *)

(** The recorded changes lead from [m0] to [m]. *)
Record values_ok v m : Prop := {
  vo_valid : valid_map ts m;
  vo_keys : ∀ key : Key, is_Some (v_values v !! key) → ∃ q, vtoks ts q ∧ key = tkey q;
  vo_value : ∀ q, vtoks ts q → match v_values v !! tkey q with Some ch => vc_before ch = m0 !! q ∧ vc_after ch = m !! q | None => m !! q = m0 !! q end;
}.

Lemma apply_op_lookup m key val q : apply_op ts m (key, val) !! q = if decide (q = key_toks ts key) then val else m !! q.
Proof.
  unfold apply_op. cbn. case_decide as Hd; [subst|]; destruct val; rewrite ?lookup_insert_eq, ?lookup_delete_eq, ?lookup_insert_ne, ?lookup_delete_ne by done; done.
Qed.

Lemma recordValueChange_spec v m key val (Q : () → view → Prop) :
  v_applied v = false → values_ok v m → Forall is_byte key → (∀ vs, values_ok (set_values vs v) (apply_op ts m (key, val)) → Q tt (set_values vs v)) → wp (recordValueChange T (toKey key) val) v Q.
Proof.
  intros Ha [H1 H2 H3] Hb HQ. destruct (toKey_toks key Hb) as [-> Hk]. set (t := key_toks ts key) in *.
  assert (∀ before, before = m0 !! t → values_ok (set_values (<[tkey t := mkValueChange before val]> (v_values v)) v) (apply_op ts m (key, val))) as Hok.
  { intros before Hbef. split.
    - intros q [w Hw]. rewrite apply_op_lookup in Hw. case_decide as Hd; [by rewrite Hd|]. apply H1. by eexists.
    - intros k [ch Hch]. cbn in Hch. apply lookup_insert_Some in Hch as [[<- _]|[_ Hch]]; [by exists t|]. apply H2. by eexists.
    - intros q Hq. cbn. rewrite apply_op_lookup. fold t. case_decide as Hd; [subst q; by rewrite lookup_insert_eq|]. rewrite lookup_insert_ne; [by apply H3|].
      intros E. apply Hd. symmetry. by apply (token_key_inj ts). }
  unfold recordValueChange. vget. cbn [id]. rewrite Ha. pose proof (H3 t Hk) as Ht. destruct (v_values v !! tkey t) as [ch|].
  - apply wp_modify, HQ, Hok. by destruct Ht.
  - rewrite (tr_value _ _ _ _ HT t Hk). vbind. destruct (m0 !! t); apply wp_ret, wp_modify, HQ, Hok; done.
Qed.

Lemma record_changes_spec ops v m (Q : () → view → Prop) :
  v_applied v = false → values_ok v m → Forall (λ op, Forall is_byte op.1) ops → (∀ vs, values_ok (set_values vs v) (apply_ops ts m ops) → Q tt (set_values vs v)) → wp (record_changes T ops) v Q.
Proof.
  revert v m. induction ops as [|[key val] ops IH]; intros v m Ha Hv Hb HQ; cbn [record_changes].
  { apply wp_ret. specialize (HQ (v_values v)). destruct v. by apply HQ. }
  inversion_clear Hb as [|?? Hk Hb']. vbind. eapply recordValueChange_spec; [done|done|done|]. intros vs Hvs. eapply IH; [done|done|done|]. intros vs' Hvs'. by apply HQ.
Qed.

(** ** Applying them *)

Lemma apply_changes_spec (cs : list (Key * value_change)) v m (Q : () → view → Prop) :
  Inv v m None → NoDup cs.*1 → (∀ key ch, (key, ch) ∈ cs → ∃ q, vtoks ts q ∧ key = tkey q) →
  (∀ v' m', Inv v' m' None → (∀ q, vtoks ts q → m' !! q = match (list_to_map cs : gmap Key value_change) !! tkey q with Some ch => vc_after ch | None => m !! q end) → Q tt v') →
  wp (apply_changes tokenSize sha256 T cs) v Q.
Proof.
  revert v m. induction cs as [|[key ch] cs IH]; intros v m HI Hnd Hkeys HQ; cbn [apply_changes]; [by apply wp_ret, (HQ v m)|].
  cbn in Hnd. inversion_clear Hnd as [|?? Hin Hnd']. destruct (Hkeys key ch ltac:(left)) as (k & Hk & ->).
  assert (∀ v1 m1, Inv v1 m1 None → (∀ q, m1 !! q = if decide (q = k) then vc_after ch else m !! q) → wp (apply_changes tokenSize sha256 T cs) v1 Q) as Hrest.
  { intros v1 m1 HI1 Hm1. eapply (IH v1 m1); [done|done|intros key' ch' H'; apply (Hkeys key' ch'); by right|]. intros v' m' HI' Hm'. apply (HQ v' m' HI'). intros q Hq. rewrite (Hm' q Hq). cbn [list_to_map].
    change (list_to_map ((tkey k, ch) :: cs)) with (<[tkey k := ch]> (list_to_map cs : gmap Key value_change)). rewrite Hm1. case_decide as Hd.
    - subst q. rewrite lookup_insert_eq. by rewrite (proj1 (not_elem_of_list_to_map _ _) Hin).
    - rewrite lookup_insert_ne; [done|]. intros E. apply Hd. symmetry. by apply (token_key_inj ts). }
  vbind. destruct (vc_after ch) as [val|] eqn:Ea.
  - vbind. eapply (insert_spec ts sha256 T m0 HT v m k val); [done|done|]. intros l v1 HI1. apply wp_ret. apply (Hrest v1 _ HI1). intros q. case_decide as Hd; [subst; by rewrite lookup_insert_eq|by rewrite lookup_insert_ne].
  - eapply (remove_spec ts sha256 T m0 HT v m k); [done|done|]. intros v1 HI1. apply (Hrest v1 _ HI1). intros q. case_decide as Hd; [subst; by rewrite lookup_delete_eq|by rewrite lookup_delete_ne].
Qed.

Lemma calculateNodeChanges_spec v m (Q : () → view → Prop) :
  Inv v m0 None → values_ok v m → (∀ v', Inv v' m None → Q tt v') → wp (calculateNodeChanges tokenSize sha256 T) v Q.
Proof.
  intros HI [H1 H2 H3] HQ. unfold calculateNodeChanges. vget. eapply (apply_changes_spec _ v m0); [done|apply NoDup_map_range_keys| |].
  - intros key ch Hin. apply H2. apply elem_of_map_range in Hin. by eexists.
  - intros v' m' HI' Hm'. apply HQ. assert (m' = m) as ->; [|done]. apply map_eq. intros q. pose proof (iv_valid _ _ _ _ _ _ HI') as Hval'.
    destruct (decide (vtoks ts q)) as [Hq|Hq].
    + rewrite (Hm' q Hq), map_range_to_map. specialize (H3 q Hq). destruct (v_values v !! tkey q); [by destruct H3|done].
    + destruct (m' !! q) eqn:E; [destruct Hq; apply Hval'; by eexists|]. destruct (m !! q) eqn:E'; [destruct Hq; apply H1; by eexists|done].
Qed.

(** ** New views *)

Lemma newView_spec changes :
  Forall (λ op, Forall is_byte op.1) (BatchOps changes ++ MapOps changes) →
  ∃ v, newView T changes = Some (Ok v) ∧ Inv v m0 None ∧ values_ok v (apply_ops ts m0 (BatchOps changes ++ MapOps changes)) ∧ v_once v = false ∧ v_invalidated v = false ∧
    v_root v ≫= (λ l, v_heap v !! l) = t_getRoot T.
Proof.
  intros [Hb1 Hb2]%Forall_app. unfold newView. pose proof (tr_root _ _ _ _ HT) as Hr. set (hr := match t_getRoot T with Some r => ({[ O := r ]}, Some O) | None => (∅, None) end).
  assert (∃ heap root, hr = (heap, root) ∧ root ≫= (λ l, heap !! l) = t_getRoot T ∧ Inv (mkView heap 1%nat root ∅ ∅ Empty (None, None) false false false) m0 None) as (heap & root & -> & Hroot & HI).
  { assert (∀ v q, changed ts v q → v_nodes v = ∅ → False) as Hnc by (intros v q [ch Hch] E; by rewrite E, lookup_empty in Hch).
    assert (∀ heap root, (∀ l, is_Some (heap !! l) → (l < 1)%nat) → match root with None => m0 = ∅ | Some l => ∃ r, top m0 [] = Some r ∧ heap !! l = Some (cnode ts sha256 (tid ts sha256 m0) m0 r) end →
      Inv (mkView heap 1%nat root ∅ ∅ Empty (None, None) false false false) m0 None) as Hinit.
    { intros heap root Hfr Hrt. split; try done.
      - apply (tr_valid _ _ _ _ HT).
      - intros key Hkey. cbn in Hkey. rewrite lookup_empty in Hkey. by destruct Hkey.
      - intros q l _ Hl%live_changed. by destruct (Hnc _ _ Hl).
      - intros q _. split; [|done]. split; [intros [|]; done|by left].
      - cbn in *. destruct root as [l|]; [|done]. destruct Hrt as (r & Htop & Hl). exists r, (cnode ts sha256 (tid ts sha256 m0) m0 r).
        split_and!; [by apply (top_vtoks ts m0 []); [apply (tr_valid _ _ _ _ HT)|]|done|done|by apply (near_node0 ts sha256 T)|].
        intros Hc. by destruct (Hnc _ _ Hc).
      - intros q l p _ Hl%live_changed. by destruct (Hnc _ _ Hl). }
    unfold hr. rewrite Hr. destruct (top m0 []) as [r|] eqn:Et; cbn.
    - eexists _, _. split; [done|]. cbn. rewrite lookup_singleton_eq. split; [done|]. apply Hinit; [intros l [n Hn]; apply lookup_singleton_Some in Hn as [<- _]; lia|]. exists r. by rewrite lookup_singleton_eq.
    - eexists _, _. split; [done|]. split; [done|]. apply Hinit; [intros l [n Hn]; by rewrite lookup_empty in Hn|]. by apply top_all_None. }
  set (v0 := mkView _ _ _ _ _ _ _ _ _ _) in *. assert (values_ok v0 m0) as Hv0.
  { split; [apply (tr_valid _ _ _ _ HT)|intros key Hkey; cbn in Hkey; rewrite lookup_empty in Hkey; by destruct Hkey|]. intros q _. cbn. by rewrite lookup_empty. }
  assert (wp (_ ← record_changes T (BatchOps changes); record_changes T (MapOps changes)) v0 (λ _ v, ∃ vs, v = set_values vs v0 ∧ values_ok v (apply_ops ts m0 (BatchOps changes ++ MapOps changes)))) as (a & v & Hrun & vs & -> & Hvals).
  { vbind. eapply (record_changes_spec _ v0 m0); [done|done|done|]. intros vs Hvs. eapply record_changes_spec; [done|done|done|]. intros vs' Hvs'. exists vs'. split; [done|]. unfold apply_ops in *. by rewrite foldl_app. }
  rewrite Hrun. eexists. split; [done|]. split; [by apply (same_inv ts sha256 m0 m0 v0)|]. done.
Qed.

(** ** Reading from the view *)

Lemma view_represents v u u' m rc :
  u' = set_applied (set_rootChange rc v) → hash_done ts sha256 m0 m u v → values_ok u' m → v_invalidated u' = false → represents ts sha256 (as_trie T u') m.
Proof.
  intros -> [H1 H2 H3 H4 H5] [Hval Hkeys Hvals] Hinv. cbn in Hinv, Hvals. set (u' := set_applied (set_rootChange rc v)).
  assert (∀ q hv, vtoks ts q → t_getEditableNode (as_trie T u') (tkey q) hv =
    match v_nodes v !! tkey q with
    | Some ch => match nc_after ch with Some l => match v_heap v !! l with Some n => Ok n | None => Err BaseErr end | None => Err ErrNotFound end
    | None => t_getEditableNode T (tkey q) hv
    end) as Hget.
  { intros q hv Hq. cbn [t_getEditableNode as_trie]. unfold getEditableNode, isInvalid, getNode, deref, alloc, mbind, VM_bind, MerkleView.vget, vresult, vfail, vmodify, MerkleView.vlift, mret, VM_ret, u'. cbn -[token_key].
    rewrite Hinv. change (v_nodes (set_applied (set_rootChange rc v))) with (v_nodes v). destruct (v_nodes v !! tkey q) as [ch|].
    - destruct (nc_after ch) as [l|]; [|done]. cbn. rewrite Hinv. change (v_heap (set_applied (set_rootChange rc v))) with (v_heap v). by destruct (v_heap v !! l).
    - destruct (t_getEditableNode T (tkey q) hv); [|done]. cbn. rewrite Hinv. unfold set_heap at 1. cbn [v_heap]. by rewrite lookup_insert_eq. }
  assert (∀ q, vtoks ts q → is_node m q → v_nodes v !! tkey q = None → is_node m0 q ∧ cnode ts sha256 (tid ts sha256 m0) m0 q = cnode ts sha256 (tid ts sha256 m) m q ∧ m0 !! q = m !! q) as Hold.
  { intros q Hq Hn E. assert (¬ changed ts v q) as Hnc by (unfold changed; rewrite E; by intros [? ?]). destruct (iv_same _ _ _ _ _ _ H5 q Hq Hnc) as [Hiff Heq].
    pose proof (proj1 Hiff (or_introl Hn)) as Hn0. split; [done|]. specialize (Heq Hn0). split; [|symmetry; by apply Heq].
    apply cnode_ext; [symmetry; by apply Heq|intros x; symmetry; by apply tops_agree|]. intros x c Hc. destruct (top_child_node _ _ _ _ Hc) as (Hcn & Hqc & _). split.
    - apply tid_ext; [|by apply node_under]. intros k Hk. symmetry. apply Heq. by etrans.
    - symmetry. by apply Heq. }
  split.
  - done.
  - cbn. destruct (v_root v) as [l|]; [|by rewrite H4, top_empty_map]. destruct H4 as (r & -> & Hl). cbn. by rewrite Hl.
  - intros q Hn. assert (vtoks ts q) as Hq by (by apply (node_vtoks ts m)). rewrite Hget by done. destruct (v_nodes v !! tkey q) as [ch|] eqn:E.
    + destruct (nc_after ch) as [l|] eqn:El; [|destruct (iv_dead _ _ _ _ _ _ H5 q ch Hq E El); by left]. rewrite (H3 q l Hq); [done|]. exists ch. by rewrite <- H2.
    + destruct (Hold q Hq Hn E) as (Hn0 & <- & <-). apply (tr_node _ _ _ _ HT q Hn0).
  - intros q hv Hn. assert (vtoks ts q) as Hq by (by apply (node_vtoks ts m)). rewrite Hget by done. destruct (v_nodes v !! tkey q) as [ch|] eqn:E.
    + destruct (nc_after ch) as [l|] eqn:El; [|destruct (iv_dead _ _ _ _ _ _ H5 q ch Hq E El); by left]. left. rewrite (H3 q l Hq); [done|]. exists ch. by rewrite <- H2.
    + destruct (Hold q Hq Hn E) as (Hn0 & <- & _). by apply (tr_other _ _ _ _ HT).
  - intros q hv Hq Hn. rewrite Hget by done. destruct (v_nodes v !! tkey q) as [ch|] eqn:E.
    + destruct (nc_after ch) as [l|] eqn:El; [|done]. destruct (iv_live _ _ _ _ _ _ H5 q l Hq) as ([|] & _); [by exists ch|done|done].
    + apply (tr_absent _ _ _ _ HT); [done|]. intros Hn0. assert (¬ changed ts v q) as Hnc by (unfold changed; rewrite E; by intros [? ?]).
      destruct (iv_same _ _ _ _ _ _ H5 q Hq Hnc) as [Hiff _]. by destruct (proj2 Hiff Hn0).
  - intros q Hq. cbn [t_getValue as_trie]. unfold getValue, isInvalid, mbind, VM_bind, MerkleView.vget, vresult, vfail, mret, VM_ret, u'. cbn -[token_key]. rewrite Hinv. change (v_values (set_applied (set_rootChange rc v))) with (v_values v). specialize (Hvals q Hq).
    destruct (v_values v !! tkey q) as [ch|]; [destruct Hvals as [_ ->]; by destruct (m !! q)|]. rewrite (tr_value _ _ _ _ HT q Hq), Hvals. destruct (m0 !! q); [|done]. cbn. by rewrite Hinv.
Qed.

(** ** The root *)

Lemma wp_deferred {A} (f : view → view) (c : VM A) v (Q : A → view → Prop) : wp c v (λ a v', Q a (f v')) → wp (deferred f c) v Q.
Proof. intros (a & v' & Hm & HQ). exists a, (f v'). split; [|done]. unfold deferred. by rewrite Hm. Qed.

Lemma values_frame v v' m : v_values v' = v_values v → values_ok v m → values_ok v' m.
Proof. intros E [H1 H2 H3]. split; [done|by rewrite E|by rewrite E]. Qed.

(** A view whose changes were applied. *)
Record settled v m : Prop := {
  sd_rootID : v_rootID v = merkle_root ts sha256 m;
  sd_trie : represents ts sha256 (as_trie T v) m;
  sd_root : match v_root v with None => m = ∅ | Some l => ∃ r, top m [] = Some r ∧ v_heap v !! l = Some (cnode ts sha256 (tid ts sha256 m) m r) end;
  sd_fresh : ∀ l, is_Some (v_heap v !! l) → (l < v_next v)%nat;
  sd_invalidated : v_invalidated v = false;
}.

Lemma applyValueChanges_spec v m buffer :
  Inv v m0 None → values_ok v m → v_once v = false → v_invalidated v = false →
  wp (applyValueChanges tokenSize sha256 T try_acquire buffer) v (λ _ v', settled v' m ∧ v_rootChange v' = (v_root v ≫= λ l, v_heap v !! l, v_root v')).
Proof.
  intros HI Hv Honce Hinv. unfold applyValueChanges, isInvalid. vget. rewrite Honce. vbind. apply wp_modify. vget. cbn [v_invalidated set_once]. rewrite Hinv. apply wp_deferred.
  set (v1 := set_once v). assert (Inv v1 m0 None) as HI1 by (by apply (same_inv ts sha256 m0 m0 v)).
  vbind. assert (wp clone_root v1 (λ o v', o = (v_root v ≫= λ l, v_heap v !! l) ∧ v' = v1)) as Hclone.
  { unfold clone_root. vget. pose proof (iv_root _ _ _ _ _ _ HI) as HR. cbn [v1 v_root set_once]. destruct (v_root v) as [l|]; [|by apply wp_ret].
    destruct HR as (r & n & _ & _ & Hn & _). vderef. apply wp_ret. cbn. by rewrite Hn. }
  eapply wp_mono; [exact Hclone|]. intros o v' [-> ->]. vbind. apply wp_keeps; [apply _|].
  eapply (calculateNodeChanges_spec v1 m); [exact HI1|by apply (values_frame v)|]. intros v2 HI2 Hf2. vbind. apply wp_keeps; [apply _|].
  eapply (hashChangedNodes_spec ts sha256 try_acquire m0 m v2 buffer); [exact HI2|]. intros v3 Hd Hf3. vget. vbind. apply wp_modify. rewrite Hf2 in Hf3.
  assert (v_invalidated v3 = false) as Hi3 by (injection Hf3 as _ -> _; done). vget. cbn [v_invalidated set_rootChange]. rewrite Hi3. apply wp_ret. split; [|done]. split; [apply (hd_rootID _ _ _ _ _ _ Hd)| |apply (hd_root _ _ _ _ _ _ Hd)| |done].
  - eapply (view_represents v3 v2); [done|done| |done]. apply (values_frame v); [by injection Hf3|done].
  - apply (iv_fresh _ _ _ _ _ _ (hd_inv _ _ _ _ _ _ Hd)).
Qed.

Lemma GetMerkleRoot_spec v m buffer :
  Inv v m0 None → values_ok v m → v_once v = false → v_invalidated v = false →
  wp (GetMerkleRoot tokenSize sha256 T try_acquire buffer) v (λ id v', id = merkle_root ts sha256 m ∧ represents ts sha256 (as_trie T v') m ∧ v_rootChange v' = (v_root v ≫= λ l, v_heap v !! l, v_root v')).
Proof.
  intros HI Hv Honce Hinv. unfold GetMerkleRoot. vbind. eapply wp_mono; [by apply (applyValueChanges_spec v m)|]. intros [] v' [Hs Hrc]. apply wp_get. destruct Hs. done.
Qed.
End Root.

(** C13: A view over a trie that holds a map computes the Merkle root of the changed map
    and holds the changed map: for every batch of changes, [newView] and
    [GetMerkleRoot] succeed, the identifier is the one that the definition of the trie
    gives to the map with the changes applied in order — whatever the order in which
    the maps of changes and of children are visited, which key buffers are free and
    what they hold — and reading values, nodes and the root from the view gives the
    trie of that map, so that the same holds of a view over this view.  The old and the
    new root are recorded. *)
Theorem view_root_canonical (ts : nat) (sha256 : bytes → ID) (T : Trie) (RZ : MapRange Z) (RK : MapRange Key) (try_acquire : Key → option bytes) (m0 : gmap (list Z) bytes) (changes : ViewChanges) (buffer : bytes) :
  token_size ts → represents ts sha256 T m0 → Forall (λ op, Forall is_byte op.1) (BatchOps changes ++ MapOps changes) →
  let m := apply_ops ts m0 (BatchOps changes ++ MapOps changes) in
  ∃ v v', newView T changes = Some (Ok v) ∧
    GetMerkleRoot (Z.of_nat ts) sha256 T try_acquire buffer v = Some (Ok (merkle_root ts sha256 m), v') ∧
    represents ts sha256 (as_trie T v') m ∧
    v_rootChange v' = (t_getRoot T, v_root v').
Proof.
  intros Hts HT Hb m. destruct (newView_spec ts sha256 T m0 HT changes Hb) as (v & Hnew & HI & Hvals & Honce & Hinv & Hroot).
  destruct (GetMerkleRoot_spec ts sha256 T try_acquire m0 HT v m buffer HI Hvals Honce Hinv) as (id & v' & Hrun & -> & Hrep & Hrc). exists v, v'. rewrite <- Hroot. done.
Qed.

(** The trie of the empty map. *)
Definition empty_trie : Trie := mkTrie (λ _, Err ErrNotFound) (λ _ _, Err ErrNotFound) None.

Lemma empty_trie_represents ts sha256 `{!MapRange Z} : represents ts sha256 empty_trie ∅.
Proof.
  assert (∀ q, ¬ is_node (∅ : gmap (list Z) bytes) q) as Hn by (intros q Hq; unfold is_node in Hq; by rewrite top_empty_map in Hq).
  split; try done.
intros k Hk. rewrite lookup_empty in Hk. by destruct Hk.
Qed.

(** A hash for the examples: a polynomial of the bytes. *)
Definition demo_sha (bs : bytes) : ID :=
  let h := foldl (λ acc b, (acc * 257 + b + 1) mod 2 ^ 64) 7 bs in default Empty (ID_of_bytes ((λ i, Z.shiftr h (8 * i) mod 256) <$> seqZ 0 32)).

Definition demo_changes : ViewChanges := mkViewChanges [([1; 2], Some [10]); ([1; 3], Some [11]); ([1], Some [12]); ([1; 2], None)] [([7], Some [13])].

Lemma view_root_canonical_witness :
  let RZ := canonical_range Z in let RK := canonical_range Key in
  ∃ v v', newView empty_trie demo_changes = Some (Ok v) ∧
    GetMerkleRoot (Z.of_nat 4) demo_sha empty_trie (λ _, None) [] v = Some (Ok (merkle_root 4 demo_sha (apply_ops 4 ∅ (BatchOps demo_changes ++ MapOps demo_changes))), v') ∧
    represents 4 demo_sha (as_trie empty_trie v') (apply_ops 4 ∅ (BatchOps demo_changes ++ MapOps demo_changes)) ∧
    v_rootChange v' = (t_getRoot empty_trie, v_root v').
Proof.
  intros RZ RK. apply (view_root_canonical 4 demo_sha empty_trie RZ RK (λ _, None) ∅ demo_changes []).
  - right. right. by left.
  - apply empty_trie_represents.
  - cbn. repeat (apply Forall_cons; split; [cbn; repeat (apply Forall_cons; split; [done|]); done|]). done.
Defined.
