(* ===== verification/MerkleBinding.v ===== *)
(** * The root binds the map

    The bytes that are hashed for a node determine its key, its value and the
    identifiers of its children ([preimage_inj]).  The byte strings that are hashed for
    the root of a map are a finite list ([hashed_strings]); two maps with the same root
    are equal when no two different strings of their lists have the same hash
    ([view_root_binds]). *)
From S2P Require Import Prelude Ids Bytes MerkleKey MerkleCodec MerkleTree MerkleView MerkleSpec MerkleHash MerkleRoot.

(** ** Bytes of a node *)

Lemma AppendUvarint_app_inj a b x y : is_u64 a → is_u64 b → AppendUvarint a ++ x = AppendUvarint b ++ y → a = b ∧ x = y.
Proof. intros Ha Hb H. pose proof (r_Uvarint_complete a x Ha) as H1. rewrite H, (r_Uvarint_complete b y Hb) in H1. by simplify_eq. Qed.

Lemma id_app_inj (i j : ID) (x y : bytes) : id_bytes i ++ x = id_bytes j ++ y → i = j ∧ x = y.
Proof. intros H. apply app_inj_1 in H as [H1 H2]; [|by rewrite !id_length]. split; [by apply ID_eq|done]. Qed.

Definition id_entry (e : Z * ID) : bytes := AppendUvarint e.1 ++ id_bytes e.2.

Lemma entries_inj l l' x y :
  length l = length l' → Forall (λ e, is_u64 e.1) l → Forall (λ e, is_u64 e.1) l' → (l ≫= id_entry) ++ x = (l' ≫= id_entry) ++ y → l = l' ∧ x = y.
Proof.
  revert l'. induction l as [|[i d] l IH]; intros [|[i' d'] l'] Hlen Hl Hl'; try done. inversion_clear Hl as [|?? Hi Hl1]. inversion_clear Hl' as [|?? Hi' Hl1']. cbn in Hi, Hi'.
  change (((i, d) :: l) ≫= id_entry) with (id_entry (i, d) ++ (l ≫= id_entry)). change (((i', d') :: l') ≫= id_entry) with (id_entry (i', d') ++ (l' ≫= id_entry)).
  unfold id_entry at 1 3. cbn [fst snd]. rewrite <- !app_assoc. intros [-> H]%AppendUvarint_app_inj; [|done|done]. apply id_app_inj in H as [-> H].
  apply IH in H as [-> ->]; [done|cbn in Hlen; lia|done|done].
Qed.

Section binding.
Context (ts : nat) {Hts : token_size ts} (sha256 : bytes → ID) {RZ : MapRange Z}.
Abbreviation tmap := (gmap (list Z) bytes).
Abbreviation tid := (tid ts sha256).
Implicit Types (m : tmap) (q k c : list Z).

(** The identifiers of the children. *)
Definition child_ids (n : node) : list (Z * ID) := prod_map id ch_id <$> sorted_entries (nd_children n).

Lemma child_ids_bytes n :
  (sorted_indices (nd_children n) ≫= λ index, match nd_children n !! index with Some entry => AppendUvarint index ++ id_bytes (ch_id entry) | None => [] end) = child_ids n ≫= id_entry.
Proof.
  unfold child_ids, sorted_entries. induction (sorted_indices (nd_children n)) as [|i l IH]; [done|]. rewrite bind_cons, IH. cbn [omap list_omap]. by destruct (nd_children n !! i).
Qed.

Lemma elem_of_child_ids n x d : (x, d) ∈ child_ids n ↔ ch_id <$> nd_children n !! x = Some d.
Proof.
  unfold child_ids. rewrite list_elem_of_fmap. split.
  - intros ([x' e] & [= -> ->] & Hin). unfold sorted_entries in Hin. apply list_elem_of_omap in Hin as (j & _ & Hj). destruct (nd_children n !! j) eqn:E; [|done]. cbn in Hj. simplify_eq. by rewrite E.
  - intros Hd. destruct (nd_children n !! x) as [e|] eqn:E; [|done]. cbn in Hd. simplify_eq. exists (x, e). split; [done|]. apply list_elem_of_omap. exists x. rewrite E. split; [|done].
    rewrite sorted_indices_perm, list_elem_of_fmap. exists (x, e). split; [done|]. by apply elem_of_map_to_list.
Qed.

Lemma child_ids_length n : length (child_ids n) = size (nd_children n).
Proof.
  unfold child_ids. rewrite length_fmap, <- (length_fmap fst), sorted_entries_keys, sorted_indices_perm, length_fmap. apply length_map_to_list.
Qed.

(** What the bytes need to be read back: small indices, lengths that fit an integer. *)
Record readable (n : node) : Prop := {
  rd_index : ∀ x, is_Some (nd_children n !! x) → 0 ≤ x ≤ 255;
  rd_digest : ∀ d, n_valueDigest n = Some d → is_u64 (Z.of_nat (length d));
  rd_key : is_u64 (k_length (n_key n));
}.

Lemma child_ids_range n : readable n → Forall (λ e, is_u64 e.1) (child_ids n) ∧ is_u64 (Z.of_nat (size (nd_children n))).
Proof.
  intros [Hi _ _]. split.
  - apply Forall_forall. intros [x d] Hx%elem_of_child_ids. cbn. apply index_u64, Hi. destruct (nd_children n !! x); [by eexists|done].
  - apply int_u64. rewrite <- length_map_to_list, <- (length_fmap fst). assert (length (map_to_list (nd_children n)).*1 ≤ 256)%nat; [|unfold MaxInt; lia].
    transitivity (length (seqZ 0 256)); [|by rewrite length_seqZ]. apply submseteq_length, NoDup_submseteq; [apply NoDup_fst_map_to_list|].
    intros x ([x' e] & -> & Hx%elem_of_map_to_list)%list_elem_of_fmap. apply elem_of_seqZ. specialize (Hi x' ltac:(by eexists)). cbn. lia.
Qed.

Lemma preimage_inj n n' : readable n → readable n' → node_preimage n = node_preimage n' → child_ids n = child_ids n' ∧ n_valueDigest n = n_valueDigest n' ∧ n_key n = n_key n'.
Proof.
  intros Hr Hr'. destruct (child_ids_range n Hr) as [Hf Hs]. destruct (child_ids_range n' Hr') as [Hf' Hs']. unfold node_preimage. rewrite !child_ids_bytes.
  intros [Hsz H]%AppendUvarint_app_inj; [|done|done]. apply entries_inj in H as [Hids H]; [|rewrite !child_ids_length; lia|done|done]. split; [done|].
  assert (n_valueDigest n = n_valueDigest n' ∧ AppendUvarint (k_length (n_key n)) ++ Key_Bytes (n_key n) = AppendUvarint (k_length (n_key n')) ++ Key_Bytes (n_key n')) as [Hd Hk].
  { destruct (n_valueDigest n) as [d|] eqn:E, (n_valueDigest n') as [d'|] eqn:E'; try done; [|by injection H].
    cbn [app] in H. injection H as H. rewrite <- !app_assoc in H. apply AppendUvarint_app_inj in H as [Hl H]; [|exact (rd_digest _ Hr d E)|exact (rd_digest _ Hr' d' E')].
    apply app_inj_1 in H as [-> H]; [done|lia]. }
  split; [done|]. apply AppendUvarint_app_inj in Hk as [Hkl Hkv]; [|apply Hr|apply Hr']. destruct (n_key n), (n_key n'). unfold Key_Bytes in Hkv. cbn in *. by subst.
Qed.

(** ** Nodes with the same identifier *)

(** The hash separates these byte strings, and none is hashed to the identifier of the
    empty trie. *)
Definition coll_free (X : list bytes) : Prop :=
  Forall (λ x, sha256 x ≠ Empty ∧ Forall (λ y, sha256 x = sha256 y → x = y) X) X.

#[global] Instance coll_free_dec X : Decision (coll_free X).
Proof. unfold coll_free. apply _. Defined.

Lemma coll_free_inj X x y : coll_free X → x ∈ X → y ∈ X → sha256 x = sha256 y → x = y.
Proof. unfold coll_free. rewrite Forall_forall. intros H Hx Hy. destruct (H x Hx) as [_ Hf]. rewrite Forall_forall in Hf. by apply Hf. Qed.

Lemma coll_free_Empty X x : coll_free X → x ∈ X → sha256 x ≠ Empty.
Proof. unfold coll_free. rewrite Forall_forall. intros H Hx. by apply H. Qed.

(** The keys of the nodes of the trie of a map. *)
Definition map_nodes m : list (list Z) := filter (is_node m) ((map_to_list m).*1 ≫= λ k, (λ n, take n k) <$> seq 0 (S (length k))).

(** A value that is hashed: a shorter one is its own digest. *)
Definition long_value (w : bytes) : Prop := HashLength ≤ Z.of_nat (length w).

(** All byte strings that are hashed for the root of a map: those of the nodes, and the
    long values. *)
Definition hashed_strings m : list bytes :=
  ((λ q, node_preimage (cnode ts sha256 (tid m) m q)) <$> map_nodes m) ++ filter long_value (map_to_list m).*2.

Lemma elem_of_map_nodes m q : q ∈ map_nodes m ↔ is_node m q.
Proof.
  unfold map_nodes. rewrite list_elem_of_filter. split; [by intros [? _]|]. intros Hq. split; [done|]. destruct (node_under m q Hq) as (k & [w Hw] & [l ->]).
  apply list_elem_of_bind. exists (q ++ l). split; [|apply list_elem_of_fmap; exists (q ++ l, w); split; [done|by apply elem_of_map_to_list]].
  apply list_elem_of_fmap. exists (length q). split; [by rewrite take_app_length|]. apply elem_of_seq. rewrite length_app. lia.
Qed.

Lemma hashed_node m q : is_node m q → node_preimage (cnode ts sha256 (tid m) m q) ∈ hashed_strings m.
Proof. intros Hq. apply elem_of_app. left. apply list_elem_of_fmap. exists q. by rewrite elem_of_map_nodes. Qed.

Lemma hashed_value m k w : m !! k = Some w → long_value w → w ∈ hashed_strings m.
Proof.
  intros Hk Hw. apply elem_of_app. right. apply list_elem_of_filter. split; [done|]. apply list_elem_of_fmap. exists (k, w). split; [done|]. by apply elem_of_map_to_list.
Qed.

(** Keys short enough for their lengths to be encoded. *)
Definition short_map m : Prop := ∀ k, is_Some (m !! k) → is_u64 (Z.of_nat ts * Z.of_nat (length k)).

Lemma node_readable m q : valid_map ts m → short_map m → is_node m q → readable (cnode ts sha256 (tid m) m q).
Proof.
  intros Hm Hs Hq. assert (vtoks ts q) as Hvq by (by apply (node_vtoks ts m)). split.
  - intros x [e He]. unfold nd_children in He. cbn in He. rewrite cchildren_lookup in He by done. destruct (top m (q ++ [x])) as [c|] eqn:E; [|done].
    pose proof (child_range ts q x c (top_vtoks ts m _ _ Hm E) (top_above _ _ _ E)) as Hx. destruct Hts as [->|[->|[->| ->]]]; cbn in Hx; lia.
  - cbn. intros d. unfold valueDigest. destruct (m !! q) as [w|]; [|done]. destruct (Z.ltb_spec (Z.of_nat (length w)) HashLength) as [Hl|Hl]; intros [= <-]; (apply int_u64; unfold MaxInt); [unfold HashLength in Hl; lia|rewrite id_length; done].
  - cbn. rewrite token_key_length by done. destruct (node_under m q Hq) as (k & Hk & Hp%prefix_length). specialize (Hs k Hk). unfold is_u64 in *. pose proof (ts_pos ts). nia.
Qed.

(** The strings below all belong to one list without collisions. *)
Context (X : list bytes) (HX : coll_free X).

Lemma digest_inj (w w' : option bytes) :
  (∀ v, w = Some v → long_value v → v ∈ X) → (∀ v, w' = Some v → long_value v → v ∈ X) → valueDigest sha256 w = valueDigest sha256 w' → w = w'.
Proof.
  unfold valueDigest, HashValue, long_value. intros Hw Hw'. destruct w as [w|], w' as [w'|]; [| |..]; try done; try (by destruct (_ <? _)).
  destruct (Z.ltb_spec (Z.of_nat (length w)) HashLength) as [Hl|Hl], (Z.ltb_spec (Z.of_nat (length w')) HashLength) as [Hl'|Hl']; intros [= E].
  - by rewrite E.
  - subst w. rewrite id_length in Hl. by unfold HashLength, IDLen in Hl.
  - subst w'. rewrite id_length in Hl'. by unfold HashLength, IDLen in Hl'.
  - apply ID_eq in E. f_equal. apply (coll_free_inj X); auto.
Qed.

Lemma tid_inj m m' q q' :
  valid_map ts m → valid_map ts m' → short_map m → short_map m' → hashed_strings m ⊆ X → hashed_strings m' ⊆ X → is_node m q → is_node m' q' → tid m q = tid m' q' →
  q = q' ∧ m !! q = m' !! q ∧ ∀ x, tid m <$> top m (q ++ [x]) = tid m' <$> top m' (q ++ [x]).
Proof.
  intros Hm Hm' Hs Hs' HmX HmX' Hq Hq' H. rewrite !tid_unfold in H by (by apply node_under). apply (coll_free_inj X) in H; [|done|by apply HmX, hashed_node|by apply HmX', hashed_node].
  apply preimage_inj in H as (Hids & Hd & Hk); [|by apply node_readable..]. cbn in Hd, Hk.
  apply (token_key_inj ts) in Hk as <-; [|by apply (node_vtoks ts m)|by apply (node_vtoks ts m')].
  apply digest_inj in Hd; [|intros; by eapply HmX, hashed_value|intros; by eapply HmX', hashed_value]. split; [done|]. split; [done|]. intros x.
  assert (∀ m, valid_map ts m → ch_id <$> nd_children (cnode ts sha256 (tid m) m q) !! x = tid m <$> top m (q ++ [x])) as Hch.
  { intros m1 Hm1. unfold nd_children. cbn. rewrite cchildren_lookup by done. by destruct (top m1 (q ++ [x])). }
  rewrite <- !Hch by done. apply option_eq. intros d. by rewrite <- !elem_of_child_ids, Hids.
Qed.

(** Below nodes with the same identifier the maps agree. *)
Lemma below_agree k m m' q (n : nat) :
  valid_map ts m → valid_map ts m' → short_map m → short_map m' → hashed_strings m ⊆ X → hashed_strings m' ⊆ X → is_node m q → is_node m' q → q `prefix_of` k → (length k ≤ length q + n)%nat →
  tid m q = tid m' q → m !! k = m' !! k.
Proof.
  intros Hm Hm' Hs Hs' HmX HmX'. revert q. induction n as [|n IH]; intros q Hq Hq' Hqk Hn Hid; apply (tid_inj m m') in Hid as (_ & Hv & Hch); try done.
  { assert (q = k) as <- by (apply prefix_eq_length; [done|lia]). done. }
  destruct (decide (q = k)) as [->|Hqne]; [done|]. destruct (prefix_next q k Hqk Hqne) as (x & _ & Hx). specialize (Hch x).
  assert (∀ (m : tmap) c, top m (q ++ [x]) = Some c → is_Some (m !! k) → c `prefix_of` k) as Hpre by (intros m1 c Hc Hk; by apply (top_prefix m1 _ _ _ Hc)).
  assert (∀ (m : tmap), is_Some (m !! k) → is_Some (top m (q ++ [x]))) as Htop by (intros m1 Hk; apply top_is_Some; by exists k).
  destruct (m !! k) as [w|] eqn:Ek, (m' !! k) as [w'|] eqn:Ek'; try done.
  all: destruct (top m (q ++ [x])) as [c|] eqn:E, (top m' (q ++ [x])) as [c'|] eqn:E'; try done.
  all: try (by destruct (Htop m) as [? ?]; [rewrite Ek|congruence]); try (by destruct (Htop m') as [? ?]; [rewrite Ek'|congruence]).
  all: cbn in Hch; injection Hch as Hcid; destruct (top_child_node _ _ _ _ E) as (Hc & Hqc & Hl & _); destruct (top_child_node _ _ _ _ E') as (Hc' & _).
  all: pose proof Hcid as (-> & _)%tid_inj; try done.
  all: apply (IH c'); try done; try lia; first [apply (Hpre m _ E); by rewrite Ek|apply (Hpre m' _ E'); by rewrite Ek'].
Qed.

Lemma root_inj m m' :
  valid_map ts m → valid_map ts m' → short_map m → short_map m' → hashed_strings m ⊆ X → hashed_strings m' ⊆ X → merkle_root ts sha256 m = merkle_root ts sha256 m' → m = m'.
Proof.
  intros Hm Hm' Hs Hs' HmX HmX' Hr.
  assert (∀ m q, hashed_strings m ⊆ X → top m [] = Some q → tid m q ≠ Empty) as Hempty.
  { intros m1 q H1 Hq%top_node. rewrite tid_unfold by (by apply node_under). by apply (coll_free_Empty X), H1, hashed_node. }
  unfold merkle_root in Hr. destruct (top m []) as [r|] eqn:E, (top m' []) as [r'|] eqn:E'.
  - apply top_node in E as Hn. apply top_node in E' as Hn'. pose proof Hr as (<- & _)%tid_inj; try done. apply map_eq. intros k.
    assert (∀ m, top m [] = Some r → is_Some (m !! k) → r `prefix_of` k) as Hpre by (intros m1 H1 Hk; apply (top_prefix m1 [] r k H1); split; [done|apply prefix_nil]).
    destruct (m !! k) eqn:Ek; [|destruct (m' !! k) eqn:Ek'; [|done]]; rewrite <- Ek; [|rewrite <- Ek']; apply (below_agree k m m' r (length k)); try done; try lia;
      [apply (Hpre m E); by rewrite Ek|apply (Hpre m' E'); by rewrite Ek'].
  - by destruct (Hempty m r HmX E).
  - by destruct (Hempty m' r' HmX' E').
  - by rewrite (top_all_None m E), (top_all_None m' E').
Qed.
End binding.

(** The identifier that a view reports. *)
Lemma view_root_id ts `{!token_size ts} sha256 T `{!MapRange Z, !MapRange Key} try_acquire m0 changes buffer v id u :
  represents ts sha256 T m0 → Forall (λ op, Forall is_byte op.1) (BatchOps changes ++ MapOps changes) →
  newView T changes = Some (Ok v) → GetMerkleRoot (Z.of_nat ts) sha256 T try_acquire buffer v = Some (Ok id, u) →
  let m := apply_ops ts m0 (BatchOps changes ++ MapOps changes) in id = merkle_root ts sha256 m ∧ valid_map ts m.
Proof.
  intros HT Hb Hnew Hrun m. destruct (newView_spec ts sha256 T m0 HT changes Hb) as (v1 & Hnew1 & HI & Hvals & Honce & Hinv & _). simplify_eq.
  destruct (GetMerkleRoot_spec ts sha256 T try_acquire m0 HT v m buffer HI Hvals Honce Hinv) as (id' & u' & Hrun' & -> & Hrep & _). simplify_eq. split; [done|]. apply (tr_valid _ _ _ _ Hrep).
Qed.

(** C14: The root that a view reports binds the whole map: when two views, over any tries
    and with any changes, report the same root identifier, the maps they hold are equal,
    provided that no two different ones of the byte strings that are hashed for these two
    roots (the finitely many encodings of nodes, and the values of 32 bytes or more) have
    the same hash and none is hashed to the identifier of the empty trie.  (Keys are
    shorter than 2^64 bits.) *)
Theorem view_root_binds (ts : nat) (sha256 : bytes → ID) (RZ : MapRange Z) (RK : MapRange Key) (try_acquire : Key → option bytes) (buffer : bytes)
    (T T' : Trie) (m0 m0' : gmap (list Z) bytes) (changes changes' : ViewChanges) (v v' u u' : view) (id : ID) :
  token_size ts → represents ts sha256 T m0 → represents ts sha256 T' m0' →
  Forall (λ op, Forall is_byte op.1) (BatchOps changes ++ MapOps changes) → Forall (λ op, Forall is_byte op.1) (BatchOps changes' ++ MapOps changes') →
  let m := apply_ops ts m0 (BatchOps changes ++ MapOps changes) in
  let m' := apply_ops ts m0' (BatchOps changes' ++ MapOps changes') in
  short_map ts m → short_map ts m' → coll_free sha256 (hashed_strings ts sha256 m ++ hashed_strings ts sha256 m') →
  newView T changes = Some (Ok v) → newView T' changes' = Some (Ok v') →
  GetMerkleRoot (Z.of_nat ts) sha256 T try_acquire buffer v = Some (Ok id, u) → GetMerkleRoot (Z.of_nat ts) sha256 T' try_acquire buffer v' = Some (Ok id, u') →
  m = m'.
Proof.
  intros Hts HT HT' Hb Hb' m m' Hs Hs' HX Hn Hn' Hg Hg'. destruct (view_root_id ts sha256 T try_acquire m0 changes buffer v id u HT Hb Hn Hg) as [-> Hm].
  destruct (view_root_id ts sha256 T' try_acquire m0' changes' buffer v' _ u' HT' Hb' Hn' Hg') as [Hr Hm']. by apply (root_inj ts sha256 _ HX m m'); try done; intros x Hx; apply elem_of_app; auto.
Qed.

Definition demo_changes' : ViewChanges := mkViewChanges [([7], Some [13])] [([1], Some [12]); ([1; 3], Some [11])].

Lemma view_root_binds_witness :
  let RZ := canonical_range Z in
  let m := apply_ops 4 ∅ (BatchOps demo_changes ++ MapOps demo_changes) in
  let m' := apply_ops 4 ∅ (BatchOps demo_changes' ++ MapOps demo_changes') in
  coll_free demo_sha (hashed_strings 4 demo_sha m ++ hashed_strings 4 demo_sha m') ∧ m = m'.
Proof.
  intros RZ m m'. set (RK := canonical_range Key). assert (token_size 4) as Hts by (right; right; by left).
  assert (∀ ops, forallb (λ op, forallb (λ b, (0 <=? b) && (b <? 256)) op.1) ops = true → Forall (λ op : bytes * option bytes, Forall is_byte op.1) ops) as Hbytes.
  { intros ops H. apply Forall_forall. intros op Hop. apply Forall_forall. intros b Hb. rewrite forallb_forall in H. specialize (H op (proj1 (list_elem_of_In _ _) Hop)). rewrite forallb_forall in H.
    specialize (H b (proj1 (list_elem_of_In _ _) Hb)). unfold is_byte. lia. }
  assert (∀ m : gmap (list Z) bytes, forallb (λ e, 4 * Z.of_nat (length e.1) <? 1000) (map_to_list m) = true → short_map 4 m) as Hshort.
  { intros m1 H k [w Hw]. rewrite forallb_forall in H. specialize (H (k, w) (proj1 (list_elem_of_In _ _) (proj2 (elem_of_map_to_list _ _ _) Hw))). cbn in H. apply int_u64. unfold MaxInt. lia. }
  pose proof (empty_trie_represents 4 demo_sha) as HT.
  assert (apply_ops 4 ∅ (BatchOps demo_changes ++ MapOps demo_changes) = apply_ops 4 ∅ (BatchOps demo_changes' ++ MapOps demo_changes')) as Heq by (by vm_compute).
  destruct (newView_spec 4 demo_sha empty_trie ∅ HT demo_changes ltac:(by apply Hbytes)) as (v & E1 & HI & Hv & Ho & Hi & _).
  destruct (newView_spec 4 demo_sha empty_trie ∅ HT demo_changes' ltac:(by apply Hbytes)) as (v' & E2 & HI' & Hv' & Ho' & Hi' & _).
  destruct (GetMerkleRoot_spec 4 demo_sha empty_trie (λ _, None) ∅ HT v _ [] HI Hv Ho Hi) as (id & u & E3 & Hid & _).
  destruct (GetMerkleRoot_spec 4 demo_sha empty_trie (λ _, None) ∅ HT v' _ [] HI' Hv' Ho' Hi') as (id' & u' & E4 & Hid' & _).
  assert (id' = id) as -> by (rewrite Hid, Hid'; by f_equal).
  assert (coll_free demo_sha (hashed_strings 4 demo_sha m ++ hashed_strings 4 demo_sha m')) as Hfree by (apply (bool_decide_unpack _); vm_compute; exact I).
  split; [exact Hfree|].
  apply (view_root_binds 4 demo_sha RZ RK (λ _, None) [] empty_trie empty_trie ∅ ∅ demo_changes demo_changes' v v' u u' id Hts HT HT);
    [by apply Hbytes|by apply Hbytes|apply Hshort; by vm_compute|apply Hshort; by vm_compute|exact Hfree|exact E1|exact E2|exact E3|exact E4].
Defined.
