(* ===== verification/MerkleProof.v ===== *)
(** * Proofs of keys (src/x/merkledb/proof.go, getProof of trie.go)

    A proof that a key has a value, or has none, is the list of the nodes on the way to
    the key, with the identifiers of their children.  Its receiver builds these nodes in
    a view over a new, empty database and compares the identifier of the root. *)
From S2P Require Import Prelude Ids Bytes MerkleKey MerkleCodec MerkleView.

Record ProofNode : Type := mkProofNode { pn_Key : Key; pn_ValueOrHash : option bytes; pn_Children : gmap Z ID }.
Record Proof : Type := mkProof { pr_Path : list ProofNode; pr_Key : Key; pr_Value : option bytes }.

Definition asProofNode (n : node) : ProofNode := mkProofNode (n_key n) (n_valueDigest n) (ch_id <$> nd_children n).

Definition is_some {A} (o : option A) : bool := match o with Some _ => true | None => false end.

(** [verifyProofPath] *)
Fixpoint verifyProofPath (proof : list ProofNode) (key : option Key) : option (option merkle_error) :=
  match proof with
  | [] => Some None
  | currentProofNode :: rest =>
      if hasPartialByte (pn_Key currentProofNode) && is_some (pn_ValueOrHash currentProofNode) then Some (Some ErrPartialByteLengthWithValue) else
      match rest with
      | [] => Some None
      | next :: _ =>
          ok ← match key with Some key => HasStrictPrefix key (pn_Key currentProofNode) | None => Some true end;
          if negb ok then Some (Some ErrProofNodeNotForKey) else
          ok ← HasStrictPrefix (pn_Key next) (pn_Key currentProofNode);
          if negb ok then Some (Some ErrNonIncreasingProofNodes) else verifyProofPath rest key
      end
  end.

(** [hashValue] is the method [HashValue] of the argument [hasher]. *)
Definition valueOrHashMatches (hashValue : bytes → ID) (value valueOrHash : option bytes) : bool :=
  match value, valueOrHash with
  | None, None => true
  | Some value, Some digest =>
      if Z.of_nat (length value) <? HashLength then bool_decide (value = digest) else bool_decide (id_bytes (hashValue value) = digest)
  | _, _ => false
  end.

Section Proofs.
Context (tokenSize : Z) (sha256 : bytes → ID) (parent : Trie).
Context {RZ : MapRange Z} {RK : MapRange Key} (try_acquire : Key → option bytes).

(** ** Adding the nodes of a path to a view *)

(** A child of a node of the path that lies outside the range. *)
Definition add_child (l : loc) (key : Key) (less greater : option Key) (entry : Z * ID) : VM unit :=
  let '(index, childID) := entry in
  n ← deref l;
  let compressedKey := match nd_children n !! index with Some existingChild => ch_compressedKey existingChild | None => emptyKey end in
  childKey ← vlift (Extend key [ToToken index tokenSize; compressedKey]);
  if match less with Some k => Key_Less childKey k | None => false end || match greater with Some k => Greater childKey k | None => false end
  then store l (setChildEntry n index (mkChild compressedKey childID false)) else mret tt.

Fixpoint add_proof_children (l : loc) (key : Key) (less greater : option Key) (entries : list (Z * ID)) : VM unit :=
  match entries with
  | [] => mret tt
  | e :: entries => _ ← add_child l key less greater e; add_proof_children l key less greater entries
  end.

(** The nodes from the last to the first. *)
Fixpoint add_path (nodes : list ProofNode) (less greater : option Key) : VM unit :=
  match nodes with
  | [] => mret tt
  | proofNode :: nodes =>
      let key := pn_Key proofNode in
      if hasPartialByte key && is_some (pn_ValueOrHash proofNode) then vfail ErrPartialByteLengthWithValue else
      l ← insert tokenSize sha256 parent key None;
      n ← deref l;
      _ ← store l (mkNode (n_db n) (n_key n) (pn_ValueOrHash proofNode));
      _ ← (if negb (is_some less) && negb (is_some greater) then mret tt
           else add_proof_children l key less greater (map_range (pn_Children proofNode)));
      add_path nodes less greater
  end.

Definition addPathInfo (proofPath : list ProofNode) (insertChildrenLessThan insertChildrenGreaterThan : option Key) : VM unit :=
  add_path (reverse proofPath) insertChildrenLessThan insertChildrenGreaterThan.

(** ** Verification

    [parent] is the new database of [getStandaloneView]; its hasher is the default one,
    not the argument [hasher]. *)
Definition Proof_Verify (hashValue : bytes → ID) (proof : Proof) (expectedRootID : ID) (buffer : bytes) : option (result unit merkle_error) :=
  match last (pr_Path proof) with
  | None => Some (Err ErrEmptyProof)
  | Some lastNode =>
      err ← verifyProofPath (pr_Path proof) (Some (pr_Key proof));
      match err with
      | Some e => Some (Err e)
      | None =>
          if negb (hasPartialByte (pn_Key lastNode)) && bool_decide (pr_Key proof = pn_Key lastNode) && negb (valueOrHashMatches hashValue (pr_Value proof) (pn_ValueOrHash lastNode))
          then Some (Err ErrProofValueDoesntMatch) else
          if (hasPartialByte (pn_Key lastNode) || negb (bool_decide (pr_Key proof = pn_Key lastNode))) && is_some (pr_Value proof)
          then Some (Err ErrProofValueDoesntMatch) else
          v ← newView parent (mkViewChanges [] []);
          match v with
          | Err e => Some (Err e)
          | Ok v =>
              let provenKey := Some (pn_Key lastNode) in
              match (_ ← addPathInfo (pr_Path proof) provenKey provenKey; GetMerkleRoot tokenSize sha256 parent try_acquire buffer) v with
              | None => None
              | Some (Err e, _) => Some (Err e)
              | Some (Ok gotRootID, _) => Some (if bool_decide (expectedRootID = gotRootID) then Ok tt else Err ErrInvalidProof)
              end
          end
      end
  end.

(** ** Making a proof *)

(** The variables [proof.Path] and [closestNode]. *)
Definition visit_proof (vars : list ProofNode * option loc) (n : loc) : VM (list ProofNode * option loc) := nd ← deref n; mret (vars.1 ++ [asProofNode nd], Some n).

Definition getProof (keyBytes : bytes) : VM Proof :=
  rootl ← vget v_root;
  match rootl with
  | None => vfail ErrEmptyProof
  | Some root =>
      let key := ToKey keyBytes in
      vars ← visitPathToKey tokenSize parent key visit_proof ([], None);
      let '(path, closest) := vars : list ProofNode * option loc in
      match path with
      | [] => r ← deref root; mret (mkProof [asProofNode r] key None)
      | _ =>
          closestNode ← nonnil closest;
          cn ← deref closestNode;
          if decide (n_key cn = key) then mret (mkProof path key (nd_value cn)) else
          nextIndex ← vlift (Token key (k_length (n_key cn)) tokenSize);
          match nd_children cn !! nextIndex with
          | None => mret (mkProof path key None)
          | Some child =>
              childKey ← vlift (Extend (n_key cn) [ToToken nextIndex tokenSize; ch_compressedKey child]);
              childl ← getNode parent childKey (ch_hasValue child);
              childNode ← deref childl;
              mret (mkProof (path ++ [asProofNode childNode]) key None)
          end
      end
  end.

Definition GetProof (buffer key : bytes) : VM Proof :=
  _ ← applyValueChanges tokenSize sha256 parent try_acquire buffer;
  result ← getProof key;
  invalid ← isInvalid;
  if (invalid : bool) then vfail ErrInvalid else mret result.
End Proofs.
