(* ===== verification/MerkleVerify.v ===== *)
(** * Verification of proofs

    The identifier that a path of nodes hashes to is a function of the path
    ([path_id]).  [addPathInfo] builds the nodes of the path in the view, and hashing
    the view computes that function ([path_root]); [Proof_Verify] is decided by it
    ([Proof_Verify_spec]). *)
From stdpp Require Import sorting.
From S2P Require Import Prelude Ids Bytes MerkleKey MerkleCodec MerkleTree MerkleView MerkleProof MerkleSpec MerkleInv MerkleInsert MerkleRemove MerkleHash MerkleRoot MerkleBinding.

Section Verify.
Context (ts : nat) {Hts : token_size ts} (sha256 : bytes → ID) (T : Trie) (HT : t_getRoot T = None).
Context {RZ : MapRange Z} {RK : MapRange Key} (try_acquire : Key → option bytes).
Abbreviation tokenSize := (Z.of_nat ts).
Abbreviation tkey := (token_key ts).
Implicit Types (v : view) (q c : list Z) (l : loc) (n : node) (pn : ProofNode).

(** ** Paths *)

(** A path: the tokens of the keys and the nodes. *)
Abbreviation path := (list (list Z * ProofNode)).

Definition step_ok (e : list Z * ProofNode) : Prop :=
  vtoks ts e.1 ∧ pn_Key e.2 = tkey e.1 ∧ ∀ x, is_Some (pn_Children e.2 !! x) → 0 ≤ x < 2 ^ tokenSize.

Fixpoint increasing (ps : path) : Prop :=
  match ps with
  | (q, _) :: ((q', _) :: _) as rest => q `prefix_of` q' ∧ q ≠ q' ∧ increasing rest
  | _ => True
  end.

(** The identifiers of the children, with the next node of the path hashed. *)
Definition with_next q (children : gmap Z ID) (next : option (list Z * ID)) : gmap Z ID :=
  match next with
  | Some (q', id) => match q' !! length q with Some x => <[x := id]> children | None => children end
  | None => children
  end.

Definition claimed (ids : gmap Z ID) : gmap Z child := (λ id, mkChild emptyKey id false) <$> ids.
Definition pnode pn (ids : gmap Z ID) : node := mkNode (mkDbNode None (claimed ids)) (pn_Key pn) (pn_ValueOrHash pn).

(** The first key of the path and its identifier. *)
Fixpoint path_id (ps : path) : option (list Z * ID) :=
  match ps with
  | [] => None
  | (q, pn) :: rest => Some (q, HashNode sha256 (pnode pn (with_next q (pn_Children pn) (path_id rest))))
  end.

Lemma path_id_key ps : fst <$> path_id ps = fst <$> head ps.
Proof. by destruct ps as [|[q pn] ps]. Qed.

(** The hash looks at the identifiers of children only. *)
Lemma HashNode_ext n n' : n_key n = n_key n' → n_valueDigest n = n_valueDigest n' → ch_id <$> nd_children n = ch_id <$> nd_children n' → HashNode sha256 n = HashNode sha256 n'.
Proof.
  intros Hk Hd Hc. unfold HashNode, node_preimage. rewrite Hk, Hd. assert (∀ x, ch_id <$> nd_children n !! x = ch_id <$> nd_children n' !! x) as Hx by (intros x; by rewrite <- !lookup_fmap, Hc).
  assert (size (nd_children n) = size (nd_children n')) as -> by (rewrite <- (map_size_fmap ch_id (nd_children n)), Hc; apply map_size_fmap).
  assert (sorted_indices (nd_children n) = sorted_indices (nd_children n')) as ->.
  { apply (StronglySorted_unique Z.le); [apply sorted_indices_sorted|apply sorted_indices_sorted|]. rewrite !sorted_indices_perm.
    transitivity (map_to_list (ch_id <$> nd_children n)).*1; [|rewrite Hc]; rewrite map_to_list_fmap, <- list_fmap_compose; done. }
  do 3 f_equal. apply list_bind_ext; [|done]. intros x. specialize (Hx x). destruct (nd_children n !! x), (nd_children n' !! x); cbn in Hx; congruence.
Qed.

(** ** The view of a path *)

(** The nodes of a path and where they are. *)
Abbreviation located := (list (list Z * ProofNode * loc)).
Definition steps (pl : located) : path := pl.*1.
Definition first_key (pl : located) : option (list Z) := (λ e : list Z * ProofNode * loc, e.1.1) <$> head pl.

(** The node of a step, before it is hashed. *)
Record shape q pn (next : option (list Z)) n : Prop := {
  sh_key : n_key n = tkey q;
  sh_digest : n_valueDigest n = pn_ValueOrHash pn;
  sh_other : ∀ x, (∀ q', next = Some q' → q' !! length q ≠ Some x) → nd_children n !! x = claimed (pn_Children pn) !! x;
  sh_next : ∀ q' x, next = Some q' → q' !! length q = Some x → ∃ e, nd_children n !! x = Some e ∧ ch_compressedKey e = tkey (drop (S (length q)) q');
}.

Fixpoint shapes (h : gmap loc node) (pl : located) : Prop :=
  match pl with
  | [] => True
  | (q, pn, l) :: rest => (∃ n, h !! l = Some n ∧ shape q pn (first_key rest) n) ∧ shapes h rest
  end.

Fixpoint loc_of (pl : located) q : option loc :=
  match pl with
  | [] => None
  | (q', _, l) :: rest => if decide (q = q') then Some l else loc_of rest q
  end.

Record pview v (pl : located) : Prop := {
  pv_applied : v_applied v = false;
  pv_root : v_root v = snd <$> head pl;
  pv_nodes : ∀ q, vtoks ts q → v_nodes v !! tkey q = (λ l, mkNodeChange None (Some l)) <$> loc_of pl q;
  pv_heap : shapes (v_heap v) pl;
  pv_fresh : ∀ l, is_Some (v_heap v !! l) → (l < v_next v)%nat;
  pv_locs : NoDup pl.*2;
}.

Lemma shapes_heap h h' pl : (∀ l, l ∈ pl.*2 → h' !! l = h !! l) → shapes h pl → shapes h' pl.
Proof.
  induction pl as [|[[q pn] l] pl IH]; [done|]. intros Heq [(n & Hn & Hsh) Hrest]. split; [exists n; split; [rewrite Heq by left; done|done]|].
  apply IH; [|done]. intros l' Hl'. apply Heq. by right.
Qed.

Lemma shapes_loc h pl l : shapes h pl → l ∈ pl.*2 → is_Some (h !! l).
Proof. induction pl as [|[[q pn] l'] pl IH]; [by intros _ ?%elem_of_nil|]. intros [(n & Hn & _) Hrest] [->|Hin]%elem_of_cons; [by exists n|by apply IH]. Qed.

(** A key before the path is not on it. *)
Lemma loc_of_above pl q : increasing (steps pl) → (∀ q', first_key pl = Some q' → q `prefix_of` q' ∧ q ≠ q') → loc_of pl q = None.
Proof.
  revert q. induction pl as [|[[q1 pn] l] pl IH]; [done|]. intros q Hinc Hq. destruct (Hq q1 eq_refl) as [Hp Hne]. cbn [loc_of]. rewrite decide_False by done.
  apply IH; [by destruct pl as [|[[? ?] ?] ?]; [|apply Hinc]|]. intros q2 Hq2. destruct pl as [|[[q3 pn3] l3] pl]; [done|]. cbn in Hq2. simplify_eq. destruct Hinc as (Hp' & Hne' & _).
  split; [by etrans|]. intros ->. apply Hne. by apply prefix_antisym.
Qed.

(** What [insert] does to the view: a new root above the path. *)
Record inserted v q (next : option (list Z)) l n v' : Prop := {
  ins_loc : l = v_next v;
  ins_next : v_next v' = S (v_next v);
  ins_root : v_root v' = Some l;
  ins_nodes : v_nodes v' = <[tkey q := mkNodeChange None (Some l)]> (v_nodes v);
  ins_applied : v_applied v' = false;
  ins_node_at : v_heap v' !! l = Some n;
  ins_heap : ∀ l', l' ≠ l → v_heap v' !! l' = v_heap v !! l';
  ins_key : n_key n = tkey q;
  ins_child : ∀ x, match next with
                  | Some q' => if decide (q' !! length q = Some x) then ∃ e, nd_children n !! x = Some e ∧ ch_compressedKey e = tkey (drop (S (length q)) q') else nd_children n !! x = None
                  | None => nd_children n !! x = None
                  end;
}.

Lemma insert_above v pl q (Q : loc → view → Prop) :
  pview v pl → increasing (steps pl) → Forall step_ok (steps pl) → vtoks ts q → (∀ q', first_key pl = Some q' → q `prefix_of` q' ∧ q ≠ q') →
  (∀ l n v', inserted v q (first_key pl) l n v' → Q l v') → wp (insert tokenSize sha256 T (tkey q) None) v Q.
Proof.
  intros Hpv Hinc Hok Hq Hfirst HQ. pose proof (pv_applied _ _ Hpv) as Ha. pose proof (loc_of_above pl q Hinc Hfirst) as Hnone.
  assert (v_nodes v !! tkey q = None) as Hnn by (rewrite (pv_nodes _ _ Hpv) by done; by rewrite Hnone).
  unfold insert. vget. cbn [id]. rewrite Ha. rewrite (pv_root _ _ Hpv). destruct pl as [|[[q' pn] l'] pl]; cbn [head snd fmap option_fmap option_map].
  - vbind. apply wp_alloc. vbind. apply wp_modify. vbind. eapply wp_recordNewNode; [done|cbn; by rewrite lookup_insert_eq|]. apply wp_ret. apply (HQ _ (setValue sha256 (newNode (tkey q)) None)). split; try done; cbn.
    + unfold old_before. cbn. by rewrite Hnn.
    + by rewrite lookup_insert_eq.
    + intros l' Hl'. by rewrite lookup_insert_ne.
  - destruct (Hfirst q' eq_refl) as [Hqq Hne]. destruct (pv_heap _ _ Hpv) as [(n' & Hn' & Hsh) _]. inversion_clear Hok as [|?? [Hq' _] _]. cbn in Hq'.
    assert (¬ q' `prefix_of` q) as Hnp by (intros Hp; apply Hne; by apply prefix_antisym). destruct (prefix_next q q' Hqq Hne) as (y & Hy & Hqy).
    vbind. unfold visitPathToKey. vget. rewrite (pv_root _ _ Hpv). cbn [head snd fmap option_fmap option_map]. vderef. rewrite (sh_key _ _ _ _ Hsh). vlift; [by apply token_key_HasPrefix|].
    rewrite bool_decide_eq_false_2 by done. cbn [negb]. apply wp_ret. vbind. unfold insert_root. vget. rewrite (pv_root _ _ Hpv). cbn [head snd fmap option_fmap option_map].
    vlift; [done|]. vderef. rewrite (sh_key _ _ _ _ Hsh). assert (lcp q' q = q) as Hlcp by (apply prefix_antisym; [apply lcp_r|by apply lcp_greatest]). vlift.
    { pose proof (getLengthOfCommonPrefix_spec ts q' q 0 Hq' Hq ltac:(lia)) as H. rewrite Z.mul_0_r, drop_0, Hlcp in H. exact H. }
    vlift; [by apply token_key_Take|]. rewrite <- (proj1 (prefix_take _ q q') Hqq). set (e := mkChild (tkey (drop (S (length q)) q')) (HashNode sha256 n') (hasValue n')).
    vlift; [apply (addChild_spec ts (newNode (tkey q)) n' _ q y q'); [done|done|apply (sh_key _ _ _ _ Hsh)|done]|]. fold e. set (nb := setChildEntry (newNode (tkey q)) y e).
    vbind. apply wp_alloc. vbind. eapply wp_recordNewNode; [done|cbn; by rewrite lookup_insert_eq|]. vbind. apply wp_modify, wp_ret. unfold insert_at. vbind. eapply wp_deref; [cbn; by rewrite lookup_insert_eq|].
    rewrite decide_True by done. vbind. apply wp_store, wp_ret. apply (HQ _ (setValue sha256 nb None)). split; try done; cbn.
    + unfold old_before. cbn. by rewrite Hnn.
    + by rewrite lookup_insert_eq.
    + intros l Hl. by rewrite !lookup_insert_ne.
    + intros x. unfold nd_children. cbn. case_decide as Hx.
      * assert (x = y) as -> by congruence. rewrite lookup_insert_eq. by eexists.
      * rewrite lookup_insert_ne by congruence. by rewrite lookup_empty.
Qed.

(** ** The claimed children *)

Lemma Compare_differ c d : vtoks ts c → vtoks ts d → c ≠ d → Key_Less (tkey c) (tkey d) || Greater (tkey c) (tkey d) = true.
Proof.
  intros Hc Hd Hne. destruct (tkey_packs ts c Hc) as [lc Hlc]. destruct (tkey_packs ts d Hd) as [ld Hld]. unfold Key_Less, Greater. rewrite (Compare_spec _ _ _ _ Hlc Hld).
  destruct (bits_compare lc ld) eqn:E; try done. destruct Hne. apply (token_key_inj ts); [done|done|]. apply (packs_unique _ _ lc); [done|].
  unfold bits_compare in E. apply bcompare_eq in E. assert (lc = ld) as -> by (apply (list_fmap_eq_inj Z.b2z); [intros [] []|]; done). done.
Qed.

Section children.
Context (l : loc) (q qn : list Z) (next : option (list Z)) (Hq : vtoks ts q) (Hqn : vtoks ts qn).
Definition is_next (x : Z) : Prop := ∃ q', next = Some q' ∧ q' !! length q = Some x.

#[global] Instance is_next_dec x : Decision (is_next x).
Proof.
  unfold is_next. destruct next as [q'|]; [|right; by intros (? & ? & _)]. destruct (decide (q' !! length q = Some x)) as [H|H]; [left; by exists q'|right].
  intros (q1 & [= <-] & H1). done.
Defined.

(** Entries at the place of the next node keep its key. *)
Definition next_entry (o : option child) : Prop := ∃ q' e, next = Some q' ∧ o = Some e ∧ ch_compressedKey e = tkey (drop (S (length q)) q').

Context (Hnext : ∀ q', next = Some q' → vtoks ts q' ∧ q `prefix_of` q' ∧ q ≠ q') (Hlast : ∀ x, ¬ is_next x → q ++ [x] ≠ qn).

Lemma add_proof_children_spec es v n (Q : () → view → Prop) :
  v_heap v !! l = Some n → NoDup es.*1 → (∀ x id, (x, id) ∈ es → 0 ≤ x < 2 ^ tokenSize ∧ if decide (is_next x) then next_entry (nd_children n !! x) else nd_children n !! x = None) →
  (∀ n', n_key n' = n_key n → n_valueDigest n' = n_valueDigest n →
     (∀ x, if decide (is_next x) then next_entry (nd_children n !! x) → next_entry (nd_children n' !! x)
           else nd_children n' !! x = match (list_to_map es : gmap Z ID) !! x with Some id => Some (mkChild emptyKey id false) | None => nd_children n !! x end) →
     Q tt (set_heap (<[l := n']> (v_heap v)) (v_next v) v)) →
  wp (add_proof_children tokenSize l (tkey q) (Some (tkey qn)) (Some (tkey qn)) es) v Q.
Proof.
  revert v n. induction es as [|[x id] es IH]; intros v n Hn Hnd Hes HQ; cbn [add_proof_children].
  { apply wp_ret. specialize (HQ n eq_refl eq_refl). rewrite insert_id in HQ by done. destruct v. apply HQ. intros x. case_decide; [done|]. by rewrite list_to_map_nil, lookup_empty. }
  cbn in Hnd. inversion_clear Hnd as [|?? Hin Hnd']. destruct (Hes x id ltac:(left)) as [Hx Hxn]. unfold add_child. vbind. vderef.
  assert (∀ n1, n_key n1 = n_key n → n_valueDigest n1 = n_valueDigest n → (∀ y, y ≠ x → nd_children n1 !! y = nd_children n !! y) →
    (if decide (is_next x) then next_entry (nd_children n1 !! x) else nd_children n1 !! x = Some (mkChild emptyKey id false)) →
    wp (add_proof_children tokenSize l (tkey q) (Some (tkey qn)) (Some (tkey qn)) es) (set_heap (<[l := n1]> (v_heap v)) (v_next v) v) Q) as Hrest.
  { intros n1 Hk1 Hd1 Hoth Hx1. eapply (IH _ n1); [cbn; by rewrite lookup_insert_eq|done| |].
    - intros y id' Hy. destruct (Hes y id' ltac:(by right)) as [Hr Hyn]. split; [done|]. rewrite Hoth; [done|]. intros ->. apply Hin, list_elem_of_fmap. by exists (x, id').
    - intros n' Hk' Hd' Hch. cbn [v_heap set_heap v_next]. rewrite insert_insert_eq. apply HQ; [congruence|congruence|]. intros y. specialize (Hch y). destruct (decide (is_next y)) as [Hy|Hy].
      + intros Hnx. apply Hch. destruct (decide (y = x)) as [->|Hne]; [by rewrite decide_True in Hx1 by done|by rewrite Hoth].
      + rewrite Hch. change (list_to_map ((x, id) :: es)) with (<[x := id]> (list_to_map es : gmap Z ID)). destruct (decide (y = x)) as [->|Hne].
        * rewrite lookup_insert_eq, (proj1 (not_elem_of_list_to_map _ _) Hin). by rewrite decide_False in Hx1 by done.
        * rewrite lookup_insert_ne by done. by rewrite Hoth. }
  assert (∀ ck, nd_children (setChildEntry n x (mkChild ck id false)) !! x = Some (mkChild ck id false)) as Hset by (intros ck; unfold nd_children; cbn; by rewrite lookup_insert_eq).
  assert (∀ ck y, y ≠ x → nd_children (setChildEntry n x (mkChild ck id false)) !! y = nd_children n !! y) as Hset' by (intros ck y Hy; unfold nd_children; cbn; by rewrite lookup_insert_ne).
  destruct (decide (is_next x)) as [Hxx|Hxx].
  - destruct Hxn as (q' & e & Hq' & He & Hk). rewrite He, Hk. destruct (Hnext q' Hq') as (Hvq' & Hp & Hne). vlift; [apply token_key_Extend; try done; by apply vtoks_drop|]. case_match.
    + apply wp_store, Hrest; try done; [by apply Hset'|]. rewrite Hset. by exists q', (mkChild (tkey (drop (S (length q)) q')) id false).
    + apply wp_ret. assert (set_heap (<[l := n]> (v_heap v)) (v_next v) v = v) as E by (rewrite insert_id by done; by destruct v). rewrite <- E. apply Hrest; try done. by exists q', e.
  - rewrite Hxn. change emptyKey with (tkey []). vlift; [apply token_key_Extend; try done; by constructor|].
    rewrite Compare_differ; [|apply vtoks_app; split; [done|]; by constructor|done|by apply Hlast]. apply wp_store, Hrest; [done|done|by apply Hset'|by apply Hset].
Qed.
End children.

(** ** Adding a path *)

Definition plain (e : list Z * ProofNode) : Prop := hasPartialByte (pn_Key e.2) && is_some (pn_ValueOrHash e.2) = false.

(** The last key of a path. *)
Definition ends_with qn (ps : path) : Prop := ∃ pn, last ps = Some (qn, pn).

Lemma increasing_tail e ps : increasing (e :: ps) → increasing ps.
Proof. destruct e, ps as [|[? ?] ?]; [done|]. by intros (_ & _ & H). Qed.

Lemma increasing_last e ps qn : increasing (e :: ps) → ends_with qn (e :: ps) → e.1 `prefix_of` qn.
Proof.
  revert e. induction ps as [|[q' pn'] ps IH]; intros [q pn] Hinc [pn1 Hl]; [by cbn in Hl; simplify_eq|]. destruct Hinc as (Hp & _ & Hinc). cbn. etrans; [exact Hp|].
  apply (IH (q', pn') Hinc). by exists pn1.
Qed.

Lemma step_last q pn pl qn x : increasing ((q, pn) :: steps pl) → ends_with qn ((q, pn) :: steps pl) → ¬ is_next q (first_key pl) x → q ++ [x] ≠ qn.
Proof.
  intros Hinc Hend Hnx E. destruct pl as [|[[q' pn'] l'] pl].
  - destruct Hend as [pn1 Hl]. cbn in Hl. injection Hl as Hqq _. rewrite <- Hqq in E. apply (f_equal length) in E. rewrite length_app in E. cbn in E. lia.
  - apply Hnx. exists q'. split; [done|]. destruct Hinc as (Hp & Hne & Hinc). assert (q' `prefix_of` qn) as Hq' by (apply (increasing_last _ _ _ Hinc); destruct Hend as [pn1 Hl]; by exists pn1).
    rewrite <- E in Hq'. pose proof (prefix_length _ _ Hq') as Hl'. rewrite length_app in Hl'. cbn in Hl'. destruct (prefix_next q q' Hp Hne) as (y & Hy & _).
    pose proof (prefix_lookup_Some _ _ _ _ Hy Hq') as Hy'. rewrite lookup_app_r, Nat.sub_diag in Hy' by lia. cbn in Hy'. congruence.
Qed.

Lemma pview_inserted v pl q pn l n v' n' :
  pview v pl → inserted v q (first_key pl) l n v' → vtoks ts q → shape q pn (first_key pl) n' → pview (set_heap (<[l := n']> (v_heap v')) (v_next v') v') ((q, pn, l) :: pl).
Proof.
  intros Hpv Hin Hq Hsh. assert (l ∉ pl.*2) as Hfr.
  { intros Hl. apply (shapes_loc _ _ _ (pv_heap _ _ Hpv)) in Hl. apply (pv_fresh _ _ Hpv) in Hl. rewrite (ins_loc _ _ _ _ _ _ Hin) in Hl. lia. }
  split; cbn.
  - apply (ins_applied _ _ _ _ _ _ Hin).
  - apply (ins_root _ _ _ _ _ _ Hin).
  - intros p Hp. rewrite (ins_nodes _ _ _ _ _ _ Hin). destruct (decide (p = q)) as [->|Hne]; [by rewrite lookup_insert_eq|].
    rewrite lookup_insert_ne by (intros E; apply Hne; symmetry; by apply (token_key_inj ts)). by apply (pv_nodes _ _ Hpv).
  - split; [exists n'; by rewrite lookup_insert_eq|]. apply (shapes_heap (v_heap v)); [|apply (pv_heap _ _ Hpv)]. intros l' Hl'. assert (l' ≠ l) as Hne by (by intros ->).
    rewrite lookup_insert_ne by done. by apply (ins_heap _ _ _ _ _ _ Hin).
  - intros l' [n1 Hn1]. rewrite (ins_next _ _ _ _ _ _ Hin). apply lookup_insert_Some in Hn1 as [[<- _]|[Hne Hn1]]; [rewrite (ins_loc _ _ _ _ _ _ Hin); lia|].
    rewrite (ins_heap _ _ _ _ _ _ Hin) in Hn1 by done. pose proof (pv_fresh _ _ Hpv l' ltac:(by eexists)). lia.
  - constructor; [done|apply (pv_locs _ _ Hpv)].
Qed.

Lemma add_step v pl q pn qn (k : VM ()) (Q : () → view → Prop) :
  pview v pl → increasing ((q, pn) :: steps pl) → Forall step_ok ((q, pn) :: steps pl) → ends_with qn ((q, pn) :: steps pl) → vtoks ts qn → plain (q, pn) →
  (∀ v' l, pview v' ((q, pn, l) :: pl) → wp k v' Q) →
  wp (l ← insert tokenSize sha256 T (pn_Key pn) None; n ← deref l; _ ← store l (mkNode (n_db n) (n_key n) (pn_ValueOrHash pn));
      _ ← (if negb (is_some (Some (tkey qn))) && negb (is_some (Some (tkey qn))) then mret tt else add_proof_children tokenSize l (pn_Key pn) (Some (tkey qn)) (Some (tkey qn)) (map_range (pn_Children pn))); k) v Q.
Proof.
  intros Hpv Hinc Hok Hend Hqn Hpl HQ. apply Forall_cons in Hok as [(Hq & Hkey & Hidx) Hok']. cbn [fst snd] in Hq, Hkey, Hidx. rewrite Hkey.
  assert (∀ q', first_key pl = Some q' → vtoks ts q' ∧ q `prefix_of` q' ∧ q ≠ q') as Hfirst.
  { intros q' Hq'. destruct pl as [|[[q1 pn1] l1] pl]; [done|]. cbn in Hq'. simplify_eq. destruct Hinc as (Hp & Hne & _). apply Forall_cons in Hok' as [(Hv & _) _]. done. }
  vbind. eapply (insert_above v pl); [done|by eapply increasing_tail|done|done|intros q' Hq'; by apply Hfirst|]. intros l n v1 Hin. vbind. eapply wp_deref; [apply (ins_node_at _ _ _ _ _ _ Hin)|].
  vbind. apply wp_store. vbind. cbn [is_some negb andb]. set (n1 := mkNode (n_db n) (n_key n) (pn_ValueOrHash pn)).
  assert (∀ x, if decide (is_next q (first_key pl) x) then next_entry q (first_key pl) (nd_children n1 !! x) else nd_children n1 !! x = None) as Hn1.
  { intros x. pose proof (ins_child _ _ _ _ _ _ Hin x) as Hx. change (nd_children n1) with (nd_children n). destruct (first_key pl) as [q'|].
    - case_decide as Hd; [rewrite decide_True by (by exists q'); destruct Hx as (e & He & Hk); by exists q', e|]. rewrite decide_False; [done|]. intros (q1 & [= <-] & H1). done.
    - rewrite decide_False; [done|]. by intros (q1 & ? & _). }
  eapply (add_proof_children_spec l q qn (first_key pl) Hq Hqn Hfirst (λ x, step_last q pn pl qn x Hinc Hend) _ _ n1).
  - cbn. by rewrite lookup_insert_eq.
  - apply NoDup_map_range_keys.
  - intros x id Hx%elem_of_map_range. split; [apply Hidx; by eexists|apply Hn1].
  - intros n' Hk' Hd' Hch. cbn [v_heap set_heap v_next]. rewrite insert_insert_eq. eapply (HQ _ l). apply (pview_inserted v pl q pn l n v1 n' Hpv Hin Hq). rewrite map_range_to_map in Hch. split.
    + rewrite Hk'. apply (ins_key _ _ _ _ _ _ Hin).
    + by rewrite Hd'.
    + intros x Hno. specialize (Hch x). specialize (Hn1 x). rewrite decide_False in Hch, Hn1 by (intros (q' & H1 & H2); by apply (Hno q')). rewrite Hch, Hn1. unfold claimed. rewrite lookup_fmap. by destruct (pn_Children pn !! x).
    + intros q' x Hq' Hx. specialize (Hch x). specialize (Hn1 x). assert (is_next q (first_key pl) x) as Hix by (by exists q'). rewrite decide_True in Hch, Hn1 by done.
      destruct (Hch Hn1) as (q1 & e & Hq1 & He & Hke). simplify_eq. by exists e.
Qed.

Lemma add_path_spec (rps : path) v pl qn (Q : () → view → Prop) :
  pview v pl → increasing (reverse rps ++ steps pl) → Forall step_ok (reverse rps ++ steps pl) → Forall plain rps → ends_with qn (reverse rps ++ steps pl) → vtoks ts qn →
  (∀ v' pl', pview v' pl' → steps pl' = reverse rps ++ steps pl → Q tt v') →
  wp (add_path tokenSize sha256 T rps.*2 (Some (tkey qn)) (Some (tkey qn))) v Q.
Proof.
  revert v pl. induction rps as [|[q pn] rps IH]; intros v pl Hpv Hinc Hok Hpl Hend Hqn HQ; cbn [add_path fmap list_fmap]; [by apply wp_ret, (HQ v pl)|].
  inversion_clear Hpl as [|?? Hp1 Hpl']. rewrite reverse_cons, <- app_assoc in *. cbn [app] in *.
  assert (∀ ps ps' : path, increasing (ps ++ ps') → increasing ps') as Hsuf by (induction ps as [|e ps IHs]; intros ps' H; [done|]; by eapply IHs, increasing_tail).
  change ((q, pn).2) with pn. unfold plain in Hp1. cbn [snd] in Hp1. rewrite Hp1. eapply add_step; [done|by eapply Hsuf|by apply Forall_app in Hok as [_ Hok]| |done|done|].
  - destruct Hend as [pn1 Hl]. rewrite last_app_cons in Hl. by exists pn1.
  - intros v' l Hpv'. eapply (IH v' ((q, pn, l) :: pl)); try done.
Qed.

(** ** Hashing a path *)

Abbreviation hash_rec := (hashChangedNode tokenSize sha256 try_acquire).
Abbreviation kbytes := (kbytes ts).
Abbreviation child_at := (child_at ts).

(** Children that did not change are passed over. *)
Lemma hash_skip hash l n q lkb cs1 cs2 v buf (Q : bytes → view → Prop) :
  vtoks ts q → n_key n = tkey q → (kbytes q ≠ [] → kbytes q !! (length (kbytes q) - 1)%nat = Some lkb) → starts ts buf q →
  (∀ x e, (x, e) ∈ cs1 → ∃ c, child_at q x e c ∧ v_nodes v !! tkey c = None ∧ (length (kbytes c) ≤ length buf)%nat) →
  (∀ buf', starts ts buf' q → length buf' = length buf → wp (hash_children tokenSize sha256 try_acquire hash l n lkb cs2 buf') v Q) →
  wp (hash_children tokenSize sha256 try_acquire hash l n lkb (cs1 ++ cs2) buf) v Q.
Proof.
  intros Hq Hk Hlast. revert buf. induction cs1 as [|[x e] cs1 IH]; intros buf Hst Hcs HQ; [by apply HQ|]. cbn [app hash_children].
  destruct (Hcs x e ltac:(left)) as (c & (Hvc & Hx & Hke) & Hnone & Hlen). vlift; [by apply (child_key_spec ts q x c)|]. vget. rewrite Hnone. set (buf1 := kbytes c ++ drop (length (kbytes c)) buf).
  assert (length buf1 = length buf) as Hl1 by (unfold buf1; rewrite length_app, length_drop; lia). apply IH.
  - apply starts_app; try done. by eapply prefix_snoc_l.
  - intros y e' Hy. rewrite Hl1. apply Hcs. by right.
  - intros buf' Hst' Hl'. apply HQ; [done|lia].
Qed.

Definition next_ok q (next : option (list Z)) : Prop := ∀ q', next = Some q' → vtoks ts q' ∧ q `prefix_of` q' ∧ q ≠ q'.

Lemma shape_child q pn next n x e :
  vtoks ts q → step_ok (q, pn) → next_ok q next → shape q pn next n → nd_children n !! x = Some e →
  (∃ q', next = Some q' ∧ q' !! length q = Some x ∧ child_at q x e q') ∨ (¬ is_next q next x ∧ child_at q x e (q ++ [x])).
Proof.
  intros Hq (_ & _ & Hidx) Hnext Hsh He. destruct (decide (is_next q next x)) as [(q' & Hq' & Hx)|Hno].
  - left. exists q'. split; [done|]. split; [done|]. destruct (Hnext q' Hq') as (Hv & Hp & Hne). destruct (sh_next _ _ _ _ Hsh q' x Hq' Hx) as (e' & He' & Hk). simplify_eq. split; [done|]. split; [by apply prefix_next_iff|done].
  - right. split; [done|]. rewrite (sh_other _ _ _ _ Hsh) in He by (intros q' H1 H2; apply Hno; by exists q'). unfold claimed in He. rewrite lookup_fmap in He.
    destruct (pn_Children pn !! x) as [id|] eqn:Ex; [|done]. cbn in He. simplify_eq. split; [|split; [done|]].
    + apply vtoks_app. split; [done|]. constructor; [|done]. apply Hidx. by eexists.
    + cbn [ch_compressedKey]. rewrite drop_ge; [done|]. rewrite length_app. cbn. lia.
Qed.

Lemma shape_entries q pn next n : vtoks ts q → step_ok (q, pn) → next_ok q next → shape q pn next n → entries_of ts q n.
Proof. intros Hq Hok Hn Hsh x e He. destruct (shape_child q pn next n x e Hq Hok Hn Hsh He) as [(q' & _ & _ & H)|[_ H]]; eauto. Qed.

Fixpoint linked (nodes : gmap Key node_change) (pl : located) : Prop :=
  match pl with
  | [] => True
  | (q, _, _) :: rest =>
      (∀ x, ¬ is_next q (first_key rest) x → vtoks ts (q ++ [x]) → nodes !! tkey (q ++ [x]) = None) ∧
      match rest with (q', _, l') :: _ => nodes !! tkey q' = Some (mkNodeChange None (Some l')) | [] => True end ∧ linked nodes rest
  end.

(** The hash of a node whose next child was hashed. *)
Lemma hash_with_next q pn q' n x e id hv :
  step_ok (q, pn) → shape q pn (Some q') n → q' !! length q = Some x → nd_children n !! x = Some e →
  HashNode sha256 (setChildEntry n x (mkChild (ch_compressedKey e) id hv)) = HashNode sha256 (pnode pn (with_next q (pn_Children pn) (Some (q', id)))).
Proof.
  intros (_ & Hk & _) Hsh Hx He. apply HashNode_ext; cbn [n_key n_valueDigest setChildEntry pnode]; [rewrite (sh_key _ _ _ _ Hsh); by symmetry|by rewrite (sh_digest _ _ _ _ Hsh)|].
  unfold with_next. rewrite Hx. unfold nd_children at 1 2. cbn. apply map_eq. intros y. unfold claimed. rewrite !lookup_fmap. destruct (decide (y = x)) as [->|Hne]; [by rewrite !lookup_insert_eq|].
  rewrite !lookup_insert_ne by done. change (n_children (n_db n)) with (nd_children n). rewrite (sh_other _ _ _ _ Hsh) by (intros q1 [= <-]; congruence). unfold claimed. rewrite lookup_fmap. by destruct (pn_Children pn !! y).
Qed.

Lemma hash_without_next q pn n : step_ok (q, pn) → shape q pn None n → HashNode sha256 n = HashNode sha256 (pnode pn (pn_Children pn)).
Proof.
  intros (_ & Hk & _) Hsh. apply HashNode_ext; cbn [n_key n_valueDigest pnode]; [rewrite (sh_key _ _ _ _ Hsh); by symmetry|by rewrite (sh_digest _ _ _ _ Hsh)|].
  f_equal. apply map_eq. intros y. by rewrite (sh_other _ _ _ _ Hsh).
Qed.

Section hash_path.
Context (u : view).

Definition path_ok (pl : located) : Prop := Forall step_ok (steps pl) ∧ increasing (steps pl) ∧ NoDup pl.*2 ∧ linked (v_nodes u) pl.

Lemma path_ok_tail e pl : path_ok (e :: pl) → path_ok pl.
Proof.
  intros (H1 & H2 & H3 & H4). destruct e as [[q pn] l]. apply Forall_cons in H1 as [_ H1]. apply NoDup_cons in H3 as [_ H3]. split; [done|]. split; [by eapply increasing_tail|]. split; [done|]. apply H4.
Qed.

Lemma path_ok_next q pn l pl : path_ok ((q, pn, l) :: pl) → vtoks ts q ∧ step_ok (q, pn) ∧ next_ok q (first_key pl).
Proof.
  intros (H1 & H2 & _). apply Forall_cons in H1 as [Hok H1]. split; [apply Hok|]. split; [done|]. intros q' Hq'. destruct pl as [|[[q1 pn1] l1] pl]; [done|]. cbn in Hq'. simplify_eq.
  apply Forall_cons in H1 as [(Hv & _) _]. destruct H2 as (Hp & Hne & _). done.
Qed.

Definition hash_path_ok (fuel : nat) (pl : located) : Prop := ∀ h q pn l n buf id (Q : ID * bytes → view → Prop),
  head pl = Some (q, pn, l) → path_ok pl → shapes h pl → h !! l = Some n → (length pl ≤ fuel)%nat → path_id (steps pl) = Some (q, id) →
  take (length (kbytes q)) buf = kbytes q → (∀ x e c, nd_children n !! x = Some e → child_at q x e c → (length (kbytes c) ≤ length buf)%nat) →
  (∀ h' buf', (∀ l', l' ∉ pl.*2 → h' !! l' = h !! l') → starts ts buf' q → (length buf ≤ length buf')%nat → Q (id, buf') (with_heap u h')) →
  wp (hash_rec fuel l buf) (with_heap u h) Q.

(** The next node of the path. *)
Lemma hash_next fuel pl h q pn l n z id (Q : ID * bytes → view → Prop) :
  hash_path_ok fuel pl → head pl = Some (q, pn, l) → path_ok pl → shapes h pl → h !! l = Some n → (length pl ≤ fuel)%nat → path_id (steps pl) = Some (q, id) →
  (∀ h' buf', (∀ l', l' ∉ pl.*2 → h' !! l' = h !! l') → starts ts buf' q → (length (kbytes q ++ z) ≤ length buf')%nat → Q (id, buf') (with_heap u h')) →
  wp (if decide (nd_children n = ∅) then mret (HashNode sha256 n, kbytes q ++ z) else
      match try_acquire (tkey q) with
      | Some childKeyBuffer => res ← hash_rec fuel l (setKeyBuffer tokenSize n childKeyBuffer); mret (res.1, kbytes q ++ z)
      | None => hash_rec fuel l (setLengthForChildren tokenSize n (kbytes q ++ z))
      end) (with_heap u h) Q.
Proof.
  intros Hrec Hhd Hok Hsh Hn Hf Hid HQ. destruct pl as [|[[q1 pn1] l1] rest]; [done|]. cbn in Hhd. injection Hhd as -> -> ->.
  destruct (path_ok_next _ _ _ _ Hok) as (Hq & Hst & Hnx). pose proof Hsh as [(nn & Hnn & Hshape) _]. assert (nn = n) as -> by congruence.
  assert (starts ts (kbytes q ++ z) q) as Hstart by (apply starts_app; done). destruct (decide (nd_children n = ∅)) as [He|He].
  - apply wp_ret. assert (HashNode sha256 n = id) as ->; [|by apply HQ]. destruct rest as [|[[q' pn'] l'] rest].
    + cbn in Hid. injection Hid as <-. by apply (hash_without_next q pn).
    + destruct (Hnx q' eq_refl) as (_ & Hp & Hne). destruct (prefix_next q q' Hp Hne) as (x & Hx & _). destruct (sh_next _ _ _ _ Hshape q' x eq_refl Hx) as (e & Hex & _). by rewrite He in Hex.
  - pose proof (shape_entries q pn _ n Hq Hst Hnx Hshape) as Hent. destruct (try_acquire (tkey q)) as [cb|].
    + destruct (setKeyBuffer_spec ts q n cb Hq (sh_key _ _ _ _ Hshape) Hent) as [Hb Hlen]. vbind. eapply (Hrec h q pn l n); try done. intros h' buf' Hh' _ _. apply wp_ret. by apply HQ.
    + destruct (setLengthForChildren_spec ts q n (kbytes q ++ z) Hq (sh_key _ _ _ _ Hshape) Hent) as (z' & -> & Hl' & Hlen). eapply (Hrec h q pn l n); try done.
      * by rewrite <- app_assoc, take_app_length.
      * intros h' buf' Hh' Hs' Hll. apply HQ; [done|done|]. rewrite length_app in Hll. lia.
Qed.

Lemma hash_path fuel pl : hash_path_ok fuel pl.
Proof.
  revert pl. induction fuel as [|fuel IH]; intros pl h q pn l n buf id Q Hhd Hok Hsh Hn Hf Hid Hbuf Hlen HQ; [by destruct pl; cbn in Hf; [|lia]|].
  destruct pl as [|[[q1 pn1] l1] rest]; [done|]. cbn in Hhd. injection Hhd as -> -> ->. destruct (path_ok_next _ _ _ _ Hok) as (Hq & Hst & Hnx). pose proof Hsh as [(n1 & Hn1 & Hshape) Hrest].
  assert (n1 = n) as -> by congruence. cbn [hashChangedNode]. vderef. rewrite (sh_key _ _ _ _ Hshape). vbind. destruct (last_key_byte ts q buf (with_heap u h) Hq Hbuf) as (lkb & Hwp & Hlast).
  eapply wp_mono; [exact Hwp|]. intros b v' [-> ->]. vbind. pose proof (starts_full ts q buf Hbuf) as Hs. pose proof Hok as (_ & _ & Hnd & Hlink). cbn in Hlink, Hnd. destruct Hlink as (Hno & Hnext & _).
  assert (∀ x e, (x, e) ∈ map_range (nd_children n) → ¬ is_next q (first_key rest) x → ∃ c, child_at q x e c ∧ v_nodes (with_heap u h) !! tkey c = None ∧ (length (kbytes c) ≤ length buf)%nat) as Hskip.
  { intros x e Hx Hix. apply elem_of_map_range in Hx. destruct (shape_child q pn _ n x e Hq Hst Hnx Hshape Hx) as [(q' & H1 & H2 & _)|[_ Hat]]; [destruct Hix; by exists q'|].
    exists (q ++ [x]). split; [done|]. split; [apply Hno; [done|apply Hat]|by apply (Hlen x e)]. }
  destruct rest as [|[[q' pn'] l'] rest].
  - rewrite <- (app_nil_r (map_range _)). eapply (hash_skip _ _ _ q lkb); [done|apply (sh_key _ _ _ _ Hshape)|done|done|intros x e Hx; apply Hskip; [done|by intros (? & ? & _)]|].
    intros buf' Hs' Hl'. apply wp_ret. vderef. apply wp_ret. rewrite (hash_without_next q pn n Hst Hshape). cbn in Hid. injection Hid as <-. apply HQ; [done|done|lia].
  - destruct (Hnx q' eq_refl) as (Hvq' & Hp & Hne). destruct (prefix_next q q' Hp Hne) as (x & Hx & Hqx). destruct (sh_next _ _ _ _ Hshape q' x eq_refl Hx) as (e & Hex & Hke).
    assert (∃ cs1 cs2, map_range (nd_children n) = cs1 ++ (x, e) :: cs2) as (cs1 & cs2 & Ecs) by (apply list_elem_of_split, elem_of_map_range; done).
    assert (∀ y e', (y, e') ∈ cs1 ++ cs2 → ¬ is_next q (Some q') y) as Hother.
    { intros y e' Hy (q2 & [= <-] & Hy'). assert (y = x) as -> by congruence. pose proof (NoDup_map_range_keys (nd_children n)) as Hndk. rewrite Ecs, fmap_app, fmap_cons in Hndk.
      apply NoDup_app in Hndk as (_ & Hdis & Hnd2). apply NoDup_cons in Hnd2 as [Hnot _]. apply elem_of_app in Hy as [Hy|Hy].
      - apply (Hdis x); [|left]. apply list_elem_of_fmap. by exists (x, e').
      - apply Hnot. apply list_elem_of_fmap. by exists (x, e'). }
    assert (∀ y e', (y, e') ∈ cs1 ++ cs2 → (y, e') ∈ map_range (nd_children n)) as Hsub by (intros y e' Hy; rewrite Ecs; apply elem_of_app; apply elem_of_app in Hy as [|]; [by left|by right; right]).
    rewrite Ecs. eapply (hash_skip _ _ _ q lkb); [done|apply (sh_key _ _ _ _ Hshape)|done|done| |].
    { intros y e' Hy. assert ((y, e') ∈ cs1 ++ cs2) as Hy' by (apply elem_of_app; by left). apply Hskip; [by apply Hsub|by eapply Hother]. }
    intros buf1 Hs1 Hl1. cbn [hash_children]. assert (child_at q x e q') as Hat by done. pose proof (Hlen x e q' Hex Hat) as Hlq'.
    vlift; [apply (child_key_spec ts q x q'); try done; [apply (sh_key _ _ _ _ Hshape)|lia]|]. vget. cbn [v_nodes with_heap set_heap]. rewrite Hnext. cbn [nc_after].
    destruct Hrest as [(n' & Hn' & Hshape') Hrest']. vlift; [done|]. vderef. destruct (path_id (steps ((q', pn', l') :: rest))) as [[q2 id']|] eqn:Eid'; [|done].
    assert (q2 = q') as -> by (cbn in Eid'; by injection Eid'). vbind.
    eapply (hash_next fuel ((q', pn', l') :: rest) h q' pn' l' n' _ id' _ (IH _)); [done|by eapply path_ok_tail|by split; [exists n'|]|done|cbn in Hf |- *; lia|done|].
    intros h1 buf2 Hh1 Hs2 Hl2. apply NoDup_cons in Hnd as [Hnl _]. assert (h1 !! l = Some n) as Hn1' by (rewrite Hh1; done). vbind. eapply wp_update; [exact Hn1'|done|].
    set (n2 := setChildEntry n x (mkChild (ch_compressedKey e) id' (hasValue n'))). rewrite length_app, length_drop in Hl2. rewrite <- (app_nil_r cs2).
    eapply (hash_skip _ _ _ q lkb cs2 []); [done|apply (sh_key _ _ _ _ Hshape)|done|apply (starts_prefix ts q q'); done| |].
    { intros y e' Hy. assert ((y, e') ∈ cs1 ++ cs2) as Hy' by (apply elem_of_app; by right). destruct (Hskip y e' (Hsub _ _ Hy') ltac:(by eapply Hother)) as (c & H1 & H2 & H3). exists c. split; [done|]. split; [done|]. lia. }
    intros buf3 Hs3 Hl3. apply wp_ret. vbind. eapply wp_deref; [cbn; by rewrite lookup_insert_eq|]. apply wp_ret. unfold n2. rewrite (hash_with_next q pn q' n x e id' _ Hst Hshape Hx Hex).
    assert (HashNode sha256 (pnode pn (with_next q (pn_Children pn) (Some (q', id')))) = id) as -> by (change (Some (q, HashNode sha256 (pnode pn (with_next q (pn_Children pn) (path_id (steps ((q', pn', l') :: rest)))))) = Some (q, id)) in Hid; rewrite Eid' in Hid; by injection Hid).
    apply (HQ (<[l := n2]> h1)); [|done|lia]. intros l2 Hl2'. cbn in Hl2'. apply not_elem_of_cons in Hl2' as [Hne1 Hne2]. rewrite lookup_insert_ne by done. by apply Hh1.
Qed.
End hash_path.

(** ** The root of a path *)

Lemma loc_of_first pl p l : increasing (steps pl) → loc_of pl p = Some l → ∃ q', first_key pl = Some q' ∧ q' `prefix_of` p.
Proof.
  induction pl as [|[[q pn] l1] pl IH]; [done|]. intros Hinc Hp. exists q. split; [done|]. cbn [loc_of] in Hp. case_decide as Hd; [by subst|].
  destruct (IH (increasing_tail _ _ Hinc) Hp) as (q' & Hq' & Hp'). destruct pl as [|[[q1 pn1] l2] pl]; [done|]. cbn in Hq'. simplify_eq. destruct Hinc as (H1 & _). by etrans.
Qed.

Lemma linked_nodes (nodes : gmap Key node_change) pl :
  increasing (steps pl) → Forall step_ok (steps pl) →
  (∀ p, vtoks ts p → (∀ q, first_key pl = Some q → (length q ≤ length p)%nat) → nodes !! tkey p = (λ l, mkNodeChange None (Some l)) <$> loc_of pl p) → linked nodes pl.
Proof.
  induction pl as [|[[q pn] l] pl IH]; [done|]. intros Hinc Hok Hnodes. apply Forall_cons in Hok as [_ Hok]. pose proof (increasing_tail _ _ Hinc) as Hinc'. split; [|split].
  - intros x Hx Hv. rewrite Hnodes; [|done|intros q1 [= <-]; rewrite length_app; lia]. cbn [loc_of]. rewrite decide_False by (intros E; apply (f_equal length) in E; rewrite length_app in E; cbn in E; lia).
    destruct (loc_of pl (q ++ [x])) as [l'|] eqn:El; [|done]. destruct (loc_of_first pl _ l' Hinc' El) as (q' & Hq' & Hp). destruct pl as [|[[q1 pn1] l1] pl]; [done|]. cbn in Hq'. injection Hq' as ->.
    destruct Hinc as (H1 & H2 & _). destruct Hx. exists q'. split; [done|]. destruct (prefix_next q q' H1 H2) as (y & Hy & _). pose proof (prefix_lookup_Some _ _ _ _ Hy Hp) as Hy'.
    rewrite lookup_app_r, Nat.sub_diag in Hy' by lia. cbn in Hy'. congruence.
  - destruct pl as [|[[q' pn'] l'] pl]; [done|]. destruct Hinc as (H1 & H2 & _). apply Forall_cons in Hok as [(Hv & _) _]. rewrite Hnodes; [|done|intros q1 [= <-]; by apply prefix_length].
    cbn [loc_of]. rewrite decide_False by (by intros ->). by rewrite decide_True.
  - destruct pl as [|[[q' pn'] l'] pl]; [done|]. apply IH; [done|done|]. intros p Hv Hp. specialize (Hp q' eq_refl). destruct Hinc as (H1 & H2 & _).
    assert (length q < length q')%nat as Hlt by (destruct (prefix_next q q' H1 H2) as (y & Hy%lookup_lt_Some & _); done).
    rewrite Hnodes; [|done|intros q1 [= <-]; lia]. cbn [loc_of]. rewrite decide_False; [done|]. intros ->. lia.
Qed.

Lemma pview_path_ok v pl : pview v pl → increasing (steps pl) → Forall step_ok (steps pl) → path_ok v pl.
Proof. intros Hpv Hinc Hok. split; [done|]. split; [done|]. split; [apply (pv_locs _ _ Hpv)|]. apply linked_nodes; [done|done|]. intros p Hp _. by apply (pv_nodes _ _ Hpv). Qed.

(** The keys of a path grow. *)
Lemma path_grows pl e : increasing (steps (e :: pl)) → ∃ q pn l, last (e :: pl) = Some (q, pn, l) ∧ (length pl + length e.1.1 ≤ length q)%nat.
Proof.
  revert e. induction pl as [|[[q1 pn1] l1] pl IH]; intros [[q pn] l] Hinc; [by exists q, pn, l|]. destruct Hinc as (H1 & H2 & Hinc). destruct (IH _ Hinc) as (q2 & pn2 & l2 & Hl & Hle).
  exists q2, pn2, l2. split; [done|]. destruct (prefix_next q q1 H1 H2) as (y & Hy%lookup_lt_Some & _). cbn in *. lia.
Qed.

Lemma loc_of_last pl q pn l : last pl = Some (q, pn, l) → is_Some (loc_of pl q).
Proof.
  induction pl as [|[[q1 pn1] l1] pl IH]; [done|]. cbn [loc_of]. destruct (decide (q = q1)); [by eexists|]. destruct pl; [intros [= -> _ _]; done|]. apply IH.
Qed.

Lemma path_fuel v pl : pview v pl → increasing (steps pl) → Forall step_ok (steps pl) → (length pl ≤ hash_fuel v)%nat.
Proof.
  intros Hpv Hinc Hok. destruct pl as [|e pl]; [cbn; lia|]. destruct (path_grows pl e Hinc) as (q & pn & l & Hl & Hle).
  assert (vtoks ts q) as Hq.
  { rewrite Forall_forall in Hok. apply (Hok (q, pn)). apply list_elem_of_fmap. exists (q, pn, l). split; [done|]. by apply last_Some_elem_of. }
  pose proof (hash_fuel_spec v (tkey q)) as Hf. rewrite (pv_nodes _ _ Hpv), token_key_length in Hf by done. destruct (loc_of_last _ _ _ _ Hl) as [l' Hl']. rewrite Hl' in Hf. specialize (Hf ltac:(by eexists)).
  pose proof (ts_pos ts). cbn [length]. nia.
Qed.

Lemma hash_root_path v pl q id buffer (Q : () → view → Prop) :
  pview v pl → increasing (steps pl) → Forall step_ok (steps pl) → path_id (steps pl) = Some (q, id) →
  (∀ v', v_rootID v' = id → Q tt v') → wp (hashChangedNodes tokenSize sha256 try_acquire buffer) v Q.
Proof.
  intros Hpv Hinc Hok Hid HQ. destruct pl as [|[[q1 pn] l] pl]; [done|]. pose proof Hid as Hid'. cbn in Hid'. injection Hid' as -> Hid'.
  pose proof (pview_path_ok _ _ Hpv Hinc Hok) as Hpo. destruct (path_ok_next _ _ _ _ _ Hpo) as (Hq & Hst & Hnx). pose proof (pv_heap _ _ Hpv) as [(n & Hn & Hsh) _].
  unfold hashChangedNodes. vget. rewrite (pv_root _ _ Hpv). cbn [head snd fmap option_fmap option_map]. vderef. destruct (decide (nd_children n = ∅)) as [He|He].
  - apply wp_modify, HQ. cbn. destruct pl as [|[[q' pn'] l'] pl]; [rewrite (hash_without_next q pn n Hst Hsh); exact Hid'|].
    destruct (Hnx q' eq_refl) as (_ & Hp & Hne). destruct (prefix_next q q' Hp Hne) as (x & Hx & _). destruct (sh_next _ _ _ _ Hsh q' x eq_refl Hx) as (e & Hex & _). by rewrite He in Hex.
  - vget. pose proof (shape_entries q pn _ n Hq Hst Hnx Hsh) as Hent. destruct (setKeyBuffer_spec ts q n buffer Hq (sh_key _ _ _ _ Hsh) Hent) as [Hb Hlen].
    vbind. rewrite <- (with_heap_id v) at 2. eapply (hash_path v (hash_fuel v) ((q, pn, l) :: pl) (v_heap v) q pn l n); try done; [apply (pv_heap _ _ Hpv)|by apply path_fuel|].
    intros h' buf' _ _ _. by apply wp_modify, HQ.
Qed.

#[export] Instance keeps_add_path nodes less greater : Keeps (add_path tokenSize sha256 T nodes less greater).
Proof.
  assert (∀ l key entries, Keeps (add_proof_children tokenSize l key less greater entries)) as Hc.
  { intros l key entries. induction entries as [|[x id] entries IH]; cbn [add_proof_children]; unfold add_child; keeps. }
  induction nodes as [|pn nodes IH]; cbn [add_path]; keeps.
Qed.

Lemma GetMerkleRoot_path v pl q id buffer :
  pview v pl → increasing (steps pl) → Forall step_ok (steps pl) → path_id (steps pl) = Some (q, id) → view_frame v = (∅, false, false) →
  wp (GetMerkleRoot tokenSize sha256 T try_acquire buffer) v (λ id' _, id' = id).
Proof.
  intros Hpv Hinc Hok Hid [= Hvals Hinv Honce]. unfold GetMerkleRoot, applyValueChanges, isInvalid. vbind. vget. rewrite Honce. vbind. apply wp_modify. vget. cbn [v_invalidated set_once]. rewrite Hinv. apply wp_deferred.
  set (v1 := set_once v). assert (pview v1 pl) as Hpv1 by (destruct Hpv; by split). vbind. assert (wp clone_root v1 (λ _ v', v' = v1)) as Hclone.
  { unfold clone_root. vget. destruct (v_root v1) as [l|] eqn:El; [|by apply wp_ret]. rewrite (pv_root _ _ Hpv1) in El. destruct pl as [|[[q1 pn] l1] pl]; [done|]. cbn in El. injection El as ->.
    destruct (pv_heap _ _ Hpv1) as [(n & Hn & _) _]. vderef. by apply wp_ret. }
  eapply wp_mono; [exact Hclone|]. intros o v' ->. vbind. unfold calculateNodeChanges. vget. cbn [v1 v_values set_once]. rewrite Hvals, map_range_empty. apply wp_ret. fold v1.
  vbind. apply wp_keeps; [apply _|]. eapply (hash_root_path v1 pl q id); [done..|]. intros v' Hv' Hfr. vget. vbind. apply wp_modify. vget. cbn [v_invalidated set_rootChange].
  assert (v_invalidated v' = false) as -> by (injection Hfr as _ -> _; done). apply wp_ret, wp_get. done.
Qed.

(** Building a path in a new view and hashing it. *)
Lemma path_root ps q qn id buffer :
  increasing ps → Forall step_ok ps → Forall plain ps → ends_with qn ps → vtoks ts qn → path_id ps = Some (q, id) →
  ∃ v, newView T (mkViewChanges [] []) = Some (Ok v) ∧
    wp (_ ← addPathInfo tokenSize sha256 T ps.*2 (Some (tkey qn)) (Some (tkey qn)); GetMerkleRoot tokenSize sha256 T try_acquire buffer) v (λ id' _, id' = id).
Proof.
  intros Hinc Hok Hpl Hend Hqn Hid. unfold newView. rewrite HT. eexists. split; [done|]. set (v := mkView _ _ _ _ _ _ _ _ _ _). assert (pview v []) as Hpv.
  { split; [done|done|done|done|intros l [n Hn]; done|constructor]. }
  vbind. unfold addPathInfo. assert (reverse ps.*2 = (reverse ps).*2) as -> by (symmetry; apply fmap_reverse). apply wp_keeps; [apply _|].
  eapply (add_path_spec (reverse ps) v [] qn); rewrite ?reverse_involutive, ?app_nil_r; try done; [by rewrite reverse_Permutation|].
  intros v' pl Hpv' Hst Hfr.  eapply (GetMerkleRoot_path v' pl q id); rewrite ?Hst; done.
Qed.
End Verify.
