(* ===== verification/MerkleSound.v ===== *)
(** * What an accepted proof shows

    [Proof_Verify] never panics on a proof with keys of whole tokens, and accepts it
    exactly when its checks hold and the path hashes to the root
    ([Proof_Verify_spec]).  The nodes of an accepted path are nodes of the trie with
    that root ([path_true]), so the value of an inclusion proof is in the map, and a
    path that leaves the way to the key shows that the key is not
    ([verify_sound]). *)
From S2P Require Import Prelude Ids Bytes MerkleKey MerkleCodec MerkleTree MerkleView MerkleProof MerkleSpec MerkleInv MerkleHash MerkleRoot MerkleBinding MerkleVerify.

Section Sound.
Context (ts : nat) {Hts : token_size ts} (sha256 : bytes → ID) (T : Trie) (HT : t_getRoot T = None).
Context {RZ : MapRange Z} {RK : MapRange Key} (try_acquire : Key → option bytes).
Abbreviation tokenSize := (Z.of_nat ts).
Abbreviation tkey := (token_key ts).
Abbreviation path := (list (list Z * ProofNode)).
Implicit Types (ps : path) (k q : list Z) (pn : ProofNode).

(** ** The checks *)

(** All nodes but the last are on the way to the key. *)
Fixpoint on_way k ps : Prop :=
  match ps with
  | (q, _) :: (_ :: _) as rest => q `prefix_of` k ∧ q ≠ k ∧ on_way k rest
  | _ => True
  end.

Lemma token_key_HasStrictPrefix t p : vtoks ts t → vtoks ts p → HasStrictPrefix (tkey t) (tkey p) = Some (bool_decide (p `prefix_of` t ∧ p ≠ t)).
Proof.
  intros Ht Hp. unfold HasStrictPrefix. rewrite token_key_HasPrefix by done. case_decide as Hd; f_equal.
  - apply (token_key_inj ts) in Hd; [|done|done]. subst. by rewrite bool_decide_eq_false_2 by (by intros [_ ?]).
  - apply bool_decide_ext. split; [|by intros [? _]]. intros H. split; [done|]. by intros ->.
Qed.

Lemma verifyProofPath_spec k ps : vtoks ts k → Forall (step_ok ts) ps →
  ∃ err, verifyProofPath ps.*2 (Some (tkey k)) = Some err ∧ (err = None ↔ Forall plain ps ∧ increasing ps ∧ on_way k ps).
Proof.
  intros Hk. induction ps as [|[q pn] ps IH]; intros Hok; [by exists None|]. apply Forall_cons in Hok as [(Hq & Hkey & _) Hok]. cbn [fst snd] in Hq, Hkey. destruct (IH Hok) as (err & Herr & Hiff).
  cbn [fmap list_fmap verifyProofPath]. change ((q, pn).2) with pn. pose proof (Forall_cons plain (q, pn) ps) as Hcons. unfold plain at 2 in Hcons. cbn [snd] in Hcons. destruct (hasPartialByte (pn_Key pn) && is_some (pn_ValueOrHash pn)) eqn:Ep.
  { eexists. split; [done|]. split; [done|]. intros [[? _]%Hcons _]. done. }
  destruct ps as [|[q' pn'] ps]; [exists None; split; [done|]; split; [intros _|intros _; done]; split; [apply Hcons; split; constructor|done]|].
  apply Forall_cons in Hok as [(Hq' & Hkey' & _) _]. cbn [fst snd] in Hq', Hkey'. rewrite fmap_cons in *. change ((q', pn').2) with pn' in *. rewrite Hkey, Hkey', !token_key_HasStrictPrefix by done. cbn [mbind option_bind].
  destruct (bool_decide_reflect (q `prefix_of` k ∧ q ≠ k)) as [H1|H1]; cbn [negb].
  2:{ eexists. split; [done|]. split; [done|]. intros (_ & _ & H2 & H3 & _). by destruct H1. }
  destruct (bool_decide_reflect (q `prefix_of` q' ∧ q ≠ q')) as [H2|H2]; cbn [negb].
  2:{ eexists. split; [done|]. split; [done|]. intros (_ & (H3 & H4 & _) & _). by destruct H2. }
  exists err. split; [done|]. rewrite Hiff, Hcons. cbn [increasing on_way]. naive_solver.
Qed.

(** The value of the proof against the last node. *)
Definition value_ok (hashValue : bytes → ID) k (val : option bytes) (e : list Z * ProofNode) : Prop :=
  if decide (e.1 = k) then valueOrHashMatches hashValue val (pn_ValueOrHash e.2) = true else val = None.

Definition checks_hold (hashValue : bytes → ID) k ps (val : option bytes) : Prop :=
  (∃ e, last ps = Some e ∧ value_ok hashValue k val e) ∧ Forall plain ps ∧ increasing ps ∧ on_way k ps.

Lemma value_checks hashValue k val q pn :
  vtoks ts k → step_ok ts (q, pn) → plain (q, pn) →
  (value_ok hashValue k val (q, pn) ↔
   negb (hasPartialByte (pn_Key pn)) && bool_decide (tkey k = pn_Key pn) && negb (valueOrHashMatches hashValue val (pn_ValueOrHash pn)) = false ∧
   (hasPartialByte (pn_Key pn) || negb (bool_decide (tkey k = pn_Key pn))) && is_some val = false).
Proof.
  intros Hk (Hq & Hkey & _) Hpl. cbn [fst snd] in Hq, Hkey. unfold plain in Hpl. cbn [snd] in Hpl. unfold value_ok. cbn [fst snd]. rewrite Hkey in *. case_decide as Hd.
  - subst q. rewrite bool_decide_eq_true_2 by done. destruct (hasPartialByte (tkey k)); cbn [negb andb orb].
    + destruct (pn_ValueOrHash pn); [done|]. destruct val; cbn; naive_solver.
    + destruct (valueOrHashMatches hashValue val (pn_ValueOrHash pn)); cbn; naive_solver.
  - rewrite bool_decide_eq_false_2 by (intros E; apply Hd; symmetry; by apply (token_key_inj ts)). rewrite andb_false_r, orb_true_r. destruct val; cbn; naive_solver.
Qed.

Lemma last_step ps e : last ps = Some e → last ps.*2 = Some e.2.
Proof. intros H. by rewrite fmap_last, H. Qed.

Lemma path_id_some ps e : last ps = Some e → ∃ q id, path_id sha256 ps = Some (q, id).
Proof. destruct ps as [|[q pn] ps]; [done|]. intros _. by eexists _, _. Qed.

Lemma Proof_Verify_spec hashValue k ps val root buffer :
  vtoks ts k → Forall (step_ok ts) ps →
  ∃ r, Proof_Verify tokenSize sha256 T try_acquire hashValue (mkProof ps.*2 (tkey k) val) root buffer = Some r ∧
    (r = Ok tt ↔ checks_hold hashValue k ps val ∧ snd <$> path_id sha256 ps = Some root).
Proof.
  intros Hk Hok. unfold Proof_Verify. cbn [pr_Path pr_Key pr_Value]. destruct (last ps) as [[qn pn]|] eqn:El.
  2:{ rewrite fmap_last, El. cbn. eexists. split; [done|]. split; [done|]. intros [[(e & He & _) _] _]. congruence. }
  rewrite (last_step _ _ El). cbn [snd]. destruct (verifyProofPath_spec k ps Hk Hok) as (err & -> & Herr). cbn [mbind option_bind].
  assert (checks_hold hashValue k ps val ↔ err = None ∧ value_ok hashValue k val (qn, pn)) as Hch.
  { unfold checks_hold. rewrite Herr. split; [intros [(e & He & Hv) ?]; simplify_eq; done|]. intros [? ?]. split; [by eexists|done]. }
  destruct err as [err|]; [eexists; split; [done|]; split; [done|]; rewrite Hch; naive_solver|]. destruct (proj1 Herr eq_refl) as (Hpl & Hinc & Hway).
  assert ((qn, pn) ∈ ps) as Hin by (by apply last_Some_elem_of). rewrite Forall_forall in Hok, Hpl. pose proof (value_checks hashValue k val qn pn Hk (Hok _ Hin) (Hpl _ Hin)) as Hval. rewrite <- Forall_forall in Hok, Hpl.
  destruct (negb (hasPartialByte _) && _ && _) eqn:E1; [eexists; split; [done|]; split; [done|]; rewrite Hch, Hval; naive_solver|].
  destruct ((hasPartialByte _ || _) && _) eqn:E2; [eexists; split; [done|]; split; [done|]; rewrite Hch, Hval; naive_solver|].
  destruct (path_id_some ps _ El) as (q & id & Hid). assert (step_ok ts (qn, pn)) as (Hvn & Hkn & _) by (rewrite Forall_forall in Hok; by apply Hok). cbn [fst snd] in Hvn, Hkn.
  destruct (path_root ts sha256 T HT try_acquire ps q qn id buffer Hinc Hok Hpl ltac:(by exists pn) Hvn Hid) as (v & -> & id' & v' & Hrun & ->). cbn [mbind option_bind]. rewrite Hkn, Hrun. eexists. split; [done|].
  rewrite Hid, Hch, Hval. cbn. destruct (decide (root = id)) as [->|Hd]; [by rewrite bool_decide_eq_true_2|]. rewrite bool_decide_eq_false_2 by done. split; [done|]. intros [_ [= <-]]. done.
Qed.

(** ** The nodes of a path *)

Context (m : gmap (list Z) bytes) (Hm : valid_map ts m) (Hs : short_map ts m).
Abbreviation tid := (tid ts sha256 m).

(** The byte strings that are hashed when a proof is checked: those of the nodes of its
    path, and its value when it is long. *)
Fixpoint path_strings ps : list bytes :=
  match ps with
  | [] => []
  | (q, pn) :: rest => node_preimage (pnode pn (with_next q (pn_Children pn) (path_id sha256 rest))) :: path_strings rest
  end.

Definition value_strings (val : option bytes) : list bytes := filter long_value (option_list val).

Definition proof_strings ps (val : option bytes) : list bytes := path_strings ps ++ value_strings val.

(** All strings hashed for the map and the path are in a list without collisions. *)
Context (X : list bytes) (HX : coll_free sha256 X) (HmX : hashed_strings ts sha256 m ⊆ X).

(** Lengths that fit an integer. *)
Definition sized (e : list Z * ProofNode) : Prop := is_u64 (k_length (pn_Key e.2)) ∧ ∀ d, pn_ValueOrHash e.2 = Some d → is_u64 (Z.of_nat (length d)).

Lemma pnode_child pn ids x : ch_id <$> nd_children (pnode pn ids) !! x = ids !! x.
Proof. unfold nd_children, pnode, claimed. cbn. rewrite lookup_fmap. by destruct (ids !! x). Qed.

Lemma token_small x : 0 ≤ x < 2 ^ tokenSize → 0 ≤ x ≤ 255.
Proof. intros Hx. destruct Hts as [->|[->|[->| ->]]]; cbn in Hx; lia. Qed.

Lemma pnode_readable q pn rest : step_ok ts (q, pn) → sized (q, pn) → Forall (step_ok ts) rest → readable (pnode pn (with_next q (pn_Children pn) (path_id sha256 rest))).
Proof.
  intros (Hq & _ & Hidx) [Hk Hd] Hrest. split; [|done|done]. intros x [e He]. apply token_small. unfold nd_children, pnode, claimed in He. cbn in He. rewrite lookup_fmap in He.
  destruct (with_next q (pn_Children pn) (path_id sha256 rest) !! x) as [id|] eqn:E; [|done]. unfold with_next in E. destruct rest as [|[q' pn'] rest]; [cbn in E; apply Hidx; by eexists|].
  cbn [path_id] in E. destruct (q' !! length q) as [y|] eqn:Ey; [|apply Hidx; by eexists]. apply lookup_insert_Some in E as [[<- _]|[_ E]]; [|apply Hidx; by eexists].
  apply Forall_cons in Hrest as [(Hq' & _) _]. cbn in Hq'. unfold vtoks in Hq'. rewrite Forall_forall in Hq'. apply Hq'. by eapply list_elem_of_lookup_2.
Qed.

(** A path with the identifier of a node starts at that node. *)
Lemma path_node q pn rest r :
  step_ok ts (q, pn) → sized (q, pn) → Forall (step_ok ts) rest → path_strings ((q, pn) :: rest) ⊆ X → is_node m r → path_id sha256 ((q, pn) :: rest) = Some (q, tid r) →
  q = r ∧ pn_ValueOrHash pn = valueDigest sha256 (m !! r) ∧ ∀ x, with_next q (pn_Children pn) (path_id sha256 rest) !! x = tid <$> top m (r ++ [x]).
Proof.
  intros Hst Hsz Hrest HpX Hr [= Hid]. rewrite tid_unfold in Hid by (by apply node_under). apply (coll_free_inj sha256 X) in Hid; [|done|apply HpX; left|by apply HmX, hashed_node].
  apply preimage_inj in Hid as (Hids & Hd & Hk); [|by apply pnode_readable|by apply node_readable]. destruct Hst as (Hq & Hkey & _). cbn [fst snd] in Hq, Hkey.
  cbn [pnode n_key n_valueDigest cnode] in Hd, Hk. rewrite Hkey in Hk. apply (token_key_inj ts) in Hk; [|done|by apply (node_vtoks ts m)]. split; [done|]. split; [exact Hd|]. intros x.
  assert (ch_id <$> nd_children (cnode ts sha256 tid m r) !! x = tid <$> top m (r ++ [x])) as <- by (unfold nd_children; cbn; rewrite cchildren_lookup by done; by destruct (top m (r ++ [x]))).
  rewrite <- (pnode_child pn). apply option_eq. intros d. by rewrite <- !elem_of_child_ids, Hids.
Qed.

(** The path is the way of the trie from [r] down, and the last node has the children
    of the trie. *)
Fixpoint true_path r ps : Prop :=
  match ps with
  | [] => False
  | (q, pn) :: rest =>
      q = r ∧ is_node m q ∧ pn_ValueOrHash pn = valueDigest sha256 (m !! q) ∧
      match rest with
      | [] => ∀ x, pn_Children pn !! x = tid <$> top m (q ++ [x])
      | (q', _) :: _ => top m (take (S (length q)) q') = Some q' ∧ true_path q' rest
      end
  end.

Lemma take_next q q' x : q `prefix_of` q' → q' !! length q = Some x → take (S (length q)) q' = q ++ [x].
Proof. intros Hp Hx. assert ((q ++ [x]) `prefix_of` q') as [l ->] by (by apply prefix_next_iff). apply take_app_length'. rewrite length_app. cbn. lia. Qed.

Lemma path_true ps r :
  ps ≠ [] → Forall (step_ok ts) ps → Forall sized ps → increasing ps → path_strings ps ⊆ X → is_node m r → snd <$> path_id sha256 ps = Some (tid r) → true_path r ps.
Proof.
  revert r. induction ps as [|[q pn] rest IH]; intros r Hne Hok Hsz Hinc HpX Hr Hid; [done|]. apply Forall_cons in Hok as [Hst Hok]. apply Forall_cons in Hsz as [Hsz Hszr].
  destruct (path_node q pn rest r Hst Hsz Hok HpX Hr) as (-> & Hd & Hch); [cbn in Hid |- *; congruence|]. destruct rest as [|[q' pn'] rest]; [done|].
  destruct Hinc as (Hp & Hneq & Hinc). destruct (prefix_next r q' Hp Hneq) as (x & Hx & Hqx). specialize (Hch x). unfold with_next in Hch. destruct (path_id sha256 ((q', pn') :: rest)) as [[q1 id']|] eqn:Eid; [|done].
  assert (q1 = q') as -> by (cbn in Eid; by injection Eid). rewrite Hx, lookup_insert_eq in Hch. destruct (top m (r ++ [x])) as [c|] eqn:Ec; [|done]. cbn in Hch. injection Hch as Hc.
  destruct (top_child_node _ _ _ _ Ec) as (Hcn & _). assert (true_path c ((q', pn') :: rest)) as Htrue by (apply IH; [done|done|done|done|intros y Hy; apply HpX; by right|done|cbn; congruence]). assert (q' = c) as <- by (by destruct Htrue).
  split; [done|]. split; [done|]. split; [done|]. split; [by rewrite (take_next r q' x)|done].
Qed.

(** ** What the path shows about the key *)

(** The path leaves the way to [k]: its last node, which comes after [from], has the key
    itself, or no child on the way, or is not on the way although [from] is. *)
Fixpoint leaves_way from k ps : Prop :=
  match ps with
  | [] => False
  | (q, pn) :: rest =>
      match rest with
      | [] => q = k ∨ (q `prefix_of` k ∧ ∃ x, k !! length q = Some x ∧ pn_Children pn !! x = None) ∨ (from `prefix_of` k ∧ ¬ q `prefix_of` k)
      | (q', _) :: _ => leaves_way (take (S (length q)) q') k rest
      end
  end.

Lemma matches_digest val d : valueOrHashMatches (HashValue sha256) val d = true → valueDigest sha256 val = d.
Proof.
  unfold valueOrHashMatches, valueDigest. destruct val as [w|], d as [d|]; try done. destruct (_ <? _); intros H; apply bool_decide_eq_true in H; by subst.
Qed.

Lemma path_value r ps q pn : true_path r ps → last ps = Some (q, pn) → pn_ValueOrHash pn = valueDigest sha256 (m !! q).
Proof.
  revert r. induction ps as [|[q1 pn1] rest IH]; intros r Htrue Hl; [done|]. destruct Htrue as (-> & _ & Hd & Hrest). destruct rest as [|[q' pn'] rest]; [cbn in Hl; by simplify_eq|].
  destruct Hrest as [_ Hrest]. by apply (IH q').
Qed.

Lemma path_absent from r ps k :
  top m from = Some r → true_path r ps → leaves_way from k ps → ends_with k ps ∨ m !! k = None.
Proof.
  revert from r. induction ps as [|[q pn] rest IH]; intros from r Hfrom Htrue Hout; [done|]. destruct Htrue as (-> & Hn & _ & Hrest). destruct rest as [|[q' pn'] rest].
  - destruct Hout as [->|[(Hp & x & Hx & Hnone)|(Hf & Hnp)]]; [left; by eexists| |]; right; destruct (m !! k) eqn:Ek; try done.
    + specialize (Hrest x). rewrite Hnone in Hrest. destruct (top m (r ++ [x])) eqn:Et; [done|]. destruct (proj1 (top_None m _) Et k). split; [by eexists|by apply prefix_next_iff].
    + destruct Hnp. apply (top_prefix m from r k Hfrom). split; [by eexists|done].
  - destruct Hrest as [Htop Hrest]. destruct (IH _ q' Htop Hrest Hout) as [[pn1 Hl]|]; [|by right]. left. by exists pn1.
Qed.

Lemma accepted_sound k ps val :
  Forall (step_ok ts) ps → Forall sized ps → proof_strings ps val ⊆ X → checks_hold (HashValue sha256) k ps val → snd <$> path_id sha256 ps = Some (merkle_root ts sha256 m) →
  (is_Some val → m !! k = val) ∧ (val = None → leaves_way [] k ps → m !! k = None).
Proof.
  intros Hok Hsz HpX [([q pn] & Hl & Hv) (_ & Hinc & _)] Hid. assert (path_strings ps ⊆ X) as Hps by (intros x Hx; apply HpX, elem_of_app; by left). assert (ps ≠ []) as Hne by (by intros ->). unfold merkle_root in Hid. destruct (top m []) as [r|] eqn:Et.
  2:{ destruct ps as [|[q1 pn1] ps]; [done|]. cbn in Hid. injection Hid as Hid. exfalso. revert Hid. apply (coll_free_Empty sha256 X); [done|]. apply Hps. left. }
  pose proof (path_true ps r Hne Hok Hsz Hinc Hps (top_node _ _ _ Et) Hid) as Htrue. pose proof (path_value r ps q pn Htrue Hl) as Hd. unfold value_ok in Hv. cbn [fst snd] in Hv.
  destruct (decide (q = k)) as [->|Hqk].
  { apply matches_digest in Hv. rewrite Hd in Hv. symmetry in Hv. apply (digest_inj sha256 X HX) in Hv; [split; [done|by intros ->]|intros; by eapply HmX, hashed_value|].
    intros w -> Hw. apply HpX, elem_of_app. right. apply list_elem_of_filter. split; [done|]. by left. }
  split; [intros [w Hw]; congruence|]. intros _ Hout. destruct (path_absent [] r ps k Et Htrue Hout) as [[pn1 Hl1]|]; [congruence|done].
Qed.
End Sound.
