(* ===== verification/MerkleHonest.v ===== *)
(** * The proofs that a view makes

    [getProof] follows the nodes on the way to the key.  Its path hashes to the root
    ([way_id]) and passes every check, so [Proof_Verify] accepts the proofs that a view
    makes, which carry the value of the map ([proofs_verify]).  What an accepted proof
    shows is [verify_sound].  A path that stops early passes as well
    ([short_path_accepted]), so that the value of a key can be denied
    ([exclusion_not_sound]). *)
From S2P Require Import Prelude Ids Bytes MerkleKey MerkleCodec MerkleTree MerkleView MerkleProof MerkleSpec MerkleInv MerkleHash MerkleRoot MerkleBinding MerkleVerify MerkleSound.

Section Honest.
Context (ts : nat) {Hts : token_size ts} (sha256 : bytes → ID) {RZ : MapRange Z} {RK : MapRange Key}.
Context (m : gmap (list Z) bytes) (Hm : valid_map ts m).
Abbreviation tokenSize := (Z.of_nat ts).
Abbreviation tkey := (token_key ts).
Abbreviation tid := (tid ts sha256 m).
Abbreviation fin := (cnode ts sha256 tid m).
Implicit Types (k q c r : list Z) (cs : list (list Z)).

(** ** The way down *)

Fixpoint descends q cs : Prop := match cs with [] => True | c :: cs => (∃ x, top m (q ++ [x]) = Some c) ∧ descends c cs end.
Fixpoint ending q cs : list Z := match cs with [] => q | c :: cs => ending c cs end.

(** Values are at keys of whole bytes. *)
Definition whole : Prop := ∀ k, is_Some (m !! k) → hasPartialByte (tkey k) = false.

Definition step_of c : list Z * ProofNode := (c, asProofNode (fin c)).
Definition way q cs : list (list Z * ProofNode) := step_of <$> q :: cs.

Lemma way_cons q c cs : way q (c :: cs) = step_of q :: way c cs.
Proof. done. Qed.

Lemma fin_children c x : pn_Children (asProofNode (fin c)) !! x = tid <$> top m (c ++ [x]).
Proof. unfold asProofNode, nd_children. cbn. rewrite lookup_fmap, cchildren_lookup by done. by destruct (top m (c ++ [x])). Qed.

Lemma descends_node q cs c : is_node m q → descends q cs → c ∈ q :: cs → is_node m c.
Proof.
  revert q. induction cs as [|c' cs IH]; intros q Hq Hd Hc; [by apply list_elem_of_singleton in Hc as ->|]. destruct Hd as [[x Hx] Hd]. apply elem_of_cons in Hc as [->|Hc]; [done|].
  destruct (top_child_node _ _ _ _ Hx) as (Hn & _). by apply (IH c').
Qed.

Lemma descends_prefix q cs : descends q cs → q `prefix_of` ending q cs.
Proof. revert q. induction cs as [|c cs IH]; intros q; [done|]. intros [[x Hx] Hd]. destruct (top_child_node _ _ _ _ Hx) as (_ & Hp & _). etrans; [exact Hp|by apply IH]. Qed.

Lemma descends_strict q c x : top m (q ++ [x]) = Some c → q `prefix_of` c ∧ q ≠ c.
Proof. intros Hx. destruct (top_child_node _ _ _ _ Hx) as (_ & Hp & Hl & _). split; [done|]. intros ->. lia. Qed.

Lemma way_id q cs : is_node m q → descends q cs → path_id sha256 (way q cs) = Some (q, tid q).
Proof.
  revert q. induction cs as [|c cs IH]; intros q Hq Hd.
  - change (Some (q, HashNode sha256 (pnode (asProofNode (fin q)) (pn_Children (asProofNode (fin q))))) = Some (q, tid q)). do 2 f_equal. rewrite (tid_unfold ts sha256 m q) by (by apply node_under).
    apply HashNode_ext; [done|done|]. apply map_eq. intros x. by rewrite lookup_fmap, pnode_child.
  - destruct Hd as [[x Hx] Hd]. destruct (top_child_node _ _ _ _ Hx) as (Hc & _ & _ & Hlk). rewrite way_cons. cbn [path_id step_of]. change (path_id sha256 ((c, asProofNode (fin c)) :: (step_of <$> cs))) with (path_id sha256 (way c cs)).
    rewrite (IH c Hc Hd). cbn [with_next]. rewrite Hlk. do 2 f_equal. rewrite (tid_unfold ts sha256 m q) by (by apply node_under). apply HashNode_ext; [done|done|]. apply map_eq. intros y.
    rewrite lookup_fmap, pnode_child. destruct (decide (y = x)) as [->|Hne].
    + rewrite lookup_insert_eq. change (ch_id <$> nd_children (fin q)) with (pn_Children (asProofNode (fin q))). by rewrite fin_children, Hx.
    + rewrite lookup_insert_ne by done. done.
Qed.

(** ** The checks *)

Lemma way_step_ok q cs : is_node m q → descends q cs → Forall (step_ok ts) (way q cs).
Proof.
  intros Hq Hd. apply Forall_forall. intros e (c & -> & Hc)%list_elem_of_fmap. pose proof (descends_node q cs c Hq Hd Hc) as Hn. split; [by apply (node_vtoks ts m)|]. split; [done|].
  intros x [id Hx]. cbn [step_of snd] in Hx. rewrite fin_children in Hx. destruct (top m (c ++ [x])) as [d|] eqn:E; [|done]. apply (child_range ts c x d (top_vtoks ts m _ _ Hm E) (top_above _ _ _ E)).
Qed.

Lemma way_plain q cs : whole → Forall plain (way q cs).
Proof.
  intros Hw. apply Forall_forall. intros e (c & -> & _)%list_elem_of_fmap. unfold plain. cbn [step_of snd asProofNode pn_Key pn_ValueOrHash n_key n_valueDigest cnode].
  destruct (m !! c) eqn:E; [by rewrite Hw by (by eexists)|]. apply andb_false_r.
Qed.

Lemma way_increasing q cs : descends q cs → increasing (way q cs).
Proof.
  revert q. induction cs as [|c cs IH]; intros q; [done|]. intros [[x Hx] Hd]. destruct (descends_strict _ _ _ Hx) as [Hp Hne]. split; [done|]. split; [done|]. by apply IH.
Qed.

Lemma way_on_way k q cs : descends q cs → ending q cs `prefix_of` k → on_way k (way q cs).
Proof.
  revert q. induction cs as [|c cs IH]; intros q; [done|]. intros [[x Hx] Hd] He. cbn [ending] in He. destruct (descends_strict _ _ _ Hx) as [Hp Hne].
  assert (c `prefix_of` k) as Hck by (etrans; [by apply descends_prefix|done]). split; [by etrans|]. split; [|by apply IH]. intros ->. apply Hne. by apply prefix_antisym.
Qed.

(** The last node is off the way. *)
Lemma way_off k q cs c : descends q (cs ++ [c]) → ending q cs `prefix_of` k → ending q cs ≠ k → on_way k (way q (cs ++ [c])).
Proof.
  revert q. induction cs as [|c' cs IH]; intros q; [intros _ Hp Hne; by repeat split|]. intros [[x Hx] Hd] He Hne. cbn [ending] in He, Hne. destruct (descends_strict _ _ _ Hx) as [Hp Hneq].
  assert (c' `prefix_of` k) as Hck.
  { etrans; [|exact He]. apply descends_prefix. clear -Hd. revert c' Hd. induction cs as [|d cs IH]; intros c' Hd; [done|]. destruct Hd as [Hx Hd]. split; [done|by apply IH]. }
  split; [by etrans|]. split; [|by apply IH]. intros ->. apply Hneq. by apply prefix_antisym.
Qed.

Lemma last_way q cs : last (way q cs) = Some (step_of (ending q cs)).
Proof. revert q. induction cs as [|c cs IH]; intros q; [done|]. rewrite way_cons. cbn [ending]. rewrite <- IH. by destruct (way c cs) eqn:E. Qed.

Lemma digest_matches val : valueOrHashMatches (HashValue sha256) val (valueDigest sha256 val) = true.
Proof. unfold valueOrHashMatches, valueDigest. destruct val as [w|]; [|done]. destruct (_ <? _); by apply bool_decide_eq_true. Qed.

Lemma way_leaves from k q cs : (ending q cs = k ∨ (ending q cs `prefix_of` k ∧ ∃ x, k !! length (ending q cs) = Some x ∧ top m (ending q cs ++ [x]) = None)) → leaves_way from k (way q cs).
Proof.
  revert from q. induction cs as [|c cs IH]; intros from q Hk; [|by apply IH]. cbn [ending] in Hk. destruct Hk as [->|(Hp & x & Hx & Hnone)]; [by left|]. right. left. split; [done|]. exists x. split; [done|]. by rewrite fin_children, Hnone.
Qed.

Lemma way_leaves_off from k q cs c x : top m (ending q cs ++ [x]) = Some c → (ending q cs ++ [x]) `prefix_of` k → ¬ c `prefix_of` k → leaves_way from k (way q (cs ++ [c])).
Proof.
  revert from q. induction cs as [|c' cs IH]; intros from q Hc Hp Hnp; [|by apply IH]. cbn [ending] in *. destruct (top_child_node _ _ _ _ Hc) as (_ & Hqc & _ & Hx). right. right. split; [|done].
  by rewrite (take_next q c x).
Qed.

(** ** Walking *)

Section walk.
Context (T : Trie) (v : view) (Hs : settled ts sha256 T v m).

(** Reading copies nodes of the trie below. *)
Record grown (v' : view) : Prop := {
  gn_nodes : v_nodes v' = v_nodes v;
  gn_root : v_root v' = v_root v;
  gn_invalidated : v_invalidated v' = false;
  gn_heap : ∀ l n, v_heap v !! l = Some n → v_heap v' !! l = Some n;
  gn_fresh : ∀ l, is_Some (v_heap v' !! l) → (l < v_next v')%nat;
}.

Lemma grown_refl : grown v.
Proof. split; try done; [apply (sd_invalidated _ _ _ _ _ Hs)|apply (sd_fresh _ _ _ _ _ Hs)]. Qed.

Lemma getNode_settled v' q (Q : loc → view → Prop) :
  grown v' → is_node m q → (∀ l v'', grown v'' → v_heap v'' !! l = Some (fin q) → Q l v'') → wp (getNode T (tkey q) (bool_decide (is_Some (m !! q)))) v' Q.
Proof.
  intros Hg Hq HQ. pose proof (tr_node _ _ _ _ (sd_trie _ _ _ _ _ Hs) q Hq) as Hn. cbn [t_getEditableNode as_trie] in Hn. unfold getEditableNode, isInvalid, getNode, mbind, VM_bind, MerkleView.vget in Hn.
  rewrite (sd_invalidated _ _ _ _ _ Hs) in Hn. unfold getNode. vget. rewrite (gn_nodes _ Hg). destruct (v_nodes v !! tkey q) as [ch|].
  - destruct (nc_after ch) as [l|]; [|done]. cbn in Hn. rewrite (sd_invalidated _ _ _ _ _ Hs) in Hn. unfold deref, MerkleView.vlift, mbind, VM_bind, MerkleView.vget in Hn. cbn [id] in Hn. destruct (v_heap v !! l) as [n|] eqn:El; [|done].
    injection Hn as ->. apply wp_ret, HQ; [done|]. by apply (gn_heap _ Hg).
  - unfold vresult in Hn. destruct (t_getEditableNode T (tkey q) _) as [n|e] eqn:En; [|done]. assert (n = fin q) as ->.
    { unfold alloc, deref, mbind, VM_bind, MerkleView.vget, vmodify, mret, VM_ret, MerkleView.vlift in Hn. cbn in Hn. rewrite (sd_invalidated _ _ _ _ _ Hs) in Hn. cbn [v_heap set_heap] in Hn. rewrite lookup_insert_eq in Hn. by injection Hn. }
    vbind. eapply wp_result; [done|]. apply wp_alloc, HQ; [|cbn; by rewrite lookup_insert_eq]. destruct Hg as [H1 H2 H3 H4 H5]. split; try done; cbn.
    + intros l n Hl. rewrite lookup_insert_ne; [by apply H4|]. intros <-. pose proof (H5 (v_next v') ltac:(exists n; by apply H4)). lia.
    + intros l [n Hl]. apply lookup_insert_Some in Hl as [[<- _]|[_ Hl]]; [lia|]. specialize (H5 l ltac:(by eexists)). lia.
Qed.

Definition nodes_of cs : list ProofNode := (λ c, asProofNode (fin c)) <$> cs.

Lemma way_nodes q cs : (way q cs).*2 = nodes_of (q :: cs).
Proof. unfold way, nodes_of. rewrite <- list_fmap_compose. done. Qed.

(** The child of [q] on the way to [k]. *)
Lemma next_child k q x :
  vtoks ts k → is_node m q → q `prefix_of` k → k !! length q = Some x →
  nd_children (fin q) !! x = centry ts tid m q <$> top m (q ++ [x]) ∧ Token (tkey k) (k_length (tkey q)) tokenSize = Some x.
Proof.
  intros Hk Hq Hp Hx. assert (vtoks ts q) as Hvq by (by eapply vtoks_prefix). split; [unfold nd_children; cbn; by apply cchildren_lookup|]. rewrite token_key_length by done. rewrite token_key_Token by (done || by eapply lookup_lt_Some). done.
Qed.

Lemma proof_loop fuel v' k q l ps (Q : list ProofNode * option loc → view → Prop) :
  grown v' → vtoks ts k → is_node m q → q `prefix_of` k → v_heap v' !! l = Some (fin q) → (length k < length q + fuel)%nat →
  (∀ v'' cs l', grown v'' → descends q cs → ending q cs `prefix_of` k → closest m k (ending q cs) → v_heap v'' !! l' = Some (fin (ending q cs)) → Q (ps ++ nodes_of cs, Some l') v'') →
  wp (visit_loop tokenSize T fuel (tkey k) visit_proof l (ps, Some l)) v' Q.
Proof.
  revert v' q l ps. induction fuel as [|fuel IH]; intros v' q l ps Hg Hk Hq Hqk Hl Hf HQ; [pose proof (prefix_length _ _ Hqk); lia|].
  assert (vtoks ts q) as Hvq by (by eapply vtoks_prefix). pose proof (ts_pos ts) as Hpos. cbn [visit_loop].
  assert (closest m k q → wp (mret (ps, Some l)) v' Q) as Hstop by (intros Hcl; apply wp_ret; rewrite <- (app_nil_r ps); by apply (HQ v' [] l)).
  vderef. change (n_key (fin q)) with (tkey q). rewrite !token_key_length by done.
  destruct (Z.ltb_spec (tokenSize * Z.of_nat (length q)) (tokenSize * Z.of_nat (length k))) as [Hlt|Hge].
  2:{ apply Hstop. assert (q = k) as <- by (apply prefix_eq_length; [done|nia]). apply closest_last; [done|done|]. intros x c Hx. by apply not_prefix_snoc in Hx. }
  assert (length q < length k)%nat as Hlt' by nia. destruct (lookup_lt_is_Some_2 k (length q) Hlt') as [x Hx]. destruct (next_child k q x Hk Hq Hqk Hx) as [Hch Htok]. rewrite token_key_length in Htok by done.
  vlift; [exact Htok|]. assert ((q ++ [x]) `prefix_of` k) as Hqx by (by apply prefix_next_iff). assert (∀ y, (q ++ [y]) `prefix_of` k → y = x) as Huniq by (intros y [_ Hy]%prefix_next_inv; congruence).
  rewrite Hch. destruct (top m (q ++ [x])) as [c|] eqn:Ec; cbn [fmap option_fmap option_map].
  2:{ apply Hstop, closest_last; [done|done|]. intros y c ->%Huniq. by rewrite Ec. }
  cbn [centry ch_compressedKey ch_hasValue]. assert (vtoks ts c) as Hvc by (by eapply top_vtoks). destruct (child_step ts q x c k) as [Hit Htake]; [done|done|by eapply top_above|done|].
  vlift; [exact Hit|]. destruct (decide (c `prefix_of` k)) as [Hcpre|Hnot].
  2:{ rewrite bool_decide_eq_false_2 by done. apply Hstop, closest_last; [done|done|]. intros y c' ->%Huniq Hc'. by simplify_eq. }
  rewrite bool_decide_eq_true_2 by done. cbn [negb]. vlift; [by apply Htake|]. destruct (top_child_node _ _ _ _ Ec) as (Hcn & Hqc & Hlen & _).
  vbind. eapply (getNode_settled v' c); [done|done|]. intros l1 v1 Hg1 Hl1. vbind. unfold visit_proof. vderef. apply wp_ret. eapply (IH v1 c l1); [done|done|done|done|done|lia|].
  intros v'' cs l' Hg' Hd He Hcl Hl'. rewrite <- app_assoc. apply (HQ v'' (c :: cs) l'); try done. split; [by exists x|done].
Qed.

Lemma descends_snoc q cs c x : descends q cs → top m (ending q cs ++ [x]) = Some c → descends q (cs ++ [c]) ∧ ending q (cs ++ [c]) = c.
Proof. revert q. induction cs as [|d cs IH]; intros q Hd Hx; [split; [split; [by exists x|done]|done]|]. destruct Hd as [Hd1 Hd]. destruct (IH d Hd Hx) as [H1 H2]. by split; [split|]. Qed.

(** The proof of [k]: the way down to its node, or to where it would be. *)
Definition honest k (proof : Proof) : Prop := ∃ r cs,
  top m [] = Some r ∧ descends r cs ∧ proof = mkProof (way r cs).*2 (tkey k) (m !! k) ∧ checks_hold (HashValue sha256) k (way r cs) (m !! k) ∧ (m !! k = None → leaves_way [] k (way r cs)).

Lemma checks_way k r cs : whole → descends r cs → on_way k (way r cs) → (ending r cs ≠ k → m !! k = None) → checks_hold (HashValue sha256) k (way r cs) (m !! k).
Proof.
  intros Hw Hd Hon Hval. split; [|split; [by apply way_plain|split; [by apply way_increasing|done]]]. exists (step_of (ending r cs)). split; [apply last_way|]. unfold value_ok. cbn [step_of fst snd].
  case_decide as He; [|by apply Hval]. rewrite He. apply digest_matches.
Qed.

Lemma getProof_spec key k :
  whole → ToKey key = tkey k → vtoks ts k → v_root v ≠ None → wp (getProof tokenSize T key) v (λ proof v', honest k proof ∧ v_invalidated v' = false).
Proof.
  intros Hw Hkey Hk Hr. unfold getProof. vget. pose proof (sd_root _ _ _ _ _ Hs) as HR. destruct (v_root v) as [l|] eqn:El; [|done]. destruct HR as (r & Hroot & Hl). rewrite Hkey.
  assert (is_node m r) as Hrn by (by eapply top_node). assert (vtoks ts r) as Hvr by (by apply (node_vtoks ts m)).
  vbind. unfold visitPathToKey. vget. rewrite El. vderef. change (n_key (fin r)) with (tkey r). vlift; [by apply token_key_HasPrefix|]. destruct (decide (r `prefix_of` k)) as [Hrk|Hrk].
  2:{ rewrite bool_decide_eq_false_2 by done. apply wp_ret. vderef. apply wp_ret. split; [|apply (sd_invalidated _ _ _ _ _ Hs)]. assert (m !! k = None) as Hnone.
      { destruct (m !! k) eqn:E; [|done]. destruct Hrk. apply (root_prefix m r k Hroot). apply key_is_node. by eexists. }
      exists r, []. split; [done|]. split; [done|]. split; [by rewrite Hnone|]. split; [by apply checks_way|]. intros _. right. right. split; [apply prefix_nil|done]. }
  rewrite bool_decide_eq_true_2 by done. cbn [negb]. vbind. unfold visit_proof at 1. vderef. apply wp_ret. cbn [fst app].
  eapply (proof_loop _ v k r l [asProofNode (fin r)]); [apply grown_refl|done|done|done|done|rewrite token_key_length by done; pose proof (ts_pos ts); nia|].
  intros v1 cs l1 Hg1 Hd Hend (_ & Hcl & _) Hl1. cbn [app]. set (e := ending r cs) in *. vlift; [done|]. vderef. change (n_key (fin e)) with (tkey e).
  assert (vtoks ts e) as Hve by (by eapply vtoks_prefix). destruct (decide (tkey e = tkey k)) as [Hek|Hek].
  { apply (token_key_inj ts) in Hek; [|done|done]. apply wp_ret. split; [|apply (gn_invalidated _ Hg1)]. exists r, cs. split; [done|]. split; [done|]. split; [rewrite way_nodes; cbn; by rewrite Hek|].
    split; [apply checks_way; [done|done|by apply way_on_way|done]|]. intros _. apply way_leaves. by left. }
  assert (e ≠ k) as Hne by congruence. assert (m !! k = None) as Hnone.
  { destruct (m !! k) eqn:E; [|done]. destruct Hne. apply prefix_antisym; [done|]. apply Hcl; [|done]. apply key_is_node. by eexists. }
  assert (is_node m e) as Hen.
  { apply (descends_node r cs e Hrn Hd). unfold e. clear. revert r. induction cs as [|c cs IH]; intros r; [left|]. right. apply IH. }
  destruct (prefix_next e k Hend Hne) as (x & Hx & Hex). destruct (next_child k e x Hk Hen Hend Hx) as [Hch Htok]. vlift; [exact Htok|]. rewrite Hch. destruct (top m (e ++ [x])) as [c|] eqn:Ec; cbn [fmap option_fmap option_map].
  2:{ apply wp_ret. split; [|apply (gn_invalidated _ Hg1)]. exists r, cs. split; [done|]. split; [done|]. split; [by rewrite way_nodes, Hnone|].
      split; [apply checks_way; [done|done|by apply way_on_way|done]|]. intros _. apply way_leaves. right. split; [done|]. by exists x. }
  cbn [centry ch_compressedKey ch_hasValue]. destruct (top_child_node _ _ _ _ Ec) as (Hcn & Hqc & Hlen & _). assert (vtoks ts c) as Hvc by (by apply (node_vtoks ts m)).
  vlift; [apply token_key_Extend; try done; [apply (child_range ts e x c Hvc (top_above _ _ _ Ec))|by apply vtoks_drop]|].
  assert (e ++ x :: drop (S (length e)) c = c) as -> by (rewrite (app_assoc e [x] _ : e ++ x :: _ = _); destruct (top_above _ _ _ Ec) as [l' ->]; f_equal; apply drop_app_length'; rewrite length_app; cbn; lia).
  vbind. eapply (getNode_settled v1 c); [done|done|]. intros l2 v2 Hg2 Hl2. vderef. apply wp_ret. split; [|apply (gn_invalidated _ Hg2)]. destruct (descends_snoc r cs c x Hd Ec) as [Hd' He'].
  assert (¬ c `prefix_of` k) as Hnp by (intros Hp; pose proof (prefix_length _ _ (Hcl c Hcn Hp)); lia).
  exists r, (cs ++ [c]). split; [done|]. split; [done|]. split; [rewrite way_nodes, Hnone; unfold nodes_of; rewrite fmap_cons, fmap_app; done|].
  split; [apply checks_way; [done|done|by apply way_off|done]|]. intros _. by apply (way_leaves_off [] k r cs c x).
Qed.
End walk.

(** ** Acceptance *)

Lemma way_accepted (E : Trie) try_acquire k r cs val buffer :
  t_getRoot E = None → vtoks ts k → top m [] = Some r → descends r cs → checks_hold (HashValue sha256) k (way r cs) val →
  Proof_Verify tokenSize sha256 E try_acquire (HashValue sha256) (mkProof (way r cs).*2 (tkey k) val) (merkle_root ts sha256 m) buffer = Some (Ok tt).
Proof.
  intros HE Hk Hr Hd Hch. assert (is_node m r) as Hrn by (by eapply top_node).
  destruct (Proof_Verify_spec ts sha256 E HE try_acquire (HashValue sha256) k (way r cs) val (merkle_root ts sha256 m) buffer Hk (way_step_ok r cs Hrn Hd)) as (res & -> & Hiff).
  f_equal. apply Hiff. split; [done|]. rewrite way_id by done. cbn. unfold merkle_root. by rewrite Hr.
Qed.

(** A path that stops before the key is accepted as a proof that the key is absent. *)
Lemma short_path_accepted (E : Trie) try_acquire k r cs buffer :
  t_getRoot E = None → whole → vtoks ts k → top m [] = Some r → descends r cs → ending r cs `prefix_of` k → ending r cs ≠ k →
  Proof_Verify tokenSize sha256 E try_acquire (HashValue sha256) (mkProof (way r cs).*2 (tkey k) None) (merkle_root ts sha256 m) buffer = Some (Ok tt).
Proof.
  intros HE Hw Hk Hr Hd Hp Hne. apply way_accepted; try done. split; [|split; [by apply way_plain|split; [by apply way_increasing|by apply way_on_way]]].
  exists (step_of (ending r cs)). split; [apply last_way|]. unfold value_ok. by rewrite decide_False.
Qed.
End Honest.

Lemma whole_ops ts `{!token_size ts} m ops : whole ts m → Forall (λ op, Forall is_byte op.1) ops → whole ts (apply_ops ts m ops).
Proof.
  revert m. induction ops as [|[key val] ops IH]; intros m Hw Hb; [done|]. apply Forall_cons in Hb as [Hk Hb]. apply (IH (apply_op ts m (key, val))); [|done]. intros k Hk'. rewrite apply_op_lookup in Hk'. case_decide as Hd; [|by apply Hw].
  subst k. destruct (toKey_toks ts key Hk) as [<- _]. unfold hasPartialByte, toKey. cbn [k_length]. by rewrite Z.rem_mul.
Qed.

(** C16: Proofs round-trip.  Over a trie that holds a map, [GetProof] of a view returns, for
    every key, a proof that carries the key and the value of the changed map — nothing
    when the key is absent — and [Proof_Verify] of any empty database accepts it for the
    root of that map; when the key is absent the path leaves the way to it.  When the
    changed map is empty the error is [ErrEmptyProof]. *)
Theorem proofs_verify (ts : nat) (sha256 : bytes → ID) (T E : Trie) (RZ : MapRange Z) (RK : MapRange Key) (try_acquire try_acquire' : Key → option bytes) (m0 : gmap (list Z) bytes) (changes : ViewChanges) (buffer buffer' key : bytes) :
  token_size ts → represents ts sha256 T m0 → whole ts m0 → t_getRoot E = None → Forall (λ op, Forall is_byte op.1) (BatchOps changes ++ MapOps changes) → Forall is_byte key →
  let m := apply_ops ts m0 (BatchOps changes ++ MapOps changes) in
  let k := key_toks ts key in
  ∃ v v', newView T changes = Some (Ok v) ∧
    if decide (m = ∅) then GetProof (Z.of_nat ts) sha256 T try_acquire buffer key v = Some (Err ErrEmptyProof, v')
    else ∃ ps, GetProof (Z.of_nat ts) sha256 T try_acquire buffer key v = Some (Ok (mkProof ps.*2 (ToKey key) (m !! k)), v') ∧
      Proof_Verify (Z.of_nat ts) sha256 E try_acquire' (HashValue sha256) (mkProof ps.*2 (ToKey key) (m !! k)) (merkle_root ts sha256 m) buffer' = Some (Ok tt) ∧
      Forall (step_ok ts) ps ∧ (m !! k = None → leaves_way [] k ps).
Proof.
  intros Hts HT Hw HE Hb Hbk m k. destruct (toKey_toks ts key Hbk) as [Hkey Hk]. pose proof (whole_ops ts m0 _ Hw Hb) as Hwm.
  destruct (newView_spec ts sha256 T m0 HT changes Hb) as (v & Hnew & HI & Hvals & Honce & Hinv & _).
  destruct (applyValueChanges_spec ts sha256 T try_acquire m0 HT v m buffer HI Hvals Honce Hinv) as ([] & v1 & Hrun & Hs & _). exists v. pose proof (tr_valid _ _ _ _ (sd_trie _ _ _ _ _ Hs)) as Hm. pose proof (sd_root _ _ _ _ _ Hs) as HR.
  unfold GetProof, mbind, VM_bind. rewrite Hrun. case_decide as Hd.
  - exists v1. split; [done|]. unfold getProof, MerkleView.vget, mbind, VM_bind. destruct (v_root v1) as [l|]; [|done]. destruct HR as (r & Hr & _). by rewrite Hd, top_empty_map in Hr.
  - assert (v_root v1 ≠ None) as Hroot by (intros Hn; by rewrite Hn in HR).
    destruct (getProof_spec ts sha256 m Hm T v1 Hs key k Hwm Hkey Hk Hroot) as (proof & v2 & Hget & (r & cs & Hr & Hdesc & -> & Hch & Hleave) & Hinv2). exists v2. split; [done|]. exists (way ts sha256 m r cs).
    rewrite Hget. unfold isInvalid, MerkleView.vget. rewrite Hinv2. change (ToKey key) with (toKey key). rewrite Hkey. split; [done|]. split; [by apply (way_accepted ts sha256 m Hm)|]. split; [|done]. apply (way_step_ok ts sha256 m Hm r cs); [by eapply top_node|done].
Qed.

Lemma proofs_verify_witness :
  let RZ := canonical_range Z in let RK := canonical_range Key in
  let m := apply_ops 4 ∅ (BatchOps demo_changes ++ MapOps demo_changes) in
  ∃ v v', newView empty_trie demo_changes = Some (Ok v) ∧
    if decide (m = ∅) then GetProof (Z.of_nat 4) demo_sha empty_trie (λ _, None) [] [1] v = Some (Err ErrEmptyProof, v')
    else ∃ ps, GetProof (Z.of_nat 4) demo_sha empty_trie (λ _, None) [] [1] v = Some (Ok (mkProof ps.*2 (ToKey [1]) (m !! key_toks 4 [1])), v') ∧
      Proof_Verify (Z.of_nat 4) demo_sha empty_trie (λ _, None) (HashValue demo_sha) (mkProof ps.*2 (ToKey [1]) (m !! key_toks 4 [1])) (merkle_root 4 demo_sha m) [] = Some (Ok tt) ∧
      Forall (step_ok 4) ps ∧ (m !! key_toks 4 [1] = None → leaves_way [] (key_toks 4 [1]) ps).
Proof.
  intros RZ RK m. apply (proofs_verify 4 demo_sha empty_trie empty_trie RZ RK (λ _, None) (λ _, None) ∅ demo_changes [] [] [1]).
  - right. right. by left.
  - apply empty_trie_represents.
  - intros k Hk. rewrite lookup_empty in Hk. by destruct Hk.
  - reflexivity.
  - cbn. repeat (apply Forall_cons; split; [cbn; repeat (apply Forall_cons; split; [done|]); done|]). done.
  - apply Forall_cons. split; [done|constructor].
Defined.



(** A value at the root and one below it. *)
Definition demo_map : gmap (list Z) bytes := {[ [] := [5]; [0; 1] := [6] ]}.

Lemma demo_map_valid : valid_map 4 demo_map ∧ short_map 4 demo_map ∧ whole 4 demo_map ∧ top demo_map [] = Some [].
Proof.
  assert (∀ k, is_Some (demo_map !! k) → k = [] ∨ k = [0; 1]) as Hk.
  { intros k [w Hw]. unfold demo_map in Hw. apply lookup_insert_Some in Hw as [[<- _]|[_ Hw]]; [by left|]. apply lookup_singleton_Some in Hw as [<- _]. by right. }
  split; [|split; [|split]].
  - intros k [-> | ->]%Hk; repeat constructor; done.
  - intros k [-> | ->]%Hk; done.
  - intros k [-> | ->]%Hk; vm_compute; done.
  - apply key_is_node. by exists [5].
Qed.


(** The proof says that a key is absent which has a value. *)
Definition denies (ts : nat) (m : gmap (list Z) bytes) (proof : Proof) : Prop := ∃ k w, m !! k = Some w ∧ pr_Key proof = token_key ts k ∧ pr_Value proof = None.

(** C17: A proof of absence that is accepted does not show that the key is absent, whatever the
    hash: there are a map, a key with a value in it, and a proof without a value for that
    key that [Proof_Verify] accepts for the root of the map (a path that stops at the
    root). *)
Theorem exclusion_not_sound :
  let RZ := canonical_range Z in let RK := canonical_range Key in
  ∀ sha256, ∃ m proof, denies 4 m proof ∧
    Proof_Verify 4 sha256 empty_trie (λ _, None) (HashValue sha256) proof (merkle_root 4 sha256 m) [] = Some (Ok tt).
Proof.
  intros RZ RK sha256. destruct demo_map_valid as (Hm & _ & Hw & Hr). assert (token_size 4) as Hts by (right; right; by left).
  exists demo_map, (mkProof (way 4 sha256 demo_map [] []).*2 (token_key 4 [0; 1]) None). split; [by exists [0; 1], [6]|].
  apply (short_path_accepted 4 sha256 demo_map Hm empty_trie (λ _, None) [0; 1] [] [] []); try done; [repeat constructor; done|apply prefix_nil].
Qed.
