(* ===== verification/MerkleProto.v ===== *)
(** * Proofs as messages (ToProto and UnmarshalProto of src/x/merkledb/proof.go)

    Pointers of messages are options.  A receiver is an argument, since a field that
    the message leaves out keeps what the receiver had.  [None] is a panic.  The
    messages of well-formed proofs are read back ([proof_messages_roundtrip]); a key
    length that does not fit an integer is not noticed ([negative_key_accepted]). *)
From S2P Require Import Prelude Ids Bytes MerkleKey MerkleCodec MerkleView MerkleProof Packer.

(** ** Messages *)

Record pb_Key : Type := mkPbKey { pbk_Length : Z; pbk_Value : bytes }.
Record pb_MaybeBytes : Type := mkPbMaybeBytes { pbm_Value : bytes; pbm_IsNothing : bool }.
Record pb_ProofNode : Type := mkPbProofNode { pbn_Key : option pb_Key; pbn_ValueOrHash : option pb_MaybeBytes; pbn_Children : gmap Z bytes }.
Record pb_Proof : Type := mkPbProof { pbp_Key : bytes; pbp_Value : option pb_MaybeBytes; pbp_Proof : list (option pb_ProofNode) }.
Record pb_KeyValue : Type := mkPbKeyValue { pbkv_Key : bytes; pbkv_Value : bytes }.
Record pb_RangeProof : Type := mkPbRangeProof { pbr_StartProof : list (option pb_ProofNode); pbr_EndProof : list (option pb_ProofNode); pbr_KeyValues : list (option pb_KeyValue) }.
Record pb_KeyChange : Type := mkPbKeyChange { pbkc_Key : bytes; pbkc_Value : option pb_MaybeBytes }.
Record pb_ChangeProof : Type := mkPbChangeProof { pbc_StartProof : list (option pb_ProofNode); pbc_EndProof : list (option pb_ProofNode); pbc_KeyChanges : list (option pb_KeyChange) }.

Record KeyValue : Type := mkKeyValue { kv_Key : bytes; kv_Value : bytes }.
Record RangeProof : Type := mkRangeProof { rp_StartProof : list ProofNode; rp_EndProof : list ProofNode; rp_KeyValues : list KeyValue }.
Record KeyChange : Type := mkKeyChange { kc_Key : bytes; kc_Value : option bytes }.
Record ChangeProof : Type := mkChangeProof { cp_StartProof : list ProofNode; cp_EndProof : list ProofNode; cp_KeyChanges : list KeyChange }.

Inductive proto_error :=
  | ErrNilProofNode | ErrNilValueOrHash | ErrInvalidMaybe | ErrNilKey | ErrInvalidKeyLength | ErrChildIndexTooLarge | ErrInvalidHashLen
  | ErrNilProof | ErrNilValue | ErrNilRangeProof | ErrNilChangeProof | ErrNilMaybeBytes.

(** ** Writing *)

Definition maybe_ToProto (o : option bytes) : pb_MaybeBytes := mkPbMaybeBytes (default [] o) (negb (is_some o)).

Definition ProofNode_ToProto (node : ProofNode) : pb_ProofNode :=
  mkPbProofNode (Some (mkPbKey (wrap64 (k_length (pn_Key node))) (Key_Bytes (pn_Key node)))) (Some (maybe_ToProto (pn_ValueOrHash node))) (id_bytes <$> pn_Children node).

Definition Proof_ToProto (proof : Proof) : pb_Proof :=
  mkPbProof (Key_Bytes (pr_Key proof)) (Some (maybe_ToProto (pr_Value proof))) ((λ node, Some (ProofNode_ToProto node)) <$> pr_Path proof).

Definition RangeProof_ToProto (proof : RangeProof) : pb_RangeProof :=
  mkPbRangeProof ((λ node, Some (ProofNode_ToProto node)) <$> rp_StartProof proof) ((λ node, Some (ProofNode_ToProto node)) <$> rp_EndProof proof)
    ((λ kv, Some (mkPbKeyValue (kv_Key kv) (kv_Value kv))) <$> rp_KeyValues proof).

Definition ChangeProof_ToProto (proof : ChangeProof) : pb_ChangeProof :=
  mkPbChangeProof ((λ node, Some (ProofNode_ToProto node)) <$> cp_StartProof proof) ((λ node, Some (ProofNode_ToProto node)) <$> cp_EndProof proof)
    ((λ kv, Some (mkPbKeyChange (kc_Key kv) (Some (maybe_ToProto (kc_Value kv))))) <$> cp_KeyChanges proof).

(** ** Reading *)

Section Unmarshal.
Context {RZ : MapRange Z}.

(** [ids.ToID] *)
Definition ToID (b : bytes) : result ID proto_error := match ID_of_bytes b with Some id => Ok id | None => Err ErrInvalidHashLen end.

(** The loop over the children. *)
Fixpoint read_children (entries : list (Z * bytes)) (children : gmap Z ID) : result (gmap Z ID) proto_error :=
  match entries with
  | [] => Ok children
  | (childIndex, childIDBytes) :: entries =>
      if 255 <? childIndex then Err ErrChildIndexTooLarge else
      match ToID childIDBytes with
      | Err e => Err e
      | Ok childID => read_children entries (<[childIndex := childID]> children)
      end
  end.

Definition ProofNode_UnmarshalProto (node : ProofNode) (pbNode : option pb_ProofNode) : option (result ProofNode proto_error) :=
  match pbNode with
  | None => Some (Err ErrNilProofNode)
  | Some pbNode =>
      match pbn_ValueOrHash pbNode with
      | None => Some (Err ErrNilValueOrHash)
      | Some valueOrHash =>
          if pbm_IsNothing valueOrHash && negb (Nat.eqb (length (pbm_Value valueOrHash)) 0) then Some (Err ErrInvalidMaybe) else
          match pbn_Key pbNode with
          | None => Some (Err ErrNilKey)
          | Some key =>
              if negb (Z.of_nat (length (pbk_Value key)) =? bytesNeeded (wrap_int (pbk_Length key))) then Some (Err ErrInvalidKeyLength) else
              k ← Take (ToKey (pbk_Value key)) (wrap_int (pbk_Length key));
              match read_children (map_range (pbn_Children pbNode)) ∅ with
              | Err e => Some (Err e)
              | Ok children => Some (Ok (mkProofNode k (if pbm_IsNothing valueOrHash then pn_ValueOrHash node else Some (pbm_Value valueOrHash)) children))
              end
          end
      end
  end.

(** A node of a slice that was just made. *)
Definition zero_node : ProofNode := mkProofNode emptyKey None ∅.

Fixpoint read_nodes (nodes : list (option pb_ProofNode)) : option (result (list ProofNode) proto_error) :=
  match nodes with
  | [] => Some (Ok [])
  | pbNode :: nodes =>
      node ← ProofNode_UnmarshalProto zero_node pbNode;
      match node with
      | Err e => Some (Err e)
      | Ok node => rest ← read_nodes nodes; Some (match rest with Ok rest => Ok (node :: rest) | Err e => Err e end)
      end
  end.

Definition Proof_UnmarshalProto (proof : Proof) (pbProof : option pb_Proof) : option (result Proof proto_error) :=
  match pbProof with
  | None => Some (Err ErrNilProof)
  | Some pbProof =>
      match pbp_Value pbProof with
      | None => Some (Err ErrNilValue)
      | Some value =>
          if pbm_IsNothing value && negb (Nat.eqb (length (pbm_Value value)) 0) then Some (Err ErrInvalidMaybe) else
          path ← read_nodes (pbp_Proof pbProof);
          Some (match path with
                | Err e => Err e
                | Ok path => Ok (mkProof path (ToKey (pbp_Key pbProof)) (if pbm_IsNothing value then pr_Value proof else Some (pbm_Value value)))
                end)
      end
  end.

Definition RangeProof_UnmarshalProto (pbProof : option pb_RangeProof) : option (result RangeProof proto_error) :=
  match pbProof with
  | None => Some (Err ErrNilRangeProof)
  | Some pbProof =>
      startProof ← read_nodes (pbr_StartProof pbProof);
      match startProof with
      | Err e => Some (Err e)
      | Ok startProof =>
          endProof ← read_nodes (pbr_EndProof pbProof);
          match endProof with
          | Err e => Some (Err e)
          | Ok endProof =>
              keyValues ← mapM (fmap (λ kv, mkKeyValue (pbkv_Key kv) (pbkv_Value kv))) (pbr_KeyValues pbProof);
              Some (Ok (mkRangeProof startProof endProof keyValues))
          end
      end
  end.

Fixpoint read_changes (changes : list (option pb_KeyChange)) : option (result (list KeyChange) proto_error) :=
  match changes with
  | [] => Some (Ok [])
  | kv :: changes =>
      kv ← kv;
      match pbkc_Value kv with
      | None => Some (Err ErrNilMaybeBytes)
      | Some value =>
          if pbm_IsNothing value && negb (Nat.eqb (length (pbm_Value value)) 0) then Some (Err ErrInvalidMaybe) else
          rest ← read_changes changes;
          Some (match rest with
                | Ok rest => Ok (mkKeyChange (pbkc_Key kv) (if pbm_IsNothing value then None else Some (pbm_Value value)) :: rest)
                | Err e => Err e
                end)
      end
  end.

Definition ChangeProof_UnmarshalProto (pbProof : option pb_ChangeProof) : option (result ChangeProof proto_error) :=
  match pbProof with
  | None => Some (Err ErrNilChangeProof)
  | Some pbProof =>
      startProof ← read_nodes (pbc_StartProof pbProof);
      match startProof with
      | Err e => Some (Err e)
      | Ok startProof =>
          endProof ← read_nodes (pbc_EndProof pbProof);
          match endProof with
          | Err e => Some (Err e)
          | Ok endProof => keyChanges ← read_changes (pbc_KeyChanges pbProof); Some (match keyChanges with Ok keyChanges => Ok (mkChangeProof startProof endProof keyChanges) | Err e => Err e end)
          end
      end
  end.
End Unmarshal.

(** ** Round trips *)

Section roundtrip.
Context {RZ : MapRange Z}.

(** A node as the trie has it: a padded key, indices that are bytes. *)
Record node_ok (node : ProofNode) : Prop := {
  no_key : ∃ l, packs (pn_Key node) l ∧ Z.of_nat (length l) < 2 ^ 63;
  no_index : ∀ x, is_Some (pn_Children node !! x) → 0 ≤ x ≤ 255;
}.

Lemma ID_of_id_bytes (i : ID) : ID_of_bytes (id_bytes i) = Some i.
Proof. unfold ID_of_bytes. destruct (decide _) as [H|H]; [f_equal; by apply ID_eq|]. destruct H. apply id_ok. Qed.

Lemma read_children_ok (children : gmap Z ID) es acc :
  NoDup es.*1 → (∀ x b, (x, b) ∈ es → x ≤ 255 ∧ id_bytes <$> children !! x = Some b) →
  ∃ r, read_children es acc = Ok r ∧ ∀ x, r !! x = if decide (x ∈ es.*1) then children !! x else acc !! x.
Proof.
  revert acc. induction es as [|[x b] es IH]; intros acc Hnd Hes; [by exists acc|]. cbn in Hnd. apply NoDup_cons in Hnd as [Hin Hnd]. destruct (Hes x b ltac:(left)) as [Hx Hb]. cbn [read_children].
  destruct (Z.ltb_spec 255 x) as [|_]; [lia|]. destruct (children !! x) as [i|] eqn:Ei; [|done]. cbn in Hb. injection Hb as <-. unfold ToID. rewrite ID_of_id_bytes.
  destruct (IH (<[x := i]> acc) Hnd) as (r & -> & Hr); [intros y b' Hy; apply Hes; by right|]. exists r. split; [done|]. intros y. rewrite Hr. cbn [fmap list_fmap fst]. destruct (decide (y = x)) as [->|Hne].
  - rewrite decide_False, lookup_insert_eq, decide_True by (done || left). done.
  - rewrite lookup_insert_ne by done. destruct (decide (y ∈ es.*1)) as [Hy|Hy]; [by rewrite decide_True by (by right)|]. rewrite decide_False; [done|]. by intros [|]%elem_of_cons.
Qed.

Lemma maybe_roundtrip (o : option bytes) :
  pbm_IsNothing (maybe_ToProto o) && negb (Nat.eqb (length (pbm_Value (maybe_ToProto o))) 0) = false ∧ (if pbm_IsNothing (maybe_ToProto o) then None else Some (pbm_Value (maybe_ToProto o))) = o.
Proof. by destruct o. Qed.

Lemma node_roundtrip node : node_ok node → ProofNode_UnmarshalProto zero_node (Some (ProofNode_ToProto node)) = Some (Ok node).
Proof.
  intros [(l & Hl & Hlen) Hidx]. unfold ProofNode_UnmarshalProto, ProofNode_ToProto. cbn [pbn_ValueOrHash pbn_Key pbn_Children pbk_Length pbk_Value]. destruct (maybe_roundtrip (pn_ValueOrHash node)) as [-> Hv].
  rewrite (pk_length _ _ Hl), wrap64_id by (unfold is_u64, MaxUint64; lia). rewrite wrap_int_id by lia. unfold Key_Bytes. rewrite (packs_value_length _ _ Hl), bytesNeeded_nat, Z.eqb_refl. cbn [negb].
  change (ToKey (k_value (pn_Key node))) with (toKey (k_value (pn_Key node))). destruct (Take_spec _ _ (length l) (packs_toKey _ (pk_bytes _ _ Hl))) as (k & -> & Hk). rewrite (packs_bits _ _ Hl) in Hk.
  rewrite (packs_unique _ _ _ Hk Hl). cbn [mbind option_bind]. destruct (read_children_ok (pn_Children node) (map_range (id_bytes <$> pn_Children node)) ∅) as (r & -> & Hr).
  - apply NoDup_map_range_keys.
  - intros x b Hx%elem_of_map_range. rewrite lookup_fmap in Hx. split; [|done]. apply Hidx. destruct (pn_Children node !! x); [by eexists|done].
  - cbn [pn_ValueOrHash zero_node]. rewrite Hv. assert (r = pn_Children node) as ->; [|by destruct node]. apply map_eq. intros x. rewrite Hr, lookup_empty. case_decide as Hx; [done|].
    destruct (pn_Children node !! x) as [i|] eqn:E; [|done]. destruct Hx. apply list_elem_of_fmap. exists (x, id_bytes i). split; [done|]. apply elem_of_map_range. by rewrite lookup_fmap, E.
Qed.

Lemma nodes_roundtrip nodes : Forall node_ok nodes → read_nodes ((λ node, Some (ProofNode_ToProto node)) <$> nodes) = Some (Ok nodes).
Proof. induction 1 as [|node nodes Hn _ IH]; [done|]. cbn [fmap list_fmap read_nodes]. rewrite node_roundtrip by done. cbn [mbind option_bind]. fold (fmap (M:=list) (λ node, Some (ProofNode_ToProto node)) nodes). by rewrite IH. Qed.

Lemma changes_roundtrip kcs : read_changes ((λ kv, Some (mkPbKeyChange (kc_Key kv) (Some (maybe_ToProto (kc_Value kv))))) <$> kcs) = Some (Ok kcs).
Proof.
  induction kcs as [|[key val] kcs IH]; [done|]. rewrite fmap_cons. cbn [read_changes mbind option_bind pbkc_Value pbkc_Key]. destruct (maybe_roundtrip val) as [Hm Hv]. cbn [kc_Value]. rewrite Hm, Hv, IH. done.
Qed.

Lemma values_roundtrip kvs : mapM (M:=option) (fmap (λ kv, mkKeyValue (pbkv_Key kv) (pbkv_Value kv))) ((λ kv, Some (mkPbKeyValue (kv_Key kv) (kv_Value kv))) <$> kvs) = Some kvs.
Proof. apply mapM_Some. induction kvs as [|[key val] kvs IH]; rewrite ?fmap_nil, ?fmap_cons; constructor; done. Qed.
End roundtrip.

(** C20: Proofs survive the messages that carry them: reading the message of a proof of a key,
    of a range or of changes into a new value gives the proof back, when the keys of its
    nodes are padded bits, fewer than 2^63, and the key of the proof is of whole bytes. *)
Theorem proof_messages_roundtrip (RZ : MapRange Z) (proof : Proof) (range : RangeProof) (changes : ChangeProof) (key : bytes) :
  pr_Key proof = ToKey key → Forall node_ok (pr_Path proof) →
  Forall node_ok (rp_StartProof range) → Forall node_ok (rp_EndProof range) → Forall node_ok (cp_StartProof changes) → Forall node_ok (cp_EndProof changes) →
  Proof_UnmarshalProto (mkProof [] emptyKey None) (Some (Proof_ToProto proof)) = Some (Ok proof) ∧
  RangeProof_UnmarshalProto (Some (RangeProof_ToProto range)) = Some (Ok range) ∧
  ChangeProof_UnmarshalProto (Some (ChangeProof_ToProto changes)) = Some (Ok changes).
Proof.
  intros Hk Hp Hrs Hre Hcs Hce. split; [|split].
  - unfold Proof_UnmarshalProto, Proof_ToProto. cbn [pbp_Value pbp_Proof pbp_Key pr_Value]. destruct (maybe_roundtrip (pr_Value proof)) as [-> ->]. rewrite nodes_roundtrip by done. cbn. rewrite Hk. destruct proof. cbn in *. by subst.
  - unfold RangeProof_UnmarshalProto, RangeProof_ToProto. cbn [pbr_StartProof pbr_EndProof pbr_KeyValues]. rewrite nodes_roundtrip by done. cbn [mbind option_bind]. rewrite nodes_roundtrip by done. cbn [mbind option_bind].
    rewrite values_roundtrip. by destruct range.
  - unfold ChangeProof_UnmarshalProto, ChangeProof_ToProto. cbn [pbc_StartProof pbc_EndProof pbc_KeyChanges]. rewrite nodes_roundtrip by done. cbn [mbind option_bind]. rewrite nodes_roundtrip by done. cbn [mbind option_bind].
    rewrite changes_roundtrip. by destruct changes.
Qed.

Definition demo_node : ProofNode := mkProofNode (mkKey 4 [16]) (Some [7]) {[ 3 := Empty ]}.

Lemma demo_node_ok : node_ok demo_node.
Proof.
  split.
  - exists [false; false; false; true]. split; [|done]. split; [done|repeat constructor; done|]. exists 4%nat. split; [lia|reflexivity].
  - intros x [i Hx]. cbn in Hx. apply lookup_singleton_Some in Hx as [<- _]. lia.
Qed.

Lemma proof_messages_roundtrip_witness :
  let RZ := canonical_range Z in
  let proof := mkProof [demo_node] (ToKey [17]) (Some [7]) in
  let range := mkRangeProof [] [demo_node] [mkKeyValue [1] [2]] in
  let changes := mkChangeProof [demo_node] [] [mkKeyChange [1] None] in
  Proof_UnmarshalProto (mkProof [] emptyKey None) (Some (Proof_ToProto proof)) = Some (Ok proof) ∧
  RangeProof_UnmarshalProto (Some (RangeProof_ToProto range)) = Some (Ok range) ∧
  ChangeProof_UnmarshalProto (Some (ChangeProof_ToProto changes)) = Some (Ok changes).
Proof.
  intros RZ proof range changes. assert (Forall node_ok [demo_node]) as H by (apply Forall_cons; split; [apply demo_node_ok|constructor]).
  apply (proof_messages_roundtrip RZ proof range changes [17]); [reflexivity|exact H|constructor|exact H|exact H|constructor].
Defined.

(** The length of a key is converted to an integer before it is checked: a length close
    to 2^64 gives a key of negative length. *)
Theorem negative_key_accepted :
  let RZ := canonical_range Z in
  let pbNode := mkPbProofNode (Some (mkPbKey (2 ^ 64 - 1) [255])) (Some (mkPbMaybeBytes [] true)) ∅ in
  ∃ node, ProofNode_UnmarshalProto zero_node (Some pbNode) = Some (Ok node) ∧ k_length (pn_Key node) = -1.
Proof. intros RZ pbNode. eexists. split; vm_compute; reflexivity. Qed.
