(* ===== verification/LinkedDB.v ===== *)
(** * The linked database (src/database/linkeddb/linkeddb.go)

    A key-value store that keeps its entries in a doubly linked list inside another
    database, newest first, with a cache of nodes and of the head.  A computation takes
    the store and returns a result or an error with the store it leaves, or [None] when
    the code would panic.  Locks make every method one step. *)
From S2P Require Import Prelude Bytes LinkedList LinkedHashmap LRUCache Database.

(** ** Data *)

Record lnode : Type := mkLnode { ln_Value : bytes; ln_HasNext : bool; ln_Next : bytes; ln_HasPrevious : bool; ln_Previous : bytes }.

(** The zero node. *)
Definition lnode_zero : lnode := mkLnode [] false [] false [].

Inductive ldb_error : Type := DbErr (e : db_error) | NodeErr.

(** What is used of the codec of nodes. *)
Class NodeCodec : Type := {
  marshal_node : lnode → result bytes ldb_error;
  unmarshal_node : bytes → result lnode ldb_error;
}.

Definition headKey : bytes := [1].
Definition nodeKey (key : bytes) : bytes := 0 :: key.
Definition defaultCacheSize : Z := 1024.

Section LinkedDB.
Context `{D : Database DB It Ba} `{!MapRange bytes} {NC : NodeCodec}.

(** The cache maps a key to a node, or to nil when the key is known to be absent. *)
Abbreviation cache := (LRU (K := bytes) (V := option lnode)).

Record linkedDB : Type := mkLinkedDB {
  l_headKeyIsSynced : bool;
  l_headKeyExists : bool;
  l_headKeyIsUpdated : bool;
  l_updatedHeadKeyExists : bool;
  l_headKey : bytes;
  l_updatedHeadKey : bytes;
  l_nodeCache : cache;
  l_updatedNodes : gmap bytes (option lnode);
  l_db : DB;
  l_batch : Ba;
}.

Definition set_synced (exists_ : bool) (key : bytes) (s : linkedDB) : linkedDB :=
  mkLinkedDB true exists_ (l_headKeyIsUpdated s) (l_updatedHeadKeyExists s) key (l_updatedHeadKey s) (l_nodeCache s) (l_updatedNodes s) (l_db s) (l_batch s).
Definition set_updated (updated exists_ : bool) (key : bytes) (s : linkedDB) : linkedDB :=
  mkLinkedDB (l_headKeyIsSynced s) (l_headKeyExists s) updated exists_ (l_headKey s) key (l_nodeCache s) (l_updatedNodes s) (l_db s) (l_batch s).
Definition set_cache (c : cache) (s : linkedDB) : linkedDB :=
  mkLinkedDB (l_headKeyIsSynced s) (l_headKeyExists s) (l_headKeyIsUpdated s) (l_updatedHeadKeyExists s) (l_headKey s) (l_updatedHeadKey s) c (l_updatedNodes s) (l_db s) (l_batch s).
Definition set_updatedNodes (ns : gmap bytes (option lnode)) (s : linkedDB) : linkedDB :=
  mkLinkedDB (l_headKeyIsSynced s) (l_headKeyExists s) (l_headKeyIsUpdated s) (l_updatedHeadKeyExists s) (l_headKey s) (l_updatedHeadKey s) (l_nodeCache s) ns (l_db s) (l_batch s).
Definition set_db (db : DB) (s : linkedDB) : linkedDB :=
  mkLinkedDB (l_headKeyIsSynced s) (l_headKeyExists s) (l_headKeyIsUpdated s) (l_updatedHeadKeyExists s) (l_headKey s) (l_updatedHeadKey s) (l_nodeCache s) (l_updatedNodes s) db (l_batch s).
Definition set_batch (b : Ba) (s : linkedDB) : linkedDB :=
  mkLinkedDB (l_headKeyIsSynced s) (l_headKeyExists s) (l_headKeyIsUpdated s) (l_updatedHeadKeyExists s) (l_headKey s) (l_updatedHeadKey s) (l_nodeCache s) (l_updatedNodes s) (l_db s) b.

Definition ldb_New (db : DB) (cacheSize : Z) : linkedDB :=
  mkLinkedDB false false false false [] [] (mkLRU None cacheSize) ∅ db (db_NewBatch db).
Definition ldb_NewDefault (db : DB) : linkedDB := ldb_New db defaultCacheSize.

(** ** Computations *)

Definition LM (A : Type) : Type := linkedDB → option (result A ldb_error * linkedDB).

#[global] Instance LM_ret : MRet LM := λ A a s, Some (Ok a, s).
#[global] Instance LM_bind : MBind LM := λ A B k m s,
  match m s with
  | None => None
  | Some (Err e, s) => Some (Err e, s)
  | Some (Ok a, s) => k a s
  end.

Definition lfail {A} (e : ldb_error) : LM A := λ s, Some (Err e, s).
Definition lget {A} (f : linkedDB → A) : LM A := λ s, Some (Ok (f s), s).
Definition lmodify (f : linkedDB → linkedDB) : LM unit := λ s, Some (Ok tt, f s).
(** The error of a call is a value. *)
Definition try {A} (m : LM A) : LM (result A ldb_error) := λ s, match m s with Some (r, s) => Some (Ok r, s) | None => None end.
Definition lerror (e : option db_error) : LM unit := match e with Some e => lfail (DbErr e) | None => mret tt end.

(** ** The head and the nodes *)

Definition getHeadKey : LM bytes :=
  s ← lget id;
  if l_headKeyIsSynced s then (if l_headKeyExists s then mret (l_headKey s) else lfail (DbErr ErrNotFound)) else
  match db_Get (l_db s) headKey with
  | Ok key => _ ← lmodify (set_synced true key); mret key
  | Err ErrNotFound => _ ← lmodify (λ s, set_synced false (l_headKey s) s); lfail (DbErr ErrNotFound)
  | Err e => lfail (DbErr e)
  end.

(** The calls of the batch. *)
Definition batch_Put (key value : bytes) : LM unit :=
  s ← lget id; let '(b, e) := ba_Put (l_batch s) key value in _ ← lmodify (set_batch b); lerror e.
Definition batch_Delete (key : bytes) : LM unit :=
  s ← lget id; let '(b, e) := ba_Delete (l_batch s) key in _ ← lmodify (set_batch b); lerror e.

Definition putHeadKey (key : bytes) : LM unit := _ ← lmodify (set_updated true true key); batch_Put headKey key.
Definition deleteHeadKey : LM unit := _ ← lmodify (λ s, set_updated true false (l_updatedHeadKey s) s); batch_Delete headKey.

(** The calls of the cache. *)
Definition cache_Get (key : bytes) : LM (option (option lnode)) := λ s, '(c, v) ← lru_get [] None (l_nodeCache s) key; Some (Ok v, set_cache c s).
Definition cache_Put (key : bytes) (n : option lnode) : LM unit := λ s, c ← lru_put [] None (l_nodeCache s) key n; Some (Ok tt, set_cache c s).

Definition ldb_getNode (key : bytes) : LM lnode :=
  cached ← cache_Get key;
  match cached : option (option lnode) with
  | Some None => lfail (DbErr ErrNotFound)
  | Some (Some n) => mret n
  | None =>
      db ← lget l_db;
      match db_Get db (nodeKey key) with
      | Err ErrNotFound => _ ← cache_Put key None; lfail (DbErr ErrNotFound)
      | Err e => lfail (DbErr e)
      | Ok nodeBytes =>
          match unmarshal_node nodeBytes with
          | Ok n => _ ← cache_Put key (Some n); mret n
          | Err e => lfail e
          end
      end
  end.

Definition putNode (key : bytes) (n : lnode) : LM unit :=
  _ ← lmodify (λ s, set_updatedNodes (<[key := Some n]> (l_updatedNodes s)) s);
  match marshal_node n with Err e => lfail e | Ok nodeBytes => batch_Put (nodeKey key) nodeBytes end.
Definition deleteNode (key : bytes) : LM unit :=
  _ ← lmodify (λ s, set_updatedNodes (<[key := None]> (l_updatedNodes s)) s); batch_Delete (nodeKey key).

Definition resetBatch : LM unit :=
  lmodify (λ s, set_batch (ba_Reset (l_batch s)) (set_updatedNodes ∅ (set_updated false (l_updatedHeadKeyExists s) (l_updatedHeadKey s) s))).

Fixpoint cache_all (ns : list (bytes * option lnode)) : LM unit :=
  match ns with [] => mret tt | (key, n) :: ns => _ ← cache_Put key n; cache_all ns end.

Definition ldb_writeBatch : LM unit :=
  s ← lget id;
  let '(db, e) := ba_Write (l_db s) (l_batch s) in
  _ ← lmodify (set_db db);
  _ ← lerror e;
  _ ← (if l_headKeyIsUpdated s then lmodify (set_synced (l_updatedHeadKeyExists s) (l_updatedHeadKey s)) else mret tt);
  cache_all (map_range (l_updatedNodes s)).

(** ** Operations *)

Definition ldb_Has (key : bytes) : LM bool :=
  db ← lget l_db; match db_Has db (nodeKey key) with Ok b => mret b | Err e => lfail (DbErr e) end.

Definition ldb_Get (key : bytes) : LM bytes := n ← ldb_getNode key; mret (ln_Value n).

Definition ldb_Put (key value : bytes) : LM unit :=
  _ ← resetBatch;
  existing ← try (ldb_getNode key);
  match existing : result lnode ldb_error with
  | Ok n => _ ← putNode key (mkLnode value (ln_HasNext n) (ln_Next n) (ln_HasPrevious n) (ln_Previous n)); ldb_writeBatch
  | Err (DbErr ErrNotFound) =>
      head ← try getHeadKey;
      newHead ← match head : result bytes ldb_error with
                | Ok oldKey =>
                    oldHead ← ldb_getNode oldKey;
                    _ ← putNode oldKey (mkLnode (ln_Value oldHead) (ln_HasNext oldHead) (ln_Next oldHead) true key);
                    mret (mkLnode value true oldKey false [])
                | Err (DbErr ErrNotFound) => mret (mkLnode value false [] false [])
                | Err e => lfail e
                end;
      _ ← putNode key newHead;
      _ ← putHeadKey key;
      ldb_writeBatch
  | Err e => lfail e
  end.

Definition ldb_Delete (key : bytes) : LM unit :=
  current ← try (ldb_getNode key);
  match current : result lnode ldb_error with
  | Err (DbErr ErrNotFound) => mret tt
  | Err e => lfail e
  | Ok currentNode =>
      _ ← resetBatch;
      _ ← deleteNode key;
      _ ← (if ln_HasPrevious currentNode then
             previousNode ← ldb_getNode (ln_Previous currentNode);
             _ ← putNode (ln_Previous currentNode) (mkLnode (ln_Value previousNode) (ln_HasNext currentNode) (ln_Next currentNode) (ln_HasPrevious previousNode) (ln_Previous previousNode));
             if ln_HasNext currentNode then
               nextNode ← ldb_getNode (ln_Next currentNode);
               putNode (ln_Next currentNode) (mkLnode (ln_Value nextNode) (ln_HasNext nextNode) (ln_Next nextNode) true (ln_Previous currentNode))
             else mret tt
           else if negb (ln_HasNext currentNode) then deleteHeadKey
           else
             _ ← putHeadKey (ln_Next currentNode);
             nextNode ← ldb_getNode (ln_Next currentNode);
             putNode (ln_Next currentNode) (mkLnode (ln_Value nextNode) (ln_HasNext nextNode) (ln_Next nextNode) false []));
      ldb_writeBatch
  end.

Definition HeadKey : LM bytes := getHeadKey.
Definition IsEmpty : LM bool :=
  r ← try HeadKey;
  match r : result bytes ldb_error with Ok _ => mret false | Err (DbErr ErrNotFound) => mret true | Err e => lfail e end.
Definition Head : LM (bytes * bytes) := key ← getHeadKey; n ← ldb_getNode key; mret (key, ln_Value n).

(** ** Iterators *)

Record liter : Type := mkLiter { i_initialized : bool; i_exhausted : bool; i_key : bytes; i_value : bytes; i_nextKey : bytes; i_err : option ldb_error }.

Definition ldb_NewIterator : liter := mkLiter false false [] [] [] None.
Definition ldb_NewIteratorWithStart (start : bytes) : LM liter :=
  r ← try (ldb_Has start);
  mret (match r : result bool ldb_error with Ok true => mkLiter true false [] [] start None | _ => ldb_NewIterator end).

(** The end, with the error that is kept. *)
Definition iter_end (it : liter) (e : ldb_error) : liter :=
  mkLiter (i_initialized it) true [] [] (i_nextKey it) (match e with DbErr ErrNotFound => i_err it | e => Some e end).

Definition liter_Next (it : liter) : LM (liter * bool) :=
  if i_exhausted it then mret (mkLiter (i_initialized it) true [] [] (i_nextKey it) (i_err it), false) else
  start ← (if i_initialized it then mret (Ok it) else
           let it := mkLiter true (i_exhausted it) (i_key it) (i_value it) (i_nextKey it) (i_err it) in
           head ← try getHeadKey;
           mret (match head : result bytes ldb_error with
                 | Err e => Err (iter_end it e)
                 | Ok key => Ok (mkLiter true (i_exhausted it) (i_key it) (i_value it) key (i_err it))
                 end));
  match start : result liter liter with
  | Err it => mret (it, false)
  | Ok it =>
      next ← try (ldb_getNode (i_nextKey it));
      match next : result lnode ldb_error with
      | Err e => mret (iter_end it e, false)
      | Ok n => mret (mkLiter true (negb (ln_HasNext n)) (i_nextKey it) (ln_Value n) (ln_Next n) (i_err it), true)
      end
  end.
End LinkedDB.
Arguments linkedDB DB Ba : clear implicits.
