(* ===== verification/LinkedDBSpec.v ===== *)
(** * The linked database as a list

    What the store holds is a list of entries, newest first.  [seg] gives the node of
    each key of a list; an operation stages the nodes that change and writes them at
    once ([ldb_writeBatch_spec]). *)
From S2P Require Import Prelude Bytes LinkedList LinkedHashmap LRUCache Database LinkedDB.

Abbreviation kvs := (list (bytes * bytes)).

(** ** The nodes of a list *)

Definition mk_node (prev : option bytes) (v : bytes) (next : option bytes) : lnode :=
  mkLnode v (bool_decide (is_Some next)) (default [] next) (bool_decide (is_Some prev)) (default [] prev).

Definition first (l : kvs) (next : option bytes) : option bytes := match l with [] => next | e :: _ => Some e.1 end.
Definition lastk (prev : option bytes) (l : kvs) : option bytes := match last l with Some e => Some e.1 | None => prev end.

(** The node of [k] in a part of the list between [prev] and [next]. *)
Fixpoint seg (prev : option bytes) (l : kvs) (next : option bytes) (k : bytes) : option lnode :=
  match l with
  | [] => None
  | (k', v) :: l => if decide (k = k') then Some (mk_node prev v (first l next)) else seg (Some k') l next k
  end.
Definition truth (l : kvs) : bytes → option lnode := seg None l None.

Lemma lastk_cons prev k v l : lastk prev ((k, v) :: l) = lastk (Some k) l.
Proof. unfold lastk. destruct l as [|e l]; [done|]. rewrite last_cons_cons. by destruct (last (e :: l)) eqn:E; [|apply last_None in E]. Qed.

Lemma seg_app prev l1 l2 next k : seg prev (l1 ++ l2) next k = match seg prev l1 (first l2 next) k with Some n => Some n | None => seg (lastk prev l1) l2 next k end.
Proof.
  revert prev. induction l1 as [|[k' v] l1 IH]; intros prev; [done|]. cbn [app seg]. case_decide; [by destruct l1|]. by rewrite IH, lastk_cons.
Qed.

Lemma seg_None prev l next k : seg prev l next k = None ↔ k ∉ l.*1.
Proof.
  revert prev. induction l as [|[k' v] l IH]; intros prev; cbn [seg fmap list_fmap fst]; [split; [intros _; apply not_elem_of_nil|done]|]. case_decide as Hd.
  - subst. split; [done|]. intros H. destruct H. left.
  - rewrite IH, not_elem_of_cons. tauto.
Qed.

(** The values are at hand. *)
Lemma seg_value prev l next k n : seg prev l next k = Some n → (k, ln_Value n) ∈ l.
Proof. revert prev. induction l as [|[k' v] l IH]; intros prev; [done|]. cbn [seg]. case_decide as Hd; [subst; intros [= <-]; left|]. intros H. right. by eapply IH. Qed.

Lemma truth_split l1 k v l2 : k ∉ l1.*1 → truth (l1 ++ (k, v) :: l2) k = Some (mk_node (lastk None l1) v (first l2 None)).
Proof. intros Hk. unfold truth. rewrite seg_app. rewrite (proj2 (seg_None None l1 _ k)) by done. cbn [seg]. by rewrite decide_True. Qed.

Lemma in_split_key (l : kvs) k : NoDup l.*1 → k ∈ l.*1 → ∃ l1 v l2, l = l1 ++ (k, v) :: l2 ∧ (k ∉ l1.*1) ∧ (k ∉ l2.*1).
Proof.
  intros Hnd ([k' v] & -> & Hin)%list_elem_of_fmap. apply list_elem_of_split in Hin as (l1 & l2 & ->). exists l1, v, l2. split; [done|]. rewrite fmap_app, fmap_cons in Hnd. apply NoDup_app in Hnd as (_ & Hdis & Hnd2).
  apply NoDup_cons in Hnd2 as [H2 _]. split; [|done]. intros H. apply (Hdis _ H). left.
Qed.

(** ** The operations on the list *)

Definition put_list (l : kvs) (k v : bytes) : kvs := if decide (k ∈ l.*1) then map (λ e, if decide (e.1 = k) then (k, v) else e) l else (k, v) :: l.
Definition delete_list (l : kvs) (k : bytes) : kvs := filter (λ e, e.1 ≠ k) l.

Lemma map_absent l k v : k ∉ l.*1 → map (λ e : bytes * bytes, if decide (e.1 = k) then (k, v) else e) l = l.
Proof. induction l as [|e l IH]; intros Hk; [done|]. cbn in *. apply not_elem_of_cons in Hk as [H1 H2]. rewrite decide_False by done. f_equal. by apply IH. Qed.
Lemma put_list_split l1 k w l2 v : k ∉ l1.*1 → k ∉ l2.*1 → put_list (l1 ++ (k, w) :: l2) k v = l1 ++ (k, v) :: l2.
Proof.
  intros H1 H2. unfold put_list. rewrite decide_True by (rewrite fmap_app, fmap_cons; apply elem_of_app; right; left). rewrite map_app. cbn [map fst]. rewrite decide_True, !map_absent by done. done.
Qed.
Lemma delete_list_split l1 k w l2 : k ∉ l1.*1 → k ∉ l2.*1 → delete_list (l1 ++ (k, w) :: l2) k = l1 ++ l2.
Proof.
  intros H1 H2. unfold delete_list. rewrite filter_app, filter_cons_False by (cbn; tauto). assert (∀ l : kvs, k ∉ l.*1 → filter (λ e, e.1 ≠ k) l = l) as Hid; [|by rewrite !Hid].
  intros l Hl. induction l as [|e l IH]; [done|]. cbn in Hl. apply not_elem_of_cons in Hl as [He Hl]. rewrite filter_cons_True by congruence. by rewrite IH.
Qed.
Lemma delete_list_absent l k : k ∉ l.*1 → delete_list l k = l.
Proof. intros Hl. unfold delete_list. induction l as [|e l IH]; [done|]. cbn in Hl. apply not_elem_of_cons in Hl as [He Hl]. rewrite filter_cons_True by congruence. by rewrite IH. Qed.

(** The nodes after a step: those of [ns], and the old ones elsewhere. *)
Definition overrides (ns : gmap bytes (option lnode)) (old new : bytes → option lnode) : Prop := ∀ k, new k = match ns !! k with Some o => o | None => old k end.

Lemma truth_set l1 k w l2 v : k ∉ l1.*1 →
  overrides {[ k := Some (mk_node (lastk None l1) v (first l2 None)) ]} (truth (l1 ++ (k, w) :: l2)) (truth (l1 ++ (k, v) :: l2)).
Proof.
  intros H1 k'. destruct (decide (k' = k)) as [->|Hne]; [rewrite lookup_singleton_eq; by apply truth_split|]. rewrite lookup_singleton_ne by done. unfold truth. rewrite !seg_app. cbn [first fst seg].
  by rewrite !decide_False by done.
Qed.

Lemma truth_cons k v l : k ∉ l.*1 →
  overrides (match l with [] => {[ k := Some (mk_node None v None) ]} | (h, w) :: l2 => <[k := Some (mk_node None v (Some h))]> {[ h := Some (mk_node (Some k) w (first l2 None)) ]} end) (truth l) (truth ((k, v) :: l)).
Proof.
  intros Hk k'. unfold truth. destruct l as [|[h w] l2]; cbn [seg first fst]; destruct (decide (k' = k)) as [->|Hne].
  - by rewrite lookup_singleton_eq.
  - by rewrite lookup_singleton_ne.
  - by rewrite lookup_insert_eq.
  - rewrite lookup_insert_ne by done. destruct (decide (k' = h)) as [->|Hne2]; [by rewrite lookup_singleton_eq|by rewrite lookup_singleton_ne].
Qed.

Lemma truth_delete_head k v l2 : NoDup ((k, v) :: l2).*1 →
  overrides (match l2 with [] => {[ k := None ]} | (x, w) :: b => <[x := Some (mk_node None w (first b None))]> {[ k := None ]} end) (truth ((k, v) :: l2)) (truth l2).
Proof.
  cbn. intros [Hk Hnd]%NoDup_cons k'. unfold truth. destruct l2 as [|[x w] b]; cbn [seg first fst].
  - destruct (decide (k' = k)) as [->|Hne]; [by rewrite lookup_singleton_eq|by rewrite lookup_singleton_ne].
  - cbn in Hk. apply not_elem_of_cons in Hk as [Hkx Hkb]. destruct (decide (k' = x)) as [->|Hne]; [by rewrite lookup_insert_eq|]. rewrite lookup_insert_ne by done.
    destruct (decide (k' = k)) as [->|Hne2]; [rewrite lookup_singleton_eq; by apply seg_None|by rewrite lookup_singleton_ne].
Qed.

Lemma truth_delete_inner a p pv k v l2 : NoDup (a ++ (p, pv) :: (k, v) :: l2).*1 →
  overrides (match l2 with
             | [] => <[p := Some (mk_node (lastk None a) pv None)]> {[ k := None ]}
             | (x, w) :: b => <[x := Some (mk_node (Some p) w (first b None))]> (<[p := Some (mk_node (lastk None a) pv (Some x))]> {[ k := None ]})
             end) (truth (a ++ (p, pv) :: (k, v) :: l2)) (truth (a ++ (p, pv) :: l2)).
Proof.
  rewrite fmap_app, !fmap_cons. cbn [fst]. intros (_ & Hdis & [Hp [Hk Hnd]%NoDup_cons]%NoDup_cons)%NoDup_app k'. apply not_elem_of_cons in Hp as [Hpk Hp]. unfold truth. rewrite !seg_app. cbn [seg first fst].
  assert (∀ y, y ∈ p :: k :: l2.*1 → seg None a (Some p) y = None) as Ha by (intros y Hy; apply seg_None; intros H; by apply (Hdis _ H)).
  destruct (decide (k' = p)) as [->|Hnp].
  { rewrite Ha by left. destruct l2 as [|[x w] b]; [by rewrite lookup_insert_eq|]. cbn in Hp. apply not_elem_of_cons in Hp as [Hpx _]. by rewrite lookup_insert_ne, lookup_insert_eq. }
  destruct (decide (k' = k)) as [->|Hnk].
  { rewrite Ha by (right; left). assert (seg (Some p) l2 None k = None) as -> by (by apply seg_None). destruct l2 as [|[x w] b]; [by rewrite lookup_insert_ne, lookup_singleton_eq|].
    cbn in Hk. apply not_elem_of_cons in Hk as [Hkx _]. by rewrite !lookup_insert_ne, lookup_singleton_eq. }
  destruct l2 as [|[x w] b]; [by rewrite lookup_insert_ne, lookup_singleton_ne|]. destruct (decide (k' = x)) as [->|Hnx].
  - rewrite lookup_insert_eq, Ha by (right; right; left). cbn [seg]. by rewrite decide_True.
  - rewrite !lookup_insert_ne, lookup_singleton_ne by done. cbn [seg]. by rewrite !decide_False.
Qed.

(** ** The store holds a list *)

(** Bytes, fewer than memory can hold. *)
Definition byte_list (b : bytes) : Prop := Forall is_byte b ∧ Z.of_nat (length b) < 2 ^ 62.
Definition node_bytes (n : lnode) : Prop := byte_list (ln_Value n) ∧ byte_list (ln_Next n) ∧ byte_list (ln_Previous n).

Class NodeCodecLaws (NC : NodeCodec) : Prop := {
  node_roundtrip_law : ∀ n bs, node_bytes n → marshal_node n = Ok bs → unmarshal_node bs = Ok n;
  node_error_law : ∀ n e, marshal_node n = Err e → e = NodeErr;
}.

Section Spec.
Context `{D : Database DB It Ba} (L : DatabaseLaws D) {RB : MapRange bytes} {NC : NodeCodec} {NL : NodeCodecLaws NC}.
Implicit Types (s : linkedDB DB Ba) (l : kvs) (m : kvmap) (k : bytes) (n : lnode).

Definition node_stored m k (o : option lnode) : Prop :=
  match o with Some n => ∃ bs, marshal_node n = Ok bs ∧ m !! nodeKey k = Some bs | None => m !! nodeKey k = None end.

Record ldb_rep m l : Prop := {
  rep_nodup : NoDup l.*1;
  rep_bytes : Forall (λ e, byte_list e.1 ∧ byte_list e.2) l;
  rep_head : m !! headKey = first l None;
  rep_nodes : ∀ k, node_stored m k (truth l k);
}.

(** Entries of the cache are nodes of the list, or known to be absent. *)
Definition cached l (c : LRU (K := bytes) (V := option lnode)) : Prop := ∃ size es, implements_cache c size es ∧ ∀ e, e ∈ es → truth l e.1 = e.2.

Record ldb_ok s m l : Prop := {
  lo_inv : db_inv (l_db s);
  lo_contents : contents (l_db s) = Some m;
  lo_rep : ldb_rep m l;
  lo_batch : ba_inv (l_batch s);
  lo_synced : l_headKeyIsSynced s = true → first l None = if l_headKeyExists s then Some (l_headKey s) else None;
  lo_cache : cached l (l_nodeCache s);
}.

(** What reading leaves alone. *)
Definition scratch s : bool * bool * bytes * gmap bytes (option lnode) * Ba := (l_headKeyIsUpdated s, l_updatedHeadKeyExists s, l_updatedHeadKey s, l_updatedNodes s, l_batch s).

(** ** Rules *)

Definition lwp {A} (c : LM A) s (Q : result A ldb_error → linkedDB DB Ba → Prop) : Prop := ∃ r s', c s = Some (r, s') ∧ Q r s'.

Lemma lwp_ret {A} (a : A) s (Q : result A ldb_error → linkedDB DB Ba → Prop) : Q (Ok a) s → lwp (mret a) s Q.
Proof. intros H. by exists (Ok a), s. Qed.
Lemma lwp_fail {A} e s (Q : result A ldb_error → linkedDB DB Ba → Prop) : Q (Err e) s → lwp (lfail e) s Q.
Proof. intros H. by exists (Err e), s. Qed.
Lemma lwp_get {A} (f : linkedDB DB Ba → A) s (Q : result A ldb_error → linkedDB DB Ba → Prop) : Q (Ok (f s)) s → lwp (lget f) s Q.
Proof. intros H. by exists (Ok (f s)), s. Qed.
Lemma lwp_modify f s (Q : result () ldb_error → linkedDB DB Ba → Prop) : Q (Ok tt) (f s) → lwp (lmodify f) s Q.
Proof. intros H. by exists (Ok tt), (f s). Qed.
Lemma lwp_bind {A B} (c : LM A) (f : A → LM B) s Q : lwp c s (λ r s', match r with Ok a => lwp (f a) s' Q | Err e => Q (Err e) s' end) → lwp (c ≫= f) s Q.
Proof. intros ([a|e] & s' & Hc & HQ); unfold lwp, mbind, LM_bind; rewrite Hc; [done|]. by exists (Err e), s'. Qed.
Lemma lwp_try {A} (c : LM A) s (Q : result (result A ldb_error) ldb_error → linkedDB DB Ba → Prop) : lwp c s (λ r s', Q (Ok r) s') → lwp (try c) s Q.
Proof. intros (r & s' & Hc & HQ). exists (Ok r), s'. unfold try. by rewrite Hc. Qed.
Lemma lwp_mono {A} (c : LM A) s (P Q : result A ldb_error → linkedDB DB Ba → Prop) : lwp c s P → (∀ r s', P r s' → Q r s') → lwp c s Q.
Proof. intros (r & s' & Hc & HP) H. exists r, s'. auto. Qed.

(** ** The cache *)

Lemma cache_step_in size (es : list (bytes * option lnode)) k o e : e ∈ cache_step size es (LRUCache.CPut k o) → e = (k, o) ∨ (e ∈ es ∧ e.1 ≠ k).
Proof.
  cbn. unfold put_entry, drop_key. rewrite elem_of_app, list_elem_of_filter, list_elem_of_singleton. intros [[Hne Hin]| ->]; [right|by left]. split; [|done]. unfold make_room in Hin. destruct (_ =? _); [|done]. by destruct es; [|right].
Qed.

Lemma cache_Get_spec s l k (Q : result (option (option lnode)) ldb_error → linkedDB DB Ba → Prop) :
  cached l (l_nodeCache s) → (∀ c o, cached l c → match o with Some o => truth l k = o | None => True end → Q (Ok o) (set_cache c s)) → lwp (cache_Get k) s Q.
Proof.
  intros (size & es & Hc & Hes) HQ. destruct (lru_step_spec [] None (l_nodeCache s) size es (LRUCache.CGet k) Hc) as (c & Hstep & Hc'). cbn in Hstep, Hc'. unfold lwp, cache_Get. rewrite Hstep. cbn. eexists _, _. split; [done|]. apply HQ.
  - exists size, (cache_step size es (LRUCache.CGet k)). split; [done|]. intros e He. cbn in He. destruct (find_key k es) as [o|] eqn:Ef; [|by apply Hes]. unfold put_entry, drop_key in He. rewrite elem_of_app, list_elem_of_filter, list_elem_of_singleton in He.
    destruct He as [[_ He]| ->]; [by apply Hes|]. apply find_key_in in Ef. by apply (Hes (k, o)).
  - destruct (find_key k es) as [o|] eqn:Ef; [|done]. apply find_key_in in Ef. by apply (Hes (k, o)).
Qed.

Lemma cache_Put_spec s l k o (Q : result () ldb_error → linkedDB DB Ba → Prop) :
  cached l (l_nodeCache s) → truth l k = o → (∀ c, cached l c → Q (Ok tt) (set_cache c s)) → lwp (cache_Put k o) s Q.
Proof.
  intros (size & es & Hc & Hes) Ho HQ. destruct (lru_step_spec [] None (l_nodeCache s) size es (LRUCache.CPut k o) Hc) as (c & Hstep & Hc'). cbn in Hstep. unfold lwp, cache_Put. destruct (lru_put [] None (l_nodeCache s) k o) as [c1|]; [|done].
  cbn in Hstep |- *. injection Hstep as ->. eexists _, _. split; [done|]. apply HQ. exists size, (cache_step size es (LRUCache.CPut k o)). split; [done|]. intros e [->|[He _]]%cache_step_in; [done|by apply Hes].
Qed.

(** Entries of keys that are still to be put may be old. *)
Lemma cache_all_spec ns s l l' (Q : result () ldb_error → linkedDB DB Ba → Prop) :
  cached l (l_nodeCache s) → NoDup ns.*1 → (∀ k o, (k, o) ∈ ns → truth l' k = o) → (∀ k, k ∉ ns.*1 → truth l' k = truth l k) → (∀ c, cached l' c → Q (Ok tt) (set_cache c s)) → lwp (cache_all ns) s Q.
Proof.
  intros (size & es & Hc & Hes) Hnd Hns Hold HQ. assert (∀ e, e ∈ es → truth l' e.1 = e.2 ∨ e.1 ∈ ns.*1) as Hes'.
  { intros e He. destruct (decide (e.1 ∈ ns.*1)); [by right|]. left. rewrite Hold by done. by apply Hes. }
  clear Hes Hold. revert s es Hc Hes' HQ. induction ns as [|[k o] ns IH]; intros s es Hc Hes HQ; cbn [cache_all].
  { apply lwp_ret. specialize (HQ (l_nodeCache s)). destruct s. apply HQ. exists size, es. split; [done|]. intros e He. destruct (Hes e He) as [|[]%elem_of_nil]; done. }
  cbn in Hnd. apply NoDup_cons in Hnd as [Hk Hnd]. destruct (lru_step_spec [] None (l_nodeCache s) size es (LRUCache.CPut k o) Hc) as (c & Hstep & Hc'). apply lwp_bind. unfold cache_Put at 1. cbn in Hstep.
  destruct (lru_put [] None (l_nodeCache s) k o) as [c1|] eqn:Ep; [|done]. cbn in Hstep. injection Hstep as ->. eexists _, _. split; [by rewrite Ep|].
  apply (IH Hnd ltac:(intros; apply Hns; by right) (set_cache c s) (cache_step size es (LRUCache.CPut k o))); [done| |intros c2 Hc2; by apply (HQ c2)].
  intros e [->|[He Hne]]%cache_step_in; [left; apply Hns; left|]. destruct (Hes e He) as [|[Heq|]%elem_of_cons]; [by left|by destruct Hne|by right].
Qed.

(** ** Reading *)

Lemma truth_bytes l k n : Forall (λ e, byte_list e.1 ∧ byte_list e.2) l → truth l k = Some n → byte_list k ∧ node_bytes n.
Proof.
  assert (∀ o : option bytes, (∀ b, o = Some b → byte_list b) → byte_list (default [] o)) as Hdef by (intros [b|] H; [by apply H|split; [constructor|done]]).
  assert (∀ prev next, (∀ b, prev = Some b → byte_list b) → (∀ b, next = Some b → byte_list b) → Forall (λ e, byte_list e.1 ∧ byte_list e.2) l → seg prev l next k = Some n → byte_list k ∧ node_bytes n) as H; [|by apply H].
  induction l as [|[k' v] l IH]; intros prev next Hp Hn Hb Hs; [done|]. apply Forall_cons in Hb as [[Hk Hv] Hb]. cbn [seg] in Hs. case_decide as Hd.
  - subst. injection Hs as <-. split; [done|]. split; [done|]. split; [apply Hdef|by apply Hdef]. intros b Hfb. destruct l as [|e l]; [by apply Hn|]. cbn in Hfb. injection Hfb as <-. apply Forall_cons in Hb as [[H _] _]. done.
  - apply (IH (Some k') next); try done. by intros b [= <-].
Qed.

Definition found {A} (o : option A) : result A ldb_error := match o with Some a => Ok a | None => Err (DbErr ErrNotFound) end.

Lemma getHeadKey_spec s m l (Q : result bytes ldb_error → linkedDB DB Ba → Prop) :
  ldb_ok s m l → (∀ s', ldb_ok s' m l → scratch s' = scratch s → Q (found (first l None)) s') → lwp getHeadKey s Q.
Proof.
  intros Hok HQ. pose proof Hok as [H1 H2 H3 H4 H5 H6]. unfold getHeadKey. apply lwp_bind, lwp_get. cbn [id]. destruct (l_headKeyIsSynced s) eqn:Es.
  - rewrite H5 in HQ by done. destruct (l_headKeyExists s); [apply lwp_ret|apply lwp_fail]; by apply HQ.
  - rewrite (Get_law _ headKey H1), H2, (rep_head _ _ H3). destruct (first l None) as [h|] eqn:Eh; apply lwp_bind, lwp_modify; [apply lwp_ret|apply lwp_fail]; apply HQ; try done; by split.
Qed.

Lemma ldb_getNode_spec s m l k (Q : result lnode ldb_error → linkedDB DB Ba → Prop) :
  ldb_ok s m l → (∀ s', ldb_ok s' m l → scratch s' = scratch s → Q (found (truth l k)) s') → lwp (ldb_getNode k) s Q.
Proof.
  intros [H1 H2 H3 H4 H5 H6] HQ. unfold ldb_getNode. apply lwp_bind. apply (cache_Get_spec s l); [done|]. intros c o Hc Ho. assert (ldb_ok (set_cache c s) m l) as Hok by (by split).
  destruct o as [[n|]|]; [apply lwp_ret|apply lwp_fail|]; [rewrite Ho in HQ; by apply HQ..|]. apply lwp_bind, lwp_get. cbn [l_db set_cache]. rewrite (Get_law _ (nodeKey k) H1), H2. pose proof (rep_nodes _ _ H3 k) as Hst. unfold node_stored in Hst.
  destruct (truth l k) as [n|] eqn:Et.
  - destruct Hst as (bs & Hbs & ->). destruct (truth_bytes l k n (rep_bytes _ _ H3) Et) as [_ Hb]. rewrite (node_roundtrip_law n bs Hb Hbs). apply lwp_bind. apply (cache_Put_spec _ l); [done|done|]. intros c' Hc'. apply lwp_ret, HQ; [by split|done].
  - rewrite Hst. apply lwp_bind. apply (cache_Put_spec _ l); [done|done|]. intros c' Hc'. apply lwp_fail, HQ; [by split|done].
Qed.

(** ** Staging changes *)

Lemma nodeKey_inj k k' : nodeKey k = nodeKey k' → k = k'.
Proof. by intros [= ->]. Qed.

(** The batch holds the nodes [ns] and the head [hd]. *)
Record staged s m l (ns : gmap bytes (option lnode)) (hd : option (option bytes)) : Prop := {
  sg_ok : ldb_ok s m l;
  sg_nodes : l_updatedNodes s = ns;
  sg_head : match hd with None => l_headKeyIsUpdated s = false | Some o => l_headKeyIsUpdated s = true ∧ o = if l_updatedHeadKeyExists s then Some (l_updatedHeadKey s) else None end;
  sg_pending_nodes : ∀ k, match ns !! k with Some o => node_stored (apply_ops (pending (l_batch s)) m) k o | None => apply_ops (pending (l_batch s)) m !! nodeKey k = m !! nodeKey k end;
  sg_pending_head : apply_ops (pending (l_batch s)) m !! headKey = match hd with None => m !! headKey | Some o => o end;
}.

Lemma staged_read s s' m l ns hd : ldb_ok s' m l → scratch s' = scratch s → staged s m l ns hd → staged s' m l ns hd.
Proof. intros Hok [= E1 E2 E3 E4 E5] [H1 H2 H3 H4 H5]. split; rewrite ?E1, ?E2, ?E3, ?E4, ?E5; done. Qed.

Lemma resetBatch_spec s m l (Q : result () ldb_error → linkedDB DB Ba → Prop) : ldb_ok s m l → (∀ s', staged s' m l ∅ None → Q (Ok tt) s') → lwp resetBatch s Q.
Proof.
  intros [H1 H2 H3 H4 H5 H6] HQ. destruct (ba_Reset_law _ H4) as [Hb Hp]. apply lwp_modify, HQ. split; [by split|done|done| |]; cbn; rewrite Hp; [|done]. intros k. by rewrite lookup_empty.
Qed.

Lemma stored_put m k bs k' o : node_stored m k' o → k' ≠ k → node_stored (<[nodeKey k := bs]> m) k' o.
Proof. intros H Hne. assert (nodeKey k ≠ nodeKey k') as Hk by (intros E; apply Hne; by apply nodeKey_inj in E). unfold node_stored. rewrite lookup_insert_ne by done. done. Qed.

Lemma apply_ops_snoc ops op m : apply_ops (ops ++ [op]) m = apply_op (apply_ops ops m) op.
Proof. by rewrite apply_ops_app. Qed.

Lemma putNode_spec s m l ns hd k n (Q : result () ldb_error → linkedDB DB Ba → Prop) :
  staged s m l ns hd → (match marshal_node n with Ok _ => ∀ s', staged s' m l (<[k := Some n]> ns) hd → Q (Ok tt) s' | Err _ => ∀ s', ldb_ok s' m l → Q (Err NodeErr) s' end) → lwp (putNode k n) s Q.
Proof.
  intros [H1 H2 H3 H4 H5] HQ. unfold putNode. apply lwp_bind, lwp_modify. destruct (marshal_node n) as [bs|e] eqn:Em.
  2:{ apply node_error_law in Em as ->. apply lwp_fail, HQ. destruct H1. by split. }
  unfold batch_Put. apply lwp_bind, lwp_get. cbn [id l_batch set_updatedNodes]. destruct (ba_Put_law (l_batch s) (nodeKey k) bs (lo_batch _ _ _ H1)) as (Hb & Hp & He). destruct (ba_Put (l_batch s) (nodeKey k) bs) as [b e]. cbn in Hb, Hp, He. subst e.
  apply lwp_bind, lwp_modify. apply lwp_ret, HQ. split; cbn; rewrite ?Hp, ?apply_ops_snoc; unfold apply_op; cbn.
  - destruct H1. by split.
  - by rewrite H2.
  - done.
  - intros k'. destruct (decide (k' = k)) as [->|Hne]; [rewrite lookup_insert_eq; exists bs; by rewrite lookup_insert_eq|]. assert (nodeKey k ≠ nodeKey k') as Hk by (intros E; apply Hne; by apply nodeKey_inj in E).
    rewrite (lookup_insert_ne ns) by done. specialize (H4 k'). destruct (ns !! k'); [by apply stored_put|]. by rewrite lookup_insert_ne.
  - by rewrite lookup_insert_ne.
Qed.

Lemma deleteNode_spec s m l ns hd k (Q : result () ldb_error → linkedDB DB Ba → Prop) :
  staged s m l ns hd → (∀ s', staged s' m l (<[k := None]> ns) hd → Q (Ok tt) s') → lwp (deleteNode k) s Q.
Proof.
  intros [H1 H2 H3 H4 H5] HQ. unfold deleteNode, batch_Delete. apply lwp_bind, lwp_modify. apply lwp_bind, lwp_get. cbn [id l_batch set_updatedNodes].
  destruct (ba_Delete_law (l_batch s) (nodeKey k) (lo_batch _ _ _ H1)) as (Hb & Hp & He). destruct (ba_Delete (l_batch s) (nodeKey k)) as [b e]. cbn in Hb, Hp, He. subst e.
  apply lwp_bind, lwp_modify. apply lwp_ret, HQ. split; cbn; rewrite ?Hp, ?apply_ops_snoc; unfold apply_op; cbn.
  - destruct H1. by split.
  - by rewrite H2.
  - done.
  - intros k'. destruct (decide (k' = k)) as [->|Hne]; [rewrite lookup_insert_eq; cbn; by rewrite lookup_delete_eq|]. assert (nodeKey k ≠ nodeKey k') as Hk by (intros E; apply Hne; by apply nodeKey_inj in E).
    rewrite (lookup_insert_ne ns) by done. specialize (H4 k'). destruct (ns !! k') as [[n|]|]; unfold node_stored in *; by rewrite lookup_delete_ne.
  - by rewrite lookup_delete_ne.
Qed.

Lemma putHeadKey_spec s m l ns hd k (Q : result () ldb_error → linkedDB DB Ba → Prop) :
  staged s m l ns hd → (∀ s', staged s' m l ns (Some (Some k)) → Q (Ok tt) s') → lwp (putHeadKey k) s Q.
Proof.
  intros [H1 H2 H3 H4 H5] HQ. unfold putHeadKey, batch_Put. apply lwp_bind, lwp_modify. apply lwp_bind, lwp_get. cbn [id l_batch set_updated].
  destruct (ba_Put_law (l_batch s) headKey k (lo_batch _ _ _ H1)) as (Hb & Hp & He). destruct (ba_Put (l_batch s) headKey k) as [b e]. cbn in Hb, Hp, He. subst e.
  apply lwp_bind, lwp_modify. apply lwp_ret, HQ. split; cbn; rewrite ?Hp, ?apply_ops_snoc; unfold apply_op; cbn.
  - destruct H1. by split.
  - done.
  - done.
  - intros k'. specialize (H4 k'). destruct (ns !! k') as [[n|]|]; unfold node_stored in *; by rewrite lookup_insert_ne.
  - by rewrite lookup_insert_eq.
Qed.

Lemma deleteHeadKey_spec s m l ns hd (Q : result () ldb_error → linkedDB DB Ba → Prop) :
  staged s m l ns hd → (∀ s', staged s' m l ns (Some None) → Q (Ok tt) s') → lwp deleteHeadKey s Q.
Proof.
  intros [H1 H2 H3 H4 H5] HQ. unfold deleteHeadKey, batch_Delete. apply lwp_bind, lwp_modify. apply lwp_bind, lwp_get. cbn [id l_batch set_updated].
  destruct (ba_Delete_law (l_batch s) headKey (lo_batch _ _ _ H1)) as (Hb & Hp & He). destruct (ba_Delete (l_batch s) headKey) as [b e]. cbn in Hb, Hp, He. subst e.
  apply lwp_bind, lwp_modify. apply lwp_ret, HQ. split; cbn; rewrite ?Hp, ?apply_ops_snoc; unfold apply_op; cbn.
  - destruct H1. by split.
  - done.
  - done.
  - intros k'. specialize (H4 k'). destruct (ns !! k') as [[n|]|]; unfold node_stored in *; by rewrite lookup_delete_ne.
  - by rewrite lookup_delete_eq.
Qed.

(** The staged nodes are written to the database and to the cache at once. *)
Lemma ldb_writeBatch_spec s m l ns hd l' (Q : result () ldb_error → linkedDB DB Ba → Prop) :
  staged s m l ns hd → NoDup l'.*1 → Forall (λ e, byte_list e.1 ∧ byte_list e.2) l' → overrides ns (truth l) (truth l') →
  first l' None = match hd with None => first l None | Some o => o end →
  (∀ s' m', ldb_ok s' m' l' → Q (Ok tt) s') → lwp ldb_writeBatch s Q.
Proof.
  intros [[H1 H2 H3 H4 H5 H6] E1 E2 E3 E4] Hnd Hb Hov Hfst HQ. unfold ldb_writeBatch. apply lwp_bind, lwp_get. cbn [id]. destruct (ba_Write_law (l_db s) (l_batch s) H1 H4) as (Hi & Hc & He).
  destruct (ba_Write (l_db s) (l_batch s)) as [db e]. cbn in Hi, Hc, He. rewrite H2 in Hc, He. cbn in Hc, He. subst e. set (m' := apply_ops (pending (l_batch s)) m) in *.
  assert (ldb_rep m' l') as Hrep.
  { split; [done|done| |].
    - rewrite E4, Hfst. destruct hd; [done|]. apply (rep_head _ _ H3).
    - intros k. specialize (E3 k). rewrite (Hov k). destruct (ns !! k) as [o|]; [done|]. pose proof (rep_nodes _ _ H3 k) as Hk. unfold node_stored in *. by rewrite E3. }
  apply lwp_bind, lwp_modify, lwp_bind. apply lwp_ret. apply lwp_bind.
  assert (∀ s1, l_nodeCache s1 = l_nodeCache s → l_db s1 = db → l_batch s1 = l_batch s → (l_headKeyIsSynced s1 = true → first l' None = if l_headKeyExists s1 then Some (l_headKey s1) else None) → lwp (cache_all (map_range (l_updatedNodes s))) s1 Q) as Hlast.
  { intros s1 F1 F2 F3 F4. apply (cache_all_spec _ s1 l l'); [by rewrite F1|apply NoDup_map_range_keys| | |].
    - intros k o Hk%elem_of_map_range. rewrite E1 in Hk. by rewrite (Hov k), Hk.
    - intros k Hk. rewrite (Hov k). destruct (ns !! k) as [o|] eqn:Ek; [|done]. destruct Hk. apply list_elem_of_fmap. exists (k, o). split; [done|]. apply elem_of_map_range. by rewrite E1.
    - intros c Hc'. apply (HQ _ m'). split; cbn; rewrite ?F2, ?F3; done. }
  destruct hd as [o|]; [destruct E2 as [-> ->]|rewrite E2].
  - apply lwp_modify. apply Hlast; [done..|]. cbn. intros _. by rewrite Hfst.
  - apply lwp_ret. apply Hlast; [done..|]. cbn. intros Hsy. by rewrite Hfst, H5.
Qed.

(** ** Lists that can be node_stored *)

Definition is_ok (r : result bytes ldb_error) : bool := match r with Ok _ => true | Err _ => false end.
Definition storable l : bool := forallb (λ k, match truth l k with Some n => is_ok (marshal_node n) | None => true end) l.*1.

Lemma rep_storable m l : ldb_rep m l → storable l = true.
Proof.
  intros Hrep. apply forallb_forall. intros k _. pose proof (rep_nodes _ _ Hrep k) as Hk. destruct (truth l k) as [n|]; [|done]. destruct Hk as (bs & -> & _). done.
Qed.

Lemma not_storable l k n e : truth l k = Some n → marshal_node n = Err e → storable l = false.
Proof.
  intros Hk Hn. destruct (storable l) eqn:Hs; [|done]. unfold storable in Hs. rewrite forallb_forall in Hs. specialize (Hs k). rewrite Hk, Hn in Hs. assert (is_ok (Err e) = true) as Hf; [|done]. apply Hs, list_elem_of_In.
  destruct (decide (k ∈ l.*1)) as [|Hno]; [done|]. apply (seg_None None l None) in Hno. unfold truth in Hk. congruence.
Qed.

(** ** Put and Delete *)

Lemma first_put l k v : k ∈ l.*1 → first (put_list l k v) None = first l None.
Proof. intros Hk. unfold put_list. rewrite decide_True by done. destruct l as [|[k' w] l]; [done|]. cbn. by case_decide; subst. Qed.

Lemma ldb_Put_spec s m l k v (Q : result () ldb_error → linkedDB DB Ba → Prop) :
  ldb_ok s m l → byte_list k → byte_list v →
  (if storable (put_list l k v) then ∀ s' m', ldb_ok s' m' (put_list l k v) → Q (Ok tt) s' else ∀ s', ldb_ok s' m l → Q (Err NodeErr) s') → lwp (ldb_Put k v) s Q.
Proof.
  intros Hok Hbk Hbv HQ. pose proof (lo_rep _ _ _ Hok) as Hrep. pose proof (rep_nodup _ _ Hrep) as Hnd. pose proof (rep_bytes _ _ Hrep) as Hb. set (l' := put_list l k v) in *.
  assert (∀ s' m', ldb_ok s' m' l' → Q (Ok tt) s') as Hdone by (intros s' m' Hok'; rewrite (rep_storable m' l') in HQ by apply Hok'; by apply (HQ s' m')).
  assert (∀ k n e s', truth l' k = Some n → marshal_node n = Err e → ldb_ok s' m l → Q (Err NodeErr) s') as Hbad by (intros k' n e s' Ht He Hok'; rewrite (not_storable l' k' n e) in HQ by done; by apply HQ).
  unfold ldb_Put. apply lwp_bind. apply (resetBatch_spec s m l); [done|]. intros s1 Hs1. apply lwp_bind, lwp_try. apply (ldb_getNode_spec s1 m l); [apply Hs1|]. intros s2 Hok2 Hsc2. pose proof (staged_read _ _ _ _ _ _ Hok2 Hsc2 Hs1) as Hs2.
  destruct (decide (k ∈ l.*1)) as [Hk|Hk].
  - destruct (in_split_key l k Hnd Hk) as (l1 & w & l2 & -> & H1 & H2). rewrite truth_split by done. cbn [found]. assert (l' = l1 ++ (k, v) :: l2) as El by (by apply put_list_split). pose proof (truth_set l1 k w l2 v H1) as Hov. rewrite <- El in Hov.
    apply lwp_bind. eapply (putNode_spec s2 m _ ∅ None); [done|]. cbn [ln_HasNext ln_Next ln_HasPrevious ln_Previous mk_node]. fold (mk_node (lastk None l1) v (first l2 None)).
    destruct (marshal_node _) as [bs|e] eqn:Em; [|intros s3 Hok3; eapply (Hbad k _ e s3); [by rewrite (Hov k), lookup_singleton_eq|done|done]].
    intros s3 Hs3. eapply (ldb_writeBatch_spec s3 m _ _ None l'); [exact Hs3| | |done|by apply first_put|done]; rewrite El; rewrite fmap_app, fmap_cons in *; [done|]. apply Forall_app in Hb as [Hb1 Hb2]. apply Forall_cons in Hb2 as [_ Hb2]. apply Forall_app. split; [done|]. by apply Forall_cons.
  - assert (truth l k = None) as Ht by (by apply seg_None). rewrite Ht. cbn [found]. assert (l' = (k, v) :: l) as El by (unfold l', put_list; by rewrite decide_False). pose proof (truth_cons k v l Hk) as Hov. rewrite <- El in Hov.
    assert (NoDup l'.*1) as Hnd' by (rewrite El; cbn; by apply NoDup_cons). assert (Forall (λ e, byte_list e.1 ∧ byte_list e.2) l') as Hb' by (rewrite El; by apply Forall_cons).
    apply lwp_bind, lwp_try. apply (getHeadKey_spec s2 m l); [done|]. intros s3 Hok3 Hsc3. pose proof (staged_read _ _ _ _ _ _ Hok3 Hsc3 Hs2) as Hs3. apply lwp_bind.
    assert (∀ s4 ns n, staged s4 m l ns None → overrides (<[k := Some n]> ns) (truth l) (truth l') → lwp (putNode k n ≫= λ _, putHeadKey k ≫= λ _, ldb_writeBatch) s4 Q) as Hend.
    { intros s4 ns n Hs4 Hov'. apply lwp_bind. apply (putNode_spec s4 m l ns None); [done|]. destruct (marshal_node n) as [bs|e] eqn:Em; [|intros s5 Hok5; eapply (Hbad k n e s5); [by rewrite (Hov' k), lookup_insert_eq|done|done]].
      intros s5 Hs5. apply lwp_bind. eapply (putHeadKey_spec s5 m l _ None); [done|]. intros s6 Hs6. eapply (ldb_writeBatch_spec s6 m l _ (Some (Some k)) l'); try done. by rewrite El. }
    destruct l as [|[h w] l2]; cbn [first found fst].
    + apply lwp_ret. by apply (Hend s3 ∅).
    + apply lwp_bind. apply (ldb_getNode_spec s3 m ((h, w) :: l2)); [done|]. intros s4 Hok4 Hsc4. pose proof (staged_read _ _ _ _ _ _ Hok4 Hsc4 Hs3) as Hs4. change ((h, w) :: l2) with ([] ++ (h, w) :: l2) at 1. rewrite (truth_split [] h w l2) by apply not_elem_of_nil. cbn [found].
      apply lwp_bind. eapply (putNode_spec s4 m _ ∅ None); [done|]. cbn [ln_Value ln_HasNext ln_Next mk_node]. change (mkLnode w _ _ true k) with (mk_node (Some k) w (first l2 None)).
      cbn in Hk. apply not_elem_of_cons in Hk as [Hkh _].
      destruct (marshal_node _) as [bs|e] eqn:Em; [|intros s5 Hok5; eapply (Hbad h _ e s5); [by rewrite (Hov h), lookup_insert_ne, lookup_singleton_eq|done|done]].
      intros s5 Hs5. apply lwp_ret. by eapply (Hend s5 _ (mk_node None v (Some h)) Hs5).
Qed.

Lemma lastk_snoc prev a p pv : lastk prev (a ++ [(p, pv)]) = Some p.
Proof. unfold lastk. by rewrite last_snoc. Qed.

Lemma ldb_Delete_spec s m l k (Q : result () ldb_error → linkedDB DB Ba → Prop) :
  ldb_ok s m l → (if storable (delete_list l k) then ∀ s' m', ldb_ok s' m' (delete_list l k) → Q (Ok tt) s' else ∀ s', ldb_ok s' m l → Q (Err NodeErr) s') → lwp (ldb_Delete k) s Q.
Proof.
  intros Hok HQ. pose proof (lo_rep _ _ _ Hok) as Hrep. pose proof (rep_nodup _ _ Hrep) as Hnd. pose proof (rep_bytes _ _ Hrep) as Hb. set (l' := delete_list l k) in *.
  assert (∀ s' m', ldb_ok s' m' l' → Q (Ok tt) s') as Hdone by (intros s' m' Hok'; rewrite (rep_storable m' l') in HQ by apply Hok'; by apply (HQ s' m')).
  assert (∀ k n e s', truth l' k = Some n → marshal_node n = Err e → ldb_ok s' m l → Q (Err NodeErr) s') as Hbad by (intros k' n e s' Ht He Hok'; rewrite (not_storable l' k' n e) in HQ by done; by apply HQ).
  unfold ldb_Delete. apply lwp_bind, lwp_try. apply (ldb_getNode_spec s m l); [done|]. intros s1 Hok1 Hsc1. destruct (decide (k ∈ l.*1)) as [Hk|Hk].
  2:{ assert (truth l k = None) as -> by (by apply seg_None). cbn [found]. apply lwp_ret. apply (Hdone s1 m). unfold l'. by rewrite delete_list_absent. }
  destruct (in_split_key l k Hnd Hk) as (l1 & v & l2 & -> & H1 & H2). rewrite truth_split by done. cbn [found]. assert (l' = l1 ++ l2) as El by (by apply delete_list_split).
  assert (NoDup l'.*1) as Hnd'.
  { rewrite El, fmap_app. rewrite fmap_app, fmap_cons in Hnd. apply NoDup_app in Hnd as (? & Hdis & [_ ?]%NoDup_cons). apply NoDup_app. split; [done|]. split; [|done]. intros y Hy Hy2. apply (Hdis y Hy). by right. }
  assert (Forall (λ e, byte_list e.1 ∧ byte_list e.2) l') as Hb' by (rewrite El; apply Forall_app in Hb as [? Hb2]; apply Forall_cons in Hb2 as [_ ?]; by apply Forall_app).
  apply lwp_bind. eapply (resetBatch_spec s1 m _); [done|]. intros s2 Hs2. apply lwp_bind. eapply (deleteNode_spec s2 m _ ∅ None); [done|]. intros s3 Hs3. apply lwp_bind.
  assert (∀ s4 ns hd, staged s4 m (l1 ++ (k, v) :: l2) ns hd → overrides ns (truth (l1 ++ (k, v) :: l2)) (truth l') → first l' None = match hd with None => first (l1 ++ (k, v) :: l2) None | Some o => o end → lwp ldb_writeBatch s4 Q) as Hend.
  { intros s4 ns hd Hs4 Hov Hfst. eapply (ldb_writeBatch_spec s4 m _ ns hd l'); done. }
  destruct l1 as [|[p pv] a _] using rev_ind.
  - cbn [app] in *. pose proof (truth_delete_head k v l2 Hnd) as Hov. rewrite <- (f_equal truth El) in Hov. destruct l2 as [|[x w] b]; cbn [mk_node first fst lastk last ln_HasPrevious ln_HasNext ln_Next].
    + eapply (deleteHeadKey_spec s3 m _ _ None); [done|]. intros s4 Hs4. eapply (Hend s4 _ (Some None)); [exact Hs4|done|by rewrite El].
    + change (default [] (Some x)) with x. apply lwp_bind. eapply (putHeadKey_spec s3 m _ _ None); [done|]. intros s4 Hs4. apply lwp_bind. apply (ldb_getNode_spec s4 m ((k, v) :: (x, w) :: b)); [apply Hs4|]. intros s5 Hok5 Hsc5. pose proof (staged_read _ _ _ _ _ _ Hok5 Hsc5 Hs4) as Hs5.
      cbn in H2. apply not_elem_of_cons in H2 as [Hkx _]. assert (truth ((k, v) :: (x, w) :: b) x = Some (mk_node (Some k) w (first b None))) as -> by (apply (truth_split [(k, v)] x w b); cbn; apply not_elem_of_cons; split; [done|apply not_elem_of_nil]).
      cbn [found]. eapply (putNode_spec s5 m _ _ _); [done|]. cbn [ln_Value ln_HasNext ln_Next mk_node]. change (mkLnode w _ _ false []) with (mk_node None w (first b None)).
      destruct (marshal_node _) as [bs|e] eqn:Em; [|intros s6 Hok6; eapply (Hbad x _ e s6); [by rewrite (Hov x), lookup_insert_eq|done|done]].
      intros s6 Hs6. eapply (Hend s6 _ (Some (Some x))); [exact Hs6|done|by rewrite El].
  - rewrite <- app_assoc in *. cbn [app] in *. pose proof (truth_delete_inner a p pv k v l2 Hnd) as Hov. rewrite <- El in Hov. rewrite lastk_snoc. cbn [mk_node ln_HasPrevious ln_Previous ln_HasNext ln_Next is_Some]. rewrite bool_decide_eq_true_2 by (by eexists). change (default [] (Some p)) with p.
    assert (first l' None = first (a ++ (p, pv) :: (k, v) :: l2) None) as Hfst by (rewrite El; by destruct a).
    apply lwp_bind. apply (ldb_getNode_spec s3 m (a ++ (p, pv) :: (k, v) :: l2)); [apply Hs3|]. intros s4 Hok4 Hsc4. pose proof (staged_read _ _ _ _ _ _ Hok4 Hsc4 Hs3) as Hs4.
    pose proof Hnd as Hnd2. rewrite fmap_app, !fmap_cons in Hnd2. apply NoDup_app in Hnd2 as (_ & Hdis & Hnd2). assert (p ∉ a.*1) as Hpa by (intros H; apply (Hdis _ H); left). rewrite truth_split by done. cbn [found ln_Value ln_HasPrevious ln_Previous mk_node].
    apply lwp_bind. eapply (putNode_spec s4 m _ _ _); [done|]. change (mkLnode pv _ _ _ _) with (mk_node (lastk None a) pv (first l2 None)). cbn [fst] in Hnd2. apply NoDup_cons in Hnd2 as [Hp2 Hnd2]. apply not_elem_of_cons in Hp2 as [Hpk Hp2].
    assert (∀ s5, ldb_ok s5 m (a ++ (p, pv) :: (k, v) :: l2) → ∀ e, marshal_node (mk_node (lastk None a) pv (first l2 None)) = Err e → Q (Err NodeErr) s5) as Hbadp.
    { intros s5 Hok5 e He. eapply (Hbad p _ e s5); [|done|done]. rewrite (Hov p). destruct l2 as [|[x w] b]; [by rewrite lookup_insert_eq|]. cbn in Hp2. apply not_elem_of_cons in Hp2 as [Hpx _]. by rewrite lookup_insert_ne, lookup_insert_eq. }
    destruct (marshal_node _) as [bs|e] eqn:Em; [|intros s5 Hok5; by eapply Hbadp]. clear Hbadp. intros s5 Hs5. destruct l2 as [|[x w] b]; cbn [first fst].
    + rewrite bool_decide_eq_false_2 by (by intros [? ?]). apply lwp_ret. eapply (Hend s5 _ None); [exact Hs5|done|done].
    + rewrite bool_decide_eq_true_2 by (by eexists). change (default [] (Some x)) with x. apply lwp_bind. apply (ldb_getNode_spec s5 m (a ++ (p, pv) :: (k, v) :: (x, w) :: b)); [apply Hs5|]. intros s6 Hok6 Hsc6. pose proof (staged_read _ _ _ _ _ _ Hok6 Hsc6 Hs5) as Hs6.
      assert (truth (a ++ (p, pv) :: (k, v) :: (x, w) :: b) x = Some (mk_node (Some k) w (first b None))) as ->.
      { assert (x ∉ (a ++ [(p, pv); (k, v)]).*1) as Hxa.
        { rewrite fmap_app, elem_of_app. intros [H|H]; [apply (Hdis x H); right; right; left|]. cbn in H. apply elem_of_cons in H as [->|[->|[]%elem_of_nil]%elem_of_cons]; [by apply Hp2; left|]. by apply H2; left. }
        pose proof (truth_split (a ++ [(p, pv); (k, v)]) x w b Hxa) as Ht. rewrite <- app_assoc in Ht. cbn [app] in Ht. rewrite Ht. unfold lastk. by rewrite last_app_cons. }
      cbn [found ln_Value ln_HasNext ln_Next mk_node]. eapply (putNode_spec s6 m _ _ _); [done|]. change (mkLnode w _ _ true p) with (mk_node (Some p) w (first b None)).
      destruct (marshal_node (mk_node (Some p) _ _)) as [bs'|e] eqn:Em'; [|intros s7 Hok7; eapply (Hbad x _ e s7); [by rewrite (Hov x), lookup_insert_eq|done|done]].
      intros s7 Hs7. eapply (Hend s7 _ None); [exact Hs7|done|done].
Qed.

(** ** Queries *)

Lemma ldb_New_ok (db : DB) size m l : db_inv db → contents db = Some m → ldb_rep m l → ldb_ok (ldb_New db size) m l.
Proof.
  intros H1 H2 H3. destruct (NewBatch_law db H1) as [Hb _]. split; try done. exists (capacity size), []. split; [|by intros e ?%elem_of_nil]. split; [done|]. split; [|done]. unfold capacity. cbn. destruct (size <=? 0) eqn:E; lia.
Qed.

Lemma ldb_Has_spec s m l k : ldb_ok s m l → ldb_Has k s = Some (Ok (bool_decide (k ∈ l.*1)), s).
Proof.
  intros Hok. unfold ldb_Has, mbind, LM_bind, lget. rewrite (Has_law _ (nodeKey k) (lo_inv _ _ _ Hok)), (lo_contents _ _ _ Hok). pose proof (rep_nodes _ _ (lo_rep _ _ _ Hok) k) as Hk. unfold mret, LM_ret. do 3 f_equal. apply bool_decide_ext.
  destruct (decide (k ∈ l.*1)) as [Hin|Hin].
  - split; [done|]. intros _. destruct (truth l k) as [n|] eqn:Et; [|by apply seg_None in Et]. destruct Hk as (bs & _ & ->). by eexists.
  - apply (seg_None None l None) in Hin as Ht. unfold truth in Hk. rewrite Ht in Hk. cbn in Hk. rewrite Hk. split; [by intros [? ?]|done].
Qed.

(** ** Iterators *)

(** What an iterator does next: start at the head, go on at a key, or end. *)
Inductive pos : Type := AtStart | At (k : bytes) | Done.

Fixpoint from l k : kvs := match l with [] => [] | e :: l' => if decide (k = e.1) then l else from l' k end.
Definition pos_suffix l (p : pos) : kvs := match p with AtStart => l | At k => from l k | Done => [] end.
Definition pos_next l (p : pos) : pos * option (bytes * bytes) :=
  match pos_suffix l p with [] => (Done, None) | e :: rest => (match rest with [] => Done | e' :: _ => At e'.1 end, Some e) end.

Lemma from_seg prev l k : match seg prev l None k with
  | Some n => ∃ rest, from l k = (k, ln_Value n) :: rest ∧ ln_HasNext n = bool_decide (rest ≠ []) ∧ first rest None = if ln_HasNext n then Some (ln_Next n) else None
  | None => from l k = [] end.
Proof.
  revert prev. induction l as [|[k' v] l IH]; intros prev; [done|]. cbn [seg from fst]. case_decide as Hd; [|apply IH]. subst. exists l. split; [done|]. by destruct l.
Qed.

Definition iter_at (it : liter) (p : pos) : Prop :=
  i_err it = None ∧ match p with
                    | AtStart => i_initialized it = false ∧ i_exhausted it = false
                    | At k => i_initialized it = true ∧ i_exhausted it = false ∧ i_nextKey it = k
                    | Done => i_exhausted it = true
                    end.

Lemma ldb_Next_spec s m l it p (Q : result (liter * bool) ldb_error → linkedDB DB Ba → Prop) :
  ldb_ok s m l → iter_at it p →
  (∀ s' it', ldb_ok s' m l → iter_at it' (pos_next l p).1 → (i_key it', i_value it') = default ([], []) (pos_next l p).2 → Q (Ok (it', bool_decide (is_Some (pos_next l p).2))) s') →
  lwp (liter_Next it) s Q.
Proof.
  intros Hok [He Hp] HQ. unfold liter_Next.
  assert (∀ s1 it1 k, ldb_ok s1 m l → i_err it1 = None → i_nextKey it1 = k → i_initialized it1 = true → pos_suffix l p = from l k →
    lwp (next ← try (ldb_getNode (i_nextKey it1)); match next : result lnode ldb_error with Err e => mret (iter_end it1 e, false) | Ok n => mret (mkLiter true (negb (ln_HasNext n)) (i_nextKey it1) (ln_Value n) (ln_Next n) (i_err it1), true) end) s1 Q) as Hnode.
  { intros s1 it1 k Hok1 He1 Hk1 Hi1 Hsuf. rewrite Hk1. apply lwp_bind, lwp_try. apply (ldb_getNode_spec s1 m l); [done|]. intros s2 Hok2 _. pose proof (from_seg None l k) as Hseg. unfold pos_next in HQ. rewrite Hsuf in HQ. fold (truth l k) in Hseg.
    change (seg None l None k) with (truth l k) in Hseg. destruct (truth l k) as [n|]; cbn [found]; apply lwp_ret.
    - destruct Hseg as (rest & Hf & Hn & Hfst). rewrite Hf in HQ. cbn [fst snd] in HQ. apply HQ; [done| |done]. split; [done|]. cbn [i_exhausted i_initialized i_nextKey]. rewrite Hn in *. destruct rest as [|e rest]; [done|]. cbn in Hfst. by injection Hfst as ->.
    - rewrite Hseg in HQ. by apply HQ. }
  destruct p as [|k|].
  - destruct Hp as [Hi Hx]. rewrite Hx, Hi. apply lwp_bind, lwp_bind, lwp_try. apply (getHeadKey_spec s m l); [done|]. intros s1 Hok1 _. destruct l as [|[h w] l]; cbn [first found fst].
    + apply lwp_ret, lwp_ret. apply HQ; [done|by split|done].
    + apply lwp_ret. apply (Hnode s1 _ h); [done|done|done|done|]. cbn [from fst pos_suffix]. by rewrite decide_True.
  - destruct Hp as (Hi & Hx & Hk). rewrite Hx, Hi. apply lwp_bind, lwp_ret. by apply (Hnode s it k).
  - rewrite Hp. apply lwp_ret, HQ; [done|by split|done].
Qed.

(** ** Sequences of calls *)

Inductive ldb_cmd : Type :=
  | LPut (k v : bytes) | LDelete (k : bytes) | LHas (k : bytes) | LGet (k : bytes) | LIsEmpty | LHeadKey | LHead
  | LNewIterator | LNewIteratorWithStart (k : bytes) | LNext (i : nat) | LReopen (cacheSize : Z).

Inductive ldb_res : Type :=
  | RUnit (r : result () ldb_error) | RBool (r : result bool ldb_error) | RBytes (r : result bytes ldb_error) | REntry (r : result (bytes * bytes) ldb_error)
  | RNext (more : bool) (key value : bytes) (e : option ldb_error) | RNone.

(** The store and the open iterators; [LReopen] opens the database below again. *)
Definition ldb_step (st : linkedDB DB Ba * list liter) (c : ldb_cmd) : option (linkedDB DB Ba * list liter * ldb_res) :=
  let '(s, its) := st in
  match c with
  | LPut k v => '(r, s) ← ldb_Put k v s; Some (s, its, RUnit r)
  | LDelete k => '(r, s) ← ldb_Delete k s; Some (s, its, RUnit r)
  | LHas k => '(r, s) ← ldb_Has k s; Some (s, its, RBool r)
  | LGet k => '(r, s) ← ldb_Get k s; Some (s, its, RBytes r)
  | LIsEmpty => '(r, s) ← IsEmpty s; Some (s, its, RBool r)
  | LHeadKey => '(r, s) ← HeadKey s; Some (s, its, RBytes r)
  | LHead => '(r, s) ← Head s; Some (s, its, REntry r)
  | LNewIterator => Some (s, its ++ [ldb_NewIterator], RNone)
  | LNewIteratorWithStart k => '(r, s) ← ldb_NewIteratorWithStart k s; match r with Ok it => Some (s, its ++ [it], RNone) | Err _ => Some (s, its, RNone) end
  | LNext i =>
      match its !! i with
      | None => Some (s, its, RNone)
      | Some it => '(r, s) ← liter_Next it s; match r with Ok (it, more) => Some (s, <[i := it]> its, RNext more (i_key it) (i_value it) (i_err it)) | Err e => Some (s, its, RNone) end
      end
  | LReopen cacheSize => Some (ldb_New (l_db s) cacheSize, [], RNone)
  end.

(** The same calls on the list; a change whose nodes do not fit is refused. *)
Definition kvs_step (st : kvs * list pos) (c : ldb_cmd) : kvs * list pos * ldb_res :=
  let '(l, ps) := st in
  match c with
  | LPut k v => if storable (put_list l k v) then (put_list l k v, ps, RUnit (Ok tt)) else (l, ps, RUnit (Err NodeErr))
  | LDelete k => if storable (delete_list l k) then (delete_list l k, ps, RUnit (Ok tt)) else (l, ps, RUnit (Err NodeErr))
  | LHas k => (l, ps, RBool (Ok (bool_decide (k ∈ l.*1))))
  | LGet k => (l, ps, RBytes (found (find_key k l)))
  | LIsEmpty => (l, ps, RBool (Ok (bool_decide (l = []))))
  | LHeadKey => (l, ps, RBytes (found (fst <$> head l)))
  | LHead => (l, ps, REntry (found (head l)))
  | LNewIterator => (l, ps ++ [AtStart], RNone)
  | LNewIteratorWithStart k => (l, ps ++ [if decide (k ∈ l.*1) then At k else AtStart], RNone)
  | LNext i =>
      match ps !! i with
      | None => (l, ps, RNone)
      | Some p => let '(p, e) := pos_next l p in (l, <[i := p]> ps, RNext (bool_decide (is_Some e)) (default ([], []) e).1 (default ([], []) e).2 None)
      end
  | LReopen _ => (l, [], RNone)
  end.

Definition cmd_bytes (c : ldb_cmd) : Prop := match c with LPut k v => byte_list k ∧ byte_list v | _ => True end.

Lemma find_truth l k : NoDup l.*1 → find_key k l = ln_Value <$> truth l k.
Proof.
  intros Hnd. destruct (truth l k) as [n|] eqn:Et; cbn; [|by apply find_key_None, (seg_None None l None)]. apply seg_value in Et. unfold find_key. by apply elem_of_list_to_map_1.
Qed.

Lemma first_head l : first l None = fst <$> head l.
Proof. by destruct l. Qed.

Definition simulates (st : linkedDB DB Ba * list liter) (ab : kvs * list pos) : Prop := (∃ m, ldb_ok st.1 m ab.1) ∧ Forall2 iter_at st.2 ab.2.

Lemma lwp_run {A} (c : LM A) s (P : result A ldb_error → linkedDB DB Ba → Prop) (f : result A ldb_error → linkedDB DB Ba → option (linkedDB DB Ba * list liter * ldb_res)) (Q : linkedDB DB Ba * list liter * ldb_res → Prop) :
  lwp c s P → (∀ r s', P r s' → ∃ x, f r s' = Some x ∧ Q x) → ∃ x, ('(r, s') ← c s; f r s') = Some x ∧ Q x.
Proof. intros (r & s' & Hc & HP) H. rewrite Hc. by apply H. Qed.

Lemma ldb_step_spec st ab c : simulates st ab → cmd_bytes c → ∃ st', ldb_step st c = Some (st', (kvs_step ab c).2) ∧ simulates st' (kvs_step ab c).1.
Proof.
  destruct st as [s its], ab as [l ps]. intros [[m Hok] Hits] Hc. cbn [fst snd] in *. pose proof (rep_nodup _ _ (lo_rep _ _ _ Hok)) as Hnd.
  assert (∀ (x : option (linkedDB DB Ba * list liter * ldb_res)) r ab', (∃ y, x = Some y ∧ y.2 = r ∧ simulates y.1 ab') → ∃ st', x = Some (st', r) ∧ simulates st' ab') as Hwrap by (intros x r ab' ([st' r'] & -> & <- & H); by exists st').
  destruct c as [k v|k|k|k| | | | |k|i|size]; cbn [ldb_step kvs_step].
  - apply Hwrap. apply (lwp_run _ _ (λ r s', ∃ m', ldb_ok s' m' (if storable (put_list l k v) then put_list l k v else l) ∧ r = if storable (put_list l k v) then Ok tt else Err NodeErr)).
    + apply (ldb_Put_spec s m l k v); [done|apply Hc|apply Hc|]. destruct (storable (put_list l k v)); eauto.
    + intros r s' (m' & Hok' & ->). eexists. split; [done|]. destruct (storable (put_list l k v)); (split; [done|]; split; [by exists m'|done]).
  - apply Hwrap. apply (lwp_run _ _ (λ r s', ∃ m', ldb_ok s' m' (if storable (delete_list l k) then delete_list l k else l) ∧ r = if storable (delete_list l k) then Ok tt else Err NodeErr)).
    + apply (ldb_Delete_spec s m l k); [done|]. destruct (storable (delete_list l k)); eauto.
    + intros r s' (m' & Hok' & ->). eexists. split; [done|]. destruct (storable (delete_list l k)); (split; [done|]; split; [by exists m'|done]).
  - rewrite (ldb_Has_spec s m l k Hok). cbn. eexists. split; [done|]. split; [by exists m|done].
  - apply Hwrap. apply (lwp_run _ _ (λ r s', ldb_ok s' m l ∧ r = found (find_key k l))).
    + unfold ldb_Get. apply lwp_bind. apply (ldb_getNode_spec s m l k); [done|]. intros s' Hok' _. rewrite (find_truth l k Hnd). by destruct (truth l k); [apply lwp_ret|].
    + intros r s' [Hok' ->]. eexists. split; [done|]. split; [done|]. split; [by exists m|done].
  - apply Hwrap. apply (lwp_run _ _ (λ r s', ldb_ok s' m l ∧ r = Ok (bool_decide (l = [])))).
    + unfold IsEmpty, HeadKey. apply lwp_bind, lwp_try. apply (getHeadKey_spec s m l); [done|]. intros s' Hok' _. destruct l; apply lwp_ret; done.
    + intros r s' [Hok' ->]. eexists. split; [done|]. split; [done|]. split; [by exists m|done].
  - apply Hwrap. apply (lwp_run _ _ (λ r s', ldb_ok s' m l ∧ r = found (fst <$> head l))).
    + apply (getHeadKey_spec s m l); [done|]. intros s' Hok' _. by rewrite first_head.
    + intros r s' [Hok' ->]. eexists. split; [done|]. split; [done|]. split; [by exists m|done].
  - apply Hwrap. apply (lwp_run _ _ (λ r s', ldb_ok s' m l ∧ r = found (head l))).
    + unfold Head. apply lwp_bind. apply (getHeadKey_spec s m l); [done|]. intros s1 Hok1 _. destruct l as [|[h w] l]; cbn [first found fst head]; [done|]. apply lwp_bind. apply (ldb_getNode_spec s1 m ((h, w) :: l)); [done|]. intros s2 Hok2 _.
      change ((h, w) :: l) with ([] ++ (h, w) :: l) at 1. rewrite (truth_split [] h w l) by apply not_elem_of_nil. by apply lwp_ret.
    + intros r s' [Hok' ->]. eexists. split; [done|]. split; [done|]. split; [by exists m|done].
  - eexists. split; [done|]. split; [by exists m|]. cbn. apply Forall2_app; [done|]. constructor; [|constructor]. done.
  - unfold ldb_NewIteratorWithStart, try, mbind at 2, LM_bind. rewrite (ldb_Has_spec s m l k Hok). eexists. split; [done|]. split; [by exists m|]. cbn [fst snd]. apply Forall2_app; [done|]. constructor; [|constructor].
    destruct (decide (k ∈ l.*1)); [by rewrite bool_decide_eq_true_2|by rewrite bool_decide_eq_false_2].
  - destruct (ps !! i) as [p|] eqn:Ep.
    + destruct (Forall2_lookup_r _ _ _ _ _ Hits Ep) as (it & -> & Hit). destruct (pos_next l p) as [p' e] eqn:En. apply Hwrap.
      apply (lwp_run _ _ (λ r s', ∃ it', ldb_ok s' m l ∧ iter_at it' p' ∧ (i_key it', i_value it') = default ([], []) e ∧ r = Ok (it', bool_decide (is_Some e)))).
      * apply (ldb_Next_spec s m l it p); [done|done|]. rewrite En. intros s' it' Hok' Hit' Hkv. by exists it'.
      * intros r s' (it' & Hok' & Hit' & Hkv & ->). eexists. split; [done|]. cbn [snd fst]. split; [rewrite <- Hkv; cbn; by destruct Hit' as [-> _]|]. split; [by exists m|]. cbn. by apply Forall2_insert.
    + assert (its !! i = None) as -> by (apply lookup_ge_None; rewrite (Forall2_length _ _ _ Hits); by apply lookup_ge_None). eexists. split; [done|]. split; [by exists m|done].
  - eexists. split; [done|]. split; [|constructor]. exists m. apply ldb_New_ok; apply Hok.
Qed.

Fixpoint ldb_run (st : linkedDB DB Ba * list liter) (cmds : list ldb_cmd) : option (linkedDB DB Ba * list liter * list ldb_res) :=
  match cmds with
  | [] => Some (st, [])
  | c :: cmds => '(st, r) ← ldb_step st c; '(st, rs) ← ldb_run st cmds; Some (st, r :: rs)
  end.

Fixpoint kvs_run (ab : kvs * list pos) (cmds : list ldb_cmd) : kvs * list pos * list ldb_res :=
  match cmds with
  | [] => (ab, [])
  | c :: cmds => let '(ab, r) := kvs_step ab c in let '(ab, rs) := kvs_run ab cmds in (ab, r :: rs)
  end.

Lemma ldb_run_spec cmds st ab : simulates st ab → Forall cmd_bytes cmds → ∃ st', ldb_run st cmds = Some (st', (kvs_run ab cmds).2) ∧ simulates st' (kvs_run ab cmds).1.
Proof.
  revert st ab. induction cmds as [|c cmds IH]; intros st ab Hs Hc; [by exists st|]. apply Forall_cons in Hc as [Hc1 Hc]. cbn [ldb_run kvs_run]. destruct (ldb_step_spec st ab c Hs Hc1) as (st1 & -> & Hs1). destruct (kvs_step ab c) as [ab1 r]. cbn [fst snd mbind option_bind] in *.
  destruct (IH st1 ab1 Hs1 Hc) as (st2 & -> & Hs2). destruct (kvs_run ab1 cmds) as [ab2 rs]. cbn [fst snd mbind option_bind] in *. by exists st2.
Qed.

Lemma empty_simulates (db : DB) size : db_inv db → contents db = Some ∅ → simulates (ldb_New db size, []) ([], []).
Proof. intros H1 H2. split; [|constructor]. exists ∅. apply ldb_New_ok; [done|done|]. split; [constructor|constructor|done|]. intros k. cbn. by rewrite lookup_empty. Qed.
End Spec.
