(* ===== verification/LinkedStore.v ===== *)
(** * The linked database with its codec (src/database/linkeddb/codec.go)

    The nodes are node_stored as the bytes of the codec; the linked database is then a list of
    entries under every sequence of calls ([linkeddb_refines]). *)
From stdpp Require Import strings.
From S2P Require Import Prelude Bytes Packer Codec CodecEncode CodecDecode CodecManager LinkedList LinkedHashmap LRUCache Database MemDB LinkedDB LinkedDBSpec.

(** ** The codec of nodes *)

Definition node_fields (s : Z) : list field :=
  let on := [("serialize", "true")]%string in
  [mkField (TSlice TUint8) on true; mkField TBool on true; mkField (TSlice TUint8) on true; mkField TBool on true; mkField (TSlice TUint8) on true].
Definition node_tags : list string := ["serialize"%string].

Definition CodecVersion : Z := 0.


Definition node_val (n : lnode) : val :=
  VStruct [VSlice (VNum <$> ln_Value n); VBool (ln_HasNext n); VSlice (VNum <$> ln_Next n); VBool (ln_HasPrevious n); VSlice (VNum <$> ln_Previous n)].
Definition val_node (v : val) : option lnode :=
  match v with
  | VStruct [VSlice value; VBool hasNext; VSlice next; VBool hasPrevious; VSlice previous] => Some (mkLnode (num <$> value) hasNext (num <$> next) hasPrevious (num <$> previous))
  | _ => None
  end.

Section Store.
Context (grow : Z → Z → Z) (Hgrow : ∀ cap neededSize, neededSize ≤ grow cap neededSize).

(** No type is registered and no type is an interface. *)
Definition no_interfaces (t : ty) (i : Z) : bool := false.
(** A node has slices in it. *)
Definition node_comparable (t : ty) : bool := match underlying t with TSlice _ | TMap _ _ | TStruct _ => false | _ => true end.
Definition node_types : TypeCodec := LinearCodec no_interfaces (linear_registry []).
Definition node_types_laws : TypeCodecLaws grow no_interfaces node_types := LinearCodec_laws grow Hgrow no_interfaces [].

(** [Codec], as [init] leaves it. *)
Definition node_codec : manager := (RegisterCodec (NewManager (2 ^ 31 - 1)) CodecVersion (reflect_New grow node_fields node_tags node_comparable node_types)).1.

(** A panic counts as an error here; there is none ([node_marshals]). *)
#[global] Instance StoreCodec : NodeCodec := {|
  marshal_node n := match Marshal grow node_codec CodecVersion (Some (TStruct 0, node_val n)) with Some (Ok bs) => Ok bs | _ => Err NodeErr end;
  unmarshal_node bs := match Unmarshal 3 node_codec bs (Some (TPtr (TStruct 0))) with Some (Ok (_, v)) => match val_node v with Some n => Ok n | None => Err NodeErr end | _ => Err NodeErr end;
|}.

Abbreviation typed := (wf node_fields node_tags node_comparable no_interfaces (@type_id _ _ _ node_types_laws)).

Lemma bytes_typed b : byte_list b → typed (VSlice (VNum <$> b)) (TSlice TUint8) [].
Proof. intros [Hb Hl]. cbn [wf underlying]. split; [unfold small; by rewrite length_map|]. apply all_map. apply Forall_fmap. eapply Forall_impl; [exact Hb|]. intros x Hx. cbn. unfold is_byte in Hx. lia. Qed.

Lemma node_typed n : node_bytes n → typed (node_val n) (TStruct 0) [].
Proof. intros (H1 & H2 & H3). split; [done|]. cbn. pose proof (bytes_typed _ H1). pose proof (bytes_typed _ H2). pose proof (bytes_typed _ H3). done. Qed.

Lemma same_slice b w : same node_fields node_tags (VSlice (VNum <$> b)) (TSlice TUint8) w → w = VSlice (VNum <$> b).
Proof.
  cbn [same underlying]. destruct w as [| | | | |ws| | | |]; try done. intros [Hl Ha]. f_equal. revert ws Hl Ha. induction b as [|x b IH]; intros [|w ws] Hl Ha; try done. cbn in *. destruct Ha as [Hx Ha]. rewrite <- Hx. f_equal. apply IH; [lia|done].
Qed.

Lemma same_node n w : same node_fields node_tags (node_val n) (TStruct 0) w → val_node w = Some n.
Proof.
  intros H. unfold node_val in H. destruct w as [| | | | | | |ws| |]; try done. destruct H as [Hl Ha]. destruct ws as [|w1 [|w2 [|w3 [|w4 [|w5 [|? ?]]]]]]; try done. cbn -[same] in Ha.
  destruct Ha as (H1 & H2 & H3 & H4 & H5 & _). rewrite (same_slice _ _ (H1 eq_refl)), <- (H2 eq_refl : VBool _ = _), (same_slice _ _ (H3 eq_refl)), <- (H4 eq_refl : VBool _ = _), (same_slice _ _ (H5 eq_refl)).
  assert (∀ b : bytes, num <$> (VNum <$> b) = b) as Hnum by (intros b; rewrite <- list_fmap_compose; apply list_fmap_id). cbn [val_node]. rewrite !Hnum. by destruct n.
Qed.

Lemma bytes_depth b : (depth (VSlice (VNum <$> b)) ≤ 2)%nat.
Proof. cbn [depth]. apply le_n_S, max_list_le, Forall_fmap, Forall_fmap. apply Forall_true. cbn. lia. Qed.

Lemma node_depth n : (depth (node_val n) ≤ 3)%nat.
Proof. unfold node_val. cbn [depth map]. apply le_n_S, max_list_le. rewrite !Forall_cons, Forall_nil. repeat split; first [apply bytes_depth|lia]. Qed.

Lemma codec_registered : m_codecs node_codec !! CodecVersion = Some (reflect_New grow node_fields node_tags node_comparable node_types).
Proof. done. Qed.

(** There are no arrays in a node. *)
Lemma node_arrays : byte_arrays grow node_fields node_tags no_interfaces (TL := node_types_laws) (TStruct 0).
Proof.
  intros t Ht. assert (t ∈ [TStruct 0; TSlice TUint8; TBool; TUint8]) as Hin.
  { revert Ht. apply (rtc_closed _ (λ t, t ∈ [TStruct 0; TSlice TUint8; TBool; TUint8])); [|by left]. intros x y Hx Hp. rewrite !elem_of_cons in Hx.
    destruct Hp as [e Hu|e Hu|n e Hu|s f Hu Hf _|k v Hu|k v Hu|i dt Hu [Hr _]]; try done; repeat (destruct Hx as [->|Hx]); try (by apply elem_of_nil in Hx); try done; cbn in Hu; simplify_eq.
    - apply (bool_decide_unpack _). by vm_compute.
    - unfold node_fields in Hf. rewrite !elem_of_cons in Hf. repeat (destruct Hf as [->|Hf]); try (by apply elem_of_nil in Hf); apply (bool_decide_unpack _); by vm_compute. }
  rewrite !elem_of_cons in Hin. intros n e. repeat (destruct Hin as [->|Hin]); try done. by apply elem_of_nil in Hin.
Qed.

(** Marshaling a node never panics, and the bytes are read back. *)
Lemma node_marshals n : node_bytes n → ∃ r, Marshal grow node_codec CodecVersion (Some (TStruct 0, node_val n)) = Some r ∧ ∀ bs, r = Ok bs → unmarshal_node bs = Ok n.
Proof.
  intros Hn. assert (0 ≤ m_maxSize node_codec < 2 ^ 62) as Hmax by (change (m_maxSize node_codec) with (2 ^ 31 - 1); lia). assert (0 ≤ CodecVersion < 2 ^ 16) as Hv by (unfold CodecVersion; lia).
  destruct (Marshal_spec grow Hgrow no_interfaces node_fields node_tags node_comparable node_types node_types_laws node_codec CodecVersion Hmax codec_registered (TStruct 0) (node_val n) (node_typed n Hn)) as (r & Hr & Hspec).
  exists r. split; [done|]. intros bs (e & He & -> & Hle)%Hspec.
  destruct (Unmarshal_encoding grow no_interfaces node_fields node_tags node_comparable node_types node_types_laws node_codec CodecVersion Hv codec_registered (TStruct 0) (node_val n) e 3 node_arrays (node_typed n Hn) He Hle (node_depth n)) as (w & Hw & Hsame).
  cbn [unmarshal_node StoreCodec]. by rewrite Hw, (same_node n w Hsame).
Qed.

#[global] Instance StoreCodec_laws : NodeCodecLaws StoreCodec.
Proof.
  split.
  - intros n bs Hn Hm. destruct (node_marshals n Hn) as (r & Hr & Hun). cbn [marshal_node StoreCodec] in Hm. rewrite Hr in Hm. destruct r as [bs'|e]; [|done]. injection Hm as ->. by apply Hun.
  - intros n e Hm. cbn [marshal_node StoreCodec] in Hm. destruct (Marshal grow node_codec CodecVersion _) as [[bs|e']|]; congruence.
Qed.

(** C23: a linked database opened on an empty database answers every sequence of calls (puts,
    deletes, lookups, head queries, interleaved iterators, and opening the database below
    again with any cache size) without panicking and exactly as a list of entries, newest
    first: a put of a present key replaces its value in place, one of a new key adds it at
    the head, a delete takes the entry out wherever it is, an iterator walks the list as it
    is at each call, and a change whose nodes are larger than the codec allows is refused
    and changes nothing.  It holds over any database that keeps the database laws, for
    every iteration order of maps and for every cache size. *)
Theorem linkeddb_refines `{D : Database DB It Ba} (L : DatabaseLaws D) {RB : MapRange bytes} (db : DB) (cacheSize : Z) (cmds : list ldb_cmd) :
  db_inv db → contents db = Some ∅ → Forall cmd_bytes cmds →
  ∃ st, ldb_run (NC := StoreCodec) (ldb_New db cacheSize, []) cmds = Some (st, (kvs_run (NC := StoreCodec) ([], []) cmds).2).
Proof.
  intros Hinv Hempty Hcmds. destruct (ldb_run_spec L (NC := StoreCodec) cmds (ldb_New db cacheSize, []) ([], [])) as (st & Hst & _); [by apply empty_simulates|done|]. by exists st.
Qed.
End Store.

Definition demo_calls : list ldb_cmd :=
  [LPut [1] [10]; LPut [2] [20]; LPut [3] [30]; LNewIterator; LNext 0; LDelete [2]; LNext 0; LNext 0; LPut [3] [31]; LReopen 1; LHead; LDelete [3]; LGet [3]; LHeadKey].

Lemma linkeddb_refines_witness :
  let _ := canonical_range bytes in
  (∃ st, ldb_run (NC := StoreCodec exact_growth) (ldb_New mem_New 1, []) demo_calls = Some (st, (kvs_run (NC := StoreCodec exact_growth) ([], []) demo_calls).2)) ∧
  (kvs_run (NC := StoreCodec exact_growth) ([], []) demo_calls).2 !! 4%nat = Some (RNext true [3] [30] None) ∧
  (kvs_run (NC := StoreCodec exact_growth) ([], []) demo_calls).2 !! 10%nat = Some (REntry (Ok ([3], [31]))).
Proof.
  intros R. split; [|split; vm_compute; reflexivity].
  apply (linkeddb_refines exact_growth (λ _ n, Z.le_refl n) MemDB_laws mem_New 1 demo_calls); [exact I|reflexivity|].
  repeat constructor; vm_compute; (reflexivity || discriminate).
Defined.
